(* ===== verification/_CoqProject ===== *)
-Q . S2P
Prelude.v
JsValue.v
Paths.v
Urls.v
Roles.v
Domains.v
PolicyTypes.v
PolicyEngine.v
PolicyEngineTheory.v
PathArgs.v
Hashing.v
Numbers.v
CircuitBreaker.v
Tools.v
EscalationIpc.v
AutoApprover.v
ProxyTools.v
Redactor.v
AuditLog.v
Whitelist.v
Pipeline.v
Coordinator.v
PipelineTheory.v
CoordinatorTheory.v
Regex.v
JsInt.v
EgressAddress.v
EgressLedger.v
StepLoop.v
Budget.v
Messages.v
Session.v
WorkflowTypes.v
LaneTemplate.v
StatusParser.v
MachineBuilder.v
Statechart.v
WorkflowValidate.v
PromptBuilder.v
Artifacts.v
AgentTurn.v
MachineTheory.v
FanOut.v
FanOutBatch.v
Skills.v
StatusTheory.v
Demo.v
SessionTheory.v
WorkflowDemo.v
PolicyProperties.v
PipelineProperties.v
CoordinatorProperties.v
BoundaryProperties.v
ToolingProperties.v
SessionProperties.v
WorkflowProperties.v
WorkflowLint.v
FanOutProperties.v
AgentProperties.v
EgressProperties.v
UriText.v
RegistryEgress.v
RegistryProperties.v
MediatedEgress.v
MediatedProperties.v
PackageNames.v
PackageRegistry.v
PackageProperties.v
ProviderConfig.v
MitmProxy.v
MitmProperties.v
PackageEgress.v
PackageEgressProperties.v
Sse.v
ObservationHub.v
ObservationTheory.v
LlmMetrics.v
LlmExchange.v
LlmMetricsTheory.v
LlmExchangeTheory.v
