(* ===== verification/Prelude.v ===== *)
(** * IronCurtain: verification library

    IronCurtain runs an untrusted agent behind a trusted process.  Every tool call
    of the agent crosses one boundary: the call is normalised, judged by a policy
    engine, escalated to a human when the policy says so, rate-limited, forwarded
    to an MCP server and audited.  Around it, sessions drive the agent's turns within
    a budget, and a workflow engine runs many agents as the states of one machine.
    This library models these parts from the sources under src/ (the paths below are
    relative to src/src) and proves what they promise.

    ** The boundary

    A call enters the coordinator (trusted-process/tool-call-coordinator.ts), which
    admits it and serialises it; the pipeline (handleCallTool of
    tool-call-pipeline.ts) normalises its arguments (path-utils.ts), asks the policy
    engine (policy-engine.ts), consults the approval whitelist
    (approval-whitelist.ts), the auto-approver (auto-approver.ts) or a human, checks
    the circuit breaker (call-circuit-breaker.ts), sends it to a server or to the
    proxy's control API (docker/proxy-tools.ts), and writes an audit entry
    (audit-log.ts).

    - [Prelude], [JsValue]: notations, tactics, strings, the insertion-ordered sets
      and objects of JavaScript, JSON values.
    - [Paths], [Roles] (types/argument-roles.ts): path resolution through symbolic
      links, containment, the role registry, conditional roles.
    - [Urls], [Domains] (types/url-normalize.ts, domain-utils.ts, list-matcher.ts):
      normalisers, domain extraction, allowlists.
    - [PolicyTypes], [PolicyEngine] (policy-engine.ts, dynamic-list-types.ts,
      policy-types.ts, pipeline/types.ts): the policy artifacts, list expansion and
      the whole evaluation; [PolicyEngineTheory] relates it to an abstract policy,
      [policy_decision], and ends with the interface the pipeline needs from a
      policy engine, a class with laws, and its instance.
    - [PathArgs] (path-utils.ts, policy-roots.ts), [Whitelist], [Hashing],
      [CircuitBreaker], [AutoApprover], [ProxyTools], [Redactor], [AuditLog]: one
      file per source file of the same name; [Tools] and [EscalationIpc] are the pure helpers and
      the escalation file protocol of tool-call-pipeline.ts, with
      server-context.ts and mcp-error-utils.ts.
    - [Pipeline]: handleCallTool in a monad with state, exceptions and a trace of
      effects.  [PipelineTheory] is a program logic for it with the
      specification of each stage.
    - [Coordinator]: calls, policy loads and closes as threads that interleave at
      their awaits; [CoordinatorTheory] holds its safety and progress invariants.

    ** Sessions

    [AgentSession] (session/agent-session.ts) sends a user message to the language
    model, whose tool calls run code in the sandbox.  [StepLoop]
    (step-loop-detector.ts) blocks repeated code, [Budget]
    (resource-budget-tracker.ts, config/model-id.ts) counts tokens, steps, time and
    cost, [Messages] (message-compactor.ts, prompt-cache.ts, truncate-result.ts)
    holds the messages and their compaction.  [Session] puts them together as events
    between awaits: a message, the end of a compaction, the end of a generation or
    its failure, code starting and ending, rotation and closing.  [SessionTheory] holds
    the invariants.

    ** The workflow engine

    A workflow definition (workflow/types.ts, [WorkflowTypes]) is validated
    (validate.ts, [WorkflowValidate]) and compiled to a statechart with one round
    machine per fan-out state (machine-builder.ts and guards.ts, [MachineBuilder]).
    Agent responses are read by [StatusParser] (status-parser.ts), the prompts and
    commands of a lane are rewritten by [LaneTemplate] (lane-template.ts).  The
    interpreter of statecharts is a parameter, [Statechart].  A fan-out state
    (orchestrator.ts, runFanOutSegment) starts one round machine per lane: [FanOut]
    has the waiters, the drain, the join and the merge, [FanOutBatch] what happens
    around them, the reconstruction of an interrupted batch included.
    One invocation of an agent state (orchestrator.ts, executeAgentState) is
    [AgentTurn]: the turns with their retries, recovery, replacement and artifact
    handoff, in a monad with state and errors.  Its prompts are [PromptBuilder]
    (prompt-builder.ts), the artifact directories [Artifacts] (artifacts.ts and the
    helpers at the end of orchestrator.ts).
    The skills of a session are found, layered and copied by [Skills] (skills/discovery.ts,
    staging.ts, types/slug.ts), which also checks the skills that a workflow refers to.
    [WorkflowLint] (lint.ts, lint-integration.ts) is the linter: one definition per rule,
    with the two walks over the graph that its rules make.
    [MachineTheory], the end of [FanOutBatch] and [StatusTheory] hold the lemmas on machines and
    their runs, step names and status blocks.

    ** Egress of the containers

    A container reaches the network only through listeners of the trusted process.
    The listener for package registries resolves a name once, screens every answer
    and pins the connection to the address it chose: [EgressAddress]
    (docker/package-egress-address-policy.ts) is that decision, with its specification
    on addresses as numbers, the texts of addresses and the discovery of NAT64
    prefixes.  [EgressLedger] (docker/package-egress-ledger.ts) counts attempts, leases
    and bytes, with its invariant and its rate.  [Regex] gives regular
    expressions a language and a matcher, [JsInt] the 32-bit operators of
    JavaScript and big-endian bytes, [Numbers] exact rationals.

    Pulls from container registries are decided by a reviewed manifest:
    [RegistryEgress] (docker/registry-egress-policy.ts) validates the manifest and
    authorises a request or a redirect; [UriText] has the
    URL class, percent-decoding and the header rules (docker/hop-by-hop-headers.ts,
    egress-forwarding.ts).  [MediatedEgress] (docker/mediated-egress.ts and the session
    of registry-egress-proxy.ts) is the life of the forwarded request, every exchange
    of a session being a state machine over the events of its sockets.

    Package registries are filtered: [PackageNames] reads the package and the version
    off the address of a request, [PackageRegistry] (docker/package-validator.ts,
    registry-proxy.ts) validates versions, filters metadata, caches what it allowed
    and answers requests, which interleave at their fetches, with the invariant of that
    cache.

    Packages that a container installs itself go through a listener of their own:
    [PackageEgress] (docker/package-egress-proxy.ts) recognises the routes of the package
    hosts, fetches the metadata of an artifact, asks the same policy, writes the audit and
    then opens one screened connection.  Its state holds the ledger, the audit file, the
    connections, the operations and the requests, each waiting at one await of the source;
    an event is what happens there, and a run any list of events.

    [Demo], [WorkflowDemo] and the end of [SessionTheory] are the inputs on which the witnesses
    evaluate; the files of properties on egress have their own.

    ** The interception proxy

    All other traffic of a container goes through one proxy, which terminates TLS for
    the providers of language models.  [ProviderConfig] (docker/provider-config.ts and
    llm-observation/completion-endpoint.ts) has the endpoints of a provider, the
    descriptors of its completions, the rewriting of bodies and the built-in providers;
    [MitmProxy] (docker/mitm-proxy.ts, proxy-authorization.ts) routes CONNECT, plain and
    upgrade requests, replaces the sentinel key by the real one, refreshes tokens and
    retries.  Its state is the current key of every provider, the added domains, the
    intercepted connections, the requests in progress and the log of every contact; a
    run is a list of events, one per handler that the source runs without an await.

    The responses of language models are observed in passing.  [Sse]
    (docker/llm-observation/sse-event-framer.ts) makes text, lines and events of the
    bytes; [ObservationHub] (content-decoder.ts and response-observation-hub.ts) is the
    queue, the decoder and the consumers, which may throw, return promises or be slow.
    The end of [Sse] compares the framer with a machine that takes one character at a time
    and with a reference that sees the whole text; [ObservationTheory] compares a hub
    with the hub of one consumer alone.

    Metrics are made of these observations.  [LlmMetrics] (llm-metrics/normalization.ts,
    types.ts, protocols/*.ts, protocol-registry.ts) reads scalar facts out of requests,
    headers, bodies and stream events, one adapter for each wire protocol; [LlmExchange]
    (gateways/*.ts, exchange-observer.ts, observed-usage-accumulator.ts) has the adapters of
    the gateways, the observer of one exchange as a state machine over the calls it gets,
    and the totals of a session.  [LlmMetricsTheory] states as an interface what an adapter
    promises, with a program logic for flags, and its instances; [LlmExchangeTheory] proves the
    observer against the interfaces.

    ** What is shown

    - Policy ([PolicyProperties]): evaluation never throws and refines the abstract
      policy; an allowed call satisfies every structural check and every role is
      inside the sandbox or allowed by the first rule that discharges each path;
      protected paths and untrusted domains cannot be overridden by rules; roles
      combine to the strictest decision; git enrichment stays in the sandbox;
      containment is by path component after symbolic links; conditional roles only
      narrow; dynamic lists expand as documented.
    - Pipeline ([PipelineProperties]): no effect without an allow or an approved
      escalation; every answer is audited; a human denial is final; in a world that
      cooperates every call is answered.
    - Coordinator ([CoordinatorProperties]): calls are serialised and work under
      one policy from start to end; policy swaps are atomic and find no started
      call; no reachable state is stuck; closing is final when no policy load
      overlaps it, and a run in which one does and a call outlives the audit log.
    - Boundary ([BoundaryProperties]): the policy judges the path that the server
      uses; container paths round trip; roots are exactly those the policy grants;
      the whitelist approves only what was approved and approves its repetition;
      the circuit breaker's window is exact.
    - Helpers ([ToolingProperties]): the escalation file protocol fails closed; the
      auto-approver is conservative and sees sanitised identifiers only; only
      validated domains reach the control API; the audit log is exact and fails
      closed; redaction replaces exactly its matches; argument validation and the
      routing table are exact.
    - Sessions ([SessionProperties]): no code runs past an exhausted budget or a
      block of the loop detector; the budget's totals are the sums of its steps and
      its limits hold; the loop detector's streaks are exact; a failed turn restores
      the messages, except after a compaction, where the session wedges; a close
      during a turn is undone by the end of the turn.
    - Workflows ([WorkflowProperties]): a validated definition compiles, and its
      machines never go wrong; reachability is exact; visit caps are enforced; a
      checked verdict routes; lanes record only by a reported verdict; scratch paths
      of lanes are disjoint; the final status block is the one parsed; carried texts
      are bounded.  Two definitions that validate and still misbehave.
    - Linter ([WorkflowLint]): its rules on the graph flag exactly the states that paths
      say, a cap that it lets through is enforced, it agrees with the start of a workflow
      about skills, and a definition on which it throws.
    - Skills ([Skills]): the highest layer and the first directory give the skill of a name;
      the staged directory is the last set that was asked for, while no call fails.
    - Fan-out ([FanOutProperties]): the first failure settles the batch and decides
      its result; the merge of recorded lanes, field by field; an interrupted batch
      re-runs exactly the lanes without a step of their own; step names round trip.
    - Agent invocations ([AgentProperties]): whatever an agent answers, at most seven
      turns are sent and none but the first once the budget is exhausted; the log is
      exact; a completed invocation left its artifacts and its result moves the
      machine; the conversation survives success and failure.

    - Egress ([EgressProperties]): a screened destination is a canonical DNS name and
      every one of its addresses is public, IPv4 addresses embedded in IPv6 ones
      included; the prefixes that NAT64 discovery finds are those the screening
      uses; the ledger's counters are those of its leases, its ceilings hold in every
      history, and its rate over every stretch of time.
    - Registry egress ([RegistryProperties], [MediatedProperties]): an authorised
      request is a pull that the manifest lists, with one bearer token at most; no
      redirect carries a credential, leaves HTTPS or goes beyond its hops; whatever
      the sockets do, concurrency and bytes stay below their ceilings, every answer
      is written at most once and every slot comes back.
    - Package registries ([PackageProperties]): an npm, PyPI or crates.io archive that is
      forwarded was validated against metadata of its package within the last hour, a path
      that ends in .deb against the deny list; a filtered packument lists exactly the
      allowed versions; crate addresses round trip; and the archives, spelt in other ways,
      that reach a registry without a decision or under another package's name.
    - Package egress listener ([PackageEgressProperties]): in every run, what leaves was
      recognised, recorded, allowed on metadata of its very version and sent to an address
      that was screened before the dial and checked again on what was read after it; leases are those of open clients and all come back at the stop; redirects
      stay with the package.
    - Interception proxy ([MitmProperties]): in every run, real keys only leave towards
      their provider, on an allowed endpoint, in place of what the client sent; traffic
      goes to listed hosts; the descriptors of completions are unambiguous and allowed;
      rewriting removes exactly the tools it should; and what a refreshed token
      replaces.
    - Observation ([Sse], [ObservationTheory]): framing does not depend on how the
      bytes are cut, and is the SSE format of the text; no consumer notices another;
      what a consumer hears is the beginning of the stream, ceilings or not, and all of it
      once it is told of the end.
    - Metrics ([LlmExchangeTheory]): whatever is sent, the record of an exchange holds bounded
      names, words and flags but no content, and its counts add up; it is written exactly
      once, when its three ends are known; the totals of a session and of its turns lose
      no exchange and count none twice.

    ** Conventions, bounds and fuel

    Strings are byte strings, and truncation is also proved for UTF-16; numbers are
    exact rationals with NaN and infinities; times are integers in milliseconds.
    Exceptions are values of [result], and of [JsError] inside the pipeline.  Fuel:
    [walk_up] counts the parent directories that resolveRealPath climbs, with the
    bound of the source; the escalation poll takes [enough_fuel], the polls that fit
    in the timeout plus two, shown to suffice when every poll advances the clock by
    the polling interval; [reach_loop] takes [reach_fuel], one plus the edges of the
    definition, shown to suffice, and so do the walks of the linter with [walk_fuel];
    [shrink] takes the length of the text, which every
    iteration shortens.

    ** Parameters

    What is not in src/ is a parameter: realpath, the working and home directories
    (class [FileSystem], with [FileSystemLaws]), the URL parser ([UrlParser]), git
    ([GitCli]), the digest, JSON and dates of the runtime ([Runtime]), the policy
    files on disk ([PolicyFiles]), number formatting ([Locale]), the summaries of the
    language model ([Summarizer]), the YAML parser ([Yaml]) and that
    of front matters ([FrontmatterYaml]), the failures of file operations while skills are
    copied ([StagingDisk]), the schema of
    definitions ([DefinitionSchema]), the statechart interpreter ([XState], with
    [XStateLaws] that [interpreter] satisfies), the order of names in a locale
    ([Collation]), the glob matcher of package lists ([Minimatch]), the URL class of the
    runtime ([WebUrl]), the order a sort leaves for an inconsistent comparison
    ([SortChoice]), the answers of registries, the session and the disk as an agent leaves them ([AgentEnv]), the results of deterministic
    commands, IPv6 texts and internationalised names as the runtime
    reads them ([Net]), and the servers, the clock, the human, the language model and the
    interleaved calls ([World]).  [Demo] shows that the laws of the file system can
    hold.

    ** Not modelled

    Process and socket handling around the boundary; the construction of sessions and
    their front ends; of the workflow engine the lifecycle of instances,
    checkpoints and the set-up of an invocation; Docker mode apart from the proxy
    tools, the egress rules, the registries, the package listener (without TLS records, its
    socket file and its timers) and the interception proxy (without its wiring to the
    observers, the trajectories, its sockets and its control server), the inventory of the
    host's own addresses; of the metrics the storage, the queries, the protection of
    identities and the attribution (costs are added exactly, not as doubles); the
    language-model compilation of policies, configuration
    loading, authentication, MCP servers behind the boundary and the user interfaces.

    ** Plan

    Next: result files and checkpoints of the workflow engine; the workload checks, the
    attribution and the queries of the metrics, the scoring of memory retrieval,
    scheduling, and the message formats of the control server. *)
From Stdlib Require Import Ascii.
From stdpp Require Export base list strings gmap pretty.

(** ** Notations *)

Declare Scope curtain_scope.
Delimit Scope curtain_scope with curtain.
Open Scope curtain_scope.

(** Boolean equality of any decidable type, JavaScript's [===] on strings. *)
Notation "x =? y" := (bool_decide (x = y)) (at level 70) : curtain_scope.

(** ** Tactics *)

(** Split boolean conjunctions, disjunctions and negations in the context. *)
Ltac bool_hyps :=
  repeat match goal with
  | H : _ && _ = true |- _ => apply andb_true_iff in H as [? ?]
  | H : _ || _ = false |- _ => apply orb_false_iff in H as [? ?]
  | H : negb _ = true |- _ => apply negb_true_iff in H
  | H : negb _ = false |- _ => apply negb_false_iff in H
  | H : bool_decide _ = true |- _ => apply bool_decide_eq_true in H
  | H : bool_decide _ = false |- _ => apply bool_decide_eq_false in H
  end.

(** Case analysis on every test of the goal, closing the easy branches. *)
Ltac cases := repeat (case_match; simplify_eq/=; try done).

(** ** Errors: a JavaScript computation returns or throws *)

Inductive result (A : Type) : Type :=
| Ok (a : A)
| Throw (msg : string).
Arguments Ok {_} _.
Arguments Throw {_} _.

#[export] Instance result_ret : MRet result := λ A, Ok.
#[export] Instance result_bind : MBind result := λ A B f m,
  match m with Ok a => f a | Throw e => Throw e end.

#[export] Instance result_fmap : FMap result := λ A B f m,
  match m with Ok a => Ok (f a) | Throw e => Throw e end.

#[export] Instance result_eq_dec `{EqDecision A} : EqDecision (result A).
Proof. solve_decision. Defined.

Lemma result_bind_ok {A B} (m : result A) (f : A → result B) b :
  (m ≫= f) = Ok b ↔ ∃ a, m = Ok a ∧ f a = Ok b.
Proof. destruct m; cbn [mbind result_bind]; naive_solver. Qed.

Definition is_ok {A} (r : result A) : Prop := ∃ a, r = Ok a.

(** ** Strings: a JavaScript string is a sequence of code units *)

Definition dquote : string := String (ascii_of_nat 34) "".
Definition newline : string := String (ascii_of_nat 10) "".

Definition startsWith (s p : string) : bool := String.prefix p s.

Fixpoint str_drop (n : nat) (s : string) : string :=
  match n, s with
  | O, _ => s
  | S n, String _ s => str_drop n s
  | S _, "" => ""
  end.

Fixpoint str_take (n : nat) (s : string) : string :=
  match n, s with
  | S n, String a s => String a (str_take n s)
  | _, _ => ""
  end.

(** [s.slice(0, -n)] for [n > 0]. *)
Definition str_drop_end (n : nat) (s : string) : string :=
  str_take (String.length s - n) s.

Definition endsWith (s p : string) : bool :=
  (String.length p <=? String.length s)%nat
  && (str_drop (String.length s - String.length p) s =? p).

Fixpoint str_includes (s sub : string) : bool :=
  String.prefix sub s ||
  match s with "" => false | String _ s' => str_includes s' sub end.

Fixpoint str_indexOf (s sub : string) : option nat :=
  if String.prefix sub s then Some 0
  else match s with "" => None | String _ s' => S <$> str_indexOf s' sub end.

(** [toLowerCase] on the Latin capitals A to Z. *)
Definition ascii_lower (a : ascii) : ascii :=
  let n := nat_of_ascii a in
  if ((65 <=? n) && (n <=? 90))%nat then ascii_of_nat (n + 32) else a.

Fixpoint toLowerCase (s : string) : string :=
  match s with "" => "" | String a s => String (ascii_lower a) (toLowerCase s) end.

Fixpoint str_forallb (f : ascii → bool) (s : string) : bool :=
  match s with "" => true | String a s => f a && str_forallb f s end.

Fixpoint trim_start (s : string) : string :=
  match s with
  | "" => ""
  | String a s' => if Ascii.is_space a then trim_start s' else s
  end.

(** [s.trim()] on the ASCII white space. *)
Definition str_trim (s : string) : string :=
  String.rev (trim_start (String.rev (trim_start s))).

(** [s.split(c)] for a one-character separator. *)
Fixpoint split_on (c : ascii) (s : string) : list string :=
  match s with
  | "" => [""]
  | String a s' =>
      if a =? c then "" :: split_on c s'
      else match split_on c s' with
           | h :: t => String a h :: t
           | [] => [String a ""]
           end
  end.

Definition str_join (sep : string) (l : list string) : string := String.concat sep l.

Definition quoted (s : string) : string := dquote +:+ s +:+ dquote.

(** A number in a message. *)
Definition show_nat (n : nat) : string := pretty n.
Definition show_Z (z : Z) : string := pretty z.

(** ** JavaScript sets: insertion order, no duplicates *)

Section js_set.
Context `{EqDecision A}.

(** [new Set(l)] iterates over the first occurrences of [l], in order. *)
Fixpoint js_set (l : list A) : list A :=
  match l with
  | [] => []
  | x :: l => x :: filter (λ y, y ≠ x) (js_set l)
  end.

Definition includes (l : list A) (x : A) : bool := bool_decide (x ∈ l).

Definition js_set_delete (x : A) (l : list A) : list A := filter (λ y, y ≠ x) l.

Definition js_set_add (x : A) (l : list A) : list A :=
  if includes l x then l else l ++ [x].
End js_set.

(** ** Generic lemmas *)

Lemma list_filter_all {A} (P : A → Prop) `{!∀ x, Decision (P x)} (l : list A) :
  Forall P l → filter P l = l.
Proof. induction 1 as [|x l Hx Hl IH]; [done|]. by rewrite filter_cons_True, IH. Qed.

Lemma list_filter_none {A} (P : A → Prop) `{!∀ x, Decision (P x)} (l : list A) :
  Forall (λ x, ¬ P x) l → filter P l = [].
Proof. induction 1 as [|x l Hx Hl IH]; [done|]. by rewrite filter_cons_False. Qed.

Lemma list_filter_ext_elem {A} (P Q : A → Prop) `{!∀ x, Decision (P x), !∀ x, Decision (Q x)}
    (l : list A) :
  (∀ x, x ∈ l → P x ↔ Q x) → filter P l = filter Q l.
Proof.
  induction l as [|x l IH]; intros HPQ; [done|]. rewrite !filter_cons.
  rewrite IH by set_solver. specialize (HPQ x ltac:(by left)).
  destruct (decide (P x)), (decide (Q x)); tauto.
Qed.

Section list_lemmas.
Context `{EqDecision A}.
Implicit Types (l : list A) (x : A).

Lemma elem_of_js_set l x : x ∈ js_set l ↔ x ∈ l.
Proof.
  induction l as [|y l IH]; simpl; [done|].
  rewrite !elem_of_cons, list_elem_of_filter, IH.
  destruct (decide (x = y)); tauto.
Qed.

Lemma NoDup_js_set l : NoDup (js_set l).
Proof.
  induction l as [|y l IH]; simpl; constructor.
  - rewrite list_elem_of_filter. naive_solver.
  - by apply NoDup_filter.
Qed.

Lemma js_set_nil_iff l : js_set l = [] ↔ l = [].
Proof. by destruct l. Qed.

Lemma js_set_NoDup l : NoDup l → js_set l = l.
Proof.
  induction 1 as [|y l Hy Hl IH]; simpl; [done|].
  rewrite IH. f_equal. apply list_filter_all.
  apply Forall_forall. intros z Hz ->. done.
Qed.

Lemma includes_spec l x : includes l x = true ↔ x ∈ l.
Proof. unfold includes. by rewrite bool_decide_eq_true. Qed.

Lemma elem_of_js_set_add x y l : y ∈ js_set_add x l ↔ y = x ∨ y ∈ l.
Proof.
  unfold js_set_add. destruct (includes l x) eqn:Hx.
  - apply includes_spec in Hx. naive_solver.
  - rewrite elem_of_app, list_elem_of_singleton. naive_solver.
Qed.

Lemma existsb_exists_elem (f : A → bool) l :
  existsb f l = true ↔ ∃ x, x ∈ l ∧ f x = true.
Proof.
  rewrite existsb_exists. by setoid_rewrite <-list_elem_of_In.
Qed.

Lemma forallb_forall_elem (f : A → bool) l :
  forallb f l = true ↔ ∀ x, x ∈ l → f x = true.
Proof.
  rewrite forallb_forall. by setoid_rewrite <-list_elem_of_In.
Qed.
End list_lemmas.

Lemma existsb_false_elem {A} (f : A → bool) l :
  existsb f l = false ↔ ∀ x, x ∈ l → f x = false.
Proof.
  rewrite <-not_true_iff_false, existsb_exists.
  setoid_rewrite <-list_elem_of_In. split.
  - intros H x Hx. apply not_true_iff_false. naive_solver.
  - intros H (x & Hx & Hf). rewrite H in Hf; done.
Qed.

Lemma find_some_elem {A} (f : A → bool) l x :
  List.find f l = Some x → x ∈ l ∧ f x = true.
Proof. intros H. apply find_some in H. by rewrite list_elem_of_In. Qed.

Lemma find_none_elem {A} (f : A → bool) l :
  List.find f l = None ↔ ∀ x, x ∈ l → f x = false.
Proof.
  split.
  - intros H x Hx%list_elem_of_In. by eapply find_none.
  - induction l as [|y l IH]; intros H; simpl; [done|].
    rewrite H by set_solver. apply IH. set_solver.
Qed.

(** ** String lemmas *)

Lemma str_app_nil_r s : s +:+ "" = s.
Proof. induction s as [|a s IH]; [done|]. by change (String a (s +:+ "") = String a s); rewrite IH. Qed.

Lemma str_app_cons a s t : String a s +:+ t = String a (s +:+ t).
Proof. done. Qed.

Lemma str_app_assoc s t u : (s +:+ t) +:+ u = s +:+ (t +:+ u).
Proof. induction s as [|a s IH]; [done|]. by rewrite !str_app_cons, IH. Qed.

Lemma str_length_app s t : String.length (s +:+ t) = String.length s + String.length t.
Proof. induction s as [|a s IH]; [done|]. rewrite str_app_cons. simpl. by rewrite IH. Qed.

Lemma prefix_spec p s : String.prefix p s = true ↔ ∃ t, s = p +:+ t.
Proof.
  revert s. induction p as [|a p IH]; intros s.
  - split; [intros _; by exists s|]. by destruct s.
  - destruct s as [|b s]; simpl.
    { split; [done|]. intros [t Ht]. by rewrite str_app_cons in Ht. }
    destruct (Ascii.ascii_dec a b) as [->|Hab].
    + rewrite IH. split; intros [t Ht]; exists t; rewrite ?str_app_cons in *; congruence.
    + split; [done|]. intros [t Ht]. rewrite str_app_cons in Ht. congruence.
Qed.

Lemma startsWith_spec s p : startsWith s p = true ↔ ∃ t, s = p +:+ t.
Proof. apply prefix_spec. Qed.

Lemma startsWith_app p t : startsWith (p +:+ t) p = true.
Proof. apply startsWith_spec. by exists t. Qed.

Lemma str_drop_app p t : str_drop (String.length p) (p +:+ t) = t.
Proof. induction p as [|a p IH]; [by destruct t|]. by rewrite str_app_cons; simpl. Qed.

Lemma str_take_app p t : str_take (String.length p) (p +:+ t) = p.
Proof. induction p as [|a p IH]; [by destruct t|]. rewrite str_app_cons; simpl. by rewrite IH. Qed.

Lemma str_take_drop n s : str_take n s +:+ str_drop n s = s.
Proof.
  revert s; induction n as [|n IH]; intros [|a s]; try done.
  simpl. by rewrite str_app_cons, IH.
Qed.

Lemma str_length_drop n s : String.length (str_drop n s) = String.length s - n.
Proof. revert s; induction n as [|n IH]; intros [|a s]; simpl; try done; apply IH. Qed.

Lemma endsWith_spec s p : endsWith s p = true ↔ ∃ t, s = t +:+ p.
Proof.
  unfold endsWith. rewrite andb_true_iff, Nat.leb_le, bool_decide_eq_true. split.
  - intros [Hlen Hdrop].
    exists (str_take (String.length s - String.length p) s).
    by rewrite <-Hdrop at 2; rewrite str_take_drop.
  - intros [t ->]. rewrite str_length_app. split; [lia|].
    replace (String.length t + String.length p - String.length p) with (String.length t) by lia.
    apply str_drop_app.
Qed.

Lemma str_indexOf_spec s sub i :
  str_indexOf s sub = Some i →
  ∃ a b, s = a +:+ sub +:+ b ∧ String.length a = i.
Proof.
  revert i. induction s as [|c s IH]; intros i; cbn [str_indexOf].
  - destruct sub; simpl; intros; simplify_eq. by exists "", "".
  - destruct (String.prefix sub (String c s)) eqn:Hp.
    + intros [= <-]. apply prefix_spec in Hp as [t Ht]. by exists "", t.
    + intros (j & Hj & ->)%fmap_Some.
      destruct (IH j Hj) as (a & b & -> & Hl). exists (String c a), b.
      split; [by rewrite str_app_cons|]. simpl. by f_equal.
Qed.

Lemma toLowerCase_idem s : toLowerCase (toLowerCase s) = toLowerCase s.
Proof.
  assert (Ha : ∀ a, ascii_lower (ascii_lower a) = ascii_lower a).
  { intros [[] [] [] [] [] [] [] []]; vm_compute; done. }
  induction s as [|a s IH]; simpl; [done|]. by rewrite Ha, IH.
Qed.

Create HintDb curtain discriminated.
#[export] Hint Resolve NoDup_js_set startsWith_app : curtain.
Create Rewrite HintDb curtain.
#[export] Hint Rewrite @elem_of_js_set @elem_of_js_set_add str_app_nil_r str_app_assoc
  toLowerCase_idem : curtain.

Lemma str_forallb_take f n s : str_forallb f s = true → str_forallb f (str_take n s) = true.
Proof.
  revert s. induction n as [|n IH]; intros [|a s]; try done. cbn [str_take str_forallb].
  rewrite !andb_true_iff. naive_solver.
Qed.

Lemma str_forallb_app f s t : str_forallb f (s +:+ t) = str_forallb f s && str_forallb f t.
Proof.
  induction s as [|a s IH]; [done|]. rewrite str_app_cons. cbn [str_forallb].
  by rewrite IH, andb_assoc.
Qed.

Lemma str_length_take n s : String.length (str_take n s) = n `min` String.length s.
Proof. revert s. induction n as [|n IH]; intros [|a s]; simpl; try done. by rewrite IH. Qed.

Section sums.
Local Open Scope Z_scope.

(** ** Sums over a list *)

Definition tally {A} (f : A → Z) (l : list A) : Z := foldr (λ x n, f x + n) 0 l.

Lemma tally_app {A} (f : A → Z) l1 l2 : tally f (l1 ++ l2) = tally f l1 + tally f l2.
Proof. unfold tally. induction l1 as [|x l1 IH]; cbn [app foldr]; [lia|]. rewrite IH. lia. Qed.

Lemma tally_snoc {A} (f : A → Z) l x : tally f (l ++ [x]) = tally f l + f x.
Proof. rewrite tally_app. unfold tally at 2. cbn. lia. Qed.

Lemma tally_insert {A} (f : A → Z) l i x y :
  l !! i = Some x → tally f (<[i:=y]> l) = tally f l - f x + f y.
Proof.
  revert i. unfold tally. induction l as [|z l IH]; intros [|i] Hi; csimpl in *; simplify_eq; [lia|].
  rewrite (IH i Hi). lia.
Qed.

Lemma tally_nonneg {A} (f : A → Z) l : (∀ x, 0 ≤ f x) → 0 ≤ tally f l.
Proof. intros Hf. unfold tally. induction l as [|x l IH]; cbn; [lia|]. specialize (Hf x). lia. Qed.

Lemma tally_ext {A} (f g : A → Z) l : (∀ x, x ∈ l → f x = g x) → tally f l = tally g l.
Proof.
  unfold tally. induction l as [|x l IH]; intros Hfg; cbn; [done|].
  rewrite (Hfg x), IH; [done|intros; apply Hfg; by right|by left].
Qed.

Lemma tally_cons {A} (f : A → Z) x l : tally f (x :: l) = f x + tally f l.
Proof. done. Qed.

Lemma tally_fmap {A B} (f : B → Z) (g : A → B) (l : list A) : tally f (g <$> l) = tally (λ x, f (g x)) l.
Proof. unfold tally. induction l as [|x l IH]; cbn; [done|by rewrite IH]. Qed.

Lemma tally_le {A} (f g : A → Z) (l : list A) : (∀ x, x ∈ l → f x ≤ g x) → tally f l ≤ tally g l.
Proof.
  unfold tally. induction l as [|x l IH]; intros Hfg; cbn; [done|].
  assert (f x ≤ g x) by (apply Hfg; by left). assert (∀ y, y ∈ l → f y ≤ g y) as Hl by (intros; apply Hfg; by right).
  specialize (IH Hl). lia.
Qed.

Lemma tally_zero {A} (l : list A) : tally (λ _, 0) l = 0.
Proof. unfold tally. induction l as [|x l IH]; cbn; lia. Qed.

Lemma elem_of_insert_inv {A} (l : list A) i x y : y ∈ <[i:=x]> l → y = x ∨ y ∈ l.
Proof.
  intros [j Hj]%list_elem_of_lookup. apply list_lookup_insert_Some in Hj as [(_ & -> & _)|(_ & Hj)]; [by left|].
  right. by eapply list_elem_of_lookup_2.
Qed.

End sums.
