(* ===== verification/JsValue.v ===== *)
(** * JavaScript values and plain objects

    The values a tool call carries ([unknown] in the sources): the JSON values
    and [undefined].  A plain object is the list of its own properties in
    insertion order; keys are unique ([obj_wf]).  Numbers are exact rationals
    with NaN and the infinities, so rounding is not modelled. *)

From Stdlib Require Import QArith Qcanon.
From S2P Require Import Prelude.

(** ** Plain objects *)

Abbreviation object A := (list (string * A)).

Section object.
Context {A : Type}.
Implicit Types (o : object A) (k : string) (v : A).

(** [Object.keys] and [Object.values]. *)
Definition obj_keys o : list string := o.*1.
Definition obj_values o : list A := o.*2.

(** [o[k]] for an own property. *)
Fixpoint obj_get o k : option A :=
  match o with
  | [] => None
  | (k', v) :: o => if k' =? k then Some v else obj_get o k
  end.

(** [k in o] for own properties. *)
Definition obj_has o k : bool := bool_decide (k ∈ obj_keys o).

(** [o[k] = v]: an existing property keeps its place, a new one is appended. *)
Fixpoint obj_set o k v : object A :=
  match o with
  | [] => [(k, v)]
  | (k', v') :: o => if k' =? k then (k', v) :: o else (k', v') :: obj_set o k v
  end.

Definition obj_wf o : Prop := NoDup (obj_keys o).

Lemma obj_get_has o k : obj_has o k = true ↔ is_Some (obj_get o k).
Proof.
  unfold obj_has. rewrite bool_decide_eq_true. unfold obj_keys.
  induction o as [|[k' v'] o IH]; csimpl.
  - split; [set_solver|by intros []].
  - case_bool_decide as Hk; subst; rewrite elem_of_cons; [naive_solver|].
    rewrite IH. naive_solver.
Qed.

Lemma obj_get_set o k v k' :
  obj_get (obj_set o k v) k' = if k =? k' then Some v else obj_get o k'.
Proof.
  induction o as [|[k2 v2] o IH]; simpl; [done|].
  repeat (case_bool_decide; subst; simpl); done.
Qed.

Lemma obj_get_fill (l : list string) o v k :
  obj_get (foldl (λ o k, obj_set o k v) o l) k =
  if bool_decide (k ∈ l) then Some v else obj_get o k.
Proof.
  revert o. induction l as [|x l IH]; intros o; simpl; [done|].
  rewrite IH, obj_get_set. destruct (decide (k ∈ l)).
  - by rewrite !bool_decide_eq_true_2 by set_solver.
  - rewrite (bool_decide_eq_false_2 (k ∈ l)) by done.
    destruct (decide (x = k)) as [->|Hx].
    + by rewrite !bool_decide_eq_true_2 by set_solver.
    + by rewrite !bool_decide_eq_false_2 by set_solver.
Qed.

Lemma obj_keys_set o k v : obj_keys (obj_set o k v) = js_set_add k (obj_keys o).
Proof.
  unfold js_set_add, includes, obj_keys.
  induction o as [|[k2 v2] o IH]; [done|]; csimpl.
  destruct (decide (k2 = k)) as [->|Hk].
  - by rewrite !bool_decide_eq_true_2 by set_solver.
  - rewrite (bool_decide_eq_false_2 (k2 = k)) by done. csimpl. rewrite IH.
    destruct (decide (k ∈ o.*1)).
    + by rewrite !bool_decide_eq_true_2 by set_solver.
    + by rewrite !bool_decide_eq_false_2 by set_solver.
Qed.

Lemma obj_set_elem_inv o k v e : e ∈ obj_set o k v → e = (k, v) ∨ e ∈ o.
Proof.
  induction o as [|[k' v'] o IH]; cbn [obj_set]; [set_solver|]. case_bool_decide; set_solver.
Qed.

Lemma obj_set_wf o k v : obj_wf o → obj_wf (obj_set o k v).
Proof.
  unfold obj_wf. rewrite obj_keys_set. unfold js_set_add.
  destruct (includes (obj_keys o) k) eqn:Hk; [done|].
  intros Ho. apply NoDup_app. repeat split; [done| |apply NoDup_singleton].
  intros x Hx ->%list_elem_of_singleton.
  apply includes_spec in Hx. congruence.
Qed.

Lemma obj_get_elem o k v : obj_get o k = Some v → (k, v) ∈ o.
Proof.
  induction o as [|[k' v'] o IH]; csimpl; [done|].
  case_bool_decide; subst; intros; simplify_eq; [by left|right; auto].
Qed.

Lemma elem_of_obj_get o k v : obj_wf o → (k, v) ∈ o ↔ obj_get o k = Some v.
Proof.
  unfold obj_wf, obj_keys. induction o as [|[k2 v2] o IH]; csimpl; intros Ho.
  { set_solver. }
  apply NoDup_cons in Ho as [Hk2 Ho]. rewrite elem_of_cons, IH by done.
  case_bool_decide as Hk; subst; [|naive_solver].
  split; [|naive_solver]. intros [?|Hget]; [naive_solver|].
  exfalso. apply Hk2. apply (IH Ho) in Hget. by apply (list_elem_of_fmap_2 fst) in Hget.
Qed.
End object.

(** ** Values *)

Inductive jsnum : Type :=
| JNaN
| JInf (negative : bool)
| JFin (q : Qc).

#[export] Instance jsnum_eq_dec : EqDecision jsnum.
Proof. intros [|b|q] [|b'|q']; try (right; congruence); [by left| |].
  - destruct (decide (b = b')); [left|right]; congruence.
  - destruct (Qc_eq_dec q q'); [left|right]; congruence.
Defined.

Definition num_of_Z (z : Z) : jsnum := JFin (Q2Qc (inject_Z z)).

Inductive jsvalue : Type :=
| VUndefined
| VNull
| VBool (b : bool)
| VNum (n : jsnum)
| VStr (s : string)
| VArr (l : list jsvalue)
| VObj (o : list (string * jsvalue)).

(** [o[k]], [undefined] when the property is missing. *)
Definition get_value (o : object jsvalue) (k : string) : jsvalue :=
  default VUndefined (obj_get o k).

Definition is_nullish (v : jsvalue) : bool :=
  match v with VUndefined | VNull => true | _ => false end.

(** [v === s] for a string [s]. *)
Definition is_str (v : jsvalue) (s : string) : bool :=
  match v with VStr t => t =? s | _ => false end.

Lemma is_str_spec v s : is_str v s = true ↔ v = VStr s.
Proof. destruct v; simpl; rewrite ?bool_decide_eq_true; naive_solver. Qed.

(** [!!v] *)
Definition truthy (v : jsvalue) : bool :=
  match v with
  | VUndefined | VNull | VNum JNaN => false
  | VBool b => b
  | VNum (JInf _) => true
  | VNum (JFin q) => negb (bool_decide (q = 0%Qc))
  | VStr s => negb (s =? "")
  | VArr _ | VObj _ => true
  end.

(** [Number.isFinite] and [Number.isInteger]. *)
Definition num_is_finite (n : jsnum) : bool :=
  match n with JFin _ => true | _ => false end.
Definition num_is_integer (n : jsnum) : bool :=
  match n with JFin q => (Qden (this q) =? 1%positive) | _ => false end.

(** The strings a value contributes where the code takes a string or an array
    of strings. *)
Definition value_strings (v : jsvalue) : list string :=
  match v with
  | VStr s => [s]
  | VArr l => omap (λ v, match v with VStr s => Some s | _ => None end) l
  | _ => []
  end.
