(* ===== verification/Paths.v ===== *)
(** * Filesystem paths: containment, real paths, tilde expansion

    Models the path helpers of src/types/argument-roles.ts over Node's
    [node:path] (POSIX) functions.  The filesystem is the environment: the class
    [FileSystem] gives [realpathSync], the working directory and the home
    directory, and [FileSystemLaws] states what POSIX path resolution
    guarantees of them. *)

From Stdlib Require Import Ascii String.
From S2P Require Import Prelude.

Definition slash : ascii := Ascii.ascii_of_nat 47.

(** ** The environment *)

Class FileSystem := {
  realpathSync : string → option string;  (** [None]: it throws *)
  cwd : string;
  homedir : string;
}.

(** ** [node:path] *)

(** The segments of an absolute path without [''], ['.'] and ['..']; [acc] is
    the reversed stack of the segments read so far. *)
Fixpoint normalize_segments (acc segs : list string) : list string :=
  match segs with
  | [] => reverse acc
  | s :: segs =>
      if (s =? "") || (s =? ".") then normalize_segments acc segs
      else if s =? ".." then normalize_segments (tail acc) segs
      else normalize_segments (s :: acc) segs
  end.

Definition render (segs : list string) : string := "/" +:+ str_join "/" segs.

Definition normalize_abs (p : string) : string :=
  render (normalize_segments [] (split_on slash p)).

(** [path.resolve(p)] *)
Definition resolve `{FileSystem} (p : string) : string :=
  normalize_abs (if startsWith p "/" then p else cwd +:+ "/" +:+ p).

(** [path.resolve(base, p)] *)
Definition resolve2 `{FileSystem} (base p : string) : string :=
  if startsWith p "/" then resolve p
  else if p =? "" then resolve base
  else if base =? "" then resolve p
  else resolve (base +:+ "/" +:+ p).

Fixpoint drop_while (f : ascii → bool) (l : list ascii) : list ascii :=
  match l with
  | [] => []
  | a :: l' => if f a then drop_while f l' else l
  end.

Fixpoint take_while (f : ascii → bool) (l : list ascii) : list ascii :=
  match l with
  | [] => []
  | a :: l' => if f a then a :: take_while f l' else []
  end.

Definition chars (s : string) : list ascii := String.list_ascii_of_string s.
Definition of_chars (l : list ascii) : string := String.string_of_list_ascii l.

Definition is_slash (a : ascii) : bool := a =? slash.

(** [path.dirname(p)]: scan from the right down to index 1. *)
Definition dirname (p : string) : string :=
  match chars p with
  | [] => "."
  | c :: body =>
      match drop_while (λ a, negb (is_slash a)) (drop_while is_slash (reverse body)) with
      | [] => if is_slash c then "/" else "."
      | _ :: rest =>
          if is_slash c && (rest =? []) then "//" else of_chars (c :: reverse rest)
      end
  end.

(** [path.basename(p)] *)
Definition basename (p : string) : string :=
  of_chars (reverse (take_while (λ a, negb (is_slash a))
                       (drop_while is_slash (reverse (chars p))))).

(** [path.join(root, ...tail)] for an absolute [root] and a last component that
    does not end in a slash, the only way the sources call it. *)
Definition path_join (root : string) (tail : list string) : string :=
  normalize_abs (str_join "/" (root :: tail)).

(** ** Source definitions *)

Definition expandTilde `{FileSystem} (filePath : string) : string :=
  if filePath =? "~" then homedir
  else if startsWith filePath "~/" then homedir +:+ str_drop 1 filePath
  else filePath.

Definition MAX_DEPTH : nat := 64.

(** The walk of [resolveRealPath] to the deepest ancestor that resolves. *)
Fixpoint walk_up `{FileSystem} (depth : nat) (absolute current : string)
    (tail : list string) : string :=
  match depth with
  | O => absolute
  | S depth =>
      let parent := dirname current in
      let tail := basename current :: tail in
      if parent =? current then absolute
      else match realpathSync parent with
           | Some r => path_join r tail
           | None => walk_up depth absolute parent tail
           end
  end.

Definition resolveRealPath `{FileSystem} (filePath : string) : string :=
  let absolute := resolve (expandTilde filePath) in
  match realpathSync absolute with
  | Some r => r
  | None => walk_up MAX_DEPTH absolute absolute []
  end.

Definition isWithinDirectory `{FileSystem} (targetPath directory : string) : bool :=
  let resolved := resolveRealPath targetPath in
  let resolvedDir := resolveRealPath directory in
  (resolved =? resolvedDir) || startsWith resolved (resolvedDir +:+ "/").

(** ** Canonical paths *)

Definition good_segment (s : string) : Prop :=
  s ≠ "" ∧ s ≠ "." ∧ s ≠ ".." ∧ slash ∉ chars s.

(** The reference form of a path: absolute, no empty, dot or dot-dot segment. *)
Definition canonical (p : string) : Prop :=
  ∃ segs, Forall good_segment segs ∧ p = render segs.

(** What the development relies on of [realpath(3)], the working directory and
    the home directory. *)
Class FileSystemLaws `{FileSystem} : Prop := {
  realpath_canonical p q : realpathSync p = Some q → canonical q;
  realpath_idem p q : realpathSync p = Some q → realpathSync q = Some q;
  realpath_compositional d r t :
    Forall good_segment d → Forall good_segment r → Forall good_segment t →
    realpathSync (render d) = Some (render r) →
    realpathSync (render (d ++ t)) = realpathSync (render (r ++ t));
  cwd_canonical : canonical cwd;
}.

(** ** Characters and segments *)

Lemma chars_app s t : chars (s +:+ t) = chars s ++ chars t.
Proof.
  unfold chars. induction s as [|a s IH]; [done|].
  rewrite str_app_cons. simpl. by rewrite IH.
Qed.

Lemma of_chars_chars s : of_chars (chars s) = s.
Proof. apply String.string_of_list_ascii_of_string. Qed.

Lemma chars_of_chars l : chars (of_chars l) = l.
Proof. apply String.list_ascii_of_string_of_list_ascii. Qed.

Lemma split_on_no_sep c s : c ∉ chars s → split_on c s = [s].
Proof.
  unfold chars. induction s as [|a s IH]; simpl; [done|].
  intros [Ha Hs]%not_elem_of_cons. rewrite IH by done.
  by rewrite bool_decide_eq_false_2 by done.
Qed.

Lemma split_on_not_nil c s : split_on c s ≠ [].
Proof. destruct s; simpl; [done|]. repeat case_match; done. Qed.

Lemma split_on_app c s t :
  split_on c (s +:+ String c t) = split_on c s ++ split_on c t.
Proof.
  induction s as [|a s IH].
  - simpl. by rewrite bool_decide_eq_true_2.
  - rewrite str_app_cons. simpl. case_bool_decide; [by rewrite IH|].
    rewrite IH. pose proof (split_on_not_nil c s). by destruct (split_on c s).
Qed.

Lemma split_on_segments c s : Forall (λ s', c ∉ chars s') (split_on c s).
Proof.
  induction s as [|a s IH]; simpl.
  { constructor; [set_solver|constructor]. }
  case_bool_decide; [constructor; [set_solver|done]|].
  destruct (split_on c s) as [|h t] eqn:Hs; [by apply split_on_not_nil in Hs|].
  apply Forall_cons in IH as [Hh Ht]. constructor; [|done].
  unfold chars in *; simpl. set_solver.
Qed.

Lemma slash_app s : "/" +:+ s = String slash s.
Proof. done. Qed.

Lemma str_join_cons x y l : str_join "/" (x :: y :: l) = x +:+ String slash (str_join "/" (y :: l)).
Proof. done. Qed.

Lemma str_join_app l1 l2 :
  l1 ≠ [] → l2 ≠ [] →
  str_join "/" (l1 ++ l2) = str_join "/" l1 +:+ String slash (str_join "/" l2).
Proof.
  intros H1 H2. induction l1 as [|x [|y l1] IH]; [done| |].
  - destruct l2; done.
  - change ((x :: y :: l1) ++ l2) with (x :: y :: (l1 ++ l2)).
    rewrite !str_join_cons, str_app_assoc. f_equal.
    rewrite str_app_cons. f_equal. by apply IH.
Qed.

Lemma split_on_join l :
  l ≠ [] → Forall (λ s, slash ∉ chars s) l → split_on slash (str_join "/" l) = l.
Proof.
  induction l as [|x [|y l] IH]; intros Hne Hl; [done| |].
  - apply Forall_cons in Hl as [Hx _]. by apply split_on_no_sep.
  - apply Forall_cons in Hl as [Hx Hl].
    rewrite str_join_cons, split_on_app, IH by done.
    by rewrite split_on_no_sep.
Qed.

Lemma good_no_slash l : Forall good_segment l → Forall (λ s, slash ∉ chars s) l.
Proof. intros Hl. eapply Forall_impl; [done|]. unfold good_segment. tauto. Qed.

Lemma split_on_join_sep c l :
  l ≠ [] → Forall (λ s, c ∉ chars s) l → split_on c (str_join (String c "") l) = l.
Proof.
  induction l as [|x [|y l] IH]; intros Hne Hl; [done| |]; apply Forall_cons in Hl as [Hx Hl].
  - by apply split_on_no_sep.
  - change (str_join (String c "") (x :: y :: l)) with (x +:+ String c (str_join (String c "") (y :: l))).
    rewrite split_on_app, IH by done. by rewrite split_on_no_sep.
Qed.

Lemma split_on_render segs :
  Forall good_segment segs → segs ≠ [] → split_on slash (render segs) = "" :: segs.
Proof.
  intros Hg Hne. unfold render. rewrite slash_app. simpl.
  f_equal. apply split_on_join; [done|by apply good_no_slash].
Qed.

Lemma normalize_good acc segs :
  Forall good_segment segs → normalize_segments acc segs = reverse acc ++ segs.
Proof.
  revert acc. induction segs as [|s segs IH]; intros acc Hg; simpl.
  { by rewrite app_nil_r. }
  apply Forall_cons in Hg as [(H1 & H2 & H3 & _) Hg].
  rewrite !bool_decide_eq_false_2 by done. simpl.
  rewrite IH by done. by rewrite reverse_cons, <-app_assoc.
Qed.

Lemma normalize_segments_good acc segs :
  Forall good_segment acc → Forall (λ s, slash ∉ chars s) segs →
  Forall good_segment (normalize_segments acc segs).
Proof.
  revert acc. induction segs as [|s segs IH]; intros acc Hacc Hs; simpl.
  { by apply Forall_reverse. }
  apply Forall_cons in Hs as [Hs Hsegs].
  destruct (decide (s = "")) as [->|?]; [by apply IH|].
  destruct (decide (s = ".")) as [->|?]; [by apply IH|].
  rewrite !(bool_decide_eq_false_2 (s = _)) by done. simpl.
  case_bool_decide; (apply IH; [|done]).
  - by destruct Hacc.
  - by constructor.
Qed.

Lemma canonical_render segs : Forall good_segment segs → canonical (render segs).
Proof. by exists segs. Qed.

Lemma normalize_abs_canonical p : canonical (normalize_abs p).
Proof.
  apply canonical_render, normalize_segments_good; [constructor|].
  apply split_on_segments.
Qed.

Lemma normalize_abs_render segs :
  Forall good_segment segs → normalize_abs (render segs) = render segs.
Proof.
  intros Hg. unfold normalize_abs.
  destruct (decide (segs = [])) as [->|Hne]; [done|].
  rewrite split_on_render by done. simpl. by rewrite normalize_good.
Qed.

Lemma render_inj s t :
  Forall good_segment s → Forall good_segment t → render s = render t → s = t.
Proof.
  intros Hs Ht Heq. apply (f_equal (split_on slash)) in Heq.
  destruct (decide (s = [])) as [->|Hs'], (decide (t = [])) as [->|Ht']; [done|..].
  - rewrite (split_on_render t) in Heq by done. vm_compute in Heq. simplify_eq.
    by apply Forall_cons in Ht as [[? _] _].
  - rewrite (split_on_render s) in Heq by done. vm_compute in Heq. simplify_eq.
    by apply Forall_cons in Hs as [[? _] _].
  - rewrite !split_on_render in Heq by done. by simplify_eq.
Qed.

(** The heart of containment: a rendered path starts with a rendered directory
    and a slash exactly when the directory's segments are a strict prefix. *)
Lemma startsWith_render d t :
  Forall good_segment d → Forall good_segment t →
  startsWith (render t) (render d +:+ "/") = true ↔ d ≠ [] ∧ ∃ s u, t = d ++ s :: u.
Proof.
  intros Hd Ht. rewrite startsWith_spec. split.
  - intros [rest Heq]. rewrite str_app_assoc, slash_app in Heq.
    apply (f_equal (split_on slash)) in Heq. rewrite split_on_app in Heq.
    destruct (decide (t = [])) as [->|Ht'].
    { change (split_on slash (render [])) with [""; ""] in Heq.
      apply (f_equal length) in Heq. rewrite length_app in Heq.
      pose proof (split_on_not_nil slash rest).
      destruct (decide (d = [])) as [->|Hd'].
      - change (split_on slash (render [])) with [""; ""] in Heq.
        destruct (split_on slash rest); simpl in *; [done|lia].
      - rewrite split_on_render in Heq by done.
        destruct d, (split_on slash rest) as [|? []]; simpl in *; done || lia. }
    rewrite split_on_render in Heq by done.
    destruct (decide (d = [])) as [->|Hd'].
    { change (split_on slash (render [])) with [""; ""] in Heq. simplify_eq/=.
      by apply Forall_cons in Ht as [[? _] _]. }
    rewrite split_on_render in Heq by done. simplify_eq/=. split; [done|].
    pose proof (split_on_not_nil slash rest).
    destruct (split_on slash rest) as [|s u]; [done|]. by exists s, u.
  - intros (Hd' & s & u & ->). exists (str_join "/" (s :: u)).
    unfold render. rewrite str_join_app by done.
    by rewrite slash_app, !str_app_cons, str_app_assoc.
Qed.

(** ** [dirname], [basename] and [join] on canonical paths *)

Lemma chars_render_snoc segs x :
  chars (render (segs ++ [x])) =
  (if segs =? [] then [] else chars (render segs)) ++ slash :: chars x.
Proof.
  unfold render. case_bool_decide as Hs; subst; [done|].
  rewrite str_join_app by done.
  by rewrite <-str_app_assoc, chars_app.
Qed.

Lemma drop_while_all f l : (∀ a, a ∈ l → f a = true) → drop_while f l = [].
Proof.
  induction l as [|a l IH]; intros Hf; simpl; [done|].
  rewrite Hf by set_solver. apply IH. set_solver.
Qed.

Lemma drop_while_app f l1 l2 :
  (∀ a, a ∈ l1 → f a = true) → drop_while f (l1 ++ l2) = drop_while f l2.
Proof.
  induction l1 as [|a l1 IH]; intros Hf; simpl; [done|].
  rewrite Hf by set_solver. apply IH. set_solver.
Qed.

Lemma take_while_app f l1 a l2 :
  (∀ b, b ∈ l1 → f b = true) → f a = false → take_while f (l1 ++ a :: l2) = l1.
Proof.
  induction l1 as [|b l1 IH]; intros Hf Ha; simpl; [by rewrite Ha|].
  rewrite Hf by set_solver. f_equal. apply IH; set_solver.
Qed.

Lemma good_chars x : good_segment x →
  ∃ a l, reverse (chars x) = a :: l ∧ ∀ b, b ∈ a :: l → negb (is_slash b) = true.
Proof.
  intros (Hne & _ & _ & Hx).
  destruct (reverse (chars x)) as [|a l] eqn:Hr.
  - destruct Hne. apply (f_equal reverse) in Hr. rewrite reverse_involutive in Hr.
    by rewrite <-(of_chars_chars x), Hr.
  - exists a, l. split; [done|]. intros b Hb. rewrite <-Hr, elem_of_reverse in Hb.
    unfold is_slash. apply negb_true_iff, bool_decide_eq_false. by intros ->.
Qed.

Lemma render_cons_slash segs : ∃ l, chars (render segs) = slash :: l.
Proof. unfold render. rewrite slash_app. eexists. done. Qed.

Lemma drop_slashes_good x rest : good_segment x →
  drop_while is_slash (reverse (chars x) ++ rest) = reverse (chars x) ++ rest.
Proof.
  intros (a & l & -> & Hns)%good_chars. simpl.
  specialize (Hns a). rewrite negb_true_iff in Hns. rewrite Hns; [done|set_solver].
Qed.

Lemma basename_render segs x : good_segment x → basename (render (segs ++ [x])) = x.
Proof.
  intros Hx. unfold basename. rewrite chars_render_snoc.
  rewrite reverse_app, reverse_cons, <-app_assoc.
  rewrite drop_slashes_good by done. simpl.
  destruct (good_chars x Hx) as (a & l & Hr & Hns).
  rewrite take_while_app; [|by rewrite Hr|done].
  by rewrite reverse_involutive, of_chars_chars.
Qed.

Lemma render_body segs : Forall good_segment segs → segs ≠ [] →
  ∃ body, body ≠ [] ∧ chars (render segs) = slash :: body.
Proof.
  intros Hg Hne. exists (chars (str_join "/" segs)). split; [|done].
  destruct segs as [|s segs]; [done|]. apply Forall_cons in Hg as [(Hs & _) _].
  destruct s as [|a s]; [done|]. by destruct segs.
Qed.

Lemma dirname_render segs x :
  Forall good_segment segs → good_segment x → dirname (render (segs ++ [x])) = render segs.
Proof.
  intros Hg Hx. unfold dirname. rewrite chars_render_snoc.
  destruct (good_chars x Hx) as (a & l & Hr & Hns).
  case_bool_decide as Hs; subst.
  - cbn [app]. rewrite <-(app_nil_r (reverse (chars x))), drop_slashes_good, app_nil_r by done.
    by rewrite drop_while_all by (by rewrite Hr).
  - destruct (render_body segs) as (body & Hne & Hbody); [done..|].
    rewrite Hbody. cbn [app].
    rewrite reverse_app, reverse_cons, <-app_assoc, drop_slashes_good by done. cbn [app].
    rewrite drop_while_app by (by rewrite Hr). simpl.
    rewrite bool_decide_eq_false_2.
    + rewrite reverse_involutive. change (of_chars (slash :: body) = render segs).
      rewrite <-Hbody. apply of_chars_chars.
    + intros Hb%(f_equal reverse). by rewrite reverse_involutive in Hb.
Qed.

Lemma dirname_root : dirname (render []) = render [].
Proof. done. Qed.

Lemma path_join_render r tail :
  Forall good_segment r → Forall good_segment tail → tail ≠ [] →
  path_join (render r) tail = render (r ++ tail).
Proof.
  intros Hr Ht Hne. unfold path_join.
  change (render r :: tail) with ([render r] ++ tail).
  rewrite str_join_app by done. cbn [str_join String.concat].
  unfold normalize_abs. rewrite split_on_app, split_on_join by (done || by apply good_no_slash).
  destruct (decide (r = [])) as [->|Hr'].
  - change (split_on slash (str_join "/" [render []])) with [""; ""]. simpl.
    by rewrite normalize_good.
  - change (str_join "/" [render r]) with (render r).
    rewrite split_on_render by done. simpl.
    by rewrite normalize_good by (by apply Forall_app).
Qed.

(** ** Real paths *)

Lemma resolve_canonical `{FileSystem} p : canonical (resolve p).
Proof. apply normalize_abs_canonical. Qed.

Lemma canonical_absolute p : canonical p → startsWith p "/" = true.
Proof. intros (segs & _ & ->). apply startsWith_app. Qed.

Lemma resolve_id `{FileSystem} p : canonical p → resolve p = p.
Proof.
  intros Hp. unfold resolve. rewrite canonical_absolute by done.
  destruct Hp as (segs & Hg & ->). by apply normalize_abs_render.
Qed.

Lemma expandTilde_id `{FileSystem} p : startsWith p "/" = true → expandTilde p = p.
Proof.
  intros [t ->]%startsWith_spec. rewrite slash_app. unfold expandTilde.
  rewrite bool_decide_eq_false_2 by done. done.
Qed.

#[export] Hint Resolve resolve_canonical canonical_absolute canonical_render : curtain.

Section real_paths.
Context `{FileSystemLaws}.

(** What the walk finds: the deepest ancestor [e] of [e ++ u] that resolves. *)
Definition walk_found (e u r : list string) : Prop :=
  Forall good_segment r ∧ u ≠ [] ∧ realpathSync (render e) = Some (render r) ∧
  ∀ v w, u = v ++ w → v ≠ [] → w ≠ [] → realpathSync (render (e ++ v)) = None.

Lemma walk_up_snoc n d x t abs :
  Forall good_segment (d ++ [x]) →
  walk_up (S n) abs (render (d ++ [x])) t =
  match realpathSync (render d) with
  | Some r => path_join r (x :: t)
  | None => walk_up n abs (render d) (x :: t)
  end.
Proof.
  intros Hg. pose proof Hg as [Hd [Hx _]%Forall_cons]%Forall_app. cbn [walk_up].
  rewrite dirname_render, basename_render by done.
  rewrite bool_decide_eq_false_2; [done|].
  intros Heq%render_inj; [|done..]. apply (f_equal length) in Heq.
  rewrite length_app in Heq. simpl in Heq. lia.
Qed.

Lemma walk_up_found n e u r t abs :
  Forall good_segment (e ++ u ++ t) → walk_found e u r → length u ≤ n →
  walk_up n abs (render (e ++ u)) t = render (r ++ u ++ t).
Proof.
  revert n t. induction u as [|x u IH] using rev_ind; intros n t Hg (Hr & Hne & He & Hnone) Hn; [done|].
  rewrite length_app in Hn. simpl in Hn. destruct n as [|n]; [lia|].
  rewrite !Forall_app in Hg. destruct Hg as (Hge & [Hgu Hgx] & Hgt).
  rewrite (app_assoc e), walk_up_snoc by (by rewrite !Forall_app).
  destruct (decide (u = [])) as [->|Hu].
  - rewrite app_nil_r, He. simpl.
    by rewrite path_join_render by (done || (constructor; [by apply Forall_singleton|done])).
  - rewrite (Hnone u [x]) by done.
    rewrite IH; [by rewrite <-!app_assoc| | |lia].
    + rewrite !Forall_app, Forall_cons. rewrite Forall_singleton in Hgx. done.
    + split_and!; [done..|]. intros v w -> Hv Hw.
      apply (Hnone v (w ++ [x])); [by rewrite app_assoc|done|by destruct w].
Qed.

Lemma walk_up_cases n d t abs :
  Forall good_segment (d ++ t) →
  walk_up n abs (render d) t = abs ∨
  ∃ e u r, d = e ++ u ∧ walk_found e u r ∧ length u ≤ n ∧
           walk_up n abs (render d) t = render (r ++ u ++ t).
Proof.
  revert d t. induction n as [|n IH]; intros d t Hg; [by left|].
  destruct d as [|x d _] using rev_ind; [by left|].
  rewrite <-app_assoc in Hg. pose proof Hg as [Hd [Hx Ht]%Forall_cons]%Forall_app.
  rewrite walk_up_snoc by (by rewrite Forall_app, Forall_singleton).
  destruct (realpathSync (render d)) as [p|] eqn:Hp.
  - right. destruct (realpath_canonical _ _ Hp) as (r & Hr & ->).
    exists d, [x], r. split_and!; [done| |simpl; lia|].
    + split_and!; [done..|]. intros [|? []] [|? []] ?; simplify_eq/=; done.
    + by rewrite path_join_render by (done || by constructor).
  - destruct (IH d (x :: t)) as [Heq|(e & u & r & -> & Hf & Hl & Heq)]; [done|by left|].
    right. exists e, (u ++ [x]), r. rewrite Heq, length_app. simpl.
    split_and!; [by rewrite app_assoc| |lia|by rewrite <-app_assoc].
    destruct Hf as (Hr & Hu & He & Hnone). split_and!; [done|by destruct u|done|].
    intros v w Hvw Hv Hw. destruct w as [|y w _] using rev_ind; [done|].
    rewrite app_assoc in Hvw. apply app_inj_tail in Hvw as [-> _].
    destruct (decide (w = [])) as [->|?]; [by rewrite app_nil_r in Hp|].
    by apply (Hnone v w).
Qed.

Lemma resolveRealPath_canonical p : canonical (resolveRealPath p).
Proof.
  unfold resolveRealPath. destruct (realpathSync _) as [q|] eqn:Hq.
  { by eapply realpath_canonical. }
  destruct (resolve_canonical (expandTilde p)) as (segs & Hg & Hs). rewrite Hs.
  destruct (walk_up_cases MAX_DEPTH segs [] (render segs)) as [->|(e & u & r & -> & Hf & _ & ->)].
  - by rewrite app_nil_r.
  - by apply canonical_render.
  - apply canonical_render. destruct Hf as (Hr & _). rewrite app_nil_r.
    apply Forall_app in Hg as [_ Hu]. by apply Forall_app.
Qed.

Lemma resolveRealPath_of_canonical p :
  canonical p →
  resolveRealPath p = match realpathSync p with Some r => r | None => walk_up MAX_DEPTH p p [] end.
Proof.
  intros Hp. unfold resolveRealPath.
  by rewrite expandTilde_id, resolve_id by auto with curtain.
Qed.

(** Resolving is idempotent: normalising an argument twice changes nothing. *)
Lemma resolveRealPath_idem p : resolveRealPath (resolveRealPath p) = resolveRealPath p.
Proof.
  rewrite (resolveRealPath_of_canonical (resolveRealPath p)) by apply resolveRealPath_canonical.
  unfold resolveRealPath. set (abs := resolve (expandTilde p)).
  destruct (realpathSync abs) as [q|] eqn:Hq.
  { by erewrite realpath_idem. }
  destruct (resolve_canonical (expandTilde p)) as (segs & Hg & Hs). fold abs in Hs.
  rewrite Hs in Hq |- *.
  destruct (walk_up_cases MAX_DEPTH segs [] (render segs))
    as [Heq|(e & u & r & -> & Hf & Hl & Heq)]; [by rewrite app_nil_r| |].
  - by rewrite Heq, Hq.
  - rewrite Heq, app_nil_r. pose proof Hf as (Hr & Hne & He & Hnone).
    apply Forall_app in Hg as [Hge Hgu].
    rewrite <-(realpath_compositional e r u), Hq by done.
    replace (render (r ++ u)) with (render (r ++ u ++ [])) at 3 by (by rewrite app_nil_r).
    apply walk_up_found; [by rewrite !Forall_app| |done].
    split_and!; [done..| |].
    + by eapply realpath_idem.
    + intros v w -> Hv Hw. apply Forall_app in Hgu as [Hgv _].
      rewrite <-(realpath_compositional e r v) by done. by apply (Hnone v w).
Qed.
End real_paths.

(** ** Containment, component by component *)

(** The components of a canonical path. *)
Definition path_segments (p : string) : list string :=
  match split_on slash p with
  | "" :: [""] => []
  | "" :: segs => segs
  | segs => segs
  end.

Lemma path_segments_render segs : Forall good_segment segs → path_segments (render segs) = segs.
Proof.
  intros Hg. unfold path_segments. destruct (decide (segs = [])) as [->|Hne]; [done|].
  rewrite split_on_render by done.
  destruct segs as [|s segs]; [done|]. apply Forall_cons in Hg as [(Hs & _) _].
  destruct s; [done|]. by destruct segs.
Qed.

Lemma render_path_segments p : canonical p → render (path_segments p) = p.
Proof. intros (segs & Hg & ->). by rewrite path_segments_render. Qed.

(** The specification of containment: the directory's components are a prefix
    of the target's, except that the root directory only contains itself. *)
Definition within_segments (target dir : list string) : Prop :=
  target = dir ∨ dir ≠ [] ∧ dir `prefix_of` target.

Section containment.
Context `{FileSystemLaws}.

Lemma within_canonical t d : canonical t → canonical d →
  (t =? d) || startsWith t (d +:+ "/") = true ↔
  within_segments (path_segments t) (path_segments d).
Proof.
  intros (ts & Ht & ->) (ds & Hd & ->).
  rewrite !path_segments_render, orb_true_iff, bool_decide_eq_true by done.
  rewrite startsWith_render by done. unfold within_segments. split.
  - intros [->%render_inj|[Hne (s & u & ->)]]; [by left|done..|].
    right. split; [done|]. by apply prefix_app_r.
  - intros [->|[Hne [u ->]]]; [by left|].
    destruct u as [|s u]; [left; by rewrite app_nil_r|right; eauto].
Qed.

Lemma isWithinDirectory_spec t d :
  isWithinDirectory t d = true ↔
  within_segments (path_segments (resolveRealPath t)) (path_segments (resolveRealPath d)).
Proof. apply within_canonical; apply resolveRealPath_canonical. Qed.

Lemma isWithinDirectory_resolve t d :
  isWithinDirectory (resolveRealPath t) d = isWithinDirectory t d.
Proof. unfold isWithinDirectory. by rewrite resolveRealPath_idem. Qed.

Lemma isWithinDirectory_refl p : isWithinDirectory p p = true.
Proof. unfold isWithinDirectory. by rewrite bool_decide_eq_true_2. Qed.
End containment.
