(* ===== verification/Urls.v ===== *)
(** * URL canonicalisation

    Models src/types/url-normalize.ts.  The WHATWG [URL] class belongs to the
    runtime: the class [UrlParser] is what the sources use of it. *)

From Stdlib Require Import Ascii.
From S2P Require Import Prelude.

Class UrlParser := {
  url : Type;
  newURL : string → option url;            (** [None]: [new URL] throws *)
  url_hostname : url → string;
  url_pathname : url → string;
  url_set_pathname : url → string → url;   (** [u.pathname = s] *)
  url_href : url → string;                 (** [u.toString()] *)
}.

(** ** Regular-expression pieces *)

Fixpoint str_span (f : ascii → bool) (s : string) : string * string :=
  match s with
  | String a s' => if f a then let '(p, r) := str_span f s' in (String a p, r) else ("", s)
  | "" => ("", "")
  end.

Definition in_range (lo hi : nat) (a : ascii) : bool :=
  let n := nat_of_ascii a in ((lo <=? n) && (n <=? hi))%nat.

Definition is_digit (a : ascii) : bool := in_range 48 57 a.

(** [\w] *)
Definition is_word (a : ascii) : bool :=
  is_digit a || in_range 65 90 a || in_range 97 122 a || (nat_of_ascii a =? 95).

Definition colon : ascii := ascii_of_nat 58.
Definition at_sign : ascii := ascii_of_nat 64.

(** [[\w.+-]] *)
Definition is_user_char (a : ascii) : bool :=
  is_word a || (nat_of_ascii a =? 46) || (nat_of_ascii a =? 43) || (nat_of_ascii a =? 45).

(** [/^[\w.+-]+@/]: what follows the match. *)
Definition strip_user (s : string) : option string :=
  match str_span is_user_char s with
  | ("", _) => None
  | (_, String a rest) => if a =? at_sign then Some rest else None
  | (_, "") => None
  end.

(** [/^([^:]+):/]: the group and what follows the match. *)
Definition host_colon (s : string) : option (string * string) :=
  match str_span (λ a, negb (a =? colon)) s with
  | ("", _) => None
  | (h, String _ rest) => Some (h, rest)
  | (_, "") => None
  end.

(** [/^(?:[\w.+-]+@)?([^:]+):/] with its backtracking. *)
Definition ssh_match (s : string) : option (string * string) :=
  match strip_user s with
  | Some r => match host_colon r with Some x => Some x | None => host_colon s end
  | None => host_colon s
  end.

(** ** Source definitions *)

Definition strip_trailing_slash (s : string) : string :=
  if endsWith s "/" then str_drop_end 1 s else s.

Definition normalizeUrl `{UrlParser} (value : string) : string :=
  match newURL value with
  | Some u =>
      let u := if url_pathname u =? "/" then url_set_pathname u "" else u in
      strip_trailing_slash (url_href u)
  | None => value
  end.

Definition normalizeGitUrl `{UrlParser} (value : string) : string :=
  match ssh_match value with
  | Some _ => if str_includes value "://" then normalizeUrl value else value
  | None => normalizeUrl value
  end.
