(* ===== verification/Roles.v ===== *)
(** * Argument roles

    Models src/types/argument-roles.ts: the role registry, its accessors, and the
    resolution of conditional roles against the arguments of a call; and the
    annotation types of src/pipeline/types.ts. *)

From S2P Require Import Prelude JsValue Paths Urls.

(** ** Data *)

Inductive RoleCategory := CatPath | CatUrl | CatIdentifier | CatOpaque.

#[export] Instance RoleCategory_eq_dec : EqDecision RoleCategory.
Proof. solve_decision. Defined.

Inductive ArgumentRole :=
| ReadPath | WritePath | DeletePath
| WriteHistory | DeleteHistory
| FetchUrl | GitRemoteUrl
| GithubOwner | GithubRepo
| BranchName | CommitMessage
| EmailAddress | EmailBody | SharePermission
| ProxyDomain
| RoleNone.

#[export] Instance ArgumentRole_eq_dec : EqDecision ArgumentRole.
Proof. solve_decision. Defined.

(** The string a role is written as in the JSON artifacts. *)
Definition role_name (r : ArgumentRole) : string :=
  match r with
  | ReadPath => "read-path" | WritePath => "write-path" | DeletePath => "delete-path"
  | WriteHistory => "write-history" | DeleteHistory => "delete-history"
  | FetchUrl => "fetch-url" | GitRemoteUrl => "git-remote-url"
  | GithubOwner => "github-owner" | GithubRepo => "github-repo"
  | BranchName => "branch-name" | CommitMessage => "commit-message"
  | EmailAddress => "email-address" | EmailBody => "email-body"
  | SharePermission => "share-permission" | ProxyDomain => "proxy-domain"
  | RoleNone => "none"
  end.

Record RoleDefinition := {
  description : string;
  isResourceIdentifier : bool;
  category : RoleCategory;
  canonicalize : string → string;
  annotationGuidance : string;
  serverNames : option (list string);
}.

Definition identity (value : string) : string := value.
Definition lowercase (value : string) : string := toLowerCase value.

Section registry.
Context `{FileSystem} `{UrlParser}.

Definition registryEntries_core : list (ArgumentRole * RoleDefinition) := [
  (ReadPath, {|
     description := "Filesystem path that will be read";
     isResourceIdentifier := true;
     category := CatPath;
     canonicalize := resolveRealPath;
     annotationGuidance :=
       "Assign to arguments that are filesystem paths the tool will read from. " +:+
       "Includes file and directory paths used for input.";
     serverNames := Some ["filesystem"; "git"] |});
  (WritePath, {|
     description := "Filesystem path that will be written to";
     isResourceIdentifier := true;
     category := CatPath;
     canonicalize := resolveRealPath;
     annotationGuidance :=
       "Assign to arguments that are filesystem paths the tool will write or create. " +:+
       "Includes destination paths for file creation and modification.";
     serverNames := Some ["filesystem"; "git"] |});
  (DeletePath, {|
     description := "Filesystem path that will be deleted";
     isResourceIdentifier := true;
     category := CatPath;
     canonicalize := resolveRealPath;
     annotationGuidance :=
       "Assign to arguments that are filesystem paths the tool will delete or remove. " +:+
       "Also assign to the source argument of move operations (source is deleted after copy).";
     serverNames := Some ["filesystem"; "git"] |});
  (WriteHistory, {|
     description := "Filesystem path where git history will be rewritten";
     isResourceIdentifier := true;
     category := CatPath;
     canonicalize := resolveRealPath;
     annotationGuidance :=
       "Assign to the repository path argument of git operations that rewrite history or modify refs. " +:+
       "Includes git_reset, git_rebase, git_merge, git_cherry_pick, and similar operations. " +:+
       "These operations are dangerous even within the sandbox and require human oversight.";
     serverNames := Some ["git"] |});
  (DeleteHistory, {|
     description := "Filesystem path where git refs or history will be deleted";
     isResourceIdentifier := true;
     category := CatPath;
     canonicalize := resolveRealPath;
     annotationGuidance :=
       "Assign to the repository path argument of git operations that delete refs (branches, tags). " +:+
       "Includes git_branch (delete mode), git_tag (delete mode), and similar operations. " +:+
       "These operations are dangerous even within the sandbox and require human oversight.";
     serverNames := Some ["git"] |});
  (FetchUrl, {|
     description := "URL that will be fetched via HTTP(S)";
     isResourceIdentifier := true;
     category := CatUrl;
     canonicalize := normalizeUrl;
     annotationGuidance :=
       "Assign to arguments that are HTTP(S) URLs the tool will fetch. " +:+
       "Typically applies to web-fetch server tools.";
     serverNames := Some ["fetch"] |});
  (GitRemoteUrl, {|
     description := "Git remote URL or named remote for network operations";
     isResourceIdentifier := true;
     category := CatUrl;
     canonicalize := normalizeGitUrl;
     annotationGuidance :=
       "Assign to arguments that identify a git remote (URL or named remote like " +:+ dquote +:+ "origin" +:+ dquote +:+ "). " +:+
       "Typically applies to git server tools like git_clone, git_push, git_pull, git_fetch, git_remote.";
     serverNames := Some ["git"] |});
  (GithubOwner, {|
     description := "GitHub user or organization name that owns the target resource";
     isResourceIdentifier := true;
     category := CatIdentifier;
     canonicalize := lowercase;
     annotationGuidance :=
       "Assign to arguments that identify a GitHub user or organization that owns the target resource. " +:+
       "Typically the " +:+ dquote +:+ "owner" +:+ dquote +:+ " or " +:+ dquote +:+ "org" +:+ dquote +:+ " parameter on GitHub API tools.";
     serverNames := Some ["github"] |});
  (GithubRepo, {|
     description := "GitHub repository name (without owner prefix)";
     isResourceIdentifier := true;
     category := CatIdentifier;
     canonicalize := lowercase;
     annotationGuidance :=
       "Assign to arguments that identify a GitHub repository name (without the owner prefix). " +:+
       "Typically the " +:+ dquote +:+ "repo" +:+ dquote +:+ " parameter on GitHub API tools. " +:+
       "Always pair with the corresponding github-owner argument.";
     serverNames := Some ["github"] |});
  (BranchName, {|
     description := "Git branch name";
     isResourceIdentifier := false;
     category := CatOpaque;
     canonicalize := identity;
     annotationGuidance :=
       "Assign to arguments that are git branch names. " +:+
       "Typically applies to git server tools like git_branch, git_checkout, git_merge, git_push, " +:+
       "and GitHub tools like create_pull_request (head/base branch arguments).";
     serverNames := Some ["git"; "github"] |});
  (CommitMessage, {|
     description := "Git commit message text";
     isResourceIdentifier := false;
     category := CatOpaque;
     canonicalize := identity;
     annotationGuidance :=
       "Assign to arguments that are git commit messages. " +:+
       "Typically applies to git_commit.";
     serverNames := Some ["git"] |})
].

Definition registryEntries_workspace : list (ArgumentRole * RoleDefinition) := [
  (EmailAddress, {|
     description := "Email address (recipient, attendee, share target)";
     isResourceIdentifier := false;
     category := CatOpaque;
     canonicalize := identity;
     annotationGuidance :=
       "Assign to arguments that are email addresses (recipients, attendees, share targets). " +:+
       "Includes the " +:+ dquote +:+ "to" +:+ dquote +:+ " field on send/draft, " +:+ dquote +:+ "attendees" +:+ dquote +:+ " on calendar events, " +:+ dquote +:+ "email" +:+ dquote +:+ " on file sharing.";
     serverNames := Some ["google-workspace"] |});
  (EmailBody, {|
     description := "Email message body content";
     isResourceIdentifier := false;
     category := CatOpaque;
     canonicalize := identity;
     annotationGuidance :=
       "Assign to arguments that contain email body text or rich content. " +:+
       "Includes the " +:+ dquote +:+ "body" +:+ dquote +:+ " field on send/draft message tools.";
     serverNames := Some ["google-workspace"] |});
  (SharePermission, {|
     description := "Sharing permission level (viewer, commenter, editor, organizer)";
     isResourceIdentifier := false;
     category := CatOpaque;
     canonicalize := lowercase;
     annotationGuidance :=
       "Assign to arguments that specify a sharing or permission level on shared resources " +:+
       "(e.g., the role parameter on Drive file sharing).";
     serverNames := Some ["google-workspace"] |});
  (ProxyDomain, {|
     description := "Domain name for proxy allowlist management";
     isResourceIdentifier := true;
     category := CatIdentifier;
     canonicalize := lowercase;
     annotationGuidance :=
       "Assign to arguments that are domain names used for proxy allowlist management. " +:+
       "Typically the " +:+ dquote +:+ "domain" +:+ dquote +:+ " parameter on proxy domain management tools.";
     serverNames := Some ["proxy"] |});
  (RoleNone, {|
     description := "Argument carries no resource-identifier semantics";
     isResourceIdentifier := false;
     category := CatOpaque;
     canonicalize := identity;
     annotationGuidance :=
       "Assign to arguments that have no resource-identifier semantics. " +:+
       "Use for flags, counts, patterns, messages, and other non-path, non-URL values.";
     serverNames := None |})
].

Definition registryEntries : list (ArgumentRole * RoleDefinition) :=
  registryEntries_core ++ registryEntries_workspace.

Definition ARGUMENT_ROLE_REGISTRY : list (ArgumentRole * RoleDefinition) := registryEntries.

(** [Map.get] over the registry. *)
Fixpoint registry_get (l : list (ArgumentRole * RoleDefinition)) (role : ArgumentRole)
    : option RoleDefinition :=
  match l with
  | [] => None
  | (r, d) :: l => if r =? role then Some d else registry_get l role
  end.

Definition getRoleDefinition (role : ArgumentRole) : result RoleDefinition :=
  match registry_get ARGUMENT_ROLE_REGISTRY role with
  | Some def => Ok def
  | None => Throw ("No registry entry for role: " +:+ role_name role)
  end.

Definition getResourceRoles : list ArgumentRole :=
  (filter (λ e, isResourceIdentifier e.2 = true) ARGUMENT_ROLE_REGISTRY).*1.

Definition isArgumentRole (value : string) : bool :=
  bool_decide (value ∈ role_name <$> ARGUMENT_ROLE_REGISTRY.*1).

Definition getArgumentRoleValues : list ArgumentRole := ARGUMENT_ROLE_REGISTRY.*1.

Definition getRolesForServer (serverName : string) : list (ArgumentRole * RoleDefinition) :=
  filter (λ e, match serverNames e.2 with
               | None => true
               | Some names => includes names serverName
               end = true) ARGUMENT_ROLE_REGISTRY.

Definition getRolesByCategory (cat : RoleCategory) : list ArgumentRole :=
  (filter (λ e, category e.2 = cat) ARGUMENT_ROLE_REGISTRY).*1.

Definition getPathRoles : list ArgumentRole := getRolesByCategory CatPath.
Definition getUrlRoles : list ArgumentRole := getRolesByCategory CatUrl.
Definition getIdentifierRoles : list ArgumentRole := getRolesByCategory CatIdentifier.

(** The registry covers every role, so [getRoleDefinition] never throws
    ([getRoleDefinition_total]); the code after a lookup reads this record. *)
Definition roleDef (role : ArgumentRole) : RoleDefinition :=
  match getRoleDefinition role with
  | Ok d => d
  | Throw _ => {| description := ""; isResourceIdentifier := false; category := CatOpaque;
                  canonicalize := identity; annotationGuidance := ""; serverNames := None |}
  end.
End registry.

Definition SANDBOX_SAFE_PATH_ROLES : list ArgumentRole :=
  [ReadPath; WritePath; DeletePath; WriteHistory; DeleteHistory].

(** ** Annotations *)

Record ToolAnnotation := {
  ta_toolName : string;
  ta_serverName : string;
  ta_comment : string;
  ta_args : object (list ArgumentRole);
}.

(** [string | number | boolean] *)
Inductive prim := PStr (s : string) | PNum (n : jsnum) | PBool (b : bool).

#[export] Instance prim_eq_dec : EqDecision prim.
Proof. solve_decision. Defined.

Inductive IsTest := IsPresent | IsAbsent | IsTruthy | IsFalsy.

Record RoleCondition := {
  rc_arg : string;
  rc_equals : option prim;
  rc_in : option (list prim);
  rc_is : option IsTest;
}.

Record ConditionalRoleEntry := {
  ce_condition : RoleCondition;
  ce_roles : list ArgumentRole;
}.

Record ConditionalRoles := {
  cr_default : list ArgumentRole;
  cr_when : list ConditionalRoleEntry;
}.

Inductive ArgumentRoleSpec :=
| SpecStatic (roles : list ArgumentRole)
| SpecConditional (spec : ConditionalRoles).

Record StoredToolAnnotation := {
  sa_toolName : string;
  sa_serverName : string;
  sa_comment : string;
  sa_args : object ArgumentRoleSpec;
  sa_inputSchema : object jsvalue;
}.

Record ServerAnnotations (A : Type) := {
  srv_inputHash : string;
  srv_tools : list A;
}.
Arguments srv_inputHash {_} _.
Arguments srv_tools {_} _.

Record AnnotationsFile (A : Type) := {
  af_generatedAt : string;
  af_servers : object (ServerAnnotations A);
}.
Arguments af_generatedAt {_} _.
Arguments af_servers {_} _.

Definition StoredToolAnnotationsFile := AnnotationsFile StoredToolAnnotation.
Definition ToolAnnotationsFile := AnnotationsFile ToolAnnotation.

(** ** Conditional role resolution *)

Definition value_prim (v : jsvalue) : option prim :=
  match v with
  | VStr s => Some (PStr s)
  | VNum n => Some (PNum n)
  | VBool b => Some (PBool b)
  | _ => None
  end.

(** [v === p]: NaN equals nothing. *)
Definition strict_equals (v : jsvalue) (p : prim) : bool :=
  match value_prim v with
  | Some q => (q =? p) && negb (p =? PNum JNaN)
  | None => false
  end.

(** [l.includes(v)]: NaN equals itself. *)
Definition prims_include (l : list prim) (v : jsvalue) : bool :=
  match value_prim v with Some q => includes l q | None => false end.

Definition evaluateCondition (cond : RoleCondition) (callArgs : object jsvalue) : bool :=
  let value := get_value callArgs (rc_arg cond) in
  let present := obj_has callArgs (rc_arg cond) in
  match rc_equals cond with
  | Some p => strict_equals value p
  | None =>
      match rc_in cond with
      | Some l => prims_include l value
      | None =>
          match rc_is cond with
          | Some IsPresent => present && negb (is_nullish value)
          | Some IsAbsent => negb present || is_nullish value
          | Some IsTruthy => present && truthy value
          | Some IsFalsy => negb present || negb (truthy value)
          | None => false
          end
      end
  end.

Definition evaluateConditionalRoles (spec : ConditionalRoles) (callArgs : object jsvalue)
    : list ArgumentRole :=
  match List.find (λ e, evaluateCondition (ce_condition e) callArgs) (cr_when spec) with
  | Some entry => ce_roles entry
  | None => cr_default spec
  end.

Definition isConditionalRoles (spec : ArgumentRoleSpec) : bool :=
  match spec with SpecStatic _ => false | SpecConditional _ => true end.

Definition extractDefaultRoles (spec : ArgumentRoleSpec) : list ArgumentRole :=
  match spec with SpecStatic roles => roles | SpecConditional c => cr_default c end.

Definition resolveSpec (callArgs : object jsvalue) (spec : ArgumentRoleSpec) : list ArgumentRole :=
  match spec with
  | SpecStatic roles => roles
  | SpecConditional c => evaluateConditionalRoles c callArgs
  end.

(** [for (const [k, v] of Object.entries(o)) out[k] = f(v)] *)
Definition map_entries {A B} (f : A → B) (o : object A) : object B :=
  foldl (λ out e, obj_set out e.1 (f e.2)) [] o.

Definition resolveStoredAnnotation (stored : StoredToolAnnotation) (callArgs : object jsvalue)
    : ToolAnnotation :=
  let with_args args := {| ta_toolName := sa_toolName stored;
                           ta_serverName := sa_serverName stored;
                           ta_comment := sa_comment stored;
                           ta_args := args |} in
  let hasConditionals := existsb isConditionalRoles (obj_values (sa_args stored)) in
  if negb hasConditionals
  then with_args (prod_map id extractDefaultRoles <$> sa_args stored)
  else with_args (map_entries (resolveSpec callArgs) (sa_args stored)).

(** The annotation the compilation pipeline sees: every conditional block at its
    default. *)
Definition resolveToolDefaults (tool : StoredToolAnnotation) : ToolAnnotation :=
  {| ta_toolName := sa_toolName tool;
     ta_serverName := sa_serverName tool;
     ta_comment := sa_comment tool;
     ta_args := map_entries extractDefaultRoles (sa_args tool) |}.

Definition resolveStoredAnnotationsFile (stored : StoredToolAnnotationsFile)
    : ToolAnnotationsFile :=
  {| af_generatedAt := af_generatedAt stored;
     af_servers := prod_map id (λ server,
       {| srv_inputHash := srv_inputHash server;
          srv_tools := resolveToolDefaults <$> srv_tools server |})
       <$> af_servers stored |}.

(** ** The registry is complete *)

Section registry_lemmas.
Context `{FileSystem} `{UrlParser}.

Lemma getRoleDefinition_total role : getRoleDefinition role = Ok (roleDef role).
Proof. by destruct role. Qed.

Lemma registry_keys_NoDup : NoDup (ARGUMENT_ROLE_REGISTRY.*1).
Proof. apply (bool_decide_unpack (NoDup _)). vm_compute. done. Qed.

Lemma registry_keys_complete role : role ∈ getArgumentRoleValues.
Proof. apply (bool_decide_unpack (_ ∈ _)). destruct role; vm_compute; done. Qed.

Lemma getPathRoles_eq : getPathRoles = SANDBOX_SAFE_PATH_ROLES.
Proof. done. Qed.

Lemma getUrlRoles_eq : getUrlRoles = [FetchUrl; GitRemoteUrl].
Proof. done. Qed.

Lemma getRolesByCategory_spec cat role :
  role ∈ getRolesByCategory cat ↔ category (roleDef role) = cat.
Proof. destruct cat, role; vm_compute; set_solver. Qed.

Lemma path_role_resource role :
  category (roleDef role) = CatPath → isResourceIdentifier (roleDef role) = true.
Proof. by destruct role. Qed.

Lemma url_role_resource role :
  category (roleDef role) = CatUrl → isResourceIdentifier (roleDef role) = true.
Proof. by destruct role. Qed.
End registry_lemmas.

#[export] Hint Resolve path_role_resource url_role_resource registry_keys_complete : curtain.

(** ** Mapping over entries *)

Lemma obj_set_fresh {A} (o : object A) k v : k ∉ obj_keys o → obj_set o k v = o ++ [(k, v)].
Proof.
  unfold obj_keys. induction o as [|[k' v'] o IH]; csimpl; [done|].
  intros [Hk Ho]%not_elem_of_cons. rewrite bool_decide_eq_false_2 by done. by rewrite IH.
Qed.

Lemma map_entries_go {A B} (f : A → B) (o : object A) (out : object B) :
  NoDup (obj_keys out ++ obj_keys o) →
  foldl (λ out e, obj_set out e.1 (f e.2)) out o = out ++ (prod_map id f <$> o).
Proof.
  revert out. induction o as [|[k v] o IH]; intros out Hnd; csimpl.
  { by rewrite app_nil_r. }
  rewrite obj_set_fresh.
  - rewrite IH; [by rewrite <-app_assoc|].
    unfold obj_keys in *. rewrite fmap_app. csimpl in *. by rewrite <-app_assoc.
  - apply NoDup_app in Hnd as (_ & Hd & _). intros Hk. apply (Hd k Hk).
    unfold obj_keys. csimpl. set_solver.
Qed.

Lemma map_entries_eq {A B} (f : A → B) (o : object A) :
  obj_wf o → map_entries f o = prod_map id f <$> o.
Proof. intros Ho. unfold map_entries. by rewrite map_entries_go. Qed.

Lemma obj_get_map {A B} (f : A → B) (o : object A) k :
  obj_get (prod_map id f <$> o) k = f <$> obj_get o k.
Proof. induction o as [|[k' v'] o IH]; csimpl; [done|]. by case_bool_decide. Qed.

Lemma obj_keys_map {A B} (f : A → B) (o : object A) :
  obj_keys (prod_map id f <$> o) = obj_keys o.
Proof. unfold obj_keys. rewrite <-list_fmap_compose. by apply list_fmap_ext. Qed.

Lemma resolveStoredAnnotation_args stored callArgs :
  obj_wf (sa_args stored) →
  ta_args (resolveStoredAnnotation stored callArgs) =
  prod_map id (resolveSpec callArgs) <$> sa_args stored.
Proof.
  intros Hwf. unfold resolveStoredAnnotation.
  destruct (existsb _ _) eqn:He; simpl; [by apply map_entries_eq|].
  apply list_fmap_ext. intros i [k spec] Hi. unfold prod_map; simpl. f_equal.
  rewrite existsb_false_elem in He. specialize (He spec).
  destruct spec; [done|]. exfalso.
  assert (isConditionalRoles (SpecConditional spec) = false) as Hs; [|done]. apply He.
  apply list_elem_of_fmap. exists (k, SpecConditional spec). split; [done|].
  by eapply list_elem_of_lookup_2.
Qed.

(** ** Conditional roles only narrow *)

(** The invariant documented on [ConditionalRoles]. *)
Definition stored_annotation_wf (stored : StoredToolAnnotation) : Prop :=
  obj_wf (sa_args stored) ∧
  ∀ name spec entry, obj_get (sa_args stored) name = Some (SpecConditional spec) →
    entry ∈ cr_when spec → ce_roles entry ⊆ cr_default spec.

Lemma resolveSpec_narrow callArgs spec :
  (∀ c entry, spec = SpecConditional c → entry ∈ cr_when c → ce_roles entry ⊆ cr_default c) →
  resolveSpec callArgs spec ⊆ extractDefaultRoles spec.
Proof.
  intros Hn. destruct spec as [roles|c]; simpl; [done|].
  unfold evaluateConditionalRoles. destruct (List.find _ _) as [e|] eqn:Hf; [|done].
  apply find_some_elem in Hf as [He _]. by eapply Hn.
Qed.
