(* ===== verification/Domains.v ===== *)
(** * Domains: allowlist matching, extraction, git remotes

    Models src/trusted-process/domain-utils.ts and
    src/trusted-process/list-matcher.ts.  Running [git] is the environment: the
    class [GitCli] gives the standard output of a git command, [None] when
    [execFileSync] throws (missing binary, non-zero exit, timeout). *)

From Stdlib Require Import Ascii.
From S2P Require Import Prelude JsValue Paths Urls Roles.

Class GitCli := git_exec : string → list string → option string.

(** ** Matching *)

(** [/^\d+\.\d+\.\d+\.\d+$/] *)
Definition is_ipv4 (s : string) : bool :=
  let parts := split_on (ascii_of_nat 46) s in
  (length parts =? 4) && forallb (λ p, negb (p =? "") && str_forallb is_digit p) parts.

Definition isIpAddress (domain : string) : bool :=
  is_ipv4 domain || str_includes domain ":".

Definition hostname_of (domain : string) : string :=
  match str_indexOf domain "/" with
  | Some slashIdx => str_take slashIdx domain
  | None => domain
  end.

Definition pattern_matches (domain pattern : string) : bool :=
  let hostname := hostname_of domain in
  if pattern =? "*" then negb (isIpAddress hostname)
  else if startsWith pattern "*." then
    let suffix := str_drop 1 pattern in
    (hostname =? str_drop 2 pattern) || endsWith hostname suffix
  else if str_includes pattern "/" then domain =? pattern
  else hostname =? pattern.

Definition domainMatchesAllowlist (domain : string) (allowedDomains : list string) : bool :=
  existsb (pattern_matches domain) allowedDomains.

(** ** list-matcher.ts *)

Inductive ListType := ListDomains | ListEmails | ListIdentifiers.

Definition getListMatcher (type : ListType) (v p : string) : bool :=
  match type with
  | ListDomains => domainMatchesAllowlist v [p]
  | ListEmails => toLowerCase v =? toLowerCase p
  | ListIdentifiers => v =? p
  end.

(** ** Extraction *)

Definition extractDomain `{UrlParser} (value : string) : string :=
  match newURL value with Some u => url_hostname u | None => value end.

Definition normalizeGitRepoPath (pathname : string) : string :=
  let s := pathname in
  let s := if startsWith s "/" then str_drop 1 s else s in
  let s := if endsWith s "/" then str_drop_end 1 s else s in
  let s := if endsWith s ".git" then str_drop_end 4 s else s in
  if endsWith s "/" then str_drop_end 1 s else s.

Definition not_newline (a : ascii) : bool :=
  negb ((nat_of_ascii a =? 10) || (nat_of_ascii a =? 13)).

Definition with_repo_path (host repoPath : string) : string :=
  if repoPath =? "" then host else host +:+ "/" +:+ repoPath.

Definition extractGitDomain `{UrlParser} (value : string) : string :=
  let from_url :=
    match newURL value with
    | Some u => with_repo_path (url_hostname u) (normalizeGitRepoPath (url_pathname u))
    | None => value
    end in
  match ssh_match value with
  | Some (host, rest) =>
      if str_includes value "://" then from_url
      else with_repo_path host (normalizeGitRepoPath (str_span not_newline rest).1)
  | None => from_url
  end.

Definition extractDomainForRole `{UrlParser} (value : string) (role : ArgumentRole) : string :=
  if role =? GitRemoteUrl then extractGitDomain value else extractDomain value.

(** ** Git remotes *)

(** [/^[\w.+-]+@[^:]+:/] *)
Definition is_scp_url (s : string) : bool :=
  match strip_user s with Some r => bool_decide (is_Some (host_colon r)) | None => false end.

Definition resolveGitRemote `{FileSystem} `{GitCli} (value : string) (allArgs : object jsvalue)
    : string :=
  if str_includes value "://" || is_scp_url value then value
  else
    let rawPath := match get_value allArgs "path" with VStr p => p | _ => "." end in
    match git_exec (resolve rawPath) ["remote"; "get-url"; value] with
    | Some out => str_trim out
    | None => value
    end.

(** [out.trim() || undefined] *)
Definition trim_or_undefined (out : option string) : option string :=
  match out with
  | Some out => let s := str_trim out in if s =? "" then None else Some s
  | None => None
  end.

Definition gitCurrentBranch `{GitCli} (cwd : string) : option string :=
  match git_exec cwd ["rev-parse"; "--abbrev-ref"; "HEAD"] with
  | Some out => let branch := str_trim out in if branch =? "HEAD" then None else Some branch
  | None => None
  end.

Definition gitBranchRemote `{GitCli} (branch cwd : string) : option string :=
  trim_or_undefined (git_exec cwd ["config"; "--get"; "branch." +:+ branch +:+ ".remote"]).

Definition gitRemoteUrl `{GitCli} (remoteName cwd : string) : option string :=
  trim_or_undefined (git_exec cwd ["remote"; "get-url"; remoteName]).

Definition resolveDefaultGitRemote `{FileSystem} `{GitCli} (repoPath : string) : option string :=
  let resolved := resolve repoPath in
  let tracking :=
    branch ← gitCurrentBranch resolved;
    if branch =? "" then None
    else remoteName ← gitBranchRemote branch resolved; gitRemoteUrl remoteName resolved in
  match tracking with
  | Some url => Some url
  | None => gitRemoteUrl "origin" resolved
  end.

(** ** What a pattern allows *)

(** The reference semantics of an allowlist pattern over a host name and the
    full domain. *)
Inductive allows (domain host : string) : string → Prop :=
| allows_any : isIpAddress host = false → allows domain host "*"
| allows_base base : host = base → allows domain host ("*." +:+ base)
| allows_subdomain base label :
    host = label +:+ "." +:+ base → allows domain host ("*." +:+ base)
| allows_exact_path pattern :
    startsWith pattern "*." = false → str_includes pattern "/" = true →
    domain = pattern → allows domain host pattern
| allows_host pattern :
    pattern ≠ "*" → startsWith pattern "*." = false → str_includes pattern "/" = false →
    host = pattern → allows domain host pattern.

Lemma pattern_matches_spec domain pattern :
  pattern_matches domain pattern = true ↔ allows domain (hostname_of domain) pattern.
Proof.
  unfold pattern_matches. destruct (decide (pattern = "*")) as [->|Hstar].
  { rewrite bool_decide_eq_true_2, negb_true_iff by done.
    split; [by constructor|]. intros Ha. inversion Ha; simplify_eq/=; done. }
  rewrite bool_decide_eq_false_2 by done.
  destruct (startsWith pattern "*.") eqn:Hs.
  { apply startsWith_spec in Hs as [base ->].
    change (str_drop 1 ("*." +:+ base)) with ("." +:+ base).
    change (str_drop 2 ("*." +:+ base)) with base.
    rewrite orb_true_iff, bool_decide_eq_true, endsWith_spec. split.
    - intros [Heq|[label Heq]]; [by apply allows_base|by eapply allows_subdomain].
    - intros Ha. inversion Ha; simplify_eq; try done; [by left|right; eauto|..].
      all: by rewrite startsWith_app in *. }
  destruct (str_includes pattern "/") eqn:Hi; rewrite bool_decide_eq_true.
  all: split; [by constructor|].
  all: intros Ha; inversion Ha; simplify_eq; try congruence.
  all: by rewrite startsWith_app in Hs.
Qed.

Lemma domainMatchesAllowlist_spec domain allowed :
  domainMatchesAllowlist domain allowed = true ↔
  ∃ pattern, pattern ∈ allowed ∧ allows domain (hostname_of domain) pattern.
Proof.
  unfold domainMatchesAllowlist. rewrite existsb_exists_elem.
  by setoid_rewrite pattern_matches_spec.
Qed.

(** The host name is the part before the first slash. *)
Lemma hostname_of_spec domain : ∃ rest,
  domain = hostname_of domain +:+ rest ∧ str_includes (hostname_of domain) "/" = false ∧
  (rest = "" ∨ startsWith rest "/" = true).
Proof.
  unfold hostname_of.
  assert (Hgo : ∀ s, match str_indexOf s "/" with
    | Some i => str_includes (str_take i s) "/" = false ∧ startsWith (str_drop i s) "/" = true
    | None => str_includes s "/" = false end).
  { induction s as [|a s IH]; [done|]. cbn [str_indexOf].
    destruct (String.prefix "/" (String a s)) eqn:Hp; [by destruct a|].
    destruct (str_indexOf s "/") as [i|]; cbn [fmap option_fmap option_map str_take str_drop str_includes].
    - destruct IH as [IH1 IH2]. split; [|done]. rewrite IH1, orb_false_r.
      revert Hp. cbn [String.prefix]. destruct (Ascii.ascii_dec _ a); [by destruct s|done].
    - cbn [fmap option_fmap option_map str_includes]. by rewrite IH, Hp. }
  specialize (Hgo domain). destruct (str_indexOf domain "/") as [i|].
  - exists (str_drop i domain). rewrite str_take_drop. naive_solver.
  - exists "". rewrite str_app_nil_r. auto.
Qed.
