(* ===== verification/PolicyTypes.v ===== *)
(** * Policy data

    The compiled-policy artifact and the request and decision types:
    src/pipeline/types.ts, src/types/mcp.ts, src/trusted-process/policy-types.ts. *)

From S2P Require Import Prelude JsValue Roles Domains.

Inductive Decision := Allow | Deny | Escalate.

#[export] Instance Decision_eq_dec : EqDecision Decision.
Proof. solve_decision. Defined.

Record ToolCallRequest := {
  rq_requestId : string;
  rq_serverName : string;
  rq_toolName : string;
  rq_arguments : object jsvalue;
  rq_timestamp : string;
}.

Record PolicyDecision := { pd_status : Decision; pd_rule : string; pd_reason : string }.

Record EvaluationResult := {
  er_decision : Decision;
  er_rule : string;
  er_reason : string;
  er_escalatedRoles : option (list ArgumentRole);
}.

(** ** Compiled rules *)

Record PathCondition := { pc_roles : list ArgumentRole; pc_within : string }.
Record DomainCondition := { dc_roles : list ArgumentRole; dc_allowed : list string }.
Record ListCondition := {
  lc_roles : list ArgumentRole;
  lc_allowed : list string;
  lc_matchType : ListType;
}.

Record CompiledRuleCondition := {
  c_roles : option (list ArgumentRole);
  c_server : option (list string);
  c_tool : option (list string);
  c_paths : option PathCondition;
  c_domains : option DomainCondition;
  c_lists : option (list ListCondition);
}.

Record CompiledRule := {
  r_name : string;
  r_description : string;
  r_principle : string;
  r_if : CompiledRuleCondition;
  r_then : Decision;
  r_reason : string;
}.

Record ListDefinition := {
  ld_name : string;
  ld_type : ListType;
  ld_principle : string;
  ld_generationPrompt : string;
  ld_requiresMcp : bool;
  ld_mcpServerHint : option string;
}.

Record SkippedServer := { sk_serverName : string; sk_reason : string }.

Record CompiledPolicyFile := {
  cp_generatedAt : string;
  cp_constitutionHash : string;
  cp_inputHash : string;
  cp_rules : list CompiledRule;
  cp_listDefinitions : option (list ListDefinition);
  cp_skippedServers : option (list SkippedServer);
}.

Record ResolvedList := {
  rl_values : list string;
  rl_manualAdditions : list string;
  rl_manualRemovals : list string;
  rl_resolvedAt : string;
  rl_inputHash : string;
}.

Record DynamicListsFile := {
  dl_generatedAt : string;
  dl_lists : object ResolvedList;
}.

(** ** Severity: deny > escalate > allow *)

Definition DECISION_SEVERITY (d : Decision) : nat :=
  match d with Allow => 0 | Escalate => 1 | Deny => 2 end.

Definition worse (a b : Decision) : Decision :=
  if DECISION_SEVERITY a <? DECISION_SEVERITY b then b else a.

(** The most restrictive decision of a list. *)
Definition worst (l : list Decision) : Decision := foldr worse Allow l.

Lemma severity_inj a b : DECISION_SEVERITY a = DECISION_SEVERITY b → a = b.
Proof. by destruct a, b. Qed.

Lemma worse_le a b n :
  DECISION_SEVERITY (worse a b) ≤ n ↔ DECISION_SEVERITY a ≤ n ∧ DECISION_SEVERITY b ≤ n.
Proof. destruct a, b; simpl; lia. Qed.

Lemma worst_le l n : DECISION_SEVERITY (worst l) ≤ n ↔ ∀ d, d ∈ l → DECISION_SEVERITY d ≤ n.
Proof.
  induction l as [|d l IH]; simpl.
  - split; [set_solver|lia].
  - rewrite worse_le, IH. set_solver.
Qed.

(** Two decisions with the same upper bounds are equal. *)
Lemma decision_eq_le a b :
  (∀ n, DECISION_SEVERITY a ≤ n ↔ DECISION_SEVERITY b ≤ n) → a = b.
Proof. intros H. apply severity_inj, Nat.le_antisymm; apply H; lia. Qed.

Lemma worst_allow l : worst l = Allow ↔ ∀ d, d ∈ l → d = Allow.
Proof.
  split.
  - intros Hw d Hd. apply severity_inj.
    pose proof (proj1 (worst_le l 0)) as Hle. rewrite Hw in Hle.
    specialize (Hle (le_n 0) d Hd). simpl. lia.
  - intros Hl. apply severity_inj, Nat.le_antisymm; [|simpl; lia].
    apply worst_le. intros d Hd. by rewrite (Hl d Hd).
Qed.

Lemma worst_deny l : Deny ∈ l → worst l = Deny.
Proof.
  intros Hd. apply severity_inj, Nat.le_antisymm.
  - destruct (worst l); simpl; lia.
  - by apply (proj1 (worst_le l _) (le_n _)).
Qed.

Lemma worst_elem l : l ≠ [] → worst l ∈ l.
Proof.
  induction l as [|d l IH]; [done|]. intros _. simpl. unfold worse.
  destruct (decide (l = [])) as [->|Hl].
  - destruct d; simpl; set_solver.
  - case_match; set_solver.
Qed.

Lemma worst_perm l1 l2 : (∀ d, d ∈ l1 ↔ d ∈ l2) → worst l1 = worst l2.
Proof. intros Hl. apply decision_eq_le. intros n. rewrite !worst_le. by setoid_rewrite Hl. Qed.

(** * Dynamic list expansion

    Models the load-time expansion of [@list] references in
    src/trusted-process/policy-engine.ts. *)

(** [lists.lists[listName]], with the warning of the missing case left out. *)
Definition getEffectiveListValues (listName : string) (lists : DynamicListsFile) : list string :=
  match obj_get (dl_lists lists) listName with
  | None => []
  | Some list =>
      filter (λ v, v ∉ rl_manualRemovals list) (js_set (rl_values list ++ rl_manualAdditions list))
  end.

Definition is_reference (e : string) : bool := startsWith e "@".

Definition expand_entry (lists : DynamicListsFile) (entry : string) : list string :=
  if is_reference entry then getEffectiveListValues (str_drop 1 entry) lists else [entry].

Definition expand_allowed (lists : DynamicListsFile) (allowed : list string) : list string :=
  allowed ≫= expand_entry lists.

Definition set_domains (c : CompiledRuleCondition) (d : option DomainCondition) :=
  {| c_roles := c_roles c; c_server := c_server c; c_tool := c_tool c;
     c_paths := c_paths c; c_domains := d; c_lists := c_lists c |}.
Definition set_lists (c : CompiledRuleCondition) (l : option (list ListCondition)) :=
  {| c_roles := c_roles c; c_server := c_server c; c_tool := c_tool c;
     c_paths := c_paths c; c_domains := c_domains c; c_lists := l |}.
Definition set_paths (c : CompiledRuleCondition) (p : option PathCondition) :=
  {| c_roles := c_roles c; c_server := c_server c; c_tool := c_tool c;
     c_paths := p; c_domains := c_domains c; c_lists := c_lists c |}.
Definition set_if (r : CompiledRule) (c : CompiledRuleCondition) :=
  {| r_name := r_name r; r_description := r_description r; r_principle := r_principle r;
     r_if := c; r_then := r_then r; r_reason := r_reason r |}.

Definition expand_list_condition (lists : DynamicListsFile) (lc : ListCondition) : ListCondition :=
  if existsb is_reference (lc_allowed lc)
  then {| lc_roles := lc_roles lc; lc_allowed := expand_allowed lists (lc_allowed lc);
          lc_matchType := lc_matchType lc |}
  else lc.

Definition expand_rule (lists : DynamicListsFile) (rule : CompiledRule) : CompiledRule :=
  let expandedRule :=
    match c_domains (r_if rule) with
    | Some d =>
        if existsb is_reference (dc_allowed d)
        then set_if rule (set_domains (r_if rule)
               (Some {| dc_roles := dc_roles d; dc_allowed := expand_allowed lists (dc_allowed d) |}))
        else rule
    | None => rule
    end in
  match c_lists (r_if rule) with
  | Some ls =>
      if existsb (λ lc, existsb is_reference (lc_allowed lc)) ls
      then set_if expandedRule
             (set_lists (r_if expandedRule) (Some (expand_list_condition lists <$> ls)))
      else expandedRule
  | None => expandedRule
  end.

Definition expandListReferences (policy : CompiledPolicyFile) (lists : DynamicListsFile)
    : CompiledPolicyFile :=
  {| cp_generatedAt := cp_generatedAt policy;
     cp_constitutionHash := cp_constitutionHash policy;
     cp_inputHash := cp_inputHash policy;
     cp_rules := expand_rule lists <$> cp_rules policy;
     cp_listDefinitions := cp_listDefinitions policy;
     cp_skippedServers := cp_skippedServers policy |}.

(** ** Lemmas *)

Lemma expand_allowed_no_reference lists allowed :
  existsb is_reference allowed = false → expand_allowed lists allowed = allowed.
Proof.
  rewrite existsb_false_elem. unfold expand_allowed.
  induction allowed as [|e l IH]; intros He; [done|]. csimpl.
  unfold expand_entry at 1. rewrite He by set_solver. simpl. f_equal. apply IH. set_solver.
Qed.

Lemma expand_list_condition_eq lists lc :
  expand_list_condition lists lc =
  {| lc_roles := lc_roles lc; lc_allowed := expand_allowed lists (lc_allowed lc);
     lc_matchType := lc_matchType lc |}.
Proof.
  unfold expand_list_condition. destruct (existsb _ _) eqn:He; [done|].
  rewrite expand_allowed_no_reference by done. by destruct lc.
Qed.

(** The optimised expansion, which skips rules and conditions without a
    reference, is the map of [expand_allowed] over every allowlist. *)
Definition expand_rule_spec (lists : DynamicListsFile) (rule : CompiledRule) : CompiledRule :=
  let c := r_if rule in
  set_if rule
    {| c_roles := c_roles c; c_server := c_server c; c_tool := c_tool c; c_paths := c_paths c;
       c_domains := (λ d, {| dc_roles := dc_roles d;
                             dc_allowed := expand_allowed lists (dc_allowed d) |}) <$> c_domains c;
       c_lists := fmap (M:=list) (λ lc, {| lc_roles := lc_roles lc;
                                 lc_allowed := expand_allowed lists (lc_allowed lc);
                                 lc_matchType := lc_matchType lc |}) <$> c_lists c |}.

Lemma expand_lists_eq lists ls :
  (if existsb (λ lc, existsb is_reference (lc_allowed lc)) ls
   then expand_list_condition lists <$> ls else ls) =
  (λ lc, {| lc_roles := lc_roles lc; lc_allowed := expand_allowed lists (lc_allowed lc);
            lc_matchType := lc_matchType lc |}) <$> ls.
Proof.
  destruct (existsb _ ls) eqn:He.
  - apply list_fmap_ext. intros. apply expand_list_condition_eq.
  - rewrite existsb_false_elem in He. symmetry. rewrite <-(list_fmap_id ls) at 2.
    apply list_fmap_ext. intros i lc Hlc%list_elem_of_lookup_2.
    rewrite expand_allowed_no_reference by (by apply He). by destruct lc.
Qed.

Lemma expand_rule_eq lists rule : expand_rule lists rule = expand_rule_spec lists rule.
Proof.
  unfold expand_rule, expand_rule_spec.
  assert (Hd : ∀ d, (if existsb is_reference (dc_allowed d)
      then {| dc_roles := dc_roles d; dc_allowed := expand_allowed lists (dc_allowed d) |} else d)
    = {| dc_roles := dc_roles d; dc_allowed := expand_allowed lists (dc_allowed d) |}).
  { intros d. destruct (existsb _ _) eqn:He; [done|].
    rewrite expand_allowed_no_reference by done. by destruct d. }
  destruct rule as [n de pr [ro se to pa do li] th re]; simpl.
  destruct do as [d|], li as [ls|]; simpl;
    [rewrite <-(Hd d), <-expand_lists_eq|rewrite <-(Hd d)|rewrite <-expand_lists_eq|done];
    repeat (destruct (existsb _ _)); done.
Qed.

Lemma elem_of_expand_allowed lists allowed v :
  v ∈ expand_allowed lists allowed ↔
  (v ∈ allowed ∧ is_reference v = false) ∨
  ∃ name, "@" +:+ name ∈ allowed ∧ v ∈ getEffectiveListValues name lists.
Proof.
  unfold expand_allowed. rewrite list_elem_of_bind. split.
  - intros (e & Hv & He). unfold expand_entry, is_reference in Hv.
    destruct (startsWith e "@") eqn:Hr.
    + apply startsWith_spec in Hr as [name ->].
      change (str_drop 1 ("@" +:+ name)) with name in Hv. right. eauto.
    + apply list_elem_of_singleton in Hv as ->. by left.
  - intros [[Hv Hr]|(name & Hn & Hv)].
    + exists v. split; [|done]. unfold expand_entry. rewrite Hr. set_solver.
    + exists ("@" +:+ name). split; [|done]. unfold expand_entry, is_reference.
      by rewrite startsWith_app.
Qed.

Lemma elem_of_effective name lists v :
  v ∈ getEffectiveListValues name lists ↔
  ∃ l, obj_get (dl_lists lists) name = Some l ∧
       (v ∈ rl_values l ∨ v ∈ rl_manualAdditions l) ∧ v ∉ rl_manualRemovals l.
Proof.
  unfold getEffectiveListValues. destruct (obj_get _ _) as [l|]; [|set_solver].
  rewrite list_elem_of_filter, elem_of_js_set, elem_of_app. naive_solver.
Qed.
