(* ===== verification/PolicyEngine.v ===== *)
(** * The policy engine

    Models src/trusted-process/policy-engine.ts: structural invariants,
    git-remote enrichment, and compiled-rule evaluation with per-role and
    per-path discharge.  The filesystem, the URL class and the git binary are the
    environment ([FileSystem], [UrlParser], [GitCli]); they do not change while
    one request is evaluated. *)

From S2P Require Import Prelude JsValue Paths Urls Roles Domains PolicyTypes.

Record UrlArg := { ua_value : string; ua_role : ArgumentRole; ua_roleDef : RoleDefinition }.

Record StructuralResult := {
  sr_decision : option EvaluationResult;
  sr_sandboxResolvedRoles : list ArgumentRole;
}.

Definition NO_ROLES_RESOLVED : list ArgumentRole := [].

Definition finalDecision (decision : EvaluationResult) : StructuralResult :=
  {| sr_decision := Some decision; sr_sandboxResolvedRoles := NO_ROLES_RESOLVED |}.

Definition STRUCTURAL_SANDBOX_ALLOW : string := "structural-sandbox-allow".

Definition DEFAULT_DENY_RESULT : EvaluationResult :=
  {| er_decision := Deny; er_rule := "default-deny";
     er_reason := "No matching policy rule -- denied by default"; er_escalatedRoles := None |}.

Definition ruleToResult (rule : CompiledRule) : EvaluationResult :=
  {| er_decision := r_then rule; er_rule := r_name rule; er_reason := r_reason rule;
     er_escalatedRoles := None |}.

Definition is_some {A} (o : option A) : bool := match o with Some _ => true | None => false end.

(** [rule.if.f !== undefined && !p(rule.if.f)] does not hold. *)
Definition holds_if_defined {A} (p : A → bool) (o : option A) : bool :=
  match o with Some a => p a | None => true end.

Definition hasRoleConditions (rule : CompiledRule) : bool :=
  is_some (c_roles (r_if rule)) || is_some (c_paths (r_if rule)) ||
  is_some (c_domains (r_if rule)) ||
  match c_lists (r_if rule) with Some l => negb (length l =? 0) | None => false end.

Definition ruleRelevantToRole (rule : CompiledRule) (role : ArgumentRole) : bool :=
  let cond := r_if rule in
  holds_if_defined (λ roles, includes roles role) (c_roles cond) &&
  holds_if_defined (λ p, includes (pc_roles p) role) (c_paths cond) &&
  holds_if_defined (λ d, includes (dc_roles d) role) (c_domains cond) &&
  holds_if_defined (existsb (λ lc, includes (lc_roles lc) role)) (c_lists cond).

(** ** Extraction from annotated arguments *)

Definition extractAnnotatedPaths (args : object jsvalue) (annotation : ToolAnnotation)
    (targetRoles : list ArgumentRole) : list string :=
  ta_args annotation ≫= λ e,
    if existsb (includes targetRoles) e.2 then value_strings (get_value args e.1) else [].

Record PolicyEngine := {
  annotationMap : gmap string StoredToolAnnotation;
  compiledPolicy : CompiledPolicyFile;
  protectedPaths : list string;
  protectedPathExclusions : list string;
  allowedDirectory : option string;
  serverDomainAllowlists : gmap string (list string);
  trustedServers : gset string;
}.

Definition toolKey (serverName toolName : string) : string := serverName +:+ "__" +:+ toolName.

Definition buildAnnotationMap (annotations : StoredToolAnnotationsFile)
    : gmap string StoredToolAnnotation :=
  foldl (λ map server,
    foldl (λ map tool, <[toolKey server.1 (sa_toolName tool) := tool]> map)
      map (srv_tools server.2))
    ∅ (af_servers annotations).

(** [if (dir)]: the empty string is falsy. *)
Definition truthy_string (o : option string) : option string :=
  match o with Some "" | None => None | Some s => Some s end.

Section engine.
Context `{FileSystem} `{UrlParser} `{GitCli}.

Definition isProtectedPath (resolvedPath : string) (protectedPaths exclusions : list string)
    : bool :=
  let realPath := resolveRealPath resolvedPath in
  let covers pp :=
    let resolvedPP := resolveRealPath pp in
    (realPath =? resolvedPP) || startsWith realPath (resolvedPP +:+ "/") in
  let matchesProtected := existsb covers protectedPaths in
  if negb matchesProtected then false else negb (existsb covers exclusions).

Definition collectDistinctRoles (annotation : ToolAnnotation) : list ArgumentRole :=
  js_set (filter (λ role, isResourceIdentifier (roleDef role) = true)
            (concat (obj_values (ta_args annotation)))).

Definition extractAnnotatedUrls (args : object jsvalue) (annotation : ToolAnnotation)
    (targetRoles : list ArgumentRole) : list UrlArg :=
  ta_args annotation ≫= λ e,
    match List.find (includes targetRoles) e.2 with
    | None => []
    | Some matchingRole =>
        (λ v, {| ua_value := v; ua_role := matchingRole; ua_roleDef := roleDef matchingRole |})
          <$> value_strings (get_value args e.1)
    end.

Definition resolveUrlForDomainCheck (u : UrlArg) (allArgs : object jsvalue) : string :=
  let resolved :=
    if ua_role u =? GitRemoteUrl then resolveGitRemote (ua_value u) allArgs else ua_value u in
  let normalized := canonicalize (ua_roleDef u) resolved in
  extractDomainForRole normalized (ua_role u).

(** ** Construction and lookup *)

Definition newPolicyEngine (policy : CompiledPolicyFile)
    (toolAnnotations : StoredToolAnnotationsFile) (protected : list string)
    (allowedDir : option string) (domainAllowlists : option (gmap string (list string)))
    (dynamicLists : option DynamicListsFile) (trusted : option (gset string)) : PolicyEngine :=
  {| compiledPolicy :=
       match dynamicLists with
       | Some lists => expandListReferences policy lists
       | None => policy
       end;
     protectedPaths := protected;
     allowedDirectory := allowedDir;
     protectedPathExclusions :=
       match truthy_string allowedDir with Some d => [resolveRealPath d] | None => [] end;
     serverDomainAllowlists := default ∅ domainAllowlists;
     annotationMap := buildAnnotationMap toolAnnotations;
     trustedServers := default ∅ trusted |}.

Section evaluate.
Variable e : PolicyEngine.
Implicit Types (request : ToolCallRequest) (annotation : ToolAnnotation) (rule : CompiledRule).

Definition getStoredAnnotation (serverName toolName : string) : option StoredToolAnnotation :=
  annotationMap e !! toolKey serverName toolName.

Definition getAnnotation (serverName toolName : string) (callArgs : object jsvalue)
    : option ToolAnnotation :=
  stored ← annotationMap e !! toolKey serverName toolName;
  Some (resolveStoredAnnotation stored callArgs).

Definition isTrustedServer (serverName : string) : bool :=
  bool_decide (serverName ∈ trustedServers e).

(** ** Git enrichment *)

Definition isAbsentArg (args : object jsvalue) (argName : string) : bool :=
  negb (obj_has args argName) ||
  match get_value args argName with
  | VNull | VUndefined => true
  | VStr s => s =? ""
  | _ => false
  end.

Definition missingUrlArgNames (args : object jsvalue) (annotation : ToolAnnotation) : list string :=
  (filter (λ a, includes a.2 GitRemoteUrl = true ∧ isAbsentArg args a.1 = true)
     (ta_args annotation)).*1.

Definition with_arguments request (args : object jsvalue) : ToolCallRequest :=
  {| rq_requestId := rq_requestId request; rq_serverName := rq_serverName request;
     rq_toolName := rq_toolName request; rq_arguments := args;
     rq_timestamp := rq_timestamp request |}.

Definition enrichGitRequest request (annotation : option ToolAnnotation) : ToolCallRequest :=
  match annotation with
  | None => request
  | Some annotation =>
      if negb (rq_serverName request =? "git") then request
      else
        let missing := missingUrlArgNames (rq_arguments request) annotation in
        if length missing =? 0 then request
        else
          match get_value (rq_arguments request) "path" with
          | VStr path =>
              let outside :=
                match truthy_string (allowedDirectory e) with
                | Some dir => negb (isWithinDirectory (resolveRealPath path) dir)
                | None => false
                end in
              if outside then request
              else
                match resolveDefaultGitRemote path with
                | None => request
                | Some resolvedUrl =>
                    with_arguments request
                      (foldl (λ args argName, obj_set args argName (VStr resolvedUrl))
                         (rq_arguments request) missing)
                end
          | _ => request
          end
  end.

(** ** Structural invariants *)

Definition sandboxedRole (dir : string) request annotation (role : ArgumentRole) : bool :=
  let pathsForRole := extractAnnotatedPaths (rq_arguments request) annotation [role] in
  negb (length pathsForRole =? 0) && forallb (λ p, isWithinDirectory p dir) pathsForRole.

Definition sandboxResolvedRoles request (annotation : option ToolAnnotation)
    (resolvedPaths : list string) : list ArgumentRole :=
  match truthy_string (allowedDirectory e), annotation with
  | Some sandboxDir, Some annotation =>
      if negb (length resolvedPaths =? 0) &&
         ((rq_serverName request =? "filesystem") || (rq_serverName request =? "git"))
      then filter (λ role, includes SANDBOX_SAFE_PATH_ROLES role = true ∧
                           sandboxedRole sandboxDir request annotation role = true) getPathRoles
      else []
  | _, _ => []
  end.

Definition domainEscalation request (u : UrlArg) (domain : string) : EvaluationResult :=
  {| er_decision := Escalate; er_rule := "structural-domain-escalate";
     er_reason := "URL domain " +:+ quoted domain +:+ " is not in the allowlist for server "
                  +:+ quoted (rq_serverName request);
     er_escalatedRoles := Some [ua_role u] |}.

(** The gate for untrusted domains: the first URL argument outside the server's
    allowlist. *)
Definition untrustedDomain request (urlArgs : list UrlArg) : option (UrlArg * string) :=
  match serverDomainAllowlists e !! rq_serverName request with
  | None => None
  | Some allowlist =>
      u ← List.find (λ u, negb (domainMatchesAllowlist
              (resolveUrlForDomainCheck u (rq_arguments request)) allowlist)) urlArgs;
      Some (u, resolveUrlForDomainCheck u (rq_arguments request))
  end.

Definition isIntrospection request (annotation : option ToolAnnotation) : bool :=
  (rq_toolName request =? "list_allowed_directories") &&
  (rq_serverName request =? "filesystem") && is_some annotation &&
  (length (obj_keys (rq_arguments request)) =? 0).

Definition evaluateStructuralInvariants request (annotation : option ToolAnnotation)
    : StructuralResult :=
  let pathRoles := getPathRoles in
  let annotatedPaths :=
    match annotation with
    | Some a => extractAnnotatedPaths (rq_arguments request) a pathRoles
    | None => []
    end in
  let resolvedPaths := resolveRealPath <$> annotatedPaths in
  match List.find (λ rp, isProtectedPath rp (protectedPaths e) (protectedPathExclusions e))
          resolvedPaths with
  | Some rp =>
      finalDecision {| er_decision := Deny; er_rule := "structural-protected-path";
        er_reason := "Access to protected path is forbidden: " +:+ rp;
        er_escalatedRoles := None |}
  | None =>
      if isIntrospection request annotation then
        finalDecision {| er_decision := Allow; er_rule := "structural-introspection-allow";
          er_reason := "Introspection tool is always allowed"; er_escalatedRoles := None |}
      else
        let urlArgs :=
          match annotation with
          | Some a => extractAnnotatedUrls (rq_arguments request) a getUrlRoles
          | None => []
          end in
        let resolvedRoles := sandboxResolvedRoles request annotation resolvedPaths in
        match untrustedDomain request urlArgs with
        | Some (u, domain) => finalDecision (domainEscalation request u domain)
        | None =>
            match annotation with
            | None =>
                finalDecision {| er_decision := Deny; er_rule := "structural-unknown-tool";
                  er_reason := "Unknown tool: " +:+ rq_serverName request +:+ "/"
                               +:+ rq_toolName request;
                  er_escalatedRoles := None |}
            | Some _ => {| sr_decision := None; sr_sandboxResolvedRoles := resolvedRoles |}
            end
        end
  end.

(** ** Rule conditions *)

Definition ruleMatchesNonPathConditions rule request annotation : bool :=
  let cond := r_if rule in
  holds_if_defined (λ condRoles,
    existsb (λ argRoles, existsb (includes condRoles) argRoles) (obj_values (ta_args annotation)))
    (c_roles cond) &&
  holds_if_defined (λ servers, includes servers (rq_serverName request)) (c_server cond) &&
  holds_if_defined (λ tools, includes tools (rq_toolName request)) (c_tool cond).

Definition extractRolesFor (evaluatingRole : option ArgumentRole) (condRoles : list ArgumentRole)
    : list ArgumentRole :=
  match evaluatingRole with Some role => [role] | None => condRoles end.

Definition pathsConditionHolds request annotation (evaluatingRole : option ArgumentRole)
    (c : PathCondition) : bool :=
  let extracted := extractAnnotatedPaths (rq_arguments request) annotation
                     (extractRolesFor evaluatingRole (pc_roles c)) in
  negb (length extracted =? 0) && forallb (λ p, isWithinDirectory p (pc_within c)) extracted.

Definition domainsConditionHolds request annotation (evaluatingRole : option ArgumentRole)
    (c : DomainCondition) : bool :=
  let urlArgs := extractAnnotatedUrls (rq_arguments request) annotation
                   (extractRolesFor evaluatingRole (dc_roles c)) in
  negb (length urlArgs =? 0) &&
  forallb (λ u, domainMatchesAllowlist (resolveUrlForDomainCheck u (rq_arguments request))
                  (dc_allowed c)) urlArgs.

Definition listConditionHolds request annotation (evaluatingRole : option ArgumentRole)
    (c : ListCondition) : bool :=
  let extractRoles :=
    match evaluatingRole with
    | Some role => if includes (lc_roles c) role then [role] else lc_roles c
    | None => lc_roles c
    end in
  let extractedValues := extractAnnotatedPaths (rq_arguments request) annotation extractRoles in
  negb (length extractedValues =? 0) &&
  forallb (λ v, existsb (getListMatcher (lc_matchType c) v) (lc_allowed c)) extractedValues.

Definition ruleMatches rule request annotation (evaluatingRole : option ArgumentRole) : bool :=
  let cond := r_if rule in
  if negb (ruleMatchesNonPathConditions rule request annotation) then false
  else holds_if_defined (pathsConditionHolds request annotation evaluatingRole) (c_paths cond) &&
       holds_if_defined (domainsConditionHolds request annotation evaluatingRole)
         (c_domains cond) &&
       holds_if_defined (forallb (listConditionHolds request annotation evaluatingRole))
         (c_lists cond).

(** ** Compiled-rule evaluation *)

Definition evaluateRulesUnscoped request annotation : EvaluationResult :=
  match List.find (λ rule, ruleMatches rule request annotation None)
          (cp_rules (compiledPolicy e)) with
  | Some rule => ruleToResult rule
  | None => DEFAULT_DENY_RESULT
  end.

Definition skipForRole rule (role : ArgumentRole) : bool :=
  hasRoleConditions rule && negb (ruleRelevantToRole rule role).

Definition withoutPaths rule : CompiledRule := set_if rule (set_paths (r_if rule) None).

(** The result of a rule that discharged paths against the result so far. *)
Definition moreRestrictive (mostRestrictive : option EvaluationResult) (result : EvaluationResult)
    : EvaluationResult :=
  match mostRestrictive with
  | None => result
  | Some m =>
      let prevSeverity := DECISION_SEVERITY (er_decision m) in
      let newSeverity := DECISION_SEVERITY (er_decision result) in
      if (prevSeverity <? newSeverity)%nat ||
         ((newSeverity =? prevSeverity) && (er_rule m =? STRUCTURAL_SANDBOX_ALLOW))
      then result else m
  end.

(** The rule loop of [evaluateRulesForRolePaths] over the paths not yet
    discharged. *)
Fixpoint dischargeLoop request annotation (role : ArgumentRole) (rules : list CompiledRule)
    (remainingPaths : list string) (mostRestrictive : option EvaluationResult)
    : list string * option EvaluationResult :=
  match rules with
  | [] => (remainingPaths, mostRestrictive)
  | rule :: rules =>
      let continue_with := dischargeLoop request annotation role rules in
      if length remainingPaths =? 0 then (remainingPaths, mostRestrictive)
      else if skipForRole rule role then continue_with remainingPaths mostRestrictive
      else if negb (ruleMatchesNonPathConditions rule request annotation)
      then continue_with remainingPaths mostRestrictive
      else if (is_some (c_domains (r_if rule)) || is_some (c_lists (r_if rule))) &&
              negb (ruleMatches (withoutPaths rule) request annotation (Some role))
      then continue_with remainingPaths mostRestrictive
      else
        let matched :=
          match c_paths (r_if rule) with
          | Some c => filter (λ p, isWithinDirectory p (pc_within c) = true) remainingPaths
          | None => remainingPaths
          end in
        if is_some (c_paths (r_if rule)) && (length matched =? 0)
        then continue_with remainingPaths mostRestrictive
        else continue_with (foldl (λ paths p, js_set_delete p paths) remainingPaths matched)
               (Some (moreRestrictive mostRestrictive (ruleToResult rule)))
  end.

(** Whether a path of the role is discharged by the sandbox, structurally. *)
Definition sandboxDischarges request (role : ArgumentRole) (p : string) : bool :=
  match truthy_string (allowedDirectory e) with
  | Some sandboxDir =>
      (rq_serverName request =? "filesystem") && includes SANDBOX_SAFE_PATH_ROLES role &&
      isWithinDirectory p sandboxDir
  | None => false
  end.

Definition sandboxAllow : EvaluationResult :=
  {| er_decision := Allow; er_rule := STRUCTURAL_SANDBOX_ALLOW;
     er_reason := "Path(s) within the sandbox directory: " +:+ default "" (allowedDirectory e);
     er_escalatedRoles := None |}.

Definition evaluateRulesForRolePaths request annotation (role : ArgumentRole)
    (paths : list string) : result EvaluationResult :=
  let rules := cp_rules (compiledPolicy e) in
  if length paths =? 0 then
    match List.find (λ rule, negb (skipForRole rule role) &&
                             ruleMatches rule request annotation (Some role)) rules with
    | Some rule => Ok (ruleToResult rule)
    | None => Ok DEFAULT_DENY_RESULT
    end
  else
    let all := js_set paths in
    let remaining := filter (λ p, sandboxDischarges request role p = false) all in
    let mostRestrictive :=
      if existsb (sandboxDischarges request role) all then Some sandboxAllow else None in
    match dischargeLoop request annotation role rules remaining mostRestrictive with
    | (_ :: _, _) => Ok DEFAULT_DENY_RESULT
    | ([], None) => Throw "unreachable: all paths discharged but no result was produced"
    | ([], Some r) => Ok r
    end.

Definition evaluateRulesForRole request annotation (evaluatingRole : ArgumentRole)
    : result EvaluationResult :=
  evaluateRulesForRolePaths request annotation evaluatingRole
    (extractAnnotatedPaths (rq_arguments request) annotation [evaluatingRole]).

Definition with_escalatedRoles (r : EvaluationResult) (roles : list ArgumentRole)
    : EvaluationResult :=
  {| er_decision := er_decision r; er_rule := er_rule r; er_reason := er_reason r;
     er_escalatedRoles := Some roles |}.

(** The loop over the roles of a tool; a deny returns at once. *)
Fixpoint rolesLoop request annotation (roles : list ArgumentRole)
    (mostRestrictive : option EvaluationResult) (escalatedRoles : list ArgumentRole)
    : result EvaluationResult :=
  match roles with
  | [] =>
      match mostRestrictive with
      | None => Throw "unreachable: rolesToEvaluate was non-empty but no result was produced"
      | Some r =>
          if (er_decision r =? Escalate) && negb (length escalatedRoles =? 0)
          then Ok (with_escalatedRoles r escalatedRoles) else Ok r
      end
  | role :: roles =>
      r ← evaluateRulesForRole request annotation role;
      if er_decision r =? Deny then Ok r
      else
        let escalatedRoles :=
          if er_decision r =? Escalate then escalatedRoles ++ [role] else escalatedRoles in
        let mostRestrictive :=
          match mostRestrictive with
          | None => r
          | Some m =>
              if DECISION_SEVERITY (er_decision m) <? DECISION_SEVERITY (er_decision r)
              then r else m
          end in
        rolesLoop request annotation roles (Some mostRestrictive) escalatedRoles
  end.

Definition evaluateCompiledRules request (resolvedRoles : list ArgumentRole)
    (annotation : option ToolAnnotation) : result EvaluationResult :=
  match annotation with
  | None => Throw ("Missing annotation for " +:+ rq_serverName request +:+ "/"
                   +:+ rq_toolName request +:+ " in compiled rule evaluation")
  | Some annotation =>
      let allRoles := collectDistinctRoles annotation in
      let rolesToEvaluate := filter (λ r, includes resolvedRoles r = false) allRoles in
      if negb (length allRoles =? 0) && (length rolesToEvaluate =? 0) then
        Ok {| er_decision := Allow; er_rule := STRUCTURAL_SANDBOX_ALLOW;
              er_reason := "All path roles resolved by sandbox containment";
              er_escalatedRoles := None |}
      else if length rolesToEvaluate =? 0 then Ok (evaluateRulesUnscoped request annotation)
      else rolesLoop request annotation rolesToEvaluate None []
  end.

Definition evaluate request : result EvaluationResult :=
  if bool_decide (rq_serverName request ∈ trustedServers e) then
    Ok {| er_decision := Allow; er_rule := "trusted-server";
          er_reason := "Server " +:+ quoted (rq_serverName request) +:+ " is trusted";
          er_escalatedRoles := None |}
  else
    let annotation :=
      getAnnotation (rq_serverName request) (rq_toolName request) (rq_arguments request) in
    let structural := evaluateStructuralInvariants request annotation in
    match sr_decision structural with
    | Some d => Ok d
    | None =>
        let effectiveRequest := enrichGitRequest request annotation in
        evaluateCompiledRules effectiveRequest (sr_sandboxResolvedRoles structural) annotation
    end.
End evaluate.
End engine.
