(* ===== verification/PolicyEngineTheory.v ===== *)
(** * Correctness of the policy engine

    The reference semantics of compiled-rule evaluation (each path of a role is
    decided by the first rule that discharges it) and what an [allow] of
    [evaluate] guarantees. *)

From S2P Require Import Prelude JsValue Paths Urls Roles Domains PolicyTypes PolicyEngine.

Section theory.
Context `{FileSystem} `{UrlParser} `{GitCli}.
Variable e : PolicyEngine.
Implicit Types (request : ToolCallRequest) (annotation : ToolAnnotation) (rule : CompiledRule).

(** ** Reference semantics *)

(** The conditions of a rule other than its directory, for one role. *)
Definition rule_applies request annotation (role : ArgumentRole) rule : bool :=
  negb (skipForRole rule role) && ruleMatches (withoutPaths rule) request annotation (Some role).

Definition rule_covers rule (p : string) : bool :=
  holds_if_defined (λ c, isWithinDirectory p (pc_within c)) (c_paths (r_if rule)).

Definition rule_discharges request annotation role (p : string) rule : bool :=
  rule_applies request annotation role rule && rule_covers rule p.

(** First match wins; no match denies. *)
Definition first_match (p : CompiledRule → bool) (rules : list CompiledRule) : Decision :=
  match List.find p rules with Some rule => r_then rule | None => Deny end.

(** What the policy says of one path in one role. *)
Definition path_decision request annotation role (p : string) : Decision :=
  if sandboxDischarges e request role p then Allow
  else first_match (rule_discharges request annotation role p) (cp_rules (compiledPolicy e)).

(** What it says of a role: the strictest decision over the role's paths, or one
    scan of the rules when the call carries no path for the role. *)
Definition role_decision request annotation role : Decision :=
  match extractAnnotatedPaths (rq_arguments request) annotation [role] with
  | [] => first_match (λ rule, negb (skipForRole rule role) &&
                               ruleMatches rule request annotation (Some role))
            (cp_rules (compiledPolicy e))
  | paths => worst (path_decision request annotation role <$> paths)
  end.

Definition decisions_of (m : option EvaluationResult) : Decision :=
  match m with Some r => er_decision r | None => Allow end.

(** ** The discharge loop *)

Lemma moreRestrictive_decision m r :
  er_decision (moreRestrictive m r) = worse (decisions_of m) (er_decision r).
Proof.
  unfold moreRestrictive, worse, decisions_of. destruct m as [m|].
  - destruct (er_decision m) eqn:?, (er_decision r) eqn:?; simpl; try done;
      case_match; congruence.
  - by destruct (er_decision r).
Qed.

Lemma worse_assoc a b c : worse (worse a b) c = worse a (worse b c).
Proof. by destruct a, b, c. Qed.

Lemma worse_comm a b : worse a b = worse b a.
Proof. by destruct a, b. Qed.

Lemma worst_app l1 l2 : worst (l1 ++ l2) = worse (worst l1) (worst l2).
Proof. induction l1 as [|d l1 IH]; simpl; [by destruct (worst l2)|]. by rewrite IH, worse_assoc. Qed.

Lemma loop_applies request annotation role rule :
  rule_applies request annotation role rule =
  negb (skipForRole rule role) && (ruleMatchesNonPathConditions rule request annotation &&
    negb ((is_some (c_domains (r_if rule)) || is_some (c_lists (r_if rule))) &&
          negb (ruleMatches (withoutPaths rule) request annotation (Some role)))).
Proof.
  unfold rule_applies. f_equal. unfold ruleMatches, ruleMatchesNonPathConditions, withoutPaths.
  destruct rule as [n de pr [ro se to pa do li] th re]; simpl.
  destruct (holds_if_defined _ ro); simpl; [|done].
  destruct (holds_if_defined _ se); simpl; [|done].
  destruct (holds_if_defined _ to); simpl; [|done].
  destruct do as [d|], li as [l|]; simpl; by rewrite ?negb_involutive.
Qed.

Lemma foldl_delete (l paths : list string) :
  foldl (λ paths p, js_set_delete p paths) paths l = filter (λ p, p ∉ l) paths.
Proof.
  revert paths. induction l as [|x l IH]; intros paths; simpl.
  - symmetry. apply list_filter_all, Forall_forall. intros; apply not_elem_of_nil.
  - rewrite IH. unfold js_set_delete. rewrite list_filter_filter.
    apply list_filter_iff. intros p. rewrite not_elem_of_cons. naive_solver.
Qed.

(** Splitting the remaining paths by a rule. *)
Lemma worst_split (f : string → bool) (d : Decision) (g : string → Decision) l :
  worst ((λ p, if f p then d else g p) <$> l) =
  worse (if existsb f l then d else Allow) (worst (g <$> filter (λ p, f p = false) l)).
Proof.
  induction l as [|p l IH]; [done|]. csimpl. rewrite IH.
  destruct (f p) eqn:Hp; simpl.
  - rewrite filter_cons_False by congruence.
    rewrite <-worse_assoc. f_equal. by destruct d, (existsb f l).
  - rewrite filter_cons_True by done. csimpl.
    rewrite <-!worse_assoc. f_equal. apply worse_comm.
Qed.

(** What the loop still has to decide: the first rule for each remaining path. *)
Definition pending request annotation role (rules : list CompiledRule) (paths : list string)
    : Decision :=
  worst ((λ p, first_match (rule_discharges request annotation role p) rules) <$> paths).

(** The decision after the loop: undischarged paths deny. *)
Definition loop_decision (out : list string * option EvaluationResult) : Decision :=
  match out.1 with [] => decisions_of out.2 | _ :: _ => Deny end.

Lemma pending_nil request annotation role paths :
  paths ≠ [] → pending request annotation role [] paths = Deny.
Proof.
  intros Hp. unfold pending, first_match. simpl. apply worst_deny.
  destruct paths; [done|]. csimpl. set_solver.
Qed.

Lemma pending_cons request annotation role rule rules paths :
  pending request annotation role (rule :: rules) paths =
  worse (if existsb (λ p, rule_discharges request annotation role p rule) paths
         then r_then rule else Allow)
    (pending request annotation role rules
       (filter (λ p, rule_discharges request annotation role p rule = false) paths)).
Proof.
  unfold pending. rewrite <-worst_split. f_equal. apply list_fmap_ext. intros i p _.
  unfold first_match. simpl. destruct (rule_discharges _ _ _ p rule); done.
Qed.

Lemma pending_skip request annotation role rule rules paths :
  (∀ p, p ∈ paths → rule_discharges request annotation role p rule = false) →
  pending request annotation role (rule :: rules) paths =
  pending request annotation role rules paths.
Proof.
  intros Hp. rewrite pending_cons.
  replace (existsb _ _) with false by (symmetry; by apply existsb_false_elem).
  rewrite list_filter_all by (by apply Forall_forall). by destruct (pending _ _ _ _ _).
Qed.

Lemma dischargeLoop_decision request annotation role rules paths m :
  loop_decision (dischargeLoop request annotation role rules paths m) =
  worse (decisions_of m) (pending request annotation role rules paths).
Proof.
  revert paths m. induction rules as [|rule rules IH]; intros paths m; cbn [dischargeLoop].
  { unfold loop_decision. cbn [fst snd]. destruct paths as [|p paths]; [by destruct (decisions_of m)|].
    rewrite pending_nil by done. by destruct (decisions_of m). }
  destruct (length paths =? 0) eqn:Hlen.
  { bool_hyps. apply nil_length_inv in Hlen as ->. unfold loop_decision, pending. simpl.
    by destruct (decisions_of m). }
  pose proof (loop_applies request annotation role rule) as Happ.
  assert (Hskip : rule_applies request annotation role rule = false →
    loop_decision (dischargeLoop request annotation role rules paths m) =
    worse (decisions_of m) (pending request annotation role (rule :: rules) paths)).
  { intros Ha. rewrite IH, pending_skip; [done|]. intros. unfold rule_discharges. by rewrite Ha. }
  destruct (skipForRole rule role); [by apply Hskip|].
  destruct (ruleMatchesNonPathConditions rule request annotation); [|by apply Hskip].
  cbn [negb andb] in *. destruct (_ && _); [by apply Hskip|]. cbn [negb] in Happ.
  assert (Hdis : ∀ p, rule_discharges request annotation role p rule = rule_covers rule p).
  { intros p. unfold rule_discharges. by rewrite Happ. }
  set (matched := match c_paths (r_if rule) with Some c => _ | None => paths end).
  assert (Hm : ∀ p, p ∈ matched ↔ p ∈ paths ∧ rule_covers rule p = true).
  { intros p. subst matched. unfold rule_covers. destruct (c_paths _) as [c|]; simpl; [|naive_solver].
    rewrite list_elem_of_filter. naive_solver. }
  destruct (is_some _ && _) eqn:Hnone.
  - rewrite IH, pending_skip; [done|]. intros p Hp. rewrite Hdis. bool_hyps.
    destruct (rule_covers rule p) eqn:Hc; [|done]. exfalso.
    destruct matched; [|done]. eapply not_elem_of_nil. apply Hm. eauto.
  - rewrite IH, pending_cons, foldl_delete. simpl.
    rewrite moreRestrictive_decision, worse_assoc. f_equal. f_equal.
    + destruct (existsb _ _) eqn:Hex; [done|]. exfalso. rewrite existsb_false_elem in Hex.
      assert (matched = []) as Hnil.
      { destruct matched as [|p l]; [done|]. exfalso.
        destruct (proj1 (Hm p)) as [Hp Hc]; [set_solver|].
        specialize (Hex p Hp). rewrite Hdis in Hex. congruence. }
      rewrite Hnil in Hnone. destruct (c_paths _) as [c|] eqn:Hc; [done|].
      subst matched. rewrite Hnil in Hlen. done.
    + f_equal. apply list_filter_ext_elem. intros p Hp. rewrite Hm, Hdis.
      destruct (rule_covers rule p); naive_solver.
Qed.

(** ** One role *)

Lemma worst_js_set (f : string → Decision) l : worst (f <$> js_set l) = worst (f <$> l).
Proof.
  apply worst_perm. intros d. rewrite !list_elem_of_fmap. by setoid_rewrite elem_of_js_set.
Qed.

Lemma loop_decision_result out d :
  (out.1 = [] → is_Some out.2) →
  ∃ r, match out with
       | (_ :: _, _) => Ok DEFAULT_DENY_RESULT
       | ([], None) => Throw d
       | ([], Some r) => Ok r
       end = Ok r ∧ er_decision r = loop_decision out.
Proof.
  intros Hs. destruct out as [[|p l] m]; simpl in *; [|by eexists].
  destruct Hs as [r ->]; [done|]. by eexists.
Qed.

(** Paths only leave the loop together with a result. *)
Lemma dischargeLoop_some request annotation role rules paths m :
  (paths = [] → is_Some m) →
  (dischargeLoop request annotation role rules paths m).1 = [] →
  is_Some (dischargeLoop request annotation role rules paths m).2.
Proof.
  revert paths m. induction rules as [|rule rules IH]; intros paths m Hm; cbn [dischargeLoop]; [done|].
  destruct (length paths =? 0); [done|].
  repeat (case_match; [by apply IH|]). apply IH. done.
Qed.

Lemma evaluateRulesForRole_decision request annotation role :
  ∃ r, evaluateRulesForRole e request annotation role = Ok r ∧
       er_decision r = role_decision request annotation role.
Proof.
  unfold evaluateRulesForRole, role_decision, evaluateRulesForRolePaths.
  destruct (extractAnnotatedPaths _ _ _) as [|p0 paths'] eqn:Hpaths.
  { simpl. unfold first_match. destruct (List.find _ _); by eexists. }
  rewrite <-Hpaths. set (paths := extractAnnotatedPaths _ _ _) in *.
  rewrite bool_decide_eq_false_2 by (by rewrite Hpaths).
  set (f := sandboxDischarges e request role). set (m := if existsb f (js_set paths) then Some (sandboxAllow e) else None).
  edestruct loop_decision_result as (r & Hr & Hd); [|exists r; split; [exact Hr|rewrite Hd]].
  - apply dischargeLoop_some. intros Hnil. subst m.
    destruct (existsb f _) eqn:Hex; [by eexists|]. exfalso. rewrite existsb_false_elem in Hex.
    assert (p0 ∈ filter (λ p, f p = false) (js_set paths)) as Hin.
    { apply list_elem_of_filter. rewrite elem_of_js_set, Hpaths. split; [|by left].
      apply Hex. rewrite elem_of_js_set, Hpaths. by left. }
    rewrite Hnil in Hin. by apply not_elem_of_nil in Hin.
  - rewrite dischargeLoop_decision, <-worst_js_set. unfold path_decision. fold f.
    rewrite worst_split. unfold pending. f_equal. subst m. by destruct (existsb f _).
Qed.

(** ** All roles *)

Lemma rolesLoop_spec request annotation roles m esc :
  m ≠ None ∨ roles ≠ [] → decisions_of m ≠ Deny →
  (esc ≠ [] ↔ decisions_of m = Escalate) →
  ∃ r, rolesLoop e request annotation roles m esc = Ok r ∧
    er_decision r = worse (decisions_of m) (worst (role_decision request annotation <$> roles)) ∧
    (er_decision r = Escalate → er_escalatedRoles r =
       Some (esc ++ filter (λ role, role_decision request annotation role = Escalate) roles)).
Proof.
  revert m esc. induction roles as [|role roles IH]; intros m esc Hne Hdeny Hesc; cbn [rolesLoop].
  { destruct m as [r|]; [|naive_solver]. simpl in *.
    destruct (decide (er_decision r = Escalate)) as [He|He].
    - rewrite bool_decide_eq_true_2 by done. simpl.
      rewrite bool_decide_eq_false_2 by (intros Hl%nil_length_inv; naive_solver).
      eexists. split; [done|]. simpl. rewrite He, app_nil_r. by destruct esc.
    - rewrite bool_decide_eq_false_2 by done. eexists. split; [done|].
      split; [by destruct (er_decision r)|done]. }
  destruct (evaluateRulesForRole_decision request annotation role) as (r & -> & Hr).
  cbn [mbind result_bind fmap list_fmap]. csimpl. rewrite <-Hr.
  destruct (decide (er_decision r = Deny)) as [Hd|Hd].
  { rewrite bool_decide_eq_true_2 by done. eexists. split; [done|]. rewrite Hd.
    split; [by destruct (decisions_of m), (worst _)|done]. }
  rewrite bool_decide_eq_false_2 by done.
  set (m' := match m with Some _ => _ | None => _ end).
  assert (Hm' : decisions_of (Some m') = worse (decisions_of m) (er_decision r)).
  { subst m'. unfold worse. destruct m as [m|]; simpl; [by case_match|by destruct (er_decision r)]. }
  set (esc' := if er_decision r =? Escalate then _ else _).
  destruct (IH (Some m') esc') as (r' & Hl & Hw & Hx); [by left| | |].
  - rewrite Hm'. by destruct (decisions_of m), (er_decision r).
  - rewrite Hm'. subst esc'. case_bool_decide as He.
    + rewrite He. split; [intros _; by destruct (decisions_of m)|]. by destruct esc.
    + rewrite Hesc. destruct (decisions_of m), (er_decision r); naive_solver.
  - exists r'. split; [done|]. rewrite Hw, Hm', worse_assoc. split; [done|].
    intros He. rewrite Hx by (by rewrite Hw, Hm', worse_assoc). subst esc'. f_equal.
    case_bool_decide as Hb.
    + rewrite filter_cons_True by congruence. by rewrite <-app_assoc.
    + rewrite filter_cons_False by congruence. done.
Qed.

(** ** The whole evaluation *)

(** The URL arguments the domain gate checks. *)
Definition gated_urls request annotation : list UrlArg :=
  extractAnnotatedUrls (rq_arguments request) annotation getUrlRoles.

Definition url_trusted request (u : UrlArg) : Prop :=
  ∀ allowlist, serverDomainAllowlists e !! rq_serverName request = Some allowlist →
  domainMatchesAllowlist (resolveUrlForDomainCheck u (rq_arguments request)) allowlist = true.

Definition annotated_paths request annotation : list string :=
  resolveRealPath <$> extractAnnotatedPaths (rq_arguments request) annotation getPathRoles.

Definition blocked (rp : string) : bool :=
  isProtectedPath rp (protectedPaths e) (protectedPathExclusions e).

(** The roles compiled rules decide. *)
Definition open_roles request annotation : list ArgumentRole :=
  filter (λ r, includes (sandboxResolvedRoles e request (Some annotation)
                           (annotated_paths request annotation)) r = false)
    (collectDistinctRoles annotation).

(** The verdict of the rules on a request that passed the structural checks. *)
Definition rules_decision request annotation (roles : list ArgumentRole) : Decision :=
  match collectDistinctRoles annotation with
  | [] => first_match (λ rule, ruleMatches rule request annotation None)
            (cp_rules (compiledPolicy e))
  | _ => worst (role_decision request annotation <$> roles)
  end.

(** The abstract policy: which decision a request gets. *)
Definition policy_decision request : Decision :=
  if bool_decide (rq_serverName request ∈ trustedServers e) then Allow
  else match getAnnotation e (rq_serverName request) (rq_toolName request)
               (rq_arguments request) with
  | None => Deny
  | Some a =>
      if existsb blocked (annotated_paths request a) then Deny
      else if isIntrospection request (Some a) then Allow
      else if is_some (untrustedDomain e request (gated_urls request a)) then Escalate
      else rules_decision (enrichGitRequest e request (Some a)) a (open_roles request a)
  end.

Lemma untrustedDomain_spec request urls :
  untrustedDomain e request urls = None ↔ ∀ u, u ∈ urls → url_trusted request u.
Proof.
  unfold untrustedDomain, url_trusted. destruct (serverDomainAllowlists e !! _) as [l|]; [|naive_solver].
  destruct (List.find _ urls) as [u|] eqn:Hf; simpl.
  - split; [done|]. intros Hu. apply find_some_elem in Hf as [Hin Hn].
    apply negb_true_iff in Hn. rewrite (Hu u Hin l) in Hn; done.
  - rewrite find_none_elem in Hf. split; [|done]. intros _ u Hu l' [= <-].
    apply negb_false_iff. by apply Hf.
Qed.

Lemma find_existsb {A} (f : A → bool) l : is_some (List.find f l) = existsb f l.
Proof. induction l as [|x l IH]; simpl; [done|]. by destruct (f x). Qed.

Lemma evaluateCompiledRules_decision request annotation resolved :
  ∃ r, evaluateCompiledRules e request resolved (Some annotation) = Ok r ∧
    er_decision r = rules_decision request annotation
      (filter (λ r, includes resolved r = false) (collectDistinctRoles annotation)).
Proof.
  unfold evaluateCompiledRules, rules_decision.
  destruct (collectDistinctRoles annotation) as [|r0 rs] eqn:Hc.
  { simpl. unfold evaluateRulesUnscoped, first_match. destruct (List.find _ _); by eexists. }
  rewrite <-Hc. rewrite (bool_decide_eq_false_2 (length (collectDistinctRoles annotation) = 0))
    by (by rewrite Hc). simpl.
  set (roles := filter _ _). case_bool_decide as Hl.
  { apply nil_length_inv in Hl. eexists. split; [done|]. by rewrite Hl. }
  destruct (rolesLoop_spec request annotation roles None []) as (r & Hr & Hd & _); simpl.
  - right. by intros Hnil; rewrite Hnil in Hl.
  - done.
  - done.
  - eexists. split; [done|]. rewrite Hd. simpl. by destruct (worst _).
Qed.

Lemma evaluate_decision request :
  ∃ r, evaluate e request = Ok r ∧ er_decision r = policy_decision request.
Proof.
  unfold evaluate, policy_decision. case_bool_decide as Ht; [by eexists|].
  destruct (getAnnotation _ _ _ _) as [a|] eqn:Ha; unfold evaluateStructuralInvariants.
  - unfold annotated_paths, open_roles, gated_urls. fold blocked.
    rewrite <-(find_existsb blocked). destruct (List.find _ _) as [rp|]; simpl; [by eexists|].
    destruct (isIntrospection _ _); simpl; [by eexists|].
    destruct (untrustedDomain _ _ _) as [[u d]|]; simpl; [by eexists|].
    apply evaluateCompiledRules_decision.
  - simpl. replace (isIntrospection request None) with false
      by (unfold isIntrospection; simpl; by rewrite andb_false_r).
    unfold untrustedDomain. destruct (_ !! _); simpl; by eexists.
Qed.

Lemma isProtectedPath_spec `{!FileSystemLaws} p protected exclusions :
  isProtectedPath p protected exclusions = true ↔
  (∃ pp, pp ∈ protected ∧ isWithinDirectory p pp = true) ∧
  ¬ ∃ ex, ex ∈ exclusions ∧ isWithinDirectory p ex = true.
Proof.
  unfold isProtectedPath, isWithinDirectory.
  set (covers pp := _ || _).
  destruct (existsb covers protected) eqn:Hp.
  - rewrite existsb_exists_elem in Hp. simpl. rewrite negb_true_iff, <-not_true_iff_false.
    rewrite existsb_exists_elem. naive_solver.
  - simpl. split; [done|]. intros [Hex _]. apply existsb_exists_elem in Hex.
    unfold covers in Hp. congruence.
Qed.
End theory.

(** * The policy interface

    What the tool-call pipeline asks of a policy engine, and what it relies on.
    [PolicyEngine] implements it. *)

Class PolicyDecider (P : Type) := {
  dec_getAnnotation : P → string → string → object jsvalue → option ToolAnnotation;
  dec_isTrustedServer : P → string → bool;
  dec_evaluate : P → ToolCallRequest → result EvaluationResult;
}.

Class PolicyDeciderLaws (P : Type) `{PolicyDecider P} : Prop := {
  (** Evaluation never throws. *)
  dec_total p request : ∃ r, dec_evaluate p request = Ok r;
  (** Trusted servers are allowed, never escalated. *)
  dec_trusted p request r :
    dec_isTrustedServer p (rq_serverName request) = true →
    dec_evaluate p request = Ok r → er_decision r = Allow;
}.

#[export] Instance policy_engine_decider `{FileSystem} `{UrlParser} `{GitCli} :
  PolicyDecider PolicyEngine := {|
  dec_getAnnotation := getAnnotation;
  dec_isTrustedServer := isTrustedServer;
  dec_evaluate := evaluate;
|}.

#[export] Instance policy_engine_decider_laws `{FileSystem} `{UrlParser} `{GitCli} :
  PolicyDeciderLaws PolicyEngine.
Proof.
  split.
  - intros e request. destruct (evaluate_decision e request) as (r & Hr & _). by exists r.
  - intros e request r Ht. cbn [dec_evaluate dec_isTrustedServer policy_engine_decider] in *.
    unfold evaluate, isTrustedServer in *. rewrite Ht. by intros [= <-].
Qed.
