(* ===== verification/PathArgs.v ===== *)
(** * Argument normalisation at the trust boundary

    Models src/trusted-process/path-utils.ts: the two argument objects of a tool
    call, one for the MCP server and one for the policy engine, and the path
    rewriting between a container's workspace and the host sandbox. *)

From Stdlib Require Import Ascii.
From S2P Require Import Prelude JsValue Paths Urls Roles PolicyTypes PolicyEngine.

(** ** [String.prototype.replaceAll]

    For a non-empty needle and a replacement without [$] patterns; [skip] counts
    the characters of a match still to be dropped. *)
Fixpoint replace_from (skip : nat) (sub repl s : string) : string :=
  match s with
  | "" => ""
  | String a s' =>
      match skip with
      | S skip => replace_from skip sub repl s'
      | O =>
          if String.prefix sub s
          then repl +:+ replace_from (String.length sub - 1) sub repl s'
          else String a (replace_from 0 sub repl s')
      end
  end.

Definition replaceAll (s sub repl : string) : string := replace_from 0 sub repl s.

(** ** Source definitions *)

Record PreparedToolArgs := {
  argsForTransport : object jsvalue;
  argsForPolicy : object jsvalue;
}.

Definition isAbsolutePath (value : string) : bool := startsWith value "/" || startsWith value "~".

(** [dir !== '/' && dir.endsWith('/') ? dir.slice(0, -1) : dir] *)
Definition drop_trailing_slash (s : string) : string :=
  if negb (s =? "/") && endsWith s "/" then str_drop_end 1 s else s.

Definition map_strings (f : string → string) (v : jsvalue) : jsvalue :=
  match v with VStr s => VStr (f s) | _ => v end.

Definition normalizeArgValue (value : jsvalue) (normalize : string → string) : jsvalue :=
  match value with
  | VStr s => VStr (normalize s)
  | VArr l => VArr (map_strings normalize <$> l)
  | _ => value
  end.

Definition rewriteContainerPath (value containerDir hostDir : string) : string :=
  let normContainer := drop_trailing_slash containerDir in
  let normValue := drop_trailing_slash value in
  if normValue =? normContainer then hostDir
  else
    let prefix := normContainer +:+ "/" in
    if startsWith value prefix then hostDir +:+ "/" +:+ str_drop (String.length prefix) value
    else value.

Definition rewriteContainerPaths (value : jsvalue) (containerDir hostDir : string) : jsvalue :=
  normalizeArgValue value (λ s, rewriteContainerPath s containerDir hostDir).

Definition rewriteTextBlock (normHost containerDir : string) (block : jsvalue) : jsvalue :=
  match block with
  | VObj o =>
      if is_str (get_value o "type") "text" then
        match get_value o "text" with
        | VStr text =>
            let replaced := replaceAll text normHost containerDir in
            if replaced =? text then block else VObj (obj_set o "text" (VStr replaced))
        | _ => block
        end
      else block
  | _ => block
  end.

Definition rewriteResultContent (content : jsvalue) (hostDir containerDir : string) : jsvalue :=
  match content with
  | VArr l =>
      let normHost := drop_trailing_slash hostDir in
      if normHost =? "" then content
      else VArr (rewriteTextBlock normHost containerDir <$> l)
  | _ => content
  end.

Section prepare.
Context `{FileSystem} `{UrlParser}.

Definition resolveAgainstSandbox (value sandboxDir : string) : string :=
  resolveRealPath (resolve2 sandboxDir (expandTilde value)).

Definition findResourceRole (roles : list ArgumentRole) : option ArgumentRole :=
  List.find (λ r, isResourceIdentifier (roleDef r)) roles.

Definition normalizePathForTransport (value : jsvalue) (def : RoleDefinition) : jsvalue :=
  normalizeArgValue value (λ v, if isAbsolutePath v then canonicalize def v else v).

Definition normalizePathForPolicy (value : jsvalue) (def : RoleDefinition)
    (allowedDirectory : string) : jsvalue :=
  normalizeArgValue value (λ v,
    if isAbsolutePath v then canonicalize def v else resolveAgainstSandbox v allowedDirectory).

(** One argument: its transport value and its policy value. *)
Definition prepareArg (annotation : ToolAnnotation)
    (allowedDirectory containerWorkspaceDir : option string) (key : string) (value : jsvalue)
    : jsvalue * jsvalue :=
  match obj_get (ta_args annotation) key ≫= findResourceRole with
  | None => (value, value)
  | Some resourceRole =>
      let def := roleDef resourceRole in
      let rewritten :=
        match truthy_string containerWorkspaceDir, truthy_string allowedDirectory with
        | Some containerDir, Some hostDir =>
            if category def =? CatPath then rewriteContainerPaths value containerDir hostDir
            else value
        | _, _ => value
        end in
      match truthy_string allowedDirectory with
      | Some dir =>
          if category def =? CatPath
          then (normalizePathForTransport rewritten def, normalizePathForPolicy rewritten def dir)
          else let v := normalizeArgValue rewritten (canonicalize def) in (v, v)
      | None => let v := normalizeArgValue rewritten (canonicalize def) in (v, v)
      end
  end.

Definition prepareToolArgs (args : object jsvalue) (annotation : ToolAnnotation)
    (allowedDirectory containerWorkspaceDir : option string) : PreparedToolArgs :=
  foldl (λ acc e,
    let '(transport, policy) :=
      prepareArg annotation allowedDirectory containerWorkspaceDir e.1 e.2 in
    {| argsForTransport := obj_set (argsForTransport acc) e.1 transport;
       argsForPolicy := obj_set (argsForPolicy acc) e.1 policy |})
    {| argsForTransport := []; argsForPolicy := [] |} args.
End prepare.

(** ** Lemmas *)

Lemma drop_trailing_slash_id s : endsWith s "/" = false → drop_trailing_slash s = s.
Proof. intros Hs. unfold drop_trailing_slash. by rewrite Hs, andb_false_r. Qed.

Lemma drop_trailing_slash_app t : t ≠ "" → drop_trailing_slash (t +:+ "/") = t.
Proof.
  intros Ht. unfold drop_trailing_slash, str_drop_end.
  rewrite (proj2 (endsWith_spec _ _)) by (by exists t).
  rewrite bool_decide_eq_false_2 by (by destruct t as [|? []]).
  rewrite str_length_app, Nat.add_sub. apply str_take_app.
Qed.

Lemma str_app_inv_head s t u : s +:+ t = s +:+ u → t = u.
Proof. induction s as [|a s IH]; [done|]. rewrite !str_app_cons. naive_solver. Qed.

Lemma replace_from_none sub repl s :
  str_includes s sub = false → replace_from 0 sub repl s = s.
Proof.
  induction s as [|a s IH]; [done|]. cbn [str_includes replace_from].
  intros [Hp Hs]%orb_false_iff. rewrite Hp. by rewrite IH.
Qed.

Lemma replace_from_skip sub repl t s :
  replace_from (String.length t) sub repl (t +:+ s) = replace_from 0 sub repl s.
Proof.
  induction t as [|a t IH]; [done|]. rewrite str_app_cons. cbn [String.length replace_from]. done.
Qed.

Lemma replaceAll_prefix sub repl s :
  sub ≠ "" → str_includes s sub = false → replaceAll (sub +:+ s) sub repl = repl +:+ s.
Proof.
  intros Hne Hs. unfold replaceAll. destruct sub as [|a sub]; [done|].
  rewrite str_app_cons. cbn [replace_from].
  replace (String.prefix _ _) with true by (symmetry; apply prefix_spec; by exists s).
  cbn [String.length]. rewrite Nat.sub_succ, Nat.sub_0_r, replace_from_skip.
  by rewrite replace_from_none.
Qed.

Lemma normalizeArgValue_compose v f g :
  normalizeArgValue (normalizeArgValue v f) g = normalizeArgValue v (λ s, g (f s)).
Proof.
  destruct v as [| | | | |l|]; simpl; try done. f_equal. rewrite <-list_fmap_compose.
  apply list_fmap_ext. by intros i [] _.
Qed.

Lemma normalizeArgValue_ext v f g :
  (∀ s, f s = g s) → normalizeArgValue v f = normalizeArgValue v g.
Proof.
  intros Hfg. destruct v as [| | | |s|l|]; simpl; try done; [by rewrite Hfg|].
  f_equal. apply list_fmap_ext. intros i [] _; simpl; by rewrite ?Hfg.
Qed.

Section lemmas.
Context `{FileSystem} `{UrlParser}.

(** The loop over the entries is a pointwise map. *)
Lemma prepareToolArgs_go annotation ad cd args t p :
  obj_wf args → obj_keys t ## obj_keys args → obj_keys p ## obj_keys args →
  foldl (λ acc e,
    let '(transport, policy) := prepareArg annotation ad cd e.1 e.2 in
    {| argsForTransport := obj_set (argsForTransport acc) e.1 transport;
       argsForPolicy := obj_set (argsForPolicy acc) e.1 policy |})
    {| argsForTransport := t; argsForPolicy := p |} args =
  {| argsForTransport := t ++ ((λ e, (e.1, (prepareArg annotation ad cd e.1 e.2).1)) <$> args);
     argsForPolicy := p ++ ((λ e, (e.1, (prepareArg annotation ad cd e.1 e.2).2)) <$> args) |}.
Proof.
  unfold obj_wf, obj_keys. revert t p.
  induction args as [|[k v] args IH]; intros t p Hwf Ht Hp; csimpl in *; [by rewrite !app_nil_r|].
  apply NoDup_cons in Hwf as [Hk Hwf].
  destruct (prepareArg annotation ad cd k v) as [tv pv] eqn:He. simpl.
  rewrite !obj_set_fresh by (unfold obj_keys; set_solver).
  rewrite IH; [by rewrite <-!app_assoc|done|..]; rewrite fmap_app; csimpl; set_solver.
Qed.

Lemma prepareToolArgs_eq annotation ad cd args :
  obj_wf args →
  prepareToolArgs args annotation ad cd =
  {| argsForTransport := (λ e, (e.1, (prepareArg annotation ad cd e.1 e.2).1)) <$> args;
     argsForPolicy := (λ e, (e.1, (prepareArg annotation ad cd e.1 e.2).2)) <$> args |}.
Proof. intros Hwf. unfold prepareToolArgs. rewrite prepareToolArgs_go; set_solver. Qed.

Lemma obj_get_fmap_keyed {A B} (f : string → A → B) (o : object A) k :
  obj_get ((λ e, (e.1, f e.1 e.2)) <$> o) k = f k <$> obj_get o k.
Proof. induction o as [|[k' v] o IH]; csimpl; [done|]. by case_bool_decide; subst. Qed.

Lemma obj_keys_fmap_keyed {A B} (f : string → A → B) (o : object A) :
  obj_keys ((λ e, (e.1, f e.1 e.2)) <$> o) = obj_keys o.
Proof. unfold obj_keys. rewrite <-list_fmap_compose. by apply list_fmap_ext. Qed.
End lemmas.

Section agreement.
Context `{FileSystemLaws} `{UrlParser}.

Lemma resolveAgainstSandbox_canonical p dir : canonical p → resolveAgainstSandbox p dir = resolveRealPath p.
Proof.
  intros Hp. pose proof (canonical_absolute p Hp) as Ha. unfold resolveAgainstSandbox, resolve2.
  rewrite expandTilde_id, Ha, resolve_id by done. done.
Qed.

(** The server resolves what it receives against its working directory, the
    sandbox; the result is the path the policy judged. *)
Lemma path_agreement dir v :
  resolveAgainstSandbox (if isAbsolutePath v then resolveRealPath v else v) dir =
  (if isAbsolutePath v then resolveRealPath v else resolveAgainstSandbox v dir).
Proof.
  destruct (isAbsolutePath v); [|done].
  by rewrite resolveAgainstSandbox_canonical, resolveRealPath_idem by apply resolveRealPath_canonical.
Qed.
End agreement.

(** * Policy roots

    Models src/trusted-process/policy-roots.ts: the directories exposed to the
    MCP servers as roots, and the servers a policy requires. *)

Record PolicyRoot := { pr_path : string; pr_name : string }.

Definition RESERVED_SERVER_NAMES : list string := ["proxy"].

Section roots.
Context `{FileSystem}.

(** The loop of [extractPolicyRoots]. *)
Fixpoint rootsLoop (rules : list CompiledRule) (seen : list string) (roots : list PolicyRoot)
    : list PolicyRoot :=
  match rules with
  | [] => roots
  | rule :: rules =>
      if r_then rule =? Deny then rootsLoop rules seen roots
      else
        match truthy_string (pc_within <$> c_paths (r_if rule)) with
        | None => rootsLoop rules seen roots
        | Some within =>
            let dir := resolveRealPath within in
            if includes seen dir then rootsLoop rules seen roots
            else rootsLoop rules (js_set_add dir seen)
                   (roots ++ [{| pr_path := dir; pr_name := r_name rule |}])
        end
  end.

Definition extractPolicyRoots (compiledPolicy : CompiledPolicyFile) (allowedDirectory : string)
    : list PolicyRoot :=
  let resolvedSandbox := resolveRealPath allowedDirectory in
  rootsLoop (cp_rules compiledPolicy) [resolvedSandbox]
    [{| pr_path := resolvedSandbox; pr_name := "sandbox" |}].

Definition extractRequiredServers (policy : CompiledPolicyFile) : list string :=
  let servers :=
    foldl (λ servers rule,
      match c_server (r_if rule) with
      | None => servers
      | Some names => foldl (λ servers serverName, js_set_add serverName servers) servers names
      end) [] (cp_rules policy) in
  foldl (λ servers reserved, js_set_delete reserved servers) servers RESERVED_SERVER_NAMES.

Definition toMcpRoots (policyRoots : list PolicyRoot) : list (string * string) :=
  (λ r, ("file://" +:+ pr_path r, pr_name r)) <$> policyRoots.

Definition directoryForPath (filePath : string) : string :=
  if endsWith filePath "/" then resolveRealPath filePath else dirname (resolveRealPath filePath).

(** ** Lemmas *)

(** A rule grants a directory when it is not a deny rule and names one. *)
Definition grants (rule : CompiledRule) (dir : string) : Prop :=
  r_then rule ≠ Deny ∧ ∃ c, c_paths (r_if rule) = Some c ∧ pc_within c ≠ "" ∧
  dir = resolveRealPath (pc_within c).

Lemma truthy_string_within (c : option PathCondition) w :
  truthy_string (pc_within <$> c) = Some w ↔ ∃ p, c = Some p ∧ pc_within p ≠ "" ∧ w = pc_within p.
Proof. destruct c as [[r [|a s]]|]; simpl; naive_solver. Qed.

Lemma rootsLoop_spec rules seen roots :
  seen = pr_path <$> roots → NoDup seen →
  NoDup (pr_path <$> rootsLoop rules seen roots) ∧
  (∃ more, rootsLoop rules seen roots = roots ++ more ∧
     ∀ r, r ∈ more → ∃ rule, rule ∈ rules ∧ grants rule (pr_path r) ∧ pr_name r = r_name rule) ∧
  (∀ dir, dir ∈ pr_path <$> rootsLoop rules seen roots ↔
     dir ∈ seen ∨ ∃ rule, rule ∈ rules ∧ grants rule dir).
Proof.
  revert seen roots. induction rules as [|rule rules IH]; intros seen roots Hs Hnd; cbn [rootsLoop].
  { subst. split; [done|]. split; [exists []; rewrite app_nil_r; set_solver|set_solver]. }
  assert (Hskip : (∀ d, grants rule d → d ∈ seen) →
    NoDup (pr_path <$> rootsLoop rules seen roots) ∧
    (∃ more, rootsLoop rules seen roots = roots ++ more ∧ ∀ r, r ∈ more →
       ∃ rule', rule' ∈ rule :: rules ∧ grants rule' (pr_path r) ∧ pr_name r = r_name rule') ∧
    (∀ dir, dir ∈ pr_path <$> rootsLoop rules seen roots ↔
       dir ∈ seen ∨ ∃ rule', rule' ∈ rule :: rules ∧ grants rule' dir)).
  { intros Hg. destruct (IH seen roots Hs Hnd) as (H1 & (more & H2 & H2') & H3).
    split; [done|]. split.
    - exists more. split; [done|]. intros r Hr. destruct (H2' r Hr) as (rule' & ? & ? & ?).
      exists rule'. set_solver.
    - intros dir. rewrite H3. set_solver. }
  case_bool_decide as Hd; [apply Hskip; by intros d [? _]|].
  destruct (truthy_string _) as [w|] eqn:Hw.
  2:{ apply Hskip. intros d (_ & c & Hc & Hne & _).
      rewrite (proj2 (truthy_string_within _ (pc_within c))) in Hw by eauto. done. }
  apply truthy_string_within in Hw as (c & Hc & Hne & ->).
  assert (Hgr : ∀ d, grants rule d ↔ d = resolveRealPath (pc_within c)).
  { intros d. unfold grants. rewrite Hc. naive_solver. }
  destruct (includes seen _) eqn:Hi; [apply includes_spec in Hi; apply Hskip; naive_solver|].
  unfold js_set_add. rewrite Hi. apply bool_decide_eq_false in Hi.
  edestruct (IH (seen ++ [resolveRealPath (pc_within c)])
    (roots ++ [{| pr_path := resolveRealPath (pc_within c); pr_name := r_name rule |}]))
    as (H1 & (more & H2 & H2') & H3).
  { by rewrite fmap_app, Hs. }
  { apply NoDup_app. split; [done|]. split; [set_solver|apply NoDup_singleton]. }
  split; [done|]. split.
  - eexists. rewrite H2, <-app_assoc. split; [done|]. intros r [->|Hr]%elem_of_cons.
    + exists rule. simpl. rewrite Hgr. set_solver.
    + destruct (H2' r Hr) as (rule' & ? & ? & ?). exists rule'. set_solver.
  - intros dir. rewrite H3. setoid_rewrite elem_of_cons. split.
    + intros [Hin|?]; [|naive_solver]. apply elem_of_app in Hin as [?|Hin]; [by left|].
      apply list_elem_of_singleton in Hin. right. exists rule. rewrite Hgr. naive_solver.
    + intros [?|(rule' & [->|?] & Hg)]; [left; set_solver| |right; eauto].
      apply Hgr in Hg. left. set_solver.
Qed.

Lemma elem_of_fold_add (names servers : list string) x :
  x ∈ foldl (λ servers serverName, js_set_add serverName servers) servers names ↔
  x ∈ servers ∨ x ∈ names.
Proof.
  revert servers. induction names as [|n names IH]; intros servers; simpl; [set_solver|].
  rewrite IH, elem_of_js_set_add. set_solver.
Qed.

Lemma elem_of_required policy x :
  x ∈ extractRequiredServers policy ↔
  (x ∉ RESERVED_SERVER_NAMES) ∧
  ∃ rule names, rule ∈ cp_rules policy ∧ c_server (r_if rule) = Some names ∧ x ∈ names.
Proof.
  unfold extractRequiredServers, RESERVED_SERVER_NAMES. simpl. unfold js_set_delete.
  rewrite list_elem_of_filter, list_elem_of_singleton.
  set (f := (λ servers rule, _)).
  assert (Hgo : ∀ rules servers, x ∈ foldl f servers rules ↔
    x ∈ servers ∨ ∃ rule names, rule ∈ rules ∧ c_server (r_if rule) = Some names ∧ x ∈ names).
  { induction rules as [|rule rules IH]; intros servers; simpl; [set_solver|].
    rewrite IH. unfold f. destruct (c_server (r_if rule)) as [names|] eqn:Hn.
    - rewrite elem_of_fold_add. set_solver.
    - set_solver. }
  rewrite Hgo. set_solver.
Qed.
End roots.

Section containment.
Context `{FileSystemLaws}.

(** The parent directory of a resolved path, when it exists, contains the path,
    unless it is the root directory, which contains only itself. *)
Lemma within_directoryForPath p :
  directoryForPath p ≠ "/" → realpathSync (directoryForPath p) = Some (directoryForPath p) →
  isWithinDirectory p (directoryForPath p) = true.
Proof.
  intros Hroot Hreal. rewrite isWithinDirectory_spec.
  rewrite (resolveRealPath_of_canonical (directoryForPath p)), Hreal
    by (by eapply realpath_canonical).
  revert Hroot. unfold directoryForPath. destruct (endsWith p "/"); [by left|].
  destruct (resolveRealPath_canonical p) as (segs & Hg & ->).
  destruct segs as [|x segs _] using rev_ind; [done|].
  pose proof Hg as [Hgs [Hx _]%Forall_cons]%Forall_app.
  rewrite dirname_render, !path_segments_render by done. intros Hne. right.
  split; [by intros ->|by exists [x]].
Qed.
End containment.
