(* ===== verification/Hashing.v ===== *)
(** * The runtime, stable serialisation and hashing

    Models src/hash.ts.  The SHA-256 digest, the decimal form of a finite number,
    [JSON.parse], [JSON.stringify] and [Date] parsing belong to the JavaScript
    runtime: the class [Runtime] gives them. *)

From Stdlib Require Import Ascii Qcanon.
From stdpp Require Import sorting.
From S2P Require Import Prelude JsValue.

Class Runtime := {
  sha256_hex : string → string;
  number_to_string : Qc → string;
  json_parse : string → option jsvalue;      (** [None]: [JSON.parse] throws *)
  json_stringify : jsvalue → string;
  date_parse : string → option Z;            (** [None]: [getTime] is NaN *)
}.

(** ** [JSON.stringify] of primitives *)

Definition hex_digit (n : nat) : string :=
  str_take 1 (str_drop n "0123456789abcdef").

Definition backslash : string := String (ascii_of_nat 92) "".

Definition escape_char (a : ascii) : string :=
  let n := nat_of_ascii a in
  if n =? 34 then backslash +:+ dquote
  else if n =? 92 then backslash +:+ backslash
  else if n =? 8 then backslash +:+ "b"
  else if n =? 9 then backslash +:+ "t"
  else if n =? 10 then backslash +:+ "n"
  else if n =? 12 then backslash +:+ "f"
  else if n =? 13 then backslash +:+ "r"
  else if n <? 32 then backslash +:+ "u00" +:+ hex_digit (n / 16) +:+ hex_digit (n mod 16)
  else String a "".

Fixpoint escape_string (s : string) : string :=
  match s with "" => "" | String a s => escape_char a +:+ escape_string s end.

Definition json_string (s : string) : string := dquote +:+ escape_string s +:+ dquote.

(** The order of [Array.prototype.sort] on strings: by code unit. *)
Definition str_le (a b : string) : Prop := String.leb a b = true.

#[export] Instance str_le_dec a b : Decision (str_le a b).
Proof. unfold str_le. apply _. Defined.

Section hashing.
Context `{Runtime}.

Definition json_number (n : jsnum) : string :=
  match n with JFin q => number_to_string q | _ => "null" end.

Fixpoint stableStringify (value : jsvalue) : option string :=
  match value with
  | VUndefined => None
  | VNull => Some "null"
  | VBool b => Some (if b then "true" else "false")
  | VNum n => Some (json_number n)
  | VStr s => Some (json_string s)
  | VArr l =>
      Some ("[" +:+ str_join "," ((λ v, default "" (stableStringify v)) <$> l) +:+ "]")
  | VObj o =>
      let strings := (λ e, (e.1, default "" (stableStringify e.2))) <$> o in
      let keys := merge_sort str_le (obj_keys o) in
      let pairs := (λ k, json_string k +:+ ":" +:+ default "" (obj_get strings k)) <$> keys in
      Some ("{" +:+ str_join "," pairs +:+ "}")
  end.

Definition computeHash (value : jsvalue) : string :=
  sha256_hex (default "" (stableStringify value)).
End hashing.

(** ** Key order does not matter *)

#[export] Instance str_le_total : Total str_le.
Proof. intros a b. apply String.leb_total. Qed.

#[export] Instance str_le_antisymm : AntiSymm (=) str_le.
Proof. intros a b. apply String.leb_antisym. Qed.

Lemma ascii_compare_lt_trans a b c :
  Ascii.compare a b = Lt → Ascii.compare b c = Lt → Ascii.compare a c = Lt.
Proof. unfold Ascii.compare. rewrite !N.compare_lt_iff. lia. Qed.

Lemma str_compare_trans a b c :
  String.compare a b ≠ Gt → String.compare b c ≠ Gt → String.compare a c ≠ Gt.
Proof.
  revert b c. induction a as [|x a IH]; intros [|y b] [|z c]; cbn [String.compare]; try done.
  destruct (Ascii.compare x y) eqn:Hxy; try done.
  - apply Ascii.compare_eq_iff in Hxy as ->.
    destruct (Ascii.compare y z); [apply IH|done|done].
  - intros _. destruct (Ascii.compare y z) eqn:Hyz; try done.
    + apply Ascii.compare_eq_iff in Hyz as ->. by rewrite Hxy.
    + by rewrite (ascii_compare_lt_trans x y z).
Qed.

#[export] Instance str_le_trans : Transitive str_le.
Proof.
  intros a b c. unfold str_le, String.leb. intros Hab Hbc.
  pose proof (str_compare_trans a b c) as Ht.
  destruct (String.compare a b), (String.compare b c), (String.compare a c); try done;
    by destruct Ht.
Qed.

Lemma merge_sort_perm (l1 l2 : list string) :
  l1 ≡ₚ l2 → merge_sort str_le l1 = merge_sort str_le l2.
Proof.
  intros Hp. apply (Sorted_unique str_le).
  1-2: apply (Sorted_merge_sort str_le _).
  by rewrite !merge_sort_Permutation.
Qed.

Lemma obj_get_perm {A} (o1 o2 : object A) k :
  obj_wf o1 → o1 ≡ₚ o2 → obj_get o1 k = obj_get o2 k.
Proof.
  intros Hwf Hp. assert (Hwf2 : obj_wf o2) by (unfold obj_wf, obj_keys in *; by rewrite <-Hp).
  apply option_eq. intros v. rewrite <-!elem_of_obj_get by done. by rewrite Hp.
Qed.

Lemma stableStringify_perm `{Runtime} o1 o2 :
  obj_wf o1 → o1 ≡ₚ o2 → stableStringify (VObj o1) = stableStringify (VObj o2).
Proof.
  intros Hwf Hp. cbn [stableStringify]. do 3 f_equal. f_equal.
  rewrite (merge_sort_perm (obj_keys o1) (obj_keys o2)) by (unfold obj_keys; by rewrite Hp).
  apply list_fmap_ext. intros _ k _. do 2 f_equal. f_equal. apply obj_get_perm.
  - unfold obj_wf, obj_keys in *. by rewrite <-list_fmap_compose.
  - by rewrite Hp.
Qed.
