(* ===== verification/Numbers.v ===== *)
(** * Exact numbers

    Fractional numbers of the source as canonical rationals: comparison, rounding and
    printing, and linear arithmetic. *)

From Stdlib Require Import QArith Qround Qabs Qcanon Lqa.
From S2P Require Import Prelude.

(** ** Operations *)

Definition qc (a : Z) (b : positive) : Qc := Q2Qc (a # b).
Definition qc_of_Z (z : Z) : Qc := Q2Qc (inject_Z z).
Definition qc_le (a b : Qc) : bool := Qle_bool (this a) (this b).
Definition qc_lt (a b : Qc) : bool := negb (qc_le b a).

(** [Math.round] *)
Definition math_round (q : Qc) : Z := Qfloor (this q + (1 # 2)).

Fixpoint zeros (n : nat) : string := match n with O => "" | S n => "0" +:+ zeros n end.

Definition pad_left (n : nat) (s : string) : string := zeros (n - String.length s) +:+ s.

(** [q.toFixed(d)] below 10^21: the nearest multiple of [10^-d], the larger one
    of two. *)
Definition toFixed (d : nat) (q : Qc) : string :=
  let scale := (10 ^ Z.of_nat d)%Z in
  let n := Qfloor (Qabs (this q) * inject_Z scale + (1 # 2)) in
  (if qc_lt q (qc_of_Z 0) then "-" else "") +:+ show_Z (n / scale)
    +:+ (if (d =? 0)%nat then "" else "." +:+ pad_left d (show_Z (n mod scale))).

(** [Math.min] and [Math.max] *)
Definition qc_min (a b : Qc) : Qc := if qc_lt b a then b else a.
Definition qc_max (a b : Qc) : Qc := if qc_lt a b then b else a.

(** ** Comparison *)

Lemma qc_le_spec a b : qc_le a b = true ↔ (a <= b)%Qc.
Proof. unfold qc_le, Qcle. apply Qle_bool_iff. Qed.

Lemma qc_lt_spec a b : qc_lt a b = true ↔ (a < b)%Qc.
Proof.
  unfold qc_lt. rewrite negb_true_iff, <-not_true_iff_false, qc_le_spec. split.
  - apply Qcnot_le_lt.
  - intros ? ?. by apply (Qclt_not_le a b).
Qed.

(** ** Linear arithmetic *)

Lemma this_plus a b : (this (a + b)%Qc == this a + this b)%Q.
Proof. apply Qred_correct. Qed.
Lemma this_opp a : (this (- a)%Qc == - this a)%Q.
Proof. apply Qred_correct. Qed.
Lemma this_minus a b : (this (a - b)%Qc == this a - this b)%Q.
Proof. unfold Qcminus, Qminus. by rewrite this_plus, this_opp. Qed.
Lemma this_mult a b : (this (a * b)%Qc == this a * this b)%Q.
Proof. apply Qred_correct. Qed.
Lemma this_of_Z z : (this (qc_of_Z z) == inject_Z z)%Q.
Proof. apply Qred_correct. Qed.

(** Goals and hypotheses [<=] and [<] between sums. *)
Ltac qc_lra :=
  unfold Qcle, Qclt in *; change (this (Q2Qc 0)) with 0%Q in *;
  repeat match goal with
  | H : context [this (_ + _)%Qc] |- _ => rewrite this_plus in H
  | H : context [this (_ - _)%Qc] |- _ => rewrite this_minus in H
  | H : context [this (- _)%Qc] |- _ => rewrite this_opp in H
  end;
  rewrite ?this_plus, ?this_minus, ?this_opp; lra.
