(* ===== verification/CircuitBreaker.v ===== *)
(** * The call circuit breaker

    Models src/trusted-process/call-circuit-breaker.ts: a sliding window per tool
    and argument hash.  Times are milliseconds; the configuration's threshold and
    worker count are finite numbers. *)

From Stdlib Require Import Sorted QArith Qround Qcanon.
From S2P Require Import Prelude JsValue Hashing.

Definition ERROR_PREFIX_CIRCUIT_BREAKER : string := "CIRCUIT BREAKER:".

Record CircuitBreakerConfig := {
  cfg_windowMs : Z;
  cfg_threshold : Qc;
  cfg_workerCount : Qc;
}.

Record PartialConfig := {
  p_windowMs : option Z;
  p_threshold : option Qc;
  p_workerCount : option Qc;
}.

Definition DEFAULT_CONFIG : CircuitBreakerConfig :=
  {| cfg_windowMs := 60000; cfg_threshold := Q2Qc 20; cfg_workerCount := Q2Qc 1 |}.

Inductive CircuitBreakerVerdict := BreakerAllowed | BreakerDenied (reason : string).

(** The breaker: the normalised configuration and the windows. *)
Record CallCircuitBreaker := {
  windowMs : Z;
  threshold : Z;
  workerCount : Z;
  windows : gmap string (list Z);
}.

Definition at_least_one (q : Qc) : Z := Z.max 1 (Qfloor q).

Definition newCallCircuitBreaker (config : option PartialConfig) : CallCircuitBreaker :=
  let given {A} (f : PartialConfig → option A) (d : A) := default d (config ≫= f) in
  {| windowMs := given p_windowMs (cfg_windowMs DEFAULT_CONFIG);
     threshold := at_least_one (given p_threshold (cfg_threshold DEFAULT_CONFIG));
     workerCount := at_least_one (given p_workerCount (cfg_workerCount DEFAULT_CONFIG));
     windows := ∅ |}.

(** [timestamps.findIndex(p)]; [None] is [-1]. *)
Fixpoint findIndex (p : Z → bool) (l : list Z) : option nat :=
  match l with
  | [] => None
  | t :: l => if p t then Some 0 else S <$> findIndex p l
  end.

Definition prune (cutoff : Z) (timestamps : list Z) : list Z :=
  match findIndex (λ t, bool_decide (cutoff < t)%Z) timestamps with
  | None => []
  | Some firstValid => drop firstValid timestamps
  end.

Section breaker.
Context `{Runtime}.

Definition breakerKey (toolName : string) (args : object jsvalue) : string :=
  toolName +:+ ":" +:+ computeHash (VObj args).

Definition effectiveThreshold (b : CallCircuitBreaker) : Z := (threshold b * workerCount b)%Z.

Definition set_window (b : CallCircuitBreaker) (key : string) (ts : list Z) : CallCircuitBreaker :=
  {| windowMs := windowMs b; threshold := threshold b; workerCount := workerCount b;
     windows := <[key := ts]> (windows b) |}.

(** [check] at time [now]. *)
Definition check (b : CallCircuitBreaker) (now : Z) (toolName : string) (args : object jsvalue)
    : CallCircuitBreaker * CircuitBreakerVerdict :=
  let key := breakerKey toolName args in
  let cutoff := (now - windowMs b)%Z in
  let timestamps := default [] (windows b !! key) in
  let timestamps := prune cutoff timestamps in
  if bool_decide (effectiveThreshold b ≤ Z.of_nat (length timestamps))%Z then
    (set_window b key timestamps,
     BreakerDenied (ERROR_PREFIX_CIRCUIT_BREAKER +:+ " Tool '" +:+ toolName +:+ "' called "
       +:+ show_Z (effectiveThreshold b) +:+ " times "
       +:+ "with identical arguments within "
       +:+ number_to_string (Q2Qc (windowMs b # 1000)) +:+ "s window. "
       +:+ "Try a different approach."))
  else (set_window b key (timestamps ++ [now]), BreakerAllowed).

Definition reset (b : CallCircuitBreaker) : CallCircuitBreaker :=
  {| windowMs := windowMs b; threshold := threshold b; workerCount := workerCount b;
     windows := ∅ |}.

(** ** Runs *)

Record Call := { call_time : Z; call_tool : string; call_args : object jsvalue }.

Definition call_key (c : Call) : string := breakerKey (call_tool c) (call_args c).

Definition is_allowed (v : CircuitBreakerVerdict) : bool :=
  match v with BreakerAllowed => true | BreakerDenied _ => false end.

(** The state after a sequence of calls, and the calls with their verdicts. *)
Fixpoint run_checks (b : CallCircuitBreaker) (calls : list Call)
    : CallCircuitBreaker * list (Call * CircuitBreakerVerdict) :=
  match calls with
  | [] => (b, [])
  | c :: calls =>
      let '(b', v) := check b (call_time c) (call_tool c) (call_args c) in
      let '(b'', vs) := run_checks b' calls in (b'', (c, v) :: vs)
  end.

(** The times at which calls with a key were allowed. *)
Definition allowed_times (key : string) (log : list (Call * CircuitBreakerVerdict)) : list Z :=
  (λ e, call_time e.1) <$>
    filter (λ e, call_key e.1 = key ∧ is_allowed e.2 = true) log.

(** ** The window invariant *)

Definition chronological (l : list Z) : Prop := StronglySorted Z.le l.

Lemma findIndex_spec p l :
  match findIndex p l with
  | Some i => ∃ x, l !! i = Some x ∧ p x = true ∧ ∀ y, y ∈ take i l → p y = false
  | None => ∀ y, y ∈ l → p y = false
  end.
Proof.
  induction l as [|t l IH]; simpl; [set_solver|].
  destruct (p t) eqn:Hp; [exists t; split_and!; [done..|set_solver]|].
  destruct (findIndex p l) as [i|]; simpl; [|set_solver].
  destruct IH as (x & Hx & Hpx & Hall). exists x. split_and!; [done..|set_solver].
Qed.

(** On a chronological window, pruning keeps exactly the recent entries. *)
Lemma prune_filter cutoff l :
  chronological l → prune cutoff l = filter (λ t, cutoff < t)%Z l.
Proof.
  unfold prune. induction 1 as [|t l Hl IH Ht]; [done|]. cbn [findIndex].
  case_bool_decide as Hc.
  - rewrite filter_cons_True by done. simpl. f_equal. symmetry. apply list_filter_all.
    eapply Forall_impl; [done|]. simpl. lia.
  - rewrite filter_cons_False by done. rewrite <-IH. by destruct (findIndex _ l).
Qed.

Lemma chronological_filter (P : Z → Prop) `{!∀ x, Decision (P x)} l :
  chronological l → chronological (filter P l).
Proof.
  induction 1 as [|t l Hl IH Ht]; [constructor|]. rewrite filter_cons.
  case_decide; [|done]. constructor; [done|]. rewrite Forall_forall in *.
  intros x [_ Hx]%list_elem_of_filter. auto.
Qed.

Lemma chronological_snoc l now :
  chronological l → (∀ t, t ∈ l → (t ≤ now)%Z) → chronological (l ++ [now]).
Proof.
  induction 1 as [|t l Hl IH Ht]; intros Hle; simpl; [repeat constructor|].
  constructor; [apply IH; set_solver|]. apply Forall_app. split; [done|].
  apply Forall_singleton. apply Hle. left.
Qed.

(** What the windows say about the past: per key, the window is a chronological
    list of times up to [now], and it holds every allowed call that is recent at
    any time from [now] on. *)
Definition window_inv (b : CallCircuitBreaker) (now : Z)
    (log : list (Call * CircuitBreakerVerdict)) : Prop :=
  ∀ key, chronological (default [] (windows b !! key)) ∧
    (∀ t, t ∈ default [] (windows b !! key) → (t ≤ now)%Z) ∧
    ∀ later, (now ≤ later)%Z →
      filter (λ t, later - windowMs b < t)%Z (default [] (windows b !! key)) =
      filter (λ t, later - windowMs b < t)%Z (allowed_times key log).

Lemma window_inv_later b now later log :
  (now ≤ later)%Z → window_inv b now log → window_inv b later log.
Proof.
  intros Hle Hinv key. destruct (Hinv key) as (H1 & H2 & H3).
  split; [done|]. split; [intros t Ht; etrans; eauto|]. intros. apply H3. lia.
Qed.

Lemma window_inv_init b now : windows b = ∅ → window_inv b now [].
Proof. intros Hb key. rewrite Hb, lookup_empty. split; [constructor|]. split; [set_solver|done]. Qed.

Lemma check_config b now tool args :
  windowMs (check b now tool args).1 = windowMs b ∧
  effectiveThreshold (check b now tool args).1 = effectiveThreshold b.
Proof. unfold check. case_bool_decide; done. Qed.

Lemma allowed_times_snoc key log c v :
  allowed_times key (log ++ [(c, v)]) =
  allowed_times key log ++
    (if decide (call_key c = key ∧ is_allowed v = true) then [call_time c] else []).
Proof.
  unfold allowed_times. rewrite filter_app, fmap_app. f_equal.
  rewrite filter_cons. cbn [fst snd]. case_decide; done.
Qed.

Lemma filter_twice (cut later : Z) (l : list Z) :
  (cut ≤ later)%Z →
  filter (λ t, later < t)%Z (filter (λ t, cut < t)%Z l) = filter (λ t, later < t)%Z l.
Proof.
  intros Hle. rewrite list_filter_filter. apply list_filter_iff. intros x. lia.
Qed.

(** One step of the breaker, on the current window of the key. *)
Lemma check_step b log c :
  window_inv b (call_time c) log →
  let '(b', v) := check b (call_time c) (call_tool c) (call_args c) in
  let recent := filter (λ t, call_time c - windowMs b < t)%Z (allowed_times (call_key c) log) in
  is_allowed v = bool_decide (Z.of_nat (length recent) < effectiveThreshold b)%Z ∧
  window_inv b' (call_time c) (log ++ [(c, v)]).
Proof.
  intros Hinv. unfold check. fold (call_key c).
  destruct (Hinv (call_key c)) as (Hch & Hle & Hrec).
  rewrite prune_filter by done. set (now := call_time c) in *. set (key := call_key c) in *.
  rewrite <-Hrec by lia. set (ts := default [] (windows b !! key)) in *.
  set (ts' := filter (λ t, now - windowMs b < t)%Z ts).
  assert (Hch' : chronological ts') by by apply chronological_filter.
  assert (Hle' : ∀ t, t ∈ ts' → (t ≤ now)%Z).
  { intros t [_ Ht]%list_elem_of_filter. auto. }
  assert (Hkeep : ∀ ts2 v, (chronological ts2 ∧ (∀ t, t ∈ ts2 → (t ≤ now)%Z) ∧
      ∀ later, (now ≤ later)%Z → filter (λ t, later - windowMs b < t)%Z ts2 =
        filter (λ t, later - windowMs b < t)%Z (allowed_times key (log ++ [(c, v)]))) →
      window_inv (set_window b key ts2) now (log ++ [(c, v)])).
  { intros ts2 v Hts k. simpl. destruct (decide (key = k)) as [<-|Hk].
    - by rewrite lookup_insert_eq.
    - rewrite lookup_insert_ne, allowed_times_snoc by done.
      rewrite decide_False by naive_solver. rewrite app_nil_r. apply Hinv. }
  case_bool_decide as Hfull.
  - split; [simpl; symmetry; apply bool_decide_eq_false_2; lia|]. apply Hkeep.
    split_and!; [done..|]. intros later Hl. rewrite allowed_times_snoc.
    rewrite decide_False by (simpl; naive_solver). rewrite app_nil_r, <-Hrec by done.
    apply filter_twice. lia.
  - split; [simpl; symmetry; apply bool_decide_eq_true_2; lia|]. apply Hkeep.
    split_and!; [by apply chronological_snoc| |].
    + intros t [Ht|Ht]%elem_of_app; [auto|]. apply list_elem_of_singleton in Ht. lia.
    + intros later Hl. rewrite allowed_times_snoc. rewrite decide_True by done.
      rewrite !filter_app, <-Hrec by done. f_equal. apply filter_twice. lia.
Qed.

(** The verdict of every call of a run, against the calls allowed before it. *)
Lemma run_checks_exact b calls past now :
  window_inv b now past → StronglySorted Z.le (now :: (call_time <$> calls)) →
  ∀ i c v, (run_checks b calls).2 !! i = Some (c, v) →
    is_allowed v = bool_decide (Z.of_nat (length
      (filter (λ t, call_time c - windowMs b < t)%Z
         (allowed_times (call_key c) (past ++ take i (run_checks b calls).2))))
      < effectiveThreshold b)%Z.
Proof.
  revert b past now. induction calls as [|c0 calls IH]; intros b past now Hinv Hs i c v; cbn [run_checks].
  { by destruct i. }
  apply StronglySorted_inv in Hs as [Hs Hnow]. csimpl in *. apply Forall_cons in Hnow as [Hnow _].
  pose proof (check_step b past c0 (window_inv_later _ _ _ _ Hnow Hinv)) as Hstep.
  pose proof (check_config b (call_time c0) (call_tool c0) (call_args c0)) as [Hw He].
  destruct (check b _ _ _) as [b' v0] eqn:Hcheck. simpl in Hw, He.
  destruct Hstep as [Hv0 Hinv'].
  specialize (IH b' (past ++ [(c0, v0)]) (call_time c0) Hinv' Hs).
  destruct (run_checks b' calls) as [b'' vs] eqn:Hrun. cbn [snd] in *.
  destruct i as [|i]; cbn [lookup list_lookup take].
  - intros [= <- <-]. by rewrite app_nil_r.
  - intros Hi. rewrite (IH i c v Hi), Hw, He. by rewrite <-app_assoc.
Qed.
End breaker.
