(* ===== verification/Tools.v ===== *)
(** * Helpers of the tool-call pipeline

    The pure functions of src/trusted-process/tool-call-pipeline.ts, with
    src/trusted-process/server-context.ts, src/trusted-process/mcp-error-utils.ts
    and the error annotation of src/trusted-process/sandbox-integration.ts. *)

From Stdlib Require Import Ascii Qcanon.
From stdpp Require Import sorting.
From S2P Require Import Prelude JsValue Paths Urls Roles PolicyTypes PolicyEngine Hashing.

(** ** Error prefixes *)

Definition ERROR_PREFIX_DENIED : string := "DENIED:".
Definition ERROR_PREFIX_ESCALATION_REQUIRED : string := "ESCALATION REQUIRED:".
Definition ERROR_PREFIX_ESCALATION_DENIED : string := "ESCALATION DENIED:".
Definition ERROR_PREFIX_UNKNOWN_ARGS : string := "Unknown argument(s):".
Definition ERROR_PREFIX_MISSING_ANNOTATION : string := "Missing annotation for tool:".

Definition CONTAINER_WORKSPACE_DIR : string := "/workspace".

(** ** Tools *)

Record ProxiedTool := {
  pt_serverName : string;
  pt_name : string;
  pt_description : option string;
  pt_inputSchema : object jsvalue;
}.

(** The entries of a value with [typeof v === 'object'] that is not null. *)
Definition as_object (v : jsvalue) : option (object jsvalue) :=
  match v with
  | VObj o => Some o
  | VArr l => Some (imap (λ i v, (show_nat i, v)) l)
  | _ => None
  end.

Definition jsonSchemaTypeOf (value : jsvalue) : option string :=
  match value with
  | VNull => Some "null"
  | VArr _ => Some "array"
  | VStr _ => Some "string"
  | VNum _ => Some "number"
  | VBool _ => Some "boolean"
  | VObj _ => Some "object"
  | VUndefined => None
  end.

Definition matchesJsonSchemaType (value : jsvalue) (expected : string) : bool :=
  if expected =? "integer" then match value with VNum n => num_is_integer n | _ => false end
  else if expected =? "number" then match value with VNum n => num_is_finite n | _ => false end
  else if includes ["string"; "boolean"; "null"; "array"; "object"] expected
  then jsonSchemaTypeOf value =? Some expected
  else true.

(** [/^[aeiou]/i] *)
Definition starts_with_vowel (s : string) : bool :=
  match s with
  | String a _ => includes (chars "aeiou") (ascii_lower a)
  | "" => false
  end.

Definition typeError (key expected : string) (value : jsvalue) : string :=
  let received := default "undefined" (jsonSchemaTypeOf value) in
  let article := if starts_with_vowel expected then "an" else "a" in
  "Argument " +:+ quoted key +:+ " must be " +:+ article +:+ " " +:+ expected
    +:+ " (got " +:+ received +:+ ").".

(** The type check of one argument: the error, if any. *)
Definition argumentError (props args : object jsvalue) (key : string) : option string :=
  match as_object (get_value props key) with
  | None => None
  | Some propSchema =>
      match get_value propSchema "type" with
      | VStr expected =>
          if matchesJsonSchemaType (get_value args key) expected then None
          else Some (typeError key expected (get_value args key))
      | _ => None
      end
  end.

Fixpoint first_some {A B} (f : A → option B) (l : list A) : option B :=
  match l with [] => None | x :: l => match f x with Some b => Some b | None => first_some f l end end.

Definition validateToolArguments (args inputSchema : object jsvalue) : option string :=
  match as_object (get_value inputSchema "properties") with
  | None => None
  | Some props =>
      if truthy (get_value inputSchema "additionalProperties") then None
      else
        let validKeys := obj_keys props in
        let unknownKeys := filter (λ k, k ∉ validKeys) (obj_keys args) in
        if negb (length unknownKeys =? 0) then
          Some (ERROR_PREFIX_UNKNOWN_ARGS +:+ " " +:+ str_join ", " (quoted <$> unknownKeys)
                +:+ ". Valid parameters are: "
                +:+ str_join ", " (quoted <$> merge_sort str_le validKeys))
        else first_some (argumentError props args) (obj_keys args)
  end.

Definition splitToolKey (key : string) : string * string :=
  match str_indexOf key "__" with
  | None => ("unknown", key)
  | Some sep => (str_take sep key, str_drop (sep + 2) key)
  end.

Definition buildToolMap (allTools : list ProxiedTool) : gmap string ProxiedTool :=
  foldl (λ toolMap tool, <[pt_name tool := tool]> toolMap) ∅ allTools.

(** The owners of each name, in the order the names appear. *)
Definition ownersByName (allTools : list ProxiedTool) : object (list string) :=
  foldl (λ byName tool,
    match obj_get byName (pt_name tool) with
    | Some owners => obj_set byName (pt_name tool) (owners ++ [pt_serverName tool])
    | None => obj_set byName (pt_name tool) [pt_serverName tool]
    end) [] allTools.

Definition assertUniqueToolNames (allTools : list ProxiedTool) : result unit :=
  let collisions := filter (λ e, 1 < length e.2) (ownersByName allTools) in
  if length collisions =? 0 then Ok ()
  else
    let details := str_join newline
      ((λ e, "  " +:+ quoted e.1 +:+ " exposed by: " +:+ str_join ", " e.2) <$> collisions) in
    Throw ("Relay subprocess cannot load multiple backends that expose the same tool name. "
      +:+ "The CallTool handler routes by bare tool name, so collisions would route to "
      +:+ "the wrong backend. Either set SERVER_FILTER to load a single server, or "
      +:+ "resolve the collisions at the backend layer." +:+ newline
      +:+ "Duplicate tool names:" +:+ newline +:+ details).

(** ** Results of tool calls *)

(** The text of a content block of type [text]; blocks are objects, as the MCP
    result schema guarantees. *)
Definition block_text (block : jsvalue) : option string :=
  match block with
  | VObj o =>
      if is_str (get_value o "type") "text" then
        match get_value o "text" with VStr text => Some text | _ => None end
      else None
  | _ => None
  end.

Definition extractTextFromContent (content : jsvalue) : option string :=
  match content with
  | VArr l =>
      match omap block_text l with
      | [] => None
      | texts => Some (str_join newline texts)
      end
  | _ => None
  end.

Definition isRootsRaceError (result : object jsvalue) : bool :=
  if negb (truthy (get_value result "isError")) then false
  else
    match extractTextFromContent (get_value result "content") with
    | None | Some "" => false
    | Some text =>
        let lower := toLowerCase text in
        str_includes lower "access denied" || str_includes lower "outside allowed directories"
    end.

(** ** Trust of the user context *)

Record UserContext := {
  uc_userMessage : string;
  uc_source : option string;
  uc_timestamp : option string;
}.

Definition TRUSTED_INPUT_STALENESS_MS : Z := 120000.

Definition isUserContextTrusted `{Runtime} (context : UserContext) (isPtySession : bool) (now : Z)
    : bool :=
  let sourceValid := negb isPtySession || (uc_source context =? Some "mux-trusted-input") in
  if negb sourceValid then false
  else
    let stale :=
      match uc_timestamp context ≫= date_parse with
      | None => isPtySession
      | Some tsMs =>
          let ageMs := (now - tsMs)%Z in
          bool_decide (TRUSTED_INPUT_STALENESS_MS < ageMs)%Z || bool_decide (ageMs < 0)%Z
      end in
    negb stale.

(** ** Server context *)

Record ServerContext := { workingDirectory : option string }.

Definition ServerContextMap := gmap string ServerContext.

Definition WORKING_DIR_ARGS (toolName : string) : option string :=
  if toolName =? "git_set_working_dir" then Some "path"
  else if toolName =? "git_clone" then Some "localPath"
  else None.

Definition updateServerContext (map : ServerContextMap) (serverName toolName : string)
    (args : object jsvalue) : ServerContextMap :=
  match WORKING_DIR_ARGS toolName with
  | None => map
  | Some argKey =>
      match get_value args argKey with
      | VStr value => <[serverName := {| workingDirectory := Some value |}]> map
      | _ => map
      end
  end.

Definition formatServerContext (map : ServerContextMap) (serverName : string)
    : option (object string) :=
  match map !! serverName with
  | None => None
  | Some ctx =>
      match truthy_string (workingDirectory ctx) with
      | Some dir => Some [("Working directory", dir)]
      | None => None
      end
  end.

(** ** Errors of MCP servers *)

(** What a rejected promise carries: an [McpError] or any other error, by its
    message. *)
Inductive JsError :=
| PlainError (message : string)
| McpError (code : Z) (data : jsvalue) (message : string).

Definition INVALID_PARAMS_CODE : Z := (-32602)%Z.

Definition nonempty_string (v : jsvalue) : option string :=
  match v with VStr "" => None | VStr s => Some s | _ => None end.

(** The loop over a content array: reading a property of a null or undefined item
    throws. *)
Fixpoint first_text (l : list jsvalue) : result (option string) :=
  match l with
  | [] => Ok None
  | (VNull | VUndefined) :: _ => Throw "Cannot read properties of null"
  | item :: l =>
      match block_text item with Some text => Ok (Some text) | None => first_text l end
  end.

Definition extractFromData (data : jsvalue) : result (option string) :=
  match nonempty_string data with
  | Some s => Ok (Some s)
  | None =>
      match as_object data with
      | None => Ok None
      | Some obj =>
          match nonempty_string (get_value obj "message") with
          | Some s => Ok (Some s)
          | None =>
              match nonempty_string (get_value obj "error") with
              | Some s => Ok (Some s)
              | None =>
                  match get_value obj "content" with
                  | VArr l => first_text l
                  | _ => Ok None
                  end
              end
          end
      end
  end.

(** [message.match(/^MCP error -\d+: (.+)$/s)] *)
Definition stripMcpPrefix (message : string) : string :=
  let prefix := "MCP error -" in
  if startsWith message prefix then
    let '(digits, rest) := str_span is_digit (str_drop (String.length prefix) message) in
    if negb (digits =? "") && startsWith rest ": " && negb (str_drop 2 rest =? "")
    then str_drop 2 rest else message
  else message.

Definition extractMcpErrorMessage (err : JsError) : result string :=
  match err with
  | PlainError message => Ok message
  | McpError code data message =>
      extracted ← (if (code =? INVALID_PARAMS_CODE) && negb (is_nullish data)
                   then extractFromData data else Ok None);
      Ok (default (stripMcpPrefix message) (truthy_string extracted))
  end.

(** [/EACCES|EPERM|Operation not permitted|Permission denied|read-only file system/i] *)
Definition sandbox_block_pattern (s : string) : bool :=
  existsb (λ p, str_includes (toLowerCase s) (toLowerCase p))
    ["EACCES"; "EPERM"; "Operation not permitted"; "Permission denied"; "read-only file system"].

Definition annotateSandboxViolation (errorMessage : string) (serverSandboxed : bool) : string :=
  if negb serverSandboxed then errorMessage
  else if negb (sandbox_block_pattern errorMessage) then errorMessage
  else "[SANDBOX BLOCKED] " +:+ errorMessage.

(** ** Timeouts *)

(** [getEscalationTimeoutMs()]: the environment variable as [Number] reads it,
    [None] when it is unset or empty. *)
Definition getEscalationTimeoutMs (envValue : option jsnum) : Qc :=
  match envValue with
  | Some (JFin parsed) =>
      if bool_decide (0 < parsed)%Qc then (parsed * Q2Qc (QArith_base.inject_Z 1000))%Qc
      else Q2Qc (QArith_base.inject_Z 300000)
  | _ => Q2Qc (QArith_base.inject_Z 300000)
  end.

(** ** Tool names *)

Definition with_name (n : string) (tools : list ProxiedTool) : list ProxiedTool :=
  filter (λ t, pt_name t = n) tools.

Lemma ownersByName_spec tools :
  obj_wf (ownersByName tools) ∧
  ∀ n, obj_get (ownersByName tools) n =
    match pt_serverName <$> with_name n tools with [] => None | owners => Some owners end.
Proof.
  unfold ownersByName. induction tools as [|tool tools [Hwf Hget]] using rev_ind.
  { split; [constructor|done]. }
  rewrite foldl_snoc. set (m := foldl _ [] tools) in *. pose proof (Hget (pt_name tool)) as Ht.
  assert (Hn : ∀ n, with_name n (tools ++ [tool]) =
      with_name n tools ++ if pt_name tool =? n then [tool] else []).
  { intros n. unfold with_name. rewrite filter_app, filter_cons, filter_nil.
    by case_decide; case_bool_decide. }
  split.
  { destruct (obj_get m (pt_name tool)); by apply obj_set_wf. }
  intros n. rewrite Hn, fmap_app, Ht.
  destruct (pt_serverName <$> with_name (pt_name tool) tools) as [|o os] eqn:Ho;
    rewrite obj_get_set; case_bool_decide as Heq; subst;
    rewrite ?Ho, ?Hget, ?app_nil_r; done.
Qed.

Lemma NoDup_names tools :
  NoDup (pt_name <$> tools) ↔ ∀ n, length (with_name n tools) ≤ 1.
Proof.
  unfold with_name. induction tools as [|tool tools IH]; csimpl.
  - split; [intros _ n; apply Nat.le_0_l|constructor].
  - rewrite NoDup_cons, IH. split.
    + intros [Hni Hall] n. rewrite filter_cons. case_decide as Heq; [|apply Hall]. simpl.
      rewrite list_filter_none; [done|]. apply Forall_forall. intros t Ht Hname. apply Hni. subst.
      rewrite <-Hname. by apply list_elem_of_fmap_2.
    + intros Hall. split.
      * intros (t & Hname & Ht)%list_elem_of_fmap. specialize (Hall (pt_name tool)).
        rewrite filter_cons, decide_True in Hall by done. simpl in Hall.
        assert (t ∈ filter (λ t, pt_name t = pt_name tool) tools) as Hin
          by (by apply list_elem_of_filter).
        destruct (filter _ tools); [by apply not_elem_of_nil in Hin|]. simpl in Hall. lia.
      * intros n. specialize (Hall n). rewrite filter_cons in Hall.
        case_decide; simpl in Hall; lia.
Qed.

Lemma buildToolMap_lookup tools tool :
  NoDup (pt_name <$> tools) → tool ∈ tools → buildToolMap tools !! pt_name tool = Some tool.
Proof.
  unfold buildToolMap. induction tools as [|x tools IH] using rev_ind; [set_solver|].
  rewrite fmap_app, foldl_snoc. intros (Hnd & Hni & _)%NoDup_app [Hin|Hin]%elem_of_app.
  - rewrite lookup_insert_ne; [by apply IH|]. intros Heq. apply (Hni (pt_name tool)).
    + by apply list_elem_of_fmap_2.
    + rewrite <-Heq. left.
  - apply list_elem_of_singleton in Hin as ->. by rewrite lookup_insert_eq.
Qed.

Lemma buildToolMap_elem tools name tool :
  buildToolMap tools !! name = Some tool → tool ∈ tools ∧ pt_name tool = name.
Proof.
  unfold buildToolMap. induction tools as [|x tools IH] using rev_ind; [done|].
  rewrite foldl_snoc, lookup_insert_Some. set_solver.
Qed.

Lemma first_some_None {A B} (f : A → option B) l :
  first_some f l = None ↔ ∀ x, x ∈ l → f x = None.
Proof.
  induction l as [|x l IH]; simpl; [set_solver|]. setoid_rewrite elem_of_cons.
  destruct (f x) eqn:Hx; [naive_solver|]. rewrite IH. naive_solver.
Qed.
