(* ===== verification/EscalationIpc.v ===== *)
(** * Waiting for a human over files

    Models the file protocol of src/trusted-process/tool-call-pipeline.ts: the
    reading of a response file, and the polling loop with its deadline.  The
    clock and the response file are functions of the poll number; the write of the
    request and the read of the response may fail, and the removals ignore it. *)

From Stdlib Require Import QArith Qround Qcanon.
From S2P Require Import Prelude JsValue Hashing Tools.

Inductive HumanDecision := Approved | Denied.

#[export] Instance HumanDecision_eq_dec : EqDecision HumanDecision.
Proof. solve_decision. Defined.

(** Both [EscalationResponseData] and [InProcessEscalation]. *)
Record EscalationResponseData := {
  esc_decision : HumanDecision;
  esc_whitelistSelection : option Z;
}.

Definition ESCALATION_POLL_INTERVAL_MS : Z := 500.

Inductive IpcEvent := WriteRequest (path : string) | Unlink (path : string).

(** The request goes first. *)
Definition cleanupEscalationFiles (requestPath responsePath : string) : list IpcEvent :=
  [Unlink requestPath; Unlink responsePath].

Section ipc.
Context `{Runtime}.

Definition integer_of (v : jsvalue) : option Z :=
  match v with
  | VNum (JFin q) => if num_is_integer (JFin q) then Some (Qfloor q) else None
  | _ => None
  end.

(** [raw] of a parsed response: anything but an explicit decision is a denial. *)
Definition parseResponse (raw : object jsvalue) : EscalationResponseData :=
  let decision :=
    let d := get_value raw "decision" in
    if is_str d "approved" then Some Approved
    else if is_str d "denied" then Some Denied
    else None in
  match decision with
  | None => {| esc_decision := Denied; esc_whitelistSelection := None |}
  | Some d =>
      {| esc_decision := d;
         esc_whitelistSelection := integer_of (get_value raw "whitelistSelection") |}
  end.

(** The response file at a poll: [existsSync] is false, [readFileSync] gives a text, or it
    throws (no permission, a directory, a file that vanished in between). *)
Inductive ResponseFile := NoFile | FileText (text : string) | FileUnreadable (message : string).

Definition readEscalationResponse (file : ResponseFile) : result (option EscalationResponseData) :=
  match file with
  | NoFile => Ok None
  | FileUnreadable message => Throw message
  | FileText text =>
      match json_parse text with
      | None => Throw "SyntaxError"
      | Some VNull => Throw "TypeError"
      | Some raw => Ok (Some (parseResponse (default [] (as_object raw))))
      end
  end.

Section wait.
Variable clock : nat → Z.            (** [Date.now()] at the check of poll [i] *)
Variable file : nat → ResponseFile.  (** the response file at poll [i] *)
Variable write : option string.      (** the error of [atomicWriteJsonSync] on the request *)

Inductive PollOutcome :=
| PollAnswer (response : EscalationResponseData)
| PollError (msg : string)
| PollDeadline (i : nat)  (** the deadline passed before poll [i] *)
| PollOutOfFuel.

Fixpoint pollLoop (fuel i : nat) (deadline : Qc) : PollOutcome :=
  match fuel with
  | O => PollOutOfFuel
  | S fuel =>
      if bool_decide (Q2Qc (inject_Z (clock i)) < deadline)%Qc then
        match readEscalationResponse (file i) with
        | Throw e => PollError e
        | Ok (Some response) => PollAnswer response
        | Ok None => pollLoop fuel (S i) deadline
        end
      else PollDeadline i
  end.

(** The decision and the file operations, [None] when the fuel ran out. *)
Definition waitForEscalationDecision (fuel : nat) (start : Z) (timeoutMs : Qc)
    (requestPath responsePath : string)
    : option (list IpcEvent * result EscalationResponseData) :=
  let deadline := (Q2Qc (inject_Z start) + timeoutMs)%Qc in
  let cleanup := cleanupEscalationFiles requestPath responsePath in
  match write with
  | Some e => Some ([], Throw e)
  | None =>
      match pollLoop fuel 0 deadline with
      | PollOutOfFuel => None
      | PollError e => Some ([WriteRequest requestPath], Throw e)
      | PollAnswer response => Some (WriteRequest requestPath :: cleanup, Ok response)
      | PollDeadline i =>
          match readEscalationResponse (file i) with
          | Throw e => Some ([WriteRequest requestPath], Throw e)
          | Ok lateResponse =>
              Some (WriteRequest requestPath :: cleanup,
                    Ok (default {| esc_decision := Denied; esc_whitelistSelection := None |}
                          lateResponse))
          end
      end
  end.

(** ** Lemmas *)

(** The only content that approves. *)
Definition approves (text : string) : Prop :=
  ∃ raw o, json_parse text = Some raw ∧ as_object raw = Some o ∧
           get_value o "decision" = VStr "approved".

Lemma parseResponse_approved raw :
  esc_decision (parseResponse raw) = Approved → get_value raw "decision" = VStr "approved".
Proof.
  unfold parseResponse. rewrite <-is_str_spec. generalize (get_value raw "decision"). intros d.
  by destruct (is_str d "approved"), (is_str d "denied").
Qed.

Lemma readEscalationResponse_approved f r :
  readEscalationResponse f = Ok (Some r) → esc_decision r = Approved →
  ∃ text, f = FileText text ∧ approves text.
Proof.
  unfold readEscalationResponse. destruct f as [|text|]; [done| |done].
  destruct (json_parse text) as [raw|] eqn:Hj; [|done]. intros Hr Hd.
  exists text. split; [done|].
  assert (Hp : esc_decision (parseResponse (default [] (as_object raw))) = Approved)
    by (destruct raw; naive_solver).
  apply parseResponse_approved in Hp. exists raw.
  destruct (as_object raw) as [o|] eqn:Ho; [eauto|done].
Qed.

Lemma pollLoop_answer_bound fuel i deadline r :
  pollLoop fuel i deadline = PollAnswer r →
  ∃ j, j < i + fuel ∧ readEscalationResponse (file j) = Ok (Some r).
Proof.
  revert i. induction fuel as [|fuel IH]; intros i; cbn [pollLoop]; [done|].
  case_bool_decide; [|done]. destruct (readEscalationResponse (file i)) as [[r'|]|] eqn:Hr; [|..|done].
  - intros [= <-]. exists i. split; [lia|done].
  - intros (j & ? & ?)%IH. exists j. split; [lia|done].
Qed.

Lemma pollLoop_deadline_bound fuel i deadline j :
  pollLoop fuel i deadline = PollDeadline j → j < i + fuel.
Proof.
  revert i. induction fuel as [|fuel IH]; intros i; cbn [pollLoop]; [done|].
  case_bool_decide; [|intros [= <-]; lia].
  destruct (readEscalationResponse (file i)) as [[r'|]|]; [done|..|done].
  intros ?%IH. lia.
Qed.

Lemma Qc_of_Z_lt a b : (Q2Qc (inject_Z a) < Q2Qc (inject_Z b))%Qc → (a < b)%Z.
Proof. unfold Qclt. simpl. rewrite !Qred_correct. by rewrite <-Zlt_Qlt. Qed.

(** Every poll advances the clock, so the loop ends within the timeout. *)
Lemma pollLoop_terminates fuel i (deadline : Qc) (D : Z) :
  (∀ j, clock j + ESCALATION_POLL_INTERVAL_MS ≤ clock (S j))%Z →
  (deadline <= Q2Qc (inject_Z D))%Qc →
  (D ≤ clock i + ESCALATION_POLL_INTERVAL_MS * (Z.of_nat fuel - 1))%Z → 0 < fuel →
  pollLoop fuel i deadline ≠ PollOutOfFuel.
Proof.
  intros Hclock HD. revert i. induction fuel as [|fuel IH]; intros i Hf Hpos; [lia|]. cbn [pollLoop].
  case_bool_decide as Hlt; [|done].
  assert (Hi : (clock i < D)%Z) by (apply Qc_of_Z_lt; by eapply Qclt_le_trans).
  destruct (readEscalationResponse (file i)) as [[r|]|]; [done| |done].
  unfold ESCALATION_POLL_INTERVAL_MS in *. specialize (Hclock i).
  apply IH; lia.
Qed.

(** Polls that suffice for a timeout. *)
Definition enough_fuel (timeoutMs : Qc) : nat :=
  S (S (Z.to_nat (Qceiling timeoutMs / ESCALATION_POLL_INTERVAL_MS + 1))).

Lemma deadline_le_ceiling (start : Z) (timeoutMs : Qc) :
  (Q2Qc (inject_Z start) + timeoutMs <= Q2Qc (inject_Z (start + Qceiling timeoutMs)))%Qc.
Proof.
  unfold Qcle, Qcplus. simpl. rewrite !Qred_correct, inject_Z_plus.
  apply Qplus_le_r, Qle_ceiling.
Qed.

Lemma wait_terminates start timeoutMs requestPath responsePath :
  (∀ j, clock j + ESCALATION_POLL_INTERVAL_MS ≤ clock (S j))%Z → (start ≤ clock 0)%Z →
  waitForEscalationDecision (enough_fuel timeoutMs) start timeoutMs requestPath responsePath ≠ None.
Proof.
  intros Hclock Hstart. unfold waitForEscalationDecision. destruct write; [done|].
  pose proof (pollLoop_terminates (enough_fuel timeoutMs) 0 _ _ Hclock
    (deadline_le_ceiling start timeoutMs)) as Ht.
  destruct (pollLoop _ _ _) as [r|msg|i|]; [done|done|by destruct (readEscalationResponse _)|].
  destruct Ht; [|unfold enough_fuel; lia|done].
  unfold enough_fuel, ESCALATION_POLL_INTERVAL_MS.
  pose proof (Z.mod_pos_bound (Qceiling timeoutMs) 500 ltac:(lia)).
  pose proof (Z.div_mod (Qceiling timeoutMs) 500 ltac:(lia)).
  set (q := (Qceiling timeoutMs / 500)%Z) in *.
  destruct (decide (0 ≤ q + 1)%Z).
  - rewrite Nat2Z.inj_succ, Nat2Z.inj_succ, Z2Nat.id by done. lia.
  - replace (Z.to_nat (q + 1)) with 0 by lia. lia.
Qed.
End wait.
End ipc.
