(* ===== verification/AutoApprover.v ===== *)
(** * The auto-approver

    Models src/trusted-process/auto-approver.ts.  The language model is the
    environment: [generateText] gives its structured output, or throws. *)

From Stdlib Require Import Ascii.
From S2P Require Import Prelude JsValue Paths Urls Roles Domains PolicyTypes Hashing Tools.

Inductive AutoApproveDecision := AutoApprove | AutoEscalate.

#[export] Instance AutoApproveDecision_eq_dec : EqDecision AutoApproveDecision.
Proof. solve_decision. Defined.

Record AutoApproveContext := {
  aa_userMessage : string;
  aa_toolName : string;
  aa_escalationReason : string;
  aa_arguments : option (object string);
}.

Record AutoApproveResult := { aa_decision : AutoApproveDecision; aa_reasoning : string }.

(** Control characters: C0, DEL and C1. *)
Definition is_control (a : ascii) : bool :=
  let n := nat_of_ascii a in ((n <=? 31) || ((127 <=? n) && (n <=? 159)))%nat.

Fixpoint strip_control (s : string) : string :=
  match s with
  | "" => ""
  | String a s => if is_control a then strip_control s else String a (strip_control s)
  end.

Definition MAX_LENGTH : nat := 200.

Definition sanitizeForPrompt (value : string) : string :=
  let cleaned := strip_control value in
  if (MAX_LENGTH <? String.length cleaned)%nat then str_take MAX_LENGTH cleaned +:+ "..."
  else cleaned.

(** [buildUserPrompt] *)
Definition buildUserPrompt (context : AutoApproveContext) : string :=
  let prompt := "Human's most recent message: " +:+ quoted (aa_userMessage context)
    +:+ newline +:+ newline
    +:+ "Escalated tool: " +:+ aa_toolName context +:+ newline
    +:+ "Reason for escalation: " +:+ aa_escalationReason context in
  let args :=
    match aa_arguments context with
    | Some (_ :: _ as l) =>
        newline +:+ newline +:+ "Tool arguments (resource identifiers only):" +:+ newline
        +:+ str_join newline ((λ e, "  " +:+ e.1 +:+ ": " +:+ e.2) <$> l)
    | _ => ""
    end in
  prompt +:+ args +:+ newline +:+ newline +:+ "Decision:".

Section approver.
Context `{FileSystem} `{UrlParser} `{Runtime}.

(** The value of one argument for the prompt, if it is shown. *)
Definition promptArg (annotation : ToolAnnotation) (argName : string) (value : jsvalue)
    : option string :=
  match obj_get (ta_args annotation) argName with
  | None | Some [] => None
  | Some (role :: _) =>
      let def := roleDef role in
      if negb (isResourceIdentifier def) then None
      else
        let stringValue :=
          match value with
          | VArr _ =>
              match value_strings value with [] => None | strings => Some (str_join ", " strings) end
          | VStr s => Some s
          | _ => None
          end in
        match stringValue with
        | None => None
        | Some s =>
            Some (sanitizeForPrompt
              (if category def =? CatUrl then extractDomainForRole s role else s))
        end
  end.

Definition extractArgsForAutoApprove (argsForPolicy : object jsvalue)
    (annotation : option ToolAnnotation) : option (object string) :=
  match annotation with
  | None => None
  | Some annotation =>
      let result := foldl (λ result e,
        match promptArg annotation e.1 e.2 with
        | Some s => obj_set result e.1 s
        | None => result
        end) [] argsForPolicy in
      if length (obj_keys result) =? 0 then None else Some result
  end.

(** [generateText] with the response schema: [Ok None] is a missing output. *)
Definition autoApprove (context : AutoApproveContext)
    (generateText : string → result (option AutoApproveResult)) : AutoApproveResult :=
  if str_trim (aa_userMessage context) =? "" then
    {| aa_decision := AutoEscalate; aa_reasoning := "Empty user message; escalating to human" |}
  else
    match generateText (buildUserPrompt context) with
    | Ok None =>
        {| aa_decision := AutoEscalate;
           aa_reasoning := "Auto-approver returned invalid response; escalating to human" |}
    | Ok (Some parsed) => parsed
    | Throw message =>
        {| aa_decision := AutoEscalate;
           aa_reasoning := "Auto-approver error: " +:+ message +:+ "; escalating to human" |}
    end.

Definition value_string (v : jsvalue) : option string :=
  match v with VStr s => Some s | _ => None end.

(** [file] is the content of user-context.json, [None] when it cannot be read. *)
Definition readUserContext (file : option string) : option UserContext :=
  match file ≫= json_parse with
  | None => None
  | Some data =>
      match data with
      | VNull | VUndefined => None
      | _ =>
          let o := default [] (as_object data) in
          match get_value o "userMessage" with
          | VStr userMessage =>
              if str_trim userMessage =? "" then None
              else Some {| uc_userMessage := userMessage;
                           uc_source := value_string (get_value o "source");
                           uc_timestamp := value_string (get_value o "timestamp") |}
          | _ => None
          end
      end
  end.
End approver.

(** ** Lemmas *)

Lemma strip_control_clean s : str_forallb (λ a, negb (is_control a)) (strip_control s) = true.
Proof.
  induction s as [|a s IH]; cbn [strip_control]; [done|].
  destruct (is_control a) eqn:Ha; [done|]. cbn [str_forallb]. by rewrite Ha, IH.
Qed.

Lemma sanitizeForPrompt_spec s :
  str_forallb (λ a, negb (is_control a)) (sanitizeForPrompt s) = true ∧
  String.length (sanitizeForPrompt s) ≤ 203.
Proof.
  unfold sanitizeForPrompt. pose proof (strip_control_clean s) as Hc.
  destruct (MAX_LENGTH <? _)%nat eqn:Hl.
  - rewrite str_forallb_app, str_forallb_take, str_length_app, str_length_take by done.
    split; [done|]. apply Nat.ltb_lt in Hl. rewrite Nat.min_l by lia. done.
  - apply Nat.ltb_ge in Hl. unfold MAX_LENGTH in Hl. split; [done|lia].
Qed.

Lemma promptArg_spec `{FileSystem} `{UrlParser} `{Runtime} annotation k v s :
  promptArg annotation k v = Some s →
  ∃ role roles, obj_get (ta_args annotation) k = Some (role :: roles) ∧
    isResourceIdentifier (roleDef role) = true ∧
    str_forallb (λ a, negb (is_control a)) s = true ∧ String.length s ≤ 203.
Proof.
  unfold promptArg. destruct (obj_get _ k) as [[|role roles]|]; [done| |done].
  destruct (isResourceIdentifier _) eqn:Hid; [|done]. simpl. intros Hs.
  exists role, roles. split; [done|]. split; [done|].
  case_match; [|done]. simplify_eq. apply sanitizeForPrompt_spec.
Qed.

Lemma elem_of_prompt_args `{FileSystem} `{UrlParser} `{Runtime} annotation args shown k s :
  obj_get (foldl (λ result e,
    match promptArg annotation e.1 e.2 with
    | Some s => obj_set result e.1 s
    | None => result
    end) shown args) k = Some s →
  obj_get shown k = Some s ∨ ∃ v, (k, v) ∈ args ∧ promptArg annotation k v = Some s.
Proof.
  revert shown. induction args as [|[k' v'] args IH]; intros shown; simpl; [by left|].
  intros [Hs|(v & ? & ?)]%IH; [|right; exists v; set_solver].
  destruct (promptArg annotation k' v') as [s'|] eqn:Hp; [|by left].
  rewrite obj_get_set in Hs. case_bool_decide; [|by left]. simplify_eq.
  right. exists v'. split; [left|done].
Qed.
