(* ===== verification/ProxyTools.v ===== *)
(** * The virtual proxy tools

    Models src/docker/proxy-tools.ts: the domain management tools, their
    hard-coded annotations and rules, domain validation, and the dispatch to the
    control API.  The control API is reached over HTTP: [ControlApi] is what the
    sources use of it. *)

From Stdlib Require Import Ascii.
From S2P Require Import Prelude JsValue Paths Urls Roles PolicyTypes Tools.

(** ** Domain validation *)

Definition is_alnum (a : ascii) : bool := is_digit a || in_range 65 90 a || in_range 97 122 a.

Definition is_label_char (a : ascii) : bool := is_alnum a || (nat_of_ascii a =? 45).

(** [[a-z0-9]([a-z0-9-]*[a-z0-9])?], ignoring case *)
Definition is_label (s : string) : bool :=
  match chars s with
  | [] => false
  | a :: l => is_alnum a && forallb is_label_char l && is_alnum (List.last l a)
  end.

(** [DOMAIN_RE]: at least two labels. *)
Definition DOMAIN_RE (domain : string) : bool :=
  let labels := split_on (ascii_of_nat 46) domain in
  (1 <? length labels)%nat && forallb is_label labels.

(** [IP_RE]: four groups of one to three digits. *)
Definition IP_RE (domain : string) : bool :=
  let groups := split_on (ascii_of_nat 46) domain in
  (length groups =? 4) &&
  forallb (λ g, str_forallb is_digit g && (1 <=? String.length g)%nat && (String.length g <=? 3)%nat)
    groups.

Definition DOCKER_INTERNAL_SUFFIX : string := ".docker.internal".

Definition validateDomain (domain : string) : result unit :=
  if (253 <? String.length domain)%nat then
    Throw ("Domain too long (" +:+ show_nat (String.length domain) +:+ " > 253)")
  else if toLowerCase domain =? "localhost" then Throw ("Blocked host: " +:+ quoted domain)
  else if negb (DOMAIN_RE domain) then Throw ("Invalid domain format: " +:+ quoted domain)
  else if IP_RE domain then Throw ("IP addresses are not allowed: " +:+ quoted domain)
  else if endsWith (toLowerCase domain) DOCKER_INTERNAL_SUFFIX then
    Throw ("Blocked host: " +:+ quoted domain +:+ " (*.docker.internal is not allowed)")
  else Ok ().

(** ** Definitions, annotations, rules *)

Definition string_property (description : string) : jsvalue :=
  VObj [("type", VStr "string"); ("description", VStr description)].

Definition add_schema : object jsvalue :=
  [("type", VStr "object");
   ("properties", VObj [
      ("domain", string_property
         ("The exact domain name to allow (e.g., " +:+ quoted "api.example.com"
          +:+ "). No wildcards."));
      ("justification", string_property
         ("Explanation of why this domain is needed for the current task. "
          +:+ "This text is shown to the human reviewer."))]);
   ("required", VArr [VStr "domain"; VStr "justification"])].

Definition remove_schema : object jsvalue :=
  [("type", VStr "object");
   ("properties", VObj [("domain", string_property "The domain name to remove.")]);
   ("required", VArr [VStr "domain"])].

Definition list_schema : object jsvalue :=
  [("type", VStr "object"); ("properties", VObj [])].

Definition proxyToolDefinitions : list (string * string * object jsvalue) := [
  ("add_proxy_domain",
   "Request access to an additional internet domain through the network proxy. "
   +:+ "This will be reviewed by a human before being granted. "
   +:+ "Provide a clear justification for why the domain is needed.", add_schema);
  ("remove_proxy_domain",
   "Remove a previously approved domain from the proxy allowlist. "
   +:+ "Only dynamically added domains can be removed; built-in provider domains cannot.",
   remove_schema);
  ("list_proxy_domains",
   "List all domains currently accessible through the network proxy. "
   +:+ "Includes both built-in provider domains and dynamically added domains.", list_schema)].

Definition proxyAnnotation (tool comment : string) (args : object ArgumentRoleSpec)
    (schema : object jsvalue) : StoredToolAnnotation :=
  {| sa_toolName := tool; sa_serverName := "proxy"; sa_comment := comment; sa_args := args;
     sa_inputSchema := schema |}.

Definition proxyAnnotations : list StoredToolAnnotation := [
  proxyAnnotation "add_proxy_domain" "Add a domain to the MITM proxy allowlist"
    [("domain", SpecStatic [ProxyDomain]); ("justification", SpecStatic [RoleNone])] add_schema;
  proxyAnnotation "remove_proxy_domain" "Remove a domain from the MITM proxy allowlist"
    [("domain", SpecStatic [ProxyDomain])] remove_schema;
  proxyAnnotation "list_proxy_domains" "List currently allowed proxy domains" [] list_schema].

Definition proxyRule (name description principle tool : string) (d : Decision) (reason : string)
    : CompiledRule :=
  {| r_name := name; r_description := description; r_principle := principle;
     r_if := {| c_roles := None; c_server := Some ["proxy"]; c_tool := Some [tool];
                c_paths := None; c_domains := None; c_lists := None |};
     r_then := d; r_reason := reason |}.

Definition proxyPolicyRules : list CompiledRule := [
  proxyRule "proxy-add-domain-escalate" "Adding network domains requires human review"
    "Human oversight" "add_proxy_domain" Escalate
    "Adding network domains expands the container attack surface and requires human review";
  proxyRule "proxy-remove-domain-allow" "Removing domains reduces attack surface"
    "Least privilege" "remove_proxy_domain" Allow "Removing domains reduces the attack surface";
  proxyRule "proxy-list-domains-allow" "Listing domains is a read-only operation"
    "Least privilege" "list_proxy_domains" Allow "Read-only operation with no side effects"].

(** ** The handler *)

Inductive ControlRequest :=
| AddDomain (domain : string)
| RemoveDomain (domain : string)
| ListDomains.

(** What the control API answers: for [addDomain] and [removeDomain] whether it
    [added] or [removed], for [listDomains] the listing; or it throws. *)
Record ControlApi := {
  addDomain : string → result bool;
  removeDomain : string → result bool;
  listDomains : result jsvalue;
}.

Definition requireStringArg (args : object jsvalue) (name : string) : result string :=
  match get_value args name with
  | VStr "" => Throw ("Missing or invalid required argument: " +:+ name)
  | VStr s => Ok s
  | _ => Throw ("Missing or invalid required argument: " +:+ name)
  end.

Definition status_object (fields : list (string * string)) : jsvalue :=
  VObj (prod_map id VStr <$> fields).

(** The requests sent, in order, and the result. *)
Definition handleVirtualProxyTool (toolName : string) (args : object jsvalue) (client : ControlApi)
    : list ControlRequest * result jsvalue :=
  if toolName =? "add_proxy_domain" then
    match (domain ← requireStringArg args "domain";
           _ ← requireStringArg args "justification";
           _ ← validateDomain domain; Ok domain) with
    | Throw e => ([], Throw e)
    | Ok domain =>
        ([AddDomain domain],
         added ← addDomain client domain;
         if negb added
         then Ok (status_object [("status", "already_accessible");
                ("message", "Domain is already accessible (built-in provider)")])
         else Ok (status_object [("status", "added"); ("domain", domain)]))
    end
  else if toolName =? "remove_proxy_domain" then
    match requireStringArg args "domain" with
    | Throw e => ([], Throw e)
    | Ok domain =>
        ([RemoveDomain domain],
         removed ← removeDomain client domain;
         Ok (status_object [("status", if removed : bool then "removed" else "not_found");
                            ("domain", domain)]))
    end
  else if toolName =? "list_proxy_domains" then ([ListDomains], listDomains client)
  else ([], Throw ("Unknown virtual proxy tool: " +:+ toolName)).

(** ** Lemmas *)

Lemma validateDomain_ok domain :
  validateDomain domain = Ok () →
  String.length domain ≤ 253 ∧ DOMAIN_RE domain = true ∧ IP_RE domain = false ∧
  toLowerCase domain ≠ "localhost" ∧ endsWith (toLowerCase domain) DOCKER_INTERNAL_SUFFIX = false.
Proof.
  unfold validateDomain. destruct (253 <? String.length domain)%nat eqn:Hl; [done|].
  apply Nat.ltb_ge in Hl. case_bool_decide; [done|].
  destruct (DOMAIN_RE domain), (IP_RE domain), (endsWith _ _); done.
Qed.
