(* ===== verification/Redactor.v ===== *)
(** * The audit redactor

    Models src/trusted-process/audit-redactor.ts.  Its three regular expressions
    are written in a small regular expression language whose matcher gives the
    results of a backtracking engine in order of preference, so the first result
    is the match that [String.prototype.replace] sees. *)

From Stdlib Require Import Ascii.
From S2P Require Import Prelude JsValue Paths Urls.

(** ** Regular expressions *)

Inductive regex :=
| Chr (p : ascii → bool)                     (** one character of a class *)
| Boundary                                   (** a word boundary *)
| Eps
| Cat (r1 r2 : regex)
| Alt (r1 r2 : regex)
| Rep (r : regex) (least : nat) (more : option nat).
(** [Rep r n (Some m)]: greedy, [n] to [n + m] times; [None]: no upper bound. *)

(** A position: the character before it and the rest of the text. *)
Definition position : Type := option ascii * string.

Definition word_at (a : option ascii) : bool := default false (is_word <$> a).

Definition next_char (s : string) : option ascii :=
  match s with "" => None | String a _ => Some a end.

Definition at_boundary (p : position) : bool := xorb (word_at p.1) (word_at (next_char p.2)).

Section repetition.
Variable step : position → list position.

Fixpoint exactly (n : nat) (p : position) : list position :=
  match n with O => [p] | S n => step p ≫= exactly n end.

Fixpoint up_to (n : nat) (p : position) : list position :=
  match n with O => [p] | S n => (step p ≫= up_to n) ++ [p] end.
End repetition.

(** Where a match that starts at [p] may end, the preferred end first.  Repeated
    expressions consume a character, so the length of the text bounds an unbounded
    repetition. *)
Fixpoint ends (r : regex) (p : position) : list position :=
  match r with
  | Chr c =>
      match p.2 with
      | String a rest => if c a then [(Some a, rest)] else []
      | "" => []
      end
  | Boundary => if at_boundary p then [p] else []
  | Eps => [p]
  | Cat r1 r2 => ends r1 p ≫= ends r2
  | Alt r1 r2 => ends r1 p ++ ends r2 p
  | Rep r n m =>
      exactly (ends r) n p ≫= λ q, up_to (ends r) (default (String.length q.2) m) q
  end.

(** The length of the match at a position, if there is one. *)
Definition match_length (r : regex) (p : position) : option nat :=
  (λ q, String.length p.2 - String.length q.2) <$> ends r p !! 0.

(** [s.replace(r, f)] with a global expression: [skip] characters of the current
    match are still to be dropped. *)
Fixpoint replace_loop (r : regex) (f : string → string) (skip : nat) (prev : option ascii)
    (s : string) : string :=
  match s with
  | "" => ""
  | String a rest =>
      match skip with
      | S skip => replace_loop r f skip (Some a) rest
      | O =>
          match match_length r (prev, s) with
          | Some (S n) => f (str_take (S n) s) +:+ replace_loop r f n (Some a) rest
          | _ => String a (replace_loop r f 0 (Some a) rest)
          end
      end
  end.

Definition replace_all (r : regex) (f : string → string) (s : string) : string :=
  replace_loop r f 0 None s.

Fixpoint literal (s : string) : regex :=
  match s with "" => Eps | String a s => Cat (Chr (λ b, b =? a)) (literal s) end.

Fixpoint one_of (rs : list regex) : regex :=
  match rs with [] => Chr (λ _, false) | [r] => r | r :: rs => Alt r (one_of rs) end.

Definition digit : regex := Chr is_digit.
Definition separator : regex := Rep (Chr (λ a, (a =? " "%char) || (a =? "-"%char))) 0 (Some 1).
Definition times (r : regex) (n : nat) : regex := Rep r n (Some 0).

Definition is_upper_or_digit (a : ascii) : bool := is_digit a || in_range 65 90 a.
Definition is_alnum (a : ascii) : bool := is_upper_or_digit a || in_range 97 122 a.

Definition CREDIT_CARD_RE : regex :=
  Cat Boundary (Cat digit (Cat (Rep (Cat separator digit) 12 (Some 6)) Boundary)).

Definition SSN_RE : regex :=
  Cat Boundary (Cat (times digit 3) (Cat separator
    (Cat (times digit 2) (Cat separator (Cat (times digit 4) Boundary))))).

Definition API_KEY_RE : regex :=
  Cat Boundary (Cat (one_of [
    Cat (literal "sk-") (Rep (Chr is_alnum) 20 None);
    Cat (literal "ghp_") (times (Chr is_alnum) 36);
    Cat (literal "xoxb-") (Rep (Chr (λ a, is_alnum a || (a =? "-"%char))) 20 None);
    Cat (literal "xoxp-") (Rep (Chr (λ a, is_alnum a || (a =? "-"%char))) 20 None);
    Cat (literal "AKIA") (times (Chr is_upper_or_digit) 16)]) Boundary).

(** ** Luhn checksum *)

Definition digit_value (a : ascii) : nat := nat_of_ascii a - 48.

(** The sum from the last digit on; [alt] doubles the digit. *)
Fixpoint luhn_sum (alt : bool) (reversed : list ascii) : nat :=
  match reversed with
  | [] => 0
  | a :: l =>
      let n := digit_value a in
      (if alt then if (9 <? 2 * n)%nat then 2 * n - 9 else 2 * n else n) + luhn_sum (negb alt) l
  end.

Definition luhnCheck (digits : string) : bool :=
  if (digits =? "") || negb (str_forallb is_digit digits) then false
  else luhn_sum false (rev (chars digits)) mod 10 =? 0.

(** ** Redaction *)

Fixpoint only_digits (s : string) : string :=
  match s with
  | "" => ""
  | String a s => if is_digit a then String a (only_digits s) else only_digits s
  end.

Fixpoint stars (n : nat) : string := match n with O => "" | S n => String "*" (stars n) end.

(** [s.slice(-n)] *)
Definition str_last (n : nat) (s : string) : string := str_drop (String.length s - n) s.

Definition redactCreditCard (raw : string) : string :=
  let digits := only_digits raw in
  if (String.length digits <=? 8)%nat then stars (String.length digits)
  else str_take 4 digits +:+ " " +:+ stars (String.length digits - 8) +:+ " " +:+ str_last 4 digits.

Definition redactSsn (serial : string) : string := "***-**-" +:+ serial.

Definition redactApiKey (raw : string) : string :=
  if (8 <? String.length raw)%nat then str_take 4 raw +:+ "..." +:+ str_last 4 raw
  else str_take 4 raw +:+ "...".

Definition INVALID_SSN_AREAS : list string := ["000"; "666"].

(** The replacers of the three passes. *)
Definition cardReplacer (found : string) : string :=
  let digits := only_digits found in
  if (String.length digits <? 13)%nat || (19 <? String.length digits)%nat then found
  else if negb (luhnCheck digits) then found
  else redactCreditCard found.

(** The groups of a match are its first three, next two and last four digits. *)
Definition ssnReplacer (found : string) : string :=
  let digits := only_digits found in
  let area := str_take 3 digits in
  let group := str_take 2 (str_drop 3 digits) in
  let serial := str_drop 5 digits in
  if includes INVALID_SSN_AREAS area then found
  else if startsWith area "9" then found
  else if group =? "00" then found
  else if serial =? "0000" then found
  else redactSsn serial.

(** [redactString(text).redacted] *)
Definition redactString (text : string) : string :=
  let result := replace_all CREDIT_CARD_RE cardReplacer text in
  let result := replace_all SSN_RE ssnReplacer result in
  replace_all API_KEY_RE redactApiKey result.

(** ** Global replacement *)

(** The reference semantics of a global replacement: scanning from the left, each
    match is replaced and skipped as a whole, every other character is kept.  The
    first index is the character before the text. *)
Inductive rewritten (r : regex) (f : string → string) : option ascii → string → string → Prop :=
| rewritten_nil prev : rewritten r f prev "" ""
| rewritten_char prev a s t :
    match_length r (prev, String a s) = None →
    rewritten r f (Some a) s t → rewritten r f prev (String a s) (String a t)
| rewritten_match prev a m s t :
    match_length r (prev, String a m +:+ s) = Some (String.length (String a m)) →
    rewritten r f (Some (List.last (chars m) a)) s t →
    rewritten r f prev (String a m +:+ s) (f (String a m) +:+ t).

(** The characters every match consumes. *)
Fixpoint width (r : regex) : nat :=
  match r with
  | Chr _ => 1
  | Boundary | Eps => 0
  | Cat r1 r2 => width r1 + width r2
  | Alt r1 r2 => width r1 `min` width r2
  | Rep r n _ => n * width r
  end.

(** [q] is reached from [p] after at least [w] characters. *)
Definition advances (w : nat) (p q : position) : Prop :=
  w + String.length q.2 ≤ String.length p.2.

Lemma exactly_advances step w n p q :
  (∀ p q, q ∈ step p → advances w p q) → q ∈ exactly step n p → advances (n * w) p q.
Proof.
  intros Hstep. unfold advances in *. revert p. induction n as [|n IH]; intros p; simpl.
  - intros ->%list_elem_of_singleton. lia.
  - intros (x & Hq & Hx)%list_elem_of_bind. apply Hstep in Hx. apply IH in Hq. lia.
Qed.

Lemma up_to_advances step n p q :
  (∀ p q, q ∈ step p → advances 0 p q) → q ∈ up_to step n p → advances 0 p q.
Proof.
  intros Hstep. unfold advances in *. revert p. induction n as [|n IH]; intros p; simpl.
  - intros ->%list_elem_of_singleton. lia.
  - rewrite elem_of_app, list_elem_of_singleton. intros [(x & Hq & Hx)%list_elem_of_bind| ->]; [|lia].
    apply Hstep in Hx. apply IH in Hq. lia.
Qed.

Lemma ends_advances r p q : q ∈ ends r p → advances (width r) p q.
Proof.
  revert p q. induction r as [c| | |r1 IH1 r2 IH2|r1 IH1 r2 IH2|r IH n m]; intros p q;
    cbn [ends width].
  - unfold advances. destruct p as [prev [|a s]]; simpl; [by intros ?%not_elem_of_nil|].
    destruct (c a); [|by intros ?%not_elem_of_nil]. intros ->%list_elem_of_singleton. simpl. lia.
  - destruct (at_boundary p); [|by intros ?%not_elem_of_nil].
    intros ->%list_elem_of_singleton. unfold advances. lia.
  - intros ->%list_elem_of_singleton. unfold advances. lia.
  - intros (x & Hq & Hx)%list_elem_of_bind. apply IH1 in Hx. apply IH2 in Hq.
    unfold advances in *. lia.
  - intros [Hq|Hq]%elem_of_app; [apply IH1 in Hq|apply IH2 in Hq]; unfold advances in *; lia.
  - intros (x & Hq & Hx)%list_elem_of_bind.
    apply (exactly_advances _ (width r)) in Hx; [|done].
    apply up_to_advances in Hq; [unfold advances in *; lia|].
    intros p' q' Hq'. apply IH in Hq'. unfold advances in *. lia.
Qed.

(** The characters that an expression consumes are in a class. *)
Fixpoint consumes (c : ascii → bool) (r : regex) : Prop :=
  match r with
  | Chr d => ∀ a, d a = true → c a = true
  | Boundary | Eps => True
  | Cat r1 r2 | Alt r1 r2 => consumes c r1 ∧ consumes c r2
  | Rep r _ _ => consumes c r
  end.

Lemma consumes_any r : consumes (λ _, true) r.
Proof. by induction r. Qed.

(** What is left after a match is a suffix of the text, what is before it is in the class. *)
Definition suffix_at (c : ascii → bool) (p q : position) : Prop := ∃ s, p.2 = s +:+ q.2 ∧ str_forallb c s = true.

Lemma suffix_at_refl c p : suffix_at c p p.
Proof. by exists ""%string. Qed.

Lemma suffix_at_trans c p q r : suffix_at c p q → suffix_at c q r → suffix_at c p r.
Proof.
  intros (s & Hs & Hc) (t & Ht & Hd). exists (s +:+ t). by rewrite Hs, Ht, str_app_assoc, str_forallb_app, Hc, Hd.
Qed.

Lemma exactly_suffix c step n p q :
  (∀ p q, q ∈ step p → suffix_at c p q) → q ∈ exactly step n p → suffix_at c p q.
Proof.
  intros Hstep. revert p. induction n as [|n IH]; intros p; simpl.
  - intros ->%list_elem_of_singleton. apply suffix_at_refl.
  - intros (x & Hq & Hx)%list_elem_of_bind. eapply suffix_at_trans; [by apply Hstep|by apply IH].
Qed.

Lemma up_to_suffix c step n p q :
  (∀ p q, q ∈ step p → suffix_at c p q) → q ∈ up_to step n p → suffix_at c p q.
Proof.
  intros Hstep. revert p. induction n as [|n IH]; intros p; simpl.
  - intros ->%list_elem_of_singleton. apply suffix_at_refl.
  - rewrite elem_of_app, list_elem_of_singleton. intros [(x & Hq & Hx)%list_elem_of_bind| ->]; [|apply suffix_at_refl].
    eapply suffix_at_trans; [by apply Hstep|by apply IH].
Qed.

Lemma ends_suffix c r p q : consumes c r → q ∈ ends r p → suffix_at c p q.
Proof.
  revert p q. induction r as [d| | |r1 IH1 r2 IH2|r1 IH1 r2 IH2|r IH n m]; intros p q Hc; cbn [ends].
  - destruct p as [prev [|a s]]; simpl; [by intros ?%not_elem_of_nil|].
    destruct (d a) eqn:Hd; [|by intros ?%not_elem_of_nil]. intros ->%list_elem_of_singleton. exists (String a "").
    split; [done|]. cbn. by rewrite Hc.
  - destruct (at_boundary p); [|by intros ?%not_elem_of_nil].
    intros ->%list_elem_of_singleton. apply suffix_at_refl.
  - intros ->%list_elem_of_singleton. apply suffix_at_refl.
  - destruct Hc. intros (x & Hq & Hx)%list_elem_of_bind. eapply suffix_at_trans; [by apply IH1|by apply IH2].
  - destruct Hc. intros [Hq|Hq]%elem_of_app; [by apply IH1|by apply IH2].
  - cbn in Hc. intros (x & Hq & Hx)%list_elem_of_bind.
    eapply suffix_at_trans; [eapply exactly_suffix, Hx; eauto|eapply up_to_suffix, Hq; eauto].
Qed.

(** A repeated class matches every text of the class. *)
Lemma class_ends c s t prev :
  str_forallb c s = true → ∃ prev', (prev', t) ∈ ends (Rep (Chr c) 0 None) (prev, s +:+ t).
Proof.
  intros Hs. assert (∀ n, String.length s ≤ n → ∃ prev', (prev', t) ∈ up_to (ends (Chr c)) n (prev, s +:+ t)) as H.
  { revert prev Hs. induction s as [|a s IH]; intros prev Hs n Hn.
    - exists prev. destruct n; cbn [up_to]; [by left|]. apply elem_of_app. right. by left.
    - destruct n as [|n]; [cbn in Hn; lia|]. cbn [str_forallb] in Hs. apply andb_true_iff in Hs as [Ha Hs].
      destruct (IH (Some a) Hs n ltac:(cbn in Hn; lia)) as [prev' Hin]. exists prev'. cbn [up_to]. apply elem_of_app. left.
      apply list_elem_of_bind. exists (Some a, s +:+ t). split; [done|]. rewrite str_app_cons. cbn [ends snd]. rewrite Ha. by left. }
  destruct (H (String.length (s +:+ t))) as [prev' Hin]; [rewrite str_length_app; lia|].
  exists prev'. cbn [ends exactly]. apply list_elem_of_bind. exists (prev, s +:+ t). split; [|by left]. done.
Qed.

Lemma match_length_bound r p n :
  match_length r p = Some n → width r ≤ n ≤ String.length p.2.
Proof.
  unfold match_length. destruct (ends r p) as [|q l] eqn:He; [done|]. intros [= <-].
  assert (advances (width r) p q) as Ha by (apply ends_advances; rewrite He; left).
  unfold advances in Ha. lia.
Qed.

Lemma last_default (x : ascii) l a b : List.last (x :: l) a = List.last (x :: l) b.
Proof. revert x. induction l as [|y l IH]; intros x; [done|]. apply (IH y). Qed.

Lemma replace_loop_skip r f m a s :
  replace_loop r f (String.length m) (Some a) (m +:+ s) =
  replace_loop r f 0 (Some (List.last (chars m) a)) s.
Proof.
  revert a. induction m as [|b m IH]; intros a; [done|].
  rewrite str_app_cons. cbn [replace_loop String.length]. rewrite IH.
  f_equal. f_equal. destruct m as [|c m]; [done|]. apply (last_default c).
Qed.

Lemma replace_rewritten r f prev s :
  0 < width r → rewritten r f prev s (replace_loop r f 0 prev s).
Proof.
  intros Hw. remember (String.length s) as n eqn:Hn. revert prev s Hn.
  induction n as [n IH] using lt_wf_ind. intros prev [|a s] ->; [constructor|].
  cbn [replace_loop].
  destruct (match_length r (prev, String a s)) as [[|k]|] eqn:Hm.
  - apply match_length_bound in Hm. lia.
  - pose proof (match_length_bound _ _ _ Hm) as [_ Hk]. cbn [snd String.length] in Hk.
    cbn [str_take]. rewrite <-(str_take_drop k s) in Hm |- * at 1.
    assert (Hlen : String.length (str_take k s) = k)
      by (rewrite str_length_take; lia).
    replace (replace_loop r f k (Some a) s)
      with (replace_loop r f 0 (Some (List.last (chars (str_take k s)) a)) (str_drop k s)).
    + apply (rewritten_match r f prev a (str_take k s)).
      * cbn [String.length]. rewrite Hlen. exact Hm.
      * eapply IH; [|done]. rewrite str_length_drop. simpl. lia.
    + rewrite <-replace_loop_skip by done. by rewrite Hlen, str_take_drop.
  - constructor; [done|]. eapply IH; [|done]. simpl. lia.
Qed.
