(* ===== verification/AuditLog.v ===== *)
(** * The audit log

    Models src/trusted-process/audit-log.ts, the deep redaction of
    src/trusted-process/audit-redactor.ts and src/types/audit.ts.  The file
    system's answer to an append is the environment's. *)

From S2P Require Import Prelude JsValue PolicyTypes EscalationIpc Redactor.

Inductive AuditStatus := AuditSuccess | AuditDenied | AuditError.

#[export] Instance AuditStatus_eq_dec : EqDecision AuditStatus.
Proof. solve_decision. Defined.

Record AuditResult := {
  ar_status : AuditStatus;
  ar_content : option jsvalue;
  ar_error : option string;
}.

Record AuditEntry := {
  ae_timestamp : string;
  ae_requestId : string;
  ae_serverName : string;
  ae_toolName : string;
  ae_arguments : object jsvalue;
  ae_policyDecision : PolicyDecision;
  ae_escalationResult : option HumanDecision;
  ae_result : AuditResult;
  ae_durationMs : Z;
  ae_sandboxed : option bool;
  ae_autoApproved : option bool;
  ae_whitelistApproved : option bool;
  ae_whitelistPatternId : option string;
  ae_persona : option string;
}.

(** The log: the lines on disk, and the two flags of the class. *)
Record AuditLog := {
  al_redact : bool;
  al_closed : bool;
  al_streamError : option string;
  al_lines : list AuditEntry;
}.

(** The constructor, with the error of [mkdirSync], if any. *)
Definition newAuditLog (redact : option bool) (mkdirError : option string) : AuditLog :=
  {| al_redact := default false redact; al_closed := false; al_streamError := mkdirError;
     al_lines := [] |}.

Fixpoint redactObject (obj : jsvalue) : jsvalue :=
  match obj with
  | VStr s => VStr (redactString s)
  | VArr l => VArr (redactObject <$> l)
  | VObj o => VObj ((λ e, (e.1, redactObject e.2)) <$> o)
  | _ => obj
  end.

Definition redactArguments (args : object jsvalue) : object jsvalue :=
  (λ e, (e.1, redactObject e.2)) <$> args.

Definition redactAuditEntry (entry : AuditEntry) : AuditEntry :=
  {| ae_timestamp := ae_timestamp entry; ae_requestId := ae_requestId entry;
     ae_serverName := ae_serverName entry; ae_toolName := ae_toolName entry;
     ae_arguments := redactArguments (ae_arguments entry);
     ae_policyDecision := ae_policyDecision entry;
     ae_escalationResult := ae_escalationResult entry;
     ae_result := {| ar_status := ar_status (ae_result entry);
                     ar_content := redactObject <$> ar_content (ae_result entry);
                     ar_error := redactString <$> ar_error (ae_result entry) |};
     ae_durationMs := ae_durationMs entry; ae_sandboxed := ae_sandboxed entry;
     ae_autoApproved := ae_autoApproved entry; ae_whitelistApproved := ae_whitelistApproved entry;
     ae_whitelistPatternId := ae_whitelistPatternId entry; ae_persona := ae_persona entry |}.

(** [log(entry)] when [appendError] is what [appendFileSync] would throw. *)
Definition log (a : AuditLog) (appendError : option string) (entry : AuditEntry)
    : AuditLog * result unit :=
  if al_closed a then (a, Throw "AuditLog.log() called after close()")
  else
    match al_streamError a with
    | Some e => (a, Throw ("AuditLog stream error: " +:+ e))
    | None =>
        let toWrite := if al_redact a then redactAuditEntry entry else entry in
        match appendError with
        | Some e =>
            ({| al_redact := al_redact a; al_closed := al_closed a; al_streamError := Some e;
                al_lines := al_lines a |}, Throw ("AuditLog stream error: " +:+ e))
        | None =>
            ({| al_redact := al_redact a; al_closed := al_closed a;
                al_streamError := al_streamError a; al_lines := al_lines a ++ [toWrite] |}, Ok ())
        end
    end.

Definition close (a : AuditLog) : AuditLog :=
  {| al_redact := al_redact a; al_closed := true; al_streamError := al_streamError a;
     al_lines := al_lines a |}.

(** ** Lemmas *)

(** A log that is closed or has failed once stays so, and never writes again. *)
Definition dead (a : AuditLog) : Prop := al_closed a = true ∨ is_Some (al_streamError a).

Lemma log_cases a err entry :
  let '(a', r) := log a err entry in
  (r = Ok () ∧ ¬ dead a ∧ ¬ dead a' ∧
   al_lines a' = al_lines a ++ [if al_redact a then redactAuditEntry entry else entry]) ∨
  (∃ msg, r = Throw msg ∧ dead a' ∧ al_lines a' = al_lines a).
Proof.
  unfold log, dead. destruct (al_closed a) eqn:Hc; [right; eauto|].
  destruct (al_streamError a) as [e|] eqn:He; [right; rewrite He; eauto|].
  destruct err as [e|]; simpl; [right; eauto|left].
  split_and!; [done|intros [?|[? ?]]; done|intros [?|[? ?]]; done|done].
Qed.

Lemma log_dead a err entry : dead a → (log a err entry).1 = a ∧ ∃ msg, (log a err entry).2 = Throw msg.
Proof.
  unfold log. intros [Hc|[e He]]; [rewrite Hc; eauto|].
  destruct (al_closed a); [eauto|]. rewrite He. eauto.
Qed.
(** ** Runs *)

(** Appends in sequence, each with the disk's error if any; the entries with their
    results. *)
Fixpoint run_log (a : AuditLog)
    (appends : list (option string * AuditEntry)) : AuditLog * list (AuditEntry * result unit) :=
  match appends with
  | [] => (a, [])
  | (err, e) :: appends =>
      let '(a', r) := log a err e in
      let '(a'', rs) := run_log a' appends in (a'', (e, r) :: rs)
  end.

Lemma log_redact a err e : al_redact (log a err e).1 = al_redact a.
Proof. unfold log. by repeat case_match. Qed.

Lemma run_log_dead a appends :
  dead a → Forall (λ e, ∃ m, e.2 = Throw m) (run_log a appends).2.
Proof.
  intros Hd. induction appends as [|[err e] appends IH]; [constructor|]. cbn [run_log].
  destruct (log_dead a err e Hd) as [Ha [m Hm]].
  destruct (log a err e) as [a' r]. simpl in *. subst.
  destruct (run_log a appends). constructor; [by exists m|done].
Qed.
