(* ===== verification/Whitelist.v ===== *)
(** * The approval whitelist

    Models src/trusted-process/approval-whitelist.ts: patterns extracted from
    approved escalations, and the session's in-memory store of patterns. *)

From S2P Require Import Prelude JsValue Paths Urls Roles Domains PolicyTypes PolicyEngine.

Inductive WhitelistConstraint :=
| ConDirectory (role : ArgumentRole) (directory : string)
| ConDomain (role : ArgumentRole) (domain : string)
| ConExact (role : ArgumentRole) (value : string).

#[export] Instance WhitelistConstraint_eq_dec : EqDecision WhitelistConstraint.
Proof. solve_decision. Defined.

Definition con_role (c : WhitelistConstraint) : ArgumentRole :=
  match c with ConDirectory role _ | ConDomain role _ | ConExact role _ => role end.

(** [Omit<WhitelistPattern, 'id'>] *)
Record PatternData := {
  wp_serverName : string;
  wp_toolName : string;
  wp_constraints : list WhitelistConstraint;
  wp_createdAt : string;
  wp_sourceEscalationId : string;
  wp_originalReason : string;
  wp_description : string;
}.

Record WhitelistPattern := { wp_id : string; wp_data : PatternData }.

(** The state of [createApprovalWhitelist]: the patterns in the order they were
    added. *)
Definition ApprovalWhitelist := list WhitelistPattern.

Definition HISTORY_REWRITING_ROLES : list ArgumentRole := [WriteHistory; DeleteHistory].

Definition constraintKey (c : WhitelistConstraint) : string :=
  match c with
  | ConDirectory role directory => "dir:" +:+ role_name role +:+ ":" +:+ directory
  | ConDomain role domain => "dom:" +:+ role_name role +:+ ":" +:+ domain
  | ConExact role value => "exact:" +:+ role_name role +:+ ":" +:+ value
  end.

Definition describeConstraint (c : WhitelistConstraint) : string :=
  match c with
  | ConDirectory role directory => role_name role +:+ " within " +:+ directory
  | ConDomain role domain => role_name role +:+ " domain " +:+ domain
  | ConExact role value => role_name role +:+ "=" +:+ value
  end.

Definition buildDescription (serverName toolName : string)
    (constraints : list WhitelistConstraint) : string :=
  "Allow " +:+ serverName +:+ "/" +:+ toolName +:+ " "
  +:+ str_join ", " (describeConstraint <$> constraints).

Section whitelist.
Context `{FileSystem} `{UrlParser}.

Definition roleDomain (role : ArgumentRole) (value : string) : string :=
  extractDomainForRole (canonicalize (roleDef role) value) role.

Definition constraintMatches (constraint : WhitelistConstraint) (args : object jsvalue)
    (annotation : ToolAnnotation) : bool :=
  let values := extractAnnotatedPaths args annotation [con_role constraint] in
  if length values =? 0 then false
  else
    match constraint with
    | ConDirectory _ directory => forallb (λ v, isWithinDirectory v directory) values
    | ConDomain role domain =>
        forallb (λ v, toLowerCase (roleDomain role v) =? toLowerCase domain) values
    | ConExact _ value => forallb (λ v, toLowerCase v =? toLowerCase value) values
    end.

Definition buildConstraintForRole (role : ArgumentRole) (cat : RoleCategory) (value : string)
    : option WhitelistConstraint :=
  match cat with
  | CatPath =>
      if includes HISTORY_REWRITING_ROLES role then None
      else Some (ConDirectory role (dirname (resolveRealPath value)))
  | CatUrl => Some (ConDomain role (roleDomain role value))
  | CatIdentifier => Some (ConExact role (toLowerCase value))
  | CatOpaque => None
  end.

(** The candidates of [buildConstraints] before deduplication. *)
Definition roleConstraints (args : object jsvalue) (annotation : ToolAnnotation)
    (role : ArgumentRole) : list WhitelistConstraint :=
  omap (buildConstraintForRole role (category (roleDef role)))
    (extractAnnotatedPaths args annotation [role]).

(** Keep the first constraint of each key. *)
Fixpoint dedupeByKey (seen : list string) (cs : list WhitelistConstraint)
    : list WhitelistConstraint :=
  match cs with
  | [] => []
  | c :: cs =>
      if includes seen (constraintKey c) then dedupeByKey seen cs
      else c :: dedupeByKey (constraintKey c :: seen) cs
  end.

Definition buildConstraints (roles : list ArgumentRole) (args : object jsvalue)
    (annotation : ToolAnnotation) : list WhitelistConstraint :=
  dedupeByKey [] (roles ≫= roleConstraints args annotation).

(** The patterns offered, with their descriptions. *)
Definition extractWhitelistCandidates (serverName toolName : string) (args : object jsvalue)
    (annotation : ToolAnnotation) (escalatedRoles : option (list ArgumentRole))
    (escalationId escalationReason now : string) : list PatternData * list string :=
  let rolesToExtract :=
    match escalatedRoles with Some roles => roles | None => collectDistinctRoles annotation end in
  let constraints := buildConstraints rolesToExtract args annotation in
  if length constraints =? 0 then ([], [])
  else
    let description := buildDescription serverName toolName constraints in
    ([{| wp_serverName := serverName; wp_toolName := toolName; wp_constraints := constraints;
         wp_createdAt := now; wp_sourceEscalationId := escalationId;
         wp_originalReason := escalationReason; wp_description := description |}],
     [description]).

(** ** The store *)

(** [add]: the new state and the identifier, which [uuidv4] drew. *)
Definition add (patterns : ApprovalWhitelist) (uuid : string) (patternData : PatternData)
    : result (ApprovalWhitelist * string) :=
  if length (wp_constraints patternData) =? 0 then
    Throw ("Refusing to add zero-constraint whitelist pattern for "
           +:+ wp_serverName patternData +:+ "/" +:+ wp_toolName patternData)
  else Ok (patterns ++ [{| wp_id := uuid; wp_data := patternData |}], uuid).

Definition patternMatches (serverName toolName : string) (resolvedArgs : object jsvalue)
    (annotation : ToolAnnotation) (pattern : WhitelistPattern) : bool :=
  (wp_serverName (wp_data pattern) =? serverName) &&
  (wp_toolName (wp_data pattern) =? toolName) &&
  forallb (λ c, constraintMatches c resolvedArgs annotation) (wp_constraints (wp_data pattern)).

(** [match] *)
Definition match_call (patterns : ApprovalWhitelist) (serverName toolName : string)
    (resolvedArgs : object jsvalue) (annotation : ToolAnnotation) : option WhitelistPattern :=
  List.find (patternMatches serverName toolName resolvedArgs annotation) patterns.

Definition entries (patterns : ApprovalWhitelist) : list WhitelistPattern := patterns.
Definition size (patterns : ApprovalWhitelist) : nat := length patterns.

(** The stores a session can build. *)
Inductive reachable_store : ApprovalWhitelist → Prop :=
| store_new : reachable_store []
| store_add patterns uuid data patterns' id :
    reachable_store patterns → add patterns uuid data = Ok (patterns', id) →
    reachable_store patterns'.

(** ** Lemmas *)

Lemma reachable_constrained patterns :
  reachable_store patterns → ∀ p, p ∈ patterns → wp_constraints (wp_data p) ≠ [].
Proof.
  induction 1 as [|patterns uuid data patterns' id _ IH Hadd]; [set_solver|].
  intros p Hp. unfold add in Hadd. case_bool_decide as Hl; simplify_eq.
  apply elem_of_app in Hp as [Hp| ->%list_elem_of_singleton]; [by apply IH|].
  simpl. intros Hnil. by rewrite Hnil in Hl.
Qed.

Lemma elem_of_dedupe c seen cs : c ∈ dedupeByKey seen cs → c ∈ cs.
Proof.
  revert seen. induction cs as [|c' cs IH]; intros seen; simpl; [done|].
  case_match; set_solver.
Qed.

Lemma elem_of_buildConstraints c roles args annotation :
  c ∈ buildConstraints roles args annotation →
  con_role c ∈ roles ∧ (con_role c ∉ HISTORY_REWRITING_ROLES) ∧
  ∃ v, v ∈ extractAnnotatedPaths args annotation [con_role c] ∧
       buildConstraintForRole (con_role c) (category (roleDef (con_role c))) v = Some c.
Proof.
  intros Hc%elem_of_dedupe. apply list_elem_of_bind in Hc as (role & Hc & Hr).
  unfold roleConstraints in Hc. apply list_elem_of_omap in Hc as (v & Hv & Hb).
  assert (Hrole : con_role c = role ∧ role ∉ HISTORY_REWRITING_ROLES).
  { revert Hb. unfold buildConstraintForRole, includes. destruct (category (roleDef role)) eqn:Hcat;
      repeat case_bool_decide; intros; simplify_eq/=; split; try done.
    all: intros Hin; unfold HISTORY_REWRITING_ROLES in Hin;
      repeat (apply elem_of_cons in Hin as [->|Hin]; [done|]); by apply elem_of_nil in Hin. }
  destruct Hrole as [-> Hh]. eauto.
Qed.

(** A constraint matches the value it was built from. *)
Definition self_matches (v : string) (c : WhitelistConstraint) : Prop :=
  match c with
  | ConDirectory _ d => d = dirname (resolveRealPath v)
  | ConDomain role d => d = roleDomain role v
  | ConExact _ w => w = toLowerCase v
  end.

Lemma buildConstraintForRole_self role cat v c :
  buildConstraintForRole role cat v = Some c → con_role c = role ∧ self_matches v c.
Proof. unfold buildConstraintForRole. destruct cat; repeat case_match; naive_solver. Qed.
End whitelist.
