(* ===== verification/Pipeline.v ===== *)
(** * The tool-call pipeline

    Models [handleCallTool] of src/trusted-process/tool-call-pipeline.ts in a
    monad with state, exceptions and a trace of what crosses the boundary: calls
    forwarded to servers, requests to the control API, roots announced, audit
    entries written, and how an escalation was settled.

    The world answers every interaction: the clock, fresh identifiers, MCP
    servers, the language model, the human, files, and the other calls that run
    while an escalation waits ([w_interfere]).  Its answers depend on a tick that
    every interaction advances, so two interactions can be answered differently. *)

From Stdlib Require Import QArith Qcanon.
From S2P Require Import Prelude JsValue Paths Urls Roles Domains PolicyTypes PolicyEngine PathArgs.
From S2P Require Import Whitelist Hashing CircuitBreaker Tools EscalationIpc.
From S2P Require Import AutoApprover ProxyTools AuditLog PolicyEngineTheory.

(** ** State *)

Record McpRoot := { mr_uri : string; mr_name : string }.

(** The components a call shares with the calls around it.  A server has an entry
    in [sh_roots] when it has a client connection. *)
Record Shared := {
  sh_audit : AuditLog;
  sh_breaker : CallCircuitBreaker;
  sh_whitelist : ApprovalWhitelist;
  sh_roots : gmap string (list McpRoot);
  sh_context : ServerContextMap;
}.

Inductive Event :=
| EvAudit (entry : AuditEntry)
| EvForward (serverName toolName : string) (args : object jsvalue)
| EvControl (request : ControlRequest)
| EvRoot (serverName uri : string)
| EvWhitelisted (pattern : WhitelistPattern)
| EvAutoApproved (reason : string)
| EvHuman (decision : HumanDecision).

Record PipelineState := {
  st_shared : Shared;
  st_tick : nat;
  st_trace : list Event;
}.

(** The request shown to the human. *)
Record HumanQuestion := {
  hq_request : ToolCallRequest;
  hq_reason : string;
  hq_context : option (object string);
  hq_candidates : option (list string);
}.

Class World := {
  w_uuid : nat → string;
  w_now : nat → Z;
  w_isoNow : nat → string;
  w_append : nat → AuditEntry → option string;   (** the error of the append *)
  w_callTool : nat → string → string → object jsvalue → object jsvalue + JsError;
  (** [inl b]: sent, and [b] tells whether the server asked for the roots in time *)
  w_sendRootsListChanged : nat → string → bool + JsError;
  w_generateText : nat → string → result (option AutoApproveResult);
  w_userContext : nat → string → option string;
  w_onEscalation : nat → HumanQuestion → EscalationResponseData + JsError;
  w_pollClock : nat → nat → Z;
  w_responseFile : nat → nat → ResponseFile;
  w_requestWrite : nat → option string;          (** the error of writing a request *)
  w_controlApi : nat → ControlApi;
  w_interfere : nat → Shared → Shared;
}.

(** ** The monad *)

Definition M (A : Type) : Type := PipelineState → PipelineState * (A + JsError).

#[export] Instance M_ret : MRet M := λ A a s, (s, inl a).
#[export] Instance M_bind : MBind M := λ A B f m s,
  match m s with
  | (s', inl a) => f a s'
  | (s', inr e) => (s', inr e)
  end.

Definition raise {A} (e : JsError) : M A := λ s, (s, inr e).

Definition try_catch {A} (m : M A) (handler : JsError → M A) : M A := λ s,
  match m s with
  | (s', inl a) => (s', inl a)
  | (s', inr e) => handler e s'
  end.

Definition lift {A} (r : result A) : M A :=
  match r with Ok a => mret a | Throw e => raise (PlainError e) end.

(** Ask the world and advance the tick. *)
Definition ask {A} (f : nat → A) : M A := λ s,
  ({| st_shared := st_shared s; st_tick := S (st_tick s); st_trace := st_trace s |},
   inl (f (st_tick s))).

Definition emit (ev : Event) : M unit := λ s,
  ({| st_shared := st_shared s; st_tick := st_tick s; st_trace := st_trace s ++ [ev] |}, inl ()).

Definition get_shared : M Shared := λ s, (s, inl (st_shared s)).

Definition modify_shared (f : Shared → Shared) : M unit := λ s,
  ({| st_shared := f (st_shared s); st_tick := st_tick s; st_trace := st_trace s |}, inl ()).

(** The answer of a world that can throw. *)
Definition ask_or_raise {A} (f : nat → A + JsError) : M A :=
  r ← ask f; match r with inl a => mret a | inr e => raise e end.

Definition set_audit (a : AuditLog) (sh : Shared) : Shared :=
  {| sh_audit := a; sh_breaker := sh_breaker sh; sh_whitelist := sh_whitelist sh;
     sh_roots := sh_roots sh; sh_context := sh_context sh |}.
Definition set_breaker (b : CallCircuitBreaker) (sh : Shared) : Shared :=
  {| sh_audit := sh_audit sh; sh_breaker := b; sh_whitelist := sh_whitelist sh;
     sh_roots := sh_roots sh; sh_context := sh_context sh |}.
Definition set_whitelist (w : ApprovalWhitelist) (sh : Shared) : Shared :=
  {| sh_audit := sh_audit sh; sh_breaker := sh_breaker sh; sh_whitelist := w;
     sh_roots := sh_roots sh; sh_context := sh_context sh |}.
Definition set_roots (r : gmap string (list McpRoot)) (sh : Shared) : Shared :=
  {| sh_audit := sh_audit sh; sh_breaker := sh_breaker sh; sh_whitelist := sh_whitelist sh;
     sh_roots := r; sh_context := sh_context sh |}.
Definition set_context (c : ServerContextMap) (sh : Shared) : Shared :=
  {| sh_audit := sh_audit sh; sh_breaker := sh_breaker sh; sh_whitelist := sh_whitelist sh;
     sh_roots := sh_roots sh; sh_context := c |}.

(** ** Requests, responses, dependencies *)

Record ToolCallResponse := {
  resp_content : jsvalue;
  resp_isError : option bool;
  resp_policyDecision : option PolicyDecision;
}.

Record RequestContext := { rx_requestId : string; rx_timestamp : string }.

Record CallToolDeps (P : Type) := {
  d_toolMap : gmap string ProxiedTool;
  d_policyEngine : P;
  d_sandboxed : gmap string bool;         (** [resolvedSandboxConfigs[s].sandboxed] *)
  d_allowedDirectory : option string;
  d_escalationDir : option string;
  d_autoApproveModel : bool;
  d_controlApiClient : bool;
  d_onEscalation : bool;                  (** an in-process handler is set *)
  d_autoApproveUserMessage : option string;
  d_persona : option string;
  d_isPtySession : bool;
  d_escalationTimeout : option jsnum;
}.
Arguments d_toolMap {_} _.
Arguments d_policyEngine {_} _.
Arguments d_sandboxed {_} _.
Arguments d_allowedDirectory {_} _.
Arguments d_escalationDir {_} _.
Arguments d_autoApproveModel {_} _.
Arguments d_controlApiClient {_} _.
Arguments d_onEscalation {_} _.
Arguments d_autoApproveUserMessage {_} _.
Arguments d_persona {_} _.
Arguments d_isPtySession {_} _.
Arguments d_escalationTimeout {_} _.

Definition textContent (text : string) : jsvalue :=
  VArr [VObj [("type", VStr "text"); ("text", VStr text)]].

Definition errorResponse (text : string) (decision : PolicyDecision) : ToolCallResponse :=
  {| resp_content := textContent text; resp_isError := Some true;
     resp_policyDecision := Some decision |}.

Definition denied (rule reason : string) : PolicyDecision :=
  {| pd_status := Deny; pd_rule := rule; pd_reason := reason |}.

Definition with_status (d : PolicyDecision) (status : Decision) : PolicyDecision :=
  {| pd_status := status; pd_rule := pd_rule d; pd_reason := pd_reason d |}.

Definition audit_result (status : AuditStatus) (error : option string) : AuditResult :=
  {| ar_status := status; ar_content := None; ar_error := error |}.

(** [options.f || undefined] *)
Definition flag (b : bool) : option bool := if b then Some true else None.

Record AuditOptions := {
  ao_escalationResult : option HumanDecision;
  ao_sandboxed : bool;
  ao_autoApproved : bool;
  ao_whitelistApproved : bool;
  ao_whitelistPatternId : option string;
  ao_persona : option string;
}.

Definition buildAuditEntry (request : ToolCallRequest) (argsForTransport : object jsvalue)
    (policyDecision : PolicyDecision) (result : AuditResult) (durationMs : Z)
    (options : AuditOptions) : AuditEntry :=
  {| ae_timestamp := rq_timestamp request; ae_requestId := rq_requestId request;
     ae_serverName := rq_serverName request; ae_toolName := rq_toolName request;
     ae_arguments := argsForTransport; ae_policyDecision := policyDecision;
     ae_escalationResult := ao_escalationResult options; ae_result := result;
     ae_durationMs := durationMs; ae_sandboxed := flag (ao_sandboxed options);
     ae_autoApproved := flag (ao_autoApproved options);
     ae_whitelistApproved := flag (ao_whitelistApproved options);
     ae_whitelistPatternId := ao_whitelistPatternId options; ae_persona := ao_persona options |}.

(** What a call has established once its arguments are normalised. *)
Record CallContext := {
  cc_tool : ProxiedTool;
  cc_annotation : option ToolAnnotation;
  cc_transport : object jsvalue;
  cc_request : ToolCallRequest;       (** with the policy arguments *)
  cc_evaluation : EvaluationResult;
}.

(** The local variables of the call that later stages assign. *)
Record Verdict := {
  v_policyDecision : PolicyDecision;
  v_escalationResult : option HumanDecision;
  v_autoApproved : bool;
  v_whitelistApproved : bool;
  v_whitelistPatternId : option string;
}.

Definition initialVerdict (evaluation : EvaluationResult) : Verdict :=
  {| v_policyDecision := {| pd_status := er_decision evaluation; pd_rule := er_rule evaluation;
                            pd_reason := er_reason evaluation |};
     v_escalationResult := None; v_autoApproved := false; v_whitelistApproved := false;
     v_whitelistPatternId := None |}.

(** Assigning [policyDecision.status] and [policyDecision.reason]. *)
Definition decide_verdict (v : Verdict) (status : Decision) (reason : string) : Verdict :=
  {| v_policyDecision := {| pd_status := status; pd_rule := pd_rule (v_policyDecision v);
                            pd_reason := reason |};
     v_escalationResult := v_escalationResult v; v_autoApproved := v_autoApproved v;
     v_whitelistApproved := v_whitelistApproved v;
     v_whitelistPatternId := v_whitelistPatternId v |}.

Definition approvedVerdict (v : Verdict) (auto : bool) (whitelist : option string) (reason : string)
    : Verdict :=
  {| v_policyDecision := {| pd_status := Allow; pd_rule := pd_rule (v_policyDecision v);
                            pd_reason := reason |};
     v_escalationResult := Some Approved; v_autoApproved := auto;
     v_whitelistApproved := is_some whitelist; v_whitelistPatternId := whitelist |}.

(** ** The pipeline *)

Section pipeline.
Context `{FileSystem} `{UrlParser} `{Runtime} `{World} `{PolicyDecider P}.
Variable deps : CallToolDeps P.

(** [deps.auditLog.log(entry)] *)
Definition logEntry (entry : AuditEntry) : M unit :=
  appendError ← ask (λ t, w_append t entry);
  sh ← get_shared;
  let '(audit', r) := log (sh_audit sh) appendError entry in
  _ ← modify_shared (set_audit audit');
  _ ← lift r;
  emit (EvAudit entry).

Definition serverIsSandboxed (serverName : string) : bool :=
  default false (d_sandboxed deps !! serverName).

(** The closure [logAudit] of a call. *)
Definition logAudit (c : CallContext) (v : Verdict) (result : AuditResult) (durationMs : Z)
    (overrideEscalation : option HumanDecision) : M unit :=
  logEntry (buildAuditEntry (cc_request c) (cc_transport c) (v_policyDecision v) result durationMs
    {| ao_escalationResult :=
         match overrideEscalation with Some d => Some d | None => v_escalationResult v end;
       ao_sandboxed := serverIsSandboxed (pt_serverName (cc_tool c));
       ao_autoApproved := v_autoApproved v; ao_whitelistApproved := v_whitelistApproved v;
       ao_whitelistPatternId := v_whitelistPatternId v; ao_persona := d_persona deps |}).

(** The rejections before policy evaluation: one audit entry and an error. *)
Definition rejectEarly (requestId timestamp serverName toolName : string)
    (rawArgs : object jsvalue) (rule reason text : string) : M ToolCallResponse :=
  _ ← logEntry
    {| ae_timestamp := timestamp; ae_requestId := requestId; ae_serverName := serverName;
       ae_toolName := toolName; ae_arguments := rawArgs;
       ae_policyDecision := denied rule reason; ae_escalationResult := None;
       ae_result := audit_result AuditDenied (Some reason); ae_durationMs := 0;
       ae_sandboxed := None; ae_autoApproved := None; ae_whitelistApproved := None;
       ae_whitelistPatternId := None; ae_persona := d_persona deps |};
  mret (errorResponse text (denied rule reason)).

(** *** Normalisation *)

Definition hasEffectivePath (rawArgs : object jsvalue) : bool :=
  match get_value rawArgs "path" with VStr p => negb (str_trim p =? "") | _ => false end.

(** The arguments with the git working directory filled in, or the error. *)
Definition enrichGitPath (tool : ProxiedTool) (annotation : ToolAnnotation)
    (context : ServerContextMap) (rawArgs : object jsvalue) : result (object jsvalue) :=
  if (pt_serverName tool =? "git") && obj_has (ta_args annotation) "path"
     && negb (hasEffectivePath rawArgs)
  then
    match truthy_string (context !! "git" ≫= workingDirectory) with
    | None => Throw "Git server has no working directory set. Call git_set_working_dir first."
    | Some gitWorkDir => Ok (obj_set rawArgs "path" (VStr gitWorkDir))
    end
  else Ok rawArgs.

(** The transport and policy arguments. *)
Definition normalizeArgs (tool : ProxiedTool) (annotation : option ToolAnnotation)
    (context : ServerContextMap) (rawArgs : object jsvalue) : result PreparedToolArgs :=
  match annotation with
  | None => Ok {| argsForTransport := rawArgs; argsForPolicy := rawArgs |}
  | Some annotation =>
      effectiveRawArgs ← enrichGitPath tool annotation context rawArgs;
      Ok (prepareToolArgs effectiveRawArgs annotation (d_allowedDirectory deps)
            (Some CONTAINER_WORKSPACE_DIR))
  end.

(** *** Escalation *)

Inductive WaitResult :=
| WaitAutoApproved (reason : string)
| WaitHuman (response : EscalationResponseData).

(** Enough polls for the timeout when every poll advances the clock. *)
Definition pollFuel : nat := enough_fuel (getEscalationTimeoutMs (d_escalationTimeout deps)).

Definition askByFiles (dir escalationId : string) : M EscalationResponseData :=
  start ← ask w_now;
  outcome ← ask (λ t, waitForEscalationDecision (w_pollClock t) (w_responseFile t) (w_requestWrite t) pollFuel start
    (getEscalationTimeoutMs (d_escalationTimeout deps))
    (resolve2 dir ("request-" +:+ escalationId +:+ ".json"))
    (resolve2 dir ("response-" +:+ escalationId +:+ ".json")));
  match outcome with
  | Some (_, r) => lift r
  | None => raise (PlainError "poll fuel exhausted")
  end.

(** The trusted user message for the auto-approver. *)
Definition autoApproveMessage : M (option string) :=
  match d_autoApproveUserMessage deps with
  | Some m => mret (if m =? "" then None else Some m)
  | None =>
      match truthy_string (d_escalationDir deps) with
      | None => mret None
      | Some dir =>
          file ← ask (λ t, w_userContext t dir);
          match readUserContext file with
          | None => mret None
          | Some first =>
              (* the code reads the file a second time for the trust check *)
              file2 ← ask (λ t, w_userContext t dir);
              now ← ask w_now;
              match readUserContext file2 with
              | Some ctx =>
                  if isUserContextTrusted ctx (d_isPtySession deps) now
                  then mret (Some (uc_userMessage first)) else mret None
              | None => mret None
              end
          end
      end
  end.

(** The auto-approver's verdict, when it is configured and may be asked. *)
Definition tryAutoApprove (c : CallContext) : M (option string) :=
  if negb (d_autoApproveModel deps) then mret None
  else
    message ← autoApproveMessage;
    match message with
    | None => mret None
    | Some userMessage =>
        answer ← ask (λ t, autoApprove
          {| aa_userMessage := userMessage;
             aa_toolName := pt_serverName (cc_tool c) +:+ "/" +:+ pt_name (cc_tool c);
             aa_escalationReason := er_reason (cc_evaluation c);
             aa_arguments :=
               extractArgsForAutoApprove (rq_arguments (cc_request c)) (cc_annotation c) |}
          (w_generateText t));
        match aa_decision answer with
        | AutoApprove => mret (Some (aa_reasoning answer))
        | AutoEscalate => mret None
        end
    end.

(** [waitForDecision] *)
Definition waitForDecision (c : CallContext) (escalationId : string)
    (context : option (object string)) (candidateIpcs : list string) : M WaitResult :=
  auto ← tryAutoApprove c;
  match auto with
  | Some reason => _ ← emit (EvAutoApproved reason); mret (WaitAutoApproved reason)
  | None =>
      let candidates := if length candidateIpcs =? 0 then None else Some candidateIpcs in
      response ←
        (if d_onEscalation deps then
           ask_or_raise (λ t, w_onEscalation t
             {| hq_request := with_arguments (cc_request c) (cc_transport c);
                hq_reason := er_reason (cc_evaluation c); hq_context := context;
                hq_candidates := candidates |})
         else
           match d_escalationDir deps with
           | Some dir => askByFiles dir escalationId
           | None => mret {| esc_decision := Denied; esc_whitelistSelection := None |}
           end);
      _ ← emit (EvHuman (esc_decision response));
      mret (WaitHuman response)
  end.

(** Adding the selected candidate to the whitelist. *)
Definition applySelection (selection : option Z) (candidatePatterns : list PatternData) : M unit :=
  match selection with
  | None => mret ()
  | Some i =>
      if bool_decide (0 ≤ i)%Z && bool_decide (i < Z.of_nat (length candidatePatterns))%Z then
        match candidatePatterns !! Z.to_nat i with
        | Some selectedPattern =>
            uuid ← ask w_uuid;
            sh ← get_shared;
            added ← lift (Whitelist.add (sh_whitelist sh) uuid selectedPattern);
            modify_shared (set_whitelist added.1)
        | None => mret ()
        end
      else mret ()
  end.

(** The escalation of a call that no whitelist pattern matched. *)
Definition settleEscalation (c : CallContext) (annotation : ToolAnnotation) (v : Verdict)
    : M (ToolCallResponse + Verdict) :=
  let evaluation := cc_evaluation c in
  if negb (d_onEscalation deps) && negb (is_some (truthy_string (d_escalationDir deps))) then
    _ ← logAudit c v (audit_result AuditDenied (Some (er_reason evaluation))) 0 (Some Denied);
    mret (inl (errorResponse
      (ERROR_PREFIX_ESCALATION_REQUIRED +:+ " " +:+ er_reason evaluation
        +:+ ". Action denied (no escalation handler).")
      (with_status (v_policyDecision v) Deny)))
  else
    escalationId ← ask w_uuid;
    createdAt ← ask w_isoNow;
    let '(candidatePatterns, candidateIpcs) :=
      extractWhitelistCandidates (pt_serverName (cc_tool c)) (pt_name (cc_tool c))
        (rq_arguments (cc_request c)) annotation (er_escalatedRoles evaluation) escalationId
        (er_reason evaluation) createdAt in
    sh ← get_shared;
    let context := formatServerContext (sh_context sh) (pt_serverName (cc_tool c)) in
    waitResult ← try_catch
      (interfere ← ask w_interfere;
       _ ← modify_shared interfere;
       waitForDecision c escalationId context candidateIpcs)
      (λ escalationError,
         let reason := "Escalation wait failed: "
                       +:+ match escalationError with PlainError m | McpError _ _ m => m end in
         _ ← logAudit c (decide_verdict v Deny reason) (audit_result AuditDenied (Some reason)) 0
               (Some Denied);
         raise escalationError);
    match waitResult with
    | WaitAutoApproved reason =>
        mret (inr (approvedVerdict v true None ("Auto-approved: " +:+ reason)))
    | WaitHuman response =>
        if esc_decision response =? Denied then
          let reason := "Denied by human during escalation" in
          _ ← logAudit c (decide_verdict v Deny reason) (audit_result AuditDenied (Some reason)) 0
                (Some Denied);
          mret (inl (errorResponse
            (ERROR_PREFIX_ESCALATION_DENIED +:+ " " +:+ er_reason evaluation)
            (denied (pd_rule (v_policyDecision v)) reason)))
        else
          _ ← applySelection (esc_whitelistSelection response) candidatePatterns;
          mret (inr (approvedVerdict v false None "Approved by human during escalation"))
    end.

(** [addRootToClient]; [true] is ['added']. *)
Definition addRootToClient (serverName : string) (root : McpRoot) : M bool :=
  sh ← get_shared;
  let roots := default [] (sh_roots sh !! serverName) in
  if existsb (λ r, mr_uri r =? mr_uri root) roots then mret false
  else
    _ ← modify_shared (set_roots (<[serverName := roots ++ [root]]> (sh_roots sh)));
    _ ← emit (EvRoot serverName (mr_uri root));
    ask_or_raise (λ t, w_sendRootsListChanged t serverName).

Fixpoint addRoots (serverName : string) (paths : list string) (rootsExpanded : bool) : M bool :=
  match paths with
  | [] => mret rootsExpanded
  | p :: paths =>
      added ← addRootToClient serverName
        {| mr_uri := "file://" +:+ directoryForPath p; mr_name := "escalation-approved" |};
      addRoots serverName paths (rootsExpanded || added)
  end.

Definition expandRoots (c : CallContext) : M bool :=
  sh ← get_shared;
  match sh_roots sh !! pt_serverName (cc_tool c), cc_annotation c with
  | Some _, Some annotation =>
      addRoots (pt_serverName (cc_tool c))
        (extractAnnotatedPaths (cc_transport c) annotation getPathRoles) false
  | _, _ => mret false
  end.

(** The escalation branch: an early denial, or the verdict and whether roots were
    added. *)
Definition handleEscalation (c : CallContext) (v : Verdict)
    : M (ToolCallResponse + (Verdict * bool)) :=
  match cc_annotation c with
  | None => raise (PlainError "Cannot read properties of undefined")
  | Some annotation =>
      sh ← get_shared;
      settled ←
        match match_call (sh_whitelist sh) (pt_serverName (cc_tool c)) (pt_name (cc_tool c))
                (rq_arguments (cc_request c)) annotation with
        | Some pattern =>
            _ ← emit (EvWhitelisted pattern);
            mret (inr (approvedVerdict v false (Some (wp_id pattern))
              ("Whitelist-approved: " +:+ wp_description (wp_data pattern))))
        | None => settleEscalation c annotation v
        end;
      match settled with
      | inl response => mret (inl response)
      | inr v' => rootsExpanded ← expandRoots c; mret (inr (v', rootsExpanded))
      end
  end.

(** *** Dispatch *)

Definition now : M Z := ask w_now.

(** [Date.now() - startTime] *)
Definition elapsed (startTime : Z) : M Z := t ← now; mret (t - startTime)%Z.

Definition checkBreaker (c : CallContext) : M CircuitBreakerVerdict :=
  t ← now;
  sh ← get_shared;
  let '(breaker', verdict) :=
    CircuitBreaker.check (sh_breaker sh) t
      (toolKey (pt_serverName (cc_tool c)) (pt_name (cc_tool c))) (cc_transport c) in
  _ ← modify_shared (set_breaker breaker');
  mret verdict.

Fixpoint emit_controls (requests : list ControlRequest) : M unit :=
  match requests with
  | [] => mret ()
  | r :: requests => _ ← emit (EvControl r); emit_controls requests
  end.

(** A call of a virtual proxy tool, handled through the control API. *)
Definition dispatchVirtual (c : CallContext) (v : Verdict) : M ToolCallResponse :=
  startTime ← now;
  try_catch
    (outcome ← ask (λ t, handleVirtualProxyTool (pt_name (cc_tool c)) (cc_transport c)
                           (w_controlApi t));
     _ ← emit_controls outcome.1;
     result ← lift outcome.2;
     duration ← elapsed startTime;
     _ ← logAudit c v (audit_result AuditSuccess None) duration None;
     mret {| resp_content := textContent (json_stringify result); resp_isError := None;
             resp_policyDecision := Some (v_policyDecision v) |})
    (λ err,
       let errorMessage := match err with PlainError m | McpError _ _ m => m end in
       duration ← elapsed startTime;
       _ ← logAudit c v (audit_result AuditError (Some errorMessage)) duration None;
       mret (errorResponse ("Error: " +:+ errorMessage) (v_policyDecision v))).

Definition rewriteContent (content : jsvalue) : jsvalue :=
  match truthy_string (d_allowedDirectory deps) with
  | Some dir => rewriteResultContent content dir CONTAINER_WORKSPACE_DIR
  | None => content
  end.

(** [client.callTool] *)
Definition callTool (c : CallContext) : M (object jsvalue) :=
  _ ← emit (EvForward (pt_serverName (cc_tool c)) (pt_name (cc_tool c)) (cc_transport c));
  ask_or_raise (λ t, w_callTool t (pt_serverName (cc_tool c)) (pt_name (cc_tool c))
                       (cc_transport c)).

(** The call, and its one retry after a roots race. *)
Definition callWithRetry (c : CallContext) (v : Verdict) (rootsExpanded : bool) (startTime : Z)
    : M (object jsvalue) :=
  result ← callTool c;
  if rootsExpanded && isRootsRaceError result then
    let initialError := default "access denied (roots race)"
                          (extractTextFromContent (get_value result "content")) in
    duration ← elapsed startTime;
    _ ← logAudit c v (audit_result AuditError
          (Some ("Roots race detected, retrying: " +:+ initialError))) duration None;
    callTool c
  else mret result.

Definition forward (c : CallContext) (v : Verdict) (rootsExpanded : bool) (startTime : Z)
    : M ToolCallResponse :=
  sh ← get_shared;
  let serverName := pt_serverName (cc_tool c) in
  match sh_roots sh !! serverName with
  | None =>
      let err := "Internal error: no client connection for server " +:+ quoted serverName in
      _ ← logAudit c v (audit_result AuditDenied (Some err)) 0 None;
      mret (errorResponse err (denied "no-client-connection" err))
  | Some _ =>
      result ← callWithRetry c v rootsExpanded startTime;
      let rewrittenContent := rewriteContent (get_value result "content") in
      if truthy (get_value result "isError") then
        let errorText := default "Unknown tool error" (extractTextFromContent rewrittenContent) in
        let errorMessage := annotateSandboxViolation errorText (serverIsSandboxed serverName) in
        duration ← elapsed startTime;
        _ ← logAudit c v (audit_result AuditError (Some errorMessage)) duration None;
        mret {| resp_content := rewrittenContent; resp_isError := Some true;
                resp_policyDecision := Some (v_policyDecision v) |}
      else
        _ ← modify_shared (λ sh, set_context
              (updateServerContext (sh_context sh) serverName (pt_name (cc_tool c))
                 (cc_transport c)) sh);
        duration ← elapsed startTime;
        _ ← logAudit c v (audit_result AuditSuccess None) duration None;
        mret {| resp_content := rewrittenContent; resp_isError := None;
                resp_policyDecision := Some (v_policyDecision v) |}
  end.

Definition forwardFailed (c : CallContext) (v : Verdict) (startTime : Z) (err : JsError)
    : M ToolCallResponse :=
  rawError ← lift (extractMcpErrorMessage err);
  let errorMessage := annotateSandboxViolation rawError
                        (serverIsSandboxed (pt_serverName (cc_tool c))) in
  duration ← elapsed startTime;
  _ ← logAudit c v (audit_result AuditError (Some errorMessage)) duration None;
  mret {| resp_content := rewriteContent (textContent ("Error: " +:+ errorMessage));
          resp_isError := Some true; resp_policyDecision := Some (v_policyDecision v) |}.

Definition dispatchForward (c : CallContext) (v : Verdict) (rootsExpanded : bool)
    : M ToolCallResponse :=
  startTime ← now;
  try_catch (forward c v rootsExpanded startTime) (forwardFailed c v startTime).

(** An allowed call: circuit breaker, then the control API or the server. *)
Definition dispatch (c : CallContext) (v : Verdict) (rootsExpanded : bool) : M ToolCallResponse :=
  cbVerdict ← checkBreaker c;
  match cbVerdict with
  | BreakerDenied reason =>
      _ ← logAudit c v (audit_result AuditDenied (Some reason)) 0 None;
      mret (errorResponse reason (denied "circuit-breaker" reason))
  | BreakerAllowed =>
      if (pt_serverName (cc_tool c) =? "proxy") && d_controlApiClient deps
      then dispatchVirtual c v else dispatchForward c v rootsExpanded
  end.

(** What follows the policy's decision. *)
Definition act (c : CallContext) : M ToolCallResponse :=
  let v := initialVerdict (cc_evaluation c) in
  match er_decision (cc_evaluation c) with
  | Escalate =>
      settled ← handleEscalation c v;
      match settled with
      | inl response => mret response
      | inr (v', rootsExpanded) => dispatch c v' rootsExpanded
      end
  | Deny =>
      let reason := er_reason (cc_evaluation c) in
      _ ← logAudit c v (audit_result AuditDenied (Some reason)) 0 None;
      mret (errorResponse (ERROR_PREFIX_DENIED +:+ " " +:+ reason) (v_policyDecision v))
  | Allow => dispatch c v false
  end.

(** ** [handleCallTool] *)

(** The caller's identity of the request, or a fresh one. *)
Definition requestIdentity (requestContext : option RequestContext) : M (string * string) :=
  match requestContext with
  | Some rx => mret (rx_requestId rx, rx_timestamp rx)
  | None => requestId ← ask w_uuid; timestamp ← ask w_isoNow; mret (requestId, timestamp)
  end.

Definition handleKnownTool (tool : ProxiedTool) (rawArgs : object jsvalue)
    (requestId timestamp : string) : M ToolCallResponse :=
  let reject rule reason text :=
    rejectEarly requestId timestamp (pt_serverName tool) (pt_name tool) rawArgs rule reason text in
  let engine := d_policyEngine deps in
  let annotation := dec_getAnnotation engine (pt_serverName tool) (pt_name tool) rawArgs in
  let isTrusted := negb (is_some annotation) && dec_isTrustedServer engine (pt_serverName tool) in
  if negb (is_some annotation) && negb isTrusted then
    let reason := ERROR_PREFIX_MISSING_ANNOTATION +:+ " "
      +:+ toolKey (pt_serverName tool) (pt_name tool)
      +:+ ". Re-run 'ironcurtain annotate-tools' to update." in
    reject "missing-annotation" reason reason
  else
    let validationError :=
      if dec_isTrustedServer engine (pt_serverName tool) then None
      else truthy_string (validateToolArguments rawArgs (pt_inputSchema tool)) in
    match validationError with
    | Some validationError => reject "invalid-arguments" validationError validationError
    | None =>
        sh ← get_shared;
        match normalizeArgs tool annotation (sh_context sh) rawArgs with
        | Throw errorMsg =>
            reject "git-path-enrichment-failed" errorMsg ("Error: " +:+ errorMsg)
        | Ok prepared =>
            let request :=
              {| rq_requestId := requestId; rq_serverName := pt_serverName tool;
                 rq_toolName := pt_name tool; rq_arguments := argsForPolicy prepared;
                 rq_timestamp := timestamp |} in
            evaluation ← lift (dec_evaluate engine request);
            act {| cc_tool := tool; cc_annotation := annotation;
                   cc_transport := argsForTransport prepared; cc_request := request;
                   cc_evaluation := evaluation |}
        end
    end.

Definition handleCallTool (toolName : string) (rawArgs : object jsvalue)
    (requestContext : option RequestContext) : M ToolCallResponse :=
  identity ← requestIdentity requestContext;
  let '(requestId, timestamp) := (identity : string * string) in
  match d_toolMap deps !! toolName with
  | None =>
      let reason := "Unknown tool: " +:+ toolName in
      let '(unknownServer, unknownTool) := splitToolKey toolName in
      rejectEarly requestId timestamp unknownServer unknownTool rawArgs "unknown-tool" reason reason
  | Some toolInfo => handleKnownTool toolInfo rawArgs requestId timestamp
  end.
End pipeline.
