(* ===== verification/Coordinator.v ===== *)
(** * The tool-call coordinator

    Models src/trusted-process/tool-call-coordinator.ts, the mutex of
    src/trusted-process/async-mutex.ts and the directory check of
    src/config/validate-policy-dir.ts.

    Concurrent requests are threads.  JavaScript interleaves them only at [await],
    so a step of the model is what a thread does between two awaits, and any
    thread that can continue may be the next to do so.  The mutex is a promise
    chain: a queue of tokens whose head holds the lock. *)

From Stdlib Require Import QArith Qcanon.
From S2P Require Import Prelude JsValue Paths Urls Roles Domains PolicyTypes.
From S2P Require Import PolicyEngine PathArgs Whitelist Hashing CircuitBreaker Tools.
From S2P Require Import EscalationIpc ProxyTools AuditLog PolicyEngineTheory Pipeline.

(** ** The environment *)

(** The trusted roots, and what the files of a policy directory parse to. *)
Class PolicyFiles := {
  ironCurtainHome : string;
  packageConfigDir : string;
  loadPersonaPolicyArtifacts : string → result (CompiledPolicyFile * option DynamicListsFile);
}.

(** ** State *)

(** The read-only options, with the two variables of the process environment that
    the pipeline reads. *)
Record CoordinatorOptions := {
  o_compiledPolicy : CompiledPolicyFile;
  o_toolAnnotations : StoredToolAnnotationsFile;
  o_protectedPaths : list string;
  o_allowedDirectory : option string;
  o_serverDomainAllowlists : option (gmap string (list string));
  o_dynamicLists : option DynamicListsFile;
  o_trustedServers : option (gset string);
  o_auditRedact : option bool;
  o_autoApproveModel : bool;
  o_escalationDir : option string;
  o_onEscalation : bool;
  o_controlApiClient : bool;
  o_resolvedSandboxConfigs : option (gmap string bool);
  o_workerCount : option Qc;
  o_controlServerListen : bool;
  o_isPtySession : bool;
  o_escalationTimeout : option jsnum;
}.

Inductive CallPhase :=
| Entering                                     (** at the head of [enterToolCall]'s loop *)
| AdmissionWait
| Entered                                     (** counted, about to ask for the mutex *)
| CallQueued
| Running (deps : CallToolDeps PolicyEngine)   (** holds the mutex *)
| Escalating (deps : CallToolDeps PolicyEngine)
| Requeued (deps : CallToolDeps PolicyEngine)
| Leaving
| CallDone
| Rejected.

(** The phases of [withToolCallsQuiesced] and what it runs. *)
Inductive QuiescePhase :=
| QStart
| QDraining
| QWoken                                       (** resumed, checks again *)
| QQueued                                      (** asked for the call mutex *)
| QLocked                                      (** holds it, asked for the policy mutex *)
| QUnlocking                                   (** done, still holds the call mutex *)
| QFinishing
| QReopening
| QClosing
| QDone.

Inductive Job := JLoad (persona canonicalPolicyDir : string) | JClose.

Inductive Thread :=
| TCall (synthetic : option ProxiedTool) (phase : CallPhase)
| TQuiesce (job : Job) (phase : QuiescePhase).

Record Gate := {
  activeToolCalls : nat;
  toolCallAdmissionOpen : bool;
  closed : bool;
  admissionWaiters : list nat;
  drainWaiters : list nat;
  callMutex : list nat;
  policyMutex : list nat;
}.

Record Coordinator := {
  co_options : CoordinatorOptions;
  co_policyEngine : PolicyEngine;
  co_currentPersona : option string;
  co_shared : Shared;
  co_toolMap : gmap string ProxiedTool;
  co_resolvedSandboxConfigs : gmap string bool;
  co_lastUserMessage : option string;
  co_controlServerAddress : option string;
  co_gate : Gate;
  co_threads : list Thread;
}.

(** *** Setters *)

Definition set_gate (g : Gate) (c : Coordinator) : Coordinator :=
  {| co_options := co_options c; co_policyEngine := co_policyEngine c;
     co_currentPersona := co_currentPersona c; co_shared := co_shared c;
     co_toolMap := co_toolMap c; co_resolvedSandboxConfigs := co_resolvedSandboxConfigs c;
     co_lastUserMessage := co_lastUserMessage c;
     co_controlServerAddress := co_controlServerAddress c; co_gate := g;
     co_threads := co_threads c |}.
Definition set_threads (ts : list Thread) (c : Coordinator) : Coordinator :=
  {| co_options := co_options c; co_policyEngine := co_policyEngine c;
     co_currentPersona := co_currentPersona c; co_shared := co_shared c;
     co_toolMap := co_toolMap c; co_resolvedSandboxConfigs := co_resolvedSandboxConfigs c;
     co_lastUserMessage := co_lastUserMessage c;
     co_controlServerAddress := co_controlServerAddress c; co_gate := co_gate c;
     co_threads := ts |}.
Definition set_policy (e : PolicyEngine) (persona : option string) (c : Coordinator) : Coordinator :=
  {| co_options := co_options c; co_policyEngine := e; co_currentPersona := persona;
     co_shared := co_shared c; co_toolMap := co_toolMap c;
     co_resolvedSandboxConfigs := co_resolvedSandboxConfigs c;
     co_lastUserMessage := co_lastUserMessage c;
     co_controlServerAddress := co_controlServerAddress c; co_gate := co_gate c;
     co_threads := co_threads c |}.
Definition set_co_shared (sh : Shared) (c : Coordinator) : Coordinator :=
  {| co_options := co_options c; co_policyEngine := co_policyEngine c;
     co_currentPersona := co_currentPersona c; co_shared := sh;
     co_toolMap := co_toolMap c; co_resolvedSandboxConfigs := co_resolvedSandboxConfigs c;
     co_lastUserMessage := co_lastUserMessage c;
     co_controlServerAddress := co_controlServerAddress c; co_gate := co_gate c;
     co_threads := co_threads c |}.
Definition set_tools (m : gmap string ProxiedTool) (c : Coordinator) : Coordinator :=
  {| co_options := co_options c; co_policyEngine := co_policyEngine c;
     co_currentPersona := co_currentPersona c; co_shared := co_shared c;
     co_toolMap := m; co_resolvedSandboxConfigs := co_resolvedSandboxConfigs c;
     co_lastUserMessage := co_lastUserMessage c;
     co_controlServerAddress := co_controlServerAddress c; co_gate := co_gate c;
     co_threads := co_threads c |}.
Definition setLastUserMessage (message : option string) (c : Coordinator) : Coordinator :=
  {| co_options := co_options c; co_policyEngine := co_policyEngine c;
     co_currentPersona := co_currentPersona c; co_shared := co_shared c;
     co_toolMap := co_toolMap c; co_resolvedSandboxConfigs := co_resolvedSandboxConfigs c;
     co_lastUserMessage := message;
     co_controlServerAddress := co_controlServerAddress c; co_gate := co_gate c;
     co_threads := co_threads c |}.
Definition set_sandboxConfigs (m : gmap string bool) (c : Coordinator) : Coordinator :=
  {| co_options := co_options c; co_policyEngine := co_policyEngine c;
     co_currentPersona := co_currentPersona c; co_shared := co_shared c;
     co_toolMap := co_toolMap c; co_resolvedSandboxConfigs := m;
     co_lastUserMessage := co_lastUserMessage c;
     co_controlServerAddress := co_controlServerAddress c; co_gate := co_gate c;
     co_threads := co_threads c |}.
Definition set_address (a : option string) (c : Coordinator) : Coordinator :=
  {| co_options := co_options c; co_policyEngine := co_policyEngine c;
     co_currentPersona := co_currentPersona c; co_shared := co_shared c;
     co_toolMap := co_toolMap c; co_resolvedSandboxConfigs := co_resolvedSandboxConfigs c;
     co_lastUserMessage := co_lastUserMessage c;
     co_controlServerAddress := a; co_gate := co_gate c; co_threads := co_threads c |}.

Definition set_active (n : nat) (g : Gate) : Gate :=
  {| activeToolCalls := n; toolCallAdmissionOpen := toolCallAdmissionOpen g; closed := closed g;
     admissionWaiters := admissionWaiters g; drainWaiters := drainWaiters g;
     callMutex := callMutex g; policyMutex := policyMutex g |}.
Definition set_open (b : bool) (g : Gate) : Gate :=
  {| activeToolCalls := activeToolCalls g; toolCallAdmissionOpen := b; closed := closed g;
     admissionWaiters := admissionWaiters g; drainWaiters := drainWaiters g;
     callMutex := callMutex g; policyMutex := policyMutex g |}.
Definition set_closed (b : bool) (g : Gate) : Gate :=
  {| activeToolCalls := activeToolCalls g; toolCallAdmissionOpen := toolCallAdmissionOpen g;
     closed := b; admissionWaiters := admissionWaiters g; drainWaiters := drainWaiters g;
     callMutex := callMutex g; policyMutex := policyMutex g |}.
Definition set_admission (l : list nat) (g : Gate) : Gate :=
  {| activeToolCalls := activeToolCalls g; toolCallAdmissionOpen := toolCallAdmissionOpen g;
     closed := closed g; admissionWaiters := l; drainWaiters := drainWaiters g;
     callMutex := callMutex g; policyMutex := policyMutex g |}.
Definition set_drain (l : list nat) (g : Gate) : Gate :=
  {| activeToolCalls := activeToolCalls g; toolCallAdmissionOpen := toolCallAdmissionOpen g;
     closed := closed g; admissionWaiters := admissionWaiters g; drainWaiters := l;
     callMutex := callMutex g; policyMutex := policyMutex g |}.
Definition set_call (l : list nat) (g : Gate) : Gate :=
  {| activeToolCalls := activeToolCalls g; toolCallAdmissionOpen := toolCallAdmissionOpen g;
     closed := closed g; admissionWaiters := admissionWaiters g; drainWaiters := drainWaiters g;
     callMutex := l; policyMutex := policyMutex g |}.
Definition set_policyMutex (l : list nat) (g : Gate) : Gate :=
  {| activeToolCalls := activeToolCalls g; toolCallAdmissionOpen := toolCallAdmissionOpen g;
     closed := closed g; admissionWaiters := admissionWaiters g; drainWaiters := drainWaiters g;
     callMutex := callMutex g; policyMutex := l |}.

(** ** The mutex *)

(** [acquire()]: a token at the end of the chain. *)
Definition acquire (i : nat) (queue : list nat) : list nat := queue ++ [i].

(** Whether the token's predecessors have all been released. *)
Definition granted (i : nat) (queue : list nat) : bool :=
  match queue with j :: _ => i =? j | [] => false end.

(** The holder's [release()]. *)
Definition release (queue : list nat) : list nat := tail queue.

(** ** Policy directories *)

Section coordinator.
Context `{FileSystem} `{PolicyFiles}.

Definition isEqualOrInside (child parent : string) : bool :=
  if child =? parent then true
  else startsWith child (if parent =? "/" then "/" else parent +:+ "/").

Definition validatePolicyDir (policyDir : string) : result string :=
  let resolvedPolicy := resolveRealPath policyDir in
  let trustedDirs := resolveRealPath <$> [ironCurtainHome; packageConfigDir] in
  if negb (existsb (isEqualOrInside resolvedPolicy) trustedDirs) then
    Throw ("policyDir must be under a trusted directory. Received: " +:+ resolvedPolicy
           +:+ "; trusted: " +:+ str_join ", " trustedDirs)
  else Ok resolvedPolicy.

(** ** Construction and registration *)

Definition newGate : Gate :=
  {| activeToolCalls := 0; toolCallAdmissionOpen := true; closed := false; admissionWaiters := [];
     drainWaiters := []; callMutex := []; policyMutex := [] |}.

(** The constructor, with the error of the audit log's [mkdirSync], if any. *)
Definition newCoordinator (options : CoordinatorOptions) (mkdirError : option string) : Coordinator :=
  {| co_options := options;
     co_policyEngine := newPolicyEngine (o_compiledPolicy options) (o_toolAnnotations options)
       (o_protectedPaths options) (o_allowedDirectory options) (o_serverDomainAllowlists options)
       (o_dynamicLists options) (o_trustedServers options);
     co_currentPersona := None;
     co_shared :=
       {| sh_audit := newAuditLog (Some (o_auditRedact options =? Some true)) mkdirError;
          sh_breaker := newCallCircuitBreaker
            (Some {| p_windowMs := None; p_threshold := None;
                     p_workerCount := Some (default (Q2Qc 1) (o_workerCount options)) |});
          sh_whitelist := []; sh_roots := ∅; sh_context := ∅ |};
     co_toolMap := ∅;
     co_resolvedSandboxConfigs := default ∅ (o_resolvedSandboxConfigs options);
     co_lastUserMessage := None; co_controlServerAddress := None;
     co_gate := newGate; co_threads := [] |}.

Definition setClientState (serverName : string) (roots : list McpRoot) (c : Coordinator)
    : Coordinator :=
  set_co_shared (set_roots (<[serverName := roots]> (sh_roots (co_shared c))) (co_shared c)) c.

Definition setResolvedSandboxConfig (serverName : string) (sandboxed : bool) (c : Coordinator)
    : Coordinator :=
  set_sandboxConfigs (<[serverName := sandboxed]> (co_resolvedSandboxConfigs c)) c.

(** [clientState]: the roots of the server's client, when one is passed. *)
Definition registerTools (serverName : string) (tools : list ProxiedTool)
    (clientState : option (list McpRoot)) (c : Coordinator) : Coordinator :=
  let c := set_tools (foldl (λ m tool, <[toolKey serverName (pt_name tool) := tool]> m)
                        (co_toolMap c) tools) c in
  match clientState with
  | Some roots => setClientState serverName roots c
  | None => c
  end.

(** The lookup of [handleStructuredToolCall] for a tool that is not registered. *)
Definition syntheticTool (c : Coordinator) (serverName toolName : string) : option ProxiedTool :=
  match co_toolMap c !! toolKey serverName toolName with
  | Some _ => None
  | None => Some {| pt_serverName := serverName; pt_name := toolName; pt_description := None;
                    pt_inputSchema := [] |}
  end.

(** The dependencies of a call.  The code passes the maps by reference; the pipeline
    reads them before its first [await], so a copy gives it the same contents. *)
Definition buildCallToolDeps (c : Coordinator) (synthetic : option ProxiedTool)
    : CallToolDeps PolicyEngine :=
  let o := co_options c in
  {| d_toolMap :=
       match synthetic with
       | Some t => <[toolKey (pt_serverName t) (pt_name t) := t]> (co_toolMap c)
       | None => co_toolMap c
       end;
     d_policyEngine := co_policyEngine c;
     d_sandboxed := co_resolvedSandboxConfigs c;
     d_allowedDirectory := o_allowedDirectory o;
     d_escalationDir := o_escalationDir o;
     d_autoApproveModel := o_autoApproveModel o;
     d_controlApiClient := o_controlApiClient o;
     d_onEscalation := o_onEscalation o;
     d_autoApproveUserMessage := co_lastUserMessage c;
     d_persona := co_currentPersona c;
     d_isPtySession := o_isPtySession o;
     d_escalationTimeout := o_escalationTimeout o |}.

(** [{ ...src.servers, proxy: ... }] *)
Definition mergeProxyAnnotations (src : StoredToolAnnotationsFile) : StoredToolAnnotationsFile :=
  {| af_generatedAt := af_generatedAt src;
     af_servers := obj_set (af_servers src) "proxy"
                     {| srv_inputHash := "hardcoded"; srv_tools := proxyAnnotations |} |}.

Definition with_rules (policy : CompiledPolicyFile) (rules : list CompiledRule) : CompiledPolicyFile :=
  {| cp_generatedAt := cp_generatedAt policy; cp_constitutionHash := cp_constitutionHash policy;
     cp_inputHash := cp_inputHash policy; cp_rules := rules;
     cp_listDefinitions := cp_listDefinitions policy;
     cp_skippedServers := cp_skippedServers policy |}.

(** The critical section of [loadPolicy]: the new engine and persona, or the old
    ones when the files cannot be loaded. *)
Definition swapPolicy (persona dir : string) (c : Coordinator) : Coordinator :=
  match loadPersonaPolicyArtifacts dir with
  | Throw _ => c
  | Ok (compiledPolicy, dynamicLists) =>
      let o := co_options c in
      let nextEngine :=
        newPolicyEngine (with_rules compiledPolicy (proxyPolicyRules ++ cp_rules compiledPolicy))
          (mergeProxyAnnotations (o_toolAnnotations o)) (o_protectedPaths o) (o_allowedDirectory o)
          (Some (default ∅ (o_serverDomainAllowlists o))) dynamicLists
          (Some (default ∅ (o_trustedServers o))) in
      set_policy nextEngine (Some persona) c
  end.

(** ** Steps *)

(** Resolving the promises of some threads. *)
Definition resume (t : Thread) : Thread :=
  match t with
  | TCall s AdmissionWait => TCall s Entering
  | TQuiesce j QDraining => TQuiesce j QWoken
  | _ => t
  end.

Definition wake (ids : list nat) (ts : list Thread) : list Thread :=
  imap (λ i t, if includes ids i then resume t else t) ts.

(** Move thread [i] to [t] under the gate [g]. *)
Definition moved (i : nat) (t : Thread) (g : Gate) (c : Coordinator) : Coordinator :=
  set_gate g (set_threads (<[i := t]> (co_threads c)) c).

(** What a running call does next. *)
Inductive Choice :=
| Continue
| BeginWait                   (** [runEscalationWait] *)
| Update (sh : Shared).       (** a change of the shared components *)

Definition step_call (c : Coordinator) (i : nat) (s : option ProxiedTool) (p : CallPhase)
    (choice : Choice) : option Coordinator :=
  let g := co_gate c in
  match p with
  | Entering =>
      if closed g then Some (moved i (TCall s Rejected) g c)
      else if toolCallAdmissionOpen g then
        Some (moved i (TCall s Entered) (set_active (S (activeToolCalls g)) g) c)
      else
        Some (moved i (TCall s AdmissionWait) (set_admission (admissionWaiters g ++ [i]) g) c)
  | AdmissionWait => None
  | Entered => Some (moved i (TCall s CallQueued) (set_call (acquire i (callMutex g)) g) c)
  | CallQueued =>
      if granted i (callMutex g)
      then Some (moved i (TCall s (Running (buildCallToolDeps c s))) g c) else None
  | Running deps =>
      match choice with
      | Continue => Some (moved i (TCall s Leaving) (set_call (release (callMutex g)) g) c)
      | BeginWait => Some (moved i (TCall s (Escalating deps)) (set_call (release (callMutex g)) g) c)
      | Update sh => Some (set_co_shared sh c)
      end
  | Escalating deps =>
      Some (moved i (TCall s (Requeued deps)) (set_call (acquire i (callMutex g)) g) c)
  | Requeued deps =>
      if granted i (callMutex g) then Some (moved i (TCall s (Running deps)) g c) else None
  | Leaving =>
      (* leaveToolCall *)
      let n := Nat.pred (activeToolCalls g) in
      let c' := moved i (TCall s CallDone) (set_active n g) c in
      if n =? 0
      then Some (set_gate (set_drain [] (set_active n g))
                   (set_threads (wake (drainWaiters g) (co_threads c')) c'))
      else Some c'
  | CallDone | Rejected => None
  end.

(** The loop head of [withToolCallsQuiesced]: wait, or start the job, which asks
    for the call mutex at once. *)
Definition drain_check (c : Coordinator) (i : nat) (job : Job) (g : Gate) : Coordinator :=
  if (0 <? activeToolCalls g)%nat
  then moved i (TQuiesce job QDraining) (set_drain (drainWaiters g ++ [i]) g) c
  else moved i (TQuiesce job QQueued) (set_call (acquire i (callMutex g)) g) c.

Definition step_quiesce (c : Coordinator) (i : nat) (job : Job) (p : QuiescePhase)
    : option Coordinator :=
  let g := co_gate c in
  match p with
  | QStart =>
      let c := match job with JClose => set_address None c | JLoad _ _ => c end in
      Some (drain_check c i job (set_open false g))
  | QDraining => None
  | QWoken => Some (drain_check c i job g)
  | QQueued =>
      if granted i (callMutex g)
      then Some (moved i (TQuiesce job QLocked) (set_policyMutex (acquire i (policyMutex g)) g) c)
      else None
  | QLocked =>
      if granted i (policyMutex g) then
        let c' := match job with JLoad persona dir => swapPolicy persona dir c | JClose => c end in
        Some (moved i (TQuiesce job QUnlocking) (set_policyMutex (release (policyMutex g)) g) c')
      else None
  | QUnlocking =>
      Some (moved i (TQuiesce job QFinishing) (set_call (release (callMutex g)) g) c)
  | QFinishing =>
      let g := match job with JClose => set_closed true g | JLoad _ _ => g end in
      Some (moved i (TQuiesce job QReopening) g c)
  | QReopening =>
      let next := match job with JClose => QClosing | JLoad _ _ => QDone end in
      let c' := moved i (TQuiesce job next) g c in
      let g' := if closed g then g else set_open true g in
      Some (set_gate (set_admission [] g')
              (set_threads (wake (admissionWaiters g) (co_threads c')) c'))
  | QClosing =>
      let sh := co_shared c in
      Some (moved i (TQuiesce job QDone) g
              (set_co_shared (set_audit (AuditLog.close (sh_audit sh)) sh) c))
  | QDone => None
  end.

Definition step (c : Coordinator) (i : nat) (choice : Choice) : option Coordinator :=
  match co_threads c !! i with
  | None => None
  | Some (TCall s p) => step_call c i s p choice
  | Some (TQuiesce job p) => step_quiesce c i job p
  end.

(** What happens to a coordinator. *)
Inductive Action :=
| HandleToolCall
| HandleStructuredToolCall (serverName toolName : string)
| LoadPolicy (persona policyDir : string)
| Close
| SetLastUserMessage (message : option string)
| RegisterTools (serverName : string) (tools : list ProxiedTool)
    (clientState : option (list McpRoot))
| SetClientState (serverName : string) (roots : list McpRoot)
| SetResolvedSandboxConfig (serverName : string) (sandboxed : bool)
| StartControlServer (address : string)
| Step (i : nat) (choice : Choice).

Definition spawn (t : Thread) (c : Coordinator) : Coordinator :=
  set_threads (co_threads c ++ [t]) c.

Definition act_on (c : Coordinator) (a : Action) : option Coordinator :=
  match a with
  | HandleToolCall => Some (spawn (TCall None Entering) c)
  | HandleStructuredToolCall s t => Some (spawn (TCall (syntheticTool c s t) Entering) c)
  | LoadPolicy persona dir =>
      match validatePolicyDir dir with
      | Ok canonical => Some (spawn (TQuiesce (JLoad persona canonical) QStart) c)
      | Throw _ => None
      end
  | Close => Some (spawn (TQuiesce JClose QStart) c)
  | SetLastUserMessage m => Some (setLastUserMessage m c)
  | RegisterTools s ts cs => Some (registerTools s ts cs c)
  | SetClientState s roots => Some (setClientState s roots c)
  | SetResolvedSandboxConfig s b => Some (setResolvedSandboxConfig s b c)
  | StartControlServer address =>
      match co_controlServerAddress c with Some _ => None | None => Some (set_address (Some address) c) end
  | Step i choice => step c i choice
  end.

Fixpoint run (c : Coordinator) (actions : list Action) : option Coordinator :=
  match actions with
  | [] => Some c
  | a :: actions => c' ← act_on c a; run c' actions
  end.

Inductive reachable : Coordinator → Prop :=
| reachable_new options mkdirError : reachable (newCoordinator options mkdirError)
| reachable_step c a c' : reachable c → act_on c a = Some c' → reachable c'.
End coordinator.

(** ** The structured result *)

Inductive ResultStatus := ResultSuccess | ResultDenied | ResultError.

(** The status and decision that [handleStructuredToolCall] reports. *)
Definition structuredStatus (response : ToolCallResponse) : ResultStatus :=
  if resp_isError response =? Some true then
    if pd_status <$> resp_policyDecision response =? Some Deny then ResultDenied else ResultError
  else ResultSuccess.

Definition structuredDecision (response : ToolCallResponse) : PolicyDecision :=
  default
    {| pd_status := Allow; pd_rule := "synthesized";
       pd_reason := default (if resp_isError response =? Some true then "error" else "ok")
                      (extractTextFromContent (resp_content response)) |}
    (resp_policyDecision response).
