(* ===== verification/PipelineTheory.v ===== *)
(** * Reasoning about the pipeline

    A program logic for the pipeline's monad: [emits I m Φ] says that [m], started
    in a shared state that satisfies [I], ends in one that satisfies [I], extends
    the trace, and that the new events and the outcome satisfy [Φ]. *)

From S2P Require Import Prelude JsValue Paths Urls Roles Domains PolicyTypes PolicyEngine PolicyEngineTheory.
From S2P Require Import PathArgs Hashing CircuitBreaker Tools EscalationIpc AutoApprover ProxyTools AuditLog Whitelist.
From S2P Require Import Pipeline.

Definition emits {A} (I : Shared → Prop) (m : M A) (Φ : list Event → A + JsError → Prop) : Prop :=
  ∀ s, I (st_shared s) →
    I (st_shared (m s).1) ∧ ∃ new, st_trace (m s).1 = st_trace s ++ new ∧ Φ new (m s).2.

Section logic.
Context {I : Shared → Prop}.

Lemma emits_mono {A} (m : M A) (Φ Ψ : list Event → A + JsError → Prop) :
  emits I m Φ → (∀ n r, Φ n r → Ψ n r) → emits I m Ψ.
Proof. intros Hm HΦ s HI. destruct (Hm s HI) as (HI' & n & Ht & Hn). eauto. Qed.

Lemma emits_ret {A} (a : A) (Φ : list Event → A + JsError → Prop) :
  Φ [] (inl a) → emits I (mret a) Φ.
Proof. intros HΦ s HI. split; [done|]. exists []. by rewrite app_nil_r. Qed.

Lemma emits_raise {A} e (Φ : list Event → A + JsError → Prop) :
  Φ [] (inr e) → emits I (raise e) Φ.
Proof. intros HΦ s HI. split; [done|]. exists []. by rewrite app_nil_r. Qed.

Lemma emits_bind {A B} (m : M A) (f : A → M B) (Φ : list Event → A + JsError → Prop)
    (Ψ : list Event → B + JsError → Prop) :
  emits I m Φ →
  (∀ n a, Φ n (inl a) → emits I (f a) (λ n' r, Ψ (n ++ n') r)) →
  (∀ n e, Φ n (inr e) → Ψ n (inr e)) →
  emits I (m ≫= f) Ψ.
Proof.
  intros Hm Hf He s HI. destruct (Hm s HI) as (HI1 & n & Ht & Hn).
  unfold mbind, M_bind. destruct (m s) as [s1 [a|e]]; simpl in *.
  - destruct (Hf n a Hn s1 HI1) as (HI2 & n' & Ht' & Hn'). split; [done|].
    exists (n ++ n'). by rewrite Ht', Ht, app_assoc.
  - split; [done|]. exists n. auto.
Qed.

Lemma emits_try {A} (m : M A) (h : JsError → M A) (Φ Ψ : list Event → A + JsError → Prop) :
  emits I m Φ →
  (∀ n a, Φ n (inl a) → Ψ n (inl a)) →
  (∀ n e, Φ n (inr e) → emits I (h e) (λ n' r, Ψ (n ++ n') r)) →
  emits I (try_catch m h) Ψ.
Proof.
  intros Hm Ha Hh s HI. destruct (Hm s HI) as (HI1 & n & Ht & Hn).
  unfold try_catch. destruct (m s) as [s1 [a|e]]; simpl in *.
  - split; [done|]. exists n. auto.
  - destruct (Hh n e Hn s1 HI1) as (HI2 & n' & Ht' & Hn'). split; [done|].
    exists (n ++ n'). by rewrite Ht', Ht, app_assoc.
Qed.

Lemma emits_ask {A} (f : nat → A) (Φ : list Event → A + JsError → Prop) :
  (∀ t, Φ [] (inl (f t))) → emits I (ask f) Φ.
Proof. intros HΦ s HI. split; [done|]. exists []. rewrite app_nil_r. split; [done|apply HΦ]. Qed.

Lemma emits_get (Φ : list Event → Shared + JsError → Prop) :
  (∀ sh, I sh → Φ [] (inl sh)) → emits I get_shared Φ.
Proof. intros HΦ s HI. split; [done|]. exists []. rewrite app_nil_r. split; [done|by apply HΦ]. Qed.

Lemma emits_modify f (Φ : list Event → unit + JsError → Prop) :
  (∀ sh, I sh → I (f sh)) → Φ [] (inl ()) → emits I (modify_shared f) Φ.
Proof. intros Hf HΦ s HI. split; [by apply Hf|]. exists []. by rewrite app_nil_r. Qed.

Lemma emits_emit ev (Φ : list Event → unit + JsError → Prop) :
  Φ [ev] (inl ()) → emits I (emit ev) Φ.
Proof. intros HΦ s HI. split; [done|]. by exists [ev]. Qed.

Lemma emits_ask_or_raise {A} (f : nat → A + JsError) (Φ : list Event → A + JsError → Prop) :
  (∀ t, Φ [] (f t)) → emits I (ask_or_raise f) Φ.
Proof.
  intros HΦ. unfold ask_or_raise.
  eapply (emits_bind _ _ (λ n r, n = [] ∧ ∃ t, r = inl (f t))).
  - apply emits_ask. eauto.
  - intros n a (-> & t & [= ->]). specialize (HΦ t).
    destruct (f t); [by apply emits_ret|by apply emits_raise].
  - by intros n e (_ & t & ?).
Qed.

Lemma emits_lift {A} (r : result A) (Φ : list Event → A + JsError → Prop) :
  match r with Ok a => Φ [] (inl a) | Throw e => Φ [] (inr (PlainError e)) end →
  emits I (lift r) Φ.
Proof. destruct r; intros HΦ; [by apply emits_ret|by apply emits_raise]. Qed.
End logic.

(** Bind after an answer of the world that emits nothing. *)
Lemma emits_bind_ask {A B} {I} (f : nat → A) (k : A → M B) (Ψ : list Event → B + JsError → Prop) :
  (∀ t, emits I (k (f t)) Ψ) → emits I (ask f ≫= k) Ψ.
Proof.
  intros Hk. eapply (emits_bind _ _ (λ n r, n = [] ∧ ∃ t, r = inl (f t))).
  - apply emits_ask. eauto.
  - intros n a (-> & t & [= ->]). apply Hk.
  - by intros n e (_ & t & ?).
Qed.

Lemma emits_bind_get {B} {I : Shared → Prop} (k : Shared → M B)
    (Ψ : list Event → B + JsError → Prop) :
  (∀ sh, I sh → emits I (k sh) Ψ) → emits I (get_shared ≫= k) Ψ.
Proof.
  intros Hk. eapply (emits_bind _ _ (λ n r, n = [] ∧ ∃ sh, I sh ∧ r = inl sh)).
  - apply emits_get. eauto.
  - intros n a (-> & sh & HI & [= ->]). by apply Hk.
  - by intros n e (_ & t & _ & ?).
Qed.

Lemma emits_bind_modify {B} {I : Shared → Prop} f (k : unit → M B)
    (Ψ : list Event → B + JsError → Prop) :
  (∀ sh, I sh → I (f sh)) → emits I (k ()) Ψ → emits I (modify_shared f ≫= k) Ψ.
Proof.
  intros Hf Hk. eapply (emits_bind _ _ (λ n r, n = [] ∧ r = inl ())).
  - by apply emits_modify.
  - by intros n [] (-> & _).
  - by intros n e (_ & ?).
Qed.

Lemma emits_bind_emit {B} {I} ev (k : unit → M B) (Ψ : list Event → B + JsError → Prop) :
  emits I (k ()) (λ n r, Ψ (ev :: n) r) → emits I (emit ev ≫= k) Ψ.
Proof.
  intros Hk. eapply (emits_bind _ _ (λ n r, n = [ev] ∧ r = inl ())).
  - by apply emits_emit.
  - by intros n [] (-> & _).
  - by intros n e (_ & ?).
Qed.

(** Two answers in a row come from consecutive ticks. *)
Lemma emits_bind_ask2 {A B C} {I} (f : nat → A) (g : A → nat → B) (k : A → B → M C)
    (Ψ : list Event → C + JsError → Prop) :
  (∀ t, emits I (k (f t) (g (f t) (S t))) Ψ) → emits I (a ← ask f; b ← ask (g a); k a b) Ψ.
Proof.
  intros Hk s HI. unfold mbind, M_bind, ask. simpl.
  apply (Hk (st_tick s) {| st_shared := st_shared s; st_tick := S (S (st_tick s));
                           st_trace := st_trace s |} HI).
Qed.

(** * The stages of the pipeline, specified

    Every stage of [handleCallTool] against the program logic.  The section's
    [J] is an invariant of the audit log and [can_fail] what an exception lets one
    conclude; they are instantiated with [True] for safety, and with a live log
    and [False] to show that a call always gets a response. *)

(** ** Classifying events *)

Definition is_forward (ev : Event) : bool :=
  match ev with EvForward _ _ _ => true | _ => false end.

Definition forwards (n : list Event) : nat := length (filter (λ ev, is_forward ev = true) n).

(** An effect of an allowed call: on a server, or on the proxy. *)
Definition is_effect (ev : Event) : bool :=
  match ev with EvForward _ _ _ | EvControl _ => true | _ => false end.

(** An approval of an escalation. *)
Definition is_approval (ev : Event) : bool :=
  match ev with
  | EvWhitelisted _ | EvAutoApproved _ => true
  | EvHuman d => bool_decide (d = Approved)
  | _ => false
  end.

Lemma forwards_app n1 n2 : forwards (n1 ++ n2) = forwards n1 + forwards n2.
Proof. unfold forwards. by rewrite filter_app, length_app. Qed.

Lemma forwards_cons ev n : forwards (ev :: n) = (if is_forward ev then 1 else 0) + forwards n.
Proof. unfold forwards. rewrite filter_cons. by destruct (is_forward ev). Qed.

(** Counting the forwarded calls in a concrete list of events. *)
Ltac count_forwards :=
  cbn [app]; rewrite ?forwards_app, ?forwards_cons; cbn [is_forward];
  change (forwards []) with 0; try lia.

Section theory.
Context `{FileSystem} `{UrlParser} `{Runtime} `{World} `{PolicyDecider P}.
Variable deps : CallToolDeps P.
Variable J : AuditLog → Prop.
Variable can_fail : Prop.

Definition I (sh : Shared) : Prop := J (sh_audit sh).

Hypothesis J_log : ∀ a t entry, J a → J (log a (w_append t entry) entry).1.
Hypothesis J_fail : ∀ a t entry msg,
  J a → (log a (w_append t entry) entry).2 = Throw msg → can_fail.
Hypothesis J_interfere : ∀ t sh, J (sh_audit sh) → J (sh_audit (w_interfere t sh)).
Hypothesis human_fail : ∀ t q e, w_onEscalation t q = inr e → can_fail.
Hypothesis files_fail : ∀ t req resp,
  match waitForEscalationDecision (w_pollClock (S t)) (w_responseFile (S t)) (w_requestWrite (S t)) (pollFuel deps) (w_now t)
          (getEscalationTimeoutMs (d_escalationTimeout deps)) req resp with
  | Some (_, Ok _) => True
  | _ => can_fail
  end.
Hypothesis server_fail : ∀ t s n a e msg,
  w_callTool t s n a = inr e → extractMcpErrorMessage e = Throw msg → can_fail.
Hypothesis roots_fail : ∀ t s e, w_sendRootsListChanged t s = inr e → can_fail.

Implicit Types (c : CallContext) (v : Verdict).

(** ** Auditing *)

Lemma logEntry_spec entry :
  emits I (logEntry entry)
    (λ n r, (n = [EvAudit entry] ∧ r = inl ()) ∨ (n = [] ∧ ∃ e, r = inr e ∧ can_fail)).
Proof.
  intros s HI. unfold logEntry, ask, get_shared, modify_shared, emit, lift, mbind, M_bind, mret.
  cbn [st_shared st_tick st_trace].
  pose proof (J_log (sh_audit (st_shared s)) (st_tick s) entry HI) as HJ.
  pose proof (J_fail (sh_audit (st_shared s)) (st_tick s) entry) as HF.
  destruct (log _ _ _) as [a' [[]|msg]]; simpl in *; (split; [exact HJ|]).
  - exists [EvAudit entry]. auto.
  - exists []. rewrite app_nil_r. split; [done|]. right. split; [done|]. eauto.
Qed.

Lemma emits_bind_log {B} entry (k : unit → M B) (Ψ : list Event → B + JsError → Prop) :
  emits I (k ()) (λ n r, Ψ (EvAudit entry :: n) r) →
  (∀ e, can_fail → Ψ [] (inr e)) →
  emits I (logEntry entry ≫= k) Ψ.
Proof.
  intros Hk He. eapply emits_bind; [apply logEntry_spec| |].
  - intros n [] [[-> _]|[_ (e & ? & _)]]; [apply Hk|done].
  - intros n e [[_ ?]|[-> (e' & [= ->] & Hc)]]; [done|by apply He].
Qed.

(** A response after its audit entry. *)
Definition answered c (n : list Event) (r : ToolCallResponse + JsError) : Prop :=
  match r with
  | inl resp => ∃ pre entry, n = pre ++ [EvAudit entry] ∧
      ae_requestId entry = rq_requestId (cc_request c) ∧
      (ar_status (ae_result entry) = AuditSuccess ↔ resp_isError resp = None)
  | inr _ => can_fail
  end.

Lemma answered_app c n1 n2 r : answered c n2 r → answered c (n1 ++ n2) r.
Proof.
  destruct r as [resp|e]; [|done]. intros (pre & entry & -> & Hid & Hst).
  exists (n1 ++ pre), entry. by rewrite app_assoc.
Qed.

(** Events a stage may emit on behalf of a call. *)
Definition dispatch_event c (ev : Event) : Prop :=
  match ev with
  | EvAudit entry => ae_requestId entry = rq_requestId (cc_request c)
  | EvForward s t a => s = pt_serverName (cc_tool c) ∧ t = pt_name (cc_tool c) ∧ a = cc_transport c
  | EvControl _ => pt_serverName (cc_tool c) = "proxy"
  | _ => False
  end.

Definition dispatched c (n : list Event) (r : ToolCallResponse + JsError) : Prop :=
  answered c n r ∧ Forall (dispatch_event c) n.

(** Log, then answer. *)
Lemma log_answer c v status err dur ov resp (pre : list Event) :
  (status = AuditSuccess ↔ resp_isError resp = None) →
  emits I (_ ← logAudit deps c v (audit_result status err) dur ov; mret resp)
    (λ n r, answered c (pre ++ n) r ∧ Forall (dispatch_event c) n ∧ forwards n = 0).
Proof.
  intros Hst. unfold logAudit. apply emits_bind_log.
  - apply emits_ret. split; [|split; [by repeat constructor|count_forwards; done]].
    exists pre. eexists. split; [done|]. split; [done|]. exact Hst.
  - intros e Hc. split; [by destruct e|]. split; [constructor|done].
Qed.

Lemma emits_bind_elapsed {B} startTime (k : Z → M B) (Ψ : list Event → B + JsError → Prop) :
  (∀ d, emits I (k d) Ψ) → emits I (elapsed startTime ≫= k) Ψ.
Proof.
  intros Hk. eapply (emits_bind _ _ (λ n r, n = [] ∧ ∃ d, r = inl d)).
  - unfold elapsed, now. apply emits_bind_ask. intros t. apply emits_ret. eauto.
  - intros n d (-> & _). apply Hk.
  - by intros n e (_ & d & ?).
Qed.

(** ** Dispatch *)

(** An exception whose message can be extracted. *)
Definition readable {A} (r : A + JsError) : Prop :=
  match r with
  | inl _ => True
  | inr e => ∀ msg, extractMcpErrorMessage e = Throw msg → can_fail
  end.

Lemma callTool_spec c :
  emits I (callTool c)
    (λ n r, n = [EvForward (pt_serverName (cc_tool c)) (pt_name (cc_tool c)) (cc_transport c)] ∧
            readable r).
Proof.
  unfold callTool. apply emits_bind_emit, emits_ask_or_raise. intros t. split; [done|].
  unfold readable. destruct (w_callTool _ _ _ _) eqn:Hw; [done|]. intros msg. by eapply server_fail.
Qed.

Lemma callWithRetry_spec c v re start :
  emits I (callWithRetry deps c v re start)
    (λ n r, Forall (dispatch_event c) n ∧ 1 ≤ forwards n ≤ (if re then 2 else 1) ∧ readable r).
Proof.
  unfold callWithRetry. eapply emits_bind; [apply callTool_spec| |].
  - assert (Hone : ∀ a,
      emits I (mret a : M (object jsvalue)) (λ n r,
        Forall (dispatch_event c) (EvForward (pt_serverName (cc_tool c)) (pt_name (cc_tool c))
          (cc_transport c) :: n) ∧
        1 ≤ forwards (EvForward (pt_serverName (cc_tool c)) (pt_name (cc_tool c))
          (cc_transport c) :: n) ≤ (if re then 2 else 1) ∧ readable r)).
    { intros a. apply emits_ret. split; [by repeat constructor|]. split; [|done].
      destruct re; count_forwards. }
    intros n a [-> _]. destruct re; simpl; [|apply Hone].
    destruct (isRootsRaceError a); [|apply Hone].
    apply emits_bind_elapsed. intros d. unfold logAudit. apply emits_bind_log.
    + eapply emits_mono; [apply callTool_spec|]. intros n r [-> Hr].
      split; [by repeat constructor|]. split; [count_forwards|done].
    + intros e Hc. split; [by repeat constructor|]. split; [count_forwards|by intros ? _].
  - intros n e [-> Hr]. split; [by repeat constructor|]. split; [|done]. destruct re; count_forwards.
Qed.

Lemma forwardFailed_spec c v start err (pre : list Event) :
  readable (inr err : ToolCallResponse + JsError) →
  emits I (forwardFailed deps c v start err)
    (λ n r, answered c (pre ++ n) r ∧ Forall (dispatch_event c) n ∧ forwards n = 0).
Proof.
  intros Hread. unfold forwardFailed.
  destruct (extractMcpErrorMessage err) as [rawError|msg] eqn:Hx.
  - apply emits_bind_elapsed. intros d. by apply log_answer.
  - apply emits_raise. split; [by eapply Hread|]. by split; [constructor|].
Qed.

(** A stage that answers and forwards at most [k] calls. *)
Definition stage c (k : nat) (n : list Event) (r : ToolCallResponse + JsError) : Prop :=
  answered c n r ∧ Forall (dispatch_event c) n ∧ forwards n ≤ k.

Lemma stage_prefix c k1 k2 n1 n2 r :
  Forall (dispatch_event c) n1 → forwards n1 ≤ k1 → stage c k2 n2 r → stage c (k1 + k2) (n1 ++ n2) r.
Proof.
  intros Hn1 Hf1 (Ha & Hn2 & Hf2). split; [by apply answered_app|].
  split; [by apply Forall_app|]. rewrite forwards_app. lia.
Qed.

(** Log, then answer, after some events of the call. *)
Lemma log_stage c v status err dur ov resp pre k :
  (status = AuditSuccess ↔ resp_isError resp = None) →
  Forall (dispatch_event c) pre → forwards pre ≤ k →
  emits I (_ ← logAudit deps c v (audit_result status err) dur ov; mret resp)
    (λ n r, stage c k (pre ++ n) r).
Proof.
  intros Hst Hpre Hk. eapply emits_mono; [by apply log_answer|]. intros n r (Ha & Hn & Hf).
  split; [exact Ha|]. split; [by apply Forall_app|]. rewrite forwards_app. lia.
Qed.

(** What [forward] leaves behind: a stage, or an exception before any answer. *)
Definition forward_outcome c (k : nat) (n : list Event) (r : ToolCallResponse + JsError) : Prop :=
  match r with
  | inl _ => stage c k n r
  | inr _ => Forall (dispatch_event c) n ∧ forwards n ≤ k ∧ readable r
  end.

Lemma stage_outcome c k n r : stage c k n r → forward_outcome c k n r.
Proof. destruct r; [done|]. intros (Hc & ? & ?). split_and!; [done..|]. by intros ? _. Qed.

Lemma forward_spec c v re start :
  emits I (forward deps c v re start) (forward_outcome c (if re then 2 else 1)).
Proof.
  unfold forward. apply emits_bind_get. intros sh _. destruct (_ !! _).
  2:{ eapply emits_mono; [eapply (log_stage _ _ _ _ _ _ _ []); [done|constructor|]|].
      - apply Nat.le_0_l.
      - intros n r. apply stage_outcome. }
  eapply emits_bind; [apply callWithRetry_spec| |].
  - intros n result (Hn & [_ Hk] & _). destruct (truthy _).
    + apply emits_bind_elapsed. intros d.
      eapply emits_mono; [by eapply log_stage|]. intros n' r. apply stage_outcome.
    + apply emits_bind_modify; [done|]. apply emits_bind_elapsed. intros d.
      eapply emits_mono; [by eapply log_stage|]. intros n' r. apply stage_outcome.
  - intros n e (Hn & [_ Hk] & Hr). by split_and!.
Qed.

Lemma dispatchForward_spec c v re :
  emits I (dispatchForward deps c v re) (stage c (if re then 2 else 1)).
Proof.
  unfold dispatchForward, now. apply emits_bind_ask. intros t.
  eapply emits_try; [apply forward_spec|done|].
  intros n e (Hn & Hk & Hread). eapply emits_mono; [by apply forwardFailed_spec|].
  intros n' r (Ha & Hn' & Hf). split; [exact Ha|]. split; [by apply Forall_app|].
  rewrite forwards_app. lia.
Qed.

Lemma emit_controls_spec c rs :
  pt_serverName (cc_tool c) = "proxy" →
  emits I (emit_controls rs)
    (λ n r, Forall (dispatch_event c) n ∧ forwards n = 0 ∧ r = inl ()).
Proof.
  intros Hp. induction rs as [|x rs IH]; cbn [emit_controls].
  - apply emits_ret. by repeat constructor.
  - apply emits_bind_emit. eapply emits_mono; [apply IH|]. intros n r (Hn & Hf & ->).
    rewrite forwards_cons. by repeat constructor.
Qed.

Lemma dispatchVirtual_spec c v :
  pt_serverName (cc_tool c) = "proxy" →
  emits I (dispatchVirtual deps c v) (stage c 0).
Proof.
  intros Hp. unfold dispatchVirtual, now. apply emits_bind_ask. intros t.
  eapply (emits_try _ _ (forward_outcome c 0)); [|done|].
  - apply emits_bind_ask. intros t'.
    eapply emits_bind; [by apply emit_controls_spec| |by intros n e (_ & _ & ?)].
    intros n [] (Hn & Hf & _).
    eapply (emits_bind _ _ (λ n' r, n' = [] ∧ readable r)).
    + apply emits_lift. by case_match.
    + intros n' result [-> _]. apply emits_bind_elapsed. intros d.
      eapply emits_mono; [eapply (log_stage _ _ _ _ _ _ _ n); [done|exact Hn|lia]|].
      intros n' r. apply stage_outcome.
    + intros n' e [-> Hr]. rewrite app_nil_r. split_and!; [done|lia|done].
  - intros n e (Hn & Hk & _). apply emits_bind_elapsed. intros d. by apply log_stage.
Qed.

Lemma dispatch_spec c v re :
  emits I (dispatch deps c v re) (stage c (if re then 2 else 1)).
Proof.
  unfold dispatch. eapply (emits_bind _ _ (λ n r, n = [] ∧ ∃ a, r = inl a)).
  - unfold checkBreaker, now. apply emits_bind_ask. intros t. apply emits_bind_get. intros sh _.
    destruct (CircuitBreaker.check _ _ _ _) as [b vd].
    apply emits_bind_modify; [done|]. apply emits_ret. eauto.
  - intros n verdict [-> _]. destruct verdict as [|reason].
    + destruct ((_ =? "proxy") && _) eqn:Hp; [|apply dispatchForward_spec].
      bool_hyps. eapply emits_mono; [by apply dispatchVirtual_spec|].
      intros n r (Ha & Hn & Hf). split; [done|]. split; [done|]. cbn [app].
      destruct re; lia.
    + apply (log_stage _ _ _ _ _ _ _ []); [done|constructor|]. apply Nat.le_0_l.
  - by intros n e (_ & a & ?).
Qed.

(** ** Escalation *)

Lemma tryAutoApprove_spec c :
  emits I (tryAutoApprove deps c) (λ n r, n = [] ∧ ∃ a, r = inl a).
Proof.
  assert (Hret : ∀ {A} (a : A), emits I (mret a) (λ n r, n = [] ∧ ∃ a, r = inl a)).
  { intros. apply emits_ret. eauto. }
  assert (Hmsg : emits I (autoApproveMessage deps) (λ n r, n = [] ∧ ∃ a, r = inl a)).
  { unfold autoApproveMessage. destruct (d_autoApproveUserMessage deps); [apply Hret|].
    destruct (truthy_string _); [|apply Hret]. apply emits_bind_ask. intros t.
    destruct (readUserContext _); [|apply Hret]. apply emits_bind_ask. intros t2.
    apply emits_bind_ask. intros t3. destruct (readUserContext _); [|apply Hret].
    destruct (isUserContextTrusted _ _ _); apply Hret. }
  unfold tryAutoApprove. destruct (negb _); [apply Hret|].
  eapply emits_bind; [exact Hmsg| |by intros n e (_ & a & ?)].
  intros n m [-> _]. destruct m; [|apply Hret]. apply emits_bind_ask. intros t.
  destruct (aa_decision _); apply Hret.
Qed.

(** How a wait ends: the events tell who settled it. *)
Definition waited (n : list Event) (r : WaitResult + JsError) : Prop :=
  match r with
  | inl (WaitAutoApproved reason) => n = [EvAutoApproved reason]
  | inl (WaitHuman response) => n = [EvHuman (esc_decision response)]
  | inr _ => n = [] ∧ can_fail
  end.

Lemma human_answer_spec c id candidates context :
  emits I
    (if d_onEscalation deps then
       ask_or_raise (λ t, w_onEscalation t
         {| hq_request := with_arguments (cc_request c) (cc_transport c);
            hq_reason := er_reason (cc_evaluation c); hq_context := context;
            hq_candidates := candidates |})
     else
       match d_escalationDir deps with
       | Some dir => askByFiles deps dir id
       | None => mret {| esc_decision := Denied; esc_whitelistSelection := None |}
       end)
    (λ n r, n = [] ∧ match r with inl _ => True | inr _ => can_fail end).
Proof.
  destruct (d_onEscalation deps).
  - apply emits_ask_or_raise. intros t. split; [done|].
    destruct (w_onEscalation _ _) eqn:Hw; [done|]. by eapply human_fail.
  - destruct (d_escalationDir deps) as [dir|]; [|by apply emits_ret].
    unfold askByFiles. apply emits_bind_ask2. intros t.
    match goal with |- context [waitForEscalationDecision ?a ?b ?wr ?f ?s ?to ?rq ?rs] =>
      pose proof (files_fail t rq rs) as Hf;
      destruct (waitForEscalationDecision a b wr f s to rq rs) as [[ev [resp|msg]]|] end.
    + by apply emits_ret.
    + by apply emits_raise.
    + by apply emits_raise.
Qed.

Lemma waitForDecision_spec c id context ipcs :
  emits I (waitForDecision deps c id context ipcs) waited.
Proof.
  unfold waitForDecision.
  eapply emits_bind; [apply tryAutoApprove_spec| |by intros n e (_ & a & ?)].
  intros n auto [-> _]. destruct auto as [reason|].
  { apply emits_bind_emit, emits_ret. done. }
  eapply emits_bind; [apply human_answer_spec| |].
  - intros n resp [-> _]. apply emits_bind_emit, emits_ret. done.
  - intros n e [-> Hc]. done.
Qed.

Lemma applySelection_spec sel patterns :
  (∀ pd, pd ∈ patterns → wp_constraints pd ≠ []) →
  emits I (applySelection sel patterns) (λ n r, n = [] ∧ r = inl ()).
Proof.
  intros Hpd. unfold applySelection. destruct sel as [i|]; [|by apply emits_ret].
  destruct (_ && _); [|by apply emits_ret].
  destruct (patterns !! Z.to_nat i) as [pd|] eqn:Hl; [|by apply emits_ret].
  apply emits_bind_ask. intros t. apply emits_bind_get. intros sh _.
  unfold Whitelist.add. rewrite bool_decide_eq_false_2.
  - by apply emits_modify.
  - intros Hn%nil_length_inv. apply (Hpd pd); [by eapply list_elem_of_lookup_2|done].
Qed.

(** Events of the escalation stage: no effect on a server. *)
Definition escalation_event c (ev : Event) : Prop :=
  match ev with
  | EvAudit entry => ae_requestId entry = rq_requestId (cc_request c)
  | EvForward _ _ _ | EvControl _ => False
  | _ => True
  end.

Definition no_approval (n : list Event) : Prop := Forall (λ ev, is_approval ev = false) n.

Definition refused (resp : ToolCallResponse) : Prop :=
  pd_status <$> resp_policyDecision resp = Some Deny ∧ resp_isError resp = Some true.

(** Approvals without a human denial. *)
Definition approved (n : list Event) : Prop :=
  Exists (λ ev, is_approval ev = true) n ∧ EvHuman Denied ∉ n.

Definition settled {A} c (n : list Event) (r : (ToolCallResponse + A) + JsError) : Prop :=
  Forall (escalation_event c) n ∧
  match r with
  | inl (inl resp) => answered c n (inl resp) ∧ refused resp ∧ no_approval n
  | inl (inr _) => approved n
  | inr _ => can_fail
  end.

Lemma candidates_nonempty s t args annotation roles id reason now pds ds :
  extractWhitelistCandidates s t args annotation roles id reason now = (pds, ds) →
  ∀ pd, pd ∈ pds → wp_constraints pd ≠ [].
Proof.
  unfold extractWhitelistCandidates. case_bool_decide as Hl; intros [= <- _] pd; [set_solver|].
  intros ->%list_elem_of_singleton. simpl. intros Hn. by rewrite Hn in Hl.
Qed.

(** Log a denial, then refuse, after events of the escalation. *)
Lemma log_refuse {A} c v err dur ov resp pre :
  refused resp → Forall (escalation_event c) pre → no_approval pre →
  emits I (_ ← logAudit deps c v (audit_result AuditDenied err) dur ov;
           mret (inl resp : ToolCallResponse + A)) (λ n r, settled c (pre ++ n) r).
Proof.
  intros Href Hpre Hno. unfold logAudit. apply emits_bind_log.
  - apply emits_ret. split; [apply Forall_app; by repeat constructor|].
    split; [|split; [done|apply Forall_app; by repeat constructor]].
    exists pre. eexists. split; [done|]. split; [done|]. simpl.
    destruct Href as [_ ->]. done.
  - intros e Hc. split; [by rewrite app_nil_r|done].
Qed.

Lemma settleEscalation_spec c annotation v :
  emits I (settleEscalation deps c annotation v) (settled c).
Proof.
  unfold settleEscalation. destruct (_ && _).
  { apply (log_refuse _ _ _ _ _ _ []); [by split|constructor..]. }
  apply emits_bind_ask. intros t1. apply emits_bind_ask. intros t2.
  destruct (extractWhitelistCandidates _ _ _ _ _ _ _ _) as [patterns ipcs] eqn:Hex.
  apply emits_bind_get. intros sh _.
  eapply (emits_bind _ _ (λ n r, match r with
      | inl _ => waited n r | inr _ => Forall (escalation_event c) n ∧ can_fail end)).
  - eapply emits_try; [|by intros n [] Hn|].
    + apply emits_bind_ask. intros t3. apply emits_bind_modify; [intros ?; apply J_interfere|].
      apply waitForDecision_spec.
    + intros n e [-> Hc]. unfold logAudit. apply emits_bind_log.
      * apply emits_raise. split; [by repeat constructor|done].
      * intros e' _. split; [constructor|done].
  - intros n [reason|response]; simpl; intros ->.
    { apply emits_ret. split; [by repeat constructor|]. split; [by constructor|set_solver]. }
    case_bool_decide as Hd.
    + apply (log_refuse _ _ _ _ _ _ [_]); [by split|by repeat constructor|].
      rewrite Hd. by repeat constructor.
    + eapply emits_bind; [apply applySelection_spec; by eapply candidates_nonempty| |].
      * intros n [] [-> _]. apply emits_ret. split; [by repeat constructor|].
        destruct (esc_decision response); [|done]. split; [by constructor|set_solver].
      * by intros n e [_ ?].
  - intros n e [Hn Hc]. by split.
Qed.

Definition only_roots (n : list Event) : Prop :=
  Forall (λ ev, match ev with EvRoot _ _ => True | _ => False end) n.

Lemma expandRoots_spec c :
  emits I (expandRoots c) (λ n r, only_roots n ∧ match r with inl _ => True | inr _ => can_fail end).
Proof.
  assert (Hadd : ∀ s root, emits I (addRootToClient s root)
      (λ n r, only_roots n ∧ match r with inl _ => True | inr _ => can_fail end)).
  { intros s root. unfold addRootToClient. apply emits_bind_get. intros sh _.
    destruct (existsb _ _); [apply emits_ret; split; [constructor|done]|].
    apply emits_bind_modify; [done|]. apply emits_bind_emit, emits_ask_or_raise.
    intros t. split; [by repeat constructor|]. destruct (w_sendRootsListChanged _ _) eqn:Hr; [done|].
    by eapply roots_fail. }
  assert (Hall : ∀ s paths b, emits I (addRoots s paths b)
      (λ n r, only_roots n ∧ match r with inl _ => True | inr _ => can_fail end)).
  { intros s paths. induction paths as [|p paths IH]; intros b; cbn [addRoots].
    - apply emits_ret. by repeat constructor.
    - eapply emits_bind; [apply Hadd| |by intros n e].
      intros n added [Hn _]. eapply emits_mono; [apply IH|]. intros n' r [Hn' Hr].
      split; [by apply Forall_app|done]. }
  unfold expandRoots. apply emits_bind_get. intros sh _.
  destruct (_ !! _), (cc_annotation c); try apply Hall; apply emits_ret; by repeat constructor.
Qed.

Lemma only_roots_escalation c n : only_roots n → Forall (escalation_event c) n.
Proof. intros Hn. eapply Forall_impl; [exact Hn|]. by intros []. Qed.

Lemma approved_roots n1 n2 : approved n1 → only_roots n2 → approved (n1 ++ n2).
Proof.
  intros [Ha Hd] Hn. split; [apply Exists_app; by left|].
  rewrite elem_of_app. intros [?|Hin]; [done|]. unfold only_roots in Hn.
  rewrite Forall_forall in Hn. by apply Hn in Hin.
Qed.

Lemma handleEscalation_spec c v :
  (cc_annotation c = None → can_fail) →
  emits I (handleEscalation deps c v) (settled c).
Proof.
  intros Hann. unfold handleEscalation. destruct (cc_annotation c) as [annotation|] eqn:Ha.
  2:{ apply emits_raise. split; [constructor|auto]. }
  apply emits_bind_get. intros sh _.
  eapply (emits_bind _ _ (settled c)).
  - destruct (match_call _ _ _ _ _) as [pattern|]; [|apply settleEscalation_spec].
    apply emits_bind_emit, emits_ret. split; [by repeat constructor|].
    split; [by constructor|set_solver].
  - intros n [resp|v'] [Hn Hr].
    + apply emits_ret. rewrite app_nil_r. by split.
    + eapply emits_bind; [apply expandRoots_spec| |].
      * intros n' b [Hn' _]. apply emits_ret. rewrite app_nil_r.
        split; [apply Forall_app; split; [done|by apply only_roots_escalation]|].
        by apply approved_roots.
      * intros n' e [Hn' Hc]. split; [|done]. apply Forall_app.
        split; [done|by apply only_roots_escalation].
  - intros n e [Hn Hc]. by split.
Qed.

(** ** The whole call *)

(** The events of a call whose policy evaluation is known: an escalation stage and
    a dispatch stage, and what each decision allows of them. *)
Definition call_outcome c (n : list Event) (r : ToolCallResponse + JsError) : Prop :=
  answered c n r ∧
  ∃ n1 n2, n = n1 ++ n2 ∧ Forall (escalation_event c) n1 ∧ Forall (dispatch_event c) n2 ∧
    forwards n2 ≤ 2 ∧
    match er_decision (cc_evaluation c) with
    | Allow => n1 = [] ∧ forwards n2 ≤ 1
    | Deny => n1 = [] ∧ Forall (λ ev, is_effect ev = false) n2 ∧
              match r with inl resp => refused resp | inr _ => True end
    | Escalate => approved n1 ∨ n2 = [] ∧ match r with inl resp => refused resp | inr _ => True end
    end.

Lemma act_spec c :
  (er_decision (cc_evaluation c) = Escalate → cc_annotation c = None → can_fail) →
  emits I (act deps c) (call_outcome c).
Proof.
  intros Hann. unfold act, call_outcome. destruct (er_decision (cc_evaluation c)) eqn:Hd.
  - eapply emits_mono; [apply dispatch_spec|]. intros n r (Ha & Hn & Hf). split; [done|].
    exists [], n. split_and!; [done|constructor|done|lia|done..].
  - unfold logAudit. apply emits_bind_log.
    + apply emits_ret. split.
      * exists []. eexists. split; [done|]. by split.
      * exists [], [EvAudit (buildAuditEntry (cc_request c) (cc_transport c)
          (v_policyDecision (initialVerdict (cc_evaluation c)))
          (audit_result AuditDenied (Some (er_reason (cc_evaluation c)))) 0
          {| ao_escalationResult := None;
             ao_sandboxed := serverIsSandboxed deps (pt_serverName (cc_tool c));
             ao_autoApproved := false; ao_whitelistApproved := false;
             ao_whitelistPatternId := None; ao_persona := d_persona deps |})].
        split_and!; [done|constructor|by repeat constructor|count_forwards|done|by repeat constructor|].
        split; [|done]. simpl. by rewrite Hd.
    + intros e Hc. split; [done|]. exists [], []. split_and!; [done|constructor..|count_forwards|done|constructor|done].
  - eapply emits_bind; [apply handleEscalation_spec; auto| |].
    + intros n [resp|[v re]] [Hn Hr].
      * apply emits_ret. rewrite app_nil_r. destruct Hr as (Ha & Href & Hno).
        split; [done|]. exists n, []. rewrite app_nil_r.
        split_and!; [done|done|constructor|count_forwards|by right].
      * eapply emits_mono; [apply dispatch_spec|]. intros n' r (Ha & Hn' & Hf).
        split; [by apply answered_app|]. exists n, n'.
        split_and!; [done..|destruct re; lia|by left].
    + intros n e [Hn Hc]. split; [done|]. exists n, []. rewrite app_nil_r.
      split_and!; [done|done|constructor|count_forwards|by right].
Qed.

(** The context a call of a known tool reaches the policy with. *)
Definition context_of (tool : ProxiedTool) (rawArgs : object jsvalue) (requestId timestamp : string)
    c : Prop :=
  cc_tool c = tool ∧
  cc_annotation c =
    dec_getAnnotation (d_policyEngine deps) (pt_serverName tool) (pt_name tool) rawArgs ∧
  rq_requestId (cc_request c) = requestId ∧ rq_timestamp (cc_request c) = timestamp ∧
  rq_serverName (cc_request c) = pt_serverName tool ∧
  rq_toolName (cc_request c) = pt_name tool ∧
  dec_evaluate (d_policyEngine deps) (cc_request c) = Ok (cc_evaluation c) ∧
  ∃ context prepared, normalizeArgs deps tool (cc_annotation c) context rawArgs = Ok prepared ∧
    cc_transport c = argsForTransport prepared ∧ rq_arguments (cc_request c) = argsForPolicy prepared.

(** A rejection before policy evaluation. *)
Definition rejected (requestId : string) (n : list Event) (r : ToolCallResponse + JsError) : Prop :=
  match r with
  | inl resp => ∃ entry, n = [EvAudit entry] ∧ ae_requestId entry = requestId ∧
      ar_status (ae_result entry) = AuditDenied ∧ refused resp
  | inr _ => n = [] ∧ can_fail
  end.

Lemma rejectEarly_spec id ts server tool rawArgs rule reason text :
  emits I (rejectEarly deps id ts server tool rawArgs rule reason text) (rejected id).
Proof.
  unfold rejectEarly. apply emits_bind_log; [|done]. apply emits_ret. eexists.
  split; [done|]. by split_and!.
Qed.

Context `{!PolicyDeciderLaws P}.

Lemma handleKnownTool_spec tool rawArgs id ts :
  emits I (handleKnownTool deps tool rawArgs id ts)
    (λ n r, rejected id n r ∨ ∃ c, context_of tool rawArgs id ts c ∧ call_outcome c n r).
Proof.
  unfold handleKnownTool. destruct (_ && negb _) eqn:Hun.
  { eapply emits_mono; [apply rejectEarly_spec|by left]. }
  destruct (if dec_isTrustedServer _ _ then _ else _).
  { eapply emits_mono; [apply rejectEarly_spec|by left]. }
  apply emits_bind_get. intros sh _.
  destruct (normalizeArgs _ _ _ _ _) as [prepared|msg] eqn:Hprep.
  2:{ eapply emits_mono; [apply rejectEarly_spec|by left]. }
  set (request := {| rq_requestId := id |}).
  destruct (dec_total (d_policyEngine deps) request) as [evaluation Hev]. rewrite Hev.
  eapply (emits_bind _ _ (λ n r, n = [] ∧ r = inl evaluation)); [by apply emits_ret| |by intros ? ? [_ ?]].
  intros n a [-> [= ->]]. eapply emits_mono; [apply act_spec|].
  - simpl. intros Hesc Hann. exfalso. rewrite Hann in Hun. simpl in Hun.
    apply negb_false_iff in Hun.
    assert (er_decision evaluation = Allow); [|congruence]. by apply (dec_trusted (d_policyEngine deps) request).
  - intros n r Hr. right. eexists. split; [|exact Hr]. split_and!; [done..|].
    by exists (sh_context sh), prepared.
Qed.

Lemma requestIdentity_spec rx :
  emits I (requestIdentity rx) (λ n r, n = [] ∧ ∃ id ts, r = inl (id, ts) ∧
    ∀ x, rx = Some x → id = rx_requestId x ∧ ts = rx_timestamp x).
Proof.
  unfold requestIdentity. destruct rx as [x|].
  - apply emits_ret. split; [done|]. do 2 eexists. split; [done|]. by intros ? [= <-].
  - apply emits_bind_ask. intros t. apply emits_bind_ask. intros t'. apply emits_ret.
    split; [done|]. do 2 eexists. by split.
Qed.

Lemma handleCallTool_spec toolName rawArgs rx :
  emits I (handleCallTool deps toolName rawArgs rx)
    (λ n r, ∃ id ts, (∀ x, rx = Some x → id = rx_requestId x ∧ ts = rx_timestamp x) ∧
       (rejected id n r ∨ ∃ tool c, d_toolMap deps !! toolName = Some tool ∧
          context_of tool rawArgs id ts c ∧ call_outcome c n r)).
Proof.
  unfold handleCallTool. eapply emits_bind; [apply requestIdentity_spec| |].
  2:{ intros n e (_ & id & ts & ? & _). done. }
  intros n [id ts] (-> & id' & ts' & [= <- <-] & Hrx).
  destruct (d_toolMap deps !! toolName) as [tool|].
  - eapply emits_mono; [apply handleKnownTool_spec|]. intros n r [Hr|(c & Hc & Hr)].
    + exists id, ts. auto.
    + exists id, ts. split; [done|]. right. eauto.
  - destruct (splitToolKey toolName) as [s t]. eapply emits_mono; [apply rejectEarly_spec|].
    intros n r Hr. exists id, ts. auto.
Qed.
End theory.
