(* ===== verification/CoordinatorTheory.v ===== *)
(** * The coordinator's invariant

    Two queues, a counter and the quiescence of policy swaps: what holds of every
    reachable coordinator. *)

From S2P Require Import Prelude JsValue Paths Urls Roles Domains PolicyTypes PolicyEngine CircuitBreaker.
From S2P Require Import Tools AuditLog Whitelist PolicyEngineTheory Pipeline Coordinator.

(** ** Classifying threads *)

Definition active_thread (t : Thread) : bool :=
  match t with
  | TCall _ (Entered | CallQueued | Running _ | Escalating _ | Requeued _ | Leaving) => true
  | _ => false
  end.

(** Threads with a token in the call mutex, and those that hold it. *)
Definition queued_thread (t : Thread) : bool :=
  match t with
  | TCall _ (CallQueued | Running _ | Requeued _) => true
  | TQuiesce _ (QQueued | QLocked | QUnlocking) => true
  | _ => false
  end.

Definition holds_call (t : Thread) : bool :=
  match t with
  | TCall _ (Running _) => true
  | TQuiesce _ (QLocked | QUnlocking) => true
  | _ => false
  end.

Definition holds_policy (t : Thread) : bool :=
  match t with TQuiesce _ QLocked => true | _ => false end.

(** The dependencies of a call that has started. *)
Definition captured (t : Thread) : option (CallToolDeps PolicyEngine) :=
  match t with
  | TCall _ (Running d | Escalating d | Requeued d) => Some d
  | _ => None
  end.

(** A quiescer that has seen the calls drained and has not done its job. *)
Definition awaits_swap (t : Thread) : bool :=
  match t with TQuiesce _ (QQueued | QLocked) => true | _ => false end.

Definition is_quiescer (t : Thread) : bool :=
  match t with TQuiesce _ _ => true | _ => false end.

(** A quiescer that will reopen admission. *)
Definition pending (t : Thread) : bool :=
  match t with
  | TQuiesce _ (QDraining | QWoken | QQueued | QLocked | QUnlocking | QFinishing | QReopening) => true
  | _ => false
  end.

Implicit Types (ts : list Thread) (t : Thread) (q : list nat).

Definition count (f : Thread → bool) ts : nat := length (filter (λ t, f t = true) ts).

Lemma count_insert f ts i t t' :
  ts !! i = Some t → count f (<[i := t']> ts) + Nat.b2n (f t) = count f ts + Nat.b2n (f t').
Proof.
  unfold count. revert i. induction ts as [|x ts IH]; intros [|i] Hi; simplify_eq/=.
  - rewrite !filter_cons. destruct (f t), (f t'); simpl; lia.
  - specialize (IH i Hi). rewrite !filter_cons. destruct (f x); simpl; lia.
Qed.

Lemma count_zero f ts i t : count f ts = 0 → ts !! i = Some t → f t = false.
Proof.
  unfold count. intros Hc Hi. apply not_true_iff_false. intros Hf.
  apply nil_length_inv in Hc. eapply not_elem_of_nil. rewrite <-Hc.
  apply list_elem_of_filter. split; [done|]. by eapply list_elem_of_lookup_2.
Qed.

Lemma count_pos f ts : 0 < count f ts → ∃ i t, ts !! i = Some t ∧ f t = true.
Proof.
  unfold count. destruct (filter _ ts) as [|t l] eqn:Hl; simpl; [lia|]. intros _.
  assert (Ht : t ∈ filter (λ t, f t = true) ts) by (rewrite Hl; left).
  apply list_elem_of_filter in Ht as [Hf [i Hi]%list_elem_of_lookup_1]. eauto.
Qed.

Lemma count_app f ts1 ts2 : count f (ts1 ++ ts2) = count f ts1 + count f ts2.
Proof. unfold count. by rewrite filter_app, length_app. Qed.

Lemma wake_lookup ids ts i :
  wake ids ts !! i = (λ t, if includes ids i then resume t else t) <$> ts !! i.
Proof. unfold wake. by rewrite list_lookup_imap. Qed.

Lemma count_wake f ids ts : (∀ t, f (resume t) = f t) → count f (wake ids ts) = count f ts.
Proof.
  intros Hf. unfold wake, count. generalize 0 as n. assert (Hg : ∀ g : nat → Thread → Thread,
    (∀ i t, f (g i t) = f t) →
    length (filter (λ t, f t = true) (imap g ts)) = length (filter (λ t, f t = true) ts)).
  { induction ts as [|t ts IH]; intros g Hg; [done|]. simpl. rewrite !filter_cons, Hg.
    destruct (f t); simpl; [f_equal|]; apply (IH (g ∘ S)); intros; apply Hg. }
  intros _. apply Hg. intros i t. destruct (includes ids i); [apply Hf|done].
Qed.

(** ** Mutex queues *)

Section queue.
Variables queued holds : Thread → bool.

Record queue_inv q ts : Prop := {
  queue_nodup : NoDup q;
  queue_mem i : i ∈ q ↔ ∃ t, ts !! i = Some t ∧ queued t = true;
  queue_holder i t : ts !! i = Some t → holds t = true → granted i q = true;
}.

Lemma granted_elem i q : granted i q = true → ∃ q', q = i :: q'.
Proof. destruct q; simpl; [done|]. intros Hi. bool_hyps. subst. eauto. Qed.

Lemma queue_same q ts i t t' :
  queue_inv q ts → ts !! i = Some t → queued t' = queued t →
  (holds t' = true → granted i q = true) → queue_inv q (<[i := t']> ts).
Proof.
  intros [Hnd Hmem Hh] Hi Hq Hg. split; [done| |].
  - intros j. rewrite Hmem. destruct (decide (i = j)) as [<-|Hne].
    + rewrite list_lookup_insert_eq by (by eapply lookup_lt_Some). rewrite Hi. clear Hmem Hh; naive_solver.
    + by rewrite list_lookup_insert_ne.
  - intros j u Hj Hu. destruct (decide (i = j)) as [<-|Hne].
    + rewrite list_lookup_insert_eq in Hj by (by eapply lookup_lt_Some). clear Hmem; naive_solver.
    + rewrite list_lookup_insert_ne in Hj by done. eauto.
Qed.

Lemma queue_acquire q ts i t t' :
  queue_inv q ts → ts !! i = Some t → queued t = false → queued t' = true →
  (holds t' = true → q = []) → queue_inv (acquire i q) (<[i := t']> ts).
Proof.
  intros [Hnd Hmem Hh] Hi Hq Hq' Hg. unfold acquire.
  assert (Hni : i ∉ q) by (rewrite Hmem; intros (u & ? & ?); congruence). split.
  - apply NoDup_app. split_and!; [done| |apply NoDup_singleton].
    intros j Hj ->%list_elem_of_singleton. done.
  - intros j. rewrite elem_of_app, list_elem_of_singleton, Hmem.
    destruct (decide (i = j)) as [<-|Hne].
    + rewrite list_lookup_insert_eq by (by eapply lookup_lt_Some). clear Hmem Hh; naive_solver.
    + rewrite list_lookup_insert_ne by done. clear Hmem Hh; naive_solver.
  - intros j u Hj Hu. destruct (decide (i = j)) as [<-|Hne].
    + rewrite list_lookup_insert_eq in Hj by (by eapply lookup_lt_Some). simplify_eq.
      rewrite (Hg Hu). simpl. by rewrite bool_decide_eq_true_2.
    + rewrite list_lookup_insert_ne in Hj by done.
      destruct (granted_elem j q) as [q' ->]; eauto.
      simpl. by rewrite bool_decide_eq_true_2.
Qed.

Lemma queue_release q ts i t t' :
  queue_inv q ts → ts !! i = Some t → holds t = true → queued t' = false → holds t' = false →
  queue_inv (release q) (<[i := t']> ts).
Proof.
  intros [Hnd Hmem Hh] Hi Ht Hq Ht'. destruct (granted_elem i q) as [q' ->]; [by eapply Hh|].
  apply NoDup_cons in Hnd as [Hni Hnd]. simpl. split; [done| |].
  - intros j. specialize (Hmem j). rewrite elem_of_cons in Hmem.
    destruct (decide (i = j)) as [<-|Hne].
    + rewrite list_lookup_insert_eq by (by eapply lookup_lt_Some). split; [by intros ?%Hni|].
      intros (u & [= <-] & ?). congruence.
    + rewrite list_lookup_insert_ne by done. rewrite <-Hmem. split; [by right|]. by intros [?|?].
  - intros j u Hj Hu. exfalso. destruct (decide (i = j)) as [<-|Hne].
    + rewrite list_lookup_insert_eq in Hj by (by eapply lookup_lt_Some). congruence.
    + rewrite list_lookup_insert_ne in Hj by done. specialize (Hh j u Hj Hu). simpl in Hh.
      bool_hyps. congruence.
Qed.

Lemma queue_ext q ts ts' (f : nat → Thread → Thread) :
  queue_inv q ts → (∀ i, ts' !! i = f i <$> ts !! i) →
  (∀ i t, queued (f i t) = queued t ∧ holds (f i t) = holds t) → queue_inv q ts'.
Proof.
  intros [Hnd Hmem Hh] Hl Hf. split; [done| |].
  - intros i. rewrite Hmem, Hl. destruct (ts !! i) as [t|] eqn:Hi; simpl; [|naive_solver].
    destruct (Hf i t) as [Hq _]. clear Hmem Hh; naive_solver.
  - intros i t. rewrite Hl. destruct (ts !! i) as [u|] eqn:Hi; simpl; [|done].
    intros [= <-] Ht. destruct (Hf i u) as [_ Hx]. rewrite Hx in Ht. eauto.
Qed.

Lemma queue_spawn q ts t :
  queue_inv q ts → queued t = false → holds t = false → queue_inv q (ts ++ [t]).
Proof.
  intros [Hnd Hmem Hh] Hq Ht. split; [done| |].
  - intros i. rewrite Hmem. setoid_rewrite lookup_app_Some. setoid_rewrite list_lookup_singleton_Some.
    split; [intros (u & ? & ?); eauto|]. intros (u & [?|[_ [_ <-]]] & ?); [eauto|congruence].
  - intros i u. rewrite lookup_app_Some, list_lookup_singleton_Some. clear Hmem.
    intros [Hi|[_ [_ <-]]] Hu; [eauto|congruence].
Qed.
End queue.

(** ** Quiescence *)

(** Before its job, a quiescer has no started call beside it and only quiescers
    before it in the call mutex. *)
Definition quiet q ts (k : nat) : Prop :=
  (∀ j t, ts !! j = Some t → captured t = None) ∧
  ∃ l1 l2, q = l1 ++ k :: l2 ∧ ∀ j t, j ∈ l1 → ts !! j = Some t → is_quiescer t = true.

Definition quiet_inv q ts : Prop :=
  ∀ k t, ts !! k = Some t → awaits_swap t = true → quiet q ts k.

(** Updating one thread. *)
Lemma insert_cases ts i t' j u :
  <[i := t']> ts !! j = Some u → (j = i ∧ u = t') ∨ (j ≠ i ∧ ts !! j = Some u).
Proof.
  rewrite list_lookup_insert_Some. intros [(-> & -> & _)|[? ?]]; auto.
Qed.

Lemma quiet_move q ts i t t' k :
  quiet q ts k → ts !! i = Some t → captured t' = None → is_quiescer t' = is_quiescer t →
  quiet q (<[i := t']> ts) k.
Proof.
  intros [Hcap (l1 & l2 & -> & Hl1)] Hi Hc Hq. split.
  - intros j u [[-> ->]|[_ Hj]]%insert_cases; eauto.
  - exists l1, l2. split; [done|]. intros j u Hj [[-> ->]|[_ Hu]]%insert_cases; [|eauto].
    rewrite Hq. eauto.
Qed.

Lemma quiet_acquire q ts k i : quiet q ts k → quiet (acquire i q) ts k.
Proof.
  intros [Hcap (l1 & l2 & -> & Hl1)]. split; [done|]. exists l1, (l2 ++ [i]).
  unfold acquire. by rewrite <-app_assoc.
Qed.

Lemma quiet_release q ts k i : quiet q ts k → granted i q = true → i ≠ k → quiet (release q) ts k.
Proof.
  intros [Hcap (l1 & l2 & -> & Hl1)] Hg Hne. split; [done|]. destruct l1 as [|x l1]; simpl in *.
  - bool_hyps. congruence.
  - exists l1, l2. split; [done|]. intros j u Hj. apply Hl1. by right.
Qed.

Lemma quiet_inv_move q ts i t t' :
  quiet_inv q ts → ts !! i = Some t →
  (captured t' ≠ None → ∀ k u, ts !! k = Some u → awaits_swap u = false) →
  is_quiescer t' = is_quiescer t → (awaits_swap t' = true → awaits_swap t = true) →
  quiet_inv q (<[i := t']> ts).
Proof.
  intros Hinv Hi Hc Hq Ha k u Hk Hu.
  assert (Hold : ∃ u', ts !! k = Some u' ∧ awaits_swap u' = true).
  { apply insert_cases in Hk as [[-> ->]|[_ Hk]]; eauto. }
  destruct Hold as (u' & Hk' & Hu'). eapply quiet_move; [by eapply Hinv|done| |done].
  destruct (captured t') as [d|] eqn:Hd; [|done]. exfalso.
  enough (awaits_swap u' = false) by congruence. by eapply Hc.
Qed.

Lemma quiet_inv_acquire q ts i : quiet_inv q ts → quiet_inv (acquire i q) ts.
Proof. intros Hinv k u Hk Hu. apply quiet_acquire. by eapply Hinv. Qed.

Lemma quiet_inv_release q ts i t :
  quiet_inv q ts → ts !! i = Some t → awaits_swap t = false → granted i q = true →
  quiet_inv (release q) ts.
Proof.
  intros Hinv Hi Ha Hg k u Hk Hu. eapply quiet_release; [by eapply Hinv|done|]. congruence.
Qed.

(** A started call has no quiescer waiting for its job beside it. *)
Lemma quiet_inv_started q ts i t :
  quiet_inv q ts → ts !! i = Some t → captured t ≠ None →
  ∀ k u, ts !! k = Some u → awaits_swap u = false.
Proof.
  intros Hinv Hi Hc k u Hk. apply not_true_iff_false. intros Hu.
  destruct (Hinv k u Hk Hu) as [Hcap _]. by apply Hc, (Hcap i).
Qed.

(** Nor has a call that is granted the mutex. *)
Lemma quiet_inv_granted q ts i s p :
  quiet_inv q ts → ts !! i = Some (TCall s p) → granted i q = true →
  ∀ k u, ts !! k = Some u → awaits_swap u = false.
Proof.
  intros Hinv Hi Hg k u Hk. apply not_true_iff_false. intros Hu.
  destruct (Hinv k u Hk Hu) as [_ (l1 & l2 & -> & Hl1)].
  destruct l1 as [|x l1]; simpl in Hg; bool_hyps; simplify_eq.
  by specialize (Hl1 x _ ltac:(left) Hi).
Qed.

(** A quiescer that asks for the mutex when no call is active. *)
Lemma quiet_inv_enter q ts i job p :
  quiet_inv q ts → queue_inv queued_thread holds_call q ts →
  ts !! i = Some (TQuiesce job p) → count active_thread ts = 0 →
  quiet_inv (acquire i q) (<[i := TQuiesce job QQueued]> ts).
Proof.
  intros Hinv [_ Hmem _] Hi Hzero.
  assert (Hact : ∀ j u, ts !! j = Some u → active_thread u = false) by (by intros; eapply count_zero).
  intros k u Hk Hu. apply insert_cases in Hk as [[-> ->]|[Hne Hk]].
  - split.
    + intros j u [[-> ->]|[_ Hj]]%insert_cases; [done|]. specialize (Hact j u Hj).
      by destruct u as [s []|].
    + exists q, []. split; [done|]. intros j u Hj [[-> ->]|[_ Hu']]%insert_cases; [done|].
      apply Hmem in Hj as (u' & Hj & Hq). simplify_eq. specialize (Hact j u' Hj).
      by destruct u' as [s []|].
  - eapply quiet_move; [|done..]. apply quiet_acquire. by eapply Hinv.
Qed.

Lemma quiet_inv_ext q ts ts' (f : nat → Thread → Thread) :
  quiet_inv q ts → (∀ i, ts' !! i = f i <$> ts !! i) →
  (∀ i t, awaits_swap (f i t) = awaits_swap t ∧ captured (f i t) = captured t ∧
          is_quiescer (f i t) = is_quiescer t) → quiet_inv q ts'.
Proof.
  intros Hinv Hl Hf k u. rewrite Hl. destruct (ts !! k) as [u'|] eqn:Hk; simpl; [|done].
  intros [= <-] Hu. destruct (Hf k u') as (Ha & _ & _). rewrite Ha in Hu.
  destruct (Hinv k u' Hk Hu) as [Hcap (l1 & l2 & Hq & Hl1)]. split.
  - intros j v. rewrite Hl. destruct (ts !! j) as [v'|] eqn:Hj; simpl; [|done].
    intros [= <-]. destruct (Hf j v') as (_ & -> & _). eauto.
  - exists l1, l2. split; [done|]. intros j v Hj. rewrite Hl.
    destruct (ts !! j) as [v'|] eqn:Hj'; simpl; [|done]. intros [= <-].
    destruct (Hf j v') as (_ & _ & ->). eauto.
Qed.

Lemma quiet_inv_spawn q ts t :
  quiet_inv q ts → queue_inv queued_thread holds_call q ts →
  captured t = None → awaits_swap t = false → quiet_inv q (ts ++ [t]).
Proof.
  intros Hinv [_ Hmem _] Hc Ha k u Hk Hu.
  assert (Hold : ∀ j v, (ts ++ [t]) !! j = Some v → ts !! j = Some v ∨ v = t).
  { intros j v. rewrite lookup_app_Some, list_lookup_singleton_Some. naive_solver. }
  destruct (Hold k u Hk) as [Hk'| ->]; [|congruence].
  destruct (Hinv k u Hk' Hu) as [Hcap (l1 & l2 & Hq & Hl1)]. split.
  - intros j v [Hj| ->]%Hold; [eauto|done].
  - exists l1, l2. split; [done|]. intros j v Hj Hv.
    assert (Hin : j ∈ q) by (rewrite Hq; apply elem_of_app; by left).
    apply Hmem in Hin as (v' & Hv' & _). rewrite lookup_app_l in Hv by (by eapply lookup_lt_Some).
    eauto.
Qed.

(** ** The invariant *)

Definition current (c : Coordinator) (d : CallToolDeps PolicyEngine) : Prop :=
  d_policyEngine d = co_policyEngine c ∧ d_persona d = co_currentPersona c.

Record safe (c : Coordinator) : Prop := {
  safe_active : activeToolCalls (co_gate c) = count active_thread (co_threads c);
  safe_call : queue_inv queued_thread holds_call (callMutex (co_gate c)) (co_threads c);
  safe_policy : queue_inv holds_policy holds_policy (policyMutex (co_gate c)) (co_threads c);
  safe_quiet : quiet_inv (callMutex (co_gate c)) (co_threads c);
  safe_current i t d : co_threads c !! i = Some t → captured t = Some d → current c d;
}.

Lemma safe_moved c i t t' g' :
  safe c → co_threads c !! i = Some t →
  activeToolCalls g' + Nat.b2n (active_thread t) =
    activeToolCalls (co_gate c) + Nat.b2n (active_thread t') →
  queue_inv queued_thread holds_call (callMutex g') (<[i := t']> (co_threads c)) →
  queue_inv holds_policy holds_policy (policyMutex g') (<[i := t']> (co_threads c)) →
  quiet_inv (callMutex g') (<[i := t']> (co_threads c)) →
  (∀ d, captured t' = Some d → captured t = Some d ∨ current c d) →
  safe (moved i t' g' c).
Proof.
  intros [Ha _ _ _ Hc] Hi Hact Hcall Hpol Hq Hcap. split; simpl; [|done..|].
  - pose proof (count_insert active_thread _ i t t' Hi). lia.
  - intros j u d [[-> ->]|[_ Hj]]%insert_cases Hd; [|by eapply Hc].
    destruct (Hcap d Hd) as [Ht|Ht]; [by eapply Hc|exact Ht].
Qed.

Lemma resume_classes t :
  active_thread (resume t) = active_thread t ∧ queued_thread (resume t) = queued_thread t ∧
  holds_call (resume t) = holds_call t ∧ holds_policy (resume t) = holds_policy t ∧
  captured (resume t) = captured t ∧ awaits_swap (resume t) = awaits_swap t ∧
  is_quiescer (resume t) = is_quiescer t ∧ pending (resume t) = pending t.
Proof. by destruct t as [s []|j []]. Qed.

Lemma safe_wake c ids g' :
  safe c → activeToolCalls g' = activeToolCalls (co_gate c) →
  callMutex g' = callMutex (co_gate c) → policyMutex g' = policyMutex (co_gate c) →
  safe (set_gate g' (set_threads (wake ids (co_threads c)) c)).
Proof.
  intros [Ha Hcall Hpol Hq Hc] Hact Hcm Hpm. pose proof resume_classes as Hr.
  assert (Hl : ∀ i, wake ids (co_threads c) !! i =
    (λ i t, if includes ids i then resume t else t) i <$> co_threads c !! i) by (intros; apply wake_lookup).
  split; simpl.
  - rewrite count_wake; [congruence|apply Hr].
  - rewrite Hcm. eapply queue_ext; [done|done|]. intros i t. cbn beta.
    destruct (includes ids i); [|done]. split; apply Hr.
  - rewrite Hpm. eapply queue_ext; [done|done|]. intros i t. cbn beta.
    destruct (includes ids i); [|done]. split; apply Hr.
  - rewrite Hcm. eapply quiet_inv_ext; [done|done|]. intros i t. cbn beta.
    destruct (includes ids i); [|done]. split_and!; apply Hr.
  - intros i t d. rewrite Hl. destruct (co_threads c !! i) as [u|] eqn:Hi; simpl; [|done].
    intros [= <-] Hd. apply (Hc i u d Hi). revert Hd. destruct (includes ids i); [|done].
    destruct (Hr u) as (_ & _ & _ & _ & -> & _). done.
Qed.

(** A move of thread [i] from a phase to another; the side conditions that hold by
    computation are discharged. *)
Ltac move_simple Hs Hi :=
  eapply (safe_moved _ _ _ _ _ Hs Hi);
  [simpl; lia
  |eapply queue_same; [by apply Hs|by apply Hi|done|done]
  |eapply queue_same; [by apply Hs|by apply Hi|done|done]
  |eapply quiet_inv_move; [by apply Hs|by apply Hi|done|done|done]
  |done].

Lemma policy_same c i t t' :
  safe c → co_threads c !! i = Some t → holds_policy t = false → holds_policy t' = false →
  queue_inv holds_policy holds_policy (policyMutex (co_gate c)) (<[i := t']> (co_threads c)).
Proof. intros Hs Hi Ht Ht'. eapply queue_same; [apply Hs|done|congruence|congruence]. Qed.

(** The holder of the call mutex gives it up. *)
Lemma safe_give_up c i s d p :
  safe c → co_threads c !! i = Some (TCall s (Running d)) →
  p = Leaving ∨ p = Escalating d →
  safe (moved i (TCall s p) (set_call (release (callMutex (co_gate c))) (co_gate c)) c).
Proof.
  intros Hs Hi Hp. pose proof (safe_quiet _ Hs) as Hquiet.
  assert (Hg : granted i (callMutex (co_gate c)) = true)
    by (by eapply (queue_holder _ _ _ _ (safe_call _ Hs))).
  assert (Hstart : ∀ k u, co_threads c !! k = Some u → awaits_swap u = false)
    by (by eapply (quiet_inv_started _ _ _ _ Hquiet Hi)).
  eapply (safe_moved _ _ _ _ _ Hs Hi); simpl.
  - by destruct Hp as [-> | ->].
  - eapply queue_release; [apply Hs|done|done|..]; by destruct Hp as [-> | ->].
  - by eapply policy_same.
  - eapply quiet_inv_move; [by eapply quiet_inv_release|done|done|done|done].
  - intros d'. destruct Hp as [-> | ->]; [done|]. intros [= <-]. by left.
Qed.

(** [leaveToolCall], before anyone is woken. *)
Lemma safe_leave c i s n :
  safe c → co_threads c !! i = Some (TCall s Leaving) →
  n = Nat.pred (activeToolCalls (co_gate c)) →
  safe (moved i (TCall s CallDone) (set_active n (co_gate c)) c).
Proof.
  intros Hs Hi ->. assert (Hpos : 0 < activeToolCalls (co_gate c)).
  { rewrite (safe_active _ Hs).
    destruct (decide (count active_thread (co_threads c) = 0)) as [Hz|]; [|lia].
    by pose proof (count_zero active_thread _ _ _ Hz Hi). }
  eapply (safe_moved _ _ _ _ _ Hs Hi); simpl; [lia| |by eapply policy_same| |done].
  - by eapply queue_same; [apply Hs|..].
  - by eapply quiet_inv_move; [apply Hs|..].
Qed.

Lemma safe_step_call c i s p choice c' :
  safe c → co_threads c !! i = Some (TCall s p) → step_call c i s p choice = Some c' → safe c'.
Proof.
  intros Hs Hi. pose proof (safe_call _ Hs) as Hcall. pose proof (safe_quiet _ Hs) as Hquiet.
  assert (Hpsame : ∀ p', queue_inv holds_policy holds_policy (policyMutex (co_gate c))
      (<[i := TCall s p']> (co_threads c))) by (intros p'; by eapply policy_same).
  assert (Hstart : captured (TCall s p) ≠ None →
      ∀ k u, co_threads c !! k = Some u → awaits_swap u = false)
    by (intros Hc; by eapply (quiet_inv_started _ _ _ _ Hquiet Hi)).
  destruct p as [| | | |d|d|d| | |]; cbn [step_call]; [|done|..|done|done].
  - destruct (closed _); [intros [= <-]; by move_simple Hs Hi|].
    destruct (toolCallAdmissionOpen _); intros [= <-]; by move_simple Hs Hi.
  - intros [= <-]. eapply (safe_moved _ _ _ _ _ Hs Hi); simpl; [lia| |done| |done].
    + by eapply queue_acquire.
    + eapply quiet_inv_move; [by apply quiet_inv_acquire|done..].
  - destruct (granted i _) eqn:Hg; [|done]. intros [= <-].
    eapply (safe_moved _ _ _ _ _ Hs Hi); simpl; [lia| |done| |].
    + by eapply queue_same.
    + eapply quiet_inv_move; [done|done| |done|done]. intros _. by eapply quiet_inv_granted.
    + intros d [= <-]. right. done.
  - destruct choice as [| |sh]; intros [= <-]; [eapply safe_give_up; eauto..|by destruct Hs].
  - intros [= <-]. eapply (safe_moved _ _ _ _ _ Hs Hi); simpl; [lia| |done| |by left].
    + by eapply queue_acquire.
    + eapply quiet_inv_move; [by apply quiet_inv_acquire|done|by intros _; apply Hstart|done..].
  - destruct (granted i _) eqn:Hg; [|done]. intros [= <-].
    eapply (safe_moved _ _ _ _ _ Hs Hi); simpl; [lia| |done| |by left].
    + by eapply queue_same.
    + eapply quiet_inv_move; [done|done|by intros _; apply Hstart|done|done].
  - pose proof (safe_leave c i s _ Hs Hi eq_refl) as Hm.
    case_bool_decide; intros [= <-]; [|done]. by apply (safe_wake (moved _ _ _ _)).
Qed.

Section policy_files.
Context `{FileSystem} `{PolicyFiles}.

Lemma swapPolicy_frame persona dir c :
  co_threads (swapPolicy persona dir c) = co_threads c ∧
  co_gate (swapPolicy persona dir c) = co_gate c ∧
  co_shared (swapPolicy persona dir c) = co_shared c.
Proof. unfold swapPolicy. by destruct (loadPersonaPolicyArtifacts dir) as [[]|]. Qed.

Lemma safe_swap persona dir c :
  safe c → (∀ i t, co_threads c !! i = Some t → captured t = None) →
  safe (swapPolicy persona dir c).
Proof.
  intros [Ha Hcall Hpol Hq Hc] Hnone.
  destruct (swapPolicy_frame persona dir c) as (Ht & Hg & _).
  split; rewrite ?Ht, ?Hg; [done..|]. intros i t d Hi Hd. by rewrite (Hnone i t Hi) in Hd.
Qed.

Lemma safe_drain_check c i job p g :
  safe c → co_threads c !! i = Some (TQuiesce job p) →
  queued_thread (TQuiesce job p) = false → holds_policy (TQuiesce job p) = false →
  awaits_swap (TQuiesce job p) = false →
  activeToolCalls g = activeToolCalls (co_gate c) → callMutex g = callMutex (co_gate c) →
  policyMutex g = policyMutex (co_gate c) → safe (drain_check c i job g).
Proof.
  intros Hs Hi Hqt Hpt Hat Hact Hcm Hpm. unfold drain_check.
  pose proof (safe_call _ Hs) as Hcall. pose proof (safe_policy _ Hs) as Hpol.
  destruct (Nat.ltb_spec 0 (activeToolCalls g)).
  - eapply (safe_moved _ _ _ _ _ Hs Hi); simpl; rewrite ?Hcm, ?Hpm; [lia| | | |done].
    + by eapply queue_same.
    + by eapply queue_same.
    + by eapply quiet_inv_move; [apply Hs|..].
  - eapply (safe_moved _ _ _ _ _ Hs Hi); simpl; rewrite ?Hcm, ?Hpm; [lia| | | |done].
    + by eapply queue_acquire.
    + by eapply queue_same.
    + eapply quiet_inv_enter; [apply Hs|done|done|].
      rewrite <-(safe_active _ Hs), <-Hact. lia.
Qed.

(** Whoever had a token in the policy mutex would hold the call mutex. *)
Lemma policy_mutex_free c i t :
  safe c → co_threads c !! i = Some t → granted i (callMutex (co_gate c)) = true →
  holds_policy t = false → policyMutex (co_gate c) = [].
Proof.
  intros Hs Hi Hg Ht. destruct (policyMutex (co_gate c)) as [|j l] eqn:Hj; [done|]. exfalso.
  pose proof (safe_policy _ Hs) as Hpol. rewrite Hj in Hpol.
  destruct (proj1 (queue_mem _ _ _ _ Hpol j) ltac:(left)) as (u & Hu & Hpu).
  assert (Hgj : granted j (callMutex (co_gate c)) = true).
  { eapply (queue_holder _ _ _ _ (safe_call _ Hs)); [done|]. by destruct u as [|? []]. }
  destruct (granted_elem _ _ Hg) as [q' Hq']. rewrite Hq' in Hgj. simpl in Hgj.
  bool_hyps. congruence.
Qed.

(** The critical section of a job. *)
Lemma safe_job c i job :
  safe c → co_threads c !! i = Some (TQuiesce job QLocked) →
  safe (moved i (TQuiesce job QUnlocking)
    (set_policyMutex (release (policyMutex (co_gate c))) (co_gate c))
    match job with JLoad persona dir => swapPolicy persona dir c | JClose => c end).
Proof.
  intros Hs Hi. set (c1 := match job with JLoad _ _ => _ | JClose => _ end).
  assert (Hc1 : safe c1 ∧ co_threads c1 = co_threads c ∧ co_gate c1 = co_gate c).
  { subst c1. destruct job as [persona dir|]; [|done].
    destruct (swapPolicy_frame persona dir c) as (? & ? & _). split_and!; [|done..].
    apply safe_swap; [done|]. by apply (safe_quiet _ Hs i (TQuiesce (JLoad persona dir) QLocked) Hi). }
  destruct Hc1 as (Hs1 & Ht1 & Hg1).
  eapply (safe_moved c1 i (TQuiesce job QLocked) _ _ Hs1); rewrite ?Ht1, ?Hg1; simpl;
    [done|lia| | | |done].
  - eapply queue_same; [apply Hs|done|done|]. intros _.
    by eapply (queue_holder _ _ _ _ (safe_call _ Hs)).
  - by eapply queue_release; [apply Hs|..].
  - by eapply quiet_inv_move; [apply Hs|..].
Qed.

Lemma safe_step_quiesce c i job p c' :
  safe c → co_threads c !! i = Some (TQuiesce job p) → step_quiesce c i job p = Some c' → safe c'.
Proof.
  intros Hs Hi. pose proof (safe_call _ Hs) as Hcall. pose proof (safe_policy _ Hs) as Hpol.
  pose proof (safe_quiet _ Hs) as Hquiet.
  assert (Haddr : safe (set_address None c)) by (by destruct Hs).
  destruct p; cbn [step_quiesce].
  - intros [= <-]. destruct job; by eapply (safe_drain_check _ _ _ QStart).
  - done.
  - intros [= <-]. by eapply (safe_drain_check _ _ _ QWoken).
  - destruct (granted i (callMutex _)) eqn:Hg; [|done]. intros [= <-].
    eapply (safe_moved _ _ _ _ _ Hs Hi); simpl; [lia| | | |done].
    + by eapply queue_same.
    + eapply queue_acquire; [done|done|done|done|]. intros _. by eapply policy_mutex_free.
    + by eapply quiet_inv_move.
  - destruct (granted i (policyMutex _)); [|done]. intros [= <-]. by apply safe_job.
  - intros [= <-]. eapply (safe_moved _ _ _ _ _ Hs Hi); simpl; [lia| | | |done].
    + by eapply queue_release.
    + by eapply queue_same.
    + eapply quiet_inv_move; [|done..]. eapply quiet_inv_release; [done|done|done|].
      by eapply (queue_holder _ _ _ _ Hcall).
  - destruct job; intros [= <-]; by move_simple Hs Hi.
  - assert (Hm : ∀ next, next = QClosing ∨ next = QDone →
      safe (moved i (TQuiesce job next) (co_gate c) c)).
    { intros next [-> | ->]; by move_simple Hs Hi. }
    destruct job, (closed _); intros [= <-]; apply (safe_wake (moved _ _ _ _)); auto.
  - intros [= <-]. assert (Hs' : safe (set_co_shared
      (set_audit (AuditLog.close (sh_audit (co_shared c))) (co_shared c)) c)) by (by destruct Hs).
    by move_simple Hs' Hi.
  - done.
Qed.

Lemma safe_spawn t c :
  safe c → active_thread t = false → queued_thread t = false → holds_call t = false →
  holds_policy t = false → captured t = None → awaits_swap t = false → safe (spawn t c).
Proof.
  intros [Ha Hcall Hpol Hq Hc] Ht1 Ht2 Ht3 Ht4 Ht5 Ht6. split; simpl.
  - rewrite count_app, Ha. unfold count at 3. rewrite filter_cons_False; [simpl; lia|congruence].
  - by apply queue_spawn.
  - by apply queue_spawn.
  - by apply quiet_inv_spawn.
  - intros i u d. rewrite lookup_app_Some, list_lookup_singleton_Some.
    intros [Hi|[_ [_ <-]]] Hd; [by eapply Hc|congruence].
Qed.

Lemma safe_new options err : safe (newCoordinator options err).
Proof.
  split; simpl; [done|split|split| |].
  1, 4: constructor.
  all: try (intros i; split; [by intros ?%not_elem_of_nil|by intros (u & ? & ?)]).
  all: intros i t; by rewrite lookup_nil.
Qed.

(** Every reachable coordinator is safe. *)
Lemma reachable_safe c : reachable c → safe c.
Proof.
  induction 1 as [|c a c' _ IH Ha]; [apply safe_new|].
  destruct a as [|sv tn|persona dir| |m|sv tools cs|sv roots|sv b|address|i choice]; simpl in Ha.
  - injection Ha as <-. by apply safe_spawn.
  - injection Ha as <-. by apply safe_spawn.
  - destruct (validatePolicyDir dir); simplify_eq. by apply safe_spawn.
  - injection Ha as <-. by apply safe_spawn.
  - injection Ha as <-. by destruct IH.
  - injection Ha as <-. destruct cs, IH; by split.
  - injection Ha as <-. by destruct IH.
  - injection Ha as <-. by destruct IH.
  - destruct (co_controlServerAddress c); simplify_eq. by destruct IH.
  - unfold step in Ha. destruct (co_threads c !! i) as [[s p|job p]|] eqn:Hi; [..|done].
    + by eapply safe_step_call.
    + by eapply safe_step_quiesce.
Qed.
End policy_files.

(** * The coordinator never gets stuck

    Who waits for admission or for a drain is registered and will be woken. *)

Definition some_pending (ts : list Thread) : Prop :=
  ∃ k u, ts !! k = Some u ∧ pending u = true.

Record live (c : Coordinator) : Prop := {
  live_admission i s : co_threads c !! i = Some (TCall s AdmissionWait) →
    i ∈ admissionWaiters (co_gate c) ∧ some_pending (co_threads c);
  live_drain i job : co_threads c !! i = Some (TQuiesce job QDraining) →
    i ∈ drainWaiters (co_gate c) ∧ 0 < activeToolCalls (co_gate c);
  live_open : toolCallAdmissionOpen (co_gate c) = false →
    closed (co_gate c) = true ∨ some_pending (co_threads c);
}.

Lemma some_pending_insert ts i t t' :
  ts !! i = Some t → (pending t = true → pending t' = true) →
  some_pending ts → some_pending (<[i := t']> ts).
Proof.
  intros Hi Hp (k & u & Hk & Hu). destruct (decide (k = i)) as [->|Hne].
  - exists i, t'. rewrite list_lookup_insert_eq by (by eapply lookup_lt_Some). naive_solver.
  - exists k, u. by rewrite list_lookup_insert_ne.
Qed.

Lemma some_pending_self ts i t' : i < length ts → pending t' = true → some_pending (<[i := t']> ts).
Proof. intros Hi Hp. exists i, t'. by rewrite list_lookup_insert_eq. Qed.

Lemma live_moved c i t t' g' :
  live c → co_threads c !! i = Some t → (pending t = true → pending t' = true) →
  (∀ s, t' = TCall s AdmissionWait → i ∈ admissionWaiters g' ∧
     toolCallAdmissionOpen (co_gate c) = false ∧ closed (co_gate c) = false) →
  (∀ job, t' = TQuiesce job QDraining → i ∈ drainWaiters g') →
  admissionWaiters (co_gate c) ⊆ admissionWaiters g' →
  drainWaiters (co_gate c) ⊆ drainWaiters g' →
  (0 < activeToolCalls (co_gate c) ∨ (∃ job, t' = TQuiesce job QDraining) →
     0 < activeToolCalls g') →
  (toolCallAdmissionOpen g' = false → toolCallAdmissionOpen (co_gate c) = false ∨ pending t' = true) →
  (closed (co_gate c) = true → closed g' = true) →
  live (moved i t' g' c).
Proof.
  intros [Ha Hd Ho] Hi Hp Hadm Hdr Hsa Hsd Hact Hopen Hcl.
  pose proof (some_pending_insert _ i t t' Hi Hp) as Hpend. split; simpl.
  - intros j s [[-> <-]|[_ Hj]]%insert_cases.
    + destruct (Hadm s eq_refl) as (? & Hop & Hnc). split; [done|]. apply Hpend.
      destruct (Ho Hop); [congruence|done].
    + destruct (Ha j s Hj). split; [set_solver|auto].
  - intros j job [[-> <-]|[_ Hj]]%insert_cases.
    + split; [by eapply Hdr|]. apply Hact. right. by eexists.
    + destruct (Hd j job Hj). split; [set_solver|auto].
  - intros Hf. destruct (Hopen Hf) as [Hop|Hpt].
    + destruct (Ho Hop); [left|right]; auto.
    + right. apply some_pending_self; [by eapply lookup_lt_Some|done].
Qed.

(** A move of thread [i] that wakes the threads registered in [ids]. *)
Lemma wake_Some ids ts i u : wake ids ts !! i = Some u →
  ∃ t, ts !! i = Some t ∧ u = if includes ids i then resume t else t.
Proof. rewrite wake_lookup. destruct (ts !! i); simpl; naive_solver. Qed.

Lemma some_pending_wake ids ts : some_pending ts → some_pending (wake ids ts).
Proof.
  intros (k & u & Hk & Hu). exists k, (if includes ids k then resume u else u).
  rewrite wake_lookup, Hk. split; [done|]. destruct (includes ids k); [|done].
  by destruct (resume_classes u) as (_ & _ & _ & _ & _ & _ & _ & ->).
Qed.

Ltac live_simple Hl Hi :=
  eapply (live_moved _ _ _ _ _ Hl Hi); simpl;
  [done|try done; naive_solver|try done; naive_solver|set_solver|set_solver
  |try lia; naive_solver lia|try done; auto|done].

Lemma live_leave c i s n :
  safe c → live c → co_threads c !! i = Some (TCall s Leaving) →
  n = Nat.pred (activeToolCalls (co_gate c)) →
  live (if (n =? 0) then
    set_gate (set_drain [] (set_active n (co_gate c)))
      (set_threads (wake (drainWaiters (co_gate c)) (<[i := TCall s CallDone]> (co_threads c)))
         (moved i (TCall s CallDone) (set_active n (co_gate c)) c))
    else moved i (TCall s CallDone) (set_active n (co_gate c)) c).
Proof.
  intros Hs Hl Hi Hn. case_bool_decide as Hz.
  - destruct Hl as [Ha Hd Ho].
    pose proof (some_pending_insert _ i (TCall s Leaving) (TCall s CallDone) Hi ltac:(done)) as Hp.
    split; simpl.
    + intros j s' (t & [[-> ->]|[_ Hj]]%insert_cases & Hu)%wake_Some; [by case_match|].
      assert (t = TCall s' AdmissionWait) as -> by (by destruct (includes _ _), t as [? []|? []]).
      destruct (Ha j s' Hj). split; [done|]. by apply some_pending_wake, Hp.
    + intros j job (t & [[-> ->]|[_ Hj]]%insert_cases & Hu)%wake_Some; [by case_match|].
      assert (t = TQuiesce job QDraining) as -> by (by destruct (includes _ _), t as [? []|? []]).
      destruct (Hd j job Hj) as [Hin _]. exfalso.
      rewrite (proj2 (includes_spec _ _) Hin) in Hu. done.
    + intros Hf. destruct (Ho Hf); [by left|right]. by apply some_pending_wake, Hp.
  - eapply (live_moved _ _ _ _ _ Hl Hi); simpl; [done|done|done|set_solver|set_solver| |auto|done].
    intros _. lia.
Qed.

Lemma live_reopen c i job next :
  live c → co_threads c !! i = Some (TQuiesce job QReopening) →
  next = QClosing ∨ next = QDone →
  live (set_gate (set_admission [] (if closed (co_gate c) then co_gate c else set_open true (co_gate c)))
    (set_threads (wake (admissionWaiters (co_gate c)) (<[i := TQuiesce job next]> (co_threads c)))
       (moved i (TQuiesce job next) (co_gate c) c))).
Proof.
  intros [Ha Hd Ho] Hi Hnext. split; simpl.
  - intros j s (t & [[-> ->]|[_ Hj]]%insert_cases & Hu)%wake_Some.
    { by destruct (includes _ _), Hnext as [-> | ->]. }
    assert (t = TCall s AdmissionWait) as -> by (by destruct (includes _ _), t as [? []|? []]).
    destruct (Ha j s Hj) as [Hin _]. rewrite (proj2 (includes_spec _ _) Hin) in Hu. done.
  - intros j job' (t & [[-> ->]|[_ Hj]]%insert_cases & Hu)%wake_Some.
    { by destruct (includes _ _), Hnext as [-> | ->]. }
    assert (t = TQuiesce job' QDraining) as -> by (by destruct (includes _ _), t as [? []|? []]).
    destruct (closed (co_gate c)); by eapply Hd.
  - destruct (closed (co_gate c)) eqn:Hc; simpl; [rewrite Hc; by left|done].
Qed.

(** Moves that leave the waiters alone. *)
Lemma live_plain c i t t' g' :
  live c → co_threads c !! i = Some t → (pending t = true → pending t' = true) →
  (∀ s, t' ≠ TCall s AdmissionWait) → (∀ job, t' ≠ TQuiesce job QDraining) →
  admissionWaiters g' = admissionWaiters (co_gate c) →
  drainWaiters g' = drainWaiters (co_gate c) →
  activeToolCalls (co_gate c) ≤ activeToolCalls g' →
  toolCallAdmissionOpen g' = toolCallAdmissionOpen (co_gate c) ∨ pending t' = true →
  (closed (co_gate c) = true → closed g' = true) → live (moved i t' g' c).
Proof.
  intros Hl Hi Hp Hna Hnd Hga Hgd Hact Ho Hc. eapply (live_moved _ _ _ _ _ Hl Hi); [done| | | | | | |done].
  - intros s ->. by destruct (Hna s).
  - intros job ->. by destruct (Hnd job).
  - by rewrite Hga.
  - by rewrite Hgd.
  - intros [Hpos|[job ->]]; [lia|by destruct (Hnd job)].
  - intros Hf. destruct Ho as [<-|?]; auto.
Qed.

Lemma live_step_call c i s p choice c' :
  safe c → live c → co_threads c !! i = Some (TCall s p) → step_call c i s p choice = Some c' →
  live c'.
Proof.
  intros Hs Hl Hi. destruct p as [| | | |d|d|d| | |]; cbn [step_call]; [|done|..|done|done].
  - destruct (closed _) eqn:Hc; [intros [= <-]; eapply live_plain; eauto; done|].
    destruct (toolCallAdmissionOpen _) eqn:Ho; intros [= <-].
    + eapply live_plain; eauto; [done..|simpl; lia].
    + eapply (live_moved _ _ _ _ _ Hl Hi); simpl; [done| |done|set_solver|done| |auto|done].
      * intros s' [= ->]. split; [set_solver|done].
      * by intros [?|[? ?]].
  - intros [= <-]. by eapply live_plain; eauto.
  - destruct (granted _ _); [|done]. intros [= <-]. by eapply live_plain; eauto.
  - destruct choice; intros [= <-]; [by eapply live_plain; eauto..|by destruct Hl].
  - intros [= <-]. by eapply live_plain; eauto.
  - destruct (granted _ _); [|done]. intros [= <-]. by eapply live_plain; eauto.
  - pose proof (live_leave c i s _ Hs Hl Hi eq_refl) as Hll. revert Hll.
    case_bool_decide; intros Hll [= <-]; exact Hll.
Qed.

Lemma live_drain_check c i job p g :
  live c → co_threads c !! i = Some (TQuiesce job p) →
  admissionWaiters g = admissionWaiters (co_gate c) → drainWaiters g = drainWaiters (co_gate c) →
  activeToolCalls g = activeToolCalls (co_gate c) → closed g = closed (co_gate c) →
  live (drain_check c i job g).
Proof.
  intros Hl Hi Hga Hgd Hact Hc. unfold drain_check.
  destruct (Nat.ltb_spec 0 (activeToolCalls g)).
  - eapply (live_moved _ _ _ _ _ Hl Hi); simpl; rewrite ?Hga, ?Hgd, ?Hc;
      [done|done| |done|set_solver|done|auto|done].
    intros job' _. set_solver.
  - eapply (live_plain _ _ _ _ _ Hl Hi); simpl; rewrite ?Hga, ?Hgd, ?Hc, ?Hact; auto.
Qed.

Section policy_files.
Context `{FileSystem} `{PolicyFiles}.

Lemma live_step_quiesce c i job p c' :
  live c → co_threads c !! i = Some (TQuiesce job p) → step_quiesce c i job p = Some c' → live c'.
Proof.
  intros Hl Hi.
  assert (Haddr : live (set_address None c)) by (by destruct Hl).
  destruct p; cbn [step_quiesce].
  - intros [= <-]. destruct job; by eapply (live_drain_check _ _ _ QStart).
  - done.
  - intros [= <-]. by eapply live_drain_check.
  - destruct (granted _ _); [|done]. intros [= <-]. eapply live_plain; eauto; done.
  - destruct (granted _ _); [|done]. intros [= <-].
    set (c1 := match job with JLoad _ _ => _ | JClose => _ end).
    assert (Hc1 : live c1 ∧ co_threads c1 = co_threads c ∧ co_gate c1 = co_gate c).
    { subst c1. destruct job as [persona dir|]; [|done].
      destruct (swapPolicy_frame persona dir c) as (Ht & Hg & _). split_and!; [|done..].
      destruct Hl as [Ha Hd Ho]. split; by rewrite ?Ht, ?Hg. }
    destruct Hc1 as (Hl1 & Ht1 & Hg1).
    eapply (live_plain c1 i (TQuiesce job QLocked)); rewrite ?Ht1, ?Hg1; eauto; done.
  - intros [= <-]. eapply live_plain; eauto; done.
  - destruct job; intros [= <-]; eapply live_plain; eauto; done.
  - intros [= <-]. apply (live_reopen c i job); [done|done|]. destruct job; auto.
  - intros [= <-]. assert (Hl' : live (set_co_shared
      (set_audit (AuditLog.close (sh_audit (co_shared c))) (co_shared c)) c)) by (by destruct Hl).
    eapply (live_plain _ _ _ _ _ Hl' Hi); eauto; done.
  - done.
Qed.

Lemma live_spawn t c :
  live c → (∀ s, t ≠ TCall s AdmissionWait) → (∀ job, t ≠ TQuiesce job QDraining) → live (spawn t c).
Proof.
  intros [Ha Hd Ho] Hna Hnd.
  assert (Hp : some_pending (co_threads c) → some_pending (co_threads c ++ [t])).
  { intros (k & u & Hk & Hu). exists k, u. by rewrite lookup_app_l by (by eapply lookup_lt_Some). }
  split; simpl.
  - intros i s. rewrite lookup_app_Some, list_lookup_singleton_Some.
    intros [Hi|[_ [_ ->]]]; [|by destruct (Hna s)]. destruct (Ha i s Hi). auto.
  - intros i job. rewrite lookup_app_Some, list_lookup_singleton_Some.
    intros [Hi|[_ [_ ->]]]; [by eapply Hd|by destruct (Hnd job)].
  - intros Hf. destruct (Ho Hf); auto.
Qed.

Lemma reachable_live c : reachable c → live c.
Proof.
  induction 1 as [options err|c a c' Hr IH Ha].
  { split; simpl; [by intros i s; rewrite lookup_nil|by intros i j; rewrite lookup_nil|done]. }
  apply reachable_safe in Hr as Hs.
  destruct a as [|sv tn|persona dir| |m|sv tools cs|sv roots|sv b|address|i choice]; simpl in Ha.
  - injection Ha as <-. by apply live_spawn.
  - injection Ha as <-. by apply live_spawn.
  - destruct (validatePolicyDir dir); simplify_eq. by apply live_spawn.
  - injection Ha as <-. by apply live_spawn.
  - injection Ha as <-. by destruct IH.
  - injection Ha as <-. destruct cs, IH; by split.
  - injection Ha as <-. by destruct IH.
  - injection Ha as <-. by destruct IH.
  - destruct (co_controlServerAddress c); simplify_eq. by destruct IH.
  - unfold step in Ha. destruct (co_threads c !! i) as [[s p|job p]|] eqn:Hi; [..|done].
    + by eapply live_step_call.
    + by eapply live_step_quiesce.
Qed.

(** ** Some thread can always continue *)

Definition finished (t : Thread) : bool :=
  match t with TCall _ (CallDone | Rejected) | TQuiesce _ QDone => true | _ => false end.

(** Threads that wait for another one. *)
Definition waiting (t : Thread) : bool :=
  match t with
  | TCall _ (AdmissionWait | CallQueued | Requeued _) => true
  | TQuiesce _ (QDraining | QQueued | QLocked) => true
  | _ => false
  end.

Definition can_step (c : Coordinator) : Prop := ∃ i c', step c i Continue = Some c'.

Lemma runnable_steps c i t :
  co_threads c !! i = Some t → finished t = false → waiting t = false → can_step c.
Proof.
  intros Hi Hf Hw. exists i. unfold step. rewrite Hi.
  destruct t as [s []|job []]; simpl in *; try done; repeat case_match; eauto.
Qed.

Lemma granted_steps c i t :
  safe c → co_threads c !! i = Some t → granted i (callMutex (co_gate c)) = true →
  queued_thread t = true → can_step c.
Proof.
  intros Hs Hi Hg Hq. destruct (waiting t) eqn:Hw.
  2:{ eapply runnable_steps; [done| |done]. by destruct t as [? []|? []]. }
  exists i. unfold step. rewrite Hi.
  destruct t as [s []|job []]; try done; cbn [step_call step_quiesce]; rewrite ?Hg; eauto.
  rewrite (queue_holder _ _ _ _ (safe_policy _ Hs) _ _ Hi eq_refl). eauto.
Qed.

Lemma unfinished_steps c i t :
  safe c → live c → co_threads c !! i = Some t → finished t = false → can_step c.
Proof.
  intros Hs Hl Hi Hf. destruct (callMutex (co_gate c)) as [|h q] eqn:Hq.
  2:{ destruct (proj1 (queue_mem _ _ _ _ (safe_call _ Hs) h)) as (u & Hu & Hqu).
      { rewrite Hq. left. }
      eapply granted_steps; [done|done| |done]. rewrite Hq. simpl. by rewrite bool_decide_eq_true_2. }
  assert (Hnq : ∀ j u, co_threads c !! j = Some u → queued_thread u = false).
  { intros j u Hj. apply not_true_iff_false. intros Hu.
    assert (Hin : j ∈ callMutex (co_gate c)) by (apply (safe_call _ Hs); eauto).
    rewrite Hq in Hin. by apply not_elem_of_nil in Hin. }
  (* a draining thread waits for an active call, which can continue *)
  assert (Hdrain : ∀ j job, co_threads c !! j = Some (TQuiesce job QDraining) → can_step c).
  { intros j job Hj. destruct (live_drain _ Hl j job Hj) as [_ Hpos].
    rewrite (safe_active _ Hs) in Hpos. destruct (count_pos _ _ Hpos) as (k & u & Hk & Hu).
    pose proof (Hnq k u Hk). eapply runnable_steps; [done|by destruct u as [? []|]..]. }
  destruct (waiting t) eqn:Hw; [|by eapply runnable_steps].
  pose proof (Hnq i t Hi). destruct t as [s []|job []]; try done; [|by eapply Hdrain].
  destruct (live_admission _ Hl i s Hi) as [_ (k & u & Hk & Hu)].
  pose proof (Hnq k u Hk). destruct u as [|job []]; try done;
    first [by eapply Hdrain | by eapply runnable_steps].
Qed.
End policy_files.
