(* ===== verification/Regex.v ===== *)
(** * Regular expressions

    The tests of the source that are regular expressions anchored at both ends.  A
    matcher by derivatives, correct for the language of the expression. *)

From Stdlib Require Import Ascii.
From S2P Require Import Prelude Urls.

Inductive regex : Type :=
| Void
| Eps
| Chr (p : ascii → bool)
| Cat (r1 r2 : regex)
| Alt (r1 r2 : regex)
| Star (r : regex).

Inductive lang : regex → string → Prop :=
| lang_eps : lang Eps ""
| lang_chr p c : p c = true → lang (Chr p) (String c "")
| lang_cat r1 r2 s1 s2 : lang r1 s1 → lang r2 s2 → lang (Cat r1 r2) (s1 +:+ s2)
| lang_alt_l r1 r2 s : lang r1 s → lang (Alt r1 r2) s
| lang_alt_r r1 r2 s : lang r2 s → lang (Alt r1 r2) s
| lang_star_nil r : lang (Star r) ""
| lang_star_cons r s1 s2 : lang r s1 → lang (Star r) s2 → lang (Star r) (s1 +:+ s2).

(** ** Notation of the source *)

Definition Opt (r : regex) : regex := Alt Eps r.
Definition Plus (r : regex) : regex := Cat r (Star r).
Definition Any : regex := Chr (λ _, true).
Definition chr (c : ascii) : regex := Chr (λ a, a =? c).
Definition one_of (s : string) : regex := Chr (λ a, str_includes s (String a "")).

Fixpoint lit (s : string) : regex :=
  match s with "" => Eps | String c s => Cat (chr c) (lit s) end.

Fixpoint times (n : nat) (r : regex) : regex :=
  match n with O => Eps | S n => Cat r (times n r) end.

(** [r{0,n}] *)
Fixpoint up_to (n : nat) (r : regex) : regex :=
  match n with O => Eps | S n => Opt (Cat r (up_to n r)) end.

Definition is_lower : ascii → bool := in_range 97 122.
Definition is_letter (a : ascii) : bool := is_lower a || in_range 65 90 a.
Definition is_letter_digit (a : ascii) : bool := is_letter a || is_digit a.
Definition is_lower_digit (a : ascii) : bool := is_lower a || is_digit a.

(** The characters that [p] accepts, or one of a string. *)
Definition or_in (p : ascii → bool) (s : string) : regex := Chr (λ a, p a || str_includes s (String a "")).

(** ** The matcher *)

Fixpoint nullable (r : regex) : bool :=
  match r with
  | Void | Chr _ => false
  | Eps | Star _ => true
  | Cat r1 r2 => nullable r1 && nullable r2
  | Alt r1 r2 => nullable r1 || nullable r2
  end.

Definition cat (r1 r2 : regex) : regex :=
  match r1 with Void => Void | Eps => r2 | _ => Cat r1 r2 end.

Definition alt (r1 r2 : regex) : regex :=
  match r1, r2 with Void, r | r, Void => r | _, _ => Alt r1 r2 end.

Fixpoint deriv (c : ascii) (r : regex) : regex :=
  match r with
  | Void | Eps => Void
  | Chr p => if p c then Eps else Void
  | Cat r1 r2 => if nullable r1 then alt (cat (deriv c r1) r2) (deriv c r2) else cat (deriv c r1) r2
  | Alt r1 r2 => alt (deriv c r1) (deriv c r2)
  | Star r => cat (deriv c r) (Star r)
  end.

Fixpoint matches (r : regex) (s : string) : bool :=
  match s with "" => nullable r | String c s => matches (deriv c r) s end.

(** ** Correctness *)

#[export] Hint Constructors lang : core.

Lemma lang_void s : ¬ lang Void s.
Proof. inversion 1. Qed.

Lemma lang_chr_inv p s : lang (Chr p) s ↔ ∃ c, s = String c "" ∧ p c = true.
Proof. split; [inversion 1; eauto|]. intros (c & -> & ?); auto. Qed.

Lemma lang_cat_inv r1 r2 s : lang (Cat r1 r2) s ↔ ∃ s1 s2, s = s1 +:+ s2 ∧ lang r1 s1 ∧ lang r2 s2.
Proof. split; [inversion 1; eauto|]. intros (? & ? & -> & ? & ?); auto. Qed.

Lemma lang_alt_inv r1 r2 s : lang (Alt r1 r2) s ↔ lang r1 s ∨ lang r2 s.
Proof. split; [inversion 1; auto|]. intros [?|?]; auto. Qed.

Lemma lang_eps_inv s : lang Eps s ↔ s = "".
Proof. split; [by inversion 1|]. intros ->; auto. Qed.

Lemma lang_cat_smart r1 r2 s : lang (cat r1 r2) s ↔ lang (Cat r1 r2) s.
Proof.
  destruct r1; try done; rewrite lang_cat_inv; simpl.
  - split; [by intros ?%lang_void|]. by intros (? & ? & _ & ?%lang_void & _).
  - split; [by exists "", s|]. by intros (? & ? & -> & ->%lang_eps_inv & ?).
Qed.

Lemma lang_alt_smart r1 r2 s : lang (alt r1 r2) s ↔ lang (Alt r1 r2) s.
Proof.
  assert (lang Void s ↔ False) as Hv by (split; [apply lang_void|done]).
  rewrite lang_alt_inv. destruct r1, r2; simpl; rewrite ?lang_alt_inv; naive_solver.
Qed.

Lemma nullable_spec r : nullable r = true ↔ lang r "".
Proof.
  induction r; simpl; rewrite ?andb_true_iff, ?orb_true_iff, ?IHr1, ?IHr2.
  - split; [done|by intros ?%lang_void].
  - split; auto.
  - rewrite lang_chr_inv. naive_solver.
  - rewrite lang_cat_inv. split; [intros []; by exists "", ""|].
    intros ([] & [] & ? & ? & ?); by simplify_eq/=.
  - by rewrite lang_alt_inv.
  - split; auto.
Qed.

(** A non-empty word of a star starts with a non-empty word of its body. *)
Lemma lang_star_inv r s : lang (Star r) s →
  s = "" ∨ ∃ c s1 s2, s = String c (s1 +:+ s2) ∧ lang r (String c s1) ∧ lang (Star r) s2.
Proof.
  remember (Star r) as q eqn:E. induction 1; simplify_eq/=; [by left|].
  destruct s1 as [|c s1]; [by apply IHlang2|]. right. by exists c, s1, s2.
Qed.

Lemma deriv_spec c r s : lang (deriv c r) s ↔ lang r (String c s).
Proof.
  revert s. induction r as [| |p|r1 IH1 r2 IH2|r1 IH1 r2 IH2|r IH]; intros s; simpl.
  - split; [by intros ?%lang_void|by intros ?%lang_void].
  - split; [by intros ?%lang_void|by inversion 1].
  - destruct (p c) eqn:E; rewrite lang_chr_inv; [rewrite lang_eps_inv|]; split.
    + intros ->. eauto.
    + by intros (? & ? & ?); simplify_eq.
    + by intros ?%lang_void.
    + intros (? & ? & ?); simplify_eq. congruence.
  - assert (Hc : lang (cat (deriv c r1) r2) s ↔
      ∃ s1 s2, s = s1 +:+ s2 ∧ lang r1 (String c s1) ∧ lang r2 s2).
    { rewrite lang_cat_smart, lang_cat_inv. by setoid_rewrite IH1. }
    rewrite (lang_cat_inv r1). destruct (nullable r1) eqn:E.
    + rewrite lang_alt_smart, lang_alt_inv, Hc, IH2. apply nullable_spec in E. split.
      * intros [(s1 & s2 & -> & ? & ?)|?]; [by exists (String c s1), s2|by exists "", (String c s)].
      * intros ([|d s1] & s2 & Hs & ? & ?).
        { change (String c s = s2) in Hs. subst. by right. }
        rewrite str_app_cons in Hs. simplify_eq. left. by exists s1, s2.
    + rewrite Hc. split.
      * intros (s1 & s2 & -> & ? & ?). by exists (String c s1), s2.
      * intros ([|d s1] & s2 & Hs & H1 & ?); [apply nullable_spec in H1; congruence|].
        rewrite str_app_cons in Hs. simplify_eq. by exists s1, s2.
  - by rewrite lang_alt_smart, !lang_alt_inv, IH1, IH2.
  - rewrite lang_cat_smart, lang_cat_inv. setoid_rewrite IH. split.
    + intros (s1 & s2 & -> & ? & ?). by apply (lang_star_cons r (String c s1)).
    + intros [?|(d & s1 & s2 & ? & ? & ?)]%lang_star_inv; simplify_eq. by exists s1, s2.
Qed.

Lemma matches_spec r s : matches r s = true ↔ lang r s.
Proof.
  revert r. induction s as [|c s IH]; intros r; simpl; [apply nullable_spec|].
  by rewrite IH, deriv_spec.
Qed.

(** ** Words over a class of characters *)

Lemma lang_star_chr p s : lang (Star (Chr p)) s ↔ str_forallb p s = true.
Proof.
  split.
  - remember (Star (Chr p)) as q eqn:E. induction 1; simplify_eq/=; [done|].
    rewrite str_forallb_app, IHlang2 by done. apply lang_chr_inv in H as (c & -> & Hp). simpl. by rewrite Hp.
  - induction s as [|c s IH]; simpl; [auto|]. intros [? ?]%andb_true_iff.
    apply (lang_star_cons _ (String c "")); auto.
Qed.

Lemma lang_plus_chr p s : lang (Plus (Chr p)) s ↔ s ≠ "" ∧ str_forallb p s = true.
Proof.
  unfold Plus. rewrite lang_cat_inv. setoid_rewrite lang_chr_inv. setoid_rewrite lang_star_chr. split.
  - intros (? & s2 & -> & (c & -> & Hp) & ?). simpl. by rewrite Hp.
  - destruct s as [|c s]; simpl; [by intros []|]. intros [_ [? ?]%andb_true_iff].
    exists (String c ""), s. eauto.
Qed.

(** Every character of a word of [r] is in a class that contains those of [r]. *)
Fixpoint chars_in (p : ascii → Prop) (r : regex) : Prop :=
  match r with
  | Void | Eps => True
  | Chr q => ∀ c, q c = true → p c
  | Cat r1 r2 | Alt r1 r2 => chars_in p r1 ∧ chars_in p r2
  | Star r => chars_in p r
  end.

Lemma lang_chars_in p r s : chars_in (λ c, p c = true) r → lang r s → str_forallb p s = true.
Proof.
  intros Hc Hl. induction Hl; simpl in *; rewrite ?str_forallb_app; try (naive_solver; fail).
  - by rewrite (Hc c).
  - destruct Hc. by rewrite IHHl1, IHHl2.
  - by rewrite IHHl1, IHHl2.
Qed.

Lemma lang_lit s t : lang (lit s) t ↔ t = s.
Proof.
  revert t. induction s as [|c s IH]; intros t; simpl; [apply lang_eps_inv|].
  rewrite lang_cat_inv. unfold chr. setoid_rewrite lang_chr_inv. setoid_rewrite IH. split.
  - intros (? & ? & -> & (? & -> & ?%bool_decide_eq_true) & ->). by subst.
  - intros ->. exists (String c ""), s. split; [done|]. split; [|done]. exists c. split; [done|].
    by apply bool_decide_eq_true.
Qed.

Lemma lang_up_to_chr n p s :
  lang (up_to n (Chr p)) s ↔ (String.length s ≤ n)%nat ∧ str_forallb p s = true.
Proof.
  revert s. induction n as [|n IH]; intros s; simpl.
  - rewrite lang_eps_inv. split; [by intros ->|]. destruct s; simpl; [done|lia].
  - unfold Opt. rewrite lang_alt_inv, lang_eps_inv, lang_cat_inv. setoid_rewrite lang_chr_inv.
    setoid_rewrite IH. split.
    + intros [->|(s1 & s2 & -> & (c & -> & Hp) & Hlen & Hs)]; [split; [simpl; lia|done]|].
      change (String c "" +:+ s2) with (String c s2). simpl. rewrite Hp. split; [lia|done].
    + destruct s as [|c s]; simpl; [by left|]. intros [Hlen [Hp Hs]%andb_true_iff]. right.
      exists (String c ""), s. split; [done|]. split; [by exists c|]. split; [lia|done].
Qed.
