(* ===== verification/JsInt.v ===== *)
(** * The 32-bit operators of JavaScript, and bytes

    Bitwise operators convert their operands to 32-bit integers first, and all but
    [>>>] give a signed one.  Bytes are integers below 256, byte strings lists of
    them. *)

From Stdlib Require Import ZArith Lia Ascii.
From S2P Require Import Prelude.

Local Open Scope Z_scope.

Definition to_uint32 (z : Z) : Z := z mod 2 ^ 32.
Definition to_int32 (z : Z) : Z :=
  let u := to_uint32 z in if u <? 2 ^ 31 then u else u - 2 ^ 32.

Definition js_and (a b : Z) : Z := Z.land (to_int32 a) (to_int32 b).
Definition js_or (a b : Z) : Z := Z.lor (to_int32 a) (to_int32 b).
Definition js_xor (a b : Z) : Z := Z.lxor (to_int32 a) (to_int32 b).
Definition js_shl (a n : Z) : Z := to_int32 (Z.shiftl (to_int32 a) (n mod 32)).
Definition js_ushr (a n : Z) : Z := Z.shiftr (to_uint32 a) (n mod 32).

(** ** What they come to on small operands *)

Lemma to_uint32_small z : 0 ≤ z < 2 ^ 32 → to_uint32 z = z.
Proof. intros. by apply Z.mod_small. Qed.

Lemma to_int32_small z : 0 ≤ z < 2 ^ 31 → to_int32 z = z.
Proof.
  intros. unfold to_int32, to_uint32. rewrite Z.mod_small by lia.
  rewrite (proj2 (Z.ltb_lt _ _)); [done|lia].
Qed.

Lemma to_int32_mod z : to_int32 z mod 2 ^ 32 = z mod 2 ^ 32.
Proof.
  unfold to_int32, to_uint32. pose proof (Z.mod_pos_bound z (2 ^ 32) ltac:(lia)).
  destruct (_ <? _); [by rewrite Z.mod_mod|].
  replace (z mod 2 ^ 32 - 2 ^ 32) with (z mod 2 ^ 32 + (-1) * 2 ^ 32) by lia.
  by rewrite Z_mod_plus_full, Z.mod_mod.
Qed.

(** Reduction modulo a power of two commutes with the bitwise operations. *)
Lemma mod_pow2_land_ones z n : 0 ≤ n → z mod 2 ^ n = Z.land z (Z.ones n).
Proof. intros. by rewrite Z.land_ones. Qed.

Lemma land_mod_pow2 a b n : 0 ≤ n → Z.land a b mod 2 ^ n = Z.land (a mod 2 ^ n) (b mod 2 ^ n).
Proof.
  intros. rewrite !mod_pow2_land_ones by done. apply Z.bits_inj'. intros i Hi.
  rewrite !Z.land_spec. destruct (Z.testbit a i), (Z.testbit b i), (Z.testbit (Z.ones n) i); done.
Qed.

Lemma lor_mod_pow2 a b n : 0 ≤ n → Z.lor a b mod 2 ^ n = Z.lor (a mod 2 ^ n) (b mod 2 ^ n).
Proof.
  intros. rewrite !mod_pow2_land_ones by done. apply Z.bits_inj'. intros i Hi.
  rewrite ?Z.land_spec, ?Z.lor_spec, ?Z.land_spec.
  destruct (Z.testbit a i), (Z.testbit b i), (Z.testbit (Z.ones n) i); done.
Qed.

Lemma js_or_uint32 a b : to_uint32 (js_or a b) = Z.lor (to_uint32 a) (to_uint32 b).
Proof. unfold js_or, to_uint32. by rewrite lor_mod_pow2, !to_int32_mod. Qed.

Lemma js_and_uint32 a b : to_uint32 (js_and a b) = Z.land (to_uint32 a) (to_uint32 b).
Proof. unfold js_and, to_uint32. by rewrite land_mod_pow2, !to_int32_mod. Qed.

Lemma js_ushr_0 a : js_ushr a 0 = to_uint32 a.
Proof. done. Qed.

Lemma js_shl_uint32 a n : 0 ≤ a → 0 ≤ n < 32 → a * 2 ^ n < 2 ^ 32 → to_uint32 (js_shl a n) = a * 2 ^ n.
Proof.
  intros Ha Hn Hb. unfold js_shl, to_uint32. rewrite to_int32_mod, (Z.mod_small n) by lia.
  assert (1 ≤ 2 ^ n) by (change 1 with (2 ^ 0); apply Z.pow_le_mono_r; lia).
  rewrite Z.shiftl_mul_pow2 by lia.
  rewrite <-Zmult_mod_idemp_l, to_int32_mod, Zmult_mod_idemp_l. apply Z.mod_small. nia.
Qed.

(** Disjoint parts are added. *)
Lemma lor_add_shifted a b n : 0 ≤ n → 0 ≤ b < 2 ^ n → Z.lor (a * 2 ^ n) b = a * 2 ^ n + b.
Proof.
  intros Hn Hb. assert (Z.land (a * 2 ^ n) b = 0) as Hd.
  { rewrite <-Z.shiftl_mul_pow2 by done. apply Z.bits_inj'. intros i Hi.
    rewrite Z.land_spec, Z.shiftl_spec, Z.bits_0 by done. destruct (Z.ltb_spec i n).
    - by rewrite (Z.testbit_neg_r a) by lia.
    - destruct (decide (b = 0)) as [->|]; [by rewrite Z.bits_0, andb_false_r|].
      rewrite (Z.bits_above_log2 b), andb_false_r; [done|lia|].
      enough (Z.log2 b < n) by lia. apply Z.log2_lt_pow2; lia. }
  by rewrite <-Z.lxor_lor, Z.add_nocarry_lxor.
Qed.

(** ** Masks *)

(** The top [w - k] bits of [v], as a mask and as a quotient. *)
Lemma land_top_mask v k w :
  0 ≤ k ≤ w → 0 ≤ v < 2 ^ w → Z.land v (2 ^ w - 2 ^ k) = (v / 2 ^ k) * 2 ^ k.
Proof.
  intros Hk Hv. apply Z.bits_inj'. intros i Hi.
  rewrite <-Z.shiftl_mul_pow2, <-Z.shiftr_div_pow2 by lia.
  assert (2 ^ w - 2 ^ k = Z.shiftl (Z.ones (w - k)) k) as ->.
  { rewrite Z.ones_equiv, Z.shiftl_mul_pow2 by lia. unfold Z.pred.
    rewrite Z.mul_add_distr_r, <-Z.pow_add_r by lia. replace (w - k + k) with w by lia. lia. }
  rewrite Z.land_spec, !Z.shiftl_spec by done.
  destruct (Z.ltb_spec i k).
  - rewrite !(Z.testbit_neg_r _ (i - k)) by lia. by destruct (Z.testbit v i).
  - rewrite Z.shiftr_spec by lia. replace (i - k + k) with i by lia.
    destruct (Z.ltb_spec i w).
    + rewrite Z.ones_spec_low by lia. by destruct (Z.testbit v i).
    + rewrite Z.ones_spec_high by lia. rewrite andb_false_r. symmetry.
      destruct (decide (v = 0)) as [->|]; [by rewrite Z.bits_0|].
      apply Z.bits_above_log2; [lia|]. enough (Z.log2 v < w) by lia.
      apply Z.log2_lt_pow2; lia.
Qed.

(** * Big-endian numbers

    Byte strings and the numbers they stand for: prefixes of an address as quotients,
    parts of it as fields. *)

Section bytesTheory_part.
Local Open Scope Z_scope.
Local Open Scope curtain_scope.

Definition bytes_ok (l : list Z) : Prop := Forall (λ b, 0 ≤ b < 256) l.

(** The number a byte string spells. *)
Definition be (l : list Z) : Z := foldl (λ n b, n * 256 + b) 0 l.

Lemma be_from n l : foldl (λ n b, n * 256 + b) n l = n * 2 ^ (8 * Z.of_nat (length l)) + be l.
Proof.
  revert n. unfold be. induction l as [|b l IH]; intros n; cbn [foldl length]; [lia|].
  rewrite IH, (IH (0 * 256 + b)), Nat2Z.inj_succ.
  replace (8 * Z.succ (Z.of_nat (length l))) with (8 + 8 * Z.of_nat (length l)) by lia.
  rewrite Z.pow_add_r by lia. change (2 ^ 8) with 256. lia.
Qed.

Lemma be_cons b l : be (b :: l) = b * 2 ^ (8 * Z.of_nat (length l)) + be l.
Proof. unfold be at 1. cbn [foldl]. by rewrite be_from. Qed.

Lemma be_app l1 l2 : be (l1 ++ l2) = be l1 * 2 ^ (8 * Z.of_nat (length l2)) + be l2.
Proof. unfold be at 1. by rewrite foldl_app, be_from. Qed.

Lemma be_bound l : bytes_ok l → 0 ≤ be l < 2 ^ (8 * Z.of_nat (length l)).
Proof.
  induction 1 as [|b l Hb Hl IH]; [by unfold be; simpl|]. rewrite be_cons. cbn [length]. rewrite Nat2Z.inj_succ.
  replace (8 * Z.succ (Z.of_nat (length l))) with (8 + 8 * Z.of_nat (length l)) by lia.
  rewrite Z.pow_add_r by lia. change (2 ^ 8) with 256. nia.
Qed.

(** Equal sums with small remainders have equal parts. *)
Lemma mul_add_inj k a b a' b' : 0 ≤ b < k → 0 ≤ b' < k → a * k + b = a' * k + b' ↔ a = a' ∧ b = b'.
Proof. intros. split; [|by intros [-> ->]]. intros. assert (a = a') by nia. subst. lia. Qed.

Lemma be_inj l l' : bytes_ok l → bytes_ok l' → length l = length l' → be l = be l' → l = l'.
Proof.
  intros Hl. revert l'. induction Hl as [|b l Hb Hl IH]; intros [|b' l'] Hl' Hlen; try done.
  inversion Hl'; subst. cbn [length] in Hlen. injection Hlen as Hlen. rewrite !be_cons, <-Hlen.
  rewrite mul_add_inj by (rewrite ?Hlen; first [by apply be_bound|rewrite <-Hlen; by apply be_bound]). intros [-> ?]. f_equal. by apply IH.
Qed.

Lemma be_div l1 l2 : bytes_ok l2 → be (l1 ++ l2) / 2 ^ (8 * Z.of_nat (length l2)) = be l1.
Proof. intros Hl. pose proof (be_bound l2 Hl). rewrite be_app, Z.div_add_l, Z.div_small; lia. Qed.

Lemma be_mod l1 l2 : bytes_ok l2 → be (l1 ++ l2) mod 2 ^ (8 * Z.of_nat (length l2)) = be l2.
Proof. intros Hl. rewrite be_app, Z.add_comm, Z_mod_plus_full. apply Z.mod_small. by apply be_bound. Qed.

Lemma bytes_ok_app l1 l2 : bytes_ok (l1 ++ l2) ↔ bytes_ok l1 ∧ bytes_ok l2.
Proof. apply Forall_app. Qed.

Lemma bytes_ok_take n l : bytes_ok l → bytes_ok (take n l).
Proof. apply Forall_take. Qed.

Lemma bytes_ok_drop n l : bytes_ok l → bytes_ok (drop n l).
Proof. apply Forall_drop. Qed.

Lemma bytes_ok_nth i l : bytes_ok l → 0 ≤ nth i l 0 < 256.
Proof.
  intros Hl. destruct (nth_in_or_default i l 0) as [Hin| ->]; [|lia].
  unfold bytes_ok in Hl. rewrite List.Forall_forall in Hl. by apply Hl.
Qed.

(** ** Addresses of 128 bits *)

Definition address_ok (l : list Z) : Prop := length l = 16%nat ∧ bytes_ok l.

(** [len] bits of a 128-bit number, [off] bits from its start. *)
Definition field (n off len : Z) : Z := (n / 2 ^ (128 - off - len)) mod 2 ^ len.

Definition in_prefix (n p len : Z) : Prop := n / 2 ^ (128 - len) = p / 2 ^ (128 - len).

Lemma field_bytes l i k :
  address_ok l → (i + k ≤ 16)%nat →
  field (be l) (8 * Z.of_nat i) (8 * Z.of_nat k) = be (take k (drop i l)).
Proof.
  intros [Hlen Hl] Hik. unfold field.
  replace (128 - 8 * Z.of_nat i - 8 * Z.of_nat k) with (8 * Z.of_nat (length (drop k (drop i l))))
    by (rewrite !length_drop; lia).
  rewrite <-(take_drop i l) at 1. rewrite <-(take_drop k (drop i l)) at 1. rewrite app_assoc.
  rewrite be_div by auto using bytes_ok_drop.
  replace (Z.of_nat k) with (Z.of_nat (length (take k (drop i l))))
    by (rewrite length_take_le; [done|rewrite length_drop; lia]).
  by apply be_mod, bytes_ok_take, bytes_ok_drop.
Qed.

(** The quotient of a prefix: its whole bytes, and the top bits of the next one. *)
Lemma be_quotient_bytes l w :
  address_ok l → (w ≤ 16)%nat → be l / 2 ^ (128 - 8 * Z.of_nat w) = be (take w l).
Proof.
  intros [Hlen Hl] Hw. rewrite <-(take_drop w l) at 1.
  replace (128 - 8 * Z.of_nat w) with (8 * Z.of_nat (length (drop w l))) by (rewrite length_drop; lia).
  by apply be_div, bytes_ok_drop.
Qed.

Lemma be_quotient_bits l w r :
  address_ok l → (w < 16)%nat → 0 < r < 8 →
  be l / 2 ^ (128 - (8 * Z.of_nat w + r)) = be (take w l) * 2 ^ r + nth w l 0 / 2 ^ (8 - r).
Proof.
  intros Hl Hw Hr. pose proof (be_quotient_bytes l (S w) Hl ltac:(lia)) as Hq.
  destruct Hl as [Hlen Hl]. rewrite Nat2Z.inj_succ in Hq.
  replace (128 - (8 * Z.of_nat w + r)) with (128 - 8 * Z.succ (Z.of_nat w) + (8 - r)) by lia.
  rewrite Z.pow_add_r, <-Z.div_div, Hq by lia.
  assert (take (S w) l = take w l ++ [nth w l 0]) as ->.
  { rewrite (take_S_r _ _ (nth w l 0)); [done|]. destruct (nth_lookup_or_length l w 0); [done|lia]. }
  rewrite be_app. cbn [length]. change (be [nth w l 0]) with (0 * 256 + nth w l 0).
  assert (2 ^ (8 * Z.of_nat 1) = 2 ^ r * 2 ^ (8 - r)) as ->.
  { rewrite <-(Z.pow_add_r 2 r (8 - r)) by lia. f_equal. lia. }
  by rewrite Z.mul_assoc, Z.div_add_l by (apply Z.pow_nonzero; lia).
Qed.

End bytesTheory_part.
