(* ===== verification/EgressAddress.v ===== *)
(** * Destinations of the package-egress listener

    Models src/docker/package-egress-address-policy.ts: canonical host names, the
    screening of DNS answers against special-purpose addresses and the host's own
    ones, IPv4 embedded in IPv6, and the discovery of NAT64 prefixes.  An IPv4
    address is an unsigned 32-bit integer, an IPv6 address a list of 16 bytes.
    [domainToASCII] and the IPv6 half of [net.isIP] belong to the runtime. *)

From Stdlib Require Import Ascii ZArith Lia.
From S2P Require Import Prelude JsValue Paths Urls Regex JsInt.

Local Open Scope Z_scope.
Local Open Scope curtain_scope.

Class Net := {
  isIPv6 : string → bool;             (** [net.isIP(s) === 6] *)
  domainToASCII : string → string;
}.

(** ** Dotted decimals *)

Definition dot : ascii := ascii_of_nat 46.

Definition parse_dec (s : string) : Z :=
  foldl (λ n a, n * 10 + Z.of_nat (nat_of_ascii a - 48)) 0 (chars s).

(** An octet without leading zeros. *)
Definition is_octet (s : string) : bool :=
  negb (s =? "") && str_forallb is_digit s && ((s =? "0") || negb (startsWith s "0"))
  && (String.length s <=? 3)%nat && (parse_dec s <=? 255).

(** [net.isIP(s) === 4] *)
Definition isIPv4 (s : string) : bool :=
  let parts := split_on dot s in (length parts =? 4)%nat && forallb is_octet parts.

Definition parseIpv4 (input : string) : option Z :=
  if negb (isIPv4 input) then None
  else
    let parts := parse_dec <$> split_on dot input in
    if negb (length parts =? 4)%nat || existsb (λ part, (part <? 0) || (255 <? part)) parts then None
    else
      let part i := default 0 (parts !! i) in
      Some (js_ushr (js_or (js_or (js_or (js_shl (part 0%nat) 24) (js_shl (part 1%nat) 16))
                                  (js_shl (part 2%nat) 8)) (part 3%nat)) 0).

(** ** IPv6 *)

Definition hex_char (d : Z) : ascii :=
  ascii_of_nat (Z.to_nat (if d <? 10 then 48 + d else 87 + d)).

(** [n.toString(16)] of an unsigned 32-bit integer; [n] bounds the digits. *)
Fixpoint hex_go (n : nat) (z : Z) (tail : string) : string :=
  match n with
  | O => tail
  | S n =>
      let s := String (hex_char (z mod 16)) tail in
      if z <? 16 then s else hex_go n (z / 16) s
  end.
Definition show_hex (z : Z) : string := hex_go 8 z "".

Definition hex_value (a : ascii) : Z :=
  let n := Z.of_nat (nat_of_ascii a) in if n <? 58 then n - 48 else n - 87.

(** [Number.parseInt(s, 16)] of lowercase hexadecimal digits. *)
Definition parse_hex (s : string) : Z := foldl (λ n a, n * 16 + hex_value a) 0 (chars s).

Definition is_hex (a : ascii) : bool := is_digit a || in_range 97 102 a.

(** [/^[0-9a-f]{1,4}$/u] *)
Definition HEX_WORD : regex := Cat (Chr is_hex) (up_to 3 (Chr is_hex)).

(** [s.split('::')] *)
Fixpoint split_double_colon (s : string) : list string :=
  match s with
  | "" => [""]
  | String a (String b rest as tail) =>
      if (a =? colon) && (b =? colon) then "" :: split_double_colon rest
      else match split_double_colon tail with
           | w :: ws => String a w :: ws
           | [] => [String a ""]
           end
  | String a "" => [String a ""]
  end.

(** The text up to the last colon, and what follows it. *)
Fixpoint last_colon (s : string) : option (string * string) :=
  match s with
  | "" => None
  | String a s =>
      match last_colon s with
      | Some (before, after) => Some (String a before, after)
      | None => if a =? colon then Some ("", s) else None
      end
  end.

(** Without a colon, [slice(0, -1)] and the whole text. *)
Definition split_last_colon (s : string) : string * string :=
  match last_colon s with
  | Some halves => halves
  | None => (str_drop_end 1 s, s)
  end.

(** The IPv4 tail in hexadecimal words. *)
Definition expand_v4_tail (normalized : string) : option string :=
  let '(before, possibleV4) := split_last_colon normalized in
  if str_includes possibleV4 "." then
    v4 ← parseIpv4 possibleV4;
    Some (before +:+ ":" +:+ show_hex (js_and (js_ushr v4 16) 65535) +:+ ":" +:+ show_hex (js_and v4 65535))
  else Some normalized.

Definition colon_words (half : option string) : list string :=
  match half with
  | None | Some "" => []
  | Some half => split_on colon half
  end.

Definition word_bytes (word : string) : list Z :=
  [js_ushr (parse_hex word) 8; js_and (parse_hex word) 255].

Definition bytes_of_words (words : list string) : option (list Z) :=
  if negb (length words =? 8)%nat || existsb (λ word, negb (matches HEX_WORD word)) words then None
  else Some (words ≫= word_bytes).

Definition parseIpv6 (input : string) : option (list Z) :=
  if str_includes input "%" then None
  else
    normalized ← expand_v4_tail (toLowerCase input);
    let halves := split_double_colon normalized in
    if (2 <? length halves)%nat then None
    else
      let left := colon_words (halves !! 0%nat) in
      let right := colon_words (halves !! 1%nat) in
      if (length halves =? 1)%nat && negb (length left =? 8)%nat then None
      else if (length halves =? 2)%nat && (8 <=? length left + length right)%nat then None
      else
        let zeros := if (length halves =? 2)%nat then (8 - length left - length right)%nat else O in
        bytes_of_words (left ++ replicate zeros "0" ++ right).

Definition formatIpv6 (bytes : list Z) : string :=
  str_join ":" ((λ i, show_hex (js_or (js_shl (nth i bytes 0) 8) (nth (S i) bytes 0)))
    <$> [0; 2; 4; 6; 8; 10; 12; 14]%nat).

(** [Buffer.from(v6).toString('hex')] *)
Definition hex_bytes (bytes : list Z) : string :=
  str_join "" ((λ b, String (hex_char (b / 16)) (String (hex_char (b mod 16)) "")) <$> bytes).

Definition addressKey (address : string) : option string :=
  match parseIpv4 address with
  | Some v4 => Some ("4:" +:+ show_Z v4)
  | None => (λ v6, "6:" +:+ hex_bytes v6) <$> parseIpv6 address
  end.

(** ** Bits of prefixes *)

Definition byte_slice (start stop : nat) (bytes : list Z) : list Z := take (stop - start) (drop start bytes).
Definition all_zero (bytes : list Z) : bool := forallb (λ b, b =? 0) bytes.

Definition inV4 (value network prefix : Z) : bool :=
  let mask := if prefix =? 0 then 0 else js_ushr (js_shl 4294967295 (32 - prefix)) 0 in
  js_ushr (js_and value mask) 0 =? js_ushr (js_and network mask) 0.

Definition prefixMatches (address prefix : list Z) (length : Z) : bool :=
  let whole := Z.to_nat (length / 8) in
  let remainder := length mod 8 in
  if negb (forallb (λ i, nth i address (-1) =? nth i prefix (-1)) (seq 0 whole)) then false
  else if remainder =? 0 then true
  else
    let mask := js_shl 255 (8 - remainder) in
    js_and (nth whole address 0) mask =? js_and (nth whole prefix 0) mask.

Definition prefixBitsAreZero (bytes : list Z) (length : Z) : bool :=
  let whole := Z.to_nat (length / 8) in
  let remainder := length mod 8 in
  if negb (remainder =? 0)
     && negb (js_and (nth whole bytes 0) (js_shl 1 (8 - remainder) - 1) =? 0)
  then false
  else all_zero (drop (Z.to_nat ((length + 7) / 8)) bytes).

Definition copyPrefixBits (source : list Z) (length : Z) : list Z :=
  let whole := Z.to_nat (length / 8) in
  let remainder := length mod 8 in
  let target := take whole source in
  let target := if remainder =? 0 then target
                else target ++ [js_and (nth whole source 0) (js_shl 255 (8 - remainder))] in
  target ++ replicate (16 - List.length target) 0.

(** ** Special-purpose addresses *)

Definition isPublicIpv4 (value : Z) : bool :=
  negb (inV4 value 0x00000000 8 || inV4 value 0x0a000000 8 || inV4 value 0x64400000 10
        || inV4 value 0x7f000000 8 || inV4 value 0xa9fe0000 16 || inV4 value 0xac100000 12
        || inV4 value 0xc0000000 24 || inV4 value 0xc0000200 24 || inV4 value 0xc0586300 24
        || inV4 value 0xc0a80000 16 || inV4 value 0xc6120000 15 || inV4 value 0xc6336400 24
        || inV4 value 0xcb007100 24 || inV4 value 0xe0000000 4 || inV4 value 0xf0000000 4).

Definition WELL_KNOWN_NAT64_PREFIX : list Z := [0x00; 0x64; 0xff; 0x9b; 0; 0; 0; 0; 0; 0; 0; 0; 0; 0; 0; 0].
Definition LOCAL_USE_NAT64_PREFIX : list Z := [0x00; 0x64; 0xff; 0x9b; 0; 1; 0; 0; 0; 0; 0; 0; 0; 0; 0; 0].
Definition DENIED_GLOBAL_IPV6_PREFIXES : list (list Z * Z) :=
  [([0x20; 0x01; 0; 0; 0; 0; 0; 0; 0; 0; 0; 0; 0; 0; 0; 0], 23);
   ([0x20; 0x01; 0x0d; 0xb8; 0; 0; 0; 0; 0; 0; 0; 0; 0; 0; 0; 0], 32);
   ([0x26; 0x20; 0x00; 0x4f; 0x80; 0x00; 0; 0; 0; 0; 0; 0; 0; 0; 0; 0], 48);
   ([0x3f; 0xff; 0; 0; 0; 0; 0; 0; 0; 0; 0; 0; 0; 0; 0; 0], 20)].

(** ** Embedded IPv4 *)

Definition ipv4BytesToNumber (bytes : list Z) : Z :=
  js_ushr (js_or (js_or (js_or (js_shl (nth 0 bytes 0) 24) (js_shl (nth 1 bytes 0) 16))
                        (js_shl (nth 2 bytes 0) 8)) (nth 3 bytes 0)) 0.

Definition embeddedIpv4IsPublic (bytes : list Z) (hostIdentities : list string) : bool :=
  if negb (length bytes =? 4)%nat then false
  else
    let value := ipv4BytesToNumber bytes in
    negb (includes hostIdentities ("4:" +:+ show_Z value)) && isPublicIpv4 value.

Definition ipv4Mapped (bytes : list Z) : option (list Z) :=
  if all_zero (byte_slice 0 10 bytes) && (nth 10 bytes 0 =? 0xff) && (nth 11 bytes 0 =? 0xff)
  then Some (byte_slice 12 16 bytes) else None.

Definition ipv4Compatible (bytes : list Z) : option (list Z) :=
  if all_zero (byte_slice 0 12 bytes) then Some (byte_slice 12 16 bytes) else None.

(** [PackageEgressNat64Prefix['length']] *)
Inductive Nat64Length := L32 | L40 | L48 | L56 | L64 | L96.
#[export] Instance Nat64Length_eq_dec : EqDecision Nat64Length.
Proof. solve_decision. Defined.

Definition bits_of (l : Nat64Length) : Z :=
  match l with L32 => 32 | L40 => 40 | L48 => 48 | L56 => 56 | L64 => 64 | L96 => 96 end.

Definition NAT64_PREFIX_LENGTHS : list Nat64Length := [L32; L40; L48; L56; L64; L96].

Definition decodeRfc6052 (bytes : list Z) (l : Nat64Length) : option (list Z) :=
  let b i := nth i bytes 0 in
  match l with
  | L96 => Some (byte_slice 12 16 bytes)
  | _ =>
      if negb (b 8%nat =? 0) then None
      else match l with
           | L32 => Some (byte_slice 4 8 bytes)
           | L40 => Some [b 5%nat; b 6%nat; b 7%nat; b 9%nat]
           | L48 => Some [b 6%nat; b 7%nat; b 9%nat; b 10%nat]
           | L56 => Some [b 7%nat; b 9%nat; b 10%nat; b 11%nat]
           | _ => Some (byte_slice 9 13 bytes)
           end
  end.

Definition rfc6052SuffixIsZero (bytes : list Z) (l : Nat64Length) : bool :=
  let suffixStart := match l with L96 => 16%nat | _ => Z.to_nat (9 + (bits_of l - 32) / 8) end in
  all_zero (drop suffixStart bytes).

Definition isIpv4OnlyDiscoveryValue (bytes : list Z) : bool :=
  (nth 0 bytes 0 =? 192) && (nth 1 bytes 0 =? 0) && (nth 2 bytes 0 =? 0)
  && ((nth 3 bytes 0 =? 170) || (nth 3 bytes 0 =? 171)).

(** ** NAT64 prefixes *)

Record PackageEgressNat64Prefix := { np_prefix : string; np_length : Nat64Length }.
Record ParsedNat64Prefix := { pn_bytes : list Z; pn_length : Nat64Length }.

Definition parse_nat64 (p : PackageEgressNat64Prefix) : result ParsedNat64Prefix :=
  match parseIpv6 (np_prefix p) with
  | Some bytes =>
      if prefixBitsAreZero bytes (bits_of (np_length p))
      then Ok {| pn_bytes := bytes; pn_length := np_length p |}
      else Throw ("invalid canonical NAT64 prefix " +:+ np_prefix p +:+ "/" +:+ show_Z (bits_of (np_length p)))
  | None =>
      Throw ("invalid canonical NAT64 prefix " +:+ np_prefix p +:+ "/" +:+ show_Z (bits_of (np_length p)))
  end.

Fixpoint parseNat64Prefixes (prefixes : list PackageEgressNat64Prefix) : result (list ParsedNat64Prefix) :=
  match prefixes with
  | [] => Ok []
  | p :: prefixes =>
      match parse_nat64 p with
      | Throw e => Throw e
      | Ok p => match parseNat64Prefixes prefixes with Ok l => Ok (p :: l) | Throw e => Throw e end
      end
  end.

(** ** The decision about one address *)

(** The first prefix that matches decides. *)
Fixpoint nat64_decision (bytes : list Z) (hostIdentities : list string)
    (nat64Prefixes : list ParsedNat64Prefix) : option bool :=
  match nat64Prefixes with
  | [] => None
  | prefix :: prefixes =>
      if negb (prefixMatches bytes (pn_bytes prefix) (bits_of (pn_length prefix)))
      then nat64_decision bytes hostIdentities prefixes
      else Some match decodeRfc6052 bytes (pn_length prefix) with
                | Some decoded => rfc6052SuffixIsZero bytes (pn_length prefix)
                                  && embeddedIpv4IsPublic decoded hostIdentities
                | None => false
                end
  end.

Definition ipv6_is_public (bytes : list Z) (hostIdentities : list string)
    (nat64Prefixes : list ParsedNat64Prefix) : bool :=
  match (match ipv4Mapped bytes with Some m => Some m | None => ipv4Compatible bytes end) with
  | Some mapped => embeddedIpv4IsPublic mapped hostIdentities
  | None =>
      if prefixMatches bytes WELL_KNOWN_NAT64_PREFIX 96
      then embeddedIpv4IsPublic (byte_slice 12 16 bytes) hostIdentities
      else if prefixMatches bytes LOCAL_USE_NAT64_PREFIX 48 then false
      else match nat64_decision bytes hostIdentities nat64Prefixes with
      | Some decision => decision
      | None =>
          if (nth 0 bytes 0 =? 0x20) && (nth 1 bytes 0 =? 0x02)
          then embeddedIpv4IsPublic (byte_slice 2 6 bytes) hostIdentities
          else if (nth 0 bytes 0 =? 0x20) && (nth 1 bytes 0 =? 0x01) && (nth 2 bytes 0 =? 0)
                  && (nth 3 bytes 0 =? 0)
          then
            let client := (λ value, js_xor value 0xff) <$> byte_slice 12 16 bytes in
            embeddedIpv4IsPublic (byte_slice 4 8 bytes) hostIdentities
            && embeddedIpv4IsPublic client hostIdentities
          else if negb (js_and (nth 0 bytes 0) 0xe0 =? 0x20) then false
          else negb (existsb (λ p, prefixMatches bytes p.1 p.2) DENIED_GLOBAL_IPV6_PREFIXES)
      end
  end.

Section policy.
Context `{Net}.

Definition isIP (s : string) : Z := if isIPv4 s then 4 else if isIPv6 s then 6 else 0.

Definition isPublicImmediateAddress (address : string) (hostIdentities : list string)
    (nat64Prefixes : list ParsedNat64Prefix) : bool :=
  match addressKey address with
  | None => false
  | Some key =>
      if includes hostIdentities key then false
      else if isIP address =? 4
      then match parseIpv4 address with Some v => isPublicIpv4 v | None => false end
      else match parseIpv6 address with
           | None => false
           | Some bytes => ipv6_is_public bytes hostIdentities nat64Prefixes
           end
  end.

(** ** Host names *)

Definition DENIED_HOST_SUFFIXES : list string := [".localhost"; ".local"; ".internal"; ".docker.internal"].
Definition DENIED_HOSTS : list string := ["localhost"; "metadata.google.internal"].

Definition containsForbiddenAuthorityCharacter (input : string) : bool :=
  negb (str_forallb (λ a, negb ((nat_of_ascii a <=? 32)%nat
    || str_includes "/:?#@[]\" (String a ""))) input).

(** [/^[a-z0-9](?:[a-z0-9-]*[a-z0-9])?$/u] *)
Definition DNS_LABEL : regex :=
  Cat (Chr is_lower_digit) (Opt (Cat (Star (or_in is_lower_digit "-")) (Chr is_lower_digit))).

Definition canonicalizePackageEgressHostname (input : string) : result string :=
  if (input =? "") || (253 <? String.length input)%nat || endsWith input "."
     || containsForbiddenAuthorityCharacter input
  then Throw "package egress requires a canonical DNS hostname"
  else if negb (isIP input =? 0) then Throw "package egress rejects IP-literal authorities"
  else
    let ascii := domainToASCII input in
    let canonical := toLowerCase ascii in
    if (ascii =? "") || negb (canonical =? input) || (253 <? String.length canonical)%nat
       || negb (str_includes canonical ".")
    then Throw "package egress requires one lowercase canonical multi-label DNS hostname"
    else if existsb (λ label, (label =? "") || (63 <? String.length label)%nat
                              || negb (matches DNS_LABEL label)) (split_on dot canonical)
    then Throw "package egress rejects a malformed DNS hostname"
    else if includes DENIED_HOSTS canonical || existsb (endsWith canonical) DENIED_HOST_SUFFIXES
    then Throw "package egress rejects local or metadata hostnames"
    else Ok canonical.

(** ** Screening *)

Record PackageEgressResolvedAddress := { ra_address : string; ra_family : Z }.

Definition normalizeResolvedAddress (answer : PackageEgressResolvedAddress) :
    result PackageEgressResolvedAddress :=
  let actualFamily := isIP (ra_address answer) in
  if (actualFamily =? 0) || negb (actualFamily =? ra_family answer) || str_includes (ra_address answer) "%"
  then Throw "package egress resolver returned a malformed address"
  else Ok {| ra_address := toLowerCase (ra_address answer); ra_family := ra_family answer |}.

Definition identity_keys (hostIdentities : list string) : list string := js_set (omap addressKey hostIdentities).

Fixpoint normalize_all (answers : list PackageEgressResolvedAddress) :
    result (list PackageEgressResolvedAddress) :=
  match answers with
  | [] => Ok []
  | a :: answers =>
      match normalizeResolvedAddress a with
      | Throw e => Throw e
      | Ok a => match normalize_all answers with Ok l => Ok (a :: l) | Throw e => Throw e end
      end
  end.

Record ScreenedPackageEgressDestination := {
  sd_hostname : string;
  sd_answers : list PackageEgressResolvedAddress;
  sd_selected : PackageEgressResolvedAddress
}.

Definition screenPackageEgressDestination (hostname : string) (answers : list PackageEgressResolvedAddress)
    (hostIdentities : list string) (nat64Prefixes : list PackageEgressNat64Prefix) :
    result ScreenedPackageEgressDestination :=
  match canonicalizePackageEgressHostname hostname with
  | Throw e => Throw e
  | Ok hostname =>
      if bool_decide (answers = []) then Throw "package egress DNS answer set is empty"
      else match parseNat64Prefixes nat64Prefixes with
      | Throw e => Throw e
      | Ok nat64 =>
          match normalize_all answers with
          | Throw e => Throw e
          | Ok answers =>
              match List.find (λ a, negb (isPublicImmediateAddress (ra_address a)
                                            (identity_keys hostIdentities) nat64)) answers, answers with
              | Some a, _ => Throw ("package egress rejected non-public or host-owned DNS answer "
                                    +:+ ra_address a)
              | None, [] => Throw "unreachable"
              | None, selected :: _ =>
                  Ok {| sd_hostname := hostname; sd_answers := answers; sd_selected := selected |}
              end
          end
      end
  end.

Definition assertPackageEgressAddressStillAllowed (selected : PackageEgressResolvedAddress)
    (hostIdentities : list string) (nat64Prefixes : list PackageEgressNat64Prefix) : result unit :=
  match parseNat64Prefixes nat64Prefixes with
  | Throw e => Throw e
  | Ok nat64 =>
      if isPublicImmediateAddress (ra_address selected) (identity_keys hostIdentities) nat64 then Ok ()
      else Throw "package egress destination became non-public or host-owned before forwarding"
  end.

(** ** Discovery of NAT64 prefixes *)

Definition discovery_candidates (bytes : list Z) : list PackageEgressNat64Prefix :=
  omap (λ l,
    match decodeRfc6052 bytes l with
    | Some decoded =>
        if isIpv4OnlyDiscoveryValue decoded && rfc6052SuffixIsZero bytes l
        then Some {| np_prefix := formatIpv6 (copyPrefixBits bytes (bits_of l)); np_length := l |}
        else None
    | None => None
    end) NAT64_PREFIX_LENGTHS.

Definition nat64_key (p : PackageEgressNat64Prefix) : string :=
  np_prefix p +:+ "/" +:+ show_Z (bits_of (np_length p)).

Fixpoint discover_loop (answers : list PackageEgressResolvedAddress)
    (discovered : object PackageEgressNat64Prefix) : result (list PackageEgressNat64Prefix) :=
  match answers with
  | [] => Ok (obj_values discovered)
  | answer :: answers =>
      if ra_family answer =? 4 then discover_loop answers discovered
      else match parseIpv6 (ra_address answer) with
      | None => Throw "NAT64 discovery returned a malformed IPv6 answer"
      | Some bytes =>
          match discovery_candidates bytes with
          | [candidate] => discover_loop answers (obj_set discovered (nat64_key candidate) candidate)
          | _ => Throw "NAT64 discovery answer has an ambiguous RFC 6052 layout"
          end
      end
  end.

Definition discoverNat64Prefixes (answers : list PackageEgressResolvedAddress) :
    result (list PackageEgressNat64Prefix) := discover_loop answers [].

End policy.

(** * Destinations: the address arithmetic

    The masks and byte comparisons of the screening in terms of numbers, the reference
    definition of a special-purpose address, and the round trip of address texts. *)

(** ** IPv4 *)

(** The number of a dotted quad. *)
Definition quad (a b c d : Z) : Z := ((a * 256 + b) * 256 + c) * 256 + d.

Lemma combine_bytes a b c d :
  0 ≤ a < 256 → 0 ≤ b < 256 → 0 ≤ c < 256 → 0 ≤ d < 256 →
  js_ushr (js_or (js_or (js_or (js_shl a 24) (js_shl b 16)) (js_shl c 8)) d) 0 = quad a b c d.
Proof.
  intros. rewrite js_ushr_0, !js_or_uint32, !js_shl_uint32, (to_uint32_small d) by lia. unfold quad.
  rewrite (lor_add_shifted a (b * 2 ^ 16) 24) by lia.
  replace (a * 2 ^ 24 + b * 2 ^ 16) with ((a * 256 + b) * 2 ^ 16) by lia.
  rewrite (lor_add_shifted _ (c * 2 ^ 8) 16) by lia.
  replace ((a * 256 + b) * 2 ^ 16 + c * 2 ^ 8) with (((a * 256 + b) * 256 + c) * 2 ^ 8) by lia.
  rewrite lor_add_shifted by lia. lia.
Qed.

Lemma ipv4BytesToNumber_be l : length l = 4%nat → bytes_ok l → ipv4BytesToNumber l = be l.
Proof.
  intros Hlen Hl. destruct l as [|a [|b [|c [|d []]]]]; try done.
  unfold bytes_ok in Hl. rewrite !Forall_cons in Hl. destruct Hl as (? & ? & ? & ? & _).
  unfold ipv4BytesToNumber. cbn [nth]. rewrite combine_bytes by done. unfold be, quad. cbn [foldl]. lia.
Qed.

Lemma parse_dec_from s n :
  0 ≤ n → n ≤ foldl (λ n a, n * 10 + Z.of_nat (nat_of_ascii a - 48)) n (chars s).
Proof.
  unfold chars. revert n. induction s as [|a s IH]; intros n Hn; cbn [String.list_ascii_of_string foldl]; [done|].
  etransitivity; [|apply IH; lia]. lia.
Qed.

Lemma is_octet_bound s : is_octet s = true → 0 ≤ parse_dec s < 256.
Proof.
  unfold is_octet. intros. bool_hyps. pose proof (parse_dec_from s 0 ltac:(lia)).
  unfold parse_dec in *. lia.
Qed.

(** A dotted quad, and the number it stands for. *)
Lemma parseIpv4_spec s v :
  parseIpv4 s = Some v ↔
  ∃ a b c d, split_on dot s = [a; b; c; d] ∧ Forall (λ s, is_octet s = true) [a; b; c; d]
    ∧ v = quad (parse_dec a) (parse_dec b) (parse_dec c) (parse_dec d).
Proof.
  assert (Hin : ∀ z, 0 ≤ z < 256 → (z <? 0) || (255 <? z) = false).
  { intros. apply orb_false_intro; [apply Z.ltb_ge|apply Z.ltb_ge]; lia. }
  unfold parseIpv4, isIPv4. split.
  - destruct (split_on dot s) as [|a [|b [|c [|d []]]]]; csimpl; try done.
    destruct (is_octet a) eqn:Ha, (is_octet b) eqn:Hb, (is_octet c) eqn:Hc, (is_octet d) eqn:Hd; csimpl; try done.
    rewrite !Hin by (by apply is_octet_bound). csimpl. intros [= <-].
    exists a, b, c, d. rewrite combine_bytes by (by apply is_octet_bound). rewrite !Forall_cons. by repeat split.
  - intros (a & b & c & d & -> & Ho & ->). rewrite !Forall_cons in Ho. destruct Ho as (Ha & Hb & Hc & Hd & _).
    csimpl. rewrite Ha, Hb, Hc, Hd. csimpl. rewrite !Hin by (by apply is_octet_bound). csimpl.
    by rewrite combine_bytes by (by apply is_octet_bound).
Qed.

Lemma quad_bound a b c d :
  0 ≤ a < 256 → 0 ≤ b < 256 → 0 ≤ c < 256 → 0 ≤ d < 256 → 0 ≤ quad a b c d < 2 ^ 32.
Proof. unfold quad. lia. Qed.

Lemma parseIpv4_bound s v : parseIpv4 s = Some v → 0 ≤ v < 2 ^ 32.
Proof.
  intros (a & b & c & d & _ & Ho & ->)%parseIpv4_spec.
  rewrite !Forall_cons in Ho. destruct Ho as (? & ? & ? & ? & _).
  apply quad_bound; by apply is_octet_bound.
Qed.

(** A block of [a.b.c.d/p] addresses. *)
Definition in_block (v n p : Z) : Prop := v / 2 ^ (32 - p) = n / 2 ^ (32 - p).

Lemma inV4_spec v n p :
  0 ≤ v < 2 ^ 32 → 0 ≤ n < 2 ^ 32 → 0 < p ≤ 32 → inV4 v n p = true ↔ in_block v n p.
Proof.
  intros Hv Hn Hp. unfold inV4, in_block.
  rewrite (bool_decide_eq_false_2 (p = 0)) by lia. cbn [negb].
  assert (Hmask : js_ushr (js_shl 4294967295 (32 - p)) 0 = 2 ^ 32 - 2 ^ (32 - p)).
  { rewrite js_ushr_0. unfold js_shl, to_uint32. rewrite to_int32_mod, (Z.mod_small (32 - p)) by lia.
    change (to_int32 4294967295) with (-1). rewrite Z.shiftl_mul_pow2 by lia.
    assert (0 < 2 ^ (32 - p) < 2 ^ 32) by (split; [apply Z.pow_pos_nonneg|apply Z.pow_lt_mono_r]; lia).
    replace (-1 * 2 ^ (32 - p)) with (2 ^ 32 - 2 ^ (32 - p) + (-1) * 2 ^ 32) by lia.
    rewrite Z_mod_plus_full. apply Z.mod_small. lia. }
  assert (0 < 2 ^ (32 - p) < 2 ^ 32) by (split; [apply Z.pow_pos_nonneg|apply Z.pow_lt_mono_r]; lia).
  assert (Hand : ∀ z, 0 ≤ z < 2 ^ 32 →
    js_ushr (js_and z (2 ^ 32 - 2 ^ (32 - p))) 0 = z / 2 ^ (32 - p) * 2 ^ (32 - p)).
  { intros z Hz. rewrite js_ushr_0, js_and_uint32, !to_uint32_small by lia. apply land_top_mask; lia. }
  rewrite Hmask, !Hand by done. rewrite bool_decide_eq_true. split; [|by intros ->]. nia.
Qed.

(** ** The reference: special-purpose IPv4 blocks *)

Definition SPECIAL_IPV4 : list (Z * Z) :=
  [(quad 0 0 0 0, 8); (quad 10 0 0 0, 8); (quad 100 64 0 0, 10); (quad 127 0 0 0, 8);
   (quad 169 254 0 0, 16); (quad 172 16 0 0, 12); (quad 192 0 0 0, 24); (quad 192 0 2 0, 24);
   (quad 192 88 99 0, 24); (quad 192 168 0 0, 16); (quad 198 18 0 0, 15); (quad 198 51 100 0, 24);
   (quad 203 0 113 0, 24); (quad 224 0 0 0, 4); (quad 240 0 0 0, 4)].

Definition public_v4 (v : Z) : Prop :=
  0 ≤ v < 2 ^ 32 ∧ Forall (λ b, ¬ in_block v b.1 b.2) SPECIAL_IPV4.

Lemma isPublicIpv4_blocks v :
  isPublicIpv4 v = forallb (λ b, negb (inV4 v b.1 b.2)) SPECIAL_IPV4.
Proof. unfold isPublicIpv4. rewrite !negb_orb. cbn [SPECIAL_IPV4 forallb fst snd]. by rewrite !andb_assoc, andb_true_r. Qed.

Lemma isPublicIpv4_spec v : 0 ≤ v < 2 ^ 32 → isPublicIpv4 v = true ↔ public_v4 v.
Proof.
  intros Hv. rewrite isPublicIpv4_blocks. unfold public_v4. rewrite List.forallb_forall, List.Forall_forall.
  assert (Hs : ∀ b, List.In b SPECIAL_IPV4 → 0 ≤ b.1 < 2 ^ 32 ∧ 0 < b.2 ≤ 32).
  { apply List.Forall_forall. repeat (apply List.Forall_cons; [by vm_compute|]). apply List.Forall_nil. }
  split.
  - intros Hb. split; [done|]. intros b Hin. specialize (Hb b Hin). destruct (Hs b Hin).
    rewrite <-inV4_spec by done. by destruct (inV4 _ _ _).
  - intros [_ Hb] b Hin. specialize (Hb b Hin). destruct (Hs b Hin).
    rewrite <-inV4_spec in Hb by done. by destruct (inV4 _ _ _).
Qed.

(** ** Prefixes *)

(** The mask of the top [8 - k] bits of a byte. *)
Lemma byte_mask x k : 0 ≤ x < 256 → 0 < k < 8 → js_and x (js_shl 255 k) = x / 2 ^ k * 2 ^ k.
Proof.
  intros Hx Hk.
  assert (Hall : forallb (λ k, forallb (λ x, Z.eqb (js_and x (js_shl 255 k)) (x / 2 ^ k * 2 ^ k))
    (Z.of_nat <$> seq 0 256)) [1; 2; 3; 4; 5; 6; 7] = true) by (vm_compute; reflexivity).
  rewrite List.forallb_forall in Hall. specialize (Hall k). rewrite List.forallb_forall in Hall.
  apply Z.eqb_eq, Hall; [simpl; lia|].
  apply list_elem_of_In, list_elem_of_fmap. exists (Z.to_nat x). split; [lia|]. apply elem_of_seq. lia.
Qed.

Lemma nth_take_eq w l l' :
  length l = length l' → (w ≤ length l)%nat →
  forallb (λ i, nth i l (-1) =? nth i l' (-1)) (seq 0 w) = true ↔ take w l = take w l'.
Proof.
  intros Hlen Hw. rewrite List.forallb_forall. split.
  - intros Hi. apply list_eq. intros i. destruct (Nat.lt_ge_cases i w) as [Hlt|Hge].
    + rewrite !lookup_take_lt by done. specialize (Hi i ltac:(apply in_seq; lia)).
      apply bool_decide_eq_true in Hi.
      destruct (nth_lookup_or_length l i (-1)) as [->|]; [|lia].
      destruct (nth_lookup_or_length l' i (-1)) as [->|]; [|lia]. by rewrite Hi.
    + by rewrite !lookup_take_ge.
  - intros Ht i Hi%in_seq. apply bool_decide_eq_true. rewrite !nth_lookup. f_equal.
    rewrite <-(lookup_take_lt l w i), <-(lookup_take_lt l' w i), Ht by lia. done.
Qed.

Lemma quotient_bound x r : 0 ≤ x < 256 → 0 < r < 8 → 0 ≤ x / 2 ^ (8 - r) < 2 ^ r.
Proof.
  intros Hx Hr. assert (0 < 2 ^ (8 - r)) by (apply Z.pow_pos_nonneg; lia). split; [apply Z.div_pos; lia|].
  apply Z.div_lt_upper_bound; [done|]. rewrite <-Z.pow_add_r by lia. replace (8 - r + r) with 8 by lia. lia.
Qed.

(** The byte-wise comparison of [len] bits is the comparison of quotients. *)
Lemma prefixMatches_spec a p len :
  address_ok a → address_ok p → 0 ≤ len ≤ 128 → prefixMatches a p len = true ↔ in_prefix (be a) (be p) len.
Proof.
  intros Ha Hp Hlen. unfold prefixMatches, in_prefix.
  set (w := Z.to_nat (len / 8)). set (r := len mod 8).
  assert (Hr : 0 ≤ r < 8) by (apply Z.mod_pos_bound; lia).
  assert (Hlw : len = 8 * Z.of_nat w + r).
  { pose proof (Z.div_mod len 8 ltac:(lia)). unfold w. rewrite Z2Nat.id by (apply Z.div_pos; lia). unfold r. lia. }
  assert (Hl : length a = length p) by (destruct Ha as [-> _]; by destruct Hp as [-> _]).
  assert (Hla : length a = 16%nat) by apply Ha.
  assert (Htake : be (take w a) = be (take w p) ↔ take w a = take w p).
  { split; [|by intros ->]. apply be_inj; try (apply bytes_ok_take; apply Ha || apply Hp).
    rewrite !length_take. lia. }
  pose proof (nth_take_eq w a p Hl ltac:(lia)) as Hnth.
  destruct (forallb _ _) eqn:Hall; cbn [negb].
  - pose proof (proj1 Hnth eq_refl) as Ht. case_bool_decide as E.
    + replace (128 - len) with (128 - 8 * Z.of_nat w) by lia.
      rewrite !be_quotient_bytes by (done || lia). by rewrite Ht.
    + rewrite Hlw, !be_quotient_bits, !byte_mask by (done || lia || by apply bytes_ok_nth; apply Ha || apply Hp).
      rewrite Ht, bool_decide_eq_true. assert (0 < 2 ^ (8 - r)) by (apply Z.pow_pos_nonneg; lia). nia.
  - split; [done|]. intros Hq. exfalso. enough (take w a = take w p) by (by apply Hnth in H).
    apply Htake. destruct (decide (r = 0)) as [E|E].
    + replace (128 - len) with (128 - 8 * Z.of_nat w) in Hq by lia.
      by rewrite !be_quotient_bytes in Hq by (done || lia).
    + rewrite Hlw, !be_quotient_bits in Hq by (done || lia).
      apply (mul_add_inj (2 ^ r)) in Hq; [tauto|..];
        (apply quotient_bound; [|lia]; apply bytes_ok_nth; apply Ha || apply Hp).
Qed.

(** A length in whole bytes. *)
Lemma in_prefix_bytes a p w :
  address_ok a → address_ok p → (w ≤ 16)%nat →
  in_prefix (be a) (be p) (8 * Z.of_nat w) ↔ take w a = take w p.
Proof.
  intros Ha Hp Hw. unfold in_prefix. rewrite !be_quotient_bytes by done.
  split; [|by intros ->]. destruct Ha as [Hla ?], Hp as [Hlp ?].
  apply be_inj; try by apply bytes_ok_take. rewrite !length_take. lia.
Qed.

(** ** The reference: which IPv6 addresses are admitted

    On numbers instead of bytes: the IPv4 address a translated or tunnelled address
    reaches is a field of it, a prefix is a quotient. *)

Definition v6 (words : list Z) : Z := foldl (λ n w, n * 65536 + w) 0 words.

#[export] Instance in_prefix_dec n p len : Decision (in_prefix n p len).
Proof. unfold in_prefix. apply _. Defined.

(** An IPv4 address that may be reached: public, and not one of the host's. *)
Definition v4_admitted (hosts : list string) (v : Z) : Prop :=
  (∀ host, host ∈ hosts → parseIpv4 host ≠ Some v) ∧ public_v4 v.

(** RFC 6052: the IPv4 address skips the u octet, bits 64 to 71. *)
Definition rfc6052_v4 (n : Z) (l : Nat64Length) : Z :=
  match l with
  | L96 => field n 96 32
  | _ => field n (bits_of l) (64 - bits_of l) * 2 ^ (bits_of l - 32) + field n 72 (bits_of l - 32)
  end.

Definition rfc6052_wf (n : Z) (l : Nat64Length) : Prop :=
  match l with
  | L96 => True
  | _ => field n 64 8 = 0 ∧ n mod 2 ^ (88 - bits_of l) = 0
  end.

Definition v6_admitted (hosts : list string) (nat64 : list ParsedNat64Prefix) (n : Z) : Prop :=
  if decide (in_prefix n (v6 [0; 0; 0; 0; 0; 0xffff; 0; 0]) 96 ∨ in_prefix n 0 96
             ∨ in_prefix n (v6 [0x64; 0xff9b; 0; 0; 0; 0; 0; 0]) 96)
  then v4_admitted hosts (field n 96 32)
  else ¬ in_prefix n (v6 [0x64; 0xff9b; 1; 0; 0; 0; 0; 0]) 48
    ∧ match List.find (λ p, bool_decide (in_prefix n (be (pn_bytes p)) (bits_of (pn_length p)))) nat64 with
      | Some p => rfc6052_wf n (pn_length p) ∧ v4_admitted hosts (rfc6052_v4 n (pn_length p))
      | None =>
          if decide (in_prefix n (v6 [0x2002; 0; 0; 0; 0; 0; 0; 0]) 16)
          then v4_admitted hosts (field n 16 32)
          else if decide (in_prefix n (v6 [0x2001; 0; 0; 0; 0; 0; 0; 0]) 32)
          then v4_admitted hosts (field n 32 32) ∧ v4_admitted hosts (2 ^ 32 - 1 - field n 96 32)
          else in_prefix n (v6 [0x2000; 0; 0; 0; 0; 0; 0; 0]) 3
            ∧ ¬ in_prefix n (v6 [0x2001; 0; 0; 0; 0; 0; 0; 0]) 23
            ∧ ¬ in_prefix n (v6 [0x2001; 0xdb8; 0; 0; 0; 0; 0; 0]) 32
            ∧ ¬ in_prefix n (v6 [0x2620; 0x4f; 0x8000; 0; 0; 0; 0; 0]) 48
            ∧ ¬ in_prefix n (v6 [0x3fff; 0; 0; 0; 0; 0; 0; 0]) 20
      end.

(** ** The bytes agree with the reference *)

Lemma be_zero l : bytes_ok l → be l = 0 ↔ all_zero l = true.
Proof.
  induction 1 as [|b l Hb Hl IH]; [done|]. rewrite be_cons. cbn [all_zero forallb].
  pose proof (be_bound l Hl). assert (0 < 2 ^ (8 * Z.of_nat (length l))) by (apply Z.pow_pos_nonneg; lia).
  rewrite andb_true_iff, bool_decide_eq_true, <-IH. nia.
Qed.

Lemma show_Z_inj x y : show_Z x = show_Z y → x = y.
Proof. apply (inj pretty). Qed.

(** The keys of the host's addresses are theirs only. *)
Lemma identity_key_v4 hosts v :
  "4:" +:+ show_Z v ∈ identity_keys hosts ↔ ∃ host, host ∈ hosts ∧ parseIpv4 host = Some v.
Proof.
  unfold identity_keys. rewrite elem_of_js_set, list_elem_of_omap. unfold addressKey. split.
  - intros (host & Hin & Hk). exists host. split; [done|]. destruct (parseIpv4 host) as [u|].
    + injection Hk as Hk. apply (inj (String.app _)) in Hk. f_equal. by apply show_Z_inj.
    + by destruct (parseIpv6 host).
  - intros (host & Hin & Hk). exists host. by rewrite Hk.
Qed.

Lemma embedded_spec l hosts :
  length l = 4%nat → bytes_ok l → embeddedIpv4IsPublic l (identity_keys hosts) = true ↔ v4_admitted hosts (be l).
Proof.
  intros Hlen Hl. unfold embeddedIpv4IsPublic, v4_admitted. rewrite Hlen.
  change (negb (4 =? 4)%nat) with false. cbv iota zeta.
  pose proof (be_bound l Hl) as Hb. rewrite Hlen in Hb. change (2 ^ (8 * Z.of_nat 4)) with (2 ^ 32) in Hb.
  rewrite ipv4BytesToNumber_be, andb_true_iff, isPublicIpv4_spec by done.
  unfold includes. rewrite negb_true_iff, bool_decide_eq_false, identity_key_v4. naive_solver.
Qed.

(** Sixteen bytes by name. *)
Ltac sixteen l Ha :=
  let Hlen := fresh in let Hok := fresh "Hok" in destruct Ha as [Hlen Hok];
  do 16 (destruct l as [|? l]; [done|]); destruct l; [clear Hlen|done].

Lemma slice_ok i k l : address_ok l → (i + k ≤ 16)%nat →
  length (take k (drop i l)) = k ∧ bytes_ok (take k (drop i l)).
Proof.
  intros [Hlen Hl] Hik. split; [rewrite length_take, length_drop; lia|].
  by apply bytes_ok_take, bytes_ok_drop.
Qed.

Lemma embedded_slice i l hosts :
  address_ok l → (i + 4 ≤ 16)%nat →
  embeddedIpv4IsPublic (byte_slice i (i + 4) l) (identity_keys hosts) = true ↔ v4_admitted hosts (field (be l) (8 * Z.of_nat i) 32).
Proof.
  intros Hl Hi. unfold byte_slice. replace (i + 4 - i)%nat with 4%nat by lia.
  destruct (slice_ok i 4 l Hl Hi). rewrite embedded_spec by done.
  change 32 with (8 * Z.of_nat 4). by rewrite field_bytes.
Qed.

Lemma high_zero_spec l : address_ok l → all_zero (byte_slice 0 12 l) = true ↔ in_prefix (be l) 0 96.
Proof.
  intros Hl. unfold byte_slice, in_prefix. rewrite drop_0. change (12 - 0)%nat with 12%nat.
  change (128 - 96) with (128 - 8 * Z.of_nat 12). rewrite be_quotient_bytes by (done || lia).
  change (0 / 2 ^ (128 - 8 * Z.of_nat 12)) with 0. symmetry. apply be_zero, bytes_ok_take, Hl.
Qed.

(** The bytes of the prefixes of the reference. *)
Lemma constant_prefix l p w :
  address_ok l → forallb (λ b, (0 <=? b) && (b <? 256)) p = true → length p = 16%nat → (w ≤ 16)%nat →
  in_prefix (be l) (be p) (8 * Z.of_nat w) ↔ take w l = take w p.
Proof.
  intros Hl Hp Hlen Hw. apply in_prefix_bytes; [done| |done]. split; [done|].
  unfold bytes_ok. rewrite List.Forall_forall. rewrite List.forallb_forall in Hp.
  intros b Hb. specialize (Hp b Hb). bool_hyps. lia.
Qed.

Lemma mapped_spec l :
  address_ok l →
  is_Some (ipv4Mapped l) ↔ in_prefix (be l) (v6 [0; 0; 0; 0; 0; 0xffff; 0; 0]) 96.
Proof.
  intros Hl. change (v6 [0; 0; 0; 0; 0; 0xffff; 0; 0])
    with (be [0; 0; 0; 0; 0; 0; 0; 0; 0; 0; 0xff; 0xff; 0; 0; 0; 0]).
  change 96 with (8 * Z.of_nat 12). rewrite constant_prefix by (done || lia). unfold ipv4Mapped.
  sixteen l Hl. cbn [byte_slice drop take all_zero forallb nth Nat.sub]. split.
  - case_match eqn:E; [|by intros []]. bool_hyps. by subst.
  - intros. simplify_eq. vm_compute. by eexists.
Qed.

Lemma mapped_slice l m : ipv4Mapped l = Some m → m = byte_slice 12 16 l.
Proof. unfold ipv4Mapped. case_match; naive_solver. Qed.

Lemma compatible_slice l m : ipv4Compatible l = Some m → m = byte_slice 12 16 l.
Proof. unfold ipv4Compatible. case_match; naive_solver. Qed.

Lemma compatible_spec l : address_ok l → is_Some (ipv4Compatible l) ↔ in_prefix (be l) 0 96.
Proof.
  intros Hl. rewrite <-high_zero_spec by done. unfold ipv4Compatible.
  destruct (all_zero _); split; intros Hs; try done; by destruct Hs.
Qed.

Lemma six_to_four_spec l :
  address_ok l →
  (nth 0 l 0 =? 0x20) && (nth 1 l 0 =? 0x02) = true ↔ in_prefix (be l) (v6 [0x2002; 0; 0; 0; 0; 0; 0; 0]) 16.
Proof.
  intros Hl. change (v6 [0x2002; 0; 0; 0; 0; 0; 0; 0])
    with (be [0x20; 0x02; 0; 0; 0; 0; 0; 0; 0; 0; 0; 0; 0; 0; 0; 0]).
  change 16 with (8 * Z.of_nat 2). rewrite constant_prefix by (done || lia).
  sixteen l Hl. cbn [nth take]. split; intros; bool_hyps; simplify_eq; done.
Qed.

Lemma teredo_spec l :
  address_ok l →
  (nth 0 l 0 =? 0x20) && (nth 1 l 0 =? 0x01) && (nth 2 l 0 =? 0) && (nth 3 l 0 =? 0) = true
  ↔ in_prefix (be l) (v6 [0x2001; 0; 0; 0; 0; 0; 0; 0]) 32.
Proof.
  intros Hl. change (v6 [0x2001; 0; 0; 0; 0; 0; 0; 0])
    with (be [0x20; 0x01; 0; 0; 0; 0; 0; 0; 0; 0; 0; 0; 0; 0; 0; 0]).
  change 32 with (8 * Z.of_nat 4). rewrite constant_prefix by (done || lia).
  sixteen l Hl. cbn [nth take]. split; intros; bool_hyps; simplify_eq; done.
Qed.

(** The two comparisons of the first byte. *)
Lemma global_unicast_spec l :
  address_ok l →
  negb (js_and (nth 0 l 0) 0xe0 =? 0x20) = false ↔ in_prefix (be l) (v6 [0x2000; 0; 0; 0; 0; 0; 0; 0]) 3.
Proof.
  intros Hl. pose proof (bytes_ok_nth 0 l (proj2 Hl)) as Hb.
  pose proof (be_quotient_bits l 0 3 Hl ltac:(lia) ltac:(lia)) as Hq.
  change (128 - (8 * Z.of_nat 0 + 3)) with (128 - 3) in Hq. unfold in_prefix. rewrite Hq.
  change (v6 [0x2000; 0; 0; 0; 0; 0; 0; 0] / 2 ^ (128 - 3)) with 1.
  assert (js_and (nth 0 l 0) 0xe0 = nth 0 l 0 / 2 ^ 5 * 2 ^ 5) as ->.
  { unfold js_and. rewrite !to_int32_small by lia. change 0xe0 with (2 ^ 8 - 2 ^ 5). apply land_top_mask; lia. }
  rewrite negb_false_iff, bool_decide_eq_true. change (be (take 0 l)) with 0. change (8 - 3) with 5. lia.
Qed.

Lemma teredo_client l :
  length l = 4%nat → bytes_ok l →
  let client := (λ value, js_xor value 0xff) <$> l in
  length client = 4%nat ∧ bytes_ok client ∧ be client = 2 ^ 32 - 1 - be l.
Proof.
  intros Hlen Hl client. subst client.
  assert (Hx : ∀ x, 0 ≤ x < 256 → js_xor x 0xff = 255 - x).
  { intros x Hx.
    assert (Hall : forallb (λ x, Z.eqb (js_xor x 0xff) (255 - x)) (Z.of_nat <$> seq 0 256) = true)
      by (vm_compute; reflexivity).
    rewrite List.forallb_forall in Hall. apply Z.eqb_eq, Hall, list_elem_of_In, list_elem_of_fmap.
    exists (Z.to_nat x). split; [lia|]. apply elem_of_seq. lia. }
  destruct l as [|a [|b [|c [|d []]]]]; try done. unfold bytes_ok in *. csimpl.
  rewrite !Forall_cons in *. destruct Hl as (? & ? & ? & ? & _). rewrite !Hx by done.
  unfold be. cbn [foldl]. repeat split; lia || constructor.
Qed.

(** *** RFC 6052 *)

(** The u octet and the suffix as parts of the number. *)
Lemma u_octet_spec l : address_ok l → nth 8 l 0 = field (be l) 64 8.
Proof.
  intros Hl. pose proof (field_bytes l 8 1 Hl ltac:(lia)) as Hf.
  change (8 * Z.of_nat 8) with 64 in Hf. change (8 * Z.of_nat 1) with 8 in Hf. rewrite Hf.
  by sixteen l Hl.
Qed.

Lemma suffix_spec l i :
  address_ok l → (i ≤ 16)%nat → all_zero (drop i l) = true ↔ be l mod 2 ^ (8 * Z.of_nat (16 - i)) = 0.
Proof.
  intros [Hlen Hl] Hi. rewrite <-be_zero by by apply bytes_ok_drop. rewrite <-(take_drop i l) at 2.
  replace (16 - i)%nat with (length (drop i l)) by (rewrite length_drop, Hlen; done).
  by rewrite be_mod by by apply bytes_ok_drop.
Qed.

(** Two runs of bytes around the u octet. *)
Lemma around_u l i k m :
  address_ok l → (i + k ≤ 16)%nat → (9 + m ≤ 16)%nat →
  be (take k (drop i l) ++ take m (drop 9 l))
  = field (be l) (8 * Z.of_nat i) (8 * Z.of_nat k) * 2 ^ (8 * Z.of_nat m) + field (be l) 72 (8 * Z.of_nat m).
Proof.
  intros Hl Hi Hm. pose proof (field_bytes l 9 m Hl Hm) as Hf. change (8 * Z.of_nat 9) with 72 in Hf.
  rewrite be_app, Hf, field_bytes by done. destruct (slice_ok 9 m l Hl Hm) as [Hlen _]. by rewrite Hlen.
Qed.

Lemma decode_bytes l len d :
  address_ok l → decodeRfc6052 l len = Some d →
  d = match len with
      | L96 => take 4 (drop 12 l)
      | _ => let i := Z.to_nat (bits_of len / 8) in take (8 - i) (drop i l) ++ take (i - 4) (drop 9 l)
      end.
Proof.
  intros Hl. sixteen l Hl. unfold decodeRfc6052. destruct len; try case_match; try done; by intros [= <-].
Qed.

Lemma decode_spec l len d :
  address_ok l → decodeRfc6052 l len = Some d →
  length d = 4%nat ∧ bytes_ok d ∧ be d = rfc6052_v4 (be l) len
  ∧ (rfc6052SuffixIsZero l len = true ↔ rfc6052_wf (be l) len).
Proof.
  intros Hl Hd. pose proof (u_octet_spec l Hl) as Hu. pose proof (suffix_spec l) as Hs.
  assert (Hok : ∀ i k, bytes_ok (take k (drop i l))) by (intros; by apply bytes_ok_take, bytes_ok_drop, Hl).
  assert (Hn : len = L96 ∨ nth 8 l 0 = 0).
  { unfold decodeRfc6052 in Hd. destruct len; [..|by left]; case_match; try done; bool_hyps; by right. }
  pose proof (decode_bytes l len d Hl Hd) as ->. clear Hd.
  assert (Hlen : ∀ i k, (i + k ≤ 16)%nat → length (take k (drop i l)) = k) by (intros; by apply slice_ok).
  assert (Hsplit : ∀ i, (4 ≤ i ≤ 8)%nat →
    length (take (8 - i) (drop i l) ++ take (i - 4) (drop 9 l)) = 4%nat
    ∧ bytes_ok (take (8 - i) (drop i l) ++ take (i - 4) (drop 9 l))
    ∧ be (take (8 - i) (drop i l) ++ take (i - 4) (drop 9 l))
      = field (be l) (8 * Z.of_nat i) (8 * Z.of_nat (8 - i)) * 2 ^ (8 * Z.of_nat (i - 4))
        + field (be l) 72 (8 * Z.of_nat (i - 4))).
  { intros i Hi. split; [|split].
    - rewrite length_app, !Hlen; lia.
    - by apply bytes_ok_app.
    - apply around_u; [done|lia..]. }
  assert (Hwf : ∀ i, nth 8 l 0 = 0 → (9 ≤ i ≤ 13)%nat →
    all_zero (drop i l) = true ↔ field (be l) 64 8 = 0 ∧ be l mod 2 ^ (8 * Z.of_nat (16 - i)) = 0).
  { intros i H0 Hi. rewrite <-Hu, H0, Hs by (done || lia). tauto. }
  destruct len.
  6: { split; [by apply Hlen|]. split; [done|]. split; [symmetry; apply (field_bytes l 12 4); [done|lia]|].
       unfold rfc6052SuffixIsZero. rewrite (Hs 16%nat) by (done || lia). change (16 - 16)%nat with 0%nat.
       change (2 ^ (8 * Z.of_nat 0)) with 1. rewrite Z.mod_1_r. done. }
  all: destruct Hn as [?|H0]; [done|]; cbn [bits_of].
  1: pose proof (conj (Hsplit 4%nat ltac:(lia)) (Hwf 9%nat H0 ltac:(lia))) as [(? & ? & ?) ?].
  2: pose proof (conj (Hsplit 5%nat ltac:(lia)) (Hwf 10%nat H0 ltac:(lia))) as [(? & ? & ?) ?].
  3: pose proof (conj (Hsplit 6%nat ltac:(lia)) (Hwf 11%nat H0 ltac:(lia))) as [(? & ? & ?) ?].
  4: pose proof (conj (Hsplit 7%nat ltac:(lia)) (Hwf 12%nat H0 ltac:(lia))) as [(? & ? & ?) ?].
  5: pose proof (conj (Hsplit 8%nat ltac:(lia)) (Hwf 13%nat H0 ltac:(lia))) as [(? & ? & ?) ?].
  all: repeat (split; [assumption|]); assumption.
Qed.

Lemma decode_none l len : address_ok l → decodeRfc6052 l len = None → ¬ rfc6052_wf (be l) len.
Proof.
  intros Hl Hd. pose proof (u_octet_spec l Hl) as Hu. unfold decodeRfc6052, rfc6052_wf in *. rewrite <-Hu.
  destruct len; try done; case_match eqn:E; try done; bool_hyps; naive_solver.
Qed.

Lemma nat64_decision_spec l hosts nat64 :
  address_ok l → Forall (λ p, address_ok (pn_bytes p)) nat64 →
  match nat64_decision l (identity_keys hosts) nat64,
        List.find (λ p, bool_decide (in_prefix (be l) (be (pn_bytes p)) (bits_of (pn_length p)))) nat64 with
  | None, None => True
  | Some decision, Some p =>
      decision = true ↔ rfc6052_wf (be l) (pn_length p) ∧ v4_admitted hosts (rfc6052_v4 (be l) (pn_length p))
  | _, _ => False
  end.
Proof.
  intros Hl. induction 1 as [|p nat64 Hp Hps IH]; [done|]. cbn [nat64_decision List.find].
  assert (0 ≤ bits_of (pn_length p) ≤ 128) by (destruct (pn_length p); cbn; lia).
  pose proof (prefixMatches_spec l (pn_bytes p) (bits_of (pn_length p)) Hl Hp ltac:(done)) as Hm.
  destruct (prefixMatches _ _ _); cbn [negb].
  - rewrite bool_decide_eq_true_2 by by apply Hm.
    destruct (decodeRfc6052 l (pn_length p)) as [d|] eqn:Hd.
    + destruct (decode_spec l _ d Hl Hd) as (? & ? & Hb & Hs).
      rewrite andb_true_iff, embedded_spec, Hb, Hs by done. done.
    + split; [done|]. intros [Hwf _]. by destruct (decode_none l _ Hl Hd).
  - rewrite bool_decide_eq_false_2; [exact IH|]. by intros ?%Hm.
Qed.

(** A constant prefix. *)
Lemma prefix_const l p len :
  address_ok l → forallb (λ b, (0 <=? b) && (b <? 256)) p = true → length p = 16%nat → 0 ≤ len ≤ 128 →
  prefixMatches l p len = true ↔ in_prefix (be l) (be p) len.
Proof.
  intros Hl Hb Hlen ?. apply prefixMatches_spec; [done| |done]. split; [done|].
  unfold bytes_ok. rewrite List.Forall_forall. rewrite List.forallb_forall in Hb.
  intros b Hin. specialize (Hb b Hin). bool_hyps. lia.
Qed.

Lemma and_remove_l (P Q : Prop) : P → P ∧ Q ↔ Q.
Proof. tauto. Qed.

(** What is left after the translated and tunnelled addresses. *)
Lemma unicast_spec l :
  address_ok l →
  (if negb (js_and (nth 0 l 0) 0xe0 =? 0x20) then false
   else negb (existsb (λ p, prefixMatches l p.1 p.2) DENIED_GLOBAL_IPV6_PREFIXES)) = true
  ↔ in_prefix (be l) (v6 [0x2000; 0; 0; 0; 0; 0; 0; 0]) 3
    ∧ ¬ in_prefix (be l) (v6 [0x2001; 0; 0; 0; 0; 0; 0; 0]) 23
    ∧ ¬ in_prefix (be l) (v6 [0x2001; 0xdb8; 0; 0; 0; 0; 0; 0]) 32
    ∧ ¬ in_prefix (be l) (v6 [0x2620; 0x4f; 0x8000; 0; 0; 0; 0; 0]) 48
    ∧ ¬ in_prefix (be l) (v6 [0x3fff; 0; 0; 0; 0; 0; 0; 0]) 20.
Proof.
  intros Hl. rewrite <-(global_unicast_spec l Hl).
  destruct (negb (js_and _ _ =? _)); [naive_solver|]. cbn [DENIED_GLOBAL_IPV6_PREFIXES existsb fst snd].
  assert (Hneg : ∀ b (P : Prop), (b = true ↔ P) → negb b = true ↔ ¬ P) by (intros [] P []; split; naive_solver).
  rewrite !negb_orb, !andb_true_iff.
  repeat match goal with
  | |- context [negb (prefixMatches l ?p ?len) = true] =>
      rewrite (Hneg _ _ (prefix_const l p len Hl eq_refl eq_refl ltac:(lia)))
  end.
  split; [intros (? & ? & ? & ? & _)|intros (_ & ? & ? & ? & ?)]; repeat split; done.
Qed.

(** The decision on bytes is the reference on numbers. *)
Lemma ipv6_is_public_spec l hosts nat64 :
  address_ok l → Forall (λ p, address_ok (pn_bytes p)) nat64 →
  ipv6_is_public l (identity_keys hosts) nat64 = true ↔ v6_admitted hosts nat64 (be l).
Proof.
  intros Hl Hn. unfold ipv6_is_public, v6_admitted.
  pose proof (mapped_spec l Hl) as Hmapped. pose proof (compatible_spec l Hl) as Hcompat.
  pose proof (embedded_slice 12 l hosts Hl ltac:(lia)) as H12. cbn [Nat.add] in H12.
  change (8 * Z.of_nat 12) with 96 in H12.
  pose proof (prefix_const l WELL_KNOWN_NAT64_PREFIX 96 Hl eq_refl eq_refl ltac:(lia)) as Hwk.
  pose proof (prefix_const l LOCAL_USE_NAT64_PREFIX 48 Hl eq_refl eq_refl ltac:(lia)) as Hlocal.
  change (be WELL_KNOWN_NAT64_PREFIX) with (v6 [0x64; 0xff9b; 0; 0; 0; 0; 0; 0]) in Hwk.
  change (be LOCAL_USE_NAT64_PREFIX) with (v6 [0x64; 0xff9b; 1; 0; 0; 0; 0; 0]) in Hlocal.
  pose proof (nat64_decision_spec l hosts nat64 Hl Hn) as Hnat.
  pose proof (six_to_four_spec l Hl) as H64. pose proof (teredo_spec l Hl) as Hter.
  destruct (ipv4Mapped l) as [m|] eqn:Em; [|destruct (ipv4Compatible l) as [m|] eqn:Ec].
  - rewrite (mapped_slice l m Em), H12, decide_True; [done|]. left. by apply Hmapped.
  - rewrite (compatible_slice l m Ec), H12, decide_True; [done|]. right; left. by apply Hcompat.
  - destruct (prefixMatches l WELL_KNOWN_NAT64_PREFIX 96).
    { rewrite H12, decide_True; [done|]. right; right. by apply Hwk. }
    rewrite decide_False; [|naive_solver].
    destruct (prefixMatches l LOCAL_USE_NAT64_PREFIX 48).
    { split; [done|]. intros [Hno _]. by destruct Hno; apply Hlocal. }
    rewrite (and_remove_l (¬ _)) by by intros ?%Hlocal.
    destruct (nat64_decision l (identity_keys hosts) nat64), (List.find _ nat64); try done.
    destruct (_ && (nth 1 l 0 =? 2)).
    { rewrite decide_True by by apply H64. apply (embedded_slice 2 l hosts Hl ltac:(lia)). }
    rewrite decide_False by by intros ?%H64. destruct (_ && _ && _ && _).
    { rewrite decide_True by by apply Hter. rewrite andb_true_iff.
      destruct (slice_ok 12 4 l Hl ltac:(lia)) as [Hlen Hok]. pose proof (teredo_client _ Hlen Hok) as (? & ? & Hc).
      rewrite (embedded_slice 4 l hosts Hl ltac:(lia)). change (byte_slice 12 16 l) with (take 4 (drop 12 l)).
      rewrite embedded_spec, Hc by done. rewrite <-(field_bytes l 12 4 Hl ltac:(lia)). done. }
    rewrite decide_False by by intros ?%Hter. apply unicast_spec; [done..].
Qed.

(** * Destinations: address texts

    Parsing gives sixteen bytes, the text of an address is read back, and discovered
    NAT64 prefixes are accepted when addresses are screened. *)

(** ** Words of four hexadecimal digits *)

Lemma hex_value_bound a : is_hex a = true → 0 ≤ hex_value a < 16.
Proof.
  unfold is_hex, is_digit, in_range, hex_value.
  intros [[H1%Nat.leb_le H2%Nat.leb_le]%andb_true_iff|[H1%Nat.leb_le H2%Nat.leb_le]%andb_true_iff]%orb_true_iff;
    destruct (Z.ltb_spec (Z.of_nat (nat_of_ascii a)) 58); lia.
Qed.

Lemma parse_hex_from s n :
  0 ≤ n → str_forallb is_hex s = true →
  0 ≤ foldl (λ n a, n * 16 + hex_value a) n (chars s) < (n + 1) * 16 ^ Z.of_nat (String.length s).
Proof.
  unfold chars. revert n. induction s as [|a s IH]; intros n Hn Hs;
    cbn [String.list_ascii_of_string foldl String.length str_forallb] in *; [simpl; lia|].
  bool_hyps. pose proof (hex_value_bound a ltac:(done)).
  destruct (IH (n * 16 + hex_value a) ltac:(lia) ltac:(done)) as [? Hlt]. split; [done|].
  eapply Z.lt_le_trans; [exact Hlt|]. rewrite Nat2Z.inj_succ, Z.pow_succ_r by lia.
  assert (0 < 16 ^ Z.of_nat (String.length s)) by (apply Z.pow_pos_nonneg; lia). nia.
Qed.

Lemma hex_word_bound w : matches HEX_WORD w = true → 0 ≤ parse_hex w < 65536.
Proof.
  intros Hm%matches_spec. unfold HEX_WORD in Hm.
  apply lang_cat_inv in Hm as (s1 & s2 & -> & (c & -> & Hc)%lang_chr_inv & [Hlen Hs]%lang_up_to_chr).
  change (String c "" +:+ s2) with (String c s2).
  pose proof (parse_hex_from (String c s2) 0 ltac:(lia)) as Hb. cbn [str_forallb] in Hb.
  rewrite Hc in Hb. specialize (Hb Hs). unfold parse_hex. split; [lia|].
  eapply Z.lt_le_trans; [apply Hb|]. change 65536 with ((0 + 1) * 16 ^ 4).
  apply Z.mul_le_mono_nonneg_l; [lia|]. apply Z.pow_le_mono_r; [lia|]. simpl String.length. lia.
Qed.

Lemma word_bytes_ok w : matches HEX_WORD w = true → bytes_ok (word_bytes w).
Proof.
  intros Hb%hex_word_bound. unfold word_bytes, js_ushr, js_and.
  rewrite to_uint32_small, !to_int32_small by lia. change (8 mod 32) with 8.
  change 255 with (Z.ones 8). rewrite Z.land_ones, Z.shiftr_div_pow2 by lia. change (2 ^ 8) with 256.
  constructor; [|constructor; [|constructor]]; [|apply Z.mod_pos_bound; lia].
  split; [apply Z.div_pos; lia|]. apply Z.div_lt_upper_bound; lia.
Qed.

Lemma words_bytes ws :
  Forall (λ w, matches HEX_WORD w = true) ws → length (ws ≫= word_bytes) = (2 * length ws)%nat ∧ bytes_ok (ws ≫= word_bytes).
Proof.
  induction 1 as [|w ws Hw Hws [IHl IHo]]; [by split; [|constructor]|]. rewrite bind_cons. split.
  - rewrite length_app, IHl. simpl. lia.
  - apply bytes_ok_app. split; [by apply word_bytes_ok|done].
Qed.

Lemma bytes_of_words_spec ws bytes :
  bytes_of_words ws = Some bytes ↔
  length ws = 8%nat ∧ Forall (λ w, matches HEX_WORD w = true) ws ∧ bytes = ws ≫= word_bytes.
Proof.
  assert (He : existsb (λ w, negb (matches HEX_WORD w)) ws = false ↔ Forall (λ w, matches HEX_WORD w = true) ws).
  { rewrite existsb_false_elem, Forall_forall. setoid_rewrite negb_false_iff. done. }
  unfold bytes_of_words. rewrite <-He. destruct (Nat.eqb_spec (length ws) 8); cbn [negb orb].
  - destruct (existsb _ ws); naive_solver.
  - naive_solver.
Qed.

(** What parses is sixteen bytes. *)
Lemma parseIpv6_ok s bytes : parseIpv6 s = Some bytes → address_ok bytes.
Proof.
  unfold parseIpv6. destruct (str_includes s "%"); [done|].
  destruct (expand_v4_tail _) as [normalized|]; [|done]. csimpl.
  repeat (case_match; try done); intros (Hl & Hws & ->)%bytes_of_words_spec;
    (split; [rewrite (proj1 (words_bytes _ Hws)), Hl; done|by apply words_bytes]).
Qed.

(** ** Reading a formatted address *)

Lemma hex_word_intro s :
  s ≠ "" → (String.length s ≤ 4)%nat → str_forallb is_hex s = true → matches HEX_WORD s = true.
Proof.
  destruct s as [|c s]; [done|]. intros _ Hlen Hs. cbn [str_forallb String.length] in *. bool_hyps.
  apply matches_spec. unfold HEX_WORD. apply lang_cat_inv. exists (String c ""), s. split; [done|].
  split; [by constructor|]. apply lang_up_to_chr. split; [lia|done].
Qed.

Lemma hex_char_spec d : 0 ≤ d < 16 → is_hex (hex_char d) = true ∧ hex_value (hex_char d) = d.
Proof.
  intros Hd.
  assert (Hall : forallb (λ d, is_hex (hex_char d) && Z.eqb (hex_value (hex_char d)) d) (Z.of_nat <$> seq 0 16) = true)
    by (vm_compute; reflexivity).
  rewrite List.forallb_forall in Hall.
  assert (Hin : List.In d (Z.of_nat <$> seq 0 16)).
  { apply list_elem_of_In, list_elem_of_fmap. exists (Z.to_nat d). split; [lia|]. apply elem_of_seq. lia. }
  specialize (Hall d Hin). by apply andb_true_iff in Hall as [? ?%Z.eqb_eq].
Qed.

(** The digits of a small number, appended to others. *)
Lemma hex_go_spec n z tail :
  0 ≤ z < 16 ^ Z.of_nat n → (0 < n)%nat →
  ∃ digits, hex_go n z tail = digits +:+ tail ∧ digits ≠ "" ∧ (String.length digits ≤ n)%nat
    ∧ str_forallb is_hex digits = true ∧ parse_hex digits = z.
Proof.
  revert z tail. induction n as [|n IH]; intros z tail Hz Hn; [lia|]. cbn [hex_go].
  pose proof (Z.mod_pos_bound z 16 ltac:(lia)) as Hm. destruct (hex_char_spec (z mod 16) Hm) as [Hh Hv].
  destruct (Z.ltb_spec z 16) as [Hlt|Hge].
  - exists (String (hex_char (z mod 16)) ""). split; [done|]. split; [done|]. split; [cbn; lia|].
    split; [cbn; by rewrite Hh|]. unfold parse_hex. cbn. rewrite Hv, Z.mod_small; lia.
  - rewrite Nat2Z.inj_succ, Z.pow_succ_r in Hz by lia.
    destruct n as [|n]; [change (16 ^ Z.of_nat 0) with 1 in Hz; lia|].
    assert (Hq : 0 ≤ z / 16 < 16 ^ Z.of_nat (S n)).
    { split; [apply Z.div_pos; lia|]. apply Z.div_lt_upper_bound; lia. }
    destruct (IH (z / 16) (String (hex_char (z mod 16)) tail) Hq ltac:(lia)) as (ds & -> & Hne & Hlen & Hd & Hp).
    exists (ds +:+ String (hex_char (z mod 16)) ""). rewrite str_app_assoc. split; [done|].
    split; [by destruct ds|]. split; [rewrite str_length_app; cbn; lia|].
    split; [rewrite str_forallb_app, Hd; cbn; by rewrite Hh|].
    unfold parse_hex in *. rewrite chars_app, foldl_app, Hp. cbn. rewrite Hv.
    pose proof (Z.div_mod z 16 ltac:(lia)). lia.
Qed.

(** More fuel than digits changes nothing. *)
Lemma hex_go_more n k z tail :
  0 ≤ z < 16 ^ Z.of_nat n → (0 < n)%nat → hex_go (n + k) z tail = hex_go n z tail.
Proof.
  revert z tail. induction n as [|n IH]; intros z tail Hz Hn; [lia|]. cbn [Nat.add hex_go].
  destruct (Z.ltb_spec z 16) as [|Hge]; [done|]. rewrite Nat2Z.inj_succ, Z.pow_succ_r in Hz by lia.
  destruct n as [|n]; [change (16 ^ Z.of_nat 0) with 1 in Hz; lia|].
  apply IH; [|lia]. split; [apply Z.div_pos; lia|]. apply Z.div_lt_upper_bound; lia.
Qed.

(** Every pair of bytes is printed as a word that spells it. *)
Lemma word_of_bytes hi lo :
  0 ≤ hi < 256 → 0 ≤ lo < 256 →
  let w := show_hex (js_or (js_shl hi 8) lo) in matches HEX_WORD w = true ∧ word_bytes w = [hi; lo].
Proof.
  intros Hhi Hlo w.
  assert (Hz : js_or (js_shl hi 8) lo = hi * 256 + lo).
  { unfold js_or, js_shl. change (8 mod 32) with 8. rewrite Z.shiftl_mul_pow2, (to_int32_small hi) by lia.
    rewrite !to_int32_small by (rewrite ?to_int32_small; lia). by apply (lor_add_shifted hi lo 8). }
  assert (Hb : 0 ≤ hi * 256 + lo < 16 ^ Z.of_nat 4) by (change (16 ^ Z.of_nat 4) with 65536; lia).
  destruct (hex_go_spec 4 _ "" Hb ltac:(lia)) as (ds & Hds & Hne & Hlen & Hd & Hp).
  assert (Hw : w = ds).
  { subst w. rewrite Hz. rewrite str_app_nil_r in Hds. rewrite <-Hds. unfold show_hex.
    by apply (hex_go_more 4 4); [|lia]. }
  rewrite Hw. split; [by apply hex_word_intro|]. unfold word_bytes. rewrite Hp. unfold js_ushr, js_and.
  rewrite to_uint32_small, !to_int32_small by lia. change (8 mod 32) with 8.
  change 255 with (Z.ones 8). rewrite Z.land_ones, Z.shiftr_div_pow2 by lia. change (2 ^ 8) with 256.
  rewrite Z.div_add_l, Z.div_small, (Z.add_comm _ lo), Z_mod_plus_full, Z.mod_small by lia. do 2 f_equal; lia.
Qed.

(** ** Texts of eight words *)

Definition is_word_text (w : string) : Prop := w ≠ "" ∧ str_forallb is_hex w = true.

Lemma hex_word_text w : matches HEX_WORD w = true → is_word_text w.
Proof.
  intros Hm%matches_spec. unfold HEX_WORD in Hm.
  apply lang_cat_inv in Hm as (s1 & s2 & -> & (c & -> & Hc)%lang_chr_inv & [Hlen Hs]%lang_up_to_chr).
  split; [done|]. change (String c "" +:+ s2) with (String c s2). simpl. by rewrite Hc.
Qed.

Lemma str_forallb_impl (p q : ascii → bool) s :
  (∀ a, p a = true → q a = true) → str_forallb p s = true → str_forallb q s = true.
Proof. intros Hpq. induction s as [|a s IH]; simpl; [done|]. intros. bool_hyps. rewrite Hpq, IH; done. Qed.

Lemma not_includes_char s c : str_forallb (λ a, negb (a =? c)) s = true → str_includes s (String c "") = false.
Proof.
  induction s as [|a s IH]; [done|]. cbn [str_forallb]. intros [Ha Hs]%andb_true_iff.
  cbn [str_includes String.prefix]. rewrite IH by done. apply negb_true_iff, bool_decide_eq_false in Ha.
  destruct (ascii_dec c a); [by subst|done].
Qed.

Definition hex_or_colon (a : ascii) : bool := is_hex a || (a =? colon).

Lemma hex_or_colon_range a :
  hex_or_colon a = true → (48 ≤ nat_of_ascii a ≤ 58 ∨ 97 ≤ nat_of_ascii a ≤ 102)%nat.
Proof.
  unfold hex_or_colon, is_hex, is_digit, in_range.
  intros [H|H%bool_decide_eq_true]%orb_true_iff; [|subst; vm_compute; lia].
  apply orb_true_iff in H as [H|H]; apply andb_true_iff in H as [?%Nat.leb_le ?%Nat.leb_le]; lia.
Qed.

Lemma hex_or_colon_lower s : str_forallb hex_or_colon s = true → toLowerCase s = s.
Proof.
  induction s as [|a s IH]; [done|]. cbn [str_forallb toLowerCase]. intros [Ha Hs]%andb_true_iff.
  rewrite IH by done. f_equal. apply hex_or_colon_range in Ha. unfold ascii_lower.
  destruct (Nat.leb_spec 65 (nat_of_ascii a)), (Nat.leb_spec (nat_of_ascii a) 90); try done; lia.
Qed.

Lemma hex_or_colon_not s c :
  hex_or_colon c = false → str_forallb hex_or_colon s = true → str_includes s (String c "") = false.
Proof.
  intros Hc Hs. apply not_includes_char. apply (str_forallb_impl hex_or_colon); [|done].
  intros a Ha. apply negb_true_iff, bool_decide_eq_false. intros ->. congruence.
Qed.

Lemma join_hex_or_colon ws : Forall is_word_text ws → str_forallb hex_or_colon (str_join ":" ws) = true.
Proof.
  assert (Hw : ∀ w, is_word_text w → str_forallb hex_or_colon w = true).
  { intros w [_ Hw]. apply (str_forallb_impl is_hex); [|done]. unfold hex_or_colon. by intros a ->. }
  induction ws as [|x [|y ws] IH]; intros Hws; [done| |]; apply Forall_cons in Hws as [Hx Hws].
  - by apply Hw.
  - change (str_join ":" (x :: y :: ws)) with (x +:+ String colon (str_join ":" (y :: ws))).
    rewrite str_forallb_app, Hw by done. cbn [str_forallb andb]. by rewrite IH.
Qed.

Lemma last_colon_forallb p s before after :
  str_forallb p s = true → last_colon s = Some (before, after) → str_forallb p after = true.
Proof.
  revert before. induction s as [|a s IH]; [done|]. cbn [str_forallb last_colon]. intros before [Ha Hs]%andb_true_iff.
  destruct (last_colon s) as [[b f]|]; [intros [= _ <-]; by eapply IH|].
  case_match; [|done]. by intros [= _ <-].
Qed.

Lemma expand_v4_tail_hex s : str_forallb hex_or_colon s = true → expand_v4_tail s = Some s.
Proof.
  intros Hs. unfold expand_v4_tail, split_last_colon. destruct (last_colon s) as [[b f]|] eqn:E.
  - by rewrite (hex_or_colon_not f "."%char) by (done || by eapply last_colon_forallb).
  - by rewrite (hex_or_colon_not s "."%char).
Qed.

Lemma hex_not_colon a : is_hex a = true → (a =? colon) = false.
Proof. intros Ha. apply bool_decide_eq_false. intros ->. done. Qed.

(** A word in front of a text without [::]. *)
Lemma split_double_colon_word w s :
  str_forallb is_hex w = true → split_double_colon s = [s] → split_double_colon (w +:+ s) = [w +:+ s].
Proof.
  intros Hw Hs. induction w as [|a w IH]; [done|]. cbn [str_forallb] in Hw. apply andb_true_iff in Hw as [Ha Hw].
  rewrite str_app_cons. specialize (IH Hw). cbn [split_double_colon].
  destruct (w +:+ s) as [|b t] eqn:E; [done|]. by rewrite (hex_not_colon a Ha), IH.
Qed.

Lemma split_double_colon_join ws :
  ws ≠ [] → Forall is_word_text ws → split_double_colon (str_join ":" ws) = [str_join ":" ws].
Proof.
  induction ws as [|x [|y ws] IH]; intros Hne Hws; [done| |]; apply Forall_cons in Hws as [[Hx Hx'] Hws].
  - change (str_join ":" [x]) with x. pose proof (split_double_colon_word x "" Hx' eq_refl) as Hs.
    by rewrite str_app_nil_r in Hs.
  - change (str_join ":" (x :: y :: ws)) with (x +:+ String colon (str_join ":" (y :: ws))).
    apply split_double_colon_word; [done|]. specialize (IH ltac:(done) Hws).
    cbn [split_double_colon]. destruct (str_join ":" (y :: ws)) as [|b t] eqn:E; [done|].
    assert (b ≠ colon).
    { apply Forall_cons in Hws as [[Hy Hy'] _]. destruct y as [|b' y]; [done|]. cbn [str_forallb] in Hy'.
      apply andb_true_iff in Hy' as [Hb _]. apply hex_not_colon, bool_decide_eq_false in Hb.
      destruct ws; injection E as <- _; done. }
    rewrite (bool_decide_eq_false_2 (b = colon)), andb_false_r by done. by rewrite IH.
Qed.

Lemma word_no_colon w : is_word_text w → colon ∉ chars w.
Proof.
  intros [_ Hw]. unfold chars. induction w as [|a w IH]; cbn; [set_solver|].
  cbn in Hw. apply andb_true_iff in Hw as [Ha Hw]. apply not_elem_of_cons. split; [|by apply IH].
  apply hex_not_colon, bool_decide_eq_false in Ha. done.
Qed.

Lemma parse_words ws :
  length ws = 8%nat → Forall (λ w, matches HEX_WORD w = true) ws →
  parseIpv6 (str_join ":" ws) = Some (ws ≫= word_bytes).
Proof.
  intros Hlen Hws.
  assert (Ht : Forall is_word_text ws) by (eapply Forall_impl; [done|]; apply hex_word_text).
  pose proof (join_hex_or_colon ws Ht) as Hj. assert (Hne : ws ≠ []) by by destruct ws.
  unfold parseIpv6. rewrite (hex_or_colon_not _ "%"%char), hex_or_colon_lower, expand_v4_tail_hex by done.
  cbn [mbind option_bind]. cbv zeta. rewrite split_double_colon_join by done.
  assert (Hcw : colon_words (Some (str_join ":" ws)) = ws).
  { unfold colon_words. destruct (str_join ":" ws) eqn:E.
    - by destruct ws as [|[] [|]].
    - rewrite <-E. apply (split_on_join_sep colon); [done|]. eapply Forall_impl; [done|]. apply word_no_colon. }
  cbn [lookup list_lookup]. rewrite Hcw. cbn [length colon_words]. rewrite Hlen.
  change (replicate _ _) with (@nil string). rewrite app_nil_r. by apply bytes_of_words_spec.
Qed.

Theorem parse_format bytes : address_ok bytes → parseIpv6 (formatIpv6 bytes) = Some bytes.
Proof.
  intros [Hlen Hok]. unfold formatIpv6.
  assert (Hw : ∀ i, let w := show_hex (js_or (js_shl (nth i bytes 0) 8) (nth (S i) bytes 0)) in
    matches HEX_WORD w = true ∧ word_bytes w = [nth i bytes 0; nth (S i) bytes 0]).
  { intros i. apply word_of_bytes; by apply bytes_ok_nth. }
  assert (Hl : ∀ l, ((λ i, show_hex (js_or (js_shl (nth i bytes 0) 8) (nth (S i) bytes 0))) <$> l) ≫= word_bytes
    = l ≫= λ i, [nth i bytes 0; nth (S i) bytes 0]).
  { induction l as [|i l IH]; [done|]. rewrite fmap_cons, !bind_cons, IH. by rewrite (proj2 (Hw i)). }
  rewrite parse_words; [|done|].
  - rewrite Hl. f_equal. do 16 (destruct bytes as [|? bytes]; [done|]). by destruct bytes.
  - apply Forall_fmap, Forall_forall. intros i _. apply Hw.
Qed.

(** ** Discovered prefixes *)

Lemma whole_bytes w : Z.to_nat (8 * Z.of_nat w / 8) = w ∧ (8 * Z.of_nat w) mod 8 = 0
  ∧ Z.to_nat ((8 * Z.of_nat w + 7) / 8) = w.
Proof.
  rewrite (Z.mul_comm 8), Z.div_mul, Z.mod_mul, Z.div_add_l by lia. change (7 / 8) with 0.
  rewrite Z.add_0_r, Nat2Z.id. done.
Qed.

Lemma copyPrefixBits_bytes bytes w :
  copyPrefixBits bytes (8 * Z.of_nat w) = take w bytes ++ replicate (16 - length (take w bytes)) 0.
Proof. unfold copyPrefixBits. destruct (whole_bytes w) as (-> & -> & _). done. Qed.

Lemma prefixBitsAreZero_bytes p w : prefixBitsAreZero p (8 * Z.of_nat w) = all_zero (drop w p).
Proof. unfold prefixBitsAreZero. destruct (whole_bytes w) as (-> & -> & ->). done. Qed.

Lemma copyPrefixBits_ok bytes l :
  address_ok bytes →
  let p := copyPrefixBits bytes (bits_of l) in
  address_ok p ∧ prefixBitsAreZero p (bits_of l) = true ∧ in_prefix (be bytes) (be p) (bits_of l).
Proof.
  intros Hb p.
  assert (Hw : ∃ w, bits_of l = 8 * Z.of_nat w ∧ (w ≤ 12)%nat).
  { destruct l; [exists 4%nat|exists 5%nat|exists 6%nat|exists 7%nat|exists 8%nat|exists 12%nat]; split; done || lia. }
  destruct Hw as (w & Hbits & Hw). subst p. rewrite Hbits, copyPrefixBits_bytes, prefixBitsAreZero_bytes.
  assert (Htw : length (take w bytes) = w) by (rewrite length_take, (proj1 Hb); lia).
  rewrite Htw. assert (Hok : address_ok (take w bytes ++ replicate (16 - w) 0)).
  { split; [rewrite length_app, length_replicate, Htw; lia|].
    apply bytes_ok_app. split; [apply bytes_ok_take, Hb|]. by apply Forall_replicate. }
  split; [done|]. split.
  - rewrite drop_app_length' by done. unfold all_zero. apply forallb_forall_elem. intros x Hx.
    by apply elem_of_replicate in Hx as [-> _].
  - apply in_prefix_bytes; [done..|lia|]. by rewrite take_app_length' by done.
Qed.

Lemma parse_nat64_ok p q : parse_nat64 p = Ok q → address_ok (pn_bytes q) ∧ pn_length q = np_length p.
Proof.
  unfold parse_nat64. destruct (parseIpv6 _) as [bytes|] eqn:E; [|done]. case_match; [|done].
  intros [= <-]. by apply parseIpv6_ok in E.
Qed.

Lemma parseNat64Prefixes_ok ps qs : parseNat64Prefixes ps = Ok qs → Forall (λ q, address_ok (pn_bytes q)) qs.
Proof.
  revert qs. induction ps as [|p ps IH]; intros qs; cbn [parseNat64Prefixes]; [by intros [= <-]; constructor|].
  destruct (parse_nat64 p) as [q|] eqn:E; [|done]. destruct (parseNat64Prefixes ps); [|done].
  intros [= <-]. constructor; [by destruct (parse_nat64_ok p q E)|by apply IH].
Qed.

(** A candidate is parsed back to the bits of the answer it came from. *)
Lemma candidate_parsed bytes c :
  address_ok bytes → c ∈ discovery_candidates bytes →
  ∃ q, parse_nat64 c = Ok q ∧ pn_length q = np_length c
    ∧ in_prefix (be bytes) (be (pn_bytes q)) (bits_of (np_length c))
    ∧ rfc6052_wf (be bytes) (np_length c)
    ∧ (rfc6052_v4 (be bytes) (np_length c) = quad 192 0 0 170
       ∨ rfc6052_v4 (be bytes) (np_length c) = quad 192 0 0 171).
Proof.
  intros Hb Hc. unfold discovery_candidates in Hc. apply list_elem_of_omap in Hc as (l & _ & Hc).
  destruct (decodeRfc6052 bytes l) as [d|] eqn:Hd; [|done]. case_match eqn:E; [|done]. simplify_eq/=.
  destruct (decode_spec bytes l d Hb Hd) as (Hlen & Hdok & Hbe & Hwf).
  apply andb_true_iff in E as [Hv Hs]. destruct (copyPrefixBits_ok bytes l Hb) as (Hok & Hz & Hin).
  unfold parse_nat64. cbn [np_prefix np_length]. rewrite parse_format, Hz by done.
  eexists. split; [done|]. split; [done|]. split; [done|]. split; [by apply Hwf|].
  rewrite <-Hbe. destruct d as [|a [|b [|x [|y []]]]]; try done.
  unfold isIpv4OnlyDiscoveryValue in Hv. cbn [nth] in Hv.
  rewrite !andb_true_iff, orb_true_iff, !bool_decide_eq_true in Hv. unfold be, quad. cbn [foldl]. lia.
Qed.

(** The key of a prefix determines it. *)
Lemma str_app_inj_length (s s' t t' : string) :
  String.length t = String.length t' → s +:+ t = s' +:+ t' → s = s' ∧ t = t'.
Proof.
  intros Hlen He. assert (String.length s = String.length s').
  { assert (String.length (s +:+ t) = String.length (s' +:+ t')) by by rewrite He.
    rewrite !str_length_app in *. lia. }
  revert s' He H. induction s as [|a s IH]; intros [|a' s']; try done.
  rewrite !str_app_cons. intros [= -> He] [= Hl]. by destruct (IH s' He Hl) as [-> ->].
Qed.

Lemma nat64_key_inj p q : nat64_key p = nat64_key q → p = q.
Proof.
  unfold nat64_key. intros He. apply str_app_inj_length in He as [Hp Hb].
  - destruct p as [p1 l], q as [q1 l']. cbn in Hp, Hb. subst. f_equal. by destruct l, l'.
  - by destruct (np_length p), (np_length q).
Qed.

(** A map whose keys are those of its values. *)
Definition keyed (o : object PackageEgressNat64Prefix) : Prop := ∀ k v, (k, v) ∈ o → k = nat64_key v.

Lemma obj_set_self {A} (o : object A) k v : (k, v) ∈ obj_set o k v.
Proof. induction o as [|[k' v'] o IH]; cbn [obj_set]; [set_solver|]. case_bool_decide; set_solver. Qed.

Lemma obj_set_keeps o k v e : keyed o → k = nat64_key v → e ∈ o → e ∈ obj_set o k v.
Proof.
  intros Ho -> He. induction o as [|[k' v'] o IH]; cbn [obj_set]; [set_solver|].
  assert (keyed o) by (intros ???; apply Ho; set_solver).
  case_bool_decide as E; [|set_solver]. subst. apply elem_of_cons in He as [->|He]; [|set_solver].
  enough (v' = v) as -> by set_solver. apply nat64_key_inj. symmetry. apply Ho. set_solver.
Qed.

(** Every IPv6 answer has its only candidate among the prefixes, and nothing else. *)
Lemma discover_loop_spec answers o ps :
  keyed o → discover_loop answers o = Ok ps →
  (∀ v, v ∈ obj_values o → v ∈ ps)
  ∧ (∀ v, v ∈ ps → v ∈ obj_values o ∨ ∃ a bytes, a ∈ answers ∧ parseIpv6 (ra_address a) = Some bytes
        ∧ v ∈ discovery_candidates bytes)
  ∧ (∀ a, a ∈ answers → ra_family a ≠ 4 → ∃ bytes c, parseIpv6 (ra_address a) = Some bytes
        ∧ discovery_candidates bytes = [c] ∧ c ∈ ps).
Proof.
  revert o. induction answers as [|a answers IH]; intros o Ho; cbn [discover_loop].
  { intros [= <-]. split; [done|]. split; [by left|]. by intros a ?%elem_of_nil. }
  case_bool_decide as Hfam.
  { intros H. destruct (IH o Ho H) as (H1 & H2 & H3). split; [done|]. split; [set_solver|].
    intros a' [->|Ha']%elem_of_cons Hf; [done|]. by apply H3. }
  destruct (parseIpv6 (ra_address a)) as [bytes|] eqn:Hp; [|done].
  destruct (discovery_candidates bytes) as [|c [|]] eqn:Hc; [done| |done]. intros H.
  assert (Ho' : keyed (obj_set o (nat64_key c) c)).
  { intros k v [Hkv|Hkv]%obj_set_elem_inv; [by simplify_eq|by apply Ho]. }
  destruct (IH _ Ho' H) as (H1 & H2 & H3). unfold obj_values in *. split; [|split].
  - intros v ([k v'] & -> & Hin)%list_elem_of_fmap. apply H1, list_elem_of_fmap. exists (k, v').
    split; [done|]. by apply obj_set_keeps.
  - intros v [([k v'] & -> & Hin)%list_elem_of_fmap|(a' & b' & ? & ? & ?)]%H2; [|right; exists a', b'; by rewrite elem_of_cons; auto].
    apply obj_set_elem_inv in Hin as [Hin|Hin]; [simplify_eq; right; exists a, bytes; rewrite Hc; split; [by left|split; [done|by left]]|].
    left. apply list_elem_of_fmap. by exists (k, v').
  - intros a' [->|Ha']%elem_of_cons Hf; [|by apply H3]. exists bytes, c. split; [done|]. split; [done|].
    apply H1, list_elem_of_fmap. exists (nat64_key c, c). split; [done|]. apply obj_set_self.
Qed.

Lemma parseNat64Prefixes_all ps :
  (∀ p, p ∈ ps → ∃ q, parse_nat64 p = Ok q) →
  ∃ qs, parseNat64Prefixes ps = Ok qs ∧ ∀ p q, p ∈ ps → parse_nat64 p = Ok q → q ∈ qs.
Proof.
  induction ps as [|p ps IH]; intros Hps; [exists []; split; [done|by intros ?? ?%elem_of_nil]|].
  cbn [parseNat64Prefixes]. destruct (Hps p ltac:(by left)) as [q Hq]. rewrite Hq.
  destruct IH as (qs & -> & Hqs); [intros; apply Hps; by right|].
  exists (q :: qs). split; [done|]. intros p' q' [->|Hp']%elem_of_cons Hq'; [rewrite Hq in Hq'; injection Hq' as <-; by left|].
  right. by eapply Hqs.
Qed.
