(* ===== verification/EgressLedger.v ===== *)
(** * The accounts of the package-egress listener

    Models src/docker/package-egress-ledger.ts: attempts and their rate, concurrent
    clients and upstreams, and bytes, one ledger per session.  Leases are references to
    shared records: a client lease is an index into [lg_clients], an upstream lease an
    index into [lg_upstreams].  Numbers are exact; the clock is an argument of the
    operations that read it. *)

From Stdlib Require Import ZArith QArith Qcanon Lia Lqa.
From S2P Require Import Prelude Numbers.

Local Open Scope Z_scope.
Local Open Scope curtain_scope.

Record PackageEgressLimits := {
  maxAttempts : Z;
  attemptBurst : Z;
  attemptRefillPerSecond : Qc;
  maxConcurrentClients : Z;
  maxDerivedPerClient : Z;
  maxConcurrentDerived : Z;
  maxConcurrentUpstreams : Z;
  maxBytesPerRequest : Z;
  maxSessionBytes : Z;
  absoluteTimeoutMs : Z;
  idleTimeoutMs : Z;
  tlsHandshakeMaxBytes : Z;
  tlsHandshakeTimeoutMs : Z;
  dnsTimeoutMs : Z;
  connectTimeoutMs : Z;
  maxHeaderBytes : Z;
  maxTargetBytes : Z
}.

Definition DEFAULT_PACKAGE_EGRESS_LIMITS : PackageEgressLimits :=
  {| maxAttempts := 4096; attemptBurst := 120; attemptRefillPerSecond := qc_of_Z 2;
     maxConcurrentClients := 16; maxDerivedPerClient := 2; maxConcurrentDerived := 8;
     maxConcurrentUpstreams := 24; maxBytesPerRequest := 2 * 1024 * 1024 * 1024;
     maxSessionBytes := 16 * 1024 * 1024 * 1024; absoluteTimeoutMs := 10 * 60000;
     idleTimeoutMs := 60000; tlsHandshakeMaxBytes := 64 * 1024; tlsHandshakeTimeoutMs := 5000;
     dnsTimeoutMs := 5000; connectTimeoutMs := 10000; maxHeaderBytes := 32 * 1024;
     maxTargetBytes := 8 * 1024 |}.

(** The integer limits, in the order of the check. *)
Definition integer_limits (limits : PackageEgressLimits) : list (string * Z) :=
  [("maxAttempts", maxAttempts limits); ("attemptBurst", attemptBurst limits);
   ("maxConcurrentClients", maxConcurrentClients limits); ("maxDerivedPerClient", maxDerivedPerClient limits);
   ("maxConcurrentDerived", maxConcurrentDerived limits);
   ("maxConcurrentUpstreams", maxConcurrentUpstreams limits);
   ("maxBytesPerRequest", maxBytesPerRequest limits); ("maxSessionBytes", maxSessionBytes limits);
   ("absoluteTimeoutMs", absoluteTimeoutMs limits); ("idleTimeoutMs", idleTimeoutMs limits);
   ("tlsHandshakeMaxBytes", tlsHandshakeMaxBytes limits);
   ("tlsHandshakeTimeoutMs", tlsHandshakeTimeoutMs limits); ("dnsTimeoutMs", dnsTimeoutMs limits);
   ("connectTimeoutMs", connectTimeoutMs limits); ("maxHeaderBytes", maxHeaderBytes limits);
   ("maxTargetBytes", maxTargetBytes limits)].

(** [Object.entries(limits)]: the rate is the third. *)
Definition limit_entries (limits : PackageEgressLimits) : list (string * Qc) :=
  let integers := prod_map id qc_of_Z <$> integer_limits limits in
  take 2 integers ++ [("attemptRefillPerSecond", attemptRefillPerSecond limits)] ++ drop 2 integers.

Definition MAX_SAFE_INTEGER : Z := 2 ^ 53 - 1.

(** All limits but the rate are integers by type. *)
Definition validateLimits (limits : PackageEgressLimits) : result unit :=
  match List.find (λ e, negb (qc_lt (qc_of_Z 0) e.2)) (limit_entries limits) with
  | Some (name, _) => Throw ("package egress limit " +:+ name +:+ " must be positive")
  | None =>
      match List.find (λ e, MAX_SAFE_INTEGER <? e.2) (integer_limits limits) with
      | Some (name, _) => Throw ("package egress limit " +:+ name +:+ " must be a safe integer")
      | None =>
          if maxSessionBytes limits <? maxBytesPerRequest limits
          then Throw "package egress per-request byte ceiling exceeds the session ceiling"
          else if maxConcurrentUpstreams limits <? maxConcurrentClients limits + maxConcurrentDerived limits
          then Throw "package egress direct plus derived concurrency ceilings exceed the combined ceiling"
          else Ok ()
      end
  end.

(** ** State *)

Record ClientState := {
  cl_active : bool;
  cl_counted : bool;
  cl_activeUpstreams : Z;
  cl_derivedAttempts : Z;
  cl_bytes : Z
}.

Inductive UpstreamKind := Direct | Derived.
#[export] Instance UpstreamKind_eq_dec : EqDecision UpstreamKind.
Proof. solve_decision. Defined.

Record UpstreamLease := { up_client : nat; up_kind : UpstreamKind; up_released : bool }.

Record Ledger := {
  lg_attempts : Z;
  lg_clientAttempts : Z;
  lg_derivedAttempts : Z;
  lg_activeClients : Z;
  lg_activeDirect : Z;
  lg_activeDerived : Z;
  lg_transferredBytes : Z;
  lg_tokens : Qc;
  lg_lastRefill : Qc;
  lg_stopped : bool;
  lg_clients : list ClientState;
  lg_upstreams : list UpstreamLease
}.

Definition createPackageEgressLedger (limits : PackageEgressLimits) (now : Qc) : result Ledger :=
  match validateLimits limits with
  | Throw e => Throw e
  | Ok _ =>
      Ok {| lg_attempts := 0; lg_clientAttempts := 0; lg_derivedAttempts := 0; lg_activeClients := 0;
            lg_activeDirect := 0; lg_activeDerived := 0; lg_transferredBytes := 0;
            lg_tokens := qc_of_Z (attemptBurst limits); lg_lastRefill := now; lg_stopped := false;
            lg_clients := []; lg_upstreams := [] |}
  end.

(** ** Updates *)

Definition set_attempts (attempts clientAttempts derivedAttempts : Z) (g : Ledger) : Ledger :=
  {| lg_attempts := attempts; lg_clientAttempts := clientAttempts; lg_derivedAttempts := derivedAttempts;
     lg_activeClients := lg_activeClients g; lg_activeDirect := lg_activeDirect g;
     lg_activeDerived := lg_activeDerived g; lg_transferredBytes := lg_transferredBytes g;
     lg_tokens := lg_tokens g; lg_lastRefill := lg_lastRefill g; lg_stopped := lg_stopped g;
     lg_clients := lg_clients g; lg_upstreams := lg_upstreams g |}.

Definition set_tokens (tokens lastRefill : Qc) (g : Ledger) : Ledger :=
  {| lg_attempts := lg_attempts g; lg_clientAttempts := lg_clientAttempts g;
     lg_derivedAttempts := lg_derivedAttempts g;
     lg_activeClients := lg_activeClients g; lg_activeDirect := lg_activeDirect g;
     lg_activeDerived := lg_activeDerived g; lg_transferredBytes := lg_transferredBytes g;
     lg_tokens := tokens; lg_lastRefill := lastRefill; lg_stopped := lg_stopped g;
     lg_clients := lg_clients g; lg_upstreams := lg_upstreams g |}.

Definition set_active (clients direct derived : Z) (g : Ledger) : Ledger :=
  {| lg_attempts := lg_attempts g; lg_clientAttempts := lg_clientAttempts g;
     lg_derivedAttempts := lg_derivedAttempts g; lg_activeClients := clients; lg_activeDirect := direct;
     lg_activeDerived := derived; lg_transferredBytes := lg_transferredBytes g;
     lg_tokens := lg_tokens g; lg_lastRefill := lg_lastRefill g; lg_stopped := lg_stopped g;
     lg_clients := lg_clients g; lg_upstreams := lg_upstreams g |}.

Definition set_leases (clients : list ClientState) (upstreams : list UpstreamLease) (g : Ledger) : Ledger :=
  {| lg_attempts := lg_attempts g; lg_clientAttempts := lg_clientAttempts g;
     lg_derivedAttempts := lg_derivedAttempts g; lg_activeClients := lg_activeClients g;
     lg_activeDirect := lg_activeDirect g; lg_activeDerived := lg_activeDerived g;
     lg_transferredBytes := lg_transferredBytes g; lg_tokens := lg_tokens g;
     lg_lastRefill := lg_lastRefill g; lg_stopped := lg_stopped g; lg_clients := clients;
     lg_upstreams := upstreams |}.

Definition set_bytes (bytes : Z) (g : Ledger) : Ledger :=
  {| lg_attempts := lg_attempts g; lg_clientAttempts := lg_clientAttempts g;
     lg_derivedAttempts := lg_derivedAttempts g; lg_activeClients := lg_activeClients g;
     lg_activeDirect := lg_activeDirect g; lg_activeDerived := lg_activeDerived g;
     lg_transferredBytes := bytes; lg_tokens := lg_tokens g;
     lg_lastRefill := lg_lastRefill g; lg_stopped := lg_stopped g; lg_clients := lg_clients g;
     lg_upstreams := lg_upstreams g |}.

Definition stop (g : Ledger) : Ledger :=
  {| lg_attempts := lg_attempts g; lg_clientAttempts := lg_clientAttempts g;
     lg_derivedAttempts := lg_derivedAttempts g; lg_activeClients := lg_activeClients g;
     lg_activeDirect := lg_activeDirect g; lg_activeDerived := lg_activeDerived g;
     lg_transferredBytes := lg_transferredBytes g; lg_tokens := lg_tokens g;
     lg_lastRefill := lg_lastRefill g; lg_stopped := true; lg_clients := lg_clients g;
     lg_upstreams := lg_upstreams g |}.

Definition set_client (active counted : bool) (upstreams derived bytes : Z) : ClientState :=
  {| cl_active := active; cl_counted := counted; cl_activeUpstreams := upstreams;
     cl_derivedAttempts := derived; cl_bytes := bytes |}.

(** ** Operations *)

Section operations.
Variable limits : PackageEgressLimits.

Definition refill (now : Qc) (g : Ledger) : Ledger :=
  let elapsedSeconds := (qc_max (qc_of_Z 0) (now - lg_lastRefill g) / qc_of_Z 1000)%Qc in
  set_tokens (qc_min (qc_of_Z (attemptBurst limits))
               (lg_tokens g + elapsedSeconds * attemptRefillPerSecond limits)%Qc) now g.

(** What it throws leaves the attempt counted and the tokens refilled. *)
Definition consumeAttempt (kind : UpstreamKind) (now : Qc) (g : Ledger) : Ledger * result unit :=
  let g := match kind with
           | Direct => set_attempts (lg_attempts g + 1) (lg_clientAttempts g + 1) (lg_derivedAttempts g) g
           | Derived => set_attempts (lg_attempts g + 1) (lg_clientAttempts g) (lg_derivedAttempts g + 1) g
           end in
  let g := refill now g in
  if lg_stopped g then (g, Throw "package egress ledger is stopped")
  else if maxAttempts limits <? lg_attempts g then (g, Throw "package egress attempt ceiling reached")
  else if qc_lt (lg_tokens g) (qc_of_Z 1) then (g, Throw "package egress attempt rate exceeded")
  else (set_tokens (lg_tokens g - qc_of_Z 1)%Qc (lg_lastRefill g) g, Ok ()).

(** The count is a nonnegative integer, or else the call throws and charges nothing. *)
Definition charge (client : nat) (count : Z) (g : Ledger) : Ledger * result bool :=
  if (count <? 0) || (MAX_SAFE_INTEGER <? count)
  then (g, Throw "package egress byte count must be a nonnegative safe integer")
  else
    match lg_clients g !! client with
    | None => (g, Ok false)
    | Some c =>
        let c := set_client (cl_active c) (cl_counted c) (cl_activeUpstreams c) (cl_derivedAttempts c)
                   (cl_bytes c + count) in
        let g := set_bytes (lg_transferredBytes g + count)
                   (set_leases (<[client := c]> (lg_clients g)) (lg_upstreams g) g) in
        (g, Ok ((cl_bytes c <=? maxBytesPerRequest limits)
                && (lg_transferredBytes g <=? maxSessionBytes limits)))
    end.

(** The slots of an upstream, once its attempt is paid for. *)
Definition take_slot (client : nat) (kind : UpstreamKind) (g : Ledger) : Ledger * result nat :=
  match lg_clients g !! client with
  | None => (g, Throw "package egress client lease is released")
  | Some c =>
      if maxConcurrentUpstreams limits <=? lg_activeDirect g + lg_activeDerived g
      then (g, Throw "package egress combined upstream concurrency ceiling reached")
      else if match kind with Direct => maxConcurrentClients limits <=? lg_activeDirect g | Derived => false end
      then (g, Throw "package egress direct concurrency ceiling reached")
      else if match kind with Derived => maxDerivedPerClient limits <=? cl_derivedAttempts c | Direct => false end
      then (g, Throw "package egress per-client derived request ceiling reached")
      else if match kind with Derived => maxConcurrentDerived limits <=? lg_activeDerived g | Direct => false end
      then (g, Throw "package egress derived concurrency ceiling reached")
      else
        let derived := match kind with Derived => 1 | Direct => 0 end in
        let g' := set_active (lg_activeClients g) (lg_activeDirect g + (1 - derived))
                    (lg_activeDerived g + derived) g in
        let c := set_client (cl_active c) (cl_counted c) (cl_activeUpstreams c + 1)
                   (cl_derivedAttempts c + derived) (cl_bytes c) in
        (set_leases (<[client := c]> (lg_clients g))
           (lg_upstreams g ++ [{| up_client := client; up_kind := kind; up_released := false |}]) g',
         Ok (length (lg_upstreams g)))
  end.

Definition client_active (client : nat) (g : Ledger) : bool :=
  match lg_clients g !! client with Some c => cl_active c | None => false end.

Definition admitUpstream (client : nat) (kind : UpstreamKind) (now : Qc) (g : Ledger) : Ledger * result nat :=
  if negb (client_active client g) then (g, Throw "package egress client lease is released")
  else if lg_stopped g then (g, Throw "package egress ledger is stopped")
  else match kind with
  | Direct => take_slot client Direct g
  | Derived =>
      match consumeAttempt Derived now g with
      | (g, Throw e) => (g, Throw e)
      | (g, Ok _) => take_slot client Derived g
      end
  end.

Definition upstream_charge (upstream : nat) (count : Z) (g : Ledger) : Ledger * result bool :=
  match lg_upstreams g !! upstream with
  | None => (g, Ok false)
  | Some u => if up_released u then (g, Ok false) else charge (up_client u) count g
  end.

(** The last lease of a released client frees its slot. *)
Definition settle_client (client : nat) (c : ClientState) (g : Ledger) : Ledger :=
  if negb (cl_active c) && cl_counted c && (cl_activeUpstreams c =? 0)
  then set_active (lg_activeClients g - 1) (lg_activeDirect g) (lg_activeDerived g)
         (set_leases (<[client := set_client (cl_active c) false (cl_activeUpstreams c)
                                   (cl_derivedAttempts c) (cl_bytes c)]> (lg_clients g))
            (lg_upstreams g) g)
  else set_leases (<[client := c]> (lg_clients g)) (lg_upstreams g) g.

Definition release_upstream (upstream : nat) (g : Ledger) : Ledger :=
  match lg_upstreams g !! upstream with
  | None => g
  | Some u =>
      if up_released u then g
      else match lg_clients g !! up_client u with
      | None => g
      | Some c =>
          let derived := match up_kind u with Derived => 1 | Direct => 0 end in
          let g := set_active (lg_activeClients g) (lg_activeDirect g - (1 - derived))
                     (lg_activeDerived g - derived)
                     (set_leases (lg_clients g)
                        (<[upstream := {| up_client := up_client u; up_kind := up_kind u;
                                          up_released := true |}]> (lg_upstreams g)) g) in
          settle_client (up_client u)
            (set_client (cl_active c) (cl_counted c) (cl_activeUpstreams c - 1) (cl_derivedAttempts c)
               (cl_bytes c)) g
      end
  end.

Definition admitClient (now : Qc) (g : Ledger) : Ledger * result nat :=
  match consumeAttempt Direct now g with
  | (g, Throw e) => (g, Throw e)
  | (g, Ok _) =>
      if maxConcurrentClients limits <=? lg_activeClients g
      then (g, Throw "package egress client concurrency ceiling reached")
      else
        (set_leases (lg_clients g ++ [set_client true true 0 0 0]) (lg_upstreams g)
           (set_active (lg_activeClients g + 1) (lg_activeDirect g) (lg_activeDerived g) g),
         Ok (length (lg_clients g)))
  end.

Definition release_client (client : nat) (g : Ledger) : Ledger :=
  match lg_clients g !! client with
  | None => g
  | Some c =>
      if negb (cl_active c) then g
      else settle_client client
             (set_client false (cl_counted c) (cl_activeUpstreams c) (cl_derivedAttempts c) (cl_bytes c)) g
  end.

(** ** Histories *)

Inductive LedgerOp :=
| AdmitClient
| AdmitUpstream (client : nat) (kind : UpstreamKind)
| ChargeClient (client : nat) (count : Z)
| ChargeUpstream (upstream : nat) (count : Z)
| ReleaseUpstream (upstream : nat)
| ReleaseClient (client : nat)
| Stop.

Inductive Outcome :=
| Leased (lease : nat)
| Charged (within : bool)
| Done
| Refused (message : string).

Definition to_outcome {A} (f : A → Outcome) (r : Ledger * result A) : Ledger * Outcome :=
  (r.1, match r.2 with Ok a => f a | Throw e => Refused e end).

Definition apply_op (now : Qc) (op : LedgerOp) (g : Ledger) : Ledger * Outcome :=
  match op with
  | AdmitClient => to_outcome Leased (admitClient now g)
  | AdmitUpstream client kind => to_outcome Leased (admitUpstream client kind now g)
  | ChargeClient client count => to_outcome Charged (charge client count g)
  | ChargeUpstream upstream count => to_outcome Charged (upstream_charge upstream count g)
  | ReleaseUpstream upstream => (release_upstream upstream g, Done)
  | ReleaseClient client => (release_client client g, Done)
  | Stop => (stop g, Done)
  end.

(** Operations at their times, with the outcomes. *)
Fixpoint run_ops (ops : list (Qc * LedgerOp)) (g : Ledger) : Ledger * list Outcome :=
  match ops with
  | [] => (g, [])
  | (now, op) :: ops =>
      let '(g, o) := apply_op now op g in
      let '(g, os) := run_ops ops g in
      (g, o :: os)
  end.

End operations.

(** * The ledger: its invariant and its rate *)

(** ** The invariant *)

Definition open_lease (kind : UpstreamKind) (u : UpstreamLease) : Z :=
  if negb (up_released u) && (up_kind u =? kind) then 1 else 0.
Definition open_for (client : nat) (u : UpstreamLease) : Z :=
  if negb (up_released u) && (up_client u =? client)%nat then 1 else 0.
Lemma open_for_nonneg i u : 0 ≤ open_for i u.
Proof. unfold open_for. destruct (_ && _); done. Qed.

Definition counted (c : ClientState) : Z := if cl_counted c then 1 else 0.

Record client_ok (limits : PackageEgressLimits) (upstreams : list UpstreamLease) (i : nat) (c : ClientState) :
    Prop := {
  co_upstreams : cl_activeUpstreams c = tally (open_for i) upstreams;
  co_counted : cl_counted c = cl_active c || (0 <? cl_activeUpstreams c);
  co_derived : 0 ≤ cl_derivedAttempts c ≤ maxDerivedPerClient limits;
  co_bytes : 0 ≤ cl_bytes c
}.

Record ledger_ok (limits : PackageEgressLimits) (g : Ledger) : Prop := {
  lo_clients : lg_activeClients g = tally counted (lg_clients g);
  lo_direct : lg_activeDirect g = tally (open_lease Direct) (lg_upstreams g);
  lo_derived : lg_activeDerived g = tally (open_lease Derived) (lg_upstreams g);
  lo_client : ∀ i c, lg_clients g !! i = Some c → client_ok limits (lg_upstreams g) i c;
  lo_leases : ∀ u, u ∈ lg_upstreams g → (up_client u < length (lg_clients g))%nat;
  lo_max_clients : lg_activeClients g ≤ maxConcurrentClients limits;
  lo_max_direct : lg_activeDirect g ≤ maxConcurrentClients limits;
  lo_max_derived : lg_activeDerived g ≤ maxConcurrentDerived limits;
  lo_bytes : lg_transferredBytes g = tally cl_bytes (lg_clients g);
  lo_attempts : lg_attempts g = lg_clientAttempts g + lg_derivedAttempts g;
  lo_tokens : (0 <= lg_tokens g)%Qc;
  lo_burst : (lg_tokens g <= qc_of_Z (attemptBurst limits))%Qc
}.

Record limits_ok (limits : PackageEgressLimits) : Prop := {
  li_clients : 0 < maxConcurrentClients limits;
  li_derivedPer : 0 < maxDerivedPerClient limits;
  li_derived : 0 < maxConcurrentDerived limits;
  li_combined : maxConcurrentClients limits + maxConcurrentDerived limits ≤ maxConcurrentUpstreams limits;
  li_burst : (0 < qc_of_Z (attemptBurst limits))%Qc;
  li_rate : (0 < attemptRefillPerSecond limits)%Qc
}.

Lemma qc_of_Z_pos z : (qc_of_Z 0 < qc_of_Z z)%Qc → 0 < z.
Proof.
  unfold Qclt. rewrite !this_of_Z. unfold Qlt, inject_Z. cbn. lia.
Qed.

Lemma validateLimits_ok limits : validateLimits limits = Ok () → limits_ok limits.
Proof.
  unfold validateLimits. destruct (List.find _ (limit_entries limits)) as [[]|] eqn:Hf; [done|].
  destruct (List.find _ (integer_limits limits)) as [[]|]; [done|].
  repeat case_match; try done; intros _; bool_hyps.
  rewrite find_none_elem in Hf.
  assert (Hin : ∀ e, e ∈ limit_entries limits → (qc_of_Z 0 < e.2)%Qc).
  { intros e He. specialize (Hf e He). apply negb_false_iff in Hf. by apply qc_lt_spec. }
  assert (Hint : ∀ name z, (name, qc_of_Z z) ∈ limit_entries limits → 0 < z)
    by (intros name z He; apply qc_of_Z_pos, (Hin _ He)).
  constructor.
  - apply (Hint "maxConcurrentClients"). by apply (list_elem_of_lookup_2 _ 3).
  - apply (Hint "maxDerivedPerClient"). by apply (list_elem_of_lookup_2 _ 4).
  - apply (Hint "maxConcurrentDerived"). by apply (list_elem_of_lookup_2 _ 5).
  - lia.
  - apply (Hin ("attemptBurst", qc_of_Z (attemptBurst limits))). by apply (list_elem_of_lookup_2 _ 1).
  - apply (Hin ("attemptRefillPerSecond", attemptRefillPerSecond limits)). by apply (list_elem_of_lookup_2 _ 2).
Qed.

Lemma create_ok limits now g :
  createPackageEgressLedger limits now = Ok g → limits_ok limits ∧ ledger_ok limits g.
Proof.
  unfold createPackageEgressLedger. destruct (validateLimits limits) as [[]|] eqn:Hv; [|done]. intros [= <-].
  apply validateLimits_ok in Hv as Hl. split; [done|]. destruct Hl.
  constructor; csimpl; try done; try lia; try (by intros ? ?%elem_of_nil); try apply Qcle_refl; by apply Qclt_le_weak.
Qed.

(** ** The token bucket *)

Lemma qc_min_l a b : (qc_min a b <= a)%Qc.
Proof. unfold qc_min. destruct (qc_lt b a) eqn:E; [apply qc_lt_spec in E; by apply Qclt_le_weak|apply Qcle_refl]. Qed.

Lemma qc_min_r a b : (qc_min a b <= b)%Qc.
Proof.
  unfold qc_min, qc_lt. destruct (qc_le a b) eqn:E; cbn; [by apply qc_le_spec|apply Qcle_refl].
Qed.

Lemma qc_max_r a b : (b <= qc_max a b)%Qc.
Proof.
  unfold qc_max, qc_lt. destruct (qc_le b a) eqn:E; cbn; [by apply qc_le_spec|apply Qcle_refl].
Qed.

Lemma qc_min_cases a b : qc_min a b = a ∧ (a <= b)%Qc ∨ qc_min a b = b ∧ (b <= a)%Qc.
Proof.
  unfold qc_min, qc_lt. destruct (qc_le a b) eqn:E; cbn; [left; by apply qc_le_spec in E|right].
  split; [done|]. apply Qclt_le_weak, qc_lt_spec. unfold qc_lt. by rewrite E.
Qed.

Lemma qc_max_0 d : (0 <= d)%Qc → qc_max (qc_of_Z 0) d = d.
Proof.
  intros Hd. unfold qc_max, qc_lt. destruct (qc_le d (qc_of_Z 0)) eqn:E; cbn; [|done].
  apply qc_le_spec in E. apply Qcle_antisym; [done|]. exact E.
Qed.

Lemma Qc_sub_nonneg a b : (a <= b)%Qc → (0 <= b - a)%Qc.
Proof. intros H. apply -> Qcle_minus_iff. exact H. Qed.

Section bucket.
Context (limits : PackageEgressLimits) (Hl : limits_ok limits).

Definition earned (ms : Qc) : Qc := (ms / qc_of_Z 1000 * attemptRefillPerSecond limits)%Qc.

Lemma earned_plus a b : earned (a + b)%Qc = (earned a + earned b)%Qc.
Proof. unfold earned, Qcdiv. ring. Qed.

Lemma earned_nonneg d : (0 <= d)%Qc → (0 <= earned d)%Qc.
Proof.
  intros Hd. unfold earned.
  assert (Hr : (0 <= attemptRefillPerSecond limits)%Qc) by (apply Qclt_le_weak, Hl).
  assert (Hk : (0 <= d / qc_of_Z 1000)%Qc).
  { unfold Qcdiv. replace 0%Qc with (0 * / qc_of_Z 1000)%Qc by ring. apply Qcmult_le_compat_r; [done|]. by vm_compute. }
  replace 0%Qc with (0 * attemptRefillPerSecond limits)%Qc by ring. by apply Qcmult_le_compat_r.
Qed.

(** What a refill at [t] would leave. *)
Definition available (g : Ledger) (t : Qc) : Qc :=
  qc_min (qc_of_Z (attemptBurst limits)) (lg_tokens g + earned (qc_max (qc_of_Z 0) (t - lg_lastRefill g)%Qc))%Qc.

Lemma available_burst g t : (available g t <= qc_of_Z (attemptBurst limits))%Qc.
Proof. apply qc_min_l. Qed.

Lemma available_now g : (lg_tokens g <= qc_of_Z (attemptBurst limits))%Qc → available g (lg_lastRefill g) = lg_tokens g.
Proof.
  intros Hb. unfold available. replace (lg_lastRefill g - lg_lastRefill g)%Qc with 0%Qc by ring.
  rewrite qc_max_0 by apply Qcle_refl. replace (lg_tokens g + earned 0)%Qc with (lg_tokens g) by (unfold earned, Qcdiv; ring).
  destruct (qc_min_cases (qc_of_Z (attemptBurst limits)) (lg_tokens g)) as [[-> ?]|[-> _]]; [|done].
  by apply Qcle_antisym.
Qed.

Lemma available_later g t u :
  (lg_lastRefill g <= t)%Qc → (t <= u)%Qc → (available g u <= available g t + earned (u - t))%Qc.
Proof.
  intros Ht Hu. unfold available.
  rewrite !qc_max_0 by (apply Qc_sub_nonneg; first [done|by eapply Qcle_trans]).
  replace (u - lg_lastRefill g)%Qc with ((t - lg_lastRefill g) + (u - t))%Qc by ring. rewrite earned_plus.
  pose proof (earned_nonneg _ (Qc_sub_nonneg t u Hu)) as He. fold (Qcminus u t) in *.
  set (x := earned (u - t)%Qc) in *. set (y := earned (t - lg_lastRefill g)%Qc).
  set (b := qc_of_Z (attemptBurst limits)). clearbody x y b.
  destruct (qc_min_cases b (lg_tokens g + (y + x))) as [[-> ?]|[-> ?]],
    (qc_min_cases b (lg_tokens g + y)) as [[-> ?]|[-> ?]]; qc_lra.
Qed.
(** A paid attempt takes one of the tokens that are available at its time. *)
Lemma consume_available kind now g g' r :
  consumeAttempt limits kind now g = (g', r) →
  lg_lastRefill g' = now
  ∧ (lg_tokens g' + qc_of_Z (match r with Ok _ => 1 | Throw _ => 0 end))%Qc = available g now
  ∧ (match r with Ok _ => (qc_of_Z 0 <= lg_tokens g')%Qc | Throw _ => True end).
Proof.
  assert (H0 : ∀ x : Qc, (x + qc_of_Z 0)%Qc = x).
  { intros x. change (qc_of_Z 0) with 0%Qc. ring. }
  unfold consumeAttempt, available, earned. destruct kind; cbv zeta; repeat case_match; intros; simplify_eq; csimpl;
    (split; [done|]; split; [rewrite ?H0; ring || done|]); try done.
  all: match goal with H : qc_lt _ (qc_of_Z 1) = false |- _ =>
    unfold qc_lt in H; apply negb_false_iff, qc_le_spec in H; cbn in H end.
  all: unfold Qcle in *; rewrite this_minus; rewrite !this_of_Z in *; change (inject_Z 1) with 1%Q in *;
    change (inject_Z 0) with 0%Q; lra.
Qed.

Lemma available_nonneg g t : (0 <= lg_tokens g)%Qc → (0 <= available g t)%Qc.
Proof.
  intros Ht. unfold available.
  assert (Hm : (0 <= qc_max (qc_of_Z 0) (t - lg_lastRefill g)%Qc)%Qc).
  { unfold qc_max. destruct (qc_lt (qc_of_Z 0) _) eqn:E; [|apply Qcle_refl].
    by apply Qclt_le_weak, qc_lt_spec. }
  pose proof (earned_nonneg _ Hm). pose proof (li_burst _ Hl).
  destruct (qc_min_cases (qc_of_Z (attemptBurst limits))
    (lg_tokens g + earned (qc_max (qc_of_Z 0) (t - lg_lastRefill g)%Qc))) as [[-> _]|[-> _]]; qc_lra.
Qed.

End bucket.

(** ** Every operation preserves it *)

Section preservation.
Context (limits : PackageEgressLimits) (Hl : limits_ok limits).

(** The fields that an operation leaves alone. *)
Definition same_accounts (g g' : Ledger) : Prop :=
  lg_activeClients g' = lg_activeClients g ∧ lg_activeDirect g' = lg_activeDirect g
  ∧ lg_activeDerived g' = lg_activeDerived g ∧ lg_transferredBytes g' = lg_transferredBytes g
  ∧ lg_clients g' = lg_clients g ∧ lg_upstreams g' = lg_upstreams g.

Lemma consume_accounts kind now g g' r : consumeAttempt limits kind now g = (g', r) → same_accounts g g'.
Proof. unfold consumeAttempt. destruct kind; cbv zeta; repeat case_match; intros; simplify_eq; done. Qed.

Lemma consume_ok kind now g g' r :
  consumeAttempt limits kind now g = (g', r) → ledger_ok limits g → ledger_ok limits g'.
Proof.
  intros Hc Hg. pose proof Hg as [].
  destruct (consume_available limits _ _ _ _ _ Hc) as (Hlast & Heq & Hpos).
  assert (Htok : (0 <= lg_tokens g')%Qc).
  { destruct r; [exact Hpos|]. change (qc_of_Z 0) with 0%Qc in Heq. rewrite Qcplus_0_r in Heq. rewrite Heq.
    by apply available_nonneg. }
  assert (Hb : (lg_tokens g' <= qc_of_Z (attemptBurst limits))%Qc).
  { eapply Qcle_trans; [|apply (available_burst limits g now)]. rewrite <-Heq. unfold Qcle.
    rewrite this_plus, this_of_Z. destruct r; [change (inject_Z 1) with 1%Q|change (inject_Z 0) with 0%Q]; lra. }
  destruct (consume_accounts _ _ _ _ _ Hc) as (Ha & Hd & Hv & Hby & Hcl & Hu).
  assert (lg_attempts g' = lg_clientAttempts g' + lg_derivedAttempts g').
  { clear - Hc lo_attempts0. unfold consumeAttempt, refill in Hc.
    destruct kind; cbv zeta in Hc; repeat case_match; simplify_eq; cbn; lia. }
  constructor; rewrite ?Ha, ?Hd, ?Hv, ?Hby, ?Hcl, ?Hu; done.
Qed.

(** One client changes, with the leases that are its own. *)
Lemma update_client_ok g g' i c c' :
  ledger_ok limits g → lg_clients g !! i = Some c → lg_clients g' = <[i := c']> (lg_clients g) →
  (∀ j d, j ≠ i → client_ok limits (lg_upstreams g) j d → client_ok limits (lg_upstreams g') j d) →
  client_ok limits (lg_upstreams g') i c' →
  counted c' ≤ counted c → lg_activeClients g' = lg_activeClients g - counted c + counted c' →
  lg_activeDirect g' = tally (open_lease Direct) (lg_upstreams g') →
  lg_activeDerived g' = tally (open_lease Derived) (lg_upstreams g') →
  lg_activeDirect g' ≤ maxConcurrentClients limits → lg_activeDerived g' ≤ maxConcurrentDerived limits →
  (∀ u, u ∈ lg_upstreams g' → u ∈ lg_upstreams g ∨ up_client u = i ∨ ∃ v, v ∈ lg_upstreams g ∧ up_client u = up_client v) →
  lg_transferredBytes g' = lg_transferredBytes g - cl_bytes c + cl_bytes c' →
  lg_attempts g' = lg_attempts g → lg_clientAttempts g' = lg_clientAttempts g →
  lg_derivedAttempts g' = lg_derivedAttempts g → lg_tokens g' = lg_tokens g →
  ledger_ok limits g'.
Proof.
  intros [] Hi Hcl Hothers Hc' Hcount Hact Hdirect Hderived Hmd Hmv Hups Hbytes Ha1 Ha2 Ha3 Ht.
  assert (i < length (lg_clients g))%nat by by eapply lookup_lt_Some.
  constructor; rewrite ?Hcl, ?Ha1, ?Ha2, ?Ha3, ?Ht; try done.
  - rewrite (tally_insert counted _ _ c) by done. lia.
  - intros j d Hj. apply list_lookup_insert_Some in Hj as [(-> & -> & _)|(Hne & Hj)]; [done|]. auto.
  - intros u [Hu|[->|(v & Hv & ->)]]%Hups; rewrite length_insert; auto.
  - lia.
  - rewrite (tally_insert cl_bytes _ _ c) by done. lia.
Qed.

Lemma charge_ok i count g g' r : charge limits i count g = (g', r) → ledger_ok limits g → ledger_ok limits g'.
Proof.
  unfold charge. intros Hc Hg. destruct (_ || _) eqn:Hcount; [by simplify_eq|]. apply orb_false_iff in Hcount as [Hcount _].
  destruct (lg_clients g !! i) as [c|] eqn:Hi; [|by simplify_eq]. simplify_eq.
  pose proof (lo_client _ _ Hg i c Hi) as [].
  pose proof Hg as []. apply (update_client_ok g _ i c (set_client (cl_active c) (cl_counted c) (cl_activeUpstreams c)
    (cl_derivedAttempts c) (cl_bytes c + count))); csimpl; try done; try lia; try (unfold counted; csimpl; lia); [|auto].
  constructor; csimpl; try done; lia.
Qed.

Lemma client_ok_more ups u j c : up_client u ≠ j → client_ok limits ups j c → client_ok limits (ups ++ [u]) j c.
Proof.
  intros Hne []. constructor; try done. rewrite tally_snoc. unfold open_for at 2.
  rewrite (proj2 (Nat.eqb_neq (up_client u) j) Hne), andb_false_r. lia.
Qed.

Lemma take_slot_ok i kind g g' r :
  take_slot limits i kind g = (g', r) → client_active i g = true → ledger_ok limits g → ledger_ok limits g'.
Proof.
  unfold take_slot, client_active. intros Ht Hact Hg. destruct (lg_clients g !! i) as [c|] eqn:Hi; [|done].
  destruct (_ <=? _) eqn:H1 in Ht; [by simplify_eq|]. destruct (match kind with Direct => _ | _ => _ end) eqn:H2 in Ht; [by simplify_eq|].
  destruct (match kind with Direct => false | _ => _ end) eqn:H3 in Ht; [by simplify_eq|].
  destruct (match kind with Direct => false | _ => _ end) eqn:H4 in Ht; [by simplify_eq|]. simplify_eq.
  pose proof (lo_client _ _ Hg i c Hi) as []. pose proof Hg as [].
  assert (0 ≤ tally (open_for i) (lg_upstreams g)).
  { apply tally_nonneg, open_for_nonneg. }
  set (extra := match kind with Derived => 1 | Direct => 0 end) in *.
  apply (update_client_ok g _ i c (set_client (cl_active c) (cl_counted c) (cl_activeUpstreams c + 1)
    (cl_derivedAttempts c + extra) (cl_bytes c))); csimpl; try done; try lia; rewrite ?tally_snoc;
    try (unfold counted; csimpl; lia); try (unfold open_lease at 2; destruct kind; csimpl; lia);
    try (destruct kind; lia).
  - intros j d Hne Hd. by apply client_ok_more.
  - constructor; csimpl.
    + rewrite tally_snoc, co_upstreams0. unfold open_for at 3. csimpl. rewrite Nat.eqb_refl. lia.
    + rewrite co_counted0, Hact. done.
    + destruct kind; lia.
    + done.
  - intros u [?|Hu]%elem_of_app; [by left|]. apply list_elem_of_singleton in Hu as ->. by right; left.
Qed.

Lemma admitUpstream_ok i kind now g g' r :
  admitUpstream limits i kind now g = (g', r) → ledger_ok limits g → ledger_ok limits g'.
Proof.
  unfold admitUpstream. intros Ha Hg. destruct (client_active i g) eqn:Hact; [|by simplify_eq/=]. cbn [negb] in Ha.
  destruct (lg_stopped g); [by simplify_eq|]. destruct kind; [by eapply take_slot_ok|].
  destruct (consumeAttempt limits Derived now g) as [g1 [[]|e]] eqn:Hc; [|simplify_eq; by eapply consume_ok].
  eapply take_slot_ok; [done| |by eapply consume_ok].
  apply consume_accounts in Hc as (_ & _ & _ & _ & Hcl & _). unfold client_active in *. by rewrite Hcl.
Qed.

Lemma admitClient_ok now g g' r : admitClient limits now g = (g', r) → ledger_ok limits g → ledger_ok limits g'.
Proof.
  unfold admitClient. intros Ha Hg.
  destruct (consumeAttempt limits Direct now g) as [g1 [[]|e]] eqn:Hc;
    apply consume_ok in Hc; [|done|by simplify_eq|done].
  destruct (_ <=? _) eqn:Hmax; [by simplify_eq|]. simplify_eq. destruct Hc.
  constructor; csimpl; try done; try lia.
  - rewrite tally_snoc, lo_clients0. done.
  - intros j d [Hj|[Hge Hj]]%lookup_app_Some; [auto|].
    apply list_lookup_singleton_Some in Hj as [Hj <-].
    assert (H0 : tally (open_for j) (lg_upstreams g1) = 0).
    { rewrite (tally_ext _ (λ _, 0)); [apply tally_zero|].
      intros u Hu. unfold open_for. specialize (lo_leases0 u Hu).
      rewrite (proj2 (Nat.eqb_neq (up_client u) j)), andb_false_r; [done|lia]. }
    destruct Hl. constructor; csimpl; try done; lia.
  - intros u Hu. rewrite length_app. specialize (lo_leases0 u Hu). lia.
  - rewrite tally_snoc, lo_bytes0. cbn. lia.
Qed.

(** The slot of a released client is freed with its last lease. *)
Lemma settle_ok g g1 i c c' :
  ledger_ok limits g → lg_clients g !! i = Some c → lg_clients g1 = lg_clients g →
  (∀ j d, j ≠ i → client_ok limits (lg_upstreams g) j d → client_ok limits (lg_upstreams g1) j d) →
  cl_activeUpstreams c' = tally (open_for i) (lg_upstreams g1) →
  cl_counted c' = cl_counted c → cl_derivedAttempts c' = cl_derivedAttempts c → cl_bytes c' = cl_bytes c →
  (cl_active c' = true → cl_active c = true) → (0 < cl_activeUpstreams c' → 0 < cl_activeUpstreams c) →
  lg_activeClients g1 = lg_activeClients g →
  lg_activeDirect g1 = tally (open_lease Direct) (lg_upstreams g1) →
  lg_activeDerived g1 = tally (open_lease Derived) (lg_upstreams g1) →
  lg_activeDirect g1 ≤ maxConcurrentClients limits → lg_activeDerived g1 ≤ maxConcurrentDerived limits →
  (∀ u, u ∈ lg_upstreams g1 → ∃ v, v ∈ lg_upstreams g ∧ up_client u = up_client v) →
  lg_transferredBytes g1 = lg_transferredBytes g → lg_attempts g1 = lg_attempts g →
  lg_clientAttempts g1 = lg_clientAttempts g → lg_derivedAttempts g1 = lg_derivedAttempts g →
  lg_tokens g1 = lg_tokens g → ledger_ok limits (settle_client i c' g1).
Proof.
  intros Hg Hi Hcl Hothers Hup Hcnt Hder Hby Hact Hpos Hac Hd Hv Hmd Hmv Hups Hb Ha1 Ha2 Ha3 Ht.
  pose proof (lo_client _ _ Hg i c Hi) as [].
  assert (0 ≤ cl_activeUpstreams c') by (rewrite Hup; apply tally_nonneg, open_for_nonneg).
  assert (Hups' : ∀ u, u ∈ lg_upstreams g1 →
    u ∈ lg_upstreams g ∨ up_client u = i ∨ ∃ v, v ∈ lg_upstreams g ∧ up_client u = up_client v) by auto.
  unfold settle_client. destruct (negb (cl_active c') && cl_counted c' && (cl_activeUpstreams c' =? 0)) eqn:E.
  - apply andb_true_iff in E as [[Hna%negb_true_iff Hc']%andb_true_iff Hz%bool_decide_eq_true].
    apply (update_client_ok g _ i c (set_client (cl_active c') false (cl_activeUpstreams c') (cl_derivedAttempts c')
      (cl_bytes c'))); csimpl; rewrite ?Hcl; try done; try lia; unfold counted; csimpl; rewrite <-?Hcnt, ?Hc'; try lia.
    constructor; csimpl; try done; try lia. by rewrite Hna, Hz.
  - apply (update_client_ok g _ i c c'); csimpl; rewrite ?Hcl; try done; try lia;
      unfold counted; rewrite ?Hcnt; try lia.
    constructor; try lia. rewrite Hcnt in E |- *. rewrite co_counted0 in E |- *.
    destruct (cl_active c'), (cl_active c), (Z.ltb_spec 0 (cl_activeUpstreams c)),
      (Z.ltb_spec 0 (cl_activeUpstreams c')); cbn in E |- *; try done; try (exfalso; by auto);
      try (exfalso; lia); apply bool_decide_eq_false in E; lia.
Qed.
Lemma release_client_ok i g : ledger_ok limits g → ledger_ok limits (release_client i g).
Proof.
  intros Hg. unfold release_client. destruct (lg_clients g !! i) as [c|] eqn:Hi; [|done].
  destruct (cl_active c) eqn:Ha; cbn [negb]; [|done]. pose proof (lo_client _ _ Hg i c Hi) as []. pose proof Hg as [].
  apply (settle_ok g g i c); csimpl; try done. intros u Hu. by exists u.
Qed.

(** Releasing a lease takes it out of every tally it was in. *)
Lemma release_tally (f : UpstreamLease → Z) (ups : list UpstreamLease) k u u' :
  ups !! k = Some u → f u' = 0 → tally f (<[k := u']> ups) = tally f ups - f u.
Proof. intros Hk Hf. rewrite (tally_insert f _ _ u) by done. lia. Qed.

Lemma release_upstream_ok k g : ledger_ok limits g → ledger_ok limits (release_upstream k g).
Proof.
  intros Hg. unfold release_upstream. destruct (lg_upstreams g !! k) as [u|] eqn:Hk; [|done].
  destruct (up_released u) eqn:Hr; [done|]. destruct (lg_clients g !! up_client u) as [c|] eqn:Hi; [|done].
  set (u' := {| up_client := up_client u; up_kind := up_kind u; up_released := true |}).
  set (derived := match up_kind u with Derived => 1 | Direct => 0 end).
  pose proof (lo_client _ _ Hg _ c Hi) as []. pose proof Hg as [].
  assert (Hf : ∀ j, tally (open_for j) (<[k := u']> (lg_upstreams g))
    = tally (open_for j) (lg_upstreams g) - if (up_client u =? j)%nat then 1 else 0).
  { intros j. rewrite (release_tally _ _ _ u) by done. unfold open_for at 2. by rewrite Hr. }
  assert (Hl1 : ∀ kind, tally (open_lease kind) (<[k := u']> (lg_upstreams g))
    = tally (open_lease kind) (lg_upstreams g) - if up_kind u =? kind then 1 else 0).
  { intros kind. rewrite (release_tally _ _ _ u) by done. unfold open_lease at 2. by rewrite Hr. }
  assert (Hself : (if (up_client u =? up_client u)%nat then 1 else 0) = 1) by by rewrite Nat.eqb_refl.
  apply (settle_ok g _ (up_client u) c); csimpl; rewrite ?Hf, ?Hl1, ?Hself; try done; try lia.
  - intros j d Hne []. constructor; try done. csimpl. rewrite Hf, (proj2 (Nat.eqb_neq (up_client u) j)) by done. lia.
  - subst derived. destruct (up_kind u); case_bool_decide; done || lia.
  - subst derived. destruct (up_kind u); case_bool_decide; done || lia.
  - subst derived. destruct (up_kind u); lia.
  - subst derived. destruct (up_kind u); lia.
  - intros v [->|Hv]%elem_of_insert_inv; [|by exists v]. exists u. split; [|done]. by eapply list_elem_of_lookup_2.
Qed.

Lemma stop_ok g : ledger_ok limits g → ledger_ok limits (stop g).
Proof. by intros []. Qed.

Lemma apply_op_ok now op g : ledger_ok limits g → ledger_ok limits (apply_op limits now op g).1.
Proof.
  intros Hg. destruct op; cbn [apply_op to_outcome fst].
  - destruct (admitClient limits now g) eqn:E. by eapply admitClient_ok.
  - destruct (admitUpstream limits client kind now g) eqn:E. by eapply admitUpstream_ok.
  - destruct (charge limits client count g) eqn:E. by eapply charge_ok.
  - unfold upstream_charge. destruct (_ !! _) as [u|]; [|done]. destruct (up_released u); [done|].
    destruct (charge limits (up_client u) count g) eqn:E. by eapply charge_ok.
  - by apply release_upstream_ok.
  - by apply release_client_ok.
  - by apply stop_ok.
Qed.

Lemma run_ops_ok ops g : ledger_ok limits g → ledger_ok limits (run_ops limits ops g).1.
Proof.
  revert g. induction ops as [|[now op] ops IH]; intros g Hg; [done|]. cbn [run_ops].
  pose proof (apply_op_ok now op g Hg) as H1. destruct (apply_op limits now op g) as [g1 o]. cbn in H1.
  specialize (IH g1 H1). by destruct (run_ops limits ops g1).
Qed.
End preservation.

(** ** The rate *)

(** Attempts that were paid for with a token. *)
Definition paid (op : LedgerOp) (o : Outcome) : Z :=
  match op, o with
  | AdmitClient, Leased _ | AdmitUpstream _ Derived, Leased _ => 1
  | _, _ => 0
  end.

Fixpoint paid_count (ops : list (Qc * LedgerOp)) (os : list Outcome) : Z :=
  match ops, os with
  | (_, op) :: ops, o :: os => paid op o + paid_count ops os
  | _, _ => 0
  end.

(** Times that do not decrease, from [t] to [u]. *)
Fixpoint clocked (t : Qc) (ops : list (Qc * LedgerOp)) (u : Qc) : Prop :=
  match ops with
  | [] => (t <= u)%Qc
  | (now, _) :: ops => (t <= now)%Qc ∧ clocked now ops u
  end.

Section rate.
Context (limits : PackageEgressLimits) (Hl : limits_ok limits).

Lemma available_fields g g' t :
  lg_tokens g' = lg_tokens g → lg_lastRefill g' = lg_lastRefill g → available limits g' t = available limits g t.
Proof. unfold available. by intros -> ->. Qed.

(** Operations that do not pay leave the bucket alone. *)
Lemma take_slot_bucket i kind g :
  let g' := (take_slot limits i kind g).1 in lg_tokens g' = lg_tokens g ∧ lg_lastRefill g' = lg_lastRefill g.
Proof. unfold take_slot. cbv zeta. repeat case_match; done. Qed.

Lemma charge_bucket i n g :
  let g' := (charge limits i n g).1 in lg_tokens g' = lg_tokens g ∧ lg_lastRefill g' = lg_lastRefill g.
Proof. unfold charge. cbv zeta. repeat case_match; done. Qed.

Lemma settle_bucket i c g :
  let g' := settle_client i c g in lg_tokens g' = lg_tokens g ∧ lg_lastRefill g' = lg_lastRefill g.
Proof. unfold settle_client. cbv zeta. repeat case_match; done. Qed.

Lemma release_upstream_bucket k g :
  let g' := release_upstream k g in lg_tokens g' = lg_tokens g ∧ lg_lastRefill g' = lg_lastRefill g.
Proof.
  cbv zeta. unfold release_upstream. destruct (_ !! _) as [u|]; [|done]. destruct (up_released u); [done|].
  destruct (_ !! _); [|done]. refine (settle_bucket _ _ _).
Qed.

Lemma release_client_bucket i g :
  let g' := release_client i g in lg_tokens g' = lg_tokens g ∧ lg_lastRefill g' = lg_lastRefill g.
Proof.
  cbv zeta. unfold release_client. destruct (_ !! _) as [c|]; [|done]. destruct (negb _); [done|].
  refine (settle_bucket _ _ _).
Qed.

(** Either the bucket is as it was and nothing was paid, or it was refilled at the time
    of the operation and what was paid is gone. *)
Lemma apply_op_bucket now op g g' o :
  apply_op limits now op g = (g', o) →
  (lg_tokens g' = lg_tokens g ∧ lg_lastRefill g' = lg_lastRefill g ∧ paid op o = 0)
  ∨ (lg_lastRefill g' = now ∧ (lg_tokens g' + qc_of_Z (paid op o) <= available limits g now)%Qc).
Proof.
  assert (Hz : ∀ x : Qc, (x + qc_of_Z 0 <= x + qc_of_Z 1)%Qc).
  { intros. unfold Qcle. rewrite !this_plus, !this_of_Z. change (inject_Z 1) with 1%Q. change (inject_Z 0) with 0%Q. lra. }
  destruct op; cbn [apply_op]; unfold to_outcome; intros [= <- <-]; csimpl.
  - right. unfold admitClient. destruct (consumeAttempt limits Direct now g) as [g1 r] eqn:Hc.
    destruct (consume_available limits _ _ _ _ _ Hc) as (Hlast & Heq & _). rewrite <-Heq.
    destruct r as [[]|e]; [|by split; [|apply Qcle_refl]]. destruct (_ <=? _); split; try done; try apply Qcle_refl.
    all: apply Hz.
  - unfold admitUpstream. destruct (negb _); [by left; destruct kind|]. destruct (lg_stopped g); [by left; destruct kind|].
    destruct kind; [left; destruct (take_slot_bucket client Direct g) as [-> ->]; done|]. right.
    destruct (consumeAttempt limits Derived now g) as [g1 r] eqn:Hc.
    destruct (consume_available limits _ _ _ _ _ Hc) as (Hlast & Heq & _). rewrite <-Heq.
    destruct r as [[]|e]; [|by split; [|apply Qcle_refl]].
    destruct (take_slot_bucket client Derived g1) as [-> ->]. split; [done|].
    destruct (take_slot limits client Derived g1).2; [apply Qcle_refl|apply Hz].
  - left. by destruct (charge_bucket client count g) as [-> ->].
  - left. unfold upstream_charge. destruct (_ !! _) as [u|]; [|done]. destruct (up_released u); [done|].
    by destruct (charge_bucket (up_client u) count g) as [-> ->].
  - left. by destruct (release_upstream_bucket upstream g) as [-> ->].
  - left. by destruct (release_client_bucket client g) as [-> ->].
  - by left.
Qed.

(** Paid attempts between [t] and [u]: what is available at [t], and what is earned. *)
Lemma paid_bounded ops g t u :
  ledger_ok limits g → (lg_lastRefill g <= t)%Qc → clocked t ops u →
  (qc_of_Z (paid_count ops (run_ops limits ops g).2) <= available limits g t + earned limits (u - t))%Qc.
Proof.
  revert g t. induction ops as [|[now op] ops IH]; intros g t Hg Hlast; cbn [clocked run_ops].
  - intros Htu. cbn [snd paid_count]. pose proof (earned_nonneg limits Hl _ (Qc_sub_nonneg t u Htu)) as He.
    pose proof (available_nonneg limits Hl g t (lo_tokens _ _ Hg)).
    change (qc_of_Z 0) with 0%Qc. qc_lra.
  - intros [Hnow Hops]. destruct (apply_op limits now op g) as [g1 o] eqn:Ho.
    pose proof (apply_op_ok limits Hl now op g Hg) as Hg1. rewrite Ho in Hg1. cbn [fst] in Hg1.
    pose proof (available_later limits Hl g t now Hlast Hnow) as Hav.
    assert (H1 : (lg_lastRefill g1 <= now)%Qc ∧ (available limits g1 now + qc_of_Z (paid op o) <= available limits g now)%Qc).
    { destruct (apply_op_bucket _ _ _ _ _ Ho) as [(Ht & Hr & ->)|[Hr Hp]].
      - rewrite (available_fields g g1) by done. rewrite Hr. split; [by eapply Qcle_trans|].
        change (qc_of_Z 0) with 0%Qc. rewrite Qcplus_0_r. apply Qcle_refl.
      - split; [rewrite Hr; apply Qcle_refl|]. pose proof (available_now limits g1 (lo_burst _ _ Hg1)) as Hav1.
        rewrite Hr in Hav1. by rewrite Hav1. }
    destruct H1 as [Hlast1 Hpaid]. specialize (IH g1 now Hg1 Hlast1 Hops).
    destruct (run_ops limits ops g1) as [g2 os]. cbn [snd paid_count] in *.
    assert (Hsum : earned limits (u - t) = (earned limits (u - now) + earned limits (now - t))%Qc) by (rewrite <-earned_plus; f_equal; ring).
    assert (Hz : qc_of_Z (paid op o + paid_count ops os) = (qc_of_Z (paid op o) + qc_of_Z (paid_count ops os))%Qc).
    { apply Qc_is_canon. rewrite this_plus, !this_of_Z. by rewrite inject_Z_plus. }
    rewrite Hsum, Hz. qc_lra.
Qed.

Lemma refilled_by ops g t u :
  (lg_lastRefill g <= t)%Qc → clocked t ops u → (lg_lastRefill (run_ops limits ops g).1 <= u)%Qc.
Proof.
  revert g t. induction ops as [|[now op] ops IH]; intros g t Hg; cbn [clocked run_ops].
  - intros Htu. by eapply Qcle_trans.
  - intros [Hnow Hops]. destruct (apply_op limits now op g) as [g1 o] eqn:Ho.
    assert (H1 : (lg_lastRefill g1 <= now)%Qc).
    { destruct (apply_op_bucket _ _ _ _ _ Ho) as [(_ & -> & _)|[-> _]]; [by eapply Qcle_trans|apply Qcle_refl]. }
    specialize (IH g1 now H1 Hops). by destruct (run_ops limits ops g1).
Qed.

(** *** The ceiling on attempts *)

Lemma consume_attempts kind now g g' r :
  consumeAttempt limits kind now g = (g', r) →
  lg_attempts g' = lg_attempts g + 1 ∧ (r = Ok () → lg_attempts g' ≤ maxAttempts limits).
Proof.
  unfold consumeAttempt, refill. destruct kind; cbv zeta; repeat case_match; intros; simplify_eq; cbn in *;
    (split; [done|]); intros; bool_hyps; done || lia.
Qed.

Lemma bucket_attempts g : ∀ i kind n c k,
  lg_attempts (take_slot limits i kind g).1 = lg_attempts g
  ∧ lg_attempts (charge limits i n g).1 = lg_attempts g
  ∧ lg_attempts (settle_client i c g) = lg_attempts g
  ∧ lg_attempts (release_upstream k g) = lg_attempts g
  ∧ lg_attempts (release_client i g) = lg_attempts g.
Proof.
  intros. unfold take_slot, charge, release_upstream, release_client, settle_client.
  repeat split; repeat case_match; done.
Qed.

Lemma apply_op_attempts now op g g' o :
  apply_op limits now op g = (g', o) →
  lg_attempts g ≤ lg_attempts g' ∧ lg_attempts g + paid op o ≤ lg_attempts g'
  ∧ (paid op o = 1 → lg_attempts g' ≤ maxAttempts limits).
Proof.
  destruct op; cbn [apply_op]; unfold to_outcome; intros [= <- <-]; csimpl.
  - unfold admitClient. destruct (consumeAttempt limits Direct now g) as [g1 r] eqn:Hc.
    destruct (consume_attempts _ _ _ _ _ Hc) as [Ha Hm]. destruct r as [[]|e]; [|cbn; lia].
    specialize (Hm eq_refl). destruct (_ <=? _); cbn; lia.
  - unfold admitUpstream. destruct (negb _); [cbn; destruct kind; lia|].
    destruct (lg_stopped g); [cbn; destruct kind; lia|].
    destruct kind; [destruct (bucket_attempts g client Direct 0 (set_client true true 0 0 0) O) as (-> & _); cbn; lia|].
    destruct (consumeAttempt limits Derived now g) as [g1 r] eqn:Hc.
    destruct (consume_attempts _ _ _ _ _ Hc) as [Ha Hm]. destruct r as [[]|e]; [|cbn; lia]. specialize (Hm eq_refl).
    destruct (bucket_attempts g1 client Derived 0 (set_client true true 0 0 0) O) as (-> & _).
    destruct (take_slot limits client Derived g1).2; cbn; lia.
  - destruct (bucket_attempts g client Direct count (set_client true true 0 0 0) O) as (_ & -> & _). lia.
  - unfold upstream_charge. destruct (_ !! _) as [u|]; [|cbn; lia]. destruct (up_released u); [cbn; lia|].
    destruct (bucket_attempts g (up_client u) Direct count (set_client true true 0 0 0) O) as (_ & -> & _). lia.
  - destruct (bucket_attempts g O Direct 0 (set_client true true 0 0 0) upstream) as (_ & _ & _ & -> & _). lia.
  - destruct (bucket_attempts g client Direct 0 (set_client true true 0 0 0) O) as (_ & _ & _ & _ & ->). lia.
  - cbn. lia.
Qed.

Lemma paid_0_1 op o : paid op o = 0 ∨ paid op o = 1.
Proof. destruct op as [|? []| | | | |], o; cbn; auto. Qed.

Lemma paid_attempts ops g :
  paid_count ops (run_ops limits ops g).2 ≤ Z.max 0 (maxAttempts limits - lg_attempts g).
Proof.
  revert g. induction ops as [|[now op] ops IH]; intros g; cbn [run_ops]; [cbn; lia|].
  destruct (apply_op limits now op g) as [g1 o] eqn:Ho. specialize (IH g1).
  destruct (apply_op_attempts _ _ _ _ _ Ho) as (H1 & H2 & H3). destruct (run_ops limits ops g1) as [g2 os].
  cbn [snd paid_count] in *. destruct (paid_0_1 op o) as [Hp|Hp]; rewrite Hp in *; [lia|]. specialize (H3 eq_refl). lia.
Qed.
End rate.
