(* ===== verification/StepLoop.v ===== *)
(** * The step-level loop detector

    Models src/session/step-loop-detector.ts: every completed execute_code step is
    classified by whether its code and its result are new, streaks of steps
    without a new result are counted, and long streaks warn and then block. *)

From S2P Require Import Prelude JsValue Hashing.

Inductive ProgressCategory := FullProgress | WorldChanged | Stuck | FullStagnation.

#[export] Instance ProgressCategory_eq_dec : EqDecision ProgressCategory.
Proof. solve_decision. Defined.

Definition category_name (c : ProgressCategory) : string :=
  match c with
  | FullProgress => "full_progress"
  | WorldChanged => "world_changed"
  | Stuck => "stuck"
  | FullStagnation => "full_stagnation"
  end.

Record BlockVerdict := { bv_message : string; bv_category : ProgressCategory }.

Inductive StepVerdict :=
| StepAllow
| StepWarn (message : string) (category : ProgressCategory)
| StepBlock (v : BlockVerdict).

Record Thresholds := { th_warn : Z; th_block : Z }.

Record StepLoopDetectorConfig := { lc_stagnation : Thresholds; lc_stuck : Thresholds }.

Definition DEFAULT_LOOP_CONFIG : StepLoopDetectorConfig :=
  {| lc_stagnation := {| th_warn := 3; th_block := 5 |};
     lc_stuck := {| th_warn := 5; th_block := 8 |} |}.

Record StepLoopDetector := {
  ld_config : StepLoopDetectorConfig;
  approachHashes : gset string;
  outcomeHashes : gset string;
  stagnationStreak : nat;
  stuckStreak : nat;
  blockVerdict : option BlockVerdict;    (** [blocked] holds when it is set *)
}.

Definition newStepLoopDetector (stagnation stuck : option Thresholds) : StepLoopDetector :=
  {| ld_config := {| lc_stagnation := default (lc_stagnation DEFAULT_LOOP_CONFIG) stagnation;
                     lc_stuck := default (lc_stuck DEFAULT_LOOP_CONFIG) stuck |};
     approachHashes := ∅; outcomeHashes := ∅;
     stagnationStreak := 0; stuckStreak := 0; blockVerdict := None |}.

Definition isBlocked (d : StepLoopDetector) : option BlockVerdict := blockVerdict d.

Definition resetDetector (d : StepLoopDetector) : StepLoopDetector :=
  {| ld_config := ld_config d; approachHashes := ∅; outcomeHashes := ∅;
     stagnationStreak := 0; stuckStreak := 0; blockVerdict := None |}.

Definition classify (isNewApproach isNewOutcome : bool) : ProgressCategory :=
  if isNewApproach && isNewOutcome then FullProgress
  else if negb isNewApproach && isNewOutcome then WorldChanged
  else if isNewApproach && negb isNewOutcome then Stuck
  else FullStagnation.

(** [updateStreaks]: the new stagnation and stuck streaks. *)
Definition updateStreaks (category : ProgressCategory) (stagnation stuck : nat) : nat * nat :=
  match category with
  | FullProgress | WorldChanged => (0, 0)
  | Stuck => (0, S stuck)
  | FullStagnation => (S stagnation, 0)
  end.

Definition reached (streak : nat) (limit : Z) : bool := bool_decide (limit ≤ Z.of_nat streak)%Z.

Definition of_limit (streak : nat) (limit : Z) : string :=
  "(" +:+ show_nat streak +:+ "/" +:+ show_Z limit +:+ " before block)".

Definition checkThresholds (config : StepLoopDetectorConfig) (stagnation stuck : nat) : StepVerdict :=
  if reached stagnation (th_block (lc_stagnation config)) then
    StepBlock {| bv_message :=
      "LOOP DETECTED: You have been repeating the same code with the same result. " +:+
      "Execution is now blocked. Summarize what you have accomplished and stop.";
      bv_category := FullStagnation |}
  else if reached stuck (th_block (lc_stuck config)) then
    StepBlock {| bv_message :=
      "LOOP DETECTED: You keep trying different approaches but getting the same result. " +:+
      "Execution is now blocked. Summarize what you have accomplished and stop.";
      bv_category := Stuck |}
  else if reached stagnation (th_warn (lc_stagnation config)) then
    StepWarn ("WARNING: You are repeating the same code with the same result. " +:+
      "Try a fundamentally different approach. " +:+
      of_limit stagnation (th_block (lc_stagnation config))) FullStagnation
  else if reached stuck (th_warn (lc_stuck config)) then
    StepWarn ("WARNING: Different approaches are producing the same result. " +:+
      "Re-examine your assumptions. " +:+
      of_limit stuck (th_block (lc_stuck config))) Stuck
  else StepAllow.

(** [analyzeStep] on the two hashes of a step. *)
Definition analyzeHashes (d : StepLoopDetector) (approachHash outcomeHash : string)
    : StepLoopDetector * StepVerdict :=
  let isNewApproach := bool_decide (approachHash ∉ approachHashes d) in
  let isNewOutcome := bool_decide (outcomeHash ∉ outcomeHashes d) in
  let category := classify isNewApproach isNewOutcome in
  let '(stagnation, stuck) := updateStreaks category (stagnationStreak d) (stuckStreak d) in
  let verdict := checkThresholds (ld_config d) stagnation stuck in
  ({| ld_config := ld_config d;
      approachHashes := {[approachHash]} ∪ approachHashes d;
      outcomeHashes := {[outcomeHash]} ∪ outcomeHashes d;
      stagnationStreak := stagnation; stuckStreak := stuck;
      blockVerdict := match verdict with StepBlock v => Some v | _ => blockVerdict d end |},
   verdict).

Definition analyzeStep `{Runtime} (d : StepLoopDetector) (code : string) (result : jsvalue)
    : StepLoopDetector * StepVerdict :=
  analyzeHashes d (computeHash (VStr code)) (computeHash result).

(** ** The history of a detector *)

(** The hashes of a step: its approach and its outcome. *)
Abbreviation step_hashes := (string * string)%type.

Definition run_steps (d : StepLoopDetector) (steps : list step_hashes) : StepLoopDetector :=
  foldl (λ d s, (analyzeHashes d s.1 s.2).1) d steps.

Definition hash_step `{Runtime} (s : string * jsvalue) : step_hashes :=
  (computeHash (VStr s.1), computeHash s.2).

(** Analysing steps given by their code and result. *)
Definition analyzeSteps `{Runtime} (d : StepLoopDetector) (steps : list (string * jsvalue))
    : StepLoopDetector :=
  foldl (λ d s, (analyzeStep d s.1 s.2).1) d steps.

Lemma analyzeSteps_hashes `{Runtime} d steps :
  analyzeSteps d steps = run_steps d (hash_step <$> steps).
Proof. revert d. induction steps as [|s steps IH]; intros d; [done|]. apply IH. Qed.

(** The category of a step that follows [earlier]: its hashes against those of
    all earlier steps. *)
Definition category_after (earlier : list step_hashes) (s : step_hashes) : ProgressCategory :=
  classify (bool_decide (s.1 ∉ earlier.*1)) (bool_decide (s.2 ∉ earlier.*2)).

Fixpoint categories_from (earlier steps : list step_hashes) : list ProgressCategory :=
  match steps with
  | [] => []
  | s :: steps => category_after earlier s :: categories_from (earlier ++ [s]) steps
  end.

Definition categories (steps : list step_hashes) : list ProgressCategory := categories_from [] steps.

Lemma categories_from_snoc earlier steps s :
  categories_from earlier (steps ++ [s]) =
  categories_from earlier steps ++ [category_after (earlier ++ steps) s].
Proof.
  revert earlier. induction steps as [|s' steps IH]; intros earlier; simpl.
  - by rewrite app_nil_r.
  - by rewrite IH, <-app_assoc.
Qed.

Lemma categories_snoc steps s :
  categories (steps ++ [s]) = categories steps ++ [category_after steps s].
Proof. apply categories_from_snoc. Qed.

Lemma run_steps_snoc d steps s :
  run_steps d (steps ++ [s]) = (analyzeHashes (run_steps d steps) s.1 s.2).1.
Proof. unfold run_steps. by rewrite foldl_app. Qed.

(** [n] times [c] at the end of [l]. *)
Abbreviation ends_with n c l := (replicate n c `suffix_of` l).

Lemma ends_with_0 c (l : list ProgressCategory) : ends_with 0 c l.
Proof. exists l. by rewrite app_nil_r. Qed.

Lemma ends_with_snoc n c x (l : list ProgressCategory) :
  ends_with (S n) c (l ++ [x]) ↔ x = c ∧ ends_with n c l.
Proof.
  rewrite replicate_S_end. split.
  - intros [k Hk]. rewrite app_assoc in Hk. apply app_inj_tail in Hk as [-> ->]. split; [done|].
    by exists k.
  - intros [-> [k ->]]. exists k. by rewrite app_assoc.
Qed.

Definition counts (c : ProgressCategory) (streak : nat) (l : list ProgressCategory) : Prop :=
  ∀ n, n ≤ streak ↔ ends_with n c l.

Lemma counts_nil c : counts c 0 [].
Proof.
  intros [|n]; [split; [intros _; apply ends_with_0|lia]|]. split; [lia|].
  intros [k Hk]. destruct k; discriminate.
Qed.

Lemma counts_hit c streak l : counts c streak l → counts c (S streak) (l ++ [c]).
Proof.
  intros Hc [|n]; [split; [intros _; apply ends_with_0|lia]|].
  rewrite ends_with_snoc, <-(Hc n). split; [split; [done|lia]|intros [_ ?]; lia].
Qed.

Lemma counts_miss c x l : x ≠ c → counts c 0 (l ++ [x]).
Proof.
  intros Hx [|n]; [split; [intros _; apply ends_with_0|lia]|].
  rewrite ends_with_snoc. split; [lia|]. by intros [? _].
Qed.

Lemma counts_update category stagnation stuck l :
  counts FullStagnation stagnation l → counts Stuck stuck l →
  let '(stagnation', stuck') := updateStreaks category stagnation stuck in
  counts FullStagnation stagnation' (l ++ [category]) ∧ counts Stuck stuck' (l ++ [category]).
Proof.
  intros Hs Ht. destruct category; simpl; split;
    first [by apply counts_hit | by apply counts_miss].
Qed.

(** Where a run of a category reaches a threshold. *)
Definition over_limit (config : StepLoopDetectorConfig) (l : list ProgressCategory) : Prop :=
  ends_with (Z.to_nat (th_block (lc_stagnation config))) FullStagnation l
  ∨ ends_with (Z.to_nat (th_block (lc_stuck config))) Stuck l.

Lemma reached_counts streak limit c l :
  counts c streak l → reached streak limit = true ↔ ends_with (Z.to_nat limit) c l.
Proof. intros Hc. unfold reached. rewrite bool_decide_eq_true, <-(Hc (Z.to_nat limit)). lia. Qed.

Lemma checkThresholds_block config stagnation stuck l :
  counts FullStagnation stagnation l → counts Stuck stuck l →
  (∃ v, checkThresholds config stagnation stuck = StepBlock v) ↔ over_limit config l.
Proof.
  intros Hs Ht. unfold over_limit, checkThresholds.
  rewrite <-(reached_counts _ (th_block (lc_stagnation config)) _ _ Hs).
  rewrite <-(reached_counts _ (th_block (lc_stuck config)) _ _ Ht).
  destruct (reached stagnation (th_block (lc_stagnation config))); [naive_solver|].
  destruct (reached stuck (th_block (lc_stuck config))); [naive_solver|].
  repeat case_match; naive_solver.
Qed.

(** ** The invariant of a detector with a history *)

Record detector_inv (config : StepLoopDetectorConfig) (steps : list step_hashes)
    (d : StepLoopDetector) : Prop := {
  di_config : ld_config d = config;
  di_approaches : approachHashes d = list_to_set (steps.*1);
  di_outcomes : outcomeHashes d = list_to_set (steps.*2);
  di_stagnation : counts FullStagnation (stagnationStreak d) (categories steps);
  di_stuck : counts Stuck (stuckStreak d) (categories steps);
  di_blocked : is_Some (isBlocked d) ↔
    ∃ n, n < length steps ∧ over_limit config (take (S n) (categories steps));
}.

Lemma categories_length steps : length (categories steps) = length steps.
Proof.
  unfold categories. generalize (@nil step_hashes).
  induction steps as [|s steps IH]; intros e; simpl; [done|]. by rewrite IH.
Qed.

Lemma detector_inv_new stagnation stuck :
  let d := newStepLoopDetector stagnation stuck in detector_inv (ld_config d) [] d.
Proof.
  split; try done; [apply counts_nil..|]. split; [by intros []|]. intros (n & Hn & _). simpl in Hn. lia.
Qed.

Lemma detector_inv_category config steps d s :
  detector_inv config steps d →
  classify (bool_decide (s.1 ∉ approachHashes d)) (bool_decide (s.2 ∉ outcomeHashes d)) =
  category_after steps s.
Proof.
  intros Hd. unfold category_after. rewrite (di_approaches _ _ _ Hd), (di_outcomes _ _ _ Hd).
  f_equal; apply bool_decide_ext; by rewrite elem_of_list_to_set.
Qed.

Lemma over_limit_snoc config steps (c : ProgressCategory) :
  (∃ n, n < S (length steps) ∧ over_limit config (take (S n) (categories steps ++ [c]))) ↔
  (∃ n, n < length steps ∧ over_limit config (take (S n) (categories steps)))
  ∨ over_limit config (categories steps ++ [c]).
Proof.
  pose proof (categories_length steps) as Hlen. split.
  - intros (n & Hn & Ho). destruct (decide (n = length steps)) as [->|Hne].
    + right. by rewrite take_ge in Ho by (rewrite length_app; simpl; lia).
    + left. exists n. split; [lia|]. by rewrite take_app_le in Ho by lia.
  - intros [(n & Hn & Ho)|Ho].
    + exists n. split; [lia|]. by rewrite take_app_le by lia.
    + exists (length steps). split; [lia|]. by rewrite take_ge by (rewrite length_app; simpl; lia).
Qed.

Lemma detector_inv_step config steps d s :
  detector_inv config steps d → detector_inv config (steps ++ [s]) (analyzeHashes d s.1 s.2).1.
Proof.
  intros Hd. unfold analyzeHashes. rewrite (detector_inv_category _ _ _ _ Hd).
  pose proof (counts_update (category_after steps s) _ _ _
    (di_stagnation _ _ _ Hd) (di_stuck _ _ _ Hd)) as Hc.
  destruct (updateStreaks _ _ _) as [stagnation stuck]. rewrite <-categories_snoc in Hc.
  destruct Hc as [Hs Ht]. pose proof (checkThresholds_block config _ _ _ Hs Ht) as Hb.
  destruct Hd as [Hcfg Ha Ho _ _ Hbl]. rewrite Hcfg. split; simpl; try done.
  - rewrite Ha, fmap_app, list_to_set_app_L. simpl. set_solver.
  - rewrite Ho, fmap_app, list_to_set_app_L. simpl. set_solver.
  - rewrite length_app, Nat.add_1_r, categories_snoc, over_limit_snoc, <-categories_snoc, <-Hbl, <-Hb.
    unfold isBlocked. simpl.
    destruct (checkThresholds _ _ _); simpl; naive_solver.
Qed.

Lemma detector_inv_run stagnation stuck steps :
  let d := newStepLoopDetector stagnation stuck in
  detector_inv (ld_config d) steps (run_steps d steps).
Proof.
  intros d. induction steps as [|s steps IH] using rev_ind; [apply detector_inv_new|].
  rewrite run_steps_snoc. by apply detector_inv_step.
Qed.

(** A step that repeats an earlier one is full stagnation. *)
Lemma category_repeated earlier s : s ∈ earlier → category_after earlier s = FullStagnation.
Proof.
  intros Hs. unfold category_after.
  rewrite !bool_decide_eq_false_2; [done| |]; intros Hn; apply Hn; by apply list_elem_of_fmap_2.
Qed.

Lemma categories_repeated steps s n :
  s ∈ steps → categories (steps ++ replicate n s) = categories steps ++ replicate n FullStagnation.
Proof.
  intros Hs. induction n as [|n IH]; [by rewrite !app_nil_r|].
  rewrite !replicate_S_end, !app_assoc, categories_snoc, IH, category_repeated; [done|].
  apply elem_of_app. by left.
Qed.

(** Analysing a step never lifts a block. *)
Lemma analyzeHashes_blocked d a o :
  is_Some (isBlocked d) → is_Some (isBlocked (analyzeHashes d a o).1).
Proof.
  unfold analyzeHashes, isBlocked. intros Hb.
  destruct (updateStreaks _ _ _). simpl. by destruct (checkThresholds _ _ _).
Qed.
