(* ===== verification/Budget.v ===== *)
(** * The resource budget tracker

    Models src/session/resource-budget-tracker.ts: per-turn limits on tokens,
    steps, wall-clock time and cost, with a latched verdict, warnings and
    cumulative totals.  Token counts are integers, costs and seconds exact
    rationals, clock readings milliseconds; one operation reads the clock once. *)

From Stdlib Require Import QArith Qround Qabs Qcanon.
From S2P Require Import Prelude JsValue Hashing Numbers.

(** The digit grouping of the process's locale. *)
Class Locale := { toLocaleString : Z → string }.

(** ** Data *)

Inductive BudgetDimension := DTokens | DSteps | DWallClock | DCost.

#[export] Instance BudgetDimension_eq_dec : EqDecision BudgetDimension.
Proof. solve_decision. Defined.

Definition dimension_name (d : BudgetDimension) : string :=
  match d with
  | DTokens => "tokens" | DSteps => "steps" | DWallClock => "wall_clock" | DCost => "cost"
  end.

Record ResolvedResourceBudgetConfig := {
  maxTotalTokens : option Z;
  maxSteps : option Z;
  maxSessionSeconds : option Qc;
  maxEstimatedCostUsd : option Qc;
  warnThresholdPercent : Qc;
}.

Record LanguageModelUsage := {
  u_inputTokens : option Z;
  u_outputTokens : option Z;
  u_totalTokens : option Z;
  u_cacheReadTokens : option Z;
  u_cacheWriteTokens : option Z;
}.

Record CumulativeBudgetSnapshot := {
  cs_totalInputTokens : Z;
  cs_totalOutputTokens : Z;
  cs_totalTokens : Z;
  cs_stepCount : Z;
  cs_activeSeconds : Qc;
  cs_estimatedCostUsd : Qc;
}.

Record BudgetSnapshot := {
  bs_totalInputTokens : Z;
  bs_totalOutputTokens : Z;
  bs_totalTokens : Z;
  bs_stepCount : Z;
  bs_elapsedSeconds : Qc;
  bs_estimatedCostUsd : Qc;
  bs_cumulative : CumulativeBudgetSnapshot;
}.

Record BudgetExhaustedVerdict := {
  ev_dimension : BudgetDimension;
  ev_message : string;
  ev_snapshot : BudgetSnapshot;
}.

Record BudgetWarningVerdict := {
  wv_dimension : BudgetDimension;
  wv_message : string;
  wv_percentUsed : Z;
  wv_snapshot : BudgetSnapshot;
}.

Inductive BudgetVerdict := BudgetOk | BudgetExhausted (v : BudgetExhaustedVerdict).

(** ** Pricing *)

Record ModelPricing := {
  inputPerMillion : Qc;
  outputPerMillion : Qc;
  cacheReadPerMillion : Qc;
}.

Definition price (i o c : Q) : ModelPricing :=
  {| inputPerMillion := Q2Qc i; outputPerMillion := Q2Qc o; cacheReadPerMillion := Q2Qc c |}.

Definition MODEL_PRICING : list (string * ModelPricing) :=
  [("claude-opus-4-5", price 5 25 (5#10));
   ("claude-opus-4-6", price 5 25 (5#10));
   ("claude-opus", price 15 75 (15#10));
   ("claude-sonnet", price 3 15 (3#10));
   ("claude-haiku-4-5", price 1 5 (1#10));
   ("claude-haiku", price (8#10) 4 (8#100));
   ("gpt-5.2-pro", price 21 168 21);
   ("gpt-5.2", price (175#100) 14 (175#1000));
   ("gpt-5-mini", price (25#100) 2 (25#1000));
   ("gpt-4.1-nano", price (2#10) (8#10) (5#100));
   ("gpt-4.1-mini", price (8#10) (32#10) (2#10));
   ("gpt-4.1", price 3 12 (75#100));
   ("o4-mini", price 4 16 1);
   ("gpt-4o-mini", price (15#100) (6#10) (75#1000));
   ("gpt-4o", price (25#10) 10 (125#100));
   ("gemini-3.1-pro", price 2 12 (2#10));
   ("gemini-3-flash", price (5#10) 3 (5#100));
   ("gemini-3-pro", price 2 12 (2#10));
   ("gemini-2.5-pro", price (125#100) 10 (125#1000));
   ("gemini-2.5-flash-lite", price (1#10) (4#10) (1#100));
   ("gemini-2.5-flash", price (3#10) (25#10) (3#100));
   ("gemini-2.0-flash-lite", price (75#1000) (3#10) (75#10000));
   ("gemini-2.0-flash", price (1#10) (4#10) (1#100));
   ("gemini-1.5-pro", price (125#100) 5 (125#1000));
   ("glm-5.2", price (6#10) (22#10) (11#100));
   ("z-ai/", price (6#10) (22#10) (11#100))].

Definition FALLBACK_PRICING : ModelPricing := price 3 15 (3#10).

Definition resolvePricing (modelId : string) : ModelPricing :=
  let lower := toLowerCase modelId in
  match List.find (λ e, str_includes lower e.1) MODEL_PRICING with
  | Some e => e.2
  | None => FALLBACK_PRICING
  end.

(** ** The tracker *)

(** What a turn, or the session, has consumed. *)
Record Counters := {
  inputTokens : Z;
  outputTokens : Z;
  cacheReadTokens : Z;
  stepCount : Z;
}.

Definition no_usage : Counters :=
  {| inputTokens := 0; outputTokens := 0; cacheReadTokens := 0; stepCount := 0 |}.

Definition add_counters (a b : Counters) : Counters :=
  {| inputTokens := inputTokens a + inputTokens b;
     outputTokens := outputTokens a + outputTokens b;
     cacheReadTokens := cacheReadTokens a + cacheReadTokens b;
     stepCount := stepCount a + stepCount b |}.

Record ResourceBudgetTracker := {
  bt_config : ResolvedResourceBudgetConfig;
  bt_pricing : ModelPricing;
  turnStartMs : option Z;
  turn : Counters;
  cumulative : Counters;
  cumulativeActiveMs : Z;
  exhaustedVerdict : option BudgetExhaustedVerdict;
  warnedDimensions : list BudgetDimension;
  pendingWarnings : list BudgetWarningVerdict;
}.

Definition newResourceBudgetTracker (config : ResolvedResourceBudgetConfig) (modelId : string)
    : ResourceBudgetTracker :=
  {| bt_config := config; bt_pricing := resolvePricing modelId;
     turnStartMs := None; turn := no_usage; cumulative := no_usage; cumulativeActiveMs := 0;
     exhaustedVerdict := None; warnedDimensions := []; pendingWarnings := [] |}.

Definition endTurn (now : Z) (b : ResourceBudgetTracker) : ResourceBudgetTracker :=
  match turnStartMs b with
  | None => b
  | Some start =>
      {| bt_config := bt_config b; bt_pricing := bt_pricing b;
         turnStartMs := None; turn := no_usage;
         cumulative := add_counters (cumulative b) (turn b);
         cumulativeActiveMs := cumulativeActiveMs b + (now - start);
         exhaustedVerdict := exhaustedVerdict b;
         warnedDimensions := warnedDimensions b; pendingWarnings := pendingWarnings b |}
  end.

Definition startTurn (now : Z) (b : ResourceBudgetTracker) : ResourceBudgetTracker :=
  let b := endTurn now b in
  {| bt_config := bt_config b; bt_pricing := bt_pricing b;
     turnStartMs := Some now; turn := no_usage;
     cumulative := cumulative b; cumulativeActiveMs := cumulativeActiveMs b;
     exhaustedVerdict := None; warnedDimensions := []; pendingWarnings := [] |}.

Definition getTurnElapsedMs (now : Z) (b : ResourceBudgetTracker) : Z :=
  match turnStartMs b with None => 0 | Some start => now - start end.

Definition per_million (n : Z) (rate : Qc) : Qc := (qc_of_Z n / qc_of_Z 1000000 * rate)%Qc.

Definition estimateCost (pricing : ModelPricing) (c : Counters) : Qc :=
  let nonCachedInput := (inputTokens c - cacheReadTokens c)%Z in
  (per_million nonCachedInput (inputPerMillion pricing) +
   per_million (cacheReadTokens c) (cacheReadPerMillion pricing) +
   per_million (outputTokens c) (outputPerMillion pricing))%Qc.

Definition seconds (ms : Z) : Qc := (qc_of_Z ms / qc_of_Z 1000)%Qc.

Definition getCumulativeSnapshot (now : Z) (b : ResourceBudgetTracker) : CumulativeBudgetSnapshot :=
  let total := add_counters (cumulative b) (turn b) in
  {| cs_totalInputTokens := inputTokens total;
     cs_totalOutputTokens := outputTokens total;
     cs_totalTokens := inputTokens total + outputTokens total;
     cs_stepCount := stepCount total;
     cs_activeSeconds := seconds (cumulativeActiveMs b + getTurnElapsedMs now b);
     cs_estimatedCostUsd := estimateCost (bt_pricing b) total |}.

Definition getSnapshot (now : Z) (b : ResourceBudgetTracker) : BudgetSnapshot :=
  {| bs_totalInputTokens := inputTokens (turn b);
     bs_totalOutputTokens := outputTokens (turn b);
     bs_totalTokens := inputTokens (turn b) + outputTokens (turn b);
     bs_stepCount := stepCount (turn b);
     bs_elapsedSeconds := seconds (getTurnElapsedMs now b);
     bs_estimatedCostUsd := estimateCost (bt_pricing b) (turn b);
     bs_cumulative := getCumulativeSnapshot now b |}.

Definition getRemainingWallClockMs (now : Z) (b : ResourceBudgetTracker) : option Qc :=
  (λ limit : Qc, let remaining := (limit * qc_of_Z 1000 - qc_of_Z (getTurnElapsedMs now b))%Qc in
     if qc_le remaining (qc_of_Z 0) then qc_of_Z 0 else remaining)
  <$> maxSessionSeconds (bt_config b).

Definition getActiveWarnings (b : ResourceBudgetTracker)
    : ResourceBudgetTracker * list BudgetWarningVerdict :=
  ({| bt_config := bt_config b; bt_pricing := bt_pricing b;
      turnStartMs := turnStartMs b; turn := turn b;
      cumulative := cumulative b; cumulativeActiveMs := cumulativeActiveMs b;
      exhaustedVerdict := exhaustedVerdict b;
      warnedDimensions := warnedDimensions b; pendingWarnings := [] |}, pendingWarnings b).

Definition latch (v : option BudgetExhaustedVerdict) (b : ResourceBudgetTracker)
    : ResourceBudgetTracker :=
  {| bt_config := bt_config b; bt_pricing := bt_pricing b;
     turnStartMs := turnStartMs b; turn := turn b;
     cumulative := cumulative b; cumulativeActiveMs := cumulativeActiveMs b;
     exhaustedVerdict := v;
     warnedDimensions := warnedDimensions b; pendingWarnings := pendingWarnings b |}.

(** What a step consumes; missing counts are zero. *)
Definition step_usage (usage : LanguageModelUsage) : Counters :=
  {| inputTokens := default 0%Z (u_inputTokens usage);
     outputTokens := default 0%Z (u_outputTokens usage);
     cacheReadTokens := default 0%Z (u_cacheReadTokens usage);
     stepCount := 1 |}.

Definition add_turn (c : Counters) (b : ResourceBudgetTracker) : ResourceBudgetTracker :=
  {| bt_config := bt_config b; bt_pricing := bt_pricing b;
     turnStartMs := turnStartMs b; turn := add_counters (turn b) c;
     cumulative := cumulative b; cumulativeActiveMs := cumulativeActiveMs b;
     exhaustedVerdict := exhaustedVerdict b;
     warnedDimensions := warnedDimensions b; pendingWarnings := pendingWarnings b |}.

Section tracker.
Context `{Runtime, Locale}.

Definition checkExhaustion (config : ResolvedResourceBudgetConfig) (snapshot : BudgetSnapshot)
    : option BudgetExhaustedVerdict :=
  let verdict dimension message :=
    Some {| ev_dimension := dimension; ev_message := message; ev_snapshot := snapshot |} in
  let over {A} (le : A → A → bool) (limit : option A) (current : A) :=
    match limit with Some m => le m current | None => false end in
  if over Z.leb (maxTotalTokens config) (bs_totalTokens snapshot) then
    verdict DTokens ("Token budget exhausted: " +:+ toLocaleString (bs_totalTokens snapshot) +:+ " / "
      +:+ toLocaleString (default 0%Z (maxTotalTokens config)) +:+ " tokens used")
  else if over Z.leb (maxSteps config) (bs_stepCount snapshot) then
    verdict DSteps ("Step budget exhausted: " +:+ show_Z (bs_stepCount snapshot) +:+ " / "
      +:+ show_Z (default 0%Z (maxSteps config)) +:+ " steps used")
  else if over qc_le (maxSessionSeconds config) (bs_elapsedSeconds snapshot) then
    verdict DWallClock ("Time budget exhausted: " +:+ show_Z (math_round (bs_elapsedSeconds snapshot))
      +:+ "s / " +:+ number_to_string (default (qc_of_Z 0) (maxSessionSeconds config)) +:+ "s elapsed")
  else if over qc_le (maxEstimatedCostUsd config) (bs_estimatedCostUsd snapshot) then
    verdict DCost ("Cost budget exhausted: $" +:+ toFixed 2 (bs_estimatedCostUsd snapshot) +:+ " / $"
      +:+ toFixed 2 (default (qc_of_Z 0) (maxEstimatedCostUsd config)) +:+ " estimated")
  else None.

(** [maybeWarn]; limits are positive, so the quotient is finite. *)
Definition maybeWarn (dimension : BudgetDimension) (limit : option Qc) (current : Qc)
    (snapshot : BudgetSnapshot) (messageFn : Z → string) (b : ResourceBudgetTracker)
    : ResourceBudgetTracker :=
  match limit with
  | None => b
  | Some limit =>
      if includes (warnedDimensions b) dimension then b
      else
        let ratio := (current / limit)%Qc in
        if qc_le (warnThresholdPercent (bt_config b) / qc_of_Z 100)%Qc ratio
           && qc_lt ratio (qc_of_Z 1)
        then
          let percentUsed := math_round (ratio * qc_of_Z 100)%Qc in
          {| bt_config := bt_config b; bt_pricing := bt_pricing b;
             turnStartMs := turnStartMs b; turn := turn b;
             cumulative := cumulative b; cumulativeActiveMs := cumulativeActiveMs b;
             exhaustedVerdict := exhaustedVerdict b;
             warnedDimensions := js_set_add dimension (warnedDimensions b);
             pendingWarnings := pendingWarnings b ++
               [{| wv_dimension := dimension; wv_message := messageFn percentUsed;
                   wv_percentUsed := percentUsed; wv_snapshot := snapshot |}] |}
        else b
  end.

Definition checkWarnings (snapshot : BudgetSnapshot) (b : ResourceBudgetTracker)
    : ResourceBudgetTracker :=
  let config := bt_config b in
  let maxTokens := maxTotalTokens config in
  let maxSeconds := maxSessionSeconds config in
  let maxCost := maxEstimatedCostUsd config in
  let b := maybeWarn DTokens (qc_of_Z <$> maxTokens) (qc_of_Z (bs_totalTokens snapshot)) snapshot
    (λ pct, "Token usage at " +:+ show_Z pct +:+ "%: " +:+ toLocaleString (bs_totalTokens snapshot)
       +:+ " / " +:+ toLocaleString (default 0%Z maxTokens)) b in
  let b := maybeWarn DSteps (qc_of_Z <$> maxSteps config) (qc_of_Z (bs_stepCount snapshot)) snapshot
    (λ pct, "Step usage at " +:+ show_Z pct +:+ "%: " +:+ show_Z (bs_stepCount snapshot)
       +:+ " / " +:+ show_Z (default 0%Z (maxSteps config))) b in
  let b := maybeWarn DWallClock maxSeconds (bs_elapsedSeconds snapshot) snapshot
    (λ pct, "Time usage at " +:+ show_Z pct +:+ "%: "
       +:+ show_Z (math_round (bs_elapsedSeconds snapshot))
       +:+ "s / " +:+ number_to_string (default (qc_of_Z 0) maxSeconds) +:+ "s") b in
  maybeWarn DCost maxCost (bs_estimatedCostUsd snapshot) snapshot
    (λ pct, "Cost at " +:+ show_Z pct +:+ "%: $" +:+ toFixed 2 (bs_estimatedCostUsd snapshot)
       +:+ " / $" +:+ toFixed 2 (default (qc_of_Z 0) maxCost)) b.

Definition isExhausted (now : Z) (b : ResourceBudgetTracker)
    : ResourceBudgetTracker * option BudgetExhaustedVerdict :=
  match exhaustedVerdict b with
  | Some v => (b, Some v)
  | None =>
      match checkExhaustion (bt_config b) (getSnapshot now b) with
      | Some v => (latch (Some v) b, Some v)
      | None => (b, None)
      end
  end.

(** [evaluate] *)
Definition evaluateBudget (now : Z) (b : ResourceBudgetTracker)
    : ResourceBudgetTracker * BudgetVerdict :=
  let snapshot := getSnapshot now b in
  match checkExhaustion (bt_config b) snapshot with
  | Some v => (latch (Some v) b, BudgetExhausted v)
  | None => (checkWarnings snapshot b, BudgetOk)
  end.

Definition recordStep (now : Z) (usage : LanguageModelUsage) (b : ResourceBudgetTracker)
    : ResourceBudgetTracker * BudgetVerdict :=
  match exhaustedVerdict b with
  | Some v => (b, BudgetExhausted v)
  | None => evaluateBudget now (add_turn (step_usage usage) b)
  end.

(** The loop of the stop condition over the new steps; [true]: stopped early. *)
Fixpoint recordSteps (now : Z) (usages : list LanguageModelUsage) (b : ResourceBudgetTracker)
    : ResourceBudgetTracker * bool :=
  match usages with
  | [] => (b, false)
  | usage :: usages =>
      match recordStep now usage b with
      | (b, BudgetExhausted _) => (b, true)
      | (b, BudgetOk) => recordSteps now usages b
      end
  end.

(** One call of the closure that [createStopCondition] returns: its
    [processedCount] before and after, and the answer. *)
Definition stopCondition (now : Z) (steps : list LanguageModelUsage) (processedCount : nat)
    (b : ResourceBudgetTracker) : ResourceBudgetTracker * nat * bool :=
  match recordSteps now (drop processedCount steps) b with
  | (b, true) => (b, processedCount, true)
  | (b, false) =>
      let '(b, v) := isExhausted now b in (b, length steps, bool_decide (is_Some v))
  end.
End tracker.

(** * Theory of the resource budget tracker

    Runs of tracker operations, what they account for, and the invariant that a
    tracker without a verdict is below every limit. *)

(** ** Counters *)

Definition sum_usage (usages : list LanguageModelUsage) : Counters :=
  foldr (λ u c, add_counters (step_usage u) c) no_usage usages.

Lemma add_counters_0_l c : add_counters no_usage c = c.
Proof. by destruct c. Qed.

Lemma add_counters_comm a b : add_counters a b = add_counters b a.
Proof. unfold add_counters. f_equal; lia. Qed.

Lemma add_counters_assoc a b c :
  add_counters a (add_counters b c) = add_counters (add_counters a b) c.
Proof. unfold add_counters. simpl. f_equal; lia. Qed.

Lemma add_counters_0_r c : add_counters c no_usage = c.
Proof. by rewrite add_counters_comm, add_counters_0_l. Qed.

Lemma sum_usage_app l k : sum_usage (l ++ k) = add_counters (sum_usage l) (sum_usage k).
Proof.
  induction l as [|u l IH]; simpl; [by rewrite add_counters_0_l|].
  by rewrite IH, add_counters_assoc.
Qed.

#[export] Hint Rewrite add_counters_0_l add_counters_0_r sum_usage_app : curtain.

(** ** Frames: the warnings change nothing else *)

Definition core (b : ResourceBudgetTracker) :=
  (bt_config b, bt_pricing b, turnStartMs b, turn b, cumulative b, cumulativeActiveMs b,
   exhaustedVerdict b).

Section theory.
Context `{Runtime, Locale}.
Implicit Types (b : ResourceBudgetTracker) (now : Z) (u : LanguageModelUsage).

Lemma maybeWarn_core d limit current s f b : core (maybeWarn d limit current s f b) = core b.
Proof. unfold maybeWarn. repeat case_match; done. Qed.

Lemma checkWarnings_core s b : core (checkWarnings s b) = core b.
Proof. unfold checkWarnings. by rewrite !maybeWarn_core. Qed.

(** ** One operation *)

Inductive TrackerOp :=
| OpStartTurn | OpEndTurn | OpIsExhausted | OpRecordStep (u : LanguageModelUsage)
| OpGetActiveWarnings.

Definition apply_op (b : ResourceBudgetTracker) (op : Z * TrackerOp) : ResourceBudgetTracker :=
  match op.2 with
  | OpStartTurn => startTurn op.1 b
  | OpEndTurn => endTurn op.1 b
  | OpIsExhausted => (isExhausted op.1 b).1
  | OpRecordStep u => (recordStep op.1 u b).1
  | OpGetActiveWarnings => (getActiveWarnings b).1
  end.

Definition run_ops (b : ResourceBudgetTracker) (ops : list (Z * TrackerOp)) : ResourceBudgetTracker :=
  foldl apply_op b ops.

(** The steps that a run records: those that find no verdict. *)
Fixpoint recorded (b : ResourceBudgetTracker) (ops : list (Z * TrackerOp))
    : list LanguageModelUsage :=
  match ops with
  | [] => []
  | op :: ops =>
      match op.2, exhaustedVerdict b with
      | OpRecordStep u, None => [u]
      | _, _ => []
      end ++ recorded (apply_op b op) ops
  end.

(** Steps are recorded only while a turn is active. *)
Fixpoint in_turns (b : ResourceBudgetTracker) (ops : list (Z * TrackerOp)) : bool :=
  match ops with
  | [] => true
  | op :: ops =>
      match op.2 with
      | OpRecordStep _ => bool_decide (is_Some (turnStartMs b))
      | _ => true
      end && in_turns (apply_op b op) ops
  end.

(** [recordStep] on a tracker without a verdict: the counters grow by the step,
    and the verdict is that of the new totals. *)
Lemma recordStep_fresh now u b :
  exhaustedVerdict b = None →
  let b' := (recordStep now u b).1 in
  core b' = core (latch (checkExhaustion (bt_config b) (getSnapshot now (add_turn (step_usage u) b)))
                        (add_turn (step_usage u) b)) ∧
  (recordStep now u b).2 =
    match exhaustedVerdict b' with Some v => BudgetExhausted v | None => BudgetOk end.
Proof.
  intros Hv. unfold recordStep, evaluateBudget. rewrite Hv. simpl.
  destruct (checkExhaustion _ _) as [v|] eqn:Hc; simpl; [done|].
  set (s := getSnapshot _ _). pose proof (checkWarnings_core s (add_turn (step_usage u) b)) as Hk.
  split; [by rewrite Hk; unfold core; simpl; rewrite Hv|].
  unfold core in Hk. simplify_eq/=. by replace (exhaustedVerdict _) with (@None BudgetExhaustedVerdict) by congruence.
Qed.

Lemma recordStep_latched now u b v :
  exhaustedVerdict b = Some v → recordStep now u b = (b, BudgetExhausted v).
Proof. unfold recordStep. by intros ->. Qed.

Lemma isExhausted_spec now b :
  let '(b', v) := isExhausted now b in
  exhaustedVerdict b' = v ∧ b' = latch v b ∧ (is_Some (exhaustedVerdict b) → v = exhaustedVerdict b).
Proof.
  unfold isExhausted. destruct (exhaustedVerdict b) as [v|] eqn:Hv.
  - split_and!; [done| |done]. destruct b; simpl in *; by subst.
  - destruct (checkExhaustion _ _); simpl; (split_and!; [done| |by intros []]); [done|].
    destruct b; simpl in *; by subst.
Qed.

(** ** Accounting *)

Definition idle_clean b : Prop := turnStartMs b = None → turn b = no_usage.

Definition session_total b : Counters := add_counters (cumulative b) (turn b).

Lemma endTurn_total now b :
  idle_clean b → session_total (endTurn now b) = session_total b ∧ idle_clean (endTurn now b).
Proof.
  unfold session_total, idle_clean, endTurn. intros Hb.
  destruct (turnStartMs b) eqn:Hs; simpl; [by rewrite add_counters_0_r|]. by rewrite Hs.
Qed.

Lemma endTurn_closed now b : idle_clean b → turn (endTurn now b) = no_usage.
Proof. unfold idle_clean, endTurn. destruct (turnStartMs b) eqn:Hs; simpl; auto. Qed.

Lemma core_fields b b' :
  core b = core b' →
  bt_config b = bt_config b' ∧ bt_pricing b = bt_pricing b' ∧ turnStartMs b = turnStartMs b' ∧
  turn b = turn b' ∧ cumulative b = cumulative b' ∧ exhaustedVerdict b = exhaustedVerdict b'.
Proof. unfold core. intros. simplify_eq. done. Qed.

Lemma apply_op_total b op :
  idle_clean b → in_turns b [op] = true →
  session_total (apply_op b op) = add_counters (session_total b) (sum_usage (recorded b [op])) ∧
  idle_clean (apply_op b op).
Proof.
  intros Hb Hin. destruct op as [now [| | |u|]]; cbn [apply_op fst snd recorded app sum_usage foldr] in *;
    rewrite ?add_counters_0_r.
  - destruct (endTurn_total now b Hb) as [He Hi]. split; [|done].
    rewrite <-He. unfold session_total, startTurn. simpl. by rewrite endTurn_closed.
  - by apply endTurn_total.
  - pose proof (isExhausted_spec now b) as Hs. destruct (isExhausted now b) as [b' v].
    destruct Hs as (_ & -> & _). done.
  - simpl in Hin. rewrite andb_true_r in Hin. apply bool_decide_eq_true in Hin as [start Hstart].
    destruct (exhaustedVerdict b) as [v|] eqn:Hv.
    + rewrite (recordStep_latched now u b v Hv). simpl. by rewrite add_counters_0_r.
    + destruct (recordStep_fresh now u b Hv) as [Hc _].
      apply core_fields in Hc as (_ & _ & Hs & Ht & Hcu & _). simpl in *.
      unfold session_total, idle_clean. rewrite Hs, Ht, Hcu. simpl.
      split; [|by rewrite Hstart]. by rewrite add_counters_0_r, add_counters_assoc.
  - done.
Qed.

Lemma run_ops_total b ops :
  idle_clean b → in_turns b ops = true →
  session_total (run_ops b ops) = add_counters (session_total b) (sum_usage (recorded b ops)).
Proof.
  revert b. induction ops as [|op ops IH]; intros b Hb Hin.
  { simpl. by rewrite add_counters_0_r. }
  simpl in Hin. bool_hyps.
  destruct (apply_op_total b op Hb) as [Ht Hi]; [by simpl; rewrite andb_true_r|].
  change (run_ops b (op :: ops)) with (run_ops (apply_op b op) ops).
  rewrite (IH _ Hi) by done. rewrite Ht, <-add_counters_assoc, <-sum_usage_app.
  simpl. by rewrite app_nil_r.
Qed.

(** ** Limits *)

(** The limits the configuration schema accepts: positive ones. *)
Definition limits_positive (config : ResolvedResourceBudgetConfig) : Prop :=
  (∀ m, maxTotalTokens config = Some m → 0 < m)%Z ∧
  (∀ m, maxSteps config = Some m → 0 < m)%Z ∧
  (∀ m, maxEstimatedCostUsd config = Some m → qc_lt (qc_of_Z 0) m = true).

(** Below the limits on tokens, steps and cost. *)
Definition within_limits (config : ResolvedResourceBudgetConfig) (pricing : ModelPricing)
    (c : Counters) : Prop :=
  (∀ m, maxTotalTokens config = Some m → inputTokens c + outputTokens c < m)%Z ∧
  (∀ m, maxSteps config = Some m → stepCount c < m)%Z ∧
  (∀ m, maxEstimatedCostUsd config = Some m → qc_lt (estimateCost pricing c) m = true).

Lemma estimateCost_0 pricing : estimateCost pricing no_usage = qc_of_Z 0.
Proof.
  unfold estimateCost, per_million, Qcdiv. cbn [inputTokens outputTokens cacheReadTokens no_usage].
  change (0 - 0)%Z with 0%Z. change (qc_of_Z 0) with (Q2Qc 0). ring.
Qed.

Lemma within_limits_0 config pricing :
  limits_positive config → within_limits config pricing no_usage.
Proof. intros (? & ? & ?). split_and!; [done..|]. intros m Hm. rewrite estimateCost_0. auto. Qed.

Lemma checkExhaustion_none now b :
  checkExhaustion (bt_config b) (getSnapshot now b) = None →
  within_limits (bt_config b) (bt_pricing b) (turn b).
Proof.
  unfold checkExhaustion, within_limits, qc_lt. simpl.
  destruct (bt_config b) as [[t|] [s|] [w|] [c|] warn]; simpl;
    repeat case_match; try done; intros _; split_and!; intros m Hm; simplify_eq;
    rewrite ?negb_true_iff; (done || lia).
Qed.

Record budget_inv (config : ResolvedResourceBudgetConfig) (pricing : ModelPricing)
    (b : ResourceBudgetTracker) : Prop := {
  bi_config : bt_config b = config;
  bi_pricing : bt_pricing b = pricing;
  bi_fresh : exhaustedVerdict b = None → within_limits config pricing (turn b);
  bi_steps : ∀ m, maxSteps config = Some m → (stepCount (turn b) ≤ m)%Z;
}.

Lemma budget_inv_core config pricing b b' :
  core b = core b' → budget_inv config pricing b' → budget_inv config pricing b.
Proof.
  intros (Hc & Hp & _ & Ht & _ & Hv)%core_fields []. split; rewrite ?Hc, ?Hp, ?Ht, ?Hv; auto.
Qed.

Lemma budget_inv_reset config pricing b :
  limits_positive config → bt_config b = config → bt_pricing b = pricing → turn b = no_usage →
  budget_inv config pricing b.
Proof.
  intros Hl Hc Hp Ht. split; [done..| |]; rewrite Ht.
  - intros _. by apply within_limits_0.
  - destruct Hl as (_ & Hs & _). intros m Hm. specialize (Hs m Hm). simpl. lia.
Qed.

Lemma budget_inv_latch config pricing b now :
  budget_inv config pricing b →
  budget_inv config pricing (isExhausted now b).1.
Proof.
  intros []. pose proof (isExhausted_spec now b) as Hs.
  destruct (isExhausted now b) as [b' v]. destruct Hs as (Hv & -> & Hold). simpl in *.
  split; simpl; auto. intros ->. apply bi_fresh0.
  destruct (exhaustedVerdict b); [|done]. by specialize (Hold ltac:(eauto)).
Qed.

Lemma budget_inv_record config pricing b now u :
  budget_inv config pricing b → budget_inv config pricing (recordStep now u b).1.
Proof.
  intros Hb. destruct (exhaustedVerdict b) as [v|] eqn:Hv.
  { by rewrite (recordStep_latched now u b v Hv). }
  destruct (recordStep_fresh now u b Hv) as [Hc _]. apply (budget_inv_core _ _ _ _ Hc).
  destruct Hb as [Hcfg Hp Hf _]. split; simpl; [done..| |].
  - intros Hn. rewrite <-Hcfg, <-Hp.
    by apply (checkExhaustion_none now (add_turn (step_usage u) b)).
  - intros m Hm. destruct (Hf Hv) as (_ & Hs & _). specialize (Hs m Hm). lia.
Qed.

Lemma budget_inv_op config pricing b op :
  limits_positive config → budget_inv config pricing b → budget_inv config pricing (apply_op b op).
Proof.
  intros Hl Hb. destruct op as [now [| | |u|]]; unfold apply_op; simpl.
  - apply budget_inv_reset; try done; unfold startTurn, endTurn; destruct Hb; by case_match.
  - unfold endTurn. case_match; [|done]. apply budget_inv_reset; try done; by destruct Hb.
  - by apply budget_inv_latch.
  - by apply budget_inv_record.
  - by destruct Hb.
Qed.

Lemma budget_inv_run config modelId ops :
  limits_positive config →
  budget_inv config (resolvePricing modelId) (run_ops (newResourceBudgetTracker config modelId) ops).
Proof.
  intros Hl. induction ops as [|op ops IH] using rev_ind.
  - by apply budget_inv_reset.
  - unfold run_ops in *. rewrite foldl_app. by apply budget_inv_op.
Qed.

(** ** The stop condition *)

Lemma recordSteps_spec now usages b :
  let '(b', stopped) := recordSteps now usages b in
  ∃ j, j ≤ length usages ∧
    turn b' = add_counters (turn b) (sum_usage (take j usages)) ∧
    cumulative b' = cumulative b ∧ turnStartMs b' = turnStartMs b ∧
    (exhaustedVerdict b = None → is_Some (exhaustedVerdict b') ↔ stopped = true) ∧
    (stopped = false → j = length usages ∧ exhaustedVerdict b' = exhaustedVerdict b) ∧
    (is_Some (exhaustedVerdict b) → b' = b).
Proof.
  revert b. induction usages as [|u usages IH]; intros b; simpl.
  { exists 0. rewrite add_counters_0_r. split_and!; try done. intros ->. split; [by intros []|done]. }
  destruct (exhaustedVerdict b) as [v|] eqn:Hv.
  { rewrite (recordStep_latched now u b v Hv). exists 0. simpl. rewrite add_counters_0_r.
    split_and!; try done; lia. }
  destruct (recordStep_fresh now u b Hv) as [Hc Hr].
  destruct (recordStep now u b) as [b1 r]. simpl in Hc, Hr. subst r.
  apply core_fields in Hc as (_ & _ & Hs & Ht & Hcu & Hv1). simpl in *.
  destruct (exhaustedVerdict b1) as [v|] eqn:Hb1.
  - exists 1. simpl. rewrite Ht, add_counters_0_r. split_and!; (done || lia || by intros []).
  - specialize (IH b1). destruct (recordSteps now usages b1) as [b2 stopped].
    destruct IH as (j & Hj & Ht2 & Hc2 & Hs2 & Hi & Hn & _). rewrite Hb1 in Hi, Hn.
    exists (S j). rewrite Ht2, Ht, Hc2, Hs2, Hcu, Hs. cbn [take sum_usage foldr].
    rewrite add_counters_assoc. split_and!; [lia|done|done|done|exact Hi| |by intros []].
    intros Hst. destruct (Hn Hst) as [-> ?]. done.
Qed.

(** The state of a stop condition that has seen [seen] steps of a turn with the
    given steps. *)
Definition stop_inv (steps : list LanguageModelUsage) (base : Counters) (processed seen : nat)
    (b : ResourceBudgetTracker) : Prop :=
  ∃ k, k ≤ seen ∧ turn b = add_counters base (sum_usage (take k steps)) ∧
    (exhaustedVerdict b = None → processed = seen ∧ k = seen).

Lemma stop_inv_step steps base processed seen seen' now b :
  seen ≤ seen' ≤ length steps → stop_inv steps base processed seen b →
  let '(b', processed', stop) := stopCondition now (take seen' steps) processed b in
  stop_inv steps base processed' seen' b' ∧
  stop = bool_decide (is_Some (exhaustedVerdict b')).
Proof.
  intros Hn (k & Hk & Ht & Hf). unfold stopCondition.
  pose proof (recordSteps_spec now (drop processed (take seen' steps)) b) as Hr.
  destruct (recordSteps now _ b) as [b1 stopped].
  destruct Hr as (j & Hj & Ht1 & _ & _ & Hi & Hc & Hl). rewrite length_drop, length_take in *.
  assert (Htake : exhaustedVerdict b = None →
    turn b1 = add_counters base (sum_usage (take (k + j) steps)) ∧ k + j ≤ seen').
  { intros Hv. destruct (Hf Hv) as [-> ->]. split; [|lia].
    rewrite Ht1, Ht, <-add_counters_assoc, <-sum_usage_app. do 2 f_equal.
    rewrite skipn_firstn_comm, take_take, Nat.min_l by lia.
    by rewrite <-(take_take_drop steps seen j). }
  destruct stopped.
  - destruct (exhaustedVerdict b) as [v|] eqn:Hv.
    + rewrite (Hl ltac:(eauto)), Hv. split; [|done]. exists k. split_and!; [lia|done|congruence].
    + destruct (Htake eq_refl) as [Ht2 ?]. destruct (Hi eq_refl) as [_ [v Hs]]; [done|].
      rewrite Hs. split; [|done]. exists (k + j). split_and!; [lia|done|congruence].
  - destruct (Hc eq_refl) as [Hj2 Hv1]. pose proof (isExhausted_spec now b1) as Hs.
    destruct (isExhausted now b1) as [b2 v]. destruct Hs as (<- & Hb2 & Hold).
    split; [|done]. destruct (exhaustedVerdict b) as [w|] eqn:Hv.
    + exists k. rewrite Hb2 at 1. simpl. rewrite (Hl ltac:(eauto)).
      split_and!; [lia|done|]. intros Hx. rewrite Hx, Hv1 in Hold. by specialize (Hold ltac:(eauto)).
    + destruct (Htake eq_refl) as [Ht2 ?]. exists (k + j). rewrite Hb2 at 1. simpl.
      destruct (Hf eq_refl) as [-> ->].
      split_and!; [lia|done|]. intros _. lia.
Qed.

(** Calls of the stop condition in a turn: when, and with how many steps. *)
Definition run_stops (steps : list LanguageModelUsage) (calls : list (Z * nat))
    (s : ResourceBudgetTracker * nat * bool) : ResourceBudgetTracker * nat * bool :=
  foldl (λ s call, stopCondition call.1 (take call.2 steps) s.1.2 s.1.1) s calls.
End theory.
