(* ===== verification/Messages.v ===== *)
(** * The conversation: model ids, prompt caching, compaction, truncation

    Models src/config/model-id.ts, src/session/prompt-cache.ts (the history
    breakpoint), src/session/message-compactor.ts and
    src/session/truncate-result.ts.  A message array is a list of optional
    messages: [None] is a hole of a JavaScript array, which reads as [undefined]. *)

From Stdlib Require Import Ascii.
From S2P Require Import Prelude JsValue Hashing.

(** ** Model ids *)

Inductive ProviderId := Anthropic | Google | OpenAI.

#[export] Instance ProviderId_eq_dec : EqDecision ProviderId.
Proof. solve_decision. Defined.

Definition DEFAULT_PROVIDER : ProviderId := Anthropic.

(** Membership in [KNOWN_PROVIDERS]. *)
Definition known_provider (s : string) : option ProviderId :=
  if s =? "anthropic" then Some Anthropic
  else if s =? "google" then Some Google
  else if s =? "openai" then Some OpenAI
  else None.

Record ParsedModelId := { pm_provider : ProviderId; pm_modelId : string }.

Definition parseModelId (qualifiedId : string) : result ParsedModelId :=
  match str_indexOf qualifiedId ":" with
  | None => Ok {| pm_provider := DEFAULT_PROVIDER; pm_modelId := qualifiedId |}
  | Some colonIndex =>
      match known_provider (str_take colonIndex qualifiedId) with
      | None => Ok {| pm_provider := DEFAULT_PROVIDER; pm_modelId := qualifiedId |}
      | Some provider =>
          let modelId := str_drop (colonIndex + 1) qualifiedId in
          if modelId =? ""
          then Throw ("Empty model ID in " +:+ quoted qualifiedId +:+ ". "
                      +:+ "Expected format: " +:+ quoted "provider:model-id")
          else Ok {| pm_provider := provider; pm_modelId := modelId |}
      end
  end.

(** ** Message arrays *)

Abbreviation Message := (object jsvalue).
Abbreviation messages := (list (option Message)).

Definition userMessage (content : string) : Message :=
  [("role", VStr "user"); ("content", VStr content)].

(** [messages.length = n]: truncates, or extends with holes. *)
Definition set_length (n : nat) (l : messages) : messages :=
  take n l ++ replicate (n - length l) None.

(** ** Prompt caching *)

Inductive PromptCacheStrategy := AnthropicCacheStrategy | NoOpCacheStrategy.

Definition createCacheStrategy (qualifiedModelId : string) : result PromptCacheStrategy :=
  parsed ← parseModelId qualifiedModelId;
  mret (if pm_provider parsed =? Anthropic then AnthropicCacheStrategy else NoOpCacheStrategy).

Definition ANTHROPIC_CACHE_CONTROL : object jsvalue :=
  [("anthropic", VObj [("cacheControl", VObj [("type", VStr "ephemeral")])])].

(** [{...a, ...b}] *)
Definition spread (a b : object jsvalue) : object jsvalue :=
  foldl (λ o e, obj_set o e.1 e.2) a b.

(** [...v] in an object literal: only objects have own properties here. *)
Definition own_properties (v : jsvalue) : object jsvalue :=
  match v with VObj o => o | _ => [] end.

Definition mark_message (m : Message) : Message :=
  obj_set m "providerOptions"
    (VObj (spread (own_properties (get_value m "providerOptions")) ANTHROPIC_CACHE_CONTROL)).

Definition applyHistoryBreakpoint (strategy : PromptCacheStrategy) (l : messages) : result messages :=
  match strategy with
  | NoOpCacheStrategy => Ok l
  | AnthropicCacheStrategy =>
      if (length l <? 2)%nat then Ok l
      else
        let idx := length l - 2 in
        match l !! idx with
        | Some (Some m) => Ok (<[idx := Some (mark_message m)]> l)
        | _ => Throw "TypeError: Cannot read properties of undefined (reading 'providerOptions')"
        end
  end.

(** ** Compaction *)

Record ResolvedAutoCompactConfig := {
  ac_enabled : bool;
  ac_thresholdTokens : Z;
  ac_keepRecentMessages : nat;
  ac_summaryModelId : string;
}.

Definition MIN_MESSAGES_TO_COMPACT : nat := 4.

Record CompactionResult := {
  cr_originalMessageCount : nat;
  cr_newMessageCount : nat;
  cr_summaryPreview : string;
}.

(** The compactor; of the cached model only its presence matters. *)
Record MessageCompactor := {
  mc_config : ResolvedAutoCompactConfig;
  mc_summaryModel : bool;
  mc_lastInputTokens : Z;
}.

Definition newMessageCompactor (config : ResolvedAutoCompactConfig) : MessageCompactor :=
  {| mc_config := config; mc_summaryModel := false; mc_lastInputTokens := 0 |}.

Definition recordInputTokens (tokens : Z) (c : MessageCompactor) : MessageCompactor :=
  {| mc_config := mc_config c; mc_summaryModel := mc_summaryModel c; mc_lastInputTokens := tokens |}.

Definition shouldCompact (c : MessageCompactor) : bool :=
  if negb (ac_enabled (mc_config c)) then false
  else bool_decide (ac_thresholdTokens (mc_config c) < mc_lastInputTokens c)%Z.

(** The summary service: creating the model and generating a text, which may
    both throw. *)
Record Summarizer := {
  createLanguageModel : string → result ();
  generateSummary : messages → result string;
}.

Definition summaryMessage (summary : string) : Message :=
  userMessage ("[Conversation summary]" +:+ newline +:+ newline +:+ summary).

(** [compact]: the compactor and the message array after it, and what it
    returns or throws. *)
Definition compact (svc : Summarizer) (c : MessageCompactor) (l : messages)
    : MessageCompactor * messages * result (option CompactionResult) :=
  let keepCount := ac_keepRecentMessages (mc_config c) `min` length l in
  let splitIndex := length l - keepCount in
  if (splitIndex <? MIN_MESSAGES_TO_COMPACT)%nat then (c, l, Ok None)
  else
    let toSummarize := take splitIndex l in
    let toKeep := drop splitIndex l in
    let created :=
      if mc_summaryModel c then Ok ()
      else createLanguageModel svc (ac_summaryModelId (mc_config c)) in
    match created with
    | Throw e => (c, l, Throw e)
    | Ok _ =>
        let with_model tokens :=
          {| mc_config := mc_config c; mc_summaryModel := true; mc_lastInputTokens := tokens |} in
        match generateSummary svc
                (toSummarize ++ [Some (userMessage "Summarize the conversation above.")]) with
        | Throw e => (with_model (mc_lastInputTokens c), l, Throw e)
        | Ok summary =>
            let l' := Some (summaryMessage summary) :: toKeep in
            (with_model 0%Z, l',
             Ok (Some {| cr_originalMessageCount := length l;
                         cr_newMessageCount := length l';
                         cr_summaryPreview := str_take 200 summary |}))
        end
    end.

(** What compaction does to the array: it either leaves it alone or replaces all
    but the last [keepRecentMessages] by one summary. *)
Lemma compact_shape svc c l :
  let '(_, l', r) := compact svc c l in
  (l' = l ∧ ∀ v, r ≠ Ok (Some v)) ∨
  ∃ summary, let k := ac_keepRecentMessages (mc_config c) in
    MIN_MESSAGES_TO_COMPACT + k ≤ length l ∧
    l' = Some (summaryMessage summary) :: drop (length l - k) l ∧
    length l' = S k ∧ is_ok r.
Proof.
  unfold compact, MIN_MESSAGES_TO_COMPACT.
  set (k := ac_keepRecentMessages (mc_config c)).
  destruct (Nat.ltb_spec (length l - k `min` length l) 4) as [?|Hl]; [by left|].
  destruct (if mc_summaryModel c then _ else _); [|by left].
  destruct (generateSummary _ _) as [summary|]; [|by left].
  right. exists summary. rewrite Nat.min_l by lia.
  split_and!; [lia|done| |by eexists].
  simpl. rewrite length_drop. lia.
Qed.

(** A compaction that happened resets the recorded input size. *)
Lemma compact_resets svc c l r :
  (compact svc c l).2 = Ok (Some r) →
  let '(c', l', _) := compact svc c l in
  mc_config c' = mc_config c ∧ mc_lastInputTokens c' = 0%Z ∧ ∃ summary,
    let k := ac_keepRecentMessages (mc_config c) in
    MIN_MESSAGES_TO_COMPACT + k ≤ length l ∧
    l' = Some (summaryMessage summary) :: drop (length l - k) l ∧ length l' = S k.
Proof.
  intros Hr. pose proof (compact_shape svc c l) as Hs.
  assert (Hc : mc_config (compact svc c l).1.1 = mc_config c ∧
               mc_lastInputTokens (compact svc c l).1.1 = 0%Z).
  { revert Hr. unfold compact. repeat case_match; simpl; done. }
  destruct (compact svc c l) as [[c' l'] r']. simpl in *. subst r'.
  destruct Hc as [-> ->]. split_and!; [done..|].
  destruct Hs as [[_ Hs]|(summary & Hk & -> & Hl & _)]; [by destruct (Hs r)|]. by exists summary.
Qed.

(** ** Truncation *)

Definition DEFAULT_RESULT_SIZE_LIMIT : Z := 100000.

Definition digit (a : ascii) : option Z :=
  let n := nat_of_ascii a in
  if ((48 <=? n) && (n <=? 57))%nat then Some (Z.of_nat n - 48)%Z else None.

(** The leading decimal digits of a string; [None]: there are none. *)
Fixpoint leading_digits (acc : option Z) (s : string) : option Z :=
  match s with
  | "" => acc
  | String a s =>
      match digit a with
      | Some d => leading_digits (Some (default 0 acc * 10 + d)%Z) s
      | None => acc
      end
  end.

(** [parseInt(s, 10)]; [None] is [NaN]. *)
Definition parseInt10 (s : string) : option Z :=
  match trim_start s with
  | String "-" s => Z.opp <$> leading_digits None s
  | String "+" s => leading_digits None s
  | s => leading_digits None s
  end.

(** [getResultSizeLimit], from the value of RESULT_SIZE_LIMIT. *)
Definition getResultSizeLimit (envVal : option string) : Z :=
  match envVal ≫= parseInt10 with
  | Some parsed => if bool_decide (0 < parsed)%Z then parsed else DEFAULT_RESULT_SIZE_LIMIT
  | None => DEFAULT_RESULT_SIZE_LIMIT
  end.

(** *** Decoding UTF-8 with replacement, as [Buffer.toString] does *)

Definition REPLACEMENT : string :=
  String (ascii_of_nat 239) (String (ascii_of_nat 191) (String (ascii_of_nat 189) "")).

Inductive utf8_state :=
| Utf8Start
| Utf8Pending (needed lower upper : nat) (seen : string).

(** A byte at the start of a character: the next state and the output. *)
Definition utf8_start (b : ascii) : utf8_state * string :=
  let n := nat_of_ascii b in
  let lead needed lower upper := (Utf8Pending needed lower upper (String b ""), "") in
  if (n <? 128)%nat then (Utf8Start, String b "")
  else if (n <? 194)%nat then (Utf8Start, REPLACEMENT)
  else if (n <? 224)%nat then lead 1 128 191
  else if (n =? 224)%nat then lead 2 160 191
  else if (n =? 237)%nat then lead 2 128 159
  else if (n <? 240)%nat then lead 2 128 191
  else if (n =? 240)%nat then lead 3 144 191
  else if (n <? 244)%nat then lead 3 128 191
  else if (n =? 244)%nat then lead 3 128 143
  else (Utf8Start, REPLACEMENT).

Definition utf8_byte (st : utf8_state) (b : ascii) : utf8_state * string :=
  match st with
  | Utf8Start => utf8_start b
  | Utf8Pending needed lower upper seen =>
      let n := nat_of_ascii b in
      if ((lower <=? n) && (n <=? upper))%nat then
        let seen := seen +:+ String b "" in
        match needed with
        | S (S needed) => (Utf8Pending (S needed) 128 191 seen, "")
        | _ => (Utf8Start, seen)
        end
      else let '(st, out) := utf8_start b in (st, REPLACEMENT +:+ out)
  end.

Fixpoint utf8_run (st : utf8_state) (s : string) : string :=
  match s with
  | "" => match st with Utf8Start => "" | Utf8Pending _ _ _ _ => REPLACEMENT end
  | String b s => let '(st, out) := utf8_byte st b in out +:+ utf8_run st s
  end.

(** [buf.toString('utf-8')], as the bytes of the string it gives. *)
Definition utf8_decode (buf : string) : string := utf8_run Utf8Start buf.

Definition truncationMarker (truncatedBytes : nat) : string :=
  newline +:+ "[... truncated " +:+ show_nat truncatedBytes +:+ " bytes ...]" +:+ newline.

Definition truncateString (s : string) (maxBytes : nat) : string :=
  let size := String.length s in
  if (size <=? maxBytes)%nat then s
  else
    let realMarker := truncationMarker (size - maxBytes) in
    let markerBytes := String.length realMarker in
    if (maxBytes <=? markerBytes)%nat then realMarker
    else
      let available := maxBytes - markerBytes in
      let headBytes := available * 4 / 5 in
      let tailBytes := available - headBytes in
      let head := utf8_decode (str_take headBytes s) in
      let tail := if (0 <? tailBytes)%nat then utf8_decode (str_drop (size - tailBytes) s) else "" in
      head +:+ realMarker +:+ tail.

Record TruncationResult := {
  tr_value : jsvalue;
  tr_truncated : bool;
  tr_originalSize : nat;
  tr_finalSize : nat;
}.

(** [truncateResult(value, limit)]. *)
Definition truncateResult `{Runtime} (value : jsvalue) (limit : nat) : TruncationResult :=
  match value with
  | VUndefined =>
      {| tr_value := value; tr_truncated := false; tr_originalSize := 0; tr_finalSize := 0 |}
  | _ =>
      let json := json_stringify value in
      let originalSize := String.length json in
      if (originalSize <=? limit)%nat then
        {| tr_value := value; tr_truncated := false;
           tr_originalSize := originalSize; tr_finalSize := originalSize |}
      else
        let truncated := truncateString json limit in
        {| tr_value := VStr truncated; tr_truncated := true;
           tr_originalSize := originalSize; tr_finalSize := String.length truncated |}
  end.

(** *** ASCII strings survive decoding *)

Definition is_ascii (a : ascii) : bool := (nat_of_ascii a <? 128)%nat.

Lemma utf8_decode_ascii s : str_forallb is_ascii s = true → utf8_decode s = s.
Proof.
  unfold utf8_decode. induction s as [|a s IH]; [done|]. cbn [str_forallb utf8_run utf8_byte].
  intros H. bool_hyps. unfold utf8_start. unfold is_ascii in *.
  destruct (nat_of_ascii a <? 128); [|done]. by rewrite IH.
Qed.

Lemma str_forallb_drop f n s : str_forallb f s = true → str_forallb f (str_drop n s) = true.
Proof.
  revert s. induction n as [|n IH]; intros [|a s]; try done. cbn [str_drop str_forallb].
  rewrite andb_true_iff. naive_solver.
Qed.

Lemma truncateString_ascii s maxBytes :
  str_forallb is_ascii s = true → maxBytes < String.length s →
  let marker := truncationMarker (String.length s - maxBytes) in
  String.length marker < maxBytes →
  let available := maxBytes - String.length marker in
  let headBytes := available * 4 / 5 in
  truncateString s maxBytes =
    str_take headBytes s +:+ marker +:+ str_drop (String.length s - (available - headBytes)) s
  ∧ String.length (truncateString s maxBytes) = maxBytes.
Proof.
  intros Hs Hlt marker Hm available headBytes.
  assert (Hh : headBytes < available).
  { apply Nat.Div0.div_lt_upper_bound. subst available. lia. }
  assert (He : truncateString s maxBytes =
    str_take headBytes s +:+ marker +:+ str_drop (String.length s - (available - headBytes)) s).
  { unfold truncateString. fold marker. fold available. fold headBytes.
    rewrite (proj2 (Nat.leb_gt _ _)), (proj2 (Nat.leb_gt _ _)), (proj2 (Nat.ltb_lt 0 _)) by lia.
    rewrite !utf8_decode_ascii by auto using str_forallb_take, str_forallb_drop. done. }
  split; [done|]. rewrite He, !str_length_app, str_length_take, str_length_drop.
  subst available. lia.
Qed.
