(* ===== verification/Session.v ===== *)
(** * The agent session

    Models src/session/agent-session.ts.  A session is a state and the events
    that change it: its methods (sendMessage, rotateAgentConversationId, close,
    initialize), the callbacks that the language-model library makes during a
    turn (execute_code, onStepFinish, the stop conditions), and the ends of what
    it awaits (compaction, sandbox runs, generateText, the sandbox shutdown).  An
    event happens between two awaits; events interleave freely where the code
    allows it. *)

From Stdlib Require Import QArith Qround Qcanon.
From S2P Require Import Prelude Numbers JsValue Hashing StepLoop Budget Messages.

Definition MAX_AGENT_STEPS : nat := 100.

Inductive SessionStatus := Initializing | Ready | Processing | Stopping | Closed.

#[export] Instance SessionStatus_eq_dec : EqDecision SessionStatus.
Proof. solve_decision. Defined.

Definition status_name (s : SessionStatus) : string :=
  match s with
  | Initializing => "initializing" | Ready => "ready" | Processing => "processing"
  | Stopping => "stopping" | Closed => "closed"
  end.

Inductive DiagnosticEvent :=
| DiagToolCall (toolName preview : string)
| DiagAgentText (preview : string)
| DiagLoopDetection (blocked : bool) (category message : string)
| DiagResultTruncation (originalKB finalKB : Qc)
| DiagBudgetWarning (dimension : string) (percentUsed : Z) (message : string)
| DiagBudgetExhausted (dimension message : string)
| DiagMessageCompaction (r : CompactionResult).

(** A finished turn; the timestamp in milliseconds. *)
Record ConversationTurn := {
  ct_turnNumber : nat;
  ct_userMessage : string;
  ct_assistantResponse : string;
  ct_promptTokens : Z;
  ct_completionTokens : Z;
  ct_totalTokens : Z;
  ct_cacheReadTokens : Z;
  ct_cacheWriteTokens : Z;
  ct_timestamp : Z;
}.

(** What a rejected promise of the session carries. *)
Inductive SessionError :=
| SessionNotReadyError (status : SessionStatus)
| SessionClosedError
| BudgetExhaustedError (dimension message : string)
| OtherError (message : string).

(** Why a turn fails; an error whose name is AbortError is told apart. *)
Inductive TurnFailure := AbortError | TurnError (e : SessionError).

(** What [sendMessage] awaits. *)
Inductive TurnPhase := AwaitCompaction | AwaitGeneration.

#[export] Instance TurnPhase_eq_dec : EqDecision TurnPhase.
Proof. solve_decision. Defined.

(** The local variables of a running [sendMessage], with the counter of its stop
    condition. *)
Record ActiveTurn := {
  at_userMessage : string;
  at_turnStart : Z;
  at_messageCountBefore : nat;
  at_remainingMs : option Qc;
  at_processedCount : nat;
  at_phase : TurnPhase;
}.

Record SessionConfig := {
  sc_agentModelId : string;
  sc_budgetModelId : string;     (** after the host profile's model map *)
  sc_resourceBudget : ResolvedResourceBudgetConfig;
  sc_autoCompact : ResolvedAutoCompactConfig;
  sc_resultSizeLimit : option string;    (** the environment's RESULT_SIZE_LIMIT *)
}.

Record AgentSession := {
  ss_config : SessionConfig;
  ss_status : SessionStatus;
  ss_sandbox : bool;             (** [sandbox !== null] *)
  ss_closing : bool;             (** a close awaits the sandbox's shutdown *)
  ss_model : bool;               (** [model !== null] *)
  ss_messages : messages;
  ss_turns : list ConversationTurn;
  ss_diagnosticLog : list DiagnosticEvent;
  ss_loopDetector : StepLoopDetector;
  ss_budgetTracker : ResourceBudgetTracker;
  ss_compactor : MessageCompactor;
  ss_cacheStrategy : PromptCacheStrategy;
  ss_lastStepInputTokens : Z;
  ss_userContext : option string;        (** the escalation directory's user-context.json *)
  ss_active : option ActiveTurn;
  ss_running : list string;      (** code in the sandbox *)
}.

(** The fields that the constructor sets. *)
Definition initialSession (config : SessionConfig) (strategy : PromptCacheStrategy) : AgentSession :=
  {| ss_config := config; ss_status := Initializing; ss_sandbox := false; ss_closing := false;
     ss_model := false; ss_messages := []; ss_turns := []; ss_diagnosticLog := [];
     ss_loopDetector := newStepLoopDetector None None;
     ss_budgetTracker := newResourceBudgetTracker (sc_resourceBudget config) (sc_budgetModelId config);
     ss_compactor := newMessageCompactor (sc_autoCompact config);
     ss_cacheStrategy := strategy; ss_lastStepInputTokens := 0; ss_userContext := None;
     ss_active := None; ss_running := [] |}.

Definition newAgentSession (config : SessionConfig) : result AgentSession :=
  initialSession config <$> createCacheStrategy (sc_agentModelId config).

(** ** Updates *)

Definition set_status (v : SessionStatus) (s : AgentSession) : AgentSession :=
  {| ss_config := ss_config s; ss_status := v; ss_sandbox := ss_sandbox s;
     ss_closing := ss_closing s; ss_model := ss_model s; ss_messages := ss_messages s;
     ss_turns := ss_turns s; ss_diagnosticLog := ss_diagnosticLog s;
     ss_loopDetector := ss_loopDetector s; ss_budgetTracker := ss_budgetTracker s;
     ss_compactor := ss_compactor s; ss_cacheStrategy := ss_cacheStrategy s;
     ss_lastStepInputTokens := ss_lastStepInputTokens s; ss_userContext := ss_userContext s;
     ss_active := ss_active s; ss_running := ss_running s |}.

Definition set_resources (sandbox closing model : bool) (s : AgentSession) : AgentSession :=
  {| ss_config := ss_config s; ss_status := ss_status s; ss_sandbox := sandbox;
     ss_closing := closing; ss_model := model; ss_messages := ss_messages s;
     ss_turns := ss_turns s; ss_diagnosticLog := ss_diagnosticLog s;
     ss_loopDetector := ss_loopDetector s; ss_budgetTracker := ss_budgetTracker s;
     ss_compactor := ss_compactor s; ss_cacheStrategy := ss_cacheStrategy s;
     ss_lastStepInputTokens := ss_lastStepInputTokens s; ss_userContext := ss_userContext s;
     ss_active := ss_active s; ss_running := ss_running s |}.

(** The conversation: its messages, the compactor and the last input size. *)
Definition set_conversation (l : messages) (c : MessageCompactor) (tokens : Z) (s : AgentSession)
    : AgentSession :=
  {| ss_config := ss_config s; ss_status := ss_status s; ss_sandbox := ss_sandbox s;
     ss_closing := ss_closing s; ss_model := ss_model s; ss_messages := l;
     ss_turns := ss_turns s; ss_diagnosticLog := ss_diagnosticLog s;
     ss_loopDetector := ss_loopDetector s; ss_budgetTracker := ss_budgetTracker s;
     ss_compactor := c; ss_cacheStrategy := ss_cacheStrategy s;
     ss_lastStepInputTokens := tokens; ss_userContext := ss_userContext s;
     ss_active := ss_active s; ss_running := ss_running s |}.

Definition set_messages (l : messages) (s : AgentSession) : AgentSession :=
  set_conversation l (ss_compactor s) (ss_lastStepInputTokens s) s.

Definition set_turns (l : list ConversationTurn) (s : AgentSession) : AgentSession :=
  {| ss_config := ss_config s; ss_status := ss_status s; ss_sandbox := ss_sandbox s;
     ss_closing := ss_closing s; ss_model := ss_model s; ss_messages := ss_messages s;
     ss_turns := l; ss_diagnosticLog := ss_diagnosticLog s;
     ss_loopDetector := ss_loopDetector s; ss_budgetTracker := ss_budgetTracker s;
     ss_compactor := ss_compactor s; ss_cacheStrategy := ss_cacheStrategy s;
     ss_lastStepInputTokens := ss_lastStepInputTokens s; ss_userContext := ss_userContext s;
     ss_active := ss_active s; ss_running := ss_running s |}.

Definition emitDiagnostic (e : DiagnosticEvent) (s : AgentSession) : AgentSession :=
  {| ss_config := ss_config s; ss_status := ss_status s; ss_sandbox := ss_sandbox s;
     ss_closing := ss_closing s; ss_model := ss_model s; ss_messages := ss_messages s;
     ss_turns := ss_turns s; ss_diagnosticLog := ss_diagnosticLog s ++ [e];
     ss_loopDetector := ss_loopDetector s; ss_budgetTracker := ss_budgetTracker s;
     ss_compactor := ss_compactor s; ss_cacheStrategy := ss_cacheStrategy s;
     ss_lastStepInputTokens := ss_lastStepInputTokens s; ss_userContext := ss_userContext s;
     ss_active := ss_active s; ss_running := ss_running s |}.

Definition set_guards (d : StepLoopDetector) (b : ResourceBudgetTracker) (s : AgentSession)
    : AgentSession :=
  {| ss_config := ss_config s; ss_status := ss_status s; ss_sandbox := ss_sandbox s;
     ss_closing := ss_closing s; ss_model := ss_model s; ss_messages := ss_messages s;
     ss_turns := ss_turns s; ss_diagnosticLog := ss_diagnosticLog s;
     ss_loopDetector := d; ss_budgetTracker := b;
     ss_compactor := ss_compactor s; ss_cacheStrategy := ss_cacheStrategy s;
     ss_lastStepInputTokens := ss_lastStepInputTokens s; ss_userContext := ss_userContext s;
     ss_active := ss_active s; ss_running := ss_running s |}.

Definition set_tracker (b : ResourceBudgetTracker) (s : AgentSession) : AgentSession :=
  set_guards (ss_loopDetector s) b s.

Definition set_userContext (v : option string) (s : AgentSession) : AgentSession :=
  {| ss_config := ss_config s; ss_status := ss_status s; ss_sandbox := ss_sandbox s;
     ss_closing := ss_closing s; ss_model := ss_model s; ss_messages := ss_messages s;
     ss_turns := ss_turns s; ss_diagnosticLog := ss_diagnosticLog s;
     ss_loopDetector := ss_loopDetector s; ss_budgetTracker := ss_budgetTracker s;
     ss_compactor := ss_compactor s; ss_cacheStrategy := ss_cacheStrategy s;
     ss_lastStepInputTokens := ss_lastStepInputTokens s; ss_userContext := v;
     ss_active := ss_active s; ss_running := ss_running s |}.

(** What is in progress: the turn and the sandbox runs. *)
Definition set_progress (t : option ActiveTurn) (running : list string) (s : AgentSession)
    : AgentSession :=
  {| ss_config := ss_config s; ss_status := ss_status s; ss_sandbox := ss_sandbox s;
     ss_closing := ss_closing s; ss_model := ss_model s; ss_messages := ss_messages s;
     ss_turns := ss_turns s; ss_diagnosticLog := ss_diagnosticLog s;
     ss_loopDetector := ss_loopDetector s; ss_budgetTracker := ss_budgetTracker s;
     ss_compactor := ss_compactor s; ss_cacheStrategy := ss_cacheStrategy s;
     ss_lastStepInputTokens := ss_lastStepInputTokens s; ss_userContext := ss_userContext s;
     ss_active := t; ss_running := running |}.

Definition set_active (t : option ActiveTurn) (s : AgentSession) : AgentSession :=
  set_progress t (ss_running s) s.

(** ** What the session does to the outside *)

Inductive Output :=
| OModelCall (l : messages)              (** generateText is called with this history *)
| ORan (code : string)                   (** the sandbox starts running code *)
| OToolResult (o : object jsvalue)       (** execute_code returns to the model *)
| OToolThrow (message : string)          (** execute_code throws *)
| OStop (b : bool)                       (** the answer of the stop conditions *)
| OReply (text : string)                 (** sendMessage resolves *)
| OReject (e : SessionError)             (** a method rejects *)
| OConversationId.                       (** a fresh conversation id *)

Inductive Event :=
| EvInitialize (sandbox model : result ())
| EvSendMessage (now : Z) (userMessage : string) (contextWritten : bool)
| EvCompacted (now : Z) (svc : Summarizer)
| EvExecuteCode (now : Z) (code : string)
| EvCodeFinished (code : string) (outcome : result (jsvalue * list string))
| EvStepFinish (usage : option LanguageModelUsage) (toolCalls : list (string * option string))
    (text : string)
| EvStopWhen (now : Z) (steps : list LanguageModelUsage)
| EvGenerated (now : Z) (responseMessages : list Message) (text : string)
    (totalUsage : LanguageModelUsage)
| EvFailed (now : Z) (e : TurnFailure)
| EvRotate
| EvClose
| EvShutdown.

Section session.
Context `{Runtime, Locale}.

(** ** The turn *)

Definition emitBudgetExhausted (dimension message : string) : AgentSession → AgentSession :=
  emitDiagnostic (DiagBudgetExhausted dimension message).

(** The [catch] and [finally] blocks of [sendMessage]. *)
Definition failTurn (now : Z) (e : TurnFailure) (t : ActiveTurn) (s : AgentSession)
    : AgentSession * list Output :=
  let s := set_messages (set_length (at_messageCountBefore t) (ss_messages s)) s in
  let s := set_status Ready s in
  let '(s, err) :=
    match e with
    | AbortError =>
        let '(b, exhausted) := isExhausted now (ss_budgetTracker s) in
        let s := set_tracker b s in
        let dimension := default "wall_clock" (dimension_name ∘ ev_dimension <$> exhausted) in
        let message := default "Session aborted: wall-clock time budget exceeded"
                         (ev_message <$> exhausted) in
        (emitBudgetExhausted dimension message s, BudgetExhaustedError dimension message)
    | TurnError err => (s, err)
    end in
  (set_active None (set_tracker (endTurn now (ss_budgetTracker s)) s), [OReject err]).

Definition in_phase (phase : TurnPhase) (t : ActiveTurn) : ActiveTurn :=
  {| at_userMessage := at_userMessage t; at_turnStart := at_turnStart t;
     at_messageCountBefore := at_messageCountBefore t; at_remainingMs := at_remainingMs t;
     at_processedCount := at_processedCount t; at_phase := phase |}.

(** From the compaction to the call of [generateText]. *)
Definition beginGeneration (now : Z) (t : ActiveTurn) (s : AgentSession)
    : AgentSession * list Output :=
  if negb (ss_model s) then failTurn now (TurnError (SessionNotReadyError (ss_status s))) t s
  else
    match applyHistoryBreakpoint (ss_cacheStrategy s) (ss_messages s) with
    | Throw e => failTurn now (TurnError (OtherError e)) t s
    | Ok history => (set_active (Some (in_phase AwaitGeneration t)) s, [OModelCall history])
    end.

Definition sendMessage (now : Z) (msg : string) (contextWritten : bool) (s : AgentSession)
    : AgentSession * list Output :=
  match ss_status s with
  | Closed => (s, [OReject SessionClosedError])
  | Ready =>
      let s := set_tracker (startTurn now (ss_budgetTracker s)) s in
      let s := set_status Processing s in
      let t := {| at_userMessage := msg; at_turnStart := now;
                  at_messageCountBefore := length (ss_messages s);
                  at_remainingMs := getRemainingWallClockMs now (ss_budgetTracker s);
                  at_processedCount := 0; at_phase := AwaitCompaction |} in
      let s := set_messages (ss_messages s ++ [Some (userMessage msg)]) s in
      let s := if contextWritten then set_userContext (Some msg) s else s in
      if shouldCompact (ss_compactor s) then (set_active (Some t) s, [])
      else beginGeneration now t s
  | status => (s, [OReject (SessionNotReadyError status)])
  end.

(** The compaction ends.  Its request carries no abort signal, so its errors are
    not abort errors. *)
Definition compactionDone (now : Z) (svc : Summarizer) (t : ActiveTurn) (s : AgentSession)
    : AgentSession * list Output :=
  let '(c, l, r) := compact svc (ss_compactor s) (ss_messages s) in
  let s := set_conversation l c (ss_lastStepInputTokens s) s in
  match r with
  | Throw e => failTurn now (TurnError (OtherError e)) t s
  | Ok None => beginGeneration now t s
  | Ok (Some r) => beginGeneration now t (emitDiagnostic (DiagMessageCompaction r) s)
  end.

(** ** The execute_code tool *)

Definition KB (bytes : nat) : Qc := (qc_of_Z (Z.of_nat bytes) / qc_of_Z 1024)%Qc.

Definition formatKB (bytes : nat) : string := toFixed 1 (KB bytes) +:+ "KB".

(** [+q.toFixed(1)] *)
Definition round_tenth (q : Qc) : Qc := qc (Qfloor (this q * inject_Z 10 + (1 # 2))) 10.

Definition executeCode (now : Z) (code : string) (s : AgentSession) : AgentSession * list Output :=
  if negb (ss_sandbox s) then (s, [OToolThrow "Sandbox not initialized"])
  else
    let '(b, budgetBlock) := isExhausted now (ss_budgetTracker s) in
    let s := set_tracker b s in
    match budgetBlock with
    | Some v => (s, [OToolResult [("error", VStr (ev_message v))]])
    | None =>
        match isBlocked (ss_loopDetector s) with
        | Some v => (s, [OToolResult [("error", VStr (bv_message v))]])
        | None => (set_progress (ss_active s) (code :: ss_running s) s, [ORan code])
        end
    end.

Definition with_warning (message : string) (output : object jsvalue) : object jsvalue :=
  let existing := match get_value output "warning" with VStr w => w | _ => "" end in
  obj_set output "warning"
    (VStr (if existing =? "" then message else existing +:+ " | " +:+ message)).

Definition applyLoopVerdict (code : string) (output : object jsvalue) (s : AgentSession)
    : AgentSession * list Output :=
  let '(d, verdict) := analyzeStep (ss_loopDetector s) code (VObj output) in
  let s := set_guards d (ss_budgetTracker s) s in
  let warned blocked message category :=
    (emitDiagnostic (DiagLoopDetection blocked (category_name category) message) s,
     [OToolResult (with_warning message output)]) in
  match verdict with
  | StepAllow => (s, [OToolResult output])
  | StepWarn message category => warned false message category
  | StepBlock v => warned true (bv_message v) (bv_category v)
  end.

(** [sandbox.executeCode] settles. *)
Definition codeFinished (code : string) (outcome : result (jsvalue * list string))
    (s : AgentSession) : AgentSession * list Output :=
  match outcome with
  | Throw message => applyLoopVerdict code [("error", VStr message)] s
  | Ok (value, logs) =>
      let output := match logs with [] => [] | _ => [("console", VArr (VStr <$> logs))] end in
      let limit := Z.to_nat (getResultSizeLimit (sc_resultSizeLimit (ss_config s))) in
      let truncation := truncateResult value limit in
      let output := obj_set output "result" (tr_value truncation) in
      if tr_truncated truncation then
        let warning :=
          "Tool result truncated from " +:+ formatKB (tr_originalSize truncation) +:+ " to "
          +:+ formatKB (tr_finalSize truncation)
          +:+ ". Use targeted reads (head/tail parameters) for specific portions." in
        applyLoopVerdict code (obj_set output "warning" (VStr warning))
          (emitDiagnostic (DiagResultTruncation (round_tenth (KB (tr_originalSize truncation)))
             (round_tenth (KB (tr_finalSize truncation)))) s)
      else applyLoopVerdict code output s
  end.

(** ** The callbacks of a step *)

Fixpoint escape_newlines (s : string) : string :=
  match s with
  | "" => ""
  | String a s =>
      (if String a "" =? newline then backslash +:+ "n" else String a "") +:+ escape_newlines s
  end.

Definition preview (n : nat) (s : string) : string :=
  str_take n s +:+ (if (n <? String.length s)%nat then "..." else "").

(** The preview of code escapes the newlines of its first 120 characters. *)
Definition codePreview (code : string) : string :=
  escape_newlines (str_take 120 code) +:+ (if (120 <? String.length code)%nat then "..." else "").

Definition emitToolCall (s : AgentSession) (tc : string * option string) : AgentSession :=
  match tc with
  | (toolName, Some code) =>
      if toolName =? "execute_code"
      then emitDiagnostic (DiagToolCall toolName (codePreview code)) s
      else s
  | _ => s
  end.

Definition emitBudgetWarnings (s : AgentSession) : AgentSession :=
  let '(b, warnings) := getActiveWarnings (ss_budgetTracker s) in
  foldl (λ s w, emitDiagnostic
           (DiagBudgetWarning (dimension_name (wv_dimension w)) (wv_percentUsed w) (wv_message w)) s)
    (set_tracker b s) warnings.

Definition onStepFinish (usage : option LanguageModelUsage)
    (toolCalls : list (string * option string)) (text : string) (s : AgentSession) : AgentSession :=
  let s := set_conversation (ss_messages s) (ss_compactor s)
             (default 0%Z (usage ≫= u_inputTokens)) s in
  let s := foldl emitToolCall s toolCalls in
  let s := if text =? "" then s else emitDiagnostic (DiagAgentText (preview 200 text)) s in
  emitBudgetWarnings s.

(** The two conditions of [stopWhen]: any of them stops the loop. *)
Definition stopWhen (now : Z) (steps : list LanguageModelUsage) (t : ActiveTurn) (s : AgentSession)
    : AgentSession * list Output :=
  let '(b, processed, stop) :=
    stopCondition now steps (at_processedCount t) (ss_budgetTracker s) in
  let t := {| at_userMessage := at_userMessage t; at_turnStart := at_turnStart t;
              at_messageCountBefore := at_messageCountBefore t; at_remainingMs := at_remainingMs t;
              at_processedCount := processed; at_phase := at_phase t |} in
  (set_active (Some t) (set_tracker b s),
   [OStop ((length steps =? MAX_AGENT_STEPS)%nat || stop)]).

Definition recordTurn (t : ActiveTurn) (text : string) (usage : LanguageModelUsage)
    (s : AgentSession) : ConversationTurn :=
  {| ct_turnNumber := length (ss_turns s) + 1;
     ct_userMessage := at_userMessage t; ct_assistantResponse := text;
     ct_promptTokens := default 0%Z (u_inputTokens usage);
     ct_completionTokens := default 0%Z (u_outputTokens usage);
     ct_totalTokens := default 0%Z (u_totalTokens usage);
     ct_cacheReadTokens := default 0%Z (u_cacheReadTokens usage);
     ct_cacheWriteTokens := default 0%Z (u_cacheWriteTokens usage);
     ct_timestamp := at_turnStart t |}.

(** [generateText] resolves: the rest of the [try] block and the [finally]. *)
Definition generated (now : Z) (responseMessages : list Message) (text : string)
    (totalUsage : LanguageModelUsage) (t : ActiveTurn) (s : AgentSession)
    : AgentSession * list Output :=
  let '(b, postCheck) := isExhausted now (ss_budgetTracker s) in
  let s := set_tracker b s in
  let s := match postCheck with
           | Some v => emitBudgetExhausted (dimension_name (ev_dimension v)) (ev_message v) s
           | None => s
           end in
  let s := set_conversation (ss_messages s ++ (Some <$> responseMessages))
             (recordInputTokens (ss_lastStepInputTokens s) (ss_compactor s))
             (ss_lastStepInputTokens s) s in
  let s := set_turns (ss_turns s ++ [recordTurn t text totalUsage s]) s in
  let s := set_status Ready s in
  (set_active None (set_tracker (endTurn now (ss_budgetTracker s)) s), [OReply text]).

(** ** The other methods *)

Definition initialize (sandbox model : result ()) (s : AgentSession) : AgentSession * list Output :=
  match sandbox with
  | Throw e => (s, [OReject (OtherError e)])
  | Ok _ =>
      let s := set_resources true (ss_closing s) (ss_model s) s in
      match model with
      | Throw e => (s, [OReject (OtherError e)])
      | Ok _ => (set_status Ready (set_resources true (ss_closing s) true s), [])
      end
  end.

Definition rotateAgentConversationId (s : AgentSession) : AgentSession * list Output :=
  match ss_status s with
  | Closed => (s, [OReject SessionClosedError])
  | Ready =>
      (set_guards (resetDetector (ss_loopDetector s)) (ss_budgetTracker s)
         (set_conversation [] (recordInputTokens 0 (ss_compactor s)) 0 s), [OConversationId])
  | status => (s, [OReject (SessionNotReadyError status)])
  end.

Definition close (s : AgentSession) : AgentSession * list Output :=
  match ss_status s with
  | Closed => (s, [])
  | _ => (set_status Closed (set_resources (ss_sandbox s) (ss_sandbox s) (ss_model s) s), [])
  end.

(** ** Events *)

(** The turn in a phase, if it is there. *)
Definition turn_in (phase : TurnPhase) (s : AgentSession) : option ActiveTurn :=
  match ss_active s with
  | Some t => if at_phase t =? phase then Some t else None
  | None => None
  end.

Fixpoint remove_one (code : string) (l : list string) : option (list string) :=
  match l with
  | [] => None
  | c :: l => if c =? code then Some l else (c ::.) <$> remove_one code l
  end.

(** One event; [None]: it cannot happen in this state. *)
Definition step (s : AgentSession) (e : Event) : option (AgentSession * list Output) :=
  match e with
  | EvInitialize sandbox model =>
      match ss_status s with Initializing => Some (initialize sandbox model s) | _ => None end
  | EvSendMessage now msg written => Some (sendMessage now msg written s)
  | EvCompacted now svc => t ← turn_in AwaitCompaction s; Some (compactionDone now svc t s)
  | EvExecuteCode now code => _ ← turn_in AwaitGeneration s; Some (executeCode now code s)
  | EvCodeFinished code outcome =>
      running ← remove_one code (ss_running s);
      Some (codeFinished code outcome (set_progress (ss_active s) running s))
  | EvStepFinish usage toolCalls text =>
      _ ← turn_in AwaitGeneration s; Some (onStepFinish usage toolCalls text s, [])
  | EvStopWhen now steps => t ← turn_in AwaitGeneration s; Some (stopWhen now steps t s)
  | EvGenerated now responses text usage =>
      t ← turn_in AwaitGeneration s; Some (generated now responses text usage t s)
  | EvFailed now e => t ← turn_in AwaitGeneration s; Some (failTurn now e t s)
  | EvRotate => Some (rotateAgentConversationId s)
  | EvClose => Some (close s)
  | EvShutdown =>
      if ss_closing s then Some (set_resources false false (ss_model s) s, []) else None
  end.

(** A sequence of events, with what the session did. *)
Fixpoint run (s : AgentSession) (es : list Event) : option (AgentSession * list Output) :=
  match es with
  | [] => Some (s, [])
  | e :: es =>
      '(s1, out1) ← step s e;
      '(s2, out2) ← run s1 es;
      Some (s2, out1 ++ out2)
  end.

Inductive reachable (config : SessionConfig) : AgentSession → Prop :=
| reachable_new s : newAgentSession config = Ok s → reachable config s
| reachable_step s e s' out :
    reachable config s → step s e = Some (s', out) → reachable config s'.
End session.
