(* ===== verification/WorkflowTypes.v ===== *)
(** * Workflow definitions, contexts and events

    Models the data of src/workflow/types.ts: definitions, agent outputs, machine
    contexts, events, statuses and checkpoints.  A record of the source indexed by
    state names is an [object]; an optional field is an [option]; the fields that a
    component never reads are left out.  Rounds, visits and lanes are integers. *)

From S2P Require Import Prelude JsValue.

(** ** Constants *)

Definition WORKFLOW_ARTIFACT_DIR : string := ".workflow".
Definition GLOBAL_PERSONA : string := "global".
Definition SKILLS_NONE : string := "none".
Definition DEFAULT_CONTAINER_SCOPE : string := "primary".
Definition DETERMINISTIC_RESULT_ERROR_VERDICT : string := "result_file_error".

(** ** Transitions *)

(** [WorkflowTransitionAction]: the closed set has one variant. *)
Inductive WorkflowTransitionAction :=
| ActResetVisitCounts (stateIds : list string).

Definition action_stateIds (a : WorkflowTransitionAction) : list string :=
  match a with ActResetVisitCounts l => l end.

Record AgentTransitionDefinition := {
  t_to : string;
  t_guard : option string;
  t_when : option (object jsvalue);
  t_actions : list WorkflowTransitionAction   (** absent: empty *)
}.

Inductive HumanGateEventType := APPROVE | FORCE_REVISION | REPLAN | ABORT.

#[export] Instance HumanGateEventType_eq_dec : EqDecision HumanGateEventType.
Proof. solve_decision. Defined.

Definition gate_event_name (e : HumanGateEventType) : string :=
  match e with
  | APPROVE => "APPROVE" | FORCE_REVISION => "FORCE_REVISION"
  | REPLAN => "REPLAN" | ABORT => "ABORT"
  end.

Record HumanGateTransitionDefinition := {
  g_to : string;
  g_event : HumanGateEventType;
  g_actions : list WorkflowTransitionAction
}.

(** [t.when?.verdict] *)
Definition when_verdict (t : AgentTransitionDefinition) : jsvalue :=
  match t_when t with Some w => get_value w "verdict" | None => VUndefined end.

(** [if (t.guard)]: the empty string is falsy. *)
Definition guard_set (t : AgentTransitionDefinition) : bool :=
  match t_guard t with Some g => negb (g =? "") | None => false end.

Definition when_set (t : AgentTransitionDefinition) : bool := bool_decide (is_Some (t_when t)).

(** ** States *)

Inductive FanOutCount := CountWorkers | CountNumber (n : Z).

(** [join] is always [barrier]. *)
Record FanOutDefinition := { fo_count : FanOutCount }.

Inductive SchedulePool := PoolEval | PoolAgent.

#[export] Instance SchedulePool_eq_dec : EqDecision SchedulePool.
Proof. solve_decision. Defined.

(** [skills]: a list of names, or the sentinel [none]. *)
Inductive SkillsField := SkillsNone | SkillsList (names : list string).

Record AgentStateDefinition := {
  a_description : string;
  a_persona : string;
  a_prompt : string;
  a_inputs : list string;
  a_outputs : list string;
  a_artifactHandoff : option (list string);     (** [requiredFiles] *)
  a_transitions : list AgentTransitionDefinition;
  a_fanOutMember : option bool;
  a_fanOut : option FanOutDefinition;
  a_segment : option (list string);
  a_schedule : option SchedulePool;
  a_freshSession : option bool;
  a_model : option string;
  a_maxVisits : option Z;
  a_containerScope : option string;
  a_skills : option SkillsField
}.

Record HumanGateStateDefinition := {
  h_description : string;
  h_acceptedEvents : list HumanGateEventType;
  h_present : option (list string);
  h_transitions : list HumanGateTransitionDefinition
}.

Record DeterministicStateDefinition := {
  d_description : string;
  d_run : list (list string);
  d_container : option bool;
  d_containerScope : option string;
  d_timeoutMs : option Z;
  d_resultFile : option string;
  d_fanOut : option FanOutDefinition;
  d_segment : option (list string);
  d_fanOutMember : option bool;
  d_schedule : option SchedulePool;
  d_transitions : list AgentTransitionDefinition
}.

Record TerminalStateDefinition := {
  z_description : string;
  z_outputs : option (list string);
  z_cleanup : option (list (list string))
}.

Inductive WorkflowStateDefinition :=
| SAgent (s : AgentStateDefinition)
| SHumanGate (s : HumanGateStateDefinition)
| SDeterministic (s : DeterministicStateDefinition)
| STerminal (s : TerminalStateDefinition).

(** The fields the two executable types share: agent and deterministic states. *)
Record ExecutableView := {
  x_transitions : list AgentTransitionDefinition;
  x_fanOut : option FanOutDefinition;
  x_segment : option (list string);
  x_fanOutMember : option bool;
  x_schedule : option SchedulePool
}.

Definition executable (s : WorkflowStateDefinition) : option ExecutableView :=
  match s with
  | SAgent a => Some {| x_transitions := a_transitions a; x_fanOut := a_fanOut a;
      x_segment := a_segment a; x_fanOutMember := a_fanOutMember a; x_schedule := a_schedule a |}
  | SDeterministic d => Some {| x_transitions := d_transitions d; x_fanOut := d_fanOut d;
      x_segment := d_segment d; x_fanOutMember := d_fanOutMember d; x_schedule := d_schedule d |}
  | SHumanGate _ | STerminal _ => None
  end.

Definition is_terminal (s : WorkflowStateDefinition) : bool :=
  match s with STerminal _ => true | _ => false end.
Definition is_human_gate (s : WorkflowStateDefinition) : bool :=
  match s with SHumanGate _ => true | _ => false end.

Inductive WorkflowMode := ModeDocker | ModeBuiltin.

#[export] Instance WorkflowMode_eq_dec : EqDecision WorkflowMode.
Proof. solve_decision. Defined.

Record WorkflowSettings := {
  ws_mode : option WorkflowMode;
  ws_maxRounds : option Z;
  ws_workers : option Z;
  ws_maxSessionSeconds : jsvalue;               (** a number, null or undefined *)
  ws_resourceBudget : option (object jsvalue);
  ws_unversionedArtifacts : option (list string);
  ws_sharedContainer : option bool;
  ws_snapshotOnStop : option bool
}.

Record WorkflowDefinition := {
  w_name : string;
  w_description : string;
  w_initial : string;
  w_states : object WorkflowStateDefinition;
  w_settings : option WorkflowSettings
}.

(** ** Agent output *)

Inductive Confidence := ConfHigh | ConfMedium | ConfLow.

Definition confidence_name (c : Confidence) : string :=
  match c with ConfHigh => "high" | ConfMedium => "medium" | ConfLow => "low" end.

Definition CONFIDENCE_VALUES : list string := ["high"; "medium"; "low"].

Record AgentOutput := {
  o_completed : bool;
  o_verdict : string;
  o_confidence : Confidence;
  o_escalation : option string;
  o_testCount : option Z;
  o_notes : option string
}.

Definition AGENT_OUTPUT_FIELDS : list string :=
  ["completed"; "verdict"; "confidence"; "escalation"; "testCount"; "notes"].

Definition str_or_null (o : option string) : jsvalue :=
  match o with Some s => VStr s | None => VNull end.

(** The output as the record that a [when] clause reads. *)
Definition output_object (o : AgentOutput) : object jsvalue :=
  [("completed", VBool (o_completed o)); ("verdict", VStr (o_verdict o));
   ("confidence", VStr (confidence_name (o_confidence o)));
   ("escalation", str_or_null (o_escalation o));
   ("testCount", match o_testCount o with Some n => VNum (num_of_Z n) | None => VNull end);
   ("notes", str_or_null (o_notes o))].

(** ** Events *)

Inductive WorkflowEvent :=
| AGENT_COMPLETED (output : AgentOutput)
| VALIDATION_PASSED (testCount : Z)
| VALIDATION_FAILED (errors : string)
| HUMAN (type : HumanGateEventType) (prompt : option string).

(** ** Context *)

Record DeterministicResult := {
  dr_verdict : option string;
  dr_payload : option (object jsvalue)
}.

(** [WorkflowLanePreparedResult] and [DeterministicInvokeResult]. *)
Record DeterministicInvokeResult := {
  di_passed : bool;
  di_testCount : option Z;
  di_errors : option string;
  di_verdict : option string;
  di_payload : option (object jsvalue)
}.

Record WorkflowLaneContext := {
  lane_id : nat;
  lane_dir : string;
  lane_relativeDir : string;
  lane_preparedResults : option (object DeterministicInvokeResult)
}.

Record WorkflowContext := {
  c_taskDescription : string;
  c_lane : option WorkflowLaneContext;
  c_artifacts : object string;
  c_round : Z;
  c_maxRounds : Z;
  c_previousOutputHashes : object string;
  c_previousTestCount : option Z;
  c_lastDeterministicResult : option DeterministicResult;
  c_humanPrompt : option string;
  c_reviewHistory : list string;
  c_totalTokens : Z;
  c_lastError : option string;
  c_agentConversationsByState : object string;
  c_previousAgentOutput : option string;
  c_previousAgentNotes : option string;
  c_previousStateName : option string;
  c_visitCounts : object Z
}.

(** [{ ...o, ...p }] *)
Definition obj_merge {A} (o p : object A) : object A :=
  foldl (λ o kv, obj_set o kv.1 kv.2) o p.

(** ** Status and checkpoints *)

Inductive WorkflowStatus :=
| StRunning (currentState : string)
| StWaitingHuman (gateId stateName : string)
| StCompleted
| StFailed (error lastState : string)
| StAborted (reason : string).

Definition status_phase (s : WorkflowStatus) : string :=
  match s with
  | StRunning _ => "running" | StWaitingHuman _ _ => "waiting_human"
  | StCompleted => "completed" | StFailed _ _ => "failed" | StAborted _ => "aborted"
  end.

(** [resolveWorkflowSkillsOptions]: what the session factory is told to load. *)
Inductive SkillsOptions :=
| DisableAllSkills
| LoadSkills (skillsDir : option string) (skillFilter : option (list string)).

Definition resolveWorkflowSkillsOptions (skills : option SkillsField) (skillsDir : option string) :
    SkillsOptions :=
  match skills with
  | Some SkillsNone => DisableAllSkills
  | Some (SkillsList l) => LoadSkills skillsDir (Some (js_set l))
  | None => LoadSkills skillsDir None
  end.

Lemma obj_get_merge {A} (o p : object A) k :
  obj_wf p →
  obj_get (obj_merge o p) k = match obj_get p k with Some v => Some v | None => obj_get o k end.
Proof.
  unfold obj_merge, obj_wf, obj_keys. revert o. induction p as [|[k' v] p IH]; intros o; [done|].
  intros [Hk Hp]%NoDup_cons. csimpl. rewrite IH, obj_get_set by done.
  case_bool_decide as E; subst; [|done].
  destruct (obj_get p k) eqn:Hg; [|done]. exfalso. apply Hk.
  assert (H : obj_has p k = true) by (apply obj_get_has; eauto).
  unfold obj_has, obj_keys in H. by apply bool_decide_eq_true in H.
Qed.
