(* ===== verification/LaneTemplate.v ===== *)
(** * Lane templating for the fan-out of a workflow segment

    Models src/workflow/lane-template.ts: the placeholders of lane prompts, the
    rewriting of paths below [current/] to the scratch directory of a lane, and
    the [--lane] flag of the bridge commands.  Lane identities are assigned by the
    orchestrator and hold no [$], as its comment on escaping requires. *)

From Stdlib Require Import Ascii.
From S2P Require Import Prelude JsValue Paths Urls PathArgs WorkflowTypes.

Definition resolveFanOutWorkers (fanOut : FanOutDefinition) (settings : option WorkflowSettings) : Z :=
  match fo_count fanOut with
  | CountWorkers => default 1%Z (settings ≫= ws_workers)
  | CountNumber n => n
  end.

Definition DEFAULT_EVOLVE_LANE_DIR : string := "/workspace/.evolve_runs/main/current".
Definition DEFAULT_EVOLVE_LANE_RELATIVE_DIR : string := ".evolve_runs/main/current".

Definition EVOLVE_STEP_INDEX_WIDTH : nat := 4.

(** [s.padStart(n, '0')] *)
Fixpoint zeros (n : nat) : string := match n with O => "" | S n => String "0" (zeros n) end.
Definition padStart0 (n : nat) (s : string) : string := zeros (n - String.length s) +:+ s.

Definition evolveStepName (batchIndex lane : nat) : string :=
  "step_" +:+ padStart0 EVOLVE_STEP_INDEX_WIDTH (show_nat batchIndex) +:+ "_lane_" +:+ show_nat lane.

Definition EVOLVE_RESULT_SCRIPT : string := "evolve_result.py".
Definition EVOLVE_LANE_AWARE_COMMANDS : list string :=
  ["sample"; "evaluate"; "record"; "attach_analysis"].

Definition laneId (context : WorkflowContext) : string :=
  show_nat (default 0 (lane_id <$> c_lane context)).
Definition laneDir (context : WorkflowContext) : string :=
  default DEFAULT_EVOLVE_LANE_DIR (lane_dir <$> c_lane context).
Definition laneRelativeDir (context : WorkflowContext) : string :=
  default DEFAULT_EVOLVE_LANE_RELATIVE_DIR (lane_relativeDir <$> c_lane context).

Definition applyLaneTemplate (value : string) (context : WorkflowContext) : string :=
  let rendered := replaceAll value "{laneDir}" (laneDir context) in
  let rendered := replaceAll rendered "{laneRelativeDir}" (laneRelativeDir context) in
  let rendered := replaceAll rendered "{laneRelDir}" (laneRelativeDir context) in
  let rendered := replaceAll rendered "${laneId}" (laneId context) in
  replaceAll rendered "{laneId}" (laneId context).

(** [lane_\d+], a whole path segment. *)
Definition is_lane_segment (s : string) : bool :=
  startsWith s "lane_"
  && (let digits := str_drop 5 s in negb (digits =? "") && str_forallb is_digit digits).

(** [/^lane_\d+\//.test(suffix)] *)
Definition starts_with_lane_segment (suffix : string) : bool :=
  match split_on slash suffix with
  | segment :: _ :: _ => is_lane_segment segment
  | _ => false
  end.

Definition replaceCurrentPrefix (value currentDir replacement : string) : string :=
  if value =? currentDir then replacement
  else
    let prefix := currentDir +:+ "/" in
    if negb (startsWith value prefix) then value
    else
      let suffix := str_drop (String.length prefix) value in
      if starts_with_lane_segment suffix then value
      else replacement +:+ "/" +:+ suffix.

Definition laneScopeEvolveCurrentPath (value : string) (context : WorkflowContext) : string :=
  match c_lane context with
  | None => applyLaneTemplate value context
  | Some lane =>
      let rendered := applyLaneTemplate value context in
      let rendered := replaceCurrentPrefix rendered DEFAULT_EVOLVE_LANE_DIR (lane_dir lane) in
      replaceCurrentPrefix rendered DEFAULT_EVOLVE_LANE_RELATIVE_DIR (lane_relativeDir lane)
  end.

Definition is_evolve_script (arg : string) : bool :=
  (arg =? EVOLVE_RESULT_SCRIPT) || endsWith arg ("/" +:+ EVOLVE_RESULT_SCRIPT).

(** [findIndex]; [None] is -1. *)
Fixpoint find_index {A} (f : A → bool) (l : list A) : option nat :=
  match l with
  | [] => None
  | x :: l => if f x then Some 0 else S <$> find_index f l
  end.

Definition evolveResultScriptIndex (command : list string) : option nat :=
  find_index is_evolve_script command.

Definition injectEvolveLaneArg (command : list string) (id : nat) : list string :=
  if includes command "--lane" then command
  else
    match evolveResultScriptIndex command with
    | None => command
    | Some scriptIndex =>
        match command !! S scriptIndex with
        | Some subcommand =>
            if includes EVOLVE_LANE_AWARE_COMMANDS subcommand
            then take (S (S scriptIndex)) command ++ ["--lane"; show_nat id]
                 ++ drop (S (S scriptIndex)) command
            else command
        | None => command
        end
    end.

Definition templateLaneCommand (command : list string) (context : WorkflowContext) : list string :=
  let templated := (λ arg, laneScopeEvolveCurrentPath arg context) <$> command in
  match c_lane context with
  | None => templated
  | Some lane => injectEvolveLaneArg templated (lane_id lane)
  end.
