(* ===== verification/StatusParser.v ===== *)
(** * The status block of an agent's response

    Models src/workflow/status-parser.ts: the Markdown fences of a response, the
    final [agent_status] block, its removal, the verdicts that route, and the
    re-prompts.  The YAML parser is a parameter ([Yaml]); what the schema accepts is
    written out from its combinators, and the texts of its issues are a parameter. *)

From Stdlib Require Import Ascii QArith Qcanon.
From S2P Require Import Prelude JsValue Paths WorkflowTypes.

(** [YAML.parse(s, { maxAliasCount: 0 })], and the joined issues of a value that the
    schema rejects. *)
Class Yaml := {
  yaml_parse : string → result jsvalue;
  schema_issues : jsvalue → string;
}.

(** ** Lines *)

Definition nl : ascii := ascii_of_nat 10.
Definition cr : ascii := ascii_of_nat 13.
Definition tab : ascii := ascii_of_nat 9.
Definition backtick : ascii := ascii_of_nat 96.
Definition tilde : ascii := ascii_of_nat 126.

(** The lines of a text, each with its line feed; the last one may have none. *)
Fixpoint lines_of (s : string) : list string :=
  match s with
  | "" => []
  | String a s' =>
      if a =? nl then String a "" :: lines_of s'
      else match lines_of s' with
           | [] => [String a ""]
           | l :: ls => String a l :: ls
           end
  end.

(** [s.slice(0, -1)] when the last character is [c]. *)
Definition chop (c : ascii) (s : string) : string :=
  if endsWith s (String c "") then str_drop_end 1 s else s.

(** A line without its terminator. *)
Definition line_content (line : string) : string := chop cr (chop nl line).

Definition str_slice (a b : nat) (s : string) : string := str_take (b - a) (str_drop a s).

(** [s.trimEnd()] *)
Definition trimEnd (s : string) : string := String.rev (trim_start (String.rev s)).

(** ** Fences *)

Fixpoint str_span (f : ascii → bool) (s : string) : string * string :=
  match s with
  | "" => ("", "")
  | String a s' => if f a then let '(p, q) := str_span f s' in (String a p, q) else ("", s)
  end.

(** Up to [n] leading spaces are skipped. *)
Fixpoint skip_spaces (n : nat) (s : string) : string :=
  match n, s with
  | S n, String a s' => if a =? " "%char then skip_spaces n s' else s
  | _, _ => s
  end.

(** Three or more backticks or tildes after at most three spaces: the marker and the
    rest of the line. *)
Definition fence_marker (content : string) : option (string * string) :=
  match skip_spaces 3 content with
  | String a _ as s =>
      if (a =? backtick) || (a =? tilde) then
        let '(marker, rest) := str_span (λ b, b =? a) s in
        if (3 <=? String.length marker)%nat then Some (marker, rest) else None
      else None
  | "" => None
  end.

Definition marker_char (marker : string) : option ascii := String.get 0 marker.

Record OpenFence := { open_marker : string; open_start : nat; open_contentStart : nat }.
Record FencedBlock := { rawBlock : string; fence_start : nat; fence_end : nat }.

Definition is_blank (a : ascii) : bool := (a =? " "%char) || (a =? tab).

(** A line that holds a marker and blanks only, of the same character as the open
    marker and at least as long. *)
Definition closes (open : OpenFence) (content : string) : bool :=
  match fence_marker content with
  | Some (marker, rest) =>
      str_forallb is_blank rest
      && bool_decide (marker_char marker = marker_char (open_marker open))
      && (String.length (open_marker open) <=? String.length marker)%nat
  | None => false
  end.

(** The marker and any text, in which [.] matches no carriage return; an info string
    after backticks holds no backtick. *)
Definition opens (content : string) : option string :=
  match fence_marker content with
  | Some (marker, rest) =>
      if str_forallb (λ a, negb ((a =? cr) || (a =? nl))) rest
         && negb (bool_decide (marker_char marker = Some backtick)
                  && str_includes rest (String backtick ""))
      then Some marker else None
  | None => None
  end.

(** The loop of [findFencedBlocks] over the remaining lines. *)
Fixpoint scan_fences (text : string) (start : nat) (open : option OpenFence) (lines : list string) :
    list FencedBlock :=
  match lines with
  | [] => []
  | line :: lines =>
      let content := line_content line in
      let end_ := start + String.length line in
      match open with
      | Some o =>
          if closes o content
          then {| rawBlock := str_slice (open_contentStart o) start text;
                  fence_start := open_start o; fence_end := end_ |}
               :: scan_fences text end_ None lines
          else scan_fences text end_ open lines
      | None =>
          match opens content with
          | Some marker =>
              scan_fences text end_
                (Some {| open_marker := marker; open_start := start; open_contentStart := end_ |})
                lines
          | None => scan_fences text end_ None lines
          end
      end
  end.

Definition findFencedBlocks (text : string) : list FencedBlock :=
  scan_fences text 0 None (lines_of text).

(** The raw block starts with the line [agent_status:]. *)
Definition is_status_block (raw : string) : bool :=
  startsWith raw "agent_status:"
  && (let rest := str_drop 13 raw in
      (rest =? "") || startsWith rest newline || startsWith rest (String cr newline)).

Definition isStatusFence (fence : FencedBlock) : bool := is_status_block (rawBlock fence).

Definition extractFinalStatusFence (responseText : string) : option FencedBlock :=
  match last (findFencedBlocks responseText) with
  | Some finalFence =>
      if negb (isStatusFence finalFence) then None
      else if str_forallb Ascii.is_space (str_drop (fence_end finalFence) responseText)
           then Some finalFence else None
  | None => None
  end.

(** ** The schema of a status block *)

Section schema.

(** A key that the schema reads: missing and [undefined] take the default. *)
Definition with_default {A} (v : jsvalue) (d : A) (f : jsvalue → option A) : option A :=
  match v with VUndefined => Some d | _ => f v end.

Definition parse_confidence (v : jsvalue) : option Confidence :=
  match v with
  | VStr s => if s =? "high" then Some ConfHigh else if s =? "medium" then Some ConfMedium
              else if s =? "low" then Some ConfLow else None
  | _ => None
  end.

Definition parse_nullable_string (v : jsvalue) : option (option string) :=
  match v with VStr s => Some (Some s) | VNull => Some None | _ => None end.

(** [z.number().int()] accepts safe integers only. *)
Definition MAX_SAFE_INTEGER : Z := (2 ^ 53 - 1)%Z.

Definition parse_nullable_int (v : jsvalue) : option (option Z) :=
  match v with
  | VNum (JFin q as n) =>
      if num_is_integer n && (Z.abs (Qnum (this q)) <=? MAX_SAFE_INTEGER)%Z
      then Some (Some (Qnum (this q))) else None
  | VNull => Some None
  | _ => None
  end.

(** [agentOutputSchema.safeParse(inner)] *)
Definition agentOutputSchema (inner : jsvalue) : option AgentOutput :=
  match inner with
  | VObj o =>
      completed ← with_default (get_value o "completed") true
        (λ v, match v with VBool b => Some b | _ => None end);
      verdict ← (match get_value o "verdict" with
                 | VStr s => if s =? "" then None else Some s
                 | _ => None end);
      confidence ← with_default (get_value o "confidence") ConfHigh parse_confidence;
      escalation ← with_default (get_value o "escalation") None parse_nullable_string;
      test_count ← with_default (get_value o "test_count") None parse_nullable_int;
      notes ← with_default (get_value o "notes") None parse_nullable_string;
      Some {| o_completed := completed; o_verdict := verdict; o_confidence := confidence;
              o_escalation := escalation; o_testCount := test_count; o_notes := notes |}
  | _ => None
  end.

End schema.

(** ** Parsing *)

Definition is_object (v : jsvalue) : bool :=
  match v with VObj _ | VArr _ => true | _ => false end.

(** The object that holds the fields: the nested one, or the parent when the fields
    were written flush left. *)
Definition unwrap_status (parsed : jsvalue) : jsvalue :=
  match parsed with
  | VObj o =>
      match obj_get o "agent_status" with
      | Some nested =>
          if is_object nested then nested
          else if obj_has o "verdict" then parsed else nested
      | None => parsed
      end
  | _ => parsed
  end.

Definition parseAgentStatus `{Yaml} (responseText : string) : result (option AgentOutput) :=
  match extractFinalStatusFence responseText with
  | None => Ok None
  | Some fence =>
      match yaml_parse (rawBlock fence) with
      | Throw err => Throw ("YAML parse error in agent_status block: " +:+ err)
      | Ok parsed =>
          let inner := unwrap_status parsed in
          match agentOutputSchema inner with
          | Some output => Ok (Some output)
          | None => Throw ("Malformed agent_status block: " +:+ schema_issues inner)
          end
      end
  end.

(** ** Stripping *)

Definition stripStatusBlock (responseText : string) : string :=
  match extractFinalStatusFence responseText with
  | Some fence => trimEnd (str_take (fence_start fence) responseText)
  | None => responseText
  end.

(** The parts between the fences, from [cursor] on. *)
Fixpoint outside_fences (text : string) (cursor : nat) (fences : list FencedBlock) : string :=
  match fences with
  | [] => str_drop cursor text
  | f :: fences => str_slice cursor (fence_start f) text +:+ outside_fences text (fence_end f) fences
  end.

Definition stripAgentStatusFences (responseText : string) : string :=
  let statusFences := List.filter isStatusFence (findFencedBlocks responseText) in
  match statusFences with
  | [] => responseText
  | _ => trimEnd (outside_fences responseText 0 statusFences)
  end.

(** ** Instructions and re-prompts *)

Definition INFORMATIONAL_STATUS_LINES : list string :=
  [
   "When all your work is finished and you are ready to exit, include the following YAML block as the LAST content of your FINAL response, inside a fenced code block. Do not run any further tool calls after emitting it:";
   "";
   "```";
   "agent_status:";
   "  verdict: completed";
   "  notes: " +:+ dquote +:+ "brief summary of what was done" +:+ dquote;
   "```";
   "";
   "Only the agent_status block in your final response is parsed. Blocks emitted earlier (e.g. as progress checkpoints) are ignored — do not use this block to " +:+ dquote +:+ "check in" +:+ dquote +:+ " mid-task.";
   "";
   "Use EXACTLY these field names (`verdict`, `notes`). Do NOT add additional fields, rename fields, or use synonyms (e.g. `status`, `result`, `scope`, `artifacts`) — any deviation is a hard error and will force the workflow to reject your response. If you want to include more context, put it in the `notes` string.";
   "";
   "Fields:";
   "- verdict: a free-form label summarizing your outcome (e.g. completed, needs_revision, inconclusive). It does not affect routing for this state but is logged for diagnostics.";
   "- notes: brief summary passed to the next agent as context"].

Definition MINIMAL_STATUS_INSTRUCTIONS : string := str_join newline INFORMATIONAL_STATUS_LINES.

(** The verdicts of the [when] clauses, without duplicates, in order. *)
Definition extractVerdictValues (transitions : list AgentTransitionDefinition) : list string :=
  foldl (λ values t,
    match when_verdict t with
    | VStr v => if includes values v then values else values ++ [v]
    | _ => values
    end) [] transitions.

Definition guard_names (transitions : list AgentTransitionDefinition) (guardLabels : object string) :
    list string :=
  (λ g, default g (obj_get guardLabels g)) <$> omap t_guard transitions.

Definition appendGuardDescriptions (lines : list string)
    (transitions : list AgentTransitionDefinition) (guardLabels : object string) : list string :=
  match guard_names transitions guardLabels with
  | [] => lines
  | names => lines ++ [newline +:+
      "Automatic routing conditions (evaluated separately from your verdict): "
      +:+ str_join ", " names]
  end.

Definition backticked (s : string) : string := "`" +:+ s +:+ "`".

Definition buildVerdictRoutedInstructions (verdictValues : list string)
    (transitions : list AgentTransitionDefinition) (guardLabels : object string) : string :=
  let verdictExample := default "undefined" (head verdictValues) in
  let verdictList := str_join ", " (backticked <$> verdictValues) in
  let lines := [
   "When all your work is finished and you are ready to exit, include the following YAML block as the LAST content of your FINAL response, inside a fenced code block. Do not run any further tool calls after emitting it:";
   "";
   "```";
   "agent_status:";
   "  verdict: " +:+ verdictExample;
   "  notes: " +:+ dquote +:+ "brief summary of what was done" +:+ dquote;
   "```";
   "";
   "Only the agent_status block in your final response is parsed. Blocks emitted earlier (e.g. as progress checkpoints) are ignored — do not use this block to " +:+ dquote +:+ "check in" +:+ dquote +:+ " mid-task.";
   "";
   "Fields:";
   "- verdict: determines what happens next. Set this to exactly one of: " +:+ verdictList;
   "- notes: brief summary passed to the next agent as context"] in
  str_join newline (appendGuardDescriptions lines transitions guardLabels).

Definition buildGuardOnlyInstructions (transitions : list AgentTransitionDefinition)
    (guardLabels : object string) : string :=
  str_join newline (appendGuardDescriptions INFORMATIONAL_STATUS_LINES transitions guardLabels).

Definition buildConditionalStatusInstructions (transitions : list AgentTransitionDefinition)
    (guardLabels : object string) : string :=
  match extractVerdictValues transitions with
  | [] => buildGuardOnlyInstructions transitions guardLabels
  | verdictValues => buildVerdictRoutedInstructions verdictValues transitions guardLabels
  end.

(** The parse error of a malformed block, if there was one. *)
Definition buildStatusBlockReprompt (statusInstructions parseError : option string) : string :=
  let header :=
    match parseError with
    | Some message => [
   "Your previous response had a malformed `agent_status` block and could not be parsed.";
   "Parse error: " +:+ message;
   "";
   "Emit a new block as the LAST content of your FINAL response, after all work is complete and before you exit. Use exactly the fields shown below."]
    | None => [
   "Your final response did not include the required agent_status block.";
   "";
   "The block must be the LAST content of your FINAL response — emitted after all work is complete and immediately before you exit. Only the closing block of your final message is parsed; any agent_status blocks you may have emitted earlier in this conversation are ignored.";
   "";
   "If your work is finished: stop calling tools and emit a single final message ending with the YAML block below. If you still have work to do, complete it first, then emit the block as your closing content."]
    end in
  str_join newline (header ++ [""; default MINIMAL_STATUS_INSTRUCTIONS statusInstructions]).

(** The verdicts an agent may return, when every transition asks for one. *)
Definition getValidVerdicts (transitions : list AgentTransitionDefinition) : option (list string) :=
  if existsb (λ t, negb (guard_set t) && negb (when_set t)) transitions then None
  else match extractVerdictValues transitions with
       | [] => None
       | verdicts => Some (js_set verdicts)
       end.

(** Validation admits only strings as verdicts of [when]. *)
Definition buildInvalidVerdictReprompt (invalidVerdict : string)
    (transitions : list AgentTransitionDefinition) : string :=
  let verdictLines := omap (λ t,
    match when_verdict t with
    | VStr v => Some ("- " +:+ v +:+ ": dispatches to " +:+ t_to t)
    | _ => None
    end) transitions in
  str_join newline
    (["Your verdict " +:+ quoted invalidVerdict +:+ " is not a valid routing option for this state.";
      ""; "Valid verdicts for this state:"] ++ verdictLines ++
     [""; "Please revise your response and use one of the valid verdicts above."; "";
      "Include the required `agent_status` YAML block with your chosen verdict in your revised response."]).
