(* ===== verification/MachineBuilder.v ===== *)
(** * The state machine built from a workflow definition

    Models src/workflow/machine-builder.ts and guards.ts.  [buildWorkflowMachine]
    compiles a definition to a machine configuration, which is data: per state the
    invoked service, the guarded transitions and the actions.  The guards and the
    context updates are functions; what runs a configuration is the library XState
    (file [Statechart]). *)

From Stdlib Require Import Ascii.
From S2P Require Import Prelude JsValue Paths WorkflowTypes LaneTemplate StatusParser.

(** ** Truncation of agent output

    The loop is the same for any representation of texts: [TextOps] asks for their
    length in code units, their size in UTF-8 and their slices. *)

Class TextOps (T : Type) := {
  text_len : T → nat;
  text_bytes : T → nat;                      (** [Buffer.byteLength(t, 'utf-8')] *)
  text_slice : nat → T → T;                  (** [t.slice(0, n)] *)
  text_app : T → T → T;
  text_escape_nul : T → T;                   (** [t.replaceAll('\0', '\\x00')] *)
  text_notice : T;
}.

Definition MAX_AGENT_OUTPUT_BYTES : nat := Z.to_nat 32768.
Definition TRUNCATION_NOTICE : string :=
  newline +:+ newline +:+ "[Output truncated. Read the artifact directories for full details.]".

(** The loop; [fuel] bounds the iterations. *)
Fixpoint shrink `{TextOps T} (fuel budget : nat) (truncated : T) : option T :=
  if (budget <? text_bytes truncated)%nat then
    match fuel with
    | O => None
    | S fuel => shrink fuel budget (text_slice (text_len truncated * 9 / 10) truncated)
    end
  else Some truncated.

Definition truncate_text `{TextOps T} (text : T) : option T :=
  let sanitized := text_escape_nul text in
  if (text_bytes sanitized <=? MAX_AGENT_OUTPUT_BYTES)%nat then Some sanitized
  else
    let budget := MAX_AGENT_OUTPUT_BYTES - text_bytes text_notice in
    (λ t, text_app t text_notice) <$> shrink (text_len sanitized) budget sanitized.

Definition nul : ascii := ascii_of_nat 0.

Fixpoint escape_nul (s : string) : string :=
  match s with
  | "" => ""
  | String a s => if a =? nul then "\x00" +:+ escape_nul s else String a (escape_nul s)
  end.

(** A string of code units below 256: two bytes from 128 on. *)
Fixpoint latin_bytes (s : string) : nat :=
  match s with
  | "" => 0
  | String a s => (if (nat_of_ascii a <? 128)%nat then 1 else 2) + latin_bytes s
  end.

#[export] Instance string_text : TextOps string := {
  text_len := String.length;
  text_bytes := latin_bytes;
  text_slice := str_take;
  text_app := String.append;
  text_escape_nul := escape_nul;
  text_notice := TRUNCATION_NOTICE;
}.

(** Any JavaScript string: UTF-16 code units, surrogate pairs in four bytes and a
    lone surrogate in the three of its replacement. *)
Definition is_high_surrogate (u : N) : bool := ((0xD800 <=? u) && (u <=? 0xDBFF))%N.
Definition is_low_surrogate (u : N) : bool := ((0xDC00 <=? u) && (u <=? 0xDFFF))%N.

Fixpoint utf16_bytes (l : list N) : nat :=
  match l with
  | [] => 0
  | u :: l =>
      if (u <? 0x80)%N then 1 + utf16_bytes l
      else if (u <? 0x800)%N then 2 + utf16_bytes l
      else if is_high_surrogate u then
        match l with
        | v :: l' => if is_low_surrogate v then 4 + utf16_bytes l' else 3 + utf16_bytes l
        | [] => 3
        end
      else 3 + utf16_bytes l
  end.

Definition units_of (s : string) : list N := N_of_ascii <$> chars s.

#[export] Instance utf16_text : TextOps (list N) := {
  text_len := length;
  text_bytes := utf16_bytes;
  text_slice := take;
  text_app := app;
  text_escape_nul := λ l, l ≫= λ u, if (u =? 0)%N then units_of "\x00" else [u];
  text_notice := units_of TRUNCATION_NOTICE;
}.

Definition truncateAgentOutput (text : string) : string := default text (truncate_text text).

(** ** Results of the invoked services *)

Record AgentInvokeResult := {
  ai_output : AgentOutput;
  ai_agentConversationId : string;
  ai_artifacts : object string;
  ai_outputHash : string;
  ai_responseText : string;
  ai_totalTokens : Z
}.

Inductive RoundChildStatus := Recorded | Blocked | Errored | Drained.

#[export] Instance RoundChildStatus_eq_dec : EqDecision RoundChildStatus.
Proof. solve_decision. Defined.

Record DrainedBy := { db_index : nat; db_status : RoundChildStatus; db_reason : string }.

Record RoundChildOutcome := {
  ro_index : nat;
  ro_status : RoundChildStatus;
  ro_context : WorkflowContext;
  ro_drainedBy : option DrainedBy
}.

Record FanOutInvokeResult := {
  fo_result : DeterministicInvokeResult;
  fo_context : WorkflowContext;
  fo_children : option (list (nat * RoundChildStatus * option DrainedBy))
}.

(** [event.output] of a settled invocation. *)
Inductive InvokeOutput :=
| OutAgent (r : AgentInvokeResult)
| OutDeterministic (r : DeterministicInvokeResult)
| OutFanOut (r : FanOutInvokeResult)
| OutUndefined.

(** What a service rejects with. *)
Inductive Rejection :=
| RejError (message : string)
| RejInvocation (stateId agentConversationId message : string)   (** AgentInvocationError *)
| RejObject (message : string)              (** an object with a [message] *)
| RejString (s : string)
| RejNullish
| RejOther (shown : string).                (** any other value, by its [String(err)] *)

(** [xstate.done.actor.*], [xstate.error.actor.*] and the events of a human gate. *)
Inductive MachineEvent :=
| EvDone (stateId : string) (output : InvokeOutput)
| EvError (stateId : string) (error : Rejection)
| EvHuman (type : HumanGateEventType) (prompt : option string).

Definition extractInvokeResult (output : InvokeOutput) : option AgentInvokeResult :=
  match output with OutAgent r => Some r | _ => None end.

(** The output read as a deterministic result; a fan-out result is one. *)
Definition det_result (output : InvokeOutput) : option DeterministicInvokeResult :=
  match output with
  | OutDeterministic r => Some r
  | OutFanOut r => Some (fo_result r)
  | OutAgent _ | OutUndefined => None
  end.

(** ** Guards *)

Definition visit_counts (context : WorkflowContext) : list Z := obj_values (c_visitCounts context).

Definition isRoundLimitReached (context : WorkflowContext) : bool :=
  match visit_counts context with
  | [] => false
  | c :: counts => (c_maxRounds context <=? foldl Z.max c counts)%Z
  end.

Definition isPassed (event : WorkflowEvent) : bool :=
  match event with VALIDATION_PASSED _ => true | _ => false end.

(** [guardImplementations]: the stubs of guards.ts included. *)
Definition guardImplementations (name : string) :
    option (WorkflowContext → WorkflowEvent → bool) :=
  if name =? "isRoundLimitReached" then Some (λ context _, isRoundLimitReached context)
  else if name =? "isStalled" then Some (λ _ _, false)
  else if name =? "isStateVisitLimitReached" then Some (λ _ _, false)
  else if name =? "isPassed" then Some (λ _ event, isPassed event)
  else None.

Definition REGISTERED_GUARDS : list string :=
  ["isRoundLimitReached"; "isStalled"; "isStateVisitLimitReached"; "isPassed"].

(** The guard of a transition, and the registry with the [maxVisits] of the states. *)
Inductive GuardRef :=
| GuardNamed (name : string)
| GuardMatchesWhen (when : object jsvalue).

Definition isStalled (context : WorkflowContext) (stateId : string) (r : AgentInvokeResult) : bool :=
  match obj_get (c_previousOutputHashes context) stateId with
  | Some prevHash => negb (prevHash =? "") && (ai_outputHash r =? prevHash)
  | None => false
  end.

Definition isStateVisitLimitReached (maxVisitsByState : object Z) (context : WorkflowContext)
    (stateId : string) : bool :=
  match obj_get maxVisitsByState stateId with
  | None => false
  | Some cap => (cap <=? default 0%Z (obj_get (c_visitCounts context) stateId))%Z
  end.

(** The event that a guard of guards.ts sees, for a finished invocation. *)
Definition done_event (output : InvokeOutput) : WorkflowEvent :=
  match extractInvokeResult output with
  | Some r => AGENT_COMPLETED (ai_output r)
  | None =>
      match det_result output with
      | Some d =>
          if di_passed d then VALIDATION_PASSED (default 0%Z (di_testCount d))
          else VALIDATION_FAILED (default "unknown" (di_errors d))
      | None => VALIDATION_FAILED "unknown"
      end
  end.

(** [xstateGuards[name]].  An error event is passed on as it is; no guard tells it
    from a failed validation. *)
Definition xstate_guard (maxVisitsByState : object Z) (name : string) (context : WorkflowContext)
    (event : MachineEvent) : option bool :=
  guardFn ← guardImplementations name;
  Some match event with
  | EvDone stateId output =>
      match extractInvokeResult output with
      | Some r =>
          if name =? "isStalled" then isStalled context stateId r
          else if name =? "isStateVisitLimitReached"
               then isStateVisitLimitReached maxVisitsByState context stateId
          else guardFn context (done_event output)
      | None => guardFn context (done_event output)
      end
  | EvHuman type prompt => guardFn context (HUMAN type prompt)
  | EvError _ _ => guardFn context (VALIDATION_FAILED "unknown")
  end.

(** [actual === expected] of the values a [when] clause can hold. *)
Definition strict_equal (actual expected : jsvalue) : bool :=
  match actual, expected with
  | VStr s, VStr t => s =? t
  | VBool b, VBool c => b =? c
  | VNum JNaN, _ => false
  | VNum n, VNum m => n =? m
  | VNull, VNull | VUndefined, VUndefined => true
  | _, _ => false
  end.

Definition match_source (output : InvokeOutput) : option (object jsvalue) :=
  match extractInvokeResult output with
  | Some r => Some (output_object (ai_output r))
  | None =>
      match det_result output ≫= di_verdict with
      | Some v => Some [("verdict", VStr v)]
      | None => None
      end
  end.

(** [__matchesWhen] *)
Definition matchesWhen (when : object jsvalue) (event : MachineEvent) : bool :=
  match event with
  | EvDone _ output =>
      match match_source output with
      | Some matchSource =>
          negb (bool_decide (when = []))
          && forallb (λ kv, strict_equal (get_value matchSource kv.1) kv.2) when
      | None => false
      end
  | _ => false
  end.

(** ** Actions *)

Inductive XStateAction :=
| UpdateContextFromAgentResult
| UpdateContextFromDeterministicResult
| UpdateContextFromFanOutResult
| StoreHumanPrompt
| ClearError
| StoreError
| UpdateContextFromAgentInvocationError
| IncrementVisitCount (stateId : string)
| ResetVisitCounts (stateIds : list string).

(** The context of [createInitialContext] with its task. *)
Definition createInitialContext (definition : WorkflowDefinition) (taskDescription : string) :
    WorkflowContext :=
  {| c_taskDescription := taskDescription; c_lane := None; c_artifacts := [];
     c_round := 0; c_maxRounds := default 4%Z (w_settings definition ≫= ws_maxRounds);
     c_previousOutputHashes := []; c_previousTestCount := None;
     c_lastDeterministicResult := None; c_humanPrompt := None; c_reviewHistory := [];
     c_totalTokens := 0; c_lastError := None; c_agentConversationsByState := [];
     c_previousAgentOutput := None; c_previousAgentNotes := None;
     c_previousStateName := None; c_visitCounts := [] |}.

Definition updateContextFromAgentResult (c : WorkflowContext) (stateId : string)
    (output : InvokeOutput) : WorkflowContext :=
  match extractInvokeResult output with
  | None => c
  | Some result =>
      let output := ai_output result in
      {| c_taskDescription := c_taskDescription c; c_lane := c_lane c;
         c_artifacts := obj_merge (c_artifacts c) (ai_artifacts result);
         c_round := (c_round c + 1)%Z; c_maxRounds := c_maxRounds c;
         c_previousOutputHashes :=
           obj_set (c_previousOutputHashes c) stateId (ai_outputHash result);
         c_previousTestCount := c_previousTestCount c;
         c_lastDeterministicResult := c_lastDeterministicResult c;
         c_humanPrompt := None;
         c_reviewHistory :=
           if o_verdict output =? "rejected"
           then c_reviewHistory c ++ [default "" (o_notes output)] else c_reviewHistory c;
         c_totalTokens := ai_totalTokens result; c_lastError := c_lastError c;
         c_agentConversationsByState :=
           obj_set (c_agentConversationsByState c) stateId (ai_agentConversationId result);
         c_previousAgentOutput :=
           Some (truncateAgentOutput (stripStatusBlock (ai_responseText result)));
         c_previousAgentNotes :=
           match o_notes output with
           | Some notes => if notes =? "" then None else Some (truncateAgentOutput notes)
           | None => None
           end;
         c_previousStateName := Some stateId; c_visitCounts := c_visitCounts c |}
  end.

(** The verdict and payload of a result-file state; other states leave the field. *)
Definition verdict_update (result : DeterministicInvokeResult) (old : option DeterministicResult) :
    option DeterministicResult :=
  match di_verdict result, di_payload result with
  | None, None => old
  | v, p => Some {| dr_verdict := v; dr_payload := p |}
  end.

Definition updateContextFromDeterministicResult (c : WorkflowContext) (stateId : string)
    (output : InvokeOutput) : WorkflowContext :=
  match det_result output with
  | None => c
  | Some result =>
      let failed := negb (di_passed result) in
      {| c_taskDescription := c_taskDescription c; c_lane := c_lane c;
         c_artifacts := c_artifacts c; c_round := c_round c; c_maxRounds := c_maxRounds c;
         c_previousOutputHashes := c_previousOutputHashes c;
         c_previousTestCount :=
           match di_testCount result with Some n => Some n | None => c_previousTestCount c end;
         c_lastDeterministicResult := verdict_update result (c_lastDeterministicResult c);
         c_humanPrompt := c_humanPrompt c; c_reviewHistory := c_reviewHistory c;
         c_totalTokens := c_totalTokens c; c_lastError := c_lastError c;
         c_agentConversationsByState := c_agentConversationsByState c;
         c_previousAgentOutput :=
           if failed then Some (truncateAgentOutput (default "" (di_errors result)))
           else c_previousAgentOutput c;
         c_previousAgentNotes := if failed then None else c_previousAgentNotes c;
         c_previousStateName := if failed then Some stateId else c_previousStateName c;
         c_visitCounts := c_visitCounts c |}
  end.

(** [assign] keeps the fields that the result's context lacks: [lane] alone is
    optional besides the last deterministic result. *)
Definition updateContextFromFanOutResult (c : WorkflowContext) (output : InvokeOutput) :
    WorkflowContext :=
  match output with
  | OutFanOut result =>
      let r := fo_context result in
      {| c_taskDescription := c_taskDescription r;
         c_lane := match c_lane r with Some l => Some l | None => c_lane c end;
         c_artifacts := c_artifacts r; c_round := c_round r; c_maxRounds := c_maxRounds r;
         c_previousOutputHashes := c_previousOutputHashes r;
         c_previousTestCount := c_previousTestCount r;
         c_lastDeterministicResult :=
           match c_lastDeterministicResult r with
           | Some d => Some d | None => c_lastDeterministicResult c end;
         c_humanPrompt := c_humanPrompt r; c_reviewHistory := c_reviewHistory r;
         c_totalTokens := c_totalTokens r; c_lastError := c_lastError r;
         c_agentConversationsByState := c_agentConversationsByState r;
         c_previousAgentOutput := c_previousAgentOutput r;
         c_previousAgentNotes := c_previousAgentNotes r;
         c_previousStateName := c_previousStateName r; c_visitCounts := c_visitCounts r |}
  | _ => c
  end.

(** The four fields that the small actions write. *)
Definition with_fields (c : WorkflowContext) (humanPrompt lastError : option string)
    (conversations : object string) (visitCounts : object Z) : WorkflowContext :=
  {| c_taskDescription := c_taskDescription c; c_lane := c_lane c;
     c_artifacts := c_artifacts c; c_round := c_round c; c_maxRounds := c_maxRounds c;
     c_previousOutputHashes := c_previousOutputHashes c;
     c_previousTestCount := c_previousTestCount c;
     c_lastDeterministicResult := c_lastDeterministicResult c; c_humanPrompt := humanPrompt;
     c_reviewHistory := c_reviewHistory c; c_totalTokens := c_totalTokens c;
     c_lastError := lastError; c_agentConversationsByState := conversations;
     c_previousAgentOutput := c_previousAgentOutput c;
     c_previousAgentNotes := c_previousAgentNotes c;
     c_previousStateName := c_previousStateName c; c_visitCounts := visitCounts |}.

Definition storeHumanPrompt (c : WorkflowContext) (prompt : option string) : WorkflowContext :=
  with_fields c prompt (c_lastError c) (c_agentConversationsByState c) (c_visitCounts c).

Definition clearError (c : WorkflowContext) : WorkflowContext :=
  with_fields c (c_humanPrompt c) None (c_agentConversationsByState c) (c_visitCounts c).

Definition rejection_message (err : Rejection) : string :=
  match err with
  | RejError m | RejInvocation _ _ m | RejObject m | RejString m | RejOther m => m
  | RejNullish => "Unknown error"
  end.

Definition storeError (c : WorkflowContext) (err : Rejection) : WorkflowContext :=
  with_fields c (c_humanPrompt c) (Some (rejection_message err)) (c_agentConversationsByState c)
    (c_visitCounts c).

Definition updateContextFromAgentInvocationError (c : WorkflowContext) (err : Rejection) :
    WorkflowContext :=
  match err with
  | RejInvocation stateId conversation _ =>
      with_fields c (c_humanPrompt c) (c_lastError c)
        (obj_set (c_agentConversationsByState c) stateId conversation) (c_visitCounts c)
  | _ => c
  end.

Definition visits (c : WorkflowContext) (stateId : string) : Z :=
  default 0%Z (obj_get (c_visitCounts c) stateId).

Definition incrementVisitCount (c : WorkflowContext) (stateId : string) : WorkflowContext :=
  with_fields c (c_humanPrompt c) (c_lastError c) (c_agentConversationsByState c)
    (obj_set (c_visitCounts c) stateId (visits c stateId + 1)%Z).

Definition resetVisitCounts (c : WorkflowContext) (stateIds : list string) : WorkflowContext :=
  with_fields c (c_humanPrompt c) (c_lastError c) (c_agentConversationsByState c)
    (foldl (λ next stateId, obj_set next stateId 0%Z) (c_visitCounts c) stateIds).

(** One action, with the event that triggers it. *)
Definition run_action (a : XStateAction) (ev : option MachineEvent) (c : WorkflowContext) :
    WorkflowContext :=
  match a, ev with
  | UpdateContextFromAgentResult, Some (EvDone s out) => updateContextFromAgentResult c s out
  | UpdateContextFromDeterministicResult, Some (EvDone s out) =>
      updateContextFromDeterministicResult c s out
  | UpdateContextFromFanOutResult, Some (EvDone _ out) => updateContextFromFanOutResult c out
  | StoreHumanPrompt, Some (EvHuman _ prompt) => storeHumanPrompt c prompt
  | StoreHumanPrompt, _ => storeHumanPrompt c None
  | ClearError, _ => clearError c
  | StoreError, Some (EvError _ err) => storeError c err
  | StoreError, _ => storeError c RejNullish
  | UpdateContextFromAgentInvocationError, Some (EvError _ err) =>
      updateContextFromAgentInvocationError c err
  | IncrementVisitCount s, _ => incrementVisitCount c s
  | ResetVisitCounts l, _ => resetVisitCounts c l
  | _, _ => c
  end.

Definition run_actions (l : list XStateAction) (ev : option MachineEvent) (c : WorkflowContext) :
    WorkflowContext :=
  foldl (λ c a, run_action a ev c) c l.

(** ** The configuration *)

Record TransitionConfig := {
  tc_target : string;
  tc_guard : option GuardRef;
  tc_actions : list XStateAction
}.

Inductive ServiceSrc := AgentService | DeterministicService | FanOutService.

Record InvokeConfig := {
  inv_id : string;
  inv_src : ServiceSrc;
  inv_onDone : list TransitionConfig;
  inv_onError : TransitionConfig
}.

Inductive StateNode :=
| NodeInvoke (entry : list XStateAction) (invoke : InvokeConfig)
| NodeGate (on : object TransitionConfig)      (** by event name, [HUMAN_*] *)
| NodeFinal.

Record Machine := {
  m_id : string;
  m_initial : string;
  m_states : object StateNode;
  m_maxVisitsByState : object Z
}.

Record BuildMachineResult := {
  bm_machine : Machine;
  bm_roundMachinesByState : object Machine;
  bm_gateStateNames : list string;
  bm_terminalStateNames : list string
}.

(** [obj.type] of a missing state throws. *)
Definition state_of (definition : WorkflowDefinition) (id : string) : result WorkflowStateDefinition :=
  match obj_get (w_states definition) id with
  | Some s => Ok s
  | None => Throw "Cannot read properties of undefined (reading 'type')"
  end.

Definition compileAction (action : WorkflowTransitionAction) : XStateAction :=
  ResetVisitCounts (action_stateIds action).

Definition collectTransitionActions (t : AgentTransitionDefinition) (defaultAction : XStateAction) :
    list XStateAction :=
  defaultAction :: (compileAction <$> t_actions t).

Definition transition_guard (t : AgentTransitionDefinition) : option GuardRef :=
  match t_when t with
  | Some w => Some (GuardMatchesWhen w)
  | None => if guard_set t then GuardNamed <$> t_guard t else None
  end.

(** [mapTarget] may throw; the results are collected in order. *)
Fixpoint buildOnDoneTransitions (transitions : list AgentTransitionDefinition)
    (updateAction : XStateAction) (mapTarget : AgentTransitionDefinition → result string) :
    result (list TransitionConfig) :=
  match transitions with
  | [] => Ok []
  | t :: transitions =>
      target ← mapTarget t;
      rest ← buildOnDoneTransitions transitions updateAction mapTarget;
      Ok ({| tc_target := target; tc_guard := transition_guard t;
             tc_actions := collectTransitionActions t updateAction |} :: rest)
  end.

(** The first transition that leads to a human gate. *)
Fixpoint find_gate (definition : WorkflowDefinition) (transitions : list AgentTransitionDefinition) :
    result (option string) :=
  match transitions with
  | [] => Ok None
  | t :: transitions =>
      targetState ← state_of definition (t_to t);
      if is_human_gate targetState then Ok (Some (t_to t)) else find_gate definition transitions
  end.

Definition find_state (definition : WorkflowDefinition)
    (f : string → WorkflowStateDefinition → bool) : option string :=
  fst <$> List.find (λ kv, f kv.1 kv.2) (w_states definition).

Definition findErrorTarget (transitions : list AgentTransitionDefinition)
    (definition : WorkflowDefinition) : result string :=
  gate ← find_gate definition transitions;
  match gate with
  | Some g => Ok g
  | None =>
      match find_state definition
        (λ id s, is_terminal s && ((id =? "aborted") || (id =? "failed"))) with
      | Some id => Ok id
      | None =>
          match find_state definition (λ _ s, is_terminal s) with
          | Some id => Ok id
          | None =>
              match transitions with
              | t :: _ => Ok (t_to t)
              | [] => Throw "No valid error target found"
              end
          end
      end
  end.

(** ** Building the states *)

Record BuildOptions := {
  bo_mapTransitionTarget : option (AgentTransitionDefinition → result string);
  bo_onErrorTarget : option string
}.

Definition map_target (options : BuildOptions) : AgentTransitionDefinition → result string :=
  default (λ t, Ok (t_to t)) (bo_mapTransitionTarget options).

Definition error_target (options : BuildOptions) (transitions : list AgentTransitionDefinition)
    (definition : WorkflowDefinition) : result string :=
  match bo_onErrorTarget options with
  | Some target => Ok target
  | None => findErrorTarget transitions definition
  end.

(** A state that invokes a service under its own id. *)
Definition build_invoke (stateId : string) (entry : list XStateAction) (src : ServiceSrc)
    (transitions : list AgentTransitionDefinition) (updateAction : XStateAction)
    (errorActions : list XStateAction) (definition : WorkflowDefinition) (options : BuildOptions) :
    result StateNode :=
  onDone ← buildOnDoneTransitions transitions updateAction (map_target options);
  target ← error_target options transitions definition;
  Ok (NodeInvoke entry {| inv_id := stateId; inv_src := src; inv_onDone := onDone;
    inv_onError := {| tc_target := target; tc_guard := None; tc_actions := errorActions |} |}).

Definition buildAgentState (stateId : string) (config : AgentStateDefinition)
    (definition : WorkflowDefinition) (options : BuildOptions) : result StateNode :=
  build_invoke stateId [IncrementVisitCount stateId] AgentService (a_transitions config)
    UpdateContextFromAgentResult [StoreError; UpdateContextFromAgentInvocationError]
    definition options.

Definition buildDeterministicState (stateId : string) (config : DeterministicStateDefinition)
    (definition : WorkflowDefinition) (options : BuildOptions) : result StateNode :=
  build_invoke stateId [] DeterministicService (d_transitions config)
    UpdateContextFromDeterministicResult [StoreError] definition options.

Definition no_options : BuildOptions :=
  {| bo_mapTransitionTarget := None; bo_onErrorTarget := None |}.

(** The parent of a fan-out: no visit count, the default targets. *)
Definition buildFanOutState (stateId : string) (transitions : list AgentTransitionDefinition)
    (definition : WorkflowDefinition) : result StateNode :=
  build_invoke stateId [] FanOutService transitions UpdateContextFromFanOutResult [StoreError]
    definition no_options.

(** [on[eventName] = ...]: the last transition of an event wins. *)
Definition buildHumanGateState (config : HumanGateStateDefinition) : StateNode :=
  NodeGate (foldl (λ on t,
    obj_set on ("HUMAN_" +:+ gate_event_name (g_event t))
      {| tc_target := g_to t; tc_guard := None;
         tc_actions := [StoreHumanPrompt; ClearError] ++ (compileAction <$> g_actions t) |})
    [] (h_transitions config)).

(** The inputs of the invoked services. *)
Record DeterministicInvokeInput := {
  dii_stateId : string;
  dii_commands : list (list string);
  dii_context : WorkflowContext;
  dii_container : bool;
  dii_containerScope : option string;
  dii_timeoutMs : option Z;
  dii_resultFile : option string
}.

Definition deterministic_input (stateId : string) (config : DeterministicStateDefinition)
    (context : WorkflowContext) : DeterministicInvokeInput :=
  {| dii_stateId := stateId;
     dii_commands := (λ command, templateLaneCommand command context) <$> d_run config;
     dii_context := context; dii_container := default false (d_container config);
     dii_containerScope := d_containerScope config; dii_timeoutMs := d_timeoutMs config;
     dii_resultFile :=
       match d_resultFile config with
       | Some f => if f =? "" then None else Some (laneScopeEvolveCurrentPath f context)
       | None => None
       end |}.

(** ** Child machines of a fan-out *)

Definition ROUND_CHILD_RECORDED : string := "recorded".
Definition ROUND_CHILD_BLOCKED : string := "blocked".
Definition ROUND_CHILD_ERRORED : string := "errored".

Definition mapRoundChildTarget (definition : WorkflowDefinition) (segment : list string)
    (transition : AgentTransitionDefinition) : result string :=
  if includes segment (t_to transition) then Ok (t_to transition)
  else
    match when_verdict transition with
    | VStr verdict =>
        if verdict =? "recorded" then Ok ROUND_CHILD_RECORDED
        else if verdict =? "evaluator_blocked" then Ok ROUND_CHILD_BLOCKED
        else Ok ROUND_CHILD_ERRORED
    | _ =>
        targetState ← state_of definition (t_to transition);
        Ok (if is_human_gate targetState then ROUND_CHILD_BLOCKED else ROUND_CHILD_ERRORED)
    end.

Definition with_target (t : AgentTransitionDefinition) (to : string) : AgentTransitionDefinition :=
  {| t_to := to; t_guard := t_guard t; t_when := t_when t; t_actions := t_actions t |}.

Fixpoint map_transitions (f : AgentTransitionDefinition → result string)
    (l : list AgentTransitionDefinition) : result (list AgentTransitionDefinition) :=
  match l with
  | [] => Ok []
  | t :: l =>
      to ← f t;
      rest ← map_transitions f l;
      Ok (with_target t to :: rest)
  end.

(** The member without its fan-out markers and with the given transitions. *)
Definition strip_fan_out (member : WorkflowStateDefinition)
    (transitions : list AgentTransitionDefinition) : WorkflowStateDefinition :=
  match member with
  | SAgent a => SAgent
      {| a_description := a_description a; a_persona := a_persona a; a_prompt := a_prompt a;
         a_inputs := a_inputs a; a_outputs := a_outputs a;
         a_artifactHandoff := a_artifactHandoff a; a_transitions := transitions;
         a_fanOutMember := a_fanOutMember a; a_fanOut := None; a_segment := None;
         a_schedule := a_schedule a; a_freshSession := a_freshSession a; a_model := a_model a;
         a_maxVisits := a_maxVisits a; a_containerScope := a_containerScope a;
         a_skills := a_skills a |}
  | SDeterministic d => SDeterministic
      {| d_description := d_description d; d_run := d_run d; d_container := d_container d;
         d_containerScope := d_containerScope d; d_timeoutMs := d_timeoutMs d;
         d_resultFile := d_resultFile d; d_fanOut := None; d_segment := None;
         d_fanOutMember := d_fanOutMember d; d_schedule := d_schedule d;
         d_transitions := transitions |}
  | SHumanGate _ | STerminal _ => member
  end.

Fixpoint child_members (definition : WorkflowDefinition) (fanOutStateId : string)
    (segment members : list string) (states : object WorkflowStateDefinition) :
    result (object WorkflowStateDefinition) :=
  match members with
  | [] => Ok states
  | memberId :: members =>
      member ← state_of definition memberId;
      match executable member with
      | None => Throw ("fan-out state " +:+ quoted fanOutStateId +:+ " segment member "
                       +:+ quoted memberId +:+ " is not executable")
      | Some x =>
          transitions ← map_transitions (mapRoundChildTarget definition segment) (x_transitions x);
          child_members definition fanOutStateId segment members
            (obj_set states memberId (strip_fan_out member transitions))
      end
  end.

Definition terminal_state (description : string) : WorkflowStateDefinition :=
  STerminal {| z_description := description; z_outputs := None; z_cleanup := None |}.

(** The three synthetic terminals are written after the members. *)
Definition buildRoundChildDefinition (definition : WorkflowDefinition) (fanOutStateId : string)
    (segment : list string) : result WorkflowDefinition :=
  states ← child_members definition fanOutStateId segment segment [];
  let label text := "Fan-out segment " +:+ quoted fanOutStateId +:+ text in
  let states := obj_set states ROUND_CHILD_RECORDED (terminal_state (label " recorded successfully.")) in
  let states := obj_set states ROUND_CHILD_BLOCKED (terminal_state (label " needs human review.")) in
  let states := obj_set states ROUND_CHILD_ERRORED (terminal_state (label " failed.")) in
  Ok {| w_name := w_name definition +:+ "-" +:+ fanOutStateId +:+ "-round";
        w_description := "Child round machine for " +:+ w_name definition +:+ "." +:+ fanOutStateId;
        w_initial := default "undefined" (head segment);
        w_states := states; w_settings := w_settings definition |}.

(** ** The builder *)

Definition build_state (definition : WorkflowDefinition) (options : BuildOptions) (stateId : string)
    (stateDef : WorkflowStateDefinition) : result StateNode :=
  match stateDef with
  | SAgent a =>
      match a_fanOut a with
      | Some _ => buildFanOutState stateId (a_transitions a) definition
      | None => buildAgentState stateId a definition options
      end
  | SDeterministic d =>
      match d_fanOut d with
      | Some _ => buildFanOutState stateId (d_transitions d) definition
      | None => buildDeterministicState stateId d definition options
      end
  | SHumanGate h => Ok (buildHumanGateState h)
  | STerminal _ => Ok NodeFinal
  end.

Fixpoint build_states (definition : WorkflowDefinition) (options : BuildOptions)
    (states : object WorkflowStateDefinition) : result (object StateNode) :=
  match states with
  | [] => Ok []
  | (stateId, stateDef) :: states =>
      node ← build_state definition options stateId stateDef;
      rest ← build_states definition options states;
      Ok ((stateId, node) :: rest)
  end.

Definition max_visits (states : object WorkflowStateDefinition) : object Z :=
  omap (λ kv, match kv.2 with
    | SAgent a => pair kv.1 <$> a_maxVisits a
    | _ => None
    end) states.

(** The machine of a definition, without the child machines. *)
Definition build_machine (definition : WorkflowDefinition) (onErrorTarget : option string) :
    result Machine :=
  states ← build_states definition
    {| bo_mapTransitionTarget := None; bo_onErrorTarget := onErrorTarget |} (w_states definition);
  Ok {| m_id := w_name definition; m_initial := w_initial definition; m_states := states;
        m_maxVisitsByState := max_visits (w_states definition) |}.

Fixpoint round_machines (definition : WorkflowDefinition)
    (states : object WorkflowStateDefinition) : result (object Machine) :=
  match states with
  | [] => Ok []
  | (stateId, stateDef) :: states =>
      match executable stateDef with
      | Some {| x_fanOut := Some _; x_segment := Some (member :: members) |} =>
          childDefinition ← buildRoundChildDefinition definition stateId (member :: members);
          child ← build_machine childDefinition (Some ROUND_CHILD_ERRORED);
          rest ← round_machines definition states;
          Ok ((stateId, child) :: rest)
      | _ => round_machines definition states
      end
  end.

Definition names_where (f : WorkflowStateDefinition → bool) (states : object WorkflowStateDefinition) :
    list string :=
  (List.filter (λ kv, f kv.2) states).*1.

Definition buildWorkflowMachine (definition : WorkflowDefinition) : result BuildMachineResult :=
  machine ← build_machine definition None;
  rounds ← round_machines definition (w_states definition);
  Ok {| bm_machine := machine; bm_roundMachinesByState := rounds;
        bm_gateStateNames := names_where is_human_gate (w_states definition);
        bm_terminalStateNames := names_where is_terminal (w_states definition) |}.
