(* ===== verification/Statechart.v ===== *)
(** * Running a machine: the interface to XState

    The library that interprets a machine is not part of the repository.  The class
    [XState] gives its two operations and [XStateLaws] what its documentation says
    of the features the builder uses: the first transition whose guard holds is
    taken, its actions run before the entry actions of its target, an invocation
    starts with the entry of its state, a final state ends the run, and a transition
    from a state to itself does not re-enter the state.  [interpreter] is a concrete
    function with these laws. *)

From S2P Require Import Prelude JsValue WorkflowTypes MachineBuilder.

Record Snapshot := {
  sn_value : string;
  sn_context : WorkflowContext;
  sn_running : bool;                        (** the invocation of the state is in flight *)
  sn_done : bool
}.

(** ** What an event enables *)

(** A guard without an implementation is an error. *)
Definition guard_holds (m : Machine) (c : WorkflowContext) (ev : MachineEvent)
    (g : option GuardRef) : result bool :=
  match g with
  | None => Ok true
  | Some (GuardMatchesWhen w) => Ok (matchesWhen w ev)
  | Some (GuardNamed name) =>
      match xstate_guard (m_maxVisitsByState m) name c ev with
      | Some b => Ok b
      | None => Throw ("Guard '" +:+ name +:+ "' is not implemented")
      end
  end.

Fixpoint first_enabled (m : Machine) (c : WorkflowContext) (ev : MachineEvent)
    (l : list TransitionConfig) : result (option TransitionConfig) :=
  match l with
  | [] => Ok None
  | tc :: l =>
      b ← guard_holds m c ev (tc_guard tc);
      if (b : bool) then Ok (Some tc) else first_enabled m c ev l
  end.

(** The transitions of a node that listen to an event. *)
Definition transitions_for (node : StateNode) (running : bool) (ev : MachineEvent) :
    list TransitionConfig :=
  match node, ev with
  | NodeInvoke _ inv, EvDone id _ => if running && (inv_id inv =? id) then inv_onDone inv else []
  | NodeInvoke _ inv, EvError id _ => if running && (inv_id inv =? id) then [inv_onError inv] else []
  | NodeGate on, EvHuman type _ => option_list (obj_get on ("HUMAN_" +:+ gate_event_name type))
  | _, _ => []
  end.

Definition entry_actions (node : StateNode) : list XStateAction :=
  match node with NodeInvoke entry _ => entry | _ => [] end.

Definition invokes (node : StateNode) : bool :=
  match node with NodeInvoke _ _ => true | _ => false end.

Definition is_final (node : StateNode) : bool :=
  match node with NodeFinal => true | _ => false end.

(** The event settles the invocation of this state. *)
Definition settles (node : StateNode) (ev : MachineEvent) : bool :=
  match node, ev with
  | NodeInvoke _ inv, EvDone id _ | NodeInvoke _ inv, EvError id _ => inv_id inv =? id
  | _, _ => false
  end.

Definition enter (value : string) (node : StateNode) (ev : option MachineEvent)
    (c : WorkflowContext) : Snapshot :=
  {| sn_value := value; sn_context := run_actions (entry_actions node) ev c;
     sn_running := invokes node; sn_done := is_final node |}.

Definition stay (node : StateNode) (ev : MachineEvent) (s : Snapshot) (c : WorkflowContext) :
    Snapshot :=
  {| sn_value := sn_value s; sn_context := c;
     sn_running := sn_running s && negb (settles node ev); sn_done := sn_done s |}.

(** ** The interface *)

Class XState := {
  xs_start : Machine → WorkflowContext → Snapshot;
  xs_send : Machine → MachineEvent → Snapshot → Snapshot;
}.

Class XStateLaws `{XState} : Prop := {
  xs_start_enters : ∀ m c node,
    obj_get (m_states m) (m_initial m) = Some node →
    xs_start m c = enter (m_initial m) node None c;
  xs_done_stays : ∀ m ev s, sn_done s = true → xs_send m ev s = s;
  xs_ignores : ∀ m ev s node,
    sn_done s = false → obj_get (m_states m) (sn_value s) = Some node →
    first_enabled m (sn_context s) ev (transitions_for node (sn_running s) ev) = Ok None →
    xs_send m ev s = stay node ev s (sn_context s);
  xs_takes : ∀ m ev s node tc target,
    sn_done s = false → obj_get (m_states m) (sn_value s) = Some node →
    first_enabled m (sn_context s) ev (transitions_for node (sn_running s) ev) = Ok (Some tc) →
    tc_target tc ≠ sn_value s → obj_get (m_states m) (tc_target tc) = Some target →
    xs_send m ev s =
      enter (tc_target tc) target (Some ev) (run_actions (tc_actions tc) (Some ev) (sn_context s));
  xs_self : ∀ m ev s node tc,
    sn_done s = false → obj_get (m_states m) (sn_value s) = Some node →
    first_enabled m (sn_context s) ev (transitions_for node (sn_running s) ev) = Ok (Some tc) →
    tc_target tc = sn_value s →
    xs_send m ev s = stay node ev s (run_actions (tc_actions tc) (Some ev) (sn_context s));
}.

(** ** A concrete interpreter *)

Definition interpret_start (m : Machine) (c : WorkflowContext) : Snapshot :=
  match obj_get (m_states m) (m_initial m) with
  | Some node => enter (m_initial m) node None c
  | None => {| sn_value := m_initial m; sn_context := c; sn_running := false; sn_done := false |}
  end.

Definition interpret_send (m : Machine) (ev : MachineEvent) (s : Snapshot) : Snapshot :=
  if sn_done s then s
  else
    match obj_get (m_states m) (sn_value s) with
    | None => s
    | Some node =>
        match first_enabled m (sn_context s) ev (transitions_for node (sn_running s) ev) with
        | Ok (Some tc) =>
            let c := run_actions (tc_actions tc) (Some ev) (sn_context s) in
            if tc_target tc =? sn_value s then stay node ev s c
            else
              match obj_get (m_states m) (tc_target tc) with
              | Some target => enter (tc_target tc) target (Some ev) c
              | None => s
              end
        | Ok None => stay node ev s (sn_context s)
        | Throw _ => s
        end
    end.

Definition interpreter : XState := {| xs_start := interpret_start; xs_send := interpret_send |}.

Lemma interpreter_laws : @XStateLaws interpreter.
Proof.
  split; cbn [xs_start xs_send interpreter]; unfold interpret_start, interpret_send.
  - intros m c node ->. done.
  - intros m ev s ->. done.
  - intros m ev s node -> -> ->. done.
  - intros m ev s node tc target -> -> -> Hne Ht. rewrite bool_decide_eq_false_2, Ht by done. done.
  - intros m ev s node tc -> -> -> Heq. by rewrite bool_decide_eq_true_2 by done.
Qed.

(** ** Runs *)

Section runs.
Context `{XState}.

(** The snapshots a run goes through, the last one first. *)
Inductive run (m : Machine) (c0 : WorkflowContext) : list MachineEvent → Snapshot → Prop :=
| run_start : run m c0 [] (xs_start m c0)
| run_event evs s ev : run m c0 evs s → run m c0 (ev :: evs) (xs_send m ev s).

End runs.
