(* ===== verification/WorkflowValidate.v ===== *)
(** * Validation of workflow definitions

    Models src/workflow/validate.ts: the checks on the raw input, the semantic
    checks and their issues in order, reachability, the safety of result paths and
    the rules for fan-outs.  The structural parse by zod is a parameter
    ([DefinitionSchema]); references to skills are not modelled. *)

From Stdlib Require Import Ascii.
From S2P Require Import Prelude JsValue Paths Urls Redactor WorkflowTypes LaneTemplate MachineBuilder.

(** ** Raw input *)

Definition isPlainObject (v : jsvalue) : option (object jsvalue) :=
  match v with VObj o => Some o | _ => None end.

Definition is_ident_start (a : ascii) : bool :=
  in_range 65 90 a || in_range 97 122 a || (a =? "_"%char).
Definition is_ident_char (a : ascii) : bool := is_ident_start a || is_digit a.

(** [STATE_ID_PATTERN] *)
Definition valid_state_id (s : string) : bool :=
  match s with "" => false | String a s => is_ident_start a && str_forallb is_ident_char s end.

Definition AGENT_ONLY_STATE_FIELDS : list string := ["maxVisits"; "artifactHandoff"].

Definition state_label (stateId : string) : string := "State " +:+ quoted stateId.

Definition only_valid_on (stateId stateType field where_ : string) : string :=
  state_label stateId +:+ " (type: " +:+ stateType +:+ ") has " +:+ quoted field
  +:+ " but that field is only valid on " +:+ where_ +:+ " states.".

Definition raw_state_issues (stateId : string) (stateValue : jsvalue) : list string :=
  (if valid_state_id stateId then [] else
    ["State ID " +:+ quoted stateId +:+ " is not a valid identifier — must match "
     +:+ "^[A-Za-z_][A-Za-z0-9_]*$ "
     +:+ "(letters, digits, and underscores only; cannot start with a digit). "
     +:+ "Dots, spaces, and hyphens can collide with XState's nested-state path semantics."]) ++
  match isPlainObject stateValue with
  | None => []
  | Some o =>
      match get_value o "type" with
      | VStr stateType =>
          (if obj_has o "resultFile" && negb (stateType =? "deterministic")
           then [only_valid_on stateId stateType "resultFile" "deterministic"] else []) ++
          (if stateType =? "agent" then []
           else
             (AGENT_ONLY_STATE_FIELDS ≫= λ field,
               if obj_has o field then [only_valid_on stateId stateType field "agent"] else []) ++
             (if obj_has o "containerScope" && negb (stateType =? "deterministic")
              then [only_valid_on stateId stateType "containerScope"
                      "agent states and containerized deterministic"] else []))
      | _ => []
      end
  end.

Definition validateRawInput (raw : jsvalue) : list string :=
  match isPlainObject raw with
  | None => []
  | Some o =>
      (match isPlainObject (get_value o "settings") with
       | Some settings =>
           if obj_has settings "maxParallelism"
           then ["settings.maxParallelism is retired; use settings.workers instead."] else []
       | None => []
       end) ++
      match isPlainObject (get_value o "states") with
      | Some states => states ≫= λ kv, raw_state_issues kv.1 kv.2
      | None => []
      end
  end.

(** ** Shared helpers *)

Definition isExecutableState (state : WorkflowStateDefinition) : bool :=
  bool_decide (is_Some (executable state)).

Definition agent_transitions (state : WorkflowStateDefinition) : list AgentTransitionDefinition :=
  match executable state with Some x => x_transitions x | None => [] end.

Definition collectTransitionTargets (state : WorkflowStateDefinition) : list string :=
  match state with
  | SAgent a => t_to <$> a_transitions a
  | SDeterministic d => t_to <$> d_transitions d
  | SHumanGate h => g_to <$> h_transitions h
  | STerminal _ => []
  end.

Definition usesVerdictEdges (transitions : list AgentTransitionDefinition) : bool :=
  existsb (λ t, match t_when t with Some w => obj_has w "verdict" | None => false end) transitions.

Definition parseArtifactRef (ref : string) : string * bool :=
  if endsWith ref "?" then (str_drop_end 1 ref, true) else (ref, false).

Definition collectGuardNames (state : WorkflowStateDefinition) : list string :=
  omap t_guard (agent_transitions state).

Definition collectOutputArtifacts (states : object WorkflowStateDefinition) : list string :=
  js_set (obj_values states ≫= λ s,
    match s with
    | SAgent a => a_outputs a
    | STerminal z => default [] (z_outputs z)
    | _ => []
    end).

(** The states a state leads to: its targets, then the members of its segment. *)
Definition successors (state : WorkflowStateDefinition) : list string :=
  collectTransitionTargets state ++
  match executable state with Some x => default [] (x_segment x) | None => [] end.

(** The loop of [findReachableStates]: [queue] is the stack, its top first. *)
Fixpoint reach_loop (states : object WorkflowStateDefinition) (fuel : nat)
    (reachable queue : list string) : option (list string) :=
  match queue with
  | [] => Some reachable
  | current :: queue =>
      match fuel with
      | O => None
      | S fuel =>
          if includes reachable current then reach_loop states fuel reachable queue
          else
            let reachable := reachable ++ [current] in
            match obj_get states current with
            | None => reach_loop states fuel reachable queue
            | Some state =>
                let targets := List.filter (λ t, negb (includes reachable t)) (successors state) in
                reach_loop states fuel reachable (rev targets ++ queue)
            end
      end
  end.

(** Every state is expanded once: the pops are the pushes. *)
Definition reach_fuel (states : object WorkflowStateDefinition) : nat :=
  S (sum_list_with (λ kv, length (successors kv.2)) states).

Definition findReachableStates (initial : string) (states : object WorkflowStateDefinition) :
    list string :=
  default [] (reach_loop states (reach_fuel states) [] [initial]).

(** ** Paths *)

(** The stack of [path.posix.normalize] on a relative path; [..] may lead above it. *)
Fixpoint normalize_relative (acc segs : list string) : list string :=
  match segs with
  | [] => reverse acc
  | s :: segs =>
      if (s =? "") || (s =? ".") then normalize_relative acc segs
      else if s =? ".." then
        match acc with
        | top :: acc' => if top =? ".." then normalize_relative (".." :: acc) segs
                         else normalize_relative acc' segs
        | [] => normalize_relative [".."] segs
        end
      else normalize_relative (s :: acc) segs
  end.

Definition posix_normalize (p : string) : string :=
  if p =? "" then "."
  else
    let trailing := endsWith p "/" in
    if startsWith p "/" then
      let body := str_join "/" (normalize_segments [] (split_on slash p)) in
      if body =? "" then "/" else "/" +:+ body +:+ (if trailing then "/" else "")
    else
      let body := str_join "/" (normalize_relative [] (split_on slash p)) in
      if body =? "" then (if trailing then "./" else ".")
      else body +:+ (if trailing then "/" else "").

Definition isSafeWorkspaceRelativePath (path : string) : bool :=
  negb (path =? "")
  && str_forallb (λ a, negb (a =? nul)) path
  && negb (startsWith path "/")
  && negb (path =? ".")
  && negb (existsb (λ part, part =? "..") (split_on slash path))
  && (posix_normalize path =? path).

(** ** Result files of a fan-out *)

Inductive FanOutResultFileVerdict := ResultSafe | ResultHardcodedLane | ResultUnscoped.

#[export] Instance FanOutResultFileVerdict_eq_dec : EqDecision FanOutResultFileVerdict.
Proof. solve_decision. Defined.

Definition isRootedUnderPumpCurrentDir (normalized : string) : bool :=
  existsb (λ currentDir, startsWith normalized (posix_normalize currentDir +:+ "/"))
    [DEFAULT_EVOLVE_LANE_RELATIVE_DIR; DEFAULT_EVOLVE_LANE_DIR].

Definition LANE_PLACEHOLDER : string := "lane_${laneId}".

(** The two regular expressions ask for a whole path segment. *)
Definition classifyFanOutResultFile (resultFile : string) : FanOutResultFileVerdict :=
  let normalized := posix_normalize resultFile in
  let segments := split_on slash normalized in
  if existsb is_lane_segment segments then ResultHardcodedLane
  else if existsb (λ s, s =? LANE_PLACEHOLDER) segments then ResultSafe
  else if isRootedUnderPumpCurrentDir normalized then ResultSafe
  else ResultUnscoped.

(** ** The greedy sampler heuristic *)

(** A regular expression matches somewhere in the text. *)
Fixpoint re_test_from (r : regex) (prev : option ascii) (s : string) : bool :=
  negb (bool_decide (ends r (prev, s) = [])) ||
  match s with "" => false | String a s => re_test_from r (Some a) s end.

Definition re_test (r : regex) (s : string) : bool := re_test_from r None s.

(** A literal under the flag [i]. *)
Definition literal_i (s : string) : regex :=
  (fix go s := match s with
    | "" => Eps
    | String a s => Cat (Chr (λ b, ascii_lower b =? ascii_lower a)) (go s)
    end) s.

Definition spaces_re (least : nat) : regex := Rep (Chr Ascii.is_space) least None.
Definition char_in (s : string) : regex := Chr (λ a, bool_decide (a ∈ chars s)).
Definition optional_quote : regex := Rep (char_in (dquote +:+ "'")) 0 (Some 1).

Definition SAMPLING_FLAG_RE : regex :=
  Cat (literal_i "--sampling-algorithm")
    (Cat (Alt (literal "=") (spaces_re 1))
      (Cat optional_quote (Cat (literal_i "greedy") Boundary))).

Definition SAMPLING_FIELD_RE : regex :=
  Cat Boundary (Cat (literal_i "sampling") (Cat (char_in "_-. ") (Cat (literal_i "algorithm")
    (Cat (spaces_re 0) (Cat (char_in ":=") (Cat (spaces_re 0)
      (Cat optional_quote (Cat (literal_i "greedy") Boundary)))))))).

Definition declaresGreedySamplerText (text : string) : bool :=
  re_test SAMPLING_FLAG_RE text || re_test SAMPLING_FIELD_RE text.

Fixpoint declaresGreedySamplerArgv (argv : list string) : bool :=
  match argv with
  | [] => false
  | arg :: rest =>
      (toLowerCase arg =? "--sampling-algorithm=greedy")
      || ((arg =? "--sampling-algorithm") && (toLowerCase (default "" (head rest)) =? "greedy"))
      || declaresGreedySamplerArgv rest
  end.

Definition workflowDeclaresGreedySampler (definition : WorkflowDefinition) : bool :=
  existsb (λ s, match s with
    | SAgent a => declaresGreedySamplerText (a_prompt a)
    | SDeterministic d => existsb declaresGreedySamplerArgv (d_run d)
    | _ => false
    end) (obj_values (w_states definition)).

(** ** Semantic checks *)

Section checks.
Variable definition : WorkflowDefinition.

Definition stateNames : list string := obj_keys (w_states definition).

Definition known (id : string) : bool := includes stateNames id.

Definition transition_label (stateId to : string) : string :=
  state_label stateId +:+ " transition to " +:+ quoted to.

(** The targets and actions of every transition of a state. *)
Definition collectTransitionsWithActions (state : WorkflowStateDefinition) :
    list (string * list WorkflowTransitionAction) :=
  match state with
  | SHumanGate h => (λ t, (g_to t, g_actions t)) <$> h_transitions h
  | _ => (λ t, (t_to t, t_actions t)) <$> agent_transitions state
  end.

Definition validateTransitionActions (stateId : string) (state : WorkflowStateDefinition) :
    list string :=
  collectTransitionsWithActions state ≫= λ t,
    t.2 ≫= λ action, action_stateIds action ≫= λ targetId,
      if known targetId then []
      else [transition_label stateId t.1 +:+ " has resetVisitCounts referencing unknown state "
            +:+ quoted targetId].

(** [WHEN_KEY_TYPES]: the expected type and the run-time check. *)
Definition when_key_type (key : string) : string * (jsvalue → bool) :=
  if key =? "completed" then ("boolean", λ v, match v with VBool _ => true | _ => false end)
  else if (key =? "verdict") || (key =? "confidence")
       then ("string", λ v, match v with VStr _ => true | _ => false end)
  else if key =? "testCount"
       then ("number or null", λ v, match v with VNum _ | VNull => true | _ => false end)
  else ("string or null", λ v, match v with VStr _ | VNull => true | _ => false end).

Definition describeRuntimeType (v : jsvalue) : string :=
  match v with
  | VNull => "null" | VUndefined => "undefined" | VBool _ => "boolean" | VNum _ => "number"
  | VStr _ => "string" | VArr _ | VObj _ => "object"
  end.

Definition when_entry_issues (stateId to key : string) (v : jsvalue) : list string :=
  let label := transition_label stateId to in
  if negb (includes AGENT_OUTPUT_FIELDS key)
  then [label +:+ " has " +:+ quoted "when" +:+ " key " +:+ quoted key
        +:+ " — not a valid AgentOutput field"]
  else if negb ((when_key_type key).2 v)
  then [label +:+ " has 'when' key '" +:+ key +:+ "' with wrong type: expected "
        +:+ (when_key_type key).1 +:+ ", got " +:+ describeRuntimeType v]
  else
    match v with
    | VStr s =>
        if (key =? "confidence") && negb (includes CONFIDENCE_VALUES s)
        then [label +:+ " has invalid confidence value " +:+ quoted s] else []
    | _ => []
    end.

Definition when_issues (stateId : string) (t : AgentTransitionDefinition) : list string :=
  (if guard_set t && when_set t
   then [state_label stateId +:+ " has transition to " +:+ quoted (t_to t) +:+ " with both "
         +:+ quoted "guard" +:+ " and " +:+ quoted "when" +:+ " — they are mutually exclusive"]
   else []) ++
  match t_when t with
  | None => []
  | Some w =>
      (if bool_decide (w = [])
       then [transition_label stateId (t_to t) +:+ " has empty " +:+ quoted "when"
             +:+ " — use no guard for unconditional transitions"] else []) ++
      (List.filter (λ k, negb (k =? "verdict")) (obj_keys w) ≫= λ k,
        [transition_label stateId (t_to t) +:+ " uses when clause key " +:+ quoted k
         +:+ " — only " +:+ quoted "verdict" +:+ " is currently supported for when-clause routing. "
         +:+ "Multi-field when conditions are a planned future feature."]) ++
      (w ≫= λ kv, when_entry_issues stateId (t_to t) kv.1 kv.2)
  end.

Definition validateWhenClauses (stateId : string) (state : WorkflowStateDefinition) : list string :=
  agent_transitions state ≫= when_issues stateId.

Definition validateHumanGate (stateId : string) (state : HumanGateStateDefinition) : list string :=
  (if bool_decide (h_transitions state = [])
   then ["Human gate " +:+ quoted stateId +:+ " must have at least one transition"] else []) ++
  (h_transitions state ≫= λ t,
    if includes (h_acceptedEvents state) (g_event t) then []
    else ["Human gate " +:+ quoted stateId +:+ " transition uses event "
          +:+ quoted (gate_event_name (g_event t)) +:+ " not in acceptedEvents"]).

Definition validateArtifactHandoff (stateId : string) (state : AgentStateDefinition) : list string :=
  match a_artifactHandoff state with
  | None => []
  | Some requiredFiles =>
      match a_transitions state with
      | [t] =>
          if guard_set t || when_set t
          then [state_label stateId +:+ " artifactHandoff requires exactly one unconditional transition."]
          else
            match obj_get (w_states definition) (t_to t) with
            | Some target =>
                if isExecutableState target then []
                else [state_label stateId +:+ " artifactHandoff target " +:+ quoted (t_to t)
                      +:+ " must be an agent or deterministic validator."]
            | None => []
            end
      | _ => [state_label stateId +:+ " artifactHandoff requires exactly one unconditional transition."]
      end ++
      (requiredFiles ≫= λ requiredFile,
        let output := List.find (λ name, startsWith requiredFile (name +:+ "/")) (a_outputs state) in
        (** [!output]: an output with the empty name counts as none *)
        let found := match output with Some o => negb (o =? "") | None => false end in
        if isSafeWorkspaceRelativePath requiredFile && found then []
        else [state_label stateId +:+ " artifactHandoff required file " +:+ quoted requiredFile
              +:+ " must be a safe path below one of its declared outputs."])
  end.

Definition validateArtifactInputs : list string :=
  let availableOutputs := collectOutputArtifacts (w_states definition) in
  w_states definition ≫= λ kv,
    match kv.2 with
    | SAgent a => a_inputs a ≫= λ input,
        let '(name, isOptional) := parseArtifactRef input in
        if isOptional || includes availableOutputs name then []
        else [state_label kv.1 +:+ " requires input artifact " +:+ quoted name
              +:+ " not produced by any state"]
    | _ => []
    end.

Definition sharedContainer : bool :=
  default false (w_settings definition ≫= ws_sharedContainer).
Definition mode : WorkflowMode := default ModeDocker (w_settings definition ≫= ws_mode).

(** [state.container === true] *)
Definition is_true (b : option bool) : bool := default false b.
Definition defined {A} (o : option A) : bool := bool_decide (is_Some o).

Definition container_scope_issues (stateId : string) (state : WorkflowStateDefinition) : list string :=
  match state with
  | SAgent a =>
      match a_containerScope a with
      | None => []
      | Some scope =>
          let label := state_label stateId +:+ " declares containerScope " +:+ quoted scope in
          (if sharedContainer then [] else
            [label +:+ " but the workflow does not have sharedContainer: true. "
             +:+ "containerScope is only valid when sharedContainer is true."]) ++
          (if mode =? ModeDocker then [] else
            [label +:+ " but settings.mode is " +:+ quoted "builtin" +:+ ", not " +:+ quoted "docker"
             +:+ ". Builtin mode ignores sharedContainer, so the scope would be a silent no-op."])
      end
  | SDeterministic d =>
      (if defined (d_containerScope d) && negb (is_true (d_container d))
       then [state_label stateId +:+ " declares containerScope but is not container: true"] else []) ++
      (if (defined (d_resultFile d)
           || negb (defined (d_fanOut d)) && usesVerdictEdges (d_transitions d))
          && negb (is_true (d_container d))
       then [state_label stateId +:+ " uses resultFile / when:{verdict} routing but is not container: true. "
             +:+ "Structured deterministic result routing is container-only."] else []) ++
      (match d_resultFile d with
       | Some f =>
           if isSafeWorkspaceRelativePath f then []
           else [state_label stateId +:+ " has resultFile " +:+ quoted f
                 +:+ " — must be a workspace-relative path (no leading " +:+ quoted "/" +:+ ", no "
                 +:+ quoted ".." +:+ ")."]
       | None => []
       end) ++
      (if is_true (d_container d) && negb sharedContainer
       then [state_label stateId +:+ " has container: true but the workflow does not have sharedContainer: true."]
       else []) ++
      (if is_true (d_container d) && negb (mode =? ModeDocker)
       then [state_label stateId +:+ " has container: true but settings.mode is not " +:+ quoted "docker" +:+ "."]
       else [])
  | _ => []
  end.

Definition validateContainerScopes : list string :=
  w_states definition ≫= λ kv, container_scope_issues kv.1 kv.2.

(** ** Fan-outs *)

Definition computeEffectiveMaxWorkers : Z :=
  foldl (λ max s,
    match executable s ≫= x_fanOut with
    | Some fanOut => Z.max max (resolveFanOutWorkers fanOut (w_settings definition))
    | None => max
    end) (default 1%Z (w_settings definition ≫= ws_workers)) (obj_values (w_states definition)).

Definition segment_member_issues (stateId memberId : string) : list string :=
  match obj_get (w_states definition) memberId with
  | None => [state_label stateId +:+ " fanOut segment references unknown state "
             +:+ quoted memberId +:+ "."]
  | Some (SHumanGate _) =>
      [state_label stateId +:+ " fanOut segment includes human gate " +:+ quoted memberId
       +:+ ", but gates inside a fan-out segment are unreachable; aggregate to a gate outside the segment instead."]
  | Some member =>
      match executable member with
      | Some {| x_fanOutMember := Some true |} => []
      | _ => [state_label stateId +:+ " fanOut segment member " +:+ quoted memberId
              +:+ " must declare fanOutMember: true."]
      end
  end.

Definition validateFanOutState (stateId : string) (x : ExecutableView) : list string :=
  match default [] (x_segment x) with
  | [] => [state_label stateId +:+ " declares fanOut but has no non-empty segment list."]
  | segment => segment ≫= segment_member_issues stateId
  end.

Definition result_file_issues (effectiveWorkers : Z) (stateId : string)
    (state : WorkflowStateDefinition) : list string :=
  match state with
  | SDeterministic {| d_fanOutMember := Some true; d_resultFile := Some f |} =>
      if (effectiveWorkers <=? 1)%Z then []
      else
        let label := state_label stateId +:+ " is a fanOutMember with resultFile " +:+ quoted f
          +:+ " under " +:+ show_Z effectiveWorkers +:+ " effective lanes; " in
        match classifyFanOutResultFile f with
        | ResultHardcodedLane => [label
            +:+ "a hardcoded lane_<N> segment is written by EVERY lane (the pump leaves an already-lane_-prefixed path "
            +:+ "unchanged) and will clobber. Use the lane_${laneId} placeholder (the pump substitutes it per lane) "
            +:+ "or a bare " +:+ DEFAULT_EVOLVE_LANE_RELATIVE_DIR
            +:+ "/ path (the pump lane-scopes it per lane)."]
        | ResultUnscoped => [label
            +:+ "resultFile must be per-lane-scoped: either rooted under the pump's current/ scratch dir (e.g. "
            +:+ DEFAULT_EVOLVE_LANE_RELATIVE_DIR
            +:+ "/result.json, which the pump rewrites to current/lane_<digits>/ per lane) "
            +:+ "or carry an explicit lane_${laneId}/ segment."]
        | ResultSafe => []
        end
  | _ => []
  end.

Definition validateFanOutScaffolding : list string :=
  let effectiveWorkers := computeEffectiveMaxWorkers in
  (w_states definition ≫= λ kv,
    match executable kv.2 with
    | None => []
    | Some x =>
        (if defined (x_fanOut x) then validateFanOutState kv.1 x else []) ++
        (if bool_decide (x_schedule x = Some PoolEval) && negb (is_true (x_fanOutMember x))
         then [state_label kv.1 +:+ " declares schedule.pool: eval but is not fanOutMember: true."]
         else []) ++
        result_file_issues effectiveWorkers kv.1 kv.2
    end) ++
  (if (1 <? effectiveWorkers)%Z && workflowDeclaresGreedySampler definition
   then ["A fan-out segment resolves to " +:+ show_Z effectiveWorkers
         +:+ " lanes, which cannot be used with greedy sampling; "
         +:+ "multi-lane evolve runs must declare a stochastic sampler."] else []).

(** ** All the issues, in order *)

Definition state_issues (stateId : string) (state : WorkflowStateDefinition) : list string :=
  (collectTransitionTargets state ≫= λ target,
    if known target then []
    else [state_label stateId +:+ " has transition to unknown state " +:+ quoted target]) ++
  (collectGuardNames state ≫= λ guard,
    if includes REGISTERED_GUARDS guard then []
    else [state_label stateId +:+ " references unregistered guard " +:+ quoted guard]) ++
  validateTransitionActions stateId state ++
  validateWhenClauses stateId state ++
  match state with
  | SAgent a => validateArtifactHandoff stateId a
  | SHumanGate h => validateHumanGate stateId h
  | _ => []
  end.

Definition semantic_issues : list string :=
  (if known (w_initial definition) then []
   else ["Initial state " +:+ quoted (w_initial definition) +:+ " does not exist"]) ++
  (if existsb is_terminal (obj_values (w_states definition)) then []
   else ["At least one terminal state is required"]) ++
  (w_states definition ≫= λ kv, state_issues kv.1 kv.2) ++
  (let reachable := findReachableStates (w_initial definition) (w_states definition) in
   stateNames ≫= λ stateId,
     if includes reachable stateId then []
     else [state_label stateId +:+ " is unreachable from initial state"]) ++
  validateArtifactInputs ++
  validateContainerScopes ++
  validateFanOutScaffolding.

End checks.

(** ** The public entry point *)

Inductive validation (A : Type) :=
| Valid (a : A)
| Invalid (issues : list string).     (** [WorkflowValidationError] *)
Arguments Valid {_} _.
Arguments Invalid {_} _.

Definition validation_message (issues : list string) : string :=
  "Workflow validation failed:" +:+ newline +:+ "  - " +:+ str_join (newline +:+ "  - ") issues.

Definition validateSemantics (definition : WorkflowDefinition) : validation unit :=
  match semantic_issues definition with
  | [] => Valid ()
  | issues => Invalid issues
  end.

(** [workflowDefinitionSchema.parse(raw)]: the definition, or the formatted issues. *)
Class DefinitionSchema := schema_parse : jsvalue → validation WorkflowDefinition.

Definition validateDefinition `{DefinitionSchema} (raw : jsvalue) : validation WorkflowDefinition :=
  match validateRawInput raw with
  | [] =>
      match schema_parse raw with
      | Invalid issues => Invalid issues
      | Valid parsed =>
          match validateSemantics parsed with
          | Valid _ => Valid parsed
          | Invalid issues => Invalid issues
          end
      end
  | rawIssues => Invalid rawIssues
  end.
