(* ===== verification/PromptBuilder.v ===== *)
(** * The prompts of the agents of a workflow

    Models src/workflow/prompt-builder.ts: the full prompt of a first visit, the short
    one of a later visit, the recovery prompt of a replacement, and the request for
    missing artifacts. *)

From S2P Require Import Prelude JsValue Hashing WorkflowTypes LaneTemplate StatusParser WorkflowValidate.

Definition blank_line : string := newline +:+ newline.

Definition GUARD_LABELS : object string :=
  [("isRoundLimitReached", "round limit reached"); ("isStalled", "stall detected");
   ("isPassed", "all checks passed")].

(** [t.guard != null]: any guard counts, the empty one too. *)
Definition is_conditional (t : AgentTransitionDefinition) : bool :=
  when_set t || bool_decide (is_Some (t_guard t)).

Definition buildStatusInstructions (transitions : list AgentTransitionDefinition) : string :=
  if existsb is_conditional transitions
  then buildConditionalStatusInstructions transitions GUARD_LABELS
  else MINIMAL_STATUS_INSTRUCTIONS.

(** ** Sections *)

(** A string that is missing, null or empty. *)
Definition truthy (o : option string) : option string :=
  match o with Some s => if s =? "" then None else Some s | None => None end.

Definition isSameStateReEntry (stateId : string) (c : WorkflowContext) : bool :=
  bool_decide (c_previousStateName c = Some stateId).

Definition appendHumanFeedback (humanPrompt : option string) (sameState : bool) : list string :=
  match truthy humanPrompt with
  | None => []
  | Some prompt =>
      [(if sameState
        then "## Human Feedback — revise your previous work" +:+ blank_line
          +:+ "You are being asked to revise your previous work based on this feedback:" +:+ blank_line
        else "## Human Feedback" +:+ blank_line) +:+ prompt]
  end.

Definition trimmed (o : option string) : string := default "" (str_trim <$> o).

Definition buildScopingSection (c : WorkflowContext) (previous crossStateHeading : string) :
    option string :=
  let body := trimmed (c_previousAgentOutput c) in
  let notes := trimmed (c_previousAgentNotes c) in
  if (body =? "") && (notes =? "") then None
  else
    let header := "## " +:+ crossStateHeading +:+ " " +:+ previous +:+ blank_line
      +:+ "The " +:+ previous +:+ " state produced the following output. "
      +:+ "Treat this as the authoritative scoping for what to do this round — "
      +:+ "if it is missing or vague, STOP and report back rather than improvising." in
    Some (str_join blank_line
      ([header] ++ (if body =? "" then [] else ["### Directive" +:+ blank_line +:+ body])
       ++ (if notes =? "" then [] else ["### Notes" +:+ blank_line +:+ notes]))).

Definition appendPreviousOutput (c : WorkflowContext) (sameState : bool) (crossStateHeading : string) :
    list string :=
  match truthy (c_previousStateName c) with
  | None => []
  | Some previous =>
      if sameState then
        match truthy (c_previousAgentOutput c) with
        | None => []
        | Some output =>
            ["## Your Previous Output" +:+ blank_line
             +:+ "This is your own prior output. Revise it to address the human feedback above."
             +:+ blank_line +:+ output]
        end
      else match buildScopingSection c previous crossStateHeading with
           | Some s => [s] | None => [] end
  end.

Definition artifact_path (name : string) : string :=
  "`" +:+ WORKFLOW_ARTIFACT_DIR +:+ "/" +:+ name +:+ "/`".

Definition appendInputArtifacts (inputs : list string) : list string :=
  match inputs with
  | [] => []
  | _ =>
      let parsed := parseArtifactRef <$> inputs in
      let preamble := "Read these from " +:+ artifact_path "<name>" +:+ " in your workspace."
        +:+ (if existsb snd parsed
             then " Optional inputs (marked optional) may be absent — skip them if so." else "") in
      let bullets := str_join newline ((λ p : string * bool,
        "- `" +:+ p.1 +:+ "` (" +:+ (if p.2 then "optional" else "required") +:+ ")") <$> parsed) in
      ["## Inputs" +:+ blank_line +:+ preamble +:+ blank_line +:+ bullets]
  end.

Definition appendExpectedOutputs (outputs : list string) : list string :=
  match outputs with
  | [] => []
  | _ => ["## Expected Outputs" +:+ blank_line
          +:+ "Create the following artifact directories in your workspace:" +:+ newline
          +:+ str_join newline ((λ o, "- " +:+ artifact_path o) <$> outputs)]
  end.

Section prompts.
Context `{Runtime}.

(** [String(v)] for the values of a [when] clause. *)
Definition when_text (v : jsvalue) : string :=
  match v with
  | VStr s => s
  | VBool b => if b then "true" else "false"
  | VNull => "null"
  | VNum (JFin q) => number_to_string q
  | _ => "undefined"
  end.

Definition formatTransitionCondition (t : AgentTransitionDefinition) : string :=
  match t_when t with
  | Some w => str_join ", " ((λ kv : string * jsvalue, kv.1 +:+ "=" +:+ when_text kv.2) <$> w)
  | None =>
      match truthy (t_guard t) with
      | Some guard => default guard (obj_get GUARD_LABELS guard)
      | None => "(default)"
      end
  end.

Definition state_description (s : WorkflowStateDefinition) : string :=
  match s with
  | SAgent a => a_description a | SHumanGate h => h_description h
  | SDeterministic d => d_description d | STerminal z => z_description z
  end.

Definition buildHandoffClause (transitions : list AgentTransitionDefinition)
    (definition : WorkflowDefinition) : option string :=
  match transitions with
  | [] => None
  | _ =>
      Some ("## What happens with your output" +:+ blank_line
        +:+ "The next step depends on the transition conditions below:" +:+ newline
        +:+ str_join newline ((λ t,
          "- " +:+ formatTransitionCondition t +:+ " → " +:+ t_to t +:+ " ("
          +:+ default (t_to t) (state_description <$> obj_get (w_states definition) (t_to t)) +:+ ")")
          <$> transitions))
  end.

Definition recovery_section (excerpts : list string) : string :=
  let text := str_join blank_line (imap (λ i excerpt,
    "### Prior incomplete turn " +:+ show_nat (S i) +:+ blank_line +:+ excerpt) excerpts) in
  "## Recovery handoff" +:+ blank_line
  +:+ "A previous executor made progress but did not commit a valid routing status. Independently inspect and finish the state, then choose the correct verdict. Do not assume the prior executor had finished. Inspect the durable workspace and expected output directories directly for any files it produced."
  +:+ (if text =? "" then ""
       else blank_line +:+ "Bounded excerpts from its incomplete output:" +:+ blank_line +:+ text).

Definition SECTION_SEPARATOR : string := blank_line +:+ "---" +:+ blank_line.

Definition buildFirstVisitPrompt (stateId : string) (a : AgentStateDefinition) (c : WorkflowContext)
    (definition : WorkflowDefinition) (recovery : option (list string)) : string :=
  let sameState := isSameStateReEntry stateId c in
  str_join SECTION_SEPARATOR
    (appendHumanFeedback (c_humanPrompt c) sameState
     ++ ["## Workflow Context" +:+ blank_line
         +:+ "You are one agent in a multi-agent workflow. The overall workflow goal is:" +:+ blank_line
         +:+ "> " +:+ c_taskDescription c +:+ blank_line
         +:+ "Your specific role and instructions follow below. Focus on YOUR assigned responsibilities, not the overall goal."]
     ++ appendPreviousOutput c sameState "Output from"
     ++ appendInputArtifacts (a_inputs a)
     ++ ["## Your Role" +:+ blank_line +:+ applyLaneTemplate (a_prompt a) c]
     ++ appendExpectedOutputs (a_outputs a)
     ++ match buildHandoffClause (a_transitions a) definition with Some h => [h] | None => [] end
     ++ match recovery with Some excerpts => [recovery_section excerpts] | None => [] end
     ++ [buildStatusInstructions (a_transitions a)]).

Definition buildReVisitPrompt (stateId : string) (a : AgentStateDefinition) (c : WorkflowContext) :
    string :=
  let sameState := isSameStateReEntry stateId c in
  str_join SECTION_SEPARATOR
    (appendHumanFeedback (c_humanPrompt c) sameState
     ++ appendPreviousOutput c sameState "New Input from"
     ++ ["## Round" +:+ blank_line +:+ "This is round "
         +:+ show_Z (default 1%Z (obj_get (c_visitCounts c) stateId)) +:+ " of "
         +:+ show_Z (c_maxRounds c)
         +:+ ". Please address the feedback above and update your outputs."]
     ++ [buildStatusInstructions (a_transitions a)]).

Definition buildAgentCommand (stateId : string) (a : AgentStateDefinition) (c : WorkflowContext)
    (definition : WorkflowDefinition) : string :=
  if bool_decide (a_freshSession a = Some false)
     && (1 <? default 0%Z (obj_get (c_visitCounts c) stateId))%Z
  then buildReVisitPrompt stateId a c
  else buildFirstVisitPrompt stateId a c definition None.

Definition buildAgentReplacementCommand (stateId : string) (a : AgentStateDefinition)
    (c : WorkflowContext) (definition : WorkflowDefinition) (excerpts : list string) : string :=
  buildFirstVisitPrompt stateId a c definition (Some excerpts).

End prompts.

Definition buildArtifactReprompt (missing : list string)
    (transitions : option (list AgentTransitionDefinition)) : string :=
  "The following required output artifacts were not created in your workspace:" +:+ newline
  +:+ str_join newline ((λ name, "  - " +:+ artifact_path name) <$> missing)
  +:+ blank_line +:+ "Please create them now. Each artifact should be a "
  +:+ "directory containing at least one file." +:+ blank_line
  +:+ match transitions with Some t => buildStatusInstructions t | None => MINIMAL_STATUS_INSTRUCTIONS end.
