(* ===== verification/Artifacts.v ===== *)
(** * Artifact directories

    Models src/workflow/artifacts.ts and the artifact helpers of
    src/workflow/orchestrator.ts.  The disk is a parameter of each operation: what
    [lstat] finds at an absolute path, with the tree below a directory.  Entries of a
    directory come in any order; [localeCompare] is a parameter ([Collation]). *)

From Stdlib Require Import Ascii Qcanon.
From stdpp Require Import sorting.
From S2P Require Import Prelude JsValue Paths Hashing WorkflowTypes WorkflowValidate.

(** ** The disk *)

Inductive FileNode :=
| NFile (size : Z) (mtimeMs : Qc) (content : option string)   (** [None]: unreadable *)
| NDir (entries : option (list (string * FileNode)))          (** [None]: cannot be listed *)
| NLink (target : option FileNode)                            (** what it leads to *)
| NOther
| NGone.                                                      (** listed, but [lstat] throws *)

Definition Disk : Type := string → option FileNode.

(** Symbolic links followed, as [existsSync] and [readdirSync] do. *)
Definition follow (n : FileNode) : option FileNode :=
  match n with NLink target => target | NGone => None | _ => Some n end.

Definition existsSync (disk : Disk) (path : string) : bool :=
  bool_decide (is_Some (disk path ≫= follow)).

(** [a.localeCompare(b) <= 0] *)
Class Collation := { locale_le : string → string → bool }.

(** ** Walking a directory *)

Record CollectedFile := {
  cf_relativePath : string;
  cf_fullPath : string;
  cf_node : FileNode          (** what [statSync] finds there *)
}.

Definition below (dir name : string) : string := if dir =? "" then name else dir +:+ "/" +:+ name.

(** [walkDir]; [rel] is the path of the directory relative to the root. *)
Fixpoint walkDir (root rel : string) (n : FileNode) : list CollectedFile :=
  match n with
  | NDir (Some entries) =>
      (fix go (l : list (string * FileNode)) : list CollectedFile :=
         match l with
         | [] => []
         | (name, e) :: l =>
             match e with
             | NDir _ => walkDir root (below rel name) e
             | NFile _ _ _ =>
                 [{| cf_relativePath := below rel name; cf_fullPath := root +:+ "/" +:+ below rel name;
                     cf_node := e |}]
             | NLink _ | NOther | NGone => []
             end ++ go l
         end) entries
  | _ => []
  end.

Definition collectFilesRecursive `{Collation} (disk : Disk) (dir : string) : list CollectedFile :=
  match disk dir ≫= follow with
  | None => []
  | Some n => merge_sort (λ a b, locale_le (cf_relativePath a) (cf_relativePath b)) (walkDir dir "" n)
  end.

Fixpoint hasAnyFilesInDir (n : FileNode) : bool :=
  match n with
  | NDir (Some entries) =>
      (fix go (l : list (string * FileNode)) : bool :=
         match l with
         | [] => false
         | (_, e) :: l =>
             match e with
             | NFile _ _ _ => true
             | NDir _ => if hasAnyFilesInDir e then true else go l
             | NLink _ | NOther | NGone => go l
             end
         end) entries
  | _ => false
  end.

Definition hasAnyFiles (disk : Disk) (dir : string) : bool :=
  match disk dir ≫= follow with
  | None => false
  | Some n => hasAnyFilesInDir n
  end.

(** ** Snapshots *)

Section operations.
Context `{FileSystem}.

Record Snapshot := { sn_disk : Disk; sn_copies : list (string * string) }.

Definition write_disk (disk : Disk) (path : string) (n : option FileNode) : Disk :=
  λ p, if p =? path then n else disk p.

(** One output of [snapshotArtifacts]; a copy that fails is reported and skipped. *)
Definition snapshot_one (copy_ok : string → string → bool) (artifactDir versionSuffix : string)
    (unversionedArtifacts : list string) (s : Snapshot) (output : string) : Snapshot :=
  if includes unversionedArtifacts output then s
  else
    let src := resolve2 artifactDir output in
    if negb (existsSync (sn_disk s) src) then s
    else
      let dest := resolve2 artifactDir (output +:+ versionSuffix) in
      if existsSync (sn_disk s) dest then s
      else if copy_ok src dest
      then {| sn_disk := write_disk (sn_disk s) dest (sn_disk s src);
              sn_copies := sn_copies s ++ [(src, dest)] |}
      else s.

Definition snapshotArtifacts (copy_ok : string → string → bool) (disk : Disk) (artifactDir : string)
    (outputs : list string) (visitNumber : Z) (unversionedArtifacts : list string) : Snapshot :=
  let s := {| sn_disk := disk; sn_copies := [] |} in
  if (visitNumber <=? 1)%Z then s
  else foldl (snapshot_one copy_ok artifactDir (".v" +:+ show_Z (visitNumber - 1)) unversionedArtifacts)
         s outputs.

(** ** What an agent left behind *)

(** [findMissing] of the manager, [findMissingArtifacts] of the orchestrator. *)
Definition findMissing (disk : Disk) (artifactDir : string) (expectedOutputs : list string) : list string :=
  List.filter (λ output, negb (hasAnyFiles disk (resolve2 artifactDir output))) expectedOutputs.

Definition findMissingArtifacts (disk : Disk) (artifactDir : string) (a : AgentStateDefinition) :
    list string :=
  findMissing disk artifactDir (a_outputs a).

Definition is_plain_dir (n : option FileNode) : bool :=
  match n with Some (NDir _) => true | _ => false end.

(** Every directory on the way to a required file, and the file itself. *)
Fixpoint ancestors_plain (disk : Disk) (current : string) (segments : list string) : bool :=
  match segments with
  | [] => true
  | segment :: segments =>
      let current := resolve2 current segment in
      is_plain_dir (disk current) && ancestors_plain disk current segments
  end.

Definition required_file_present (disk : Disk) (artifactDir requiredFile : string) : bool :=
  is_plain_dir (disk artifactDir)
  && ancestors_plain disk artifactDir (removelast (split_on slash requiredFile))
  && (let requiredPath := resolve2 artifactDir requiredFile in
      match disk requiredPath with
      | Some (NFile size _ _) => (0 <? size)%Z && isWithinDirectory requiredPath artifactDir
      | _ => false
      end).

Definition artifactHandoffSatisfied (disk : Disk) (artifactDir : string) (a : AgentStateDefinition) : bool :=
  match a_artifactHandoff a with
  | None => false
  | Some requiredFiles => forallb (required_file_present disk artifactDir) requiredFiles
  end.

Definition collectArtifactPaths (disk : Disk) (artifactDir : string) (outputNames : list string) :
    object string :=
  foldl (λ acc output,
    let dir := resolve2 artifactDir output in
    if existsSync disk dir then obj_set acc output dir else acc) [] outputNames.

(** ** Hashes: paths, sizes and times, never contents *)

Definition file_stamp `{Runtime} (f : CollectedFile) : string :=
  match cf_node f with
  | NFile size mtimeMs _ =>
      cf_relativePath f +:+ ":" +:+ show_Z size +:+ ":" +:+ number_to_string mtimeMs
  | _ => ""
  end.

Definition dir_stamp `{Runtime} `{Collation} (disk : Disk) (dir : string) : string :=
  str_join "" (file_stamp <$> collectFilesRecursive disk dir).

Definition WORKSPACE_HASH_EXCLUDED_DIRS : list string :=
  [".git"; WORKFLOW_ARTIFACT_DIR; "node_modules"; "__pycache__"; ".next"; "dist"; "build"; ".cache";
   ".venv"; "venv"].

(** [collectFileEntries]: links are neither files nor directories for a directory
    entry; a directory that cannot be listed throws. *)
Fixpoint collectFileEntries `{Runtime} (rel : string) (n : FileNode) : result (list string) :=
  match n with
  | NDir (Some entries) =>
      (fix go (l : list (string * FileNode)) : result (list string) :=
         match l with
         | [] => Ok []
         | (name, e) :: l =>
             let relPath := below rel name in
             match
               match e with
               | NDir _ =>
                   if includes WORKSPACE_HASH_EXCLUDED_DIRS name then Ok []
                   else collectFileEntries relPath e
               | NFile _ mtimeMs _ => Ok [relPath +:+ ":" +:+ number_to_string mtimeMs]
               | NLink _ | NOther | NGone => Ok []
               end, go l
             with
             | Ok out, Ok rest => Ok (out ++ rest)
             | Throw e, _ | _, Throw e => Throw e
             end
         end) entries
  | _ => Throw "ENOENT: cannot scan directory"
  end.

Definition computeOutputHash `{Runtime} `{Collation} (disk : Disk) (artifactDir workspacePath : string)
    (outputNames : list string) : result string :=
  match outputNames with
  | [] =>
      match disk workspacePath ≫= follow with
      | None => Throw "ENOENT: cannot scan directory"
      | Some n =>
          match collectFileEntries "" n with
          | Throw e => Throw e
          | Ok entries => Ok (sha256_hex (str_join "" (merge_sort str_le entries)))
          end
      end
  | _ => Ok (sha256_hex (str_join "" ((λ o, dir_stamp disk (resolve2 artifactDir o)) <$> outputNames)))
  end.

(** [FileArtifactManager]: an artifact directory per workflow. *)
Definition manager_artifactDir (baseDir workflowId : string) : string :=
  resolve2 (resolve2 baseDir workflowId) "artifacts".

Definition listArtifactFiles `{Collation} (disk : Disk) (baseDir workflowId artifactName : string) :
    list string :=
  cf_relativePath <$> collectFilesRecursive disk (resolve2 (manager_artifactDir baseDir workflowId) artifactName).

Definition readFileSync (n : option FileNode) : result string :=
  match n ≫= follow with
  | Some (NFile _ _ (Some content)) => Ok content
  | _ => Throw "EACCES: cannot read file"
  end.

Definition manager_read `{Collation} (disk : Disk) (baseDir workflowId artifactName : string) :
    result (option string) :=
  let dir := resolve2 (manager_artifactDir baseDir workflowId) artifactName in
  if negb (existsSync disk dir) then Ok None
  else
    let conventionPath := resolve2 dir (artifactName +:+ ".md") in
    let read n := match readFileSync n with Ok s => Ok (Some s) | Throw e => Throw e end in
    if existsSync disk conventionPath then read (disk conventionPath)
    else match collectFilesRecursive disk dir with
         | [] => Ok None
         | f :: _ => read (Some (cf_node f))
         end.

Definition manager_computeHash `{Runtime} `{Collation} (disk : Disk) (baseDir workflowId : string)
    (artifactNames : list string) : string :=
  sha256_hex (str_join "" ((λ o, dir_stamp disk (resolve2 (manager_artifactDir baseDir workflowId) o))
    <$> merge_sort str_le artifactNames)).

End operations.

(** ** Laws *)

(** Induction on trees: the entries of a directory are smaller. *)
Section tree_induction.
Variable P : FileNode → Prop.
Hypothesis Hfile : ∀ size t content, P (NFile size t content).
Hypothesis Hnone : P (NDir None).
Hypothesis Hdir : ∀ l, Forall (λ e, P e.2) l → P (NDir (Some l)).
Hypothesis Hlink : ∀ t, P (NLink t).
Hypothesis Hother : P NOther.
Hypothesis Hgone : P NGone.

Fixpoint FileNode_tree_ind (n : FileNode) : P n :=
  match n with
  | NFile size t content => Hfile size t content
  | NDir None => Hnone
  | NDir (Some l) =>
      Hdir l ((fix go (l : list (string * FileNode)) : Forall (λ e, P e.2) l :=
        match l with
        | [] => @List.Forall_nil _ _
        | e :: l => @List.Forall_cons _ _ e l (FileNode_tree_ind e.2) (go l)
        end) l)
  | NLink t => Hlink t
  | NOther => Hother
  | NGone => Hgone
  end.

End tree_induction.

(** The short walk and the full one agree. *)
Lemma hasAnyFilesInDir_walk root n : ∀ rel, hasAnyFilesInDir n = negb (bool_decide (walkDir root rel n = [])).
Proof.
  induction n as [| |l IH| | |] using FileNode_tree_ind; intros rel; try done.
  cbn [hasAnyFilesInDir walkDir]. induction IH as [|[name e] l He Hl IHl]; [done|].
  cbn [snd] in He. destruct e; cbn [app]; try exact IHl; [done|].
  rewrite (He (below rel name)). destruct (walkDir root (below rel name) _); [exact IHl|done].
Qed.

(** A directory has files exactly when collecting them finds some. *)
Lemma hasAnyFiles_exact `{Collation} disk dir :
  hasAnyFiles disk dir = negb (bool_decide (collectFilesRecursive disk dir = [])).
Proof.
  unfold hasAnyFiles, collectFilesRecursive. destruct (disk dir ≫= follow) as [n|]; [|done].
  rewrite (hasAnyFilesInDir_walk dir n ""). f_equal. apply bool_decide_ext. split.
  - by intros ->.
  - intros Hs. destruct (walkDir dir "" n) as [|f l] eqn:E; [done|]. exfalso.
    assert (Hp := merge_sort_Permutation (λ a b, locale_le (cf_relativePath a) (cf_relativePath b)) (f :: l)).
    rewrite Hs in Hp. by apply Permutation_nil_cons in Hp.
Qed.

Lemma snapshot_one_keeps `{FileSystem} copy_ok dir suffix unversioned s output path :
  existsSync (sn_disk s) path = true →
  sn_disk (snapshot_one copy_ok dir suffix unversioned s output) path = sn_disk s path.
Proof.
  intros He. unfold snapshot_one. repeat (case_match; try done). csimpl. unfold write_disk.
  case_bool_decide as E; [|done]. subst. congruence.
Qed.

(** Snapshots never change what exists: neither the artifacts nor older snapshots. *)
Lemma snapshotArtifacts_keeps `{FileSystem} copy_ok disk dir outputs visit unversioned path :
  existsSync disk path = true →
  sn_disk (snapshotArtifacts copy_ok disk dir outputs visit unversioned) path = disk path.
Proof.
  unfold snapshotArtifacts. cbv zeta. destruct (visit <=? 1)%Z; [done|].
  change disk with (sn_disk {| sn_disk := disk; sn_copies := [] |}) at 1 3.
  generalize ({| sn_disk := disk; sn_copies := [] |}). induction outputs as [|o outputs IH]; intros s He; [done|].
  csimpl. pose proof (snapshot_one_keeps copy_ok dir (".v" +:+ show_Z (visit - 1)) unversioned s o path He) as Hk.
  rewrite IH; [done|]. unfold existsSync in *. by rewrite Hk.
Qed.
