(* ===== verification/AgentTurn.v ===== *)
(** * One invocation of an agent state

    Models the turn loop of [executeAgentState] in src/workflow/orchestrator.ts, from
    the session that was created to the result or the error: the retries of a turn that
    produced nothing, the recovery turns when no routable status was committed, the
    fresh replacement, the artifact handoff and the retry for missing artifacts.  What
    the session answers, its budget, its rotations and the disk are the environment
    ([AgentEnv]), each a function of the messages sent so far; whatever an agent does
    between two turns is one such environment.  The code is in a monad of its own with
    state and errors. *)

From Stdlib Require Import Ascii QArith Qcanon.
From S2P Require Import Prelude JsValue Paths Hashing Numbers StepLoop Budget WorkflowTypes LaneTemplate.
From S2P Require Import StatusParser MachineBuilder WorkflowValidate PromptBuilder Artifacts.

(** ** The session *)

(** Of src/docker/agent-adapter.ts. *)
Inductive TransientFailureKind := DegenerateResponse | Upstream5xx | UpstreamApiError.

Definition describeTransientFailureKind (kind : TransientFailureKind) : string :=
  match kind with
  | DegenerateResponse => "agent returned no content (output_tokens=0, stop_reason=null)"
  | Upstream5xx => "upstream returned a 5xx error after SDK retries exhausted"
  | UpstreamApiError =>
      "agent's API layer aborted the turn after internal retries (stalled stream or failed connection)"
  end.

(** [AgentTurnResult]; [resetAt] by its ISO string. *)
Record AgentTurnResult := {
  tr_text : string;
  tr_hardFailure : bool;
  tr_quotaExhausted : option (option string * string);
  tr_transientFailure : option (TransientFailureKind * string)
}.

(** The part of [session.getBudgetStatus()] that recovery looks at. *)
Record BudgetView := {
  bv_cumulative : CumulativeBudgetSnapshot;
  bv_limits : ResolvedResourceBudgetConfig;
  bv_tokenTrackingAvailable : bool
}.

(** The messages sent so far, the latest first. *)
Definition History : Type := list string.

Class AgentEnv := {
  ae_reply : History → result AgentTurnResult;       (** to the latest message *)
  ae_rotate : History → nat → option string;         (** [None]: no rotation *)
  ae_budget : History → BudgetView;
  ae_disk : History → Disk;
  ae_totalTokens : History → Z;
}.

Definition cumulativeBudgetExhaustionReason (b : BudgetView) : option string :=
  let cumulative := bv_cumulative b in
  let limits := bv_limits b in
  let over {A} (le : A → A → bool) (limit : option A) (v : A) : bool :=
    match limit with Some l => le l v | None => false end in
  if bv_tokenTrackingAvailable b && over Z.leb (maxTotalTokens limits) (cs_totalTokens cumulative)
  then Some ("token budget exhausted (" +:+ show_Z (cs_totalTokens cumulative) +:+ "/"
             +:+ show_Z (default 0%Z (maxTotalTokens limits)) +:+ ")")
  else if over Z.leb (maxSteps limits) (cs_stepCount cumulative)
  then Some ("step budget exhausted (" +:+ show_Z (cs_stepCount cumulative) +:+ "/"
             +:+ show_Z (default 0%Z (maxSteps limits)) +:+ ")")
  else if over qc_le (maxEstimatedCostUsd limits) (cs_estimatedCostUsd cumulative)
  then Some ("cost budget exhausted ($" +:+ toFixed 2 (cs_estimatedCostUsd cumulative) +:+ "/$"
             +:+ toFixed 2 (default (qc_of_Z 0) (maxEstimatedCostUsd limits)) +:+ ")")
  else None.

(** ** The monad *)

Inductive AgentRetryReason :=
| UpstreamStall | InvalidVerdict | MalformedStatusBlock | MissingStatusBlock | MissingArtifacts.

(** The entries of the message log. *)
Inductive LogEntry :=
| LogSent (message : string)
| LogReceived (message : string) (output : option AgentOutput)
| LogRetry (reason : AgentRetryReason) (details retryMessage : string)
| LogQuotaExhausted (resetAt : option string) (rawMessage : string)
| LogTransientFailure (kind : TransientFailureKind) (rawMessage : string)
| LogError (error context : string).

Inductive LifecycleEvent :=
| AgentStarted (state persona : string)
| AgentCompleted (state persona verdict : string)
| AgentSessionEnded (state : string).

Record TurnState := {
  ts_sent : History;
  ts_log : list LogEntry;
  ts_events : list LifecycleEvent;
  ts_rotations : nat;
  ts_conversation : string;                     (** [currentConversationId] *)
  ts_responseText : string;
  ts_latestResponseText : string;
  ts_excerpts : list string;
  ts_quotaExhausted : bool;                     (** stamped on the instance *)
  ts_transientFailure : bool
}.

Inductive TurnError :=
| EQuotaExhausted (resetAt : option string)
| ETransientFailure (kind : TransientFailureKind)
| EFail (message : string).

Definition error_message (e : TurnError) : string :=
  match e with
  | EQuotaExhausted resetAt =>
      "Agent turn aborted: upstream quota exhausted"
      +:+ match resetAt with Some t => " (resets at " +:+ t +:+ ")" | None => "" end
  | ETransientFailure kind =>
      "Agent turn aborted: transient upstream failure — " +:+ describeTransientFailureKind kind
  | EFail message => message
  end.

Definition T (A : Type) : Type := TurnState → TurnState * (A + TurnError).

#[export] Instance T_ret : MRet T := λ A a s, (s, inl a).
#[export] Instance T_bind : MBind T := λ A B f m s,
  match m s with
  | (s', inl a) => f a s'
  | (s', inr e) => (s', inr e)
  end.

Definition raise {A} (e : TurnError) : T A := λ s, (s, inr e).
Definition gets {A} (f : TurnState → A) : T A := λ s, (s, inl (f s)).

(** ** Effects *)

Definition append (e : LogEntry) : T unit := λ s,
  ({| ts_sent := ts_sent s; ts_log := ts_log s ++ [e]; ts_events := ts_events s;
      ts_rotations := ts_rotations s; ts_conversation := ts_conversation s;
      ts_responseText := ts_responseText s; ts_latestResponseText := ts_latestResponseText s;
      ts_excerpts := ts_excerpts s; ts_quotaExhausted := ts_quotaExhausted s;
      ts_transientFailure := ts_transientFailure s |}, inl ()).

Definition emitLifecycleEvent (e : LifecycleEvent) : T unit := λ s,
  ({| ts_sent := ts_sent s; ts_log := ts_log s; ts_events := ts_events s ++ [e];
      ts_rotations := ts_rotations s; ts_conversation := ts_conversation s;
      ts_responseText := ts_responseText s; ts_latestResponseText := ts_latestResponseText s;
      ts_excerpts := ts_excerpts s; ts_quotaExhausted := ts_quotaExhausted s;
      ts_transientFailure := ts_transientFailure s |}, inl ()).

Definition logReceived (text : string) (output : option AgentOutput) : T unit :=
  append (LogReceived text output).
Definition logAgentRetry (reason : AgentRetryReason) (details retryMessage : string) : T unit :=
  append (LogRetry reason details retryMessage).

Definition stamp (quota transient : bool) : T unit := λ s,
  ({| ts_sent := ts_sent s; ts_log := ts_log s; ts_events := ts_events s;
      ts_rotations := ts_rotations s; ts_conversation := ts_conversation s;
      ts_responseText := ts_responseText s; ts_latestResponseText := ts_latestResponseText s;
      ts_excerpts := ts_excerpts s; ts_quotaExhausted := ts_quotaExhausted s || quota;
      ts_transientFailure := ts_transientFailure s || transient |}, inl ()).

Definition send (message : string) : T unit := λ s,
  ({| ts_sent := message :: ts_sent s; ts_log := ts_log s; ts_events := ts_events s;
      ts_rotations := ts_rotations s; ts_conversation := ts_conversation s;
      ts_responseText := ts_responseText s; ts_latestResponseText := ts_latestResponseText s;
      ts_excerpts := ts_excerpts s; ts_quotaExhausted := ts_quotaExhausted s;
      ts_transientFailure := ts_transientFailure s |}, inl ()).

Definition set_response (body : string) : T unit := λ s,
  ({| ts_sent := ts_sent s; ts_log := ts_log s; ts_events := ts_events s;
      ts_rotations := ts_rotations s; ts_conversation := ts_conversation s;
      ts_responseText := body; ts_latestResponseText := ts_latestResponseText s;
      ts_excerpts := ts_excerpts s; ts_quotaExhausted := ts_quotaExhausted s;
      ts_transientFailure := ts_transientFailure s |}, inl ()).

(** ** Limits *)

Definition MAX_HARD_RETRIES : nat := 2.
Definition MAX_COMMIT_RECOVERY_TURNS : nat := 2.
Definition MAX_RECOVERY_EXCERPTS : nat := 3.
Definition MAX_RECOVERY_EXCERPT_CHARS : nat := Z.to_nat 4000.

Definition bounded_excerpt (body : string) : string :=
  let safe := truncateAgentOutput body in
  if (MAX_RECOVERY_EXCERPT_CHARS <? String.length safe)%nat
  then str_take MAX_RECOVERY_EXCERPT_CHARS safe +:+ newline +:+ "[excerpt truncated]"
  else safe.

Definition push_excerpt (l : list string) (e : string) : list string :=
  let l := l ++ [e] in
  if (MAX_RECOVERY_EXCERPTS <? length l)%nat then drop 1 l else l.

Definition rememberResponse (text : string) : T unit := λ s,
  let body := str_trim (stripAgentStatusFences text) in
  ({| ts_sent := ts_sent s; ts_log := ts_log s; ts_events := ts_events s;
      ts_rotations := ts_rotations s; ts_conversation := ts_conversation s;
      ts_responseText := if body =? "" then ts_responseText s else body;
      ts_latestResponseText := text;
      ts_excerpts := if body =? "" then ts_excerpts s
                     else push_excerpt (ts_excerpts s) (bounded_excerpt body);
      ts_quotaExhausted := ts_quotaExhausted s; ts_transientFailure := ts_transientFailure s |},
   inl ()).

(** ** Turns *)

Section invocation.
Context `{Yaml} `{Runtime} `{FileSystem} `{Collation} `{AgentEnv}.

(** Every prompt goes through here: quota exhaustion and transient failures stop the
    invocation. *)
Definition sendAgentTurn (message : string) : T AgentTurnResult :=
  _ ← send message;
  reply ← gets (λ s, ae_reply (ts_sent s));
  match reply with
  | Throw e => raise (EFail e)
  | Ok result =>
      match tr_quotaExhausted result, tr_transientFailure result with
      | Some (resetAt, rawMessage), _ =>
          _ ← logReceived (tr_text result) None;
          _ ← append (LogQuotaExhausted resetAt rawMessage);
          _ ← stamp true false;
          raise (EQuotaExhausted resetAt)
      | None, Some (kind, rawMessage) =>
          _ ← append (LogTransientFailure kind rawMessage);
          _ ← stamp false true;
          raise (ETransientFailure kind)
      | None, None => mret result
      end
  end.

(** [rotateConversation]: an empty id counts as none. *)
Definition rotateConversation : T bool := λ s,
  let rotated := truthy (ae_rotate (ts_sent s) (ts_rotations s)) in
  ({| ts_sent := ts_sent s; ts_log := ts_log s; ts_events := ts_events s;
      ts_rotations := S (ts_rotations s); ts_conversation := default (ts_conversation s) rotated;
      ts_responseText := ts_responseText s; ts_latestResponseText := ts_latestResponseText s;
      ts_excerpts := ts_excerpts s; ts_quotaExhausted := ts_quotaExhausted s;
      ts_transientFailure := ts_transientFailure s |}, inl (bool_decide (is_Some rotated))).

Definition budgetReason : T (option string) :=
  gets (λ s, cumulativeBudgetExhaustionReason (ae_budget (ts_sent s))).

(** ** Commits *)

Inductive CommitResult :=
| CommitOk (output : AgentOutput)
| CommitMissing
| CommitMalformed (message : string)
| CommitInvalid (output : AgentOutput).

(** [tryParseAgentStatus] and the check against the verdicts that route. *)
Definition evaluateCommit (transitions : list AgentTransitionDefinition) (text : string) : CommitResult :=
  match parseAgentStatus text with
  | Throw message => CommitMalformed message
  | Ok None => CommitMissing
  | Ok (Some output) =>
      match getValidVerdicts transitions with
      | Some verdicts =>
          if includes verdicts (o_verdict output) then CommitOk output else CommitInvalid output
      | None => CommitOk output
      end
  end.

Definition commit_output (c : CommitResult) : option AgentOutput :=
  match c with CommitOk output => Some output | _ => None end.

Definition verdict_set (transitions : list AgentTransitionDefinition) : string :=
  str_join ", " (default [] (getValidVerdicts transitions)).

(** Reason, details and message of the re-prompt. *)
Definition commitRetry (transitions : list AgentTransitionDefinition) (c : CommitResult) :
    AgentRetryReason * string * string :=
  let statusInstructions := buildStatusInstructions transitions in
  match c with
  | CommitInvalid output =>
      (InvalidVerdict,
       "Verdict " +:+ quoted (o_verdict output) +:+ " not in valid set: " +:+ verdict_set transitions,
       buildInvalidVerdictReprompt (o_verdict output) transitions)
  | CommitMalformed message =>
      (MalformedStatusBlock, "Malformed agent_status block: " +:+ message,
       buildStatusBlockReprompt (Some statusInstructions) (Some message))
  | _ =>
      (MissingStatusBlock, "Response did not contain a final agent_status block",
       buildStatusBlockReprompt (Some statusInstructions) None)
  end.

Definition commitFailureDescription (transitions : list AgentTransitionDefinition) (c : CommitResult) :
    string :=
  match c with
  | CommitInvalid output =>
      "invalid verdict " +:+ quoted (o_verdict output) +:+ " (expected one of: "
      +:+ verdict_set transitions +:+ ")"
  | CommitMalformed message => "malformed agent_status block: " +:+ message
  | _ => "missing final agent_status block"
  end.

(** ** The phases *)

(** The command, sent again with a rotated conversation while turns produce nothing;
    [remaining] retries remain. *)
Fixpoint hardLoop (command : string) (remaining attempt : nat) : T unit :=
  result ← sendAgentTurn command;
  if negb (tr_hardFailure result) then rememberResponse (tr_text result)
  else
    _ ← logReceived (tr_text result) None;
    _ ← logAgentRetry UpstreamStall
          ("Agent exited without producing output (attempt " +:+ show_nat (S attempt) +:+ "/"
           +:+ show_nat (S MAX_HARD_RETRIES) +:+ ")") command;
    match remaining with
    | O => raise (EFail ("Agent failed to produce output after " +:+ show_nat (S MAX_HARD_RETRIES)
                         +:+ " attempts (upstream stall)"))
    | S remaining =>
        reason ← budgetReason;
        match reason with
        | Some reason => raise (EFail ("Cannot retry upstream stall: " +:+ reason))
        | None => _ ← rotateConversation; hardLoop command remaining (S attempt)
        end
    end.

(** What recovery has come to: the commit, why it failed, and whether the conversation
    was rotated. *)
Record Recovery := {
  rv_commit : CommitResult;
  rv_failure : option string;
  rv_rotated : bool
}.

Fixpoint recoveryLoop (transitions : list AgentTransitionDefinition) (remaining : nat) (r : Recovery) :
    T Recovery :=
  match remaining, rv_commit r with
  | O, _ | _, CommitOk _ => mret r
  | S remaining, c =>
      reason ← budgetReason;
      match reason with
      | Some reason =>
          mret {| rv_commit := c; rv_failure := Some ("Status recovery stopped: " +:+ reason);
                  rv_rotated := rv_rotated r |}
      | None =>
          let '(retryReason, details, message) := commitRetry transitions c in
          _ ← logAgentRetry retryReason details message;
          result ← sendAgentTurn message;
          if tr_hardFailure result then
            _ ← logReceived (tr_text result) None;
            _ ← logAgentRetry UpstreamStall "Status recovery turn exited without producing output" message;
            rotated ← rotateConversation;
            mret {| rv_commit := c;
                    rv_failure := Some "Status recovery failed because the agent conversation hard-failed";
                    rv_rotated := rotated |}
          else
            _ ← rememberResponse (tr_text result);
            let c := evaluateCommit transitions (tr_text result) in
            _ ← logReceived (tr_text result) (commit_output c);
            recoveryLoop transitions remaining {| rv_commit := c; rv_failure := rv_failure r;
                                             rv_rotated := rv_rotated r |}
      end
  end.

Definition routesOnStatus (transitions : list AgentTransitionDefinition) : bool := existsb when_set transitions.

(** One fresh execution for a state that routes on its status. *)
Definition replaceAgent (stateId : string) (a : AgentStateDefinition) (context : WorkflowContext)
    (definition : WorkflowDefinition) (r : Recovery) : T Recovery :=
  let transitions := a_transitions a in
  let failed reason := {| rv_commit := rv_commit r; rv_failure := Some reason; rv_rotated := rv_rotated r |} in
  match rv_commit r with
  | CommitOk _ => mret r
  | c =>
      if negb (routesOnStatus transitions) then mret r
      else
        reason ← budgetReason;
        match reason with
        | Some reason => mret (failed ("Replacement execution skipped: " +:+ reason))
        | None =>
            fresh ← (if rv_rotated r then mret true else rotateConversation);
            if negb fresh
            then mret (failed "Cannot start fresh replacement because this session cannot rotate conversations")
            else
              excerpts ← gets ts_excerpts;
              let prompt := buildAgentReplacementCommand stateId a context definition excerpts in
              let '(retryReason, details, _) := commitRetry transitions c in
              _ ← logAgentRetry retryReason
                    ("Fresh replacement after recovery exhaustion: " +:+ details) prompt;
              replacement ← sendAgentTurn prompt;
              if tr_hardFailure replacement then
                _ ← logReceived (tr_text replacement) None;
                _ ← rotateConversation;
                mret (failed "Fresh replacement execution hard-failed")
              else
                _ ← rememberResponse (tr_text replacement);
                let c := evaluateCommit transitions (tr_text replacement) in
                _ ← logReceived (tr_text replacement) (commit_output c);
                mret {| rv_commit := c;
                        rv_failure := match c with
                          | CommitOk _ => rv_failure r
                          | _ => Some ("Fresh replacement returned " +:+ commitFailureDescription transitions c)
                          end;
                        rv_rotated := rv_rotated r |}
        end
  end.

Definition HANDOFF : string :=
  "Required artifacts are present; handing them to the configured validator for independent validation.".

Definition handoff_output : AgentOutput :=
  {| o_completed := true; o_verdict := "artifact_handoff"; o_confidence := ConfHigh; o_escalation := None;
     o_testCount := None; o_notes := Some HANDOFF |}.

(** The committed output, or the artifact handoff, or the failure. *)
Definition resolveOutput (a : AgentStateDefinition) (artifactDir : string) (r : Recovery) : T AgentOutput :=
  match rv_commit r with
  | CommitOk output => mret output
  | c =>
      satisfied ← gets (λ s, artifactHandoffSatisfied (ae_disk (ts_sent s)) artifactDir a);
      if negb satisfied then raise (EFail (default
        ("Agent did not commit a routable status after " +:+ show_nat MAX_COMMIT_RECOVERY_TURNS
         +:+ " recovery turns: " +:+ commitFailureDescription (a_transitions a) c) (rv_failure r)))
      else
        _ ← set_response HANDOFF;
        mret handoff_output
  end.

Definition missing_now (a : AgentStateDefinition) (artifactDir : string) : T (list string) :=
  gets (λ s, findMissingArtifacts (ae_disk (ts_sent s)) artifactDir a).

(** One turn to create what is missing. *)
Definition retryArtifacts (a : AgentStateDefinition) (artifactDir : string) (output : AgentOutput) :
    T AgentOutput :=
  missing ← missing_now a artifactDir;
  match missing with
  | [] => mret output
  | _ =>
      let message := buildArtifactReprompt missing (Some (a_transitions a)) in
      _ ← logAgentRetry MissingArtifacts ("Missing: " +:+ str_join ", " missing) message;
      reason ← budgetReason;
      match reason with
      | Some reason => raise (EFail ("Cannot retry missing artifacts: " +:+ reason))
      | None =>
          result ← sendAgentTurn message;
          if tr_hardFailure result then
            _ ← logReceived (tr_text result) None;
            _ ← rotateConversation;
            raise (EFail "Missing-artifact recovery turn hard-failed")
          else
            _ ← rememberResponse (tr_text result);
            let c := evaluateCommit (a_transitions a) (tr_text result) in
            _ ← logReceived (tr_text result) (commit_output c);
            stillMissing ← missing_now a artifactDir;
            match stillMissing with
            | [] => mret (default output (commit_output c))
            | _ => raise (EFail ("Missing artifacts after retry: " +:+ str_join ", " stillMissing))
            end
      end
  end.

(** The body of the [try] block. *)
Definition runTurns (stateId : string) (a : AgentStateDefinition) (context : WorkflowContext)
    (definition : WorkflowDefinition) (artifactDir workspacePath : string) : T AgentInvokeResult :=
  let command := buildAgentCommand stateId a context definition in
  _ ← append (LogSent command);
  _ ← emitLifecycleEvent (AgentStarted stateId (a_persona a));
  _ ← hardLoop command MAX_HARD_RETRIES 0;
  text ← gets ts_latestResponseText;
  let commit := evaluateCommit (a_transitions a) text in
  _ ← logReceived text (commit_output commit);
  r ← recoveryLoop (a_transitions a) MAX_COMMIT_RECOVERY_TURNS
        {| rv_commit := commit; rv_failure := None; rv_rotated := false |};
  r ← replaceAgent stateId a context definition r;
  output ← resolveOutput a artifactDir r;
  output ← retryArtifacts a artifactDir output;
  hash ← gets (λ s, computeOutputHash (ae_disk (ts_sent s)) artifactDir workspacePath (a_outputs a));
  match hash with
  | Throw e => raise (EFail e)
  | Ok outputHash =>
      artifacts ← gets (λ s, collectArtifactPaths (ae_disk (ts_sent s)) artifactDir (a_outputs a));
      _ ← emitLifecycleEvent (AgentCompleted stateId (a_persona a) (o_verdict output));
      conversation ← gets ts_conversation;
      responseText ← gets ts_responseText;
      totalTokens ← gets (λ s, ae_totalTokens (ts_sent s));
      mret {| ai_output := output; ai_agentConversationId := conversation; ai_artifacts := artifacts;
              ai_outputHash := outputHash; ai_responseText := responseText; ai_totalTokens := totalTokens |}
  end.

(** A session that has just been created. *)
Definition fresh_session (agentConversationId : string) : TurnState :=
  {| ts_sent := []; ts_log := []; ts_events := []; ts_rotations := 0;
     ts_conversation := agentConversationId; ts_responseText := ""; ts_latestResponseText := "";
     ts_excerpts := []; ts_quotaExhausted := false; ts_transientFailure := false |}.

Definition is_upstream_error (e : TurnError) : bool :=
  match e with EFail _ => false | _ => true end.

(** With its [catch] and [finally]: what the machine gets, and the state afterwards. *)
Definition executeAgentTurns (stateId : string) (a : AgentStateDefinition) (context : WorkflowContext)
    (definition : WorkflowDefinition) (artifactDir workspacePath agentConversationId : string) :
    TurnState * (AgentInvokeResult + Rejection) :=
  match runTurns stateId a context definition artifactDir workspacePath (fresh_session agentConversationId) with
  | (s, inl result) => ((emitLifecycleEvent (AgentSessionEnded stateId) s).1, inl result)
  | (s, inr e) =>
      let s := if is_upstream_error e then s
               else (append (LogError (error_message e)
                 ("agent " +:+ quoted stateId +:+ " (persona: " +:+ a_persona a +:+ ")")) s).1 in
      ((emitLifecycleEvent (AgentSessionEnded stateId) s).1,
       inr (RejInvocation stateId (ts_conversation s) (error_message e)))
  end.

End invocation.

(** The conversation id of an invocation: a state that keeps its session reuses the
    one it had. *)
Definition invocation_conversation (stateId : string) (a : AgentStateDefinition) (context : WorkflowContext)
    (minted : string) : string :=
  default minted
    (if bool_decide (a_freshSession a = Some false)
     then obj_get (c_agentConversationsByState context) stateId else None).

(** * The invariant of an agent invocation

    A weakest-precondition calculus for the monad of [AgentTurn], and the invariant
    that its phases keep: how many turns were sent, that none after the first was sent
    on a budget that was visibly exhausted, and that the log has every answer once. *)

(** ** Weakest preconditions *)

Definition wp {A} (m : T A) (Q : A → TurnState → Prop) (E : TurnError → TurnState → Prop)
    (s : TurnState) : Prop :=
  match m s with
  | (s', inl a) => Q a s'
  | (s', inr e) => E e s'
  end.

Lemma wp_ret {A} (a : A) Q E s : Q a s → wp (mret a) Q E s.
Proof. done. Qed.

Lemma wp_raise {A} e (Q : A → TurnState → Prop) (E : TurnError → TurnState → Prop) s :
  E e s → wp (raise e) Q E s.
Proof. done. Qed.

Lemma wp_gets {A} (f : TurnState → A) (Q : A → TurnState → Prop) E s : Q (f s) s → wp (gets f) Q E s.
Proof. done. Qed.

Lemma wp_bind {A B} (m : T A) (f : A → T B) Q E s :
  wp m (λ a s, wp (f a) Q E s) E s → wp (m ≫= f) Q E s.
Proof. unfold wp, mbind, T_bind. by destruct (m s) as [s' [a|e]]. Qed.

(** An effect that cannot fail. *)
Lemma wp_effect {A B} (m : T A) (f : A → T B) a Q E s :
  (m s).2 = inl a → wp (f a) Q E (m s).1 → wp (m ≫= f) Q E s.
Proof. unfold wp, mbind, T_bind. destruct (m s) as [s' r]. csimpl. by intros ->. Qed.

Lemma wp_last {A} (m : T A) (Q : A → TurnState → Prop) E s a :
  (m s).2 = inl a → Q a (m s).1 → wp m Q E s.
Proof. unfold wp. destruct (m s) as [s' r]. csimpl. by intros ->. Qed.

Lemma wp_mono {A} (m : T A) (Q Q' : A → TurnState → Prop) (E E' : TurnError → TurnState → Prop) s :
  wp m Q E s → (∀ a s, Q a s → Q' a s) → (∀ e s, E e s → E' e s) → wp m Q' E' s.
Proof. unfold wp. destruct (m s) as [s' [a|e]]; auto. Qed.

Section theory.
Context `{Yaml} `{Runtime} `{FileSystem} `{Collation} `{AgentEnv}.

(** ** The invariant *)

(** No turn after the first was sent on an exhausted budget. *)
Fixpoint budgeted (h : History) : Prop :=
  match h with
  | [] => True
  | _ :: pre => (pre = [] ∨ cumulativeBudgetExhaustionReason (ae_budget pre) = None) ∧ budgeted pre
  end.

(** The answers to log, the oldest first: all but those of transient failures. *)
Definition loggable (r : AgentTurnResult) : bool :=
  bool_decide (is_Some (tr_quotaExhausted r)) || negb (bool_decide (is_Some (tr_transientFailure r))).

Fixpoint answered (h : History) : list string :=
  match h with
  | [] => []
  | _ :: pre =>
      answered pre ++ match ae_reply h with
        | Ok r => if loggable r then [tr_text r] else []
        | Throw _ => []
        end
  end.

Definition received (log : list LogEntry) : list string :=
  omap (λ e, match e with LogReceived text _ => Some text | _ => None end) log.

Definition is_error (e : LogEntry) : bool := match e with LogError _ _ => true | _ => false end.

Definition can_send (s : TurnState) : Prop :=
  ts_sent s = [] ∨ cumulativeBudgetExhaustionReason (ae_budget (ts_sent s)) = None.

Record turn_inv (evs : list LifecycleEvent) (ready : bool) (n : nat) (owed : list string)
    (quota transient : bool) (s : TurnState) : Prop := {
  ti_bound : length (ts_sent s) ≤ n;
  ti_budget : budgeted (ts_sent s);
  ti_ready : ready = true → can_send s;
  ti_log : received (ts_log s) ++ owed = answered (ts_sent s);
  ti_errors : existsb is_error (ts_log s) = false;
  ti_events : ts_events s = evs;
  ti_quota : ts_quotaExhausted s = quota;
  ti_transient : ts_transientFailure s = transient
}.

Definition is_quota (e : TurnError) : bool := match e with EQuotaExhausted _ => true | _ => false end.
Definition is_transient (e : TurnError) : bool := match e with ETransientFailure _ => true | _ => false end.

(** Between phases, and when an error leaves a phase. *)
Definition quiet (evs : list LifecycleEvent) (n : nat) : TurnState → Prop :=
  turn_inv evs false n [] false false.
Definition failed (evs : list LifecycleEvent) (n : nat) (e : TurnError) (s : TurnState) : Prop :=
  turn_inv evs false n [] (is_quota e) (is_transient e) s.

Lemma turn_inv_mono evs ready n n' owed q t s :
  n ≤ n' → turn_inv evs ready n owed q t s → turn_inv evs false n' owed q t s.
Proof. intros Hn []. split; try done. lia. Qed.

Lemma received_app l k : received (l ++ k) = received l ++ received k.
Proof. unfold received. by rewrite omap_app. Qed.

(** ** Effects *)

Lemma append_inv e evs ready n owed q t s :
  (∀ text out, e ≠ LogReceived text out) → is_error e = false →
  turn_inv evs ready n owed q t s → turn_inv evs ready n owed q t (append e s).1.
Proof.
  intros He Hr []. split; csimpl; try done.
  - rewrite received_app. destruct e; csimpl; rewrite ?app_nil_r; try done. by destruct (He message output).
  - rewrite existsb_app, ti_errors0. cbn [existsb]. by rewrite Hr.
Qed.

Lemma logReceived_inv text out evs ready n q t s :
  turn_inv evs ready n [text] q t s → turn_inv evs ready n [] q t (logReceived text out s).1.
Proof.
  intros []. split; csimpl; try done.
  - rewrite received_app. csimpl. by rewrite app_nil_r.
  - by rewrite existsb_app, ti_errors0.
Qed.

Lemma rememberResponse_inv text evs ready n owed q t s :
  turn_inv evs ready n owed q t s → turn_inv evs ready n owed q t (rememberResponse text s).1.
Proof. intros []. by split. Qed.

Lemma set_response_inv text evs ready n owed q t s :
  turn_inv evs ready n owed q t s → turn_inv evs ready n owed q t (set_response text s).1.
Proof. intros []. by split. Qed.

Lemma rotate_inv evs ready n owed q t s :
  turn_inv evs ready n owed q t s → turn_inv evs ready n owed q t (rotateConversation s).1.
Proof. intros []. by split. Qed.

(** A turn: its answer is owed to the log, except when it stops the invocation. *)
Lemma sendAgentTurn_spec message evs n s :
  turn_inv evs true n [] false false s →
  wp (sendAgentTurn message)
    (λ r s', turn_inv evs false (S n) [tr_text r] false false s') (failed evs (S n)) s.
Proof.
  intros [Hb Hbud Hr Hlog Herr Hev Hq Ht]. unfold sendAgentTurn.
  apply wp_bind. unfold wp at 1. cbn [send]. apply wp_bind, wp_gets.
  cbn [ts_sent]. set (s1 := (send message s).1).
  assert (Hbud1 : budgeted (message :: ts_sent s)) by (split; [by apply Hr|done]).
  destruct (ae_reply (message :: ts_sent s)) as [r|e] eqn:Ha.

  2: { change (failed evs (S n) (EFail e) s1). split; csimpl; try done; [lia|].
       rewrite Ha, app_nil_r. by rewrite app_nil_r in Hlog |- *. }
  rewrite app_nil_r in Hlog.
  destruct (tr_quotaExhausted r) as [[resetAt raw]|] eqn:Hqr.
  { change (failed evs (S n) (EQuotaExhausted resetAt)
      (stamp true false (append (LogQuotaExhausted resetAt raw) (logReceived (tr_text r) None s1).1).1).1).
    split; csimpl; try done; [lia| | |by rewrite Hq|by rewrite Ht].
    - rewrite !received_app, Ha. unfold loggable. rewrite Hqr. csimpl. by rewrite Hlog, !app_nil_r.
    - by rewrite !existsb_app, Herr. }
  destruct (tr_transientFailure r) as [[kind raw]|] eqn:Htr.
  { change (failed evs (S n) (ETransientFailure kind)
      (stamp false true (append (LogTransientFailure kind raw) s1).1).1).
    split; csimpl; try done; [lia| | |by rewrite Hq|by rewrite Ht].
    - rewrite !received_app, Ha. unfold loggable. rewrite Hqr, Htr. csimpl. by rewrite Hlog, !app_nil_r.
    - by rewrite !existsb_app, Herr. }
  apply wp_ret. split; csimpl; try done; [lia|].
  rewrite Ha. unfold loggable. rewrite Hqr, Htr. csimpl. by rewrite Hlog.
Qed.

(** ** Phases *)

(** Reading the budget: on [None] a turn may be sent. *)
Lemma budgetReason_ready evs n s :
  quiet evs n s → cumulativeBudgetExhaustionReason (ae_budget (ts_sent s)) = None →
  turn_inv evs true n [] false false s.
Proof. intros [] Hr. split; try done. intros _. by right. Qed.

Lemma failed_mono evs n n' e s : n ≤ n' → failed evs n e s → failed evs n' e s.
Proof. unfold failed. apply turn_inv_mono. Qed.

Lemma quiet_fail evs n message s : quiet evs n s → failed evs n (EFail message) s.
Proof. done. Qed.

Lemma hardLoop_spec command remaining attempt evs n s :
  turn_inv evs true n [] false false s →
  wp (hardLoop command remaining attempt)
    (λ _ s', turn_inv evs false (n + S remaining) [ts_latestResponseText s'] false false s')
    (failed evs (n + S remaining)) s.
Proof.
  revert n attempt s. induction remaining as [|remaining IH]; intros n attempt s Hs; cbn [hardLoop];
    apply wp_bind; (eapply wp_mono; [by apply sendAgentTurn_spec| |
      intros e s' He; eapply failed_mono; [|exact He]; lia]); cbn beta; clear s Hs; intros r s Hs;
    destruct (tr_hardFailure r); cbn [negb].
  2, 4: eapply (wp_last _ _ _ _ tt); [done|];
    apply (turn_inv_mono evs false (S n)); [lia|by apply rememberResponse_inv].
  - eapply (wp_effect _ _ tt); [done|]. eapply (wp_effect _ _ tt); [done|].
    apply wp_raise. eapply turn_inv_mono; [|apply append_inv; [done|done|apply logReceived_inv, Hs]]. lia.
  - eapply (wp_effect _ _ tt); [done|]. eapply (wp_effect _ _ tt); [done|].
    apply wp_bind, wp_gets. set (s1 := (logAgentRetry _ _ _ _).1).
    assert (Hs1 : quiet evs (S n) s1) by (apply append_inv; [done|done|]; by apply logReceived_inv).
    destruct (cumulativeBudgetExhaustionReason _) as [reason|] eqn:Hb.
    + apply wp_raise. eapply turn_inv_mono; [|exact Hs1]. lia.
    + eapply wp_effect; [done|]. replace (n + S (S remaining)) with (S n + S remaining) by lia.
      apply IH, rotate_inv, budgetReason_ready; done.
Qed.

(** ** Accepted outputs *)

(** A verdict that the state's transitions list, when they all ask for one. *)
Definition accepted (transitions : list AgentTransitionDefinition) (verdict : string) : Prop :=
  match getValidVerdicts transitions with Some verdicts => verdict ∈ verdicts | None => True end.

Definition commit_ok (transitions : list AgentTransitionDefinition) (c : CommitResult) : Prop :=
  match c with CommitOk output => accepted transitions (o_verdict output) | _ => True end.

Definition output_ok (a : AgentStateDefinition) (output : AgentOutput) : Prop :=
  accepted (a_transitions a) (o_verdict output) ∨ (is_Some (a_artifactHandoff a) ∧ output = handoff_output).

Lemma evaluateCommit_ok transitions text : commit_ok transitions (evaluateCommit transitions text).
Proof.
  unfold evaluateCommit. destruct (parseAgentStatus text) as [[output|]|]; try done.
  destruct (getValidVerdicts transitions) as [verdicts|] eqn:Hv.
  - destruct (includes verdicts (o_verdict output)) eqn:Hi; [|done].
    unfold commit_ok, accepted. rewrite Hv. by apply includes_spec.
  - unfold commit_ok, accepted. by rewrite Hv.
Qed.

(** A turn that was answered, remembered and judged. *)
Lemma judged_turn {B} transitions (result : AgentTurnResult) evs n (f : unit → T B) Q E s :
  turn_inv evs false n [tr_text result] false false s →
  (∀ s', quiet evs n s' → wp (f tt) Q E s') →
  wp (_ ← rememberResponse (tr_text result);
      x ← logReceived (tr_text result) (commit_output (evaluateCommit transitions (tr_text result)));
      f x) Q E s.
Proof.
  intros Hs Hf. eapply (wp_effect _ _ tt); [done|]. eapply (wp_effect _ _ tt); [done|].
  apply Hf. apply logReceived_inv, rememberResponse_inv, Hs.
Qed.

(** Sending one more turn once the budget allows it. *)
Lemma one_turn {B} message (f : AgentTurnResult → T B) evs n Q E s :
  turn_inv evs true n [] false false s →
  (∀ r s', turn_inv evs false (S n) [tr_text r] false false s' → wp (f r) Q E s') →
  (∀ e s', failed evs (S n) e s' → E e s') →
  wp (sendAgentTurn message ≫= f) Q E s.
Proof.
  intros Hs Hf He. apply wp_bind. eapply wp_mono; [by apply sendAgentTurn_spec|..]; [exact Hf|exact He].
Qed.

Lemma recoveryLoop_spec transitions remaining r evs n s :
  quiet evs n s → commit_ok transitions (rv_commit r) →
  wp (recoveryLoop transitions remaining r)
    (λ r' s', quiet evs (n + remaining) s' ∧ commit_ok transitions (rv_commit r'))
    (failed evs (n + remaining)) s.
Proof.
  revert n r s. induction remaining as [|remaining IH]; intros n r s Hs Hc; cbn [recoveryLoop].
  { apply wp_ret. split; [|done]. eapply turn_inv_mono; [|exact Hs]. lia. }
  destruct (rv_commit r) as [output| |message|output] eqn:Hr.
  { apply wp_ret. split; [|by rewrite Hr]. eapply turn_inv_mono; [|exact Hs]. lia. }
  all: apply wp_bind, wp_gets; destruct (cumulativeBudgetExhaustionReason _) eqn:Hb;
    [apply wp_ret; split; [|done]; eapply turn_inv_mono; [|exact Hs]; lia|];
    destruct (commitRetry transitions _) as [[retryReason details] reprompt];
    eapply (wp_effect _ _ tt); [done|]; eapply one_turn;
    [apply append_inv; [done|done|by apply budgetReason_ready]| |
     intros e s' He; eapply failed_mono; [|exact He]; lia];
    clear s Hs Hb; intros result s Hs; destruct (tr_hardFailure result);
    [eapply (wp_effect _ _ tt); [done|]; eapply (wp_effect _ _ tt); [done|];
     eapply wp_effect; [done|]; apply wp_ret; split; [|done];
     apply rotate_inv, append_inv; [done|done|]; eapply turn_inv_mono; [|by apply logReceived_inv]; lia|];
    eapply judged_turn; [exact Hs|]; clear s Hs; intros s Hs;
    replace (n + S remaining) with (S n + remaining) by lia; by apply IH, evaluateCommit_ok.
Qed.

Lemma replaceAgent_spec stateId a context definition r evs n s :
  quiet evs n s → commit_ok (a_transitions a) (rv_commit r) →
  wp (replaceAgent stateId a context definition r)
    (λ r' s', quiet evs (S n) s' ∧ commit_ok (a_transitions a) (rv_commit r'))
    (failed evs (S n)) s.
Proof.
  intros Hs Hc. unfold replaceAgent. cbv zeta.
  assert (Hs' : quiet evs (S n) s) by (eapply turn_inv_mono; [|exact Hs]; lia).
  destruct (rv_commit r) as [output| |message|output] eqn:Hr; [by apply wp_ret; rewrite Hr|..];
    (destruct (negb (routesOnStatus (a_transitions a))); [by apply wp_ret; rewrite Hr|]);
    apply wp_bind, wp_gets; (destruct (cumulativeBudgetExhaustionReason _) eqn:Hb; [by apply wp_ret|]);
    (assert (Hready : turn_inv evs true n [] false false s) by by apply budgetReason_ready);
    apply wp_bind;
    (apply (wp_mono _ (λ _ s', turn_inv evs true n [] false false s') _ (failed evs (S n)));
     [destruct (rv_rotated r); [by apply wp_ret|eapply wp_last; [done|by apply rotate_inv]]| |done]);
    clear s Hs Hs' Hb Hready; intros fresh s Hs;
    (destruct fresh; cbn [negb];
     [|apply wp_ret; split; [|done]; eapply turn_inv_mono; [|exact Hs]; lia]);
    apply wp_bind, wp_gets; destruct (commitRetry _ _) as [[retryReason details] reprompt];
    eapply (wp_effect _ _ tt); [done| |done| |done| ];
    (eapply one_turn; [by apply append_inv| |done]); clear s Hs; intros result s Hs;
    (destruct (tr_hardFailure result);
     [eapply (wp_effect _ _ tt); [done|]; eapply wp_effect; [done|]; apply wp_ret; split; [|done];
      by apply rotate_inv, logReceived_inv|]);
    (eapply judged_turn; [exact Hs|]); intros s' Hs'; apply wp_ret; (split; [done|apply evaluateCommit_ok]).
Qed.

Lemma resolveOutput_spec a artifactDir r evs n s :
  quiet evs n s → commit_ok (a_transitions a) (rv_commit r) →
  wp (resolveOutput a artifactDir r) (λ output s', quiet evs n s' ∧ output_ok a output) (failed evs n) s.
Proof.
  intros Hs Hc. unfold resolveOutput.
  destruct (rv_commit r) as [output| |message|output]; [by apply wp_ret; split; [|left]|..];
    apply wp_bind, wp_gets;
    (destruct (artifactHandoffSatisfied _ _ _) eqn:Hh; cbn [negb]; [|by apply wp_raise]);
    (eapply (wp_effect _ _ tt); [done|]); apply wp_ret; (split; [by apply set_response_inv|]);
    right; (split; [|done]); unfold artifactHandoffSatisfied in Hh; by destruct (a_artifactHandoff a).
Qed.

(** Nothing is missing on the disk that the agent leaves. *)
Definition complete (a : AgentStateDefinition) (artifactDir : string) (s : TurnState) : Prop :=
  findMissingArtifacts (ae_disk (ts_sent s)) artifactDir a = [].

Lemma retryArtifacts_spec a artifactDir output evs n s :
  quiet evs n s → output_ok a output →
  wp (retryArtifacts a artifactDir output)
    (λ output' s', quiet evs (S n) s' ∧ output_ok a output' ∧ complete a artifactDir s')
    (failed evs (S n)) s.
Proof.
  intros Hs Ho. unfold retryArtifacts.
  assert (Hs' : quiet evs (S n) s) by (eapply turn_inv_mono; [|exact Hs]; lia).
  apply wp_bind, wp_gets. destruct (findMissingArtifacts _ _ _) as [|m missing] eqn:Hm; [by apply wp_ret|].
  eapply (wp_effect _ _ tt); [done|]. apply wp_bind, wp_gets.
  set (s1 := (logAgentRetry _ _ _ s).1).
  assert (Hs1 : quiet evs n s1) by by apply append_inv.
  destruct (cumulativeBudgetExhaustionReason _) eqn:Hb.
  { apply wp_raise. eapply turn_inv_mono; [|exact Hs1]. lia. }
  eapply one_turn; [by apply budgetReason_ready| |done]. clear s Hs Hs' Hm s1 Hs1 Hb. intros result s Hs.
  destruct (tr_hardFailure result).
  { eapply (wp_effect _ _ tt); [done|]. eapply wp_effect; [done|]. apply wp_raise.
    by apply rotate_inv, logReceived_inv. }
  eapply judged_turn; [exact Hs|]. clear s Hs. intros s Hs. apply wp_bind, wp_gets.
  destruct (findMissingArtifacts _ _ _) eqn:Hm; [|by apply wp_raise].
  apply wp_ret. split; [done|]. split; [|done].
  pose proof (evaluateCommit_ok (a_transitions a) (tr_text result)) as Hc.
  destruct (evaluateCommit _ _); try done. by left.
Qed.

(** ** The whole invocation *)

Definition MAX_TURNS : nat := S MAX_HARD_RETRIES + MAX_COMMIT_RECOVERY_TURNS + 1 + 1.

Lemma runTurns_spec stateId a context definition artifactDir workspacePath conversation :
  let started := [AgentStarted stateId (a_persona a)] in
  wp (runTurns stateId a context definition artifactDir workspacePath)
    (λ r s', turn_inv (started ++ [AgentCompleted stateId (a_persona a) (o_verdict (ai_output r))]) false
               MAX_TURNS [] false false s'
             ∧ output_ok a (ai_output r) ∧ complete a artifactDir s'
             ∧ ai_agentConversationId r = ts_conversation s')
    (failed started MAX_TURNS) (fresh_session conversation).
Proof.
  intros started. unfold runTurns. cbv zeta.
  eapply (wp_effect _ _ tt); [done|]. eapply (wp_effect _ _ tt); [done|].
  assert (Hweak : ∀ n e s, n ≤ MAX_TURNS → failed started n e s → failed started MAX_TURNS e s)
    by (intros; by eapply failed_mono).
  apply wp_bind. eapply wp_mono.
  { apply (hardLoop_spec _ _ _ started 0). split; csimpl; try done. intros _. by left. }
  2: { intros e s. apply Hweak. unfold MAX_TURNS. lia. }
  cbn beta. intros _ s Hs. apply wp_bind, wp_gets. eapply (wp_effect _ _ tt); [done|].
  apply logReceived_inv with (out := commit_output (evaluateCommit (a_transitions a) (ts_latestResponseText s))) in Hs.
  revert Hs. generalize (logReceived (ts_latestResponseText s)
    (commit_output (evaluateCommit (a_transitions a) (ts_latestResponseText s))) s).1. intros s1 Hs.
  apply wp_bind. eapply wp_mono; [eapply recoveryLoop_spec; [exact Hs|apply evaluateCommit_ok]| |
    intros ??; apply Hweak; unfold MAX_TURNS; lia].
  cbn beta. clear s s1 Hs. intros r s [Hs Hc].
  apply wp_bind. eapply wp_mono; [eapply replaceAgent_spec; [exact Hs|exact Hc]| |
    intros ??; apply Hweak; unfold MAX_TURNS; lia].
  cbn beta. clear r s Hs Hc. intros r s [Hs Hc].
  apply wp_bind. eapply wp_mono; [eapply resolveOutput_spec; [exact Hs|exact Hc]| |
    intros ??; apply Hweak; unfold MAX_TURNS; lia].
  cbn beta. clear r s Hs Hc. intros output s [Hs Ho].
  apply wp_bind. eapply wp_mono; [eapply retryArtifacts_spec; [exact Hs|exact Ho]| |
    intros ??; apply Hweak; unfold MAX_TURNS; lia].
  cbn beta. clear output s Hs Ho. intros output s (Hs & Ho & Hm).
  assert (Hs' : turn_inv started false MAX_TURNS [] false false s)
    by (eapply turn_inv_mono; [|exact Hs]; unfold MAX_TURNS; lia).
  apply wp_bind, wp_gets. destruct (computeOutputHash _ _ _ _) as [hash|e]; [|by apply wp_raise].
  apply wp_bind, wp_gets. eapply (wp_effect _ _ tt); [done|].
  do 3 apply wp_bind, wp_gets. apply wp_ret. split; [|done].
  destruct Hs'. split; csimpl; try done. by rewrite ti_events0.
Qed.

Lemma agent_turns_info stateId a context definition artifactDir workspacePath conversation s out :
  executeAgentTurns stateId a context definition artifactDir workspacePath conversation = (s, out) →
  match out with
  | inl r => ai_agentConversationId r = ts_conversation s
  | inr rejection => ∃ message, rejection = RejInvocation stateId (ts_conversation s) message
  end.
Proof.
  unfold executeAgentTurns.
  pose proof (runTurns_spec stateId a context definition artifactDir workspacePath conversation) as Hspec.
  cbv zeta in Hspec. unfold wp in Hspec.
  destruct (runTurns _ _ _ _ _ _ _) as [s' [r|e]]; intros; simplify_eq.
  - by destruct Hspec as (_ & _ & _ & Hc).
  - destruct (is_upstream_error e); by eexists.
Qed.

End theory.
