(* ===== verification/MachineTheory.v ===== *)
(** * Reachability in a workflow definition

    [findReachableStates] computes graph reachability: the loop ends within its
    fuel, and the states it returns are those that a path leads to. *)

From S2P Require Import Prelude JsValue WorkflowTypes StatusParser MachineBuilder Statechart WorkflowValidate.

Section reach.
Variable states : object WorkflowStateDefinition.

(** One edge: a transition, or from the parent of a fan-out to a segment member. *)
Definition edge (a b : string) : Prop :=
  ∃ s, obj_get states a = Some s ∧ b ∈ successors s.

Definition leads_to : string → string → Prop := rtc edge.

(** What the unexpanded states can still push. *)
Definition pending (reachable : list string) : nat :=
  sum_list_with (λ kv, if includes reachable kv.1 then 0 else length (successors kv.2)) states.

End reach.

Lemma sum_list_with_mono {A} (f g : A → nat) l :
  (∀ x, x ∈ l → f x ≤ g x) → sum_list_with f l ≤ sum_list_with g l.
Proof.
  induction l as [|x l IH]; intros Hfg; csimpl; [done|].
  pose proof (Hfg x ltac:(by left)). pose proof (IH ltac:(set_solver)). lia.
Qed.

Lemma sum_list_with_drop {A} (f g : A → nat) l x :
  (∀ y, y ∈ l → f y ≤ g y) → x ∈ l → f x = 0 → sum_list_with f l + g x ≤ sum_list_with g l.
Proof.
  intros Hfg Hx Hf. apply list_elem_of_split in Hx as (l1 & l2 & ->).
  rewrite !sum_list_with_app. csimpl. rewrite Hf.
  pose proof (sum_list_with_mono f g l1 ltac:(set_solver)).
  pose proof (sum_list_with_mono f g l2 ltac:(set_solver)). lia.
Qed.

Lemma includes_mono {A} `{EqDecision A} (l l' : list A) x :
  includes l x = true → includes (l ++ l') x = true.
Proof. rewrite !includes_spec. set_solver. Qed.

Lemma pending_mono states reachable current :
  pending states (reachable ++ [current]) ≤ pending states reachable.
Proof.
  apply sum_list_with_mono. intros [k s] _; csimpl.
  destruct (includes reachable k) eqn:Hk; [by rewrite (includes_mono _ _ _ Hk)|].
  destruct (includes (reachable ++ [current]) k); [apply Nat.le_0_l|done].
Qed.

Lemma pending_expand states reachable current state :
  includes reachable current = false → obj_get states current = Some state →
  pending states (reachable ++ [current]) + length (successors state) ≤ pending states reachable.
Proof.
  intros Hc Hg. pose proof (sum_list_with_drop
    (λ kv : string * _, if includes (reachable ++ [current]) kv.1 then 0 else length (successors kv.2))
    (λ kv, if includes reachable kv.1 then 0 else length (successors kv.2))
    states (current, state)) as Hd. csimpl in Hd. rewrite Hc in Hd. apply Hd.
  - intros [k s] _; csimpl. destruct (includes reachable k) eqn:Hk.
    + by rewrite (includes_mono _ _ _ Hk).
    + destruct (includes (reachable ++ [current]) k); [apply Nat.le_0_l|done].
  - by apply obj_get_elem.
  - rewrite (proj2 (includes_spec _ _)); [done|]. set_solver.
Qed.

(** The loop never runs out of fuel. *)
Lemma reach_loop_total states fuel reachable queue :
  length queue + pending states reachable ≤ fuel →
  is_Some (reach_loop states fuel reachable queue).
Proof.
  revert reachable queue. induction fuel as [|fuel IH]; intros reachable [|current queue] Hf;
    csimpl in *; [eauto|lia|eauto|].
  destruct (includes reachable current) eqn:Hc; [apply IH; lia|].
  destruct (obj_get states current) as [state|] eqn:Hg.
  - apply IH. rewrite length_app, length_rev.
    pose proof (pending_expand _ _ _ _ Hc Hg).
    pose proof (filter_length_le (λ t, negb (includes (reachable ++ [current]) t)) (successors state)).
    lia.
  - apply IH. pose proof (pending_mono states reachable current). lia.
Qed.

(** What holds of the visited states and the stack. *)
Record reach_inv (states : object WorkflowStateDefinition) (initial : string)
    (reachable queue : list string) : Prop := {
  ri_sound : ∀ x, x ∈ reachable ++ queue → leads_to states initial x;
  ri_closed : ∀ a b, a ∈ reachable → edge states a b → b ∈ reachable ++ queue;
  ri_initial : initial ∈ reachable ++ queue;
  ri_nodup : NoDup reachable;
}.

Lemma elem_of_filter_fresh (reachable l : list string) x :
  x ∈ List.filter (λ t, negb (includes reachable t)) l ↔ x ∈ l ∧ x ∉ reachable.
Proof.
  rewrite list_elem_of_In, filter_In, <-list_elem_of_In, negb_true_iff.
  rewrite <-not_true_iff_false, includes_spec. done.
Qed.

Lemma reach_inv_expand states initial reachable current queue state :
  reach_inv states initial reachable (current :: queue) → current ∉ reachable →
  obj_get states current = Some state →
  reach_inv states initial (reachable ++ [current])
    (rev (List.filter (λ t, negb (includes (reachable ++ [current]) t)) (successors state)) ++ queue).
Proof.
  intros [Hs Hcl Hi Hn] Hc Hg.
  assert (Hfresh : ∀ x, x ∈ rev (List.filter (λ t, negb (includes (reachable ++ [current]) t))
      (successors state)) ↔ x ∈ successors state ∧ x ∉ reachable ++ [current]).
  { intros x. rewrite list_elem_of_In, <-in_rev, <-list_elem_of_In. apply elem_of_filter_fresh. }
  split.
  - intros x. rewrite !elem_of_app, list_elem_of_singleton, Hfresh.
    intros [[Hx | ->]|[[Hx _]|Hx]]; [apply Hs; set_solver..| |apply Hs; set_solver].
    eapply rtc_r; [apply (Hs current); set_solver|]. by exists state.
  - intros a b Ha Hab. rewrite elem_of_app, (elem_of_app (rev _)), Hfresh.
    destruct (decide (b ∈ reachable ++ [current])) as [|Hb]; [by left|]. right.
    rewrite elem_of_app, list_elem_of_singleton in Ha. destruct Ha as [Ha | ->].
    + pose proof (Hcl a b Ha Hab). right. set_solver.
    + destruct Hab as (s & Hs' & Hb'). left. simplify_eq. done.
  - set_solver.
  - apply NoDup_app. split; [done|]. split; [set_solver|apply NoDup_singleton].
Qed.

Lemma reach_loop_inv states initial fuel reachable queue out :
  reach_inv states initial reachable queue → reach_loop states fuel reachable queue = Some out →
  reach_inv states initial out [].
Proof.
  revert reachable queue. induction fuel as [|fuel IH]; intros reachable [|current queue] Hinv Hrun;
    csimpl in *; simplify_eq; try done.
  destruct (includes reachable current) eqn:Hc.
  { apply includes_spec in Hc. apply (IH reachable queue); [|done].
    destruct Hinv as [Hs Hcl Hi Hn]. split; [set_solver| |set_solver|done].
    intros a b Ha Hab. pose proof (Hcl a b Ha Hab). set_solver. }
  assert (current ∉ reachable) by (rewrite <-includes_spec; congruence).
  destruct (obj_get states current) as [state|] eqn:Hg; (eapply IH; [|exact Hrun]).
  { by apply reach_inv_expand. }
  destruct Hinv as [Hs Hcl Hi Hn]. split; [set_solver| |set_solver|].
  - intros a b Ha Hab. rewrite elem_of_app, list_elem_of_singleton in Ha. destruct Ha as [Ha | ->].
    + pose proof (Hcl a b Ha Hab). set_solver.
    + destruct Hab as (s & ? & _). congruence.
  - apply NoDup_app. split; [done|]. split; [set_solver|apply NoDup_singleton].
Qed.

Lemma reach_fuel_enough states initial :
  is_Some (reach_loop states (reach_fuel states) [] [initial]).
Proof. apply reach_loop_total. unfold reach_fuel, pending. csimpl. lia. Qed.

Lemma reach_inv_start states initial : reach_inv states initial [] [initial].
Proof.
  split; [|set_solver|set_solver|constructor].
  intros x Hx. rewrite app_nil_l, list_elem_of_singleton in Hx. subst. apply rtc_refl.
Qed.

(** The returned set is the set of states that a path leads to, without repetition. *)
Lemma findReachableStates_spec states initial :
  NoDup (findReachableStates initial states) ∧
  ∀ x, x ∈ findReachableStates initial states ↔ leads_to states initial x.
Proof.
  unfold findReachableStates. destruct (reach_fuel_enough states initial) as [out Hout].
  rewrite Hout. csimpl.
  pose proof (reach_loop_inv _ _ _ _ _ _ (reach_inv_start states initial) Hout) as [Hs Hcl Hi Hn].
  rewrite app_nil_r in Hi. split; [done|]. intros x. split.
  - intros Hx. apply Hs. by rewrite app_nil_r.
  - intros Hx. clear Hs Hout. revert Hi. induction Hx as [|a b x Hab Hx IH]; [done|].
    intros Ha. apply IH. pose proof (Hcl a b Ha Hab) as Hb. rewrite app_nil_r in Hb. exact Hb.
Qed.

(** * Well-formed machines

    A definition without semantic issues compiles: every transition of the machine
    and of its round machines leads to a state, every named guard is implemented,
    and every state invokes under its own id.  A run of such a machine stays in it. *)

(** ** Issues *)

Lemma bind_nil {A B} (f : A → list B) (l : list A) : l ≫= f = [] ↔ ∀ x, x ∈ l → f x = [].
Proof.
  induction l as [|x l IH]; csimpl; [set_solver|].
  rewrite app_nil, IH. setoid_rewrite elem_of_cons. naive_solver.
Qed.

Lemma if_nil {A} (b : bool) (x : A) : (if b then [] else [x]) = [] ↔ b = true.
Proof. by destruct b. Qed.

Lemma if_nil' {A} (b : bool) (x : A) : (if b then [x] else []) = [] ↔ b = false.
Proof. by destruct b. Qed.

Create Rewrite HintDb issues.
#[export] Hint Rewrite @app_nil @bind_nil @if_nil @if_nil' @includes_spec : issues.

(** ** Well-formed machines *)

Definition has_state (m : Machine) (id : string) : Prop := is_Some (obj_get (m_states m) id).

Definition guard_ok (g : option GuardRef) : Prop :=
  match g with Some (GuardNamed name) => name ∈ REGISTERED_GUARDS | _ => True end.

Definition tc_ok (m : Machine) (tc : TransitionConfig) : Prop :=
  has_state m (tc_target tc) ∧ guard_ok (tc_guard tc).

Definition node_ok (m : Machine) (id : string) (node : StateNode) : Prop :=
  match node with
  | NodeInvoke _ inv =>
      inv_id inv = id ∧ Forall (tc_ok m) (inv_onDone inv) ∧ tc_ok m (inv_onError inv)
  | NodeGate on => ∀ k tc, (k, tc) ∈ on → tc_ok m tc
  | NodeFinal => True
  end.

Record machine_ok (m : Machine) : Prop := {
  mo_initial : has_state m (m_initial m);
  mo_nodes : ∀ id node, obj_get (m_states m) id = Some node → node_ok m id node;
}.

(** ** What the builder needs of a definition *)

Record definition_ok (d : WorkflowDefinition) : Prop := {
  do_wf : obj_wf (w_states d);
  do_initial : w_initial d ∈ stateNames d;
  do_targets : ∀ id s t, (id, s) ∈ w_states d → t ∈ collectTransitionTargets s → t ∈ stateNames d;
  do_guards : ∀ id s g, (id, s) ∈ w_states d → g ∈ collectGuardNames s → g ∈ REGISTERED_GUARDS;
  do_terminal : ∃ id s, (id, s) ∈ w_states d ∧ is_terminal s = true;
}.

Lemma validated_definition_ok d :
  obj_wf (w_states d) → semantic_issues d = [] → definition_ok d.
Proof.
  intros Hwf H. unfold semantic_issues, state_issues in H. unfold known in H.
  autorewrite with issues in H. destruct H as (Hi & Ht & Hs & _).
  assert (Hs' : ∀ id s, (id, s) ∈ w_states d → _) by exact (λ id s, Hs (id, s)).
  clear Hs. split; try done.
  - intros id s t Hin Htin. specialize (Hs' id s Hin). autorewrite with issues in Hs'.
    destruct Hs' as [Hs _]. specialize (Hs t Htin). by autorewrite with issues in Hs.
  - intros id s g Hin Hgin. specialize (Hs' id s Hin). autorewrite with issues in Hs'.
    destruct Hs' as (_ & Hs & _). specialize (Hs g Hgin). by autorewrite with issues in Hs.
  - apply existsb_exists_elem in Ht as (s & Hs & Hterm).
    apply list_elem_of_fmap in Hs as ([id s'] & -> & Hin). by exists id, s'.
Qed.

Lemma elem_of_keys {A} (o : object A) k : k ∈ obj_keys o ↔ is_Some (obj_get o k).
Proof. rewrite <-obj_get_has. unfold obj_has. by rewrite bool_decide_eq_true. Qed.

Lemma state_of_known d id : id ∈ stateNames d → ∃ s, state_of d id = Ok s.
Proof. intros [s Hs]%elem_of_keys. exists s. unfold state_of. by rewrite Hs. Qed.

(** ** Parts of a state *)

Lemma find_gate_ok d l :
  Forall (λ t, t_to t ∈ stateNames d) l →
  ∃ g, find_gate d l = Ok g ∧ (∀ id, g = Some id → id ∈ stateNames d).
Proof.
  induction 1 as [|t l Ht Hl (g & Hg & Hin)]; csimpl; [by exists None|].
  destruct (state_of_known d _ Ht) as [s ->]. csimpl. destruct (is_human_gate s).
  - exists (Some (t_to t)). naive_solver.
  - by exists g.
Qed.

Lemma find_state_in d f id : find_state d f = Some id → id ∈ stateNames d.
Proof.
  unfold find_state. intros ([k s] & Hf & ->)%fmap_Some. apply find_some_elem in Hf as [Hin _].
  by apply (list_elem_of_fmap_2 fst) in Hin.
Qed.

Lemma findErrorTarget_ok d l :
  definition_ok d → Forall (λ t, t_to t ∈ stateNames d) l →
  ∃ id, findErrorTarget l d = Ok id ∧ id ∈ stateNames d.
Proof.
  intros Hd Hl. unfold findErrorTarget. destruct (find_gate_ok d l Hl) as (g & -> & Hg). csimpl.
  destruct g as [id|]; [naive_solver|].
  destruct (find_state d _) as [id|] eqn:Hf; [eauto using find_state_in|]. clear Hf.
  destruct (find_state d _) as [id|] eqn:Hf; [eauto using find_state_in|]. exfalso.
  destruct (do_terminal d Hd) as (id & s & Hin & Hterm).
  unfold find_state in Hf. rewrite fmap_None, find_none_elem in Hf.
  specialize (Hf _ Hin). simpl in Hf. congruence.
Qed.

(** A transition and what it compiles to. *)
Definition compiled (update : XStateAction) (mapTarget : AgentTransitionDefinition → result string)
    (t : AgentTransitionDefinition) (tc : TransitionConfig) : Prop :=
  mapTarget t = Ok (tc_target tc) ∧ tc_guard tc = transition_guard t
  ∧ tc_actions tc = collectTransitionActions t update.

Lemma buildOnDoneTransitions_ok l update mapTarget :
  Forall (λ t, is_ok (mapTarget t)) l →
  ∃ tcs, buildOnDoneTransitions l update mapTarget = Ok tcs
         ∧ Forall2 (compiled update mapTarget) l tcs.
Proof.
  induction 1 as [|t l [to Hto] Hl (tcs & Htcs & Hall)]; csimpl; [by exists []|].
  rewrite Hto, Htcs. csimpl. eexists. split; [done|]. by constructor.
Qed.

Lemma buildOnDoneTransitions_inv l update mapTarget tcs :
  buildOnDoneTransitions l update mapTarget = Ok tcs → Forall2 (compiled update mapTarget) l tcs.
Proof.
  revert tcs. induction l as [|t l IH]; intros tcs; csimpl; [intros; simplify_eq; constructor|].
  destruct (mapTarget t) eqn:Hto; csimpl; [|done].
  destruct (buildOnDoneTransitions l update mapTarget) eqn:Hl; csimpl; [|done].
  intros; simplify_eq. constructor; auto. by repeat split.
Qed.

Lemma transition_guard_ok t :
  (∀ g, t_guard t = Some g → g ∈ REGISTERED_GUARDS) → guard_ok (transition_guard t).
Proof.
  intros Hg. unfold transition_guard. destruct (t_when t); [done|].
  destruct (guard_set t); [|done]. destruct (t_guard t) as [g|] eqn:E; [|done]. by apply Hg.
Qed.

Lemma compiled_ok m update mapTarget l tcs :
  Forall2 (compiled update mapTarget) l tcs →
  (∀ t id, t ∈ l → mapTarget t = Ok id → has_state m id) →
  (∀ t g, t ∈ l → t_guard t = Some g → g ∈ REGISTERED_GUARDS) →
  Forall (tc_ok m) tcs.
Proof.
  induction 1 as [|t tc l tcs (Hto & Hgd & _) Hl IH]; intros Htarget Hguard; constructor.
  - split; [apply (Htarget t); [set_solver|done]|]. rewrite Hgd. apply transition_guard_ok.
    intros g. apply Hguard. set_solver.
  - apply IH; intros t' ??; [eapply Htarget|eapply Hguard]; set_solver.
Qed.

(** ** States *)

(** The options of [build_machine]: targets as written, an error target that exists. *)
Definition plain_options (onErrorTarget : option string) : BuildOptions :=
  {| bo_mapTransitionTarget := None; bo_onErrorTarget := onErrorTarget |}.

Definition built (d : WorkflowDefinition) (options : BuildOptions)
    (kv : string * WorkflowStateDefinition) (kn : string * StateNode) : Prop :=
  kn.1 = kv.1 ∧ build_state d options kv.1 kv.2 = Ok kn.2.

Lemma build_states_spec d options states :
  (∀ kv, kv ∈ states → is_ok (build_state d options kv.1 kv.2)) →
  ∃ out, build_states d options states = Ok out ∧ Forall2 (built d options) states out.
Proof.
  induction states as [|[k s] states IH]; intros Hok; csimpl; [by exists []|].
  destruct (Hok (k, s) ltac:(by left)) as [node Hn]. csimpl in *. rewrite Hn. csimpl.
  destruct IH as (out & -> & Hall); [set_solver|]. csimpl.
  eexists. split; [done|]. by constructor.
Qed.

Lemma build_states_inv d options states out :
  build_states d options states = Ok out → Forall2 (built d options) states out.
Proof.
  revert out. induction states as [|[k s] states IH]; intros out; csimpl.
  { intros; simplify_eq; constructor. }
  destruct (build_state d options k s) eqn:Hn; csimpl; [|done].
  destruct (build_states d options states) eqn:Hs; csimpl; [|done].
  intros; simplify_eq. constructor; auto. by split.
Qed.

Lemma built_keys d options states out :
  Forall2 (built d options) states out → obj_keys out = obj_keys states.
Proof. unfold obj_keys. induction 1 as [|kv kn ?? [Hk _] _ IH]; csimpl; [done|by rewrite Hk, IH]. Qed.

Lemma built_get d options states out id node :
  Forall2 (built d options) states out → obj_get out id = Some node →
  ∃ s, (id, s) ∈ states ∧ build_state d options id s = Ok node.
Proof.
  induction 1 as [|[k s] [k' n] l l' [Hk Hn] _ IH]; csimpl in *; [done|]. subst k'.
  case_bool_decide; subst.
  - intros; simplify_eq. exists s. split; [by left|done].
  - intros (s' & Hin & ?)%IH. exists s'. split; [by right|done].
Qed.

(** The shape of an executable state and of its node. *)
Definition state_transitions (s : WorkflowStateDefinition) : list AgentTransitionDefinition :=
  agent_transitions s.

Definition onDone_action (s : WorkflowStateDefinition) : XStateAction :=
  match executable s ≫= x_fanOut, s with
  | Some _, _ => UpdateContextFromFanOutResult
  | None, SAgent _ => UpdateContextFromAgentResult
  | None, _ => UpdateContextFromDeterministicResult
  end.

Definition state_error_target (d : WorkflowDefinition) (options : BuildOptions)
    (s : WorkflowStateDefinition) : result string :=
  error_target (match executable s ≫= x_fanOut with Some _ => no_options | None => options end)
    (state_transitions s) d.

(** What [build_state] gives for an executable state under plain options. *)
Lemma build_state_executable d onError id s node :
  executable s ≠ None → build_state d (plain_options onError) id s = Ok node →
  ∃ entry inv, node = NodeInvoke entry inv ∧ inv_id inv = id ∧ tc_guard (inv_onError inv) = None
    ∧ buildOnDoneTransitions (state_transitions s) (onDone_action s) (λ t, Ok (t_to t))
      = Ok (inv_onDone inv)
    ∧ state_error_target d (plain_options onError) s = Ok (tc_target (inv_onError inv)).
Proof.
  intros Hx. unfold state_transitions, state_error_target, onDone_action, agent_transitions.
  destruct s as [a| |dt|]; try done; csimpl; [destruct (a_fanOut a)|destruct (d_fanOut dt)];
    unfold buildFanOutState, buildAgentState, buildDeterministicState, build_invoke, map_target;
    csimpl; destruct (buildOnDoneTransitions _ _ _) eqn:E1; csimpl; try done;
    destruct (error_target _ _ _) eqn:E2; csimpl; try done;
    intros; simplify_eq; by repeat eexists.
Qed.

Lemma state_targets s : executable s ≠ None → collectTransitionTargets s = t_to <$> state_transitions s.
Proof. by destruct s. Qed.

Lemma known_targets d id s :
  definition_ok d → (id, s) ∈ w_states d → Forall (λ t, t_to t ∈ stateNames d) (state_transitions s).
Proof.
  intros Hd Hin. apply Forall_forall. intros t Ht. apply (do_targets d Hd id s); [done|].
  destruct s; try (by apply elem_of_nil in Ht); csimpl; by apply list_elem_of_fmap_2.
Qed.

Lemma registered_guards d id s t g :
  definition_ok d → (id, s) ∈ w_states d → t ∈ state_transitions s → t_guard t = Some g →
  g ∈ REGISTERED_GUARDS.
Proof.
  intros Hd Hin Ht Hg. apply (do_guards d Hd id s); [done|]. unfold collectGuardNames.
  apply list_elem_of_omap. by exists t.
Qed.

Lemma error_target_ok d options l :
  definition_ok d → Forall (λ t, t_to t ∈ stateNames d) l →
  (∀ e, bo_onErrorTarget options = Some e → e ∈ stateNames d) →
  ∃ id, error_target options l d = Ok id ∧ id ∈ stateNames d.
Proof.
  intros Hd Hl He. unfold error_target. destruct (bo_onErrorTarget options) as [e|]; [eauto|].
  by apply findErrorTarget_ok.
Qed.

Lemma build_state_total d onError id s :
  definition_ok d → (∀ e, onError = Some e → e ∈ stateNames d) → (id, s) ∈ w_states d →
  is_ok (build_state d (plain_options onError) id s).
Proof.
  intros Hd He Hin. pose proof (known_targets d id s Hd Hin) as Hl.
  destruct s as [a|h|dt|z]; csimpl; [| |  |]; try (by eexists); unfold state_transitions in Hl; csimpl in Hl.
  all: match goal with |- context [match ?f with Some _ => _ | None => _ end] => destruct f end;
    unfold buildFanOutState, buildAgentState, buildDeterministicState, build_invoke, map_target; csimpl.
  all: match goal with |- context [buildOnDoneTransitions ?l ?u ?f] =>
         destruct (buildOnDoneTransitions_ok l u f) as (tcs & -> & _);
           [apply Forall_true; intros; by eexists|] end; csimpl.
  all: match goal with |- context [error_target ?o ?l ?d] =>
         destruct (error_target_ok d o l Hd) as (e & -> & _); [done|by simpl; auto|] end; csimpl.
  all: by eexists.
Qed.

(** ** Machines *)

Lemma has_state_key m id : has_state m id ↔ id ∈ obj_keys (m_states m).
Proof. unfold has_state. by rewrite elem_of_keys. Qed.

Lemma gate_transitions h k tc :
  (∃ on, buildHumanGateState h = NodeGate on ∧ (k, tc) ∈ on) →
  tc_guard tc = None ∧ tc_target tc ∈ g_to <$> h_transitions h.
Proof.
  intros (on & Hon & Hin). unfold buildHumanGateState in Hon. injection Hon as <-.
  assert (Hgen : ∀ l on0, (∀ k tc, (k, tc) ∈ on0 → tc_guard tc = None ∧ tc_target tc ∈ g_to <$> h_transitions h) →
    (∀ t, t ∈ l → t ∈ h_transitions h) → ∀ k tc,
    (k, tc) ∈ foldl (λ on t, obj_set on ("HUMAN_" +:+ gate_event_name (g_event t))
      {| tc_target := g_to t; tc_guard := None;
         tc_actions := [StoreHumanPrompt; ClearError] ++ (compileAction <$> g_actions t) |}) on0 l →
    tc_guard tc = None ∧ tc_target tc ∈ g_to <$> h_transitions h).
  { clear. intros l. induction l as [|t l IH]; intros on0 Hon0 Hl k tc; csimpl; [by apply Hon0|].
    apply IH; [|set_solver]. clear k tc. intros k tc Hin.
    assert ((k, tc) ∈ on0 ∨ tc_guard tc = None ∧ tc_target tc = g_to t) as [Hin'|[Hg Ht]].
    { clear -Hin. induction on0 as [|[k' v'] on0 IH]; csimpl in *.
      - apply list_elem_of_singleton in Hin. simplify_eq. by right.
      - case_bool_decide; apply elem_of_cons in Hin as [?|Hin]; simplify_eq;
          [by right|by left; right|by left; left|].
        destruct (IH Hin); [left; by right|by right]. }
    - by eapply Hon0.
    - split; [done|]. rewrite Ht. apply list_elem_of_fmap_2. apply Hl. by left. }
  eapply (Hgen (h_transitions h) []); [set_solver|done|exact Hin].
Qed.

Lemma build_machine_ok d onError :
  definition_ok d → (∀ e, onError = Some e → e ∈ stateNames d) →
  ∃ m, build_machine d onError = Ok m ∧ machine_ok m ∧ obj_keys (m_states m) = stateNames d
       ∧ Forall2 (built d (plain_options onError)) (w_states d) (m_states m).
Proof.
  intros Hd He. unfold build_machine.
  destruct (build_states_spec d (plain_options onError) (w_states d)) as (out & Hout & Hall).
  { intros [id s] Hin. by apply build_state_total. }
  unfold plain_options in Hout. rewrite Hout. csimpl. eexists. split; [done|]. csimpl.
  pose proof (built_keys _ _ _ _ Hall) as Hkeys. split; [|done]. split.
  { apply has_state_key. csimpl. rewrite Hkeys. apply Hd. }
  intros id node Hget. csimpl in *.
  destruct (built_get _ _ _ _ _ _ Hall Hget) as (s & Hin & Hb).
  pose proof (known_targets d id s Hd Hin) as Hl. rewrite Forall_forall in Hl.
  destruct (decide (executable s = None)) as [Hx|Hx].
  { destruct s as [|h| |]; try done; csimpl in Hb; simplify_eq; [|done].
    intros k tc Hk. destruct (gate_transitions h k tc) as [Hg Ht]; [by eexists|]. split.
    - apply has_state_key. csimpl. rewrite Hkeys. by apply (do_targets d Hd id (SHumanGate h)).
    - by rewrite Hg. }
  destruct (build_state_executable _ _ _ _ _ Hx Hb) as (entry & inv & -> & Hid & Hg & Hdone & Herr).
  split; [done|]. split.
  - apply buildOnDoneTransitions_inv in Hdone. eapply compiled_ok; [exact Hdone|..].
    + intros t to Ht [= <-]. apply has_state_key. csimpl. rewrite Hkeys. by apply Hl.
    + intros t g. by apply (registered_guards d id s).
  - split; [|by rewrite Hg]. apply has_state_key. csimpl. rewrite Hkeys.
    destruct (error_target_ok d (match executable s ≫= x_fanOut with Some _ => no_options
      | None => plain_options onError end) (state_transitions s) Hd) as (e & He' & Hin').
    + by apply (known_targets d id s).
    + intros e. case_match; [done|apply He].
    + unfold state_error_target in Herr. rewrite He' in Herr. by simplify_eq.
Qed.

(** ** Round machines *)

Definition ROUND_TERMINALS : list string :=
  [ROUND_CHILD_RECORDED; ROUND_CHILD_BLOCKED; ROUND_CHILD_ERRORED].

Lemma mapRoundChildTarget_cases d segment t to :
  mapRoundChildTarget d segment t = Ok to → to ∈ segment ∨ to ∈ ROUND_TERMINALS.
Proof.
  unfold mapRoundChildTarget, ROUND_TERMINALS.
  destruct (includes segment (t_to t)) eqn:Hs.
  { intros; simplify_eq. left. by apply includes_spec. }
  destruct (when_verdict t); [..|repeat case_match; intros; simplify_eq; right; set_solver| |];
    (destruct (state_of d (t_to t)) as [s|]; csimpl; [|done]; destruct (is_human_gate s);
     intros; simplify_eq; right; set_solver).
Qed.

Lemma mapRoundChildTarget_ok d segment t :
  t_to t ∈ stateNames d → is_ok (mapRoundChildTarget d segment t).
Proof.
  intros Ht. destruct (state_of_known d _ Ht) as [s Hs]. unfold mapRoundChildTarget, is_ok.
  rewrite Hs. repeat (case_match; csimpl; eauto).
Qed.

(** A member's transition and its copy in the child. *)
Definition redirected (d : WorkflowDefinition) (segment : list string)
    (t t' : AgentTransitionDefinition) : Prop :=
  ∃ to, mapRoundChildTarget d segment t = Ok to ∧ t' = with_target t to.

Lemma map_transitions_ok d segment l :
  Forall (λ t, t_to t ∈ stateNames d) l →
  ∃ l', map_transitions (mapRoundChildTarget d segment) l = Ok l' ∧ Forall2 (redirected d segment) l l'.
Proof.
  induction 1 as [|t l Ht Hl (l' & Hl' & Hall)]; csimpl; [by exists []|].
  destruct (mapRoundChildTarget_ok d segment t Ht) as [to Hto]. rewrite Hto, Hl'. csimpl.
  eexists. split; [done|]. constructor; [by exists to|done].
Qed.

(** A state of the child that comes from a segment member. *)
Definition member_copy (d : WorkflowDefinition) (segment : list string) (id : string)
    (s : WorkflowStateDefinition) : Prop :=
  ∃ member x l, (id, member) ∈ w_states d ∧ executable member = Some x
    ∧ Forall2 (redirected d segment) (x_transitions x) l ∧ s = strip_fan_out member l.

Lemma elem_of_obj_set {A} (o : object A) k v k' v' :
  (k', v') ∈ obj_set o k v → (k', v') = (k, v) ∨ ((k', v') ∈ o ∧ (obj_wf o → k' ≠ k)).
Proof.
  unfold obj_wf, obj_keys. induction o as [|[k2 v2] o IH]; csimpl.
  { rewrite list_elem_of_singleton. by left. }
  case_bool_decide as Hk; rewrite !elem_of_cons.
  - subst. intros [?|Hin]; simplify_eq; [by left|]. right. split; [by right|].
    intros [Hni _]%NoDup_cons. intros ->. by apply Hni, (list_elem_of_fmap_2 fst _ (k, v')).
  - intros [?|Hin]; simplify_eq.
    + right. split; [by left|]. intros _. congruence.
    + destruct (IH Hin) as [?|[? Hne]]; [by left|right]. split; [by right|].
      intros [_ Ho]%NoDup_cons. auto.
Qed.

Lemma child_members_spec d fid segment members acc :
  definition_ok d →
  (∀ id, id ∈ members → ∃ member, obj_get (w_states d) id = Some member ∧ executable member ≠ None) →
  obj_wf acc → (∀ id s, (id, s) ∈ acc → member_copy d segment id s) →
  ∃ states, child_members d fid segment members acc = Ok states ∧ obj_wf states
    ∧ (∀ id, id ∈ obj_keys states ↔ id ∈ obj_keys acc ∨ id ∈ members)
    ∧ (∀ id s, (id, s) ∈ states → member_copy d segment id s).
Proof.
  intros Hd. revert acc. induction members as [|id members IH]; intros acc Hm Hwf Hacc; csimpl.
  { exists acc. set_solver. }
  destruct (Hm id ltac:(by left)) as (member & Hget & Hx). unfold state_of. rewrite Hget. csimpl.
  destruct (executable member) as [x|] eqn:Hex; [|done].
  assert (Hin : (id, member) ∈ w_states d) by by apply obj_get_elem.
  pose proof (known_targets d id member Hd Hin) as Hknown.
  unfold state_transitions, agent_transitions in Hknown. rewrite Hex in Hknown.
  destruct (map_transitions_ok d segment _ Hknown) as (l & -> & Hl). csimpl.
  destruct (IH (obj_set acc id (strip_fan_out member l))) as (states & -> & Hwf' & Hkeys & Hcopy).
  - intros i Hi. apply Hm. by right.
  - by apply obj_set_wf.
  - intros i s [[= -> ->]|[Hi _]]%elem_of_obj_set; [|by apply Hacc]. by exists member, x, l.
  - exists states. split; [done|]. split; [done|]. split; [|done].
    intros i. rewrite Hkeys, obj_keys_set, elem_of_js_set_add. set_solver.
Qed.

Lemma copy_transitions d segment id s :
  member_copy d segment id s →
  executable s ≠ None ∧
  ∀ t', t' ∈ state_transitions s → ∃ member t, (id, member) ∈ w_states d
    ∧ t ∈ state_transitions member ∧ redirected d segment t t'.
Proof.
  intros (member & x & l & Hin & Hx & Hl & ->).
  assert (state_transitions (strip_fan_out member l) = l ∧ executable (strip_fan_out member l) ≠ None
    ∧ state_transitions member = x_transitions x) as (Hst & Hne & Hm).
  { unfold state_transitions, agent_transitions. rewrite Hx. by destruct member; simplify_eq/=. }
  rewrite Hst.
  split; [done|]. intros t' Ht'. apply list_elem_of_lookup in Ht' as [i Hi].
  destruct (Forall2_lookup_r _ _ _ _ _ Hl Hi) as (t & Ht & Hr).
  exists member, t. rewrite Hm. eauto using list_elem_of_lookup_2.
Qed.

(** The child is a definition in good order, whose states are the segment members,
    save the three names of its terminals. *)
Lemma buildRoundChildDefinition_ok d fid segment :
  definition_ok d → segment ≠ [] →
  (∀ id, id ∈ segment → ∃ member, obj_get (w_states d) id = Some member ∧ executable member ≠ None) →
  ∃ child, buildRoundChildDefinition d fid segment = Ok child ∧ definition_ok child
    ∧ w_initial child = default "undefined" (head segment)
    ∧ (∀ id, id ∈ stateNames child ↔ id ∈ segment ∨ id ∈ ROUND_TERMINALS)
    ∧ (∀ id s, (id, s) ∈ w_states child →
         (id ∈ ROUND_TERMINALS ∧ is_terminal s = true)
         ∨ ((id ∉ ROUND_TERMINALS) ∧ member_copy d segment id s)).
Proof.
  intros Hd Hne Hseg. unfold buildRoundChildDefinition.
  destruct (child_members_spec d fid segment segment [] Hd Hseg) as (states & -> & Hwf & Hkeys & Hcopy);
    [constructor|set_solver|]. csimpl. eexists. split; [done|].
  set (st := obj_set _ ROUND_CHILD_ERRORED _).
  assert (Hwf1 : ∀ u, obj_wf (obj_set states ROUND_CHILD_RECORDED u)) by auto using obj_set_wf.
  assert (Hwf2 : ∀ u v, obj_wf (obj_set (obj_set states ROUND_CHILD_RECORDED u) ROUND_CHILD_BLOCKED v))
    by auto using obj_set_wf.
  assert (Hk : ∀ id, id ∈ obj_keys st ↔ id ∈ segment ∨ id ∈ ROUND_TERMINALS).
  { intros id. unfold st. rewrite !obj_keys_set, !elem_of_js_set_add, Hkeys.
    unfold ROUND_TERMINALS. set_solver. }
  assert (Hst : ∀ id s, (id, s) ∈ st → (id ∈ ROUND_TERMINALS ∧ is_terminal s = true)
         ∨ ((id ∉ ROUND_TERMINALS) ∧ member_copy d segment id s)).
  { unfold ROUND_TERMINALS. intros id s [[= -> ->]|[H1 N1]]%elem_of_obj_set; [left; set_solver|].
    apply elem_of_obj_set in H1 as [[= -> ->]|[H2 N2]]; [left; set_solver|].
    apply elem_of_obj_set in H2 as [[= -> ->]|[H3 N3]]; [left; set_solver|].
    specialize (N1 (Hwf2 _ _)). specialize (N2 (Hwf1 _)). specialize (N3 Hwf). right. set_solver. }
  split; [|by repeat split; try apply Hk; try apply Hst].
  split; csimpl.
  - apply obj_set_wf, Hwf2.
  - unfold stateNames. csimpl. apply Hk. destruct segment; [done|]. left. by left.
  - intros id s t Hin Ht. unfold stateNames. csimpl. apply Hk.
    destruct (Hst id s Hin) as [[_ Hterm]|[_ Hcp]]; [by destruct s; simplify_eq/=; apply elem_of_nil in Ht|].
    destruct (copy_transitions _ _ _ _ Hcp) as [Hx Htr].
    rewrite state_targets in Ht by done. apply list_elem_of_fmap in Ht as (t' & -> & Ht').
    destruct (Htr t' Ht') as (member & t0 & _ & _ & to & Hto & ->). csimpl.
    by apply mapRoundChildTarget_cases in Hto.
  - intros id s g Hin Hg. unfold collectGuardNames in Hg. apply list_elem_of_omap in Hg as (t' & Ht' & Hg).
    destruct (Hst id s Hin) as [[_ Hterm]|[_ Hcp]]; [by destruct s; simplify_eq/=; apply elem_of_nil in Ht'|].
    destruct (copy_transitions _ _ _ _ Hcp) as [Hx Htr].
    destruct (Htr t' Ht') as (member & t0 & Hm & Ht0 & to & Hto & ->). csimpl in Hg.
    by apply (registered_guards d id member t0).
  - exists ROUND_CHILD_RECORDED.
    assert (ROUND_CHILD_RECORDED ∈ obj_keys st) as Hrec
      by (apply Hk; right; unfold ROUND_TERMINALS; set_solver).
    apply list_elem_of_fmap in Hrec as ([k s] & Hks & Hin).
    csimpl in Hks. subst k. exists s. split; [done|].
    destruct (Hst _ _ Hin) as [[_ Ht]|[Hn _]]; [done|]. exfalso. apply Hn. unfold ROUND_TERMINALS. set_solver.
Qed.

(** The segments of the fan-out states consist of executable states. *)
Definition segments_ok (d : WorkflowDefinition) : Prop :=
  ∀ id s x, (id, s) ∈ w_states d → executable s = Some x → x_fanOut x ≠ None →
  ∀ m, m ∈ default [] (x_segment x) →
  ∃ member, obj_get (w_states d) m = Some member ∧ executable member ≠ None.

Lemma validated_segments_ok d : semantic_issues d = [] → segments_ok d.
Proof.
  intros H id s x Hin Hx Hf m Hm. unfold semantic_issues in H.
  autorewrite with issues in H. destruct H as (_ & _ & _ & _ & _ & _ & H).
  unfold validateFanOutScaffolding in H. autorewrite with issues in H. destruct H as [H _].
  specialize (H _ Hin). csimpl in H. rewrite Hx in H. autorewrite with issues in H.
  destruct H as [H _]. unfold defined in H. rewrite bool_decide_eq_true_2 in H
    by (destruct (x_fanOut x); [by eexists|done]).
  unfold validateFanOutState in H. destruct (default [] (x_segment x)) as [|m0 l]; [set_solver|].
  rewrite bind_nil in H. specialize (H m Hm). unfold segment_member_issues in H.
  destruct (obj_get (w_states d) m) as [member|]; [|done]. exists member. split; [done|].
  destruct member; try done; by destruct (executable _).
Qed.

(** A round machine of the fan-out state [id]. *)
Definition round_machine_of (d : WorkflowDefinition) (id : string) (m : Machine) : Prop :=
  ∃ s x segment child, (id, s) ∈ w_states d ∧ executable s = Some x ∧ x_fanOut x ≠ None
    ∧ x_segment x = Some segment ∧ segment ≠ []
    ∧ buildRoundChildDefinition d id segment = Ok child
    ∧ build_machine child (Some ROUND_CHILD_ERRORED) = Ok m.

Lemma round_machines_spec d states :
  definition_ok d → segments_ok d → (∀ kv, kv ∈ states → kv ∈ w_states d) →
  ∃ out, round_machines d states = Ok out
    ∧ ∀ id m, (id, m) ∈ out → machine_ok m ∧ round_machine_of d id m.
Proof.
  intros Hd Hseg. induction states as [|[id s] states IH]; intros Hsub; csimpl; [by exists []; set_solver|].
  destruct IH as (out & Hout & Hall); [set_solver|].
  assert (Hin : (id, s) ∈ w_states d) by set_solver.
  destruct (executable s) as [[l [f|] [[|m0 members]|] fm sch]|] eqn:Hx; csimpl; try (by exists out).
  destruct (buildRoundChildDefinition_ok d id (m0 :: members) Hd) as (child & Hchild & Hok & _ & Hnames & _);
    [done|intros m Hm; by eapply (Hseg id s)|].
  rewrite Hchild. csimpl.
  destruct (build_machine_ok child (Some ROUND_CHILD_ERRORED) Hok) as (m & Hm & Hmok & _).
  { intros e [= <-]. apply Hnames. right. unfold ROUND_TERMINALS. set_solver. }
  rewrite Hm, Hout. csimpl. eexists. split; [done|].
  intros id' m' [?|Hin']%elem_of_cons; simplify_eq; [|by apply Hall].
  split; [done|]. exists s. do 3 eexists. by repeat (split; [done|]).
Qed.

(** The whole build. *)
Lemma buildWorkflowMachine_ok d :
  obj_wf (w_states d) → semantic_issues d = [] →
  ∃ bm, buildWorkflowMachine d = Ok bm ∧ machine_ok (bm_machine bm)
    ∧ obj_keys (m_states (bm_machine bm)) = stateNames d
    ∧ Forall2 (built d (plain_options None)) (w_states d) (m_states (bm_machine bm))
    ∧ (∀ id m, (id, m) ∈ bm_roundMachinesByState bm → machine_ok m ∧ round_machine_of d id m).
Proof.
  intros Hwf Hv. pose proof (validated_definition_ok d Hwf Hv) as Hd. unfold buildWorkflowMachine.
  destruct (build_machine_ok d None Hd) as (m & Hm & Hok & Hkeys & Hall); [done|].
  destruct (round_machines_spec d (w_states d) Hd (validated_segments_ok d Hv)) as (out & Hout & Hrounds);
    [done|].
  rewrite Hm, Hout. csimpl. eexists. split; [done|]. exact (conj Hok (conj Hkeys (conj Hall Hrounds))).
Qed.

(** ** Runs of a well-formed machine *)

Section runs.
Context `{XStateLaws}.

Lemma first_enabled_total m c ev l :
  Forall (tc_ok m) l → is_ok (first_enabled m c ev l).
Proof.
  induction 1 as [|tc l [_ Hg] Hl IH]; csimpl; [by eexists|].
  assert (is_ok (guard_holds m c ev (tc_guard tc))) as [b ->].
  { destruct (tc_guard tc) as [[name|w]|]; [|by (unfold guard_holds; eexists)..]. csimpl in Hg.
    unfold guard_holds, xstate_guard.
    assert (is_Some (guardImplementations name)) as [f ->].
    { unfold REGISTERED_GUARDS in Hg. rewrite !elem_of_cons, elem_of_nil in Hg.
      destruct Hg as [->|[->|[->|[->|[]]]]]; by eexists. }
    by eexists. }
  csimpl. destruct b; [by eexists|done].
Qed.

Lemma first_enabled_in m c ev l tc :
  first_enabled m c ev l = Ok (Some tc) → tc ∈ l ∧ guard_holds m c ev (tc_guard tc) = Ok true.
Proof.
  induction l as [|tc' l IH]; csimpl; [done|].
  destruct (guard_holds m c ev (tc_guard tc')) as [[]|] eqn:Hg; csimpl; try done.
  - intros; simplify_eq. split; [by left|done].
  - intros [??]%IH. split; [by right|done].
Qed.

Lemma transitions_ok m s node ev :
  machine_ok m → obj_get (m_states m) (sn_value s) = Some node →
  Forall (tc_ok m) (transitions_for node (sn_running s) ev).
Proof.
  intros Hm Hget. pose proof (mo_nodes m Hm _ _ Hget) as Hn.
  destruct node as [entry inv|on|], ev; csimpl; try by constructor; csimpl in Hn.
  - destruct Hn as (_ & Hn & _). by case_match.
  - destruct Hn as (_ & _ & Hn). case_match; [|constructor]. constructor; [done|constructor].
  - destruct (obj_get on _) as [tc|] eqn:E; csimpl; constructor; [|constructor].
    eapply Hn. by apply obj_get_elem.
Qed.

(** One event from a state of the machine: it is ignored, or a transition is taken. *)
Lemma send_cases m s node ev :
  machine_ok m → obj_get (m_states m) (sn_value s) = Some node → sn_done s = false →
  (first_enabled m (sn_context s) ev (transitions_for node (sn_running s) ev) = Ok None
   ∧ xs_send m ev s = stay node ev s (sn_context s))
  ∨ ∃ tc target, first_enabled m (sn_context s) ev (transitions_for node (sn_running s) ev) = Ok (Some tc)
     ∧ tc ∈ transitions_for node (sn_running s) ev ∧ guard_holds m (sn_context s) ev (tc_guard tc) = Ok true
     ∧ obj_get (m_states m) (tc_target tc) = Some target
     ∧ let c := run_actions (tc_actions tc) (Some ev) (sn_context s) in
       xs_send m ev s = if tc_target tc =? sn_value s then stay node ev s c
                        else enter (tc_target tc) target (Some ev) c.
Proof.
  intros Hm Hget Hdone. pose proof (transitions_ok m s node ev Hm Hget) as Hok.
  destruct (first_enabled_total m (sn_context s) ev _ Hok) as [[tc|] Hf].
  - right. destruct (first_enabled_in _ _ _ _ _ Hf) as [Hin Hg].
    rewrite Forall_forall in Hok. destruct (Hok tc Hin) as [[target Ht] _].
    exists tc, target. repeat (split; [done|]). csimpl. case_bool_decide as E.
    + by eapply xs_self.
    + by eapply xs_takes.
  - left. split; [done|]. by apply xs_ignores.
Qed.

(** A run never leaves the machine, and a finished run is in a final state. *)
Lemma run_in_machine m c0 evs s :
  machine_ok m → run m c0 evs s →
  ∃ node, obj_get (m_states m) (sn_value s) = Some node ∧ sn_done s = is_final node
          ∧ (sn_running s = true → invokes node = true).
Proof.
  intros Hm. induction 1 as [|evs s ev Hrun (node & Hget & Hdone & Hrunning)].
  - destruct (mo_initial m Hm) as [node Hget]. rewrite (xs_start_enters _ _ _ Hget). by exists node.
  - destruct (sn_done s) eqn:Hd; [rewrite xs_done_stays by done; exists node; by rewrite Hd|].
    destruct (send_cases m s node ev Hm Hget Hd) as [[_ ->]|(tc & target & _ & _ & _ & Ht & ->)].
    + exists node. csimpl. rewrite Hd. split; [done|]. split; [done|]. intros. bool_hyps. auto.
    + csimpl. case_bool_decide; [|by exists target]. exists node. csimpl. rewrite Hd.
      split; [done|]. split; [done|]. intros. bool_hyps. auto.
Qed.

(** A state whose invocation is over and which did not leave it stays for ever. *)
Lemma settled_stuck m s entry inv ev :
  obj_get (m_states m) (sn_value s) = Some (NodeInvoke entry inv) → sn_done s = false →
  sn_running s = false → xs_send m ev s = s.
Proof.
  intros Hget Hdone Hrun. erewrite xs_ignores; [|done..|].
  - unfold stay. rewrite Hrun. destruct s; by simplify_eq/=.
  - rewrite Hrun. by destruct ev.
Qed.
End runs.

(** * What happens along the runs of a machine

    Visit counts, the routing of verdicts, and the terminals of round machines. *)

(** ** Verdicts *)

Lemma extractVerdictValues_go l vs v :
  v ∈ foldl (λ values t,
    match when_verdict t with
    | VStr v => if includes values v then values else values ++ [v]
    | _ => values
    end) vs l ↔ v ∈ vs ∨ ∃ t, t ∈ l ∧ when_verdict t = VStr v.
Proof.
  revert vs. induction l as [|t l IH]; intros vs; csimpl.
  { split; [by left|]. by intros [?|(t & Ht & _)]; [|apply elem_of_nil in Ht]. }
  rewrite IH. setoid_rewrite elem_of_cons.
  assert (He : (∃ t0, (t0 = t ∨ t0 ∈ l) ∧ when_verdict t0 = VStr v)
    ↔ when_verdict t = VStr v ∨ ∃ t0, t0 ∈ l ∧ when_verdict t0 = VStr v) by naive_solver.
  rewrite He. destruct (when_verdict t) as [| | | |s| |]; [naive_solver..| |naive_solver|naive_solver].
  destruct (includes vs s) eqn:Hs.
  - apply includes_spec in Hs. naive_solver.
  - rewrite elem_of_app, list_elem_of_singleton. naive_solver.
Qed.

Lemma extractVerdictValues_spec l v :
  v ∈ extractVerdictValues l ↔ ∃ t, t ∈ l ∧ when_verdict t = VStr v.
Proof.
  unfold extractVerdictValues. rewrite extractVerdictValues_go. set_solver.
Qed.

(** The clauses that validation lets through ask for one verdict. *)
Definition clause_ok (t : AgentTransitionDefinition) : Prop :=
  ∀ w, t_when t = Some w → ∃ v, w = [("verdict", VStr v)].

Lemma validated_clause stateId t w :
  when_issues stateId t = [] → t_when t = Some w → obj_wf w → ∃ v, w = [("verdict", VStr v)].
Proof.
  unfold when_issues. intros H Hw Hwf. rewrite Hw in H. autorewrite with issues in H.
  destruct H as (_ & Hne & Hkeys & Hvals). apply bool_decide_eq_false in Hne.
  assert (Hk : ∀ k, k ∈ obj_keys w → k = "verdict").
  { intros k Hk. destruct (decide (k = "verdict")); [done|].
    specialize (Hkeys k). rewrite list_elem_of_In, filter_In, <-list_elem_of_In in Hkeys.
    discriminate Hkeys. split; [done|]. by rewrite bool_decide_eq_false_2. }
  destruct w as [|[k v] w]; [done|]. unfold obj_wf, obj_keys in *. csimpl in *.
  assert (k = "verdict") as -> by (apply Hk; by left).
  assert (w = []) as ->.
  { destruct w as [|[k' v'] w]; [done|]. csimpl in *. apply NoDup_cons in Hwf as [Hni _].
    assert (k' = "verdict") as -> by (apply Hk; right; by left). set_solver. }
  specialize (Hvals ("verdict", v) ltac:(by left)). unfold when_entry_issues in Hvals.
  csimpl in Hvals. destruct v; try (vm_compute in Hvals; discriminate Hvals). by eexists.
Qed.

(** The objects of a definition have unique keys. *)
Record objects_wf (d : WorkflowDefinition) : Prop := {
  ow_states : obj_wf (w_states d);
  ow_when : ∀ id s t w, (id, s) ∈ w_states d → t ∈ agent_transitions s → t_when t = Some w → obj_wf w;
}.

Lemma validated_clauses d id s :
  objects_wf d → semantic_issues d = [] → (id, s) ∈ w_states d → Forall clause_ok (agent_transitions s).
Proof.
  intros Hwf H Hin. unfold semantic_issues, state_issues in H. autorewrite with issues in H.
  destruct H as (_ & _ & H & _). specialize (H _ Hin). csimpl in H.
  autorewrite with issues in H. destruct H as (_ & _ & _ & H & _).
  unfold validateWhenClauses in H. rewrite bind_nil in H.
  apply Forall_forall. intros t Ht w Hw. eapply validated_clause; [by apply H|done|].
  by eapply (ow_when d Hwf id s t).
Qed.

(** An artifact handoff leaves by an unconditional transition. *)
Lemma validated_handoff d id a :
  semantic_issues d = [] → (id, SAgent a) ∈ w_states d → is_Some (a_artifactHandoff a) →
  existsb (λ t, negb (guard_set t) && negb (when_set t)) (a_transitions a) = true.
Proof.
  intros H Hin [files Hh]. unfold semantic_issues, state_issues in H. autorewrite with issues in H.
  destruct H as (_ & _ & H & _). specialize (H _ Hin). csimpl in H.
  autorewrite with issues in H. destruct H as (_ & _ & _ & _ & H).
  unfold validateArtifactHandoff in H. rewrite Hh in H. apply app_eq_nil in H as [H _].
  destruct (a_transitions a) as [|t [|t' l]]; [done| |done].
  destruct (guard_set t || when_set t) eqn:E; [done|]. apply orb_false_iff in E as [E1 E2].
  csimpl. by rewrite E1, E2.
Qed.

(** What the orchestrator asks of an agent's verdict before it completes a state
    whose transitions look at it. *)
Definition routable (transitions : list AgentTransitionDefinition) (verdict : string) : Prop :=
  match getValidVerdicts transitions with
  | Some verdicts => verdict ∈ verdicts
  | None => existsb (λ t, negb (guard_set t) && negb (when_set t)) transitions = true
  end.

Lemma routable_transition l verdict :
  Forall clause_ok l → routable l verdict →
  ∃ t, t ∈ l ∧ (t_when t = Some [("verdict", VStr verdict)] ∨ transition_guard t = None).
Proof.
  intros Hl. rewrite Forall_forall in Hl. unfold routable, getValidVerdicts.
  destruct (existsb _ l) eqn:Hu.
  { intros _. apply existsb_exists_elem in Hu as (t & Ht & Hb). exists t. split; [done|]. right.
    apply andb_true_iff in Hb as [Hg Hw]. unfold transition_guard, when_set in *.
    destruct (t_when t); [done|]. apply negb_true_iff in Hg. by rewrite Hg. }
  destruct (extractVerdictValues l) as [|v0 vs] eqn:Hv; [done|]. rewrite <-Hv.
  intros Hin. rewrite elem_of_js_set, extractVerdictValues_spec in Hin.
  destruct Hin as (t & Ht & Hwhen). exists t. split; [done|]. left. unfold when_verdict in Hwhen.
  destruct (t_when t) as [w|] eqn:Hw; [|done]. destruct (Hl t Ht w Hw) as [v ->].
  vm_compute in Hwhen. by simplify_eq.
Qed.

Lemma first_enabled_some m c ev l tc :
  Forall (tc_ok m) l → tc ∈ l → guard_holds m c ev (tc_guard tc) = Ok true →
  ∃ tc', first_enabled m c ev l = Ok (Some tc').
Proof.
  intros Hl Hin Hg. destruct (first_enabled_total m c ev l Hl) as [[tc'|] Hf]; [by exists tc'|].
  exfalso. clear Hl. induction l as [|tc0 l IH]; csimpl in *; [set_solver|].
  apply elem_of_cons in Hin as [->|Hin].
  - by rewrite Hg in Hf.
  - destruct (guard_holds m c ev (tc_guard tc0)) as [[]|]; csimpl in Hf; try done. auto.
Qed.

(** A routable verdict enables a transition. *)
Lemma routable_enabled m update l tcs c id r :
  Forall (tc_ok m) tcs → Forall2 (compiled update (λ t, Ok (t_to t))) l tcs → Forall clause_ok l →
  routable l (o_verdict (ai_output r)) →
  ∃ tc, first_enabled m c (EvDone id (OutAgent r)) tcs = Ok (Some tc).
Proof.
  intros Hok Hc Hl Hr. destruct (routable_transition l _ Hl Hr) as (t & Ht & Hguard).
  apply list_elem_of_lookup in Ht as [i Hi].
  destruct (Forall2_lookup_l _ _ _ _ _ Hc Hi) as (tc & Htc & _ & Hg & _).
  apply (first_enabled_some m c _ tcs tc Hok); [by eapply list_elem_of_lookup_2|].
  rewrite Hg. destruct Hguard as [Hw|Hn]; [|by rewrite Hn]. unfold transition_guard. rewrite Hw.
  csimpl. by rewrite bool_decide_eq_true_2.
Qed.

(** ** Visit counts *)

(** No transition of the machine resets the count of [x]. *)
Definition action_resets (x : string) (a : XStateAction) : Prop :=
  match a with ResetVisitCounts l => x ∈ l | _ => False end.

Definition node_transitions (node : StateNode) : list TransitionConfig :=
  match node with
  | NodeInvoke _ inv => inv_onDone inv ++ [inv_onError inv]
  | NodeGate on => obj_values on
  | NodeFinal => []
  end.

Definition never_reset (m : Machine) (x : string) : Prop :=
  ∀ id node tc a, obj_get (m_states m) id = Some node → tc ∈ node_transitions node →
    a ∈ tc_actions tc → ¬ action_resets x a.

(** Entry actions count the entered state only. *)
Definition counts_itself (id : string) (node : StateNode) : Prop :=
  entry_actions node = [] ∨ entry_actions node = [IncrementVisitCount id].

Definition counted (m : Machine) (x : string) : Prop :=
  ∃ node, obj_get (m_states m) x = Some node ∧ entry_actions node = [IncrementVisitCount x].

(** The event brings no context of its own. *)
Definition plain_event (ev : MachineEvent) : Prop :=
  match ev with EvDone _ (OutFanOut _) => False | _ => True end.

Lemma visits_with_fields c hp le cv vc x :
  visits (with_fields c hp le cv vc) x = default 0%Z (obj_get vc x).
Proof. done. Qed.

Lemma foldl_reset_get (l : list string) (o : object Z) x :
  x ∉ l → obj_get (foldl (λ next s, obj_set next s 0%Z) o l) x = obj_get o x.
Proof.
  intros Hx. rewrite (obj_get_fill l o 0%Z x). by rewrite bool_decide_eq_false_2.
Qed.

Lemma run_action_visits a ev c x :
  ¬ action_resets x a → (∀ s, a ≠ IncrementVisitCount s) →
  match ev with Some ev => plain_event ev | None => True end →
  visits (run_action a ev c) x = visits c x.
Proof.
  intros Hr Hi Hp. destruct a; csimpl in *.
  - destruct ev as [[s out| |]|]; try done. unfold updateContextFromAgentResult.
    by destruct (extractInvokeResult out).
  - destruct ev as [[s out| |]|]; try done. unfold updateContextFromDeterministicResult.
    by destruct (det_result out).
  - destruct ev as [[s [| |r|]| |]|]; try done.
  - destruct ev as [[]|]; done.
  - done.
  - destruct ev as [[]|]; done.
  - destruct ev as [[|s err|]|]; try done. by destruct err.
  - by destruct (Hi stateId).
  - unfold visits, resetVisitCounts. csimpl. by rewrite foldl_reset_get.
Qed.

Lemma run_actions_visits l ev c x :
  (∀ a, a ∈ l → ¬ action_resets x a ∧ ∀ s, a ≠ IncrementVisitCount s) →
  match ev with Some ev => plain_event ev | None => True end →
  visits (run_actions l ev c) x = visits c x.
Proof.
  intros Hl Hp. revert c. unfold run_actions. induction l as [|a l IH]; intros c; csimpl; [done|].
  rewrite IH by set_solver. destruct (Hl a ltac:(by left)). by apply run_action_visits.
Qed.

(** Entering a state counts a visit of it, when it counts itself. *)
Lemma enter_visits id node ev c x :
  counts_itself id node →
  visits (sn_context (enter id node ev c)) x =
  (visits c x + if bool_decide (id = x ∧ entry_actions node ≠ []) then 1 else 0)%Z.
Proof.
  intros [He|He]; unfold enter; csimpl; rewrite He; csimpl.
  - rewrite bool_decide_eq_false_2 by naive_solver. unfold run_actions. csimpl. lia.
  - unfold run_actions, incrementVisitCount, visits. csimpl. rewrite obj_get_set.
    destruct (decide (id = x)) as [->|Hne].
    + by rewrite !bool_decide_eq_true_2 by naive_solver.
    + rewrite !bool_decide_eq_false_2 by naive_solver. lia.
Qed.

Section runs.
Context `{XStateLaws}.

(** The snapshot after a list of events, the last one first. *)
Fixpoint replay (m : Machine) (c0 : WorkflowContext) (evs : list MachineEvent) : Snapshot :=
  match evs with
  | [] => xs_start m c0
  | ev :: evs => xs_send m ev (replay m c0 evs)
  end.

Lemma replay_run m c0 evs : run m c0 evs (replay m c0 evs).
Proof. induction evs; by constructor. Qed.

Lemma run_replay m c0 evs s : run m c0 evs s → s = replay m c0 evs.
Proof. induction 1 as [|evs s ev _ ->]; done. Qed.

(** How often a run entered a state. *)
Fixpoint entries (m : Machine) (c0 : WorkflowContext) (evs : list MachineEvent) (x : string) : Z :=
  match evs with
  | [] => if bool_decide (sn_value (xs_start m c0) = x) then 1%Z else 0%Z
  | ev :: evs' =>
      (entries m c0 evs' x +
       if bool_decide (sn_value (replay m c0 (ev :: evs')) = x ∧ sn_value (replay m c0 evs') ≠ x)
       then 1 else 0)%Z
  end.

(** Only entry actions count visits. *)
Definition counts_by_entry (m : Machine) : Prop :=
  ∀ id node, obj_get (m_states m) id = Some node →
    counts_itself id node ∧
    ∀ tc a s, tc ∈ node_transitions node → a ∈ tc_actions tc → a ≠ IncrementVisitCount s.

Lemma transitions_for_node node running ev tc :
  tc ∈ transitions_for node running ev → tc ∈ node_transitions node.
Proof.
  destruct node as [entry inv|on|], ev as [id out|id err|type p]; csimpl; try set_solver.
  - destruct (running && _); set_solver.
  - destruct (running && _); set_solver.
  - destruct (obj_get on _) as [tc'|] eqn:E; csimpl; [|set_solver].
    rewrite list_elem_of_singleton. intros ->. apply obj_get_elem in E.
    by apply (list_elem_of_fmap_2 snd) in E.
Qed.

(** The count of a state is the number of its entries. *)
Lemma visits_entries m c0 evs x :
  machine_ok m → counts_by_entry m → counted m x → never_reset m x → Forall plain_event evs →
  visits (sn_context (replay m c0 evs)) x = (visits c0 x + entries m c0 evs x)%Z.
Proof.
  intros Hm Hc Hx Hr. destruct Hx as (nx & Hgx & Hex).
  assert (Henter : ∀ id node, obj_get (m_states m) id = Some node →
    bool_decide (id = x ∧ entry_actions node ≠ []) = bool_decide (id = x)).
  { intros id node Hg. apply bool_decide_ext. split; [naive_solver|].
    intros ->. simplify_eq. by rewrite Hex. }
  induction evs as [|ev evs IH]; intros Hp; csimpl.
  { destruct (mo_initial m Hm) as [node Hget]. rewrite (xs_start_enters _ _ _ Hget).
    rewrite enter_visits, (Henter _ _ Hget) by by apply (Hc _ _ Hget). done. }
  apply Forall_cons in Hp as [Hev Hp]. specialize (IH Hp).
  destruct (run_in_machine m c0 evs (replay m c0 evs) Hm (replay_run m c0 evs)) as (node & Hget & _).
  set (s := replay m c0 evs) in *.
  assert (Hstay : ∀ c, visits c x = visits (sn_context s) x →
    visits c x = (visits c0 x + (entries m c0 evs x +
      (if bool_decide (sn_value s = x ∧ sn_value s ≠ x) then 1 else 0)))%Z).
  { intros c ->. rewrite IH, bool_decide_eq_false_2 by naive_solver. lia. }
  destruct (sn_done s) eqn:Hdone; [rewrite xs_done_stays by done; by apply Hstay|].
  destruct (Hc _ _ Hget) as [_ Hna].
  destruct (send_cases m s node ev Hm Hget Hdone) as [[_ ->]|(tc & target & _ & Hin & _ & Ht & Heq)];
    [by apply Hstay|].
  apply transitions_for_node in Hin. cbv zeta in Heq. rewrite Heq.
  assert (Hact : visits (run_actions (tc_actions tc) (Some ev) (sn_context s)) x = visits (sn_context s) x).
  { apply run_actions_visits; [|done]. intros a Ha. split; [by apply (Hr _ _ _ _ Hget Hin Ha)|].
    intros. by eapply Hna. }
  case_bool_decide as E; [by apply Hstay|].
  rewrite enter_visits, (Henter _ _ Ht), Hact, IH by by apply (Hc _ _ Ht). csimpl.
  rewrite <-Z.add_assoc. do 2 f_equal.
  assert (Hiff : bool_decide (tc_target tc = x) = bool_decide (tc_target tc = x ∧ sn_value s ≠ x))
    by (apply bool_decide_ext; naive_solver). by rewrite Hiff.
Qed.
End runs.

(** ** The machine of a definition counts its agent states *)

(** No transition of the definition resets the count of [x]. *)
Definition resets_nowhere (d : WorkflowDefinition) (x : string) : Prop :=
  ∀ id s t action, (id, s) ∈ w_states d → t ∈ collectTransitionsWithActions s → action ∈ t.2 →
    x ∉ action_stateIds action.

(** An action of a node's transition: an update or a compiled action of the definition. *)
Definition small_action (a : XStateAction) : Prop :=
  match a with IncrementVisitCount _ | ResetVisitCounts _ => False | _ => True end.

Lemma gate_actions h k tc a :
  (∃ on, buildHumanGateState h = NodeGate on ∧ (k, tc) ∈ on) → a ∈ tc_actions tc →
  small_action a ∨ ∃ t action, t ∈ h_transitions h ∧ action ∈ g_actions t ∧ a = compileAction action.
Proof.
  intros (on & [= <-] & Hin) Ha. revert Hin.
  set (f := λ on t, obj_set on _ _).
  assert (Hgen : ∀ l on0, (∀ t, t ∈ l → t ∈ h_transitions h) → (k, tc) ∈ foldl f on0 l →
    (k, tc) ∈ on0 ∨ ∃ t, t ∈ h_transitions h ∧ tc_actions tc =
      [StoreHumanPrompt; ClearError] ++ (compileAction <$> g_actions t)).
  { clear Ha a. intros l. induction l as [|t l IH]; intros on0 Hl; csimpl; [by left|].
    intros [Hin|?]%IH; [|by right|set_solver].
    apply elem_of_obj_set in Hin as [[= -> ->]|[? _]]; [|by left]. right. exists t. set_solver. }
  intros [Hin|(t & Ht & Heq)]%Hgen; [set_solver| |done]. rewrite Heq in Ha.
  apply elem_of_app in Ha as [Ha|Ha].
  - left. rewrite !elem_of_cons, elem_of_nil in Ha. by destruct Ha as [->|[->|[]]].
  - right. apply list_elem_of_fmap in Ha as (action & -> & Ha). by exists t, action.
Qed.

(** Where the actions of a built node come from. *)
Lemma built_actions d onError id s node tc a :
  build_state d (plain_options onError) id s = Ok node → tc ∈ node_transitions node →
  a ∈ tc_actions tc →
  small_action a ∨ ∃ t action, t ∈ collectTransitionsWithActions s ∧ action ∈ t.2 ∧ a = compileAction action.
Proof.
  intros Hb Htc Ha. destruct (decide (executable s = None)) as [Hx|Hx].
  { destruct s as [|h| |z]; try done; csimpl in Hb; simplify_eq; [|set_solver].
    csimpl in Htc. unfold obj_values in Htc. apply list_elem_of_fmap in Htc as ([k tc'] & -> & Hin).
    destruct (gate_actions h k tc' a) as [?|(t & action & Ht & Hac & ->)]; [by eexists|done|by left|].
    right. exists (g_to t, g_actions t), action. split; [|done]. csimpl.
    apply (list_elem_of_fmap_2 (λ t, (g_to t, g_actions t))) in Ht. done. }
  destruct s as [ag|h|dt|z]; try done; csimpl in Hb;
    [destruct (a_fanOut ag)|destruct (d_fanOut dt)];
    unfold buildFanOutState, buildAgentState, buildDeterministicState, build_invoke in Hb;
    csimpl in Hb; destruct (buildOnDoneTransitions _ _ _) as [tcs|] eqn:E1; csimpl in Hb; try done;
    destruct (error_target _ _ _) eqn:E2; csimpl in Hb; try done; simplify_eq; csimpl in Htc;
    apply elem_of_app in Htc as [Htc|Htc].
  all: try (apply list_elem_of_singleton in Htc; subst; csimpl in Ha; left;
    rewrite !elem_of_cons, elem_of_nil in Ha;
    destruct_or?; try done; subst; done).
  all: apply buildOnDoneTransitions_inv in E1; apply list_elem_of_lookup in Htc as [i Hi];
    destruct (Forall2_lookup_r _ _ _ _ _ E1 Hi) as (t & Ht & _ & _ & Hact); rewrite Hact in Ha;
    unfold collectTransitionActions in Ha; apply elem_of_cons in Ha as [->|Ha]; [by left|right];
    apply list_elem_of_fmap in Ha as (action & -> & Ha);
    exists (t_to t, t_actions t), action; split; [|done]; unfold collectTransitionsWithActions; csimpl;
    apply (list_elem_of_fmap_2 (λ t, (t_to t, t_actions t))); by eapply list_elem_of_lookup_2.
Qed.

Lemma built_counts d onError m :
  Forall2 (built d (plain_options onError)) (w_states d) (m_states m) → counts_by_entry m.
Proof.
  intros Hall id node Hget. destruct (built_get _ _ _ _ _ _ Hall Hget) as (s & Hin & Hb). split.
  - unfold counts_itself. destruct s as [ag|h|dt|z]; csimpl in Hb; simplify_eq; try by left.
    all: match type of Hb with context [match ?f with Some _ => _ | None => _ end] => destruct f end;
      unfold buildFanOutState, buildAgentState, buildDeterministicState, build_invoke in Hb; csimpl in Hb;
      destruct (buildOnDoneTransitions _ _ _); csimpl in Hb; try done;
      destruct (error_target _ _ _); csimpl in Hb; try done; simplify_eq; csimpl; auto.
  - intros tc a x Htc Ha ->. by destruct (built_actions _ _ _ _ _ _ _ Hb Htc Ha) as [?|(?&[]&?&?&?)].
Qed.

Lemma built_never_reset d onError m x :
  Forall2 (built d (plain_options onError)) (w_states d) (m_states m) → resets_nowhere d x → never_reset m x.
Proof.
  intros Hall Hd id node tc a Hget Htc Ha. destruct (built_get _ _ _ _ _ _ Hall Hget) as (s & Hin & Hb).
  destruct (built_actions _ _ _ _ _ _ _ Hb Htc Ha) as [?|(t & action & Ht & Hac & ->)]; [destruct a; csimpl in *; tauto|].
  csimpl. by eapply Hd.
Qed.

Lemma built_agent d onError m x a :
  obj_wf (w_states d) → Forall2 (built d (plain_options onError)) (w_states d) (m_states m) →
  (x, SAgent a) ∈ w_states d → a_fanOut a = None →
  ∃ inv, obj_get (m_states m) x = Some (NodeInvoke [IncrementVisitCount x] inv) ∧ inv_id inv = x
    ∧ Forall2 (compiled UpdateContextFromAgentResult (λ t, Ok (t_to t))) (a_transitions a) (inv_onDone inv).
Proof.
  intros Hwf Hall Hin Hfan.
  assert (is_Some (obj_get (m_states m) x)) as [node Hget].
  { apply elem_of_keys. rewrite (built_keys _ _ _ _ Hall). by apply (list_elem_of_fmap_2 fst) in Hin. }
  destruct (built_get _ _ _ _ _ _ Hall Hget) as (s & Hin' & Hb).
  rewrite elem_of_obj_get in Hin, Hin' by done. simplify_eq. csimpl in Hb. rewrite Hfan in Hb.
  unfold buildAgentState, build_invoke, map_target in Hb. csimpl in Hb.
  destruct (buildOnDoneTransitions _ _ _) as [tcs|] eqn:E1; csimpl in Hb; [|done].
  destruct (error_target _ _ _); csimpl in Hb; [|done]. simplify_eq.
  eexists. split; [done|]. split; [done|]. by apply buildOnDoneTransitions_inv in E1.
Qed.

Lemma max_visits_get d x a :
  obj_wf (w_states d) → (x, SAgent a) ∈ w_states d → obj_get (max_visits (w_states d)) x = a_maxVisits a.
Proof.
  unfold obj_wf, obj_keys, max_visits. induction (w_states d) as [|[k s] states IH]; csimpl; [set_solver|].
  intros [Hk Hwf]%NoDup_cons Hin. apply elem_of_cons in Hin as [?|Hin]; simplify_eq.
  - destruct (a_maxVisits a) eqn:E; csimpl; [by rewrite bool_decide_eq_true_2|].
    assert (Hni : ∀ l, k ∉ l.*1 → obj_get (omap (λ kv : string * WorkflowStateDefinition,
      match kv.2 with SAgent a => pair kv.1 <$> a_maxVisits a | _ => None end) l) k = None).
    { clear. intros l. induction l as [|[k' s'] l IH]; csimpl; [done|]. intros Hn.
      destruct s' as [a'| | |]; csimpl; try apply IH; try set_solver.
      destruct (a_maxVisits a'); csimpl; [rewrite bool_decide_eq_false_2 by set_solver|]; apply IH; set_solver. }
    by apply Hni.
  - rewrite <-IH by done. assert (k ≠ x).
    { intros ->. apply Hk. by apply (list_elem_of_fmap_2 fst) in Hin. }
    destruct s as [a'| | |]; csimpl; try done.
    destruct (a_maxVisits a'); csimpl; [by rewrite bool_decide_eq_false_2|done].
Qed.

(** ** Round machines *)

(** What a node of a round machine is made of. *)
Lemma round_machine_node d id m x node :
  definition_ok d → segments_ok d → round_machine_of d id m → obj_get (m_states m) x = Some node →
  (x ∈ ROUND_TERMINALS ∧ node = NodeFinal) ∨
  ∃ entry inv, node = NodeInvoke entry inv ∧ (x ∉ ROUND_TERMINALS)
    ∧ tc_target (inv_onError inv) = ROUND_CHILD_ERRORED ∧ tc_guard (inv_onError inv) = None ∧
    ∀ tc, tc ∈ inv_onDone inv → ∃ t segment, mapRoundChildTarget d segment t = Ok (tc_target tc)
      ∧ tc_guard tc = transition_guard t
      ∧ ∃ s xs, (id, s) ∈ w_states d ∧ executable s = Some xs ∧ x_segment xs = Some segment.
Proof.
  intros Hd Hseg (s & xs & segment & child & Hin & Hx & Hfan & Hsg & Hne & Hchild & Hm) Hget.
  destruct (buildRoundChildDefinition_ok d id segment Hd Hne) as (child' & Hchild' & Hok & _ & Hnames & Hstates).
  { intros mem Hmem. eapply (Hseg id s xs); [done..|]. by rewrite Hsg. }
  assert (child' = child) as -> by congruence.
  destruct (build_machine_ok child (Some ROUND_CHILD_ERRORED) Hok) as (m' & Hm' & _ & _ & Hall).
  { intros e [= <-]. apply Hnames. right. unfold ROUND_TERMINALS. set_solver. }
  assert (m' = m) as -> by congruence.
  destruct (built_get _ _ _ _ _ _ Hall Hget) as (s' & Hin' & Hb).
  destruct (Hstates _ _ Hin') as [[Hterm Ht]|[Hnt Hcopy]].
  { left. split; [done|]. destruct s'; by simplify_eq/=. }
  right. destruct (copy_transitions _ _ _ _ Hcopy) as [Hxs' Htr].
  assert (Hnofan : executable s' ≫= x_fanOut = None).
  { destruct Hcopy as (member & ? & l & _ & Hxm & _ & ->). by destruct member; simplify_eq/=. }
  destruct (build_state_executable _ _ _ _ _ Hxs' Hb) as (entry & inv & -> & _ & Hg0 & Hdone & Herr).
  unfold state_error_target in Herr. rewrite Hnofan in Herr. csimpl in Herr. injection Herr as Herr.
  exists entry, inv. do 4 (split; [done|]). intros tc Htc.
  apply buildOnDoneTransitions_inv in Hdone. apply list_elem_of_lookup in Htc as [i Hi].
  destruct (Forall2_lookup_r _ _ _ _ _ Hdone Hi) as (t' & Ht' & Hto & Hg & _).
  destruct (Htr t' (list_elem_of_lookup_2 _ _ _ Ht')) as (mem & t & _ & _ & to & Hmap & ->).
  csimpl in Hto. injection Hto as <-. exists t, segment. split; [done|]. split; [done|].
  by exists s, xs.
Qed.

Lemma mapRoundChildTarget_recorded d segment t :
  ROUND_CHILD_RECORDED ∉ segment → mapRoundChildTarget d segment t = Ok ROUND_CHILD_RECORDED →
  when_verdict t = VStr "recorded".
Proof.
  intros Hni. unfold mapRoundChildTarget. destruct (includes segment (t_to t)) eqn:Hs.
  { apply includes_spec in Hs. intros [= E]. by rewrite E in Hs. }
  destruct (when_verdict t) as [| | | |v| |]; try (destruct (state_of d (t_to t)) as [s|]; csimpl;
    [destruct (is_human_gate s)|]; intros; simplify_eq; done).
  case_bool_decide; [by subst|]. case_bool_decide; done.
Qed.

Lemma strict_equal_str v s : strict_equal v (VStr s) = true → v = VStr s.
Proof. destruct v as [| | |n|t| |]; csimpl; try done; [by destruct n|]. case_bool_decide; by subst. Qed.

(** What a service reported: the verdict that the transitions of a state see. *)
Definition reported (out : InvokeOutput) (v : string) : Prop :=
  ∃ o, match_source out = Some o ∧ get_value o "verdict" = VStr v.

Lemma matchesWhen_verdict w ev v :
  get_value w "verdict" = VStr v → matchesWhen w ev = true →
  ∃ id out, ev = EvDone id out ∧ reported out v.
Proof.
  intros Hw. unfold matchesWhen. destruct ev as [id out| |]; try done.
  destruct (match_source out) as [o|] eqn:Ho; [|done]. intros [_ Hall]%andb_true_iff.
  exists id, out. split; [done|]. exists o. split; [done|].
  rewrite forallb_forall_elem in Hall. unfold get_value in Hw.
  destruct (obj_get w "verdict") as [u|] eqn:Hu; csimpl in Hw; [|done]. subst u.
  specialize (Hall _ (obj_get_elem _ _ _ Hu)). csimpl in Hall. by apply strict_equal_str.
Qed.

Section rounds.
Context `{XStateLaws}.

(** A lane reaches [recorded] on that verdict only. *)
Lemma round_step_recorded d id m s ev :
  definition_ok d → segments_ok d → round_machine_of d id m → machine_ok m →
  (∀ s xs segment, (id, s) ∈ w_states d → executable s = Some xs → x_segment xs = Some segment →
     ROUND_CHILD_RECORDED ∉ segment) →
  has_state m (sn_value s) → sn_done s = false →
  sn_value s ≠ ROUND_CHILD_RECORDED → sn_value (xs_send m ev s) = ROUND_CHILD_RECORDED →
  ∃ x out, ev = EvDone x out ∧ reported out "recorded".
Proof.
  intros Hd Hseg Hround Hm Hni [node Hget] Hdone Hbefore Hafter.
  destruct (send_cases m s node ev Hm Hget Hdone) as [[_ Heq]|(tc & target & _ & Hin & Hg & _ & Heq)];
    [by rewrite Heq in Hafter|]. cbv zeta in Heq. rewrite Heq in Hafter.
  case_bool_decide; csimpl in Hafter; [done|].
  destruct (round_machine_node _ _ _ _ _ Hd Hseg Hround Hget) as [[_ ->]|(entry & inv & -> & _ & Herr & _ & Hall)];
    [destruct ev; csimpl in Hin; by apply elem_of_nil in Hin|].
  destruct ev as [x out|x err|ty p]; csimpl in Hin; [|case_match|]; try by apply elem_of_nil in Hin.
  2: { apply list_elem_of_singleton in Hin. subst tc. rewrite Herr in Hafter. by vm_compute in Hafter. }
  case_match; [|by apply elem_of_nil in Hin].
  destruct (Hall tc Hin) as (t & segment & Hmap & Hguard & s0 & xs & Hs0 & Hxs & Hsg).
  rewrite Hafter in Hmap. apply mapRoundChildTarget_recorded in Hmap; [|by eapply Hni].
  unfold when_verdict in Hmap. rewrite Hguard in Hg. unfold transition_guard in Hg.
  destruct (t_when t) as [w|]; [|done]. csimpl in Hg. injection Hg as Hg.
  by eapply matchesWhen_verdict.
Qed.

(** A rejected service ends its lane in [errored]. *)
Lemma round_step_error d id m s err entry inv :
  definition_ok d → segments_ok d → round_machine_of d id m → machine_ok m →
  obj_get (m_states m) (sn_value s) = Some (NodeInvoke entry inv) → sn_done s = false →
  sn_running s = true → sn_value s ≠ ROUND_CHILD_ERRORED →
  sn_value (xs_send m (EvError (sn_value s) err) s) = ROUND_CHILD_ERRORED
  ∧ sn_done (xs_send m (EvError (sn_value s) err) s) = true.
Proof.
  intros Hd Hseg Hround Hm Hget Hdone Hrun Hne.
  pose proof (mo_nodes m Hm _ _ Hget) as (Hid & _ & (target & Htgt) & _).
  destruct (round_machine_node _ _ _ _ _ Hd Hseg Hround Hget) as [[_ ?]|(e & i & ? & _ & Herr & Hg & _)];
    [done|simplify_eq]. rewrite Herr in Htgt.
  destruct (round_machine_node _ _ _ _ _ Hd Hseg Hround Htgt) as [[_ ->]|(_ & _ & _ & Hnt & _)];
    [|exfalso; apply Hnt; unfold ROUND_TERMINALS; set_solver].
  assert (Htr : transitions_for (NodeInvoke e i) (sn_running s) (EvError (sn_value s) err) = [inv_onError i])
    by (csimpl; rewrite Hrun; by rewrite bool_decide_eq_true_2).
  rewrite (xs_takes m (EvError (sn_value s) err) s (NodeInvoke e i) (inv_onError i) NodeFinal); rewrite ?Herr; try done.
  rewrite Htr. csimpl. by rewrite Hg.
Qed.
End rounds.
