(* ===== verification/FanOut.v ===== *)
(** * Fan-out batches: lanes, the barrier and the join

    Models the fan-out part of src/workflow/orchestrator.ts.  [runFanOutSegment]
    starts one child actor per lane and waits for all of them; the first lane that
    ends blocked or errored stops its peers (the drain), and the settled lanes are
    folded into one result.  The waiters are a step relation over the snapshots that
    the actors report, in any order; the join, the merge of the contexts and the
    reconstruction of an interrupted batch are functions. *)

From Stdlib Require Import Ascii.
From S2P Require Import Prelude JsValue Paths Urls Messages WorkflowTypes LaneTemplate MachineBuilder.

(** ** Lanes and their waiters *)

Definition toRoundChildStatus (value : string) : RoundChildStatus :=
  if value =? "recorded" then Recorded
  else if value =? "blocked" then Blocked
  else if value =? "errored" then Errored
  else Errored.

Definition status_name (s : RoundChildStatus) : string :=
  match s with
  | Recorded => "recorded" | Blocked => "blocked" | Errored => "errored" | Drained => "drained"
  end.

Definition is_issue (s : RoundChildStatus) : bool :=
  match s with Blocked | Errored => true | _ => false end.

Definition roundChildReason (index : nat) (status : RoundChildStatus) (c : WorkflowContext) : string :=
  let fallback := "fan-out child " +:+ show_nat index +:+ " ended in " +:+ quoted (status_name status) in
  match status with
  | Errored =>
      default (default fallback (c_previousAgentOutput c)) (c_lastError c)
  | _ => default (default fallback (c_lastError c)) (c_previousAgentOutput c)
  end.

Record DrainTrigger := {
  dt_index : nat; dt_status : RoundChildStatus; dt_context : WorkflowContext; dt_reason : string
}.

(** One lane: its actor's current context, and its outcome once settled.  A lane
    synthesized from the database has no actor and is settled from the start. *)
Record Lane := {
  ln_index : nat;
  ln_context : WorkflowContext;
  ln_outcome : option RoundChildOutcome;
  ln_synthesized : bool
}.

Record Batch := {
  bt_lanes : list Lane;
  bt_drainTrigger : option DrainTrigger
}.

(** What an actor reports: [done] with the value of its final state, or [error]. *)
Inductive ActorSnapshot :=
| SnapActive (context : WorkflowContext)
| SnapDone (value : string) (context : WorkflowContext)
| SnapError (context : WorkflowContext).

Definition settle (outcome : RoundChildOutcome) (l : Lane) : Lane :=
  {| ln_index := ln_index l; ln_context := ln_context l; ln_outcome := Some outcome;
     ln_synthesized := ln_synthesized l |}.

Definition isSettled (l : Lane) : bool := bool_decide (is_Some (ln_outcome l)).

(** [child.drain(trigger)] *)
Definition drain (trigger : DrainTrigger) (l : Lane) : Lane :=
  if isSettled l then l
  else settle {| ro_index := ln_index l; ro_status := Drained; ro_context := ln_context l;
                 ro_drainedBy := Some {| db_index := dt_index trigger; db_status := dt_status trigger;
                                         db_reason := dt_reason trigger |} |} l.

(** [requestDrain]: the first trigger wins, and stops every peer that still runs. *)
Definition requestDrain (trigger : DrainTrigger) (b : Batch) : Batch :=
  match bt_drainTrigger b with
  | Some _ => b
  | None =>
      {| bt_lanes := (λ l, if ln_synthesized l || (ln_index l =? dt_index trigger) || isSettled l then l
                           else drain trigger l) <$> bt_lanes b;
         bt_drainTrigger := Some trigger |}
  end.

(** [finish(outcome)] for lane [i]. *)
Definition finish (i : nat) (outcome : RoundChildOutcome) (b : Batch) : Batch :=
  match bt_lanes b !! i with
  | None => b
  | Some l =>
      if isSettled l then b
      else
        let b := {| bt_lanes := <[i := settle outcome l]> (bt_lanes b);
                    bt_drainTrigger := bt_drainTrigger b |} in
        if is_issue (ro_status outcome)
        then requestDrain {| dt_index := ro_index outcome; dt_status := ro_status outcome;
                             dt_context := ro_context outcome;
                             dt_reason := roundChildReason (ro_index outcome) (ro_status outcome)
                                            (ro_context outcome) |} b
        else b
  end.

(** [observe(snapshot)] of lane [i]; a settled lane has unsubscribed. *)
Definition observe (i : nat) (snap : ActorSnapshot) (b : Batch) : Batch :=
  match bt_lanes b !! i with
  | None => b
  | Some l =>
      if isSettled l || ln_synthesized l then b
      else
        match snap with
        | SnapActive c =>
            {| bt_lanes := <[i := {| ln_index := ln_index l; ln_context := c; ln_outcome := ln_outcome l;
                                     ln_synthesized := ln_synthesized l |}]> (bt_lanes b);
               bt_drainTrigger := bt_drainTrigger b |}
        | SnapDone value c =>
            finish i {| ro_index := ln_index l; ro_status := toRoundChildStatus value;
                        ro_context := c; ro_drainedBy := None |} b
        | SnapError c =>
            finish i {| ro_index := ln_index l; ro_status := Errored; ro_context := c;
                        ro_drainedBy := None |} b
        end
  end.

Definition buildFanOutLaneContext (c : WorkflowContext) (index workers : nat)
    (preparedResults : option (object DeterministicInvokeResult)) : WorkflowContext :=
  if (workers =? 1)%nat then c
  else
    {| c_taskDescription := c_taskDescription c;
       c_lane := Some {| lane_id := index;
         lane_dir := DEFAULT_EVOLVE_LANE_DIR +:+ "/lane_" +:+ show_nat index;
         lane_relativeDir := DEFAULT_EVOLVE_LANE_RELATIVE_DIR +:+ "/lane_" +:+ show_nat index;
         lane_preparedResults := preparedResults |};
       c_artifacts := c_artifacts c; c_round := c_round c; c_maxRounds := c_maxRounds c;
       c_previousOutputHashes := c_previousOutputHashes c;
       c_previousTestCount := c_previousTestCount c;
       c_lastDeterministicResult := c_lastDeterministicResult c; c_humanPrompt := c_humanPrompt c;
       c_reviewHistory := c_reviewHistory c; c_totalTokens := c_totalTokens c;
       c_lastError := c_lastError c; c_agentConversationsByState := c_agentConversationsByState c;
       c_previousAgentOutput := c_previousAgentOutput c;
       c_previousAgentNotes := c_previousAgentNotes c;
       c_previousStateName := c_previousStateName c; c_visitCounts := c_visitCounts c |}.

(** Runs of a batch: any lane's actor reports, in any order. *)
Inductive batch_steps : Batch → Batch → Prop :=
| batch_refl b : batch_steps b b
| batch_step b b' i snap : batch_steps b b' → batch_steps b (observe i snap b').

(** ** The join *)

Record FanOutIssue := { is_index : nat; is_status : RoundChildStatus; is_reason : string }.

Definition fanOutIssues (children : list RoundChildOutcome) : list FanOutIssue :=
  (λ c, {| is_index := ro_index c; is_status := ro_status c;
           is_reason := roundChildReason (ro_index c) (ro_status c) (ro_context c) |})
    <$> List.filter (λ c, is_issue (ro_status c)) children.

Definition formatFanOutIssues (header : string) (issues : list FanOutIssue) : string :=
  match issues with
  | [] => header
  | _ => str_join newline (header :: ((λ i, "- lane " +:+ show_nat (is_index i) +:+ " "
           +:+ status_name (is_status i) +:+ ": " +:+ is_reason i) <$> issues))
  end.

Definition ESCALATED_HEADER : string := "Fan-out batch escalated after blocked lane(s):".
Definition FAILED_HEADER : string := "Fan-out batch failed after errored lane(s):".

Definition issues_payload (issues : list FanOutIssue) : object jsvalue :=
  [("issues", VArr ((λ i, VObj [("index", VNum (num_of_Z (Z.of_nat (is_index i))));
      ("status", VStr (status_name (is_status i))); ("reason", VStr (is_reason i))]) <$> issues))].

(** The context without its lane, with the given visits and tokens. *)
Definition spine_context (c : WorkflowContext) (visitCounts : object Z) (tokens : Z) : WorkflowContext :=
  {| c_taskDescription := c_taskDescription c; c_lane := None; c_artifacts := c_artifacts c;
     c_round := c_round c; c_maxRounds := c_maxRounds c;
     c_previousOutputHashes := c_previousOutputHashes c; c_previousTestCount := c_previousTestCount c;
     c_lastDeterministicResult := c_lastDeterministicResult c; c_humanPrompt := c_humanPrompt c;
     c_reviewHistory := c_reviewHistory c; c_totalTokens := tokens; c_lastError := c_lastError c;
     c_agentConversationsByState := c_agentConversationsByState c;
     c_previousAgentOutput := c_previousAgentOutput c;
     c_previousAgentNotes := c_previousAgentNotes c; c_previousStateName := c_previousStateName c;
     c_visitCounts := visitCounts |}.

Definition promoteFanOutContext (tokens : Z) (parentContext laneContext : WorkflowContext) :
    WorkflowContext :=
  match c_lane laneContext with
  | None => spine_context laneContext (c_visitCounts laneContext) tokens
  | Some _ => spine_context laneContext (c_visitCounts parentContext) tokens
  end.

Definition SCRATCH_BARE : string := newline
  +:+ "Scratch is the bare current/ (a single candidate is written; result.json may be absent) — "
  +:+ "resume the round in place; do NOT discard and start a fresh batch.".
Definition SCRATCH_LANES : string := newline
  +:+ "Scratch is lane-scoped under current/lane_<k>/ — discard the lane scratch and re-decide normally.".

Definition promoteFanOutIssueContext (tokens : Z) (parentContext : WorkflowContext)
    (fanOutStateId : string) (source : RoundChildOutcome) (verdict : string)
    (issues : list FanOutIssue) : WorkflowContext :=
  let failed := verdict =? DETERMINISTIC_RESULT_ERROR_VERDICT in
  let summary := formatFanOutIssues (if failed then FAILED_HEADER else ESCALATED_HEADER) issues in
  let scratchNote := match c_lane (ro_context source) with
    | None => SCRATCH_BARE | Some _ => SCRATCH_LANES end in
  let c := promoteFanOutContext tokens parentContext (ro_context source) in
  {| c_taskDescription := c_taskDescription c; c_lane := c_lane c; c_artifacts := c_artifacts c;
     c_round := c_round c; c_maxRounds := c_maxRounds c;
     c_previousOutputHashes := c_previousOutputHashes c; c_previousTestCount := c_previousTestCount c;
     c_lastDeterministicResult :=
       Some {| dr_verdict := Some verdict; dr_payload := Some (issues_payload issues) |};
     c_humanPrompt := c_humanPrompt c; c_reviewHistory := c_reviewHistory c;
     c_totalTokens := c_totalTokens c; c_lastError := if failed then Some summary else None;
     c_agentConversationsByState := c_agentConversationsByState c;
     c_previousAgentOutput := Some (summary +:+ scratchNote); c_previousAgentNotes := None;
     c_previousStateName := Some fanOutStateId; c_visitCounts := c_visitCounts c |}.

(** [children.sort((a, b) => a.index - b.index)], stable. *)
Fixpoint insert_by_index (c : RoundChildOutcome) (l : list RoundChildOutcome) : list RoundChildOutcome :=
  match l with
  | [] => [c]
  | c' :: l' => if (ro_index c' <=? ro_index c)%nat then c' :: insert_by_index c l' else c :: l
  end.

Definition sort_by_index (l : list RoundChildOutcome) : list RoundChildOutcome :=
  foldl (λ acc c, insert_by_index c acc) [] l.

Definition roundDelta (parentContext : WorkflowContext) (ordered : list RoundChildOutcome) : Z :=
  foldl (λ sum c, (sum + Z.max 0 (c_round (ro_context c) - c_round parentContext))%Z) 0%Z ordered.

Definition mergedReviewHistory (parentContext : WorkflowContext) (ordered : list RoundChildOutcome) :
    list string :=
  let base := length (c_reviewHistory parentContext) in
  foldl (λ acc c,
    let h := c_reviewHistory (ro_context c) in
    if (base <? length h)%nat then acc ++ drop base h else acc)
    (c_reviewHistory parentContext) ordered.

Definition mergeRecordedFanOutContext (tokens : Z) (parentContext : WorkflowContext)
    (children : list RoundChildOutcome) : WorkflowContext :=
  let ordered := sort_by_index children in
  let merge {A} (f : WorkflowContext → object A) : object A :=
    foldl (λ acc c, obj_merge acc (f (ro_context c))) (f parentContext) ordered in
  let l := default parentContext (ro_context <$> last ordered) in
  {| c_taskDescription := c_taskDescription l; c_lane := None;
     c_artifacts := merge c_artifacts;
     c_round := (c_round parentContext + roundDelta parentContext ordered)%Z;
     c_maxRounds := c_maxRounds l;
     c_previousOutputHashes := merge c_previousOutputHashes;
     c_previousTestCount := c_previousTestCount l;
     c_lastDeterministicResult := c_lastDeterministicResult l; c_humanPrompt := None;
     c_reviewHistory := mergedReviewHistory parentContext ordered;
     c_totalTokens := tokens; c_lastError := c_lastError l;
     c_agentConversationsByState := merge c_agentConversationsByState;
     c_previousAgentOutput := c_previousAgentOutput l;
     c_previousAgentNotes := c_previousAgentNotes l; c_previousStateName := c_previousStateName l;
     c_visitCounts := c_visitCounts parentContext |}.

Definition join_result (passed : bool) (verdict : string) (errors : option string)
    (payload : option (object jsvalue)) (c : WorkflowContext)
    (children : option (list (nat * RoundChildStatus * option DrainedBy))) : FanOutInvokeResult :=
  {| fo_result := {| di_passed := passed; di_testCount := None; di_errors := errors;
                     di_verdict := Some verdict; di_payload := payload |};
     fo_context := c; fo_children := children |}.

Definition fanOutErrorResult (parentContext : WorkflowContext) (message : string) : FanOutInvokeResult :=
  join_result false DETERMINISTIC_RESULT_ERROR_VERDICT (Some message) None parentContext None.

Definition find_status (s : RoundChildStatus) (children : list RoundChildOutcome) :
    option RoundChildOutcome :=
  List.find (λ c, ro_status c =? s) children.

(** [joinFanOutBatch] on the fulfilled settles: a lane's promise never rejects. *)
Definition joinFanOutBatch (tokens : Z) (parentContext : WorkflowContext) (stateId : string)
    (first : RoundChildOutcome) (rest : list RoundChildOutcome) : FanOutInvokeResult :=
  let children := first :: rest in
  let childSummaries := (λ c, (ro_index c, ro_status c, ro_drainedBy c)) <$> children in
  let issues := fanOutIssues children in
  if existsb (λ i, is_status i =? Blocked) issues then
    let source := default first (find_status Blocked children) in
    join_result false "escalate" (Some (formatFanOutIssues ESCALATED_HEADER issues))
      (Some (issues_payload issues))
      (promoteFanOutIssueContext tokens parentContext stateId source "escalate" issues)
      (Some childSummaries)
  else if existsb (λ i, is_status i =? Errored) issues then
    let source := default first (find_status Errored children) in
    join_result false DETERMINISTIC_RESULT_ERROR_VERDICT
      (Some (formatFanOutIssues FAILED_HEADER issues)) (Some (issues_payload issues))
      (promoteFanOutIssueContext tokens parentContext stateId source
         DETERMINISTIC_RESULT_ERROR_VERDICT issues)
      (Some childSummaries)
  else
    match find_status Drained children with
    | Some drained =>
        join_result false DETERMINISTIC_RESULT_ERROR_VERDICT
          (Some ("fan-out child " +:+ show_nat (ro_index drained)
                 +:+ " was drained without a blocked or errored trigger"))
          None (promoteFanOutContext tokens parentContext (ro_context drained)) (Some childSummaries)
    | None =>
        join_result true "recorded" None None
          (match rest with
           | [] => ro_context first
           | _ => mergeRecordedFanOutContext tokens parentContext children
           end) (Some childSummaries)
    end.
