(* ===== verification/FanOutBatch.v ===== *)
(** * Preparing and finishing a fan-out batch

    Models, from src/workflow/orchestrator.ts, what [runFanOutSegment] does around its
    lanes: the reconstruction of an interrupted batch from the nodes database, the
    barrier commands derived from the segment's own commands, the results prepared for
    the lanes, and the steps after the join.  What a deterministic command answers is a
    parameter ([execute]). *)

From Stdlib Require Import Ascii QArith Qcanon Sorted.
From stdpp Require Import sorting.
From S2P Require Import Prelude JsValue Paths Urls PathArgs Tools Messages WorkflowTypes LaneTemplate.
From S2P Require Import MachineBuilder FanOut.

(** ** Reading the nodes database *)

Definition asRecord (v : jsvalue) : option (object jsvalue) :=
  match v with VObj o => Some o | _ => None end.

(** The database file: absent, or unreadable, or its parsed content. *)
Inductive NodesFile :=
| NodesMissing
| NodesUnreadable (error : string)
| NodesParsed (v : jsvalue).

Definition readEvolveNodes (f : NodesFile) : result (object jsvalue) :=
  match f with
  | NodesMissing => Ok []
  | NodesUnreadable error => Throw error
  | NodesParsed v => Ok (default [] (asRecord v ≫= λ root, asRecord (get_value root "nodes")))
  end.

Definition digits_value (s : string) : nat :=
  foldl (λ n a, 10 * n + (nat_of_ascii a - 48)) 0 (chars s).

Fixpoint span_digits (s : string) : string * string :=
  match s with
  | String a s' => if is_digit a then let '(d, r) := span_digits s' in (String a d, r) else ("", s)
  | "" => ("", "")
  end.

(** [EVOLVE_LANE_STEP_RE]: [step_<batch>], with an optional [_lane_<k>]. *)
Definition parse_step_name (s : string) : option (nat * option nat) :=
  if startsWith s "step_" then
    let '(batch, rest) := span_digits (str_drop 5 s) in
    if batch =? "" then None
    else if rest =? "" then Some (digits_value batch, None)
    else if startsWith rest "_lane_" then
      let '(lane, tail) := span_digits (str_drop 6 rest) in
      if negb (lane =? "") && (tail =? "")
      then Some (digits_value batch, Some (digits_value lane)) else None
    else None
  else None.

Record EvolveRecordedLane := {
  er_index : nat;
  er_batchIndex : nat;
  er_stepName : string;
  er_nodeId : option Z;
  er_parent : option (list Z);
  er_stepDir : string
}.

Definition as_integer (v : jsvalue) : option Z :=
  match v with
  | VNum (JFin q as n) => if num_is_integer n then Some (Qnum (this q)) else None
  | _ => None
  end.

Definition nodeIdFromRecord (node : object jsvalue) (fallback : string) : option Z :=
  match as_integer (get_value node "id") with
  | Some n => Some n
  | None => parseInt10 fallback
  end.

Definition nodeParentFromRecord (node : object jsvalue) : option (list Z) :=
  match get_value node "parent" with
  | VArr l => Some (omap as_integer l)
  | _ => None
  end.

(** What one entry of the database says: its step name, batch and lane. *)
Definition node_step (entry : string * jsvalue) : option (object jsvalue * string * nat * option nat) :=
  node ← asRecord entry.2;
  meta ← asRecord (get_value node "meta_info");
  match get_value meta "step_name" with
  | VStr stepName =>
      '(batch, lane) ← parse_step_name stepName;
      Some (node, stepName, batch, lane)
  | _ => None
  end.

Record Scan := {
  sc_lanesByBatch : list (nat * nat);                    (** batch and lane pairs *)
  sc_recordedByStep : object EvolveRecordedLane;
  sc_highestBatch : nat
}.

Definition scan_node (runDir : string) (sc : Scan) (entry : string * jsvalue) : Scan :=
  match node_step entry with
  | None => sc
  | Some (node, stepName, batchIndex, lane) =>
      let highestBatch := Nat.max (sc_highestBatch sc) batchIndex in
      match lane with
      | None => {| sc_lanesByBatch := sc_lanesByBatch sc; sc_recordedByStep := sc_recordedByStep sc;
                   sc_highestBatch := highestBatch |}
      | Some lane =>
          {| sc_lanesByBatch := sc_lanesByBatch sc ++ [(batchIndex, lane)];
             sc_recordedByStep := obj_set (sc_recordedByStep sc) stepName
               {| er_index := lane; er_batchIndex := batchIndex; er_stepName := stepName;
                  er_nodeId := nodeIdFromRecord node entry.1; er_parent := nodeParentFromRecord node;
                  er_stepDir := runDir +:+ "/steps/" +:+ stepName |};
             sc_highestBatch := highestBatch |}
      end
  end.

Definition scan_nodes (runDir : string) (entries : object jsvalue) : Scan :=
  foldl (scan_node runDir) {| sc_lanesByBatch := []; sc_recordedByStep := []; sc_highestBatch := 0 |} entries.

(** The batch to run: the highest one when some expected lane of it is missing and some
    lane is there, or else the next. *)
Definition choose_batch (sc : Scan) (expectedLanes : list nat) : nat :=
  let highestLanes := omap (λ p, if (p.1 =? sc_highestBatch sc)%nat then Some p.2 else None)
    (sc_lanesByBatch sc) in
  if (0 <? sc_highestBatch sc)%nat && negb (bool_decide (highestLanes = []))
     && existsb (λ lane, negb (includes highestLanes lane)) expectedLanes
  then sc_highestBatch sc else S (sc_highestBatch sc).

Record FanOutDbReconstruction := {
  rc_batchIndex : nat;
  rc_recordedByLane : list (nat * EvolveRecordedLane);
  rc_missingLanes : list nat;
  rc_runDir : string
}.

Inductive FanOutDbReconstructionResult :=
| RecUnavailable
| RecReady (r : FanOutDbReconstruction)
| RecError (error : string).

Definition recorded_lane (r : FanOutDbReconstruction) (lane : nat) : option EvolveRecordedLane :=
  snd <$> List.find (λ p, (p.1 =? lane)%nat) (rc_recordedByLane r).

Definition reconstruct (runDir : string) (workers : nat) (entries : object jsvalue) :
    FanOutDbReconstruction :=
  let expectedLanes := seq 0 workers in
  let sc := scan_nodes runDir entries in
  let batchIndex := choose_batch sc expectedLanes in
  let recordedByLane := omap (λ lane,
    pair lane <$> obj_get (sc_recordedByStep sc) (evolveStepName batchIndex lane)) expectedLanes in
  {| rc_batchIndex := batchIndex; rc_recordedByLane := recordedByLane;
     rc_missingLanes := List.filter (λ lane, negb (includes recordedByLane.*1 lane)) expectedLanes;
     rc_runDir := runDir |}.

(** ** Commands of the evolve bridge *)


Definition commandFlagValue (command : list string) (flag : string) : option string :=
  match find_index (λ a, a =? flag) command with
  | Some i => command !! S i
  | None => None
  end.

Definition is_bridge_command (subcommand : string) (command : list string) : bool :=
  match evolveResultScriptIndex command with
  | Some i => bool_decide (command !! S i = Some subcommand)
  | None => false
  end.

Definition isEvolveSampleCommand : list string → bool := is_bridge_command "sample".
Definition isEvolveAttachAnalysisCommand : list string → bool := is_bridge_command "attach_analysis".

Definition sampleQueryArgs (command : list string) : list string :=
  if includes command "--query-from-spec" then ["--query-from-spec"]
  else match commandFlagValue command "--query" with Some q => ["--query"; q] | None => [] end.

Definition sampleTopKArgs (command : list string) : list string :=
  match commandFlagValue command "--top-k" with Some k => ["--top-k"; k] | None => [] end.

Definition containerPathToWorkspaceRelative (path : string) : option string :=
  let prefix := CONTAINER_WORKSPACE_DIR +:+ "/" in
  if startsWith path prefix then Some (str_drop (String.length prefix) path) else None.

(** A truthy string. *)
Definition non_empty (o : option string) : option string :=
  match o with Some s => if s =? "" then None else Some s | None => None end.

Definition evolveRunDirForFanOutSegment (definition : WorkflowDefinition) (segment : list string) :
    option string :=
  match head segment ≫= obj_get (w_states definition) with
  | Some (SDeterministic d) =>
      command ← List.find isEvolveSampleCommand (d_run d);
      commandFlagValue command "--run-dir"
  | _ => None
  end.

(** [nodesFile] gives the content of the database below a workspace-relative path. *)
Definition reconstructFanOutBatchFromDb (nodesFile : string → NodesFile)
    (definition : WorkflowDefinition) (segment : list string) (workers : nat) :
    FanOutDbReconstructionResult :=
  if (workers =? 1)%nat then RecUnavailable
  else
    match non_empty (evolveRunDirForFanOutSegment definition segment) with
    | None => RecUnavailable
    | Some runDir =>
        match non_empty (containerPathToWorkspaceRelative runDir) with
        | None => RecUnavailable
        | Some runDirRelative =>
            match readEvolveNodes (nodesFile runDirRelative) with
            | Throw error => RecError error
            | Ok entries => RecReady (reconstruct runDir workers entries)
            end
        end
    end.

Definition buildEvolveBarrierInput (stateId : string) (state : DeterministicStateDefinition)
    (sourceCommand : list string) (context : WorkflowContext)
    (suffix subcommand resultBasename : string) (extraArgs : list string) :
    option DeterministicInvokeInput :=
  scriptIndex ← evolveResultScriptIndex sourceCommand;
  runDir ← non_empty (commandFlagValue sourceCommand "--run-dir");
  let resultFile := runDir +:+ "/current/" +:+ resultBasename in
  relative ← non_empty (containerPathToWorkspaceRelative resultFile);
  Some {| dii_stateId := stateId +:+ suffix;
          dii_commands := [take (S scriptIndex) sourceCommand ++ [subcommand; "--run-dir"; runDir]
                           ++ extraArgs ++ ["--result-file"; resultFile]];
          dii_context := context; dii_container := default false (d_container state);
          dii_containerScope := d_containerScope state; dii_timeoutMs := d_timeoutMs state;
          dii_resultFile := Some relative |}.

Definition lane_flags (lanes : list nat) : list string :=
  lanes ≫= λ lane, ["--lane"; show_nat lane].

Definition buildEvolveSampleBatchInput (stateId : string) (state : DeterministicStateDefinition)
    (context : WorkflowContext) (workers : nat) (batchIndex : option nat) (lanes : list nat) :
    option DeterministicInvokeInput :=
  sampleCommand ← List.find isEvolveSampleCommand (d_run state);
  buildEvolveBarrierInput stateId state sampleCommand context "_batch" "sample_batch"
    "sample_batch.json"
    (["--workers"; show_nat workers] ++ lane_flags lanes
     ++ match batchIndex with Some b => ["--batch-index"; show_nat b] | None => [] end
     ++ sampleQueryArgs sampleCommand ++ sampleTopKArgs sampleCommand).

(** ** Results prepared for the lanes *)

Definition lane_payload (workers : nat) (expectedLanes : list nat) (v : jsvalue) :
    option (nat * object jsvalue) :=
  o ← asRecord v;
  n ← as_integer (get_value o "lane");
  if ((n <? 0) || (Z.of_nat workers <=? n))%Z || negb (includes expectedLanes (Z.to_nat n)) then None
  else Some (Z.to_nat n, o).

Definition prepareFanOutLaneResults (execute : DeterministicInvokeInput → DeterministicInvokeResult)
    (definition : WorkflowDefinition) (segment : list string) (context : WorkflowContext)
    (workers : nat) (batchIndex : option nat) (lanes : list nat) :
    result (list (nat * object DeterministicInvokeResult)) :=
  if (workers =? 1)%nat || bool_decide (lanes = []) then Ok []
  else
    match head segment ≫= λ id, pair id <$> obj_get (w_states definition) id with
    | Some (sampleStateId, SDeterministic sampleState) =>
        match buildEvolveSampleBatchInput sampleStateId sampleState context workers batchIndex lanes with
        | None => Ok []
        | Some batchInput =>
            let result := execute batchInput in
            if negb (di_passed result)
               || negb (bool_decide (di_verdict result = Some "sample_batch_prepared"))
            then Throw (default ("fan-out sample batch failed with verdict "
                                 +:+ default "unknown" (di_verdict result)) (di_errors result))
            else
              match get_value (default [] (di_payload result)) "lanes" with
              | VArr payloads =>
                  let byLane := omap (lane_payload workers lanes) payloads in
                  let missing := List.filter (λ lane, negb (includes byLane.*1 lane)) lanes in
                  match missing with
                  | [] =>
                      (** a later payload of the same lane overwrites an earlier one *)
                      Ok ((λ p, (p.1, [(sampleStateId,
                        {| di_passed := true; di_testCount := None; di_errors := None;
                           di_verdict := Some "sampled"; di_payload := Some p.2 |})])) <$> reverse byLane)
                  | _ => Throw ("fan-out sample batch omitted lane(s): "
                                +:+ str_join ", " (show_nat <$> missing))
                  end
              | _ => Throw "fan-out sample batch did not return a lanes array"
              end
        end
    | _ => Ok []
    end.

(** ** Starting the lanes *)

Definition synthesizeRecordedFanOutOutcome (context : WorkflowContext) (stateId : string)
    (segment : list string) (workers : nat) (recorded : EvolveRecordedLane) : RoundChildOutcome :=
  let base := buildFanOutLaneContext context (er_index recorded) workers None in
  let payload : object jsvalue :=
    [("step_name", VStr (er_stepName recorded)); ("idempotent_skip", VBool true)]
    ++ match er_nodeId recorded with Some n => [("node_id", VNum (num_of_Z n))] | None => [] end
    ++ match er_parent recorded with
       | Some l => [("parent", VArr ((λ n, VNum (num_of_Z n)) <$> l))] | None => [] end
    ++ [("step_dir", VStr (er_stepDir recorded))] in
  {| ro_index := er_index recorded; ro_status := Recorded;
     ro_context :=
       {| c_taskDescription := c_taskDescription base; c_lane := c_lane base;
          c_artifacts := c_artifacts base; c_round := (c_round base + 1)%Z;
          c_maxRounds := c_maxRounds base; c_previousOutputHashes := c_previousOutputHashes base;
          c_previousTestCount := c_previousTestCount base;
          c_lastDeterministicResult :=
            Some {| dr_verdict := Some "recorded"; dr_payload := Some payload |};
          c_humanPrompt := c_humanPrompt base; c_reviewHistory := c_reviewHistory base;
          c_totalTokens := c_totalTokens base; c_lastError := c_lastError base;
          c_agentConversationsByState := c_agentConversationsByState base;
          c_previousAgentOutput := c_previousAgentOutput base;
          c_previousAgentNotes := c_previousAgentNotes base;
          c_previousStateName := Some (default stateId (last segment));
          c_visitCounts := c_visitCounts base |};
     ro_drainedBy := None |}.

(** The lanes before any actor runs: recorded lanes are settled, the others wait. *)
Definition start_batch (context : WorkflowContext) (stateId : string) (segment : list string)
    (workers : nat) (recorded : nat → option EvolveRecordedLane)
    (prepared : nat → option (object DeterministicInvokeResult)) : Batch :=
  {| bt_lanes := (λ index,
       match recorded index with
       | Some r =>
           let outcome := synthesizeRecordedFanOutOutcome context stateId segment workers r in
           {| ln_index := index; ln_context := ro_context outcome; ln_outcome := Some outcome;
              ln_synthesized := true |}
       | None =>
           {| ln_index := index;
              ln_context := buildFanOutLaneContext context index workers (prepared index);
              ln_outcome := None; ln_synthesized := false |}
       end) <$> seq 0 workers;
     bt_drainTrigger := None |}.

(** ** Around the lanes *)

Section segment.
Variable execute : DeterministicInvokeInput → DeterministicInvokeResult.
Variable nodesFile : string → NodesFile.
Variable definition : WorkflowDefinition.

(** The scopes a segment's container members run in. *)
Definition segment_scopes (segment : list string) : list string :=
  js_set (segment ≫= λ memberId,
    match obj_get (w_states definition) memberId with
    | Some (SAgent a) => [default DEFAULT_CONTAINER_SCOPE (a_containerScope a)]
    | Some (SDeterministic d) =>
        if default false (d_container d) then [default DEFAULT_CONTAINER_SCOPE (d_containerScope d)] else []
    | _ => []
    end).

(** [preMintFanOutScopeBundle]: the scope to mint, or the error of a segment that spans
    several. *)
Definition preMintScope (usesSharedContainer : bool) (fanOutStateId : string) (segment : list string) :
    result (option string) :=
  if negb usesSharedContainer then Ok None
  else
    match segment_scopes segment with
    | [] => Ok None
    | [scope] => Ok (Some scope)
    | scopes => Throw ("fan-out state " +:+ quoted fanOutStateId +:+ " spans multiple container scopes ("
                       +:+ str_join ", " scopes
                       +:+ "); multi-scope fan-out is out of scope for this implementation slice.")
    end.

(** How [runFanOutSegment] starts: with an error result, by throwing, or with the
    lanes, after the scope to mint. *)
Inductive SegmentStart :=
| StartError (message : string)
| StartThrows (message : string)
| StartBatch (mint : option string) (workers : nat) (batch : Batch).

Definition start_segment (usesSharedContainer : bool) (stateId : string) (x : ExecutableView)
    (context : WorkflowContext) (hasRoundMachine : bool) : SegmentStart :=
  match x_fanOut x, default [] (x_segment x) with
  | None, _ | _, [] =>
      StartError ("State " +:+ quoted stateId +:+ " is not a configured fan-out segment.")
  | Some fanOut, (_ :: _) as segment =>
      let workers := resolveFanOutWorkers fanOut (w_settings definition) in
      if (workers <? 1)%Z
      then StartError ("State " +:+ quoted stateId +:+ " resolved to invalid worker count "
                       +:+ show_Z workers +:+ ".")
      else if negb hasRoundMachine
      then StartError ("No child round machine is registered for fan-out state "
                       +:+ quoted stateId +:+ ".")
      else
        match preMintScope usesSharedContainer stateId segment with
        | Throw message => StartThrows message
        | Ok mint =>
            let workers := Z.to_nat workers in
            match reconstructFanOutBatchFromDb nodesFile definition segment workers with
            | RecError error => StartError error
            | reconstruction =>
                let missingLanes := match reconstruction with
                  | RecReady r => rc_missingLanes r | _ => seq 0 workers end in
                let batchIndex := match reconstruction with
                  | RecReady r => if bool_decide (rc_recordedByLane r = []) then None
                                  else Some (rc_batchIndex r)
                  | _ => None end in
                match prepareFanOutLaneResults execute definition segment context workers batchIndex
                        missingLanes with
                | Throw error => StartError error
                | Ok prepared =>
                    StartBatch mint workers (start_batch context stateId segment workers
                      (λ lane, match reconstruction with
                               | RecReady r => recorded_lane r lane | _ => None end)
                      (λ lane, snd <$> List.find (λ p, (p.1 =? lane)%nat) prepared))
                end
            end
        end
  end.

(** [findEvolveAttachAnalysisState] *)
Fixpoint findEvolveAttachAnalysisState (segment : list string) :
    option (string * DeterministicStateDefinition * list string) :=
  match segment with
  | [] => None
  | stateId :: segment =>
      match obj_get (w_states definition) stateId with
      | Some (SDeterministic d) =>
          match List.find isEvolveAttachAnalysisCommand (d_run d) with
          | Some command => Some (stateId, d, command)
          | None => findEvolveAttachAnalysisState segment
          end
      | _ => findEvolveAttachAnalysisState segment
      end
  end.

(** The lanes of the recorded children, in ascending order. *)
Definition recorded_lanes (children : list RoundChildOutcome) : list nat :=
  merge_sort le (omap (λ c, lane_id <$> c_lane (ro_context c))
    (List.filter (λ c, ro_status c =? Recorded) children)).

Definition step_failed (wanted : string) (what : string) (result : DeterministicInvokeResult) :
    option string :=
  if di_passed result && bool_decide (di_verdict result = Some wanted) then None
  else Some (default (what +:+ " failed with verdict " +:+ default "unknown" (di_verdict result))
               (di_errors result)).

(** [promoteBarrierCognition]: the payload to add, or an error. *)
Definition promoteBarrierCognition (segment : list string) (context : WorkflowContext)
    (children : list RoundChildOutcome) : result (option (option (object jsvalue))) :=
  match recorded_lanes children with
  | [] => Throw "fan-out cognition promotion had no recorded lanes to promote"
  | lanes =>
      match findEvolveAttachAnalysisState segment with
      | None => Ok None
      | Some (stateId, state, command) =>
          match buildEvolveBarrierInput stateId state command context "_promote_cognition"
                  "promote_cognition" "cognition_promotion.json" (lane_flags lanes) with
          | None => Ok None
          | Some input =>
              let result := execute input in
              match step_failed "cognition_promoted" "barrier cognition promotion" result with
              | Some error => Throw error
              | None => Ok (Some (di_payload result))
              end
          end
      end
  end.

Definition computeBarrierStopSignals (segment : list string) (context : WorkflowContext) :
    option string :=
  match head segment ≫= λ id, pair id <$> obj_get (w_states definition) id with
  | Some (stateId, SDeterministic state) =>
      match List.find isEvolveSampleCommand (d_run state) ≫= λ sampleCommand,
              buildEvolveBarrierInput stateId state sampleCommand context "_stop_signals"
                "compute_stop_signals" "stop_signals_compute.json" [] with
      | None => None
      | Some input =>
          step_failed "stop_signals_computed" "barrier stop_signals computation" (execute input)
      end
  | _ => None
  end.

Definition with_payload (r : FanOutInvokeResult) (payload : object jsvalue) : FanOutInvokeResult :=
  let d := fo_result r in
  {| fo_result := {| di_passed := di_passed d; di_testCount := di_testCount d;
       di_errors := di_errors d; di_verdict := di_verdict d;
       di_payload := Some (obj_set (default [] (di_payload d)) "cognition_promotion" (VObj payload)) |};
     fo_context := fo_context r; fo_children := fo_children r |}.

(** The result of the segment, once every lane has settled. *)
Definition finish_segment (tokens : Z) (stateId : string) (segment : list string)
    (context : WorkflowContext) (workers : nat) (first : RoundChildOutcome)
    (rest : list RoundChildOutcome) : FanOutInvokeResult :=
  let result := joinFanOutBatch tokens context stateId first rest in
  if (1 <? workers)%nat && bool_decide (di_verdict (fo_result result) = Some "recorded") then
    match promoteBarrierCognition segment (fo_context result) (first :: rest) with
    | Throw error => fanOutErrorResult context error
    | Ok promotion =>
        let result := match promotion with
          | Some (Some payload) => with_payload result payload
          | _ => result
          end in
        match computeBarrierStopSignals segment context with
        | Some error => fanOutErrorResult context error
        | None => result
        end
    end
  else result.

End segment.

(** * The barrier of a fan-out

    The invariant of the waiters: before a lane fails, every settled lane recorded;
    when the first lane fails, its peers settle with it, so a batch has at most one
    blocked or errored lane.  The merge of recorded lanes. *)

(** ** The invariant *)

(** What a settled lane may be, given the trigger of the batch. *)
Definition outcome_ok (trigger : option DrainTrigger) (i : nat) (o : RoundChildOutcome) : Prop :=
  ro_index o = i ∧
  match trigger with
  | None => ro_status o = Recorded ∧ ro_drainedBy o = None
  | Some t =>
      if decide (i = dt_index t)
      then ro_status o = dt_status t ∧ ro_drainedBy o = None ∧ ro_context o = dt_context t
      else (ro_status o = Recorded ∧ ro_drainedBy o = None)
           ∨ (ro_status o = Drained ∧ ro_drainedBy o =
                Some {| db_index := dt_index t; db_status := dt_status t; db_reason := dt_reason t |})
  end.

Definition trigger_ok (t : DrainTrigger) : Prop :=
  is_issue (dt_status t) = true
  ∧ dt_reason t = roundChildReason (dt_index t) (dt_status t) (dt_context t).

Record batch_inv (b : Batch) : Prop := {
  bi_index : ∀ i l, bt_lanes b !! i = Some l → ln_index l = i;
  bi_synthesized : ∀ i l, bt_lanes b !! i = Some l → ln_synthesized l = true → isSettled l = true;
  bi_outcome : ∀ i l o, bt_lanes b !! i = Some l → ln_outcome l = Some o →
    outcome_ok (bt_drainTrigger b) i o;
  bi_trigger : ∀ t, bt_drainTrigger b = Some t →
    trigger_ok t ∧ is_Some (bt_lanes b !! dt_index t)
    ∧ ∀ i l, bt_lanes b !! i = Some l → isSettled l = true;
}.

Lemma isSettled_spec l : isSettled l = true ↔ is_Some (ln_outcome l).
Proof. unfold isSettled. by rewrite bool_decide_eq_true. Qed.

Lemma start_batch_inv c stateId segment workers recorded prepared :
  (∀ i r, recorded i = Some r → er_index r = i) →
  batch_inv (start_batch c stateId segment workers recorded prepared).
Proof.
  intros Hr. unfold start_batch.
  assert (Hget : ∀ i l, bt_lanes (start_batch c stateId segment workers recorded prepared) !! i = Some l →
    ln_index l = i ∧ match recorded i with
    | Some r => ln_outcome l = Some (synthesizeRecordedFanOutOutcome c stateId segment workers r)
    | None => ln_outcome l = None ∧ ln_synthesized l = false end).
  { intros i l. unfold start_batch. csimpl. rewrite list_lookup_fmap.
    intros (k & [-> Hk]%lookup_seq & ->)%fmap_Some. csimpl. by destruct (recorded i). }
  split; csimpl; try done.
  - intros i l Hl. by apply Hget.
  - intros i l Hl Hs. apply isSettled_spec. destruct (Hget i l Hl) as [_ H].
    destruct (recorded i); [by eexists|destruct H; congruence].
  - intros i l o Hl Ho. destruct (Hget i l Hl) as [_ H]. destruct (recorded i) as [r|] eqn:E.
    + rewrite H in Ho. simplify_eq. split; [csimpl; by apply Hr|done].
    + destruct H. congruence.
Qed.

(** Settling one lane as an issue settles the whole batch. *)
Lemma requestDrain_inv b i l o :
  batch_inv b → bt_drainTrigger b = None → bt_lanes b !! i = Some l → ln_outcome l = None →
  ro_index o = i → is_issue (ro_status o) = true → ro_drainedBy o = None →
  let t := {| dt_index := i; dt_status := ro_status o; dt_context := ro_context o;
              dt_reason := roundChildReason i (ro_status o) (ro_context o) |} in
  batch_inv (requestDrain t {| bt_lanes := <[i := settle o l]> (bt_lanes b); bt_drainTrigger := None |}).
Proof.
  intros [Hidx Hsyn Hout Htr] Hnone Hl Hlo Hoi Hissue Hdb t. unfold requestDrain. csimpl.
  set (lanes := <[i := settle o l]> (bt_lanes b)).
  assert (Hcase : ∀ j l', lanes !! j = Some l' →
    (j = i ∧ l' = settle o l) ∨ (j ≠ i ∧ bt_lanes b !! j = Some l')).
  { intros j l' Hj. unfold lanes in Hj. destruct (decide (j = i)) as [->|].
    - rewrite list_lookup_insert_eq in Hj by (by eapply lookup_lt_Some). left. by simplify_eq.
    - rewrite list_lookup_insert_ne in Hj by done. by right. }
  assert (Hln : ∀ j l', lanes !! j = Some l' → ln_index l' = j).
  { intros j l' [[-> ->]|[_ Hj]]%Hcase; [by csimpl; apply Hidx|by apply Hidx]. }
  set (g := λ l0, if ln_synthesized l0 || (ln_index l0 =? i) || isSettled l0 then l0 else drain t l0).
  assert (Hg : ∀ l0, ln_index (g l0) = ln_index l0 ∧ ln_synthesized (g l0) = ln_synthesized l0).
  { intros l0. unfold g, drain. repeat case_match; done. }
  assert (Hset : ∀ j l', lanes !! j = Some l' → isSettled (g l') = true).
  { intros j l' Hj. unfold g. destruct (isSettled l') eqn:Hs; [by rewrite orb_true_r|].
    rewrite orb_false_r. destruct (Hcase j l' Hj) as [[-> ->]|[Hne Hj']].
    { by rewrite isSettled_spec in Hs || (unfold isSettled in Hs; csimpl in Hs). }
    destruct (ln_synthesized l') eqn:Hsy; [by rewrite (Hsyn j l' Hj' Hsy) in Hs|]. csimpl.
    rewrite (Hln j l' Hj), bool_decide_eq_false_2 by done.
    unfold drain. rewrite Hs. apply isSettled_spec. csimpl. by eexists. }
  split; csimpl.
  - intros j l'. rewrite list_lookup_fmap. intros (l0 & Hj & ->)%fmap_Some.
    fold (g l0). rewrite (proj1 (Hg l0)). by apply Hln.
  - intros j l'. rewrite list_lookup_fmap. intros (l0 & Hj & ->)%fmap_Some _.
    fold (g l0). by eapply Hset.
  - intros j l' o'. rewrite list_lookup_fmap. intros (l0 & Hj & ->)%fmap_Some Ho'.
    fold (g l0) in Ho'. unfold outcome_ok. csimpl. destruct (Hcase j l0 Hj) as [[-> ->]|[Hne Hj']].
    + assert (g (settle o l) = settle o l) as Hge.
      { unfold g. csimpl. rewrite (Hidx i l Hl), bool_decide_eq_true_2 by done.
        by rewrite orb_true_r. }
      rewrite Hge in Ho'. csimpl in Ho'. simplify_eq. by rewrite decide_True by done.
    + rewrite decide_False by done. unfold g in Ho'. destruct (isSettled l0) eqn:Hs.
      * rewrite orb_true_r in Ho'. destruct (Hout j l0 o' Hj' Ho') as [Hi Hok].
        rewrite Hnone in Hok. split; [done|by left].
      * destruct (ln_synthesized l0) eqn:Hsy; [by rewrite (Hsyn j l0 Hj' Hsy) in Hs|].
        rewrite (Hln j l0 Hj), (bool_decide_eq_false_2 (j = i)) in Ho' by done. csimpl in Ho'.
        unfold drain in Ho'. rewrite Hs in Ho'. csimpl in Ho'. simplify_eq. csimpl.
        split; [by apply Hidx|by right].
  - intros t' [= <-]. split; [by split|]. split.
    + csimpl. rewrite list_lookup_fmap. unfold lanes.
      rewrite list_lookup_insert_eq by (by eapply lookup_lt_Some). by eexists.
    + intros j l'. rewrite list_lookup_fmap. intros (l0 & Hj & ->)%fmap_Some. fold (g l0). by eapply Hset.
Qed.

(** A lane that settles without an issue. *)
Lemma settle_inv b i l o :
  batch_inv b → bt_drainTrigger b = None → bt_lanes b !! i = Some l → ro_index o = i →
  ro_status o = Recorded → ro_drainedBy o = None →
  batch_inv {| bt_lanes := <[i := settle o l]> (bt_lanes b); bt_drainTrigger := None |}.
Proof.
  intros [Hidx Hsyn Hout Htr] Hnone Hl Hoi Hst Hdb.
  assert (Hlt : i < length (bt_lanes b)) by (by eapply lookup_lt_Some).
  split; csimpl; try done; intros j l'; (destruct (decide (j = i)) as [->|];
    [rewrite list_lookup_insert_eq by done; intros; simplify_eq|rewrite list_lookup_insert_ne by done]).
  - csimpl. by apply Hidx.
  - by apply Hidx.
  - apply isSettled_spec. by eexists.
  - by apply Hsyn.
  - csimpl in *. by simplify_eq.
  - intros o' Hj Ho'. pose proof (Hout j l' o' Hj Ho') as H. by rewrite Hnone in H.
Qed.

Lemma observe_inv i snap b : batch_inv b → batch_inv (observe i snap b).
Proof.
  intros Hb. unfold observe. destruct (bt_lanes b !! i) as [l|] eqn:Hl; [|done].
  destruct (isSettled l || ln_synthesized l) eqn:Hs; [done|]. apply orb_false_iff in Hs as [Hs Hsy].
  assert (Hlo : ln_outcome l = None).
  { destruct (ln_outcome l) eqn:E; [|done]. unfold isSettled in Hs. by rewrite E in Hs. }
  assert (Htn : bt_drainTrigger b = None).
  { destruct (bt_drainTrigger b) as [t|] eqn:Ht; [|done].
    destruct (bi_trigger b Hb t Ht) as (_ & _ & Hall). by rewrite (Hall i l Hl) in Hs. }
  assert (Hfin : ∀ o, ro_index o = i → ro_drainedBy o = None → ro_status o ≠ Drained → batch_inv (finish i o b)).
  { intros o Hoi Hdb Hnd. unfold finish. rewrite Hl, Hs. csimpl. rewrite Htn.
    destruct (is_issue (ro_status o)) eqn:Hi.
    - rewrite Hoi. by eapply requestDrain_inv.
    - apply settle_inv; try done. by destruct (ro_status o). }
  pose proof (bi_index b Hb i l Hl) as Hidx. destruct snap as [c|value c|c].
  - destruct Hb as [Hi Hsyn Hout Htr]. rewrite Htn.
    assert (Hlt : i < length (bt_lanes b)) by (by eapply lookup_lt_Some).
    split; csimpl; try done; intros j l'; (destruct (decide (j = i)) as [->|];
      [rewrite list_lookup_insert_eq by done; intros; simplify_eq; csimpl in *|
       rewrite list_lookup_insert_ne by done]); try done; try by auto.
    + congruence.
    + by apply Hsyn.
    + congruence.
    + intros o' Hj Ho'. pose proof (Hout j l' o' Hj Ho') as H. by rewrite Htn in H.
  - apply Hfin; [done|done|]. csimpl. unfold toRoundChildStatus. repeat case_match; done.
  - by apply Hfin.
Qed.

Lemma batch_steps_inv b b' : batch_inv b → batch_steps b b' → batch_inv b'.
Proof. intros Hb. induction 1; auto using observe_inv. Qed.

(** A settled outcome is final. *)
Lemma observe_settled i snap b j l o :
  batch_inv b → bt_lanes b !! j = Some l → ln_outcome l = Some o →
  ∃ l', bt_lanes (observe i snap b) !! j = Some l' ∧ ln_outcome l' = Some o.
Proof.
  intros Hb Hj Ho. assert (Hsj : isSettled l = true) by (apply isSettled_spec; by eexists).
  unfold observe. destruct (bt_lanes b !! i) as [li|] eqn:Hi; [|by exists l].
  destruct (isSettled li || ln_synthesized li) eqn:Hs; [by exists l|].
  apply orb_false_iff in Hs as [Hs _].
  assert (Hij : i ≠ j) by (intros ->; congruence).
  assert (Hset : ∀ o', bt_lanes {| bt_lanes := <[i := settle o' li]> (bt_lanes b);
      bt_drainTrigger := bt_drainTrigger b |} !! j = Some l)
    by (intros; csimpl; by rewrite list_lookup_insert_ne).
  assert (Hfin : ∀ o', ∃ l', bt_lanes (finish i o' b) !! j = Some l' ∧ ln_outcome l' = Some o).
  { intros o'. unfold finish. rewrite Hi, Hs. destruct (is_issue (ro_status o')); [|by exists l].
    unfold requestDrain. csimpl. destruct (bt_drainTrigger b); csimpl.
    - exists l. split; [|done]. by rewrite list_lookup_insert_ne.
    - exists l. split; [|done]. rewrite list_lookup_fmap, list_lookup_insert_ne, Hj by done. csimpl.
      by rewrite Hsj, orb_true_r. }
  destruct snap as [c|value c|c]; [|apply Hfin..]. exists l. csimpl. split; [|done].
  by rewrite list_lookup_insert_ne.
Qed.

(** ** The join of a settled batch *)

Definition batch_outcomes (b : Batch) : list RoundChildOutcome := omap ln_outcome (bt_lanes b).
Definition batch_settled (b : Batch) : Prop := Forall (λ l, isSettled l = true) (bt_lanes b).

Lemma settled_outcomes lanes :
  Forall (λ l, isSettled l = true) lanes →
  Forall2 (λ l o, ln_outcome l = Some o) lanes (omap ln_outcome lanes).
Proof.
  induction 1 as [|l lanes Hl _ IH]; csimpl; [constructor|].
  apply isSettled_spec in Hl as [o Ho]. rewrite Ho. by constructor.
Qed.

Lemma outcome_lookup b i o :
  batch_inv b → batch_settled b → batch_outcomes b !! i = Some o →
  outcome_ok (bt_drainTrigger b) i o.
Proof.
  intros Hb Hs Hi. destruct (Forall2_lookup_r _ _ _ _ _ (settled_outcomes _ Hs) Hi) as (l & Hl & Ho).
  by eapply (bi_outcome b Hb).
Qed.

Lemma filter_single {A} (f : A → bool) (l : list A) k x :
  l !! k = Some x → (∀ i y, l !! i = Some y → f y = true ↔ i = k) → List.filter f l = [x].
Proof.
  revert k. induction l as [|y l IH]; intros k Hk Hf; [done|]. csimpl. destruct k as [|k].
  - csimpl in Hk. simplify_eq. rewrite (proj2 (Hf 0 x eq_refl)) by done. f_equal.
    assert (Hnil : ∀ z, z ∈ l → f z = false).
    { intros z [i Hz]%list_elem_of_lookup. apply not_true_iff_false. intros Hfz.
      apply (Hf (S i) z Hz) in Hfz. done. }
    clear -Hnil. induction l as [|z l IH]; csimpl; [done|]. rewrite Hnil by by left.
    apply IH. intros w Hw. apply Hnil. by right.
  - rewrite (not_true_is_false (f y)).
    2: { intros Hfy. by apply (Hf 0 y eq_refl) in Hfy. }
    apply (IH k); [done|]. intros i z Hz. rewrite (Hf (S i) z Hz). lia.
Qed.

Lemma filter_none_bool {A} (f : A → bool) (l : list A) :
  (∀ x, x ∈ l → f x = false) → List.filter f l = [].
Proof.
  intros H. induction l as [|x l IH]; csimpl; [done|]. rewrite H by by left. apply IH. set_solver.
Qed.

Lemma settled_length b : batch_settled b → length (batch_outcomes b) = length (bt_lanes b).
Proof. intros Hs. symmetry. by apply (Forall2_length _ _ _ (settled_outcomes _ Hs)). Qed.

Lemma observe_length i snap b : length (bt_lanes (observe i snap b)) = length (bt_lanes b).
Proof.
  unfold observe, finish, requestDrain.
  repeat (case_match; csimpl; rewrite ?length_fmap, ?length_insert; try done).
Qed.

Lemma batch_steps_length b b' : batch_steps b b' → length (bt_lanes b') = length (bt_lanes b).
Proof. induction 1; [done|]. by rewrite observe_length. Qed.

(** The issues of a settled batch: none, or the trigger's. *)
Lemma batch_issues b :
  batch_inv b → batch_settled b →
  fanOutIssues (batch_outcomes b) =
    match bt_drainTrigger b with
    | None => []
    | Some t => [{| is_index := dt_index t; is_status := dt_status t; is_reason := dt_reason t |}]
    end.
Proof.
  intros Hb Hs. unfold fanOutIssues. destruct (bt_drainTrigger b) as [t|] eqn:Ht.
  - destruct (bi_trigger b Hb t Ht) as ((Hissue & Hreason) & [lt Hlt] & _).
    destruct (Forall2_lookup_l _ _ _ _ _ (settled_outcomes _ Hs) Hlt) as (o & Ho & _).
    pose proof (outcome_lookup b _ _ Hb Hs Ho) as [Hoi Hok]. rewrite Ht in Hok.
    rewrite decide_True in Hok by done. destruct Hok as (Hst & _ & Hctx).
    rewrite (filter_single _ (batch_outcomes b) (dt_index t) o); [csimpl|done|].
    + rewrite Hoi, Hst, Hctx. do 2 f_equal. by rewrite Hreason.
    + intros i o' Hi. pose proof (outcome_lookup b _ _ Hb Hs Hi) as [_ Hok]. rewrite Ht in Hok.
      destruct (decide (i = dt_index t)) as [->|Hne].
      * destruct Hok as (-> & _). naive_solver.
      * destruct Hok as [[-> _]|[-> _]]; naive_solver.
  - rewrite filter_none_bool; [done|]. intros o [i Hi]%list_elem_of_lookup.
    pose proof (outcome_lookup b _ _ Hb Hs Hi) as [_ Hok]. rewrite Ht in Hok. by destruct Hok as [-> _].
Qed.

Lemma batch_drained b o :
  batch_inv b → batch_settled b → bt_drainTrigger b = None → o ∈ batch_outcomes b → ro_status o = Recorded.
Proof.
  intros Hb Hs Ht [i Hi]%list_elem_of_lookup.
  pose proof (outcome_lookup b _ _ Hb Hs Hi) as [_ Hok]. rewrite Ht in Hok. by destruct Hok.
Qed.

(** ** The merge of recorded lanes *)

Lemma insert_last c l : Forall (λ c', ro_index c' ≤ ro_index c) l → insert_by_index c l = l ++ [c].
Proof.
  induction 1 as [|c' l Hc _ IH]; csimpl; [done|]. rewrite (proj2 (Nat.leb_le _ _) Hc). by rewrite IH.
Qed.

Lemma sort_sorted l acc :
  StronglySorted (λ a b, ro_index a ≤ ro_index b) (acc ++ l) →
  foldl (λ acc c, insert_by_index c acc) acc l = acc ++ l.
Proof.
  revert acc. induction l as [|c l IH]; intros acc Hs; csimpl; [by rewrite app_nil_r|].
  assert (Hacc : Forall (λ c', ro_index c' ≤ ro_index c) acc).
  { clear IH. induction acc as [|a acc IH]; constructor.
    - csimpl in Hs. apply StronglySorted_inv in Hs as [_ Hs]. rewrite Forall_forall in Hs.
      apply Hs. set_solver.
    - apply IH. csimpl in Hs. by apply StronglySorted_inv in Hs as [? _]. }
  rewrite insert_last by done. rewrite IH; rewrite <-app_assoc; done.
Qed.

(** The lanes of a batch are in order. *)
Lemma outcomes_sorted l :
  (∀ i o, l !! i = Some o → ro_index o = i) → sort_by_index l = l.
Proof.
  intros Hl. apply (sort_sorted l []). csimpl.
  assert (Hgen : ∀ l k, (∀ i o, l !! i = Some o → ro_index o = k + i) →
    StronglySorted (λ a b, ro_index a ≤ ro_index b) l).
  { clear. intros l. induction l as [|c l IH]; intros k Hl; constructor.
    - apply (IH (S k)). intros i o Hi. rewrite (Hl (S i) o Hi). lia.
    - apply Forall_forall. intros o [i Hi]%list_elem_of_lookup.
      rewrite (Hl 0 c eq_refl), (Hl (S i) o Hi). lia. }
  by apply (Hgen l 0).
Qed.

Lemma foldl_merge_get {A} (f : WorkflowContext → object A) l acc k :
  Forall (λ c, obj_wf (f (ro_context c))) l →
  obj_get (foldl (λ acc c, obj_merge acc (f (ro_context c))) acc l) k =
  match last (omap (λ c, obj_get (f (ro_context c)) k) l) with
  | Some v => Some v | None => obj_get acc k
  end.
Proof.
  intros Hwf. revert acc. induction Hwf as [|c l Hc Hl IH]; intros acc; [done|]. csimpl.
  rewrite IH, obj_get_merge by done.
  destruct (obj_get (f (ro_context c)) k) as [v|]; [|done].
  rewrite last_cons. by destruct (last _).
Qed.

Lemma mergedReviewHistory_spec parent l acc :
  foldl (λ acc c,
    let h := c_reviewHistory (ro_context c) in
    if (length (c_reviewHistory parent) <? length h)%nat
    then acc ++ drop (length (c_reviewHistory parent)) h else acc) acc l =
  acc ++ (l ≫= λ c, drop (length (c_reviewHistory parent)) (c_reviewHistory (ro_context c))).
Proof.
  revert acc. induction l as [|c l IH]; intros acc; csimpl; [by rewrite app_nil_r|].
  rewrite IH. destruct (_ <? _)%nat eqn:Hlt; [by rewrite app_assoc|].
  apply Nat.ltb_ge in Hlt. by rewrite (drop_ge (c_reviewHistory (ro_context c))).
Qed.

Lemma roundDelta_spec parent l :
  roundDelta parent l = foldr Z.add 0%Z ((λ c, Z.max 0 (c_round (ro_context c) - c_round parent)%Z) <$> l).
Proof.
  unfold roundDelta.
  assert (Hgen : ∀ z, foldl (λ sum c, (sum + Z.max 0 (c_round (ro_context c) - c_round parent))%Z) z l =
    (z + foldr Z.add 0 ((λ c, Z.max 0 (c_round (ro_context c) - c_round parent)%Z) <$> l))%Z); [|by rewrite Hgen].
  induction l as [|c l IH]; intros z; csimpl; [lia|]. rewrite IH. lia.
Qed.

(** ** The join *)

(** What the join answers when lane [t] was the first to fail. *)
Definition failed_join (t : DrainTrigger) (r : FanOutInvokeResult) : Prop :=
  let blocked := bool_decide (dt_status t = Blocked) in
  let issue := {| is_index := dt_index t; is_status := dt_status t; is_reason := dt_reason t |} in
  di_passed (fo_result r) = false
  ∧ di_verdict (fo_result r) =
      Some (if blocked then "escalate" else DETERMINISTIC_RESULT_ERROR_VERDICT)
  ∧ di_errors (fo_result r) =
      Some (formatFanOutIssues (if blocked then ESCALATED_HEADER else FAILED_HEADER) [issue]).

(** The join of a settled batch follows its trigger. *)
Lemma join_of_batch tokens c stateId b first rest :
  batch_inv b → batch_settled b → batch_outcomes b = first :: rest →
  let r := joinFanOutBatch tokens c stateId first rest in
  match bt_drainTrigger b with
  | None => di_passed (fo_result r) = true ∧ di_verdict (fo_result r) = Some "recorded"
      ∧ Forall (λ o, ro_status o = Recorded) (first :: rest)
  | Some t => failed_join t r
  end.
Proof.
  intros Hb Hs Hout r. pose proof (batch_issues b Hb Hs) as Hi. rewrite Hout in Hi.
  unfold r, joinFanOutBatch. cbv zeta. rewrite Hi. destruct (bt_drainTrigger b) as [t|] eqn:Ht.
  - destruct (bi_trigger b Hb t Ht) as ([Hst _] & _). unfold failed_join. csimpl.
    destruct (dt_status t); done.
  - cbn [existsb]. assert (Hall : Forall (λ o, ro_status o = Recorded) (first :: rest)).
    { apply Forall_forall. intros o Ho. rewrite <-Hout in Ho. by apply (batch_drained b o). }
    destruct (find_status Drained (first :: rest)) as [o|] eqn:Hf; [exfalso|by repeat split].
    apply find_some in Hf as [Hin Hdr]. apply list_elem_of_In in Hin.
    rewrite Forall_forall in Hall. by rewrite (Hall o Hin) in Hdr.
Qed.

(** * Step names and the reconstruction of a batch

    The step names that the bridge writes parse back to their batch and lane, and the
    reconstruction of an interrupted batch splits its lanes: recorded lanes belong to
    the batch it resumes, the others are run. *)

(** ** Decimal digits *)

Definition digits_from (n : nat) (s : string) : nat :=
  foldl (λ n a, 10 * n + (nat_of_ascii a - 48)) n (chars s).

Lemma pretty_char (d : N) :
  (d < 10)%N → is_digit (pretty_N_char d) = true ∧ nat_of_ascii (pretty_N_char d) - 48 = N.to_nat d.
Proof.
  intros Hd. assert (d ∈ [0; 1; 2; 3; 4; 5; 6; 7; 8; 9]%N) as Hin.
  { rewrite !elem_of_cons. lia. }
  rewrite !elem_of_cons, elem_of_nil in Hin. destruct_or?; subst; try done; by vm_compute.
Qed.

Lemma pretty_go_digits x s :
  digits_from 0 (pretty_N_go x s) = digits_from (N.to_nat x) s
  ∧ str_forallb is_digit (pretty_N_go x s) = str_forallb is_digit s.
Proof.
  revert s. induction (N.lt_wf_0 x) as [x _ IH]; intros s.
  destruct (decide (x = 0%N)) as [->|Hx]; [by rewrite pretty_N_go_0|].
  rewrite pretty_N_go_step by lia.
  assert (Hm : (x mod 10 < 10)%N) by (apply N.mod_lt; lia).
  destruct (pretty_char _ Hm) as [Hdig Hval].
  destruct (IH (x `div` 10)%N (ltac:(apply N.div_lt; lia)) (String (pretty_N_char (x mod 10)) s)) as [H1 H2].
  split.
  - rewrite H1. unfold digits_from at 1. csimpl. rewrite Hval. unfold digits_from. f_equal.
    pose proof (N.div_mod x 10). lia.
  - rewrite H2. csimpl. by rewrite Hdig.
Qed.

Lemma show_nat_digits n :
  digits_value (show_nat n) = n ∧ str_forallb is_digit (show_nat n) = true ∧ show_nat n ≠ "".
Proof.
  unfold show_nat, pretty, pretty_nat, pretty, pretty_N.
  destruct (decide (N.of_nat n = 0%N)) as [H0|Hn].
  { assert (n = 0) as -> by lia. done. }
  destruct (pretty_go_digits (N.of_nat n) "") as [H1 H2]. split; [|split; [done|]].
  - change (digits_from 0 (pretty_N_go (N.of_nat n) "") = n). rewrite H1.
    change (N.to_nat (N.of_nat n) = n). lia.
  - intros He. rewrite He in H1. change (0 = N.to_nat (N.of_nat n)) in H1. lia.
Qed.

Lemma show_nat_inj n m : show_nat n = show_nat m → n = m.
Proof.
  intros H. destruct (show_nat_digits n) as [<- _], (show_nat_digits m) as [<- _]. by rewrite H.
Qed.

Lemma zeros_digits k s :
  digits_value (zeros k +:+ s) = digits_value s
  ∧ str_forallb is_digit (zeros k +:+ s) = str_forallb is_digit s.
Proof. induction k as [|k IH]; [done|]. cbn [zeros]. rewrite str_app_cons. csimpl. done. Qed.

Lemma span_digits_app d s :
  str_forallb is_digit d = true → match s with String a _ => is_digit a = false | "" => True end →
  span_digits (d +:+ s) = (d, s).
Proof.
  intros Hd Hs. induction d as [|a d IH].
  - change ("" +:+ s) with s. destruct s as [|a s]; [done|]. csimpl. by rewrite Hs.
  - cbn [str_forallb] in Hd. bool_hyps. rewrite str_app_cons. cbn [span_digits].
    rewrite H, IH by done. done.
Qed.

(** The name of a step parses back. *)
Lemma parse_evolveStepName batch lane :
  parse_step_name (evolveStepName batch lane) = Some (batch, Some lane).
Proof.
  unfold evolveStepName, parse_step_name.
  destruct (show_nat_digits batch) as (Hb1 & Hb2 & Hb3). destruct (show_nat_digits lane) as (Hl1 & Hl2 & Hl3).
  set (padded := padStart0 EVOLVE_STEP_INDEX_WIDTH (show_nat batch)).
  assert (Hp : digits_value padded = batch ∧ str_forallb is_digit padded = true ∧ padded ≠ "").
  { unfold padded, padStart0. destruct (zeros_digits (EVOLVE_STEP_INDEX_WIDTH - String.length (show_nat batch))
      (show_nat batch)) as [H1 H2]. rewrite H1, H2. split; [done|]. split; [done|].
    intros He. apply (f_equal String.length) in He. rewrite str_length_app in He.
    destruct (show_nat batch); [done|]. csimpl in He. lia. }
  destruct Hp as (Hp1 & Hp2 & Hp3). clearbody padded.
  rewrite startsWith_app. rewrite (str_drop_app "step_").
  rewrite span_digits_app by done. rewrite bool_decide_eq_false_2 by done.
  rewrite bool_decide_eq_false_2 by (rewrite str_app_cons; done).
  rewrite startsWith_app. rewrite (str_drop_app "_lane_").
  pose proof (span_digits_app (show_nat lane) "" Hl2 I) as Hlane. rewrite str_app_nil_r in Hlane.
  rewrite Hlane. rewrite bool_decide_eq_false_2 by done. csimpl. by rewrite Hp1, Hl1.
Qed.

(** ** The scan of the database *)

(** What a scan has collected: every recorded step carries its own name, batch and lane. *)
Record scan_inv (sc : Scan) : Prop := {
  si_step : ∀ name r, obj_get (sc_recordedByStep sc) name = Some r →
    er_stepName r = name ∧ parse_step_name name = Some (er_batchIndex r, Some (er_index r))
    ∧ (er_batchIndex r, er_index r) ∈ sc_lanesByBatch sc;
  si_highest : ∀ b l, (b, l) ∈ sc_lanesByBatch sc → b ≤ sc_highestBatch sc;
}.

Lemma node_step_parse entry node name batch lane :
  node_step entry = Some (node, name, batch, lane) → parse_step_name name = Some (batch, lane).
Proof.
  unfold node_step. destruct (asRecord entry.2) as [o|]; csimpl; [|done].
  destruct (asRecord (get_value o "meta_info")) as [meta|]; csimpl; [|done].
  destruct (get_value meta "step_name"); try done.
  destruct (parse_step_name s) as [[b l]|] eqn:Hp; csimpl; [|done]. intros; by simplify_eq.
Qed.

Lemma scan_node_inv runDir sc entry : scan_inv sc → scan_inv (scan_node runDir sc entry).
Proof.
  intros [Hs Hh]. unfold scan_node. destruct (node_step entry) as [[[[node name] batch] lane]|] eqn:Hn; [|done].
  apply node_step_parse in Hn. destruct lane as [lane|]; split; csimpl.
  - intros n r. rewrite obj_get_set. case_bool_decide as E.
    + intros; simplify_eq. csimpl. set_solver.
    + intros Hr. destruct (Hs n r Hr) as (? & ? & ?). set_solver.
  - intros b l. rewrite elem_of_app, list_elem_of_singleton. intros [Hin|Heq].
    + pose proof (Hh b l Hin). lia.
    + simplify_eq. lia.
  - done.
  - intros b l Hin. pose proof (Hh b l Hin). lia.
Qed.

Lemma scan_nodes_inv runDir entries : scan_inv (scan_nodes runDir entries).
Proof.
  unfold scan_nodes. assert (H : scan_inv {| sc_lanesByBatch := []; sc_recordedByStep := []; sc_highestBatch := 0 |})
    by (split; set_solver).
  revert H. generalize ({| sc_lanesByBatch := []; sc_recordedByStep := []; sc_highestBatch := 0 |}).
  induction entries as [|e entries IH]; intros sc Hsc; csimpl; [done|]. apply IH. by apply scan_node_inv.
Qed.

(** A step in the database is in the scan. *)
Lemma scan_node_keeps runDir sc entry name :
  is_Some (obj_get (sc_recordedByStep sc) name) → is_Some (obj_get (sc_recordedByStep (scan_node runDir sc entry)) name).
Proof.
  intros H. unfold scan_node. destruct (node_step entry) as [[[[node n] batch] [lane|]]|]; csimpl; try done.
  rewrite obj_get_set. case_bool_decide; [by eexists|done].
Qed.

Lemma scan_nodes_complete runDir entries entry node name batch lane :
  entry ∈ entries → node_step entry = Some (node, name, batch, Some lane) →
  is_Some (obj_get (sc_recordedByStep (scan_nodes runDir entries)) name).
Proof.
  unfold scan_nodes. generalize ({| sc_lanesByBatch := []; sc_recordedByStep := []; sc_highestBatch := 0 |}).
  intros sc Hin Hn. revert sc. induction entries as [|e entries IH]; intros sc; [set_solver|]. csimpl.
  apply elem_of_cons in Hin as [->|Hin]; [|by apply IH]. clear IH.
  assert (H : is_Some (obj_get (sc_recordedByStep (scan_node runDir sc e)) name)).
  { unfold scan_node. rewrite Hn. csimpl. rewrite obj_get_set. case_bool_decide; [by eexists|done]. }
  revert H. generalize (scan_node runDir sc e). clear. induction entries as [|e' entries IH]; intros sc H; csimpl; [done|].
  apply IH. by apply scan_node_keeps.
Qed.

(** ** The reconstruction *)

Lemma find_omap_pair {A} (f : nat → option A) (k : nat) (l : list nat) :
  (snd <$> List.find (λ p : nat * A, (p.1 =? k)%nat) (omap (λ l, pair l <$> f l) l))
  = if bool_decide (k ∈ l) then f k else None.
Proof.
  induction l as [|j l IH]; [done|]. csimpl. destruct (f j) as [r|] eqn:Hj; csimpl.
  - destruct (j =? k)%nat eqn:E; csimpl.
    + apply Nat.eqb_eq in E as ->. by rewrite bool_decide_eq_true_2 by by left.
    + apply Nat.eqb_neq in E. rewrite IH. destruct (decide (k ∈ l)).
      * by rewrite !bool_decide_eq_true_2 by set_solver.
      * by rewrite !bool_decide_eq_false_2 by set_solver.
  - rewrite IH. destruct (decide (k ∈ l)).
    + by rewrite !bool_decide_eq_true_2 by set_solver.
    + rewrite (bool_decide_eq_false_2 (k ∈ l)) by done. destruct (decide (k = j)) as [->|Hk].
      * by rewrite bool_decide_eq_true_2, Hj by by left.
      * by rewrite bool_decide_eq_false_2 by (rewrite elem_of_cons; tauto).
Qed.

(** The recorded step of a lane: the one with the lane's own step name. *)
Lemma recorded_lane_get runDir workers entries lane :
  lane < workers →
  recorded_lane (reconstruct runDir workers entries) lane =
  obj_get (sc_recordedByStep (scan_nodes runDir entries))
    (evolveStepName (choose_batch (scan_nodes runDir entries) (seq 0 workers)) lane).
Proof.
  intros Hlt. unfold recorded_lane, reconstruct. cbn [rc_recordedByLane].
  rewrite find_omap_pair, bool_decide_eq_true_2; [done|]. apply elem_of_seq. lia.
Qed.

Lemma includes_omap_pair {A} (f : nat → option A) (k : nat) (l : list nat) :
  k ∈ l → includes (omap (λ l, pair l <$> f l) l).*1 k = bool_decide (is_Some (f k)).
Proof.
  intros Hk. apply Bool.eq_iff_eq_true. rewrite bool_decide_eq_true, includes_spec, list_elem_of_fmap. split.
  - intros ([j r] & -> & Hin). apply list_elem_of_omap in Hin as (j' & Hj' & Hf).
    destruct (f j') eqn:E; csimpl in Hf; simplify_eq. csimpl. by rewrite E.
  - intros [r Hr]. exists (k, r). split; [done|]. apply list_elem_of_omap. exists k. by rewrite Hr.
Qed.

(** The lanes to run are those without a recorded step. *)
Lemma missing_lanes_exact runDir workers entries lane :
  lane ∈ rc_missingLanes (reconstruct runDir workers entries)
  ↔ lane < workers ∧ recorded_lane (reconstruct runDir workers entries) lane = None.
Proof.
  unfold rc_missingLanes, reconstruct at 1. rewrite list_elem_of_In, filter_In, <-list_elem_of_In, elem_of_seq. split.
  - intros [[_ Hlt] Hf]. split; [lia|]. rewrite recorded_lane_get by lia.
    rewrite includes_omap_pair in Hf by (apply elem_of_seq; lia). bool_hyps. by apply eq_None_not_Some.
  - intros [Hlt Hn]. split; [lia|]. rewrite recorded_lane_get in Hn by lia.
    rewrite includes_omap_pair by (apply elem_of_seq; lia). rewrite Hn. done.
Qed.

(** The batch to resume is the highest of the database, unless it is complete. *)
Lemma choose_batch_cases sc lanes :
  (choose_batch sc lanes = sc_highestBatch sc ∧ 0 < sc_highestBatch sc)
  ∨ choose_batch sc lanes = S (sc_highestBatch sc).
Proof.
  unfold choose_batch. destruct (_ && _) eqn:E; [|by right]. left. split; [done|].
  rewrite !andb_true_iff in E. destruct E as [[E _] _]. by apply Nat.ltb_lt.
Qed.

Lemma choose_batch_missing sc lanes :
  lanes ≠ [] → scan_inv sc →
  ∃ lane, lane ∈ lanes ∧ obj_get (sc_recordedByStep sc) (evolveStepName (choose_batch sc lanes) lane) = None.
Proof.
  intros Hl [Hs Hh].
  assert (Hin : ∀ b lane r, obj_get (sc_recordedByStep sc) (evolveStepName b lane) = Some r →
    (b, lane) ∈ sc_lanesByBatch sc).
  { intros b lane r Hr. destruct (Hs _ _ Hr) as (_ & Hp & Hin). rewrite parse_evolveStepName in Hp. by simplify_eq. }
  destruct (choose_batch_cases sc lanes) as [[Hc _]|Hc].
  - unfold choose_batch in *. destruct (_ && _) eqn:E; [|lia].
    apply andb_true_iff in E as [_ E]. apply existsb_exists in E as (lane & Hlane & Hn).
    exists lane. split; [by apply list_elem_of_In|]. apply eq_None_not_Some. intros [r Hr]. apply Hin in Hr.
    apply negb_true_iff, not_true_iff_false in Hn. apply Hn, includes_spec, list_elem_of_omap.
    exists (sc_highestBatch sc, lane). split; [done|]. csimpl. by rewrite Nat.eqb_refl.
  - destruct lanes as [|lane lanes]; [done|]. exists lane. split; [by left|].
    apply eq_None_not_Some. intros [r Hr]. apply Hin, Hh in Hr. lia.
Qed.

(** * Paths of a lane

    A path below the shared scratch directory is moved below the lane's own, once. *)

Definition no_brace (s : string) : bool := str_forallb (λ a, negb (a =? "{"%char)) s.

Lemma no_brace_excludes s sub : no_brace s = true → no_brace sub = false → str_includes s sub = false.
Proof.
  intros Hs Hsub. induction s as [|a s IH]; cbn [str_includes]; apply orb_false_iff; split.
  - destruct sub; [by vm_compute in Hsub|done].
  - done.
  - apply not_true_iff_false. rewrite prefix_spec. intros [t Ht]. unfold no_brace in *.
    rewrite Ht, str_forallb_app in Hs. bool_hyps. congruence.
  - apply IH. unfold no_brace in *. csimpl in Hs. by bool_hyps.
Qed.

(** Without braces there are no placeholders. *)
Lemma applyLaneTemplate_plain s c : no_brace s = true → applyLaneTemplate s c = s.
Proof.
  intros Hs. unfold applyLaneTemplate, replaceAll.
  by rewrite !(replace_from_none _ _ s) by (by apply no_brace_excludes).
Qed.

Lemma split_on_nonempty sep s : split_on sep s ≠ [].
Proof. destruct s as [|a s]; csimpl; [done|]. destruct (a =? sep); [done|]. by destruct (split_on sep s). Qed.

Lemma split_on_segment sep a b :
  str_forallb (λ x, negb (x =? sep)) a = true → split_on sep (a +:+ String sep b) = a :: split_on sep b.
Proof.
  induction a as [|x a IH]; intros Ha.
  - change ("" +:+ String sep b) with (String sep b). cbn [split_on].
    by rewrite bool_decide_eq_true_2.
  - rewrite str_app_cons. cbn [split_on str_forallb] in *. bool_hyps. rewrite bool_decide_eq_false_2 by done. by rewrite IH by done.
Qed.

Lemma digits_forallb (f : ascii → bool) s :
  (∀ a, is_digit a = true → f a = true) → str_forallb is_digit s = true → str_forallb f s = true.
Proof.
  intros Hf. induction s as [|a s IH]; csimpl; [done|]. intros [Ha Hs]%andb_true_iff.
  by rewrite Hf, IH.
Qed.

Lemma digit_code a : is_digit a = true → 48 ≤ nat_of_ascii a ≤ 57.
Proof. unfold is_digit. cbv zeta. intros H. apply andb_true_iff in H as [H1 H2]. apply Nat.leb_le in H1, H2. lia. Qed.

Lemma lane_segment k suffix : starts_with_lane_segment ("lane_" +:+ show_nat k +:+ "/" +:+ suffix) = true.
Proof.
  destruct (show_nat_digits k) as (_ & Hd & Hne). unfold starts_with_lane_segment.
  rewrite <-str_app_assoc. change ("/" +:+ suffix) with (String slash suffix).
  rewrite split_on_segment.
  - destruct (split_on slash suffix) eqn:E; [by apply split_on_nonempty in E|].
    unfold is_lane_segment. rewrite startsWith_app, (str_drop_app "lane_").
    by rewrite Hd, bool_decide_eq_false_2.
  - rewrite str_forallb_app. change (str_forallb _ "lane_") with true. rewrite andb_true_l.
    eapply digits_forallb; [|done]. intros a Ha%digit_code. apply negb_true_iff, bool_decide_eq_false.
    intros ->. vm_compute in Ha. lia.
Qed.

Lemma digits_no_brace k : no_brace (show_nat k) = true.
Proof.
  destruct (show_nat_digits k) as (_ & Hd & _). eapply digits_forallb; [|done].
  intros a Ha%digit_code. apply negb_true_iff, bool_decide_eq_false. intros ->. vm_compute in Ha. lia.
Qed.

(** The replacement of one prefix. *)
Lemma replaceCurrentPrefix_below base suffix repl :
  starts_with_lane_segment suffix = false →
  replaceCurrentPrefix (base +:+ "/" +:+ suffix) base repl = repl +:+ "/" +:+ suffix.
Proof.
  intros Hs. unfold replaceCurrentPrefix. rewrite bool_decide_eq_false_2.
  - rewrite <-str_app_assoc, startsWith_app, str_drop_app. csimpl. by rewrite Hs.
  - intros He. apply (f_equal String.length) in He. rewrite !str_length_app in He. csimpl in He. lia.
Qed.

Lemma replaceCurrentPrefix_lane base k suffix repl :
  replaceCurrentPrefix (base +:+ "/lane_" +:+ show_nat k +:+ "/" +:+ suffix) base repl
  = base +:+ "/lane_" +:+ show_nat k +:+ "/" +:+ suffix.
Proof.
  change ("/lane_" +:+ show_nat k +:+ "/" +:+ suffix) with ("/" +:+ "lane_" +:+ show_nat k +:+ "/" +:+ suffix).
  unfold replaceCurrentPrefix. rewrite bool_decide_eq_false_2.
  - rewrite <-str_app_assoc, startsWith_app, str_drop_app. csimpl. by rewrite lane_segment.
  - intros He. apply (f_equal String.length) in He. rewrite !str_length_app in He. csimpl in He. lia.
Qed.

Lemma replaceCurrentPrefix_other value base repl :
  value ≠ base → startsWith value (base +:+ "/") = false → replaceCurrentPrefix value base repl = value.
Proof. intros Hne Hs. unfold replaceCurrentPrefix. by rewrite bool_decide_eq_false_2, Hs by done. Qed.

Lemma lane_current_path base suffix k :
  base = DEFAULT_EVOLVE_LANE_DIR ∨ base = DEFAULT_EVOLVE_LANE_RELATIVE_DIR →
  ∀ c lane, c_lane c = Some lane →
  lane_dir lane = DEFAULT_EVOLVE_LANE_DIR +:+ "/lane_" +:+ show_nat k →
  lane_relativeDir lane = DEFAULT_EVOLVE_LANE_RELATIVE_DIR +:+ "/lane_" +:+ show_nat k →
  no_brace suffix = true → starts_with_lane_segment suffix = false →
  let below := base +:+ "/lane_" +:+ show_nat k +:+ "/" +:+ suffix in
  laneScopeEvolveCurrentPath (base +:+ "/" +:+ suffix) c = below
  ∧ laneScopeEvolveCurrentPath below c = below.
Proof.
  intros Hbase c lane Hl Hd Hr Hb Hs below. pose proof (digits_no_brace k) as Hk. unfold no_brace in *.
  assert (Hbn : ∀ rest, no_brace rest = true → no_brace (base +:+ rest) = true).
  { intros rest Hrest. unfold no_brace in *. rewrite str_forallb_app. by destruct Hbase as [-> | ->]. }
  assert (Hplain : applyLaneTemplate (base +:+ "/" +:+ suffix) c = base +:+ "/" +:+ suffix).
  { apply applyLaneTemplate_plain, Hbn. unfold no_brace. by rewrite str_forallb_app, Hb. }
  assert (Hplain2 : applyLaneTemplate below c = below).
  { apply applyLaneTemplate_plain, Hbn. unfold no_brace. rewrite !str_forallb_app, Hb, Hk. done. }
  unfold laneScopeEvolveCurrentPath. rewrite Hl, Hplain, Hplain2, Hd, Hr. unfold below.
  destruct Hbase as [-> | ->].
  - rewrite replaceCurrentPrefix_below, (replaceCurrentPrefix_lane DEFAULT_EVOLVE_LANE_DIR) by done.
    rewrite !str_app_assoc. by rewrite !replaceCurrentPrefix_other by done.
  - rewrite !(replaceCurrentPrefix_other _ DEFAULT_EVOLVE_LANE_DIR) by done.
    rewrite replaceCurrentPrefix_below, (replaceCurrentPrefix_lane DEFAULT_EVOLVE_LANE_RELATIVE_DIR) by done.
    by rewrite !str_app_assoc.
Qed.

Lemma lane_path_inj base suffix j k :
  base +:+ "/lane_" +:+ show_nat j +:+ "/" +:+ suffix = base +:+ "/lane_" +:+ show_nat k +:+ "/" +:+ suffix → j = k.
Proof.
  intros H%str_app_inv_head%(str_app_inv_head "/lane_"). apply show_nat_inj.
  destruct (show_nat_digits j) as (_ & Hj & _), (show_nat_digits k) as (_ & Hk & _).
  revert H. generalize (show_nat j), (show_nat k), Hj, Hk. clear. intros s.
  induction s as [|a s IH]; intros [|b t] Hs Ht; try done.
  - intros H. rewrite str_app_cons in H. injection H as <- _. by vm_compute in Ht.
  - intros H. rewrite str_app_cons in H. injection H as -> _. by vm_compute in Hs.
  - rewrite !str_app_cons. intros H. injection H as -> H. f_equal. csimpl in *. bool_hyps. by apply IH.
Qed.
