(* ===== verification/Skills.v ===== *)
(** * Skills: discovery, layers and staging

    Models src/skills/discovery.ts, staging.ts and types.ts, with the names of personas
    (types/slug.ts, persona/types.ts) and the directories they use (config/paths.ts,
    persona/resolve.ts).  A skill is a directory with a SKILL.md, known by the name in its
    front matter; a session gets the skills of three layers, copied into one directory.
    What the file system answers is a parameter, and so is the YAML parser. *)

From Stdlib Require Import Ascii.
From stdpp Require Import sorting.
From S2P Require Import Prelude JsValue Paths Hashing Regex WorkflowTypes StatusParser WorkflowValidate.

Local Open Scope curtain_scope.

(** ** Names of personas *)

(** [SLUG_PATTERN] *)
Definition valid_slug (s : string) : bool :=
  match s with
  | "" => false
  | String a rest => is_lower_digit a && (String.length rest <=? 62)%nat && str_forallb (λ a, is_lower_digit a || str_includes "_-" (String a "")) rest
  end.

Definition validateSlug (raw label : string) : result unit :=
  if valid_slug raw then Ok ()
  else Throw ("Invalid " +:+ label +:+ " " +:+ quoted raw +:+ ": must be 1-63 chars, lowercase alphanumeric, hyphens, or underscores, "
              +:+ "starting with a letter or digit").

Definition createPersonaName (raw : string) : result string := validateSlug raw "persona name" ≫= λ _, Ok raw.

Section directories.
Context `{FileSystem}.
Variable ironcurtain_home : option string.     (** the variable IRONCURTAIN_HOME *)

Definition getIronCurtainHome : string := resolve (default (resolve2 homedir ".ironcurtain") ironcurtain_home).
Definition getUserSkillsDir : string := resolve2 getIronCurtainHome "skills".
Definition getPersonaSkillsDir (name : string) : string :=
  resolve2 (resolve2 (resolve2 getIronCurtainHome "personas") name) "skills".
End directories.

(** ** types.ts *)

Inductive SkillSource := UserSkill | PersonaSkill | WorkflowSkill.

Record ResolvedSkill := {
  sk_name : string;
  sk_source : SkillSource;
  sk_sourceDir : string;
  sk_description : string
}.

Inductive SkillDiscoveryErrorReason := MissingManifest | Unreadable | MalformedFrontmatter | MissingRequiredFields | DuplicateName.
#[export] Instance SkillDiscoveryErrorReason_eq_dec : EqDecision SkillDiscoveryErrorReason.
Proof. solve_decision. Defined.

Definition reason_name (r : SkillDiscoveryErrorReason) : string :=
  match r with
  | MissingManifest => "missing-manifest" | Unreadable => "unreadable" | MalformedFrontmatter => "malformed-frontmatter"
  | MissingRequiredFields => "missing-required-fields" | DuplicateName => "duplicate-name"
  end.

Record SkillDiscoveryError := { se_skillDir : string; se_reason : SkillDiscoveryErrorReason; se_detail : option string }.

(** ** The front matter *)

(** [YAML.parse] without aliases. *)
Class FrontmatterYaml := { frontmatter_yaml : string → result jsvalue }.

(** A line end, [\r?\n], at the start. *)
Definition line_end (s : string) : option string :=
  match s with
  | String a s' =>
      if a =? nl then Some s'
      else if a =? cr then match s' with String b s'' => if b =? nl then Some s'' else None | "" => None end
      else None
  | "" => None
  end.

(** What follows each line feed in the white space at the start, [\s*\r?\n]. *)
Fixpoint after_line_feeds (s : string) : list string :=
  match s with
  | "" => []
  | String a s => if Ascii.is_space a then (if a =? nl then s :: after_line_feeds s else after_line_feeds s) else []
  end.

(** [\s*(?:\r?\n|$)] *)
Fixpoint closes_line (s : string) : bool :=
  match s with "" => true | String a s => Ascii.is_space a && ((a =? nl) || closes_line s) end.

(** [\r?\n---\s*(?:\r?\n|$)] at the start. *)
Definition closing_fence (s : string) : bool :=
  match line_end s with Some s => startsWith s "---" && closes_line (str_drop 3 s) | None => false end.

(** The shortest text before a closing fence. *)
Fixpoint until_fence (s : string) : option string :=
  if closing_fence s then Some ""
  else match s with "" => None | String a s => String a <$> until_fence s end.

Fixpoint first_some {A B} (f : A → option B) (l : list A) : option B :=
  match l with [] => None | a :: l => match f a with Some b => Some b | None => first_some f l end end.

(** [FRONTMATTER_RE.exec(content)?.[1]]: the white space takes as much as it can. *)
Definition frontmatter_text (content : string) : option string :=
  if startsWith content "---" then first_some until_fence (rev (after_line_feeds (str_drop 3 content))) else None.

Inductive FrontmatterResult :=
| FrontmatterOk (name description : string)
| FrontmatterBad (reason : SkillDiscoveryErrorReason) (detail : string).

Section discovery.
Context `{FileSystem} `{FrontmatterYaml}.

Definition parseFrontmatter (content : string) : FrontmatterResult :=
  match frontmatter_text content with
  | None => FrontmatterBad MalformedFrontmatter "missing or malformed `---` fence"
  | Some text =>
      match frontmatter_yaml text with
      | Throw message => FrontmatterBad MalformedFrontmatter ("YAML parse error: " +:+ message)
      | Ok (VObj o) =>
          match get_value o "name", get_value o "description" with
          | VStr name, VStr description => FrontmatterOk name description
          | _, _ => FrontmatterBad MissingRequiredFields "SKILL.md frontmatter must define string `name:` and `description:` fields"
          end
      | Ok _ => FrontmatterBad MalformedFrontmatter "frontmatter is not a YAML mapping"
      end
  end.

(** ** Discovery *)

(** What the file system answers about an entry of a skills directory: [statSync] of it,
    and [readFileSync] of its SKILL.md. *)
Inductive ManifestRead := ManifestText (content : string) | ManifestMissing | ManifestUnreadable (message : string).
Inductive SkillEntry := StatFails (message : string) | NotADirectory | SkillDirectory (manifest : ManifestRead).

(** [readdirSync] of a directory, [None] when it throws. *)
Definition SkillsDisk : Type := string → option (list (string * SkillEntry)).

Record DiscoverSkillsResult := { dr_skills : list ResolvedSkill; dr_errors : list SkillDiscoveryError; dr_claimed : object string }.

Definition report (skillDir : string) (reason : SkillDiscoveryErrorReason) (detail : option string) (r : DiscoverSkillsResult) : DiscoverSkillsResult :=
  {| dr_skills := dr_skills r; dr_errors := dr_errors r ++ [{| se_skillDir := skillDir; se_reason := reason; se_detail := detail |}];
     dr_claimed := dr_claimed r |}.

(** One round of the loop over the sorted entries; [dr_claimed] is [claimedNames]. *)
Definition discover_entry (skillsRoot : string) (source : SkillSource) (r : DiscoverSkillsResult) (entry : string * SkillEntry) : DiscoverSkillsResult :=
  let skillDir := resolve2 skillsRoot entry.1 in
  match entry.2 with
  | StatFails message => report skillDir Unreadable (Some message) r
  | NotADirectory => r
  | SkillDirectory ManifestMissing => report skillDir MissingManifest None r
  | SkillDirectory (ManifestUnreadable message) => report skillDir Unreadable (Some message) r
  | SkillDirectory (ManifestText content) =>
      match parseFrontmatter content with
      | FrontmatterBad reason detail => report skillDir reason (Some detail) r
      | FrontmatterOk name description =>
          match obj_get (dr_claimed r) name with
          | Some winner =>
              report skillDir DuplicateName (Some ("frontmatter name " +:+ quoted name +:+ " is already claimed by " +:+ winner)) r
          | None =>
              {| dr_skills := dr_skills r ++ [{| sk_name := name; sk_source := source; sk_sourceDir := skillDir; sk_description := description |}];
                 dr_errors := dr_errors r; dr_claimed := obj_set (dr_claimed r) name skillDir |}
          end
      end
  end.

Definition entry_le (a b : string * SkillEntry) : Prop := str_le a.1 b.1.
#[export] Instance entry_le_dec a b : Decision (entry_le a b) := decide (str_le a.1 b.1).

Definition sorted_entries (entries : list (string * SkillEntry)) : list (string * SkillEntry) := merge_sort entry_le entries.

Definition discoverSkillsWithErrors (disk : SkillsDisk) (skillsRoot : string) (source : SkillSource) : DiscoverSkillsResult :=
  let empty := {| dr_skills := []; dr_errors := []; dr_claimed := [] |} in
  match disk skillsRoot with
  | None => empty
  | Some entries => foldl (discover_entry skillsRoot source) empty (sorted_entries entries)
  end.

Definition ACTIONABLE_DISCOVERY_REASONS : list SkillDiscoveryErrorReason :=
  [Unreadable; MalformedFrontmatter; MissingRequiredFields; DuplicateName].

Definition source_name (s : SkillSource) : string :=
  match s with UserSkill => "user" | PersonaSkill => "persona" | WorkflowSkill => "workflow" end.

(** The skills, and the warnings that are logged. *)
Definition discoverSkills (disk : SkillsDisk) (skillsRoot : string) (source : SkillSource) : list ResolvedSkill * list string :=
  let r := discoverSkillsWithErrors disk skillsRoot source in
  (dr_skills r,
   (λ e, "[skills] Ignoring " +:+ source_name source +:+ " skill at " +:+ se_skillDir e +:+ " (" +:+ reason_name (se_reason e) +:+ ")"
         +:+ match se_detail e with Some detail => if detail =? "" then "" else ": " +:+ detail | None => "" end)
     <$> List.filter (λ e, includes ACTIONABLE_DISCOVERY_REASONS (se_reason e)) (dr_errors r)).

(** ** Layers *)

Record ResolveSkillsOptions := {
  rs_personaName : option string;
  rs_workflowSkillsDir : option string;
  rs_workflowSkillFilter : option (list string);
  rs_disableAllSkills : bool
}.

Definition layer (merged : object ResolvedSkill) (skills : list ResolvedSkill) : object ResolvedSkill :=
  foldl (λ merged skill, obj_set merged (sk_name skill) skill) merged skills.

(** Workflow sessions have no persona layer, and an invalid slug is skipped. *)
Definition persona_layer (disk : SkillsDisk) (ironcurtain_home : option string) (opts : ResolveSkillsOptions) : list ResolvedSkill :=
  let inWorkflow := bool_decide (is_Some (rs_workflowSkillsDir opts)) in
  match rs_personaName opts with
  | Some personaName =>
      if negb inWorkflow && negb (personaName =? "global") then
        match createPersonaName personaName with
        | Ok branded => (discoverSkills disk (getPersonaSkillsDir ironcurtain_home branded) PersonaSkill).1
        | Throw _ => []
        end
      else []
  | None => []
  end.

Definition workflow_layer (disk : SkillsDisk) (opts : ResolveSkillsOptions) : list ResolvedSkill :=
  let workflowSkills :=
    match rs_workflowSkillsDir opts with
    | Some dir => if dir =? "" then [] else (discoverSkills disk dir WorkflowSkill).1
    | None => []
    end in
  match rs_workflowSkillFilter opts with
  | Some filter => List.filter (λ s, includes filter (sk_name s)) workflowSkills
  | None => workflowSkills
  end.

Definition resolveSkillsForSession (disk : SkillsDisk) (ironcurtain_home : option string) (opts : ResolveSkillsOptions) : list ResolvedSkill :=
  if rs_disableAllSkills opts then []
  else
    let userSkills := (discoverSkills disk (getUserSkillsDir ironcurtain_home) UserSkill).1 in
    obj_values (layer (layer (layer [] userSkills) (persona_layer disk ironcurtain_home opts)) (workflow_layer disk opts)).
End discovery.

(** ** staging.ts *)

Definition validateSkillName (name : string) : result unit :=
  if name =? "" then Throw "Invalid skill name: name is empty"
  else if (name =? ".") || (name =? "..") then Throw ("Invalid skill name: " +:+ quoted name +:+ " is not a valid directory name")
  else if str_includes name "/" || str_includes name "\" then Throw ("Invalid skill name: " +:+ quoted name +:+ " contains a path separator")
  else Ok ().

(** What the children of the staging directory hold: the directories copied into them,
    the last one in part when its copy failed, or what was there before. *)
Inductive Copied := Whole (sourceDir : string) | PartOf (sourceDir : string) | Foreign.
Definition Bundle : Type := object (list Copied).

Inductive StagingOp := MakeDir (dir : string) | ListDir (dir : string) | Remove (path : string) | Copy (sourceDir target : string).

(** Which operations on files fail, with their messages. *)
Class StagingDisk := { staging_fails : StagingOp → option string }.

Section staging.
Context `{FileSystem} `{StagingDisk}.

Fixpoint wipe (dir : string) (names : list string) (b : Bundle) : Bundle * result unit :=
  match names with
  | [] => (b, Ok ())
  | name :: names =>
      match staging_fails (Remove (resolve2 dir name)) with
      | Some message => (b, Throw message)
      | None => wipe dir names (base.filter (λ child, child.1 ≠ name) b)
      end
  end.

Definition put_copy (name : string) (copied : Copied) (b : Bundle) : Bundle := obj_set b name (default [] (obj_get b name) ++ [copied]).

Fixpoint copy_skills (dir : string) (skills : list ResolvedSkill) (b : Bundle) : Bundle * result unit :=
  match skills with
  | [] => (b, Ok ())
  | skill :: skills =>
      match validateSkillName (sk_name skill) with
      | Throw message => (b, Throw message)
      | Ok _ =>
          match staging_fails (Copy (sk_sourceDir skill) (resolve2 dir (sk_name skill))) with
          | Some message => (put_copy (sk_name skill) (PartOf (sk_sourceDir skill)) b, Throw message)
          | None => copy_skills dir skills (put_copy (sk_name skill) (Whole (sk_sourceDir skill)) b)
          end
      end
  end.

Definition stageSkillsToBundle (skills : list ResolvedSkill) (destDir : string) (b : Bundle) : Bundle * result unit :=
  let dir := resolve destDir in
  match staging_fails (MakeDir dir) with
  | Some message => (b, Throw message)
  | None =>
      match staging_fails (ListDir dir) with
      | Some message => (b, Throw message)
      | None =>
          match wipe dir (obj_keys b) b with
          | (b, Throw message) => (b, Throw message)
          | (b, Ok _) => copy_skills dir skills b
          end
      end
  end.

Definition skill_line (s : ResolvedSkill) : string := sk_name s +:+ String (ascii_of_nat 0) (sk_sourceDir s).
Definition computeSignature (skills : list ResolvedSkill) : string := str_join newline (merge_sort str_le (skill_line <$> skills)).

(** The closure of [createCachedStager], with the directory it fills. *)
Record CachedStager := { cg_lastSignature : option string; cg_bundle : Bundle }.

Definition cached_stage (destDir : string) (skills : list ResolvedSkill) (c : CachedStager) : CachedStager * result bool :=
  let signature := computeSignature skills in
  if bool_decide (cg_lastSignature c = Some signature) then (c, Ok false)
  else
    match stageSkillsToBundle skills destDir (cg_bundle c) with
    | (b, Throw message) => ({| cg_lastSignature := cg_lastSignature c; cg_bundle := b |}, Throw message)
    | (b, Ok _) => ({| cg_lastSignature := Some signature; cg_bundle := b |}, Ok true)
    end.
End staging.

(** ** References from workflows (workflow/validate.ts) *)

Inductive SkillRefIssue := InvalidSkillName (stateId name detail : string) | UnknownSkillName (stateId name : string).

Definition iterateSkillRefIssues (definition : WorkflowDefinition) (discoveredNames : list string) : list SkillRefIssue :=
  w_states definition ≫= λ kv,
    match kv.2 with
    | SAgent a =>
        match a_skills a with
        | Some (SkillsList names) =>
            names ≫= λ name,
              match validateSkillName name with
              | Throw detail => [InvalidSkillName kv.1 name detail]
              | Ok _ => if includes discoveredNames name then [] else [UnknownSkillName kv.1 name]
              end
        | _ => []
        end
    | _ => []
    end.

Definition available_hint (discoveredNames : list string) : string :=
  let available := merge_sort str_le discoveredNames in
  if bool_decide (available = []) then "(none)" else str_join ", " available.

Definition validateWorkflowSkillReferences `{FileSystem} `{FrontmatterYaml} (disk : SkillsDisk) (definition : WorkflowDefinition) (packageDir : string) :
    validation unit :=
  let skillsRoot := resolve2 packageDir "skills" in
  let discoveredNames := js_set (sk_name <$> (discoverSkills disk skillsRoot WorkflowSkill).1) in
  match (λ issue,
           match issue with
           | InvalidSkillName stateId name detail =>
               "State " +:+ quoted stateId +:+ " has invalid skill name " +:+ quoted name +:+ ": " +:+ detail +:+ "."
           | UnknownSkillName stateId name =>
               "State " +:+ quoted stateId +:+ " references skill " +:+ quoted name
               +:+ " but no skill with that frontmatter name was found under " +:+ skillsRoot +:+ ". Available: "
               +:+ available_hint discoveredNames +:+ "."
           end) <$> iterateSkillRefIssues definition discoveredNames with
  | [] => Valid ()
  | issues => Invalid issues
  end.

(** ** What is discovered *)

Section discovered.
Context `{FileSystem} `{FrontmatterYaml}.
Context (root : string) (source : SkillSource).

(** The name and the description that the manifest of an entry declares. *)
Definition declares (e : string * SkillEntry) : option (string * string) :=
  match e.2 with
  | SkillDirectory (ManifestText content) =>
      match parseFrontmatter content with FrontmatterOk name description => Some (name, description) | _ => None end
  | _ => None
  end.

Definition skill_of (e : string * SkillEntry) (found : string * string) : ResolvedSkill :=
  {| sk_name := found.1; sk_source := source; sk_sourceDir := resolve2 root e.1; sk_description := found.2 |}.

Definition not_a_directory (e : string * SkillEntry) : bool := match e.2 with NotADirectory => true | _ => false end.

(** The result, given the entries read so far. *)
Record discovered (es : list (string * SkillEntry)) (r : DiscoverSkillsResult) : Prop := {
  di_claimed : obj_keys (dr_claimed r) = sk_name <$> dr_skills r;
  di_nodup : NoDup (sk_name <$> dr_skills r);
  di_skills s : s ∈ dr_skills r ↔ ∃ l1 e l2 found, es = l1 ++ e :: l2 ∧ declares e = Some found ∧ s = skill_of e found
                  ∧ ∀ e' found', e' ∈ l1 → declares e' = Some found' → found'.1 ≠ found.1;
  di_names name : name ∈ sk_name <$> dr_skills r ↔ ∃ e found, e ∈ es ∧ declares e = Some found ∧ found.1 = name;
  di_account : (length (dr_skills r) + length (dr_errors r) + length (List.filter not_a_directory es) = length es)%nat
}.

Lemma discovered_nothing e es r r' :
  declares e = None → dr_skills r' = dr_skills r → dr_claimed r' = dr_claimed r →
  (length (dr_errors r') + (if not_a_directory e then 1 else 0) = S (length (dr_errors r)))%nat →
  discovered es r → discovered (es ++ [e]) r'.
Proof.
  intros He Hs Hc Hl [Hcl Hnd Hsk Hnm Hacc]. split; rewrite ?Hs, ?Hc; try done.
  - intros s. rewrite Hsk. split.
    + intros (l1 & e1 & l2 & found & -> & ?). exists l1, e1, (l2 ++ [e]), found. by rewrite <- app_assoc.
    + intros (l1 & e1 & l2 & found & Heq & Hd & ?). destruct l2 as [|e2 l2 _] using rev_ind.
      * apply app_inj_tail in Heq as [_ ->]. congruence.
      * rewrite app_comm_cons, app_assoc in Heq. apply app_inj_tail in Heq as [-> _]. by exists l1, e1, l2, found.
  - intros name. rewrite Hnm. split; intros (e1 & found & Hin & Hd & ?); exists e1, found.
    + rewrite elem_of_app. auto.
    + apply elem_of_app in Hin as [?| ->%list_elem_of_singleton]; [done|congruence].
  - rewrite List.filter_app, !length_app. cbn. destruct (not_a_directory e); cbn in *; lia.
Qed.

Lemma discovered_duplicate e es r found dir detail :
  declares e = Some found → obj_get (dr_claimed r) found.1 = Some dir → not_a_directory e = false →
  discovered es r → discovered (es ++ [e]) (report (resolve2 root e.1) DuplicateName detail r).
Proof.
  intros He Hget Hdir [Hcl Hnd Hsk Hnm Hacc].
  assert (found.1 ∈ sk_name <$> dr_skills r) as Hin.
  { rewrite <- Hcl. apply obj_get_elem in Hget. by apply (list_elem_of_fmap_2 fst) in Hget. }
  split; cbn; try done.
  - intros s. rewrite Hsk. split.
    + intros (l1 & e1 & l2 & found1 & -> & ?). exists l1, e1, (l2 ++ [e]), found1. by rewrite <- app_assoc.
    + intros (l1 & e1 & l2 & found1 & Heq & Hd & Hs & Hfirst). destruct l2 as [|e2 l2 _] using rev_ind.
      * apply app_inj_tail in Heq as [<- <-]. assert (found1 = found) as -> by congruence.
        apply Hnm in Hin as (e' & found' & ? & ? & ?). by destruct (Hfirst e' found').
      * rewrite app_comm_cons, app_assoc in Heq. apply app_inj_tail in Heq as [-> _]. by exists l1, e1, l2, found1.
  - intros name. rewrite Hnm. split; intros (e1 & found1 & Hin1 & Hd & ?).
    + exists e1, found1. rewrite elem_of_app. auto.
    + apply elem_of_app in Hin1 as [?| ->%list_elem_of_singleton]; [by exists e1, found1|].
      apply Hnm in Hin as (e' & found' & ? & ? & ?). exists e', found'. split_and!; try done. congruence.
  - rewrite List.filter_app, !length_app. cbn. rewrite Hdir. cbn. lia.
Qed.

Lemma discovered_new e es r found :
  declares e = Some found → obj_get (dr_claimed r) found.1 = None → not_a_directory e = false →
  discovered es r →
  discovered (es ++ [e]) {| dr_skills := dr_skills r ++ [skill_of e found]; dr_errors := dr_errors r;
                            dr_claimed := obj_set (dr_claimed r) found.1 (resolve2 root e.1) |}.
Proof.
  intros He Hget Hdir [Hcl Hnd Hsk Hnm Hacc].
  assert (found.1 ∉ sk_name <$> dr_skills r) as Hn.
  { rewrite <- Hcl. intros Hin. assert (obj_has (dr_claimed r) found.1 = true) as [? Hsome]%obj_get_has by (by apply bool_decide_eq_true). congruence. }
  split; cbn [dr_skills dr_errors dr_claimed].
  - rewrite obj_keys_set, Hcl, fmap_app. unfold js_set_add. case_match eqn:E; [by apply includes_spec in E|done].
  - rewrite fmap_app. apply NoDup_app. split_and!; [done| |apply NoDup_singleton]. by intros x ? ->%list_elem_of_singleton.
  - intros s. rewrite elem_of_app, list_elem_of_singleton, Hsk. split.
    + intros [(l1 & e1 & l2 & found1 & -> & ?)| ->].
      * exists l1, e1, (l2 ++ [e]), found1. by rewrite <- app_assoc.
      * exists es, e, [], found. split_and!; try done. intros e' found' ?? Heq. apply Hn, Hnm. by exists e', found'.
    + intros (l1 & e1 & l2 & found1 & Heq & Hd & Hs & Hfirst). destruct l2 as [|e2 l2 _] using rev_ind.
      * apply app_inj_tail in Heq as [_ <-]. right. congruence.
      * left. rewrite app_comm_cons, app_assoc in Heq. apply app_inj_tail in Heq as [-> _]. by exists l1, e1, l2, found1.
  - intros name. rewrite fmap_app, elem_of_app, Hnm. split.
    + intros [(e1 & found1 & ? & ?)|Hin]; [exists e1, found1; rewrite elem_of_app; auto|].
      exists e, found. apply list_elem_of_singleton in Hin. split; [rewrite elem_of_app; right; left|done].
    + intros (e1 & found1 & [?| ->%list_elem_of_singleton]%elem_of_app & Hd & <-); [left; by exists e1, found1|].
      right. apply list_elem_of_singleton. cbn. congruence.
  - rewrite List.filter_app, !length_app. cbn. rewrite Hdir. cbn. lia.
Qed.

Lemma discover_entry_ok e es r : discovered es r → discovered (es ++ [e]) (discover_entry root source r e).
Proof.
  intros Hr. unfold discover_entry. cbv zeta. destruct e as [entry [message| |[content| |message]]]; cbn [fst snd].
  - eapply discovered_nothing; [..|exact Hr]; try done. cbn. rewrite length_app. cbn. lia.
  - eapply discovered_nothing; [..|exact Hr]; try done. cbn. lia.
  - destruct (parseFrontmatter content) as [name description|reason detail] eqn:E.
    + assert (declares (entry, SkillDirectory (ManifestText content)) = Some (name, description)) as Hd by (unfold declares; cbn; by rewrite E).
      destruct (obj_get (dr_claimed r) name) as [winner|] eqn:Hget.
      * by eapply (discovered_duplicate (entry, _)).
      * by apply (discovered_new (entry, _) es r (name, description)).
    + eapply discovered_nothing; [..|exact Hr]; [unfold declares; cbn; by rewrite E|done..|cbn; rewrite length_app; cbn; lia].
  - eapply discovered_nothing; [..|exact Hr]; try done. cbn. rewrite length_app. cbn. lia.
  - eapply discovered_nothing; [..|exact Hr]; try done. cbn. rewrite length_app. cbn. lia.
Qed.

Lemma discover_all es : discovered es (foldl (discover_entry root source) {| dr_skills := []; dr_errors := []; dr_claimed := [] |} es).
Proof.
  induction es as [|e es IH] using rev_ind; [|rewrite foldl_app; by apply discover_entry_ok].
  split; cbn; try done; [constructor| |].
  - intros s. split; [by intros ?%elem_of_nil|]. by intros ([|] & ? & ? & ? & ? & _).
  - intros name. split; [by intros ?%elem_of_nil|]. by intros (? & ? & ?%elem_of_nil & _).
Qed.
End discovered.

Section found.
Context `{FileSystem} `{FrontmatterYaml}.

#[local] Instance entry_le_total : Total entry_le.
Proof. intros a b. destruct (str_le_total a.1 b.1); [by left|by right]. Qed.
#[local] Instance entry_le_trans : Transitive entry_le.
Proof. intros a b c. unfold entry_le. apply str_le_trans. Qed.

Lemma sorted_entries_order entries : StronglySorted entry_le (sorted_entries entries).
Proof. apply StronglySorted_merge_sort; apply _. Qed.

(** The order in which the file system lists the directory does not matter. *)
Lemma sorted_entries_perm entries entries' : NoDup entries.*1 → entries ≡ₚ entries' → sorted_entries entries = sorted_entries entries'.
Proof.
  intros Hd Hp. eapply (StronglySorted_unique_strong entry_le); [|apply sorted_entries_order..|].
  - intros [x1 e1] [x2 e2] H1 H2 Hle Hle'. unfold sorted_entries in H1, H2. rewrite merge_sort_Permutation in H1. rewrite merge_sort_Permutation, <- Hp in H2.
    assert (x1 = x2) as -> by (by apply (anti_symm str_le)). f_equal.
    apply list_elem_of_lookup in H1 as [i Hi], H2 as [j Hj].
    assert (i = j) as -> by (eapply (NoDup_lookup entries.*1); [done|by rewrite list_lookup_fmap, Hi|by rewrite list_lookup_fmap, Hj]). congruence.
  - unfold sorted_entries. by rewrite !merge_sort_Permutation.
Qed.

Lemma before_sorted (l1 l2 : list (string * SkillEntry)) e e' : StronglySorted entry_le (l1 ++ e :: l2) → e' ∈ l1 → entry_le e' e.
Proof.
  induction l1 as [|x l1 IH]; intros Hs Hin; [by apply elem_of_nil in Hin|]. cbn in Hs. apply StronglySorted_inv in Hs as [Hs Hx].
  apply elem_of_cons in Hin as [->|?]; [|by apply IH]. rewrite Forall_forall in Hx. apply Hx. rewrite elem_of_app. right. left.
Qed.

Lemma after_sorted (l1 l2 : list (string * SkillEntry)) e e' : StronglySorted entry_le (l1 ++ e :: l2) → e' ∈ l2 → entry_le e e'.
Proof.
  induction l1 as [|x l1 IH]; cbn; intros [Hs Hx]%StronglySorted_inv Hin; [|by apply IH]. rewrite Forall_forall in Hx. by apply Hx.
Qed.

Lemma filter_permuted {A} (f : A → bool) l l' : l ≡ₚ l' → List.filter f l ≡ₚ List.filter f l'.
Proof.
  induction 1 as [|x l l' _ IH|x y l|l1 l2 l3 _ IH1 _ IH2]; cbn; [done|by destruct (f x); [constructor|]| |by etrans].
  destruct (f x), (f y); try done. constructor.
Qed.

(** The skills of a directory: each declared name once, by its first directory. *)
Lemma discover_first disk root source entries :
  disk root = Some entries → NoDup entries.*1 →
  let r := discoverSkillsWithErrors disk root source in
  NoDup (sk_name <$> dr_skills r)
  ∧ (∀ s, s ∈ dr_skills r ↔ ∃ e found, e ∈ entries ∧ declares e = Some found ∧ s = skill_of root source e found
            ∧ ∀ e' found', e' ∈ entries → declares e' = Some found' → found'.1 = found.1 → str_le e.1 e'.1)
  ∧ (length (dr_skills r) + length (dr_errors r) + length (List.filter not_a_directory entries) = length entries)%nat.
Proof.
  intros Hdisk Hd. unfold discoverSkillsWithErrors. rewrite Hdisk. cbv zeta. destruct (discover_all root source (sorted_entries entries)) as [_ Hnd Hsk _ Hacc].
  pose proof (sorted_entries_order entries) as Hsorted.
  assert (sorted_entries entries ≡ₚ entries) as Hp by apply merge_sort_Permutation.
  split; [done|]. split.
  - intros s. rewrite Hsk. split.
    + intros (l1 & e & l2 & found & Heq & He & -> & Hfirst). rewrite Heq in Hsorted, Hp.
      exists e, found. split_and!; try done; [rewrite <- Hp, elem_of_app; right; left|].
      intros e' found' Hin' He' Hname. rewrite <- Hp in Hin'. apply elem_of_app in Hin' as [Hin'|[->|Hin']%elem_of_cons].
      * by destruct (Hfirst e' found').
      * by destruct (str_le_total e.1 e.1).
      * by eapply after_sorted.
    + intros (e & found & Hin & He & -> & Hmin). rewrite <- Hp in Hin. apply list_elem_of_split in Hin as (l1 & l2 & Heq).
      exists l1, e, l2, found. split_and!; try done. intros e' found' Hin' He' Hname.
      assert (NoDup (l1 ++ e :: l2).*1) as Hd' by (by rewrite <- Heq, Hp). rewrite fmap_app in Hd'. apply NoDup_app in Hd' as (_ & Hdisj & _).
      apply (Hdisj e'.1); [by apply list_elem_of_fmap_2|].
      rewrite Heq in Hsorted. assert (e'.1 = e.1) as ->; [|left].
      apply (anti_symm str_le); [by eapply before_sorted in Hsorted|]. eapply Hmin; try done. rewrite <- Hp, Heq, elem_of_app. by left.
  - rewrite <- (Permutation_length Hp), <- Hacc. f_equal.
    by apply Permutation_length, filter_permuted.
Qed.
End found.

(** ** Layers *)

Section layers.
Context `{FileSystem} `{FrontmatterYaml}.

(** A directory has no two entries of one name. *)
Definition disk_ok (disk : SkillsDisk) : Prop := ∀ root entries, disk root = Some entries → NoDup entries.*1.

Lemma discover_nodup disk root source : disk_ok disk → NoDup (sk_name <$> (discoverSkills disk root source).1).
Proof.
  intros Hok. unfold discoverSkills. cbn [fst]. destruct (disk root) as [entries|] eqn:E; [by destruct (discover_first disk root source entries E (Hok _ _ E))|].
  unfold discoverSkillsWithErrors. rewrite E. constructor.
Qed.

Lemma filter_sublist {A} (f : A → bool) l : List.filter f l `sublist_of` l.
Proof. induction l as [|x l IH]; cbn; [done|]. destruct (f x); by constructor. Qed.

Lemma nodup_sublist {A B} (f : A → B) l l' : l' `sublist_of` l → NoDup (f <$> l) → NoDup (f <$> l').
Proof.
  intros Hsub Hd. apply (fmap_sublist f), sublist_submseteq, submseteq_Permutation in Hsub as [k Hk]. rewrite Hk in Hd. by apply NoDup_app in Hd as [? _].
Qed.

Lemma layer_get merged skills name s :
  NoDup (sk_name <$> skills) →
  obj_get (layer merged skills) name = Some s ↔
    (s ∈ skills ∧ sk_name s = name) ∨ (name ∉ sk_name <$> skills ∧ obj_get merged name = Some s).
Proof.
  unfold layer. revert merged. induction skills as [|x skills IH]; intros merged Hd; cbn [foldl].
  - split; [intros; right; split; [by intros ?%elem_of_nil|done]|]. by intros [[?%elem_of_nil _]|[_ ?]].
  - rewrite fmap_cons in Hd |- *. apply NoDup_cons in Hd as [Hn Hd]. rewrite IH, obj_get_set, elem_of_cons, not_elem_of_cons by done.
    case_bool_decide as E.
    + subst name. split.
      * intros [[? <-]|[? [= <-]]]; left; auto.
      * intros [[[->|Hs] Hname]|[[? _] _]]; [by right|left; auto|done].
    + split.
      * intros [[? <-]|[? ?]]; [left; auto|right; split_and!; auto].
      * intros [[[->|?] ?]|[[_ ?] ?]]; [done|left; auto|right; auto].
Qed.

Lemma layer_wf merged skills : obj_wf merged → obj_wf (layer merged skills).
Proof. unfold layer. revert merged. induction skills as [|x skills IH]; intros merged ?; [done|]. by apply IH, obj_set_wf. Qed.

(** The layers name each of their skills once. *)
Lemma layers_nodup disk ironcurtain_home opts :
  disk_ok disk →
  NoDup (sk_name <$> (discoverSkills disk (getUserSkillsDir ironcurtain_home) UserSkill).1)
  ∧ NoDup (sk_name <$> persona_layer disk ironcurtain_home opts) ∧ NoDup (sk_name <$> workflow_layer disk opts).
Proof.
  intros Hok. split_and!; [by apply discover_nodup| |].
  - unfold persona_layer. cbv zeta. repeat case_match; try constructor. by apply discover_nodup.
  - unfold workflow_layer. cbv zeta. set (found := match rs_workflowSkillsDir opts with Some _ => _ | None => _ end).
    assert (NoDup (sk_name <$> found)) by (unfold found; repeat case_match; try constructor; by apply discover_nodup).
    case_match; [|done]. by eapply nodup_sublist; [apply filter_sublist|].
Qed.

(** *** The layers, as what the directories declare *)

(** A directory provides the skill that the lexicographically first of its directories
    with that name in the front matter declares. *)
Definition provides (disk : SkillsDisk) (root : string) (source : SkillSource) (s : ResolvedSkill) : Prop :=
  ∃ entries e found, disk root = Some entries ∧ e ∈ entries ∧ declares e = Some found ∧ s = skill_of root source e found
    ∧ ∀ e' found', e' ∈ entries → declares e' = Some found' → found'.1 = found.1 → str_le e.1 e'.1.

Definition workflow_provides (disk : SkillsDisk) (opts : ResolveSkillsOptions) (s : ResolvedSkill) : Prop :=
  ∃ dir, rs_workflowSkillsDir opts = Some dir ∧ dir ≠ "" ∧ provides disk dir WorkflowSkill s
    ∧ (∀ names, rs_workflowSkillFilter opts = Some names → sk_name s ∈ names).

Definition persona_provides (disk : SkillsDisk) (ironcurtain_home : option string) (opts : ResolveSkillsOptions) (s : ResolvedSkill) : Prop :=
  ∃ persona, rs_personaName opts = Some persona ∧ rs_workflowSkillsDir opts = None ∧ persona ≠ "global" ∧ valid_slug persona = true
    ∧ provides disk (getPersonaSkillsDir ironcurtain_home persona) PersonaSkill s.

Lemma discover_provides disk root source s :
  disk_ok disk → s ∈ (discoverSkills disk root source).1 ↔ provides disk root source s.
Proof.
  intros Hok. unfold discoverSkills, provides. cbn [fst]. destruct (disk root) as [entries|] eqn:E.
  - destruct (discover_first disk root source entries E (Hok _ _ E)) as (_ & Hin & _). rewrite Hin.
    split; [intros (e & found & ?); by exists entries, e, found|]. intros (entries' & e & found & [= <-] & ?). by exists e, found.
  - unfold discoverSkillsWithErrors. rewrite E. split; [by intros ?%elem_of_nil|]. by intros (? & ? & ? & ? & _).
Qed.

Lemma workflow_layer_provides disk opts s : disk_ok disk → s ∈ workflow_layer disk opts ↔ workflow_provides disk opts s.
Proof.
  intros Hok. unfold workflow_layer, workflow_provides. cbv zeta.
  assert (∀ l, s ∈ match rs_workflowSkillFilter opts with Some f => List.filter (λ s, includes f (sk_name s)) l | None => l end ↔
    s ∈ l ∧ ∀ names, rs_workflowSkillFilter opts = Some names → sk_name s ∈ names) as ->.
  { intros l. case_match; [|naive_solver]. rewrite !list_elem_of_In, filter_In, includes_spec. naive_solver. }
  destruct (rs_workflowSkillsDir opts) as [dir|]; [|split; [by intros [?%elem_of_nil _]|by intros (? & ? & _)]].
  case_match eqn:E; [apply bool_decide_eq_true in E|apply bool_decide_eq_false in E; rewrite discover_provides by done].
  - subst dir. split; [by intros [?%elem_of_nil _]|]. by intros (? & [= <-] & ? & _).
  - naive_solver.
Qed.

Lemma persona_layer_provides disk home opts s : disk_ok disk → s ∈ persona_layer disk home opts ↔ persona_provides disk home opts s.
Proof.
  intros Hok. unfold persona_layer, persona_provides, createPersonaName, validateSlug. cbv zeta.
  destruct (rs_personaName opts) as [persona|]; [|split; [by intros ?%elem_of_nil|by intros (? & ? & _)]].
  destruct (rs_workflowSkillsDir opts) as [dir|]; [split; [by intros ?%elem_of_nil|by intros (? & _ & ? & _)]|].
  cbn [negb andb]. rewrite bool_decide_eq_false_2 by (by intros [? ?]). cbn [negb andb].
  case_match eqn:E; [apply negb_true_iff, bool_decide_eq_false in E|apply negb_false_iff, bool_decide_eq_true in E].
  - destruct (valid_slug persona) eqn:V.
    { change (s ∈ (discoverSkills disk (getPersonaSkillsDir home persona) PersonaSkill).1 ↔
        ∃ p, Some persona = Some p ∧ None = @None string ∧ p ≠ "global" ∧ valid_slug p = true
          ∧ provides disk (getPersonaSkillsDir home p) PersonaSkill s).
      rewrite discover_provides by done. naive_solver. }
    cbn. split; [by intros ?%elem_of_nil|]. intros (? & [= <-] & _ & _ & ? & _). congruence.
  - split; [by intros ?%elem_of_nil|]. by intros (? & [= <-] & _ & ? & _).
Qed.

Lemma layer_names merged skills : NoDup (sk_name <$> skills) → (∀ name s, obj_get merged name = Some s → sk_name s = name) →
  ∀ name s, obj_get (layer merged skills) name = Some s → sk_name s = name.
Proof. intros Hd Hm name s. rewrite layer_get by done. intros [[_ ?]|[_ ?]]; auto. Qed.

Lemma values_names (merged : object ResolvedSkill) : obj_wf merged → (∀ name s, obj_get merged name = Some s → sk_name s = name) → sk_name <$> obj_values merged = obj_keys merged.
Proof.
  intros Hwf Hn. unfold obj_values, obj_keys. rewrite <- list_fmap_compose. apply list_fmap_ext. intros i [name s] Hi. cbn. apply Hn.
  apply elem_of_obj_get; [done|]. by apply list_elem_of_lookup_2 in Hi.
Qed.

(** A skill of the higher layer hides those of its name in the lower one. *)
Lemma not_named (skills : list ResolvedSkill) (P : ResolvedSkill → Prop) name :
  (∀ s, s ∈ skills ↔ P s) → name ∉ sk_name <$> skills ↔ ∀ s, P s → sk_name s ≠ name.
Proof.
  intros HP. split.
  - intros Hn s Hs <-. apply Hn, list_elem_of_fmap_2. by apply HP.
  - intros Hn (s & -> & Hs)%list_elem_of_fmap. by destruct (Hn s); [apply HP|].
Qed.
End layers.


(** ** Staging *)

Section staging_theory.
Context `{FileSystem} `{StagingDisk}.

(** The directory holds exactly the skills, each with all of its source and nothing else. *)
Definition staged (skills : list ResolvedSkill) (b : Bundle) : Prop :=
  ∀ name copies, obj_get b name = Some copies ↔ ∃ s, s ∈ skills ∧ sk_name s = name ∧ copies = [Whole (sk_sourceDir s)].

Lemma wipe_ok dir names b b' : wipe dir names b = (b', Ok ()) → ∀ child, child ∈ b' ↔ child ∈ b ∧ child.1 ∉ names.
Proof.
  revert b. induction names as [|name names IH]; intros b; cbn.
  - intros [= ->] child. split; [|by intros [? _]]. intros ?. split; [done|]. by intros ?%elem_of_nil.
  - case_match; [done|]. intros Hw child. rewrite (IH _ Hw), list_elem_of_filter, not_elem_of_cons. naive_solver.
Qed.

Lemma wipe_all dir b b' : wipe dir (obj_keys b) b = (b', Ok ()) → b' = [].
Proof.
  intros Hw. destruct b' as [|child b']; [done|]. destruct (proj1 (wipe_ok _ _ _ _ Hw child)) as [Hin Hn]; [left|].
  exfalso. apply Hn. unfold obj_keys. by apply list_elem_of_fmap_2.
Qed.

Lemma copy_ok dir skills b b' :
  copy_skills dir skills b = (b', Ok ()) → NoDup (sk_name <$> skills) → (∀ s, s ∈ skills → obj_get b (sk_name s) = None) →
  ∀ name copies, obj_get b' name = Some copies ↔
    (∃ s, s ∈ skills ∧ sk_name s = name ∧ copies = [Whole (sk_sourceDir s)]) ∨ (obj_get b name = Some copies).
Proof.
  revert b. induction skills as [|x skills IH]; intros b Hc Hd Hnew name copies; cbn in Hc.
  - injection Hc as ->. split; [by right|]. by intros [(? & ?%elem_of_nil & _)|?].
  - destruct (validateSkillName _); [|done]. case_match; [done|]. rewrite fmap_cons in Hd. apply NoDup_cons in Hd as [Hn Hd].
    assert (put_copy (sk_name x) (Whole (sk_sourceDir x)) b = obj_set b (sk_name x) [Whole (sk_sourceDir x)]) as Hput
      by (unfold put_copy; by rewrite Hnew by left).
    rewrite Hput in Hc. rewrite (IH _ Hc Hd), obj_get_set.
    + case_bool_decide as E.
      * subst name. split.
        -- intros [(s & Hs & Heq & ->)|[= <-]]; [exfalso; apply Hn; rewrite <- Heq; by apply list_elem_of_fmap_2|].
           left. exists x. split_and!; [left|done|done].
        -- intros [(s & [->|Hs]%elem_of_cons & Heq & ->)|Hb]; [by right|exfalso; apply Hn; rewrite <- Heq; by apply list_elem_of_fmap_2|].
           rewrite Hnew in Hb by left. done.
      * split.
        -- intros [(s & Hs & ? & ?)|?]; [left; exists s; split; [by right|done]|by right].
        -- intros [(s & [->|Hs]%elem_of_cons & ? & ?)|?]; [done|left; by exists s|by right].
    + intros s Hs. rewrite obj_get_set. case_bool_decide as E; [|apply Hnew; by right].
      exfalso. apply Hn. rewrite E. by apply list_elem_of_fmap_2.
Qed.

Lemma stage_ok skills destDir b b' :
  stageSkillsToBundle skills destDir b = (b', Ok ()) → NoDup (sk_name <$> skills) → staged skills b'.
Proof.
  unfold stageSkillsToBundle. cbv zeta. repeat (case_match; [done|]). destruct (wipe _ _ b) as [b1 [[]|]] eqn:Hw; [|done].
  apply wipe_all in Hw as ->. intros Hc Hd name copies. rewrite (copy_ok _ _ _ _ Hc Hd) by done. cbn. split; [by intros [?|]|by left].
Qed.

Lemma no_slash_chars s : str_includes s "/" = false → slash ∉ chars s.
Proof.
  induction s as [|a s IH]; [intros _; apply not_elem_of_nil|]. change (chars (String a s)) with (a :: chars s).
  cbn [str_includes String.prefix]. destruct (ascii_dec _ a) as [<-|Ha]; cbn [String.prefix orb]; [by destruct s|].
  intros Hs. apply not_elem_of_cons. split; [by intros <-|by apply IH].
Qed.

Lemma slash_includes s : str_includes s "/" = true → slash ∈ chars s.
Proof.
  induction s as [|a s IH]; [done|]. change (chars (String a s)) with (a :: chars s).
  cbn [str_includes String.prefix]. destruct (ascii_dec _ a) as [<-|Ha]; cbn [String.prefix orb]; [by left|]. intros Hs. right. by apply IH.
Qed.

(** Every name that is staged is one segment: its target is a child of the directory. *)
Lemma valid_name_segment name : validateSkillName name = Ok () → good_segment name.
Proof.
  unfold validateSkillName, good_segment. repeat (case_match; [done|]). intros _.
  repeat match goal with Hf : _ || _ = false |- _ => apply orb_false_iff in Hf as [? ?] | Hf : bool_decide _ = false |- _ => apply bool_decide_eq_false in Hf end.
  split_and!; try done. intros Hin. by apply no_slash_chars in Hin.
Qed.

Lemma copy_names dir skills b b' : copy_skills dir skills b = (b', Ok ()) → Forall (λ s, good_segment (sk_name s)) skills.
Proof.
  revert b. induction skills as [|x skills IH]; intros b; [constructor|]. cbn. destruct (validateSkillName _) as [[]|] eqn:Hv; [|done]. case_match; [done|].
  intros Hc. constructor; [by apply valid_name_segment|by eapply IH].
Qed.

Lemma stage_names skills destDir b b' : stageSkillsToBundle skills destDir b = (b', Ok ()) → Forall (λ s, good_segment (sk_name s)) skills.
Proof.
  unfold stageSkillsToBundle. cbv zeta. repeat (case_match; [done|]). destruct (wipe _ _ b) as [b1 [[]|]]; [|done]. apply copy_names.
Qed.

(** *** Signatures *)

(** A name and a path without the characters that separate them in a signature. *)
Definition plain (s : ResolvedSkill) : Prop :=
  ascii_of_nat 0 ∉ chars (sk_name s) ∧ nl ∉ chars (sk_name s) ∧ nl ∉ chars (sk_sourceDir s).

Lemma skill_line_inj s s' : plain s → plain s' → skill_line s = skill_line s' → sk_name s = sk_name s' ∧ sk_sourceDir s = sk_sourceDir s'.
Proof.
  unfold skill_line, plain. intros (Hz & _) (Hz' & _). revert Hz Hz'. generalize (sk_sourceDir s), (sk_sourceDir s'). intros d d'.
  generalize (sk_name s), (sk_name s'). clear. intros n. induction n as [|a n IH]; intros [|a' n'] Hz Hz' E; cbn in E.
  - by injection E as ->.
  - injection E as <- _. exfalso. apply Hz'. left.
  - injection E as -> _. exfalso. apply Hz. left.
  - injection E as <- E. apply not_elem_of_cons in Hz as [_ Hz]. apply not_elem_of_cons in Hz' as [_ Hz']. by destruct (IH n' Hz Hz' E) as [-> ->].
Qed.

Lemma skill_line_plain s : plain s → nl ∉ chars (skill_line s).
Proof.
  intros (_ & Hn & Hd). unfold skill_line. rewrite chars_app, elem_of_app. intros [?|Hin]; [done|].
  apply elem_of_cons in Hin as [Hin|?]; [by vm_compute in Hin|done].
Qed.

Lemma signature_lines skills skills' :
  Forall plain skills → Forall plain skills' → computeSignature skills = computeSignature skills' → skill_line <$> skills ≡ₚ skill_line <$> skills'.
Proof.
  intros Hp Hp'. unfold computeSignature.
  assert (∀ l, Forall plain l → Forall (λ s, nl ∉ chars s) (merge_sort str_le (skill_line <$> l))) as Hl.
  { intros l Hpl. rewrite merge_sort_Permutation, Forall_fmap. eapply Forall_impl; [exact Hpl|]. apply skill_line_plain. }
  assert (∀ l, skill_line <$> l ≠ [] → str_join newline (merge_sort str_le (skill_line <$> l)) ≠ "") as Hne.
  { intros l Hnl Heq. destruct (merge_sort str_le (skill_line <$> l)) as [|x r] eqn:E.
    - apply Hnl, Permutation_nil. by rewrite <- E, merge_sort_Permutation.
    - assert (x ∈ skill_line <$> l) as (s & -> & _)%list_elem_of_fmap by (rewrite <- (merge_sort_Permutation str_le), E; left).
      unfold skill_line in Heq. destruct r; cbn in Heq; destruct (sk_name s); done. }
  intros E. destruct (decide (skill_line <$> skills = [])) as [E1|E1], (decide (skill_line <$> skills' = [])) as [E2|E2].
  - by rewrite E1, E2.
  - exfalso. rewrite E1 in E. by apply (Hne skills' E2).
  - exfalso. rewrite E2 in E. by apply (Hne skills E1).
  - assert (∀ l, skill_line <$> l ≠ [] → merge_sort str_le (skill_line <$> l) ≠ []) as Hms.
    { intros l Hnl Hm. apply Hnl, Permutation_nil. by rewrite <- Hm, merge_sort_Permutation. }
    apply (f_equal (split_on nl)) in E. unfold newline in E. fold nl in E.
    rewrite (split_on_join_sep nl _ (Hms _ E1) (Hl _ Hp)), (split_on_join_sep nl _ (Hms _ E2) (Hl _ Hp')) in E.
    by rewrite <- (merge_sort_Permutation str_le (skill_line <$> skills)), E, merge_sort_Permutation.
Qed.

Lemma signature_staged skills skills' b :
  Forall plain skills → Forall plain skills' → computeSignature skills = computeSignature skills' → staged skills b → staged skills' b.
Proof.
  intros Hp Hp' Hs Hb name copies. rewrite (Hb name copies).
  pose proof (signature_lines _ _ Hp Hp' Hs) as Hperm. rewrite Forall_forall in Hp, Hp'.
  assert (∀ l l', (∀ s, s ∈ l → plain s) → (∀ s, s ∈ l' → plain s) → skill_line <$> l ≡ₚ skill_line <$> l' →
    (∃ s, s ∈ l ∧ sk_name s = name ∧ copies = [Whole (sk_sourceDir s)]) → ∃ s, s ∈ l' ∧ sk_name s = name ∧ copies = [Whole (sk_sourceDir s)]) as Hhalf.
  { intros l l' Hl Hl' Hll (s & Hin & <- & ->). pose proof (list_elem_of_fmap_2 skill_line _ _ Hin) as Hline. rewrite Hll in Hline.
    apply list_elem_of_fmap in Hline as (s' & Heq & Hin'). destruct (skill_line_inj s s') as [-> ->]; auto. by exists s'. }
  split; [by apply Hhalf|by apply Hhalf].
Qed.

(** *** The cached stager *)

Fixpoint stage_calls (destDir : string) (calls : list (list ResolvedSkill)) (c : CachedStager) : CachedStager * list (result bool) :=
  match calls with
  | [] => (c, [])
  | skills :: calls =>
      let '(c, r) := cached_stage destDir skills c in
      let '(c, rs) := stage_calls destDir calls c in (c, r :: rs)
  end.

(** What a stager whose calls all succeeded knows: its directory holds the set it remembers. *)
Definition remembers (skills : list ResolvedSkill) (c : CachedStager) : Prop :=
  Forall plain skills ∧ NoDup (sk_name <$> skills) ∧ Forall (λ s, good_segment (sk_name s)) skills ∧
  cg_lastSignature c = Some (computeSignature skills) ∧ staged skills (cg_bundle c).

Lemma same_names skills skills' :
  Forall plain skills → Forall plain skills' → computeSignature skills = computeSignature skills' →
  Forall (λ s, good_segment (sk_name s)) skills → Forall (λ s, good_segment (sk_name s)) skills'.
Proof.
  intros Hp Hp' Hs. pose proof (signature_lines _ _ Hp Hp' Hs) as Hperm. rewrite !Forall_forall in *. intros Hg s' Hin.
  pose proof (list_elem_of_fmap_2 skill_line _ _ Hin) as Hline. rewrite <- Hperm in Hline.
  apply list_elem_of_fmap in Hline as (s & Heq & Hin'). destruct (skill_line_inj s' s) as [-> _]; auto.
Qed.

Lemma cached_stage_remembers destDir skills c c' b :
  cached_stage destDir skills c = (c', Ok b) → Forall plain skills → NoDup (sk_name <$> skills) →
  cg_lastSignature c = None ∨ (∃ before, remembers before c) → remembers skills c'.
Proof.
  unfold cached_stage. cbv zeta. case_bool_decide as E.
  - intros [= <- <-] Hp Hd [Hn|(before & Hpb & Hdb & Hg & Hs & Hb)]; [congruence|].
    rewrite Hs in E. injection E as E. split_and!; [done|done|by eapply same_names|congruence|by eapply signature_staged].
  - destruct (stageSkillsToBundle _ _ _) as [b' [[]|]] eqn:Hst; [|done]. intros [= <- <-] Hp Hd _.
    split_and!; [done|done|by eapply stage_names|done|by eapply stage_ok].
Qed.

End staging_theory.

(** C35. What the container sees is the last set that was asked for, provided that no name
    of a skill holds a NUL or a line feed and no source directory a line feed (they separate
    the parts of a signature: with them two sets can share one, and then the second is not
    staged) and that the names of each set are distinct (a set comes out of the merge of the
    layers, which keeps one skill for a name).  Whatever the directory held before the first
    call, after calls of [createCachedStager]'s closure that all returned (copying or not),
    each child of the directory is a skill of the last set with the whole of its source and
    nothing else, every skill of that set is there, and each name is one path segment, so
    nothing was written above or below the children. *)
Theorem staging_follows_last `{FileSystem} `{StagingDisk} destDir calls last bundle :
  Forall (Forall plain) (calls ++ [last]) →
  Forall (λ skills, NoDup (sk_name <$> skills)) (calls ++ [last]) →
  let '(c, results) := stage_calls destDir (calls ++ [last]) {| cg_lastSignature := None; cg_bundle := bundle |} in
  Forall (λ r, ∃ copied, r = Ok copied) results →
  staged last (cg_bundle c) ∧ Forall (λ s, good_segment (sk_name s)) last.
Proof.
  set (c0 := {| cg_lastSignature := None; cg_bundle := bundle |}).
  assert (cg_lastSignature c0 = None ∨ ∃ before, remembers before c0) as Hc0 by by left.
  revert Hc0. generalize c0. clear c0. induction calls as [|skills calls IH]; intros c0 Hc0 Hp Hd; cbn.
  - inversion_clear Hp. inversion_clear Hd. destruct (cached_stage destDir last c0) as [c r] eqn:Hc.
    intros [(copied & ->) _]%Forall_cons. eapply cached_stage_remembers in Hc as (_ & _ & ? & _ & ?); done.
  - inversion_clear Hp. inversion_clear Hd. destruct (cached_stage destDir skills c0) as [c r] eqn:Hc.
    destruct (stage_calls destDir (calls ++ [last]) c) as [c' rs] eqn:Hs. intros [(copied & ->) Hr]%Forall_cons.
    specialize (IH c). rewrite Hs in IH. apply IH; try done. right. exists skills. by eapply cached_stage_remembers.
Qed.

(** ** On concrete skills *)

Local Instance shell_files : FileSystem := {| realpathSync := Some; cwd := "/work"; homedir := "/home/u" |}.
Local Instance sound_disk : StagingDisk := {| staging_fails := λ _, None |}.

Definition skill_at (name dir : string) : ResolvedSkill :=
  {| sk_name := name; sk_source := UserSkill; sk_sourceDir := dir; sk_description := "d" |}.
Definition pdf : ResolvedSkill := skill_at "pdf" "/home/u/skills/pdf".
Definition git : ResolvedSkill := skill_at "git" "/home/u/skills/git".

#[export] Instance plain_dec s : Decision (plain s).
Proof. unfold plain. apply _. Defined.

(** The third call of the three, with the skills in another order, copies nothing. *)
Lemma third_call_copies_nothing :
  (stage_calls "/b/skills" [[pdf]; [pdf; git]; [git; pdf]] {| cg_lastSignature := None; cg_bundle := [("old", [Foreign])] |}).2 =
  [Ok true; Ok true; Ok false].
Proof. by vm_compute. Qed.

Lemma staging_follows_last_witness :
  let '(c, _) := stage_calls "/b/skills" [[pdf]; [pdf; git]; [git; pdf]] {| cg_lastSignature := None; cg_bundle := [("old", [Foreign])] |} in
  staged [git; pdf] (cg_bundle c).
Proof.
  pose proof (staging_follows_last "/b/skills" [[pdf]; [pdf; git]] [git; pdf] [("old", [Foreign])]) as Hlast.
  change ([[pdf]; [pdf; git]] ++ [[git; pdf]]) with [[pdf]; [pdf; git]; [git; pdf]] in Hlast.
  assert (Forall (Forall plain) [[pdf]; [pdf; git]; [git; pdf]]) as Hp by (apply (bool_decide_unpack _); vm_compute; exact I).
  assert (Forall (λ skills, NoDup (sk_name <$> skills)) [[pdf]; [pdf; git]; [git; pdf]]) as Hd by (apply (bool_decide_unpack _); vm_compute; exact I).
  specialize (Hlast Hp Hd). pose proof third_call_copies_nothing as Hr.
  destruct (stage_calls _ _ _) as [c results]. cbn in Hr. subst results.
  apply Hlast. repeat constructor; by eexists.
Defined.

(** A call that throws leaves the signature of the set before it: asked for that set again,
    the stager copies nothing, and the directory keeps the part of the failed set. *)
Definition stale_calls : list (list ResolvedSkill) := [[pdf]; [git; skill_at "../x" "/home/u/x"]; [pdf]].

Lemma failed_call_keeps_signature :
  let '(c, results) := stage_calls "/b/skills" stale_calls {| cg_lastSignature := None; cg_bundle := [] |} in
  last results = Some (Ok false) ∧ cg_bundle c = [("git", [Whole "/home/u/skills/git"])] ∧ ¬ staged [pdf] (cg_bundle c).
Proof.
  destruct (stage_calls _ _ _) as [c results] eqn:E. vm_compute in E. injection E as <- <-. split_and!; [done|done|].
  intros Hs. cbn in Hs. pose proof (proj2 (Hs "pdf" [Whole "/home/u/skills/pdf"])) as Hpdf. cbn in Hpdf.
  discriminate Hpdf. exists pdf. split_and!; [left|done|done].
Qed.

(** A front matter that holds the name alone. *)
Local Instance name_only : FrontmatterYaml :=
  {| frontmatter_yaml := λ text, Ok (VObj [("name", VStr text); ("description", VStr "d")]) |}.
Definition manifest (name : string) : SkillEntry :=
  SkillDirectory (ManifestText ("---" +:+ newline +:+ name +:+ newline +:+ "---" +:+ newline)).

(** Two user directories claim pdf; the workflow has its own git and a skill its state does
    not list. *)
Definition two_layers : SkillsDisk := λ root,
  if root =? "/home/u/.ironcurtain/skills" then Some [("z", manifest "pdf"); ("notes.txt", NotADirectory); ("a", manifest "pdf"); ("g", manifest "git")]
  else if root =? "/flow/skills" then Some [("git", manifest "git"); ("other", manifest "other")]
  else None.
Definition in_workflow : ResolveSkillsOptions :=
  {| rs_personaName := Some "dev"; rs_workflowSkillsDir := Some "/flow/skills"; rs_workflowSkillFilter := Some ["git"]; rs_disableAllSkills := false |}.

Lemma two_layers_resolved :
  (λ s, (sk_name s, sk_sourceDir s)) <$> resolveSkillsForSession two_layers None in_workflow =
  [("pdf", "/home/u/.ironcurtain/skills/a"); ("git", "/flow/skills/git")].
Proof. by vm_compute. Qed.

Lemma two_layers_ok : disk_ok two_layers.
Proof.
  intros root entries. unfold two_layers. repeat (case_match; [intros [= <-]; apply (bool_decide_unpack _); by vm_compute|]). done.
Qed.

