(* ===== verification/StatusTheory.v ===== *)
(** * Status blocks and truncated outputs

    The lines and fences of a text that is put together from parts, and the bound of a
    truncated output, for any JavaScript string. *)

From Stdlib Require Import Ascii.
From S2P Require Import Prelude JsValue Paths WorkflowTypes StatusParser MachineBuilder.

(** ** Truncation *)

(** What truncation relies on: an empty text has no bytes, slicing keeps that many units,
    and appending adds at most the bytes of the parts. *)
Class TextLaws (T : Type) `{TextOps T} := {
  bytes_of_empty : ∀ t, text_len t = 0 → text_bytes t = 0;
  len_of_slice : ∀ n t, n ≤ text_len t → text_len (text_slice n t) = n;
  bytes_of_app : ∀ t u, text_bytes (text_app t u) ≤ text_bytes t + text_bytes u;
  notice_fits : text_bytes text_notice ≤ MAX_AGENT_OUTPUT_BYTES;
}.

Section truncation.
Context {T : Type} `{TextLaws T}.

(** The loop ends: each iteration shortens the text. *)
Lemma shrink_ends fuel budget (t : T) :
  text_len t ≤ fuel → ∃ r, shrink fuel budget t = Some r ∧ text_bytes r ≤ budget.
Proof.
  revert t. induction fuel as [|fuel IH]; intros t Hlen; cbn [shrink].
  - assert (text_bytes t = 0) as -> by (apply bytes_of_empty; lia).
    exists t. split; [done|]. rewrite bytes_of_empty by lia. lia.
  - destruct (budget <? text_bytes t)%nat eqn:E.
    + assert (Hpos : text_len t ≠ 0).
      { intros Hz. rewrite bytes_of_empty in E by done. apply Nat.ltb_lt in E. lia. }
      assert (Hlt : text_len t * 9 / 10 < text_len t) by (apply Nat.Div0.div_lt_upper_bound; lia).
      apply IH. rewrite len_of_slice by lia. lia.
    + exists t. split; [done|]. by apply Nat.ltb_ge.
Qed.

Lemma truncate_bounded (t : T) :
  ∃ r, truncate_text t = Some r ∧ text_bytes r ≤ MAX_AGENT_OUTPUT_BYTES
    ∧ (text_bytes (text_escape_nul t) ≤ MAX_AGENT_OUTPUT_BYTES → r = text_escape_nul t).
Proof.
  unfold truncate_text. destruct (_ <=? _)%nat eqn:E.
  - apply Nat.leb_le in E. by eexists.
  - apply Nat.leb_gt in E.
    destruct (shrink_ends (text_len (text_escape_nul t)) (MAX_AGENT_OUTPUT_BYTES - text_bytes text_notice)
      (text_escape_nul t)) as (r & Hr & Hb); [done|]. cbv zeta. rewrite Hr. csimpl.
    eexists. split; [done|]. split; [|lia].
    pose proof (bytes_of_app r text_notice). pose proof notice_fits. lia.
Qed.

End truncation.

Lemma utf16_bytes_app l k : utf16_bytes (l ++ k) ≤ utf16_bytes l + utf16_bytes k.
Proof.
  remember (length l) as n eqn:Hn. revert l Hn. induction n as [n IH] using lt_wf_ind.
  intros l ->. destruct l as [|u l]; [done|]. csimpl. pose proof (IH (length l) ltac:(csimpl; lia) l eq_refl) as Hl.
  destruct (u <? 128)%N; [lia|]. destruct (u <? 2048)%N; [lia|].
  destruct (is_high_surrogate u); [|lia]. destruct l as [|v l]; csimpl.
  - destruct k as [|w k]; [lia|]. csimpl. destruct (is_low_surrogate w) eqn:Hw; [|lia].
    unfold is_low_surrogate in Hw. bool_hyps.
    destruct (w <? 128)%N eqn:H1; [|destruct (w <? 2048)%N eqn:H2]; [lia..|].
    destruct (is_high_surrogate w) eqn:H3; [|lia].
    unfold is_high_surrogate in H3. bool_hyps. rewrite ?N.leb_le in *. lia.
  - destruct (is_low_surrogate v); [|csimpl in Hl; lia].
    pose proof (IH (length l) ltac:(csimpl; lia) l eq_refl). lia.
Qed.

Lemma utf16_notice_fits : (utf16_bytes text_notice <=? MAX_AGENT_OUTPUT_BYTES)%nat = true.
Proof. vm_compute. reflexivity. Qed.

#[export] Instance utf16_laws : TextLaws (list N).
Proof.
  split.
  - by intros [|].
  - intros n t Hn. change (length (take n t) = n). rewrite length_take. apply Nat.min_l, Hn.
  - apply utf16_bytes_app.
  - apply Nat.leb_le, utf16_notice_fits.
Qed.

(** The text is a string of code units; those of a latin-1 string are its characters. *)
Lemma escape_no_nul (l : list N) : 0%N ∉ @text_escape_nul _ utf16_text l.
Proof.
  change (0%N ∉ l ≫= λ u, if (u =? 0)%N then units_of "\x00" else [u]).
  intros (u & Hin & _)%list_elem_of_bind. destruct (u =? 0)%N eqn:E.
  - change (0%N ∈ [92; 120; 48; 48]%N) in Hin. rewrite !elem_of_cons, elem_of_nil in Hin. naive_solver.
  - apply N.eqb_neq in E. apply list_elem_of_singleton in Hin. congruence.
Qed.

Lemma shrink_no_nul fuel budget (t r : list N) :
  0%N ∉ t → shrink fuel budget t = Some r → 0%N ∉ r.
Proof.
  revert t. induction fuel as [|fuel IH]; intros t Ht; cbn [shrink]; destruct (_ <? _)%nat; intros;
    simplify_eq; try done.
  eapply IH; [|done]. change (0%N ∉ take (length t * 9 / 10) t). intros Hin.
  apply Ht. by apply (subseteq_take (length t * 9 / 10) t).
Qed.

Lemma truncate_no_nul (t r : list N) : truncate_text t = Some r → 0%N ∉ r.
Proof.
  unfold truncate_text. pose proof (escape_no_nul t) as Hn. destruct (_ <=? _)%nat; [intros; by simplify_eq|].
  cbv zeta. destruct (shrink _ _ _) as [s|] eqn:Hs; csimpl; [|done]. intros; simplify_eq.
  rewrite elem_of_app. intros [Hin|Hin]; [by eapply shrink_no_nul|].
  revert Hin. apply (bool_decide_unpack _). vm_compute. done.
Qed.

(** ** Lines of a text made of parts *)

Definition ends_line (s : string) : Prop := s = "" ∨ ∃ t, s = t +:+ newline.

Lemma lines_of_app s t : ends_line s → lines_of (s +:+ t) = lines_of s ++ lines_of t.
Proof.
  intros [->|[u ->]]; [done|]. rewrite str_app_assoc. induction u as [|a u IH]; [done|].
  rewrite !str_app_cons. cbn [lines_of]. rewrite IH. destruct (a =? nl); [done|].
  destruct (lines_of (u +:+ newline)) eqn:E; [|done]. exfalso.
  destruct u as [|b u]; [done|]. rewrite str_app_cons in E. cbn [lines_of] in E.
  destruct (b =? nl); [done|]. by destruct (lines_of _).
Qed.

Lemma lines_of_concat s : foldr String.append "" (lines_of s) = s.
Proof.
  induction s as [|a s IH]; [done|]. cbn [lines_of]. destruct (a =? nl); csimpl; [by rewrite IH|].
  destruct (lines_of s) as [|l ls]; csimpl in *; [by rewrite <-IH|].
  by rewrite <-IH.
Qed.

(** ** Fences of a text made of parts *)

Definition lines_length (lines : list string) : nat := String.length (foldr String.append "" lines).

(** The fence that is open after the lines. *)
Fixpoint open_after (start : nat) (open : option OpenFence) (lines : list string) : option OpenFence :=
  match lines with
  | [] => open
  | line :: lines =>
      let end_ := start + String.length line in
      match open with
      | Some o => open_after end_ (if closes o (line_content line) then None else open) lines
      | None => open_after end_ ((λ m, {| open_marker := m; open_start := start;
                  open_contentStart := end_ |}) <$> opens (line_content line)) lines
      end
  end.

Lemma scan_fences_app text start open l1 l2 :
  scan_fences text start open (l1 ++ l2) =
  scan_fences text start open l1
    ++ scan_fences text (start + lines_length l1) (open_after start open l1) l2.
Proof.
  unfold lines_length. revert start open. induction l1 as [|l l1 IH]; intros start open; csimpl.
  - by rewrite Nat.add_0_r.
  - rewrite str_length_app, Nat.add_assoc. destruct open as [o|].
    + destruct (closes o (line_content l)); csimpl; by rewrite IH.
    + destruct (opens (line_content l)); csimpl; by rewrite IH.
Qed.

(** Lines that do not close the open fence leave it open. *)
Lemma scan_no_close text start o lines :
  Forall (λ l, closes o (line_content l) = false) lines →
  scan_fences text start (Some o) lines = [] ∧ open_after start (Some o) lines = Some o.
Proof.
  intros H. revert start. induction H as [|l lines Hl _ IH]; intros start; [done|].
  cbn [scan_fences open_after]. rewrite Hl. apply IH.
Qed.

(** White space opens nothing. *)
Lemma space_is_no_marker s : str_forallb Ascii.is_space s = true → fence_marker s = None.
Proof.
  assert (Hskip : ∀ n s, str_forallb Ascii.is_space s = true → str_forallb Ascii.is_space (skip_spaces n s) = true).
  { intros n. induction n as [|n IH]; intros [|a s'] H; csimpl; try done.
    destruct (a =? " "%char); [|done]. apply IH. csimpl in H. by bool_hyps. }
  intros H. specialize (Hskip 3 s H). unfold fence_marker. destruct (skip_spaces 3 s) as [|a s']; [done|].
  csimpl in Hskip. bool_hyps.
  destruct ((a =? backtick) || (a =? tilde)) eqn:E; [|done].
  apply orb_true_iff in E as [E|E]; apply bool_decide_eq_true in E; subst; done.
Qed.

Lemma str_forallb_drop_end f n s : str_forallb f s = true → str_forallb f (str_drop_end n s) = true.
Proof. unfold str_drop_end. apply str_forallb_take. Qed.

Lemma space_line_content l :
  str_forallb Ascii.is_space l = true → str_forallb Ascii.is_space (line_content l) = true.
Proof.
  intros H. unfold line_content, chop. repeat case_match; auto using str_forallb_drop_end.
Qed.

Lemma lines_of_spaces s :
  str_forallb Ascii.is_space s = true → Forall (λ l, str_forallb Ascii.is_space l = true) (lines_of s).
Proof.
  induction s as [|a s IH]; [constructor|]. cbn [str_forallb lines_of]. intros [Ha Hs]%andb_true_iff.
  specialize (IH Hs). destruct (a =? nl).
  - constructor; [|done]. csimpl. by rewrite Ha.
  - destruct IH as [|l ls Hl Hls]; repeat constructor; csimpl; try done; by rewrite Ha.
Qed.

Lemma scan_spaces text start lines :
  Forall (λ l, str_forallb Ascii.is_space l = true) lines → scan_fences text start None lines = [].
Proof.
  intros H. revert start. induction H as [|l lines Hl _ IH]; intros start; [done|].
  cbn [scan_fences]. unfold opens. rewrite space_is_no_marker by by apply space_line_content. apply IH.
Qed.

(** ** A response that ends with a status block *)

Definition FENCE : string := "```".

(** The fence that the block is written in, wherever it starts. *)
Definition in_fence (start : nat) : OpenFence :=
  {| open_marker := FENCE; open_start := start; open_contentStart := start + 4 |}.

(** No line of the block closes a fence of three backticks. *)
Definition fits_fence (block : string) : Prop :=
  Forall (λ l, closes (in_fence 0) (line_content l) = false) (lines_of block).

(** The fences of the body are closed. *)
Definition closed_body (body : string) : Prop :=
  ends_line body ∧ open_after 0 None (lines_of body) = None.

(** Nothing but white space, from the next line on. *)
Definition blank_tail (tail : string) : Prop :=
  str_forallb Ascii.is_space tail = true ∧ (tail = "" ∨ ∃ t, tail = newline +:+ t).

Definition fenced (body block tail : string) : string :=
  body +:+ ((FENCE +:+ newline) +:+ (block +:+ (FENCE +:+ tail))).

Lemma scan_closing_line text start o tail :
  open_marker o = FENCE → blank_tail tail →
  ∃ e, scan_fences text start (Some o) (lines_of (FENCE +:+ tail)) =
    [{| rawBlock := str_slice (open_contentStart o) start text; fence_start := open_start o;
        fence_end := e |}]
    ∧ (e = start + 3 ∨ e = start + 4).
Proof.
  intros Ho [Hsp Htail].
  assert (Hclose : ∀ l, line_content l = FENCE → closes o (line_content l) = true).
  { intros l ->. unfold closes. rewrite Ho. vm_compute. done. }
  destruct Htail as [->|[t ->]].
  - change (lines_of (FENCE +:+ "")) with [FENCE]. cbn [scan_fences].
    rewrite Hclose by by vm_compute. eexists. split; [done|]. by left.
  - change (lines_of (FENCE +:+ newline +:+ t)) with ((FENCE +:+ newline) :: lines_of t). cbn [scan_fences].
    rewrite Hclose by by vm_compute. rewrite scan_spaces.
    + eexists. split; [done|]. by right.
    + apply lines_of_spaces. rewrite str_forallb_app in Hsp. by bool_hyps.
Qed.

Lemma closes_marker o o' content :
  open_marker o = open_marker o' → closes o content = closes o' content.
Proof. unfold closes. by intros ->. Qed.

Lemma str_drop_drop n m s : str_drop m (str_drop n s) = str_drop (n + m) s.
Proof.
  revert s. induction n as [|n IH]; intros s; [done|]. destruct s; csimpl; [by destruct m|]. apply IH.
Qed.

(** The final fence of such a response is its block. *)
Lemma final_fence body block tail :
  closed_body body → ends_line block → fits_fence block → blank_tail tail →
  ∃ e, last (findFencedBlocks (fenced body block tail)) =
      Some {| rawBlock := block; fence_start := String.length body; fence_end := e |}
    ∧ str_forallb Ascii.is_space (str_drop e (fenced body block tail)) = true.
Proof.
  intros [Hbl Hopen] Hblock Hfit Htail. unfold findFencedBlocks. set (text := fenced body block tail).
  assert (Hlines : lines_of text = lines_of body ++ [FENCE +:+ newline] ++ lines_of block ++ lines_of (FENCE +:+ tail)).
  { unfold text, fenced. rewrite lines_of_app by done. f_equal.
    rewrite lines_of_app by (right; by exists FENCE). f_equal. by rewrite lines_of_app. }
  set (n := String.length body).
  assert (Hfit' : Forall (λ l, closes (in_fence n) (line_content l) = false) (lines_of block)).
  { eapply Forall_impl; [exact Hfit|]. intros l. by rewrite (closes_marker (in_fence n) (in_fence 0)). }
  rewrite Hlines, scan_fences_app, Hopen. unfold lines_length. rewrite lines_of_concat. fold n.
  change (scan_fences text (0 + n) None ([FENCE +:+ newline] ++ lines_of block ++ lines_of (FENCE +:+ tail)))
    with (scan_fences text (n + 4) (Some (in_fence n)) (lines_of block ++ lines_of (FENCE +:+ tail))).
  rewrite (scan_fences_app text (n + 4)). destruct (scan_no_close text (n + 4) _ _ Hfit') as [-> ->].
  unfold lines_length. rewrite lines_of_concat. set (k := String.length block).
  destruct (scan_closing_line text (n + 4 + k) (in_fence n) tail eq_refl Htail) as (e & -> & He).
  assert (Hd : str_drop (n + 4) text = block +:+ (FENCE +:+ tail)).
  { unfold text, fenced. rewrite <-str_app_assoc.
    replace (n + 4) with (String.length (body +:+ (FENCE +:+ newline))) by (by rewrite str_length_app).
    apply str_drop_app. }
  exists e. split.
  - rewrite app_nil_l, last_snoc. csimpl. unfold str_slice. rewrite Hd.
    replace (n + 4 + k - (n + 4)) with k by lia. unfold k. by rewrite str_take_app.
  - assert (Hd2 : str_drop (n + 4 + k + 3) text = tail).
    { rewrite <-(str_drop_drop (n + 4 + k)), <-(str_drop_drop (n + 4)), Hd. unfold k.
      by rewrite str_drop_app, (str_drop_app FENCE). }
    destruct Htail as [Hsp _]. destruct He as [-> | ->]; [by rewrite Hd2|].
    replace (n + 4 + k + 4) with (n + 4 + k + 3 + 1) by lia. rewrite <-str_drop_drop, Hd2.
    destruct tail; csimpl in *; [done|]. by bool_hyps.
Qed.

Lemma final_fence_stripped body block tail :
  closed_body body → ends_line block → fits_fence block → blank_tail tail → is_status_block block = true →
  ∃ f, extractFinalStatusFence (fenced body block tail) = Some f ∧ rawBlock f = block
    ∧ stripStatusBlock (fenced body block tail) = trimEnd body.
Proof.
  intros Hbody Hbl Hfit Htail Hst.
  destruct (final_fence body block tail Hbody Hbl Hfit Htail) as (e & Hlast & Hsp).
  eexists. assert (Hf : extractFinalStatusFence (fenced body block tail) =
    Some {| rawBlock := block; fence_start := String.length body; fence_end := e |}).
  { unfold extractFinalStatusFence. rewrite Hlast. unfold isStatusFence. csimpl. by rewrite Hst, Hsp. }
  split; [done|]. split; [done|]. unfold stripStatusBlock. rewrite Hf. csimpl.
  unfold fenced. by rewrite str_take_app.
Qed.
