(* ===== verification/Demo.v ===== *)
(** * A concrete environment

    A small filesystem with a symbolic link that leaves the sandbox, and proofs
    that it satisfies the laws of [FileSystemLaws].  The witnesses evaluate the
    development on it. *)

From Stdlib Require Import QArith Qcanon.
From S2P Require Import Prelude JsValue Paths Urls Roles Domains PolicyTypes PolicyEngine.
From S2P Require Import PathArgs Hashing CircuitBreaker Tools EscalationIpc AutoApprover ProxyTools AuditLog.
From S2P Require Import Whitelist PolicyEngineTheory Pipeline.

(** ["/sandbox/link"] is a symbolic link to ["/etc"]. *)
Definition demo_follow (segs : list string) : list string :=
  match segs with
  | a :: b :: t => if (a =? "sandbox") && (b =? "link") then "etc" :: t else segs
  | _ => segs
  end.

Definition demo_files : list (list string) :=
  [[]; ["etc"]; ["etc"; "passwd"]; ["sandbox"]; ["sandbox"; "a.txt"]; ["home"]; ["home"; "me"];
   ["home"; "me"; "docs"]; ["home"; "me"; "docs"; "n.txt"]; ["work"]].

Definition demo_realpath (p : string) : option string :=
  let segs := path_segments p in
  if (p =? render segs) && bool_decide (demo_follow segs ∈ demo_files)
  then Some (render (demo_follow segs)) else None.

#[export] Instance demo_fs : FileSystem := {|
  realpathSync := demo_realpath;
  cwd := "/work";
  homedir := "/home/me";
|}.

Lemma demo_files_good segs : segs ∈ demo_files → Forall good_segment segs.
Proof.
  assert (Hall : Forall (Forall good_segment) demo_files).
  { repeat constructor; try done; vm_compute; set_solver. }
  rewrite Forall_forall in Hall. apply Hall.
Qed.

Lemma demo_realpath_Some p q : demo_realpath p = Some q →
  ∃ segs, p = render segs ∧ demo_follow segs ∈ demo_files ∧ q = render (demo_follow segs) ∧
          path_segments p = segs.
Proof.
  unfold demo_realpath. case_match eqn:Hc; [|done]. bool_hyps. intros [= <-]. eauto.
Qed.

Lemma demo_follow_app d t : demo_follow d ∈ demo_files →
  demo_follow (demo_follow d ++ t) = demo_follow (d ++ t).
Proof.
  destruct d as [|a [|b d]]; try done. simpl.
  destruct ((a =? "sandbox") && (b =? "link")) eqn:Hab; simpl.
  - intros _. destruct d as [|c d]; [destruct t|]; done.
  - intros _. by rewrite Hab.
Qed.

Lemma demo_realpath_render segs : Forall good_segment segs →
  demo_realpath (render segs) =
  if decide (demo_follow segs ∈ demo_files) then Some (render (demo_follow segs)) else None.
Proof.
  intros Hg. unfold demo_realpath. rewrite path_segments_render by done.
  rewrite bool_decide_eq_true_2 by done. simpl. by case_decide; case_bool_decide.
Qed.

Lemma demo_follow_idem d : demo_follow d ∈ demo_files → demo_follow (demo_follow d) = demo_follow d.
Proof.
  intros Hd. pose proof (demo_follow_app d [] Hd) as Hf. by rewrite !app_nil_r in Hf.
Qed.

#[export] Instance demo_fs_laws : FileSystemLaws.
Proof.
  split.
  - intros p q (segs & -> & Hf & -> & _)%demo_realpath_Some.
    by apply canonical_render, demo_files_good.
  - intros p q (segs & -> & Hf & -> & _)%demo_realpath_Some.
    cbn [realpathSync demo_fs]. pose proof (demo_follow_idem _ Hf) as Hi.
    rewrite demo_realpath_render by (by apply demo_files_good).
    rewrite Hi. by rewrite decide_True.
  - intros d r t Hd Hr Ht. cbn [realpathSync demo_fs].
    rewrite demo_realpath_render by done. case_decide as Hf; [|done].
    intros Heq%(inj Some). apply render_inj in Heq as <-; [|by apply demo_files_good|done].
    rewrite !demo_realpath_render by (by apply Forall_app).
    by rewrite demo_follow_app.
  - exists ["work"]. split; [|done]. by apply demo_files_good; vm_compute; set_solver.
Qed.

(** ** URLs and git *)

(** [scheme://host/path], nothing else. *)
Record demo_url := { du_scheme : string; du_host : string; du_path : string }.

Definition demo_newURL (s : string) : option demo_url :=
  match str_indexOf s "://" with
  | None => None
  | Some i =>
      let rest := str_drop (i + 3) s in
      match str_indexOf rest "/" with
      | Some j => Some {| du_scheme := str_take i s; du_host := str_take j rest;
                          du_path := str_drop j rest |}
      | None => Some {| du_scheme := str_take i s; du_host := rest; du_path := "/" |}
      end
  end.

#[export] Instance demo_url_parser : UrlParser := {|
  url := demo_url;
  newURL := demo_newURL;
  url_hostname := du_host;
  url_pathname := du_path;
  url_set_pathname u p := {| du_scheme := du_scheme u; du_host := du_host u; du_path := p |};
  url_href u := du_scheme u +:+ "://" +:+ du_host u +:+ du_path u;
|}.

(** A repository at ["/sandbox"] whose origin is a scp-style remote. *)
#[export] Instance demo_git : GitCli := λ cwd args,
  if (cwd =? "/sandbox") && (args =? ["remote"; "get-url"; "origin"])
  then Some ("git@github.com:me/repo.git" +:+ newline) else None.

(** An injective stand-in for the digest. *)
#[export] Instance demo_runtime : Runtime := {|
  sha256_hex s := s;
  number_to_string q := show_Z (Qnum (this q)) +:+ "/" +:+ show_Z (Zpos (Qden (this q)));
  json_parse s := if s =? "{}" then Some (VObj []) else
    if startsWith s "approved" then Some (VObj [("decision", VStr "approved")]) else None;
  json_stringify v := default "" (value_strings v !! 0);
  date_parse s := None;
|}.

(** ** A policy *)

Definition demo_tool (server tool : string) (args : object ArgumentRoleSpec) : StoredToolAnnotation :=
  {| sa_toolName := tool; sa_serverName := server; sa_comment := ""; sa_args := args;
     sa_inputSchema := [] |}.

Definition demo_server (tools : list StoredToolAnnotation) : ServerAnnotations StoredToolAnnotation :=
  {| srv_inputHash := ""; srv_tools := tools |}.

Definition demo_annotations : StoredToolAnnotationsFile :=
  {| af_generatedAt := "";
     af_servers :=
       [("filesystem", demo_server
           [demo_tool "filesystem" "read_files" [("paths", SpecStatic [ReadPath])];
            demo_tool "filesystem" "move_file"
              [("source", SpecStatic [ReadPath; DeletePath]);
               ("destination", SpecStatic [WritePath])]]);
        ("git", demo_server
           [demo_tool "git" "git_push"
              [("path", SpecStatic [ReadPath]); ("remote", SpecStatic [GitRemoteUrl])]]);
        ("fetch", demo_server
           [demo_tool "fetch" "fetch" [("url", SpecStatic [FetchUrl])]])] |}.

Definition demo_condition : CompiledRuleCondition :=
  {| c_roles := None; c_server := None; c_tool := None; c_paths := None; c_domains := None;
     c_lists := None |}.

Definition demo_rule (name : string) (c : CompiledRuleCondition) (d : Decision) : CompiledRule :=
  {| r_name := name; r_description := ""; r_principle := ""; r_if := c; r_then := d;
     r_reason := name |}.

Definition demo_rules : list CompiledRule :=
  [demo_rule "allow-docs"
     (set_paths demo_condition (Some {| pc_roles := [ReadPath]; pc_within := "/home/me/docs" |})) Allow;
   demo_rule "allow-trusted-fetch"
     (set_domains demo_condition
        (Some {| dc_roles := [FetchUrl]; dc_allowed := ["@trusted"; "example.org"] |})) Allow;
   demo_rule "ask-remote"
     {| c_roles := Some [GitRemoteUrl]; c_server := Some ["git"]; c_tool := None; c_paths := None;
        c_domains := None; c_lists := None |} Escalate].

Definition demo_policy : CompiledPolicyFile :=
  {| cp_generatedAt := ""; cp_constitutionHash := ""; cp_inputHash := ""; cp_rules := demo_rules;
     cp_listDefinitions := None; cp_skippedServers := None |}.

Definition demo_lists : DynamicListsFile :=
  {| dl_generatedAt := "";
     dl_lists := [("trusted", {| rl_values := ["news.com"; "bad.com"];
                                 rl_manualAdditions := ["*.wiki.org"];
                                 rl_manualRemovals := ["bad.com"];
                                 rl_resolvedAt := ""; rl_inputHash := "" |})] |}.

Definition demo_engine : PolicyEngine :=
  newPolicyEngine demo_policy demo_annotations ["/etc"; "/home/me/.ironcurtain"] (Some "/sandbox")
    (Some (<["fetch" := ["*"]]> ∅)) (Some demo_lists) (Some {["memory"]}).

Definition demo_request (server tool : string) (args : object jsvalue) : ToolCallRequest :=
  {| rq_requestId := "r1"; rq_serverName := server; rq_toolName := tool; rq_arguments := args;
     rq_timestamp := "" |}.

(** A call whose paths are in the sandbox and in the documents folder. *)
Definition demo_read : ToolCallRequest :=
  demo_request "filesystem" "read_files"
    [("paths", VArr [VStr "/sandbox/a.txt"; VStr "~/docs/n.txt"])].
Definition demo_push : ToolCallRequest :=
  demo_request "git" "git_push" [("path", VStr "/sandbox")].
Definition demo_escape : ToolCallRequest :=
  demo_request "filesystem" "read_files" [("paths", VArr [VStr "/sandbox/link/passwd"])].
Definition demo_fetch (u : string) : ToolCallRequest :=
  demo_request "fetch" "fetch" [("url", VStr u)].

(** * A concrete world for the pipeline

    Servers that answer, a human with a fixed decision, a clock that advances one
    second per interaction, and a dependency record around [demo_engine]. *)

Definition demo_control : ControlApi :=
  {| addDomain _ := Ok true; removeDomain _ := Ok true; listDomains := Ok (VArr []) |}.

(** The model of the auto-approver is only asked when it is configured. *)
Definition demo_world (human : HumanDecision) : World := {|
  w_uuid t := "uuid-" +:+ show_nat t;
  w_now t := (1000 * Z.of_nat t)%Z;
  w_isoNow t := "iso-" +:+ show_nat t;
  w_append _ _ := None;
  w_callTool _ _ _ _ := inl [("content", textContent "done")];
  w_sendRootsListChanged _ _ := inl true;
  w_generateText _ _ := Ok (Some {| aa_decision := AutoApprove; aa_reasoning := "as asked" |});
  w_userContext _ _ := None;
  w_onEscalation _ _ := inl {| esc_decision := human; esc_whitelistSelection := None |};
  w_pollClock t j := (1000 * Z.of_nat t + 500 * Z.of_nat j)%Z;
  w_responseFile _ j := if j =? 3 then FileText "approved" else NoFile;
  w_requestWrite _ := None;
  w_controlApi _ := demo_control;
  w_interfere _ sh := sh;
|}.

Definition demo_proxied (server tool : string) : ProxiedTool :=
  {| pt_serverName := server; pt_name := tool; pt_description := None; pt_inputSchema := [] |}.

Definition demo_tools : list ProxiedTool :=
  [demo_proxied "filesystem" "read_files"; demo_proxied "git" "git_push";
   demo_proxied "fetch" "fetch"].

(** [inProcess]: escalations go to a handler of the process, or to files. *)
Definition demo_deps (inProcess : bool) (userMessage : option string) : CallToolDeps PolicyEngine := {|
  d_toolMap := buildToolMap demo_tools;
  d_policyEngine := demo_engine;
  d_sandboxed := ∅;
  d_allowedDirectory := Some "/sandbox";
  d_escalationDir := Some "/home/me/escalations";
  d_autoApproveModel := is_some userMessage;
  d_controlApiClient := true;
  d_onEscalation := inProcess;
  d_autoApproveUserMessage := userMessage;
  d_persona := None;
  d_isPtySession := false;
  d_escalationTimeout := None;
|}.

Definition demo_shared : Shared := {|
  sh_audit := newAuditLog None None;
  sh_breaker := newCallCircuitBreaker None;
  sh_whitelist := [];
  sh_roots := <["git" := []]> (<["filesystem" := []]> ∅);
  sh_context := ∅;
|}.

Definition demo_state : PipelineState :=
  {| st_shared := demo_shared; st_tick := 1; st_trace := [] |}.

Definition demo_push_args : object jsvalue := [("path", VStr "/sandbox")].

Definition demo_identity : RequestContext := {| rx_requestId := "r1"; rx_timestamp := "t1" |}.

(** A push, which the demo policy escalates. *)
Definition demo_run (human : HumanDecision) (inProcess : bool) (userMessage : option string)
    : PipelineState * (ToolCallResponse + JsError) :=
  handleCallTool (H2 := demo_world human) (demo_deps inProcess userMessage) "git_push"
    demo_push_args (Some demo_identity) demo_state.
