(* ===== verification/SessionTheory.v ===== *)
(** * Theory of the agent session

    What an event leaves alone: the tracker changes only by its operations, code
    runs only behind the guards, and the events inside a turn keep its messages. *)

From Stdlib Require Import QArith Qcanon.
From S2P Require Import Prelude JsValue Hashing Numbers StepLoop Budget Messages Session.
From S2P Require Import Demo.

Section theory.
Context `{Runtime, Locale}.
Implicit Types (s : AgentSession) (t : ActiveTurn) (e : Event) (b : ResourceBudgetTracker).

(** ** Tracker operations other than starting a turn *)

Definition tracker_steps b b' : Prop :=
  ∃ ops, Forall (λ op : Z * TrackerOp, op.2 ≠ OpStartTurn) ops ∧ b' = run_ops b ops.

#[export] Instance tracker_steps_refl : Reflexive tracker_steps.
Proof. intros b. by exists []. Qed.

#[export] Instance tracker_steps_trans : Transitive tracker_steps.
Proof.
  intros b1 b2 b3 (o1 & H1 & ->) (o2 & H2 & ->). exists (o1 ++ o2).
  split; [by apply Forall_app|]. unfold run_ops. by rewrite foldl_app.
Qed.

Lemma tracker_steps_op b now op : op ≠ OpStartTurn → tracker_steps b (apply_op b (now, op)).
Proof. intros Hop. exists [(now, op)]. split; [by constructor|done]. Qed.

Lemma tracker_steps_isExhausted now b : tracker_steps b (isExhausted now b).1.
Proof. by apply (tracker_steps_op b now OpIsExhausted). Qed.

Lemma tracker_steps_endTurn now b : tracker_steps b (endTurn now b).
Proof. by apply (tracker_steps_op b now OpEndTurn). Qed.

Lemma tracker_steps_warnings b : tracker_steps b (getActiveWarnings b).1.
Proof. by apply (tracker_steps_op b 0 OpGetActiveWarnings). Qed.

Lemma tracker_steps_recordSteps now us b : tracker_steps b (recordSteps now us b).1.
Proof.
  revert b. induction us as [|u us IH]; intros b; simpl; [done|].
  pose proof (tracker_steps_op b now (OpRecordStep u) ltac:(done)) as Hs.
  unfold apply_op in Hs. simpl in Hs.
  destruct (recordStep now u b) as [b1 [|v]]; simpl in *; [|done].
  by trans b1.
Qed.

Lemma tracker_steps_stopCondition now us p b : tracker_steps b (stopCondition now us p b).1.1.
Proof.
  unfold stopCondition. pose proof (tracker_steps_recordSteps now (drop p us) b) as Hs.
  destruct (recordSteps _ _ _) as [b1 []]; [done|]. simpl in Hs.
  pose proof (tracker_steps_isExhausted now b1). destruct (isExhausted now b1). by trans b1.
Qed.

(** The verdict stays latched without a new turn. *)
Lemma tracker_steps_latched b b' v :
  tracker_steps b b' → exhaustedVerdict b = Some v → exhaustedVerdict b' = Some v.
Proof.
  intros (ops & Hops & ->). revert b. induction Hops as [|[now op] ops Hop _ IH]; intros b Hb; [done|].
  apply (IH (apply_op b (now, op))). clear IH. unfold apply_op. simpl in *.
  destruct op as [| | |u|]; try done.
  - unfold endTurn. by case_match.
  - unfold isExhausted. by rewrite Hb.
  - by rewrite (recordStep_latched now u b v Hb).
Qed.

Lemma tracker_steps_inv config pricing b b' :
  limits_positive config → tracker_steps b b' →
  budget_inv config pricing b → budget_inv config pricing b'.
Proof.
  intros Hl (ops & _ & ->). revert b. induction ops as [|op ops IH]; intros b Hb; [done|].
  apply (IH (apply_op b op)). by apply budget_inv_op.
Qed.

(** ** Frames *)

(** What neither the turn machinery nor the guards change. *)
Definition frame s :=
  (ss_config s, ss_sandbox s, ss_closing s, ss_model s, ss_cacheStrategy s, ss_running s).

Definition guards_frame s := (frame s, ss_loopDetector s, ss_compactor s).

Lemma guards_frame_fields s s' :
  guards_frame s' = guards_frame s →
  frame s' = frame s ∧ ss_loopDetector s' = ss_loopDetector s ∧ ss_compactor s' = ss_compactor s.
Proof.
  intros Hg. split_and!;
    [exact (f_equal (λ x, x.1.1) Hg)|exact (f_equal (λ x, x.1.2) Hg)|exact (f_equal snd Hg)].
Qed.

Lemma failTurn_spec now f t s :
  let '(s', out) := failTurn now f t s in
  guards_frame s' = guards_frame s ∧
  ss_status s' = Ready ∧ ss_active s' = None ∧
  ss_messages s' = set_length (at_messageCountBefore t) (ss_messages s) ∧
  tracker_steps (ss_budgetTracker s) (ss_budgetTracker s') ∧
  ∃ err, out = [OReject err] ∧ (∀ err', f = TurnError err' → err = err').
Proof.
  unfold failTurn. destruct f as [|err]; simpl.
  - pose proof (tracker_steps_isExhausted now (ss_budgetTracker s)) as Hx.
    destruct (isExhausted now _) as [b v]; simpl in *. split_and!; try done.
    + trans b; [done|apply tracker_steps_endTurn].
    + eexists. split; [done|]. intros. done.
  - split_and!; try done; [apply tracker_steps_endTurn|].
    eexists. split; [done|]. naive_solver.
Qed.

Lemma beginGeneration_spec now t s :
  let '(s', out) := beginGeneration now t s in
  guards_frame s' = guards_frame s ∧ tracker_steps (ss_budgetTracker s) (ss_budgetTracker s') ∧
  ((ss_active s' = Some (in_phase AwaitGeneration t) ∧ ss_messages s' = ss_messages s ∧
    ss_status s' = ss_status s ∧ ∃ l, out = [OModelCall l]) ∨
   (ss_active s' = None ∧ ss_status s' = Ready ∧
    ss_messages s' = set_length (at_messageCountBefore t) (ss_messages s) ∧
    ∃ err, out = [OReject err] ∧ err ≠ SessionClosedError)).
Proof.
  unfold beginGeneration.
  assert (Hfail : ∀ err, err ≠ SessionClosedError →
    let '(s', out) := failTurn now (TurnError err) t s in
    guards_frame s' = guards_frame s ∧ tracker_steps (ss_budgetTracker s) (ss_budgetTracker s') ∧
    ((ss_active s' = Some (in_phase AwaitGeneration t) ∧ ss_messages s' = ss_messages s ∧
      ss_status s' = ss_status s ∧ ∃ l, out = [OModelCall l]) ∨
     (ss_active s' = None ∧ ss_status s' = Ready ∧
      ss_messages s' = set_length (at_messageCountBefore t) (ss_messages s) ∧
      ∃ err, out = [OReject err] ∧ err ≠ SessionClosedError))).
  { intros err Hne. pose proof (failTurn_spec now (TurnError err) t s) as Hf.
    destruct (failTurn _ _ _ _). destruct Hf as (? & ? & ? & ? & ? & err' & ? & He).
    assert (err' = err) as -> by eauto. split_and!; [done..|]. right. eauto 10. }
  destruct (negb (ss_model s)); [by apply Hfail|].
  destruct (applyHistoryBreakpoint _ _); [|by apply Hfail].
  simpl. split_and!; [done|done|]. left. eauto.
Qed.

Lemma emitToolCalls_frame tcs s :
  let s' := foldl emitToolCall s tcs in
  guards_frame s' = guards_frame s ∧ ss_budgetTracker s' = ss_budgetTracker s ∧
  ss_active s' = ss_active s ∧ ss_messages s' = ss_messages s ∧ ss_status s' = ss_status s.
Proof.
  revert s. induction tcs as [|[name [code|]] tcs IH]; intros s; simpl; [done| |apply IH].
  destruct (name =? "execute_code"); [|apply IH].
  destruct (IH (emitDiagnostic (DiagToolCall name (codePreview code)) s)) as (-> & -> & -> & -> & ->).
  done.
Qed.

Lemma emitWarnings_frame (f : BudgetWarningVerdict → DiagnosticEvent) ws s :
  let s' := foldl (λ s w, emitDiagnostic (f w) s) s ws in
  guards_frame s' = guards_frame s ∧ ss_budgetTracker s' = ss_budgetTracker s ∧
  ss_active s' = ss_active s ∧ ss_messages s' = ss_messages s ∧ ss_status s' = ss_status s.
Proof.
  revert s. induction ws as [|w ws IH]; intros s; simpl; [done|].
  by destruct (IH (emitDiagnostic (f w) s)) as (-> & -> & -> & -> & ->).
Qed.

Lemma onStepFinish_frame usage tcs text s :
  let s' := onStepFinish usage tcs text s in
  guards_frame s' = guards_frame s ∧
  tracker_steps (ss_budgetTracker s) (ss_budgetTracker s') ∧
  ss_active s' = ss_active s ∧ ss_messages s' = ss_messages s ∧ ss_status s' = ss_status s.
Proof.
  unfold onStepFinish, emitBudgetWarnings. cbv zeta.
  set (s0 := set_conversation _ _ _ s).
  destruct (emitToolCalls_frame tcs s0) as (Hg & Hb & Ha & Hm & Hst).
  set (s1 := foldl emitToolCall s0 tcs) in *.
  set (s2 := if text =? "" then s1 else _).
  assert (H2 : guards_frame s2 = guards_frame s1 ∧ ss_budgetTracker s2 = ss_budgetTracker s1 ∧
    ss_active s2 = ss_active s1 ∧ ss_messages s2 = ss_messages s1 ∧ ss_status s2 = ss_status s1).
  { subst s2. by destruct (text =? ""). }
  destruct H2 as (Hg2 & Hb2 & Ha2 & Hm2 & Hst2).
  pose proof (tracker_steps_warnings (ss_budgetTracker s2)) as Hw.
  destruct (getActiveWarnings _) as [b ws]. simpl in Hw.
  destruct (emitWarnings_frame (λ w, DiagBudgetWarning (dimension_name (wv_dimension w))
    (wv_percentUsed w) (wv_message w)) ws (set_tracker b s2)) as (-> & -> & -> & -> & ->).
  simpl. rewrite Ha2, Hm2, Hst2, Ha, Hm, Hst. rewrite Hb2, Hb in Hw.
  split_and!; [|done..]. trans (guards_frame s2); [done|]. by rewrite Hg2, Hg.
Qed.

Lemma applyLoopVerdict_spec code output s :
  let '(s', out) := applyLoopVerdict code output s in
  frame s' = frame s ∧ ss_compactor s' = ss_compactor s ∧ ss_budgetTracker s' = ss_budgetTracker s ∧
  ss_active s' = ss_active s ∧ ss_messages s' = ss_messages s ∧ ss_status s' = ss_status s ∧
  (is_Some (isBlocked (ss_loopDetector s)) → is_Some (isBlocked (ss_loopDetector s'))) ∧
  ∃ o, out = [OToolResult o].
Proof.
  unfold applyLoopVerdict.
  pose proof (analyzeHashes_blocked (ss_loopDetector s) (computeHash (VStr code))
    (computeHash (VObj output))) as Hb.
  unfold analyzeStep. destruct (analyzeHashes _ _ _) as [d v]. simpl in Hb.
  destruct v; simpl; split_and!; eauto.
Qed.

Lemma codeFinished_spec code outcome s :
  let '(s', out) := codeFinished code outcome s in
  frame s' = frame s ∧ ss_compactor s' = ss_compactor s ∧ ss_budgetTracker s' = ss_budgetTracker s ∧
  ss_active s' = ss_active s ∧ ss_messages s' = ss_messages s ∧ ss_status s' = ss_status s ∧
  (is_Some (isBlocked (ss_loopDetector s)) → is_Some (isBlocked (ss_loopDetector s'))) ∧
  ∃ o, out = [OToolResult o].
Proof.
  unfold codeFinished. destruct outcome as [[value logs]|msg]; [|apply applyLoopVerdict_spec].
  cbv zeta. destruct (tr_truncated _); [|apply applyLoopVerdict_spec].
  match goal with |- context [applyLoopVerdict code ?o ?s1] =>
    pose proof (applyLoopVerdict_spec code o s1) as Ha; destruct (applyLoopVerdict code o s1) end.
  done.
Qed.

(** ** Running code *)

Lemma executeCode_spec now code s :
  let '(s', out) := executeCode now code s in
  tracker_steps (ss_budgetTracker s) (ss_budgetTracker s') ∧
  ss_loopDetector s' = ss_loopDetector s ∧ ss_compactor s' = ss_compactor s ∧
  ss_model s' = ss_model s ∧ ss_cacheStrategy s' = ss_cacheStrategy s ∧
  ss_active s' = ss_active s ∧ ss_messages s' = ss_messages s ∧ ss_status s' = ss_status s ∧
  ((∀ c, ORan c ∉ out) ∨
   out = [ORan code] ∧ ss_sandbox s = true ∧ isBlocked (ss_loopDetector s) = None ∧
   exhaustedVerdict (ss_budgetTracker s) = None ∧
   checkExhaustion (bt_config (ss_budgetTracker s)) (getSnapshot now (ss_budgetTracker s)) = None).
Proof.
  unfold executeCode. destruct (ss_sandbox s); simpl; [|split_and!; set_solver].
  pose proof (tracker_steps_isExhausted now (ss_budgetTracker s)) as Ht.
  unfold isExhausted in *. destruct (exhaustedVerdict (ss_budgetTracker s)); simpl in *.
  { split_and!; set_solver. }
  destruct (checkExhaustion _ _); simpl in *; [split_and!; set_solver|].
  destruct (isBlocked (ss_loopDetector s)); simpl; split_and!; set_solver.
Qed.

(** ** What an event does to the guards *)

Definition is_send e : bool := match e with EvSendMessage _ _ _ => true | _ => false end.
Definition is_rotate e : bool := match e with EvRotate => true | _ => false end.

(** Outputs that do not run code. *)
Definition no_run (out : list Output) : Prop := ∀ c, ORan c ∉ out.

(** Everything that holds where code starts to run. *)
Definition may_run s : Prop :=
  ss_sandbox s = true ∧ is_Some (ss_active s) ∧ isBlocked (ss_loopDetector s) = None ∧
  exhaustedVerdict (ss_budgetTracker s) = None.

Record guarded (send rotate : bool) s s' (out : list Output) : Prop := {
  gu_tracker : ∃ b, tracker_steps b (ss_budgetTracker s') ∧
    (b = ss_budgetTracker s ∨ send = true ∧ ∃ now, b = startTurn now (ss_budgetTracker s));
  gu_blocked : rotate = false → is_Some (isBlocked (ss_loopDetector s)) →
    is_Some (isBlocked (ss_loopDetector s'));
  gu_run : no_run out ∨ may_run s;
}.

Lemma no_run_cons o out : (∀ c, o ≠ ORan c) → no_run out → no_run (o :: out).
Proof. unfold no_run. intros Ho Hout c. rewrite elem_of_cons. naive_solver. Qed.

Lemma no_run_nil : no_run [].
Proof. intros c. apply not_elem_of_nil. Qed.

Hint Resolve no_run_nil : core.

Lemma guarded_quiet send rotate s s' out :
  tracker_steps (ss_budgetTracker s) (ss_budgetTracker s') →
  (is_Some (isBlocked (ss_loopDetector s)) → is_Some (isBlocked (ss_loopDetector s'))) →
  no_run out → guarded send rotate s s' out.
Proof. intros Ht Hb Ho. split; [by eauto|done|by left]. Qed.

Lemma guarded_same send rotate s s' out :
  ss_budgetTracker s' = ss_budgetTracker s → ss_loopDetector s' = ss_loopDetector s →
  no_run out → guarded send rotate s s' out.
Proof. intros Ht Hd Ho. apply guarded_quiet; by rewrite ?Ht, ?Hd. Qed.

Lemma failTurn_guarded now f t s :
  guarded false false s (failTurn now f t s).1 (failTurn now f t s).2.
Proof.
  pose proof (failTurn_spec now f t s) as Hf. destruct (failTurn now f t s) as [s' out].
  destruct Hf as (Hg & _ & _ & _ & Ht & err & -> & _). apply guards_frame_fields in Hg as (_ & Hd & _). cbn [fst snd] in *.
  apply guarded_quiet; [done|by rewrite Hd|]. by apply no_run_cons.
Qed.

Lemma beginGeneration_guarded now t s :
  guarded false false s (beginGeneration now t s).1 (beginGeneration now t s).2.
Proof.
  pose proof (beginGeneration_spec now t s) as Hf. destruct (beginGeneration now t s) as [s' out].
  destruct Hf as (Hg & Ht & Ho). apply guards_frame_fields in Hg as (_ & Hd & _). cbn [fst snd] in *.
  apply guarded_quiet; [done|by rewrite Hd|].
  destruct Ho as [(_ & _ & _ & hist & ->)|(_ & _ & _ & err & -> & _)]; by apply no_run_cons.
Qed.

(** A change of [s] that the guards do not see, before the rest. *)
Lemma guarded_before s0 s s' out :
  ss_budgetTracker s0 = ss_budgetTracker s → ss_loopDetector s0 = ss_loopDetector s →
  no_run out → guarded false false s0 s' out → guarded false false s s' out.
Proof.
  intros Hb Hd Ho [Ht Hbl _]. rewrite Hb, Hd in *. by split; [|..|left].
Qed.

Lemma guarded_any send rotate s s' out : guarded false false s s' out → guarded send rotate s s' out.
Proof. intros [(b & Ht & [->|[? _]]) Hb Hr]; [|done]. split; eauto. Qed.

Lemma beginGeneration_no_run now t s : no_run (beginGeneration now t s).2.
Proof.
  pose proof (beginGeneration_spec now t s) as Hf. destruct (beginGeneration now t s) as [s' out].
  destruct Hf as (_ & _ & [(_ & _ & _ & hist & ->)|(_ & _ & _ & err & -> & _)]); by apply no_run_cons.
Qed.

Lemma sendMessage_guarded now msg w s :
  guarded true false s (sendMessage now msg w s).1 (sendMessage now msg w s).2.
Proof.
  unfold sendMessage. destruct (ss_status s); cbv zeta;
    try by apply guarded_same, no_run_cons.
  match goal with |- context [if w then ?a else ?b] => set (s1 := if w then a else b) end.
  assert (Hs1 : ss_budgetTracker s1 = startTurn now (ss_budgetTracker s) ∧
                ss_loopDetector s1 = ss_loopDetector s) by (subst s1; by destruct w).
  destruct Hs1 as [Hb Hd]. generalize dependent s1. intros s1 Hb Hd.
  destruct (shouldCompact _); simpl.
  - split; [|simpl; by rewrite Hd|by left]. exists (ss_budgetTracker s1). simpl. rewrite Hb. split; [done|]. right. eauto.
  - match goal with |- context [beginGeneration now ?t s1] =>
      pose proof (beginGeneration_guarded now t s1) as [(b & Ht & [->|[? _]]) Hbl Hr];
      pose proof (beginGeneration_no_run now t s1) end; [|done].
    split; [|by rewrite <-Hd|by left]. rewrite Hb in Ht. eexists. split; [done|]. right. eauto.
Qed.

Lemma compactionDone_guarded now svc t s :
  guarded false false s (compactionDone now svc t s).1 (compactionDone now svc t s).2.
Proof.
  unfold compactionDone. destruct (compact _ _ _) as [[c l] [[r|]|err]];
    eapply guarded_before; try apply beginGeneration_guarded; try apply failTurn_guarded;
    try apply beginGeneration_no_run; try done.
  pose proof (failTurn_spec now (TurnError (OtherError err)) t
    (set_conversation l c (ss_lastStepInputTokens s) s)) as Hf.
  destruct (failTurn _ _ _ _). destruct Hf as (_ & _ & _ & _ & _ & err' & -> & _).
  by apply no_run_cons.
Qed.

Lemma executeCode_guarded now code s :
  is_Some (ss_active s) →
  guarded false false s (executeCode now code s).1 (executeCode now code s).2.
Proof.
  intros Ha. pose proof (executeCode_spec now code s) as He. destruct (executeCode now code s) as [s' out].
  destruct He as (Ht & Hd & _ & _ & _ & _ & _ & _ & Hr). split; simpl; [by eauto|by rewrite Hd|].
  destruct Hr as [?|(_ & ? & ? & ? & _)]; [by left|by right].
Qed.

Lemma generated_guarded now rs text u t s :
  guarded false false s (generated now rs text u t s).1 (generated now rs text u t s).2.
Proof.
  unfold generated. pose proof (tracker_steps_isExhausted now (ss_budgetTracker s)) as Ht.
  destruct (isExhausted _ _) as [b v]. simpl in Ht.
  apply guarded_quiet; [|by destruct v|by apply no_run_cons].
  trans b; [done|]. destruct v; apply tracker_steps_endTurn.
Qed.

Lemma turn_in_active phase s t : turn_in phase s = Some t → ss_active s = Some t ∧ at_phase t = phase.
Proof.
  unfold turn_in. destruct (ss_active s); [|done].
  case_bool_decide; [|done]. naive_solver.
Qed.

(** A successful step, by cases on the event. *)
Ltac step_cases Hs :=
  match type of Hs with step _ ?e = Some (?s', ?out) =>
    destruct e; simpl in Hs;
    repeat match type of Hs with
    | (_ ≫= _) = Some _ => apply bind_Some in Hs as (?x & ?Hx & Hs)
    end;
    try (apply (inj Some) in Hs);
    try match type of Hs with ?f = (s', out) =>
      pose proof (f_equal fst Hs) as Hs1; pose proof (f_equal snd Hs) as Hs2; simpl in Hs1, Hs2
    end
  end.

Lemma step_guarded s e s' out :
  step s e = Some (s', out) → guarded (is_send e) (is_rotate e) s s' out.
Proof.
  intros Hs. step_cases Hs; simpl; subst.
  - destruct (ss_status s); simplify_eq/=. unfold initialize in *.
    repeat case_match; simplify_eq/=; apply guarded_same; try done; by apply no_run_cons.
  - apply sendMessage_guarded.
  - apply compactionDone_guarded.
  - apply executeCode_guarded. apply turn_in_active in Hx as [-> _]. eauto.
  - pose proof (codeFinished_spec code outcome (set_progress (ss_active s) x s)) as Hc.
    destruct (codeFinished _ _ _) as [s1 o1].
    destruct Hc as (_ & _ & Hb & _ & _ & _ & Hd & o & ->). simpl in *.
    apply guarded_quiet; [by rewrite Hb|done|by apply no_run_cons].
  - destruct (onStepFinish_frame usage toolCalls text s) as (Hg & Ht & _).
    apply guards_frame_fields in Hg as (_ & Hd & _). cbn [fst snd] in *. apply guarded_quiet; [done|by rewrite Hd|done].
  - unfold stopWhen in *.
    pose proof (tracker_steps_stopCondition now steps (at_processedCount x) (ss_budgetTracker s)) as Ht.
    destruct (stopCondition _ _ _ _) as [[b p] st]. simpl in *.
    apply guarded_quiet; [done|done|by apply no_run_cons].
  - apply generated_guarded.
  - apply failTurn_guarded.
  - unfold rotateAgentConversationId in *. destruct (ss_status s); simpl;
      try (by apply guarded_same, no_run_cons).
    split; [|done|left; by apply no_run_cons].
    exists (ss_budgetTracker s). by split; [|left].
  - unfold close in *. destruct (ss_status s); simpl; by apply guarded_same.
  - destruct (ss_closing s); simplify_eq/=. by apply guarded_same.
Qed.
(** ** Inside a turn *)

(** Events that neither end a turn nor end its compaction. *)
Definition inside e : bool :=
  match e with EvGenerated _ _ _ _ | EvFailed _ _ | EvCompacted _ _ => false | _ => true end.

Definition busy s : Prop := ss_status s = Processing ∨ ss_status s = Closed.

(** What [s'] keeps of the turn of [s]. *)
Record same_turn s s' : Prop := {
  st_active : ∀ t, ss_active s = Some t → ∃ t', ss_active s' = Some t' ∧
    at_phase t' = at_phase t ∧ at_messageCountBefore t' = at_messageCountBefore t;
  st_messages : ss_messages s' = ss_messages s;
  st_busy : busy s → busy s';
  st_compactor : ss_compactor s' = ss_compactor s;
  st_strategy : ss_cacheStrategy s' = ss_cacheStrategy s;
  st_model : ss_model s' = ss_model s;
}.

#[export] Instance same_turn_refl : Reflexive same_turn.
Proof. intros s. split; eauto. Qed.

#[export] Instance same_turn_trans : Transitive same_turn.
Proof.
  intros s1 s2 s3 [A1 M1 B1 C1 S1 O1] [A2 M2 B2 C2 S2 O2].
  split; [|congruence|auto|congruence..].
  intros t Ht. destruct (A1 t Ht) as (t1 & H1 & Hp1 & Hc1). destruct (A2 t1 H1) as (t2 & H2 & Hp2 & Hc2).
  exists t2. split_and!; [done|congruence..].
Qed.

Lemma same_turn_fields s s' :
  ss_active s' = ss_active s → ss_messages s' = ss_messages s → ss_status s' = ss_status s →
  ss_compactor s' = ss_compactor s → ss_cacheStrategy s' = ss_cacheStrategy s →
  ss_model s' = ss_model s → same_turn s s'.
Proof. intros Ha ? Hs ? ? ?. split; unfold busy; rewrite ?Ha, ?Hs; eauto. Qed.

Lemma frame_fields s s' :
  frame s' = frame s → ss_cacheStrategy s' = ss_cacheStrategy s ∧ ss_model s' = ss_model s ∧
  ss_sandbox s' = ss_sandbox s ∧ ss_config s' = ss_config s.
Proof. unfold frame. intros Hf. by simplify_eq. Qed.

Lemma inside_step s e s' out :
  inside e = true → is_Some (ss_active s) → busy s → step s e = Some (s', out) → same_turn s s'.
Proof.
  intros Hin Hact Hbusy Hs. step_cases Hs; simpl in *; try done; subst.
  - by destruct Hbusy as [Hb|Hb]; rewrite Hb in Hs.
  - unfold sendMessage. by destruct Hbusy as [-> | ->].
  - pose proof (executeCode_spec now code s) as He. destruct (executeCode now code s).
    destruct He as (_ & _ & ? & ? & ? & ? & ? & ? & _). by apply same_turn_fields.
  - pose proof (codeFinished_spec code outcome (set_progress (ss_active s) x s)) as Hc.
    destruct (codeFinished _ _ _) as [s1 o1]. destruct Hc as (Hf & ? & _ & ? & ? & ? & _).
    apply frame_fields in Hf as (? & ? & _). by apply same_turn_fields.
  - destruct (onStepFinish_frame usage toolCalls text s) as (Hg & _ & ? & ? & ?).
    apply guards_frame_fields in Hg as (Hf & _ & ?). apply frame_fields in Hf as (? & ? & _).
    by apply same_turn_fields.
  - unfold stopWhen in *. destruct (stopCondition _ _ _ _) as [[b p] st]. simpl in *.
    apply turn_in_active in Hx as [Hx _]. split; simpl; try done.
    intros t Ht. rewrite Hx in Ht. simplify_eq. by eexists.
  - unfold rotateAgentConversationId. by destruct Hbusy as [-> | ->].
  - unfold close. destruct Hbusy as [-> | ->]; simpl; [|done].
    split; simpl; eauto. by right.
  - destruct (ss_closing s); simplify_eq/=. by apply same_turn_fields.
Qed.

Lemma inside_run s es s' out :
  Forall (λ e, inside e = true) es → is_Some (ss_active s) → busy s →
  run s es = Some (s', out) → same_turn s s'.
Proof.
  intros Hes. revert s out. induction Hes as [|e es He Hes IH]; intros s out Ha Hb Hr; simpl in Hr.
  { by simplify_eq. }
  destruct (step s e) as [[s1 o1]|] eqn:Hs; [|done]. simpl in Hr.
  destruct (run s1 es) as [[s2 o2]|] eqn:Hr1; [|done]. simplify_eq/=.
  pose proof (inside_step _ _ _ _ He Ha Hb Hs) as Hst. trans s1; [done|].
  destruct Ha as [t Ht]. destruct (st_active _ _ Hst t Ht) as (t' & Ht' & _).
  eapply IH; [by eauto|by apply (st_busy _ _ Hst)|done].
Qed.

(** Where a message is accepted. *)
Lemma sendMessage_ready now msg w s :
  ss_status s = Ready →
  let '(s', out) := sendMessage now msg w s in
  let sent := ss_messages s ++ [Some (userMessage msg)] in
  ss_compactor s' = ss_compactor s ∧ ss_cacheStrategy s' = ss_cacheStrategy s ∧
  ss_model s' = ss_model s ∧ ¬ (OReject SessionClosedError ∈ out) ∧
  ((∃ t, ss_active s' = Some t ∧ at_messageCountBefore t = length (ss_messages s) ∧
     at_phase t = (if shouldCompact (ss_compactor s) then AwaitCompaction else AwaitGeneration) ∧
     ss_messages s' = sent ∧ busy s') ∨
   (ss_active s' = None ∧ ss_status s' = Ready ∧
    ss_messages s' = set_length (length (ss_messages s)) sent)).
Proof.
  intros Hr. unfold sendMessage. rewrite Hr. cbv zeta.
  match goal with |- context [if w then ?a else ?b] => set (s1 := if w then a else b) end.
  match goal with |- context [beginGeneration now ?x s1] => set (t := x) end.
  assert (Hs1 : ss_compactor s1 = ss_compactor s ∧ ss_cacheStrategy s1 = ss_cacheStrategy s ∧
    ss_model s1 = ss_model s ∧ ss_status s1 = Processing ∧
    ss_messages s1 = ss_messages s ++ [Some (userMessage msg)]) by (subst s1; by destruct w).
  clearbody s1. destruct Hs1 as (Hc & Hcs & Hm & Hst & Hms). rewrite Hc.
  destruct (shouldCompact (ss_compactor s)).
  - simpl. split_and!; [done..|set_solver|]. left. exists t. split_and!; try done. by left.
  - pose proof (beginGeneration_spec now t s1) as Hb. destruct (beginGeneration now t s1) as [s' out].
    destruct Hb as (Hg & _ & Hb). apply guards_frame_fields in Hg as (Hf & _ & ->).
    apply frame_fields in Hf as (-> & -> & _).
    destruct Hb as [(Ha & Hm' & Hst' & hist & ->)|(Ha & Hst' & Hm' & err & -> & He)];
      (split_and!; [done..|set_solver|]).
    + left. exists (in_phase AwaitGeneration t). rewrite Hm', Hms. split_and!; try done.
      left. congruence.
    + right. by rewrite Hm', Hms.
Qed.

(** A message that leads to a compaction cannot fail at once. *)
Lemma inside_none s s1 now msg w out :
  ss_status s = Ready → shouldCompact (ss_compactor s) = true →
  sendMessage now msg w s = (s1, out) → ss_active s1 ≠ None ∧ ss_status s1 = Processing.
Proof.
  intros Hr Hc. unfold sendMessage. rewrite Hr. cbv zeta.
  match goal with |- context [if w then ?a else ?b] => set (s0 := if w then a else b) end.
  assert (Hs0 : ss_compactor s0 = ss_compactor s ∧ ss_status s0 = Processing)
    by (subst s0; by destruct w).
  destruct Hs0 as [-> Hst]. rewrite Hc. intros [= <- <-]. done.
Qed.

Lemma set_length_app (l k : messages) : set_length (length l) (l ++ k) = l.
Proof.
  unfold set_length. rewrite take_app_length, length_app.
  replace (length l - (length l + length k)) with 0 by lia. by rewrite app_nil_r.
Qed.
End theory.

(** * A small session

    A configuration, a summary service and a conversation on which the witnesses
    of the session properties evaluate. *)

#[export] Instance demo_locale : Locale := {| toLocaleString := show_Z |}.

Definition demo_budget : ResolvedResourceBudgetConfig :=
  {| maxTotalTokens := Some 1000%Z; maxSteps := Some 3%Z; maxSessionSeconds := Some (qc_of_Z 1800);
     maxEstimatedCostUsd := Some (qc_of_Z 5); warnThresholdPercent := qc_of_Z 80 |}.

Definition demo_compact : ResolvedAutoCompactConfig :=
  {| ac_enabled := true; ac_thresholdTokens := 50; ac_keepRecentMessages := 2;
     ac_summaryModelId := "anthropic:claude-haiku-4-5" |}.

Definition demo_session_config : SessionConfig :=
  {| sc_agentModelId := "anthropic:claude-sonnet-4-6"; sc_budgetModelId := "claude-sonnet-4-6";
     sc_resourceBudget := demo_budget; sc_autoCompact := demo_compact; sc_resultSizeLimit := None |}.

Definition demo_usage (i o : Z) : LanguageModelUsage :=
  {| u_inputTokens := Some i; u_outputTokens := Some o; u_totalTokens := None;
     u_cacheReadTokens := None; u_cacheWriteTokens := None |}.

Definition demo_summarizer : Summarizer :=
  {| createLanguageModel := λ _, Ok (); generateSummary := λ _, Ok "they said hello" |}.

Definition assistantMessage (content : string) : Message :=
  [("role", VStr "assistant"); ("content", VStr content)].

(** One whole turn whose last step reads [tokens] input tokens. *)
Definition demo_turn (now tokens : Z) (msg : string) : list Event :=
  [EvSendMessage now msg true;
   EvStepFinish (Some (demo_usage tokens 5)) [] "hi";
   EvStopWhen (now + 10) [demo_usage tokens 5];
   EvGenerated (now + 20) [assistantMessage "hi"; assistantMessage "bye"] "bye" (demo_usage tokens 5)].

(** What events lead to, the state itself if one cannot happen. *)
Definition after (s : AgentSession) (es : list Event) : AgentSession :=
  match run s es with Some (s', _) => s' | None => s end.

Definition outputs (s : AgentSession) (es : list Event) : list Output :=
  match run s es with Some (_, out) => out | None => [] end.

Definition possible (s : AgentSession) (e : Event) : bool :=
  match step s e with Some _ => true | None => false end.

Lemma step_after s e : possible s e = true → step s e = Some (after s [e], outputs s [e]).
Proof.
  unfold possible, after, outputs. simpl. destruct (step s e) as [[s' out]|]; [|done].
  intros _. simpl. by rewrite app_nil_r.
Qed.

Lemma run_after s e : possible s e = true → run s [e] = Some (after s [e], outputs s [e]).
Proof. unfold possible, after, outputs. simpl. by destruct (step s e) as [[s' out]|]. Qed.

Definition demo_session (es : list Event) : AgentSession :=
  after (initialSession demo_session_config AnthropicCacheStrategy)
    (EvInitialize (Ok ()) (Ok ()) :: es).

(** Two turns: six messages, and the next turn compacts. *)
Definition demo_two_turns : AgentSession :=
  demo_session (demo_turn 0 10 "hello" ++ demo_turn 1000 60 "again").
