(* ===== verification/WorkflowDemo.v ===== *)
(** * Workflows on which the witnesses evaluate

    A review loop with a visit cap and a human gate, an evolve-like fan-out of two
    states, and small definitions that validation admits. *)

From Stdlib Require Import Qcanon.
From S2P Require Import Prelude JsValue Paths Hashing Numbers Budget WorkflowTypes StatusParser MachineBuilder.
From S2P Require Import Statechart WorkflowValidate Artifacts AgentTurn MachineTheory Demo.

Definition demo_transition (to : string) (guard : option string) (verdict : option string)
    (resets : list string) : AgentTransitionDefinition :=
  {| t_to := to; t_guard := guard;
     t_when := (λ v, [("verdict", VStr v)]) <$> verdict;
     t_actions := match resets with [] => [] | _ => [ActResetVisitCounts resets] end |}.

Definition go (to : string) : AgentTransitionDefinition := demo_transition to None None [].
Definition on_verdict (v to : string) : AgentTransitionDefinition := demo_transition to None (Some v) [].
Definition on_guard (g to : string) : AgentTransitionDefinition := demo_transition to (Some g) None [].

Definition demo_agent (outputs : list string) (maxVisits : option Z) (member : option bool)
    (transitions : list AgentTransitionDefinition) : WorkflowStateDefinition :=
  SAgent {| a_description := "agent"; a_persona := GLOBAL_PERSONA; a_prompt := "work";
    a_inputs := []; a_outputs := outputs; a_artifactHandoff := None; a_transitions := transitions;
    a_fanOutMember := member; a_fanOut := None; a_segment := None; a_schedule := None;
    a_freshSession := None; a_model := None; a_maxVisits := maxVisits; a_containerScope := None;
    a_skills := None |}.

Definition demo_deterministic (run : list (list string)) (resultFile : option string)
    (fanOut : option FanOutDefinition) (segment : option (list string)) (member : option bool)
    (transitions : list AgentTransitionDefinition) : WorkflowStateDefinition :=
  SDeterministic {| d_description := "check"; d_run := run; d_container := Some true;
    d_containerScope := None; d_timeoutMs := None; d_resultFile := resultFile; d_fanOut := fanOut;
    d_segment := segment; d_fanOutMember := member; d_schedule := None; d_transitions := transitions |}.

Definition demo_gate (transitions : list (HumanGateEventType * string * list string)) :
    WorkflowStateDefinition :=
  SHumanGate {| h_description := "gate"; h_acceptedEvents := [APPROVE; FORCE_REVISION; REPLAN; ABORT];
    h_present := None;
    h_transitions := (λ t, {| g_to := t.1.2; g_event := t.1.1;
      g_actions := match t.2 with [] => [] | l => [ActResetVisitCounts l] end |}) <$> transitions |}.

Definition demo_terminal : WorkflowStateDefinition := terminal_state "end".

Definition demo_settings (workers : Z) : WorkflowSettings :=
  {| ws_mode := None; ws_maxRounds := None; ws_workers := Some workers; ws_maxSessionSeconds := VUndefined;
     ws_resourceBudget := None; ws_unversionedArtifacts := None; ws_sharedContainer := Some true;
     ws_snapshotOnStop := None |}.

Definition demo_definition (initial : string) (states : object WorkflowStateDefinition) : WorkflowDefinition :=
  {| w_name := "demo"; w_description := ""; w_initial := initial; w_states := states;
     w_settings := Some (demo_settings 2) |}.

(** design, review at most twice, then a human. *)
Definition review_loop : WorkflowDefinition :=
  demo_definition "design"
    [("design", demo_agent ["plan"] None None [go "review"]);
     ("review", demo_agent [] (Some 2%Z) None
        [on_guard "isStateVisitLimitReached" "human"; on_verdict "approved" "done";
         on_verdict "rejected" "design"]);
     ("human", demo_gate [(APPROVE, "done", []); (REPLAN, "design", ["design"]); (ABORT, "aborted", [])]);
     ("done", demo_terminal); ("aborted", demo_terminal)].

(** Two lanes that sample, evaluate and record. *)
Definition evolve_demo : WorkflowDefinition :=
  demo_definition "workers"
    [("workers", demo_deterministic [] None (Some {| fo_count := CountWorkers |})
        (Some ["sample"; "evaluate"]) None
        [on_verdict "recorded" "done"; on_verdict "escalate" "human"; go "failed"]);
     ("sample", demo_deterministic [["python"; "evolve_result.py"; "sample"; "--run-dir"; "/workspace/.evolve_runs/main"]]
        (Some ".evolve_runs/main/current/sample.json") None None (Some true)
        [on_verdict "sampled" "evaluate"; go "failed"]);
     ("evaluate", demo_agent [] None (Some true)
        [on_verdict "recorded" "done"; on_verdict "evaluator_blocked" "human"; go "failed"]);
     ("human", demo_gate [(APPROVE, "workers", []); (ABORT, "failed", [])]);
     ("done", demo_terminal); ("failed", demo_terminal)].

(** A state that sends itself back to work. *)
Definition self_loop : WorkflowDefinition :=
  demo_definition "work"
    [("work", demo_agent [] None None [on_verdict "again" "work"; on_verdict "finished" "done"]);
     ("done", demo_terminal)].

(** A fan-out with a member that has the name of a synthetic terminal. *)
Definition clobbered : WorkflowDefinition :=
  demo_definition "workers"
    [("workers", demo_deterministic [] None (Some {| fo_count := CountWorkers |})
        (Some ["evaluate"; "recorded"]) None [on_verdict "recorded" "done"; go "done"]);
     ("evaluate", demo_agent [] None (Some true) [go "recorded"]);
     ("recorded", demo_agent [] None (Some true) [go "done"]);
     ("done", demo_terminal)].

Definition demo_context : WorkflowContext := createInitialContext review_loop "task".

Definition demo_output (verdict : string) : AgentOutput :=
  {| o_completed := true; o_verdict := verdict; o_confidence := ConfHigh; o_escalation := None;
     o_testCount := None; o_notes := None |}.

Definition demo_result (verdict : string) : InvokeOutput :=
  OutAgent {| ai_output := demo_output verdict; ai_agentConversationId := "c1"; ai_artifacts := [];
    ai_outputHash := "h"; ai_responseText := "text"; ai_totalTokens := 7 |}.

Definition demo_det (passed : bool) (verdict : option string) : InvokeOutput :=
  OutDeterministic {| di_passed := passed; di_testCount := None; di_errors := None; di_verdict := verdict;
    di_payload := None |}.

Definition demo_bm (d : WorkflowDefinition) : BuildMachineResult :=
  match buildWorkflowMachine d with
  | Ok bm => bm
  | Throw _ =>
      {| bm_machine := {| m_id := ""; m_initial := ""; m_states := []; m_maxVisitsByState := [] |};
         bm_roundMachinesByState := []; bm_gateStateNames := []; bm_terminalStateNames := [] |}
  end.

Definition demo_machine (d : WorkflowDefinition) : Machine := bm_machine (demo_bm d).

Definition demo_round_machine (d : WorkflowDefinition) : Machine :=
  default (demo_machine d) (snd <$> head (bm_roundMachinesByState (demo_bm d))).

Definition resets_nowhereb (d : WorkflowDefinition) (x : string) : bool :=
  forallb (λ kv, forallb (λ t, forallb (λ action, negb (includes (action_stateIds action) x)) t.2)
    (collectTransitionsWithActions kv.2)) (w_states d).

Lemma resets_nowhereb_spec d x : resets_nowhereb d x = true → resets_nowhere d x.
Proof.
  unfold resets_nowhereb. rewrite forallb_forall_elem. intros H id s t action Hs Ht Ha.
  specialize (H _ Hs). csimpl in H. rewrite forallb_forall_elem in H. specialize (H _ Ht).
  rewrite forallb_forall_elem in H. specialize (H _ Ha). apply negb_true_iff in H.
  rewrite <-includes_spec. congruence.
Qed.

Lemma demo_bm_ok d bm : buildWorkflowMachine d = Ok bm → buildWorkflowMachine d = Ok (demo_bm d).
Proof. unfold demo_bm. by intros ->. Qed.

(** The number of issues, computed without printing them. *)
Definition demo_valid (d : WorkflowDefinition) : bool :=
  match validateSemantics d with Valid _ => true | Invalid _ => false end.

Example demos_are_valid :
  demo_valid review_loop = true ∧ demo_valid evolve_demo = true ∧ demo_valid self_loop = true
  ∧ demo_valid clobbered = true.
Proof. vm_compute. done. Qed.

(** The members of the review loop. *)
Definition review_state : AgentStateDefinition :=
  match obj_get (w_states review_loop) "review" with
  | Some (SAgent a) => a
  | _ => {| a_description := ""; a_persona := ""; a_prompt := ""; a_inputs := []; a_outputs := [];
            a_artifactHandoff := None; a_transitions := []; a_fanOutMember := None; a_fanOut := None;
            a_segment := None; a_schedule := None; a_freshSession := None; a_model := None;
            a_maxVisits := None; a_containerScope := None; a_skills := None |}
  end.

(** A run that has entered the review twice, the last event first. *)
Definition two_reviews : list MachineEvent :=
  [EvDone "design" (demo_result "completed"); EvDone "review" (demo_result "rejected");
   EvDone "design" (demo_result "completed")].

(** Hypotheses of the theorems, decided. *)
Definition objects_wfb (d : WorkflowDefinition) : bool :=
  bool_decide (obj_wf (w_states d)) &&
  forallb (λ kv, forallb (λ t,
    match t_when t with Some w => bool_decide (obj_wf w) | None => true end)
    (agent_transitions kv.2)) (w_states d).

Lemma objects_wfb_spec d : objects_wfb d = true → objects_wf d.
Proof.
  unfold objects_wfb. intros [Hs Ht]%andb_true_iff. apply bool_decide_eq_true in Hs. split; [done|].
  intros id s t w Hin Htin Hw. rewrite forallb_forall_elem in Ht. specialize (Ht _ Hin). csimpl in Ht.
  rewrite forallb_forall_elem in Ht. specialize (Ht _ Htin). rewrite Hw in Ht.
  by apply bool_decide_eq_true in Ht.
Qed.

Definition no_member (d : WorkflowDefinition) (name : string) : Prop :=
  ∀ id s xs segment, (id, s) ∈ w_states d → executable s = Some xs → x_segment xs = Some segment →
    name ∉ segment.

Definition no_memberb (d : WorkflowDefinition) (name : string) : bool :=
  forallb (λ kv, match executable kv.2 ≫= x_segment with
    | Some segment => negb (includes segment name) | None => true end) (w_states d).

Lemma no_memberb_spec d name : no_memberb d name = true → no_member d name.
Proof.
  unfold no_memberb. rewrite forallb_forall_elem. intros H id s xs segment Hin Hx Hs.
  specialize (H _ Hin). csimpl in H. rewrite Hx in H. csimpl in H. rewrite Hs in H.
  apply negb_true_iff in H. rewrite <-includes_spec. congruence.
Qed.

(** * An agent that stumbles

    The session on which the witnesses of [AgentProperties] evaluate: its first turn
    produces nothing, the second forgets its status block, the third has a verdict that
    does not route, the fourth approves. *)

(** A parser of one-line status blocks. *)
#[export] Instance line_yaml : Yaml := {|
  yaml_parse s :=
    let prefix := "agent_status:" +:+ newline +:+ "  verdict: " in
    if startsWith s prefix
    then Ok (VObj [("agent_status", VObj [("verdict", VStr (str_trim (str_drop (String.length prefix) s)))])])
    else Throw "unexpected line";
  schema_issues _ := "invalid"
|}.

#[export] Instance byte_collation : Collation := {| locale_le := String.leb |}.

Definition status_reply (verdict : string) : string :=
  "Reviewed." +:+ newline +:+ "```" +:+ newline +:+ "agent_status:" +:+ newline
  +:+ "  verdict: " +:+ verdict +:+ newline +:+ "```".

Definition turn_reply (text : string) (hard : bool) : AgentTurnResult :=
  {| tr_text := text; tr_hardFailure := hard; tr_quotaExhausted := None; tr_transientFailure := None |}.

Definition stumbling_replies : list AgentTurnResult :=
  [turn_reply "" true; turn_reply "I am done." false; turn_reply (status_reply "maybe") false;
   turn_reply (status_reply "approved") false].

Definition demo_limits : ResolvedResourceBudgetConfig :=
  {| maxTotalTokens := Some 1000%Z; maxSteps := None; maxSessionSeconds := None;
     maxEstimatedCostUsd := None; warnThresholdPercent := qc_of_Z 80 |}.

(** Every turn costs a hundred tokens. *)
Definition demo_spent (turns : nat) : CumulativeBudgetSnapshot :=
  {| cs_totalInputTokens := 0; cs_totalOutputTokens := 100 * Z.of_nat turns;
     cs_totalTokens := 100 * Z.of_nat turns; cs_stepCount := Z.of_nat turns; cs_activeSeconds := qc_of_Z 0;
     cs_estimatedCostUsd := qc_of_Z 0 |}.

#[export] Instance stumbling_agent : AgentEnv := {|
  ae_reply h := match stumbling_replies !! pred (length h) with Some r => Ok r | None => Throw "closed" end;
  ae_rotate _ n := Some ("rotated-" +:+ show_nat n);
  ae_budget h := {| bv_cumulative := demo_spent (length h); bv_limits := demo_limits;
                    bv_tokenTrackingAvailable := true |};
  ae_disk _ path := if path =? "/work" then Some (NDir (Some [])) else None;
  ae_totalTokens h := Z.of_nat (length h)
|}.

Definition demo_invocation : TurnState * (AgentInvokeResult + Rejection) :=
  executeAgentTurns "review" review_state demo_context review_loop "/work/.workflow" "/work" "first".

Example stumbling_run :
  length (ts_sent demo_invocation.1) = 4 ∧ ts_conversation demo_invocation.1 = "rotated-0"
  ∧ received (ts_log demo_invocation.1) = tr_text <$> stumbling_replies
  ∧ match demo_invocation.2 with inl r => o_verdict (ai_output r) = "approved" | inr _ => False end.
Proof. vm_compute. done. Qed.
