(* ===== verification/PolicyProperties.v ===== *)
(** * Properties of the policy engine

    The guarantees of [PolicyEngine.evaluate] and of the components it is built
    from: path containment, role resolution, domain matching, dynamic lists. *)

From S2P Require Import Prelude JsValue Paths Urls Roles Domains PolicyTypes.
From S2P Require Import PolicyEngine PolicyEngineTheory Demo.

Section properties.
Context `{FileSystemLaws} `{UrlParser} `{GitCli}.

(** The role is discharged by the sandbox: every path the call carries for it
    resolves, through symbolic links, to a place inside the sandbox. *)
Definition role_in_sandbox (e : PolicyEngine) (request : ToolCallRequest)
    (annotation : ToolAnnotation) (role : ArgumentRole) : Prop :=
  ∃ dir, allowedDirectory e = Some dir ∧ dir ≠ "" ∧ category (roleDef role) = CatPath ∧
    (rq_serverName request = "filesystem" ∨ rq_serverName request = "git") ∧
    let paths := extractAnnotatedPaths (rq_arguments request) annotation [role] in
    paths ≠ [] ∧
    ∀ p, p ∈ paths →
      within_segments (path_segments (resolveRealPath p)) (path_segments (resolveRealPath dir)).

(** A path of a call is protected: inside a protected path and outside the
    sandbox. *)
Definition protected (e : PolicyEngine) (p : string) : Prop :=
  (∃ pp, pp ∈ protectedPaths e ∧
     within_segments (path_segments (resolveRealPath p)) (path_segments (resolveRealPath pp))) ∧
  ¬ ∃ ex, ex ∈ protectedPathExclusions e ∧
     within_segments (path_segments (resolveRealPath p)) (path_segments (resolveRealPath ex)).

Definition annotation_of (e : PolicyEngine) (request : ToolCallRequest) : option ToolAnnotation :=
  getAnnotation e (rq_serverName request) (rq_toolName request) (rq_arguments request).

Definition path_values (request : ToolCallRequest) (annotation : ToolAnnotation) : list string :=
  extractAnnotatedPaths (rq_arguments request) annotation getPathRoles.

Lemma truthy_string_Some o d : truthy_string o = Some d ↔ o = Some d ∧ d ≠ "".
Proof. destruct o as [[|a s]|]; simpl; naive_solver. Qed.

Lemma blocked_protected e p : blocked e (resolveRealPath p) = true ↔ protected e p.
Proof.
  unfold blocked, protected. rewrite isProtectedPath_spec.
  setoid_rewrite isWithinDirectory_spec. by rewrite resolveRealPath_idem.
Qed.

Lemma existsb_blocked e request a :
  existsb (blocked e) (annotated_paths request a) = true ↔
  ∃ p, p ∈ path_values request a ∧ protected e p.
Proof.
  rewrite existsb_exists_elem. unfold annotated_paths. setoid_rewrite list_elem_of_fmap.
  setoid_rewrite <-blocked_protected. naive_solver.
Qed.

Lemma elem_of_sandboxResolved e request a role paths :
  role ∈ sandboxResolvedRoles e request (Some a) paths → role_in_sandbox e request a role.
Proof.
  unfold sandboxResolvedRoles, role_in_sandbox.
  destruct (truthy_string _) as [dir|] eqn:Hd; [|set_solver].
  apply truthy_string_Some in Hd as [Hd Hne].
  case_match eqn:Hc; [|set_solver]. apply andb_true_iff in Hc as [_ Hs].
  rewrite list_elem_of_filter. unfold sandboxedRole. intros [[_ Hp] Hrole].
  apply andb_true_iff in Hp as [Hlen Hall]. rewrite forallb_forall_elem in Hall.
  exists dir. split_and!; [done..| | | |].
  - by apply getRolesByCategory_spec.
  - apply orb_true_iff in Hs as [?|?]; bool_hyps; auto.
  - intros Hnil. by rewrite Hnil in Hlen.
  - intros p Hp. by apply isWithinDirectory_spec, Hall.
Qed.

Lemma open_roles_cases e request a role :
  role ∈ collectDistinctRoles a →
  role ∈ open_roles e request a ∨ role_in_sandbox e request a role.
Proof.
  intros Hr. unfold open_roles. rewrite list_elem_of_filter.
  destruct (includes _ role) eqn:Hi; [right|by left].
  apply includes_spec in Hi. by eapply elem_of_sandboxResolved.
Qed.

Lemma untrustedDomain_None e request a :
  is_some (untrustedDomain e request (gated_urls request a)) = false ↔
  ∀ u, u ∈ gated_urls request a → url_trusted e request u.
Proof. rewrite <-untrustedDomain_spec. by destruct (untrustedDomain _ _ _). Qed.

Lemma rules_decision_allow e request a roles :
  rules_decision e request a roles = Allow →
  (∀ role, role ∈ roles → collectDistinctRoles a ≠ [] → role_decision e request a role = Allow) ∧
  (collectDistinctRoles a = [] → ∃ rule, r_then rule = Allow ∧
     List.find (λ rule, ruleMatches rule request a None) (cp_rules (compiledPolicy e)) = Some rule).
Proof.
  unfold rules_decision. destruct (collectDistinctRoles a) as [|r rs].
  - unfold first_match. destruct (List.find _ _) as [rule|]; [|done]. naive_solver.
  - rewrite worst_allow. intros Hall. split; [|done]. intros role Hr _.
    apply Hall, list_elem_of_fmap. eauto.
Qed.

(** ** The whole evaluation *)

(** C2. Soundness of [allow]: when the engine allows a call of a server that is
    not trusted, the tool is annotated, no path argument is protected, and
    either the call is the introspection tool without arguments, or every URL
    argument passes the server's domain allowlist and every resource role of the
    tool is inside the sandbox or allowed by the compiled rules; a tool without
    resource roles is allowed by the first rule that matches it. *)
Theorem evaluate_allow_sound e request r :
  evaluate e request = Ok r → er_decision r = Allow →
  rq_serverName request ∉ trustedServers e →
  ∃ a, annotation_of e request = Some a ∧
    (∀ p, p ∈ path_values request a → ¬ protected e p) ∧
    (isIntrospection request (Some a) = true ∨
     (∀ u, u ∈ gated_urls request a → url_trusted e request u) ∧
     let request' := enrichGitRequest e request (Some a) in
     (∀ role, role ∈ collectDistinctRoles a →
        role_in_sandbox e request a role ∨ role_decision e request' a role = Allow) ∧
     (collectDistinctRoles a = [] → ∃ rule, r_then rule = Allow ∧
        List.find (λ rule, ruleMatches rule request' a None) (cp_rules (compiledPolicy e))
        = Some rule)).
Proof.
  intros He Hallow Ht. destruct (evaluate_decision e request) as (r' & Hr' & Hd).
  rewrite He in Hr'. injection Hr' as <-. rewrite Hallow in Hd. symmetry in Hd.
  revert Hd. unfold policy_decision, annotation_of. rewrite bool_decide_eq_false_2 by done.
  destruct (getAnnotation e _ _ _) as [a|]; [|done].
  destruct (existsb (blocked e) _) eqn:Hb; [done|]. intros Hd.
  exists a. split; [done|]. split.
  { intros p Hp Hpro. apply not_true_iff_false in Hb. apply Hb, existsb_blocked. eauto. }
  destruct (isIntrospection _ _); [by left|right].
  destruct (is_some _) eqn:Hu; [done|]. split; [by apply untrustedDomain_None|].
  apply rules_decision_allow in Hd as [Hroles Hnone]. split; [|done].
  intros role Hrole. destruct (open_roles_cases e request a role Hrole) as [Ho|Hs]; [right|by left].
  apply Hroles; [done|]. intros Hnil. rewrite Hnil in Hrole. by apply not_elem_of_nil in Hrole.
Qed.

(** C7. Refinement: the evaluation never throws, and its decision is the
    abstract policy's: structural checks first, then the strictest decision over
    the roles the sandbox did not discharge. *)
Theorem evaluate_refines_policy e request :
  ∃ r, evaluate e request = Ok r ∧ er_decision r = policy_decision e request.
Proof. apply evaluate_decision. Qed.

(** No override: a call of an untrusted server with a protected path
    argument is denied, whatever the rules and the other arguments say. *)
Theorem protected_path_denied e request a p :
  rq_serverName request ∉ trustedServers e →
  annotation_of e request = Some a → p ∈ path_values request a → protected e p →
  ∃ r, evaluate e request = Ok r ∧ er_decision r = Deny ∧ er_rule r = "structural-protected-path".
Proof.
  intros Ht Ha Hp Hpro. unfold evaluate. rewrite bool_decide_eq_false_2 by done.
  unfold annotation_of in Ha. rewrite Ha. unfold evaluateStructuralInvariants.
  fold (blocked e). assert (Hb : existsb (blocked e) (annotated_paths request a) = true).
  { apply existsb_blocked. eauto. }
  rewrite <-find_existsb in Hb. unfold annotated_paths in Hb.
  destruct (List.find _ _); [|done]. by eexists.
Qed.

(** Per-path discharge: with at least one path for the role, the loop over
    the rules terminates with a result whose decision is the strictest over the
    paths, each path decided by the sandbox or by the first rule that discharges
    it, and denied when no rule does. *)
Theorem role_paths_first_match e request a role paths :
  extractAnnotatedPaths (rq_arguments request) a [role] = paths → paths ≠ [] →
  ∃ r, evaluateRulesForRole e request a role = Ok r ∧
    (∀ n, DECISION_SEVERITY (er_decision r) ≤ n ↔
       ∀ p, p ∈ paths → DECISION_SEVERITY (path_decision e request a role p) ≤ n).
Proof.
  intros Hp Hne. destruct (evaluateRulesForRole_decision e request a role) as (r & Hr & Hd).
  exists r. split; [done|]. intros n. rewrite Hd. unfold role_decision. rewrite Hp.
  destruct paths as [|p0 ps]; [done|]. rewrite worst_le. setoid_rewrite list_elem_of_fmap.
  naive_solver.
Qed.

(** Combination over roles: without roles resolved by the sandbox and with at
    least one resource role, the decision is the strictest over the roles, and an
    escalation lists exactly the roles whose own decision is to escalate, in
    order. *)
Theorem roles_combined e request a :
  collectDistinctRoles a ≠ [] →
  ∃ r, evaluateCompiledRules e request [] (Some a) = Ok r ∧
    er_decision r = worst (role_decision e request a <$> collectDistinctRoles a) ∧
    (er_decision r = Escalate → er_escalatedRoles r = Some
       (filter (λ role, role_decision e request a role = Escalate) (collectDistinctRoles a))).
Proof.
  intros Hne. destruct (rolesLoop_spec e request a (collectDistinctRoles a) None [])
    as (r & Hr & Hd & Hx); [by right|done..|].
  exists r. rewrite Hd. split; [|split].
  - unfold evaluateCompiledRules. rewrite (list_filter_all (λ r, includes [] r = false)).
    + rewrite bool_decide_eq_false_2 by (intros Hl; by apply nil_length_inv in Hl). done.
    + apply Forall_forall. intros role _. apply bool_decide_eq_false_2, not_elem_of_nil.
  - simpl. by destruct (worst _).
  - rewrite <-Hd. apply Hx.
Qed.

(** Domain gate: an untrusted server with a domain allowlist never has a call
    allowed whose URL argument names a domain outside it, except for the
    argument-free introspection tool. *)
Theorem untrusted_domain_not_allowed e request a u allowlist r :
  rq_serverName request ∉ trustedServers e →
  annotation_of e request = Some a → u ∈ gated_urls request a →
  serverDomainAllowlists e !! rq_serverName request = Some allowlist →
  (¬ ∃ pattern, pattern ∈ allowlist ∧
     let domain := resolveUrlForDomainCheck u (rq_arguments request) in
     allows domain (hostname_of domain) pattern) →
  isIntrospection request (Some a) = false →
  evaluate e request = Ok r →
  er_decision r = Deny ∨
  er_decision r = Escalate ∧ er_rule r = "structural-domain-escalate".
Proof.
  intros Ht Ha Hu Hl Hno Hi. unfold evaluate. rewrite bool_decide_eq_false_2 by done.
  unfold annotation_of in Ha. rewrite Ha. unfold evaluateStructuralInvariants. rewrite Hi.
  destruct (List.find _ _) as [rp|]; simpl; [intros [= <-]; by left|].
  destruct (untrustedDomain e request _) as [[u' d]|] eqn:Hud; simpl; [intros [= <-]; by right|].
  exfalso. rewrite untrustedDomain_spec in Hud. specialize (Hud u Hu allowlist Hl).
  by apply domainMatchesAllowlist_spec in Hud.
Qed.

(** An argument git enrichment may fill in. *)
Definition fillable (request : ToolCallRequest) (a : ToolAnnotation) (name : string) : Prop :=
  ∃ roles, (name, roles) ∈ ta_args a ∧ GitRemoteUrl ∈ roles ∧
           isAbsentArg (rq_arguments request) name = true.

Lemma elem_of_missingUrlArgNames request a name :
  name ∈ missingUrlArgNames (rq_arguments request) a ↔ fillable request a name.
Proof.
  unfold missingUrlArgNames, fillable. rewrite list_elem_of_fmap. split.
  - intros ([n roles] & -> & [[Hr Hi] Hin]%list_elem_of_filter). simpl in *.
    apply includes_spec in Hr. eauto.
  - intros (roles & Hin & Hr & Hi). exists (name, roles). split; [done|].
    apply list_elem_of_filter. simpl. by rewrite includes_spec.
Qed.

Lemma get_value_str args k s : get_value args k = VStr s → obj_get args k = Some (VStr s).
Proof. unfold get_value. destruct (obj_get args k); simpl; congruence. Qed.

(** Git enrichment is contained: when it changes a request, the server is
    git, the repository path is inside the sandbox (when there is one), and only
    absent or empty arguments annotated as git remotes have been filled in, all
    with the repository's default remote. *)
Theorem enrichGitRequest_contained e request a :
  enrichGitRequest e request (Some a) ≠ request →
  ∃ path url, rq_serverName request = "git" ∧
    obj_get (rq_arguments request) "path" = Some (VStr path) ∧
    resolveDefaultGitRemote path = Some url ∧
    (∀ dir, allowedDirectory e = Some dir → dir ≠ "" →
       within_segments (path_segments (resolveRealPath path))
         (path_segments (resolveRealPath dir))) ∧
    let args' := rq_arguments (enrichGitRequest e request (Some a)) in
    (∀ name, fillable request a name → obj_get args' name = Some (VStr url)) ∧
    (∀ name, ¬ fillable request a name →
       obj_get args' name = obj_get (rq_arguments request) name).
Proof.
  unfold enrichGitRequest. case_bool_decide as Hg; simpl; [|done].
  case_bool_decide as Hm; [done|].
  destruct (get_value (rq_arguments request) "path") as [| | | |path| |] eqn:Hpath; try done.
  destruct (match truthy_string _ with Some _ => _ | None => _ end) eqn:Hout; [done|].
  destruct (resolveDefaultGitRemote path) as [url|] eqn:Hurl; [|done].
  intros _. exists path, url. split_and!; [done|by apply get_value_str|done| | |].
  - intros dir Hdir Hne. rewrite (proj2 (truthy_string_Some _ dir)) in Hout by done.
    apply negb_false_iff in Hout. rewrite isWithinDirectory_resolve in Hout.
    by apply isWithinDirectory_spec.
  - intros name Hn%elem_of_missingUrlArgNames. simpl. rewrite obj_get_fill.
    by rewrite bool_decide_eq_true_2.
  - intros name Hn. simpl. rewrite obj_get_fill, bool_decide_eq_false_2; [done|].
    by rewrite elem_of_missingUrlArgNames.
Qed.

(** Containment is by path component and after symbolic links: a target is
    within a directory exactly when the real directory's components are a prefix
    of the real target's (the root directory contains only itself), and resolving
    the target first changes nothing. *)
Theorem containment_componentwise target dir :
  (isWithinDirectory target dir = true ↔
   within_segments (path_segments (resolveRealPath target))
     (path_segments (resolveRealPath dir))) ∧
  isWithinDirectory (resolveRealPath target) dir = isWithinDirectory target dir ∧
  resolveRealPath (resolveRealPath target) = resolveRealPath target.
Proof.
  split; [apply isWithinDirectory_spec|].
  split; [apply isWithinDirectory_resolve|apply resolveRealPath_idem].
Qed.

(** Conditional roles only narrow: for a stored annotation whose conditional
    entries are subsets of their default, every argument of a call resolves to
    roles among the defaults the rules were compiled for, and no argument is
    lost. *)
Theorem conditional_roles_narrow stored callArgs name :
  stored_annotation_wf stored →
  match obj_get (ta_args (resolveStoredAnnotation stored callArgs)) name,
        obj_get (ta_args (resolveToolDefaults stored)) name with
  | Some roles, Some defaults => roles ⊆ defaults
  | None, None => obj_get (sa_args stored) name = None
  | _, _ => False
  end.
Proof.
  intros [Hwf Hn]. rewrite resolveStoredAnnotation_args by done.
  unfold resolveToolDefaults; simpl. rewrite map_entries_eq by done.
  rewrite !obj_get_map. destruct (obj_get (sa_args stored) name) as [spec|] eqn:Hs; simpl; [|done].
  apply resolveSpec_narrow. intros c entry -> He. by eapply Hn.
Qed.

(** Dynamic lists: after expansion, a rule's domain allowlist matches a domain
    exactly when a literal pattern of the rule does, or a value of a referenced
    list that is resolved or added by hand and not removed by hand; a missing list
    contributes nothing, and the rest of the rule is unchanged. *)
Theorem expanded_domains_allow lists rule d :
  c_domains (r_if rule) = Some d →
  ∃ d', c_domains (r_if (expand_rule lists rule)) = Some d' ∧ dc_roles d' = dc_roles d ∧
    r_then (expand_rule lists rule) = r_then rule ∧
    c_paths (r_if (expand_rule lists rule)) = c_paths (r_if rule) ∧
    ∀ domain, domainMatchesAllowlist domain (dc_allowed d') = true ↔
      ∃ pattern, allows domain (hostname_of domain) pattern ∧
        ((pattern ∈ dc_allowed d ∧ startsWith pattern "@" = false) ∨
         ∃ name l, "@" +:+ name ∈ dc_allowed d ∧ obj_get (dl_lists lists) name = Some l ∧
           (pattern ∈ rl_values l ∨ pattern ∈ rl_manualAdditions l) ∧
           pattern ∉ rl_manualRemovals l).
Proof.
  intros Hd. rewrite expand_rule_eq. unfold expand_rule_spec. simpl. rewrite Hd. simpl.
  eexists. split_and!; [done..|]. intros domain. rewrite domainMatchesAllowlist_spec. simpl.
  setoid_rewrite elem_of_expand_allowed. setoid_rewrite elem_of_effective.
  unfold is_reference. naive_solver.
Qed.
End properties.

(** ** Witnesses on the demo policy *)

(** The annotation of a call, for a tool the demo policy knows. *)
Definition demo_annotation (request : ToolCallRequest) : ToolAnnotation :=
  default {| ta_toolName := ""; ta_serverName := ""; ta_comment := ""; ta_args := [] |}
    (annotation_of demo_engine request).

Ltac decided := match goal with |- ?P => apply (bool_decide_unpack P); vm_compute; exact I end.

Lemma evaluate_allow_sound_witness :
  ∃ a, annotation_of demo_engine demo_read = Some a ∧
    (∀ p, p ∈ path_values demo_read a → ¬ protected demo_engine p).
Proof.
  edestruct (evaluate_allow_sound demo_engine demo_read) as (a & Ha & Hp & _).
  - vm_compute. reflexivity.
  - reflexivity.
  - decided.
  - exists a. split; assumption.
Defined.

Lemma protected_path_denied_witness :
  ∃ r, evaluate demo_engine demo_escape = Ok r ∧ er_decision r = Deny ∧
       er_rule r = "structural-protected-path".
Proof.
  apply (protected_path_denied demo_engine demo_escape (demo_annotation demo_escape)
           "/sandbox/link/passwd").
  - decided.
  - vm_compute. reflexivity.
  - decided.
  - apply blocked_protected. vm_compute. reflexivity.
Defined.

Lemma role_paths_first_match_witness :
  ∃ r, evaluateRulesForRole demo_engine demo_read (demo_annotation demo_read) ReadPath = Ok r ∧
    (∀ n, DECISION_SEVERITY (er_decision r) ≤ n ↔
       ∀ p, p ∈ ["/sandbox/a.txt"; "~/docs/n.txt"] →
         DECISION_SEVERITY (path_decision demo_engine demo_read (demo_annotation demo_read)
                              ReadPath p) ≤ n).
Proof.
  apply (role_paths_first_match demo_engine demo_read (demo_annotation demo_read) ReadPath).
  - vm_compute. reflexivity.
  - discriminate.
Defined.

Lemma roles_combined_witness :
  ∃ r, evaluateCompiledRules demo_engine demo_push [] (Some (demo_annotation demo_push)) = Ok r ∧
    er_decision r = Deny.
Proof.
  edestruct (roles_combined demo_engine demo_push (demo_annotation demo_push)) as (r & Hr & Hd & _).
  - vm_compute. discriminate.
  - exists r. split; [exact Hr|]. rewrite Hd. vm_compute. reflexivity.
Defined.

Lemma untrusted_domain_not_allowed_witness :
  ∃ r, evaluate demo_engine (demo_fetch "https://1.2.3.4/a") = Ok r ∧
    (er_decision r = Deny ∨
     er_decision r = Escalate ∧ er_rule r = "structural-domain-escalate").
Proof.
  eexists. split; [vm_compute; reflexivity|].
  eapply (untrusted_domain_not_allowed demo_engine (demo_fetch "https://1.2.3.4/a")
           (demo_annotation (demo_fetch "https://1.2.3.4/a"))
           {| ua_value := "https://1.2.3.4/a"; ua_role := FetchUrl; ua_roleDef := roleDef FetchUrl |}
           ["*"]).
  - decided.
  - vm_compute. reflexivity.
  - unfold gated_urls, extractAnnotatedUrls. rewrite list_elem_of_bind.
    exists ("url", [FetchUrl]). split; left.
  - vm_compute. reflexivity.
  - rewrite <-domainMatchesAllowlist_spec. vm_compute. discriminate.
  - vm_compute. reflexivity.
  - vm_compute. reflexivity.
Defined.

Lemma enrichGitRequest_contained_witness :
  ∃ path url, rq_serverName demo_push = "git" ∧
    obj_get (rq_arguments demo_push) "path" = Some (VStr path) ∧
    resolveDefaultGitRemote path = Some url.
Proof.
  edestruct (enrichGitRequest_contained demo_engine demo_push (demo_annotation demo_push))
    as (path & url & Hs & Hp & Hu & _).
  - vm_compute. discriminate.
  - exists path, url. split; [assumption|]. split; assumption.
Defined.

Lemma containment_componentwise_witness :
  isWithinDirectory "/sandbox/sub/../new.txt" "/sandbox" = true ∧
  isWithinDirectory "/sandbox/link/passwd" "/sandbox" = false ∧
  isWithinDirectory "/sandboxed" "/sandbox" = false ∧
  (isWithinDirectory "/sandbox/link/passwd" "/sandbox" = true ↔
   within_segments (path_segments (resolveRealPath "/sandbox/link/passwd"))
     (path_segments (resolveRealPath "/sandbox"))).
Proof.
  do 3 (split; [vm_compute; reflexivity|]).
  apply (containment_componentwise "/sandbox/link/passwd" "/sandbox").
Defined.

(** A git operation that deletes only when its flag is set. *)
Definition demo_branch_tool : StoredToolAnnotation :=
  demo_tool "git" "git_branch"
    [("path", SpecConditional {|
        cr_default := [ReadPath; DeleteHistory];
        cr_when := [{| ce_condition := {| rc_arg := "delete"; rc_equals := None; rc_in := None;
                                          rc_is := Some IsFalsy |};
                       ce_roles := [ReadPath] |}] |})].

Lemma conditional_roles_narrow_witness :
  obj_get (ta_args (resolveStoredAnnotation demo_branch_tool [])) "path" = Some [ReadPath] ∧
  match obj_get (ta_args (resolveStoredAnnotation demo_branch_tool [])) "path",
        obj_get (ta_args (resolveToolDefaults demo_branch_tool)) "path" with
  | Some roles, Some defaults => roles ⊆ defaults
  | None, None => obj_get (sa_args demo_branch_tool) "path" = None
  | _, _ => False
  end.
Proof.
  split; [reflexivity|]. apply (conditional_roles_narrow demo_branch_tool [] "path").
  split; [decided|]. intros name spec entry Hs He. simpl in Hs.
  destruct (bool_decide ("path" = name)); [|discriminate].
  injection Hs as <-. simpl in *. apply list_elem_of_singleton in He as ->. decided.
Defined.

Lemma expanded_domains_allow_witness :
  let rule := demo_rule "r" (set_domains demo_condition
     (Some {| dc_roles := [FetchUrl]; dc_allowed := ["@trusted"; "example.org"] |})) Allow in
  ∃ d', c_domains (r_if (expand_rule demo_lists rule)) = Some d' ∧
    domainMatchesAllowlist "en.wiki.org" (dc_allowed d') = true ∧
    domainMatchesAllowlist "bad.com" (dc_allowed d') = false.
Proof.
  intros rule. edestruct (expanded_domains_allow demo_lists rule) as (d' & Hd & _); [reflexivity|].
  exists d'. split; [exact Hd|]. revert Hd. vm_compute. intros [= <-]. split; reflexivity.
Defined.
