(* ===== verification/PipelineProperties.v ===== *)
(** * Properties of the tool-call pipeline

    What holds of every run of [handleCallTool], for any policy engine that
    satisfies [PolicyDeciderLaws] and any behaviour of the world around it. *)

From Stdlib Require Import QArith Qround Qcanon.
From S2P Require Import Prelude JsValue Paths Urls Roles Domains PolicyTypes.
From S2P Require Import PolicyEngine PathArgs Whitelist Hashing CircuitBreaker Tools.
From S2P Require Import EscalationIpc AutoApprover ProxyTools AuditLog PolicyEngineTheory Pipeline.
From S2P Require Import PipelineTheory Demo.

Section properties.
Context `{FileSystem} `{UrlParser} `{Runtime} `{World} `{PolicyDeciderLaws P}.
Variable deps : CallToolDeps P.

(** The specification of a call, for safety: nothing is assumed of the world. *)
Lemma safe_call toolName rawArgs rx s :
  ∃ new id ts, st_trace (handleCallTool deps toolName rawArgs rx s).1 = st_trace s ++ new ∧
    (∀ x, rx = Some x → id = rx_requestId x ∧ ts = rx_timestamp x) ∧
    let r := (handleCallTool deps toolName rawArgs rx s).2 in
    (rejected True id new r ∨
     ∃ tool c, d_toolMap deps !! toolName = Some tool ∧
       context_of deps tool rawArgs id ts c ∧ call_outcome True c new r).
Proof.
  assert (Hfiles : ∀ t req resp,
    match waitForEscalationDecision (w_pollClock (S t)) (w_responseFile (S t)) (w_requestWrite (S t)) (pollFuel deps) (w_now t)
            (getEscalationTimeoutMs (d_escalationTimeout deps)) req resp with
    | Some (_, Ok _) => True
    | _ => True
    end) by (intros; by repeat case_match).
  destruct (handleCallTool_spec deps (λ _, True) True (λ _ _ _ _, Logic.I)
    (λ _ _ _ _ _ _, Logic.I) (λ _ _ _, Logic.I) (λ _ _ _ _, Logic.I) Hfiles (λ _ _ _ _ _ _ _ _, Logic.I) (λ _ _ _ _, Logic.I)
    toolName rawArgs rx s Logic.I) as (_ & new & Ht & id & ts & Hrx & Hr).
  exists new, id, ts. eauto.
Qed.

(** C4. Every answer is audited: when a call returns, whatever the tool, the
    policy, the human and the servers did, the last thing it did was to append an
    audit entry under the request's identifier, and the entry says success
    exactly when the response carries no error flag. *)
Theorem every_answer_audited toolName rawArgs rx s resp :
  (handleCallTool deps toolName rawArgs (Some rx) s).2 = inl resp →
  ∃ before entry,
    st_trace (handleCallTool deps toolName rawArgs (Some rx) s).1 =
      st_trace s ++ before ++ [EvAudit entry] ∧
    ae_requestId entry = rx_requestId rx ∧
    (ar_status (ae_result entry) = AuditSuccess ↔ resp_isError resp = None).
Proof.
  intros Hresp. destruct (safe_call toolName rawArgs (Some rx) s) as (new & id & ts & Ht & Hid & Hr).
  rewrite Hresp in Hr. rewrite Ht. destruct (Hid rx eq_refl) as [-> _].
  destruct Hr as [(entry & -> & He & Hst & Href & Herr)|(tool & c & _ & Hc & Ha & _)].
  - exists [], entry. split; [done|]. split; [done|]. rewrite Hst, Herr. done.
  - destruct Ha as (pre & entry & -> & He & Hst). exists pre, entry.
    split; [done|]. split; [|done]. by destruct Hc as (_ & _ & <- & _).
Qed.

(** C1. No unauthorised effect: if a call forwards anything to a server or sends
    anything to the proxy's control API, then the tool is registered, the policy
    evaluated exactly this call with its normalised arguments and allowed it, or
    it escalated and, before the effect, the escalation was approved by a
    whitelist pattern, by the auto-approver or by a human and not denied by the
    human; what is forwarded are the transport arguments, at most twice (once
    without an escalation). *)
Theorem no_unauthorised_effect toolName rawArgs rx s before ev after :
  st_trace (handleCallTool deps toolName rawArgs rx s).1 =
    st_trace s ++ before ++ ev :: after →
  is_effect ev = true →
  ∃ tool c id ts, d_toolMap deps !! toolName = Some tool ∧ context_of deps tool rawArgs id ts c ∧
    (ev = EvForward (pt_serverName tool) (pt_name tool) (cc_transport c) ∨
     pt_serverName tool = "proxy" ∧ ∃ request, ev = EvControl request) ∧
    (er_decision (cc_evaluation c) = Allow ∧ forwards (before ++ ev :: after) ≤ 1 ∨
     er_decision (cc_evaluation c) = Escalate ∧ approved before ∧
     forwards (before ++ ev :: after) ≤ 2).
Proof.
  intros Htrace Hev. destruct (safe_call toolName rawArgs rx s) as (new & id & ts & Ht & _ & Hr).
  rewrite Htrace in Ht. apply app_inv_head in Ht as <-.
  destruct Hr as [Hr|(tool & c & Htool & Hc & _ & n1 & n2 & Hn & Hn1 & Hn2 & Hf & Hd)].
  { exfalso. destruct (handleCallTool _ _ _ _ _).2 as [resp|e]; simpl in Hr.
    - destruct Hr as (entry & Heq & _). destruct before as [|? []]; simplify_eq/=; done.
    - destruct Hr as [Heq _]. by destruct before. }
  exists tool, c, id, ts. split; [done|]. split; [done|].
  assert (Hct : cc_tool c = tool) by apply Hc.
  (* the effect is in the dispatch stage *)
  assert (Hin : ∃ b2, n2 = b2 ++ ev :: after ∧ before = n1 ++ b2).
  { symmetry in Hn. apply app_eq_app in Hn as (k & [[-> Hk]|[-> Hk]]); [|by eauto].
    destruct k as [|x k].
    - exists []. rewrite !app_nil_r. split; [by rewrite Hk|done].
    - exfalso. simplify_eq/=. apply Forall_app in Hn1 as [_ [Hx _]%Forall_cons].
      by destruct x. }
  destruct Hin as (b2 & -> & ->).
  apply Forall_app in Hn2 as Hn2'. destruct Hn2' as [Hb2 [Hx _]%Forall_cons]. split.
  { destruct ev; simpl in Hx; try done.
    - left. destruct Hx as (-> & -> & ->). by rewrite Hct.
    - right. rewrite <-Hct. split; [done|]. by eexists. }
  assert (Hf1 : forwards n1 = 0).
  { clear -Hn1. induction Hn1 as [|x n Hx _ IH]; [done|]. rewrite forwards_cons, IH.
    by destruct x. }
  rewrite <-app_assoc, forwards_app, Hf1.
  destruct (er_decision (cc_evaluation c)).
  - left. split; [done|]. lia.
  - exfalso. destruct Hd as (_ & Hno & _). apply Forall_app in Hno as [_ [Hno _]%Forall_cons].
    congruence.
  - right. split; [done|]. split; [|lia]. destruct Hd as [[Ha Hden]|[Hnil _]].
    + split; [apply Exists_app; by left|]. rewrite elem_of_app. intros [?|Hb]; [done|].
      rewrite Forall_forall in Hb2. by apply Hb2 in Hb.
    + by destruct b2.
Qed.

(** C6. A human denial is final: when the human denies the escalation, the call
    forwards nothing and, if it returns, returns an error whose decision is a
    denial. *)
Theorem human_denial_final toolName rawArgs rx s new :
  st_trace (handleCallTool deps toolName rawArgs rx s).1 = st_trace s ++ new →
  EvHuman Denied ∈ new →
  Forall (λ ev, is_effect ev = false) new ∧
  match (handleCallTool deps toolName rawArgs rx s).2 with
  | inl resp => refused resp
  | inr _ => True
  end.
Proof.
  intros Htrace Hden. destruct (safe_call toolName rawArgs rx s) as (new' & id & ts & Ht & _ & Hr).
  rewrite Htrace in Ht. apply app_inv_head in Ht as <-.
  destruct Hr as [Hr|(tool & c & _ & _ & _ & n1 & n2 & -> & Hn1 & Hn2 & _ & Hd)].
  { exfalso. destruct (handleCallTool _ _ _ _ _).2 as [resp|e]; simpl in Hr.
    - destruct Hr as (entry & -> & _). by apply list_elem_of_singleton in Hden.
    - destruct Hr as [-> _]. by apply not_elem_of_nil in Hden. }
  apply elem_of_app in Hden as [Hden|Hden].
  2:{ exfalso. rewrite Forall_forall in Hn2. by apply Hn2 in Hden. }
  destruct (er_decision (cc_evaluation c)).
  - exfalso. destruct Hd as [-> _]. by apply not_elem_of_nil in Hden.
  - exfalso. destruct Hd as [-> _]. by apply not_elem_of_nil in Hden.
  - destruct Hd as [[_ Hno]|[-> Hresp]]; [done|]. split; [|done]. rewrite app_nil_r.
    eapply Forall_impl; [exact Hn1|]. by intros [].
Qed.

(** A poll finds no response, or a JSON value other than null. *)
Definition readable (file : ResponseFile) : Prop :=
  match file with
  | NoFile => True
  | FileText text => ∃ raw, json_parse text = Some raw ∧ raw ≠ VNull
  | FileUnreadable _ => False
  end.

(** A world in which the boundary does its part: appends succeed, the log survives
    what runs meanwhile, human handlers answer, request files can be written, response
    files can be read and hold JSON values other than null, polls advance the clock, the
    errors of servers carry readable data, and servers accept root updates. *)
Record cooperative (a : AuditLog) : Prop := {
  coop_append t entry : w_append t entry = None;
  coop_alive : ¬ dead a;
  coop_interfere t sh : ¬ dead (sh_audit sh) → ¬ dead (sh_audit (w_interfere t sh));
  coop_human t q : ∃ r, w_onEscalation t q = inl r;
  coop_write t : w_requestWrite t = None;
  coop_files t i : readable (w_responseFile t i);
  coop_clock t j : (w_pollClock t j + ESCALATION_POLL_INTERVAL_MS ≤ w_pollClock t (S j))%Z;
  coop_start t : (w_now t ≤ w_pollClock (S t) 0)%Z;
  coop_errors t s n args e : w_callTool t s n args = inr e → ∃ m, extractMcpErrorMessage e = Ok m;
  coop_roots t s : ∃ b, w_sendRootsListChanged t s = inl b;
}.

Lemma read_total (file : ResponseFile) :
  readable file → ∃ r, readEscalationResponse file = Ok r.
Proof.
  unfold readEscalationResponse. destruct file as [|text|]; [by eexists| |done].
  intros (raw & -> & Hnull). destruct raw; try done; by eexists.
Qed.

Lemma wait_total clock file fuel start timeout req resp :
  (∀ i, readable (file i)) →
  waitForEscalationDecision clock file None fuel start timeout req resp ≠ None →
  ∃ evs r, waitForEscalationDecision clock file None fuel start timeout req resp = Some (evs, Ok r).
Proof.
  intros Hf. unfold waitForEscalationDecision.
  assert (Hpoll : ∀ fuel i deadline msg, pollLoop clock file fuel i deadline ≠ PollError msg).
  { clear fuel. intros fuel. induction fuel as [|fuel IH]; intros i deadline msg; cbn [pollLoop]; [done|].
    case_bool_decide; [|done]. destruct (read_total (file i) (Hf i)) as [[r|] ->]; [done|apply IH]. }
  destruct (pollLoop _ _ _ _ _) as [r|msg|i|] eqn:Hp; intros Hne; [by do 2 eexists| |
    |done].
  - by apply Hpoll in Hp.
  - destruct (read_total (file i) (Hf i)) as [r ->]. by do 2 eexists.
Qed.

Lemma Throw_not_Ok {A} (r : result A) a msg : r = Ok a → r = Throw msg → False.
Proof. by intros ->. Qed.

Lemma answers_not_raises {A} (r : A + JsError) e : (∃ a, r = inl a) → r = inr e → False.
Proof. by intros [a ->]. Qed.

(** C9. Every call is answered: [handleCallTool] does not raise, whatever the tool, the
    arguments, the policy and the answers of the server, in a world where audit appends
    succeed, human handlers answer, request files can be written, response files can be
    read and hold JSON values other than null, polls advance the clock, the errors of
    servers carry readable data and servers accept root updates; in particular the wait
    for a human ends with its timeout. *)
Theorem every_call_answered toolName rawArgs rx s :
  cooperative (sh_audit (st_shared s)) →
  ∃ resp, (handleCallTool deps toolName rawArgs rx s).2 = inl resp.
Proof.
  intros [Happ Halive Hint Hhuman Hwrite Hfiles Hclock Hstart Herrors Hroots].
  assert (Hlog : ∀ a t entry, ¬ dead a →
    ¬ dead (log a (w_append t entry) entry).1 ∧
    (log a (w_append t entry) entry).2 = Ok ()).
  { intros a t entry Ha. pose proof (log_cases a (w_append t entry) entry) as Hc.
    rewrite Happ in *. destruct (log _ _ _) as [a' r] eqn:Hl.
    destruct Hc as [(-> & _ & Ha' & _)|(msg & -> & Hd & _)]; [done|].
    exfalso. revert Hl. unfold log. unfold dead in Ha.
    destruct (al_closed a); [naive_solver|]. destruct (al_streamError a); [|done].
    intros _. apply Ha. right. by eexists. }
  assert (Hwait : ∀ t req resp,
    match waitForEscalationDecision (w_pollClock (S t)) (w_responseFile (S t)) (w_requestWrite (S t)) (pollFuel deps) (w_now t)
            (getEscalationTimeoutMs (d_escalationTimeout deps)) req resp with
    | Some (_, Ok _) => True
    | _ => False
    end).
  { intros t req resp. rewrite Hwrite. edestruct wait_total as (evs & r & ->); [by apply Hfiles| |done].
    by apply wait_terminates. }
  destruct (handleCallTool_spec deps (λ a, ¬ dead a) False
    (λ a t entry Ha, proj1 (Hlog a t entry Ha))
    (λ a t entry msg Ha, Throw_not_Ok _ _ _ (proj2 (Hlog a t entry Ha)))
    Hint (λ t q err, answers_not_raises _ _ (Hhuman t q)) Hwait
    (λ t sv n args err msg Hw Hx, match Herrors t sv n args err Hw with
                                  | ex_intro _ m Hm => Throw_not_Ok _ _ _ Hm Hx end)
    (λ t sv err, answers_not_raises _ _ (Hroots t sv))
    toolName rawArgs rx s Halive) as (_ & new & _ & id & ts & _ & Hr).
  destruct (handleCallTool _ _ _ _ _).2 as [resp|err]; [by eexists|]. exfalso.
  by destruct Hr as [[_ []]|(tool & c & _ & _ & [] & _)].
Qed.
End properties.

(** ** Witnesses *)

Lemma every_answer_audited_witness :
  ∃ before entry,
    st_trace (demo_run Approved true None).1 = before ++ [EvAudit entry] ∧
    ae_requestId entry = "r1".
Proof.
  destruct (every_answer_audited (H2 := demo_world Approved) (demo_deps true None) "git_push"
    demo_push_args demo_identity demo_state
    (match (demo_run Approved true None).2 with
     | inl r => r | inr _ => errorResponse "" (denied "" "") end))
    as (before & entry & Ht & Hid & _).
  - vm_compute. reflexivity.
  - exists before, entry. split; [exact Ht|exact Hid].
Defined.

Lemma no_unauthorised_effect_witness :
  ∃ tool c id ts,
    d_toolMap (demo_deps true None) !! "git_push" = Some tool ∧
    context_of (demo_deps true None) tool demo_push_args id ts c.
Proof.
  pose (run := st_trace (demo_run Approved true None).1).
  destruct (no_unauthorised_effect (H2 := demo_world Approved) (demo_deps true None)
    "git_push" demo_push_args (Some demo_identity) demo_state [EvHuman Approved; EvRoot "git" "file:///"]
    (EvForward "git" "git_push" demo_push_args) (drop 3 run))
    as (tool & c & id & ts & Htool & Hc & _).
  - vm_compute. reflexivity.
  - reflexivity.
  - exists tool, c, id, ts. split; [exact Htool|exact Hc].
Defined.

Lemma human_denial_final_witness :
  Forall (λ ev, is_effect ev = false) (st_trace (demo_run Denied true None).1).
Proof.
  apply (human_denial_final (H2 := demo_world Denied) (demo_deps true None) "git_push"
    demo_push_args (Some demo_identity) demo_state).
  - reflexivity.
  - vm_compute. left.
Defined.

Lemma demo_cooperative human : cooperative (H2 := demo_world human) (newAuditLog None None).
Proof.
  split; try done; cbn [w_pollClock w_now demo_world]; unfold ESCALATION_POLL_INTERVAL_MS.
  - intros [?|[? ?]]; done.
  - by eexists.
  - intros t i. cbn [w_responseFile demo_world]. destruct (i =? 3); [|done].
    eexists. by split.
  - intros t j. lia.
  - intros t. lia.
  - by eexists.
Qed.

(** With escalations over files: the answer arrives at the fourth poll. *)
Lemma every_call_answered_witness : ∃ resp, (demo_run Approved false None).2 = inl resp.
Proof.
  apply (every_call_answered (H2 := demo_world Approved) (demo_deps false None) "git_push"
    demo_push_args (Some demo_identity) demo_state).
  apply demo_cooperative.
Defined.
