(* ===== verification/CoordinatorProperties.v ===== *)
(** * Properties of the coordinator

    Serialisation of tool calls, policy swaps, progress, and what closing does and
    does not guarantee. *)

From S2P Require Import Prelude JsValue Paths Urls Roles Domains PolicyTypes.
From S2P Require Import PolicyEngine Whitelist CircuitBreaker Tools ProxyTools AuditLog PolicyEngineTheory.
From S2P Require Import Pipeline Coordinator CoordinatorTheory Demo.

Section properties.
Context `{FileSystem} `{PolicyFiles}.

(** C3. One policy per call: in every reachable coordinator, a call that has
    started and not finished, even while it waits for a human outside the mutex,
    works with the policy engine and persona in force; and at most one call or
    policy job holds the call mutex, at most one the policy mutex. *)
Theorem one_policy_per_call c i t d :
  reachable c → co_threads c !! i = Some t → captured t = Some d →
  d_policyEngine d = co_policyEngine c ∧ d_persona d = co_currentPersona c ∧
  (∀ j k u v, co_threads c !! j = Some u → co_threads c !! k = Some v →
     holds_call u = true → holds_call v = true → j = k) ∧
  length (policyMutex (co_gate c)) ≤ 1.
Proof.
  intros Hr Hi Hd. apply reachable_safe in Hr as Hs.
  destruct (safe_current _ Hs i t d Hi Hd) as [He Hp]. split; [done|]. split; [done|].
  assert (Hone : ∀ j k u v, co_threads c !! j = Some u → co_threads c !! k = Some v →
     holds_call u = true → holds_call v = true → j = k).
  { intros j k u v Hj Hk Hu Hv.
    pose proof (queue_holder _ _ _ _ (safe_call _ Hs) j u Hj Hu) as Hgj.
    pose proof (queue_holder _ _ _ _ (safe_call _ Hs) k v Hk Hv) as Hgk.
    destruct (granted_elem _ _ Hgj) as [q Hq]. rewrite Hq in Hgk. simpl in Hgk. by bool_hyps. }
  split; [done|]. destruct (policyMutex (co_gate c)) as [|j [|k l]] eqn:Hq; simpl; [lia..|].
  exfalso. pose proof (safe_policy _ Hs) as Hpol. rewrite Hq in Hpol.
  destruct (proj1 (queue_mem _ _ _ _ Hpol j) ltac:(set_solver)) as (u & Hu & Hhu).
  destruct (proj1 (queue_mem _ _ _ _ Hpol k) ltac:(set_solver)) as (v & Hv & Hhv).
  assert (j = k) as -> by (apply (Hone j k u v); [done..|by destruct u as [|? []]|by destruct v as [|? []]]).
  apply (queue_nodup _ _ _ _) in Hpol. apply NoDup_cons in Hpol as [Hni _]. set_solver.
Qed.

(** The policy in force. *)
Definition policy_of (c : Coordinator) : PolicyEngine * option string :=
  (co_policyEngine c, co_currentPersona c).

(** C5. Policy swaps are atomic and quiescent: the only step that changes the
    policy in force is the critical section of a [loadPolicy] whose files loaded;
    it installs the engine of the loaded policy, with the proxy rules first, and
    the persona together, and at that moment no call has started and not finished
    (nor is any waiting for a human). *)
Theorem policy_swap_quiescent c a c' :
  reachable c → act_on c a = Some c' → policy_of c' ≠ policy_of c →
  ∃ i choice persona dir policy lists, a = Step i choice ∧
    co_threads c !! i = Some (TQuiesce (JLoad persona dir) QLocked) ∧
    loadPersonaPolicyArtifacts dir = Ok (policy, lists) ∧
    policy_of c' =
      (newPolicyEngine (with_rules policy (proxyPolicyRules ++ cp_rules policy))
         (mergeProxyAnnotations (o_toolAnnotations (co_options c))) (o_protectedPaths (co_options c))
         (o_allowedDirectory (co_options c))
         (Some (default ∅ (o_serverDomainAllowlists (co_options c)))) lists
         (Some (default ∅ (o_trustedServers (co_options c)))), Some persona) ∧
    ∀ j t, co_threads c !! j = Some t → captured t = None.
Proof.
  intros Hr Ha Hne. apply reachable_safe in Hr as Hs.
  destruct a as [|sv tn|persona dir| |m|sv tools cs|sv roots|sv b|address|i choice]; simpl in Ha;
    [by simplify_eq..| |by simplify_eq|by simplify_eq| |by simplify_eq|by simplify_eq| |].
  - by destruct (validatePolicyDir dir); simplify_eq.
  - destruct cs; by simplify_eq.
  - by destruct (co_controlServerAddress c); simplify_eq.
  - unfold step in Ha. destruct (co_threads c !! i) as [[s p|job p]|] eqn:Hi; [..|done].
    + exfalso. apply Hne. clear Hne. unfold step_call in Ha. destruct p, choice; repeat case_match; simplify_eq; done.
    + destruct p; try (exfalso; apply Hne; clear Hne; unfold step_quiesce, drain_check in Ha;
        destruct job; repeat case_match; simplify_eq; done).
      cbn [step_quiesce] in Ha. destruct (granted i (policyMutex _)); [|done].
      destruct job as [persona dir|]; [|by simplify_eq].
      injection Ha as <-. unfold swapPolicy in Hne |- *.
      destruct (loadPersonaPolicyArtifacts dir) as [[policy lists]|] eqn:Hload; [|done].
      do 6 eexists. split; [done|]. split; [done|]. split; [done|]. split; [done|].
      by apply (safe_quiet _ Hs i _ Hi).
Qed.

(** C12. The coordinator never gets stuck: in every reachable state with a call, a
    policy load or a close that has not finished, some thread can continue; so no
    interleaving of admission, draining, the two mutexes and escalation waits
    deadlocks. *)
Theorem coordinator_progress c i t :
  reachable c → co_threads c !! i = Some t → finished t = false →
  ∃ j c', step c j Continue = Some c' ∧ reachable c'.
Proof.
  intros Hr Hi Hf. destruct (unfinished_steps c i t) as (j & c' & Hj); [| |done..|].
  - by apply reachable_safe.
  - by apply reachable_live.
  - exists j, c'. split; [done|]. by apply (reachable_step c (Step j Continue)).
Qed.

(** ** Closing *)

Definition past_drain (p : QuiescePhase) : bool :=
  match p with QStart | QDraining | QWoken => false | _ => true end.

(** What closing guarantees while no policy is loaded. *)
Record closing (c : Coordinator) : Prop := {
  closing_jobs i job p : co_threads c !! i = Some (TQuiesce job p) → job = JClose;
  closing_shut i job p : co_threads c !! i = Some (TQuiesce job p) → p ≠ QStart →
    toolCallAdmissionOpen (co_gate c) = false;
  closing_drained i job p : co_threads c !! i = Some (TQuiesce job p) → past_drain p = true →
    activeToolCalls (co_gate c) = 0;
  closing_closed i job : co_threads c !! i = Some (TQuiesce job QReopening) →
    closed (co_gate c) = true;
}.

Definition is_load (a : Action) : bool := match a with LoadPolicy _ _ => true | _ => false end.

Lemma closing_moved c i t t' g' :
  closing c → co_threads c !! i = Some t →
  (∀ job p, t' = TQuiesce job p → job = JClose ∧ (p ≠ QStart → toolCallAdmissionOpen g' = false) ∧
     (past_drain p = true → activeToolCalls g' = 0) ∧ (p = QReopening → closed g' = true)) →
  (toolCallAdmissionOpen (co_gate c) = false → toolCallAdmissionOpen g' = false) →
  (activeToolCalls (co_gate c) = 0 → toolCallAdmissionOpen (co_gate c) = false →
     activeToolCalls g' = 0) →
  (closed (co_gate c) = true → closed g' = true) → closing (moved i t' g' c).
Proof.
  intros [Hj Hs Hd Hc] Hi Ht Hopen Hact Hcl.
  split; simpl; intros j job; [intros p|intros p|intros p|];
    intros [[-> <-]|[_ Hu]]%insert_cases.
  - by eapply Ht.
  - by eapply Hj.
  - by eapply Ht.
  - intros Hp. by eapply Hopen, Hs.
  - by eapply Ht.
  - intros Hp. apply Hact; [by eapply Hd|]. eapply Hs; [exact Hu|]. by destruct p.
  - by eapply Ht.
  - by eapply Hcl, Hc.
Qed.

Lemma closing_wake c ids g' :
  closing c → toolCallAdmissionOpen g' = toolCallAdmissionOpen (co_gate c) →
  activeToolCalls g' = activeToolCalls (co_gate c) → closed g' = closed (co_gate c) →
  closing (set_gate g' (set_threads (wake ids (co_threads c)) c)).
Proof.
  intros [Hj Hs Hd Hc] Ho Ha Hcl.
  assert (Hold : ∀ i job p, wake ids (co_threads c) !! i = Some (TQuiesce job p) →
    ∃ p', co_threads c !! i = Some (TQuiesce job p') ∧ (p' = p ∨ p' = QDraining ∧ p = QWoken)).
  { intros i job p (t & Ht & Hu)%wake_Some. destruct (includes ids i); [|subst; eauto].
    destruct t as [s []|job' []]; simplify_eq/=; eauto. }
  split; simpl; intros i job; [intros p|intros p|intros p|]; intros (p' & Hi & Hp)%Hold.
  - by eapply Hj.
  - intros Hne. rewrite Ho. eapply Hs; [exact Hi|]. by destruct Hp as [-> |[-> _]].
  - intros Hpast. rewrite Ha. eapply Hd; [exact Hi|]. destruct Hp as [-> |[-> ->]]; done.
  - rewrite Hcl. destruct Hp as [-> |[_ ?]]; [|done]. by eapply Hc.
Qed.

(** A move of a call. *)
Lemma closing_call_moved c i s p p' g' :
  closing c → co_threads c !! i = Some (TCall s p) →
  toolCallAdmissionOpen g' = toolCallAdmissionOpen (co_gate c) →
  closed g' = closed (co_gate c) →
  (activeToolCalls (co_gate c) = 0 → toolCallAdmissionOpen (co_gate c) = false →
     activeToolCalls g' = 0) → closing (moved i (TCall s p') g' c).
Proof.
  intros Hcl Hi Ho Hc' Ha.
  eapply closing_moved; [done|done|done|by rewrite Ho|done|by rewrite Hc'].
Qed.

Lemma closing_step_call c i s p choice c' :
  closing c → co_threads c !! i = Some (TCall s p) → step_call c i s p choice = Some c' →
  closing c'.
Proof.
  intros Hcl Hi.
  assert (Hm : ∀ p' g', toolCallAdmissionOpen g' = toolCallAdmissionOpen (co_gate c) →
      closed g' = closed (co_gate c) →
      (activeToolCalls (co_gate c) = 0 → toolCallAdmissionOpen (co_gate c) = false →
         activeToolCalls g' = 0) → closing (moved i (TCall s p') g' c))
    by (intros; by eapply closing_call_moved).
  destruct p; cbn [step_call]; [|done|..|done|done].
  - destruct (closed _) eqn:Hc; [intros [= <-]; by apply Hm|].
    destruct (toolCallAdmissionOpen _) eqn:Ho; intros [= <-]; apply Hm; simpl; congruence.
  - intros [= <-]. by apply Hm.
  - case_match; [|done]. intros [= <-]. by apply Hm.
  - destruct choice; intros [= <-]; [by apply Hm..|by destruct Hcl].
  - intros [= <-]. by apply Hm.
  - case_match; [|done]. intros [= <-]. by apply Hm.
  - assert (Hz : ∀ n, n = Nat.pred (activeToolCalls (co_gate c)) →
      closing (moved i (TCall s CallDone) (set_active n (co_gate c)) c)).
    { intros n ->. apply Hm; [done..|simpl; lia]. }
    case_bool_decide; intros [= <-]; [|by apply Hz].
    apply (closing_wake (moved _ _ _ _)); [by apply Hz|done..].
Qed.

(** A move of a close that has started. *)
Lemma closing_close_moved c i p p' g' :
  closing c → co_threads c !! i = Some (TQuiesce JClose p) →
  toolCallAdmissionOpen g' = toolCallAdmissionOpen (co_gate c) →
  activeToolCalls g' = activeToolCalls (co_gate c) →
  (closed (co_gate c) = true ∨ p' = QReopening → closed g' = true) →
  p ≠ QStart → (past_drain p' = true → past_drain p = true) →
  closing (moved i (TQuiesce JClose p') g' c).
Proof.
  intros Hcl Hi Ho Ha Hc' Hp Hpp.
  eapply closing_moved; [done|done| |by rewrite Ho|by rewrite Ha|auto].
  intros job p'' [= <- <-]. rewrite Ho, Ha. split_and!; [done| | |auto].
  - intros _. by eapply closing_shut.
  - intros Hpast. eapply closing_drained; [done|done|]. auto.
Qed.

Lemma closing_drain_check c i p g :
  closing c → co_threads c !! i = Some (TQuiesce JClose p) →
  toolCallAdmissionOpen g = false → activeToolCalls g = activeToolCalls (co_gate c) →
  closed g = closed (co_gate c) → closing (drain_check c i JClose g).
Proof.
  intros Hcl Hi Ho Ha Hc'. unfold drain_check. destruct (Nat.ltb_spec 0 (activeToolCalls g));
    (eapply closing_moved; simpl; rewrite ?Ho, ?Ha, ?Hc'; [done|done| |done|done|done];
     intros job' p' [= <- <-]; split_and!; try done; intros _; lia).
Qed.

Lemma closing_step_quiesce c i p c' :
  closing c → co_threads c !! i = Some (TQuiesce JClose p) →
  step_quiesce c i JClose p = Some c' → closing c'.
Proof.
  intros Hcl Hi.
  assert (Hm : ∀ p' g', toolCallAdmissionOpen g' = toolCallAdmissionOpen (co_gate c) →
      activeToolCalls g' = activeToolCalls (co_gate c) →
      (closed (co_gate c) = true → closed g' = true) → p ≠ QStart → p' ≠ QReopening →
      (past_drain p' = true → past_drain p = true) → closing (moved i (TQuiesce JClose p') g' c)).
  { intros p' g' Ho Ha Hc' Hp Hp' Hpp. eapply closing_close_moved; [done..| |done|done].
    intros [?|?]; [auto|done]. }
  destruct p; cbn [step_quiesce]; try done.
  - intros [= <-]. assert (Hd : closing (drain_check c i JClose (set_open false (co_gate c))))
      by (by eapply closing_drain_check).
    unfold drain_check in *. destruct (0 <? _)%nat; by destruct Hd.
  - intros [= <-]. eapply closing_drain_check; [done|done|by eapply closing_shut|done|done].
  - case_match; [|done]. intros [= <-]. by apply Hm.
  - case_match; [|done]. intros [= <-]. by apply Hm.
  - intros [= <-]. by apply Hm.
  - intros [= <-]. by eapply closing_close_moved.
  - rewrite (closing_closed _ Hcl i JClose Hi). intros [= <-].
    apply (closing_wake (moved _ _ _ _)); [by apply Hm|done..].
  - intros [= <-]. assert (Hq : closing (moved i (TQuiesce JClose QDone) (co_gate c) c))
      by (by apply Hm).
    by destruct Hq.
Qed.

Lemma closing_step c i choice c' :
  closing c → step c i choice = Some c' → closing c'.
Proof.
  intros Hcl. unfold step. destruct (co_threads c !! i) as [[s p|job p]|] eqn:Hi; [..|done].
  - by eapply closing_step_call.
  - assert (job = JClose) as -> by (by eapply closing_jobs). by eapply closing_step_quiesce.
Qed.

Lemma closing_spawn c t :
  closing c → (∀ job p, t = TQuiesce job p → job = JClose ∧ p = QStart) → closing (spawn t c).
Proof.
  intros [Hj Hs Hd Hc] Ht.
  assert (Hl : ∀ i u, (co_threads c ++ [t]) !! i = Some u → co_threads c !! i = Some u ∨ u = t).
  { intros i u. rewrite lookup_app_Some, list_lookup_singleton_Some. naive_solver. }
  split; simpl; intros i job; [intros p|intros p|intros p|]; intros [Hi|Heq]%Hl.
  - by eapply Hj.
  - by destruct (Ht job p).
  - by eapply Hs.
  - by destruct (Ht job p) as [_ ->].
  - by eapply Hd.
  - by destruct (Ht job p) as [_ ->].
  - by eapply Hc.
  - by destruct (Ht job QReopening).
Qed.

Lemma closing_run c actions c' :
  safe c → closing c → Forall (λ a, is_load a = false) actions → run c actions = Some c' →
  reachable c → closing c' ∧ reachable c'.
Proof.
  revert c. induction actions as [|a actions IH]; intros c Hs Hcl Hall; simpl; [by intros [= <-]|].
  apply Forall_cons in Hall as [Ha Hall]. destruct (act_on c a) as [c1|] eqn:Hact; [|done]. simpl.
  intros Hrun Hr. assert (Hr1 : reachable c1) by (by eapply reachable_step).
  eapply IH; [by apply reachable_safe| |done..].
  destruct a as [|sv tn|persona dir| |m|sv tools cs|sv roots|sv b|address|i choice]; simpl in Hact.
  - injection Hact as <-. by apply closing_spawn.
  - injection Hact as <-. by apply closing_spawn.
  - done.
  - injection Hact as <-. apply closing_spawn; [done|]. by intros job p [= <- <-].
  - injection Hact as <-. by destruct Hcl.
  - injection Hact as <-. destruct cs, Hcl; by split.
  - injection Hact as <-. by destruct Hcl.
  - injection Hact as <-. by destruct Hcl.
  - destruct (co_controlServerAddress c); simplify_eq. by destruct Hcl.
  - by eapply closing_step.
Qed.

(** Closing is final when no policy load overlaps it: in any run without
    [loadPolicy], from the moment a close has seen the calls drained no call is
    active and admission stays shut, so nothing runs after the audit log is
    closed. *)
Theorem close_final options mkdirError actions c i p j t :
  run (newCoordinator options mkdirError) actions = Some c →
  Forall (λ a, is_load a = false) actions →
  co_threads c !! i = Some (TQuiesce JClose p) → past_drain p = true →
  co_threads c !! j = Some t →
  active_thread t = false ∧ toolCallAdmissionOpen (co_gate c) = false.
Proof.
  intros Hrun Hall Hi Hp Hj.
  assert (Hnew : closing (newCoordinator options mkdirError)).
  { split; simpl; intros k job; [intros q|intros q|intros q|]; by rewrite lookup_nil. }
  destruct (closing_run _ _ _ (safe_new _ _) Hnew Hall Hrun (reachable_new _ _)) as [Hcl Hr].
  split.
  - eapply (count_zero active_thread); [|done].
    rewrite <-(safe_active c) by (by apply reachable_safe). by eapply closing_drained.
  - eapply closing_shut; [done|exact Hi|]. by intros ->.
Qed.
End properties.

(** ** A concrete coordinator *)

#[export] Instance demo_policy_files : PolicyFiles := {|
  ironCurtainHome := "/home/me/.ironcurtain";
  packageConfigDir := "/opt/ironcurtain";
  loadPersonaPolicyArtifacts dir :=
    if dir =? "/home/me/.ironcurtain/personas/dev" then Ok (demo_policy, Some demo_lists)
    else Throw "ENOENT";
|}.

Definition demo_options : CoordinatorOptions :=
  {| o_compiledPolicy := demo_policy; o_toolAnnotations := demo_annotations;
     o_protectedPaths := ["/etc"]; o_allowedDirectory := Some "/sandbox";
     o_serverDomainAllowlists := None; o_dynamicLists := Some demo_lists;
     o_trustedServers := None; o_auditRedact := None; o_autoApproveModel := false;
     o_escalationDir := None; o_onEscalation := true; o_controlApiClient := false;
     o_resolvedSandboxConfigs := None; o_workerCount := None; o_controlServerListen := false;
     o_isPtySession := false; o_escalationTimeout := None |}.

Definition demo_coordinator : Coordinator := newCoordinator demo_options None.

Definition go (i : nat) : Action := Step i Continue.

Definition demo_after (actions : list Action) : Coordinator :=
  default demo_coordinator (run demo_coordinator actions).

Lemma run_reachable `{FileSystem} `{PolicyFiles} c actions c' :
  reachable c → run c actions = Some c' → reachable c'.
Proof.
  revert c. induction actions as [|a actions IH]; intros c Hr; simpl; [by intros [= <-]|].
  destruct (act_on c a) as [c1|] eqn:Ha; [|done]. simpl. apply IH. by eapply reachable_step.
Qed.

Lemma demo_after_reachable actions : reachable (demo_after actions).
Proof.
  unfold demo_after. pose proof (reachable_new demo_options None) as Hn.
  destruct (run demo_coordinator actions) as [c|] eqn:Hr; [|exact Hn].
  by eapply run_reachable.
Qed.

Definition devPolicyDir : string := "/home/me/.ironcurtain/personas/dev".

(** A policy load and a close wait for a running call, and a new call waits for
    admission.  The load finishes first and reopens admission before the close has
    marked the coordinator closed; the new call queues for the mutex behind the
    close and runs after it. *)
Definition race : list Action :=
  [HandleToolCall; go 0; go 0; go 0;
   LoadPolicy "dev" devPolicyDir; go 1;
   Close; go 2;
   HandleToolCall; go 3;
   go 0; go 0;
   go 1; go 2;
   go 1; go 1; go 1; go 1; go 1;
   go 3; go 3;
   go 2; go 2; go 2; go 2; go 2;
   go 3;
   go 2].

(** C21. Closing is not final when a policy load overlaps it: there is a run in
    which a call is admitted behind a close and still holds the call mutex,
    running, after the coordinator is closed and its audit log has been closed, so
    that every append of its audit entry throws. *)
Theorem close_race :
  ∃ c d, run demo_coordinator race = Some c ∧ reachable c ∧
    co_threads c !! 3 = Some (TCall None (Running d)) ∧
    co_threads c !! 2 = Some (TQuiesce JClose QDone) ∧ closed (co_gate c) = true ∧
    ∀ err entry, ∃ msg, (log (sh_audit (co_shared c)) err entry).2 = Throw msg.
Proof.
  exists (demo_after race), (buildCallToolDeps (demo_after race) None).
  split; [vm_compute; reflexivity|]. split; [apply demo_after_reachable|].
  split; [vm_compute; reflexivity|]. split; [vm_compute; reflexivity|].
  split; [vm_compute; reflexivity|].
  intros err entry. apply log_dead. left. vm_compute. reflexivity.
Qed.

(** ** Witnesses *)

(** A call that waits for a human. *)
Definition demo_waiting : list Action := [HandleToolCall; go 0; go 0; go 0; Step 0 BeginWait].

Lemma one_policy_per_call_witness :
  ∃ d, co_threads (demo_after demo_waiting) !! 0 = Some (TCall None (Escalating d)) ∧
    d_policyEngine d = co_policyEngine (demo_after demo_waiting).
Proof.
  eexists. split; [vm_compute; reflexivity|].
  eapply (one_policy_per_call (demo_after demo_waiting) 0).
  - apply demo_after_reachable.
  - vm_compute. reflexivity.
  - reflexivity.
Defined.

(** A policy load that is about to swap. *)
Definition demo_load : list Action := [LoadPolicy "dev" devPolicyDir; go 0; go 0].

Lemma policy_swap_quiescent_witness :
  ∃ i choice, go 0 = Step i choice ∧
    (policy_of (demo_after (demo_load ++ [go 0]))).2 = Some "dev".
Proof.
  destruct (policy_swap_quiescent (demo_after demo_load) (go 0) (demo_after (demo_load ++ [go 0])))
    as (i & choice & persona & dir & policy & lists & Ha & _).
  - apply demo_after_reachable.
  - vm_compute. reflexivity.
  - intros Heq. apply (f_equal snd) in Heq. vm_compute in Heq. discriminate.
  - exists i, choice. split; [exact Ha|]. vm_compute. reflexivity.
Defined.

Lemma coordinator_progress_witness :
  ∃ j c', step (demo_after demo_waiting) j Continue = Some c'.
Proof.
  edestruct (coordinator_progress (demo_after demo_waiting) 0) as (j & c' & Hj & _).
  - apply demo_after_reachable.
  - vm_compute. reflexivity.
  - reflexivity.
  - exists j, c'. exact Hj.
Defined.

(** A close behind a running call, and a call that arrives too late. *)
Definition demo_closing : list Action :=
  [HandleToolCall; go 0; go 0; go 0; Close; go 1; HandleToolCall; go 2; go 0; go 0;
   go 1; go 1; go 1; go 1; go 1; go 1; go 2].

Lemma close_final_witness :
  toolCallAdmissionOpen (co_gate (demo_after demo_closing)) = false ∧
  co_threads (demo_after demo_closing) !! 2 = Some (TCall None Rejected).
Proof.
  split; [|vm_compute; reflexivity].
  apply (close_final demo_options None demo_closing (demo_after demo_closing) 1 QClosing 2
    (TCall None Rejected)).
  - vm_compute. reflexivity.
  - repeat constructor.
  - vm_compute. reflexivity.
  - reflexivity.
  - vm_compute. reflexivity.
Defined.
