(* ===== verification/BoundaryProperties.v ===== *)
(** * Properties of the trust boundary

    Argument normalisation, container path rewriting, policy roots, the approval
    whitelist and the circuit breaker. *)

From Stdlib Require Import Sorted QArith Qcanon.
From S2P Require Import Prelude JsValue Paths Urls Roles Domains PolicyTypes PolicyEngine PathArgs.
From S2P Require Import Whitelist Hashing CircuitBreaker Demo.

Section arguments.
Context `{FileSystemLaws} `{UrlParser}.

Lemma path_role_canonicalize role :
  category (roleDef role) = CatPath → canonicalize (roleDef role) = resolveRealPath.
Proof. by destruct role. Qed.

(** C13. The policy judges the path the server uses: for an argument whose
    first resource role is a path role, and a sandbox directory, each string handed to the policy engine is the
    real path of what the server gets when it resolves the transported string
    against the sandbox, its working directory; other items are passed unchanged. *)
Theorem policy_judges_transport args annotation dir container key roles role v :
  obj_wf args → dir ≠ "" →
  obj_get (ta_args annotation) key = Some roles →
  findResourceRole roles = Some role → category (roleDef role) = CatPath →
  obj_get args key = Some v →
  let prepared := prepareToolArgs args annotation (Some dir) container in
  ∃ sent, obj_get (argsForTransport prepared) key = Some sent ∧
    obj_get (argsForPolicy prepared) key =
      Some (normalizeArgValue sent (λ s, resolveAgainstSandbox s dir)).
Proof.
  intros Hwf Hdir Hroles Hrole Hcat Hv. simpl. rewrite prepareToolArgs_eq by done. simpl.
  rewrite (obj_get_fmap_keyed (λ k v, (prepareArg annotation (Some dir) container k v).1)).
  rewrite (obj_get_fmap_keyed (λ k v, (prepareArg annotation (Some dir) container k v).2)).
  rewrite Hv. simpl. eexists. split; [done|]. f_equal.
  unfold prepareArg. rewrite Hroles. cbn [mbind option_bind]. rewrite Hrole.
  destruct dir as [|a dir]; [done|]. cbn [truthy_string].
  rewrite (bool_decide_eq_true_2 (category (roleDef role) = CatPath)) by done. cbn [fst snd].
  unfold normalizePathForPolicy, normalizePathForTransport.
  rewrite normalizeArgValue_compose. apply normalizeArgValue_ext. intros s.
  rewrite path_role_canonicalize by done. symmetry. apply path_agreement.
Qed.

(** Normalisation keeps the call's shape: both argument objects have exactly
    the call's keys in order, an argument without a resource role is passed
    unchanged to both, and policy and transport only differ for path roles with a
    sandbox. *)
Theorem prepareToolArgs_shape args annotation ad container key :
  obj_wf args →
  let prepared := prepareToolArgs args annotation ad container in
  obj_keys (argsForTransport prepared) = obj_keys args ∧
  obj_keys (argsForPolicy prepared) = obj_keys args ∧
  match obj_get (ta_args annotation) key ≫= findResourceRole with
  | None => obj_get (argsForTransport prepared) key = obj_get args key ∧
            obj_get (argsForPolicy prepared) key = obj_get args key
  | Some role =>
      (category (roleDef role) ≠ CatPath ∨ truthy_string ad = None) →
      obj_get (argsForPolicy prepared) key = obj_get (argsForTransport prepared) key
  end.
Proof.
  intros Hwf. simpl. rewrite prepareToolArgs_eq by done. simpl.
  rewrite (obj_keys_fmap_keyed (λ k v, (prepareArg annotation ad container k v).1)).
  rewrite (obj_keys_fmap_keyed (λ k v, (prepareArg annotation ad container k v).2)).
  split; [done|]. split; [done|].
  rewrite (obj_get_fmap_keyed (λ k v, (prepareArg annotation ad container k v).1)).
  rewrite (obj_get_fmap_keyed (λ k v, (prepareArg annotation ad container k v).2)).
  unfold prepareArg. destruct (_ ≫= findResourceRole) as [role|].
  - intros Hc. destruct (obj_get args key) as [v|]; [|done]. simpl. f_equal.
    destruct (truthy_string ad) as [dir|]; [|done].
    destruct Hc as [Hc|Hc]; [|done]. by rewrite bool_decide_eq_false_2.
  - by destruct (obj_get args key).
Qed.
End arguments.

Lemma endsWith_slash_snoc s : endsWith (s +:+ "/") "/" = true.
Proof. apply endsWith_spec. by exists s. Qed.

(** Container paths round trip: a path below the container's workspace is
    rewritten to the same path below the host sandbox, and the reverse rewriting
    of results gives the container path back, when the host directory does not
    occur again further down the path. *)
Theorem container_path_roundtrip container host rest :
  endsWith container "/" = false → startsWith container "/" = true →
  host ≠ "" → endsWith host "/" = false →
  rest ≠ "" → str_includes ("/" +:+ rest) host = false →
  let path := container +:+ "/" +:+ rest in
  rewriteContainerPath path container host = host +:+ "/" +:+ rest ∧
  rewriteResultContent
    (VArr [VObj [("type", VStr "text"); ("text", VStr (rewriteContainerPath path container host))]])
    host container =
  VArr [VObj [("type", VStr "text"); ("text", VStr path)]].
Proof.
  intros Hc2 Hc3 Hh1 Hh3 Hr1 Hinc path.
  assert (Hrw : rewriteContainerPath path container host = host +:+ "/" +:+ rest).
  { unfold rewriteContainerPath. rewrite (drop_trailing_slash_id container) by done.
    rewrite bool_decide_eq_false_2.
    - unfold path. by rewrite <-str_app_assoc, startsWith_app, str_drop_app.
    - intros Heq. destruct (endsWith path "/") eqn:He.
      + apply endsWith_spec in He as [t Ht]. rewrite Ht, drop_trailing_slash_app in Heq.
        * rewrite Heq in Ht. apply str_app_inv_head in Ht. injection Ht as Ht. done.
        * intros ->. apply startsWith_spec in Hc3 as [c' ->]. injection Ht as Ht.
          by apply (f_equal String.length) in Ht; rewrite !str_length_app in Ht; simpl in Ht; lia.
      + rewrite drop_trailing_slash_id in Heq by done. apply (f_equal String.length) in Heq.
        unfold path in Heq. rewrite !str_length_app in Heq. simpl in Heq. lia. }
  split; [done|]. rewrite Hrw. cbn [rewriteResultContent].
  rewrite (drop_trailing_slash_id host), bool_decide_eq_false_2 by done.
  do 2 f_equal. simpl. rewrite replaceAll_prefix by done.
  case_bool_decide as Heq; [|done]. by rewrite <-Heq.
Qed.

(** ** Roots *)

(** The exposed roots: the sandbox comes first, no directory appears twice,
    and the other directories are exactly those named by a rule that is not a
    deny rule, each labelled by such a rule; so a directory only denied is never
    exposed. *)
Theorem policy_roots_exact `{FileSystem} policy dir :
  let roots := extractPolicyRoots policy dir in
  (∃ more, roots = {| pr_path := resolveRealPath dir; pr_name := "sandbox" |} :: more ∧
     ∀ r, r ∈ more → ∃ rule, rule ∈ cp_rules policy ∧ grants rule (pr_path r) ∧
                             pr_name r = r_name rule) ∧
  NoDup (pr_path <$> roots) ∧
  ∀ d, d ∈ pr_path <$> roots ↔
    d = resolveRealPath dir ∨ ∃ rule, rule ∈ cp_rules policy ∧ grants rule d.
Proof.
  intros roots. destruct (rootsLoop_spec (cp_rules policy) [resolveRealPath dir]
    [{| pr_path := resolveRealPath dir; pr_name := "sandbox" |}]) as (Hnd & Hmore & Hmem).
  - done.
  - apply NoDup_singleton.
  - split; [done|]. split; [done|]. intros d. rewrite <-list_elem_of_singleton. apply Hmem.
Qed.

(** The root added for an approved path covers it: when the directory derived
    from an approved path exists and is not the root directory, the path is within
    that directory. *)
Theorem approved_root_covers `{FileSystemLaws} p :
  directoryForPath p ≠ "/" → realpathSync (directoryForPath p) = Some (directoryForPath p) →
  isWithinDirectory p (directoryForPath p) = true.
Proof. apply within_directoryForPath. Qed.

(** ** The whitelist *)

Section whitelist.
Context `{FileSystemLaws} `{UrlParser}.

(** What a constraint says of a value. *)
Definition satisfies (c : WhitelistConstraint) (v : string) : Prop :=
  match c with
  | ConDirectory _ d =>
      within_segments (path_segments (resolveRealPath v)) (path_segments (resolveRealPath d))
  | ConDomain role d => toLowerCase (roleDomain role v) = toLowerCase d
  | ConExact _ w => toLowerCase v = toLowerCase w
  end.

Lemma constraintMatches_spec c args annotation :
  constraintMatches c args annotation = true ↔
  extractAnnotatedPaths args annotation [con_role c] ≠ [] ∧
  ∀ v, v ∈ extractAnnotatedPaths args annotation [con_role c] → satisfies c v.
Proof.
  unfold constraintMatches. generalize (extractAnnotatedPaths args annotation [con_role c]).
  intros [|v0 vs]; [naive_solver|].
  rewrite bool_decide_eq_false_2 by done. destruct c; rewrite forallb_forall_elem; simpl.
  - setoid_rewrite isWithinDirectory_spec. naive_solver.
  - setoid_rewrite bool_decide_eq_true. naive_solver.
  - setoid_rewrite bool_decide_eq_true. naive_solver.
Qed.

(** C19. The whitelist approves nothing it was not told: when a store built by
    approvals matches a call, the pattern found was added for the same server and
    tool, has at least one constraint, and for every constraint the call carries
    values of its role, all of which satisfy it (inside the approved directory
    after symbolic links, same domain, same identifier). *)
Theorem whitelist_match_sound patterns serverName toolName args annotation p :
  reachable_store patterns →
  match_call patterns serverName toolName args annotation = Some p →
  p ∈ patterns ∧ wp_serverName (wp_data p) = serverName ∧ wp_toolName (wp_data p) = toolName ∧
  wp_constraints (wp_data p) ≠ [] ∧
  ∀ c, c ∈ wp_constraints (wp_data p) →
    extractAnnotatedPaths args annotation [con_role c] ≠ [] ∧
    ∀ v, v ∈ extractAnnotatedPaths args annotation [con_role c] → satisfies c v.
Proof.
  intros Hreach Hm. apply find_some_elem in Hm as [Hp Hmatch].
  unfold patternMatches in Hmatch. apply andb_true_iff in Hmatch as [Hn Hall].
  apply andb_true_iff in Hn as [Hs Ht]. bool_hyps.
  split_and!; [done..|by eapply reachable_constrained|].
  rewrite forallb_forall_elem in Hall. intros c Hc. by apply constraintMatches_spec, Hall.
Qed.

(** Candidates carry constraints: an offered pattern names the escalated call
    and has at least one constraint, every constraint is for an escalated role
    that does not rewrite history and generalises a value of the call, and
    adding the pattern never throws. *)
Theorem candidates_constrained patterns uuid s t args annotation escalated id reason now pds ds :
  extractWhitelistCandidates s t args annotation (Some escalated) id reason now = (pds, ds) →
  length pds = length ds ∧ length pds ≤ 1 ∧
  ∀ pd, pd ∈ pds →
    wp_serverName pd = s ∧ wp_toolName pd = t ∧ wp_constraints pd ≠ [] ∧
    (∃ patterns', add patterns uuid pd = Ok (patterns', uuid)) ∧
    ∀ c, c ∈ wp_constraints pd →
      con_role c ∈ escalated ∧ (con_role c ∉ HISTORY_REWRITING_ROLES) ∧
      ∃ v, v ∈ extractAnnotatedPaths args annotation [con_role c] ∧ self_matches v c.
Proof.
  unfold extractWhitelistCandidates. case_bool_decide as Hl; intros [= <- <-]; simpl.
  { split; [done|]. split; [lia|set_solver]. }
  split; [done|]. split; [done|]. intros pd ->%list_elem_of_singleton. simpl.
  split_and!; [done..| | |].
  - by intros Hnil; rewrite Hnil in Hl.
  - unfold add. simpl. rewrite bool_decide_eq_false_2 by done. by eexists.
  - intros c (Hr & Hh & v & Hv & Hb)%elem_of_buildConstraints. split_and!; [done..|].
    exists v. split; [done|]. by eapply buildConstraintForRole_self.
Qed.

(** Approving a call approves its repetition: when the call carries one value
    for each role a constraint was built for, and the containing directories
    exist and are not the root directory, the same call matches the whitelist
    after its candidate was added. *)
Theorem approved_call_matches patterns patterns' uuid id' s t args annotation roles id reason now
    pd ds :
  extractWhitelistCandidates s t args annotation roles id reason now = ([pd], ds) →
  add patterns uuid pd = Ok (patterns', id') →
  (∀ c, c ∈ wp_constraints pd → ∃ v, extractAnnotatedPaths args annotation [con_role c] = [v]) →
  (∀ role d, ConDirectory role d ∈ wp_constraints pd → d ≠ "/" ∧ realpathSync d = Some d) →
  is_Some (match_call patterns' s t args annotation).
Proof.
  intros Hex Hadd Hone Hdirs.
  assert (Hall : forallb (λ c, constraintMatches c args annotation) (wp_constraints pd) = true).
  { apply forallb_forall_elem. intros c Hc. apply constraintMatches_spec.
    destruct (Hone c Hc) as [v Hv]. rewrite Hv. split; [done|]. intros w ->%list_elem_of_singleton.
    assert (Hself : self_matches v c).
    { revert Hex Hc. unfold extractWhitelistCandidates. case_bool_decide; [done|].
      intros [= <- _]. simpl. intros (_ & _ & v' & Hv' & Hb)%elem_of_buildConstraints.
      rewrite Hv in Hv'. apply list_elem_of_singleton in Hv' as ->.
      by eapply buildConstraintForRole_self. }
    destruct c as [role d|role d|role w]; simpl in *; subst; [|done|by rewrite toLowerCase_idem].
    destruct (Hdirs role _ Hc) as [Hne Hreal].
    destruct (resolveRealPath_canonical v) as (segs & Hg & Hsegs).
    rewrite Hsegs in *. destruct segs as [|x segs _] using rev_ind; [done|].
    pose proof Hg as [Hgs [Hx _]%Forall_cons]%Forall_app.
    rewrite dirname_render in * by done.
    rewrite (resolveRealPath_of_canonical (render segs)), Hreal by (by apply canonical_render).
    rewrite !path_segments_render by done. right. split; [by intros ->|by exists [x]]. }
  assert (Hnames : wp_serverName pd = s ∧ wp_toolName pd = t).
  { revert Hex. unfold extractWhitelistCandidates. case_bool_decide; [done|]. by intros [= <- _]. }
  unfold add in Hadd. case_bool_decide; simplify_eq.
  destruct (match_call _ _ _ _ _) as [p|] eqn:Hm; [by eexists|]. exfalso.
  pose proof (proj1 (find_none_elem _ _) Hm) as Hnone.
  specialize (Hnone {| wp_id := id'; wp_data := pd |} ltac:(set_solver)).
  unfold patternMatches in Hnone. simpl in Hnone. destruct Hnames as [Hs Ht].
  rewrite !bool_decide_eq_true_2, Hall in Hnone by done. done.
Qed.
End whitelist.

(** ** The circuit breaker *)

Section breaker.
Context `{Runtime}.

(** The sliding window is exact: in a run of a new breaker under a clock that
    does not go back, a call is allowed exactly when fewer than threshold times
    worker count calls with the same tool and argument hash were allowed in the
    window that ends with it; denied calls do not count. *)
Theorem breaker_window_exact config calls i c v :
  StronglySorted Z.le (call_time <$> calls) →
  let b := newCallCircuitBreaker config in
  let log := (run_checks b calls).2 in
  log !! i = Some (c, v) →
  is_allowed v = true ↔
  (Z.of_nat (length (filter (λ t, call_time c - windowMs b < t)%Z
     (allowed_times (call_key c) (take i log)))) < effectiveThreshold b)%Z.
Proof.
  intros Hs b log Hi. destruct calls as [|c0 calls]; [by destruct i|].
  assert (Hinv : window_inv b (call_time c0) []) by (by apply window_inv_init).
  assert (Hs' : StronglySorted Z.le (call_time c0 :: (call_time <$> c0 :: calls))).
  { csimpl in *. constructor; [done|]. apply StronglySorted_inv in Hs as [_ Hs].
    constructor; [lia|done]. }
  rewrite (run_checks_exact b (c0 :: calls) [] (call_time c0) Hinv Hs' i c v Hi).
  by rewrite bool_decide_eq_true.
Qed.

(** At least one identical call is always allowed: the effective threshold is
    positive whatever the configuration, so the first call with a key in a window
    is allowed. *)
Lemma breaker_first_allowed config now tool args :
  (1 ≤ effectiveThreshold (newCallCircuitBreaker config))%Z ∧
  (check (newCallCircuitBreaker config) now tool args).2 = BreakerAllowed.
Proof.
  assert (Hpos : (1 ≤ effectiveThreshold (newCallCircuitBreaker config))%Z).
  { unfold effectiveThreshold, newCallCircuitBreaker, at_least_one. simpl. nia. }
  split; [done|]. unfold check. rewrite bool_decide_eq_false_2; [done|]. simpl.
  rewrite lookup_empty. simpl. lia.
Qed.

(** Key order is immaterial: two argument objects with the same entries in
    different orders fall into the same window. *)
Theorem breaker_key_order tool args1 args2 :
  obj_wf args1 → args1 ≡ₚ args2 → breakerKey tool args1 = breakerKey tool args2.
Proof.
  intros Hwf Hp. unfold breakerKey, computeHash. by rewrite (stableStringify_perm args1 args2).
Qed.
End breaker.

(** ** Witnesses *)

Ltac decided := match goal with |- ?P => apply (bool_decide_unpack P); vm_compute; exact I end.

Definition demo_read_annotation : ToolAnnotation :=
  {| ta_toolName := "read_files"; ta_serverName := "filesystem"; ta_comment := "";
     ta_args := [("paths", [ReadPath])] |}.

Definition demo_args : object jsvalue :=
  [("paths", VArr [VStr "a.txt"; VStr "/sandbox/link/passwd"; VNull]); ("depth", VBool true)].

Lemma policy_judges_transport_witness :
  let prepared := prepareToolArgs demo_args demo_read_annotation (Some "/sandbox") None in
  obj_get (argsForPolicy prepared) "paths"
    = Some (VArr [VStr "/sandbox/a.txt"; VStr "/etc/passwd"; VNull]) ∧
  ∃ sent, obj_get (argsForTransport prepared) "paths" = Some sent ∧
    obj_get (argsForPolicy prepared) "paths" =
      Some (normalizeArgValue sent (λ s, resolveAgainstSandbox s "/sandbox")).
Proof.
  split; [vm_compute; reflexivity|].
  apply (policy_judges_transport demo_args demo_read_annotation "/sandbox" None "paths"
           [ReadPath] ReadPath (VArr [VStr "a.txt"; VStr "/sandbox/link/passwd"; VNull])).
  - decided.
  - discriminate.
  - reflexivity.
  - reflexivity.
  - reflexivity.
  - reflexivity.
Defined.

Lemma prepareToolArgs_shape_witness :
  obj_keys (argsForTransport (prepareToolArgs demo_args demo_read_annotation (Some "/sandbox") None))
  = ["paths"; "depth"].
Proof.
  apply (prepareToolArgs_shape demo_args demo_read_annotation (Some "/sandbox") None "depth").
  decided.
Defined.

Lemma container_path_roundtrip_witness :
  rewriteContainerPath "/workspace/src/a.ts" "/workspace" "/sandbox" = "/sandbox/src/a.ts" ∧
  rewriteResultContent
    (VArr [VObj [("type", VStr "text");
       ("text", VStr (rewriteContainerPath "/workspace/src/a.ts" "/workspace" "/sandbox"))]])
    "/sandbox" "/workspace" =
  VArr [VObj [("type", VStr "text"); ("text", VStr "/workspace/src/a.ts")]].
Proof.
  apply (container_path_roundtrip "/workspace" "/sandbox" "src/a.ts");
    try reflexivity; discriminate.
Defined.

Lemma approved_root_covers_witness :
  directoryForPath "~/docs/n.txt" = "/home/me/docs" ∧
  isWithinDirectory "~/docs/n.txt" (directoryForPath "~/docs/n.txt") = true.
Proof.
  split; [vm_compute; reflexivity|].
  apply (approved_root_covers "~/docs/n.txt"); vm_compute; [discriminate|reflexivity].
Defined.

(** The candidate of a call that reads a document, and the store with it. *)
Definition demo_doc_args : object jsvalue := [("paths", VArr [VStr "/home/me/docs/n.txt"])].

Definition demo_candidate : PatternData :=
  {| wp_serverName := "filesystem"; wp_toolName := "read_files";
     wp_constraints := [ConDirectory ReadPath "/home/me/docs"]; wp_createdAt := "t";
     wp_sourceEscalationId := "e1"; wp_originalReason := "why";
     wp_description := "Allow filesystem/read_files read-path within /home/me/docs" |}.

Definition demo_store : ApprovalWhitelist := [{| wp_id := "w1"; wp_data := demo_candidate |}].

Lemma whitelist_match_sound_witness :
  ∃ p, match_call demo_store "filesystem" "read_files"
         [("paths", VArr [VStr "~/docs/other.txt"])] demo_read_annotation = Some p ∧
       p ∈ demo_store.
Proof.
  eexists. split; [vm_compute; reflexivity|].
  eapply (whitelist_match_sound demo_store "filesystem" "read_files"
            [("paths", VArr [VStr "~/docs/other.txt"])] demo_read_annotation).
  - apply (store_add [] "w1" demo_candidate _ "w1"); [apply store_new|reflexivity].
  - vm_compute. reflexivity.
Defined.

Lemma candidates_constrained_witness :
  ∃ patterns', add [] "w1" demo_candidate = Ok (patterns', "w1").
Proof.
  edestruct (candidates_constrained [] "w1" "filesystem" "read_files" demo_doc_args
               demo_read_annotation [ReadPath] "e1" "why" "t" [demo_candidate])
    as (_ & _ & Hall).
  - vm_compute. reflexivity.
  - destruct (Hall demo_candidate) as (_ & _ & _ & Hadd & _); [left|exact Hadd].
Defined.

Lemma approved_call_matches_witness :
  is_Some (match_call demo_store "filesystem" "read_files" demo_doc_args demo_read_annotation).
Proof.
  apply (approved_call_matches [] demo_store "w1" "w1" "filesystem" "read_files" demo_doc_args
           demo_read_annotation (Some [ReadPath]) "e1" "why" "t" demo_candidate
           ["Allow filesystem/read_files read-path within /home/me/docs"]).
  - vm_compute. reflexivity.
  - vm_compute. reflexivity.
  - simpl. intros c ->%list_elem_of_singleton. eexists. vm_compute. reflexivity.
  - simpl. intros role d [= -> ->]%list_elem_of_singleton. split; [discriminate|].
    vm_compute. reflexivity.
Defined.

(** Three identical calls against a threshold of two per second. *)
Definition demo_breaker_config : option PartialConfig :=
  Some {| p_windowMs := Some 1000%Z; p_threshold := Some (Q2Qc 2); p_workerCount := None |}.

Definition demo_calls : list Call :=
  (λ t, {| call_time := t; call_tool := "fetch"; call_args := demo_doc_args |})
    <$> [0; 400; 900; 1000; 1400]%Z.

Lemma breaker_window_exact_witness :
  (λ e, is_allowed e.2) <$> (run_checks (newCallCircuitBreaker demo_breaker_config) demo_calls).2
    = [true; true; false; true; true] ∧
  let c := {| call_time := 900%Z; call_tool := "fetch"; call_args := demo_doc_args |} in
  let log := (run_checks (newCallCircuitBreaker demo_breaker_config) demo_calls).2 in
  ∃ v, log !! 2 = Some (c, v) ∧
    (is_allowed v = true ↔
     (Z.of_nat (length (filter (λ t, 900 - 1000 < t)%Z (allowed_times (call_key c) (take 2 log))))
      < effectiveThreshold (newCallCircuitBreaker demo_breaker_config))%Z).
Proof.
  split; [vm_compute; reflexivity|]. intros c log.
  eexists. split; [vm_compute; reflexivity|].
  eapply (breaker_window_exact demo_breaker_config demo_calls 2 c).
  - repeat constructor; discriminate.
  - vm_compute. reflexivity.
Defined.

Lemma breaker_key_order_witness :
  breakerKey "fetch" [("a", VNull); ("b", VStr "x")] = breakerKey "fetch" [("b", VStr "x"); ("a", VNull)].
Proof.
  apply (breaker_key_order "fetch"); [decided|]. apply perm_swap.
Defined.
