(* ===== verification/ToolingProperties.v ===== *)
(** * Properties of the pipeline's helpers

    Escalations over files, the auto-approver, the virtual proxy tools, the audit
    log, argument validation and the routing table. *)

From Stdlib Require Import Ascii QArith Qround Qcanon.
From S2P Require Import Prelude JsValue Paths Urls Roles Domains PolicyTypes.
From S2P Require Import PolicyEngine Hashing Tools EscalationIpc AutoApprover ProxyTools Redactor.
From S2P Require Import AuditLog Demo.

(** ** Escalations over files *)

(** C20. A human approval over files is explicit: when the wait ends in an approval,
    some poll found a response file that parses to a JSON value whose [decision]
    is the string ["approved"]; a timeout, a missing field or any other value is
    a denial, and in every decided case the request was written first and both
    files are removed at the end. *)
Theorem escalation_wait_fail_closed `{Runtime} clock file write fuel start timeout req resp evs r :
  waitForEscalationDecision clock file write fuel start timeout req resp = Some (evs, Ok r) →
  evs = [WriteRequest req; Unlink req; Unlink resp] ∧
  (esc_decision r = Approved → ∃ j text, file j = FileText text ∧ approves text) ∧
  (Forall (λ j, file j = NoFile) (seq 0 fuel) → esc_decision r = Denied).
Proof.
  unfold waitForEscalationDecision. intros Hw.
  assert (Hc : evs = [WriteRequest req; Unlink req; Unlink resp] ∧
    (esc_decision r = Denied ∧ esc_whitelistSelection r = None ∨
     ∃ j, j < fuel ∧ readEscalationResponse (file j) = Ok (Some r))).
  { destruct write; [done|]. destruct (pollLoop _ _ _ _ _) as [r'|msg|i|] eqn:Hp; simplify_eq/=.
    - split; [done|]. right. by apply pollLoop_answer_bound in Hp.
    - apply pollLoop_deadline_bound in Hp.
      destruct (readEscalationResponse (file i)) as [[r'|]|] eqn:Hr; simplify_eq/=; eauto. }
  destruct Hc as [-> Hc]. split; [done|]. split.
  - intros Ha. destruct Hc as [[? _]|(j & _ & Hj)]; [congruence|].
    destruct (readEscalationResponse_approved _ _ Hj Ha) as (text & ? & ?). eauto.
  - intros Hnone. destruct Hc as [[? _]|(j & Hlt & Hj)]; [done|]. exfalso.
    rewrite Forall_forall in Hnone. rewrite (Hnone j) in Hj; [done|].
    apply elem_of_seq. lia.
Qed.

(** ** The auto-approver *)

(** The auto-approver is conservative in what it decides and in what it is
    shown: it approves only on a nonempty user message and an explicit approval
    in the model's structured output, so an error or a missing output escalates;
    and every argument it is shown is an argument of the call whose first role
    is a resource identifier, free of control characters and cut to 200
    characters (and an ellipsis). *)
Theorem auto_approver_conservative `{FileSystem} `{UrlParser} `{Runtime} context generateText
    args annotation shown k s :
  extractArgsForAutoApprove args annotation = Some shown → obj_get shown k = Some s →
  (aa_decision (autoApprove context generateText) = AutoApprove →
     str_trim (aa_userMessage context) ≠ "" ∧
     ∃ parsed, generateText (buildUserPrompt context) = Ok (Some parsed) ∧
               aa_decision parsed = AutoApprove) ∧
  k ∈ obj_keys args ∧
  (∃ a role roles, annotation = Some a ∧ obj_get (ta_args a) k = Some (role :: roles) ∧
     isResourceIdentifier (roleDef role) = true) ∧
  str_forallb (λ c, negb (is_control c)) s = true ∧ String.length s ≤ 203.
Proof.
  intros Hex Hk. split.
  - unfold autoApprove. case_bool_decide as Hm; [done|]. intros Ha. split; [done|].
    destruct (generateText _) as [[parsed|]|]; [|done..]. by exists parsed.
  - unfold extractArgsForAutoApprove in Hex. destruct annotation as [a|]; [|done].
    case_match; simplify_eq/=. apply elem_of_prompt_args in Hk as [Hk|(v & Hv & Hp)]; [done|].
    apply promptArg_spec in Hp as (role & roles & Hr & Hid & Hclean & Hlen).
    split_and!; [|by exists a, role, roles|done..].
    apply list_elem_of_fmap. by exists (k, v).
Qed.

(** ** The virtual proxy tools *)

(** What reaches the control API: a handled call sends at most one request, and
    asks to open a domain exactly when the tool is [add_proxy_domain], the domain
    and a justification are nonempty strings and the domain passes validation;
    such a domain has at least two labels, at most 253 characters, and is neither
    an IP address nor [localhost] nor under [docker.internal]. *)
Theorem proxy_domains_validated toolName args client domain :
  length (handleVirtualProxyTool toolName args client).1 ≤ 1 ∧
  (AddDomain domain ∈ (handleVirtualProxyTool toolName args client).1 ↔
   toolName = "add_proxy_domain" ∧ get_value args "domain" = VStr domain ∧ domain ≠ "" ∧
   (∃ why, get_value args "justification" = VStr why ∧ why ≠ "") ∧
   validateDomain domain = Ok ()) ∧
  (validateDomain domain = Ok () →
   String.length domain ≤ 253 ∧ 2 ≤ length (split_on "."%char domain) ∧
   IP_RE domain = false ∧ toLowerCase domain ≠ "localhost" ∧
   endsWith (toLowerCase domain) ".docker.internal" = false).
Proof.
  assert (Hreq : ∀ name r, requireStringArg args name = Ok r ↔ get_value args name = VStr r ∧ r ≠ "").
  { intros name r. unfold requireStringArg. destruct (get_value args name) as [| | | |[]| |]; naive_solver. }
  split; [|split].
  - unfold handleVirtualProxyTool. repeat case_match; simpl; lia.
  - unfold handleVirtualProxyTool. case_bool_decide as Ht.
    + destruct (requireStringArg args "domain") as [d|] eqn:Hd; simpl.
      2:{ split; [by intros ?%not_elem_of_nil|]. intros (_ & ? & ? & _).
          assert (requireStringArg args "domain" = Ok domain) by (by apply Hreq). congruence. }
      apply Hreq in Hd as [Hd Hne].
      destruct (requireStringArg args "justification") as [w|] eqn:Hw; simpl.
      2:{ split; [by intros ?%not_elem_of_nil|]. intros (_ & _ & _ & (w & ? & ?) & _).
          assert (requireStringArg args "justification" = Ok w) by (by apply Hreq). congruence. }
      apply Hreq in Hw.
      destruct (validateDomain d) as [[]|] eqn:Hv; simpl; cycle 1.
      { split; [by intros ?%not_elem_of_nil|]. intros (_ & Hd' & _ & _ & Hv').
        assert (d = domain) as -> by congruence. congruence. }
      rewrite list_elem_of_singleton. split.
      * intros [= ->]. split_and!; [done..|by exists w|done].
      * intros (_ & Hd' & _). congruence.
    + split; [|by intros [? _]]. intros Hin. exfalso.
      destruct (toolName =? "remove_proxy_domain"), (toolName =? "list_proxy_domains");
        try destruct (requireStringArg args "domain"); simpl in Hin;
        first [by apply not_elem_of_nil in Hin | by apply list_elem_of_singleton in Hin].
  - intros (Hl & Hre & Hip & Hlo & Hdk)%validateDomain_ok. split_and!; try done.
    unfold DOMAIN_RE in Hre. apply andb_true_iff in Hre as [Hre _].
    apply Nat.ltb_lt in Hre. exact Hre.
Qed.

(** ** The audit log *)

(** The audit log is exact and fails closed: over any sequence of appends, with
    any answers of the disk, the lines written are those of the appends that
    succeeded, in order, and once an append has thrown every later one throws. *)
Theorem audit_log_fail_closed a appends :
  let run := run_log a appends in
  al_lines run.1 = al_lines a ++
    ((λ e, if al_redact a then redactAuditEntry e else e) <$>
       omap (λ e, match e.2 with Ok _ => Some e.1 | Throw _ => None end) run.2) ∧
  run.2.*1 = appends.*2 ∧
  (∀ i j, i ≤ j → (∃ e m, run.2 !! i = Some (e, Throw m)) → j < length appends →
     ∃ e m, run.2 !! j = Some (e, Throw m)).
Proof.
  revert a. induction appends as [|[err e] appends IH]; intros a.
  { simpl. rewrite app_nil_r. split_and!; [done..|]. intros i j ? ? ?. lia. }
  cbn [run_log fst snd]. pose proof (log_cases a err e) as Hc.
  pose proof (log_redact a err e) as Hredact.
  destruct (log a err e) as [a' r]. specialize (IH a').
  pose proof (run_log_dead a' appends) as Hdead.
  destruct (run_log a' appends) as [a'' rs]. cbn [fst snd] in *.
  destruct IH as (Hl & Hfst & Hmono). rewrite Hredact in Hl. split_and!.
  - destruct Hc as [(-> & _ & _ & Hla)|(m & -> & _ & Hla)]; csimpl;
      rewrite Hl, Hla; [by rewrite <-app_assoc|done].
  - csimpl. by rewrite Hfst.
  - intros [|i] [|j] Hij (e' & m & Hi) Hj; simpl in *; [eauto| |lia|].
    + simplify_eq. destruct Hc as [(? & _)|(m' & _ & Hd & _)]; [done|].
      destruct (lookup_lt_is_Some_2 rs j) as [[e'' r''] Hj'].
      { rewrite <-(length_fmap fst rs), Hfst, length_fmap. lia. }
      assert (Hall := Hdead Hd). rewrite Forall_lookup in Hall.
      specialize (Hall j _ Hj') as [m'' ?]. simpl in *. subst. eauto.
    + eapply (Hmono i j); [lia|by eauto|lia].
Qed.

(** Redaction is exact: a string is rewritten in three left-to-right passes, for
    card numbers, social security numbers and API keys; each pass replaces the
    matches of its expression and keeps every other character; a card match is
    masked exactly when it has 13 to 19 digits with a valid Luhn checksum, and
    then shows only its first four and last four digits. *)
Theorem redaction_exact text :
  (∃ s1 s2, rewritten CREDIT_CARD_RE cardReplacer None text s1 ∧
     rewritten SSN_RE ssnReplacer None s1 s2 ∧
     rewritten API_KEY_RE redactApiKey None s2 (redactString text)) ∧
  (let digits := only_digits text in
   cardReplacer text =
     if (13 <=? String.length digits)%nat && (String.length digits <=? 19)%nat && luhnCheck digits
     then str_take 4 digits +:+ " " +:+ stars (String.length digits - 8) +:+ " " +:+ str_last 4 digits
     else text).
Proof.
  split.
  - exists (replace_all CREDIT_CARD_RE cardReplacer text),
      (replace_all SSN_RE ssnReplacer (replace_all CREDIT_CARD_RE cardReplacer text)).
    split_and!; apply replace_rewritten; vm_compute; lia.
  - unfold cardReplacer, redactCreditCard. set (d := only_digits text).
    destruct (Nat.leb_spec 13 (String.length d)), (Nat.ltb_spec (String.length d) 13); try lia; [|done].
    destruct (Nat.leb_spec (String.length d) 19), (Nat.ltb_spec 19 (String.length d)); try lia; [|done].
    destruct (luhnCheck d); [|done]. simpl.
    destruct (Nat.leb_spec (String.length d) 8); [lia|done].
Qed.

(** ** The routing table *)

(** Unambiguous routing: the collision check passes exactly when the bare tool
    names are distinct, and then the routing table sends every name to the one
    tool that carries it. *)
Theorem unique_names_route tools :
  (assertUniqueToolNames tools = Ok () ↔ NoDup (pt_name <$> tools)) ∧
  (assertUniqueToolNames tools = Ok () →
   ∀ name tool, buildToolMap tools !! name = Some tool ↔ tool ∈ tools ∧ pt_name tool = name).
Proof.
  assert (Hiff : assertUniqueToolNames tools = Ok () ↔ NoDup (pt_name <$> tools)).
  { rewrite NoDup_names. unfold assertUniqueToolNames. destruct (ownersByName_spec tools) as [Hwf Hget].
    split.
    - case_bool_decide as Hl; [|done]. intros _ n. apply nil_length_inv in Hl.
      specialize (Hget n). destruct (with_name n tools) as [|t ts] eqn:Hn; [simpl; lia|].
      apply (elem_of_obj_get _ _ _ Hwf) in Hget.
      destruct ts as [|t2 ts]; [simpl; lia|]. exfalso.
      eapply not_elem_of_nil. rewrite <-Hl. apply list_elem_of_filter. split; [|exact Hget].
      csimpl. lia.
    - intros Hall. rewrite list_filter_none; [done|]. apply Forall_forall. intros [n owners] Hin%(elem_of_obj_get _ _ _ Hwf).
      rewrite Hget in Hin. specialize (Hall n). rewrite <-(length_fmap pt_serverName) in Hall.
      destruct (pt_serverName <$> _) as [|o os]; simplify_eq/=. lia. }
  split; [done|]. rewrite Hiff. intros Hnd name tool. split.
  - apply buildToolMap_elem.
  - intros [Hin <-]. by apply buildToolMap_lookup.
Qed.

(** Argument validation is complete for a closed schema: it passes exactly when
    every argument is declared in [properties] and has the JSON type its
    declaration names, if it names one. *)
Theorem validate_arguments_exact args schema props :
  as_object (get_value schema "properties") = Some props →
  truthy (get_value schema "additionalProperties") = false →
  (validateToolArguments args schema = None ↔
   ∀ k, k ∈ obj_keys args → k ∈ obj_keys props ∧
     ∀ decl expected, as_object (get_value props k) = Some decl →
       get_value decl "type" = VStr expected →
       matchesJsonSchemaType (get_value args k) expected = true).
Proof.
  intros Hp Hc. unfold validateToolArguments. rewrite Hp, Hc.
  case_bool_decide as Hl; simpl.
  - apply nil_length_inv in Hl. rewrite first_some_None. split.
    + intros Hall k Hk. split.
      * destruct (decide (k ∈ obj_keys props)) as [|Hn]; [done|]. exfalso.
        eapply not_elem_of_nil. rewrite <-Hl. by apply list_elem_of_filter.
      * intros decl expected Hd Ht. specialize (Hall k Hk). unfold argumentError in Hall.
        rewrite Hd, Ht in Hall. by destruct (matchesJsonSchemaType _ _).
    + intros Hall k Hk. destruct (Hall k Hk) as [_ Hty]. unfold argumentError.
      destruct (as_object (get_value props k)) as [decl|] eqn:Hd; [|done].
      destruct (get_value decl "type") eqn:Ht; try done.
      by erewrite Hty.
  - split; [done|]. intros Hall. exfalso. apply Hl. rewrite list_filter_none; [done|].
    apply Forall_forall. intros k Hk Hn. by apply Hn, Hall.
Qed.

(** ** Witnesses *)

(** An answer at the third poll, half a second apart. *)
Definition demo_answer_file (j : nat) : ResponseFile := if j =? 2 then FileText "approved" else NoFile.

Lemma escalation_wait_fail_closed_witness :
  ∃ j text, demo_answer_file j = FileText text ∧ approves text.
Proof.
  eapply (escalation_wait_fail_closed (λ j, 500 * Z.of_nat j)%Z demo_answer_file None 5 0
    (Q2Qc (inject_Z 2000)) "request" "response" _
    {| esc_decision := Approved; esc_whitelistSelection := None |}).
  - vm_compute. reflexivity.
  - reflexivity.
Defined.

Definition demo_annotation : ToolAnnotation :=
  {| ta_toolName := "read_files"; ta_serverName := "filesystem"; ta_comment := "";
     ta_args := [("paths", [ReadPath])] |}.

Lemma auto_approver_conservative_witness : String.length "/sandbox/a.txt, b" ≤ 203.
Proof.
  apply (auto_approver_conservative
    {| aa_userMessage := "read it"; aa_toolName := "filesystem/read_files";
       aa_escalationReason := "outside"; aa_arguments := None |}
    (λ _, Throw "offline")
    [("paths", VArr [VStr "/sandbox/a.txt"; VStr "b"]); ("limit", VStr "3")]
    (Some demo_annotation) [("paths", "/sandbox/a.txt, b")] "paths").
  - vm_compute. reflexivity.
  - reflexivity.
Defined.

Definition demo_schema : object jsvalue :=
  [("type", VStr "object"); ("properties", VObj [("path", VObj [("type", VStr "string")])])].

Lemma validate_arguments_exact_witness :
  validateToolArguments [("path", VStr "/a")] demo_schema = None ∧
  validateToolArguments [("path", VBool true)] demo_schema ≠ None ∧
  "path" ∈ obj_keys [("path", VObj [("type", VStr "string")])].
Proof.
  split; [vm_compute; reflexivity|]. split; [vm_compute; discriminate|].
  eapply (validate_arguments_exact [("path", VStr "/a")] demo_schema).
  - reflexivity.
  - reflexivity.
  - vm_compute. reflexivity.
  - left.
Defined.
