(* ===== verification/SessionProperties.v ===== *)
(** * Properties of the agent session

    The loop detector and the budget tracker against their histories, what guards
    running code, and what a failed turn leaves behind. *)

From Stdlib Require Import Sorted QArith Qcanon.
From S2P Require Import Prelude Numbers JsValue Hashing StepLoop Budget Messages.
From S2P Require Import Session SessionTheory Demo.

(** ** The loop detector *)

(** The loop detector is exact: after any steps its streaks count exactly the
    steps at the end of the history without a new result (repeated code:
    stagnation; new code: stuck), where "new" compares with all earlier steps;
    it is blocked exactly if some prefix of the history ended with a full block
    threshold of one category; and repeating one earlier step often enough
    always blocks. *)
Theorem loop_detector_exact `{Runtime} stagnation stuck (steps : list (string * jsvalue)) :
  let d0 := newStepLoopDetector stagnation stuck in
  let d := analyzeSteps d0 steps in
  let cs := categories (hash_step <$> steps) in
  counts FullStagnation (stagnationStreak d) cs ∧
  counts Stuck (stuckStreak d) cs ∧
  (is_Some (isBlocked d) ↔
     ∃ n, n < length steps ∧ over_limit (ld_config d0) (take (S n) cs)) ∧
  (∀ s, s ∈ steps →
     is_Some (isBlocked (analyzeSteps d
       (replicate (Z.to_nat (th_block (lc_stagnation (ld_config d0)))) s)))).
Proof.
  intros d0 d cs. unfold d. rewrite analyzeSteps_hashes.
  destruct (detector_inv_run stagnation stuck (hash_step <$> steps)) as [_ _ _ Hs Ht Hb].
  fold d0 in Hs, Ht, Hb. rewrite length_fmap in Hb. split_and!; [done..|].
  intros s Hin. set (n := Z.to_nat _). rewrite analyzeSteps_hashes.
  unfold run_steps. rewrite <-foldl_app. fold (run_steps d0).
  rewrite fmap_replicate.
  destruct (detector_inv_run stagnation stuck ((hash_step <$> steps) ++ replicate n (hash_step s)))
    as [_ _ _ _ _ Hb'].
  fold d0 in Hb'. unfold run_steps in Hb'. apply Hb'.
  assert (0 < length steps) by (destruct steps; [by apply elem_of_nil in Hin|simpl; lia]).
  exists (length steps + n - 1).
  rewrite length_app, length_fmap, length_replicate. split; [lia|].
  rewrite take_ge by (rewrite categories_length, length_app, length_fmap, length_replicate; lia).
  rewrite categories_repeated by (by apply list_elem_of_fmap_2). left. fold n. by eexists.
Qed.

Lemma loop_detector_exact_witness :
  is_Some (isBlocked (analyzeSteps
    (analyzeSteps (newStepLoopDetector None None) [("f()", VNull)]) (replicate 5 ("f()", VNull)))).
Proof.
  destruct (loop_detector_exact None None [("f()", VNull)]) as (_ & _ & _ & H).
  apply (H ("f()", VNull)). by left.
Defined.

(** ** The budget tracker *)

(** C24. Budgets are enforced: whatever the operations, a turn never counts more
    steps than the limit; while no verdict is latched the turn is strictly below
    the limits on tokens, steps and cost, so a turn exceeds its token limit by
    less than one step; a step that reaches a limit is answered with a verdict;
    and a latched verdict stays until the next turn and refuses every step
    without counting it. *)
Theorem budget_enforced `{Runtime, Locale} config modelId ops :
  limits_positive config →
  let b := run_ops (newResourceBudgetTracker config modelId) ops in
  let pricing := resolvePricing modelId in
  (∀ m, maxSteps config = Some m → (stepCount (turn b) ≤ m)%Z) ∧
  (exhaustedVerdict b = None → within_limits config pricing (turn b) ∧
     ∀ m now u, maxTotalTokens config = Some m →
       let t := turn (recordStep now u b).1 in
       (inputTokens t + outputTokens t <
        m + inputTokens (step_usage u) + outputTokens (step_usage u))%Z) ∧
  (∀ now u, (recordStep now u b).2 = BudgetOk →
     within_limits config pricing (turn (recordStep now u b).1)) ∧
  (∀ now u v, exhaustedVerdict b = Some v →
     recordStep now u b = (b, BudgetExhausted v) ∧
     ∀ op, op ≠ OpStartTurn → exhaustedVerdict (apply_op b (now, op)) = Some v).
Proof.
  intros Hl b pricing. pose proof (budget_inv_run config modelId ops Hl) as Hb. fold b pricing in Hb.
  split_and!.
  - apply Hb.
  - intros Hv. split; [by apply Hb|]. intros m now u Hm t.
    destruct (bi_fresh _ _ _ Hb Hv) as (Ht & _ & _). specialize (Ht m Hm).
    destruct (recordStep_fresh now u b Hv) as [Hc _]. apply core_fields in Hc as (_ & _ & _ & Hc & _).
    unfold t. rewrite Hc. simpl. lia.
  - intros now u Hok. apply (budget_inv_record _ _ _ now u Hb).
    destruct (exhaustedVerdict b) as [v|] eqn:Hv.
    { by rewrite (recordStep_latched now u b v Hv) in Hok. }
    destruct (recordStep_fresh now u b Hv) as [_ Hr]. rewrite Hr in Hok.
    by destruct (exhaustedVerdict _).
  - intros now u v Hv. split; [by apply recordStep_latched|]. intros op Hop.
    by apply (tracker_steps_latched _ _ _ (tracker_steps_op b now op Hop)).
Qed.

Lemma budget_enforced_witness :
  let b := run_ops (newResourceBudgetTracker demo_budget "claude-sonnet-4-6")
             [(0%Z, OpStartTurn); (1%Z, OpRecordStep (demo_usage 900 200))] in
  (stepCount (turn b) ≤ 3)%Z ∧ is_Some (exhaustedVerdict b).
Proof.
  split.
  - assert (Hl : limits_positive demo_budget).
    { split_and!; intros m Hm; simpl in Hm; simplify_eq; done. }
    apply (budget_enforced demo_budget "claude-sonnet-4-6"
      [(0%Z, OpStartTurn); (1%Z, OpRecordStep (demo_usage 900 200))] Hl). reflexivity.
  - vm_compute. by eexists.
Defined.

(** Budgets are conserved: as long as steps are recorded inside turns, the
    cumulative snapshot, at any moment and across any number of turns, is the
    sum over exactly the steps that were accepted, and its cost is the price of
    that sum. *)
Theorem budget_accounting `{Runtime, Locale} config modelId ops now :
  let b0 := newResourceBudgetTracker config modelId in
  in_turns b0 ops = true →
  let total := sum_usage (recorded b0 ops) in
  let snapshot := getCumulativeSnapshot now (run_ops b0 ops) in
  cs_totalInputTokens snapshot = inputTokens total ∧
  cs_totalOutputTokens snapshot = outputTokens total ∧
  cs_totalTokens snapshot = (inputTokens total + outputTokens total)%Z ∧
  cs_stepCount snapshot = Z.of_nat (length (recorded b0 ops)) ∧
  cs_estimatedCostUsd snapshot = estimateCost (bt_pricing (run_ops b0 ops)) total.
Proof.
  intros b0 Hin total snapshot.
  pose proof (run_ops_total b0 ops ltac:(done) Hin) as Ht.
  change (session_total b0) with no_usage in Ht. rewrite add_counters_0_l in Ht. fold total in Ht.
  unfold session_total in Ht. unfold snapshot, getCumulativeSnapshot. rewrite Ht. simpl.
  split_and!; try done. unfold total. clear.
  induction (recorded b0 ops) as [|u us IH]; [done|]. simpl. rewrite IH. lia.
Qed.

Lemma budget_accounting_witness :
  let ops := [(0%Z, OpStartTurn); (1%Z, OpRecordStep (demo_usage 10 5)); (2%Z, OpEndTurn);
              (3%Z, OpStartTurn); (4%Z, OpRecordStep (demo_usage 7 1))] in
  cs_totalTokens (getCumulativeSnapshot 9
    (run_ops (newResourceBudgetTracker demo_budget "gpt-4o") ops)) = 23%Z.
Proof.
  intros ops. destruct (budget_accounting demo_budget "gpt-4o" ops 9) as (_ & _ & Ht & _).
  { reflexivity. }
  rewrite Ht. reflexivity.
Defined.

(** The stop condition counts every step once: however often the library calls
    it with a growing list of steps, the turn has counted a prefix of the list,
    the whole list as long as no verdict is latched, and the last answer is
    whether a verdict is latched. *)
Theorem stop_condition_counts_once `{Runtime, Locale} steps calls b seen :
  Sorted le (0 :: calls.*2) → Forall (λ n, n ≤ length steps) calls.*2 →
  last calls.*2 = Some seen →
  let '(b', processed, stop) := run_stops steps calls (b, 0, false) in
  (∃ k, k ≤ seen ∧ turn b' = add_counters (turn b) (sum_usage (take k steps)) ∧
     (exhaustedVerdict b' = None → k = seen ∧ processed = seen)) ∧
  stop = bool_decide (is_Some (exhaustedVerdict b')).
Proof.
  intros Hs Hle Hlast.
  assert (Hgen : ∀ calls b1 p n stop0, calls ≠ [] → Sorted le (n :: calls.*2) →
    Forall (λ n, n ≤ length steps) calls.*2 → stop_inv steps (turn b) p n b1 →
    let '(b', processed, stop) := run_stops steps calls (b1, p, stop0) in
    stop_inv steps (turn b) processed (default n (last calls.*2)) b' ∧
    stop = bool_decide (is_Some (exhaustedVerdict b'))).
  { clear. intros calls. induction calls as [|[now n'] calls IH]; intros b1 p n stop0 Hne Hs Hle Hi; [done|].
    csimpl in *. apply Sorted_inv in Hs as [Hs Hh]. apply HdRel_inv in Hh.
    apply Forall_cons in Hle as [Hn' Hle].
    unfold run_stops. cbn [foldl fst snd].
    pose proof (stop_inv_step steps (turn b) p n n' now b1 (conj Hh Hn') Hi) as Hstep.
    destruct (stopCondition now (take n' steps) p b1) as [[b2 p2] stop2]. destruct Hstep as [Hi2 Hst].
    destruct calls as [|c calls]; [done|].
    specialize (IH b2 p2 n' stop2 ltac:(done) Hs Hle Hi2). unfold run_stops in IH.
    destruct (foldl _ (b2, p2, stop2) _) as [[b3 p3] stop3].
    rewrite last_cons. csimpl in *. by destruct (last (c.2 :: calls.*2)) eqn:Hl; [|destruct (calls.*2)]. }
  specialize (Hgen calls b 0 0 false). destruct (run_stops _ _ _) as [[b' p'] stop'].
  rewrite Hlast in Hgen. destruct Hgen as [(k & Hk & Ht & Hf) Hst]; try done.
  - by intros ->.
  - exists 0. split_and!; [lia| |done]. by rewrite add_counters_0_r.
  - split; [|done]. exists k. split_and!; [done..|]. naive_solver.
Qed.

Lemma stop_condition_counts_once_witness :
  let steps := [demo_usage 10 1; demo_usage 20 2; demo_usage 30 3] in
  let '(b', _, stop) :=
    run_stops steps [(1%Z, 1); (2%Z, 2); (3%Z, 3)]
      (startTurn 0 (newResourceBudgetTracker demo_budget "gpt-4o"), 0, false) in
  ∃ k, k ≤ 3 ∧ turn b' = add_counters no_usage (sum_usage (take k steps)).
Proof.
  intros steps.
  pose proof (stop_condition_counts_once steps [(1%Z, 1); (2%Z, 2); (3%Z, 3)]
    (startTurn 0 (newResourceBudgetTracker demo_budget "gpt-4o")) 3) as H.
  destruct (run_stops _ _ _) as [[b' p] stop].
  destruct H as [(k & Hk & Ht & _) _].
  - repeat constructor.
  - simpl. repeat constructor.
  - reflexivity.
  - exists k. split; [exact Hk|exact Ht].
Defined.

(** ** The session *)

Lemma reachable_budget `{Runtime, Locale} config s :
  limits_positive (sc_resourceBudget config) → reachable config s →
  budget_inv (sc_resourceBudget config) (resolvePricing (sc_budgetModelId config))
    (ss_budgetTracker s).
Proof.
  intros Hl. induction 1 as [s Hs|s e s' out Hr IH Hs].
  - unfold newAgentSession in Hs. destruct (createCacheStrategy _); simplify_eq/=.
    by apply (budget_inv_run _ _ []).
  - destruct (step_guarded _ _ _ _ Hs) as [(b & Ht & Hb) _ _].
    eapply tracker_steps_inv; [done|done|]. destruct Hb as [->|(_ & now & ->)]; [done|].
    by apply (budget_inv_op _ _ _ (now, OpStartTurn)).
Qed.

Lemma run_no_code `{Runtime, Locale} (P : AgentSession → Prop) s es s' out :
  (∀ s e s' out, e ∈ es → P s → step s e = Some (s', out) → P s' ∧ ¬ may_run s) →
  P s → run s es = Some (s', out) → no_run out.
Proof.
  revert s out. induction es as [|e es IH]; intros s out Hp HP Hr; simpl in Hr.
  { simplify_eq. intros c. apply not_elem_of_nil. }
  destruct (step s e) as [[s1 o1]|] eqn:Hs; [|done]. simpl in Hr.
  destruct (run s1 es) as [[s2 o2]|] eqn:Hr1; [|done]. simplify_eq/=.
  destruct (Hp s e s1 o1 ltac:(by left) HP Hs) as [HP1 Hn].
  intros c. rewrite elem_of_app. intros [Hc|Hc].
  - destruct (gu_run _ _ _ _ _ (step_guarded _ _ _ _ Hs)) as [Ho|?]; [by apply (Ho c)|done].
  - eapply (IH s1 o2); [|done|done|exact Hc]. intros. eapply Hp; [by right|done..].
Qed.

(** C22. Code reaches the sandbox only behind every guard: in any reachable state,
    an event that starts code finds an active turn, a sandbox, no block of the
    loop detector, no budget verdict and a turn below its limits on tokens, steps
    and cost; once the loop detector blocks, no code starts until the
    conversation is rotated; and once a budget verdict is latched, none starts
    until a new turn. *)
Theorem code_runs_guarded `{Runtime, Locale} config s :
  limits_positive (sc_resourceBudget config) → reachable config s →
  (∀ e s' out code, step s e = Some (s', out) → ORan code ∈ out →
     may_run s ∧ within_limits (sc_resourceBudget config)
       (resolvePricing (sc_budgetModelId config)) (turn (ss_budgetTracker s))) ∧
  (∀ es s' out, run s es = Some (s', out) → is_Some (isBlocked (ss_loopDetector s)) →
     Forall (λ e, is_rotate e = false) es → no_run out) ∧
  (∀ es s' out, run s es = Some (s', out) → is_Some (exhaustedVerdict (ss_budgetTracker s)) →
     Forall (λ e, is_send e = false) es → no_run out).
Proof.
  intros Hl Hr. split_and!.
  - intros e s' out code Hs Hin.
    destruct (gu_run _ _ _ _ _ (step_guarded _ _ _ _ Hs)) as [Hn|Hm]; [by destruct (Hn code)|].
    split; [done|]. apply (reachable_budget config s Hl Hr). apply Hm.
  - intros es s' out Hrun Hb Hes.
    apply (run_no_code (λ s, is_Some (isBlocked (ss_loopDetector s))) s es s' out); [|done..].
    intros s1 e s2 o He Hb1 Hs1. rewrite Forall_forall in Hes.
    split; [by apply (gu_blocked _ _ _ _ _ (step_guarded _ _ _ _ Hs1)); [apply Hes|]|].
    intros (_ & _ & Hm & _). rewrite Hm in Hb1. by destruct Hb1.
  - intros es s' out Hrun Hb Hes.
    apply (run_no_code (λ s, is_Some (exhaustedVerdict (ss_budgetTracker s))) s es s' out); [|done..].
    intros s1 e s2 o He [v Hv] Hs1. rewrite Forall_forall in Hes.
    destruct (step_guarded _ _ _ _ Hs1) as [(b & Ht & [->|[Hsend _]]) _ _].
    + split; [exists v; by apply (tracker_steps_latched _ _ _ Ht)|].
      intros (_ & _ & _ & Hm). congruence.
    + rewrite (Hes e He) in Hsend. done.
Qed.

Lemma code_runs_guarded_witness :
  let s := after (initialSession demo_session_config AnthropicCacheStrategy)
             [EvInitialize (Ok ()) (Ok ()); EvSendMessage 0 "hello" true] in
  may_run s.
Proof.
  intros s. assert (Hl : limits_positive (sc_resourceBudget demo_session_config)).
  { split_and!; intros m Hm; simpl in Hm; simplify_eq; done. }
  assert (Hr : reachable demo_session_config s).
  { eapply reachable_step with (e := EvSendMessage 0 "hello" true);
      [eapply reachable_step with (e := EvInitialize (Ok ()) (Ok ()));
         [by apply reachable_new|vm_compute; reflexivity]|vm_compute; reflexivity]. }
  destruct (code_runs_guarded demo_session_config s Hl Hr) as (H & _ & _).
  eapply (H (EvExecuteCode 1 "f()") _ _ "f()"); [vm_compute; reflexivity|]. by left.
Defined.

(** A failed turn leaves no trace in the conversation: if the turn does not
    compact, then whether it fails before the model is called or after any
    events inside it, the message history is again exactly what it was when the
    message arrived. *)
Theorem failed_turn_restores_messages `{Runtime, Locale} s now msg written s1 out1 :
  ss_status s = Ready → shouldCompact (ss_compactor s) = false →
  step s (EvSendMessage now msg written) = Some (s1, out1) →
  (ss_active s1 = None → ss_messages s1 = ss_messages s) ∧
  (is_Some (ss_active s1) →
   ∀ es s2 out2 now' e s3 out3,
     Forall (λ e, inside e = true) es → run s1 es = Some (s2, out2) →
     step s2 (EvFailed now' e) = Some (s3, out3) →
     ss_messages s3 = ss_messages s ∧ ss_status s3 = Ready ∧ ss_active s3 = None).
Proof.
  intros Hready Hsc Hstep. simpl in Hstep. simplify_eq.
  pose proof (sendMessage_ready now msg written s Hready) as Hsend. rewrite Hstep in Hsend.
  destruct Hsend as (_ & _ & _ & _ & Hsend).
  destruct Hsend as [(t & Ha & Hc & Hp & Hm & Hb)|(Ha & Hst & Hm)].
  - split; [congruence|]. intros _ es s2 out2 now' e s3 out3 Hes Hrun Hf.
    pose proof (inside_run s1 es s2 out2 Hes ltac:(eauto) Hb Hrun) as Hsame.
    destruct (st_active _ _ Hsame t Ha) as (t' & Ha' & Hp' & Hc').
    simpl in Hf. apply bind_Some in Hf as (t2 & Ht2 & Hf). apply turn_in_active in Ht2 as [Ht2 _].
    rewrite Ha' in Ht2. injection Ht2 as <-. apply (inj Some) in Hf. pose proof (failTurn_spec now' e t' s2) as Hspec. rewrite Hf in Hspec.
    destruct Hspec as (_ & Hst & Hac & Hms & _). split_and!; [|done..].
    rewrite Hms, Hc', Hc, (st_messages _ _ Hsame), Hm. apply set_length_app.
  - split; [|rewrite Ha; by intros []]. intros _. rewrite Hm. apply set_length_app.
Qed.

Lemma failed_turn_restores_messages_witness :
  let s := demo_session (demo_turn 0 10 "hello") in
  let s1 := after s [EvSendMessage 1000 "again" true] in
  ss_messages (after s1 [EvFailed 2000 AbortError]) = ss_messages s.
Proof.
  intros s s1.
  destruct (failed_turn_restores_messages s 1000 "again" true s1 [OModelCall
    (match applyHistoryBreakpoint AnthropicCacheStrategy
       (ss_messages s ++ [Some (userMessage "again")]) with Ok l => l | Throw _ => [] end)])
    as [_ H]; [vm_compute; reflexivity..|].
  eapply (H ltac:(vm_compute; eauto) [] s1 [] 2000%Z AbortError); [constructor|reflexivity|].
  vm_compute. reflexivity.
Defined.

(** A session on which every message fails: the last message is a hole, before
    which the history breakpoint must be set. *)
Record wedged (s : AgentSession) : Prop := {
  we_ready : ss_status s = Ready;
  we_model : ss_model s = true;
  we_strategy : ss_cacheStrategy s = AnthropicCacheStrategy;
  we_compactor : shouldCompact (ss_compactor s) = false;
  we_hole : last (ss_messages s) = Some None;
}.

Definition hole_error : string :=
  "TypeError: Cannot read properties of undefined (reading 'providerOptions')".

Lemma breakpoint_hole (l : messages) m :
  last l = Some None → applyHistoryBreakpoint AnthropicCacheStrategy (l ++ [m]) = Throw hole_error.
Proof.
  intros [k ->]%last_Some. unfold applyHistoryBreakpoint.
  rewrite !length_app. simpl. rewrite (proj2 (Nat.ltb_ge _ _)) by lia.
  replace (length k + 1 + 1 - 2) with (length k) by lia.
  rewrite <-app_assoc. simpl. by rewrite list_lookup_middle.
Qed.

Lemma wedged_send `{Runtime, Locale} s now msg written :
  wedged s →
  let '(s', out) := sendMessage now msg written s in
  wedged s' ∧ ss_messages s' = ss_messages s ∧ out = [OReject (OtherError hole_error)].
Proof.
  intros [Hr Hm Hs Hc Hh]. unfold sendMessage. rewrite Hr. cbv zeta.
  match goal with |- context [if written then ?a else ?b] => set (s1 := if written then a else b) end.
  match goal with |- context [beginGeneration now ?x s1] => set (t := x) end.
  assert (Hs1 : ss_compactor s1 = ss_compactor s ∧ ss_cacheStrategy s1 = ss_cacheStrategy s ∧
    ss_model s1 = ss_model s ∧
    ss_messages s1 = ss_messages s ++ [Some (userMessage msg)]) by (subst s1; by destruct written).
  clearbody s1. destruct Hs1 as (Hc1 & Hcs1 & Hm1 & Hms1). rewrite Hc1, Hc.
  unfold beginGeneration. rewrite Hm1, Hm, Hcs1, Hs, Hms1, breakpoint_hole by done. simpl negb. cbv iota.
  pose proof (failTurn_spec now (TurnError (OtherError hole_error)) t s1) as Hf.
  destruct (failTurn _ _ _ _) as [s' out].
  destruct Hf as (Hg & Hst & _ & Hms & _ & err & -> & He). rewrite (He _ eq_refl).
  apply guards_frame_fields in Hg as (Hf & _ & Hcomp). apply frame_fields in Hf as (Hstr & Hmod & _).
  assert (Hms' : ss_messages s' = ss_messages s).
  { rewrite Hms, Hms1. apply set_length_app. }
  split_and!; [|done..]. split; [done|congruence..| |by rewrite Hms'].
  by rewrite Hcomp, Hc1.
Qed.

Lemma wedged_forever `{Runtime, Locale} s es :
  wedged s → Forall (λ e, is_send e = true) es →
  ∃ s', run s es = Some (s', replicate (length es) (OReject (OtherError hole_error))) ∧
    ss_messages s' = ss_messages s.
Proof.
  intros Hw Hes. revert s Hw. induction Hes as [|e es He Hes IH]; intros s Hw; [by eauto|].
  destruct e as [|now msg written| | | | | | | | | |]; try discriminate He. simpl.
  pose proof (wedged_send s now msg written Hw) as Hsend.
  destruct (sendMessage now msg written s) as [s1 o1]. destruct Hsend as (Hw1 & Hm1 & ->).
  destruct (IH s1 Hw1) as (s' & Hr & Hm). rewrite Hr. simpl. exists s'. split; [done|congruence].
Qed.

Lemma compactionDone_spec `{Runtime, Locale} now svc t s r :
  (compact svc (ss_compactor s) (ss_messages s)).2 = Ok (Some r) →
  let '(c, l, _) := compact svc (ss_compactor s) (ss_messages s) in
  let '(s', out) := compactionDone now svc t s in
  is_Some (ss_active s') →
  ss_compactor s' = c ∧ ss_messages s' = l ∧ ss_status s' = ss_status s ∧
  ss_active s' = Some (in_phase AwaitGeneration t) ∧
  ss_cacheStrategy s' = ss_cacheStrategy s ∧ ss_model s' = ss_model s.
Proof.
  intros Hr. unfold compactionDone. destruct (compact _ _ _) as [[c l] r']. simpl in Hr. subst r'.
  match goal with |- context [beginGeneration now t ?s1] =>
    pose proof (beginGeneration_spec now t s1) as Hb; destruct (beginGeneration now t s1) as [s' out] end.
  destruct Hb as (Hg & _ & Hb). apply guards_frame_fields in Hg as (Hf & _ & Hc).
  apply frame_fields in Hf as (Hcs & Hm & _). intros Hact.
  destruct Hb as [(Ha & Hms & Hst & _)|(Ha & _)]; [|rewrite Ha in Hact; by destruct Hact].
  split_and!; [exact Hc|exact Hms|exact Hst|exact Ha|exact Hcs|exact Hm].
Qed.

(** The history after a turn that compacted and then failed. *)
Lemma failed_compaction_shape (l : messages) m k summary :
  MIN_MESSAGES_TO_COMPACT + k ≤ length (l ++ [m]) →
  let l' := summary :: drop (length (l ++ [m]) - k) (l ++ [m]) in
  length l' = S k →
  set_length (length l) l' = l' ++ replicate (length l - S k) None ∧
  last (set_length (length l) l') = Some (None : option Message).
Proof.
  intros Hk l' Hl. unfold MIN_MESSAGES_TO_COMPACT in Hk. rewrite length_app in Hk. simpl length in Hk.
  unfold set_length. rewrite take_ge, Hl by lia. split; [done|].
  replace (length l - S k) with (S (length l - S (S k))) by lia.
  by rewrite replicate_S_end, app_assoc, last_snoc.
Qed.

(** C23. A turn that fails after compaction corrupts the conversation: the cut back
    to the old message count extends the shortened array with holes behind the
    message of the failed turn, which stays; and under the Anthropic caching
    strategy every later message then fails with a type error and leaves the
    history as it is, however many are sent. *)
Theorem failed_compaction_wedges `{Runtime, Locale} s now msg written s1 out1 es1 s2 out2
    now2 svc r s3 out3 es2 s4 out4 now5 e s5 out5 :
  ss_status s = Ready → shouldCompact (ss_compactor s) = true →
  step s (EvSendMessage now msg written) = Some (s1, out1) →
  Forall (λ e, inside e = true) es1 → run s1 es1 = Some (s2, out2) →
  (compact svc (ss_compactor s2) (ss_messages s2)).2 = Ok (Some r) →
  step s2 (EvCompacted now2 svc) = Some (s3, out3) → is_Some (ss_active s3) →
  Forall (λ e, inside e = true) es2 → run s3 es2 = Some (s4, out4) →
  step s4 (EvFailed now5 e) = Some (s5, out5) →
  let sent := ss_messages s ++ [Some (userMessage msg)] in
  let k := ac_keepRecentMessages (mc_config (ss_compactor s)) in
  (∃ summary, ss_messages s5 = (Some (summaryMessage summary) :: drop (length sent - k) sent)
     ++ replicate (length (ss_messages s) - S k) None) ∧
  last (ss_messages s5) = Some None ∧
  (ss_cacheStrategy s = AnthropicCacheStrategy → ss_model s = true →
   (0 ≤ ac_thresholdTokens (mc_config (ss_compactor s)))%Z →
   ∀ es, Forall (λ e, is_send e = true) es →
     ∃ s6, run s5 es = Some (s6, replicate (length es) (OReject (OtherError hole_error))) ∧
       ss_messages s6 = ss_messages s5).
Proof.
  intros Hready Hsc Hsend Hes1 Hrun1 Hr Hcomp Hact Hes2 Hrun2 Hfail sent k.
  simpl in Hsend. apply (inj Some) in Hsend.
  pose proof (sendMessage_ready now msg written s Hready) as Hs1. rewrite Hsend in Hs1.
  destruct Hs1 as (Hc1 & Hcs1 & Hm1 & _ & [(t & Ha & Ht & _ & Hms & Hb)|(Ha & Hst & _)]).
  2: { exfalso. destruct (inside_none s s1 now msg written out1 Hready Hsc Hsend) as [? ?]. congruence. }
  pose proof (inside_run s1 es1 s2 out2 Hes1 ltac:(eauto) Hb Hrun1) as Hsame1.
  destruct (st_active _ _ Hsame1 t Ha) as (t2 & Ha2 & _ & Ht2).
  simpl in Hcomp. apply bind_Some in Hcomp as (t2' & Hti & Hcomp).
  apply turn_in_active in Hti as [Hti _]. rewrite Ha2 in Hti. injection Hti as <-.
  apply (inj Some) in Hcomp.
  pose proof (compactionDone_spec now2 svc t2 s2 r Hr) as Hs3.
  pose proof (compact_resets svc (ss_compactor s2) (ss_messages s2) r Hr) as Hres.
  destruct (compact svc _ _) as [[c l] r']. rewrite Hcomp in Hs3.
  destruct (Hs3 Hact) as (Hc3 & Hms3 & Hst3 & Ha3 & Hcs3 & Hm3).
  rewrite (st_compactor _ _ Hsame1), Hc1, (st_messages _ _ Hsame1), Hms in Hres.
  destruct Hres as (Hcfg & Htok & summary & Hk & Hl & Hlen). fold k sent in Hk, Hl.
  assert (Hb3 : busy s3).
  { unfold busy. rewrite Hst3. by apply (st_busy _ _ Hsame1). }
  pose proof (inside_run s3 es2 s4 out4 Hes2 Hact Hb3 Hrun2) as Hsame2.
  destruct (st_active _ _ Hsame2 _ Ha3) as (t4 & Ha4 & _ & Ht4). simpl in Ht4.
  simpl in Hfail. apply bind_Some in Hfail as (t4' & Hti & Hfail).
  apply turn_in_active in Hti as [Hti _]. rewrite Ha4 in Hti. injection Hti as <-.
  apply (inj Some) in Hfail. pose proof (failTurn_spec now5 e t4 s4) as Hspec. rewrite Hfail in Hspec.
  destruct Hspec as (Hg & Hst5 & _ & Hms5 & _).
  apply guards_frame_fields in Hg as (Hf5 & _ & Hc5). apply frame_fields in Hf5 as (Hcs5 & Hm5 & _).
  rewrite Ht4, Ht2, Ht, (st_messages _ _ Hsame2), Hms3, Hl in Hms5.
  destruct (failed_compaction_shape (ss_messages s) (Some (userMessage msg)) k
    (Some (summaryMessage summary))) as [Hshape Hlast]; [exact Hk|rewrite Hl in Hlen; exact Hlen|].
  fold sent in Hshape, Hlast. rewrite <-Hms5 in Hshape, Hlast.
  split_and!; [by exists summary|done|].
  intros Hstr Hmod Hthr es Hes. apply wedged_forever; [|done]. split; [done|..|done].
  - by rewrite Hm5, (st_model _ _ Hsame2), Hm3, (st_model _ _ Hsame1), Hm1.
  - by rewrite Hcs5, (st_strategy _ _ Hsame2), Hcs3, (st_strategy _ _ Hsame1), Hcs1.
  - rewrite Hc5, (st_compactor _ _ Hsame2), Hc3. unfold shouldCompact. rewrite Htok, Hcfg.
    destruct (negb _); [done|]. apply bool_decide_eq_false. lia.
Qed.

Lemma failed_compaction_wedges_witness :
  let s := demo_two_turns in
  let s1 := after s [EvSendMessage 2000 "third" true] in
  let s3 := after s1 [EvCompacted 2010 demo_summarizer] in
  let s5 := after s3 [EvFailed 2020 AbortError] in
  ∃ s6, run s5 [EvSendMessage 3000 "fourth" true; EvSendMessage 4000 "fifth" true] =
        Some (s6, replicate 2 (OReject (OtherError hole_error))).
Proof.
  intros s s1 s3 s5.
  destruct (failed_compaction_wedges s 2000 "third" true s1 (outputs s [EvSendMessage 2000 "third" true])
    [] s1 [] 2010 demo_summarizer
    {| cr_originalMessageCount := 7; cr_newMessageCount := 3;
       cr_summaryPreview := "they said hello" |} s3 (outputs s1 [EvCompacted 2010 demo_summarizer])
    [] s3 [] 2020 AbortError s5 (outputs s3 [EvFailed 2020 AbortError])) as (_ & _ & H).
  - vm_compute. reflexivity.
  - vm_compute. reflexivity.
  - apply step_after. vm_compute. reflexivity.
  - constructor.
  - reflexivity.
  - vm_compute. reflexivity.
  - apply step_after. vm_compute. reflexivity.
  - vm_compute. eauto.
  - constructor.
  - reflexivity.
  - apply step_after. vm_compute. reflexivity.
  - destruct (H ltac:(vm_compute; reflexivity) ltac:(vm_compute; reflexivity)
      ltac:(vm_compute; discriminate)
      [EvSendMessage 3000 "fourth" true; EvSendMessage 4000 "fifth" true]) as (s6 & Hs6 & _).
    + repeat constructor.
    + exists s6. exact Hs6.
Defined.

(** A close during a turn is undone: the session is closed at first, but when
    the running turn ends, in success or in failure, after any events inside it
    (the shutdown of the sandbox among them), its status is ready again and the
    next message is not refused as sent to a closed session. *)
Theorem close_undone `{Runtime, Locale} s t s1 out1 es s2 out2 e s3 out3 :
  ss_active s = Some t → busy s →
  step s EvClose = Some (s1, out1) →
  Forall (λ e, inside e = true) es → run s1 es = Some (s2, out2) →
  match e with EvGenerated _ _ _ _ | EvFailed _ _ => true | _ => false end = true →
  step s2 e = Some (s3, out3) →
  ss_status s1 = Closed ∧ ss_status s3 = Ready ∧
  ∀ now msg written s4 out4, step s3 (EvSendMessage now msg written) = Some (s4, out4) →
    ¬ (OReject SessionClosedError ∈ out4).
Proof.
  intros Ha Hb Hclose Hes Hrun He Hend.
  assert (H1 : ss_status s1 = Closed).
  { simpl in Hclose. unfold close in Hclose.
    destruct Hb as [Hb|Hb]; rewrite Hb in Hclose; simplify_eq; done. }
  pose proof (inside_step s EvClose s1 out1 eq_refl ltac:(eauto) Hb Hclose) as Hs1.
  destruct (st_active _ _ Hs1 t Ha) as (t1 & Ha1 & _).
  assert (H3 : ss_status s3 = Ready).
  { destruct e; try done; simpl in Hend; apply bind_Some in Hend as (t2 & _ & Hend);
      apply (inj Some) in Hend.
    - unfold generated in Hend. destruct (isExhausted _ _). injection Hend as <- _. done.
    - pose proof (failTurn_spec now e t2 s2) as Hf. rewrite Hend in Hf. apply Hf. }
  split_and!; [done..|]. intros now msg written s4 out4 Hs4. simpl in Hs4. apply (inj Some) in Hs4.
  pose proof (sendMessage_ready now msg written s3 H3) as Hr. rewrite Hs4 in Hr. apply Hr.
Qed.

Lemma close_undone_witness :
  let s2 := after (after (demo_session [EvSendMessage 0 "hello" true]) [EvClose]) [EvShutdown] in
  let e := EvGenerated 9 [assistantMessage "hi"] "hi" (demo_usage 1 1) in
  ss_status (after s2 [e]) = Ready.
Proof.
  set (s := demo_session [EvSendMessage 0 "hello" true]). set (s1 := after s [EvClose]).
  intros s2 e. assert (Ht : is_Some (ss_active s)) by (vm_compute; eauto). destruct Ht as [t Ht].
  apply (close_undone s t s1 (outputs s [EvClose]) [EvShutdown] s2 (outputs s1 [EvShutdown]) e (after s2 [e]) (outputs s2 [e])).
  - exact Ht.
  - left. vm_compute. reflexivity.
  - apply step_after. vm_compute. reflexivity.
  - repeat constructor.
  - apply run_after. vm_compute. reflexivity.
  - reflexivity.
  - apply step_after. vm_compute. reflexivity.
Defined.
