(* ===== verification/WorkflowProperties.v ===== *)
(** * Properties of the workflow engine

    Validated definitions compile to machines that run without error; visit caps,
    verdict routing and lane terminals; what validation does not exclude. *)

From S2P Require Import Prelude JsValue WorkflowTypes LaneTemplate StatusParser MachineBuilder Statechart.
From S2P Require Import WorkflowValidate MachineTheory FanOut.
From S2P Require Import StatusTheory FanOutBatch WorkflowDemo.

Lemma valid_no_issues d : validateSemantics d = Valid () → semantic_issues d = [].
Proof. unfold validateSemantics. by destruct (semantic_issues d). Qed.

Ltac by_compute := vm_compute; done.

(** ** Compilation *)

(** C14. A definition that passes the semantic checks compiles, with all its round
    machines, and nothing goes wrong when they run: whatever events arrive, the
    machine is in one of its states, is finished exactly in a terminal state, and
    never evaluates a guard without an implementation. *)
Theorem validated_workflow_type_safe `{XStateLaws} d :
  obj_wf (w_states d) → validateSemantics d = Valid () →
  ∃ bm, buildWorkflowMachine d = Ok bm
    ∧ obj_keys (m_states (bm_machine bm)) = obj_keys (w_states d)
    ∧ ∀ m, m = bm_machine bm ∨ (∃ id, (id, m) ∈ bm_roundMachinesByState bm) →
      ∀ c0 evs s, run m c0 evs s →
      ∃ node, obj_get (m_states m) (sn_value s) = Some node ∧ sn_done s = is_final node
        ∧ ∀ ev, is_ok (first_enabled m (sn_context s) ev (transitions_for node (sn_running s) ev)).
Proof.
  intros Hwf Hv%valid_no_issues.
  destruct (buildWorkflowMachine_ok d Hwf Hv) as (bm & Hbm & Hok & Hkeys & _ & Hrounds).
  exists bm. split; [done|]. split; [done|]. intros m Hm c0 evs s Hrun.
  assert (Hmok : machine_ok m).
  { destruct Hm as [->|[id Hin]]; [done|]. by apply (Hrounds id m). }
  destruct (run_in_machine m c0 evs s Hmok Hrun) as (node & Hget & Hdone & _).
  exists node. split; [done|]. split; [done|]. intros ev.
  by apply first_enabled_total, transitions_ok.
Qed.

Lemma review_loop_wf : obj_wf (w_states review_loop).
Proof. apply (bool_decide_unpack _). by_compute. Qed.

Lemma validated_workflow_type_safe_witness :
  ∃ bm, buildWorkflowMachine review_loop = Ok bm
    ∧ obj_keys (m_states (bm_machine bm)) = ["design"; "review"; "human"; "done"; "aborted"].
Proof.
  destruct (@validated_workflow_type_safe interpreter interpreter_laws review_loop review_loop_wf)
    as (bm & Hbm & Hkeys & _); [by_compute|]. by exists bm.
Defined.

(** The reachability that validation and the linter rely on ends and is exact: the
    returned states are those that a path of transitions and segments leads to, each
    once. *)
Theorem reachable_states_exact states initial :
  is_Some (reach_loop states (reach_fuel states) [] [initial])
  ∧ NoDup (findReachableStates initial states)
  ∧ ∀ x, x ∈ findReachableStates initial states ↔ rtc (edge states) initial x.
Proof.
  split; [apply reach_fuel_enough|]. destruct (findReachableStates_spec states initial). by split.
Qed.

(** ** Visit caps *)

(** What the machine of a validated definition does in an agent state with a cap. *)
Record capped `{XState} (d : WorkflowDefinition) (m : Machine) (x : string) (a : AgentStateDefinition) (cap : Z)
    (c0 : WorkflowContext) (evs : list MachineEvent) (inv : InvokeConfig) : Prop := {
  cp_ok : machine_ok m;
  cp_node : obj_get (m_states m) x = Some (NodeInvoke [IncrementVisitCount x] inv);
  cp_id : inv_id inv = x;
  cp_done : Forall2 (compiled UpdateContextFromAgentResult (λ t, Ok (t_to t))) (a_transitions a) (inv_onDone inv);
  cp_visits : visits (sn_context (replay m c0 evs)) x = entries m c0 evs x;
  cp_guard : (cap <= entries m c0 evs x)%Z → ∀ r,
    guard_holds m (sn_context (replay m c0 evs)) (EvDone x (OutAgent r)) (Some (GuardNamed "isStateVisitLimitReached")) = Ok true
}.

Lemma capped_state `{XStateLaws} d bm x a cap task evs :
  obj_wf (w_states d) → semantic_issues d = [] → buildWorkflowMachine d = Ok bm →
  (x, SAgent a) ∈ w_states d → a_fanOut a = None → a_maxVisits a = Some cap →
  resets_nowhere d x → Forall plain_event evs →
  ∃ inv, capped d (bm_machine bm) x a cap (createInitialContext d task) evs inv.
Proof.
  intros Hwf Hv Hbm Hin Hfan Hcap Hres Hplain.
  destruct (buildWorkflowMachine_ok d Hwf Hv) as (bm' & Hbm' & Hok & _ & Hall & _).
  assert (bm' = bm) as -> by congruence. clear Hbm'.
  destruct (built_agent d None (bm_machine bm) x a Hwf Hall Hin Hfan) as (inv & Hget & Hid & Hc).
  assert (Hvis : visits (sn_context (replay (bm_machine bm) (createInitialContext d task) evs)) x
    = entries (bm_machine bm) (createInitialContext d task) evs x).
  { rewrite visits_entries; try done; [by eapply built_counts|by eexists|by eapply built_never_reset]. }
  exists inv. split; try done. intros Hle r. unfold guard_holds, xstate_guard. csimpl. unfold isStateVisitLimitReached.
  assert (Hmv : m_maxVisitsByState (bm_machine bm) = max_visits (w_states d)).
  { unfold buildWorkflowMachine, build_machine in Hbm.
    destruct (build_states _ _ _); csimpl in Hbm; [|done].
    destruct (round_machines _ _); csimpl in Hbm; [|done]. by simplify_eq. }
  rewrite Hmv, (max_visits_get d x a), Hcap by done.
  match goal with |- context [default 0%Z (obj_get (c_visitCounts ?c) x)] => fold (visits c x) end.
  rewrite Hvis. by rewrite (proj2 (Z.leb_le _ _)).
Qed.

(** The transition that a result enables is taken. *)
Lemma capped_takes `{XStateLaws} d m x a cap c0 evs inv r tc :
  capped d m x a cap c0 evs inv →
  let s := replay m c0 evs in
  sn_value s = x → sn_running s = true → tc_target tc ≠ x →
  first_enabled m (sn_context s) (EvDone x (OutAgent r)) (inv_onDone inv) = Ok (Some tc) →
  sn_value (xs_send m (EvDone x (OutAgent r)) s) = tc_target tc.
Proof.
  intros [Hok Hget Hid _ _ _] s Hval Hrunning Hne Hfirst.
  destruct (run_in_machine _ _ _ s Hok (replay_run _ _ _)) as (node & Hget' & Hfin & _).
  rewrite Hval, Hget in Hget'. injection Hget' as <-.
  destruct (mo_nodes _ Hok _ _ Hget) as (_ & Htcs & _). rewrite Forall_forall in Htcs.
  destruct (Htcs tc) as [[target Ht] _]; [by apply first_enabled_in in Hfirst as [? _]|].
  rewrite (xs_takes m (EvDone x (OutAgent r)) s (NodeInvoke [IncrementVisitCount x] inv) tc target); try done.
  - by rewrite Hval.
  - csimpl. by rewrite Hrunning, bool_decide_eq_true_2.
  - by rewrite Hval.
Qed.

(** The visit count of an agent state is the number of times the run entered it,
    and a visit cap listed first is enforced: once the state was entered that often, no
    result of the agent can route anywhere but to the cap's target. *)
Theorem visit_cap_enforced `{XStateLaws} d bm x a cap t0 rest task evs r :
  obj_wf (w_states d) → validateSemantics d = Valid () → buildWorkflowMachine d = Ok bm →
  (x, SAgent a) ∈ w_states d → a_fanOut a = None → a_maxVisits a = Some cap →
  a_transitions a = t0 :: rest → t_when t0 = None → t_guard t0 = Some "isStateVisitLimitReached" →
  t_to t0 ≠ x → resets_nowhere d x → Forall plain_event evs →
  let c0 := createInitialContext d task in
  let s := replay (bm_machine bm) c0 evs in
  visits (sn_context s) x = entries (bm_machine bm) c0 evs x
  ∧ (sn_value s = x → sn_running s = true → (cap <= entries (bm_machine bm) c0 evs x)%Z →
     sn_value (xs_send (bm_machine bm) (EvDone x (OutAgent r)) s) = t_to t0).
Proof.
  intros Hwf Hv%valid_no_issues Hbm Hin Hfan Hcap Htr Hw Hg Hne Hres Hplain c0 s.
  destruct (capped_state d bm x a cap task evs) as [inv Hcapped]; try done.
  pose proof Hcapped as [_ _ _ Hc Hvis Hguard]. split; [done|]. intros Hval Hrunning Hle. rewrite Htr in Hc.
  apply Forall2_cons_inv_l in Hc as (tc & tcs & (Hto & Hg' & _) & _ & Hdone). injection Hto as Hto. rewrite Hto.
  eapply capped_takes; try done; [congruence|]. rewrite Hdone. cbn [first_enabled].
  unfold transition_guard, guard_set in Hg'. rewrite Hw, Hg in Hg'. csimpl in Hg'. rewrite Hg'. unfold s, c0. by rewrite (Hguard Hle r).
Qed.

Lemma review_bm : buildWorkflowMachine review_loop = Ok (demo_bm review_loop).
Proof. by_compute. Qed.

Lemma visit_cap_enforced_witness :
  let m := demo_machine review_loop in
  let c0 := createInitialContext review_loop "task" in
  @entries interpreter m c0 two_reviews "review" = 2%Z
  ∧ sn_value (@xs_send interpreter m (EvDone "review" (demo_result "approved"))
      (@replay interpreter m c0 two_reviews)) = "human".
Proof.
  split; [by_compute|].
  refine (proj2 (@visit_cap_enforced interpreter interpreter_laws review_loop (demo_bm review_loop)
    "review" review_state 2%Z (on_guard "isStateVisitLimitReached" "human")
    [on_verdict "approved" "done"; on_verdict "rejected" "design"] "task" two_reviews _
    review_loop_wf _ review_bm _ _ _ _ _ _ _ _ _) _ _ _);
    try by_compute.
  - apply (list_elem_of_lookup_2 _ 1). by_compute.
  - apply resets_nowhereb_spec. by_compute.
  - by repeat constructor.
Defined.

(** ** Routing *)

(** An agent result whose verdict passed the orchestrator's check enables a
    transition: if the state's clauses list the verdict, or the state has an
    unconditional transition, the machine does not stay behind in a finished
    invocation. *)
Theorem checked_verdict_routes d bm x a c r :
  objects_wf d → validateSemantics d = Valid () → buildWorkflowMachine d = Ok bm →
  (x, SAgent a) ∈ w_states d → a_fanOut a = None →
  routable (a_transitions a) (o_verdict (ai_output r)) →
  ∃ node tc, obj_get (m_states (bm_machine bm)) x = Some node
    ∧ first_enabled (bm_machine bm) c (EvDone x (OutAgent r))
        (transitions_for node true (EvDone x (OutAgent r))) = Ok (Some tc)
    ∧ is_Some (obj_get (m_states (bm_machine bm)) (tc_target tc)).
Proof.
  intros Hwf Hv%valid_no_issues Hbm Hin Hfan Hr. pose proof (ow_states d Hwf) as Hst.
  destruct (buildWorkflowMachine_ok d Hst Hv) as (bm' & Hbm' & Hok & _ & Hall & _).
  assert (bm' = bm) as -> by congruence. clear Hbm'.
  destruct (built_agent d None (bm_machine bm) x a Hst Hall Hin Hfan) as (inv & Hget & Hid & Hc).
  destruct (mo_nodes _ Hok _ _ Hget) as (_ & Htcs & _).
  destruct (routable_enabled (bm_machine bm) UpdateContextFromAgentResult (a_transitions a)
    (inv_onDone inv) c x r Htcs Hc) as [tc Htc]; [|done|].
  { by apply (validated_clauses d x (SAgent a)). }
  eexists _, tc. split; [exact Hget|]. csimpl. rewrite bool_decide_eq_true_2 by done. split; [done|].
  apply first_enabled_in in Htc as [Htc _]. rewrite Forall_forall in Htcs. by apply Htcs.
Qed.

Lemma checked_verdict_routes_witness :
  ∃ node tc, obj_get (m_states (demo_machine review_loop)) "review" = Some node
    ∧ first_enabled (demo_machine review_loop) demo_context (EvDone "review" (demo_result "approved"))
        (transitions_for node true (EvDone "review" (demo_result "approved"))) = Ok (Some tc)
    ∧ is_Some (obj_get (m_states (demo_machine review_loop)) (tc_target tc)).
Proof.
  refine (checked_verdict_routes review_loop (demo_bm review_loop) "review" review_state demo_context _
    (objects_wfb_spec _ _) _ review_bm _ _ _);
    try by_compute.
  - apply (list_elem_of_lookup_2 _ 1). by_compute.
  - unfold routable. apply includes_spec. by_compute.
Defined.

(** What validation does not exclude: an agent state may list itself as a target.
    Its verdict then takes the transition, and the state, which is not re-entered, has
    no invocation in flight: no later event of any kind moves the workflow. *)
Theorem self_transition_wedges `{XStateLaws} evs :
  validateSemantics self_loop = Valid () ∧
  let m := demo_machine self_loop in
  let s := xs_send m (EvDone "work" (demo_result "again")) (xs_start m demo_context) in
  sn_done s = false ∧ sn_value s = "work" ∧ foldr (xs_send m) s evs = s.
Proof.
  split; [by_compute|]. intros m s.
  assert (Hstart : xs_start m demo_context = enter "work" (default NodeFinal (obj_get (m_states m) "work"))
    None demo_context) by (apply xs_start_enters; by_compute).
  assert (Hs : sn_done s = false ∧ sn_value s = "work" ∧ sn_running s = false).
  { unfold s. rewrite (xs_self m _ _ (default NodeFinal (obj_get (m_states m) "work"))
      {| tc_target := "work"; tc_guard := Some (GuardMatchesWhen [("verdict", VStr "again")]);
         tc_actions := [UpdateContextFromAgentResult] |}); rewrite Hstart; by_compute. }
  destruct Hs as (Hd & Hv & Hr). split; [done|]. split; [done|].
  induction evs as [|ev evs IH]; csimpl; [done|]. rewrite IH.
  eapply settled_stuck; [rewrite Hv; by_compute|done|done].
Qed.

(** ** Lanes *)

(** A lane of a fan-out counts as recorded only when a service reported the verdict
    [recorded]: no other event ends a lane in that terminal, and a rejected service ends
    its lane in [errored]. *)
Theorem lane_recorded_only_by_verdict `{XStateLaws} d bm id m c0 evs ev :
  obj_wf (w_states d) → validateSemantics d = Valid () → buildWorkflowMachine d = Ok bm →
  (id, m) ∈ bm_roundMachinesByState bm →
  no_member d ROUND_CHILD_RECORDED →
  let s := replay m c0 evs in
  (sn_value s ≠ ROUND_CHILD_RECORDED → sn_value (xs_send m ev s) = ROUND_CHILD_RECORDED →
     ∃ x out, ev = EvDone x out ∧ reported out "recorded")
  ∧ (∀ err entry inv, obj_get (m_states m) (sn_value s) = Some (NodeInvoke entry inv) →
     sn_running s = true → sn_value s ≠ ROUND_CHILD_ERRORED →
     sn_value (xs_send m (EvError (sn_value s) err) s) = ROUND_CHILD_ERRORED).
Proof.
  intros Hwf Hv%valid_no_issues Hbm Hin Hni s.
  pose proof (validated_definition_ok d Hwf Hv) as Hd.
  pose proof (validated_segments_ok d Hv) as Hseg.
  destruct (buildWorkflowMachine_ok d Hwf Hv) as (bm' & Hbm' & _ & _ & _ & Hrounds).
  assert (bm' = bm) as -> by congruence. destruct (Hrounds id m Hin) as [Hok Hround].
  destruct (run_in_machine m c0 evs s Hok (replay_run _ _ _)) as (node & Hget & Hdone & _). split.
  - intros Hne Hrec. destruct (sn_done s) eqn:Hds; [by rewrite xs_done_stays in Hrec|].
    eapply (round_step_recorded d id m s ev); eauto. by exists node.
  - intros err entry inv Hinv Hrun Hne. rewrite Hget in Hinv. simplify_eq.
    by eapply (round_step_error d id m s err).
Qed.

Lemma evolve_bm : buildWorkflowMachine evolve_demo = Ok (demo_bm evolve_demo).
Proof. by_compute. Qed.

Lemma lane_recorded_only_by_verdict_witness :
  let m := demo_round_machine evolve_demo in
  let s := @replay interpreter m demo_context [EvDone "sample" (demo_det true (Some "sampled"))] in
  sn_value (@xs_send interpreter m (EvDone "evaluate" (demo_result "recorded")) s) = ROUND_CHILD_RECORDED
  ∧ sn_value (@xs_send interpreter m (EvError (sn_value s) (RejError "container gone")) s) = ROUND_CHILD_ERRORED.
Proof.
  split; [by_compute|].
  refine (proj2 (@lane_recorded_only_by_verdict interpreter interpreter_laws evolve_demo
    (demo_bm evolve_demo) "workers" (demo_round_machine evolve_demo) demo_context
    [EvDone "sample" (demo_det true (Some "sampled"))] (EvHuman APPROVE None) _ _ evolve_bm _ _) _ _ _ _ _ _);
    try by_compute.
  - apply (bool_decide_unpack _). by_compute.
  - apply (list_elem_of_lookup_2 _ 0). by_compute.
  - apply no_memberb_spec. by_compute.
Defined.

(** Why the previous theorem excludes the name: a segment member named [recorded]
    passes validation, its state is replaced by the synthetic terminal of that name, and
    a lane then ends as recorded whatever the agent before it answered, without the
    member ever running. *)
Theorem member_named_recorded_is_lost `{XStateLaws} r :
  validateSemantics clobbered = Valid () ∧
  let m := demo_round_machine clobbered in
  let s := xs_send m (EvDone "evaluate" (OutAgent r)) (xs_start m demo_context) in
  sn_value s = "recorded" ∧ sn_done s = true.
Proof.
  split; [by_compute|]. intros m s.
  assert (Hstart : xs_start m demo_context = enter "evaluate"
    (default NodeFinal (obj_get (m_states m) "evaluate")) None demo_context)
    by (apply xs_start_enters; by_compute).
  unfold s. rewrite (xs_takes m _ _ (default NodeFinal (obj_get (m_states m) "evaluate"))
    {| tc_target := "recorded"; tc_guard := None; tc_actions := [UpdateContextFromAgentResult] |} NodeFinal);
    rewrite ?Hstart; by_compute.
Qed.

(** ** Lane paths *)

(** The scratch paths of a lane: a path below the shared [current/] directory,
    absolute or relative, is moved below the lane's own directory, moving it again
    changes nothing, and two lanes never get the same path. *)
Theorem lane_paths_isolated base suffix c workers prepared :
  (base = DEFAULT_EVOLVE_LANE_DIR ∨ base = DEFAULT_EVOLVE_LANE_RELATIVE_DIR) →
  workers ≠ 1 → no_brace suffix = true → starts_with_lane_segment suffix = false →
  let lane k := buildFanOutLaneContext c k workers prepared in
  let scoped k := laneScopeEvolveCurrentPath (base +:+ "/" +:+ suffix) (lane k) in
  (∀ k, scoped k = base +:+ "/lane_" +:+ show_nat k +:+ "/" +:+ suffix)
  ∧ (∀ k, laneScopeEvolveCurrentPath (scoped k) (lane k) = scoped k)
  ∧ (∀ j k, scoped j = scoped k → j = k).
Proof.
  intros Hbase Hw Hb Hs lane scoped.
  assert (Hlane : ∀ k, let below := base +:+ "/lane_" +:+ show_nat k +:+ "/" +:+ suffix in
    scoped k = below ∧ laneScopeEvolveCurrentPath below (lane k) = below).
  { intros k. unfold scoped, lane, buildFanOutLaneContext. rewrite (proj2 (Nat.eqb_neq _ _) Hw).
    by eapply lane_current_path. }
  split; [|split].
  - intros k. apply Hlane.
  - intros k. destruct (Hlane k) as [-> ?]. done.
  - intros j k. destruct (Hlane j) as [-> _], (Hlane k) as [-> _]. apply lane_path_inj.
Qed.

Lemma lane_paths_isolated_witness :
  let scoped k := laneScopeEvolveCurrentPath ".evolve_runs/main/current/result.json"
    (buildFanOutLaneContext demo_context k 4 None) in
  scoped 3 = ".evolve_runs/main/current/lane_3/result.json" ∧ (scoped 1 = scoped 2 → 1 = 2).
Proof.
  destruct (lane_paths_isolated DEFAULT_EVOLVE_LANE_RELATIVE_DIR "result.json" demo_context 4 None)
    as (H1 & _ & H3); [by right|done|by_compute|by_compute|].
  split; [exact (H1 3)|exact (H3 1 2)].
Defined.

(** ** Agent texts *)

(** The bound on agent texts in later prompts holds for every JavaScript string, lone
    surrogates included: the loop ends, the result has at most 32768 bytes of UTF-8 and
    no NUL, and a text within the bound only has its NULs escaped. *)
Theorem truncated_output_bounded (text : list N) :
  ∃ r, truncate_text text = Some r ∧ utf16_bytes r ≤ MAX_AGENT_OUTPUT_BYTES ∧ (0%N ∉ r)
    ∧ (utf16_bytes (text_escape_nul text) ≤ MAX_AGENT_OUTPUT_BYTES → r = text_escape_nul text).
Proof.
  destruct (truncate_bounded text) as (r & Hr & Hb & Hs). exists r. split; [done|]. split; [done|].
  split; [by eapply truncate_no_nul|done].
Qed.

(** The final block of a response is the one that counts: after any body whose fences
    are closed, earlier status blocks included, a status block in a fence followed by
    white space is what is parsed, and stripping leaves the body. *)
Theorem final_status_block_parsed `{Yaml} body fields tail :
  closed_body body → ends_line fields → fits_fence ("agent_status:" +:+ newline +:+ fields) →
  blank_tail tail →
  let block := "agent_status:" +:+ newline +:+ fields in
  let response := fenced body block tail in
  stripStatusBlock response = trimEnd body
  ∧ (∀ inner, yaml_parse block = Ok (VObj [("agent_status", VObj inner)]) →
       ∀ output, agentOutputSchema (VObj inner) = Some output →
       parseAgentStatus response = Ok (Some output))
  ∧ (∀ err, yaml_parse block = Throw err → is_ok (parseAgentStatus response) → False).
Proof.
  intros Hbody Hf Hfit Htail block response.
  destruct (final_fence_stripped body block tail Hbody) as (f & Hfence & Hraw & Hstrip); try done.
  { destruct Hf as [->|[t ->]]; right; [by exists "agent_status:"|].
    exists ("agent_status:" +:+ newline +:+ t). unfold block. by rewrite !str_app_assoc. }
  { unfold is_status_block, block. rewrite startsWith_app, (str_drop_app "agent_status:").
    by rewrite startsWith_app, orb_true_r. }
  split; [done|]. unfold parseAgentStatus, response. rewrite Hfence, Hraw. split.
  - intros inner -> output Ho. change (unwrap_status _) with (VObj inner). by rewrite Ho.
  - intros err -> []. done.
Qed.

(** A parser that knows one block. *)
Definition demo_yaml : Yaml := {|
  yaml_parse s :=
    if s =? "agent_status:" +:+ newline +:+ "  verdict: done" +:+ newline
    then Ok (VObj [("agent_status", VObj [("verdict", VStr "done")])]) else Throw "unknown";
  schema_issues _ := ""
|}.

(** A body that ends a progress checkpoint of its own. *)
Definition demo_body : string :=
  "Progress:" +:+ newline +:+ "```" +:+ newline +:+ "agent_status:" +:+ newline +:+ "  verdict: early"
  +:+ newline +:+ "```" +:+ newline.

Lemma final_status_block_parsed_witness :
  let response := fenced demo_body ("agent_status:" +:+ newline +:+ "  verdict: done" +:+ newline) "" in
  @parseAgentStatus demo_yaml response = Ok (Some (demo_output "done"))
  ∧ stripStatusBlock response = trimEnd demo_body.
Proof.
  destruct (@final_status_block_parsed demo_yaml demo_body ("  verdict: done" +:+ newline) "")
    as (Hs & Hp & _).
  - split; [right; by exists (str_take (String.length demo_body - 1) demo_body)|by_compute].
  - right. by exists "  verdict: done".
  - apply (bool_decide_unpack _). by_compute.
  - split; [done|by left].
  - split; [|exact Hs]. by apply (Hp [("verdict", VStr "done")]).
Defined.
