(* ===== verification/WorkflowLint.v ===== *)
(** * The workflow linter

    Models src/workflow/lint.ts: the diagnostics WF001 to WF014 on a definition that the
    validator accepts.  What the linter cannot see in the definition is a [LintContext]:
    which personas are installed, and where the file lies.  A state that is missing from
    the definition makes the linter throw, as in the code. *)

From S2P Require Import Prelude JsValue Paths Hashing WorkflowTypes LaneTemplate StatusParser MachineBuilder Statechart.
From S2P Require Import WorkflowValidate MachineTheory FanOut Skills StatusTheory FanOutBatch Demo WorkflowDemo WorkflowProperties.

Local Open Scope curtain_scope.

(** ** Public types *)

Inductive DiagnosticCode := WF001 | WF002 | WF003 | WF004 | WF006 | WF007 | WF008 | WF010 | WF011 | WF012 | WF013 | WF014.
#[export] Instance DiagnosticCode_eq_dec : EqDecision DiagnosticCode.
Proof. solve_decision. Defined.

Inductive DiagnosticSeverity := SeverityError | SeverityWarning.

Record Diagnostic := {
  dg_code : DiagnosticCode;
  dg_severity : DiagnosticSeverity;
  dg_message : string;
  dg_stateId : option string;
  dg_hint : option string
}.

Record LintContext := {
  lc_personaExists : string → bool;
  lc_workflowFilePath : option string
}.

Definition countBySeverity (diagnostics : list Diagnostic) : nat * nat :=
  foldl (λ counts d, match dg_severity d with
                     | SeverityError => (S counts.1, counts.2)
                     | SeverityWarning => (counts.1, S counts.2)
                     end) (0, 0) diagnostics.

(** A diagnostic of a state. *)
Definition diagnose (code : DiagnosticCode) (severity : DiagnosticSeverity) (stateId message hint : string) : Diagnostic :=
  {| dg_code := code; dg_severity := severity; dg_message := message; dg_stateId := Some stateId; dg_hint := Some hint |}.

(** The entry of [settings], which may be absent. *)
Definition setting {A} (f : WorkflowSettings → option A) (definition : WorkflowDefinition) : option A := w_settings definition ≫= f.

(** ** Artifacts that agents produce *)

Definition collectReachableAgentOutputs (definition : WorkflowDefinition) (reachable : list string) : list string :=
  js_set (w_states definition ≫= λ kv,
    if includes reachable kv.1 then match kv.2 with SAgent a => a_outputs a | _ => [] end else []).

(** ** WF001: no terminal can be reached *)

(** [for (const target of cone) if (def.states[target].type === 'terminal') ...] *)
Fixpoint touches_terminal (definition : WorkflowDefinition) (cone : list string) : result bool :=
  match cone with
  | [] => Ok false
  | target :: cone =>
      state ← state_of definition target;
      if is_terminal state then Ok true else touches_terminal definition cone
  end.

Fixpoint unreachable_terminals (definition : WorkflowDefinition) (reachable : list string) : result (list Diagnostic) :=
  match reachable with
  | [] => Ok []
  | stateId :: reachable =>
      state ← state_of definition stateId;
      if is_terminal state then unreachable_terminals definition reachable
      else
        touchesTerminal ← touches_terminal definition (findReachableStates stateId (w_states definition));
        rest ← unreachable_terminals definition reachable;
        if (touchesTerminal : bool) then Ok rest
        else Ok (diagnose WF001 SeverityError stateId
                   ("State " +:+ quoted stateId +:+ " cannot reach any terminal state — the workflow will loop forever if it enters this state.")
                   "Add a transition (guarded or unconditional) whose forward graph eventually reaches a terminal state." :: rest)
  end.

Definition checkUnreachableTerminal (definition : WorkflowDefinition) (reachable : list string) : result (list Diagnostic) :=
  unreachable_terminals definition reachable.

(** ** WF002 to WF004: artifacts that nothing produces *)

Definition checkUnversionedArtifacts (definition : WorkflowDefinition) (produced : list string) : list Diagnostic :=
  default [] (setting ws_unversionedArtifacts definition) ≫= λ name,
    if includes produced name then []
    else [{| dg_code := WF002; dg_severity := SeverityWarning; dg_stateId := None;
             dg_message := "settings.unversionedArtifacts entry " +:+ quoted name
               +:+ " is not produced by any state — it will be silently versioned.";
             dg_hint := Some "Remove the entry, or add the artifact to some agent state's outputs list." |}].

Definition checkTerminalOutputs (definition : WorkflowDefinition) (reachable produced : list string) : list Diagnostic :=
  w_states definition ≫= λ kv,
    match kv.2 with
    | STerminal z =>
        if includes reachable kv.1 then
          default [] (z_outputs z) ≫= λ name,
            if includes produced name then []
            else [diagnose WF003 SeverityWarning kv.1
                    ("Terminal " +:+ quoted kv.1 +:+ " lists output " +:+ quoted name +:+ " which is not produced by any reachable state.")
                    "Remove the output from the terminal, or ensure a reachable agent state produces it."]
        else []
    | _ => []
    end.

Definition checkHumanGatePresent (definition : WorkflowDefinition) (reachable produced : list string) : list Diagnostic :=
  w_states definition ≫= λ kv,
    match kv.2 with
    | SHumanGate h =>
        if includes reachable kv.1 then
          default [] (h_present h) ≫= λ entry,
            let name := (parseArtifactRef entry).1 in
            if includes produced name then []
            else [diagnose WF004 SeverityError kv.1
                    ("Human gate " +:+ quoted kv.1 +:+ " presents artifact " +:+ quoted name
                     +:+ " which is not produced by any reachable state — the human will approve without seeing it.")
                    "Fix the artifact name, or ensure a reachable agent state produces it."]
        else []
    | _ => []
    end.

(** ** WF006: a limit of rounds that no guard looks at *)

Definition ROUND_LIMIT_GUARD : string := "isRoundLimitReached".

Definition checkMaxRoundsHasGuard (definition : WorkflowDefinition) : list Diagnostic :=
  match setting ws_maxRounds definition with
  | None => []
  | Some maxRounds =>
      if existsb (λ state, existsb (λ t, bool_decide (t_guard t = Some ROUND_LIMIT_GUARD)) (agent_transitions state))
           (obj_values (w_states definition))
      then []
      else [{| dg_code := WF006; dg_severity := SeverityWarning; dg_stateId := None;
               dg_message := "settings.maxRounds=" +:+ show_Z maxRounds +:+ " is set but no transition uses the "
                 +:+ quoted "isRoundLimitReached" +:+ " guard — the limit is silently ignored.";
               dg_hint := Some "Add a transition with guard: isRoundLimitReached to an iterative state, or remove maxRounds." |}]
  end.

(** ** WF007: personas that are not installed *)

Definition checkPersonaExists (definition : WorkflowDefinition) (ctx : LintContext) : list Diagnostic :=
  w_states definition ≫= λ kv,
    match kv.2 with
    | SAgent state =>
        let persona := a_persona state in
        if (persona =? GLOBAL_PERSONA) || lc_personaExists ctx persona then []
        else [diagnose WF007 SeverityWarning kv.1
                ("Agent state " +:+ quoted kv.1 +:+ " references persona " +:+ quoted persona
                 +:+ " which is not installed locally — session creation will fail at runtime.")
                ("Install the persona with: ironcurtain persona create " +:+ persona +:+ ", or change the state's persona to "
                 +:+ quoted GLOBAL_PERSONA +:+ ".")]
    | _ => []
    end.

(** ** WF008: what may precede the guard of a visit cap *)

Definition VISIT_CAP_GUARD : string := "isStateVisitLimitReached".
Definition APPROVAL_EXIT_VERDICTS : list string := ["approved"; "complete"; "done"; "success"; "passed"].

Definition isApprovalExitTransition (t : AgentTransitionDefinition) : bool :=
  match t_when t with
  | None => false
  | Some w =>
      match obj_keys w with
      | [key] =>
          (key =? "verdict") && match get_value w "verdict" with VStr verdict => includes APPROVAL_EXIT_VERDICTS verdict | _ => false end
      | _ => false
      end
  end.

Definition is_visit_cap (t : AgentTransitionDefinition) : bool := bool_decide (t_guard t = Some VISIT_CAP_GUARD).

Definition describeTransition `{Runtime} (t : AgentTransitionDefinition) : string :=
  if guard_set t then "guard: " +:+ default "" (t_guard t) +:+ " -> " +:+ t_to t
  else
    match t_when t with
    | Some w => "when { " +:+ str_join ", " ((λ kv, kv.1 +:+ ": " +:+ json_stringify kv.2) <$> w) +:+ " } -> " +:+ t_to t
    | None => "unconditional -> " +:+ t_to t
    end.

(** The diagnostic of a state with a cap: of the first transition before the guard that is
    no approval. *)
Definition visit_cap_diagnostics `{Runtime} (stateId : string) (maxVisits : Z) (transitions : list AgentTransitionDefinition) : list Diagnostic :=
  match find_index is_visit_cap transitions with
  | None => []
  | Some capIndex =>
      match find_index (λ t, negb (isApprovalExitTransition t)) (take capIndex transitions) with
      | None => []
      | Some i =>
          match transitions !! i with
          | None => []
          | Some t =>
              [diagnose WF008 SeverityError stateId
                 ("State " +:+ quoted stateId +:+ " has maxVisits=" +:+ show_Z maxVisits +:+ " with an " +:+ quoted VISIT_CAP_GUARD +:+ " "
                  +:+ "transition at position " +:+ show_nat (capIndex + 1) +:+ ", but a loop-continuing transition (" +:+ describeTransition t +:+ ") "
                  +:+ "at position " +:+ show_nat (i + 1) +:+ " will match first on every iteration, so the visit cap is never "
                  +:+ "reached and the loop is effectively unbounded except by settings.maxRounds.")
                 ("Move the " +:+ quoted VISIT_CAP_GUARD +:+ " transition above any non-approval " +:+ quoted "when" +:+ " clause "
                  +:+ "(only " +:+ str_join "/" APPROVAL_EXIT_VERDICTS +:+ " verdicts may precede the cap).")]
          end
      end
  end.

Definition checkVisitCapTransitionOrder `{Runtime} (definition : WorkflowDefinition) : list Diagnostic :=
  w_states definition ≫= λ kv,
    match kv.2 with
    | SAgent state => match a_maxVisits state with Some maxVisits => visit_cap_diagnostics kv.1 maxVisits (a_transitions state) | None => [] end
    | _ => []
    end.

(** ** WF011: deterministic states before the agents of their container *)

Definition scope_of (containerScope : option string) : string := default DEFAULT_CONTAINER_SCOPE containerScope.

Definition agent_in_scope (scope : string) (state : WorkflowStateDefinition) : bool :=
  match state with SAgent a => scope_of (a_containerScope a) =? scope | _ => false end.

(** The loop of [isReachableWithoutScopeAgent]: [queue] is the stack, its top first. *)
Fixpoint without_agent_loop (definition : WorkflowDefinition) (target scope : string) (fuel : nat) (seen queue : list string) : option bool :=
  match queue with
  | [] => Some false
  | id :: queue =>
      match fuel with
      | O => None
      | S fuel =>
          if includes seen id then without_agent_loop definition target scope fuel seen queue
          else
            let seen := seen ++ [id] in
            if id =? target then Some true
            else
              match obj_get (w_states definition) id with
              | None => without_agent_loop definition target scope fuel seen queue
              | Some state =>
                  if agent_in_scope scope state then without_agent_loop definition target scope fuel seen queue
                  else
                    let fresh := List.filter (λ next, negb (includes seen next)) (collectTransitionTargets state) in
                    without_agent_loop definition target scope fuel seen (rev fresh ++ queue)
              end
      end
  end.

(** Every state pushes its targets once. *)
Definition walk_fuel (definition : WorkflowDefinition) (queue : list string) : nat :=
  length queue + sum_list_with (λ kv, length (collectTransitionTargets kv.2)) (w_states definition).

Definition isReachableWithoutScopeAgent (definition : WorkflowDefinition) (target scope : string) : bool :=
  let queue := [w_initial definition] in
  default false (without_agent_loop definition target scope (walk_fuel definition queue) [] queue).

Definition checkContainerScopePopulatedByAgent (definition : WorkflowDefinition) : list Diagnostic :=
  w_states definition ≫= λ kv,
    match kv.2 with
    | SDeterministic state =>
        if bool_decide (d_container state = Some true) then
          let scope := scope_of (d_containerScope state) in
          let scopeHasAgent := existsb (agent_in_scope scope) (obj_values (w_states definition)) in
          if negb scopeHasAgent || negb (isReachableWithoutScopeAgent definition kv.1 scope) then []
          else [diagnose WF011 SeverityWarning kv.1
                  ("Deterministic state " +:+ quoted kv.1 +:+ " runs in container scope " +:+ quoted scope +:+ " but is reachable from "
                   +:+ quoted (w_initial definition) +:+ " without first passing through an agent state in that scope — its workspace "
                   +:+ "may not contain the agent-produced work it was intended to check.")
                  ("If " +:+ quoted kv.1 +:+ " checks agent output, place a " +:+ quoted scope +:+ "-scope agent state before it. "
                   +:+ "A deliberately no-LLM deterministic workflow may use a scope with no agent states.")]
        else []
    | _ => []
    end.

(** ** WF012: verdicts without a source *)

Definition checkVerdictEdgesHaveResultFile (definition : WorkflowDefinition) : list Diagnostic :=
  w_states definition ≫= λ kv,
    match kv.2 with
    | SDeterministic state =>
        if bool_decide (is_Some (d_fanOut state)) || bool_decide (is_Some (d_resultFile state)) || negb (usesVerdictEdges (d_transitions state)) then []
        else [diagnose WF012 SeverityWarning kv.1
                ("Deterministic state " +:+ quoted kv.1 +:+ " routes on when:{verdict} but declares no resultFile; "
                 +:+ "the verdict will always be undefined and these edges are dead.")
                ("Add resultFile: <path> and have the helper write { " +:+ quoted "verdict" +:+ ": ... } there.")]
    | _ => []
    end.

(** ** WF013 and WF014: fan-outs *)

(** The lanes of a state that fans out. *)
Definition fan_out_lanes (definition : WorkflowDefinition) (state : WorkflowStateDefinition) : option Z :=
  match executable state ≫= x_fanOut with Some fanOut => Some (resolveFanOutWorkers fanOut (w_settings definition)) | None => None end.

Definition checkFanOutBudget (definition : WorkflowDefinition) : list Diagnostic :=
  match setting ws_maxRounds definition with
  | None => []
  | Some maxRounds =>
      w_states definition ≫= λ kv,
        match fan_out_lanes definition kv.2 with
        | None => []
        | Some workers =>
            if (workers <=? 1)%Z then []
            else [diagnose WF013 SeverityWarning kv.1
                    ("Fan-out state " +:+ quoted kv.1 +:+ " runs with " +:+ show_Z workers +:+ " lanes; settings.maxRounds=" +:+ show_Z maxRounds +:+ " "
                     +:+ "now caps batches, so the candidate budget is maxRounds × workers = " +:+ show_Z (maxRounds * workers) +:+ ".")
                    "If maxRounds is intended as a candidate budget, divide it by workers or set an explicit batch budget."]
        end
  end.

(** The targets of a state that are members of the segment. *)
Definition member_targets (definition : WorkflowDefinition) (segment : list string) (id : string) : list string :=
  match obj_get (w_states definition) id with
  | Some state => List.filter (λ target, includes segment target) (collectTransitionTargets state)
  | None => []
  end.

(** The loop of [isSelfLoopableWithinSegment], over a queue. *)
Fixpoint self_loop_walk (definition : WorkflowDefinition) (stateId : string) (segment : list string) (fuel : nat) (seen queue : list string) : option bool :=
  match queue with
  | [] => Some false
  | current :: queue =>
      match fuel with
      | O => None
      | S fuel =>
          if current =? stateId then Some true
          else if includes seen current then self_loop_walk definition stateId segment fuel seen queue
          else self_loop_walk definition stateId segment fuel (seen ++ [current]) (queue ++ member_targets definition segment current)
      end
  end.

Definition isSelfLoopableWithinSegment (definition : WorkflowDefinition) (stateId : string) (segment : list string) : bool :=
  let queue := member_targets definition segment stateId in
  default false (self_loop_walk definition stateId segment (walk_fuel definition queue) [] queue).

Definition checkFanOutChildBounds (definition : WorkflowDefinition) : list Diagnostic :=
  obj_values (w_states definition) ≫= λ state,
    match fan_out_lanes definition state with
    | None => []
    | Some workers =>
        if (workers <=? 1)%Z then []
        else
          let segment := default [] (executable state ≫= x_segment) in
          segment ≫= λ memberId,
            match obj_get (w_states definition) memberId with
            | None => []
            | Some member =>
                if negb (isSelfLoopableWithinSegment definition memberId segment)
                   || match member with SAgent a => bool_decide (is_Some (a_maxVisits a)) | _ => false end then []
                else [diagnose WF014 SeverityWarning memberId
                        ("Fan-out segment member " +:+ quoted memberId +:+ " can loop within the segment but has no per-lane maxVisits bound; "
                         +:+ "the parent maxRounds guard is blind to lane-internal visits.")
                        "Add maxVisits to the child state, or add an explicit child-level round-limit guard when the fan-out pump is implemented."]
            end
    end.

(** ** WF010: skills *)

Definition getWorkflowPackageDir (workflowFilePath : string) : string := dirname workflowFilePath.

Definition buildSkillManifestDiagnostic (err : SkillDiscoveryError) : string * string :=
  let detail := default (reason_name (se_reason err)) (se_detail err) in
  match se_reason err with
  | MalformedFrontmatter =>
      ("Malformed SKILL.md frontmatter at " +:+ se_skillDir err +:+ ": " +:+ detail +:+ ".",
       "Fix the YAML frontmatter (the block fenced by `---` lines at the top of SKILL.md).")
  | MissingRequiredFields =>
      ("SKILL.md at " +:+ se_skillDir err +:+ " is missing required frontmatter fields: " +:+ detail +:+ ".",
       "SKILL.md frontmatter must declare both `name:` and `description:` as strings.")
  | Unreadable =>
      ("Unreadable SKILL.md at " +:+ se_skillDir err +:+ ": " +:+ detail +:+ ".",
       "Check filesystem permissions or whether the path is a directory.")
  | MissingManifest =>
      ("Missing SKILL.md at " +:+ se_skillDir err +:+ ": " +:+ detail +:+ ".",
       "Create a SKILL.md file with a `---`-fenced YAML frontmatter declaring `name:` and `description:`.")
  | DuplicateName =>
      ("Duplicate skill at " +:+ se_skillDir err +:+ ": " +:+ detail +:+ ".",
       "Two skill directories under the same skills root cannot share the same frontmatter `name:`. Rename one in its SKILL.md frontmatter.")
  end.

Definition checkSkillManifests (errors : list SkillDiscoveryError) : list Diagnostic :=
  (λ err, let '(message, hint) := buildSkillManifestDiagnostic err in
          {| dg_code := WF010; dg_severity := SeverityError; dg_message := message; dg_stateId := None; dg_hint := Some hint |})
    <$> List.filter (λ err, includes ACTIONABLE_DISCOVERY_REASONS (se_reason err)) errors.

Definition checkSkillReferences (definition : WorkflowDefinition) (discovered : list ResolvedSkill) (skillsRoot : string) : list Diagnostic :=
  let discoveredNames := js_set (sk_name <$> discovered) in
  (λ issue,
     match issue with
     | InvalidSkillName stateId name detail =>
         diagnose WF010 SeverityError stateId
           ("Invalid skill name " +:+ quoted name +:+ " in state " +:+ quoted stateId +:+ ": " +:+ detail +:+ ".")
           ("Skill names must be a single non-empty path segment with no separators or " +:+ quoted "." +:+ "/" +:+ quoted ".." +:+ ".")
     | UnknownSkillName stateId name =>
         diagnose WF010 SeverityError stateId
           ("State " +:+ quoted stateId +:+ " references skill " +:+ quoted name +:+ " but no skill with that frontmatter name was found under "
            +:+ skillsRoot +:+ ". Available: " +:+ available_hint discoveredNames +:+ ".")
           ("Add a SKILL.md under <workflow-pkg>/skills/ whose frontmatter `name:` is " +:+ quoted name +:+ ", or remove " +:+ quoted name
            +:+ " from the state's skills list.")
     end) <$> iterateSkillRefIssues definition discoveredNames.

Definition checkSkillReferencesAndManifests `{FileSystem} `{FrontmatterYaml} (disk : SkillsDisk) (definition : WorkflowDefinition) (ctx : LintContext) :
    list Diagnostic :=
  match lc_workflowFilePath ctx with
  | None => []
  | Some path =>
      if path =? "" then []
      else
        let skillsRoot := resolve2 (getWorkflowPackageDir path) "skills" in
        let r := discoverSkillsWithErrors disk skillsRoot WorkflowSkill in
        checkSkillManifests (dr_errors r) ++ checkSkillReferences definition (dr_skills r) skillsRoot
  end.

(** ** The entry point *)

Definition lintWorkflow `{FileSystem} `{FrontmatterYaml} `{Runtime} (disk : SkillsDisk) (definition : WorkflowDefinition) (ctx : LintContext) :
    result (list Diagnostic) :=
  let reachable := findReachableStates (w_initial definition) (w_states definition) in
  let reachableAgentOutputs := collectReachableAgentOutputs definition reachable in
  unreachable ← checkUnreachableTerminal definition reachable;
  Ok (unreachable
      ++ checkUnversionedArtifacts definition reachableAgentOutputs
      ++ checkTerminalOutputs definition reachable reachableAgentOutputs
      ++ checkHumanGatePresent definition reachable reachableAgentOutputs
      ++ checkMaxRoundsHasGuard definition
      ++ checkPersonaExists definition ctx
      ++ checkVisitCapTransitionOrder definition
      ++ checkContainerScopePopulatedByAgent definition
      ++ checkVerdictEdgesHaveResultFile definition
      ++ checkFanOutBudget definition
      ++ checkFanOutChildBounds definition
      ++ checkSkillReferencesAndManifests disk definition ctx).

(** ** lint-integration.ts: what a mode tolerates *)

Inductive LintMode := LintOff | LintWarn | LintStrict.

Record PreflightResult := { pf_ok : bool; pf_diagnostics : list Diagnostic }.

Definition preflightLint `{FileSystem} `{FrontmatterYaml} `{Runtime} (disk : SkillsDisk) (definition : WorkflowDefinition) (context : LintContext)
    (mode : LintMode) : result PreflightResult :=
  match mode with
  | LintOff => Ok {| pf_ok := true; pf_diagnostics := [] |}
  | _ =>
      diagnostics ← lintWorkflow disk definition context;
      let errors := (countBySeverity diagnostics).1 in
      let failed := match mode with LintStrict => (0 <? length diagnostics)%nat | _ => (0 <? errors)%nat end in
      Ok {| pf_ok := negb failed; pf_diagnostics := diagnostics |}
  end.

(** ** Diagnostics by code *)

Definition flags (ds : list Diagnostic) (code : DiagnosticCode) (id : string) : Prop :=
  ∃ g, g ∈ ds ∧ dg_code g = code ∧ dg_stateId g = Some id.

Definition all_of (code : DiagnosticCode) (ds : list Diagnostic) : Prop := ∀ g, g ∈ ds → dg_code g = code.

Lemma flags_app l l' code id : flags (l ++ l') code id ↔ flags l code id ∨ flags l' code id.
Proof. unfold flags. setoid_rewrite elem_of_app. naive_solver. Qed.

Lemma flags_other l code code' id : all_of code' l → code ≠ code' → ¬ flags l code id.
Proof. intros Hl Hne (g & Hg & Hc & _). apply Hl in Hg. congruence. Qed.

Lemma flags_nil code id : ¬ flags [] code id.
Proof. by intros (g & ?%elem_of_nil & _). Qed.

Lemma flags_one code code' severity id id' message hint :
  flags [diagnose code' severity id' message hint] code id ↔ code = code' ∧ id = id'.
Proof.
  split; [intros (g & ->%list_elem_of_singleton & <- & [= ->]); done|]. intros [-> ->]. eexists. split; [left|done].
Qed.

Lemma flags_cons code code' severity id id' message hint l :
  flags (diagnose code' severity id' message hint :: l) code id ↔ (code = code' ∧ id = id') ∨ flags l code id.
Proof. change (?g :: l) with ([g] ++ l). by rewrite flags_app, flags_one. Qed.

Lemma flags_bind {A} (f : A → list Diagnostic) l code id : flags (l ≫= f) code id ↔ ∃ x, x ∈ l ∧ flags (f x) code id.
Proof. unfold flags. setoid_rewrite list_elem_of_bind. naive_solver. Qed.

Lemma all_of_bind {A} (f : A → list Diagnostic) code l : (∀ x, all_of code (f x)) → all_of code (l ≫= f).
Proof. intros Hf g (x & Hg & _)%list_elem_of_bind. by eapply Hf. Qed.

Lemma all_of_nil code : all_of code [].
Proof. by intros g ?%elem_of_nil. Qed.

Lemma all_of_one code g : dg_code g = code → all_of code [g].
Proof. by intros Hg g' ->%list_elem_of_singleton. Qed.

Ltac one_code := repeat first [apply all_of_nil | apply all_of_one; done | apply all_of_bind; intros ? | progress cbv beta zeta | case_match].

Lemma codes_002 d produced : all_of WF002 (checkUnversionedArtifacts d produced).
Proof. unfold checkUnversionedArtifacts. one_code. Qed.
Lemma codes_003 d reachable produced : all_of WF003 (checkTerminalOutputs d reachable produced).
Proof. unfold checkTerminalOutputs. one_code. Qed.
Lemma codes_004 d reachable produced : all_of WF004 (checkHumanGatePresent d reachable produced).
Proof. unfold checkHumanGatePresent. one_code. Qed.
Lemma codes_006 d : all_of WF006 (checkMaxRoundsHasGuard d).
Proof. unfold checkMaxRoundsHasGuard. one_code. Qed.
Lemma codes_007 d ctx : all_of WF007 (checkPersonaExists d ctx).
Proof. unfold checkPersonaExists. one_code. Qed.
Lemma codes_008 `{Runtime} d : all_of WF008 (checkVisitCapTransitionOrder d).
Proof. unfold checkVisitCapTransitionOrder, visit_cap_diagnostics. one_code. Qed.
Lemma codes_011 d : all_of WF011 (checkContainerScopePopulatedByAgent d).
Proof. unfold checkContainerScopePopulatedByAgent. one_code. Qed.
Lemma codes_012 d : all_of WF012 (checkVerdictEdgesHaveResultFile d).
Proof. unfold checkVerdictEdgesHaveResultFile. one_code. Qed.
Lemma codes_013 d : all_of WF013 (checkFanOutBudget d).
Proof. unfold checkFanOutBudget. one_code. Qed.
Lemma codes_014 d : all_of WF014 (checkFanOutChildBounds d).
Proof. unfold checkFanOutChildBounds. one_code. Qed.
Lemma codes_010 `{FileSystem} `{FrontmatterYaml} disk d ctx : all_of WF010 (checkSkillReferencesAndManifests disk d ctx).
Proof.
  unfold checkSkillReferencesAndManifests, checkSkillManifests, checkSkillReferences. repeat case_match; try apply all_of_nil. cbv zeta.
  intros g [(e & -> & _)%list_elem_of_fmap|(i & -> & _)%list_elem_of_fmap]%elem_of_app; [by destruct (buildSkillManifestDiagnostic e)|by destruct i].
Qed.
Lemma codes_001 d reachable ds : checkUnreachableTerminal d reachable = Ok ds → all_of WF001 ds.
Proof.
  unfold checkUnreachableTerminal. revert ds. induction reachable as [|id reachable IH]; intros ds; cbn [unreachable_terminals]; [intros [= <-]; apply all_of_nil|].
  destruct (state_of d id) as [s|]; [|done]. cbn. case_match; [apply IH|]. destruct (touches_terminal _ _) as [t|]; [|done]. cbn.
  destruct (unreachable_terminals d reachable) as [rest|]; [|done]. cbn. specialize (IH rest eq_refl).
  destruct t; intros [= <-]; [done|]. intros g [->|?]%elem_of_cons; [done|by apply IH].
Qed.

Ltac code_of_check := first [ done | apply codes_002 | apply codes_003 | apply codes_004 | apply codes_006 | apply codes_007 | apply codes_008
  | apply codes_010 | apply codes_011 | apply codes_012 | apply codes_013 | apply codes_014 ].

(** ** The two walks *)

Section walks.
Context (d : WorkflowDefinition).

(** What the states that were not seen can still push. *)
Definition unseen (seen : list string) : nat :=
  sum_list_with (λ kv, if includes seen kv.1 then 0 else length (collectTransitionTargets kv.2)) (w_states d).

Lemma unseen_mono seen id : (unseen (seen ++ [id]) ≤ unseen seen)%nat.
Proof.
  apply sum_list_with_mono. intros [k s] _. csimpl. destruct (includes seen k) eqn:Hk; [by rewrite (includes_mono _ _ _ Hk)|].
  destruct (includes (seen ++ [id]) k); [apply Nat.le_0_l|done].
Qed.

Lemma unseen_expand seen id state :
  includes seen id = false → obj_get (w_states d) id = Some state →
  (unseen (seen ++ [id]) + length (collectTransitionTargets state) ≤ unseen seen)%nat.
Proof.
  intros Hc Hg. pose proof (sum_list_with_drop
    (λ kv : string * _, if includes (seen ++ [id]) kv.1 then 0 else length (collectTransitionTargets kv.2))
    (λ kv, if includes seen kv.1 then 0 else length (collectTransitionTargets kv.2)) (w_states d) (id, state)) as Hd.
  csimpl in Hd. rewrite Hc in Hd. apply Hd.
  - intros [k s] _. csimpl. destruct (includes seen k) eqn:Hk; [by rewrite (includes_mono _ _ _ Hk)|].
    destruct (includes (seen ++ [id]) k); [apply Nat.le_0_l|done].
  - by apply obj_get_elem.
  - rewrite (proj2 (includes_spec _ _)); [done|]. rewrite elem_of_app. right. left.
Qed.

Lemma unseen_start : unseen [] = sum_list_with (λ kv, length (collectTransitionTargets kv.2)) (w_states d).
Proof. done. Qed.

(** A set that is closed under the edges and lacks the target. *)
Definition misses (R : string → string → Prop) (target : string) (l : list string) : Prop :=
  ∃ S : string → Prop, (∀ a, a ∈ l → S a) ∧ (∀ a b, S a → R a b → S b) ∧ ¬ S target.

Lemma misses_no_path R target l a : misses R target l → a ∈ l → ¬ rtc R a target.
Proof.
  intros (S & Hl & Hcl & Hn) Ha%Hl Hp. apply Hn. clear Hn. induction Hp; [done|]. eauto.
Qed.

Lemma misses_end (R : string → string → Prop) target seen :
  target ∉ seen → (∀ a b, a ∈ seen → R a b → b ∈ seen ++ []) → misses R target (seen ++ []).
Proof. rewrite app_nil_r. intros Hn Hcl. exists (λ a, a ∈ seen). eauto. Qed.

Lemma misses_mono R target l l' : misses R target l → (∀ a, a ∈ l' → a ∈ l) → misses R target l'.
Proof. intros (S & HS & ?) Hl. exists S. split; [auto|done]. Qed.

(** *** Paths without an agent of the scope *)

(** A transition of a state that is no agent in the scope. *)
Definition open_edge (scope : string) (a b : string) : Prop :=
  ∃ s, obj_get (w_states d) a = Some s ∧ agent_in_scope scope s = false ∧ b ∈ collectTransitionTargets s.

Lemma without_agent_total target scope fuel seen queue :
  (length queue + unseen seen ≤ fuel)%nat → is_Some (without_agent_loop d target scope fuel seen queue).
Proof.
  revert seen queue. induction fuel as [|fuel IH]; intros seen [|id queue] Hf; csimpl in *; [eauto|lia|eauto|].
  destruct (includes seen id) eqn:Hc; [apply IH; lia|]. case_match; [eauto|]. pose proof (unseen_mono seen id).
  destruct (obj_get (w_states d) id) as [state|] eqn:Hg; [|apply IH; lia]. case_match; [apply IH; lia|]. apply IH.
  rewrite length_app, length_rev. pose proof (unseen_expand _ _ _ Hc Hg).
  pose proof (filter_length_le (λ next, negb (includes (seen ++ [id]) next)) (collectTransitionTargets state)). lia.
Qed.

Lemma without_agent_sound target scope fuel seen queue :
  without_agent_loop d target scope fuel seen queue = Some true → ∃ q, q ∈ queue ∧ rtc (open_edge scope) q target.
Proof.
  revert seen queue. induction fuel as [|fuel IH]; intros seen [|id queue] Hr; csimpl in *; try done.
  assert (∀ seen', without_agent_loop d target scope fuel seen' queue = Some true → ∃ q, q ∈ id :: queue ∧ rtc (open_edge scope) q target) as Hskip
    by (intros seen' (q & ? & ?)%IH; exists q; split; [by right|done]).
  destruct (includes seen id); [by eapply Hskip|]. case_match eqn:E; [apply bool_decide_eq_true in E as ->; exists target; split; [left|done]|].
  destruct (obj_get (w_states d) id) as [state|] eqn:Hg; [|by eapply Hskip]. case_match eqn:Ha; [by eapply Hskip|].
  apply IH in Hr as (q & Hq & Hp). rewrite elem_of_app, list_elem_of_In, <- in_rev, <- list_elem_of_In, elem_of_filter_fresh in Hq.
  destruct Hq as [[Hq _]|Hq]; [|exists q; split; [by right|done]].
  exists id. split; [left|]. eapply rtc_l; [|exact Hp]. by exists state.
Qed.

Lemma without_agent_complete target scope fuel seen queue :
  without_agent_loop d target scope fuel seen queue = Some false → target ∉ seen →
  (∀ a b, a ∈ seen → open_edge scope a b → b ∈ seen ++ queue) → misses (open_edge scope) target (seen ++ queue).
Proof.
  revert seen queue. induction fuel as [|fuel IH]; intros seen [|id queue] Hr Hn Hcl; csimpl in *; try done; [by apply misses_end..|].
  destruct (includes seen id) eqn:Hc.
  { apply includes_spec in Hc. eapply misses_mono; [apply IH; [exact Hr|done|]|set_solver]. intros a b Ha Hab. pose proof (Hcl a b Ha Hab). set_solver. }
  case_match eqn:E; [done|]. apply bool_decide_eq_false in E.
  assert (target ∉ seen ++ [id]) as Hn' by set_solver.
  destruct (obj_get (w_states d) id) as [state|] eqn:Hg; [case_match eqn:Ha|].
  - eapply misses_mono; [apply IH; [exact Hr|done|]|set_solver]. intros a b Hain Hab. apply elem_of_app in Hain as [Hain| ->%list_elem_of_singleton].
    + pose proof (Hcl a b Hain Hab). set_solver.
    + destruct Hab as (s & ? & ? & _). congruence.
  - eapply misses_mono; [apply IH; [exact Hr|done|]|].
    + intros a b Hain Hab. destruct (decide (b ∈ seen ++ [id])) as [|Hb]; [set_solver|].
      apply elem_of_app in Hain as [Hain| ->%list_elem_of_singleton].
      * pose proof (Hcl a b Hain Hab). set_solver.
      * destruct Hab as (s & Hs & _ & Hin). rewrite !elem_of_app. right. left. rewrite list_elem_of_In, <- in_rev, <- list_elem_of_In, elem_of_filter_fresh.
        split; [congruence|done].
    + set_solver.
  - eapply misses_mono; [apply IH; [exact Hr|done|]|set_solver]. intros a b Hain Hab. apply elem_of_app in Hain as [Hain| ->%list_elem_of_singleton].
    + pose proof (Hcl a b Hain Hab). set_solver.
    + destruct Hab as (s & ? & _). congruence.
Qed.

(** The walk finds a path exactly when there is one. *)
Lemma isReachableWithoutScopeAgent_spec target scope :
  isReachableWithoutScopeAgent d target scope = true ↔ rtc (open_edge scope) (w_initial d) target.
Proof.
  unfold isReachableWithoutScopeAgent. cbv zeta.
  destruct (without_agent_total target scope (walk_fuel d [w_initial d]) [] [w_initial d]) as [[] Hr]; [done|..]; rewrite Hr; cbn; (split; [intros Ht; try done|intros Hp; try done]).
  - apply without_agent_sound in Hr as (q & ->%list_elem_of_singleton & ?). done.
  - exfalso. eapply misses_no_path; [eapply without_agent_complete; [exact Hr|apply not_elem_of_nil|by intros a b ?%elem_of_nil]|left|done].
Qed.

(** *** Loops within a segment *)

Definition inner_edge (segment : list string) (a b : string) : Prop := b ∈ member_targets d segment a.

Lemma member_targets_spec segment a b :
  b ∈ member_targets d segment a ↔ b ∈ segment ∧ ∃ s, obj_get (w_states d) a = Some s ∧ b ∈ collectTransitionTargets s.
Proof.
  unfold member_targets. destruct (obj_get (w_states d) a) as [s|]; [|split; [by intros ?%elem_of_nil|by intros (_ & ? & ? & _)]].
  rewrite list_elem_of_In, filter_In, <- list_elem_of_In, includes_spec. naive_solver.
Qed.

Lemma self_loop_total id segment fuel seen queue :
  (length queue + unseen seen ≤ fuel)%nat → is_Some (self_loop_walk d id segment fuel seen queue).
Proof.
  revert seen queue. induction fuel as [|fuel IH]; intros seen [|current queue] Hf; csimpl in *; [eauto|lia|eauto|].
  case_match; [eauto|]. destruct (includes seen current) eqn:Hc; [apply IH; lia|]. apply IH. pose proof (unseen_mono seen current).
  rewrite length_app. unfold member_targets. destruct (obj_get (w_states d) current) as [state|] eqn:Hg; [|cbn; lia].
  pose proof (unseen_expand _ _ _ Hc Hg). pose proof (filter_length_le (λ target, includes segment target) (collectTransitionTargets state)). lia.
Qed.

Lemma self_loop_sound id segment fuel seen queue :
  self_loop_walk d id segment fuel seen queue = Some true → ∃ q, q ∈ queue ∧ rtc (inner_edge segment) q id.
Proof.
  revert seen queue. induction fuel as [|fuel IH]; intros seen [|current queue] Hr; csimpl in *; try done.
  case_match eqn:E; [apply bool_decide_eq_true in E as ->; exists id; split; [left|done]|].
  case_match; apply IH in Hr as (q & Hq & Hp); [exists q; split; [by right|done]|].
  apply elem_of_app in Hq as [Hq|Hq]; [exists q; split; [by right|done]|]. exists current. split; [left|]. by eapply rtc_l.
Qed.

Lemma self_loop_complete id segment fuel seen queue :
  self_loop_walk d id segment fuel seen queue = Some false → id ∉ seen →
  (∀ a b, a ∈ seen → inner_edge segment a b → b ∈ seen ++ queue) → misses (inner_edge segment) id (seen ++ queue).
Proof.
  revert seen queue. induction fuel as [|fuel IH]; intros seen [|current queue] Hr Hn Hcl; csimpl in *; try done; [by apply misses_end..|].
  case_match eqn:E; [done|]. apply bool_decide_eq_false in E.
  destruct (includes seen current) eqn:Hc.
  - apply includes_spec in Hc. eapply misses_mono; [apply IH; [exact Hr|done|]|set_solver]. intros a b Ha Hab. pose proof (Hcl a b Ha Hab). set_solver.
  - eapply misses_mono; [apply IH; [exact Hr|set_solver|]|set_solver]. intros a b Ha Hab. rewrite !elem_of_app in *.
    destruct Ha as [Ha| ->%list_elem_of_singleton]; [|by right; right]. pose proof (Hcl a b Ha Hab). set_solver.
Qed.

Lemma isSelfLoopable_spec id segment :
  isSelfLoopableWithinSegment d id segment = true ↔ tc (inner_edge segment) id id.
Proof.
  unfold isSelfLoopableWithinSegment. cbv zeta. set (queue := member_targets d segment id).
  assert (tc (inner_edge segment) id id ↔ ∃ q, q ∈ queue ∧ rtc (inner_edge segment) q id) as ->.
  { split; [|intros (q & ? & ?); by eapply tc_rtc_r; [apply tc_once|]].
    intros Ht. inversion Ht as [? ? Hone|? q ? Hone Hrest]; subst; [exists id; done|exists q; split; [done|by apply tc_rtc]]. }
  destruct (self_loop_total id segment (walk_fuel d queue) [] queue) as [[] Hr]; [done|..]; rewrite Hr; cbn; (split; [intros Ht; try done|intros Hp; try done]).
  - by apply self_loop_sound in Hr.
  - destruct Hp as (q & Hq & Hp). exfalso.
    eapply misses_no_path; [eapply self_loop_complete; [exact Hr|apply not_elem_of_nil|by intros a b ?%elem_of_nil]|exact Hq|done].
Qed.
End walks.

(** ** What each check reports *)

Section checks.
Context (d : WorkflowDefinition).

(** Validation looks at the segments of fan-out states alone. *)
Definition stray_segments_known : Prop :=
  ∀ id s x m, (id, s) ∈ w_states d → executable s = Some x → x_fanOut x = None → m ∈ default [] (x_segment x) → m ∈ stateNames d.

Definition edges_known : Prop := ∀ a b, edge (w_states d) a b → b ∈ stateNames d.

Lemma validated_edges_known : obj_wf (w_states d) → semantic_issues d = [] → stray_segments_known → edges_known.
Proof.
  intros Hwf Hv Hstray a b (s & Ha & Hb). pose proof (validated_definition_ok d Hwf Hv) as Hd. apply elem_of_obj_get in Ha; [|done].
  unfold successors in Hb. apply elem_of_app in Hb as [Hb|Hb]; [by eapply (do_targets d Hd)|].
  destruct (executable s) as [x|] eqn:Hx; [|by apply elem_of_nil in Hb]. destruct (x_fanOut x) eqn:Hf; [|by eapply Hstray].
  destruct (validated_segments_ok d Hv a s x Ha Hx (ltac:(congruence)) b Hb) as (m & Hm & _). apply elem_of_keys. by exists m.
Qed.

Lemma known_reach a b : edges_known → a ∈ stateNames d → leads_to (w_states d) a b → b ∈ stateNames d.
Proof. intros He Ha Hp. induction Hp as [|a c b Hac _ IH]; [done|]. apply IH. by eapply He. Qed.

(** No terminal ahead. *)
Definition endless (id : string) : Prop :=
  ∀ z s, leads_to (w_states d) id z → obj_get (w_states d) z = Some s → is_terminal s = false.

Lemma touches_terminal_spec cone :
  (∀ z, z ∈ cone → z ∈ stateNames d) →
  ∃ b, touches_terminal d cone = Ok b ∧ (b = true ↔ ∃ z s, z ∈ cone ∧ obj_get (w_states d) z = Some s ∧ is_terminal s = true).
Proof.
  induction cone as [|z cone IH]; intros Hk; cbn [touches_terminal].
  - exists false. split; [done|]. split; [done|]. by intros (? & ? & ?%elem_of_nil & _).
  - destruct (proj1 (elem_of_keys (w_states d) z) (Hk z ltac:(by left))) as [s Hs]. unfold state_of. rewrite Hs. cbn.
    case_match eqn:E; [exists true; split; [done|]; split; [|done]; intros _; exists z, s; split; [left|done]|].
    destruct IH as (b & -> & Hb); [intros; apply Hk; by right|]. exists b. split; [done|]. rewrite Hb. setoid_rewrite elem_of_cons.
    split; [naive_solver|]. intros (z' & s' & [->|?] & Hs' & Ht); [congruence|eauto].
Qed.

Lemma cone_endless id :
  edges_known → id ∈ stateNames d →
  ∃ b, touches_terminal d (findReachableStates id (w_states d)) = Ok b ∧ (b = false ↔ endless id).
Proof.
  intros He Hid. destruct (findReachableStates_spec (w_states d) id) as [_ Hcone].
  destruct (touches_terminal_spec (findReachableStates id (w_states d))) as (b & Hb & Hiff); [intros z Hz%Hcone; by eapply known_reach|].
  exists b. split; [done|]. unfold endless. split.
  - intros -> z s Hz Hs. destruct (is_terminal s) eqn:E; [|done]. assert (false = true) as [=]. apply Hiff. exists z, s. by rewrite Hcone.
  - intros Hend. destruct b; [|done]. destruct (proj1 Hiff eq_refl) as (z & s & Hz%Hcone & Hs & Ht). rewrite (Hend z s) in Ht; done.
Qed.

Lemma wf001_spec reachable :
  edges_known → (∀ id, id ∈ reachable → id ∈ stateNames d) →
  ∃ ds, checkUnreachableTerminal d reachable = Ok ds ∧
    ∀ id, flags ds WF001 id ↔ id ∈ reachable ∧ (∀ s, obj_get (w_states d) id = Some s → is_terminal s = false) ∧ endless id.
Proof.
  intros He. unfold checkUnreachableTerminal. induction reachable as [|x reachable IH]; intros Hk; cbn [unreachable_terminals].
  - exists []. split; [done|]. intros id. split; [by intros ?%flags_nil|by intros [?%elem_of_nil _]].
  - destruct IH as (ds & Hds & Hiff); [intros; apply Hk; by right|]. assert (x ∈ stateNames d) as Hx by (apply Hk; left).
    destruct (proj1 (elem_of_keys (w_states d) x) Hx) as [s Hs]. unfold state_of. rewrite Hs.
    destruct (cone_endless x He Hx) as (b & -> & Hb). cbn. destruct (is_terminal s) eqn:E.
    { exists ds. split; [done|]. intros id. rewrite Hiff, elem_of_cons. split; [naive_solver|].
      intros ([->|?] & Ht & ?); [rewrite (Ht s) in E|]; done. }
    rewrite Hds. cbn. destruct b.
    + exists ds. split; [done|]. intros id. rewrite Hiff, elem_of_cons. split; [naive_solver|].
      intros ([->|?] & ? & Hend); [by apply Hb in Hend|done].
    + eexists. split; [done|]. intros id. rewrite flags_cons, Hiff, elem_of_cons. split; [|naive_solver].
      intros [[_ ->]|?]; [|naive_solver]. split_and!; [by left| |by apply Hb]. intros s' ?. by simplify_eq.
Qed.

(** A name that a reachable agent has among its outputs. *)
Definition produced_by_agent (name : string) : Prop :=
  ∃ id a, leads_to (w_states d) (w_initial d) id ∧ (id, SAgent a) ∈ w_states d ∧ name ∈ a_outputs a.

Local Abbreviation reachable := (findReachableStates (w_initial d) (w_states d)).

Lemma reachable_spec id : includes reachable id = true ↔ leads_to (w_states d) (w_initial d) id.
Proof. rewrite includes_spec. apply findReachableStates_spec. Qed.

Lemma produced_spec name : includes (collectReachableAgentOutputs d reachable) name = true ↔ produced_by_agent name.
Proof.
  unfold collectReachableAgentOutputs, produced_by_agent. rewrite includes_spec, elem_of_js_set, list_elem_of_bind. split.
  - intros ([id s] & Hname & Hin). cbn [fst snd] in Hname. case_match eqn:E; [|by apply elem_of_nil in Hname]. apply reachable_spec in E.
    destruct s as [a| | |]; try by apply elem_of_nil in Hname. by exists id, a.
  - intros (id & a & Hr%reachable_spec & Hin & Hname). exists (id, SAgent a). split; [|done]. cbn [fst snd]. by rewrite Hr.
Qed.

Lemma wf004_spec id :
  flags (checkHumanGatePresent d reachable (collectReachableAgentOutputs d reachable)) WF004 id ↔
  ∃ h entry, (id, SHumanGate h) ∈ w_states d ∧ leads_to (w_states d) (w_initial d) id ∧ entry ∈ default [] (h_present h)
    ∧ ¬ produced_by_agent (parseArtifactRef entry).1.
Proof.
  unfold checkHumanGatePresent. rewrite flags_bind. split.
  - intros ([k s] & Hin & Hf). cbn [fst snd] in Hf. destruct s as [|h| |]; try by apply flags_nil in Hf.
    case_match eqn:E; [|by apply flags_nil in Hf]. apply reachable_spec in E. apply flags_bind in Hf as (entry & Hentry & Hf). cbv zeta in Hf.
    case_match eqn:Hp; [by apply flags_nil in Hf|]. apply flags_one in Hf as [_ ->]. exists h, entry. split_and!; try done.
    rewrite <- produced_spec. congruence.
  - intros (h & entry & Hin & Hr%reachable_spec & Hentry & Hp). exists (id, SHumanGate h). split; [done|]. cbn [fst snd]. rewrite Hr.
    rewrite flags_bind. exists entry. split; [done|]. cbv zeta. rewrite <- produced_spec, not_true_iff_false in Hp. rewrite Hp. by apply flags_one.
Qed.

Lemma wf011_spec id :
  flags (checkContainerScopePopulatedByAgent d) WF011 id ↔
  ∃ c, (id, SDeterministic c) ∈ w_states d ∧ d_container c = Some true
    ∧ (∃ k s, (k, s) ∈ w_states d ∧ agent_in_scope (scope_of (d_containerScope c)) s = true)
    ∧ rtc (open_edge d (scope_of (d_containerScope c))) (w_initial d) id.
Proof.
  unfold checkContainerScopePopulatedByAgent. rewrite flags_bind.
  assert (∀ f, existsb f (obj_values (w_states d)) = true ↔ ∃ k s, (k, s) ∈ w_states d ∧ f s = true) as Hex.
  { intros f. rewrite existsb_exists_elem. unfold obj_values. setoid_rewrite list_elem_of_fmap. split.
    - intros (s & ([k s'] & -> & ?) & ?). by exists k, s'.
    - intros (k & s & ? & ?). exists s. split; [by exists (k, s)|done]. }
  split.
  - intros ([k s] & Hin & Hf). cbn [fst snd] in Hf. destruct s as [| |c|]; try by apply flags_nil in Hf.
    case_match eqn:E; [|by apply flags_nil in Hf]. apply bool_decide_eq_true in E. cbv zeta in Hf.
    case_match eqn:Hb; [by apply flags_nil in Hf|]. apply flags_one in Hf as [_ ->]. apply orb_false_iff in Hb as [Hb1 Hb2].
    apply negb_false_iff, Hex in Hb1. apply negb_false_iff, isReachableWithoutScopeAgent_spec in Hb2. by exists c.
  - intros (c & Hin & Hc & Ha & Hp). exists (id, SDeterministic c). split; [done|]. cbn [fst snd]. rewrite bool_decide_eq_true_2 by done. cbv zeta.
    apply Hex in Ha. apply isReachableWithoutScopeAgent_spec in Hp. rewrite Ha, Hp. by apply flags_one.
Qed.

Lemma wf014_spec id :
  flags (checkFanOutChildBounds d) WF014 id ↔
  ∃ k s x fanOut member, (k, s) ∈ w_states d ∧ executable s = Some x ∧ x_fanOut x = Some fanOut
    ∧ (1 < resolveFanOutWorkers fanOut (w_settings d))%Z ∧ id ∈ default [] (x_segment x)
    ∧ obj_get (w_states d) id = Some member ∧ tc (inner_edge d (default [] (x_segment x))) id id
    ∧ (∀ a, member = SAgent a → a_maxVisits a = None).
Proof.
  unfold checkFanOutChildBounds. rewrite flags_bind. unfold obj_values, fan_out_lanes. setoid_rewrite list_elem_of_fmap. split.
  - intros (s & ([k s'] & -> & Hin) & Hf). cbn [snd] in Hf. destruct (executable s') as [x|] eqn:Hx; [|by apply flags_nil in Hf]. cbn in Hf.
    destruct (x_fanOut x) as [fanOut|] eqn:Hfan; [|by apply flags_nil in Hf]. case_match eqn:Hw; [by apply flags_nil in Hf|]. apply Z.leb_gt in Hw.
    apply flags_bind in Hf as (m & Hm & Hf). cbn in Hf. destruct (obj_get (w_states d) m) as [member|] eqn:Hg; [|by apply flags_nil in Hf].
    case_match eqn:Hb; [by apply flags_nil in Hf|]. apply flags_one in Hf as [_ ->]. apply orb_false_iff in Hb as [Hb1 Hb2].
    apply negb_false_iff, isSelfLoopable_spec in Hb1. exists k, s', x, fanOut, member. split_and!; try done.
    intros a ->. apply bool_decide_eq_false in Hb2. destruct (a_maxVisits a) eqn:Ea; [|done]. exfalso. apply Hb2. by eexists.
  - intros (k & s & x & fanOut & member & Hin & Hx & Hfan & Hw & Hm & Hg & Ht & Hb). exists s. split; [by exists (k, s)|].
    rewrite Hx. cbn. rewrite Hfan, (proj2 (Z.leb_gt _ _)) by done. apply flags_bind. exists id. split; [done|]. cbn. rewrite Hg.
    apply isSelfLoopable_spec in Ht. rewrite Ht. cbn. destruct member as [a| | |]; try by apply flags_one.
    rewrite (Hb a eq_refl), bool_decide_eq_false_2 by (by intros [? [=]]). by apply flags_one.
Qed.
End checks.

(** ** The whole linter *)

Section linter.
Context `{FileSystem} `{FrontmatterYaml} `{Runtime}.

Lemma lint_parts disk d ctx ds :
  lintWorkflow disk d ctx = Ok ds →
  let reachable := findReachableStates (w_initial d) (w_states d) in
  let produced := collectReachableAgentOutputs d reachable in
  ∃ unreachable, checkUnreachableTerminal d reachable = Ok unreachable
  ∧ (∀ id, flags ds WF001 id ↔ flags unreachable WF001 id)
  ∧ (∀ id, flags ds WF004 id ↔ flags (checkHumanGatePresent d reachable produced) WF004 id)
  ∧ (∀ id, flags ds WF008 id ↔ flags (checkVisitCapTransitionOrder d) WF008 id)
  ∧ (∀ id, flags ds WF010 id ↔ flags (checkSkillReferencesAndManifests disk d ctx) WF010 id)
  ∧ (∀ id, flags ds WF011 id ↔ flags (checkContainerScopePopulatedByAgent d) WF011 id)
  ∧ (∀ id, flags ds WF014 id ↔ flags (checkFanOutChildBounds d) WF014 id).
Proof.
  unfold lintWorkflow. cbv zeta. destruct (checkUnreachableTerminal _ _) as [unreachable|] eqn:E; [|done]. intros [= <-].
  exists unreachable. split; [done|]. pose proof (codes_001 _ _ _ E). clear E.
  split_and!; intros id; rewrite !flags_app; (split; [|tauto]); intros Hf;
    repeat (destruct Hf as [Hf|Hf]); first [exact Hf|exfalso; eapply flags_other in Hf; [exact Hf|code_of_check|done]].
Qed.

(** The error-level structure of a definition: the linter ends with a list of diagnostics,
    and says of a state exactly what its graph says. *)
Record reports (d : WorkflowDefinition) (ds : list Diagnostic) : Prop := {
  rp_endless id : flags ds WF001 id ↔
    leads_to (w_states d) (w_initial d) id ∧ (∀ s, obj_get (w_states d) id = Some s → is_terminal s = false) ∧ endless d id;
  rp_unseen id : flags ds WF004 id ↔
    ∃ h entry, (id, SHumanGate h) ∈ w_states d ∧ leads_to (w_states d) (w_initial d) id ∧ entry ∈ default [] (h_present h)
      ∧ ¬ produced_by_agent d (parseArtifactRef entry).1;
  rp_unpopulated id : flags ds WF011 id ↔
    ∃ c, (id, SDeterministic c) ∈ w_states d ∧ d_container c = Some true
      ∧ (∃ k s, (k, s) ∈ w_states d ∧ agent_in_scope (scope_of (d_containerScope c)) s = true)
      ∧ rtc (open_edge d (scope_of (d_containerScope c))) (w_initial d) id;
  rp_unbounded id : flags ds WF014 id ↔
    ∃ k s x fanOut member, (k, s) ∈ w_states d ∧ executable s = Some x ∧ x_fanOut x = Some fanOut
      ∧ (1 < resolveFanOutWorkers fanOut (w_settings d))%Z ∧ id ∈ default [] (x_segment x)
      ∧ obj_get (w_states d) id = Some member ∧ tc (inner_edge d (default [] (x_segment x))) id id
      ∧ (∀ a, member = SAgent a → a_maxVisits a = None)
}.
End linter.

(** C37. The linter's verdicts on the graph of a validated definition are exact: it ends
    (when the segments of states without a fan-out name states), and it flags with WF001
    the reachable states from which no path of transitions and segments leads to a
    terminal, with WF004 the reachable gates that present an artifact that no reachable
    agent produces, with WF011 the containerised checks that a path reaches before any
    agent of their scope, and with WF014 the members of a segment run by several lanes
    that lie on a cycle within it and have no cap; each of these and no other state. *)
Theorem lint_exact `{FileSystem} `{FrontmatterYaml} `{Runtime} disk d ctx :
  obj_wf (w_states d) → validateSemantics d = Valid () → stray_segments_known d →
  ∃ ds, lintWorkflow disk d ctx = Ok ds ∧ reports d ds.
Proof.
  intros Hwf Hv%valid_no_issues Hstray. pose proof (validated_edges_known d Hwf Hv Hstray) as He.
  pose proof (validated_definition_ok d Hwf Hv) as Hd. destruct (findReachableStates_spec (w_states d) (w_initial d)) as [_ Hr].
  destruct (wf001_spec d (findReachableStates (w_initial d) (w_states d)) He) as (ds & Hds & H001).
  { intros id Hid%Hr. eapply known_reach; [done|by apply (do_initial d Hd)|done]. }
  assert (∃ out, lintWorkflow disk d ctx = Ok out) as (out & Hout) by (unfold lintWorkflow; cbv zeta; rewrite Hds; by eexists).
  exists out. split; [done|]. destruct (lint_parts _ _ _ _ Hout) as (ds' & Hds' & P1 & P4 & _ & _ & P11 & P14).
  assert (ds' = ds) as -> by congruence. split; intros id.
  - by rewrite P1, H001, Hr.
  - by rewrite P4, wf004_spec.
  - by rewrite P11, wf011_spec.
  - by rewrite P14, wf014_spec.
Qed.

(** ** Caps that the linter lets through *)

Section caps.
Context `{XStateLaws}.

Lemma find_index_some {A} (f : A → bool) l i :
  find_index f l = Some i → ∃ l1 x l2, l = l1 ++ x :: l2 ∧ length l1 = i ∧ f x = true ∧ Forall (λ y, f y = false) l1.
Proof.
  revert i. induction l as [|x l IH]; intros i; cbn; [done|]. destruct (f x) eqn:E.
  - intros [= <-]. by exists [], x, l.
  - destruct (find_index f l) as [j|]; [|done]. intros [= <-]. destruct (IH j eq_refl) as (l1 & y & l2 & -> & <- & ? & ?).
    exists (x :: l1), y, l2. split_and!; try done. by constructor.
Qed.

Lemma find_index_none {A} (f : A → bool) l : find_index f l = None → Forall (λ y, f y = false) l.
Proof.
  induction l as [|x l IH]; cbn; [constructor|]. destruct (f x) eqn:E; [done|]. destruct (find_index f l); [done|]. constructor; [done|by apply IH].
Qed.

Lemma find_index_first {A} (f : A → bool) l1 x l2 : Forall (λ y, f y = false) l1 → f x = true → find_index f (l1 ++ x :: l2) = Some (length l1).
Proof. intros Hl Hx. induction Hl as [|y l1 Hy _ IH]; cbn; [by rewrite Hx|]. by rewrite Hy, IH. Qed.

(** Before the cap of a state without WF008 there are approvals only. *)
Lemma unflagged_cap `{Runtime} d x a cap before t0 after :
  (x, SAgent a) ∈ w_states d → a_maxVisits a = Some cap → ¬ flags (checkVisitCapTransitionOrder d) WF008 x →
  a_transitions a = before ++ t0 :: after → is_visit_cap t0 = true → Forall (λ t, is_visit_cap t = false) before →
  Forall (λ t, isApprovalExitTransition t = true) before.
Proof.
  intros Hin Hcap Hno Htr H0' Hbefore. destruct (find_index (λ t, negb (isApprovalExitTransition t)) before) as [i|] eqn:E.
  - exfalso. apply Hno. unfold checkVisitCapTransitionOrder. apply flags_bind. exists (x, SAgent a). split; [done|]. cbn [fst snd].
    rewrite Hcap. unfold visit_cap_diagnostics. rewrite Htr, find_index_first, take_app_length, E by done.
    apply find_index_some in E as (l1 & t & l2 & -> & <- & _). rewrite <- app_assoc. cbn [app]. rewrite list_lookup_middle by done. by apply flags_one.
  - apply find_index_none in E. eapply Forall_impl; [exact E|]. by intros t ?%negb_false_iff.
Qed.

(** A verdict that is no approval passes over the approvals. *)
Lemma approval_skipped m c x r t :
  isApprovalExitTransition t = true → o_verdict (ai_output r) ∉ APPROVAL_EXIT_VERDICTS →
  guard_holds m c (EvDone x (OutAgent r)) (transition_guard t) = Ok false.
Proof.
  unfold isApprovalExitTransition, transition_guard. destruct (t_when t) as [w|]; [|done].
  destruct w as [|[k v] [|kv w]]; [done| |done]. cbn [obj_keys fmap list_fmap fst]. intros [->%bool_decide_eq_true Hv]%andb_true_iff Hn.
  unfold get_value in Hv. cbn in Hv. destruct v as [| | | |verdict| |]; try done. apply includes_spec in Hv.
  unfold guard_holds, matchesWhen. cbn [match_source negb andb forallb fst snd].
  change (match_source (OutAgent r)) with (Some (output_object (ai_output r))). cbv iota beta.
  change (get_value (output_object (ai_output r)) "verdict") with (VStr (o_verdict (ai_output r))). cbn [strict_equal].
  by rewrite (bool_decide_eq_false_2 (o_verdict _ = _)), andb_false_r by (intros E; apply Hn; by rewrite E).
Qed.

Lemma approvals_skipped m c x r update before tcs rest :
  Forall2 (compiled update (λ t, Ok (t_to t))) before tcs → Forall (λ t, isApprovalExitTransition t = true) before →
  o_verdict (ai_output r) ∉ APPROVAL_EXIT_VERDICTS →
  first_enabled m c (EvDone x (OutAgent r)) (tcs ++ rest) = first_enabled m c (EvDone x (OutAgent r)) rest.
Proof.
  intros Hc Hb Hn. induction Hc as [|t tc before tcs (_ & Hg & _) _ IH]; [done|]. apply Forall_cons in Hb as [Ht Hb].
  cbn [app first_enabled]. rewrite Hg, (approval_skipped m c x r t) by done. by apply IH.
Qed.

Lemma validated_when d id s t :
  semantic_issues d = [] → (id, s) ∈ w_states d → t ∈ agent_transitions s → when_issues id t = [].
Proof.
  intros Hs Hin Ht. unfold semantic_issues, state_issues in Hs. autorewrite with issues in Hs.
  destruct Hs as (_ & _ & Hs & _). specialize (Hs _ Hin). csimpl in Hs. autorewrite with issues in Hs.
  destruct Hs as (_ & _ & _ & Hs & _). unfold validateWhenClauses in Hs. rewrite bind_nil in Hs. by apply Hs.
Qed.

Lemma cap_guard d x a t0 :
  semantic_issues d = [] → (x, SAgent a) ∈ w_states d → t0 ∈ a_transitions a → is_visit_cap t0 = true →
  transition_guard t0 = Some (GuardNamed "isStateVisitLimitReached").
Proof.
  intros Hv Hin Ht Hc%bool_decide_eq_true. pose proof (validated_when d x (SAgent a) t0 Hv Hin Ht) as Hw. unfold when_issues in Hw.
  apply app_nil in Hw as [Hw _]. apply if_nil' in Hw. unfold when_set, transition_guard, guard_set in *. rewrite Hc in *. cbn in Hw.
  apply bool_decide_eq_false in Hw. destruct (t_when t0); [|done]. exfalso. apply Hw. by eexists.
Qed.
End caps.


(** ** Skills: the linter and the start *)

(** A state asks for a skill that its session cannot get. *)
Definition misses_skill `{FileSystem} `{FrontmatterYaml} (disk : SkillsDisk) (skillsRoot : string) (d : WorkflowDefinition) (id : string) : Prop :=
  ∃ a names name, (id, SAgent a) ∈ w_states d ∧ a_skills a = Some (SkillsList names) ∧ name ∈ names
    ∧ (¬ good_segment name ∨ str_includes name "\" = true ∨ ∀ s, provides disk skillsRoot WorkflowSkill s → sk_name s ≠ name).

Definition issue_state (issue : SkillRefIssue) : string :=
  match issue with InvalidSkillName id _ _ | UnknownSkillName id _ => id end.

Lemma valid_name_spec name : validateSkillName name = Ok () ↔ good_segment name ∧ str_includes name "\" = false.
Proof.
  split.
  - intros Hv. split; [by apply valid_name_segment|]. unfold validateSkillName in Hv.
    destruct (_ =? ""); [done|]. destruct (_ || _); [done|]. destruct (str_includes name "/" || _) eqn:E; [done|]. by apply orb_false_iff in E as [_ ?].
  - intros [(H0 & H1 & H2 & H3) Hb]. unfold validateSkillName. rewrite !bool_decide_eq_false_2, Hb by done. cbn.
    destruct (str_includes name "/") eqn:E; [by apply slash_includes in E|done].
Qed.

Lemma issues_spec `{FileSystem} `{FrontmatterYaml} disk skillsRoot d id :
  disk_ok disk →
  (∃ issue, issue ∈ iterateSkillRefIssues d (js_set (sk_name <$> (discoverSkills disk skillsRoot WorkflowSkill).1)) ∧ issue_state issue = id)
  ↔ misses_skill disk skillsRoot d id.
Proof.
  intros Hok. unfold iterateSkillRefIssues, misses_skill. set (names := js_set _).
  assert (∀ name, includes names name = false ↔ ∀ s, provides disk skillsRoot WorkflowSkill s → sk_name s ≠ name) as Hnames.
  { intros name. rewrite <- not_true_iff_false. unfold names. rewrite includes_spec, elem_of_js_set. apply not_named. intros s. by apply discover_provides. }
  setoid_rewrite list_elem_of_bind. split.
  - intros (issue & ([k s] & Hissue & Hin) & <-). cbn [fst snd] in Hissue. destruct s as [a| | |]; try by apply elem_of_nil in Hissue.
    destruct (a_skills a) as [[|l]|] eqn:Ha; try by apply elem_of_nil in Hissue.
    apply list_elem_of_bind in Hissue as (name & Hissue & Hname). destruct (validateSkillName name) as [[]|detail] eqn:Hv.
    + destruct (includes names name) eqn:E; [by apply elem_of_nil in Hissue|]. apply list_elem_of_singleton in Hissue as ->.
      exists a, l, name. split_and!; try done. right. right. by apply Hnames.
    + apply list_elem_of_singleton in Hissue as ->. exists a, l, name. split_and!; try done.
      destruct (str_includes name "\") eqn:Eb; [by right; left|]. left. intros Hg.
      assert (validateSkillName name = Ok ()) by by apply valid_name_spec. congruence.
  - intros (a & l & name & Hin & Ha & Hname & Hbad). destruct (validateSkillName name) as [[]|detail] eqn:Hv.
    + exists (UnknownSkillName id name). split; [|done]. exists (id, SAgent a). split; [|done]. cbn [fst snd]. rewrite Ha.
      apply list_elem_of_bind. exists name. split; [|done]. rewrite Hv. apply valid_name_spec in Hv as [Hg Hb].
      destruct Hbad as [?|[?|Hp]]; [done|congruence|]. apply Hnames in Hp. rewrite Hp. left.
    + exists (InvalidSkillName id name detail). split; [|done]. exists (id, SAgent a). split; [|done]. cbn [fst snd]. rewrite Ha.
      apply list_elem_of_bind. exists name. split; [|done]. rewrite Hv. left.
Qed.

Lemma references_flag d discovered skillsRoot id :
  flags (checkSkillReferences d discovered skillsRoot) WF010 id ↔
  ∃ issue, issue ∈ iterateSkillRefIssues d (js_set (sk_name <$> discovered)) ∧ issue_state issue = id.
Proof.
  unfold flags, checkSkillReferences. setoid_rewrite list_elem_of_fmap. split.
  - intros (g & (issue & -> & Hin) & _ & Hid). exists issue. split; [done|]. by destruct issue; injection Hid.
  - intros (issue & Hin & <-). eexists. split; [by exists issue|]. by destruct issue.
Qed.

(** C38. The linter and the orchestrator agree on skills: on the same files, the states that
    WF010 names are those that list a name that is no path segment, or that no skill of the
    package has in its front matter, and the start of the workflow passes its check of the
    references exactly when the linter names no state. *)
Theorem lint_agrees_with_start `{FileSystem} `{FrontmatterYaml} `{Runtime} disk d ctx path ds :
  disk_ok disk → lintWorkflow disk d ctx = Ok ds → lc_workflowFilePath ctx = Some path → path ≠ "" →
  let packageDir := getWorkflowPackageDir path in
  (∀ id, flags ds WF010 id ↔ misses_skill disk (resolve2 packageDir "skills") d id)
  ∧ (validateWorkflowSkillReferences disk d packageDir = Valid () ↔ ∀ id, ¬ flags ds WF010 id).
Proof.
  intros Hok Hlint Hpath Hne. cbv zeta. destruct (lint_parts _ _ _ _ Hlint) as (_ & _ & _ & _ & _ & P10 & _).
  set (root := resolve2 (getWorkflowPackageDir path) "skills").
  assert (∀ id, flags ds WF010 id ↔ ∃ issue, issue ∈ iterateSkillRefIssues d (js_set (sk_name <$> (discoverSkills disk root WorkflowSkill).1)) ∧ issue_state issue = id) as Hf.
  { intros id. rewrite P10. unfold checkSkillReferencesAndManifests. rewrite Hpath, bool_decide_eq_false_2 by done. cbv zeta. fold root.
    rewrite flags_app, references_flag. split; [|by right]. intros [(g & (e & -> & _)%list_elem_of_fmap & _ & Hs)|?]; [|done].
    by destruct (buildSkillManifestDiagnostic e). }
  split; [intros id; rewrite Hf; by apply issues_spec|]. unfold validateWorkflowSkillReferences. cbv zeta. fold root. setoid_rewrite Hf.
  destruct (iterateSkillRefIssues _ _) as [|issue issues]; cbn [fmap list_fmap].
  - split; [|done]. by intros _ id (? & ?%elem_of_nil & _).
  - split; [done|]. intros Hno. exfalso. apply (Hno (issue_state issue)). exists issue. split; [left|done].
Qed.

(** ** On a concrete workflow *)

Local Existing Instance name_only.

(** A review that may approve before its cap is looked at; the gate presents a report that
    nobody writes, and the designer asks for a skill that the package lacks. *)
Definition linted_loop : WorkflowDefinition :=
  demo_definition "design"
    [("design", SAgent {| a_description := "agent"; a_persona := GLOBAL_PERSONA; a_prompt := "work"; a_inputs := []; a_outputs := ["plan"];
        a_artifactHandoff := None; a_transitions := [go "review"]; a_fanOutMember := None; a_fanOut := None; a_segment := None;
        a_schedule := None; a_freshSession := None; a_model := None; a_maxVisits := None; a_containerScope := None;
        a_skills := Some (SkillsList ["git"; "charts"]) |});
     ("review", demo_agent [] (Some 2%Z) None
        [on_verdict "approved" "done"; on_guard "isStateVisitLimitReached" "human"; on_verdict "rejected" "design"]);
     ("human", SHumanGate {| h_description := "gate"; h_acceptedEvents := [APPROVE; ABORT]; h_present := Some ["plan"; "report?"];
        h_transitions := [{| g_to := "done"; g_event := APPROVE; g_actions := [] |}; {| g_to := "aborted"; g_event := ABORT; g_actions := [] |}] |});
     ("done", demo_terminal); ("aborted", demo_terminal)].

Definition lint_context : LintContext := {| lc_personaExists := λ _, false; lc_workflowFilePath := Some "/flow/workflow.yaml" |}.

Definition lint_summary (r : result (list Diagnostic)) : option (list (DiagnosticCode * option string)) :=
  match r with Ok ds => Some ((λ g, (dg_code g, dg_stateId g)) <$> ds) | Throw _ => None end.

Lemma linted_loop_flags :
  lint_summary (lintWorkflow two_layers linted_loop lint_context) = Some [(WF004, Some "human"); (WF010, Some "design")].
Proof. by_compute. Qed.

Lemma linted_loop_wf : obj_wf (w_states linted_loop).
Proof. apply (bool_decide_unpack _). by_compute. Qed.

Lemma linted_bm : buildWorkflowMachine linted_loop = Ok (demo_bm linted_loop).
Proof. by_compute. Qed.

Lemma linted_ok : ∃ ds, lintWorkflow two_layers linted_loop lint_context = Ok ds.
Proof.
  pose proof linted_loop_flags as Hl. destruct (lintWorkflow _ _ _) as [ds|]; [by exists ds|done].
Qed.

Definition stray_segmentsb (d : WorkflowDefinition) : bool :=
  forallb (λ kv, match executable kv.2 with
                 | Some x => bool_decide (is_Some (x_fanOut x)) || forallb (known d) (default [] (x_segment x))
                 | None => true
                 end) (w_states d).

Lemma stray_segmentsb_spec d : stray_segmentsb d = true → stray_segments_known d.
Proof.
  unfold stray_segmentsb. rewrite forallb_forall_elem. intros Hall id s x m Hin Hx Hf Hm. specialize (Hall _ Hin). cbn [snd] in Hall.
  rewrite Hx in Hall. apply orb_true_iff in Hall as [[? ?]%bool_decide_eq_true|Hall]; [congruence|].
  rewrite forallb_forall_elem in Hall. specialize (Hall m Hm). by apply includes_spec in Hall.
Qed.

Lemma lint_exact_witness :
  ∃ ds, lintWorkflow two_layers linted_loop lint_context = Ok ds ∧ reports linted_loop ds.
Proof.
  apply (lint_exact two_layers linted_loop lint_context); [exact linted_loop_wf|by_compute|].
  apply stray_segmentsb_spec. by_compute.
Defined.


Lemma lint_agrees_with_start_witness :
  ∃ ds, lintWorkflow two_layers linted_loop lint_context = Ok ds ∧
    (validateWorkflowSkillReferences two_layers linted_loop "/flow" = Valid () ↔ ∀ id, ¬ flags ds WF010 id).
Proof.
  destruct linted_ok as [ds Hds]. exists ds. split; [exact Hds|].
  exact (proj2 (lint_agrees_with_start two_layers linted_loop lint_context "/flow/workflow.yaml" ds two_layers_ok Hds eq_refl ltac:(discriminate))).
Defined.

(** A segment without a fan-out may name a state that does not exist: validation, which
    looks at the segments of fan-outs alone, accepts it, and the linter throws. *)
Definition stray_segment : WorkflowDefinition :=
  demo_definition "work"
    [("work", SDeterministic {| d_description := "check"; d_run := []; d_container := None; d_containerScope := None; d_timeoutMs := None;
        d_resultFile := None; d_fanOut := None; d_segment := Some ["gone"]; d_fanOutMember := None; d_schedule := None;
        d_transitions := [go "done"] |});
     ("done", demo_terminal)].

Lemma stray_segment_throws :
  demo_valid stray_segment = true ∧ is_ok (buildWorkflowMachine stray_segment) ∧
  lintWorkflow two_layers stray_segment lint_context = Throw "Cannot read properties of undefined (reading 'type')".
Proof. split_and!; [by_compute|exists (demo_bm stray_segment); by_compute|by_compute]. Qed.
