(* ===== verification/FanOutProperties.v ===== *)
(** * Properties of fan-out batches

    The barrier, the merge of recorded lanes, and the reconstruction of an interrupted
    batch from the nodes database. *)

From S2P Require Import Prelude JsValue WorkflowTypes LaneTemplate MachineBuilder FanOut FanOutBatch.
From S2P Require Import WorkflowDemo.

(** ** The barrier *)

(** C15. Whatever the lanes of a batch report and in whatever order, an outcome once
    settled never changes, and the first lane that ends blocked or errored settles every
    other lane.  The join of the settled batch has one outcome per lane, in lane order;
    it passes exactly when no lane failed, and otherwise its verdict and its errors are
    those of that first failure alone. *)
Theorem batch_joins_first_failure tokens c stateId segment workers recorded prepared b :
  (∀ i r, recorded i = Some r → er_index r = i) →
  batch_steps (start_batch c stateId segment workers recorded prepared) b →
  (∀ t, bt_drainTrigger b = Some t → batch_settled b)
  ∧ (∀ j l o i snap, bt_lanes b !! j = Some l → ln_outcome l = Some o →
       ∃ l', bt_lanes (observe i snap b) !! j = Some l' ∧ ln_outcome l' = Some o)
  ∧ ∀ first rest, batch_settled b → batch_outcomes b = first :: rest →
    (∀ i o, (first :: rest) !! i = Some o → ro_index o = i)
    ∧ length (first :: rest) = workers
    ∧ let r := joinFanOutBatch tokens c stateId first rest in
      match bt_drainTrigger b with
      | None => di_passed (fo_result r) = true ∧ di_verdict (fo_result r) = Some "recorded"
          ∧ Forall (λ o, ro_status o = Recorded) (first :: rest)
      | Some t => failed_join t r
      end.
Proof.
  intros Hrec Hsteps. pose proof (start_batch_inv c stateId segment workers recorded prepared Hrec) as H0.
  pose proof (batch_steps_inv _ _ H0 Hsteps) as Hb. split; [|split].
  - intros t Ht. destruct (bi_trigger b Hb t Ht) as (_ & _ & Hall).
    apply Forall_forall. intros l [i Hi]%list_elem_of_lookup. by eapply Hall.
  - intros. by eapply observe_settled.
  - intros first rest Hset Hout. split; [|split].
    + intros i o Hi. rewrite <-Hout in Hi. by destruct (outcome_lookup b i o Hb Hset Hi).
    + rewrite <-Hout. rewrite settled_length by done. rewrite (batch_steps_length _ _ Hsteps).
      unfold start_batch. csimpl. by rewrite length_fmap, length_seq.
    + intros r. apply (join_of_batch tokens c stateId b first rest Hb Hset Hout).
Qed.

Definition demo_batch : Batch := start_batch demo_context "workers" ["sample"; "evaluate"] 3 (λ _, None) (λ _, None).

(** Lane 2 records, then lane 0 is blocked, then lane 1 reports too late. *)
Definition demo_drained : Batch :=
  observe 1 (SnapDone "recorded" demo_context)
    (observe 0 (SnapDone "blocked" demo_context) (observe 2 (SnapDone "recorded" demo_context) demo_batch)).

Lemma batch_joins_first_failure_witness :
  ro_status <$> batch_outcomes demo_drained = [Blocked; Drained; Recorded]
  ∧ match batch_outcomes demo_drained, bt_drainTrigger demo_drained with
    | first :: rest, Some t => failed_join t (joinFanOutBatch 7 demo_context "workers" first rest)
    | _, _ => False
    end.
Proof.
  split; [vm_compute; done|].
  pose proof (batch_joins_first_failure 7 demo_context "workers" ["sample"; "evaluate"] 3
    (λ _, None) (λ _, None) demo_drained) as H.
  destruct H as (_ & _ & H); [done|by repeat constructor|].
  destruct (batch_outcomes demo_drained) as [|first rest] eqn:E; [vm_compute in E; done|].
  destruct (H first rest) as (_ & _ & Hj); [|done|].
  - unfold batch_settled. apply (bool_decide_unpack _). vm_compute. done.
  - destruct (bt_drainTrigger demo_drained) eqn:Et; [exact Hj|vm_compute in Et; done].
Defined.

(** ** The merge of recorded lanes *)

(** The value of a key in the merge of one field: the highest lane that has the key wins,
    and the parent is the floor. *)
Definition merged_key {A} (f : WorkflowContext → object A) (parent : WorkflowContext)
    (children : list RoundChildOutcome) (k : string) : option A :=
  match last (omap (λ o, obj_get (f (ro_context o)) k) children) with
  | Some v => Some v
  | None => obj_get (f parent) k
  end.

(** The context of a batch whose lanes all recorded: visits are the parent's, each
    lane that advanced adds its rounds once, each lane's new review notes are appended
    once, and in the keyed fields the highest lane that has a key wins, even over a
    lower lane's newer value for the same key. *)
Theorem recorded_lanes_merge tokens parent children :
  (∀ i o, children !! i = Some o → ro_index o = i) →
  Forall (λ o, obj_wf (c_artifacts (ro_context o)) ∧ obj_wf (c_previousOutputHashes (ro_context o))
               ∧ obj_wf (c_agentConversationsByState (ro_context o))) children →
  let m := mergeRecordedFanOutContext tokens parent children in
  let progress o := Z.max 0 (c_round (ro_context o) - c_round parent)%Z in
  let notes o := drop (length (c_reviewHistory parent)) (c_reviewHistory (ro_context o)) in
  c_visitCounts m = c_visitCounts parent ∧ c_humanPrompt m = None ∧ c_lane m = None
  ∧ c_totalTokens m = tokens
  ∧ c_round m = (c_round parent + foldr Z.add 0 (progress <$> children))%Z
  ∧ c_reviewHistory m = c_reviewHistory parent ++ (children ≫= notes)
  ∧ (∀ k, obj_get (c_artifacts m) k = merged_key c_artifacts parent children k)
  ∧ (∀ k, obj_get (c_previousOutputHashes m) k = merged_key c_previousOutputHashes parent children k)
  ∧ (∀ k, obj_get (c_agentConversationsByState m) k = merged_key c_agentConversationsByState parent children k).
Proof.
  intros Hidx Hwf m progress notes. unfold m, mergeRecordedFanOutContext. cbv zeta.
  rewrite outcomes_sorted by done. csimpl. unfold merged_key.
  split_and!; try done.
  - by rewrite roundDelta_spec.
  - apply mergedReviewHistory_spec.
  - intros k. apply foldl_merge_get. eapply Forall_impl; [exact Hwf|]. by intros o (? & ? & ?).
  - intros k. apply foldl_merge_get. eapply Forall_impl; [exact Hwf|]. by intros o (? & ? & ?).
  - intros k. apply foldl_merge_get. eapply Forall_impl; [exact Hwf|]. by intros o (? & ? & ?).
Qed.

Definition demo_reviewed (c : WorkflowContext) (hash : string) : WorkflowContext :=
  updateContextFromAgentResult c "evaluate"
    (OutAgent {| ai_output := demo_output "rejected"; ai_agentConversationId := "c"; ai_artifacts := [];
       ai_outputHash := hash; ai_responseText := ""; ai_totalTokens := 7 |}).

Definition demo_recorded (i : nat) (c : WorkflowContext) : RoundChildOutcome :=
  {| ro_index := i; ro_status := Recorded; ro_context := c; ro_drainedBy := None |}.

(** Lane 0 reviews again, lane 1 keeps what it inherited. *)
Definition demo_lanes (parent : WorkflowContext) : list RoundChildOutcome :=
  [demo_recorded 0 (demo_reviewed parent "new"); demo_recorded 1 parent].

Lemma recorded_lanes_merge_witness :
  let parent := demo_reviewed demo_context "old" in
  let m := mergeRecordedFanOutContext 9 parent (demo_lanes parent) in
  c_round m = 2%Z ∧ length (c_reviewHistory m) = 2
  ∧ obj_get (c_previousOutputHashes m) "evaluate" = Some "old".
Proof.
  intros parent m.
  destruct (recorded_lanes_merge 9 parent (demo_lanes parent)) as (_ & _ & _ & _ & Hr & Hh & _ & Hp & _).
  - intros i o. destruct i as [|[|i]]; [..|done]; csimpl; intros; by simplify_eq.
  - apply (bool_decide_unpack _). vm_compute. done.
  - split; [|split].
    + unfold m. rewrite Hr. vm_compute. done.
    + unfold m. rewrite Hh. vm_compute. done.
    + unfold m. rewrite Hp. vm_compute. done.
Defined.

(** ** Interrupted batches *)

(** The reconstruction of a batch from the nodes database splits the lanes: every
    lane either has a recorded step, which is its own step of the batch to run, or is
    run, and some lane is always left to run.  A step that the database holds for the
    batch to run is never run again. *)
Theorem reconstruction_splits_lanes runDir workers entries :
  let r := reconstruct runDir workers entries in
  (∀ lane, lane ∈ rc_missingLanes r ↔ lane < workers ∧ recorded_lane r lane = None)
  ∧ (∀ lane recorded, lane < workers → recorded_lane r lane = Some recorded →
       er_index recorded = lane ∧ er_batchIndex recorded = rc_batchIndex r
       ∧ er_stepName recorded = evolveStepName (rc_batchIndex r) lane)
  ∧ (0 < workers → rc_missingLanes r ≠ [])
  ∧ (∀ entry node lane batch, entry ∈ entries → lane < workers →
       node_step entry = Some (node, evolveStepName (rc_batchIndex r) lane, batch, Some lane) →
       lane ∉ rc_missingLanes r).
Proof.
  intros r. pose proof (scan_nodes_inv runDir entries) as Hinv. split; [|split; [|split]].
  - intros lane. apply missing_lanes_exact.
  - intros lane recorded Hlt Hr. unfold r in Hr. rewrite recorded_lane_get in Hr by done.
    destruct (si_step _ Hinv _ _ Hr) as (Hn & Hp & _). rewrite parse_evolveStepName in Hp.
    simplify_eq. repeat split; [done|]. rewrite Hn. done.
  - intros Hw Hnil. destruct (choose_batch_missing (scan_nodes runDir entries) (seq 0 workers))
      as (lane & Hlane & Hnone); [by destruct workers; [lia|]|done|].
    apply elem_of_seq in Hlane.
    assert (lane ∈ rc_missingLanes r) as Hin; [|by rewrite Hnil, elem_of_nil in Hin].
    apply missing_lanes_exact. split; [lia|]. rewrite recorded_lane_get by lia. done.
  - intros entry node lane batch Hin Hlt Hn Hmiss. apply missing_lanes_exact in Hmiss as [_ Hnone].
    rewrite recorded_lane_get in Hnone by done.
    destruct (scan_nodes_complete runDir entries entry node _ batch lane Hin Hn) as [x Hx].
    unfold r in Hx. csimpl in Hx. congruence.
Qed.

(** Lane 1 of the first batch was recorded before the interruption. *)
Definition demo_nodes : object jsvalue :=
  [("0", VObj [("id", VNum (num_of_Z 0)); ("meta_info", VObj [("step_name", VStr "step_0001_lane_1")])])].

Lemma reconstruction_splits_lanes_witness :
  let r := reconstruct ".evolve_runs/main" 2 demo_nodes in
  rc_batchIndex r = 1 ∧ rc_missingLanes r = [0] ∧ rc_missingLanes r ≠ [].
Proof.
  intros r. split; [vm_compute; done|]. split; [vm_compute; done|].
  destruct (reconstruction_splits_lanes ".evolve_runs/main" 2 demo_nodes) as (_ & _ & H & _).
  apply H. lia.
Defined.

(** The name that a lane's step is recorded under parses back to its batch and lane,
    so no two steps share a name, however many batches or lanes there are. *)
Theorem step_name_roundtrip batch lane :
  parse_step_name (evolveStepName batch lane) = Some (batch, Some lane)
  ∧ ∀ batch' lane', evolveStepName batch lane = evolveStepName batch' lane' → batch = batch' ∧ lane = lane'.
Proof.
  split; [apply parse_evolveStepName|]. intros b l H.
  pose proof (parse_evolveStepName batch lane) as H1. rewrite H, parse_evolveStepName in H1. by simplify_eq.
Qed.
