(* ===== verification/AgentProperties.v ===== *)
(** * Properties of agent invocations

    Bounds and bookkeeping of the turns of one invocation, and what its result means
    for the machine of the workflow. *)

From Stdlib Require Import Qcanon.
From S2P Require Import Prelude Numbers JsValue Paths Hashing Budget WorkflowTypes StatusParser MachineBuilder Statechart.
From S2P Require Import WorkflowValidate MachineTheory PromptBuilder Artifacts.
From S2P Require Import AgentTurn WorkflowDemo Demo WorkflowProperties.

(** C17. The turns of an invocation, whatever the agent answers, writes or spends: at most
    seven are sent, and none after the first once the budget is visibly exhausted; the
    log holds every answer once and in order, except those of transient failures; the
    session's start and end are announced once, completion only on success; and an error
    is logged exactly when the upstream provider was not the cause, which is stamped on
    the instance instead. *)
Theorem agent_turns_bounded `{Yaml} `{Runtime} `{FileSystem} `{Collation} `{AgentEnv}
    stateId a context definition artifactDir workspacePath conversation s out :
  executeAgentTurns stateId a context definition artifactDir workspacePath conversation = (s, out) →
  length (ts_sent s) ≤ MAX_TURNS ∧ budgeted (ts_sent s)
  ∧ received (ts_log s) = answered (ts_sent s)
  ∧ ts_events s = [AgentStarted stateId (a_persona a)]
      ++ match out with
         | inl r => [AgentCompleted stateId (a_persona a) (o_verdict (ai_output r))]
         | inr _ => []
         end ++ [AgentSessionEnded stateId]
  ∧ match out with
    | inl r => ai_agentConversationId r = ts_conversation s ∧ existsb is_error (ts_log s) = false
        ∧ ts_quotaExhausted s = false ∧ ts_transientFailure s = false
    | inr rejection => (∃ message, rejection = RejInvocation stateId (ts_conversation s) message)
        ∧ existsb is_error (ts_log s) = negb (ts_quotaExhausted s || ts_transientFailure s)
    end.
Proof.
  unfold executeAgentTurns.
  pose proof (runTurns_spec stateId a context definition artifactDir workspacePath conversation) as Hspec.
  cbv zeta in Hspec. unfold wp in Hspec.
  destruct (runTurns _ _ _ _ _ _ _) as [s' [r|e]]; intros; simplify_eq.
  - destruct Hspec as ([] & _ & _ & Hc). rewrite app_nil_r in ti_log. csimpl. repeat split; try done.
    by rewrite ti_events.
  - destruct Hspec as []. rewrite app_nil_r in ti_log.
    destruct (is_upstream_error e) eqn:Hu; csimpl; rewrite ?received_app, ?app_nil_r.
    + repeat split; try done; [by rewrite ti_events|by eexists|].
      rewrite ti_errors, ti_quota, ti_transient. by destruct e.
    + repeat split; try done; [by rewrite ti_events|by eexists|].
      rewrite existsb_app, ti_errors, ti_quota, ti_transient. by destruct e.
Qed.

Lemma agent_turns_bounded_witness :
  length (ts_sent demo_invocation.1) ≤ MAX_TURNS
  ∧ received (ts_log demo_invocation.1) = answered (ts_sent demo_invocation.1).
Proof.
  destruct (agent_turns_bounded "review" review_state demo_context review_loop "/work/.workflow" "/work"
    "first" demo_invocation.1 demo_invocation.2 (surjective_pairing _)) as (Hb & _ & Hr & _).
  by split.
Defined.

(** Some transition looks at the verdict, or one is unconditional. *)
Definition answers_verdicts (transitions : list AgentTransitionDefinition) : Prop :=
  is_Some (getValidVerdicts transitions)
  ∨ existsb (λ t, negb (guard_set t) && negb (when_set t)) transitions = true.

Lemma output_ok_routable d x a output :
  semantic_issues d = [] → (x, SAgent a) ∈ w_states d → answers_verdicts (a_transitions a) →
  output_ok a output → routable (a_transitions a) (o_verdict output).
Proof.
  intros Hv Hin Hans [Hacc|[Hh ->]]; unfold routable.
  - unfold accepted in Hacc. destruct Hans as [[v Hv']|Hu]; [by rewrite Hv' in Hacc |- *|].
    unfold getValidVerdicts in *. by rewrite Hu.
  - pose proof (validated_handoff d x a Hv Hin Hh) as Hu.
    unfold getValidVerdicts. by rewrite Hu.
Qed.

(** C18. A completed invocation of an agent state of a validated workflow leaves all its
    declared artifacts, and its result moves the machine: the verdict, accepted from the
    agent or from the artifact handoff, enables a transition.  The state's transitions
    must not all be bare guards. *)
Theorem agent_result_routes `{Yaml} `{Runtime} `{FileSystem} `{Collation} `{AgentEnv}
    d bm x a c artifactDir workspacePath conversation s r :
  objects_wf d → validateSemantics d = Valid () → buildWorkflowMachine d = Ok bm →
  (x, SAgent a) ∈ w_states d → a_fanOut a = None → answers_verdicts (a_transitions a) →
  executeAgentTurns x a c d artifactDir workspacePath conversation = (s, inl r) →
  findMissingArtifacts (ae_disk (ts_sent s)) artifactDir a = []
  ∧ ∃ node tc, obj_get (m_states (bm_machine bm)) x = Some node
      ∧ first_enabled (bm_machine bm) c (EvDone x (OutAgent r))
          (transitions_for node true (EvDone x (OutAgent r))) = Ok (Some tc)
      ∧ is_Some (obj_get (m_states (bm_machine bm)) (tc_target tc)).
Proof.
  intros Hwf Hv Hbm Hin Hfan Hans. unfold executeAgentTurns.
  pose proof (runTurns_spec x a c d artifactDir workspacePath conversation) as Hspec.
  cbv zeta in Hspec. unfold wp in Hspec.
  destruct (runTurns _ _ _ _ _ _ _) as [s' [r'|e]]; intros; simplify_eq.
  destruct Hspec as (_ & Hout & Hcomplete & _). split; [done|].
  apply (checked_verdict_routes d bm x a c r Hwf Hv Hbm Hin Hfan).
  by apply (output_ok_routable d x a _ (valid_no_issues d Hv)).
Qed.

(** The result of the demonstration. *)
Definition demo_invoke_result : AgentInvokeResult :=
  match demo_invocation.2 with
  | inl r => r
  | inr _ => {| ai_output := handoff_output; ai_agentConversationId := ""; ai_artifacts := [];
                ai_outputHash := ""; ai_responseText := ""; ai_totalTokens := 0 |}
  end.

Lemma agent_result_routes_witness :
  findMissingArtifacts (ae_disk (ts_sent demo_invocation.1)) "/work/.workflow" review_state = []
  ∧ ∃ node tc, obj_get (m_states (demo_machine review_loop)) "review" = Some node
    ∧ first_enabled (demo_machine review_loop) demo_context (EvDone "review" (OutAgent demo_invoke_result))
        (transitions_for node true (EvDone "review" (OutAgent demo_invoke_result))) = Ok (Some tc)
    ∧ is_Some (obj_get (m_states (demo_machine review_loop)) (tc_target tc)).
Proof.
  apply (agent_result_routes review_loop (demo_bm review_loop) "review" review_state demo_context
    "/work/.workflow" "/work" "first" demo_invocation.1 demo_invoke_result).
  - apply objects_wfb_spec. by_compute.
  - by_compute.
  - apply review_bm.
  - apply (list_elem_of_lookup_2 _ 1). by_compute.
  - by_compute.
  - left. by eexists.
  - by_compute.
Defined.

(** A state that keeps its session resumes the conversation that the previous
    invocation ended with, rotations included, whether it succeeded or failed. *)
Theorem agent_conversation_kept `{Yaml} `{Runtime} `{FileSystem} `{Collation} `{AgentEnv}
    x a c d artifactDir workspacePath conversation s out minted c' :
  a_freshSession a = Some false →
  executeAgentTurns x a c d artifactDir workspacePath conversation = (s, out) →
  invocation_conversation x a
    match out with
    | inl r => updateContextFromAgentResult c' x (OutAgent r)
    | inr rejection => updateContextFromAgentInvocationError c' rejection
    end minted = ts_conversation s.
Proof.
  intros Hfresh Hrun. pose proof (agent_turns_info x a c d artifactDir workspacePath conversation s out Hrun) as Hi.
  unfold invocation_conversation. rewrite bool_decide_eq_true_2 by done.
  destruct out as [r|rejection].
  - csimpl. by rewrite obj_get_set, bool_decide_eq_true_2, Hi.
  - destruct Hi as [message ->]. csimpl. by rewrite obj_get_set, bool_decide_eq_true_2.
Qed.

Definition keeping_state : AgentStateDefinition :=
  {| a_description := ""; a_persona := GLOBAL_PERSONA; a_prompt := "work"; a_inputs := []; a_outputs := [];
     a_artifactHandoff := None; a_transitions := a_transitions review_state; a_fanOutMember := None;
     a_fanOut := None; a_segment := None; a_schedule := None; a_freshSession := Some false; a_model := None;
     a_maxVisits := None; a_containerScope := None; a_skills := None |}.

Lemma agent_conversation_kept_witness :
  let run := executeAgentTurns "review" keeping_state demo_context review_loop "/work/.workflow" "/work" "first" in
  ts_conversation run.1 = "rotated-0" ∧
  invocation_conversation "review" keeping_state
    match run.2 with
    | inl r => updateContextFromAgentResult demo_context "review" (OutAgent r)
    | inr rejection => updateContextFromAgentInvocationError demo_context rejection
    end "minted" = ts_conversation run.1.
Proof.
  intros run. split; [by_compute|].
  by apply (agent_conversation_kept "review" keeping_state demo_context review_loop "/work/.workflow" "/work"
    "first" run.1 run.2 "minted" demo_context); [|apply surjective_pairing].
Defined.
