(* ===== verification/EgressProperties.v ===== *)
(** * Properties of the egress listener for packages

    Which destinations its connections may have, and what its accounts bound. *)

From Stdlib Require Import Ascii ZArith Lia QArith Qcanon.
From S2P Require Import Prelude JsValue Paths Urls Regex JsInt Numbers.
From S2P Require Import EgressAddress EgressLedger.

Local Open Scope Z_scope.
Local Open Scope curtain_scope.

(** ** Destinations *)

Section destinations.
Context `{Net}.

(** A multi-label DNS name, neither local nor a metadata service. *)
Record canonical_hostname (h : string) : Prop := {
  ch_length : (String.length h ≤ 253)%nat;
  ch_name : isIP h = 0;
  ch_ascii : toLowerCase (domainToASCII h) = h;
  ch_multi : (2 ≤ length (split_on dot h))%nat;
  ch_labels : ∀ label, label ∈ split_on dot h → lang DNS_LABEL label ∧ (String.length label ≤ 63)%nat;
  ch_denied : h ∉ DENIED_HOSTS;
  ch_suffix : ∀ suffix, suffix ∈ DENIED_HOST_SUFFIXES → endsWith h suffix = false
}.

Lemma split_on_multi c s : str_includes s (String c "") = true → (2 ≤ length (split_on c s))%nat.
Proof.
  induction s as [|a s IH]; cbn [str_includes String.prefix split_on]; [done|].
  case_bool_decide as E.
  - subst. intros _. cbn. destruct (split_on c s) eqn:Es; [destruct (split_on_not_nil c s Es)|cbn; lia].
  - destruct (ascii_dec c a); [by subst|]. cbn [orb]. intros Hs%IH. destruct (split_on c s); cbn in *; lia.
Qed.

Lemma canonicalize_spec input h :
  canonicalizePackageEgressHostname input = Ok h → h = input ∧ canonical_hostname h.
Proof.
  unfold canonicalizePackageEgressHostname. cbv zeta.
  destruct (_ || containsForbiddenAuthorityCharacter input) eqn:E1; [done|].
  destruct (negb (isIP input =? 0)) eqn:E2; [done|].
  destruct (_ || negb (str_includes _ ".")) eqn:E3; [done|].
  destruct (existsb _ (split_on _ _)) eqn:E4; [done|].
  destruct (_ || existsb _ DENIED_HOST_SUFFIXES) eqn:E5; [done|]. intros [= <-]. bool_hyps.
  match goal with H : toLowerCase _ = _ |- _ => rewrite H in * end. split; [done|]. rewrite !existsb_false_elem in *. constructor; try done.
  - by apply Nat.ltb_ge.
  - by apply split_on_multi.
  - intros label Hl. match goal with H : ∀ x, x ∈ split_on _ _ → _ |- _ => specialize (H label Hl) end.
    bool_hyps. split; [by apply matches_spec|by apply Nat.ltb_ge].
  - match goal with H : includes DENIED_HOSTS _ = false |- _ => by apply bool_decide_eq_false in H end.
Qed.

(** An address that is neither special-purpose nor one of the host's, with the IPv4
    addresses it embeds. *)
Definition admitted_answer (hosts : list string) (nat64 : list ParsedNat64Prefix) (address : string) : Prop :=
  match parseIpv4 address with
  | Some v => v4_admitted hosts v
  | None => ∃ bytes, parseIpv6 address = Some bytes ∧ v6_admitted hosts nat64 (be bytes)
      ∧ ∀ host, host ∈ hosts → parseIpv4 host = None → parseIpv6 host ≠ Some bytes
  end.

Lemma immediate_spec a hosts nat64 :
  Forall (λ p, address_ok (pn_bytes p)) nat64 →
  isPublicImmediateAddress a (identity_keys hosts) nat64 = true → admitted_answer hosts nat64 a.
Proof.
  intros Hn. unfold isPublicImmediateAddress, admitted_answer, addressKey.
  destruct (parseIpv4 a) as [v|] eqn:E4; cbn [fmap option_fmap option_map].
  - destruct (includes _ _) eqn:Hk; [done|]. apply bool_decide_eq_false in Hk.
    assert (Hip : (isIP a =? 4) = true).
    { unfold isIP. pose proof E4 as E4'. unfold parseIpv4 in E4'. by destruct (isIPv4 a). }
    rewrite Hip, isPublicIpv4_spec by by eapply parseIpv4_bound. split; [|done].
    intros host Hin Hp. apply Hk, identity_key_v4. by exists host.
  - destruct (parseIpv6 a) as [bytes|] eqn:E6; [|done]. cbn [fmap option_fmap option_map].
    destruct (includes _ _) eqn:Hk; [done|]. apply bool_decide_eq_false in Hk.
    intros Hp. exists bytes. split; [done|].
    assert (Hpub : ipv6_is_public bytes (identity_keys hosts) nat64 = true) by by destruct (isIP a =? 4).
    split; [apply ipv6_is_public_spec; [by eapply parseIpv6_ok|done..]|].
    intros host Hin Hh4 Hh6. apply Hk. unfold identity_keys. rewrite elem_of_js_set, list_elem_of_omap.
    exists host. unfold addressKey. by rewrite Hh4, Hh6.
Qed.
End destinations.

(** A small instance: an address with a colon is an IPv6 address. *)
#[local] Instance demo_net : Net :=
  {| isIPv6 := λ s, str_includes s ":"; domainToASCII := λ s, s |}.

Lemma normalize_all_spec `{Net} answers l :
  normalize_all answers = Ok l →
  l = (λ a, {| ra_address := toLowerCase (ra_address a); ra_family := ra_family a |}) <$> answers
  ∧ ∀ a, a ∈ answers → isIP (ra_address a) = ra_family a ∧ str_includes (ra_address a) "%" = false.
Proof.
  revert l. induction answers as [|a answers IH]; intros l; cbn [normalize_all].
  { intros [= <-]. split; [done|]. by intros a ?%elem_of_nil. }
  unfold normalizeResolvedAddress. cbv zeta. destruct (_ || str_includes _ _) eqn:E; [done|].
  destruct (normalize_all answers) as [l'|]; [|done]. intros [= <-]. destruct (IH l' eq_refl) as [-> Hall].
  split; [done|]. bool_hyps. intros b [->|Hb]%elem_of_cons; [done|by apply Hall].
Qed.

(** C28. A destination that passes the screening has the host name that was asked for, a
    multi-label lowercase DNS name that is neither an IP literal nor local; its answers are
    those of the resolver, the first selected; and every one of them, not only the selected
    one, is an address outside the special-purpose blocks and not the host's own, where an
    IPv4 address embedded in an IPv6 one (mapped, compatible, NAT64, 6to4, Teredo) is judged
    by the same rule. *)
Theorem egress_destination_public `{Net} hostname answers hosts prefixes r :
  screenPackageEgressDestination hostname answers hosts prefixes = Ok r →
  sd_hostname r = hostname ∧ canonical_hostname hostname
  ∧ ra_address <$> sd_answers r = toLowerCase ∘ ra_address <$> answers
  ∧ head (sd_answers r) = Some (sd_selected r)
  ∧ ∃ nat64, parseNat64Prefixes prefixes = Ok nat64
      ∧ ∀ a, a ∈ sd_answers r → admitted_answer hosts nat64 (ra_address a).
Proof.
  unfold screenPackageEgressDestination.
  destruct (canonicalizePackageEgressHostname hostname) as [h|] eqn:Hh; [|done].
  apply canonicalize_spec in Hh as [-> Hh]. case_bool_decide; [done|].
  destruct (parseNat64Prefixes prefixes) as [nat64|] eqn:Hn; [|done].
  destruct (normalize_all answers) as [l|] eqn:Ha; [|done].
  apply normalize_all_spec in Ha as [Hl _].
  destruct (List.find _ l) eqn:Hf; [done|]. rewrite find_none_elem in Hf.
  destruct l as [|selected l']; [done|]. intros [= <-]. cbn [sd_hostname sd_answers sd_selected].
  split; [done|]. split; [done|]. split; [by rewrite Hl, <-list_fmap_compose|]. split; [done|].
  exists nat64. split; [done|]. intros a Hin. specialize (Hf a Hin). apply negb_false_iff in Hf.
  apply immediate_spec; [by eapply parseNat64Prefixes_ok|done].
Qed.

Lemma egress_destination_public_witness :
  ∃ r, screenPackageEgressDestination "registry.npmjs.org"
         [{| ra_address := "104.16.0.35"; ra_family := 4 |}; {| ra_address := "2606:4700::6810:23"; ra_family := 6 |}]
         ["10.0.0.1"] [] = Ok r
    ∧ admitted_answer ["10.0.0.1"] [] "2606:4700::6810:23".
Proof.
  eexists. split; [vm_compute; reflexivity|].
  edestruct (egress_destination_public "registry.npmjs.org"
    [{| ra_address := "104.16.0.35"; ra_family := 4 |}; {| ra_address := "2606:4700::6810:23"; ra_family := 6 |}]
    ["10.0.0.1"] []) as (_ & _ & _ & _ & nat64 & Hn & Hall); [vm_compute; reflexivity|].
  injection Hn as <-. apply (Hall {| ra_address := "2606:4700::6810:23"; ra_family := 6 |}). by right; left.
Defined.

(** NAT64 discovery and screening agree: the prefixes that the answers for
    [ipv4only.arpa] give are accepted by the screening, and every IPv6 answer lies in one of
    them as the RFC 6052 form of 192.0.0.170 or 192.0.0.171; so an address behind a
    discovered translator is judged by the IPv4 address it stands for. *)
Theorem nat64_discovery_screened answers prefixes :
  discoverNat64Prefixes answers = Ok prefixes →
  ∃ nat64, parseNat64Prefixes prefixes = Ok nat64
    ∧ ∀ a, a ∈ answers → ra_family a ≠ 4 → ∃ bytes p, parseIpv6 (ra_address a) = Some bytes ∧ p ∈ nat64
        ∧ in_prefix (be bytes) (be (pn_bytes p)) (bits_of (pn_length p))
        ∧ rfc6052_wf (be bytes) (pn_length p)
        ∧ rfc6052_v4 (be bytes) (pn_length p) ∈ [quad 192 0 0 170; quad 192 0 0 171].
Proof.
  intros Hd. destruct (discover_loop_spec answers [] prefixes) as (_ & Hfrom & Hto); [by intros ?? ?%elem_of_nil|done|].
  destruct (parseNat64Prefixes_all prefixes) as (nat64 & Hp & Hq).
  { intros p [Hp|(a & bytes & _ & Hb & Hc)]%Hfrom; [by apply elem_of_nil in Hp|].
    destruct (candidate_parsed bytes p) as (q & Hq & _); [by eapply parseIpv6_ok|done|]. by exists q. }
  exists nat64. split; [done|]. intros a Ha Hf. destruct (Hto a Ha Hf) as (bytes & c & Hb & Hc & Hin).
  destruct (candidate_parsed bytes c) as (q & Hpq & Hlen & Hpre & Hwf & Hv);
    [by eapply parseIpv6_ok|rewrite Hc; by left|].
  exists bytes, q. split; [done|]. split; [by eapply Hq|]. rewrite Hlen. split; [done|]. split; [done|].
  destruct Hv as [->| ->]; [by left|by right; left].
Qed.

Lemma nat64_discovery_screened_witness :
  ∃ prefixes nat64, discoverNat64Prefixes [{| ra_address := "64:ff9b::c000:aa"; ra_family := 6 |}] = Ok prefixes
    ∧ parseNat64Prefixes prefixes = Ok nat64.
Proof.
  eexists. edestruct (nat64_discovery_screened [{| ra_address := "64:ff9b::c000:aa"; ra_family := 6 |}])
    as (nat64 & Hn & _); [vm_compute; reflexivity|].
  exists nat64. split; [vm_compute; reflexivity|exact Hn].
Defined.

(** ** Accounts *)

(** Nothing is active once every lease is released. *)
Lemma released_tally (f : UpstreamLease → Z) ups :
  (∀ u, up_released u = true → f u = 0) → Forall (λ u, up_released u = true) ups → tally f ups = 0.
Proof.
  intros Hf Hr. rewrite (tally_ext _ (λ _, 0)); [apply tally_zero|].
  intros u Hu. by apply Hf, (proj1 (Forall_forall _ _) Hr).
Qed.

Lemma released_idle limits g :
  ledger_ok limits g →
  Forall (λ c, cl_active c = false) (lg_clients g) → Forall (λ u, up_released u = true) (lg_upstreams g) →
  lg_activeClients g = 0 ∧ lg_activeDirect g = 0 ∧ lg_activeDerived g = 0.
Proof.
  intros [] Hc Hu. rewrite lo_clients, lo_direct, lo_derived.
  assert (Hl : ∀ kind, tally (open_lease kind) (lg_upstreams g) = 0).
  { intros kind. apply released_tally; [|done]. intros u Hr. unfold open_lease. by rewrite Hr. }
  rewrite !Hl. split; [|done]. rewrite (tally_ext _ (λ _, 0)); [apply tally_zero|].
  intros c [i Hi]%list_elem_of_lookup. destruct (lo_client i c Hi) as [Hup Hcnt _ _]. unfold counted.
  assert (Hz : tally (open_for i) (lg_upstreams g) = 0).
  { apply released_tally; [|done]. intros u Hr. unfold open_for. by rewrite Hr. }
  by rewrite Hcnt, Hup, Hz, (proj1 (Forall_lookup _ _) Hc i c Hi).
Qed.

(** In every history of a ledger, whatever is admitted, charged and released: no more
    clients or upstreams are active than the limits allow, nor has one client derived more
    upstreams than its share; the attempts that were paid for stay below the ceiling; the
    session's bytes are the sum of its clients' and its attempts that of both kinds; and the
    counters are those of the leases, so that none leaks: with every lease released, nothing
    is active. *)
Theorem egress_ledger_bounds limits start g0 ops g outcomes :
  createPackageEgressLedger limits start = Ok g0 → run_ops limits ops g0 = (g, outcomes) →
  lg_activeClients g ≤ maxConcurrentClients limits
  ∧ lg_activeDirect g ≤ maxConcurrentClients limits
  ∧ lg_activeDerived g ≤ maxConcurrentDerived limits
  ∧ lg_activeDirect g + lg_activeDerived g ≤ maxConcurrentUpstreams limits
  ∧ Forall (λ c, cl_derivedAttempts c ≤ maxDerivedPerClient limits) (lg_clients g)
  ∧ paid_count ops outcomes ≤ Z.max 0 (maxAttempts limits)
  ∧ lg_transferredBytes g = tally cl_bytes (lg_clients g)
  ∧ lg_attempts g = lg_clientAttempts g + lg_derivedAttempts g
  ∧ lg_activeDirect g = tally (open_lease Direct) (lg_upstreams g)
  ∧ lg_activeDerived g = tally (open_lease Derived) (lg_upstreams g)
  ∧ (Forall (λ c, cl_active c = false) (lg_clients g) → Forall (λ u, up_released u = true) (lg_upstreams g) →
     lg_activeClients g = 0 ∧ lg_activeDirect g = 0 ∧ lg_activeDerived g = 0).
Proof.
  intros Hc Hrun. destruct (create_ok _ _ _ Hc) as [Hl Hg0].
  pose proof (run_ops_ok limits Hl ops g0 Hg0) as Hg. pose proof (paid_attempts limits ops g0) as Hpaid.
  rewrite Hrun in Hg, Hpaid. cbn [fst snd] in Hg, Hpaid.
  assert (lg_attempts g0 = 0).
  { unfold createPackageEgressLedger in Hc. destruct (validateLimits limits); by simplify_eq/=. }
  pose proof (li_combined _ Hl). pose proof (released_idle _ _ Hg) as Hidle. destruct Hg.
  repeat split; try done; try lia; try (by apply Hidle).
  apply Forall_lookup. intros i c Hi. by destruct (lo_client i c Hi) as [_ _ [_ ?] _].
Qed.

Lemma egress_ledger_bounds_witness :
  ∃ g0, createPackageEgressLedger DEFAULT_PACKAGE_EGRESS_LIMITS (qc_of_Z 0) = Ok g0
    ∧ let r := run_ops DEFAULT_PACKAGE_EGRESS_LIMITS
                 [(qc_of_Z 1, AdmitClient); (qc_of_Z 2, AdmitUpstream 0 Derived); (qc_of_Z 3, ReleaseClient 0)] g0 in
      lg_activeClients r.1 ≤ 16 ∧ r.2 = [Leased 0; Leased 0; Done].
Proof.
  eexists. split; [vm_compute; reflexivity|]. cbv zeta. split; [|vm_compute; reflexivity].
  edestruct (egress_ledger_bounds DEFAULT_PACKAGE_EGRESS_LIMITS (qc_of_Z 0)) as [Hb _];
    [vm_compute; reflexivity|apply surjective_pairing|exact Hb].
Defined.

(** The rate of attempts: whatever happened before, over any stretch of time the attempts
    that are let through, by clients and derived ones together, number at most the burst
    and what the rate earns in that time. *)
Theorem egress_rate_bounded limits start g0 before t ops u :
  createPackageEgressLedger limits start = Ok g0 → clocked start before t → clocked t ops u →
  let g := (run_ops limits before g0).1 in
  (qc_of_Z (paid_count ops (run_ops limits ops g).2)
   <= qc_of_Z (attemptBurst limits) + (u - t) / qc_of_Z 1000 * attemptRefillPerSecond limits)%Qc.
Proof.
  intros Hc Hbefore Hops g. destruct (create_ok _ _ _ Hc) as [Hl Hg0].
  assert (Hstart : lg_lastRefill g0 = start).
  { unfold createPackageEgressLedger in Hc. destruct (validateLimits limits); by simplify_eq/=. }
  assert (Hlast : (lg_lastRefill g <= t)%Qc).
  { apply (refilled_by limits before g0 start); [rewrite Hstart; apply Qcle_refl|done]. }
  pose proof (paid_bounded limits Hl ops g t u (run_ops_ok limits Hl before g0 Hg0) Hlast Hops) as Hp.
  eapply Qcle_trans; [exact Hp|]. fold (earned limits (u - t)).
  apply Qcplus_le_compat; [apply available_burst|apply Qcle_refl].
Qed.

Lemma egress_rate_bounded_witness :
  ∃ g0, createPackageEgressLedger DEFAULT_PACKAGE_EGRESS_LIMITS (qc_of_Z 0) = Ok g0
    ∧ (qc_of_Z (paid_count [(qc_of_Z 1, AdmitClient)]
         (run_ops DEFAULT_PACKAGE_EGRESS_LIMITS [(qc_of_Z 1, AdmitClient)] g0).2) <= qc_of_Z 122)%Qc.
Proof.
  eexists. split; [vm_compute; reflexivity|].
  eapply Qcle_trans; [apply (egress_rate_bounded DEFAULT_PACKAGE_EGRESS_LIMITS (qc_of_Z 0) _ []
    (qc_of_Z 0) [(qc_of_Z 1, AdmitClient)] (qc_of_Z 1000))|].
  - vm_compute; reflexivity.
  - by vm_compute.
  - by vm_compute.
  - by vm_compute.
Defined.
