(* ===== verification/UriText.v ===== *)
(** * URLs and HTTP texts as the proxies read them

    The parts of the WHATWG [URL] class that the proxies use are a parameter, [WebUrl];
    [decodeURIComponent] and the header helpers of docker/hop-by-hop-headers.ts and
    docker/egress-forwarding.ts are definitions.  Strings are UTF-8 bytes, and the
    components of a parsed URL are ASCII. *)

From Stdlib Require Import Ascii ZArith.
From S2P Require Import Prelude JsValue Paths Urls Regex.

Local Open Scope curtain_scope.

Class WebUrl := {
  weburl : Type;
  parse_url : string → option weburl;              (** [new URL(s)], [None] when it throws *)
  resolve_url : string → string → option weburl;   (** [new URL(s, base)] *)
  wu_protocol : weburl → string;
  wu_username : weburl → string;
  wu_password : weburl → string;
  wu_hostname : weburl → string;
  wu_port : weburl → string;                       (** empty for the default port *)
  wu_pathname : weburl → string;
  wu_search : weburl → string;
  wu_hash : weburl → string
}.

(** ** Text helpers *)

Definition slash : ascii := ascii_of_nat 47.

Definition ascii_upper (a : ascii) : ascii :=
  let n := nat_of_ascii a in
  if ((97 <=? n) && (n <=? 122))%nat then ascii_of_nat (n - 32) else a.

Fixpoint toUpperCase (s : string) : string :=
  match s with "" => "" | String a s => String (ascii_upper a) (toUpperCase s) end.

Definition strip_prefix (p s : string) : option string :=
  if startsWith s p then Some (str_drop (String.length p) s) else None.

Definition strip_suffix (p s : string) : option string :=
  if endsWith s p then Some (str_take (String.length s - String.length p) s) else None.

(** The text around the last occurrence of a character. *)
Fixpoint split_last (c : ascii) (s : string) : option (string * string) :=
  match s with
  | "" => None
  | String a s' =>
      match split_last c s' with
      | Some (before, after) => Some (String a before, after)
      | None => if a =? c then Some ("", s') else None
      end
  end.

(** [.] of a regular expression, among the ASCII characters. *)
Definition is_dot (a : ascii) : bool := negb (nat_of_ascii a =? 10) && negb (nat_of_ascii a =? 13).
Definition Dot : regex := Chr is_dot.

(** ** [decodeURIComponent] *)

Definition uri_hex (a : ascii) : option nat :=
  let n := nat_of_ascii a in
  if in_range 48 57 a then Some (n - 48)
  else if in_range 97 102 a then Some (n - 87)
  else if in_range 65 70 a then Some (n - 55)
  else None.

Inductive uri_token := Plain (a : ascii) | Escaped (byte : nat).

Fixpoint uri_tokens (s : string) : option (list uri_token) :=
  match s with
  | "" => Some []
  | String c s' =>
      if c =? "%"%char then
        match s' with
        | String a (String b rest) =>
            match uri_hex a, uri_hex b with
            | Some h, Some l => cons (Escaped (h * 16 + l)) <$> uri_tokens rest
            | _, _ => None
            end
        | _ => None
        end
      else cons (Plain c) <$> uri_tokens s'
  end.

(** How many continuation bytes follow a leading byte. *)
Definition utf8_more (byte : nat) : option nat :=
  if in_range 192 223 (ascii_of_nat byte) then Some 1
  else if in_range 224 239 (ascii_of_nat byte) then Some 2
  else if in_range 240 247 (ascii_of_nat byte) then Some 3
  else None.

Definition utf8_point (bytes : list nat) : Z :=
  match bytes with
  | [] => 0
  | b :: more =>
      foldl (λ n c, n * 64 + (Z.of_nat c - 128)) 
        (Z.of_nat b - match length more with 1%nat => 192 | 2%nat => 224 | _ => 240 end) more
  end%Z.

(** Neither overlong nor a surrogate nor beyond the last code point. *)
Definition utf8_valid (bytes : list nat) : bool :=
  let v := utf8_point bytes in
  match length bytes with
  | 2%nat => (128 <=? v)
  | 3%nat => (2048 <=? v) && negb ((55296 <=? v) && (v <=? 57343))
  | _ => (65536 <=? v) && (v <=? 1114111)
  end%Z.

Definition bytes_text (bytes : list nat) (tail : string) : string :=
  foldr (λ b s, String (ascii_of_nat b) s) tail bytes.

(** [pending] are the bytes of an unfinished code point, [need] the ones it lacks. *)
Fixpoint decode_tokens (pending : list nat) (need : nat) (tokens : list uri_token) : option string :=
  match tokens, need with
  | [], O => Some ""
  | [], S _ => None
  | Plain a :: tokens, O => String a <$> decode_tokens [] 0 tokens
  | Plain _ :: _, S _ => None
  | Escaped b :: tokens, O =>
      if (b <? 128)%nat then String (ascii_of_nat b) <$> decode_tokens [] 0 tokens
      else match utf8_more b with
           | None => None
           | Some n => decode_tokens [b] n tokens
           end
  | Escaped b :: tokens, S n =>
      if in_range 128 191 (ascii_of_nat b) then
        let bytes := pending ++ [b] in
        match n with
        | O => if utf8_valid bytes then bytes_text bytes <$> decode_tokens [] 0 tokens else None
        | S _ => decode_tokens bytes n tokens
        end
      else None
  end.

(** [None]: the call throws a [URIError]. *)
Definition decodeURIComponent (s : string) : option string := uri_tokens s ≫= decode_tokens [] 0.

(** ** Headers *)

Inductive HeaderValue := HOne (s : string) | HMany (l : list string).
#[export] Instance HeaderValue_eq_dec : EqDecision HeaderValue.
Proof. solve_decision. Defined.

(** Request and response headers, [None] for [undefined]. *)
Abbreviation HttpHeaders := (object (option HeaderValue)).

Definition header_get (headers : HttpHeaders) (name : string) : option HeaderValue :=
  default None (obj_get headers name).

Definition header_values (value : HeaderValue) : list string :=
  match value with HOne s => [s] | HMany l => l end.

Definition HOP_BY_HOP_HEADERS : list string :=
  ["connection"; "keep-alive"; "proxy-authenticate"; "proxy-authorization"; "proxy-connection"; "te";
   "trailer"; "transfer-encoding"; "upgrade"].

Definition HOP_BY_HOP_RESPONSE_HEADERS : list string := HOP_BY_HOP_HEADERS ++ ["set-cookie"].

Definition connectionNominatedHeaderNames (value : option HeaderValue) : list string :=
  let values := match value with None => [] | Some v => header_values v end in
  js_set (filter (λ name, name ≠ "")
            ((λ token, toLowerCase (str_trim token)) <$> (values ≫= split_on ","%char))).

Definition firstHeader (value : option HeaderValue) : option string :=
  match value with
  | None => None
  | Some (HOne s) => Some s
  | Some (HMany l) => head l
  end.

Definition sanitizeResponseHeaders (headers : HttpHeaders) : HttpHeaders :=
  let hopByHop := HOP_BY_HOP_RESPONSE_HEADERS
                  ++ connectionNominatedHeaderNames (header_get headers "connection") in
  filter (λ e, is_Some e.2 ∧ toLowerCase e.1 ∉ hopByHop) headers.

(** ** Lemmas *)

(** Tokens of a text and of what follows it: its last escape is not cut. *)
Lemma uri_tokens_app s t l : uri_tokens s = Some l → uri_tokens (s +:+ t) = app l <$> uri_tokens t.
Proof.
  remember (String.length s) as n eqn:Hn. revert s l Hn.
  induction (lt_wf n) as [n _ IH]. intros [|c s] l -> H; [injection H as <-; change (""%string +:+ t) with t; by destruct (uri_tokens t)|].
  rewrite str_app_cons. cbn [uri_tokens] in *. destruct (c =? "%"%char) eqn:Hc.
  - destruct s as [|a [|b s]]; [done..|]. rewrite !str_app_cons.
    destruct (uri_hex a), (uri_hex b); try done. apply fmap_Some in H as (l' & H & ->).
    rewrite (IH (String.length s) ltac:(cbn; lia) s l' eq_refl H). by destruct (uri_tokens t).
  - apply fmap_Some in H as (l' & H & ->). rewrite (IH (String.length s) ltac:(cbn; lia) s l' eq_refl H). by destruct (uri_tokens t).
Qed.

(** A dot is not part of an escape. *)
Lemma uri_tokens_dot s t l : uri_tokens (s +:+ String "." t) = Some l → is_Some (uri_tokens s).
Proof.
  remember (String.length s) as n eqn:Hn. revert s l Hn.
  induction (lt_wf n) as [n _ IH]. intros [|c s] l -> H; [done|].
  rewrite str_app_cons in H. cbn [uri_tokens] in *. destruct (c =? "%"%char) eqn:Hc.
  - destruct s as [|a [|b s]]; rewrite ?str_app_cons in H.
    + change (""%string +:+ ?r) with r in H. destruct t; cbn in H; done.
    + change (""%string +:+ ?r) with r in H. cbn in H. by destruct (uri_hex a).
    + destruct (uri_hex a), (uri_hex b); try done. apply fmap_Some in H as (l' & H & ->).
      destruct (IH (String.length s) ltac:(cbn; lia) s l' eq_refl H) as [l'' ->]. done.
  - apply fmap_Some in H as (l' & H & ->). destruct (IH (String.length s) ltac:(cbn; lia) s l' eq_refl H) as [l'' ->]. done.
Qed.

Lemma bytes_text_app bytes s t : bytes_text bytes (s +:+ t) = bytes_text bytes s +:+ t.
Proof. induction bytes as [|b bytes IH]; [done|]. unfold bytes_text in *. cbn [foldr]. by rewrite str_app_cons, IH. Qed.

Lemma decode_tokens_app pending need l m u :
  decode_tokens pending need l = Some u → decode_tokens pending need (l ++ m) = String.app u <$> decode_tokens [] 0 m.
Proof.
  revert pending need u. induction l as [|[a|b] l IH]; intros pending [|need] u H; cbn [app decode_tokens] in *; try done.
  - injection H as <-. assert (decode_tokens pending 0 m = decode_tokens [] 0 m) as -> by by destruct m as [|[]].
    by destruct (decode_tokens [] 0 m).
  - apply fmap_Some in H as (v & H & ->). rewrite (IH _ _ _ H). by destruct (decode_tokens [] 0 m).
  - destruct (b <? 128)%nat; [|destruct (utf8_more b); [by apply IH|done]].
    apply fmap_Some in H as (v & H & ->). rewrite (IH _ _ _ H). by destruct (decode_tokens [] 0 m).
  - destruct (in_range _ _ _); [|done]. destruct need; [|by apply IH]. destruct (utf8_valid _); [|done].
    apply fmap_Some in H as (v & H & ->). rewrite (IH _ _ _ H). destruct (decode_tokens [] 0 m); cbn; [|done].
    by rewrite bytes_text_app.
Qed.

Lemma decodeURIComponent_app s t u v :
  decodeURIComponent s = Some u → decodeURIComponent t = Some v → decodeURIComponent (s +:+ t) = Some (u +:+ v).
Proof.
  unfold decodeURIComponent. intros (l & Hl & Hu)%bind_Some (m & Hm & Hv)%bind_Some.
  rewrite (uri_tokens_app _ _ _ Hl), Hm. cbn. by rewrite (decode_tokens_app _ _ _ _ _ Hu), Hv.
Qed.

Lemma strip_prefix_spec p s t : strip_prefix p s = Some t ↔ s = p +:+ t.
Proof.
  unfold strip_prefix. destruct (startsWith s p) eqn:E.
  - apply startsWith_spec in E as [u ->]. rewrite str_drop_app. split; [by intros [= ->]|].
    intros H. f_equal. by apply (inj (String.app p)).
  - split; [done|]. intros ->. by rewrite startsWith_app in E.
Qed.

Lemma str_app_cancel_r s s' t : s +:+ t = s' +:+ t → s = s'.
Proof.
  revert s'. induction s as [|a s IH]; intros [|a' s']; rewrite ?str_app_cons; [done| | |].
  - intros H. apply (f_equal String.length) in H. change (""%string +:+ t) with t in H.
    cbn [String.length] in H. rewrite str_length_app in H. lia.
  - intros H. apply (f_equal String.length) in H. change (""%string +:+ t) with t in H.
    cbn [String.length] in H. rewrite str_length_app in H. lia.
  - intros [= -> H]. f_equal. by apply IH.
Qed.

Lemma strip_suffix_spec p s t : strip_suffix p s = Some t ↔ s = t +:+ p.
Proof.
  unfold strip_suffix. destruct (endsWith s p) eqn:E.
  - apply endsWith_spec in E as [u ->]. rewrite str_length_app.
    replace (String.length u + String.length p - String.length p) with (String.length u) by lia.
    rewrite str_take_app. split; [by intros [= ->]|]. intros H. f_equal. by apply str_app_cancel_r in H.
  - split; [done|]. intros ->. assert (endsWith (t +:+ p) p = true) by (apply endsWith_spec; eauto). congruence.
Qed.

Lemma decode_tokens_plain pending need l a m u :
  decode_tokens pending need (l ++ Plain a :: m) = Some u → is_Some (decode_tokens pending need l).
Proof.
  revert pending need u. induction l as [|[b|b] l IH]; intros pending [|need] u H; cbn [app decode_tokens] in *; try done.
  - apply fmap_Some in H as (v & H & ->). by destruct (IH _ _ _ H) as [? ->].
  - destruct (b <? 128)%nat; [|by destruct (utf8_more b); [eapply IH|]].
    apply fmap_Some in H as (v & H & ->). by destruct (IH _ _ _ H) as [? ->].
  - destruct (in_range _ _ _); [|done]. destruct need; [|by eapply IH]. destruct (utf8_valid _); [|done].
    apply fmap_Some in H as (v & H & ->). by destruct (IH _ _ _ H) as [? ->].
Qed.

Lemma decode_tokens_nil pending need l : decode_tokens pending need l = Some "" → l = [].
Proof.
  revert pending need. induction l as [|[b|b] l IH]; intros pending [|need] H; cbn [decode_tokens] in *; try done.
  - by apply fmap_Some in H as (v & _ & ?).
  - destruct (b <? 128)%nat; [by apply fmap_Some in H as (v & _ & ?)|]. destruct (utf8_more b) as [n|] eqn:Hn; [|done].
    pose proof (IH _ _ H) as ->. destruct n; [|done]. unfold utf8_more in Hn. by repeat case_match.
  - destruct (in_range _ _ _); [|done]. destruct need; [|by pose proof (IH _ _ H) as ->]. destruct (utf8_valid _); [|done].
    apply fmap_Some in H as (v & _ & H). by destruct pending.
Qed.

Lemma uri_tokens_nil s : uri_tokens s = Some [] → s = "".
Proof.
  destruct s as [|c s]; [done|]. cbn [uri_tokens]. destruct (c =? "%"%char).
  - destruct s as [|a [|b s]]; [done..|]. destruct (uri_hex a), (uri_hex b); try done. by intros (? & _ & ?)%fmap_Some.
  - by intros (? & _ & ?)%fmap_Some.
Qed.

Lemma str_app_eq_app s t s' t' :
  s +:+ t = s' +:+ t' → (∃ u, s = s' +:+ u ∧ t' = u +:+ t) ∨ ∃ u, s' = s +:+ u ∧ t = u +:+ t'.
Proof.
  revert s'. induction s as [|a s IH]; intros s' H; [by right; exists s'|].
  destruct s' as [|a' s']; [left; by exists (String a s)|]. rewrite !str_app_cons in H. injection H as <- H.
  destruct (IH _ H) as [(u & -> & ->)|(u & -> & ->)]; [left|right]; exists u; by rewrite str_app_cons.
Qed.

(** An escaped spelling of [.deb] does not end in it. *)
Lemma escaped_deb_hidden base enc :
  decodeURIComponent enc = Some ".deb" → enc ≠ ".deb" → endsWith (base +:+ enc) ".deb" = false.
Proof.
  intros Hd Hne. apply not_true_iff_false. intros (t & Heq)%endsWith_spec.
  apply str_app_eq_app in Heq as [(u & _ & Heq)|(u & _ & ->)].
  - do 4 (destruct u as [|? u]; [change (""%string +:+ enc) with enc in Heq; by subst|]; rewrite str_app_cons in Heq; injection Heq as <- Heq). destruct u; [change (""%string +:+ enc) with enc in Heq; by subst|done].
  - apply bind_Some in Hd as (l & Hl & Hd). destruct (uri_tokens_dot _ _ _ Hl) as [l1 Hl1].
    rewrite (uri_tokens_app _ _ _ Hl1) in Hl. injection Hl as <-.
    destruct (decode_tokens_plain _ _ _ _ _ _ Hd) as [v Hv]. rewrite (decode_tokens_app _ _ _ _ _ Hv) in Hd.
    injection Hd as Hd. change ".deb" with (""%string +:+ ".deb") in Hd at 2. apply str_app_cancel_r in Hd as ->.
    apply decode_tokens_nil in Hv as ->. apply uri_tokens_nil in Hl1 as ->. by destruct Hne.
Qed.

Lemma split_last_spec c s before after :
  split_last c s = Some (before, after) ↔ s = before +:+ String c after ∧ c ∉ chars after.
Proof.
  revert before after. induction s as [|a s IH]; intros before after; cbn [split_last].
  { split; [done|]. intros [H _]. by destruct before. }
  destruct (split_last c s) as [[b f]|] eqn:E.
  - destruct (proj1 (IH b f) eq_refl) as [Hs Hf]. split.
    + intros [= <- <-]. by rewrite Hs, str_app_cons.
    + intros [H Hn]. destruct before as [|a' before].
      * change (""%string +:+ String c after) with (String c after) in H. injection H as _ <-.
        exfalso. apply Hn. rewrite Hs, chars_app. set_solver.
      * rewrite str_app_cons in H. injection H as <- Ht.
        assert (Some (b, f) = Some (before, after)) as [= -> ->] by (by apply IH). done.
  - assert (Hno : c ∉ chars s).
    { clear - E. induction s as [|x s IHs]; [apply not_elem_of_nil|]. cbn [split_last] in E.
      destruct (split_last c s) as [[]|]; [done|]. case_bool_decide; [done|].
      change (chars (String x s)) with (x :: chars s). apply not_elem_of_cons. split; [done|by apply IHs]. }
    case_bool_decide as Ha.
    + subst. split.
      * intros [= <- <-]. done.
      * intros [H Hn]. destruct before as [|a' before].
        { change (""%string +:+ String c after) with (String c after) in H. by injection H as ->. }
        rewrite str_app_cons in H. injection H as <- ->. exfalso. apply Hno. 
        rewrite chars_app. set_solver.
    + split; [done|]. intros [H Hn]. destruct before as [|a' before].
      * change (""%string +:+ String c after) with (String c after) in H. injection H as <- _. done.
      * rewrite str_app_cons in H. injection H as <- ->. exfalso. apply Hno. 
        rewrite chars_app. set_solver.
Qed.
