(* ===== verification/RegistryEgress.v ===== *)
(** * Which registry requests a workload may make

    Models src/docker/registry-egress-policy.ts with src/zod-helpers.ts and
    docker/egress-header-policy.ts: the manifest of reviewed origins and its
    validation, the classification of a request as one pull operation, header
    admission, and the authorisation of redirects.  Loading the manifest from disk
    is an input. *)

From Stdlib Require Import Ascii ZArith Lia.
From S2P Require Import Prelude JsValue Paths Urls Roles Regex EgressAddress UriText.

Local Open Scope Z_scope.
Local Open Scope curtain_scope.

(** ** The manifest *)

(** [RegistryPullOperation] *)
Inductive RegistryPullOperation := ApiVersion | TokenFetch | ManifestPull | BlobPull.
#[export] Instance RegistryPullOperation_eq_dec : EqDecision RegistryPullOperation.
Proof. solve_decision. Defined.

Inductive RejectedRegistryOperation := Push | Delete | CatalogEnumeration | TagsEnumeration | UnknownOperation.
#[export] Instance RejectedRegistryOperation_eq_dec : EqDecision RejectedRegistryOperation.
Proof. solve_decision. Defined.

Definition operation_name (o : RegistryPullOperation) : string :=
  match o with
  | ApiVersion => "api-version" | TokenFetch => "token"
  | ManifestPull => "manifest-pull" | BlobPull => "blob-pull"
  end.

Definition rejected_name (o : RejectedRegistryOperation) : string :=
  match o with
  | Push => "push" | Delete => "delete" | CatalogEnumeration => "catalog-enumeration"
  | TagsEnumeration => "tags-enumeration" | UnknownOperation => "unknown"
  end.

Definition CONTENT_OPERATIONS : list RegistryPullOperation := [ManifestPull; BlobPull].

Record RegistryDestination := { rd_protocol : string; rd_hostname : string; rd_port : Z }.
#[export] Instance RegistryDestination_eq_dec : EqDecision RegistryDestination.
Proof. solve_decision. Defined.

Inductive TokenPath := TokenExact (value : string) | TokenPrefix (value : string).
Definition token_value (p : TokenPath) : string := match p with TokenExact v | TokenPrefix v => v end.

Record RegistryEgressOrigin := {
  og_id : string;
  og_destination : RegistryDestination;
  og_operations : list RegistryPullOperation;
  og_tokenPaths : option (list TokenPath);
  og_maxBytes : Z;
  og_maxDurationMs : Z;
  og_maxRedirectHops : Z;
  og_allow : list string                      (** [requestHeaders.allow] *)
}.

Record RegistryEgressManifest := {
  mf_schemaVersion : Z;
  mf_policyId : string;
  mf_frozen : bool;                           (** [status === 'frozen'] *)
  mf_origins : list RegistryEgressOrigin;
  mf_maxTotalBytes : Z;
  mf_maxConcurrentRequests : Z;
  mf_rejectedOperations : list RejectedRegistryOperation
}.

(** ** Schemas *)

Definition tail_class (s : string) : regex := or_in is_lower_digit s.

(** [/^[a-z0-9][a-z0-9-]{0,127}$/u] *)
Definition HEADER_NAME_REGEX : regex := Cat (Chr is_lower_digit) (up_to 127 (tail_class "-")).

(** [/^[a-z0-9][a-z0-9._-]{2,127}$/u] *)
Definition identifierSchema : regex :=
  Cat (Chr is_lower_digit) (Cat (times 2 (tail_class "._-")) (up_to 125 (tail_class "._-"))).

(** [/^[a-z0-9](?:[a-z0-9.-]*[a-z0-9])?$/u] *)
Definition HOSTNAME_REGEX : regex :=
  Cat (Chr is_lower_digit) (Opt (Cat (Star (tail_class ".-")) (Chr is_lower_digit))).

Definition between (lo hi n : Z) : bool := (lo <=? n) && (n <=? hi).
Definition length_between {A} (lo hi : nat) (l : list A) : bool :=
  (lo <=? length l)%nat && (length l <=? hi)%nat.
Definition text_between (lo hi : nat) (s : string) : bool :=
  (lo <=? String.length s)%nat && (String.length s <=? hi)%nat.

Definition hostnameSchema (value : string) : bool :=
  text_between 1 253 value && matches HOSTNAME_REGEX value
  && (value =? toLowerCase value) && negb (str_includes value "..").

Definition originPathSchema (value : string) : bool :=
  text_between 1 4096 value && startsWith value "/" && negb (startsWith value "//")
  && negb (str_includes value "?") && negb (str_includes value "#").

(** [addDuplicateIssues] reports none. *)
Definition no_duplicates {A} `{EqDecision A} (l : list A) : bool := bool_decide (NoDup l).

Definition EGRESS_FORBIDDEN_CREDENTIAL_HEADERS : list string :=
  ["authorization"; "proxy-authorization"; "cookie"; "set-cookie"; "x-api-key"; "x-goog-api-key";
   "anthropic-api-key"].

Definition EGRESS_DROPPED_REQUEST_HEADERS : list string :=
  ["host"; "baggage"; "traceparent"; "tracestate"] ++ HOP_BY_HOP_HEADERS.

Definition originSchema (origin : RegistryEgressOrigin) : bool :=
  matches identifierSchema (og_id origin)
  && (rd_protocol (og_destination origin) =? "https:")
  && hostnameSchema (rd_hostname (og_destination origin))
  && between 1 65535 (rd_port (og_destination origin))
  && length_between 1 4 (og_operations origin)
  && match og_tokenPaths origin with
     | None => true
     | Some paths => length_between 0 16 paths && forallb (λ p, originPathSchema (token_value p)) paths
     end
  && between 1 (8 * 1024 * 1024 * 1024) (og_maxBytes origin)
  && between 100 (30 * 60000) (og_maxDurationMs origin)
  && between 0 5 (og_maxRedirectHops origin)
  && length_between 0 64 (og_allow origin)
  && forallb (matches HEADER_NAME_REGEX) (og_allow origin)
  && no_duplicates (og_operations origin)
  && no_duplicates (og_allow origin)
  && forallb (λ name, negb (includes EGRESS_FORBIDDEN_CREDENTIAL_HEADERS name)) (og_allow origin)
  && (negb (includes (og_operations origin) TokenFetch)
      || match og_tokenPaths origin with Some (_ :: _) => true | _ => false end)
  && (includes (og_operations origin) TokenFetch || bool_decide (og_tokenPaths origin = None)).

Definition origin_authority (origin : RegistryEgressOrigin) : string :=
  rd_hostname (og_destination origin) +:+ ":" +:+ show_Z (rd_port (og_destination origin)).

Definition REGISTRY_EGRESS_MANIFEST_SCHEMA_VERSION : Z := 1.

Definition registryEgressManifestSchema (m : RegistryEgressManifest) : bool :=
  (mf_schemaVersion m =? REGISTRY_EGRESS_MANIFEST_SCHEMA_VERSION)
  && matches identifierSchema (mf_policyId m)
  && length_between 1 64 (mf_origins m) && forallb originSchema (mf_origins m)
  && between 1 (64 * 1024 * 1024 * 1024) (mf_maxTotalBytes m)
  && between 1 64 (mf_maxConcurrentRequests m)
  && length_between 1 8 (mf_rejectedOperations m)
  && forallb (λ o, negb (o =? UnknownOperation)) (mf_rejectedOperations m)
  && no_duplicates (og_id <$> mf_origins m)
  && no_duplicates (origin_authority <$> mf_origins m).

(** The message of a failed parse is the validator's. *)
Definition validateRegistryEgressManifest (m : RegistryEgressManifest) : result RegistryEgressManifest :=
  if registryEgressManifestSchema m then Ok m else Throw "invalid registry-egress manifest".

(** ** Requests *)

Record RegistryEgressRequest := { rq_method : string; rq_url : string; rq_headers : HttpHeaders }.

Inductive RequestMethod := GET | HEAD.
#[export] Instance RequestMethod_eq_dec : EqDecision RequestMethod.
Proof. solve_decision. Defined.
Definition method_name (m : RequestMethod) : string := match m with GET => "GET" | HEAD => "HEAD" end.

(** The hexadecimal part of a [sha256] digest. *)
Record OciDigest := { dg_hex : string }.

Record AuthorizedRegistryEgressRequest := {
  az_policyId : string;
  az_originId : string;
  az_operation : RegistryPullOperation;
  az_destination : RegistryDestination;
  az_method : RequestMethod;
  az_path : string;
  az_headers : object HeaderValue;
  az_repository : option string;
  az_reference : option string;
  az_requestedDigest : option OciDigest;
  az_maxBytes : Z;
  az_maxDurationMs : Z;
  az_maxRedirectHops : Z;
  az_redirectHop : Z
}.

Record RegistryPullClassification := {
  pc_operation : RegistryPullOperation;
  pc_repository : option string;
  pc_reference : option string;
  pc_requestedDigest : option OciDigest
}.

Definition plain_pull (o : RegistryPullOperation) : RegistryPullClassification :=
  {| pc_operation := o; pc_repository := None; pc_reference := None; pc_requestedDigest := None |}.

(** ** Headers *)

(** [/^Bearer [A-Za-z0-9._~+/=-]+$/u] *)
Definition BEARER_TOKEN_PATTERN : regex := Cat (lit "Bearer ") (Plus (or_in is_letter_digit "._~+/=-")).

Definition admitBearerAuthorization (value : HeaderValue) : result string :=
  match value with
  | HOne s => if matches BEARER_TOKEN_PATTERN s then Ok s
              else Throw "registry-egress authorization must be a single Bearer token"
  | HMany _ => Throw "registry-egress authorization must be a single Bearer token"
  end.

Definition has_line_break (s : string) : bool := negb (str_forallb is_dot s).

Definition dropped_headers (headers : HttpHeaders) : list string :=
  EGRESS_DROPPED_REQUEST_HEADERS ++ connectionNominatedHeaderNames (header_get headers "connection").

Fixpoint sanitize_loop (origin : RegistryEgressOrigin) (dropped : list string) (headers : HttpHeaders)
    (acc : object HeaderValue) : result (object HeaderValue) :=
  match headers with
  | [] => Ok acc
  | (rawName, rawValue) :: headers =>
      let name := toLowerCase rawName in
      if negb (name =? rawName) || negb (matches HEADER_NAME_REGEX name)
      then Throw ("registry-egress header name is not canonical: " +:+ rawName)
      else match rawValue with
      | None => sanitize_loop origin dropped headers acc
      | Some value =>
          if name =? "authorization" then
            match admitBearerAuthorization value with
            | Throw e => Throw e
            | Ok token => sanitize_loop origin dropped headers (obj_set acc name (HOne token))
            end
          else if includes EGRESS_FORBIDDEN_CREDENTIAL_HEADERS name
          then Throw ("registry-egress credential header is forbidden: " +:+ name)
          else if includes dropped name then sanitize_loop origin dropped headers acc
          else if existsb has_line_break (header_values value)
          then Throw ("registry-egress header value contains a line break: " +:+ name)
          else if negb (includes (og_allow origin) name)
          then Throw ("registry-egress header is not allowed by " +:+ og_id origin +:+ ": " +:+ name)
          else sanitize_loop origin dropped headers (obj_set acc name value)
      end
  end.

Definition sanitizeHeaders (origin : RegistryEgressOrigin) (headers : HttpHeaders) : result (object HeaderValue) :=
  sanitize_loop origin (dropped_headers headers) headers [].

(** ** Names, tags and digests *)

(** [/^sha256:[a-f0-9]{64}$/u] *)
Definition DIGEST_PATTERN : regex := Cat (lit "sha256:") (times 64 (Chr is_hex)).

(** [[a-z0-9]+(?:(?:[._]|__|[-]+)[a-z0-9]+)*] *)
Definition NAME_COMPONENT : regex :=
  let word := Plus (Chr is_lower_digit) in
  Cat word (Star (Cat (Alt (one_of "._") (Alt (lit "__") (Plus (chr "-"%char)))) word)).

Definition OCI_NAME_PATTERN : regex := Cat NAME_COMPONENT (Star (Cat (chr slash) NAME_COMPONENT)).

(** [/^[a-zA-Z0-9_][a-zA-Z0-9._-]{0,127}$/u] *)
Definition OCI_TAG_PATTERN : regex := Cat (or_in is_letter_digit "_") (up_to 127 (or_in is_letter_digit "._-")).

Definition parseOciDigest (reference : string) : option OciDigest :=
  if matches DIGEST_PATTERN reference then Some {| dg_hex := str_drop 7 reference |} else None.

Definition validateRepository (name : string) : result string :=
  if (255 <? String.length name)%nat || str_includes name "%" || negb (matches OCI_NAME_PATTERN name)
  then Throw "registry-egress repository name is not a canonical OCI name"
  else Ok name.

Definition refusal {A} (operation : RejectedRegistryOperation) (message : string) : result A :=
  Throw (message +:+ " (" +:+ rejected_name operation +:+ ")").

(** ** Paths *)

(** [/^\/v2\/.+\/tags\/list$/u] *)
Definition TAGS_LIST : regex := Cat (lit "/v2/") (Cat (Plus Dot) (lit "/tags/list")).

(** [/^\/v2\/.+\/blobs\/uploads/u], and anything below it. *)
Definition BLOB_UPLOADS : regex :=
  Cat (lit "/v2/") (Cat (Plus Dot) (Cat (lit "/blobs/uploads") (Opt (Cat (chr slash) (Star Dot))))).

(** The groups of [/^\/v2\/(.+)\/kind\/([^/]+)$/u]: the second has no slash, so it starts
    after the last one. *)
Definition pull_match (kind pathname : string) : option (string * string) :=
  match split_last slash pathname with
  | Some (before, reference) =>
      match strip_prefix "/v2/" before with
      | Some rest =>
          match strip_suffix ("/" +:+ kind) rest with
          | Some name => if matches (Plus Dot) name && negb (reference =? "") then Some (name, reference) else None
          | None => None
          end
      | None => None
      end
  | None => None
  end.

Definition encoded_separator (pathname : string) : bool :=
  let lower := toLowerCase pathname in
  str_includes lower "%2f" || str_includes lower "%5c" || str_includes lower "%25".

Section requests.
Context `{WebUrl} `{Net}.

Definition requireNoQuery (url : weburl) : result unit :=
  if wu_search url =? "" then Ok () else Throw "registry-egress pull path must not carry a query string".

Definition classifyManifest (url : weburl) (rawName reference : string) : result RegistryPullClassification :=
  _ ← requireNoQuery url;
  repository ← validateRepository rawName;
  match parseOciDigest reference with
  | Some digest =>
      Ok {| pc_operation := ManifestPull; pc_repository := Some repository; pc_reference := Some reference;
            pc_requestedDigest := Some digest |}
  | None =>
      if matches OCI_TAG_PATTERN reference
      then Ok {| pc_operation := ManifestPull; pc_repository := Some repository;
                 pc_reference := Some reference; pc_requestedDigest := None |}
      else Throw "registry-egress manifest reference is not a valid tag or digest"
  end.

Definition classifyBlob (url : weburl) (rawName reference : string) : result RegistryPullClassification :=
  _ ← requireNoQuery url;
  repository ← validateRepository rawName;
  match parseOciDigest reference with
  | Some digest =>
      Ok {| pc_operation := BlobPull; pc_repository := Some repository; pc_reference := Some reference;
            pc_requestedDigest := Some digest |}
  | None => Throw "registry-egress blob pulls must be addressed by sha256 digest"
  end.

Definition token_path_matches (url : weburl) (p : TokenPath) : bool :=
  match p with
  | TokenExact value => wu_pathname url =? value
  | TokenPrefix value => startsWith (wu_pathname url) value
  end.

Definition classifyTokenIfMatched (origin : RegistryEgressOrigin) (url : weburl) :
    option RegistryPullClassification :=
  if existsb (token_path_matches url) (default [] (og_tokenPaths origin)) then Some (plain_pull TokenFetch)
  else None.

Definition decode_reference (s : string) : result string :=
  match decodeURIComponent s with Some s => Ok s | None => Throw "URI malformed" end.

Definition classifyPull (origin : RegistryEgressOrigin) (url : weburl) : result RegistryPullClassification :=
  match classifyTokenIfMatched origin url with
  | Some c => Ok c
  | None =>
      let pathname := wu_pathname url in
      if (pathname =? "/v2") || (pathname =? "/v2/")
      then _ ← requireNoQuery url; Ok (plain_pull ApiVersion)
      else if pathname =? "/v2/_catalog"
      then refusal CatalogEnumeration "registry-egress refuses catalog enumeration"
      else if matches TAGS_LIST pathname
      then refusal TagsEnumeration "registry-egress refuses tag enumeration"
      else if matches BLOB_UPLOADS pathname
      then refusal Push "registry-egress refuses blob uploads"
      else match pull_match "manifests" pathname with
      | Some (name, reference) => reference ← decode_reference reference; classifyManifest url name reference
      | None =>
          match pull_match "blobs" pathname with
          | Some (name, reference) => reference ← decode_reference reference; classifyBlob url name reference
          | None => refusal UnknownOperation "registry-egress request is not a recognized pull operation"
          end
      end
  end.

Definition canonical_method (rawMethod : string) : result RequestMethod :=
  let method := toUpperCase rawMethod in
  if negb (method =? rawMethod) then Throw "registry-egress method must be canonical uppercase"
  else if (method =? "PUT") || (method =? "POST") || (method =? "PATCH")
  then refusal Push "registry-egress refuses push operations"
  else if method =? "DELETE" then refusal Delete "registry-egress refuses delete operations"
  else if method =? "GET" then Ok GET
  else if method =? "HEAD" then Ok HEAD
  else Throw ("registry-egress refuses " +:+ method).

Definition classifyRegistryRequest (origin : RegistryEgressOrigin) (rawMethod : string) (url : weburl) :
    result (RequestMethod * RegistryPullClassification) :=
  method ← canonical_method rawMethod;
  c ← classifyPull origin url;
  Ok (method, c).

(** ** Origins *)

Definition parseRegistryUrl (rawUrl : string) : result weburl :=
  match parse_url rawUrl with
  | None => Throw "registry-egress request URL is invalid"
  | Some url =>
      if negb (wu_protocol url =? "https:") then Throw "registry-egress requests must use https"
      else if negb (wu_username url =? "") || negb (wu_password url =? "") || negb (wu_hash url =? "")
      then Throw "registry-egress request URL must not contain credentials or a fragment"
      else if encoded_separator (wu_pathname url)
      then Throw "registry-egress request path contains an encoded separator or nested escape"
      else Ok url
  end.

(** The port of a parsed URL is decimal digits. *)
Definition defaultPort (url : weburl) : Z :=
  if negb (wu_port url =? "") then parse_dec (wu_port url)
  else if wu_protocol url =? "https:" then 443
  else if wu_protocol url =? "http:" then 80 else 0.

Definition origin_matches (url : weburl) (origin : RegistryEgressOrigin) : bool :=
  let d := og_destination origin in
  (rd_protocol d =? wu_protocol url) && (rd_hostname d =? toLowerCase (wu_hostname url))
  && (rd_port d =? defaultPort url).

Definition matchOrigin (m : RegistryEgressManifest) (url : weburl) : option RegistryEgressOrigin :=
  List.find (origin_matches url) (mf_origins m).

Definition authorizeValidatedRegistryEgressRequest (validated : RegistryEgressManifest)
    (request : RegistryEgressRequest) : result AuthorizedRegistryEgressRequest :=
  url ← parseRegistryUrl (rq_url request);
  match matchOrigin validated url with
  | None => Throw "registry-egress request targets an unlisted host; fail closed"
  | Some origin =>
      '(method, c) ← classifyRegistryRequest origin (rq_method request) url;
      if negb (includes (og_operations origin) (pc_operation c))
      then Throw ("registry-egress origin " +:+ og_id origin +:+ " does not authorize "
                  +:+ operation_name (pc_operation c))
      else
        headers ← sanitizeHeaders origin (rq_headers request);
        Ok {| az_policyId := mf_policyId validated; az_originId := og_id origin;
              az_operation := pc_operation c; az_destination := og_destination origin; az_method := method;
              az_path := wu_pathname url +:+ wu_search url; az_headers := headers;
              az_repository := pc_repository c; az_reference := pc_reference c;
              az_requestedDigest := pc_requestedDigest c; az_maxBytes := og_maxBytes origin;
              az_maxDurationMs := og_maxDurationMs origin; az_maxRedirectHops := og_maxRedirectHops origin;
              az_redirectHop := 0 |}
  end.

Definition authorizeRegistryEgressRequest (manifest : RegistryEgressManifest) (request : RegistryEgressRequest) :
    result AuthorizedRegistryEgressRequest :=
  validated ← validateRegistryEgressManifest manifest;
  authorizeValidatedRegistryEgressRequest validated request.

(** ** Redirects *)

Definition authority (d : RegistryDestination) : string :=
  let host := if str_includes (rd_hostname d) ":" then "[" +:+ rd_hostname d +:+ "]" else rd_hostname d in
  if rd_port d =? 443 then host else host +:+ ":" +:+ show_Z (rd_port d).

Definition resolveRedirectUrl (current : AuthorizedRegistryEgressRequest) (location : string) : result weburl :=
  let base := rd_protocol (az_destination current) +:+ "//" +:+ authority (az_destination current)
              +:+ az_path current in
  match resolve_url location base with
  | None => Throw "registry-egress redirect Location is invalid"
  | Some target =>
      if negb (wu_username target =? "") || negb (wu_password target =? "") || negb (wu_hash target =? "")
      then Throw "registry-egress redirect must not contain credentials or a fragment"
      else if encoded_separator (wu_pathname target)
      then Throw "registry-egress redirect path contains an encoded separator or nested escape"
      else if negb (wu_protocol target =? "https:") then Throw "registry-egress redirect must stay on https"
      else Ok target
  end.

Definition MAX_SAFE_INTEGER : Z := 2 ^ 53 - 1.

Definition redirectPort (url : weburl) : result Z :=
  let port := defaultPort url in
  if (MAX_SAFE_INTEGER <? port) || (port <=? 0) then Throw "registry-egress redirect port is invalid" else Ok port.

(** [hostname.replace(/^\[|\]$/gu, '')] *)
Definition strip_brackets (s : string) : string :=
  let s := default s (strip_prefix "[" s) in default s (strip_suffix "]" s).

Definition authorizeValidatedRegistryRedirect (validated : RegistryEgressManifest)
    (current : AuthorizedRegistryEgressRequest) (location : string) : result AuthorizedRegistryEgressRequest :=
  if negb (includes CONTENT_OPERATIONS (az_operation current))
  then Throw "registry-egress redirect is only followed for an authorized manifest or blob pull"
  else
    let hop := az_redirectHop current + 1 in
    if az_maxRedirectHops current <? hop
    then Throw ("registry-egress redirect exceeds the " +:+ az_originId current +:+ " hop limit")
    else
      target ← resolveRedirectUrl current location;
      if negb (isIP (strip_brackets (wu_hostname target)) =? 0)
      then Throw "registry-egress redirect must target a DNS name, not a literal address"
      else match matchOrigin validated target with
      | Some matchedOrigin =>
          '(_, c) ← classifyRegistryRequest matchedOrigin (method_name (az_method current)) target;
          if negb (includes (og_operations matchedOrigin) (pc_operation c))
          then Throw ("registry-egress redirect target " +:+ og_id matchedOrigin +:+ " does not authorize "
                      +:+ operation_name (pc_operation c))
          else
            Ok {| az_policyId := az_policyId current; az_originId := og_id matchedOrigin;
                  az_operation := pc_operation c; az_destination := og_destination matchedOrigin;
                  az_method := az_method current; az_path := wu_pathname target +:+ wu_search target;
                  az_headers := []; az_repository := pc_repository c; az_reference := pc_reference c;
                  az_requestedDigest := pc_requestedDigest c; az_maxBytes := og_maxBytes matchedOrigin;
                  az_maxDurationMs := og_maxDurationMs matchedOrigin;
                  az_maxRedirectHops := og_maxRedirectHops matchedOrigin; az_redirectHop := hop |}
      | None =>
          port ← redirectPort target;
          Ok {| az_policyId := az_policyId current; az_originId := az_originId current +:+ ":cdn";
                az_operation := az_operation current;
                az_destination := {| rd_protocol := "https:"; rd_hostname := toLowerCase (wu_hostname target);
                                     rd_port := port |};
                az_method := az_method current; az_path := wu_pathname target +:+ wu_search target;
                az_headers := []; az_repository := az_repository current; az_reference := az_reference current;
                az_requestedDigest := az_requestedDigest current; az_maxBytes := az_maxBytes current;
                az_maxDurationMs := az_maxDurationMs current; az_maxRedirectHops := az_maxRedirectHops current;
                az_redirectHop := hop |}
      end.

(** Redirects followed one after the other. *)
Fixpoint follow_redirects (validated : RegistryEgressManifest) (current : AuthorizedRegistryEgressRequest)
    (locations : list string) : result AuthorizedRegistryEgressRequest :=
  match locations with
  | [] => Ok current
  | location :: locations =>
      next ← authorizeValidatedRegistryRedirect validated current location;
      follow_redirects validated next locations
  end.

End requests.

(** * Registry requests: what authorisation establishes *)

(** ** Header admission *)

Section headers.
Context (origin : RegistryEgressOrigin) (dropped : list string).

(** The headers that cross, in the order of the request. *)
Definition forwarded (e : string * option HeaderValue) : option (string * HeaderValue) :=
  match e.2 with
  | Some value => if ((e.1 =? "authorization") || negb (includes dropped e.1)) then Some (e.1, value) else None
  | None => None
  end.

Definition admitted_header (e : string * HeaderValue) : Prop :=
  (e.1 = "authorization" ∧ (∃ s, e.2 = HOne s ∧ lang BEARER_TOKEN_PATTERN s))
  ∨ (e.1 ∈ og_allow origin ∧ e.1 ∉ EGRESS_FORBIDDEN_CREDENTIAL_HEADERS ∧ e.1 ∉ dropped
     ∧ ∀ s, s ∈ header_values e.2 → str_forallb is_dot s = true).

Lemma bearer_spec value token :
  admitBearerAuthorization value = Ok token → value = HOne token ∧ lang BEARER_TOKEN_PATTERN token.
Proof.
  destruct value as [s|l]; cbn [admitBearerAuthorization]; [|done].
  destruct (matches BEARER_TOKEN_PATTERN s) eqn:E; [|done]. intros [= <-]. by rewrite <-matches_spec.
Qed.

Lemma fresh_key {A B} (name : string) (headers : list (string * A)) (acc : object B) (v : B) :
  name ∉ headers.*1 → NoDup headers.*1 → (∀ k, k ∈ name :: headers.*1 → k ∉ obj_keys acc) →
  ∀ k, k ∈ headers.*1 → k ∉ obj_keys (acc ++ [(name, v)]).
Proof.
  intros Hn Hnd Hf k Hk. unfold obj_keys. rewrite fmap_app, elem_of_app. cbn. intros [Ha|Ha].
  - apply (Hf k); [by right|done].
  - apply list_elem_of_singleton in Ha as ->. done.
Qed.

Lemma sanitize_loop_spec headers acc r :
  obj_wf headers → (∀ k, k ∈ obj_keys headers → k ∉ obj_keys acc) →
  sanitize_loop origin dropped headers acc = Ok r →
  r = acc ++ omap forwarded headers ∧ Forall admitted_header (omap forwarded headers).
Proof.
  unfold obj_wf. revert acc r. induction headers as [|[name value] headers IH]; intros acc r Hwf Hf.
  { intros [= <-]. by rewrite app_nil_r. }
  cbn [sanitize_loop]. unfold obj_keys in Hwf, Hf. cbn [fmap list_fmap fst] in Hwf, Hf.
  apply NoDup_cons in Hwf as [Hn Hwf].
  assert (Hf' : ∀ k, k ∈ headers.*1 → k ∉ obj_keys acc) by (intros; apply Hf; by right).
  assert (Hname : name ∉ obj_keys acc) by (apply Hf; by left).
  destruct (_ || negb (matches _ _)) eqn:Hc; [done|]. bool_hyps.
  match goal with H : toLowerCase name = name |- _ => rewrite H in * end.
  destruct value as [value|]; [|by apply IH].
  assert (Hcons : omap forwarded ((name, Some value) :: headers)
    = match forwarded (name, Some value) with Some e => e :: omap forwarded headers | None => omap forwarded headers end)
    by done.
  assert (Hfw : forwarded (name, Some value)
    = if bool_decide (name = "authorization") || negb (includes dropped name) then Some (name, value) else None) by done.
  rewrite Hcons, Hfw. clear Hcons Hfw. case_bool_decide as Hauth; cbn [orb].
  - destruct (admitBearerAuthorization value) as [token|] eqn:Hb; [|done].
    apply bearer_spec in Hb as [-> Hb]. rewrite obj_set_fresh by done. intros Hs.
    apply IH in Hs as [-> Hall]; [|done|by apply fresh_key]. rewrite <-app_assoc. split; [done|].
    constructor; [|done]. left. split; [done|]. by exists token.
  - destruct (includes EGRESS_FORBIDDEN_CREDENTIAL_HEADERS name) eqn:Hfb; [done|].
    destruct (includes dropped name) eqn:Hd; cbn [negb].
    { by apply IH. }
    destruct (existsb has_line_break _) eqn:Hl; [done|].
    destruct (includes (og_allow origin) name) eqn:Ha; [|done]. cbn [negb].
    rewrite obj_set_fresh by done. intros Hs.
    apply IH in Hs as [-> Hall]; [|done|by apply fresh_key]. rewrite <-app_assoc. split; [done|].
    constructor; [|done]. right. unfold includes in *. bool_hyps. split; [done|]. split; [done|].
    split; [done|]. intros s Hs. cbn [snd] in Hs. rewrite existsb_false_elem in Hl. specialize (Hl s Hs).
    unfold has_line_break in Hl. by apply negb_false_iff in Hl.
Qed.
End headers.

Lemma sanitizeHeaders_spec origin headers r :
  obj_wf headers → sanitizeHeaders origin headers = Ok r →
  let dropped := dropped_headers headers in
  r = omap (forwarded dropped) headers ∧ Forall (admitted_header origin dropped) r.
Proof.
  intros Hwf Hs dropped. apply sanitize_loop_spec in Hs as [-> Hall]; [by split|done|].
  intros k _ Hk. by apply elem_of_nil in Hk.
Qed.

(** ** Pulls *)

Lemma pull_match_spec kind pathname name reference :
  pull_match kind pathname = Some (name, reference) ↔
  pathname = "/v2/" +:+ name +:+ "/" +:+ kind +:+ "/" +:+ reference
  ∧ lang (Plus Dot) name ∧ reference ≠ "" ∧ slash ∉ chars reference.
Proof.
  unfold pull_match. rewrite <-matches_spec.
  assert (Hshape : ∀ r, "/v2/" +:+ name +:+ "/" +:+ kind +:+ "/" +:+ r
    = ("/v2/" +:+ name +:+ "/" +:+ kind) +:+ String slash r).
  { intros. by rewrite !str_app_assoc. }
  rewrite Hshape. split.
  - destruct (split_last slash pathname) as [[before after]|] eqn:Hl; [|done].
    destruct (strip_prefix "/v2/" before) as [rest|] eqn:Hp; [|done].
    destruct (strip_suffix _ rest) as [n|] eqn:Hs; [|done].
    apply split_last_spec in Hl as [-> Hno]. apply strip_prefix_spec in Hp as ->. apply strip_suffix_spec in Hs as ->.
    destruct (matches (Plus Dot) n && _) eqn:E; [|done]. bool_hyps. intros [= <- <-]. done.
  - intros (-> & Hm & Hr & Hno).
    rewrite (proj2 (split_last_spec _ _ ("/v2/" +:+ name +:+ "/" +:+ kind) reference)) by done.
    rewrite (proj2 (strip_prefix_spec "/v2/" _ (name +:+ "/" +:+ kind))) by done.
    rewrite (proj2 (strip_suffix_spec ("/" +:+ kind) _ name)) by done.
    rewrite Hm, bool_decide_eq_false_2 by done. done.
Qed.

Record repository_ok (name : string) : Prop := {
  ro_length : (String.length name ≤ 255)%nat;
  ro_plain : str_includes name "%" = false;
  ro_name : lang OCI_NAME_PATTERN name
}.

Lemma validateRepository_spec name r : validateRepository name = Ok r ↔ r = name ∧ repository_ok name.
Proof.
  unfold validateRepository. destruct (_ || negb (matches _ _)) eqn:E.
  - split; [done|]. intros [-> []]. apply matches_spec in ro_name0.
    rewrite ro_plain0, ro_name0, !orb_false_r in E. apply Nat.ltb_lt in E. lia.
  - bool_hyps. split; [|by intros [-> _]]. intros [= <-]. split; [done|]. constructor; [|done|by apply matches_spec].
    by apply Nat.ltb_ge.
Qed.

(** What a digest is. *)
Definition digest_of (reference : string) (d : option OciDigest) : Prop :=
  match d with
  | Some d => reference = "sha256:" +:+ dg_hex d ∧ lang (times 64 (Chr is_hex)) (dg_hex d)
  | None => ¬ lang DIGEST_PATTERN reference
  end.

Lemma parseOciDigest_spec reference : digest_of reference (parseOciDigest reference).
Proof.
  unfold parseOciDigest. destruct (matches DIGEST_PATTERN reference) eqn:E; cbn [digest_of dg_hex].
  - apply matches_spec in E. unfold DIGEST_PATTERN in E. apply lang_cat_inv in E as (s1 & s2 & -> & H1 & H2).
    apply lang_lit in H1 as ->. by change (str_drop 7 ("sha256:" +:+ s2)) with s2.
  - intros H%matches_spec. congruence.
Qed.

Section pulls.
Context `{WebUrl} `{Net}.

(** The pulls that a path may spell. *)
Inductive pull_of (origin : RegistryEgressOrigin) (url : weburl) : RegistryPullClassification → Prop :=
| pull_token p :
    p ∈ default [] (og_tokenPaths origin) → token_path_matches url p = true →
    pull_of origin url (plain_pull TokenFetch)
| pull_version :
    wu_pathname url ∈ ["/v2"; "/v2/"] → wu_search url = "" → pull_of origin url (plain_pull ApiVersion)
| pull_manifest name raw reference digest :
    wu_pathname url = "/v2/" +:+ name +:+ "/" +:+ "manifests" +:+ "/" +:+ raw → wu_search url = "" →
    repository_ok name → slash ∉ chars raw → decodeURIComponent raw = Some reference →
    digest_of reference digest → (digest = None → lang OCI_TAG_PATTERN reference) →
    pull_of origin url {| pc_operation := ManifestPull; pc_repository := Some name;
                          pc_reference := Some reference; pc_requestedDigest := digest |}
| pull_blob name raw reference digest :
    wu_pathname url = "/v2/" +:+ name +:+ "/" +:+ "blobs" +:+ "/" +:+ raw → wu_search url = "" →
    repository_ok name → slash ∉ chars raw → decodeURIComponent raw = Some reference →
    digest_of reference (Some digest) →
    pull_of origin url {| pc_operation := BlobPull; pc_repository := Some name;
                          pc_reference := Some reference; pc_requestedDigest := Some digest |}.

Lemma requireNoQuery_spec url : requireNoQuery url = Ok () ↔ wu_search url = "".
Proof. unfold requireNoQuery. case_bool_decide; naive_solver. Qed.

Lemma classifyManifest_spec origin url name raw reference c :
  wu_pathname url = "/v2/" +:+ name +:+ "/" +:+ "manifests" +:+ "/" +:+ raw → slash ∉ chars raw →
  decodeURIComponent raw = Some reference → classifyManifest url name reference = Ok c → pull_of origin url c.
Proof.
  intros Hp Hs Hd. unfold classifyManifest. cbn [mbind result_bind].
  destruct (requireNoQuery url) as [[]|] eqn:Hq; [|done]. apply requireNoQuery_spec in Hq.
  destruct (validateRepository name) as [r|] eqn:Hv; [|done]. apply validateRepository_spec in Hv as [-> Hv].
  pose proof (parseOciDigest_spec reference) as Hdig.
  destruct (parseOciDigest reference) as [d|]; [intros [= <-]; by eapply pull_manifest|].
  destruct (matches OCI_TAG_PATTERN reference) eqn:Ht; [|done]. intros [= <-].
  eapply pull_manifest; try done. intros _. by apply matches_spec.
Qed.

Lemma classifyBlob_spec origin url name raw reference c :
  wu_pathname url = "/v2/" +:+ name +:+ "/" +:+ "blobs" +:+ "/" +:+ raw → slash ∉ chars raw →
  decodeURIComponent raw = Some reference → classifyBlob url name reference = Ok c → pull_of origin url c.
Proof.
  intros Hp Hs Hd. unfold classifyBlob. cbn [mbind result_bind].
  destruct (requireNoQuery url) as [[]|] eqn:Hq; [|done]. apply requireNoQuery_spec in Hq.
  destruct (validateRepository name) as [r|] eqn:Hv; [|done]. apply validateRepository_spec in Hv as [-> Hv].
  pose proof (parseOciDigest_spec reference) as Hdig.
  destruct (parseOciDigest reference) as [d|]; [intros [= <-]; by eapply pull_blob|done].
Qed.

Lemma classifyPull_spec origin url c : classifyPull origin url = Ok c → pull_of origin url c.
Proof.
  unfold classifyPull, classifyTokenIfMatched, refusal. destruct (existsb _ _) eqn:Ht.
  { apply existsb_exists_elem in Ht as (p & Hp & Hm). intros [= <-]. by eapply pull_token. }
  cbv zeta. destruct (_ || _) eqn:Hv2.
  { cbn [mbind result_bind]. destruct (requireNoQuery url) as [[]|] eqn:Hq; [|done]. intros [= <-].
    apply requireNoQuery_spec in Hq. apply pull_version; [|done].
    apply orb_true_iff in Hv2 as [->%bool_decide_eq_true| ->%bool_decide_eq_true]; [by left|by right; left]. }
  clear Ht Hv2. case_bool_decide; [done|]. destruct (matches TAGS_LIST _); [done|].
  destruct (matches BLOB_UPLOADS _); [done|].
  destruct (pull_match "manifests" _) as [[name raw]|] eqn:Hm;
    [|destruct (pull_match "blobs" _) as [[name raw]|] eqn:Hb; [|done]].
  - apply pull_match_spec in Hm as (Hp & _ & _ & Hs). cbn [mbind result_bind]. unfold decode_reference.
    destruct (decodeURIComponent raw) as [reference|] eqn:Hd; [|done]. by apply (classifyManifest_spec origin url name raw).
  - apply pull_match_spec in Hb as (Hp & _ & _ & Hs). cbn [mbind result_bind]. unfold decode_reference.
    destruct (decodeURIComponent raw) as [reference|] eqn:Hd; [|done]. by apply (classifyBlob_spec origin url name raw).
Qed.

(** Only a token fetch carries a query. *)
Lemma pull_query origin url c : pull_of origin url c → pc_operation c = TokenFetch ∨ wu_search url = "".
Proof. destruct 1; auto. Qed.

Lemma canonical_method_spec raw m : canonical_method raw = Ok m ↔ raw = method_name m.
Proof.
  split.
  - unfold canonical_method. cbv zeta. destruct (negb _) eqn:E; [done|]. bool_hyps. rewrite E.
    repeat case_match; intros; simplify_eq; bool_hyps; done.
  - intros ->. by destruct m.
Qed.

Lemma matchOrigin_spec m url origin :
  matchOrigin m url = Some origin →
  origin ∈ mf_origins m ∧ rd_protocol (og_destination origin) = wu_protocol url
  ∧ rd_hostname (og_destination origin) = toLowerCase (wu_hostname url)
  ∧ rd_port (og_destination origin) = defaultPort url.
Proof.
  unfold matchOrigin. intros [Hin Hm]%find_some_elem. unfold origin_matches in Hm. bool_hyps. done.
Qed.
End pulls.
