(* ===== verification/RegistryProperties.v ===== *)
(** * Properties of registry egress *)

From Stdlib Require Import Ascii ZArith Lia.
From S2P Require Import Prelude JsValue Paths Urls Roles Regex EgressAddress UriText RegistryEgress.

Local Open Scope Z_scope.
Local Open Scope curtain_scope.

(** ** Requests *)

Section requests.
Context `{WebUrl} `{Net}.

(** HTTPS, without credentials, fragment or encoded separators. *)
Definition plain_https (url : weburl) : Prop :=
  wu_protocol url = "https:" ∧ wu_username url = "" ∧ wu_password url = "" ∧ wu_hash url = ""
  ∧ encoded_separator (wu_pathname url) = false.

Lemma parseRegistryUrl_spec raw url : parseRegistryUrl raw = Ok url → parse_url raw = Some url ∧ plain_https url.
Proof.
  unfold parseRegistryUrl. destruct (parse_url raw) as [u|]; [|done].
  destruct (negb _) eqn:E1; [done|]. destruct (_ || _) eqn:E2; [done|]. destruct (encoded_separator _) eqn:E3; [done|].
  intros [= <-]. bool_hyps. done.
Qed.

Lemma resolveRedirectUrl_spec current location target :
  resolveRedirectUrl current location = Ok target → plain_https target.
Proof.
  unfold resolveRedirectUrl. cbv zeta. destruct (resolve_url _ _) as [u|]; [|done].
  destruct (negb (wu_username u =? "") || _ || _) eqn:E2; [done|]. destruct (encoded_separator _) eqn:E3; [done|].
  destruct (negb (wu_protocol u =? _)) eqn:E1; [done|]. intros [= <-]. bool_hyps. done.
Qed.

Lemma classify_spec origin raw url method c :
  classifyRegistryRequest origin raw url = Ok (method, c) → raw = method_name method ∧ pull_of origin url c.
Proof.
  intros (m & Hm%canonical_method_spec & (d & Hd%classifyPull_spec & [= <- <-])%result_bind_ok)%result_bind_ok. done.
Qed.

(** The origin is the only one of a validated manifest that matches. *)
Lemma origin_unique m url o1 o2 :
  registryEgressManifestSchema m = true → o1 ∈ mf_origins m → o2 ∈ mf_origins m →
  origin_matches url o1 = true → origin_matches url o2 = true → o1 = o2.
Proof.
  unfold registryEgressManifestSchema, no_duplicates. intros Hm H1 H2 Hu1 Hu2. bool_hyps.
  match goal with H : NoDup (origin_authority <$> _) |- _ => rename H into Hnd end.
  apply list_elem_of_lookup in H1 as [i Hi], H2 as [j Hj].
  unfold origin_matches in *. cbv zeta in *. bool_hyps.
  enough (i = j) as -> by congruence.
  eapply (NoDup_lookup _ _ _ (origin_authority o1) Hnd); rewrite list_lookup_fmap, ?Hi, ?Hj; [done|].
  cbn. unfold origin_authority. by repeat match goal with H : rd_hostname _ = _ |- _ => rewrite H; clear H
    | H : rd_port _ = _ |- _ => rewrite H; clear H end.
Qed.
End requests.

(** ** A small instance *)

Record DemoUrl := { du_protocol : string; du_host : string; du_path : string }.

Definition demo_parse (s : string) : option DemoUrl :=
  match strip_prefix "https://" s with
  | None => None
  | Some rest =>
      match split_on slash rest with
      | host :: (_ :: _) as segments =>
          Some {| du_protocol := "https:"; du_host := host; du_path := "/" +:+ str_join "/" segments |}
      | _ => None
      end
  end.

Definition demo_resolve (location base : string) : option DemoUrl :=
  match demo_parse location, demo_parse base with
  | Some u, _ => Some u
  | None, Some b => Some {| du_protocol := "https:"; du_host := du_host b; du_path := location |}
  | None, None => None
  end.

#[local] Instance demo_web_url : WebUrl :=
  {| weburl := DemoUrl; parse_url := demo_parse; resolve_url := demo_resolve; wu_protocol := du_protocol;
     wu_username := λ _, ""; wu_password := λ _, ""; wu_hostname := du_host; wu_port := λ _, "";
     wu_pathname := du_path; wu_search := λ _, ""; wu_hash := λ _, "" |}.

#[local] Instance demo_net : Net :=
  {| isIPv6 := λ s, str_includes s ":"; domainToASCII := λ s, s |}.

Definition hub_origin : RegistryEgressOrigin :=
  {| og_id := "docker-hub";
     og_destination := {| rd_protocol := "https:"; rd_hostname := "registry-1.docker.io"; rd_port := 443 |};
     og_operations := [ApiVersion; ManifestPull; BlobPull]; og_tokenPaths := None; og_maxBytes := 1000;
     og_maxDurationMs := 60000; og_maxRedirectHops := 3; og_allow := ["accept"] |}.

Definition hub_manifest : RegistryEgressManifest :=
  {| mf_schemaVersion := 1; mf_policyId := "public-registries"; mf_frozen := true; mf_origins := [hub_origin];
     mf_maxTotalBytes := 100000; mf_maxConcurrentRequests := 4; mf_rejectedOperations := [Push; Delete] |}.

Definition hub_request : RegistryEgressRequest :=
  {| rq_method := "GET"; rq_url := "https://registry-1.docker.io/v2/library/alpine/manifests/3.20";
     rq_headers := [("accept", Some (HOne "application/json")); ("authorization", Some (HOne "Bearer abc.def"));
                    ("connection", Some (HOne "close, x-trace")); ("x-trace", Some (HOne "1"))] |}.

Definition hub_authorized : AuthorizedRegistryEgressRequest :=
  {| az_policyId := "public-registries"; az_originId := "docker-hub"; az_operation := ManifestPull;
     az_destination := og_destination hub_origin; az_method := GET; az_path := "/v2/library/alpine/manifests/3.20";
     az_headers := [("accept", HOne "application/json"); ("authorization", HOne "Bearer abc.def")];
     az_repository := Some "library/alpine"; az_reference := Some "3.20"; az_requestedDigest := None;
     az_maxBytes := 1000; az_maxDurationMs := 60000; az_maxRedirectHops := 3; az_redirectHop := 0 |}.

Example hub_request_authorized : authorizeRegistryEgressRequest hub_manifest hub_request = Ok hub_authorized.
Proof. vm_compute. reflexivity. Qed.

Lemma hub_headers_wf : obj_wf (rq_headers hub_request).
Proof. apply (bool_decide_unpack _). vm_compute. exact I. Qed.



(** ** Redirects *)

Section redirects.
Context `{WebUrl} `{Net} (m : RegistryEgressManifest).

(** Where a redirect leads. *)
Definition redirect_target (r : AuthorizedRegistryEgressRequest) : Prop :=
  az_headers r = []
  ∧ ∃ target, plain_https target ∧ isIP (strip_brackets (wu_hostname target)) = 0
    ∧ az_path r = wu_pathname target +:+ wu_search target
    ∧ az_destination r = {| rd_protocol := "https:"; rd_hostname := toLowerCase (wu_hostname target);
                            rd_port := defaultPort target |}
    ∧ match matchOrigin m target with
      | Some origin => az_originId r = og_id origin ∧ az_maxBytes r = og_maxBytes origin
          ∧ ∃ c, pull_of origin target c ∧ pc_operation c ∈ og_operations origin ∧ az_operation r = pc_operation c
      | None => az_operation r ∈ CONTENT_OPERATIONS
      end.

Lemma redirect_step current location r :
  authorizeValidatedRegistryRedirect m current location = Ok r →
  az_operation current ∈ CONTENT_OPERATIONS
  ∧ az_redirectHop r = az_redirectHop current + 1 ∧ az_redirectHop r ≤ az_maxRedirectHops current
  ∧ az_method r = az_method current ∧ az_policyId r = az_policyId current
  ∧ (az_maxRedirectHops r = az_maxRedirectHops current
     ∨ ∃ origin, origin ∈ mf_origins m ∧ az_maxRedirectHops r = og_maxRedirectHops origin)
  ∧ redirect_target r.
Proof.
  unfold authorizeValidatedRegistryRedirect. cbv zeta. destruct (includes _ _) eqn:Hop; [|done]. cbn [negb].
  apply includes_spec in Hop. destruct (Z.ltb_spec (az_maxRedirectHops current) (az_redirectHop current + 1)); [done|].
  intros (target & Ht%resolveRedirectUrl_spec & Ha)%result_bind_ok.
  destruct (negb _) eqn:Hip in Ha; [done|]. bool_hyps.
  destruct (matchOrigin m target) as [origin|] eqn:Ho.
  - pose proof (matchOrigin_spec _ _ _ Ho) as (Hin & Hproto & Hhost & Hport).
    apply result_bind_ok in Ha as ([method c] & [_ Hc]%classify_spec & Ha).
    destruct (includes _ (pc_operation c)) eqn:Hin'; [|done]. apply includes_spec in Hin'. injection Ha as <-. csimpl.
    do 5 (split; [done|]). split; [right; by exists origin|].
    split; [done|]. exists target. csimpl. do 3 (split; [done|]). split.
    + destruct Ht as (Hs & _). rewrite Hs in Hproto. destruct (og_destination origin) eqn:Hd. cbn in *. by subst.
    + rewrite Ho. split; [done|]. split; [done|]. by exists c.
  - unfold redirectPort in Ha. cbv zeta in Ha. destruct (_ || _) in Ha; [done|].
    injection Ha as <-. csimpl. do 5 (split; [done|]). split; [by left|]. split; [done|]. exists target. csimpl.
    rewrite Ho. done.
Qed.

Lemma origin_hops origin :
  registryEgressManifestSchema m = true → origin ∈ mf_origins m → og_maxRedirectHops origin ≤ 5.
Proof.
  unfold registryEgressManifestSchema. intros Hm Hin. bool_hyps.
  match goal with H : forallb originSchema _ = true |- _ => rewrite forallb_forall_elem in H; specialize (H origin Hin);
    unfold originSchema, between in H end. bool_hyps. lia.
Qed.

Lemma follow_redirects_spec current locations r :
  registryEgressManifestSchema m = true → az_maxRedirectHops current ≤ 5 →
  follow_redirects m current locations = Ok r →
  az_redirectHop r = az_redirectHop current + Z.of_nat (length locations)
  ∧ az_method r = az_method current
  ∧ (locations ≠ [] → az_operation current ∈ CONTENT_OPERATIONS ∧ az_redirectHop r ≤ 5 ∧ redirect_target r).
Proof.
  intros Hm. revert current. induction locations as [|location locations IH]; intros current Hmax; cbn [follow_redirects].
  { intros [= <-]. cbn. split; [lia|done]. }
  intros (next & Hs%redirect_step & Hf)%result_bind_ok.
  destruct Hs as (Hop & Hhop & Hle & Hmeth & _ & Hlim & Htarget).
  assert (Hnext : az_maxRedirectHops next ≤ 5).
  { destruct Hlim as [->|(origin & Hin & ->)]; [done|by apply origin_hops]. }
  destruct (IH next Hnext Hf) as (H1 & H2 & H3). cbn [length]. split; [lia|]. split; [congruence|]. intros _.
  split; [done|]. destruct locations as [|l locations]; [|by apply H3]. injection Hf as ->. split; [lia|done].
Qed.
End redirects.

(** C10. However a server chains redirects, an authorised pull stays contained: at most five
    are followed, only for manifests and blobs, with the method of the request; each leads
    over HTTPS to a DNS name and carries no header at all, so no token reaches another host;
    and a target on a reviewed origin is again one of the pulls it allows. *)
Theorem registry_redirects_contained `{WebUrl} `{Net} m request r0 locations r :
  authorizeRegistryEgressRequest m request = Ok r0 → locations ≠ [] →
  follow_redirects m r0 locations = Ok r →
  (length locations ≤ 5)%nat ∧ az_redirectHop r = Z.of_nat (length locations)
  ∧ az_operation r0 ∈ CONTENT_OPERATIONS ∧ az_method r = az_method r0
  ∧ redirect_target m r.
Proof.
  intros (v & Hv & Ha)%result_bind_ok Hne Hf. unfold validateRegistryEgressManifest in Hv.
  destruct (registryEgressManifestSchema m) eqn:Hm; [|done]. injection Hv as <-.
  apply result_bind_ok in Ha as (url & _ & Ha).
  destruct (matchOrigin m url) as [origin|] eqn:Ho; [|done]. pose proof Ho as [Hin _]%find_some_elem.
  apply result_bind_ok in Ha as ([method c] & _ & Ha). destruct (negb _); [done|].
  apply result_bind_ok in Ha as (headers & _ & [= <-]).
  apply follow_redirects_spec in Hf as (H1 & H2 & H3); [|done|by apply (origin_hops m)].
  destruct (H3 Hne) as (H4 & H5 & H6). cbn [az_redirectHop] in H1. split; [lia|]. split; [lia|]. done.
Qed.

Definition cdn_location : string := "https://cdn.example.net/blobs/ab".

Lemma registry_redirects_contained_witness :
  ∃ r, follow_redirects hub_manifest hub_authorized [cdn_location] = Ok r ∧ az_headers r = []
    ∧ redirect_target hub_manifest r.
Proof.
  eexists. split; [vm_compute; reflexivity|]. split; [reflexivity|].
  eapply (registry_redirects_contained hub_manifest hub_request hub_authorized [cdn_location]);
    [apply hub_request_authorized|done|vm_compute; reflexivity].
Defined.
