(* ===== verification/MediatedEgress.v ===== *)
(** * Forwarding an authorised request under byte ceilings

    Models src/docker/mediated-egress.ts, docker/egress-forwarding.ts and the guard and
    session ledger of docker/registry-egress-proxy.ts.  A session serves exchanges that
    interleave at the events of their sockets: a response arrives, a chunk of its body,
    its end or its failure, the deadline fires, the client closes.  The handlers of one
    event run without interruption.  What the environment may send is not restricted. *)

From Stdlib Require Import ZArith.
From S2P Require Import Prelude JsValue Urls EgressAddress UriText RegistryEgress.

Local Open Scope Z_scope.
Local Open Scope curtain_scope.

(** ** The session ledger *)

(** [createRegistryEgressSessionLedger]; a lease is an index, true once released. *)
Record SessionLedger := {
  sn_attempts : Z;
  sn_totalBytes : Z;
  sn_activeRequests : Z;
  sn_leases : list bool
}.

Definition new_session : SessionLedger :=
  {| sn_attempts := 0; sn_totalBytes := 0; sn_activeRequests := 0; sn_leases := [] |}.

Section ledger.
Context (maxTotalBytes maxConcurrentRequests : Z).

Definition recordAttempt (s : SessionLedger) : SessionLedger :=
  {| sn_attempts := sn_attempts s + 1; sn_totalBytes := sn_totalBytes s;
     sn_activeRequests := sn_activeRequests s; sn_leases := sn_leases s |}.

Definition acquire_slot (s : SessionLedger) : SessionLedger * result nat :=
  if maxConcurrentRequests <=? sn_activeRequests s
  then (s, Throw ("registry-egress session concurrency ceiling reached (" +:+ show_Z maxConcurrentRequests +:+ ")"))
  else ({| sn_attempts := sn_attempts s; sn_totalBytes := sn_totalBytes s;
           sn_activeRequests := sn_activeRequests s + 1; sn_leases := sn_leases s ++ [false] |},
        Ok (length (sn_leases s))).

Definition release_slot (lease : nat) (s : SessionLedger) : SessionLedger :=
  match sn_leases s !! lease with
  | Some false =>
      {| sn_attempts := sn_attempts s; sn_totalBytes := sn_totalBytes s;
         sn_activeRequests := sn_activeRequests s - 1; sn_leases := <[lease := true]> (sn_leases s) |}
  | _ => s
  end.

Definition wouldFit (additional : Z) (s : SessionLedger) : bool :=
  sn_totalBytes s + additional <=? maxTotalBytes.

Definition addBytes (count : Z) (s : SessionLedger) : SessionLedger * bool :=
  let total := sn_totalBytes s + count in
  ({| sn_attempts := sn_attempts s; sn_totalBytes := total; sn_activeRequests := sn_activeRequests s;
      sn_leases := sn_leases s |}, total <=? maxTotalBytes).
End ledger.

(** ** Requests and responses *)

Definition formatAuthority (hostname : string) (port : Z) (scheme : string) : string :=
  let host := if str_includes hostname ":" then "[" +:+ hostname +:+ "]" else hostname in
  let standard := (scheme =? "https:") && (port =? 443) || (scheme =? "http:") && (port =? 80) in
  if standard then host else host +:+ ":" +:+ show_Z port.

Definition buildRequestUrl (scheme targetHost : string) (targetPort : Z) (requestTarget : string) : string :=
  let path := if startsWith requestTarget "/" then requestTarget else "/" +:+ requestTarget in
  scheme +:+ "//" +:+ formatAuthority targetHost targetPort scheme +:+ path.

Definition MAX_REDIRECT_BODY_BYTES : Z := 64 * 1024.
Definition REDIRECT_STATUS_CODES : list Z := [301; 302; 303; 307; 308].

(** [Number(raw)] of a header that the HTTP parser accepts, decimal digits. *)
Definition declaredContentLength (headers : HttpHeaders) : option Z :=
  match firstHeader (header_get headers "content-length") with
  | None => None
  | Some raw =>
      if str_forallb is_digit raw then
        let value := parse_dec raw in if value <=? MAX_SAFE_INTEGER then Some value else None
      else None
  end.

(** What a request became at the client: the status lines written, the bytes of upstream
    bodies delivered, and whether the response was ended or torn down. *)
Record ClientResponse := {
  cr_statuses : list Z;
  cr_headers : HttpHeaders;
  cr_delivered : Z;
  cr_message : string;
  cr_ended : bool;
  cr_destroyed : bool
}.

Definition fresh_response : ClientResponse :=
  {| cr_statuses := []; cr_headers := []; cr_delivered := 0; cr_message := "";
     cr_ended := false; cr_destroyed := false |}.

Definition headersSent (c : ClientResponse) : bool := negb (bool_decide (cr_statuses c = [])).

Definition destroy_client (c : ClientResponse) : ClientResponse :=
  {| cr_statuses := cr_statuses c; cr_headers := cr_headers c; cr_delivered := cr_delivered c;
     cr_message := cr_message c; cr_ended := cr_ended c; cr_destroyed := true |}.

Definition end_client (c : ClientResponse) : ClientResponse :=
  {| cr_statuses := cr_statuses c; cr_headers := cr_headers c; cr_delivered := cr_delivered c;
     cr_message := cr_message c; cr_ended := true; cr_destroyed := cr_destroyed c |}.

Definition deliver (count : Z) (c : ClientResponse) : ClientResponse :=
  {| cr_statuses := cr_statuses c; cr_headers := cr_headers c; cr_delivered := cr_delivered c + count;
     cr_message := cr_message c; cr_ended := cr_ended c; cr_destroyed := cr_destroyed c |}.

Definition writeHead (status : Z) (headers : HttpHeaders) (c : ClientResponse) : ClientResponse :=
  {| cr_statuses := cr_statuses c ++ [status]; cr_headers := headers; cr_delivered := cr_delivered c;
     cr_message := cr_message c; cr_ended := cr_ended c; cr_destroyed := cr_destroyed c |}.

Definition rejectMediatedEgress (status : Z) (message : string) (c : ClientResponse) : ClientResponse :=
  if headersSent c then destroy_client c
  else
    {| cr_statuses := cr_statuses c ++ [status];
       cr_headers := [("content-type", Some (HOne "text/plain"))]; cr_delivered := cr_delivered c;
       cr_message := message; cr_ended := true; cr_destroyed := cr_destroyed c |}.

(** ** Exchanges *)

Section exchange.
Context {A : Type}.

(** What the caller of [forwardMediatedEgress] supplies. *)
Record MediatedEgressConfig := {
  mc_label : string;
  mc_describe : A → Z * Z;                  (** [maxBytes] and [maxDurationMs] *)
  mc_assertReady : A → result unit;
  mc_request : A → result unit;             (** [transport.request] may throw *)
  mc_followRedirect : option (A → string → result A);
  mc_maxTotalBytes : Z;
  mc_maxConcurrentRequests : Z
}.

Definition spec_maxBytes (config : MediatedEgressConfig) (a : A) : Z := (mc_describe config a).1.

(** Where the handlers of the current hop stand. *)
Inductive Phase :=
| Awaiting (authorized : A)                          (** the response callback is installed *)
| Draining (authorized next : A) (bodyCap drained : Z)
| Streaming (authorized : A) (total : Z)
| Resumed                                            (** [upstreamRes.resume()] *)
| Over.

Record MediatedExchange := {
  ex_client : ClientResponse;
  ex_lease : option nat;
  ex_consumedBytes : Z;
  ex_settled : bool;
  ex_phase : Phase;
  ex_completed : option (A * Z);            (** the call of [onComplete] *)
  ex_discarded : Z                          (** bytes that reached [resume] *)
}.

Definition with_client (f : ClientResponse → ClientResponse) (e : MediatedExchange) : MediatedExchange :=
  {| ex_client := f (ex_client e); ex_lease := ex_lease e; ex_consumedBytes := ex_consumedBytes e;
     ex_settled := ex_settled e; ex_phase := ex_phase e; ex_completed := ex_completed e;
     ex_discarded := ex_discarded e |}.

Definition with_phase (p : Phase) (e : MediatedExchange) : MediatedExchange :=
  {| ex_client := ex_client e; ex_lease := ex_lease e; ex_consumedBytes := ex_consumedBytes e;
     ex_settled := ex_settled e; ex_phase := p; ex_completed := ex_completed e;
     ex_discarded := ex_discarded e |}.

Definition with_consumed (n : Z) (e : MediatedExchange) : MediatedExchange :=
  {| ex_client := ex_client e; ex_lease := ex_lease e; ex_consumedBytes := n;
     ex_settled := ex_settled e; ex_phase := ex_phase e; ex_completed := ex_completed e;
     ex_discarded := ex_discarded e |}.

Definition complete (a : A) (bytes : Z) (e : MediatedExchange) : MediatedExchange :=
  {| ex_client := ex_client e; ex_lease := ex_lease e; ex_consumedBytes := ex_consumedBytes e;
     ex_settled := ex_settled e; ex_phase := ex_phase e; ex_completed := Some (a, bytes);
     ex_discarded := ex_discarded e |}.

Definition discard (n : Z) (e : MediatedExchange) : MediatedExchange :=
  {| ex_client := ex_client e; ex_lease := ex_lease e; ex_consumedBytes := ex_consumedBytes e;
     ex_settled := ex_settled e; ex_phase := ex_phase e; ex_completed := ex_completed e;
     ex_discarded := ex_discarded e + n |}.

Definition settle (e : MediatedExchange) : MediatedExchange :=
  {| ex_client := ex_client e; ex_lease := ex_lease e; ex_consumedBytes := ex_consumedBytes e;
     ex_settled := true; ex_phase := ex_phase e; ex_completed := ex_completed e;
     ex_discarded := ex_discarded e |}.

Context (config : MediatedEgressConfig).
Abbreviation Out := (SessionLedger * MediatedExchange)%type.

Definition fetchMediated (authorized : A) (e : MediatedExchange) : MediatedExchange :=
  match mc_request config authorized with
  | Ok _ => with_phase (Awaiting authorized) e
  | Throw message =>
      with_client (λ c, if negb (headersSent c) then rejectMediatedEgress 502 message c else destroy_client c)
        (with_phase Over e)
  end.

Definition followMediatedRedirect (authorized : A) (followRedirect : A → string → result A)
    (headers : HttpHeaders) (e : MediatedExchange) : MediatedExchange :=
  match firstHeader (header_get headers "location") with
  | None =>
      with_client (rejectMediatedEgress 502 (mc_label config +:+ ": redirect is missing a Location header"))
        (with_phase Over e)
  | Some location =>
      match followRedirect authorized location with
      | Throw message => with_client (rejectMediatedEgress 403 message) (with_phase Over e)
      | Ok next =>
          let remaining := spec_maxBytes config authorized - ex_consumedBytes e in
          with_phase (Draining authorized next (Z.min MAX_REDIRECT_BODY_BYTES remaining) 0) e
      end
  end.

Definition streamMediatedToClient (authorized : A) (status : Z) (headers : HttpHeaders)
    (s : SessionLedger) (e : MediatedExchange) : MediatedExchange :=
  let maxBytes := spec_maxBytes config authorized in
  let over :=
    match declaredContentLength headers with
    | Some declared => (maxBytes <? ex_consumedBytes e + declared)
                       || negb (wouldFit (mc_maxTotalBytes config) declared s)
    | None => false
    end in
  if over
  then with_client (rejectMediatedEgress 502 (mc_label config +:+ ": response exceeds a byte ceiling"))
         (with_phase Resumed e)
  else with_client (writeHead status (sanitizeResponseHeaders headers)) (with_phase (Streaming authorized 0) e).

(** The callback of the current hop. *)
Definition onMediatedResponse (status : Z) (headers : HttpHeaders) (s : SessionLedger) (e : MediatedExchange) : Out :=
  match ex_phase e with
  | Awaiting authorized =>
      (s,
       if ex_settled e || cr_ended (ex_client e) || cr_destroyed (ex_client e) then with_phase Resumed e
       else match mc_followRedirect config with
       | Some followRedirect =>
           if includes REDIRECT_STATUS_CODES status
           then followMediatedRedirect authorized followRedirect headers e
           else streamMediatedToClient authorized status headers s e
       | None => streamMediatedToClient authorized status headers s e
       end)
  | _ => (s, e)
  end.

Definition onData (count : Z) (s : SessionLedger) (e : MediatedExchange) : Out :=
  match ex_phase e with
  | Draining authorized next bodyCap drained =>
      let drained := drained + count in
      let reject e := with_client
        (rejectMediatedEgress 502 (mc_label config +:+ ": redirect body exceeds a byte ceiling")) (with_phase Over e) in
      if bodyCap <? drained then (s, reject e)
      else
        let '(s, fits) := addBytes (mc_maxTotalBytes config) count s in
        if negb fits then (s, reject e) else (s, with_phase (Draining authorized next bodyCap drained) e)
  | Streaming authorized total =>
      let total := total + count in
      let abort e := with_client destroy_client (with_phase Over e) in
      if spec_maxBytes config authorized <? ex_consumedBytes e + total then (s, abort e)
      else
        let '(s, fits) := addBytes (mc_maxTotalBytes config) count s in
        if negb fits then (s, abort e)
        else (s, with_client (deliver count) (with_phase (Streaming authorized total) e))
  | Resumed => (s, discard count e)
  | _ => (s, e)
  end.

Definition onEnd (s : SessionLedger) (e : MediatedExchange) : Out :=
  match ex_phase e with
  | Draining authorized next bodyCap drained =>
      if ex_settled e then (s, with_phase Over e)
      else (s, fetchMediated next (with_consumed (ex_consumedBytes e + drained) e))
  | Streaming authorized total => (s, complete authorized total (with_client end_client (with_phase Over e)))
  | Resumed => (s, with_phase Over e)
  | _ => (s, e)
  end.

(** The body fails. *)
Definition onBodyError (s : SessionLedger) (e : MediatedExchange) : Out :=
  match ex_phase e with
  | Draining _ _ _ _ =>
      (s, with_client (rejectMediatedEgress 502 (mc_label config +:+ ": redirect body transfer failed"))
            (with_phase Over e))
  | Streaming _ _ => (s, with_client destroy_client (with_phase Over e))
  | Resumed => (s, with_phase Over e)
  | _ => (s, e)
  end.

(** The request of the current hop fails. *)
Definition onRequestError (message : string) (s : SessionLedger) (e : MediatedExchange) : Out :=
  (s, with_client (λ c, if negb (headersSent c) then rejectMediatedEgress 502 message c else destroy_client c) e).

Definition onDeadline (s : SessionLedger) (e : MediatedExchange) : Out :=
  if ex_settled e then (s, e)
  else (s, with_client (λ c, if negb (headersSent c)
                             then rejectMediatedEgress 504 (mc_label config +:+ ": exceeded the time ceiling") c
                             else destroy_client c) e).

(** [close] of the client, and the teardown of the pipeline it causes. *)
Definition finalizeMediatedExchange (s : SessionLedger) (e : MediatedExchange) : Out :=
  if ex_settled e then (s, e)
  else (match ex_lease e with Some lease => release_slot lease s | None => s end,
        settle (with_client destroy_client
                  (match ex_phase e with Streaming _ _ => with_phase Over e | _ => e end))).

Definition forwardMediatedEgress (initial : A) (s : SessionLedger) : Out :=
  let rejected status message :=
    {| ex_client := rejectMediatedEgress status message fresh_response; ex_lease := None;
       ex_consumedBytes := 0; ex_settled := true; ex_phase := Over; ex_completed := None; ex_discarded := 0 |} in
  match mc_assertReady config initial with
  | Throw message => (s, rejected 502 message)
  | Ok _ =>
      match acquire_slot (mc_maxConcurrentRequests config) s with
      | (s, Throw message) => (s, rejected 503 message)
      | (s, Ok lease) =>
          (s, fetchMediated initial
                {| ex_client := fresh_response; ex_lease := Some lease; ex_consumedBytes := 0;
                   ex_settled := false; ex_phase := Awaiting initial; ex_completed := None;
                   ex_discarded := 0 |})
      end
  end.

(** ** Interleavings *)

Inductive ExchangeEvent :=
| Response (status : Z) (headers : HttpHeaders)
| Data (count : nat)
| End
| BodyError
| RequestError (message : string)
| Deadline
| ClientClose.

Definition on_event (ev : ExchangeEvent) (s : SessionLedger) (e : MediatedExchange) : Out :=
  match ev with
  | Response status headers => onMediatedResponse status headers s e
  | Data count => onData (Z.of_nat count) s e
  | End => onEnd s e
  | BodyError => onBodyError s e
  | RequestError message => onRequestError message s e
  | Deadline => onDeadline s e
  | ClientClose => finalizeMediatedExchange s e
  end.

Record MediatedSession := { ms_ledger : SessionLedger; ms_exchanges : list MediatedExchange }.

Inductive SessionEvent :=
| Arrive (authorized : result A)               (** the decision of the guard *)
| On (i : nat) (ev : ExchangeEvent).

(** [handleRegistryEgressRequest]: a refused request reaches no upstream. *)
Definition arrive (authorized : result A) (s : SessionLedger) : Out :=
  let s := recordAttempt s in
  match authorized with
  | Throw message =>
      (s, {| ex_client := rejectMediatedEgress 403 ("registry egress denied: " +:+ message) fresh_response;
             ex_lease := None; ex_consumedBytes := 0; ex_settled := true; ex_phase := Over;
             ex_completed := None; ex_discarded := 0 |})
  | Ok initial => forwardMediatedEgress initial s
  end.

Definition session_step (ev : SessionEvent) (m : MediatedSession) : MediatedSession :=
  match ev with
  | Arrive authorized =>
      let '(s, e) := arrive authorized (ms_ledger m) in
      {| ms_ledger := s; ms_exchanges := ms_exchanges m ++ [e] |}
  | On i ev =>
      match ms_exchanges m !! i with
      | None => m
      | Some e =>
          let '(s, e) := on_event ev (ms_ledger m) e in
          {| ms_ledger := s; ms_exchanges := <[i := e]> (ms_exchanges m) |}
      end
  end.

Definition session_run (evs : list SessionEvent) : MediatedSession :=
  foldl (λ m ev, session_step ev m) {| ms_ledger := new_session; ms_exchanges := [] |} evs.

End exchange.

Arguments MediatedEgressConfig : clear implicits.
Arguments MediatedExchange : clear implicits.
Arguments MediatedSession : clear implicits.
Arguments SessionEvent : clear implicits.
Arguments Phase : clear implicits.

(** ** The guard of a session *)

Section guard.
Context `{WebUrl} `{Net}.

(** [createRegistryEgressGuard]: no manifest when it is disabled. *)
Definition createRegistryEgressGuard (enabled : bool) (loaded : option (result RegistryEgressManifest))
    (allowUnfrozenManifest : bool) : result (option RegistryEgressManifest) :=
  if negb enabled then Ok None
  else match loaded with
  | None => Throw "public-registry egress requires a manifest path"
  | Some (Throw e) => Throw e
  | Some (Ok manifest) =>
      validated ← validateRegistryEgressManifest manifest;
      if negb (mf_frozen validated) && negb allowUnfrozenManifest
      then Throw "registry egress requires a frozen manifest"
      else Ok (Some validated)
  end.

Definition guard_authorize (guard : option RegistryEgressManifest) (request : RegistryEgressRequest) :
    result AuthorizedRegistryEgressRequest :=
  match guard with
  | None => Throw "registry egress is disabled; no registry pull is authorized"
  | Some manifest => authorizeValidatedRegistryEgressRequest manifest request
  end.

Definition guard_authorizeRedirect (guard : option RegistryEgressManifest)
    (current : AuthorizedRegistryEgressRequest) (location : string) : result AuthorizedRegistryEgressRequest :=
  match guard with
  | None => Throw "registry egress is disabled; no redirect is authorized"
  | Some manifest => authorizeValidatedRegistryRedirect manifest current location
  end.

Definition assertLocalAddressAuthority (localResolver : bool) : result unit :=
  if localResolver then Ok ()
  else Throw "registry egress follows derived redirects and requires a transport that resolves and screens destination addresses locally".

(** The configuration that [handleRegistryEgressRequest] passes on. *)
Definition registry_config (manifest : RegistryEgressManifest) (localResolver : bool)
    (request : AuthorizedRegistryEgressRequest → result unit) :
    MediatedEgressConfig AuthorizedRegistryEgressRequest :=
  {| mc_label := "registry-egress"; mc_describe := λ a, (az_maxBytes a, az_maxDurationMs a);
     mc_assertReady := λ _, assertLocalAddressAuthority localResolver; mc_request := request;
     mc_followRedirect := Some (guard_authorizeRedirect (Some manifest));
     mc_maxTotalBytes := mf_maxTotalBytes manifest;
     mc_maxConcurrentRequests := mf_maxConcurrentRequests manifest |}.

(** What arrives at the proxy becomes the request that the guard judges. *)
Definition terminated_request (scheme targetHost : string) (targetPort : Z)
    (method requestTarget : string) (headers : HttpHeaders) : RegistryEgressRequest :=
  {| rq_method := method; rq_url := buildRequestUrl scheme targetHost targetPort requestTarget;
     rq_headers := headers |}.

End guard.
