(* ===== verification/MediatedProperties.v ===== *)
(** * Properties of mediated egress

    The byte and concurrency ceilings of a session over every interleaving of its
    exchanges, and what they leave out. *)

From Stdlib Require Import ZArith Lia.
From S2P Require Import Prelude JsValue Urls EgressAddress UriText RegistryEgress MediatedEgress.

Local Open Scope Z_scope.
Local Open Scope curtain_scope.

Section theory.
Context {A : Type} (config : MediatedEgressConfig A) (P : A → Prop).
Hypothesis P_follow : ∀ f a location b,
  mc_followRedirect config = Some f → P a → f a location = Ok b → P b.

(** ** One exchange *)

Definition draining_bytes (p : Phase A) : Z := match p with Draining _ _ _ drained => drained | _ => 0 end.

(** Bytes of upstream bodies that were accepted for an exchange. *)
Definition used (e : MediatedExchange A) : Z :=
  ex_consumedBytes e + cr_delivered (ex_client e) + draining_bytes (ex_phase e).

Definition unfinished (e : MediatedExchange A) : Z := if ex_settled e then 0 else 1.

Definition phase_ok (e : MediatedExchange A) : Prop :=
  match ex_phase e with
  | Awaiting a => P a ∧ cr_delivered (ex_client e) = 0 ∧ ex_completed e = None
  | Draining a b cap drained =>
      P a ∧ P b ∧ cr_delivered (ex_client e) = 0 ∧ ex_completed e = None ∧ 0 ≤ drained
      ∧ cap ≤ MAX_REDIRECT_BODY_BYTES ∧ cap ≤ spec_maxBytes config a - ex_consumedBytes e
  | Streaming a total => P a ∧ cr_delivered (ex_client e) = total ∧ ex_completed e = None
  | _ => True
  end.

Definition is_streaming (p : Phase A) : bool := match p with Streaming _ _ => true | _ => false end.

Record exchange_ok (e : MediatedExchange A) : Prop := {
  eo_status : (length (cr_statuses (ex_client e)) ≤ 1)%nat;
  eo_dead : is_streaming (ex_phase e) = true ∨ cr_statuses (ex_client e) = []
            ∨ cr_ended (ex_client e) || cr_destroyed (ex_client e) = true;
  eo_phase : phase_ok e;
  eo_consumed : 0 ≤ ex_consumedBytes e;
  eo_delivered : 0 ≤ cr_delivered (ex_client e);
  eo_used : 0 < used e → ∃ a, P a ∧ used e ≤ spec_maxBytes config a;
  eo_completed : ∀ a n, ex_completed e = Some (a, n) → P a ∧ n = cr_delivered (ex_client e);
  eo_lease : ex_settled e = false → is_Some (ex_lease e)
}.

(** What one event may do to the ledger, for an exchange that holds its lease. *)
Record ledger_effect (s s' : SessionLedger) (e e' : MediatedExchange A) : Prop := {
  le_lease : ex_lease e' = ex_lease e;
  le_bytes : sn_totalBytes s ≤ sn_totalBytes s';
  le_used : used e' ≤ used e
            ∨ (used e' - used e ≤ sn_totalBytes s' - sn_totalBytes s ∧ sn_totalBytes s' ≤ mc_maxTotalBytes config);
  le_active : sn_activeRequests s' = sn_activeRequests s - unfinished e + unfinished e';
  le_leases : (sn_leases s' = sn_leases s ∧ ex_settled e' = ex_settled e)
              ∨ ∃ l, ex_lease e = Some l ∧ sn_leases s' = <[l := true]> (sn_leases s) ∧ ex_settled e' = true
}.

Definition holds_lease (s : SessionLedger) (e : MediatedExchange A) : Prop :=
  ∀ l, ex_lease e = Some l → sn_leases s !! l = Some (ex_settled e).

Lemma ledger_effect_same s e e' :
  ex_lease e' = ex_lease e → ex_settled e' = ex_settled e → used e' ≤ used e → ledger_effect s s e e'.
Proof. intros Hl Hs Hu. constructor; unfold unfinished; rewrite ?Hs; auto; lia. Qed.

(** *** The client's response *)

Lemma reject_statuses status message c :
  (length (cr_statuses c) ≤ 1)%nat →
  let c' := rejectMediatedEgress status message c in
  (length (cr_statuses c') ≤ 1)%nat ∧ cr_ended c' || cr_destroyed c' = true ∧ cr_delivered c' = cr_delivered c.
Proof.
  unfold rejectMediatedEgress, headersSent. case_bool_decide as E; csimpl; [rewrite E; cbn; intros; auto|].
  intros. by rewrite orb_true_r.
Qed.

(** Giving up: the phase is over and the client refused or torn down. *)
Lemma give_up_ok e p (f : ClientResponse → ClientResponse) :
  exchange_ok e → (p = Resumed ∨ p = Over) →
  (∀ c, (length (cr_statuses c) ≤ 1)%nat →
     (length (cr_statuses (f c)) ≤ 1)%nat ∧ cr_ended (f c) || cr_destroyed (f c) = true ∧ cr_delivered (f c) = cr_delivered c) →
  let e' := with_client f (with_phase p e) in
  exchange_ok e' ∧ used e' ≤ used e.
Proof.
  intros [] Hp Hf e'. destruct (Hf (ex_client e) eo_status0) as (Hs & Hd & Hdel).
  assert (Hused : used e' ≤ used e).
  { unfold used, e', with_client, with_phase. csimpl. rewrite Hdel. unfold phase_ok in eo_phase0.
    destruct Hp as [-> | ->]; destruct (ex_phase e); csimpl; naive_solver lia. }
  split; [|done]. constructor; csimpl; try done.
  - by right; right.
  - unfold phase_ok, e', with_client, with_phase. csimpl. by destruct Hp as [-> | ->].
  - by rewrite Hdel.
  - intros Hpos. destruct eo_used0 as (a & Ha & Hle); [lia|]. exists a. split; [done|]. lia.
  - by rewrite Hdel.
Qed.

Lemma destroy_gives_up c :
  (length (cr_statuses c) ≤ 1)%nat →
  (length (cr_statuses (destroy_client c)) ≤ 1)%nat
  ∧ cr_ended (destroy_client c) || cr_destroyed (destroy_client c) = true
  ∧ cr_delivered (destroy_client c) = cr_delivered c.
Proof. intros. csimpl. by rewrite orb_true_r. Qed.

Lemma reject_or_destroy_gives_up status message c :
  (length (cr_statuses c) ≤ 1)%nat →
  let c' := if negb (headersSent c) then rejectMediatedEgress status message c else destroy_client c in
  (length (cr_statuses c') ≤ 1)%nat ∧ cr_ended c' || cr_destroyed c' = true ∧ cr_delivered c' = cr_delivered c.
Proof.
  intros Hs c'. subst c'. destruct (negb (headersSent c)); [by apply reject_statuses|by apply destroy_gives_up].
Qed.

Lemma reject_ok p status message e :
  exchange_ok e → (p = Resumed ∨ p = Over) →
  let e' := with_client (rejectMediatedEgress status message) (with_phase p e) in
  exchange_ok e' ∧ used e' ≤ used e ∧ ex_lease e' = ex_lease e ∧ ex_settled e' = ex_settled e.
Proof.
  intros He Hp. destruct (give_up_ok e p (rejectMediatedEgress status message) He Hp (reject_statuses status message)).
  done.
Qed.

(** *** Hops *)

(** A request that is sent, or fails to be. *)
Lemma fetch_ok a e :
  exchange_ok e → P a → cr_delivered (ex_client e) = 0 → ex_completed e = None →
  cr_statuses (ex_client e) = [] ∨ cr_ended (ex_client e) || cr_destroyed (ex_client e) = true →
  let e' := fetchMediated config a e in
  exchange_ok e' ∧ used e' ≤ used e ∧ ex_lease e' = ex_lease e ∧ ex_settled e' = ex_settled e.
Proof.
  intros He Ha Hdel Hcomp Hdead. unfold fetchMediated. destruct (mc_request config a) as [[]|message].
  - pose proof He as [].
    assert (Hused : used (with_phase (Awaiting a) e) ≤ used e).
    { unfold used, with_phase. csimpl. unfold phase_ok in eo_phase0. destruct (ex_phase e); csimpl; naive_solver lia. }
    split; [|done]. constructor; csimpl; try done; [by right|].
    intros Hpos. destruct eo_used0 as (b & Hb & Hle); [lia|]. exists b. split; [done|]. lia.
  - destruct (give_up_ok e Over (λ c, if negb (headersSent c) then rejectMediatedEgress 502 message c else destroy_client c)
      He (or_intror eq_refl) (reject_or_destroy_gives_up 502 message)) as [Hok Hused].
    done.
Qed.

Lemma follow_ok a f headers e :
  exchange_ok e → ex_phase e = Awaiting a → mc_followRedirect config = Some f →
  cr_statuses (ex_client e) = [] ∨ cr_ended (ex_client e) || cr_destroyed (ex_client e) = true →
  let e' := followMediatedRedirect config a f headers e in
  exchange_ok e' ∧ used e' ≤ used e ∧ ex_lease e' = ex_lease e ∧ ex_settled e' = ex_settled e.
Proof.
  intros He Hp Hf Hdead. pose proof He as []. unfold phase_ok in eo_phase0. rewrite Hp in eo_phase0.
  destruct eo_phase0 as (Ha & Hdel & Hcomp). unfold followMediatedRedirect.
  destruct (firstHeader _) as [location|].
  2:{ apply reject_ok; auto. }
  destruct (f a location) as [next|message] eqn:Hn.
  2:{ apply reject_ok; auto. }
  assert (Hused : ∀ cap, used (with_phase (Draining a next cap 0) e) = used e).
  { intros cap. unfold used, with_phase. csimpl. rewrite Hp. csimpl. lia. }
  split; [|split; [rewrite Hused; lia|done]]. constructor; csimpl; try done.
  - by right.
  - unfold phase_ok. csimpl. split; [done|]. split; [by eapply P_follow|]. repeat split; lia || done.
  - by rewrite Hused.
Qed.

Lemma stream_ok a status headers s e :
  exchange_ok e → ex_phase e = Awaiting a → cr_statuses (ex_client e) = [] →
  let e' := streamMediatedToClient config a status headers s e in
  exchange_ok e' ∧ used e' ≤ used e ∧ ex_lease e' = ex_lease e ∧ ex_settled e' = ex_settled e.
Proof.
  intros He Hp Hst. pose proof He as []. unfold phase_ok in eo_phase0. rewrite Hp in eo_phase0.
  destruct eo_phase0 as (Ha & Hdel & Hcomp). unfold streamMediatedToClient. cbv zeta.
  destruct (match declaredContentLength headers with Some _ => _ | None => _ end).
  { apply reject_ok; auto. }
  assert (Hused : used (with_client (writeHead status (sanitizeResponseHeaders headers)) (with_phase (Streaming a 0) e)) = used e).
  { unfold used, with_client, with_phase. csimpl. rewrite Hp. done. }
  split; [|split; [rewrite Hused; lia|done]]. constructor; csimpl; try done.
  - rewrite Hst. cbn. lia.
  - by left.
  - by rewrite Hused.
Qed.

Lemma response_ok status headers s e :
  exchange_ok e →
  let r := onMediatedResponse config status headers s e in
  exchange_ok r.2 ∧ ledger_effect s r.1 e r.2.
Proof.
  intros He. unfold onMediatedResponse. destruct (ex_phase e) as [a| | | |] eqn:Hp; cbv zeta; cbn [fst snd];
    try (split; [done|]; by apply ledger_effect_same).
  destruct (ex_settled e || _ || _) eqn:Hdead.
  - pose proof He as []. assert (Hused : used (with_phase Resumed e) = used e).
    { unfold used, with_phase. csimpl. by rewrite Hp. }
    split; [|apply ledger_effect_same; [done..|by rewrite Hused]].
    constructor; csimpl; try done; [|by rewrite Hused].
    right. destruct eo_dead0 as [Hs|?]; [by rewrite Hp in Hs|done].
  - apply orb_false_iff in Hdead as [[_ He1]%orb_false_iff He2].
    assert (Hst : cr_statuses (ex_client e) = []).
    { destruct (eo_dead _ He) as [Hs|[?|Hd]]; [by rewrite Hp in Hs|done|]. by rewrite He1, He2 in Hd. }
    assert (Hstream := stream_ok a status headers s e He Hp Hst). cbv zeta in Hstream.
    assert (Hfollow := λ f, follow_ok a f headers e He Hp).
    destruct (mc_followRedirect config) as [f|] eqn:Hf; [|destruct Hstream as (? & ? & ? & ?); split; [done|by apply ledger_effect_same]].
    destruct (includes _ _); [|destruct Hstream as (? & ? & ? & ?); split; [done|by apply ledger_effect_same]].
    destruct (Hfollow f eq_refl (or_introl Hst)) as (? & ? & ? & ?).
    split; [done|by apply ledger_effect_same].
Qed.

(** *** Bodies *)

Lemma add_effect s count e e' :
  0 ≤ count → ex_lease e' = ex_lease e → ex_settled e' = ex_settled e →
  used e' ≤ used e ∨ (used e' = used e + count ∧ (addBytes (mc_maxTotalBytes config) count s).2 = true) →
  ledger_effect s (addBytes (mc_maxTotalBytes config) count s).1 e e'.
Proof.
  intros Hc Hl Hs Hu. unfold addBytes in *. cbn [fst snd] in *.
  constructor; unfold unfinished; rewrite ?Hs; cbn [sn_totalBytes sn_activeRequests sn_leases]; [done|lia| |lia|by left].
  destruct Hu as [?|[-> ?%Z.leb_le]]; [by left|right]. lia.
Qed.

Lemma data_ok count s e :
  0 ≤ count → exchange_ok e →
  let r := onData config count s e in exchange_ok r.2 ∧ ledger_effect s r.1 e r.2.
Proof.
  intros Hc He. pose proof He as []. unfold onData. destruct (ex_phase e) as [a|a b cap d|a t| |] eqn:Hp; cbv zeta;
    try (cbn [fst snd]; split; [done|]; by apply ledger_effect_same).
  - unfold phase_ok in eo_phase0. rewrite Hp in eo_phase0. destruct eo_phase0 as (Ha & Hb & Hdel & Hcomp & Hd & Hcap & Hcap').
    destruct (reject_ok Over 502 (mc_label config +:+ ": redirect body exceeds a byte ceiling") e He)
      as (Hok & Hused & _ & _); [by right|].
    destruct (Z.ltb_spec cap (d + count)); [cbn [fst snd]; split; [done|by apply ledger_effect_same]|].
    destruct (addBytes _ count s) as [s' fits] eqn:Hadd.
    replace s' with (addBytes (mc_maxTotalBytes config) count s).1 by by rewrite Hadd.
    destruct fits; cbn [negb fst snd].
    + assert (Hu : used (with_phase (Draining a b cap (d + count)) e) = used e + count).
      { unfold used, with_phase. csimpl. rewrite Hp. csimpl. lia. }
      split; [|apply add_effect; [done..|right; by rewrite Hadd]].
      constructor; csimpl; try done.
      * unfold phase_ok. csimpl. repeat split; done || lia.
      * intros _. exists a. split; [done|]. unfold used. csimpl. lia.
    + split; [done|]. apply add_effect; [done..|by left].
  - unfold phase_ok in eo_phase0. rewrite Hp in eo_phase0. destruct eo_phase0 as (Ha & Hdel & Hcomp).
    destruct (give_up_ok e Over destroy_client He (or_intror eq_refl) destroy_gives_up) as [Hok Hused].
    destruct (Z.ltb_spec (spec_maxBytes config a) (ex_consumedBytes e + (t + count))); [cbn [fst snd]; split; [done|by apply ledger_effect_same]|].
    destruct (addBytes _ count s) as [s' fits] eqn:Hadd.
    replace s' with (addBytes (mc_maxTotalBytes config) count s).1 by by rewrite Hadd.
    destruct fits; cbn [negb fst snd].
    + assert (Hu : used (with_client (deliver count) (with_phase (Streaming a (t + count)) e)) = used e + count).
      { unfold used, with_client, with_phase. csimpl. rewrite Hp. csimpl. lia. }
      split; [|apply add_effect; [done..|right; by rewrite Hadd]].
      constructor; csimpl; try done; try lia.
      * unfold phase_ok. csimpl. repeat split; done || lia.
      * intros _. exists a. split; [done|]. unfold used. csimpl. lia.
      * intros b n Hbn. congruence.
    + split; [done|]. apply add_effect; [done..|by left].
  - cbn [fst snd]. split; [|by apply ledger_effect_same].
    constructor; try done; unfold phase_ok; csimpl; by rewrite Hp.
Qed.

Lemma end_ok s e :
  exchange_ok e → let r := onEnd config s e in exchange_ok r.2 ∧ ledger_effect s r.1 e r.2.
Proof.
  intros He. pose proof He as []. unfold onEnd.
  assert (Hover : ∀ f, (∀ c, cr_statuses (f c) = cr_statuses c) → (∀ c, cr_delivered (f c) = cr_delivered c) →
    (∀ c, cr_ended c || cr_destroyed c = true → cr_ended (f c) || cr_destroyed (f c) = true) →
    (is_streaming (ex_phase e) = true → ∀ c, cr_ended (f c) || cr_destroyed (f c) = true) →
    let e' := with_client f (with_phase Over e) in exchange_ok e' ∧ used e' ≤ used e).
  { intros f Hs Hd Hmore Hst. assert (Hused : used (with_client f (with_phase Over e)) ≤ used e).
    { unfold used, with_client, with_phase. csimpl. rewrite Hd. unfold phase_ok in eo_phase0.
      destruct (ex_phase e); csimpl; naive_solver lia. }
    split; [|done]. constructor; csimpl; rewrite ?Hs, ?Hd; try done.
    - right. destruct eo_dead0 as [?|[?|?]]; [right; by apply Hst|by left|right; by apply Hmore].
    - intros Hpos. destruct eo_used0 as (a & Ha & Hle); [lia|]. exists a. split; [done|]. lia. }
  destruct (ex_phase e) as [a|a b cap d|a t| |] eqn:Hp; cbv zeta; cbn [fst snd];
    try (split; [done|]; by apply ledger_effect_same).
  - destruct (ex_settled e) eqn:Hset.
    + destruct (Hover id) as [Hok Hu]; [done..|]. 
      replace (with_client id (with_phase Over e)) with (with_phase Over e) in * by by destruct e.
      split; [done|]. by apply ledger_effect_same.
    + unfold phase_ok in eo_phase0. rewrite Hp in eo_phase0.
      destruct eo_phase0 as (Ha & Hb & Hdel & Hcomp & Hd & Hcap & Hcap').
      set (e1 := with_consumed (ex_consumedBytes e + d) (with_phase (Awaiting a) e)).
      assert (Hu1 : used e1 = used e) by (unfold used, e1; csimpl; rewrite Hp; csimpl; lia).
      assert (He1 : exchange_ok e1).
      { constructor; rewrite ?Hu1; try done; [|intros _; by apply eo_lease0].
        unfold e1. cbn [ex_consumedBytes with_consumed]. lia. }
      replace (fetchMediated config b (with_consumed (ex_consumedBytes e + d) e)) with (fetchMediated config b e1)
        by (unfold fetchMediated, e1; by destruct (mc_request config b)).
      destruct (fetch_ok b e1 He1 Hb) as (Hok & Hu & Hl & Hs); [done|done|..].
      { destruct (eo_dead _ He1) as [?|?]; [done|by auto]. }
      split; [done|]. apply ledger_effect_same; [done|done|by rewrite <-Hu1].
  - destruct (Hover end_client) as [Hok Hu]; [done..|].
    unfold phase_ok in eo_phase0. rewrite Hp in eo_phase0. destruct eo_phase0 as (Ha & Hdel & Hcomp).
    split; [|by apply ledger_effect_same]. destruct Hok. constructor; try done. csimpl.
    intros b n [= <- <-]. by rewrite Hdel.
  - destruct (Hover id) as [Hok Hu]; [done..|].
    replace (with_client id (with_phase Over e)) with (with_phase Over e) in * by by destruct e.
    split; [done|]. by apply ledger_effect_same.
Qed.

Lemma body_error_ok s e :
  exchange_ok e → let r := onBodyError config s e in exchange_ok r.2 ∧ ledger_effect s r.1 e r.2.
Proof.
  intros He. unfold onBodyError. destruct (ex_phase e) as [a|a b cap d|a t| |] eqn:Hp; cbv zeta; cbn [fst snd];
    try (split; [done|]; by apply ledger_effect_same).
  - edestruct (reject_ok Over 502) as (Hok & Hused & Hl & Hs); [done|by right|].
    split; [exact Hok|by apply ledger_effect_same].
  - destruct (give_up_ok e Over destroy_client He (or_intror eq_refl) destroy_gives_up) as [Hok Hused].
    split; [done|by apply ledger_effect_same].
  - pose proof (end_ok s e He) as Hend. unfold onEnd in Hend. by rewrite Hp in Hend.
Qed.

(** Handlers that touch only the client leave the phase where it is. *)
Lemma client_ok (f : ClientResponse → ClientResponse) e :
  exchange_ok e →
  (∀ c, (length (cr_statuses c) ≤ 1)%nat →
     (length (cr_statuses (f c)) ≤ 1)%nat ∧ cr_ended (f c) || cr_destroyed (f c) = true ∧ cr_delivered (f c) = cr_delivered c) →
  let e' := with_client f e in exchange_ok e' ∧ used e' = used e.
Proof.
  intros [] Hf e'. destruct (Hf (ex_client e) eo_status0) as (Hs & Hd & Hdel).
  assert (Hused : used e' = used e) by (unfold used, e', with_client; csimpl; by rewrite Hdel).
  split; [|done]. constructor; rewrite ?Hused; try done; unfold e', with_client; csimpl; rewrite ?Hdel; try done.
  - by right; right.
  - unfold phase_ok in *. csimpl. by rewrite Hdel.
Qed.

Lemma request_error_ok message s e :
  exchange_ok e → let r := onRequestError message s e in exchange_ok r.2 ∧ ledger_effect s r.1 e r.2.
Proof.
  intros He. unfold onRequestError. cbn [fst snd].
  destruct (client_ok (λ c, if negb (headersSent c) then rejectMediatedEgress 502 message c else destroy_client c) e He
    (reject_or_destroy_gives_up 502 message)) as [Hok Hused].
  split; [done|apply ledger_effect_same; [done..|by rewrite Hused]].
Qed.

Lemma deadline_ok s e :
  exchange_ok e → let r := onDeadline config s e in exchange_ok r.2 ∧ ledger_effect s r.1 e r.2.
Proof.
  intros He. unfold onDeadline. destruct (ex_settled e) eqn:Hs; cbn [fst snd]; [split; [done|by apply ledger_effect_same]|].
  edestruct (client_ok (λ c, if negb (headersSent c)
    then rejectMediatedEgress 504 (mc_label config +:+ ": exceeded the time ceiling") c else destroy_client c) e He
    (reject_or_destroy_gives_up 504 _)) as [Hok Hused].
  split; [done|apply ledger_effect_same; [done..|by rewrite Hused]].
Qed.

Lemma settle_exchange_ok e : exchange_ok e → exchange_ok (settle e) ∧ used (settle e) = used e.
Proof. intros []. split; [|done]. by constructor. Qed.

Lemma finalize_ok s e :
  exchange_ok e → holds_lease s e →
  let r := finalizeMediatedExchange s e in exchange_ok r.2 ∧ ledger_effect s r.1 e r.2.
Proof.
  intros He Hlease. unfold finalizeMediatedExchange. destruct (ex_settled e) eqn:Hs; cbn [fst snd].
  { split; [done|by apply ledger_effect_same]. }
  set (e1 := with_client destroy_client (match ex_phase e with Streaming _ _ => with_phase Over e | _ => e end)).
  assert (H1 : exchange_ok e1 ∧ used e1 ≤ used e).
  { unfold e1. destruct (ex_phase e) eqn:Hp;
      try (destruct (client_ok destroy_client e He destroy_gives_up) as [? ->]; split; [done|lia]).
    by apply give_up_ok; [| |apply destroy_gives_up]; auto. }
  destruct H1 as [Hok1 Hu1]. destruct (settle_exchange_ok e1 Hok1) as [Hok Hu]. split; [done|].
  assert (Hl : ex_lease (settle e1) = ex_lease e) by (unfold e1; by destruct (ex_phase e)).
  destruct (eo_lease _ He Hs) as [l El]. specialize (Hlease l El). rewrite Hs in Hlease.
  rewrite El. unfold release_slot. rewrite Hlease. constructor; cbn [sn_totalBytes sn_activeRequests sn_leases].
  - done.
  - lia.
  - left. lia.
  - unfold unfinished. rewrite Hs. cbn. lia.
  - right. by exists l.
Qed.

Lemma event_ok ev s e :
  exchange_ok e → holds_lease s e →
  let r := on_event config ev s e in exchange_ok r.2 ∧ ledger_effect s r.1 e r.2.
Proof.
  intros He Hl. destruct ev; cbn [on_event].
  - by apply response_ok.
  - apply data_ok; [lia|done].
  - by apply end_ok.
  - by apply body_error_ok.
  - by apply request_error_ok.
  - by apply deadline_ok.
  - by apply finalize_ok.
Qed.

(** *** Arrivals *)

Lemma idle_ok e :
  ex_consumedBytes e = 0 → cr_delivered (ex_client e) = 0 → ex_completed e = None →
  (length (cr_statuses (ex_client e)) ≤ 1)%nat →
  cr_statuses (ex_client e) = [] ∨ cr_ended (ex_client e) || cr_destroyed (ex_client e) = true →
  (match ex_phase e with Awaiting a => P a | Over => True | _ => False end) →
  (ex_settled e = false → is_Some (ex_lease e)) → exchange_ok e ∧ used e = 0.
Proof.
  intros Hc Hd Hcomp Hs Hdead Hp Hl.
  assert (Hu : used e = 0) by (unfold used; rewrite Hc, Hd; destruct (ex_phase e); done).
  split; [|done]. constructor; rewrite ?Hu, ?Hc, ?Hd; try done; try lia.
  - by right.
  - unfold phase_ok. destruct (ex_phase e); done.
  - intros a n. by rewrite Hcomp.
Qed.

(** A request that arrives either holds the next lease or is settled. *)
Lemma arrive_ok authorized s :
  (∀ a, authorized = Ok a → P a) →
  let r := arrive config authorized s in
  exchange_ok r.2 ∧ used r.2 = 0 ∧ sn_totalBytes r.1 = sn_totalBytes s
  ∧ sn_activeRequests r.1 = sn_activeRequests s + unfinished r.2
  ∧ ((sn_leases r.1 = sn_leases s ∧ ex_lease r.2 = None)
     ∨ (sn_leases r.1 = sn_leases s ++ [false] ∧ ex_lease r.2 = Some (length (sn_leases s)) ∧ ex_settled r.2 = false
        ∧ sn_activeRequests s < mc_maxConcurrentRequests config)).
Proof.
  intros HP. unfold arrive. cbv zeta.
  assert (Hrej : ∀ status message, let e := {| ex_client := rejectMediatedEgress status message fresh_response;
      ex_lease := None; ex_consumedBytes := 0; ex_settled := true; ex_phase := Over; ex_completed := None;
      ex_discarded := 0 |} in
    exchange_ok e ∧ used e = 0 ∧ sn_totalBytes (recordAttempt s) = sn_totalBytes s
    ∧ sn_activeRequests (recordAttempt s) = sn_activeRequests s + unfinished e
    ∧ sn_leases (recordAttempt s) = sn_leases s ∧ ex_lease e = None).
  { intros status message e. destruct (idle_ok e) as [H1 H2]; try done; try (cbn; lia).
    unfold unfinished. cbn. split_and!; try done. by rewrite Z.add_0_r. }
  destruct authorized as [a|message].
  2:{ destruct (Hrej 403 ("registry egress denied: " +:+ message)) as (? & ? & ? & ? & ? & ?). cbn [fst snd]. split_and!; try done. by left. }
  unfold forwardMediatedEgress. cbv zeta. destruct (mc_assertReady config a) as [[]|message].
  2:{ destruct (Hrej 502 message) as (? & ? & ? & ? & ? & ?). cbn [fst snd]. split_and!; try done. by left. }
  unfold acquire_slot. change (sn_activeRequests (recordAttempt s)) with (sn_activeRequests s).
  destruct (Z.leb_spec (mc_maxConcurrentRequests config) (sn_activeRequests s)); cbn [fst snd].
  { edestruct (Hrej 503) as (? & ? & ? & ? & ? & ?). split_and!; try eassumption. by left. }
  cbn [sn_totalBytes sn_activeRequests sn_leases recordAttempt].
  set (e0 := {| ex_client := fresh_response; ex_lease := Some (length (sn_leases s)); ex_consumedBytes := 0;
                ex_settled := false; ex_phase := Awaiting a; ex_completed := None; ex_discarded := 0 |}).
  destruct (idle_ok e0) as [He0 Hu0]; try done; try (cbn; lia); [by left|by apply HP|].
  destruct (fetch_ok a e0 He0) as (Hok & Hu & Hl & Hs); try done; [by apply HP|by left|].
  assert (Hused : used (fetchMediated config a e0) = 0).
  { assert (0 ≤ used (fetchMediated config a e0)); [|lia]. unfold used. destruct Hok.
    unfold phase_ok in *. destruct (ex_phase _); csimpl; naive_solver lia. }
  split; [done|]. split; [done|]. split; [done|]. unfold unfinished. rewrite Hs. split; [done|]. right.
  rewrite Hl. auto.
Qed.

(** ** A session *)

Record session_ok (m : MediatedSession A) : Prop := {
  so_exchange : Forall exchange_ok (ms_exchanges m);
  so_total : tally used (ms_exchanges m) ≤ sn_totalBytes (ms_ledger m);
  so_max : tally used (ms_exchanges m) ≤ Z.max 0 (mc_maxTotalBytes config);
  so_active : sn_activeRequests (ms_ledger m) = tally unfinished (ms_exchanges m);
  so_concurrent : sn_activeRequests (ms_ledger m) ≤ Z.max 0 (mc_maxConcurrentRequests config);
  so_lease : ∀ i e, ms_exchanges m !! i = Some e → holds_lease (ms_ledger m) e;
  so_distinct : ∀ i j e f l, ms_exchanges m !! i = Some e → ms_exchanges m !! j = Some f →
    ex_lease e = Some l → ex_lease f = Some l → i = j
}.

Lemma new_session_ok : session_ok {| ms_ledger := new_session; ms_exchanges := [] |}.
Proof. constructor; try done; cbn; lia. Qed.

Lemma unfinished_bound e : 0 ≤ unfinished e ≤ 1.
Proof. unfold unfinished. destruct (ex_settled e); lia. Qed.

Lemma arrive_step_ok authorized m :
  (∀ a, authorized = Ok a → P a) → session_ok m → session_ok (session_step config (Arrive authorized) m).
Proof.
  intros HP []. cbn [session_step]. pose proof (arrive_ok authorized (ms_ledger m) HP) as Ha. cbv zeta in Ha.
  destruct (arrive config authorized (ms_ledger m)) as [s e]. cbn [fst snd] in Ha.
  destruct Ha as (Hok & Hu & Hbytes & Hact & Hlease).
  assert (Hsame : ∀ e', e' ∈ ms_exchanges m → holds_lease (ms_ledger m) e' → holds_lease s e').
  { intros e' _ Hh l Hl. specialize (Hh l Hl). destruct Hlease as [[-> _]|(-> & _ & _ & _)]; [done|].
    by apply lookup_app_l_Some. }
  constructor; cbn [ms_ledger ms_exchanges]; rewrite ?tally_snoc, ?Hu, ?Hbytes, ?Z.add_0_r; try done.
  - apply Forall_app. by split; [|constructor].
  - lia.
  - rewrite Hact. pose proof (unfinished_bound e). destruct Hlease as [[_ Hn]|(_ & _ & _ & ?)]; [|lia].
    unfold unfinished. destruct (ex_settled e) eqn:Hs; [lia|]. destruct (eo_lease _ Hok Hs) as [? ?]. congruence.
  - intros i e' [Hi|[_ Hi]]%lookup_app_Some.
    + apply Hsame; [by eapply list_elem_of_lookup_2|by eapply so_lease0].
    + apply list_lookup_singleton_Some in Hi as [_ <-]. intros l Hl.
      destruct Hlease as [[_ Hn]|(-> & Hn & -> & _)]; [congruence|]. rewrite Hn in Hl. injection Hl as <-.
      by rewrite lookup_app_r, Nat.sub_diag by lia.
  - assert (Hfresh : ∀ i e' l, ms_exchanges m !! i = Some e' → ex_lease e' = Some l → ex_lease e ≠ Some l).
    { intros i e' l Hi Hl He. specialize (so_lease0 i e' Hi l Hl). apply lookup_lt_Some in so_lease0.
      destruct Hlease as [[_ Hn]|(_ & Hn & _ & _)]; rewrite Hn in He; [done|]. injection He as <-. lia. }
    intros i j e1 e2 l [Hi|[Hi0 Hi]]%lookup_app_Some [Hj|[Hj0 Hj]]%lookup_app_Some H1 H2.
    + by eapply so_distinct0.
    + apply list_lookup_singleton_Some in Hj as [_ <-]. by destruct (Hfresh i e1 l Hi H1).
    + apply list_lookup_singleton_Some in Hi as [_ <-]. by destruct (Hfresh j e2 l Hj H2).
    + apply list_lookup_singleton_Some in Hi as [? _], Hj as [? _]. lia.
Qed.

Lemma on_step_ok i ev m : session_ok m → session_ok (session_step config (On i ev) m).
Proof.
  intros Hm. pose proof Hm as []. cbn [session_step].
  destruct (ms_exchanges m !! i) as [e|] eqn:Hi; [|done].
  assert (He : exchange_ok e) by by (eapply Forall_lookup_1).
  pose proof (event_ok ev (ms_ledger m) e He (so_lease0 i e Hi)) as Hev. cbv zeta in Hev.
  destruct (on_event config ev (ms_ledger m) e) as [s e']. cbn [fst snd] in Hev. destruct Hev as [Hok []].
  pose proof (unfinished_bound e). pose proof (unfinished_bound e').
  assert (Hunf : unfinished e' ≤ unfinished e).
  { unfold unfinished. destruct le_leases0 as [[_ ->]|(l & _ & _ & ->)]; [lia|]. destruct (ex_settled e); lia. }
  constructor; cbn [ms_ledger ms_exchanges]; rewrite ?(tally_insert _ _ i e e') by done.
  - by apply Forall_insert.
  - lia.
  - destruct le_used0; lia.
  - lia.
  - lia.
  - intros j f Hj. apply list_lookup_insert_Some in Hj as [(<- & -> & _)|(Hne & Hj)]; intros l Hl.
    + rewrite le_lease0 in Hl. specialize (so_lease0 i e Hi l Hl).
      destruct le_leases0 as [[-> ->]|(l' & Hl' & -> & ->)]; [done|]. rewrite Hl in Hl'. injection Hl' as <-.
      apply list_lookup_insert_eq. by eapply lookup_lt_Some.
    + specialize (so_lease0 j f Hj l Hl) as Hf. destruct le_leases0 as [[-> _]|(l' & Hl' & -> & _)]; [done|].
      rewrite list_lookup_insert_ne; [done|]. intros ->. by destruct Hne; eapply so_distinct0.
  - assert (Hfrom : ∀ j f, <[i:=e']> (ms_exchanges m) !! j = Some f →
      ∃ f', ms_exchanges m !! j = Some f' ∧ ex_lease f = ex_lease f').
    { intros j f [(<- & -> & _)|(_ & Hj)]%list_lookup_insert_Some; [by exists e|by exists f]. }
    intros j k f g l (f' & Hf' & ->)%Hfrom (g' & Hg' & ->)%Hfrom. by eapply so_distinct0.
Qed.

Lemma session_run_ok evs :
  (∀ a, Arrive (Ok a) ∈ evs → P a) → session_ok (session_run config evs).
Proof.
  intros HP. unfold session_run.
  assert (Hgen : ∀ m, session_ok m → session_ok (foldl (λ m ev, session_step config ev m) m evs)).
  { induction evs as [|ev evs IH]; intros m Hm; [done|]. cbn [foldl]. apply IH.
    - intros a Ha. apply HP. by right.
    - destruct ev as [authorized|i ev]; [|by apply on_step_ok]. apply arrive_step_ok; [|done].
      intros a ->. apply HP. by left. }
  apply Hgen, new_session_ok.
Qed.
End theory.


(** A small configuration: requests are byte ceilings, a redirect halves them. *)
Definition demo_config : MediatedEgressConfig Z :=
  {| mc_label := "demo"; mc_describe := λ a, (a, 1000); mc_assertReady := λ _, Ok (); mc_request := λ _, Ok ();
     mc_followRedirect := Some (λ a location, if location =? "" then Throw "no target" else Ok (a / 2));
     mc_maxTotalBytes := 150; mc_maxConcurrentRequests := 1 |}.


(** A response that declares more than a ceiling is refused, yet its body is read to the end. *)
Definition refused_body (count : nat) {A} (a : A) : list (SessionEvent A) :=
  [Arrive (Ok a); On 0 (Response 200 [("content-length", Some (HOne "9007199254740991"))]);
   On 0 ClientClose; On 0 (Data count)].

(** What the ceilings do not cover: when a response declares a length above a ceiling, the
    client is refused with 502 and its slot is freed, but the upstream request is not torn
    down; its body is read and thrown away, however long it is, and no ceiling of the
    request or the session, of bytes or of concurrency, counts it. *)
Theorem refused_body_unmetered {A} (config : MediatedEgressConfig A) (a : A) count :
  mc_assertReady config a = Ok () → mc_request config a = Ok () → 0 < mc_maxConcurrentRequests config →
  spec_maxBytes config a < 9007199254740991 →
  let m := session_run config (refused_body count a) in
  sn_totalBytes (ms_ledger m) = 0 ∧ sn_activeRequests (ms_ledger m) = 0
  ∧ (λ e, (cr_statuses (ex_client e), ex_settled e, ex_discarded e)) <$> ms_exchanges m
    = [([502], true, Z.of_nat count)].
Proof.
  intros Hready Hrequest Hslots Hmax.
  set (s1 := {| sn_attempts := 1; sn_totalBytes := 0; sn_activeRequests := 1; sn_leases := [false] |}).
  set (e1 := {| ex_client := fresh_response; ex_lease := Some 0%nat; ex_consumedBytes := 0; ex_settled := false;
                ex_phase := Awaiting a; ex_completed := None; ex_discarded := 0 |}).
  assert (H1 : session_step config (Arrive (Ok a)) {| ms_ledger := new_session; ms_exchanges := [] |}
    = {| ms_ledger := s1; ms_exchanges := [e1] |}).
  { cbn [session_step]. unfold arrive, forwardMediatedEgress. cbv zeta. rewrite Hready. unfold acquire_slot.
    cbn [ms_ledger ms_exchanges recordAttempt new_session sn_activeRequests].
    destruct (Z.leb_spec (mc_maxConcurrentRequests config) 0); [lia|]. unfold fetchMediated. by rewrite Hrequest. }
  set (headers := [("content-length", Some (HOne "9007199254740991"))]).
  set (e2 := with_client (rejectMediatedEgress 502 (mc_label config +:+ ": response exceeds a byte ceiling"))
               (with_phase Resumed e1)).
  assert (H2 : onMediatedResponse config 200 headers s1 e1 = (s1, e2)).
  { assert (Hs : streamMediatedToClient config a 200 headers s1 e1 = e2).
    { unfold streamMediatedToClient. change (declaredContentLength headers) with (Some 9007199254740991).
      cbv zeta beta iota. change (ex_consumedBytes e1) with 0.
      by rewrite (proj2 (Z.ltb_lt (spec_maxBytes config a) (0 + 9007199254740991))) by lia. }
    unfold onMediatedResponse. cbn [ex_phase e1 ex_settled ex_client fresh_response cr_ended cr_destroyed orb].
    change (includes REDIRECT_STATUS_CODES 200) with false. rewrite Hs. by destruct (mc_followRedirect config). }
  unfold session_run, refused_body. cbn [foldl]. rewrite H1. cbn [session_step ms_exchanges ms_ledger lookup list_lookup].
  cbn [on_event]. fold headers. rewrite H2. done.
Qed.

Lemma refused_body_unmetered_witness :
  let m := session_run demo_config (refused_body 200 100) in
  sn_totalBytes (ms_ledger m) = 0 ∧ mc_maxTotalBytes demo_config = 150.
Proof.
  split; [|reflexivity].
  apply (refused_body_unmetered demo_config 100 200); [reflexivity|reflexivity|cbn; lia|cbn; lia].
Defined.
