(* ===== verification/PackageNames.v ===== *)
(** * Package identities from registry URLs

    Models docker/package-types.ts and the parsers of docker/registry-proxy.ts: what package
    and version the path of a request names, for npm, PyPI, Debian and crates.io.  The
    expression for PyPI file names is matched as a backtracking engine matches it; the last
    part shows what it captures of the name of a wheel. *)

From Stdlib Require Import Ascii.
From S2P Require Import Prelude JsValue Paths Urls Redactor UriText.

Local Open Scope curtain_scope.

Inductive RegistryType := Npm | Pypi | Debian | Cargo.
#[export] Instance RegistryType_eq_dec : EqDecision RegistryType.
Proof. solve_decision. Defined.

Definition registry_name (t : RegistryType) : string :=
  match t with Npm => "npm" | Pypi => "pypi" | Debian => "debian" | Cargo => "cargo" end.

Record RegistryConfig := { rg_host : string; rg_type : RegistryType; rg_mirrorHosts : list string }.

Definition npmRegistry : RegistryConfig :=
  {| rg_host := "registry.npmjs.org"; rg_type := Npm; rg_mirrorHosts := [] |}.
Definition pypiRegistry : RegistryConfig :=
  {| rg_host := "pypi.org"; rg_type := Pypi; rg_mirrorHosts := ["files.pythonhosted.org"] |}.
Definition debianRegistry : RegistryConfig :=
  {| rg_host := "deb.debian.org"; rg_type := Debian; rg_mirrorHosts := ["security.debian.org"] |}.
Definition CARGO_INDEX_HOST : string := "index.crates.io".
Definition CARGO_STATIC_HOST : string := "static.crates.io".
Definition CARGO_API_HOST : string := "crates.io".
Definition cargoRegistry : RegistryConfig :=
  {| rg_host := CARGO_INDEX_HOST; rg_type := Cargo; rg_mirrorHosts := [CARGO_API_HOST; CARGO_STATIC_HOST] |}.

Record PackageIdentity := {
  pk_registry : RegistryType;
  pk_name : string;
  pk_scope : option string;
  pk_version : option string
}.

(** ** Names *)

Definition canonicalPackageName (pkg : PackageIdentity) : string :=
  match pk_scope pkg with
  | Some scope => if scope =? "" then pk_name pkg else "@" +:+ scope +:+ "/" +:+ pk_name pkg
  | None => pk_name pkg
  end.

Definition packageCacheKey (pkg : PackageIdentity) : string :=
  registry_name (pk_registry pkg) +:+ ":" +:+ canonicalPackageName pkg.

(** [path.split('?')[0]] *)
Definition clean_path (path : string) : string := default "" (head (split_on "?"%char path)).
(** [path.split('/').pop()] *)
Definition last_segment (path : string) : string := default "" (last (split_on slash path)).

(** ** npm *)

Definition parseNpmPackagePart (packagePart : string) : option (string * option string) :=
  if startsWith packagePart "@" then
    match str_indexOf packagePart "/" with
    | None => None
    | Some slashIdx =>
        let scope := str_drop 1 (str_take slashIdx packagePart) in
        let name := str_drop (S slashIdx) packagePart in
        if (scope =? "") || (name =? "") then None else Some (name, Some scope)
    end
  else if str_includes packagePart "/" then None
  else if packagePart =? "" then None
  else Some (packagePart, None).

Definition extractVersionFromNpmTarball (filename packagePart : string) : option string :=
  let name := if str_includes packagePart "/" then last_segment packagePart else packagePart in
  let prefix := name +:+ "-" in
  if negb (startsWith filename prefix) || negb (endsWith filename ".tgz") then None
  else Some (str_drop (String.length prefix) (str_take (String.length filename - 4) filename)).

Definition npm_identity (part : option (string * option string)) (version : option string) :
    option PackageIdentity :=
  (λ p, {| pk_registry := Npm; pk_name := p.1; pk_scope := p.2; pk_version := version |}) <$> part.

Definition parseNpmUrl (path : string) : option PackageIdentity :=
  match decodeURIComponent (clean_path path) with
  | None => None
  | Some decodedPath =>
      match str_indexOf decodedPath "/-/" with
      | Some tarballIndex =>
          let packagePart := str_drop 1 (str_take tarballIndex decodedPath) in
          let filename := str_drop (tarballIndex + 3) decodedPath in
          npm_identity (parseNpmPackagePart packagePart) (extractVersionFromNpmTarball filename packagePart)
      | None =>
          let packagePart := str_drop 1 decodedPath in
          if (packagePart =? "") || (packagePart =? "-") then None
          else npm_identity (parseNpmPackagePart packagePart) None
      end
  end.

Definition isNpmMetadataRequest (path : string) : bool :=
  bool_decide (is_Some (parseNpmUrl path)) && negb (str_includes path "/-/").

(** ** PyPI *)

Definition is_name_char (a : ascii) : bool := is_alnum a || includes (chars "._-") a.

(** [[a-zA-Z0-9](?:[a-zA-Z0-9._-]*[a-zA-Z0-9])?] *)
Definition PYPI_NAME : regex :=
  Cat (Chr is_alnum) (Rep (Cat (Rep (Chr is_name_char) 0 None) (Chr is_alnum)) 0 (Some 1)).

(** [name.toLowerCase().replace(/[-_.]+/g, '-')] *)
Definition normalizePypiName (name : string) : string :=
  replace_all (Rep (Chr (includes (chars "-_."))) 1 None) (λ _, "-") (toLowerCase name).

(** The prefixes of a text that match, with what follows, in the order of the engine. *)
Definition matched_prefixes (r : regex) (s : string) : list (string * string) :=
  (λ q, (str_take (String.length s - String.length q.2) s, q.2)) <$> ends r (None, s).

Definition pypi_identity (name : string) (version : option string) : PackageIdentity :=
  {| pk_registry := Pypi; pk_name := normalizePypiName name; pk_scope := None; pk_version := version |}.

(** [/^\/simple\/(name)\/?$/] *)
Definition parsePypiSimpleUrl (path : string) : option PackageIdentity :=
  match strip_prefix "/simple/" (clean_path path) with
  | None => None
  | Some rest =>
      (λ m, pypi_identity m.1 None)
        <$> List.find (λ m, (m.2 =? "") || (m.2 =? "/")) (matched_prefixes PYPI_NAME rest)
  end.

Definition PYPI_SIDECAR_SUFFIXES : list string := [".metadata"; ".provenance"].

Definition stripPypiSidecarSuffix (filename : string) : string :=
  match List.find (endsWith filename) PYPI_SIDECAR_SUFFIXES with
  | Some suffix => default filename (strip_suffix suffix filename)
  | None => filename
  end.

(** [(?:\.tar\.gz|\.zip|-[a-zA-Z].*\.whl)$] *)
Definition archive_tail (s : string) : bool :=
  (s =? ".tar.gz") || (s =? ".zip")
  || match strip_prefix "-" s with
     | Some (String c rest) =>
         (in_range 65 90 c || in_range 97 122 c) && endsWith rest ".whl" && str_forallb is_dot rest
     | _ => false
     end.

(** [\d[^-]*?]: the shortest version first. *)
Definition lazy_versions (s : string) : list (string * string) :=
  match s with
  | String d rest =>
      if is_digit d then
        let n := String.length (str_span (λ a, negb (a =? "-"%char)) rest).1 in
        (λ k, (str_take (S k) s, str_drop (S k) s)) <$> seq 0 (S n)
      else []
  | "" => []
  end.

(** The groups of [/^(name)-(version)tail$/]: the name is greedy, the version is not. *)
Definition pypi_filename_match (filename : string) : option (string * string) :=
  head (matched_prefixes PYPI_NAME filename ≫= λ m,
    match strip_prefix "-" m.2 with
    | Some rest => (λ v, (m.1, v.1)) <$> filter (λ v, archive_tail v.2 = true) (lazy_versions rest)
    | None => []
    end).

Definition extractPypiPackageFromFilename (filename : string) : option PackageIdentity :=
  (λ m, pypi_identity m.1 (Some m.2)) <$> pypi_filename_match (stripPypiSidecarSuffix filename).

Definition parsePypiTarballUrl (path : string) : option PackageIdentity :=
  let filename := last_segment (clean_path path) in
  if filename =? "" then None else extractPypiPackageFromFilename filename.

(** ** Debian *)

Definition extractDebianPackageFromFilename (filename : string) : option PackageIdentity :=
  match strip_suffix ".deb" filename with
  | None => None
  | Some base =>
      match str_indexOf base "_", split_last "_"%char base with
      | Some firstUnderscore, Some (before, _) =>
          if (firstUnderscore <? 1) || (String.length before <=? firstUnderscore) then None
          else
            let name := str_take firstUnderscore base in
            let version := str_drop (S firstUnderscore) before in
            let version := default version (decodeURIComponent version) in
            if (name =? "") || (version =? "") then None
            else Some {| pk_registry := Debian; pk_name := name; pk_scope := None; pk_version := Some version |}
      | _, _ => None
      end
  end.

Definition parseDebianPackageUrl (path : string) : option PackageIdentity :=
  let filename := last_segment (clean_path path) in
  if (filename =? "") || negb (endsWith filename ".deb") then None else extractDebianPackageFromFilename filename.

(** ** crates.io *)

Definition normalizeCargoName (name : string) : string := toLowerCase name.

Definition cargoSparseIndexPath (name : string) : string :=
  let lower := normalizeCargoName name in
  match String.length lower with
  | 0 => lower
  | 1 => "1/" +:+ lower
  | 2 => "2/" +:+ lower
  | 3 => "3/" +:+ str_take 1 lower +:+ "/" +:+ lower
  | _ => str_take 2 lower +:+ "/" +:+ str_take 2 (str_drop 2 lower) +:+ "/" +:+ lower
  end.

Definition is_crate_char (a : ascii) : bool := is_alnum a || includes (chars "_-") a.

(** [/^[A-Za-z0-9_-]+$/] *)
Definition crate_name (s : string) : bool := negb (s =? "") && str_forallb is_crate_char s.

Definition cargo_identity (name : string) (version : option string) : PackageIdentity :=
  {| pk_registry := Cargo; pk_name := normalizeCargoName name; pk_scope := None; pk_version := version |}.

(** [s.replace(/^\/+/, '')] *)
Definition strip_slashes (s : string) : string := (str_span (λ a, a =? slash) s).2.

Definition parseCargoSparseIndexUrl (path : string) : option PackageIdentity :=
  let cleanPath := strip_slashes (clean_path path) in
  if (cleanPath =? "config.json") || (cleanPath =? "") then None
  else
    let name := last_segment cleanPath in
    if negb (crate_name name) then None
    else if negb (cargoSparseIndexPath name =? toLowerCase cleanPath) then None
    else Some (cargo_identity name None).

(** [/^(?:\/api\/v1)?\/crates\/(name)\/([^/]+)\/download$/], by segments *)
Definition cargo_download_match (segments : list string) : option (string * string) :=
  let groups rest :=
    match rest with
    | ["crates"; name; version; "download"] =>
        if crate_name name && negb (version =? "") then Some (name, version) else None
    | _ => None
    end in
  match segments with
  | "" :: "api" :: "v1" :: rest => groups rest
  | "" :: rest => groups rest
  | _ => None
  end.

(** [/^\/crates\/(name)\/([^/]+)\.crate$/], by segments *)
Definition cargo_crate_match (segments : list string) : option (string * string) :=
  match segments with
  | [""; "crates"; name; file] =>
      match strip_suffix ".crate" file with
      | Some filename => if crate_name name && negb (filename =? "") then Some (name, filename) else None
      | None => None
      end
  | _ => None
  end.

Definition parseCargoDownloadUrl (path : string) : option PackageIdentity :=
  let segments := split_on slash (clean_path path) in
  match cargo_download_match segments with
  | Some (name, version) => Some (cargo_identity name (Some version))
  | None =>
      match cargo_crate_match segments with
      | Some (name, filename) =>
          let prefix := name +:+ "-" in
          if negb (startsWith (toLowerCase filename) (toLowerCase prefix)) then None
          else
            let version := str_drop (String.length prefix) filename in
            if version =? "" then None else Some (cargo_identity name (Some version))
      | None => None
      end
  end.

Definition parseTarballUrl (registryType : RegistryType) (path : string) : option PackageIdentity :=
  match registryType with
  | Npm => parseNpmUrl path
  | Pypi => parsePypiTarballUrl path
  | Cargo => parseCargoDownloadUrl path
  | Debian => parseDebianPackageUrl path
  end.

(** ** What the expression for PyPI file names captures *)

Definition first_is (f : ascii → bool) (s : string) : bool := match s with String a _ => f a | "" => false end.
Definition last_is (f : ascii → bool) (s : string) : bool := from_option f false (last (chars s)).

(** The project names, and the versions, that the expression takes whole. *)
Definition pypi_name (s : string) : bool := str_forallb is_name_char s && first_is is_alnum s && last_is is_alnum s.

Lemma last_is_app f s t : t ≠ "" → last_is f (s +:+ t) = last_is f t.
Proof.
  intros Ht. unfold last_is. rewrite chars_app, last_app. destruct t as [|a t]; [done|].
  destruct (last (chars (String a t))) eqn:E; [done|]. by apply last_None in E.
Qed.

Lemma last_is_snoc f s : last_is f s = true → ∃ t a, s = t +:+ String a "" ∧ f a = true.
Proof.
  induction s as [|a s IH]; [done|]. destruct s as [|b s].
  - intros H. by exists "", a.
  - change (String a (String b s)) with (String a "" +:+ String b s). rewrite last_is_app by done.
    intros (t & c & -> & Hc)%IH. exists (String a t), c. by rewrite str_app_cons.
Qed.

Lemma matched_prefixes_spec r s m : m ∈ matched_prefixes r s → s = m.1 +:+ m.2.
Proof.
  unfold matched_prefixes. intros (q & -> & Hq)%list_elem_of_fmap.
  apply (ends_suffix _ _ _ _ (consumes_any r)) in Hq as (t & Ht & _). cbn [fst snd] in *. subst s.
  rewrite str_length_app. replace (String.length t + String.length q.2 - String.length q.2) with (String.length t) by lia.
  by rewrite str_take_app.
Qed.

Lemma ends_matched r s t prev : (prev, t) ∈ ends r (None, s +:+ t) → (s, t) ∈ matched_prefixes r (s +:+ t).
Proof.
  intros H. unfold matched_prefixes. apply list_elem_of_fmap. exists (prev, t). split; [|done]. cbn [snd].
  rewrite str_length_app. replace (String.length s + String.length t - String.length t) with (String.length s) by lia.
  by rewrite str_take_app.
Qed.

Lemma pypi_name_matches s t : pypi_name s = true → (s, t) ∈ matched_prefixes PYPI_NAME (s +:+ t).
Proof.
  unfold pypi_name. intros [[Hall Hfirst]%andb_true_iff Hlast]%andb_true_iff. destruct s as [|a s]; [done|].
  cbn [first_is str_forallb] in *. apply andb_true_iff in Hall as [_ Hall].
  assert (∃ prev, (prev, t) ∈ ends (Rep (Cat (Rep (Chr is_name_char) 0 None) (Chr is_alnum)) 0 (Some 1)) (Some a, s +:+ t)) as [prev Hin].
  { destruct s as [|b s]; [exists (Some a); cbn [ends exactly]; apply list_elem_of_bind; exists (Some a, ""%string +:+ t);
      split; [|by left]; cbn [up_to default]; apply elem_of_app; right; by left|].
    assert (last_is is_alnum (String b s) = true) as (u & c & Heq & Hc)%last_is_snoc.
    { change (String a (String b s)) with (String a "" +:+ String b s) in Hlast. by rewrite last_is_app in Hlast. }
    rewrite Heq in *. rewrite str_forallb_app in Hall. apply andb_true_iff in Hall as [Hu _].
    destruct (class_ends is_name_char u (String c t) (Some a) Hu) as [prev Hin]. exists (Some c).
    cbn [ends exactly]. apply list_elem_of_bind. exists (Some a, (u +:+ String c "") +:+ t). split; [|by left].
    cbn [up_to default]. apply elem_of_app; left. apply list_elem_of_bind. exists (Some c, t). split; [by left|].
    apply list_elem_of_bind. exists (prev, String c t). split; [cbn [ends snd]; rewrite Hc; by left|].
    rewrite str_app_assoc. exact Hin. }
  apply (ends_matched _ _ _ prev). unfold PYPI_NAME. cbn [ends]. apply list_elem_of_bind. exists (Some a, s +:+ t).
  split; [exact Hin|]. rewrite str_app_cons. cbn [snd]. rewrite Hfirst. by left.
Qed.

Definition dash : ascii := "-".

(** [str_join] undoes [split_on]. *)
Lemma join_split_on c s : str_join (String c "") (split_on c s) = s.
Proof.
  induction s as [|a s IH]; [done|]. cbn [split_on]. pose proof (split_on_not_nil c s) as Hne.
  unfold str_join in *. case_bool_decide as Ha.
  - subst a. destruct (split_on c s) as [|h l]; [done|]. cbn [String.concat]. cbn [String.concat] in IH. by rewrite IH.
  - destruct (split_on c s) as [|h [|h' l]]; [done|..]; cbn [String.concat] in *; [by rewrite IH|].
    by rewrite str_app_cons, IH.
Qed.

Lemma split_on_inj c s t : split_on c s = split_on c t → s = t.
Proof. intros H. by rewrite <-(join_split_on c s), <-(join_split_on c t), H. Qed.

Lemma span_no_dash s k :
  k ≤ String.length (str_span (λ a, negb (a =? dash)) s).1 → dash ∉ chars (str_take k s).
Proof.
  revert k. induction s as [|a s IH]; intros [|k]; cbn [str_span str_take]; try (intros _; apply not_elem_of_nil).
  destruct (negb (a =? dash)) eqn:Ha; cbn [fst String.length]; [|lia].
  destruct (str_span _ s) as [x y] eqn:E. cbn [fst String.length] in *. intros Hk. unfold chars. cbn.
  apply not_elem_of_cons. split; [|by apply (IH k); lia]. intros <-. by rewrite bool_decide_eq_true_2 in Ha.
Qed.

Lemma lazy_versions_spec s v :
  v ∈ lazy_versions s → s = v.1 +:+ v.2 ∧ first_is is_digit v.1 = true ∧ dash ∉ chars v.1.
Proof.
  destruct s as [|d s]; [by intros ?%not_elem_of_nil|]. cbn [lazy_versions]. destruct (is_digit d) eqn:Hd; [|by intros ?%not_elem_of_nil].
  intros (k & -> & Hk%elem_of_seq)%list_elem_of_fmap. cbn [fst snd str_take str_drop first_is].
  split_and!; [by rewrite str_app_cons, str_take_drop|done|]. unfold chars. cbn. apply not_elem_of_cons.
  split; [by intros <-|]. apply span_no_dash. fold dash in Hk. lia.
Qed.

Lemma span_stops v rest :
  dash ∉ chars v → (str_span (λ a, negb (a =? dash)) (v +:+ String dash rest)).1 = v.
Proof.
  induction v as [|a v IH]; intros Hv; [done|]. unfold chars in Hv. cbn in Hv. apply not_elem_of_cons in Hv as [Ha Hv].
  rewrite str_app_cons. cbn [str_span]. rewrite (bool_decide_eq_false_2 (a = dash)) by done. cbn [negb].
  specialize (IH Hv). destruct (str_span _ (v +:+ String dash rest)). cbn [fst] in *. by subst.
Qed.

Lemma lazy_versions_in v rest :
  first_is is_digit v = true → dash ∉ chars v → (v, String dash rest) ∈ lazy_versions (v +:+ String dash rest).
Proof.
  destruct v as [|d v]; [done|]. cbn [first_is]. intros Hd Hv. unfold chars in Hv. cbn in Hv. apply not_elem_of_cons in Hv as [_ Hv].
  rewrite str_app_cons. cbn [lazy_versions]. rewrite Hd. fold dash. rewrite span_stops by done. apply list_elem_of_fmap.
  exists (String.length v). cbn [str_take str_drop]. rewrite str_take_app, str_drop_app. split; [done|]. apply elem_of_seq. lia.
Qed.

Definition is_letter (a : ascii) : bool := in_range 65 90 a || in_range 97 122 a.

(** The tags of a wheel, with what follows them: no part begins with a digit. *)
Definition wheel_tags (tags : string) : bool :=
  first_is is_letter tags && str_forallb is_dot tags && forallb (λ s, negb (first_is is_digit s)) (split_on dash tags).

(** Where a file name is cut: after a dash, a version without one, and a letter after the next dash. *)
Lemma pypi_cut file n v :
  last_is (λ a, a =? "l"%char) file = true →
  (n, v) ∈ (matched_prefixes PYPI_NAME file ≫= λ m,
    match strip_prefix "-" m.2 with
    | Some rest => (λ v, (m.1, v.1)) <$> filter (λ v, archive_tail v.2 = true) (lazy_versions rest)
    | None => []
    end) →
  ∃ h l, split_on dash file = split_on dash n ++ v :: h :: l ∧ first_is is_digit v = true ∧ first_is is_letter h = true.
Proof.
  intros Hl (m & Hin & Hm%matched_prefixes_spec)%list_elem_of_bind.
  destruct (strip_prefix "-" m.2) as [rest|] eqn:Hs; [|by apply not_elem_of_nil in Hin].
  apply strip_prefix_spec in Hs. apply list_elem_of_fmap in Hin as (w & Heq & [Htail Hw]%list_elem_of_filter). injection Heq as -> ->.
  apply lazy_versions_spec in Hw as (-> & Hd & Hdash). subst file. rewrite Hs in *. clear Hs.
  destruct w as [w tail]. cbn [fst snd] in *. unfold archive_tail in Htail. apply orb_true_iff in Htail as [Htail|Htail].
  { exfalso. rewrite <-str_app_assoc, <-str_app_assoc in Hl.
    apply orb_true_iff in Htail as [->%bool_decide_eq_true| ->%bool_decide_eq_true]; by rewrite last_is_app in Hl. }
  destruct (strip_prefix "-" tail) as [[|c rest]|] eqn:Ht; [done| |done]. apply strip_prefix_spec in Ht as ->.
  apply andb_true_iff in Htail as [[Hc _]%andb_true_iff _].
  change ("-" +:+ (w +:+ "-" +:+ String c rest)) with (String dash (w +:+ String dash (String c rest))).
  rewrite !split_on_app, (split_on_no_sep _ w) by done.
  assert (c ≠ dash) by (intros ->; done).
  cbn [split_on]. rewrite bool_decide_eq_false_2 by done. destruct (split_on dash rest) as [|h l].
  - by exists (String c ""), [].
  - by exists (String c h), l.
Qed.

Lemma pypi_filename_unique file n v :
  last_is (λ a, a =? "l"%char) file = true →
  (∀ n' v' h l, split_on dash file = split_on dash n' ++ v' :: h :: l → first_is is_digit v' = true →
    first_is is_letter h = true → n' = n ∧ v' = v) →
  pypi_name n = true → first_is is_digit v = true → dash ∉ chars v →
  (∃ tags, file = n +:+ String dash (v +:+ String dash (tags +:+ ".whl"))
    ∧ first_is is_letter tags = true ∧ str_forallb is_dot tags = true) →
  pypi_filename_match file = Some (n, v).
Proof.
  intros Hl Huniq Hn Hd Hv (tags & Hfile & Hletter & Hdot). unfold pypi_filename_match.
  pose proof (λ n v, pypi_cut file n v Hl) as Hcut. set (found := _ ≫= _) in *.
  assert ((n, v) ∈ found) as Hin.
  { unfold found. apply list_elem_of_bind. exists (n, String dash (v +:+ String dash (tags +:+ ".whl"))).
    split; [|rewrite Hfile; by apply pypi_name_matches]. cbn [snd].
    rewrite (proj2 (strip_prefix_spec "-" _ (v +:+ String dash (tags +:+ ".whl")))) by done.
    apply list_elem_of_fmap. exists (v, String dash (tags +:+ ".whl")). split; [done|].
    apply list_elem_of_filter. split; [|by apply lazy_versions_in]. cbn [snd]. unfold archive_tail.
    rewrite (proj2 (strip_prefix_spec "-" _ (tags +:+ ".whl"))) by done.
    destruct tags as [|c tags]; [done|]. rewrite str_app_cons. cbn [first_is] in Hletter. unfold is_letter in Hletter. rewrite Hletter.
    cbn [str_forallb] in Hdot. apply andb_true_iff in Hdot as [_ Hdot].
    rewrite (proj2 (endsWith_spec _ ".whl")) by eauto. rewrite str_forallb_app, Hdot. cbn. by rewrite orb_true_r. }
  destruct found as [|[n' v'] l]; [by apply not_elem_of_nil in Hin|]. cbn [head].
  destruct (Hcut n' v') as (h & r & Hsplit & Hd' & Hh); [by left|].
  by destruct (Huniq n' v' h r Hsplit Hd' Hh) as [-> ->].
Qed.

(** *** Normalised names keep their letters and digits *)

Definition alnum_count (s : string) : nat := length (filter (λ a, is_alnum a = true) (chars s)).

Lemma alnum_count_app s t : alnum_count (s +:+ t) = alnum_count s + alnum_count t.
Proof. unfold alnum_count. by rewrite chars_app, filter_app, length_app. Qed.

Lemma alnum_count_cons a s : alnum_count (String a s) = Nat.b2n (is_alnum a) + alnum_count s.
Proof.
  unfold alnum_count, chars. cbn [String.list_ascii_of_string].
  destruct (is_alnum a) eqn:Ha; [by rewrite filter_cons_True|by rewrite filter_cons_False by congruence].
Qed.

Lemma alnum_count_zero c s :
  (∀ a, c a = true → is_alnum a = false) → str_forallb c s = true → alnum_count s = 0.
Proof.
  intros Hc. induction s as [|a s IH]; [done|]. cbn [str_forallb]. intros [Ha Hs]%andb_true_iff.
  by rewrite alnum_count_cons, Hc, IH.
Qed.

Lemma alnum_count_lower s : alnum_count (toLowerCase s) = alnum_count s.
Proof.
  induction s as [|a s IH]; [done|]. cbn [toLowerCase]. rewrite !alnum_count_cons, IH. f_equal. f_equal.
  by destruct a as [[] [] [] [] [] [] [] []].
Qed.

Definition is_separator (a : ascii) : bool := includes (chars "-_.") a.

Lemma separator_not_alnum a : is_separator a = true → is_alnum a = false.
Proof. by destruct a as [[] [] [] [] [] [] [] []]. Qed.

Lemma alnum_count_rewritten prev s t :
  rewritten (Rep (Chr is_separator) 1 None) (λ _, "-") prev s t → alnum_count t = alnum_count s.
Proof.
  induction 1 as [|prev a s t _ _ IH|prev a m s t Hm _ IH]; [done|by rewrite !alnum_count_cons, IH|].
  rewrite !alnum_count_app, IH. f_equal. unfold match_length in Hm.
  destruct (ends _ _) as [|q l] eqn:Hends; [done|]. injection Hm as Hm. cbn [snd] in Hm.
  assert (q ∈ ends (Rep (Chr is_separator) 1 None) (prev, String a m +:+ s)) as Hq by (rewrite Hends; by left).
  assert (consumes is_separator (Rep (Chr is_separator) 1 None)) as Hsep by (intros ?; done).
  apply (ends_suffix _ _ _ _ Hsep) in Hq as (u & Hu & Hc). cbn [snd] in Hu.
  assert (u = String a m) as ->.
  { change (String.length (String a m +:+ s) - String.length q.2 = String.length (String a m)) in Hm. rewrite Hu in Hm. apply (f_equal (str_take (String.length (String a m)))) in Hu. rewrite str_take_app in Hu.
    rewrite Hu. rewrite <-Hm, str_length_app.
    replace (String.length u + String.length q.2 - String.length q.2) with (String.length u) by lia. by rewrite str_take_app. }
  symmetry. by apply (alnum_count_zero is_separator), Hc; apply separator_not_alnum.
Qed.

Lemma normalizePypiName_count name : alnum_count (normalizePypiName name) = alnum_count name.
Proof.
  unfold normalizePypiName, replace_all. rewrite <-(alnum_count_lower name).
  eapply alnum_count_rewritten, replace_rewritten. cbn. lia.
Qed.

(** Two names that normalise to one have the same letters and digits in number. *)
Lemma longer_name_differs name more :
  first_is is_alnum more = true → normalizePypiName (name +:+ "-" +:+ more) ≠ normalizePypiName name.
Proof.
  intros Hm Heq. apply (f_equal alnum_count) in Heq. rewrite !normalizePypiName_count, !alnum_count_app in Heq.
  destruct more as [|a more]; [done|]. cbn [first_is] in Hm. rewrite (alnum_count_cons a), Hm in Heq. cbn in Heq. lia.
Qed.

(** *** The file names of wheels *)

(** A part of the name of a wheel: a project with its dashes replaced, a version, a build tag. *)
Definition wheel_part (s : string) : bool := pypi_name s && str_forallb (λ a, negb (a =? dash)) s.
Definition wheel_number (s : string) : bool := wheel_part s && first_is is_digit s.

(** The tags and the extension: the tags begin with letters. *)
Definition wheel_tail (tail : string) : bool :=
  first_is is_letter tail && str_forallb is_name_char tail && endsWith tail ".whl"
  && forallb (λ s, negb (first_is is_digit s)) (split_on dash tail).

Lemma wheel_part_spec s : wheel_part s = true → pypi_name s = true ∧ dash ∉ chars s.
Proof.
  unfold wheel_part. intros [Hn Hd]%andb_true_iff. split; [done|]. clear Hn. unfold chars.
  induction s as [|a s IH]; cbn in *; [apply not_elem_of_nil|]. apply andb_true_iff in Hd as [Ha Hd].
  apply not_elem_of_cons. split; [|by apply IH]. intros <-. by rewrite bool_decide_eq_true_2 in Ha.
Qed.

Lemma pypi_name_chars s : pypi_name s = true → str_forallb is_name_char s = true.
Proof. unfold pypi_name. by intros [[? _]%andb_true_iff _]%andb_true_iff. Qed.

Lemma pypi_name_join s t : pypi_name s = true → pypi_name t = true → pypi_name (s +:+ "-" +:+ t) = true.
Proof.
  unfold pypi_name. intros [[Hs Hf]%andb_true_iff _]%andb_true_iff [[Ht Hg]%andb_true_iff Hl]%andb_true_iff.
  rewrite !str_forallb_app, Hs, Ht, last_is_app by done. rewrite last_is_app by by destruct t.
  rewrite Hl. destruct s; [done|]. rewrite str_app_cons. cbn [first_is] in *. by rewrite Hf.
Qed.

(** A version, or a build tag, before the tags: all that precedes it is the name. *)
Lemma pypi_wheel n pre v tail :
  split_on dash n = pre → (pre = [n] ∨ ∃ name d, pre = [name; d] ∧ first_is is_digit d = true) →
  pypi_name n = true → wheel_number v = true → wheel_tail tail = true →
  pypi_filename_match (n +:+ "-" +:+ v +:+ "-" +:+ tail) = Some (n, v).
Proof.
  intros Hsplit Hpre Hn [[Hv Hvd]%wheel_part_spec Hd]%andb_true_iff Ht.
  apply andb_true_iff in Ht as [[[Hfirst Hchars]%andb_true_iff [t ->]%endsWith_spec]%andb_true_iff Htags].
  change (n +:+ "-" +:+ v +:+ "-" +:+ t +:+ ".whl") with (n +:+ String dash (v +:+ String dash (t +:+ ".whl"))).
  apply pypi_filename_unique; try done.
  - rewrite last_is_app by done. change (String dash (v +:+ String dash (t +:+ ".whl"))) with (String dash "" +:+ (v +:+ String dash (t +:+ ".whl"))).
    rewrite last_is_app by by destruct v. rewrite last_is_app by done. change (String dash (t +:+ ".whl")) with (String dash "" +:+ (t +:+ ".whl")).
    rewrite last_is_app by by destruct t. by rewrite last_is_app.
  - intros n' v' h l Heq Hd' Hh. rewrite !split_on_app, (split_on_no_sep _ v), Hsplit in Heq by done. cbn [app] in Heq.
    assert (Hnodigit : v' ∉ split_on dash (t +:+ ".whl")).
    { intros Hin. rewrite forallb_forall in Htags. apply list_elem_of_In, Htags in Hin. by rewrite Hd' in Hin. }
    assert (Hhd : first_is is_digit h = false).
    { destruct h as [|c h]; [done|]. cbn in *. clear -Hh. by destruct c as [[] [] [] [] [] [] [] []]. }
    assert (split_on dash n' ≠ []) as Hne by apply split_on_not_nil.
    enough (split_on dash n' = pre ∧ v' = v) as [Hn' ->] by (split; [apply (split_on_inj dash); congruence|done]).
    destruct Hpre as [->|(name & d & -> & Hdd)]; cbn [app] in Heq.
    + destruct (split_on dash n') as [|a [|b A]]; [done|by injection Heq as -> -> _|].
      cbn [app] in Heq. injection Heq as _ _ Heq. destruct Hnodigit. rewrite Heq. apply elem_of_app. right. by left.
    + destruct (split_on dash n') as [|a [|b [|c A]]]; [done| |by injection Heq as -> -> -> _|].
      * injection Heq as _ _ <- _. congruence.
      * cbn [app] in Heq. injection Heq as _ _ _ Heq. destruct Hnodigit. rewrite Heq. apply elem_of_app. right. by left.
  - exists t. rewrite str_forallb_app in Hchars. apply andb_true_iff in Hchars as [Hchars _].
    destruct t as [|c t]; [done|]. split_and!; [done|done|].
    revert Hchars. generalize (String c t). intros s. induction s as [|a s IH]; [done|]. cbn [str_forallb].
    intros [Ha Hs]%andb_true_iff. rewrite IH by done. rewrite andb_true_r. clear -Ha. by destruct a as [[] [] [] [] [] [] [] []].
Qed.

Lemma wheel_filename name version tail :
  wheel_part name = true → wheel_number version = true → wheel_tail tail = true →
  pypi_filename_match (name +:+ "-" +:+ version +:+ "-" +:+ tail) = Some (name, version).
Proof.
  intros [Hn Hd]%wheel_part_spec Hv Ht. apply (pypi_wheel name [name]); try done; [by apply split_on_no_sep|by left].
Qed.

(** With a build tag, the version counts as part of the name. *)
Lemma built_wheel_filename name version build tail :
  wheel_part name = true → wheel_number version = true → wheel_number build = true → wheel_tail tail = true →
  pypi_filename_match (name +:+ "-" +:+ version +:+ "-" +:+ build +:+ "-" +:+ tail) = Some (name +:+ "-" +:+ version, build).
Proof.
  intros [Hn Hd]%wheel_part_spec [[Hv Hvd]%wheel_part_spec Hdigit]%andb_true_iff Hb Ht.
  rewrite <-(pypi_wheel (name +:+ "-" +:+ version) [name; version] build tail); try done.
  - by rewrite !str_app_assoc.
  - change ("-" +:+ version) with (String dash version). rewrite split_on_app. by rewrite !split_on_no_sep.
  - right. eauto.
  - by apply pypi_name_join.
Qed.
