(* ===== verification/PackageRegistry.v ===== *)
(** * The package registry proxy

    Models docker/package-validator.ts and docker/registry-proxy.ts: the validation of a
    package version, the filtering of registry metadata, the cache of allowed versions and
    the routing of requests.  A handler runs from the arrival of its request, read at
    [ck_start], to its answer, [ck_after] being the time after its upstream fetches; what
    the fetches return is an argument.  Values have their declared types: a metadata field
    of another JSON type counts as missing.  [minimatch] belongs to a library. *)

From Stdlib Require Import Ascii ZArith QArith Qcanon Qround Lia.
From stdpp Require Import gmap strings sorting.
From S2P Require Import Prelude JsValue Paths Urls Hashing Numbers Redactor UriText PackageNames.

Local Open Scope Z_scope.
Local Open Scope curtain_scope.

(** [minimatch(name, pattern, { nocase: true })] *)
Class Minimatch := { minimatch : string → string → bool }.

(** What a sort leaves in front when the comparison is inconsistent. *)
Class SortChoice := { unordered_pick : list string → nat }.

(** A [Date]: milliseconds, or invalid. *)
Inductive JsDate := ValidDate (ms : Z) | InvalidDate.
#[export] Instance JsDate_eq_dec : EqDecision JsDate.
Proof. solve_decision. Defined.

(** ** Validation *)

Inductive PackageDecision := Allow (reason : string) | Deny (reason : string).
Definition is_allow (d : PackageDecision) : bool := match d with Allow _ => true | Deny _ => false end.
Definition decision_reason (d : PackageDecision) : string := match d with Allow r | Deny r => r end.

Record VersionMetadata := { vm_publishedAt : option JsDate }.

(** A validator reads the clock. *)
Definition PackageValidator : Type := Z → PackageIdentity → option VersionMetadata → PackageDecision.

Definition DENY_ALL_VALIDATOR : PackageValidator := λ _ _ _, Deny "No validator configured".

Record PackageValidatorConfig := {
  vc_allowedPackages : list string;
  vc_deniedPackages : list string;
  vc_quarantineDays : option Qc
}.

Definition DEFAULT_QUARANTINE_DAYS : Qc := qc_of_Z 2.
Definition MS_PER_DAY : Z := 24 * 60 * 60 * 1000.

Definition quarantine (config : PackageValidatorConfig) : Qc :=
  default DEFAULT_QUARANTINE_DAYS (vc_quarantineDays config).

Definition age_days (now published : Z) : Qc :=
  (qc_of_Z (Z.max 0 (now - published)) / qc_of_Z MS_PER_DAY)%Qc.

Section validator.
Context `{Minimatch} `{Runtime}.

Definition matchesPatternList (packageName : string) (patterns : list string) : bool :=
  existsb (minimatch packageName) patterns.

Definition createPackageValidator (config : PackageValidatorConfig) : PackageValidator := λ now pkg metadata,
  let name := canonicalPackageName pkg in
  let quoted_name := quoted name in
  if negb (bool_decide (vc_deniedPackages config = [])) && matchesPatternList name (vc_deniedPackages config)
  then Deny ("Package " +:+ quoted_name +:+ " is on the deny list")
  else if negb (bool_decide (vc_allowedPackages config = [])) && matchesPatternList name (vc_allowedPackages config)
  then Allow ("Package " +:+ quoted_name +:+ " is on the allow list")
  else if qc_lt (qc_of_Z 0) (quarantine config) then
    match metadata with
    | None => Deny ("No metadata available for " +:+ quoted_name +:+ " (fail-closed)")
    | Some m =>
        match vm_publishedAt m with
        | None => Deny ("No publish timestamp for " +:+ quoted_name +:+ " (fail-closed)")
        | Some InvalidDate => Allow "Passed all validation checks"      (** NaN is not below anything *)
        | Some (ValidDate t) =>
            if qc_lt (age_days now t) (quarantine config)
            then Deny ("Version " +:+ quoted (default "unknown" (pk_version pkg)) +:+ " of " +:+ quoted_name
                       +:+ " is only " +:+ show_Z (Qfloor (this (age_days now t))) +:+ " day(s) old (quarantine: "
                       +:+ number_to_string (quarantine config) +:+ " days)")
            else Allow "Passed all validation checks"
        end
    end
  else Allow "Passed all validation checks".
End validator.

(** ** Metadata *)

Record NpmPackument := {
  np_versions : option (object jsvalue);
  np_distTags : option (object string);
  np_time : option (object string);
  np_rest : object jsvalue                     (** the properties that are kept as they are *)
}.

Record DeniedVersion := { dv_version : string; dv_reason : string }.

(** Keys that every object answers to with [in]. *)
Definition OBJECT_PROTOTYPE : list string :=
  ["constructor"; "__defineGetter__"; "__defineSetter__"; "hasOwnProperty"; "__lookupGetter__";
   "__lookupSetter__"; "isPrototypeOf"; "propertyIsEnumerable"; "toString"; "valueOf"; "__proto__";
   "toLocaleString"].
Definition js_in {A} (k : string) (o : object A) : bool := obj_has o k || includes OBJECT_PROTOTYPE k.

Definition nonempty (s : option string) : option string :=
  match s with Some "" | None => None | Some s => Some s end.

Section metadata.
Context `{Runtime} `{SortChoice}.
Variable validate : PackageIdentity → option VersionMetadata → PackageDecision.

(** [new Date(s)], undefined when it is invalid. *)
Definition finite_date (s : option string) : option JsDate := ValidDate <$> (nonempty s ≫= date_parse).

Definition time_of (packument : NpmPackument) (k : string) : option string :=
  nonempty (np_time packument ≫= λ time, obj_get time k).

Definition npm_decision (packument : NpmPackument) (name : string) (scope : option string) (version : string) :
    PackageDecision :=
  validate {| pk_registry := Npm; pk_name := name; pk_scope := scope; pk_version := Some version |}
    (Some {| vm_publishedAt := finite_date (time_of packument version) |}).

Definition keep_time (packument : NpmPackument) (time : object string) (k : string) : object string :=
  match time_of packument k with Some t => obj_set time k t | None => time end.

(** The accumulators of the loop over the versions. *)
Record NpmFilter := { nf_versions : object jsvalue; nf_time : object string; nf_denied : list DeniedVersion }.

Definition npm_filter_step (packument : NpmPackument) (name : string) (scope : option string)
    (acc : NpmFilter) (entry : string * jsvalue) : NpmFilter :=
  let '(version, manifest) := entry in
  match npm_decision packument name scope version with
  | Allow _ =>
      {| nf_versions := obj_set (nf_versions acc) version manifest;
         nf_time := keep_time packument (nf_time acc) version; nf_denied := nf_denied acc |}
  | Deny reason =>
      {| nf_versions := nf_versions acc; nf_time := nf_time acc;
         nf_denied := nf_denied acc ++ [{| dv_version := version; dv_reason := reason |}] |}
  end.

(** [keys.sort((a, b) => time(b) - time(a))[0]]: the first of the newest when every date is
    valid, and what the engine picks when the comparison is not an order. *)
Definition newest (time : object string) (keys : list string) : option string :=
  let date k := date_parse (default "" (obj_get time k)) in
  match keys with
  | [] => None
  | k0 :: rest =>
      if forallb (λ k, bool_decide (is_Some (date k))) keys
      then Some (foldl (λ best k, if default 0 (date best) <? default 0 (date k) then k else best) k0 rest)
      else keys !! (unordered_pick keys mod length keys)%nat
  end.

Definition filterNpmPackument (packument : NpmPackument) (packageName : string) (scope : option string) :
    result (NpmPackument * list DeniedVersion) :=
  let time := keep_time packument (keep_time packument [] "created") "modified" in
  match np_versions packument with
  | None => Throw "Cannot convert undefined or null to object"
  | Some entries =>
      let acc := foldl (npm_filter_step packument packageName scope)
                   {| nf_versions := []; nf_time := time; nf_denied := [] |} entries in
      let distTags := filter (λ e, js_in e.2 (nf_versions acc) = true) (default [] (np_distTags packument)) in
      let distTags :=
        if (default "" (obj_get distTags "latest") =? "") && negb (bool_decide (nf_versions acc = []))
        then match newest (nf_time acc) (filter (λ k, k ∉ ["created"; "modified"]) (obj_keys (nf_time acc))) with
             | Some v => if v =? "" then distTags else obj_set distTags "latest" v
             | None => distTags
             end
        else distTags in
      Ok ({| np_versions := Some (nf_versions acc); np_distTags := Some distTags; np_time := Some (nf_time acc);
             np_rest := np_rest packument |}, nf_denied acc)
  end.

(** *** crates.io *)

Record CargoFilter := { cf_kept : list string; cf_denied : list DeniedVersion; cf_allowed : list string }.

(** A line that is not JSON is dropped; the properties of [null] cannot be read. *)
Definition cargo_filter_line (packageName : string) (acc : CargoFilter) (rawLine : string) : result CargoFilter :=
  let line := str_trim rawLine in
  if line =? "" then Ok acc
  else match json_parse line with
  | None => Ok acc
  | Some VNull => Throw "Cannot read properties of null (reading 'vers')"
  | Some (VObj entry) =>
      match get_value entry "vers" with
      | VStr vers =>
          if vers =? "" then Ok acc
          else
            let publishedAt := match get_value entry "pubtime" with VStr s => finite_date (Some s) | _ => None end in
            let pkg := {| pk_registry := Cargo; pk_name := packageName; pk_scope := None; pk_version := Some vers |} in
            match validate pkg ((λ d, {| vm_publishedAt := Some d |}) <$> publishedAt) with
            | Allow _ =>
                Ok {| cf_kept := cf_kept acc ++ [line]; cf_denied := cf_denied acc;
                      cf_allowed := js_set_add vers (cf_allowed acc) |}
            | Deny reason =>
                Ok {| cf_kept := cf_kept acc;
                      cf_denied := cf_denied acc ++ [{| dv_version := vers; dv_reason := reason |}];
                      cf_allowed := cf_allowed acc |}
            end
      | _ => Ok acc
      end
  | Some _ => Ok acc
  end.

Fixpoint cargo_filter_lines (packageName : string) (acc : CargoFilter) (lines : list string) : result CargoFilter :=
  match lines with
  | [] => Ok acc
  | line :: lines => acc ← cargo_filter_line packageName acc line; cargo_filter_lines packageName acc lines
  end.

Definition filterCargoSparseIndex (ndjson packageName : string) :
    result (string * list DeniedVersion * list string) :=
  acc ← cargo_filter_lines packageName {| cf_kept := []; cf_denied := []; cf_allowed := [] |}
          (split_on (ascii_of_nat 10) ndjson);
  Ok (str_join newline (cf_kept acc) +:+ newline, cf_denied acc, cf_allowed acc).

(** *** PyPI *)

Definition space : regex := Chr Ascii.is_space.
Definition no_case (s : string) : regex :=
  foldr (λ a r, Cat (Chr (λ b, ascii_lower b =? a)) r) Eps (chars s).
Definition not_char (c : ascii) : regex := Chr (λ a, negb (a =? c)).
Definition dquote_char : ascii := ascii_of_nat 34.

(** A link: an opening [a] with an [href], its text and its closing, then white space, in any case. *)
Definition ANCHOR : regex :=
  foldr Cat Eps
    [no_case "<a"; Rep space 1 None; Rep (not_char ">"%char) 0 None;
     no_case "href="; literal dquote; Rep (not_char dquote_char) 0 None; literal dquote;
     Rep (not_char ">"%char) 0 None; literal ">"; Rep (not_char "<"%char) 0 None;
     no_case "</a>"; Rep space 0 None].

(** The matches that [replace] visits. *)
Fixpoint matches_loop (r : regex) (skip : nat) (prev : option ascii) (s : string) : list string :=
  match s with
  | "" => []
  | String a rest =>
      match skip with
      | S skip => matches_loop r skip (Some a) rest
      | O =>
          match match_length r (prev, s) with
          | Some (S n) => str_take (S n) s :: matches_loop r n (Some a) rest
          | _ => matches_loop r 0 (Some a) rest
          end
      end
  end.
Definition all_matches (r : regex) (s : string) : list string := matches_loop r 0 None s.

(** The first [href] in double quotes. *)
Definition href_of (anchor : string) : option string :=
  match str_indexOf anchor ("href=" +:+ dquote) with
  | None => None
  | Some i =>
      let rest := str_drop (i + 6) anchor in
      match str_indexOf rest dquote with Some n => Some (str_take n rest) | None => None end
  end.

(** The version that the file name of a link carries. *)
Definition link_version (anchor : string) : option string :=
  href ← href_of anchor;
  let filename := default "" (head (split_on "#"%char (last_segment href))) in
  if filename =? "" then None else nonempty (extractPypiPackageFromFilename filename ≫= pk_version).

Definition pypi_decision (packageName : string) (timestamps : object JsDate) (version : string) : PackageDecision :=
  validate {| pk_registry := Pypi; pk_name := packageName; pk_scope := None; pk_version := Some version |}
    ((λ d, {| vm_publishedAt := Some d |}) <$> obj_get timestamps version).

Definition keep_link (packageName : string) (timestamps : object JsDate) (anchor : string) : bool :=
  match link_version anchor with
  | None => true
  | Some version => is_allow (pypi_decision packageName timestamps version)
  end.

Definition filterPypiIndex (html packageName : string) (timestamps : object JsDate) :
    string * list DeniedVersion * list string :=
  let versions := js_set (omap link_version (all_matches ANCHOR html)) in
  let decide v := pypi_decision packageName timestamps v in
  (replace_all ANCHOR (λ anchor, if keep_link packageName timestamps anchor then anchor else "") html,
   omap (λ v, match decide v with Deny reason => Some {| dv_version := v; dv_reason := reason |} | Allow _ => None end)
     versions,
   filter (λ v, is_allow (decide v) = true) versions).

End metadata.

(** The earliest upload of each version; a date that does not parse stays. *)
Definition earliest_upload `{Runtime} (files : list (option string)) : option JsDate :=
  foldl (λ earliest file,
    match nonempty file with
    | None => earliest
    | Some s =>
        let date := match date_parse s with Some t => ValidDate t | None => InvalidDate end in
        match earliest, date with
        | None, _ => Some date
        | Some (ValidDate t), ValidDate u => if u <? t then Some date else earliest
        | _, _ => earliest
        end
    end) None files.

Definition pypi_timestamps `{Runtime} (releases : option (object (list (option string)))) : object JsDate :=
  match releases with
  | None => []
  | Some releases => omap (λ e, pair e.1 <$> earliest_upload e.2) releases
  end.

(** ** The cache of allowed versions *)

Record CacheEntry := { ce_allowedVersions : list string; ce_cachedAt : Z }.
Abbreviation AllowedVersionCache := (gmap string CacheEntry).

Definition CACHE_TTL_MS : Z := 60 * 60 * 1000.

Definition getCachedVersions (now : Z) (cache : AllowedVersionCache) (pkg : PackageIdentity) :
    AllowedVersionCache * option (list string) :=
  let key := packageCacheKey pkg in
  match cache !! key with
  | None => (cache, None)
  | Some entry =>
      if CACHE_TTL_MS <? now - ce_cachedAt entry then (delete key cache, None)
      else (cache, Some (ce_allowedVersions entry))
  end.

Definition setCachedVersions (now : Z) (cache : AllowedVersionCache) (pkg : PackageIdentity)
    (versions : list string) : AllowedVersionCache :=
  <[packageCacheKey pkg := {| ce_allowedVersions := versions; ce_cachedAt := now |}]> cache.

(** ** Requests

    What a fetch from the registry yields: [None] stands for a failure, a status other than
    200 and, for JSON, a body that does not parse. *)

Record UpstreamFetch := { uf_host : string; uf_path : string; uf_accept : string }.
Record Fetched := {
  ft_packument : option NpmPackument;
  ft_text : option string;
  ft_releases : option (object (list (option string)))
}.

Inductive AuditSource := MetadataFilter | TarballBackstop | DebBackstop.

Record PackageAuditEntry := {
  pa_timestamp : Z;
  pa_registry : RegistryType;
  pa_packageName : string;
  pa_packageScope : option string;
  pa_packageVersion : option string;
  pa_decision : PackageDecision;                (** [decision] and [reason] *)
  pa_source : AuditSource;
  pa_requestPath : string
}.

Inductive PackageResponse :=
| Reply (status : nat) (contentType body : string)
| ReplyPackument (packument : NpmPackument)      (** 200, as JSON *)
| PassThrough                                    (** [forwardUpstream] *)
| ForwardArchive (path : string).                (** [forwardToUpstream], a minute at most *)

(** What a handler is waiting for. *)
Inductive Pending :=
| AwaitNpmMetadata (pkg : PackageIdentity)
| AwaitPypiSimple (pkg : PackageIdentity)
| AwaitCargoIndex (pkg : PackageIdentity)
| AwaitValidation (registry : RegistryConfig) (pkg : PackageIdentity).

Inductive Handled :=
| Answered (response : PackageResponse)
| Waits (pending : Pending).

Definition text_plain : string := "text/plain".

Definition pypi_json (host : string) (pkg : PackageIdentity) : UpstreamFetch :=
  {| uf_host := host; uf_path := "/pypi/" +:+ pk_name pkg +:+ "/json"; uf_accept := "application/json" |}.

(** The requests a handler makes while it waits. *)
Definition pending_fetches (host path : string) (pending : Pending) : list UpstreamFetch :=
  match pending with
  | AwaitNpmMetadata _ => [{| uf_host := host; uf_path := path; uf_accept := "application/json" |}]
  | AwaitPypiSimple pkg => [{| uf_host := host; uf_path := path; uf_accept := "text/html" |}; pypi_json host pkg]
  | AwaitCargoIndex _ => [{| uf_host := host; uf_path := path; uf_accept := text_plain |}]
  | AwaitValidation registry pkg =>
      match rg_type registry with
      | Npm =>
          let metadataPath :=
            match nonempty (pk_scope pkg) with
            | Some scope => "/@" +:+ scope +:+ "/" +:+ pk_name pkg
            | None => "/" +:+ pk_name pkg
            end in
          [{| uf_host := rg_host registry; uf_path := metadataPath; uf_accept := "application/json" |}]
      | Cargo =>
          [{| uf_host := rg_host cargoRegistry; uf_path := "/" +:+ cargoSparseIndexPath (pk_name pkg);
              uf_accept := text_plain |}]
      | Pypi | Debian => [pypi_json (rg_host registry) pkg]
      end
  end.

Definition audit_entry (now : Z) (pkg : PackageIdentity) (path : string) (source : AuditSource)
    (version : option string) (decision : PackageDecision) : PackageAuditEntry :=
  {| pa_timestamp := now; pa_registry := pk_registry pkg; pa_packageName := pk_name pkg;
     pa_packageScope := pk_scope pkg; pa_packageVersion := version; pa_decision := decision;
     pa_source := source; pa_requestPath := path |}.

(** The entries of a filtered metadata document: one for each version denied, one for the rest. *)
Definition filter_entries (now : Z) (pkg : PackageIdentity) (path : string) (denied : list DeniedVersion)
    (allowed : list string) : list PackageAuditEntry :=
  ((λ d, audit_entry now pkg path MetadataFilter (Some (dv_version d)) (Deny (dv_reason d))) <$> denied)
  ++ (if (length allowed =? 0)%nat then []
      else [audit_entry now pkg path MetadataFilter (Some (show_nat (length allowed) +:+ " version(s)"))
              (Allow "Passed all validation checks")]).

Definition denied_reason (denied : list DeniedVersion) (version : option string) : option string :=
  dv_reason <$> List.find (λ d, Some (dv_version d) =? version) denied.

Section handlers.
Context `{Runtime} `{SortChoice}.
Variable validator : PackageValidator.

(** *** The arrival of a request *)

Definition handleTarballDownload (registry : RegistryConfig) (path : string) (now : Z) (cache : AllowedVersionCache) :
    AllowedVersionCache * list PackageAuditEntry * Handled :=
  match parseTarballUrl (rg_type registry) path with
  | None => (cache, [], Answered (Reply 403 text_plain
      "Forbidden: unable to identify package from URL — ensure the package name and version are correct"))
  | Some pkg =>
      match nonempty (pk_version pkg) with
      | None => (cache, [], Answered (Reply 403 text_plain
          "Forbidden: unable to identify package from URL — ensure the package name and version are correct"))
      | Some version =>
          match getCachedVersions now cache pkg with
          | (cache, None) => (cache, [], Waits (AwaitValidation registry pkg))
          | (cache, Some cached) =>
              if includes cached version then
                (cache, [audit_entry now pkg path TarballBackstop (pk_version pkg)
                           (Allow "Version in allowed cache from metadata filtering")],
                 Answered (ForwardArchive path))
              else
                (cache, [audit_entry now pkg path TarballBackstop (pk_version pkg)
                           (Deny "Version not in allowed cache (filtered from metadata)")],
                 Answered (Reply 403 text_plain
                   ("Forbidden: " +:+ canonicalPackageName pkg +:+ "@" +:+ version +:+
                    " was filtered during metadata validation (may be too new, denylisted, or otherwise disallowed). Try an older version.")))
          end
      end
  end.

Definition handleDebianRequest (path : string) (now : Z) : list PackageAuditEntry * PackageResponse :=
  match parseDebianPackageUrl path with
  | None =>
      if endsWith (last_segment (clean_path path)) ".deb"
      then ([], Reply 403 text_plain "Forbidden: unable to identify Debian package from URL")
      else ([], PassThrough)
  | Some pkg =>
      let decision := validator now pkg (Some {| vm_publishedAt := Some (ValidDate 0) |}) in
      ([audit_entry now pkg path DebBackstop (pk_version pkg) decision],
       match decision with
       | Allow _ => PassThrough
       | Deny reason =>
           Reply 403 text_plain ("Forbidden: Debian package " +:+ pk_name pkg +:+ " (" +:+
             default "undefined" (pk_version pkg) +:+ ") — " +:+ reason)
       end)
  end.

(** [handleNpmMetadata], [handlePypiSimple] and [handleCargoSparseIndex] up to their fetches. *)
Definition await (pending : PackageIdentity → Pending) (pkg : option PackageIdentity) : Handled :=
  match pkg with Some pkg => Waits (pending pkg) | None => Answered PassThrough end.

Definition handleRegistryRequest (registry : RegistryConfig) (host path : string) (now : Z)
    (cache : AllowedVersionCache) : AllowedVersionCache * list PackageAuditEntry * Handled :=
  let unchanged handled := (cache, [], handled) in
  let tarball := handleTarballDownload registry path now cache in
  match rg_type registry with
  | Npm =>
      if isNpmMetadataRequest path then unchanged (await AwaitNpmMetadata (parseNpmUrl path))
      else if str_includes path "/-/" && negb (startsWith path "/-/") then tarball
      else unchanged (Answered PassThrough)
  | Pypi =>
      if bool_decide (is_Some (parsePypiSimpleUrl path)) then unchanged (await AwaitPypiSimple (parsePypiSimpleUrl path))
      else if includes (rg_mirrorHosts registry) host then tarball
      else unchanged (Answered PassThrough)
  | Debian => let '(entries, response) := handleDebianRequest path now in (cache, entries, Answered response)
  | Cargo =>
      if host =? CARGO_STATIC_HOST then tarball
      else if host =? CARGO_API_HOST then
        if bool_decide (is_Some (parseCargoDownloadUrl path)) then tarball else unchanged (Answered PassThrough)
      else unchanged (await AwaitCargoIndex (parseCargoSparseIndexUrl path))
  end.

(** *** Once the fetches are back *)

(** The validation of every version of a package, for the cache. *)
Definition validate_releases (now : Z) (pkg : PackageIdentity) (timestamps : object JsDate) :
    list string * option string :=
  let decide (e : string * JsDate) :=
    validator now {| pk_registry := Pypi; pk_name := pk_name pkg; pk_scope := None; pk_version := Some e.1 |}
      (Some {| vm_publishedAt := Some e.2 |}) in
  ((filter (λ e, is_allow (decide e) = true) timestamps).*1,
   last (omap (λ e, match decide e with
                    | Deny reason => if Some e.1 =? pk_version pkg then Some reason else None
                    | Allow _ => None
                    end) timestamps)).

Definition version_decision (allowed : list string) (reason : option string) (unknown : string) (pkg : PackageIdentity) :
    PackageDecision :=
  if match pk_version pkg with Some v => includes allowed v | None => false end then Allow "Version passed validation"
  else Deny (default unknown reason).

Definition fetchAndValidateVersion (registry : RegistryConfig) (pkg : PackageIdentity) (now : Z)
    (cache : AllowedVersionCache) (fetched : Fetched) : result (AllowedVersionCache * PackageDecision) :=
  match rg_type registry with
  | Npm =>
      match ft_packument fetched with
      | None => Ok (cache, Deny "Failed to fetch package metadata from upstream")
      | Some packument =>
          '(filtered, denied) ← filterNpmPackument (validator now) packument (pk_name pkg) (pk_scope pkg);
          let allowed := obj_keys (default [] (np_versions filtered)) in
          Ok (setCachedVersions now cache pkg allowed,
              version_decision allowed (denied_reason denied (pk_version pkg)) "Version not found in package metadata" pkg)
      end
  | Cargo =>
      match ft_text fetched with
      | None => Ok (cache, Deny "Failed to fetch crate index from upstream")
      | Some ndjson =>
          '(_, denied, allowed) ← filterCargoSparseIndex (validator now) ndjson (pk_name pkg);
          Ok (setCachedVersions now cache pkg allowed,
              version_decision allowed (denied_reason denied (pk_version pkg)) "Version not found in crate index" pkg)
      end
  | Pypi | Debian =>
      let '(allowed, reason) := validate_releases now pkg (pypi_timestamps (ft_releases fetched)) in
      Ok (setCachedVersions now cache pkg allowed,
          version_decision allowed reason "Version not found in package metadata" pkg)
  end.

Definition resume_pending (pending : Pending) (path : string) (now : Z) (cache : AllowedVersionCache)
    (fetched : Fetched) : AllowedVersionCache * list PackageAuditEntry * PackageResponse :=
  match pending with
  | AwaitNpmMetadata pkg =>
      match ft_packument fetched with
      | None => (cache, [], Reply 502 text_plain "Failed to fetch package metadata from upstream")
      | Some packument =>
          match filterNpmPackument (validator now) packument (pk_name pkg) (pk_scope pkg) with
          | Throw _ => (cache, [], Reply 502 text_plain "Failed to process package metadata")
          | Ok (filtered, denied) =>
              let allowed := obj_keys (default [] (np_versions filtered)) in
              (setCachedVersions now cache pkg allowed, filter_entries now pkg path denied allowed,
               ReplyPackument filtered)
          end
      end
  | AwaitPypiSimple pkg =>
      match ft_text fetched with
      | None => (cache, [], Reply 502 text_plain "Failed to fetch package index from upstream")
      | Some html =>
          let '(filtered, denied, allowed) :=
            filterPypiIndex (validator now) html (pk_name pkg) (pypi_timestamps (ft_releases fetched)) in
          (setCachedVersions now cache pkg allowed, filter_entries now pkg path denied allowed,
           Reply 200 "text/html" filtered)
      end
  | AwaitCargoIndex pkg =>
      match ft_text fetched with
      | None => (cache, [], Reply 404 text_plain "Not Found")
      | Some ndjson =>
          match filterCargoSparseIndex (validator now) ndjson (pk_name pkg) with
          | Throw _ => (cache, [], Reply 502 text_plain "Failed to process crate index")
          | Ok (filtered, denied, allowed) =>
              (setCachedVersions now cache pkg allowed, filter_entries now pkg path denied allowed,
               Reply 200 text_plain filtered)
          end
      end
  | AwaitValidation registry pkg =>
      match fetchAndValidateVersion registry pkg now cache fetched with
      | Throw _ => (cache, [], Reply 403 text_plain
          "Forbidden: unable to validate package version (upstream metadata fetch failed). This is a fail-closed response — retry later or use an allowlisted package.")
      | Ok (cache, Allow _) =>
          (cache, [audit_entry now pkg path TarballBackstop (pk_version pkg)
                     (Allow "Version passed validation on cache miss")], ForwardArchive path)
      | Ok (cache, Deny reason) =>
          (cache, [audit_entry now pkg path TarballBackstop (pk_version pkg) (Deny reason)],
           Reply 403 text_plain ("Forbidden: " +:+ canonicalPackageName pkg +:+ "@" +:+
             default "undefined" (pk_version pkg) +:+ " — " +:+ reason +:+ ". Try a different version."))
      end
  end.

End handlers.

(** ** Runs of requests

    Handlers interleave at their fetches: an event is the arrival of a request or the return
    of the fetches of the request at a position of [px_waiting]. *)

Inductive ProxyEvent :=
| Arrives (registry : RegistryConfig) (host path : string) (now : Z)
| Returns (request : nat) (fetched : Fetched) (now : Z).

Definition event_time (e : ProxyEvent) : Z := match e with Arrives _ _ _ now | Returns _ _ now => now end.

Record ProxyAnswer := { an_type : RegistryType; an_path : string; an_time : Z; an_response : PackageResponse }.

Record ProxyState := {
  px_cache : AllowedVersionCache;
  px_waiting : list (option (RegistryType * string * Pending));
  px_audit : list PackageAuditEntry;
  px_answers : list ProxyAnswer
}.

Definition proxy_init : ProxyState := {| px_cache := ∅; px_waiting := []; px_audit := []; px_answers := [] |}.

Section runs.
Context `{Runtime} `{SortChoice}.
Variable validator : PackageValidator.

Definition proxy_step (s : ProxyState) (e : ProxyEvent) : ProxyState :=
  match e with
  | Arrives registry host path now =>
      let '(cache, entries, handled) := handleRegistryRequest validator registry host path now (px_cache s) in
      let t := rg_type registry in
      {| px_cache := cache;
         px_waiting := px_waiting s ++ [match handled with Waits p => Some (t, path, p) | Answered _ => None end];
         px_audit := px_audit s ++ entries;
         px_answers := px_answers s ++
           match handled with
           | Answered r => [{| an_type := t; an_path := path; an_time := now; an_response := r |}]
           | Waits _ => []
           end |}
  | Returns request fetched now =>
      match px_waiting s !! request with
      | Some (Some (t, path, pending)) =>
          let '(cache, entries, r) := resume_pending validator pending path now (px_cache s) fetched in
          {| px_cache := cache; px_waiting := <[request := None]> (px_waiting s);
             px_audit := px_audit s ++ entries;
             px_answers := px_answers s ++ [{| an_type := t; an_path := path; an_time := now; an_response := r |}] |}
      | _ => s
      end
  end.

Definition proxy_run : ProxyState → list ProxyEvent → ProxyState := foldl proxy_step.

End runs.

(** * What the package proxy lets through

    The filters of registry metadata keep exactly the versions that the validator allows,
    and every entry of the cache of allowed versions goes back to such a decision. *)

(** ** Identities *)

Lemma registry_name_inj r1 r2 s1 s2 :
  registry_name r1 +:+ String ":" s1 = registry_name r2 +:+ String ":" s2 → r1 = r2 ∧ s1 = s2.
Proof. destruct r1, r2; cbn; rewrite !str_app_cons, ?str_app_nil_l; intros Heq; simplify_eq; done. Qed.

Lemma packageCacheKey_inj p q :
  packageCacheKey p = packageCacheKey q →
  pk_registry p = pk_registry q ∧ canonicalPackageName p = canonicalPackageName q.
Proof. apply registry_name_inj. Qed.

Lemma parseNpmUrl_registry path pkg : parseNpmUrl path = Some pkg → pk_registry pkg = Npm.
Proof.
  unfold parseNpmUrl, npm_identity. intros H. repeat case_match; try done;
    apply fmap_Some in H as (p & _ & ->); done.
Qed.

Lemma parseTarballUrl_registry t path pkg : parseTarballUrl t path = Some pkg → pk_registry pkg = t.
Proof.
  destruct t; cbn [parseTarballUrl]; [apply parseNpmUrl_registry|..].
  - unfold parsePypiTarballUrl, extractPypiPackageFromFilename. intros H. case_match; [done|].
    by apply fmap_Some in H as (m & _ & ->).
  - unfold parseDebianPackageUrl, extractDebianPackageFromFilename. intros H. repeat (case_match; try done).
    by simplify_eq.
  - unfold parseCargoDownloadUrl. intros H. repeat (case_match; try done); by simplify_eq.
Qed.

Lemma parsePypiSimpleUrl_registry path pkg : parsePypiSimpleUrl path = Some pkg → pk_registry pkg = Pypi.
Proof.
  unfold parsePypiSimpleUrl. intros H. case_match; [|done]. by apply fmap_Some in H as (m & _ & ->).
Qed.

Lemma parseCargoSparseIndexUrl_registry path pkg : parseCargoSparseIndexUrl path = Some pkg → pk_registry pkg = Cargo.
Proof. unfold parseCargoSparseIndexUrl. intros H. repeat (case_match; try done). by simplify_eq. Qed.

Lemma nonempty_Some s t : nonempty s = Some t ↔ s = Some t ∧ t ≠ "".
Proof. destruct s as [[|a s]|]; cbn; naive_solver. Qed.

(** ** The validator *)

Lemma validator_by_name `{Minimatch} `{Runtime} config now p q md :
  canonicalPackageName p = canonicalPackageName q →
  is_allow (createPackageValidator config now p md) = is_allow (createPackageValidator config now q md).
Proof.
  intros Hn. unfold createPackageValidator. rewrite Hn. repeat case_match; done.
Qed.

(** What an approval means. *)
Lemma validator_allows `{Minimatch} `{Runtime} config now pkg md :
  is_allow (createPackageValidator config now pkg md) = true ↔
  matchesPatternList (canonicalPackageName pkg) (vc_deniedPackages config) = false
  ∧ (matchesPatternList (canonicalPackageName pkg) (vc_allowedPackages config) = true
     ∨ (quarantine config ≤ qc_of_Z 0)%Qc
     ∨ ∃ d, md = Some {| vm_publishedAt := Some d |}
         ∧ match d with ValidDate t => (quarantine config ≤ age_days now t)%Qc | InvalidDate => True end).
Proof.
  assert (Hm : ∀ l, negb (bool_decide (l = [])) && matchesPatternList (canonicalPackageName pkg) l
                    = matchesPatternList (canonicalPackageName pkg) l).
  { intros l. case_bool_decide; [by subst|done]. }
  assert (Hlt : ∀ a b, qc_lt a b = false ↔ (b ≤ a)%Qc).
  { intros a b. rewrite <-not_true_iff_false, qc_lt_spec. split; [apply Qcnot_lt_le|apply Qcle_not_lt]. }
  unfold createPackageValidator. rewrite !Hm.
  destruct (matchesPatternList _ (vc_deniedPackages config)); [cbn; naive_solver|].
  destruct (matchesPatternList _ (vc_allowedPackages config)); [cbn; naive_solver|].
  destruct (qc_lt (qc_of_Z 0) (quarantine config)) eqn:Hq.
  2: { apply Hlt in Hq. cbn. naive_solver. }
  assert (¬ (quarantine config ≤ qc_of_Z 0)%Qc) by (by rewrite <-Hlt, Hq).
  destruct md as [[[[t|]|]]|]; cbn; [|naive_solver..].
  specialize (Hlt (age_days now t) (quarantine config)).
  destruct (qc_lt (age_days now t) (quarantine config)); cbn; naive_solver.
Qed.

(** ** npm *)

Lemma elem_of_obj_keys_set {A} (o : object A) k v k' : k' ∈ obj_keys (obj_set o k v) ↔ k' = k ∨ k' ∈ obj_keys o.
Proof. rewrite obj_keys_set, elem_of_js_set_add. naive_solver. Qed.

Lemma obj_get_key {A} (o : object A) k : k ∈ obj_keys o ↔ is_Some (obj_get o k).
Proof. rewrite <-obj_get_has. unfold obj_has. by rewrite bool_decide_eq_true. Qed.

Section npm.
Context `{Runtime} `{SortChoice}.
Variable validate : PackageIdentity → option VersionMetadata → PackageDecision.
Variables (packument : NpmPackument) (name : string) (scope : option string).

Local Abbreviation decision := (npm_decision validate packument name scope).

Definition npm_allowed (entries : object jsvalue) (v : string) : Prop :=
  v ∈ obj_keys entries ∧ is_allow (decision v) = true.

Lemma keep_time_keys time k k' : k' ∈ obj_keys (keep_time packument time k) → k' = k ∨ k' ∈ obj_keys time.
Proof. unfold keep_time. case_match; [rewrite elem_of_obj_keys_set|]; naive_solver. Qed.

Lemma keep_time_get time k k' t :
  obj_get (keep_time packument time k) k' = Some t → time_of packument k' = Some t ∨ obj_get time k' = Some t.
Proof.
  unfold keep_time. case_match; [|naive_solver]. rewrite obj_get_set. case_bool_decide; naive_solver.
Qed.

Lemma keep_time_has time k k' :
  (k' = k ∧ is_Some (time_of packument k)) ∨ k' ∈ obj_keys time → k' ∈ obj_keys (keep_time packument time k).
Proof.
  unfold keep_time. case_match; [rewrite elem_of_obj_keys_set; naive_solver|].
  intros [[_ []]|?]; done.
Qed.

Lemma npm_allowed_cons v m entries k :
  npm_allowed ((v, m) :: entries) k ↔ (k = v ∧ is_allow (decision v) = true) ∨ npm_allowed entries k.
Proof. unfold npm_allowed, obj_keys. cbn [fmap list_fmap fst]. rewrite elem_of_cons. naive_solver. Qed.

(** The loop over the versions. *)
Lemma npm_filter_spec entries acc :
  let acc' := foldl (npm_filter_step validate packument name scope) acc entries in
  (∀ v, v ∈ obj_keys (nf_versions acc') ↔ v ∈ obj_keys (nf_versions acc) ∨ npm_allowed entries v)
  ∧ (∀ d, d ∈ nf_denied acc' ↔
       d ∈ nf_denied acc ∨ dv_version d ∈ obj_keys entries ∧ decision (dv_version d) = Deny (dv_reason d))
  ∧ (∀ k, k ∈ obj_keys (nf_time acc') → k ∈ obj_keys (nf_time acc) ∨ npm_allowed entries k)
  ∧ (∀ k, k ∈ obj_keys (nf_time acc) ∨ npm_allowed entries k ∧ is_Some (time_of packument k) →
       k ∈ obj_keys (nf_time acc'))
  ∧ (∀ k t, obj_get (nf_time acc') k = Some t → time_of packument k = Some t ∨ obj_get (nf_time acc) k = Some t).
Proof.
  revert acc. induction entries as [|[v m] entries IH]; intros acc acc'.
  { subst acc'. cbn. unfold npm_allowed. repeat split; try naive_solver; try set_solver. }
  destruct (IH (npm_filter_step validate packument name scope acc (v, m))) as (Hv & Hd & Ht & Ht' & Hg).
  assert (Hk : ∀ k, k ∈ obj_keys ((v, m) :: entries) ↔ k = v ∨ k ∈ obj_keys entries)
    by (intros k; unfold obj_keys; cbn [fmap list_fmap fst]; apply elem_of_cons).
  subst acc'. cbn [foldl]. setoid_rewrite npm_allowed_cons. setoid_rewrite Hk. unfold npm_filter_step in *.
  destruct (decision v) as [r|r] eqn:Hdec; cbn [nf_versions nf_time nf_denied is_allow] in *.
  - split_and!.
    + intros k. rewrite Hv, elem_of_obj_keys_set. naive_solver.
    + intros [dv dr]. rewrite Hd. cbn. naive_solver congruence.
    + intros k [Hin|?]%Ht; [apply keep_time_keys in Hin|]; naive_solver.
    + intros k Hin. apply Ht'. destruct Hin as [?|[[[-> _]|?] ?]]; [| |by right];
        left; apply keep_time_has; naive_solver.
    + intros k t [?|Hin]%Hg; [by left|]. apply keep_time_get in Hin. naive_solver.
  - split_and!.
    + intros k. rewrite Hv. naive_solver.
    + intros [dv dr]. rewrite Hd, elem_of_app, list_elem_of_singleton. cbn. naive_solver congruence.
    + intros k ?%Ht. naive_solver.
    + intros k Hin. apply Ht'. naive_solver.
    + done.
Qed.

Definition date_of (time : object string) (k : string) : option Z := date_parse (default "" (obj_get time k)).

Lemma foldl_newest (date : string → Z) k0 keys v :
  foldl (λ best k, if date best <? date k then k else best) k0 keys = v →
  v ∈ k0 :: keys ∧ ∀ k, k ∈ k0 :: keys → date k ≤ date v.
Proof.
  intros <-. revert k0. induction keys as [|k keys IH]; intros k0; cbn [foldl].
  { setoid_rewrite list_elem_of_singleton. split; [done|]. by intros k ->. }
  destruct (date k0 <? date k) eqn:Hlt.
  - destruct (IH k) as [Hin Hmax]. apply Z.ltb_lt in Hlt. split; [set_solver|].
    intros k' [->|Hk']%elem_of_cons; [|by apply Hmax]. specialize (Hmax k ltac:(left)). lia.
  - destruct (IH k0) as [Hin Hmax]. apply Z.ltb_ge in Hlt. split; [set_solver|].
    intros k' [->|[->|Hk']%elem_of_cons]%elem_of_cons; [apply Hmax; left| |by apply Hmax; right].
    specialize (Hmax k0 ltac:(left)). lia.
Qed.

Lemma newest_in time keys v : newest time keys = Some v → v ∈ keys.
Proof.
  destruct keys as [|k0 keys]; [done|]. unfold newest. case_match.
  - intros [= Hv]. by apply (foldl_newest (λ k, default 0 (date_of time k))) in Hv as [? _].
  - apply list_elem_of_lookup_2.
Qed.

Lemma newest_some time keys : keys ≠ [] → is_Some (newest time keys).
Proof.
  destruct keys as [|k0 keys]; [done|]. intros _. unfold newest. case_match; [done|].
  apply lookup_lt_is_Some. apply Nat.mod_upper_bound. done.
Qed.

Lemma newest_max time keys v :
  (∀ k, k ∈ keys → is_Some (date_of time k)) → newest time keys = Some v →
  ∀ k, k ∈ keys → default 0 (date_of time k) ≤ default 0 (date_of time v).
Proof.
  intros Hall. destruct keys as [|k0 keys]; [done|]. unfold newest.
  replace (forallb _ _) with true.
  - intros [= Hv]. by apply (foldl_newest (λ k, default 0 (date_of time k))) in Hv as [_ ?].
  - symmetry. apply forallb_forall. intros k Hk%list_elem_of_In. apply bool_decide_eq_true. by apply Hall.
Qed.

Lemma obj_get_filter_wf {A} (P : string * A → Prop) `{∀ e, Decision (P e)} (o : object A) k v :
  obj_wf o → obj_get (filter P o) k = Some v ↔ obj_get o k = Some v ∧ P (k, v).
Proof.
  intros Hwf. rewrite <-!elem_of_obj_get; [rewrite list_elem_of_filter; naive_solver|done|].
  unfold obj_wf, obj_keys in *. induction o as [|e o IH]; [constructor|]. cbn [fmap list_fmap] in Hwf.
  apply NoDup_cons in Hwf as [Hn Hwf]. rewrite filter_cons. case_decide; [|by apply IH].
  cbn [fmap list_fmap]. apply NoDup_cons. split; [|by apply IH]. contradict Hn.
  apply list_elem_of_fmap in Hn as (e' & -> & He'). apply list_elem_of_filter in He' as [_ ?].
  by apply list_elem_of_fmap_2.
Qed.

(** The parts of a filtered packument. *)
Lemma filterNpmPackument_spec filtered denied :
  filterNpmPackument validate packument name scope = Ok (filtered, denied) →
  ∃ entries versions time,
    np_versions packument = Some entries ∧ np_versions filtered = Some versions ∧ np_time filtered = Some time
    ∧ (∀ v, v ∈ obj_keys versions ↔ npm_allowed entries v)
    ∧ (∀ d, d ∈ denied ↔ dv_version d ∈ obj_keys entries ∧ decision (dv_version d) = Deny (dv_reason d))
    ∧ (∀ k, k ∈ obj_keys time ↔
         is_Some (time_of packument k) ∧ (k = "created" ∨ k = "modified" ∨ npm_allowed entries k))
    ∧ (∀ k t, obj_get time k = Some t → time_of packument k = Some t)
    ∧ let kept := filter (λ e, js_in e.2 versions = true) (default [] (np_distTags packument)) in
      let candidates := filter (λ k, k ∉ ["created"; "modified"]) (obj_keys time) in
      np_distTags filtered = Some kept ∧ (default "" (obj_get kept "latest") ≠ "" ∨ versions = [] ∨ candidates = [] ∨ newest time candidates = Some "")
      ∨ default "" (obj_get kept "latest") = "" ∧
        ∃ v, newest time candidates = Some v ∧ np_distTags filtered = Some (obj_set kept "latest" v).
Proof.
  unfold filterNpmPackument. destruct (np_versions packument) as [entries|]; [|done].
  set (time0 := keep_time packument (keep_time packument [] "created") "modified").
  destruct (npm_filter_spec entries {| nf_versions := []; nf_time := time0; nf_denied := [] |})
    as (Hv & Hd & Ht & Ht' & Hg).
  cbn [nf_versions nf_time nf_denied] in *.
  set (acc := foldl _ _ entries) in *. intros [= <- <-]. cbn [np_versions np_time np_distTags].
  assert (Hg' : ∀ k t, obj_get (nf_time acc) k = Some t → time_of packument k = Some t).
  { intros k t [?|Hk]%Hg; [done|]. apply keep_time_get in Hk as [?|Hk]; [done|].
    by apply keep_time_get in Hk as [?|?]. }
  exists entries, (nf_versions acc), (nf_time acc). split_and!; try done.
  - intros v. rewrite Hv. set_solver.
  - intros d. rewrite Hd. set_solver.
  - intros k. split.
    + intros Hk. split; [apply obj_get_key in Hk as [t Hk]; eauto|].
      apply Ht in Hk as [Hk|?]; [|by auto]. apply keep_time_keys in Hk as [?|Hk]; [by auto|].
      apply keep_time_keys in Hk as [?|?]; [by auto|]. set_solver.
    + intros [Hs [->|[->|?]]]; apply Ht'; [left|left|by right]; apply keep_time_has; [|by left].
      right. apply keep_time_has. by left.
  - cbv zeta. set (kept := filter _ (default [] _)). set (keys := filter _ (obj_keys (nf_time acc))).
    destruct (default "" (obj_get kept "latest") =? "") eqn:Hl; bool_hyps; cbn [andb].
    2: { left. split; [done|]. by left. }
    destruct (bool_decide (nf_versions acc = [])) eqn:He; bool_hyps; cbn [negb]; [left; auto|].
    destruct (newest (nf_time acc) keys) as [v|] eqn:Hn.
    + case_bool_decide; subst; [left; by auto|]. right. eauto.
    + left. split; [done|]. right; right; left. destruct keys as [|k ks] eqn:Ek; [done|].
      rewrite <-Ek in Hn. destruct (newest_some (nf_time acc) keys) as [? ?]; [by rewrite Ek|congruence].
Qed.
End npm.

(** ** What the registry published about a version *)

Definition cargo_entry `{Runtime} (ndjson : string) (vers : string) (md : option VersionMetadata) : Prop :=
  ∃ line entry, line ∈ split_on (ascii_of_nat 10) ndjson ∧ json_parse (str_trim line) = Some (VObj entry)
    ∧ get_value entry "vers" = VStr vers
    ∧ md = (λ d, {| vm_publishedAt := Some d |})
             <$> match get_value entry "pubtime" with VStr s => finite_date (Some s) | _ => None end.

Inductive published `{Runtime} (fetched : Fetched) (v : string) : RegistryType → option VersionMetadata → Prop :=
| published_npm packument :
    ft_packument fetched = Some packument → v ∈ obj_keys (default [] (np_versions packument)) →
    published fetched v Npm (Some {| vm_publishedAt := finite_date (time_of packument v) |})
| published_pypi d :
    (v, d) ∈ pypi_timestamps (ft_releases fetched) → published fetched v Pypi (Some {| vm_publishedAt := Some d |})
| published_nowhere :
    obj_get (pypi_timestamps (ft_releases fetched)) v = None → published fetched v Pypi None
| published_cargo ndjson md :
    ft_text fetched = Some ndjson → cargo_entry ndjson v md → published fetched v Cargo md.

(** npm and crates.io drop a date that does not parse. *)
Lemma finite_date_valid `{Runtime} s : finite_date s ≠ Some InvalidDate.
Proof. unfold finite_date. by destruct (nonempty s ≫= date_parse). Qed.

Lemma published_invalid `{Runtime} fetched v t :
  published fetched v t (Some {| vm_publishedAt := Some InvalidDate |}) → t = Pypi.
Proof.
  inversion 1 as [pk E1 E2 E3 Hmd| | |ndjson md Hf Hentry]; [|done|].
  - by apply finite_date_valid in Hmd.
  - destruct Hentry as (line & entry & _ & _ & _ & Hmd).
    symmetry in Hmd. apply fmap_Some in Hmd as (d & Hmd & [= <-]).
    destruct (get_value entry "pubtime"); try done. by apply finite_date_valid in Hmd.
Qed.

Section approvals.
Context `{Runtime} `{SortChoice}.
Variable validator : PackageValidator.

Lemma cargo_lines_allowed now name (all lines : list string) acc acc' :
  (∀ l, l ∈ lines → l ∈ all) →
  cargo_filter_lines (validator now) name acc lines = Ok acc' →
  ∀ v, v ∈ cf_allowed acc' → v ∈ cf_allowed acc ∨
    ∃ line entry, line ∈ all ∧ json_parse (str_trim line) = Some (VObj entry) ∧ get_value entry "vers" = VStr v
      ∧ is_allow (validator now
          {| pk_registry := Cargo; pk_name := name; pk_scope := None; pk_version := Some v |}
          ((λ d, {| vm_publishedAt := Some d |})
             <$> match get_value entry "pubtime" with VStr s => finite_date (Some s) | _ => None end)) = true.
Proof.
  revert acc. induction lines as [|l lines IH]; intros acc Hall; cbn [cargo_filter_lines].
  { intros [= ->]. by left. }
  intros (acc1 & Hl & Hrest)%result_bind_ok v Hv. apply (IH acc1) with (v := v) in Hrest; [|set_solver|done].
  destruct Hrest as [Hin|?]; [|by right].
  unfold cargo_filter_line in Hl. repeat (case_match; simplify_eq; try (by left)).
  all: cbn [cf_allowed] in Hin; apply elem_of_js_set_add in Hin as [->|?]; [|by left].
  all: right; do 2 eexists; split_and!; [apply Hall; left|done|done|].
  all: by repeat match goal with E : _ = _ |- _ => progress rewrite E end.
Qed.

(** A version that a validator allowed for a package, from what the registry published. *)
Definition approved (now : Z) (fetched : Fetched) (key v : string) : Prop :=
  ∃ pkg md, packageCacheKey pkg = key ∧ published fetched v (pk_registry pkg) md
    ∧ is_allow (validator now pkg md) = true ∧ pk_version pkg = Some v.

Definition with_version (pkg : PackageIdentity) (v : string) : PackageIdentity :=
  {| pk_registry := pk_registry pkg; pk_name := pk_name pkg; pk_scope := pk_scope pkg; pk_version := Some v |}.

Lemma cargo_approved now pkg ndjson filtered denied allowed fetched :
  pk_registry pkg = Cargo → pk_scope pkg = None → ft_text fetched = Some ndjson →
  filterCargoSparseIndex (validator now) ndjson (pk_name pkg) = Ok (filtered, denied, allowed) →
  ∀ v, v ∈ allowed → approved now fetched (packageCacheKey pkg) v.
Proof.
  intros Hr Hs Ht. unfold filterCargoSparseIndex. intros (acc & Hacc & [= <- <- <-])%result_bind_ok v Hv.
  destruct (cargo_lines_allowed now _ (split_on (ascii_of_nat 10) ndjson) _ _ _ (λ l Hl, Hl) Hacc v Hv)
    as [Hin|(line & entry & Hl & Hj & Hvers & Hallow)]; [by apply not_elem_of_nil in Hin|].
  eexists (with_version pkg v), _. split_and!; [done| | |done].
  - cbn. rewrite Hr. eapply published_cargo; [done|]. do 2 eexists. split_and!; done.
  - unfold with_version. rewrite Hr, Hs. done.
Qed.

Lemma npm_approved now pkg packument filtered denied fetched :
  pk_registry pkg = Npm → ft_packument fetched = Some packument →
  filterNpmPackument (validator now) packument (pk_name pkg) (pk_scope pkg) = Ok (filtered, denied) →
  ∀ v, v ∈ obj_keys (default [] (np_versions filtered)) → approved now fetched (packageCacheKey pkg) v.
Proof.
  intros Hr Hp (entries & versions & time & He & Hf & _ & Hv & _)%filterNpmPackument_spec v Hin.
  rewrite Hf in Hin. apply Hv in Hin as [Hin Hallow].
  eexists (with_version pkg v), _. split_and!; [done| | |done].
  - cbn. rewrite Hr. eapply published_npm; [done|]. by rewrite He.
  - unfold with_version. rewrite Hr. done.
Qed.

Lemma pypi_approved now pkg html filtered denied allowed fetched :
  pk_registry pkg = Pypi → pk_scope pkg = None →
  filterPypiIndex (validator now) html (pk_name pkg) (pypi_timestamps (ft_releases fetched)) = (filtered, denied, allowed) →
  ∀ v, v ∈ allowed → approved now fetched (packageCacheKey pkg) v.
Proof.
  intros Hr Hs [= _ _ <-] v [Hallow _]%list_elem_of_filter. unfold pypi_decision in Hallow.
  eexists (with_version pkg v), _. split_and!; [done| |unfold with_version; rewrite Hr, Hs; done|done].
  cbn. rewrite Hr. destruct (obj_get _ v) eqn:Hg; [|by apply published_nowhere].
  apply published_pypi. by apply obj_get_elem.
Qed.

Lemma releases_approved now pkg fetched allowed reason :
  pk_registry pkg = Pypi → pk_scope pkg = None →
  validate_releases validator now pkg (pypi_timestamps (ft_releases fetched)) = (allowed, reason) →
  ∀ v, v ∈ allowed → approved now fetched (packageCacheKey pkg) v.
Proof.
  intros Hr Hs [= <- _] v (e & -> & [Hallow Hin]%list_elem_of_filter)%list_elem_of_fmap.
  eexists (with_version pkg e.1), _.
  split_and!; [done| |unfold with_version; rewrite Hr, Hs; exact Hallow|done].
  cbn. rewrite Hr. apply published_pypi. by destruct e.
Qed.

(** ** The cache *)

Definition pending_package (p : Pending) : PackageIdentity :=
  match p with AwaitNpmMetadata pkg | AwaitPypiSimple pkg | AwaitCargoIndex pkg | AwaitValidation _ pkg => pkg end.

(** In a run, the fetches of a request for a package came back. *)
Definition returned (past : list ProxyEvent) (key : string) (fetched : Fetched) (now : Z) : Prop :=
  ∃ before after i t path p,
    past = before ++ Returns i fetched now :: after
    ∧ px_waiting (proxy_run validator proxy_init before) !! i = Some (Some (t, path, p))
    ∧ packageCacheKey (pending_package p) = key.

Lemma returned_app past past' key fetched now : returned past key fetched now → returned (past ++ past') key fetched now.
Proof.
  intros (before & after & i & t & path & p & -> & ? & ?). exists before, (after ++ past'), i, t, path, p.
  split; [|done]. by rewrite <-app_assoc.
Qed.

Lemma returned_elem past key fetched now : returned past key fetched now → ∃ i, Returns i fetched now ∈ past.
Proof.
  intros (before & after & i & t & path & p & -> & _). exists i. apply elem_of_app. right. left.
Qed.

Definition cache_approved (past : list ProxyEvent) (cache : AllowedVersionCache) : Prop :=
  ∀ key e v, cache !! key = Some e → v ∈ ce_allowedVersions e →
    ∃ fetched, returned past key fetched (ce_cachedAt e) ∧ approved (ce_cachedAt e) fetched key v.

Lemma cache_approved_app past past' cache : cache_approved past cache → cache_approved (past ++ past') cache.
Proof. intros Hc key e v He Hv. destruct (Hc key e v He Hv) as (f & ? & ?). eauto using returned_app. Qed.

Lemma setCachedVersions_approved past fetched now cache pkg allowed :
  returned past (packageCacheKey pkg) fetched now → cache_approved past cache →
  (∀ v, v ∈ allowed → approved now fetched (packageCacheKey pkg) v) →
  cache_approved past (setCachedVersions now cache pkg allowed).
Proof.
  intros Hin Hc Hnew key e v He Hv. unfold setCachedVersions in He.
  apply lookup_insert_Some in He as [[<- <-]|[_ He]]; [|by eapply Hc].
  cbn in Hv |- *. eauto.
Qed.

Lemma getCachedVersions_spec past now cache pkg cache' cached :
  cache_approved past cache → getCachedVersions now cache pkg = (cache', cached) →
  cache_approved past cache' ∧
  (∀ l v, cached = Some l → v ∈ l →
     ∃ fetched t0, returned past (packageCacheKey pkg) fetched t0 ∧ now - t0 ≤ CACHE_TTL_MS
       ∧ approved t0 fetched (packageCacheKey pkg) v).
Proof.
  intros Hc. unfold getCachedVersions. destruct (cache !! packageCacheKey pkg) as [e|] eqn:He.
  - destruct (CACHE_TTL_MS <? now - ce_cachedAt e) eqn:Ht; intros [= <- <-].
    + split; [|done]. intros key e' v Hk. apply lookup_delete_Some in Hk as [_ Hk]. by apply Hc.
    + apply Z.ltb_ge in Ht. split; [done|]. intros l v [= <-] Hv.
      destruct (Hc _ _ _ He Hv) as (f & ? & ?). eauto 10.
  - intros [= <- <-]. done.
Qed.
End approvals.

(** ** Runs *)

Lemma parseTarballUrl_scope t path pkg : parseTarballUrl t path = Some pkg → t ≠ Npm → pk_scope pkg = None.
Proof.
  destruct t; cbn [parseTarballUrl]; [done|..]; intros H _.
  - unfold parsePypiTarballUrl, extractPypiPackageFromFilename in H. case_match; [done|].
    by apply fmap_Some in H as (m & _ & ->).
  - unfold parseDebianPackageUrl, extractDebianPackageFromFilename in H. repeat (case_match; try done).
    by simplify_eq.
  - unfold parseCargoDownloadUrl in H. repeat (case_match; try done); by simplify_eq.
Qed.

Lemma parseDebianPackageUrl_version path pkg :
  parseDebianPackageUrl path = Some pkg → ∃ v, pk_version pkg = Some v ∧ v ≠ "".
Proof.
  unfold parseDebianPackageUrl, extractDebianPackageFromFilename. intros Hp. repeat (case_match; try done).
  injection Hp as <-. eexists. split; [done|]. eapply bool_decide_eq_false_1.
  match goal with E : ?a || (?v =? "") = false |- _ => by apply orb_false_iff in E as [_ E] end.
Qed.

Section runs.
Context `{Runtime} `{SortChoice}.
Variable validator : PackageValidator.

Definition pending_ok (t : RegistryType) (path : string) (p : Pending) : Prop :=
  match p with
  | AwaitNpmMetadata pkg => pk_registry pkg = Npm
  | AwaitPypiSimple pkg => pk_registry pkg = Pypi ∧ pk_scope pkg = None
  | AwaitCargoIndex pkg => pk_registry pkg = Cargo ∧ pk_scope pkg = None
  | AwaitValidation registry pkg =>
      rg_type registry = t ∧ t ≠ Debian ∧ parseTarballUrl t path = Some pkg ∧ is_Some (nonempty (pk_version pkg))
  end.

(** The package of an archive was approved, within the life of the cache. *)
Definition archive_approved (past : list ProxyEvent) (t : RegistryType) (path : string) (now : Z) : Prop :=
  ∃ pkg v fetched t0,
    parseTarballUrl t path = Some pkg ∧ pk_version pkg = Some v ∧ v ≠ ""
    ∧ returned validator past (packageCacheKey pkg) fetched t0 ∧ t0 ≤ now ≤ t0 + CACHE_TTL_MS
    ∧ approved validator t0 fetched (packageCacheKey pkg) v.

Definition by_time (past : list ProxyEvent) (now : Z) : Prop := ∀ e, e ∈ past → event_time e ≤ now.

(** A Debian archive is one the validator allowed, as published at the epoch. *)
Definition debian_approved (path : string) (now : Z) : Prop :=
  ∃ pkg v, parseDebianPackageUrl path = Some pkg ∧ pk_version pkg = Some v ∧ v ≠ ""
    ∧ is_allow (validator now pkg (Some {| vm_publishedAt := Some (ValidDate 0) |})) = true.

Record answer_ok (past : list ProxyEvent) (t : RegistryType) (path : string) (now : Z) (r : PackageResponse) : Prop := {
  ao_archive : ∀ p, r = ForwardArchive p → p = path ∧ archive_approved past t path now;
  ao_debian : t = Debian → r = PassThrough → endsWith (last_segment (clean_path path)) ".deb" = true →
    debian_approved path now
}.

Lemma answer_ok_other past t path now r :
  (∀ p, r ≠ ForwardArchive p) → r ≠ PassThrough → answer_ok past t path now r.
Proof. intros Hr Hp. split; [intros p ->; by destruct (Hr p)|done]. Qed.

Lemma answer_ok_pass past t path now : t ≠ Debian → answer_ok past t path now PassThrough.
Proof. done. Qed.

Lemma answer_ok_archive past t path now :
  archive_approved past t path now → answer_ok past t path now (ForwardArchive path).
Proof. split; [by intros p [= <-]|done]. Qed.

Lemma handleTarballDownload_ok past registry path now cache cache' entries handled :
  rg_type registry ≠ Debian → by_time past now → cache_approved validator past cache →
  handleTarballDownload registry path now cache = (cache', entries, handled) →
  cache_approved validator past cache' ∧
  match handled with
  | Answered r => answer_ok past (rg_type registry) path now r
  | Waits p => pending_ok (rg_type registry) path p
  end.
Proof.
  intros Ht Hby Hc. unfold handleTarballDownload.
  destruct (parseTarballUrl _ path) as [pkg|] eqn:Hp;
    [|intros [= <- <- <-]; split; [done|by apply answer_ok_other]].
  destruct (nonempty (pk_version pkg)) as [v|] eqn:Hv;
    [|intros [= <- <- <-]; split; [done|by apply answer_ok_other]].
  destruct (getCachedVersions now cache pkg) as [cache1 cached] eqn:Hg.
  destruct (getCachedVersions_spec validator past _ _ _ _ _ Hc Hg) as [Hc1 Hcached].
  destruct cached as [l|]; [|intros [= <- <- <-]; split; [done|cbn; eauto]].
  destruct (includes l v) eqn:Hl; intros [= <- <- <-]; (split; [done|]); [|by apply answer_ok_other].
  apply answer_ok_archive. apply includes_spec in Hl.
  destruct (Hcached l v eq_refl Hl) as (f & t0 & Hret & Hage & ?).
  destruct (returned_elem _ _ _ _ _ Hret) as [i Hin]. specialize (Hby _ Hin). cbn in Hby. apply nonempty_Some in Hv as [Hv Hne].
  exists pkg, v, f, t0. split_and!; try done; lia.
Qed.

Lemma await_ok past t path now pending o :
  t ≠ Debian → (∀ pkg, o = Some pkg → pending_ok t path (pending pkg)) →
  match await pending o with
  | Answered r => answer_ok past t path now r
  | Waits p => pending_ok t path p
  end.
Proof. intros Ht Ho. destruct o; cbn; [by apply Ho|by apply answer_ok_pass]. Qed.

(** A path with the suffix of a Debian archive is let through after the validator only. *)
Lemma handleDebianRequest_ok past path now entries r :
  handleDebianRequest validator path now = (entries, r) → answer_ok past Debian path now r.
Proof.
  unfold handleDebianRequest. destruct (parseDebianPackageUrl path) as [pkg|] eqn:Hp.
  - intros [= <- <-]. split; [intros p; by case_match|]. intros _ Hpass _.
    destruct (validator now pkg _) eqn:Hv; [|done]. destruct (parseDebianPackageUrl_version _ _ Hp) as (v & Hver & Hne).
    exists pkg, v. split_and!; try done. by rewrite Hv.
  - destruct (endsWith _ _) eqn:He; intros [= <- <-]; [by apply answer_ok_other|]. split; [done|]. by rewrite He.
Qed.

Lemma handleRegistryRequest_ok past registry host path now cache cache' entries handled :
  by_time past now → cache_approved validator past cache →
  handleRegistryRequest validator registry host path now cache = (cache', entries, handled) →
  cache_approved validator past cache' ∧
  match handled with
  | Answered r => answer_ok past (rg_type registry) path now r
  | Waits p => pending_ok (rg_type registry) path p
  end.
Proof.
  intros Hby Hc. unfold handleRegistryRequest. pose proof (handleTarballDownload_ok past registry path now cache) as Htar.
  pose proof (answer_ok_pass past (rg_type registry) path now) as Hpass.
  revert Htar. generalize (handleTarballDownload registry path now cache). intros tarball Htar.
  destruct (rg_type registry) eqn:Ht.
  - destruct (isNpmMetadataRequest path); [|destruct (_ && _); [by apply Htar|]]; intros [= <- <- <-]; (split; [done|]).
    + apply await_ok; [done|]. apply parseNpmUrl_registry.
    + by apply Hpass.
  - destruct (bool_decide _); [|destruct (includes _ _); [by apply Htar|]]; intros [= <- <- <-]; (split; [done|]).
    + apply await_ok; [done|]. intros pkg Hp. split; [by apply parsePypiSimpleUrl_registry in Hp|].
      unfold parsePypiSimpleUrl in Hp. case_match; [|done]. by apply fmap_Some in Hp as (m & _ & ->).
    + by apply Hpass.
  - destruct (handleDebianRequest validator path now) as [entries' r] eqn:Hdeb. intros [= <- <- <-].
    split; [done|]. by eapply handleDebianRequest_ok.
  - destruct (host =? CARGO_STATIC_HOST); [by apply Htar|].
    destruct (host =? CARGO_API_HOST); [destruct (bool_decide _); [by apply Htar|]|];
      intros [= <- <- <-]; (split; [done|]); [by apply Hpass|].
    apply await_ok; [done|]. intros pkg Hp. split; [by apply parseCargoSparseIndexUrl_registry in Hp|].
    unfold parseCargoSparseIndexUrl in Hp. repeat (case_match; try done). by simplify_eq.
Qed.

(** The verdict on a cache miss: an allowed version is in the list that is cached. *)
Lemma version_decision_allow allowed reason unknown pkg v :
  nonempty (pk_version pkg) = Some v →
  is_allow (version_decision allowed reason unknown pkg) = true → v ∈ allowed.
Proof.
  intros [Hv _]%nonempty_Some. unfold version_decision. rewrite Hv.
  destruct (includes allowed v) eqn:Hi; [|done]. intros _. by apply includes_spec.
Qed.

Lemma fetchAndValidateVersion_ok past registry pkg path v now cache fetched cache' decision :
  returned validator past (packageCacheKey pkg) fetched now → cache_approved validator past cache →
  rg_type registry ≠ Debian → parseTarballUrl (rg_type registry) path = Some pkg →
  nonempty (pk_version pkg) = Some v →
  fetchAndValidateVersion validator registry pkg now cache fetched = Ok (cache', decision) →
  cache_approved validator past cache' ∧
  (is_allow decision = true → approved validator now fetched (packageCacheKey pkg) v).
Proof.
  intros Hin Hc Ht Hp Hv.
  pose proof (parseTarballUrl_registry _ _ _ Hp) as Hr. pose proof (parseTarballUrl_scope _ _ _ Hp) as Hs.
  assert (Hset : ∀ allowed reason unknown,
    (∀ v, v ∈ allowed → approved validator now fetched (packageCacheKey pkg) v) →
    cache_approved validator past (setCachedVersions now cache pkg allowed) ∧
    (is_allow (version_decision allowed reason unknown pkg) = true →
     approved validator now fetched (packageCacheKey pkg) v)).
  { intros allowed reason unknown Ha. split; [by eapply setCachedVersions_approved|].
    intros Hd. apply Ha. by eapply version_decision_allow. }
  unfold fetchAndValidateVersion. destruct (rg_type registry) eqn:Et; [|..|done|].
  - destruct (ft_packument fetched) as [packument|] eqn:Hf; [|by intros [= <- <-]].
    intros ([filtered denied] & Hfil & [= <- <-])%result_bind_ok. apply Hset.
    by eapply (npm_approved validator).
  - destruct (validate_releases _ _ _ _) as [allowed reason] eqn:Hvr. intros [= <- <-]. apply Hset.
    eapply (releases_approved validator); [done|by apply Hs|done].
  - destruct (ft_text fetched) as [ndjson|] eqn:Hf; [|by intros [= <- <-]].
    intros ([[filtered denied] allowed] & Hfil & [= <- <-])%result_bind_ok. apply Hset.
    eapply (cargo_approved validator); [done|by apply Hs|done|done].
Qed.

Lemma resume_pending_ok past t path p now cache fetched cache' entries r :
  returned validator past (packageCacheKey (pending_package p)) fetched now → cache_approved validator past cache → pending_ok t path p →
  resume_pending validator p path now cache fetched = (cache', entries, r) →
  cache_approved validator past cache' ∧ answer_ok past t path now r.
Proof.
  intros Hin Hc Hok. destruct p as [pkg|pkg|pkg|registry pkg]; cbn [resume_pending pending_ok pending_package] in *.
  - destruct (ft_packument fetched) as [packument|] eqn:Hf;
      [|intros [= <- <- <-]; split; [done|by apply answer_ok_other]].
    destruct (filterNpmPackument _ _ _ _) as [[filtered denied]|e] eqn:Hfil; intros [= <- <- <-];
      (split; [|by apply answer_ok_other]); [|done].
    eapply setCachedVersions_approved; [done|done|]. by eapply (npm_approved validator).
  - destruct Hok as [Hr Hs]. destruct (ft_text fetched) as [html|] eqn:Hf;
      [|intros [= <- <- <-]; split; [done|by apply answer_ok_other]].
    destruct (filterPypiIndex _ _ _ _) as [[filtered denied] allowed] eqn:Hfil; intros [= <- <- <-].
    split; [|by apply answer_ok_other].
    eapply setCachedVersions_approved; [done|done|]. by eapply (pypi_approved validator).
  - destruct Hok as [Hr Hs]. destruct (ft_text fetched) as [ndjson|] eqn:Hf;
      [|intros [= <- <- <-]; split; [done|by apply answer_ok_other]].
    destruct (filterCargoSparseIndex _ _ _) as [[[filtered denied] allowed]|e] eqn:Hfil; intros [= <- <- <-];
      (split; [|by apply answer_ok_other]); [|done].
    eapply setCachedVersions_approved; [done|done|]. by eapply (cargo_approved validator).
  - destruct Hok as (Ht & Hd & Hp & [v Hv]). rewrite <-Ht in Hd, Hp.
    destruct (fetchAndValidateVersion _ _ _ _ _ _) as [[cache1 decision]|e] eqn:Hfv;
      [|intros [= <- <- <-]; split; [done|by apply answer_ok_other]].
    destruct (fetchAndValidateVersion_ok past _ _ path v _ _ _ _ _ Hin Hc Hd Hp Hv Hfv) as [Hc' Hallow].
    destruct decision; intros [= <- <- <-]; (split; [done|]); [|by apply answer_ok_other].
    apply answer_ok_archive. rewrite <-Ht. apply nonempty_Some in Hv as [Hv Hne].
    exists pkg, v, fetched, now. split_and!; try done; [unfold CACHE_TTL_MS; lia|by apply Hallow].
Qed.

(** *** The invariant of a run *)

Record proxy_ok (past : list ProxyEvent) (s : ProxyState) : Prop := {
  po_run : s = proxy_run validator proxy_init past;
  po_cache : cache_approved validator past (px_cache s);
  po_waiting : ∀ i t path p, px_waiting s !! i = Some (Some (t, path, p)) → pending_ok t path p;
  po_answers : ∀ a, a ∈ px_answers s →
    answer_ok past (an_type a) (an_path a) (an_time a) (an_response a)
}.

Lemma answer_ok_app past past' t path now r : answer_ok past t path now r → answer_ok (past ++ past') t path now r.
Proof.
  intros [Ha Hd]. split; [|done]. intros p Hp. destruct (Ha p Hp) as (? & pkg & v & f & t0 & ? & ? & ? & ? & ?).
  split; [done|]. exists pkg, v, f, t0. split_and!; try done; [by apply returned_app|naive_solver..].
Qed.

Lemma proxy_step_ok past s e : by_time past (event_time e) → proxy_ok past s → proxy_ok (past ++ [e]) (proxy_step validator s e).
Proof.
  intros Hby [Hrun Hc Hw Ha]. assert (Hby' : by_time (past ++ [e]) (event_time e)).
  { intros e' [?| ->%list_elem_of_singleton]%elem_of_app; [by apply Hby|lia]. }
  apply (cache_approved_app _ _ [e]) in Hc.
  assert (Ha' : ∀ a, a ∈ px_answers s → answer_ok (past ++ [e]) (an_type a) (an_path a) (an_time a) (an_response a))
    by (intros a Hin; by apply answer_ok_app, Ha).
  assert (Hrun' : proxy_step validator s e = proxy_run validator proxy_init (past ++ [e]))
    by (unfold proxy_run in *; by rewrite foldl_app, <-Hrun).
  assert (∀ c w au an, proxy_step validator s e = {| px_cache := c; px_waiting := w; px_audit := au; px_answers := an |} →
    cache_approved validator (past ++ [e]) c → (∀ i t path p, w !! i = Some (Some (t, path, p)) → pending_ok t path p) →
    (∀ a, a ∈ an → answer_ok (past ++ [e]) (an_type a) (an_path a) (an_time a) (an_response a)) →
    proxy_ok (past ++ [e]) (proxy_step validator s e)) as Hmake by (intros ???? Heq ???; constructor; rewrite ?Heq in *; done).
  destruct e as [registry host path now|i fetched now]; cbn [proxy_step event_time] in *.
  - destruct (handleRegistryRequest _ _ _ _ _ _) as [[cache entries] handled] eqn:Hh.
    apply (handleRegistryRequest_ok _ _ _ _ _ _ _ _ _ Hby' Hc) in Hh as [Hc' Hr].
    eapply Hmake; [done|done|..].
    + intros j t p q Hj. apply lookup_app_Some in Hj as [Hj|[_ Hj]]; [by eapply Hw|].
      apply list_lookup_singleton_Some in Hj as [_ Hj]. by destruct handled; simplify_eq.
    + intros a [?|Hin]%elem_of_app; [by apply Ha'|]. destruct handled; [|by apply not_elem_of_nil in Hin].
      apply list_elem_of_singleton in Hin as ->. done.
  - destruct (px_waiting s !! i) as [[[[t path] p]|]|] eqn:Hi; [|constructor; done..].
    destruct (resume_pending _ _ _ _ _ _) as [[cache entries] r] eqn:Hres.
    eapply (resume_pending_ok (past ++ [Returns i fetched now]) t path p) in Hres as [Hc' Hr];
      [|by exists past, [], i, t, path, p; rewrite <-Hrun|done|by eapply Hw].
    eapply Hmake; [done|done|..].
    + intros j t' p' q' Hj. apply list_lookup_insert_Some in Hj as [(_ & ? & _)|[_ Hj]]; [done|by eapply Hw].
    + intros a [?| ->%list_elem_of_singleton]%elem_of_app; [by apply Ha'|]. done.
Qed.

Lemma proxy_run_ok past s events :
  StronglySorted Z.le (event_time <$> past ++ events) →
  proxy_ok past s → proxy_ok (past ++ events) (proxy_run validator s events).
Proof.
  revert past s. induction events as [|e events IH]; intros past s Hsort Hs; cbn [proxy_run foldl].
  - by rewrite app_nil_r.
  - rewrite cons_middle, app_assoc in *. apply IH; [done|]. apply proxy_step_ok; [|done].
    rewrite fmap_app, fmap_app in Hsort. apply StronglySorted_app_1_l in Hsort.
    intros e' He'. eapply StronglySorted_app_1_elem_of; [done|by apply list_elem_of_fmap_2|]. left.
Qed.

Lemma proxy_init_ok : proxy_ok [] proxy_init.
Proof. constructor; cbn; [done|intros ??? Hk; by rewrite lookup_empty in Hk|done|intros a Hin; by apply not_elem_of_nil in Hin]. Qed.
End runs.
