(* ===== verification/PackageProperties.v ===== *)
(** * Properties of the package registry proxy

    What a sandbox receives from a package registry: the archives that the tarball backstop
    forwards, the metadata that is left after filtering, the addresses of crates, and the
    requests that reach a registry without a decision. *)

From Stdlib Require Import Ascii ZArith Lia QArith Qcanon.
From stdpp Require Import gmap strings sorting.
From S2P Require Import Prelude Numbers JsValue Paths Urls Hashing Redactor UriText PackageNames PackageRegistry.

Local Open Scope Z_scope.
Local Open Scope curtain_scope.

(** ** A demonstration registry *)

Definition demo_dates : Runtime := {|
  sha256_hex s := s;
  number_to_string q := "2";
  json_parse s := None;
  json_stringify v := "";
  date_parse s := if s =? "1970" then Some 0 else if s =? "today" then Some (100 * MS_PER_DAY) else None
|}.
Definition demo_match : Minimatch := {| minimatch name pattern := name =? pattern |}.
Definition demo_sort : SortChoice := {| unordered_pick _ := 0%nat |}.

Definition demo_packages : PackageValidatorConfig :=
  {| vc_allowedPackages := []; vc_deniedPackages := ["evil"]; vc_quarantineDays := None |}.

Definition demo_packument : NpmPackument :=
  {| np_versions := Some [("1.0.0", VNull); ("2.0.0", VNull)];
     np_distTags := Some [("latest", "2.0.0"); ("old", "1.0.0")];
     np_time := Some [("created", "1970"); ("1.0.0", "1970"); ("2.0.0", "today")]; np_rest := [] |}.

Definition demo_fetched : Fetched :=
  {| ft_packument := Some demo_packument; ft_text := None; ft_releases := None |}.

Definition demo_now : Z := 100 * MS_PER_DAY.
Definition demo_tarball : string := "/express/-/express-1.0.0.tgz".

(** Metadata is asked for, an archive is asked for and forwarded. *)
Definition demo_events : list ProxyEvent :=
  [Arrives npmRegistry "registry.npmjs.org" "/express" demo_now;
   Returns 0 demo_fetched (demo_now + 1);
   Arrives npmRegistry "registry.npmjs.org" demo_tarball (demo_now + 2)].

Definition demo_answer : ProxyAnswer :=
  {| an_type := Npm; an_path := demo_tarball; an_time := demo_now + 2; an_response := ForwardArchive demo_tarball |}.

(** ** Archives *)

(** C8. Take any interleaving of requests and fetches from an empty cache.  When the proxy
    forwards a request as the download of an npm, PyPI or crates.io archive, its path names a
    package and a version; the package is not on the deny list; and at most an hour before,
    metadata fetched for that package listed the version, and it was on the allow list, or no
    quarantine applies, or it was published at least the quarantine before.  Only PyPI can
    supply a date that is not one.  A path on a Debian host whose last segment ends in [.deb]
    reaches the host only when it names a package and a version and the package is not on the
    deny list; no metadata is fetched for it, and it counts as published in 1970.  The requests
    that are passed on without being taken for an archive are outside this claim. *)
Theorem archives_approved `{Minimatch} `{Runtime} `{SortChoice} config events a :
  StronglySorted Z.le (event_time <$> events) →
  a ∈ px_answers (proxy_run (createPackageValidator config) proxy_init events) →
  (∀ p, an_response a = ForwardArchive p →
    p = an_path a ∧
    ∃ pkg v fetched t0 md,
      parseTarballUrl (an_type a) p = Some pkg ∧ pk_version pkg = Some v ∧ v ≠ ""
      ∧ matchesPatternList (canonicalPackageName pkg) (vc_deniedPackages config) = false
      ∧ returned (createPackageValidator config) events (packageCacheKey pkg) fetched t0
      ∧ t0 ≤ an_time a ≤ t0 + CACHE_TTL_MS
      ∧ published fetched v (an_type a) md
      ∧ (matchesPatternList (canonicalPackageName pkg) (vc_allowedPackages config) = true
         ∨ (quarantine config ≤ qc_of_Z 0)%Qc
         ∨ ∃ d, md = Some {| vm_publishedAt := Some d |}
             ∧ match d with
               | ValidDate t => (quarantine config ≤ age_days t0 t)%Qc
               | InvalidDate => an_type a = Pypi
               end))
  ∧ (an_type a = Debian → an_response a = PassThrough →
     endsWith (last_segment (clean_path (an_path a))) ".deb" = true →
     ∃ pkg v, parseDebianPackageUrl (an_path a) = Some pkg ∧ pk_version pkg = Some v ∧ v ≠ ""
       ∧ matchesPatternList (canonicalPackageName pkg) (vc_deniedPackages config) = false
       ∧ (matchesPatternList (canonicalPackageName pkg) (vc_allowedPackages config) = true
          ∨ (quarantine config ≤ qc_of_Z 0)%Qc ∨ (quarantine config ≤ age_days (an_time a) 0)%Qc)).
Proof.
  intros Hsort Ha. pose proof (proxy_run_ok (createPackageValidator config) [] _ events Hsort (proxy_init_ok _)) as [_ _ _ Hans].
  destruct (Hans a Ha) as [Harchive Hdebian]. split.
  - intros p Hr.
    destruct (Harchive p Hr) as (-> & pkg & v & fetched & t0 & Hp & Hv & Hne & Hret & Hage & q & md & Hkey & Hpub & Hallow & _).
    apply packageCacheKey_inj in Hkey as [Hreg Hname]. rewrite (parseTarballUrl_registry _ _ _ Hp) in Hreg.
    rewrite Hreg in Hpub. apply validator_allows in Hallow as [Hdeny Hallow]. rewrite Hname in *.
    split; [done|]. exists pkg, v, fetched, t0, md. split_and!; try done; try lia.
    destruct Hallow as [?|[?|(d & -> & Hd)]]; [by left|by right; left|]. right; right. exists d. split; [done|].
    destruct d; [done|]. by apply published_invalid in Hpub.
  - intros Ht Hr Hsuffix. destruct (Hdebian Ht Hr Hsuffix) as (pkg & v & Hp & Hv & Hne & Hallow).
    apply validator_allows in Hallow as [Hdeny Hallow]. exists pkg, v. split_and!; try done.
    destruct Hallow as [?|[?|(d & [= <-] & Hd)]]; auto.
Qed.

Lemma archives_approved_witness :
  ∃ pkg v, parseTarballUrl Npm demo_tarball = Some pkg ∧ pk_version pkg = Some v ∧ v ≠ "".
Proof.
  destruct (@archives_approved demo_match demo_dates demo_sort demo_packages demo_events demo_answer)
    as [Harchive _].
  - repeat (constructor; try (vm_compute; discriminate)).
  - vm_compute. right. left.
  - destruct (Harchive demo_tarball eq_refl) as (_ & pkg & v & _ & _ & _ & Hp & Hv & Hne & _).
    exists pkg, v. done.
Defined.

(** ** npm metadata *)

(** A filtered packument lists exactly the versions that the validator allows, with its
    reasons for the others; dates and tags are left for those versions alone; and when the
    tag [latest] of the registry is not among them, it becomes a version that is the newest
    of them, provided each has a date. *)
Theorem packument_filtered `{Runtime} `{SortChoice} validate packument name scope filtered denied entries :
  np_versions packument = Some entries →
  obj_wf (default [] (np_distTags packument)) →
  filterNpmPackument validate packument name scope = Ok (filtered, denied) →
  let decision := npm_decision validate packument name scope in
  let kept v := v ∈ obj_keys entries ∧ is_allow (decision v) = true in
  let date v := time_of packument v ≫= date_parse in
  (∀ v, v ∈ obj_keys (default [] (np_versions filtered)) ↔ kept v)
  ∧ (∀ d, d ∈ denied ↔ dv_version d ∈ obj_keys entries ∧ decision (dv_version d) = Deny (dv_reason d))
  ∧ (∀ k, k ∈ obj_keys (default [] (np_time filtered)) → k = "created" ∨ k = "modified" ∨ kept k)
  ∧ (∀ tag v, (tag, v) ∈ default [] (np_distTags filtered) → kept v ∨ v ∈ OBJECT_PROTOTYPE)
  ∧ ((∃ v, kept v) →
     (∀ v, kept v → (v ∉ ["created"; "modified"; ""]) ∧ is_Some (date v)) →
     ∃ v, obj_get (default [] (np_distTags filtered)) "latest" = Some v ∧
       (obj_get (default [] (np_distTags packument)) "latest" = Some v
        ∨ kept v ∧ ∀ w, kept w →
            default 0 (date w) ≤ default 0 (date v))).
Proof.
  intros He Hwf Hf decision kept date. subst decision date.
  destruct (filterNpmPackument_spec _ _ _ _ _ _ Hf)
    as (entries' & versions & time & He' & -> & -> & Hv & Hd & Htime & Hget & Htags).
  rewrite He in He'. injection He' as <-. unfold npm_allowed in Hv, Htime. cbv zeta in Htags.
  set (tags := filter _ (default [] (np_distTags packument))) in *.
  set (candidates := filter _ (obj_keys time)) in *.
  assert (Htag : ∀ tag v, (tag, v) ∈ tags → kept v ∨ v ∈ OBJECT_PROTOTYPE).
  { intros tag v [Hjs _]%list_elem_of_filter. unfold js_in in Hjs. apply orb_true_iff in Hjs as [Hjs|Hjs].
    - left. apply Hv. by apply bool_decide_eq_true in Hjs.
    - right. by apply includes_spec. }
  assert (Hcand : ∀ k, k ∈ candidates → kept k).
  { intros k [Hk [_ Hin]%Htime]%list_elem_of_filter. by destruct Hin as [->|[->|?]]; [destruct Hk; left|destruct Hk; right; left|]. }
  split_and!; [done|done| | |].
  - intros k [_ ?]%Htime. done.
  - destruct Htags as [[-> _]|(_ & v & Hnew & ->)]; [done|]. intros tag w Hin.
    apply obj_set_elem_inv in Hin as [[= -> ->]|?]; [|by eapply Htag].
    left. by apply Hcand, (newest_in time).
  - intros [v0 Hv0] Hdates.
    assert (Hdate : ∀ k, kept k → k ∈ candidates ∧ date_of time k = time_of packument k ≫= date_parse).
    { intros k Hk. destruct (Hdates k Hk) as [Hne [t Ht]].
      destruct (time_of packument k) as [s|] eqn:Hs; [|done].
      assert (Hkt : k ∈ obj_keys time) by (apply Htime; rewrite Hs; eauto).
      split; [apply list_elem_of_filter; split; [clear -Hne; set_solver|done]|].
      apply obj_get_key in Hkt as [s' Hs']. unfold date_of. rewrite Hs'. apply Hget in Hs'. by simplify_eq. }
    destruct Htags as [[-> Hstay]|(_ & v & Hnew & ->)]; csimpl.
    + assert (obj_get tags "latest" ≠ None ∧ default "" (obj_get tags "latest") ≠ "") as [Hsome _].
      { destruct Hstay as [Hl|[Hl|[Hl|Hl]]].
        - split; [|done]. intros Hn. by rewrite Hn in Hl.
        - subst versions. destruct (Hv v0) as [_ Hin]. by apply Hin, not_elem_of_nil in Hv0.
        - destruct (Hdate v0 Hv0) as [Hin _]. rewrite Hl in Hin. by apply not_elem_of_nil in Hin.
        - apply newest_in, Hcand, Hdates in Hl as [Hl _]. clear -Hl. set_solver. }
      destruct (obj_get tags "latest") as [v|] eqn:Hl; [|done]. exists v. split; [done|]. left.
      by apply (obj_get_filter_wf _ _ _ _ Hwf) in Hl as [? _].
    + exists v. rewrite obj_get_set. split; [by rewrite bool_decide_eq_true_2|]. right.
      assert (Hkv : kept v) by by eapply Hcand, newest_in. split; [done|]. intros w Hw.
      destruct (Hdate w Hw) as [Hwc <-], (Hdate v Hkv) as [_ <-].
      apply (newest_max time candidates v); [|done|done].
      intros k Hk%Hcand. destruct (Hdate k Hk) as [_ ->]. by apply Hdates.
Qed.

Definition demo_validate : PackageIdentity → option VersionMetadata → PackageDecision :=
  @createPackageValidator demo_match demo_dates demo_packages demo_now.

Lemma packument_filtered_witness :
  match @filterNpmPackument demo_dates demo_sort demo_validate demo_packument "express" None with
  | Ok (filtered, denied) => ∀ d, d ∈ denied → dv_version d ∈ ["1.0.0"; "2.0.0"]
  | Throw _ => False
  end.
Proof.
  destruct (@filterNpmPackument demo_dates demo_sort demo_validate demo_packument "express" None)
    as [[filtered denied]|] eqn:Hf; [|vm_compute in Hf; discriminate].
  destruct (@packument_filtered demo_dates demo_sort demo_validate demo_packument "express" None filtered denied
              [("1.0.0", VNull); ("2.0.0", VNull)]) as (_ & Hd & _); [reflexivity| |exact Hf|].
  - apply (bool_decide_unpack _). vm_compute. exact I.
  - intros d Hin. apply Hd in Hin as [Hin _]. exact Hin.
Defined.

(** ** The addresses of crates *)

Lemma crate_char_not s c : str_forallb is_crate_char s = true → is_crate_char c = false → c ∉ chars s.
Proof.
  intros Hs Hc. unfold chars. induction s as [|a s IH]; cbn in *; [apply not_elem_of_nil|].
  apply andb_true_iff in Hs as [Ha Hs]. apply not_elem_of_cons. split; [congruence|by apply IH].
Qed.

Lemma crate_char_lower s : str_forallb is_crate_char (toLowerCase s) = str_forallb is_crate_char s.
Proof.
  induction s as [|a s IH]; [done|]. cbn [toLowerCase str_forallb]. rewrite IH. f_equal.
  destruct a as [[] [] [] [] [] [] [] []]; reflexivity.
Qed.

Lemma crate_name_spec s : crate_name s = true ↔ s ≠ "" ∧ str_forallb is_crate_char s = true.
Proof. unfold crate_name. rewrite andb_true_iff, negb_true_iff, bool_decide_eq_false. done. Qed.

Definition is_query (q : string) : Prop := q = "" ∨ ∃ t, q = String "?" t.

Lemma clean_path_query p q : "?"%char ∉ chars p → is_query q → clean_path (p +:+ q) = p.
Proof.
  intros Hp [->|[t ->]]; unfold clean_path.
  - by rewrite str_app_nil_r, split_on_no_sep.
  - by rewrite split_on_app, split_on_no_sep.
Qed.

Lemma last_segment_app p s : slash ∉ chars s → last_segment (p +:+ String slash s) = s.
Proof. intros Hs. unfold last_segment. by rewrite split_on_app, (split_on_no_sep _ s), last_snoc. Qed.

Lemma toLowerCase_app s t : toLowerCase (s +:+ t) = toLowerCase s +:+ toLowerCase t.
Proof. induction s as [|a s IH]; [done|]. rewrite !str_app_cons. cbn [toLowerCase]. by rewrite str_app_cons, IH. Qed.

(** The path of a crate in the index: some lower-case text, a slash, the lower-case name. *)
Lemma cargoSparseIndexPath_shape name :
  crate_name name = true →
  ∃ a pre, cargoSparseIndexPath name = String a pre +:+ String slash (toLowerCase name)
    ∧ is_crate_char a = true ∧ toLowerCase (String a pre) = String a pre ∧ "?"%char ∉ chars (String a pre).
Proof.
  intros [Hne Hc]%crate_name_spec. rewrite <-crate_char_lower in Hc.
  assert (toLowerCase name ≠ "") as Hl by by destruct name.
  pose proof (toLowerCase_idem name) as Hidem. pose proof (crate_char_not _ "?" Hc eq_refl) as Hq.
  unfold cargoSparseIndexPath, normalizeCargoName.
  generalize dependent (toLowerCase name). clear name Hne. intros lower Hc Hl Hidem Hq. unfold chars in *.
  destruct lower as [|a [|b [|c [|d rest]]]]; [done|..]; cbn -[is_crate_char] in Hc, Hidem, Hq;
    injection Hidem as ?; repeat (apply andb_true_iff in Hc as [? Hc]); rewrite ?not_elem_of_cons in Hq.
  - exists "1"%char, "". split_and!; try done; clear; cbn; set_solver.
  - exists "2"%char, "". split_and!; try done; clear; cbn; set_solver.
  - exists "3"%char, (String slash (String a "")). cbn -[is_crate_char ascii_lower]. split_and!; [done|done|by repeat f_equal|clear -Hq; set_solver].
  - exists a, (String b (String slash (String c (String d "")))). cbn -[is_crate_char ascii_lower]. split_and!; [done|done|by repeat f_equal|clear -Hq; set_solver].
Qed.

Lemma parseCargoSparseIndexUrl_path name q :
  crate_name name = true → is_query q →
  parseCargoSparseIndexUrl ("/" +:+ cargoSparseIndexPath name +:+ q) = Some (cargo_identity name None).
Proof.
  intros Hname Hq. destruct (cargoSparseIndexPath_shape name Hname) as (a & pre & Hpath & Ha & Hlow & Hqm).
  pose proof (proj1 (crate_name_spec name) Hname) as [Hne Hc]. rewrite <-crate_char_lower in Hc.
  set (path := cargoSparseIndexPath name) in *.
  assert (Hchars : "?"%char ∉ chars path ∧ slash ∈ chars path).
  { rewrite Hpath, chars_app. split; [|apply elem_of_app; right; left].
    apply not_elem_of_app. split; [done|]. apply not_elem_of_cons. split; [done|].
    by apply crate_char_not. }
  unfold parseCargoSparseIndexUrl. rewrite <-str_app_assoc, clean_path_query; [|apply not_elem_of_cons; split; [done|apply Hchars]|done].
  assert (strip_slashes ("/" +:+ path) = path) as ->.
  { rewrite Hpath. change ("/" +:+ ?s) with (String slash s). rewrite str_app_cons. unfold strip_slashes.
    cbn [str_span]. rewrite (bool_decide_eq_false_2 (a = slash)) by (by intros ->). done. }
  assert (path ≠ "config.json" ∧ path ≠ "") as [? ?].
  { destruct Hchars as [_ Hin]. split; intros ->; vm_compute in Hin; apply list_elem_of_In in Hin; cbn in Hin; intuition congruence. }
  rewrite !bool_decide_eq_false_2 by done. cbn [orb].
  cbv zeta. assert (last_segment path = toLowerCase name) as ->
    by (rewrite Hpath; by apply last_segment_app, crate_char_not).
  assert (crate_name (toLowerCase name) = true) as ->.
  { apply crate_name_spec. split; [by destruct name|done]. }
  cbn [negb]. assert (toLowerCase path = path) as ->.
  { rewrite Hpath, toLowerCase_app, Hlow. cbn [toLowerCase]. by rewrite toLowerCase_idem. }
  assert (cargoSparseIndexPath (toLowerCase name) = path) as ->.
  { unfold path, cargoSparseIndexPath, normalizeCargoName. by rewrite toLowerCase_idem. }
  rewrite bool_decide_eq_true_2 by done. cbn [negb]. unfold cargo_identity, normalizeCargoName.
  by rewrite toLowerCase_idem.
Qed.

Lemma not_in_join c l : c ≠ slash → Forall (λ s, c ∉ chars s) l → c ∉ chars (str_join "/" l).
Proof.
  intros Hc. induction l as [|s [|s' l] IH]; intros Hl; [apply not_elem_of_nil|..]; apply Forall_cons in Hl as [Hs Hl]; [done|].
  rewrite str_join_cons, chars_app. apply not_elem_of_app. split; [done|].
  apply not_elem_of_cons. split; [done|by apply IH].
Qed.

Lemma parseCargoDownloadUrl_segments segments q :
  segments ≠ [] → Forall (λ s, (slash ∉ chars s) ∧ "?"%char ∉ chars s) segments → is_query q →
  split_on slash (clean_path (str_join "/" segments +:+ q)) = segments.
Proof.
  intros Hne Hs Hq. rewrite clean_path_query; [|apply not_in_join; [done|eapply Forall_impl; [exact Hs|naive_solver]]|done].
  apply split_on_join; [done|]. eapply Forall_impl; [exact Hs|naive_solver].
Qed.

Lemma literal_segment s : bool_decide (slash ∈ chars s) || bool_decide ("?"%char ∈ chars s) = false →
  (slash ∉ chars s) ∧ "?"%char ∉ chars s.
Proof. rewrite orb_false_iff, !bool_decide_eq_false. done. Qed.

(** C39. The addresses of a crate, in the index, at the API and as a file, whatever the query
    that follows, are read back as that crate, under its lower-case name, and that version. *)
Theorem crate_urls_roundtrip name version q :
  crate_name name = true → version ≠ "" → slash ∉ chars version → "?"%char ∉ chars version → is_query q →
  parseCargoSparseIndexUrl ("/" +:+ cargoSparseIndexPath name +:+ q) = Some (cargo_identity name None)
  ∧ parseCargoDownloadUrl (str_join "/" [""; "api"; "v1"; "crates"; name; version; "download"] +:+ q)
    = Some (cargo_identity name (Some version))
  ∧ parseCargoDownloadUrl (str_join "/" [""; "crates"; name; name +:+ "-" +:+ version +:+ ".crate"] +:+ q)
    = Some (cargo_identity name (Some version)).
Proof.
  intros Hname Hv Hsl Hqm Hq. split; [by apply parseCargoSparseIndexUrl_path|].
  pose proof (proj1 (crate_name_spec name) Hname) as [_ Hc].
  pose proof (crate_char_not name slash Hc eq_refl). pose proof (crate_char_not name "?" Hc eq_refl).
  unfold parseCargoDownloadUrl. split; rewrite parseCargoDownloadUrl_segments; try done.
  - cbn [cargo_download_match]. rewrite Hname. by rewrite bool_decide_eq_false_2.
  - repeat constructor; try done; by apply literal_segment.
  - cbn [cargo_download_match cargo_crate_match].
    rewrite (proj2 (strip_suffix_spec ".crate" _ (name +:+ "-" +:+ version))) by by rewrite !str_app_assoc.
    rewrite Hname. rewrite bool_decide_eq_false_2 by by destruct name. cbn [negb andb].
    replace (name +:+ "-" +:+ version) with ((name +:+ "-") +:+ version) by by rewrite str_app_assoc.
    rewrite toLowerCase_app, startsWith_app, str_drop_app. cbn [negb]. by rewrite bool_decide_eq_false_2.
  - repeat constructor; try done; try (by apply literal_segment); rewrite !chars_app, !not_elem_of_app;
      split_and!; try done; by apply literal_segment.
Qed.

Lemma crate_urls_roundtrip_witness :
  parseCargoDownloadUrl "/api/v1/crates/Serde/1.0.0/download?x" = Some (cargo_identity "Serde" (Some "1.0.0")).
Proof.
  apply (crate_urls_roundtrip "Serde" "1.0.0" "?x");
    [reflexivity|discriminate|apply (bool_decide_unpack _); reflexivity..|right; by exists "x"].
Defined.

(** ** Requests without a decision *)

Lemma startsWith_includes s p : p ≠ "" → startsWith s p = true → str_includes s p = true.
Proof. intros Hp [t ->]%startsWith_spec. destruct p as [|a p]; [done|]. rewrite str_app_cons. cbn [str_includes].
  apply orb_true_iff. left. change (String a (p +:+ t)) with (String a p +:+ t). apply startsWith_app. Qed.

Lemma path_file dir file :
  "?"%char ∉ chars dir → str_forallb is_name_char file = true →
  clean_path ("/packages" +:+ dir +:+ "/" +:+ file) = "/packages" +:+ dir +:+ "/" +:+ file
  ∧ last_segment (clean_path ("/packages" +:+ dir +:+ "/" +:+ file)) = file.
Proof.
  intros Hd Hf. assert (Hno : ∀ c, is_name_char c = false → c ∉ chars file).
  { intros c Hc. clear Hd. unfold chars. induction file as [|a file IH]; cbn in *; [apply not_elem_of_nil|].
    apply andb_true_iff in Hf as [Ha Hf]. apply not_elem_of_cons. split; [congruence|by apply IH]. }
  rewrite <-(str_app_nil_r ("/packages" +:+ dir +:+ "/" +:+ file)), clean_path_query; [|clear Hf|by left].
  - split; [by rewrite str_app_nil_r|]. change ("/" +:+ file) with (String slash file).
    rewrite <-str_app_assoc. apply last_segment_app. by apply Hno.
  - rewrite !chars_app. change ("?"%char ∉ chars "/packages" ++ chars dir ++ (slash :: chars file)).
    rewrite !not_elem_of_app, not_elem_of_cons. split_and!; [by apply (bool_decide_unpack _)|done|done|by apply Hno].
Qed.

Lemma wheel_chars n more tail :
  pypi_name n = true → str_forallb is_name_char more = true → wheel_tail tail = true →
  str_forallb is_name_char (n +:+ "-" +:+ more +:+ "-" +:+ tail) = true.
Proof.
  intros Hn%pypi_name_chars Hm [[[_ Ht]%andb_true_iff _]%andb_true_iff _]%andb_true_iff.
  by rewrite !str_forallb_app, Hn, Hm, Ht.
Qed.

Lemma wheel_no_sidecar n tail : wheel_tail tail = true → stripPypiSidecarSuffix (n +:+ tail) = n +:+ tail.
Proof.
  intros [[_ [t ->]%endsWith_spec]%andb_true_iff _]%andb_true_iff. unfold stripPypiSidecarSuffix.
  rewrite <-str_app_assoc. assert (∀ p, last_is (λ a, a =? "l"%char) p = false → p ≠ "" → endsWith ((n +:+ t) +:+ ".whl") p = false) as Hends.
  { intros p Hp Hne. apply not_true_iff_false. intros [u Hu]%endsWith_spec.
    assert (last_is (λ a, a =? "l"%char) (u +:+ p) = true) as Hl by (rewrite <-Hu; by rewrite last_is_app).
    rewrite last_is_app in Hl by done. congruence. }
  cbn [List.find PYPI_SIDECAR_SUFFIXES]. by rewrite !Hends.
Qed.

(** What the proxy reads from the address of a wheel. *)
Lemma wheel_url dir n more tail v p :
  "?"%char ∉ chars dir → pypi_name n = true → str_forallb is_name_char more = true → wheel_tail tail = true →
  pypi_filename_match (n +:+ "-" +:+ more +:+ "-" +:+ tail) = Some (p, v) →
  parseTarballUrl Pypi ("/packages" +:+ dir +:+ "/" +:+ n +:+ "-" +:+ more +:+ "-" +:+ tail)
  = Some (pypi_identity p (Some v)).
Proof.
  intros Hd Hn Hm Ht Hmatch. cbn [parseTarballUrl]. unfold parsePypiTarballUrl.
  destruct (path_file dir _ Hd (wheel_chars n more tail Hn Hm Ht)) as [_ ->]. rewrite bool_decide_eq_false_2 by by destruct n.
  unfold extractPypiPackageFromFilename. pose proof (wheel_no_sidecar (n +:+ "-" +:+ more +:+ "-") tail Ht) as Hs.
  rewrite !str_app_assoc in Hs. by rewrite Hs, Hmatch.
Qed.

(** C40. What the archive checks do not see.  A path below [/-/] is forwarded to npm as it is,
    with its dots.  A Debian archive whose name, decoded, ends in [.deb] while the path spells
    that suffix with an escape is forwarded with no audit entry, though the same archive is
    refused under its plain name when its package is on the deny list.  And a wheel with a
    build tag is read as another package, the name of which is that of the project and its
    version, and as the version that the build tag is: the metadata fetched and the name the
    deny list is asked about are those of that package; the wheel without the tag is read as
    its own project. *)
Theorem archive_paths_unvalidated `{Minimatch} `{Runtime} config now cache :
  let validator := createPackageValidator config in
  (∀ host path, startsWith path "/-/" = true →
    handleRegistryRequest validator npmRegistry host path now cache = (cache, [], Answered PassThrough))
  ∧ (∀ host path plain base escaped file pkg,
      last_segment (clean_path path) = base +:+ escaped → last_segment (clean_path plain) = base +:+ ".deb" →
      decodeURIComponent base = Some file → decodeURIComponent escaped = Some ".deb" → escaped ≠ ".deb" →
      parseDebianPackageUrl plain = Some pkg →
      matchesPatternList (canonicalPackageName pkg) (vc_deniedPackages config) = true →
      decodeURIComponent (last_segment (clean_path path)) = decodeURIComponent (last_segment (clean_path plain))
      ∧ handleRegistryRequest validator debianRegistry host path now cache = (cache, [], Answered PassThrough)
      ∧ ∃ entries body, handleRegistryRequest validator debianRegistry host plain now cache
                        = (cache, entries, Answered (Reply 403 text_plain body)))
  ∧ (∀ dir name version build tail,
      "?"%char ∉ chars dir → wheel_part name = true → wheel_number version = true → wheel_number build = true →
      wheel_tail tail = true →
      let other := pypi_identity (name +:+ "-" +:+ version) (Some build) in
      let path := "/packages" +:+ dir +:+ "/" +:+ name +:+ "-" +:+ version +:+ "-" +:+ build +:+ "-" +:+ tail in
      parseTarballUrl Pypi ("/packages" +:+ dir +:+ "/" +:+ name +:+ "-" +:+ version +:+ "-" +:+ tail)
        = Some (pypi_identity name (Some version))
      ∧ canonicalPackageName other ≠ normalizePypiName name
      ∧ handleRegistryRequest validator pypiRegistry "files.pythonhosted.org" path now ∅
        = (∅, [], Waits (AwaitValidation pypiRegistry other))).
Proof.
  intros validator. split_and!.
  - intros host path Hp. unfold handleRegistryRequest, isNpmMetadataRequest. cbn [rg_type npmRegistry].
    assert (str_includes path "/-/" = true) as Hin by by apply startsWith_includes.
    rewrite Hp, Hin. cbn [negb andb]. by rewrite andb_false_r.
  - intros host path plain base escaped file pkg Hpath Hplain Hb He Hne Hpkg Hdeny. split_and!.
    + by rewrite Hpath, Hplain, (decodeURIComponent_app _ _ _ _ Hb He), (decodeURIComponent_app base ".deb" file ".deb").
    + unfold handleRegistryRequest, handleDebianRequest, parseDebianPackageUrl. cbn [rg_type debianRegistry].
      by rewrite Hpath, escaped_deb_hidden, orb_true_r.
    + unfold handleRegistryRequest, handleDebianRequest. cbn [rg_type debianRegistry]. rewrite Hpkg.
      assert (is_allow (validator now pkg (Some {| vm_publishedAt := Some (ValidDate 0) |})) = false) as Hv.
      { apply not_true_iff_false. intros [Hallow _]%validator_allows. congruence. }
      destruct (validator now pkg _); [done|]. by do 2 eexists.
  - intros dir name version build tail Hdir Hname Hversion Hbuild Htail other path.
    pose proof (wheel_part_spec _ Hname) as [Hn _]. pose proof Hversion as [[Hv _]%wheel_part_spec Hd]%andb_true_iff.
    pose proof Hbuild as [[Hbn _]%wheel_part_spec _]%andb_true_iff.
    assert (parseTarballUrl Pypi path = Some other) as Hother.
    { replace path with ("/packages" +:+ dir +:+ "/" +:+ name +:+ "-" +:+ (version +:+ "-" +:+ build) +:+ "-" +:+ tail)
        by by unfold path; rewrite !str_app_assoc.
      apply wheel_url; try done; [by rewrite !str_forallb_app, (pypi_name_chars version), (pypi_name_chars build)|].
      rewrite !str_app_assoc. by apply built_wheel_filename. }
    split_and!.
    + apply wheel_url; try done; [by apply pypi_name_chars|by apply wheel_filename].
    + apply longer_name_differs. unfold pypi_name in Hv. by apply andb_true_iff in Hv as [[_ ?]%andb_true_iff _].
    + unfold handleRegistryRequest. cbn [rg_type pypiRegistry].
      assert (parsePypiSimpleUrl path = None) as ->.
      { unfold parsePypiSimpleUrl, path. destruct (path_file dir (name +:+ "-" +:+ version +:+ "-" +:+ build +:+ "-" +:+ tail)) as [-> _];
          [done| |done]. replace (name +:+ "-" +:+ version +:+ "-" +:+ build +:+ "-" +:+ tail)
          with (name +:+ "-" +:+ (version +:+ "-" +:+ build) +:+ "-" +:+ tail) by by rewrite !str_app_assoc.
        apply wheel_chars; [done| |done]. by rewrite !str_forallb_app, (pypi_name_chars version), (pypi_name_chars build). }
      unfold handleTarballDownload. cbn [rg_type pypiRegistry]. rewrite Hother.
      assert (nonempty (pk_version other) = Some build) as ->.
      { cbn. by destruct build. }
      unfold getCachedVersions. by rewrite lookup_empty.
Qed.

Lemma archive_paths_unvalidated_witness :
  let validator := @createPackageValidator demo_match demo_dates demo_packages in
  handleRegistryRequest validator npmRegistry "registry.npmjs.org" "/-/../evil/-/evil-1.0.0.tgz" 0 ∅ = (∅, [], Answered PassThrough)
  ∧ handleRegistryRequest validator debianRegistry "deb.debian.org" "/pool/evil_1%3a5.0_amd64.de%62?x" 0 ∅
    = (∅, [], Answered PassThrough)
  ∧ handleRegistryRequest validator pypiRegistry "files.pythonhosted.org" "/packages/ab/evil-1.0-1-py3-none-any.whl" 0 ∅
    = (∅, [], Waits (AwaitValidation pypiRegistry (pypi_identity "evil-1.0" (Some "1")))).
Proof.
  destruct (@archive_paths_unvalidated demo_match demo_dates demo_packages 0 ∅) as (Hnpm & Hdeb & Hwheel).
  split_and!.
  - by apply Hnpm.
  - apply (Hdeb "deb.debian.org" "/pool/evil_1%3a5.0_amd64.de%62?x" "/pool/evil_1%3a5.0_amd64.deb" "evil_1%3a5.0_amd64" ".de%62"
      "evil_1:5.0_amd64" {| pk_registry := Debian; pk_name := "evil"; pk_scope := None; pk_version := Some "1:5.0" |});
      by vm_compute.
  - apply (Hwheel "/ab" "evil" "1.0" "1" "py3-none-any.whl"); try (by vm_compute); by apply (bool_decide_unpack _).
Defined.
