(* ===== verification/ProviderConfig.v ===== *)
(** * Providers of language models

    Models docker/provider-config.ts and docker/llm-observation/completion-endpoint.ts: the
    endpoints a provider may be asked for, the descriptors of its completions, the rewriting
    of request bodies and the built-in providers.  Bodies are JSON values; a pattern with
    stars becomes the regular expression that the source builds. *)

From Stdlib Require Import Ascii ZArith.
From S2P Require Import Prelude JsValue Paths Urls Regex EgressAddress UriText.

Local Open Scope curtain_scope.

(** ** Endpoints *)

Inductive EndpointMethod := GET | POST | PUT | DELETE.
#[export] Instance EndpointMethod_eq_dec : EqDecision EndpointMethod.
Proof. solve_decision. Defined.

Definition endpoint_method_name (m : EndpointMethod) : string :=
  match m with GET => "GET" | POST => "POST" | PUT => "PUT" | DELETE => "DELETE" end.

Record EndpointPattern := { ep_method : EndpointMethod; ep_path : string }.

Inductive MetricsSupport := MetricsFull | MetricsPartial | MetricsUnsupported.
Record Capabilities := { cp_metricsSupport : MetricsSupport; cp_trajectoryCapture : option bool }.

Record CompletionEndpoint := {
  ce_pattern : EndpointPattern;
  ce_protocol : string;
  ce_capabilities : Capabilities
}.

Definition cleanRequestPath (path : string) : string := default "" (head (split_on "?"%char path)).

Definition star : ascii := "*"%char.

(** [pattern.split('*').map(escape).join('[^/]+')] *)
Fixpoint glob (pattern : string) : regex :=
  match pattern with
  | "" => Eps
  | String c pattern => Cat (if c =? star then Plus (Chr (λ a, negb (a =? UriText.slash))) else chr c) (glob pattern)
  end.

Definition patternMatchesPath (pattern path : string) : bool :=
  if str_includes pattern "*" then matches (glob pattern) path else pattern =? path.

Definition falsy_text (s : option string) : bool := match s with None | Some "" => true | Some _ => false end.

Definition matchesEndpointPattern (endpoint : EndpointPattern) (method path : option string) : bool :=
  match method, path with
  | Some m, Some p =>
      if (m =? "") || (p =? "") || negb (endpoint_method_name (ep_method endpoint) =? toUpperCase m) then false
      else patternMatchesPath (ep_path endpoint) (cleanRequestPath p)
  | _, _ => false
  end.

Definition matchesEndpoint (patterns : list EndpointPattern) (method path : option string) : bool :=
  existsb (λ endpoint, matchesEndpointPattern endpoint method path) patterns.

(** ** The descriptors of completions *)

Definition count_stars (s : string) : nat := length (filter (λ c, c = star) (chars s)).

Definition before_star (s : string) : string := default "" (split_on star s !! 0).
Definition after_star (s : string) : string := default "" (split_on star s !! 1).

Definition segmentPatternsMayOverlap (left right : string) : bool :=
  let leftGlob := str_includes left "*" in
  let rightGlob := str_includes right "*" in
  if negb leftGlob && negb rightGlob then left =? right
  else if negb leftGlob then patternMatchesPath right left
  else if negb rightGlob then patternMatchesPath left right
  else if (1 <? count_stars left) || (1 <? count_stars right) then true
  else
    let leftPrefix := before_star left in let leftSuffix := after_star left in
    let rightPrefix := before_star right in let rightSuffix := after_star right in
    if negb (startsWith leftPrefix rightPrefix) && negb (startsWith rightPrefix leftPrefix) then false
    else if negb (endsWith leftSuffix rightSuffix) && negb (endsWith rightSuffix leftSuffix) then false
    else true.

Definition endpointPatternsMayOverlap (left right : EndpointPattern) : bool :=
  if negb (ep_method left =? ep_method right) then false
  else
    let leftSegments := split_on UriText.slash (ep_path left) in
    let rightSegments := split_on UriText.slash (ep_path right) in
    if negb (length leftSegments =? length rightSegments)%nat then false
    else forallb (λ p, segmentPatternsMayOverlap p.1 p.2) (zip leftSegments rightSegments).

Definition authorizationCoversEndpoint (allowed endpoint : EndpointPattern) : bool :=
  if negb (ep_method allowed =? ep_method endpoint) then false
  else if ep_path allowed =? ep_path endpoint then true
  else negb (str_includes (ep_path endpoint) "*") && patternMatchesPath (ep_path allowed) (ep_path endpoint).

Definition defineCompletionEndpoint (endpoint : CompletionEndpoint) : result CompletionEndpoint :=
  if negb (startsWith (ep_path (ce_pattern endpoint)) "/") || str_includes (ep_path (ce_pattern endpoint)) "?"
  then Throw "completion endpoint paths must be absolute and must not contain a query string"
  else if ce_protocol endpoint =? "" then Throw "completion endpoint protocol must not be empty"
  else Ok endpoint.

Fixpoint check_subset (endpoints : list CompletionEndpoint) (allowedEndpoints : list EndpointPattern) : result unit :=
  match endpoints with
  | [] => Ok ()
  | endpoint :: endpoints =>
      _ ← defineCompletionEndpoint endpoint;
      if negb (existsb (λ allowed, authorizationCoversEndpoint allowed (ce_pattern endpoint)) allowedEndpoints)
      then Throw ("completion endpoint is not a proven subset of authorization: "
                  +:+ endpoint_method_name (ep_method (ce_pattern endpoint)) +:+ " " +:+ ep_path (ce_pattern endpoint))
      else check_subset endpoints allowedEndpoints
  end.

Fixpoint check_overlaps (endpoints : list CompletionEndpoint) : result unit :=
  match endpoints with
  | [] => Ok ()
  | e :: rest =>
      match List.find (λ e', endpointPatternsMayOverlap (ce_pattern e) (ce_pattern e')) rest with
      | Some e' => Throw ("overlapping completion endpoints: " +:+ endpoint_method_name (ep_method (ce_pattern e))
                             +:+ " " +:+ ep_path (ce_pattern e) +:+ " and " +:+ ep_path (ce_pattern e'))
      | None => check_overlaps rest
      end
  end.

Definition validateCompletionEndpoints (endpoints : list CompletionEndpoint)
    (allowedEndpoints : list EndpointPattern) : result unit :=
  _ ← check_subset endpoints allowedEndpoints; check_overlaps endpoints.

Definition resolveCompletionEndpoint (endpoints : list CompletionEndpoint) (method path : option string) :
    result (option CompletionEndpoint) :=
  let found := filter (λ e, matchesEndpointPattern (ce_pattern e) method path = true) endpoints in
  if (1 <? length found)
  then Throw ("multiple completion endpoints match " +:+ toUpperCase (default "" method) +:+ " "
              +:+ cleanRequestPath (default "" path))
  else Ok (head found).

(** ** Rewriting of bodies *)

Inductive AgentKind := Batch | WorkflowAgent | Pty.
#[export] Instance AgentKind_eq_dec : EqDecision AgentKind.
Proof. solve_decision. Defined.

Record RewriteResult := { rw_modified : object jsvalue; rw_stripped : list string }.

Definition stripToolsBy (body : object jsvalue) (classify : jsvalue → option string) : option RewriteResult :=
  match get_value body "tools" with
  | VArr tools =>
      match omap classify tools with
      | [] => None
      | stripped =>
          Some {| rw_modified := obj_set body "tools" (VArr (filter (λ tool, classify tool = None) tools));
                  rw_stripped := stripped |}
      end
  | _ => None
  end.

Definition server_side_label (tool : jsvalue) : option string :=
  match tool with
  | VObj o => match get_value o "type" with VStr t => if t =? "custom" then None else Some t | _ => None end
  | _ => None
  end.

Definition stripServerSideTools (body : object jsvalue) : option RewriteResult := stripToolsBy body server_side_label.

Definition SCHEDULE_SKILL_TOOL_NAMES : list string := ["ScheduleWakeup"; "CronCreate"; "CronList"; "CronDelete"].

Definition schedule_label (tool : jsvalue) : option string :=
  match tool with
  | VObj o => match get_value o "name" with
              | VStr n => if includes SCHEDULE_SKILL_TOOL_NAMES n then Some n else None
              | _ => None
              end
  | _ => None
  end.

Definition stripScheduleSkillTools (body : object jsvalue) : option RewriteResult := stripToolsBy body schedule_label.

Definition skip_space (s : string) : string := (str_span Ascii.is_space s).2.
Definition quote_char : ascii := ascii_of_nat 34.

(** The group of a [FUNCTION_BLOCK_NAME_PATTERN] match that starts here. *)
Definition block_name_here (s : string) : option string :=
  rest ← strip_prefix (quoted "name") s;
  rest ← strip_prefix ":" (skip_space rest);
  rest ← strip_prefix dquote (skip_space rest);
  match str_span (λ a, negb (a =? quote_char)) rest with
  | (name, String _ _) => if name =? "" then None else Some name
  | _ => None
  end.

Fixpoint block_name (s : string) : option string :=
  match block_name_here s with
  | Some name => Some name
  | None => match s with "" => None | String _ s => block_name s end
  end.

(** [text.replace(FUNCTION_BLOCK_PATTERN, ...)], with the labels of what it removes. *)
Fixpoint scrub_blocks (fuel : nat) (s : string) : string * list string :=
  match fuel with
  | O => (s, [])
  | S fuel =>
      match str_indexOf s "<function>" with
      | None => (s, [])
      | Some i =>
          let body_on := str_drop (i + 10) s in
          match str_indexOf body_on "</function>" with
          | None => (s, [])
          | Some j =>
              let after := str_drop (j + 11) body_on in
              let rest := skip_space after in
              let block := str_take (String.length s - String.length rest - i) (str_drop i s) in
              let '(scrubbed, labels) := scrub_blocks fuel rest in
              match block_name (str_take j body_on) with
              | Some name =>
                  if includes SCHEDULE_SKILL_TOOL_NAMES name
                  then (str_take i s +:+ scrubbed, ("function_block:" +:+ name) :: labels)
                  else (str_take i s +:+ block +:+ scrubbed, labels)
              | None => (str_take i s +:+ block +:+ scrubbed, labels)
              end
          end
      end
  end.

(** [None]: unchanged; otherwise what replaces the value, if anything, and the labels. *)
Definition scrubToolResultEntry (entry : jsvalue) : option (option jsvalue * list string) :=
  match entry with
  | VObj o =>
      match get_value o "type", get_value o "tool_name", get_value o "text" with
      | VStr t, tool_name, text =>
          if (t =? "tool_reference") && match tool_name with VStr _ => true | _ => false end then
            match tool_name with
            | VStr name =>
                if includes SCHEDULE_SKILL_TOOL_NAMES name then Some (None, ["tool_reference:" +:+ name]) else None
            | _ => None
            end
          else if t =? "text" then
            match text with
            | VStr s =>
                match scrub_blocks (S (String.length s)) s with
                | (_, []) => None
                | (scrubbed, labels) => Some (Some (VObj (obj_set o "text" (VStr scrubbed))), labels)
                end
            | _ => None
            end
          else None
      | _, _, _ => None
      end
  | _ => None
  end.

(** The loops over content: what is left, the labels, and whether anything changed. *)
Definition rewrite_list (f : jsvalue → option (option jsvalue * list string)) (l : list jsvalue) :
    list jsvalue * list string * bool :=
  (l ≫= λ v, match f v with None => [v] | Some (None, _) => [] | Some (Some v', _) => [v'] end,
   l ≫= λ v, match f v with None => [] | Some (_, labels) => labels end,
   existsb (λ v, bool_decide (is_Some (f v))) l).

Definition rewriteToolResultBlock (block : jsvalue) : option (option jsvalue * list string) :=
  match block with
  | VObj o =>
      if is_str (get_value o "type") "tool_result" then
        match get_value o "content" with
        | VArr inner =>
            let '(kept, labels, changed) := rewrite_list scrubToolResultEntry inner in
            if negb changed then None
            else
              let final := match kept with
                           | [] => [VObj [("type", VStr "text"); ("text", VStr "(filtered)")]]
                           | _ => kept
                           end in
              Some (Some (VObj (obj_set o "content" (VArr final))), labels)
        | _ => None
        end
      else None
  | _ => None
  end.

Definition rewriteMessageContent (message : jsvalue) : option (option jsvalue * list string) :=
  match message with
  | VObj o =>
      match get_value o "content" with
      | VArr content =>
          let '(kept, labels, changed) := rewrite_list rewriteToolResultBlock content in
          if negb changed then None else Some (Some (VObj (obj_set o "content" (VArr kept))), labels)
      | _ => None
      end
  | _ => None
  end.

Definition stripScheduleSkillToolReferences (body : object jsvalue) : option RewriteResult :=
  match get_value body "messages" with
  | VArr messages =>
      let '(newMessages, stripped, _) := rewrite_list rewriteMessageContent messages in
      match stripped with
      | [] => None
      | _ => Some {| rw_modified := obj_set body "messages" (VArr newMessages); rw_stripped := stripped |}
      end
  | _ => None
  end.

(** One rewriter after another: what the body became and all that was stripped. *)
Definition then_strip (strip : object jsvalue → option RewriteResult) (acc : object jsvalue * list string) :
    object jsvalue * list string :=
  match strip acc.1 with
  | Some r => (rw_modified r, acc.2 ++ rw_stripped r)
  | None => acc
  end.

Definition anthropicRequestRewriter (body : object jsvalue) (agentKind : option AgentKind) : option RewriteResult :=
  let acc := then_strip stripServerSideTools (body, []) in
  let acc :=
    if bool_decide (agentKind = Some Batch ∨ agentKind = Some WorkflowAgent)
    then then_strip stripScheduleSkillToolReferences (then_strip stripScheduleSkillTools acc)
    else acc in
  match acc.2 with
  | [] => None
  | stripped => Some {| rw_modified := acc.1; rw_stripped := stripped |}
  end.

(** ** Providers *)

Inductive KeyInjection := HeaderKey (headerName : string) | BearerKey.

Record UpstreamTarget := {
  ut_hostname : string;
  ut_port : Z;
  ut_pathPrefix : string;
  ut_useTls : bool
}.

Record ProviderConfig := {
  pv_id : string;
  pv_host : string;
  pv_allowedEndpoints : list EndpointPattern;
  pv_captureEndpoints : list EndpointPattern;
  pv_completionEndpoints : list CompletionEndpoint;
  pv_gatewayAdapterId : option string;
  pv_keyInjection : KeyInjection;
  pv_fakeKeyPrefix : string;
  (** of the body and the kind of agent; the built-in rewriters read no more of their context *)
  pv_requestRewriter : option (object jsvalue → option AgentKind → option RewriteResult);
  pv_rewriteEndpoints : option (list string);
  pv_upstreamTarget : option UpstreamTarget
}.

Definition isEndpointAllowed (config : ProviderConfig) (method path : option string) : bool :=
  matchesEndpoint (pv_allowedEndpoints config) method path.

Definition isCapturableEndpoint (config : ProviderConfig) (method path : option string) : bool :=
  matchesEndpoint (pv_captureEndpoints config) method path.

Definition shouldRewriteBody (config : ProviderConfig) (method path : option string) : bool :=
  match pv_requestRewriter config, pv_rewriteEndpoints config, method, path with
  | Some _, Some endpoints, Some m, Some p =>
      (toUpperCase m =? "POST") && negb (p =? "") && includes endpoints (cleanRequestPath p)
  | _, _, _, _ => false
  end.

(** [parseUpstreamBaseUrl] *)
Definition trim_end_slashes (s : string) : string :=
  of_chars (reverse (chars (str_span (λ a, a =? UriText.slash) (of_chars (reverse (chars s)))).2)).

Definition parseUpstreamBaseUrl `{WebUrl} (baseUrl : string) : result UpstreamTarget :=
  match parse_url baseUrl with
  | None => Throw "Invalid URL"
  | Some parsed =>
      if negb (wu_protocol parsed =? "https:") && negb (wu_protocol parsed =? "http:")
      then Throw ("Unsupported protocol in upstream base URL: " +:+ wu_protocol parsed)
      else
        let useTls := wu_protocol parsed =? "https:" in
        Ok {| ut_hostname := wu_hostname parsed;
              ut_port := if wu_port parsed =? "" then (if useTls then 443 else 80)%Z else parse_dec (wu_port parsed);
              ut_pathPrefix := trim_end_slashes (wu_pathname parsed); ut_useTls := useTls |}
  end.

Definition on (m : EndpointMethod) (path : string) : EndpointPattern := {| ep_method := m; ep_path := path |}.
Definition completion (path protocol : string) (support : MetricsSupport) (capture : bool) : CompletionEndpoint :=
  {| ce_pattern := on POST path; ce_protocol := protocol;
     ce_capabilities := {| cp_metricsSupport := support; cp_trajectoryCapture := Some capture |} |}.

Definition anthropicProvider : ProviderConfig := {|
  pv_id := "anthropic";
  pv_host := "api.anthropic.com";
  pv_allowedEndpoints :=
    [on POST "/v1/messages"; on POST "/v1/messages/count_tokens"; on GET "/api/hello";
     on GET "/api/claude_code/settings"; on GET "/api/claude_code/policy_limits";
     on GET "/api/claude_code/organizations/metrics_enabled"; on GET "/api/claude_code_penguin_mode";
     on POST "/api/event_logging/batch"; on POST "/api/event_logging/v2/batch"; on POST "/api/eval/*";
     on GET "/mcp-registry/v0/servers"];
  pv_captureEndpoints := [on POST "/v1/messages"];
  pv_completionEndpoints := [completion "/v1/messages" "anthropic-messages" MetricsFull true];
  pv_gatewayAdapterId := Some "direct";
  pv_keyInjection := HeaderKey "x-api-key";
  pv_fakeKeyPrefix := "sk-ant-api03-ironcurtain-";
  pv_requestRewriter := Some anthropicRequestRewriter;
  pv_rewriteEndpoints := Some ["/v1/messages"];
  pv_upstreamTarget := None
|}.

Definition claudePlatformProvider : ProviderConfig := {|
  pv_id := "claude-platform";
  pv_host := "platform.claude.com";
  pv_allowedEndpoints := [on GET "/v1/oauth/hello"];
  pv_captureEndpoints := []; pv_completionEndpoints := []; pv_gatewayAdapterId := None;
  pv_keyInjection := HeaderKey "x-api-key";
  pv_fakeKeyPrefix := "sk-ant-api03-ironcurtain-";
  pv_requestRewriter := None; pv_rewriteEndpoints := None; pv_upstreamTarget := None
|}.

Definition openaiProvider : ProviderConfig := {|
  pv_id := "openai";
  pv_host := "api.openai.com";
  pv_allowedEndpoints := [on POST "/v1/responses"; on POST "/v1/chat/completions"; on GET "/v1/models"];
  pv_captureEndpoints := [on POST "/v1/responses"];
  pv_completionEndpoints :=
    [completion "/v1/responses" "openai-responses" MetricsFull true;
     completion "/v1/chat/completions" "openai-chat-completions" MetricsPartial false];
  pv_gatewayAdapterId := Some "direct";
  pv_keyInjection := BearerKey;
  pv_fakeKeyPrefix := "sk-ironcurtain-";
  pv_requestRewriter := None; pv_rewriteEndpoints := None; pv_upstreamTarget := None
|}.

Definition codexChatGptProvider : ProviderConfig := {|
  pv_id := "chatgpt-codex";
  pv_host := "chatgpt.com";
  pv_allowedEndpoints :=
    [on GET "/agent-identities/jwks"; on GET "/wham/agent-identities/jwks"; on GET "/codex-backend/agent-identity";
     on POST "/codex-backend/agent-identity"; on GET "/backend-api/codex/models";
     on GET "/backend-api/codex/responses"; on POST "/backend-api/codex/responses"];
  pv_captureEndpoints := [on POST "/backend-api/codex/responses"];
  pv_completionEndpoints := [completion "/backend-api/codex/responses" "openai-responses" MetricsFull true];
  pv_gatewayAdapterId := Some "direct";
  pv_keyInjection := BearerKey;
  pv_fakeKeyPrefix := "eyJhbGciOiJub25lIiwidHlwIjoiSldUIn0.eyJleHAiOjQxMDI0NDQ4MDAsImlzcyI6Imlyb25jdXJ0YWluIiwic3ViIjoiY29kZXgtZmFrZSJ9.";
  pv_requestRewriter := None; pv_rewriteEndpoints := None; pv_upstreamTarget := None
|}.

Definition codexAuthProvider : ProviderConfig := {|
  pv_id := "openai-auth";
  pv_host := "auth.openai.com";
  pv_allowedEndpoints := [on GET "/api/accounts/v1/user-auth-credential/whoami"];
  pv_captureEndpoints := []; pv_completionEndpoints := []; pv_gatewayAdapterId := None;
  pv_keyInjection := BearerKey;
  pv_fakeKeyPrefix := pv_fakeKeyPrefix codexChatGptProvider;
  pv_requestRewriter := None; pv_rewriteEndpoints := None; pv_upstreamTarget := None
|}.

Definition anthropicOAuthProvider : ProviderConfig := {|
  pv_id := "anthropic";
  pv_host := "api.anthropic.com";
  pv_allowedEndpoints := pv_allowedEndpoints anthropicProvider ++ [on GET "/api/oauth/usage"];
  pv_captureEndpoints := pv_captureEndpoints anthropicProvider;
  pv_completionEndpoints := pv_completionEndpoints anthropicProvider;
  pv_gatewayAdapterId := Some "direct";
  pv_keyInjection := BearerKey;
  pv_fakeKeyPrefix := "sk-ant-oat01-ironcurtain-";
  pv_requestRewriter := Some anthropicRequestRewriter;
  pv_rewriteEndpoints := Some ["/v1/messages"];
  pv_upstreamTarget := None
|}.

Definition claudePlatformOAuthProvider : ProviderConfig := {|
  pv_id := "claude-platform";
  pv_host := "platform.claude.com";
  pv_allowedEndpoints := pv_allowedEndpoints claudePlatformProvider;
  pv_captureEndpoints := []; pv_completionEndpoints := []; pv_gatewayAdapterId := None;
  pv_keyInjection := BearerKey;
  pv_fakeKeyPrefix := "sk-ant-oat01-ironcurtain-";
  pv_requestRewriter := None; pv_rewriteEndpoints := None; pv_upstreamTarget := None
|}.

Definition googleProvider : ProviderConfig := {|
  pv_id := "google";
  pv_host := "generativelanguage.googleapis.com";
  pv_allowedEndpoints :=
    [on POST "/v1beta/models/*:generateContent"; on POST "/v1beta/models/*:streamGenerateContent"];
  pv_captureEndpoints :=
    [on POST "/v1beta/models/*:generateContent"; on POST "/v1beta/models/*:streamGenerateContent"];
  pv_completionEndpoints :=
    [completion "/v1beta/models/*:generateContent" "google-generate-content" MetricsFull true;
     completion "/v1beta/models/*:streamGenerateContent" "google-generate-content" MetricsFull true];
  pv_gatewayAdapterId := Some "direct";
  pv_keyInjection := HeaderKey "x-goog-api-key";
  pv_fakeKeyPrefix := "AIzaSy-ironcurtain-";
  pv_requestRewriter := None; pv_rewriteEndpoints := None; pv_upstreamTarget := None
|}.

Definition builtin_providers : list ProviderConfig :=
  [anthropicProvider; claudePlatformProvider; openaiProvider; codexChatGptProvider; codexAuthProvider;
   anthropicOAuthProvider; claudePlatformOAuthProvider; googleProvider].
