(* ===== verification/MitmProxy.v ===== *)
(** * The interception proxy

    Models docker/mitm-proxy.ts, docker/proxy-authorization.ts and the handler of domains
    behind docker/proxy-tools.ts: which connections are accepted, what is intercepted, and
    how a provider's key replaces the sentinel.  The handlers of connections, requests,
    tokens, bodies and answers are the steps of one machine whose log holds every contact
    with the network.  Header names are lower case, as the HTTP parser leaves them; the
    observers of metrics and trajectories are left out. *)

From Stdlib Require Import Ascii ZArith.
From S2P Require Import Prelude JsValue Paths Urls Hashing Regex EgressAddress UriText Messages ProxyTools.
From S2P Require Import PackageNames ProviderConfig.

Local Open Scope curtain_scope.

(** ** Options *)

Record ProviderKeyMapping := {
  pm_config : ProviderConfig;
  pm_fakeKey : string;
  pm_realKey : string;                       (** when the proxy starts *)
  pm_tokenManager : bool
}.

(** The origins of the frozen manifest, none when its guard is disabled. *)
Inductive ListenerMode := StandardMode | RegistryEgressMode (origins : list (string * Z)).

Record MitmProxyOptions := {
  mo_providers : list ProviderKeyMapping;
  mo_registries : list RegistryConfig;
  mo_listenerMode : ListenerMode;
  mo_allowAllHosts : bool;                   (** IRONCURTAIN_MITM_ALLOW_ALL_HOSTS *)
  mo_directTransport : bool;                 (** [outboundTransport.kind === 'direct'] *)
  mo_requiredProxyAuthorization : option string;
  mo_agentKind : option AgentKind
}.

Definition normalizeHost (hostname : string) : string := toLowerCase hostname.

Definition MAX_REWRITE_BODY_BYTES : Z := (10 * 1024 * 1024)%Z.
Definition MAX_RETRY_BODY_BYTES : Z := (1024 * 1024)%Z.
Definition REGISTRY_UPSTREAM_HTTPS_PORT : Z := 443%Z.
Definition OPENROUTER_HOST : string := "openrouter.ai".

(** [MitmProxyOptions] fails when the descriptors of a provider do. *)
Fixpoint check_providers (providers : list ProviderKeyMapping) : result unit :=
  match providers with
  | [] => Ok ()
  | m :: providers =>
      _ ← validateCompletionEndpoints (pv_completionEndpoints (pm_config m)) (pv_allowedEndpoints (pm_config m));
      check_providers providers
  end.

Section hosts.
Variable options : MitmProxyOptions.

(** A map that is filled in order keeps the last entry of a key. *)
Definition find_last {A} (f : A → bool) (l : list A) : option A := List.find f (reverse l).

Definition provider_of (host : string) : option nat :=
  fst <$> find_last (λ e, normalizeHost (pv_host (pm_config e.2)) =? host) (imap pair (mo_providers options)).

Definition registry_hosts (r : RegistryConfig) : list string := normalizeHost <$> rg_host r :: rg_mirrorHosts r.

Definition registry_of (host : string) : option RegistryConfig :=
  find_last (λ r, includes (registry_hosts r) host) (mo_registries options).

Definition isKnownStaticHost (hostname : string) : bool :=
  let h := normalizeHost hostname in
  bool_decide (is_Some (provider_of h)) || bool_decide (is_Some (registry_of h)).

Definition passthroughEligible : bool :=
  match mo_listenerMode options with StandardMode => true | RegistryEgressMode _ => false end.

Definition wildcard (hostname : string) : bool :=
  passthroughEligible && mo_allowAllHosts options && negb (isKnownStaticHost hostname).
End hosts.

(** ** Requests as they arrive *)

(** [consumeProxyAuthorization]: whether it is accepted, and the headers that are left. *)
Definition obj_remove {A} (o : object A) (k : string) : object A := filter (λ e, e.1 ≠ k) o.

Definition consumeProxyAuthorization (headers : HttpHeaders) (expected : option string) : bool * HttpHeaders :=
  match expected with
  | None => (true, headers)
  | Some expected =>
      match header_get headers "proxy-authorization" with
      | Some (HOne actual) =>
          if actual =? expected then (true, obj_remove headers "proxy-authorization") else (false, headers)
      | _ => (false, headers)
      end
  end.

Record ProxyTarget := { pt_hostname : string; pt_port : Z; pt_path : string }.

Definition tryParseProxyUrl `{WebUrl} (url : string) : option ProxyTarget :=
  match parse_url url with
  | None => None
  | Some u =>
      if wu_protocol u =? "http:" then
        Some {| pt_hostname := wu_hostname u; pt_port := if wu_port u =? "" then 80%Z else parse_dec (wu_port u);
                pt_path := wu_pathname u +:+ wu_search u |}
      else None
  end.

(** [/^[A-Za-z0-9](?:[A-Za-z0-9-]{0,61}[A-Za-z0-9])?$/u] *)
Definition AUTHORITY_LABEL : regex :=
  Cat (Chr is_letter_digit) (Opt (Cat (up_to 61 (or_in is_letter_digit "-")) (Chr is_letter_digit))).

(** [[1-9][0-9]{0,4}] *)
Definition AUTHORITY_PORT : regex := Cat (Chr (in_range 49 57)) (up_to 4 (Chr is_digit)).

Definition parseRegistryConnectAuthority (authority : string) : option (string * Z) :=
  match split_on ":"%char authority with
  | [hostname; port] =>
      if (hostname =? "") || negb (matches AUTHORITY_PORT port) || (253 <? String.length hostname) then None
      else if existsb (λ label, (63 <? String.length label) || negb (matches AUTHORITY_LABEL label))
                (split_on "."%char hostname) then None
      else if (65535 <? parse_dec port)%Z then None
      else Some (toLowerCase hostname, parse_dec port)
  | _ => None
  end.

(** The host and port of a CONNECT; the port is [None] when it is NaN. *)
Definition connect_authority (url : string) : string * option Z :=
  match split_last ":"%char url with
  | Some (String a host, port) => (String a host, parseInt10 port)
  | _ => (url, Some 443%Z)
  end.

(** ** Contacts *)

Record Outbound := {
  ob_protocol : string;
  ob_hostname : string;
  ob_port : option Z;
  ob_trusted : bool;                          (** the address policy of a configured override *)
  ob_method : string;
  ob_path : string;
  ob_headers : HttpHeaders;
  ob_body : option string                     (** the buffered body, otherwise what the client sends *)
}.

Inductive Effect :=
| Request (o : Outbound)
| RawTunnel (host : string) (port : option Z)
| ToRegistry (registry : RegistryConfig) (host : string) (port : option Z) (path : string)
| ToGuard (host : string) (port : option Z) (path : string)      (** [handleRegistryEgressRequest] *)
| Answer (status : nat).                                         (** the proxy's own answer *)

Record ConnectionMeta := {
  cm_provider : option nat;
  cm_registry : option RegistryConfig;
  cm_passthrough : bool;
  cm_host : string;
  cm_port : option Z
}.

(** ** Keys *)

Definition set_header (headers : HttpHeaders) (name value : string) : HttpHeaders :=
  obj_set headers name (Some (HOne value)).

Definition bearer (key : string) : string := "Bearer " +:+ key.

Definition injectRealKey (headers : HttpHeaders) (config : ProviderConfig) (realKey : string) : HttpHeaders :=
  match pv_keyInjection config with
  | HeaderKey headerName => set_header headers (toLowerCase headerName) realKey
  | BearerKey => set_header headers "authorization" (bearer realKey)
  end.

Record KeyValidation := { kv_hadKey : bool; kv_swapped : bool }.

Definition validateAndSwapApiKey (headers : HttpHeaders) (m : ProviderKeyMapping) (realKey : string) :
    HttpHeaders * KeyValidation :=
  match pv_keyInjection (pm_config m) with
  | HeaderKey name =>
      let headerName := toLowerCase name in
      match header_get headers headerName with
      | None => (headers, {| kv_hadKey := false; kv_swapped := false |})
      | Some current =>
          if current =? HOne (pm_fakeKey m) then
            let headers := set_header headers headerName realKey in
            (if header_get headers "authorization" =? Some (HOne (bearer (pm_fakeKey m)))
             then obj_remove headers "authorization" else headers,
             {| kv_hadKey := true; kv_swapped := true |})
          else (headers, {| kv_hadKey := true; kv_swapped := false |})
      end
  | BearerKey =>
      match header_get headers "authorization" with
      | None => (headers, {| kv_hadKey := false; kv_swapped := false |})
      | Some current =>
          if current =? HOne (bearer (pm_fakeKey m))
          then (set_header headers "authorization" (bearer realKey), {| kv_hadKey := true; kv_swapped := true |})
          else (headers, {| kv_hadKey := true; kv_swapped := false |})
      end
  end.

(** ** Requests to a provider *)

Inductive RequestPhase :=
| AwaitToken                                       (** [getValidAccessToken] *)
| AwaitBody                                        (** [bufferRequestBody] *)
| AwaitResponse (body : option string) (isRetry : bool)
| AwaitDrain (body : string)                       (** the end of a 401 that is retried *)
| AwaitRefresh (body : string)                     (** [handleAuthFailure] *)
| RequestOver.

Record ProviderRequest := {
  pr_provider : nat;
  pr_mapping : ProviderKeyMapping;
  pr_host : string;
  pr_port : option Z;
  pr_method : string;
  pr_path : string;
  pr_original : HttpHeaders;                       (** as the client sent them *)
  pr_headers : HttpHeaders;                        (** [modifiedHeaders] *)
  pr_key : KeyValidation;
  pr_phase : RequestPhase
}.

Definition with_headers (headers : HttpHeaders) (r : ProviderRequest) : ProviderRequest :=
  {| pr_provider := pr_provider r; pr_mapping := pr_mapping r; pr_host := pr_host r; pr_port := pr_port r;
     pr_method := pr_method r; pr_path := pr_path r; pr_original := pr_original r; pr_headers := headers;
     pr_key := pr_key r; pr_phase := pr_phase r |}.

Definition with_phase (phase : RequestPhase) (r : ProviderRequest) : ProviderRequest :=
  {| pr_provider := pr_provider r; pr_mapping := pr_mapping r; pr_host := pr_host r; pr_port := pr_port r;
     pr_method := pr_method r; pr_path := pr_path r; pr_original := pr_original r; pr_headers := pr_headers r;
     pr_key := pr_key r; pr_phase := phase |}.

Definition pr_config (r : ProviderRequest) : ProviderConfig := pm_config (pr_mapping r).

(** The destination: the configured gateway, or the host the client named. *)
Record Upstream := {
  up_protocol : string;
  up_hostname : string;
  up_port : option Z;
  up_pathPrefix : string;
  up_override : bool
}.

Definition upstream_of (config : ProviderConfig) (host : string) (port : option Z) : Upstream :=
  match pv_upstreamTarget config with
  | Some t => {| up_protocol := if ut_useTls t then "https:" else "http:"; up_hostname := ut_hostname t;
                 up_port := Some (ut_port t); up_pathPrefix := ut_pathPrefix t; up_override := true |}
  | None => {| up_protocol := "https:"; up_hostname := host; up_port := port; up_pathPrefix := ""; up_override := false |}
  end.

Definition show_port (port : option Z) : string := match port with Some p => show_Z p | None => "NaN" end.

Definition host_header (u : Upstream) : string :=
  let standard := (up_protocol u =? "https:") && (up_port u =? Some 443%Z)
                  || (up_protocol u =? "http:") && (up_port u =? Some 80%Z) in
  if standard then up_hostname u else up_hostname u +:+ ":" +:+ show_port (up_port u).

Definition needsRewrite (r : ProviderRequest) : bool := shouldRewriteBody (pr_config r) (Some (pr_method r)) (Some (pr_path r)).

Definition header_text (headers : HttpHeaders) (name : string) : option string := firstHeader (header_get headers name).

Definition canRetryAuth (r : ProviderRequest) : bool := kv_swapped (pr_key r) && pm_tokenManager (pr_mapping r).

Definition retryBufferOk (r : ProviderRequest) : bool :=
  let length := header_text (pr_original r) "content-length" in
  canRetryAuth r &&
  (bool_decide (length = None) && bool_decide (header_text (pr_original r) "transfer-encoding" = None)
   || match parseInt10 (default "" length) with Some n => (n <=? MAX_RETRY_BODY_BYTES)%Z | None => false end).

Definition needsBuffer (r : ProviderRequest) : bool := needsRewrite r || retryBufferOk r.

(** [forwardRequest] *)
Definition forward_outbound (r : ProviderRequest) (bodyOverride : option string) : Outbound :=
  let u := upstream_of (pr_config r) (pr_host r) (pr_port r) in
  let finalHeaders :=
    match bodyOverride with
    | Some body => obj_remove (set_header (pr_headers r) "content-length" (show_nat (String.length body))) "transfer-encoding"
    | None => pr_headers r
    end in
  {| ob_protocol := up_protocol u; ob_hostname := up_hostname u; ob_port := up_port u; ob_trusted := up_override u;
     ob_method := pr_method r;
     ob_path := if up_pathPrefix u =? "" then pr_path r else up_pathPrefix u +:+ pr_path r;
     ob_headers := finalHeaders; ob_body := bodyOverride |}.

Definition forwardRequest (r : ProviderRequest) (bodyOverride : option string) (isRetry : bool) :
    ProviderRequest * list Effect :=
  (with_phase (AwaitResponse bodyOverride isRetry) r, [Request (forward_outbound r bodyOverride)]).

(** What follows the token in [processRequest]. *)
Definition after_token (r : ProviderRequest) : ProviderRequest * list Effect :=
  if needsBuffer r then
    let contentEncoding := toLowerCase (default "" (header_text (pr_original r) "content-encoding")) in
    if needsRewrite r && negb (contentEncoding =? "") && negb (contentEncoding =? "identity")
    then (with_phase RequestOver r, [Answer 415])
    else (with_phase AwaitBody r, [])
  else forwardRequest r None false.

(** A body that does not parse is forwarded as it is. *)
Definition rewritten_body `{Runtime} (agentKind : option AgentKind) (r : ProviderRequest) (raw : string) : string :=
  match needsRewrite r, pv_requestRewriter (pr_config r), json_parse raw with
  | true, Some rewriter, Some (VObj body) =>
      match rewriter body agentKind with
      | Some result => json_stringify (VObj (rw_modified result))
      | None => raw
      end
  | _, _, _ => raw
  end.

(** ** The proxy *)

Record MitmState := {
  mx_keys : list string;                        (** [realKey] of each provider *)
  mx_passthroughHosts : list string;
  mx_connections : list ConnectionMeta;         (** the connections that were intercepted *)
  mx_requests : list ProviderRequest;
  mx_log : list Effect
}.

Definition mitm_init (options : MitmProxyOptions) : MitmState :=
  {| mx_keys := pm_realKey <$> mo_providers options; mx_passthroughHosts := []; mx_connections := [];
     mx_requests := []; mx_log := [] |}.

Definition add_log (effects : list Effect) (s : MitmState) : MitmState :=
  {| mx_keys := mx_keys s; mx_passthroughHosts := mx_passthroughHosts s; mx_connections := mx_connections s;
     mx_requests := mx_requests s; mx_log := mx_log s ++ effects |}.

Definition set_request (i : nat) (r : ProviderRequest) (s : MitmState) : MitmState :=
  {| mx_keys := mx_keys s; mx_passthroughHosts := mx_passthroughHosts s; mx_connections := mx_connections s;
     mx_requests := <[i := r]> (mx_requests s); mx_log := mx_log s |}.

Definition set_key (provider : nat) (key : string) (s : MitmState) : MitmState :=
  {| mx_keys := <[provider := key]> (mx_keys s); mx_passthroughHosts := mx_passthroughHosts s;
     mx_connections := mx_connections s; mx_requests := mx_requests s; mx_log := mx_log s |}.

Definition set_passthrough (hosts : list string) (s : MitmState) : MitmState :=
  {| mx_keys := mx_keys s; mx_passthroughHosts := hosts; mx_connections := mx_connections s;
     mx_requests := mx_requests s; mx_log := mx_log s |}.

Definition key_of (s : MitmState) (provider : nat) : string := default "" (mx_keys s !! provider).

Inductive MitmEvent :=
| AddHost (domain : string)                                          (** the control API *)
| RemoveHost (domain : string)
| PlainRequest (method url : string) (headers : HttpHeaders)         (** at the outer server *)
| UpgradeRequest (url : string) (headers : HttpHeaders)
| Connect (url : string) (headers : HttpHeaders)
| InnerRequest (connection : nat) (method path : string) (headers : HttpHeaders)
| TokenReady (request : nat) (token : option string)                 (** [None]: it throws *)
| BodyReady (request : nat) (body : option string)                   (** [None]: it fails *)
| UpstreamStatus (request : nat) (status : nat)
| UpstreamFails (request : nat)                                      (** an error before an answer, or a 401 cut short *)
| Drained (request : nat)
| Refreshed (request : nat) (token : option string).                 (** [None]: no token, or it throws *)

Section proxy.
Context `{WebUrl} `{Runtime}.
Variable options : MitmProxyOptions.

(** *** Domains *)

Definition addHost (domain : string) (s : MitmState) : MitmState * result bool :=
  match validateDomain domain with
  | Throw e => (s, Throw e)
  | Ok _ =>
      let h := normalizeHost domain in
      if bool_decide (is_Some (provider_of options h)) then (s, Ok false)
      else if includes (mx_passthroughHosts s) h then (s, Ok false)
      else (set_passthrough (mx_passthroughHosts s ++ [h]) s, Ok true)
  end.

Definition removeHost (domain : string) (s : MitmState) : MitmState * bool :=
  let h := normalizeHost domain in
  (set_passthrough (filter (λ x, x ≠ h) (mx_passthroughHosts s)) s, includes (mx_passthroughHosts s) h).

(** *** Plain HTTP *)

Definition passthrough_headers (headers : HttpHeaders) (host : string) (port : Z) : HttpHeaders :=
  let hopByHop := HOP_BY_HOP_HEADERS ++ connectionNominatedHeaderNames (header_get headers "connection") in
  foldl (λ acc e, if includes hopByHop e.1 then acc else obj_set acc e.1 e.2)
    [("host", Some (HOne (if (port =? 80)%Z then host else host +:+ ":" +:+ show_Z port)))] headers.

Definition plain_outbound (method : string) (target : ProxyTarget) (headers : HttpHeaders) : Outbound :=
  {| ob_protocol := "http:"; ob_hostname := pt_hostname target; ob_port := Some (pt_port target); ob_trusted := false;
     ob_method := method; ob_path := pt_path target;
     ob_headers := passthrough_headers headers (pt_hostname target) (pt_port target); ob_body := None |}.

Definition may_pass (s : MitmState) (hostname : string) : bool :=
  passthroughEligible options && (includes (mx_passthroughHosts s) hostname || wildcard options hostname).

Definition HEALTH_URL : string := "http://ironcurtain.invalid/__ironcurtain/health".

Definition onPlainRequest (method url : string) (headers : HttpHeaders) (s : MitmState) : Effect :=
  match consumeProxyAuthorization headers (mo_requiredProxyAuthorization options) with
  | (false, _) => Answer 407
  | (true, headers) =>
      if (method =? "GET") && (url =? HEALTH_URL) then Answer 200
      else match (if url =? "" then None else tryParseProxyUrl url) with
      | None => Answer 405
      | Some target =>
          let debian := match registry_of options (pt_hostname target) with
                        | Some r => if rg_type r =? Debian then Some r else None
                        | None => None
                        end in
          match debian with
          | Some r => ToRegistry r (pt_hostname target) (Some REGISTRY_UPSTREAM_HTTPS_PORT) (pt_path target)
          | None =>
              if may_pass s (pt_hostname target) then Request (plain_outbound method target headers) else Answer 403
          end
      end
  end.

(** [bridgeWebSocketUpgrade] keeps the headers of the handshake. *)
Definition upgrade_headers (headers : HttpHeaders) (host : string) (port : Z) : HttpHeaders :=
  foldl (λ acc e,
    if (e.1 =? "host") || (negb (includes ["connection"; "upgrade"] e.1) && includes HOP_BY_HOP_HEADERS e.1)
    then acc else obj_set acc e.1 e.2)
    [("host", Some (HOne (if (port =? 80)%Z then host else host +:+ ":" +:+ show_Z port)))] headers.

Definition onUpgrade (url : string) (headers : HttpHeaders) (s : MitmState) : Effect :=
  match consumeProxyAuthorization headers (mo_requiredProxyAuthorization options) with
  | (false, _) => Answer 407
  | (true, headers) =>
      match (if url =? "" then None else tryParseProxyUrl url) with
      | None => Answer 403
      | Some target =>
          if may_pass s (pt_hostname target) then
            Request {| ob_protocol := "http:"; ob_hostname := pt_hostname target; ob_port := Some (pt_port target);
                       ob_trusted := false; ob_method := "GET"; ob_path := pt_path target;
                       ob_headers := upgrade_headers headers (pt_hostname target) (pt_port target); ob_body := None |}
          else Answer 403
      end
  end.

(** *** CONNECT *)

Definition onConnect (url : string) (headers : HttpHeaders) (s : MitmState) : option ConnectionMeta * list Effect :=
  match consumeProxyAuthorization headers (mo_requiredProxyAuthorization options) with
  | (false, _) => (None, [Answer 407])
  | (true, _) =>
      let authority :=
        match mo_listenerMode options with
        | RegistryEgressMode _ => (λ a, (a.1, Some a.2)) <$> parseRegistryConnectAuthority url
        | StandardMode => Some (connect_authority url)
        end in
      match authority with
      | None => (None, [Answer 403])
      | Some (rawHost, port) =>
          let host := normalizeHost rawHost in
          let provider := provider_of options host in
          let registry := registry_of options host in
          let isPassthrough :=
            bool_decide (provider = None) && bool_decide (registry = None)
            && (passthroughEligible options && includes (mx_passthroughHosts s) host || wildcard options host) in
          let intercepted :=
            {| cm_provider := provider; cm_registry := registry; cm_passthrough := isPassthrough;
               cm_host := host; cm_port := port |} in
          match mo_listenerMode options with
          | StandardMode =>
              if bool_decide (provider = None) && bool_decide (registry = None) && negb isPassthrough
              then (None, [Answer 403])
              else if isPassthrough && mo_directTransport options then (None, [RawTunnel host port])
              else (Some intercepted, [Answer 200])
          | RegistryEgressMode origins =>
              if existsb (λ o, (o.1 =? host) && (Some o.2 =? port)) origins
              then (Some intercepted, [Answer 200])
              else (None, [Answer 403])
          end
      end
  end.

(** *** Requests inside an intercepted connection *)

Definition forwardPassthrough (c : ConnectionMeta) (method path : string) (headers : HttpHeaders) : Outbound :=
  let cleartext := includes [Some 80%Z; Some 8080%Z] (cm_port c) in
  {| ob_protocol := if cleartext then "http:" else "https:"; ob_hostname := cm_host c; ob_port := cm_port c;
     ob_trusted := false; ob_method := method; ob_path := path; ob_headers := set_header headers "host" (cm_host c);
     ob_body := None |}.

(** The request of a client to a provider, once its endpoint is allowed. *)
Definition provider_request (provider : nat) (m : ProviderKeyMapping) (c : ConnectionMeta) (method path : string)
    (headers : HttpHeaders) (realKey : string) : ProviderRequest :=
  let '(modified, key) := validateAndSwapApiKey headers m realKey in
  let modified :=
    if (pv_gatewayAdapterId (pm_config m) =? Some "openrouter") && (normalizeHost (cm_host c) =? OPENROUTER_HOST)
    then set_header modified "x-openrouter-metadata" "enabled" else modified in
  let modified := set_header modified "host" (host_header (upstream_of (pm_config m) (cm_host c) (cm_port c))) in
  {| pr_provider := provider; pr_mapping := m; pr_host := cm_host c; pr_port := cm_port c; pr_method := method;
     pr_path := path; pr_original := headers; pr_headers := modified; pr_key := key; pr_phase := AwaitToken |}.

Definition onInnerRequest (c : ConnectionMeta) (method path : string) (headers : HttpHeaders) (s : MitmState) :
    option ProviderRequest * list Effect :=
  match mo_listenerMode options with
  | RegistryEgressMode _ => (None, [ToGuard (cm_host c) (cm_port c) path])
  | StandardMode =>
      match cm_registry c with
      | Some registry => (None, [ToRegistry registry (cm_host c) (cm_port c) path])
      | None =>
          if cm_passthrough c then (None, [Request (forwardPassthrough c method path headers)])
          else match cm_provider c with
          | None => (None, [Answer 500])
          | Some provider =>
              match mo_providers options !! provider with
              | None => (None, [Answer 500])
              | Some m =>
                  if negb (isEndpointAllowed (pm_config m) (Some method) (Some path)) then (None, [Answer 403])
                  else
                    let r := provider_request provider m c method path headers (key_of s provider) in
                    if pm_tokenManager m then (Some r, []) else let '(r, effects) := after_token r in (Some r, effects)
              end
          end
      end
  end.

(** *** What comes back to a request *)

Definition onToken (i : nat) (r : ProviderRequest) (token : option string) (s : MitmState) : MitmState :=
  let '(r, s) :=
    match token with
    | Some fresh =>
        if fresh =? key_of s (pr_provider r) then (r, s)
        else (if kv_hadKey (pr_key r) then with_headers (injectRealKey (pr_headers r) (pr_config r) fresh) r else r,
              set_key (pr_provider r) fresh s)
    | None => (r, s)
    end in
  let '(r, effects) := after_token r in
  add_log effects (set_request i r s).

Definition onBody (i : nat) (r : ProviderRequest) (body : option string) (s : MitmState) : MitmState :=
  match body with
  | Some raw =>
      if (MAX_REWRITE_BODY_BYTES <? Z.of_nat (String.length raw))%Z
      then add_log [Answer 413] (set_request i (with_phase RequestOver r) s)
      else
        let '(r, effects) := forwardRequest r (Some (rewritten_body (mo_agentKind options) r raw)) false in
        add_log effects (set_request i r s)
  | None => add_log [Answer 413] (set_request i (with_phase RequestOver r) s)
  end.

Definition onStatus (i : nat) (r : ProviderRequest) (body : option string) (isRetry : bool) (status : nat)
    (s : MitmState) : MitmState :=
  match body with
  | Some body =>
      if (status =? 401)%nat && canRetryAuth r && negb isRetry
      then set_request i (with_phase (AwaitDrain body) r) s
      else set_request i (with_phase RequestOver r) s
  | None => set_request i (with_phase RequestOver r) s
  end.

(** [retryWithRefreshedToken] *)
Definition onRefreshed (i : nat) (r : ProviderRequest) (body : string) (token : option string) (s : MitmState) :
    MitmState :=
  match token with
  | Some newToken =>
      if newToken =? "" then add_log [Answer 401] (set_request i (with_phase RequestOver r) s)
      else
        let s := set_key (pr_provider r) newToken s in
        let r := with_headers (injectRealKey (pr_headers r) (pr_config r) newToken) r in
        let '(r, effects) := forwardRequest r (Some body) true in
        add_log effects (set_request i r s)
  | None => add_log [Answer 401] (set_request i (with_phase RequestOver r) s)
  end.

Definition mitm_step (s : MitmState) (e : MitmEvent) : MitmState :=
  match e with
  | AddHost domain => (addHost domain s).1
  | RemoveHost domain => (removeHost domain s).1
  | PlainRequest method url headers => add_log [onPlainRequest method url headers s] s
  | UpgradeRequest url headers => add_log [onUpgrade url headers s] s
  | Connect url headers =>
      let '(c, effects) := onConnect url headers s in
      add_log effects
        {| mx_keys := mx_keys s; mx_passthroughHosts := mx_passthroughHosts s;
           mx_connections := mx_connections s ++ option_list c; mx_requests := mx_requests s; mx_log := mx_log s |}
  | InnerRequest connection method path headers =>
      match mx_connections s !! connection with
      | None => s
      | Some c =>
          let '(r, effects) := onInnerRequest c method path headers s in
          add_log effects
            {| mx_keys := mx_keys s; mx_passthroughHosts := mx_passthroughHosts s; mx_connections := mx_connections s;
               mx_requests := mx_requests s ++ option_list r; mx_log := mx_log s |}
      end
  | TokenReady i token =>
      match mx_requests s !! i with
      | Some r => match pr_phase r with AwaitToken => onToken i r token s | _ => s end
      | None => s
      end
  | BodyReady i body =>
      match mx_requests s !! i with
      | Some r => match pr_phase r with AwaitBody => onBody i r body s | _ => s end
      | None => s
      end
  | UpstreamStatus i status =>
      match mx_requests s !! i with
      | Some r => match pr_phase r with AwaitResponse body isRetry => onStatus i r body isRetry status s | _ => s end
      | None => s
      end
  | UpstreamFails i =>
      match mx_requests s !! i with
      | Some r =>
          match pr_phase r with
          | AwaitResponse _ _ | AwaitDrain _ => add_log [Answer 502] (set_request i (with_phase RequestOver r) s)
          | _ => s
          end
      | None => s
      end
  | Drained i =>
      match mx_requests s !! i with
      | Some r =>
          match pr_phase r with AwaitDrain body => set_request i (with_phase (AwaitRefresh body) r) s | _ => s end
      | None => s
      end
  | Refreshed i token =>
      match mx_requests s !! i with
      | Some r => match pr_phase r with AwaitRefresh body => onRefreshed i r body token s | _ => s end
      | None => s
      end
  end.

Definition mitm_run : MitmState → list MitmEvent → MitmState := foldl mitm_step.

End proxy.

(** [createMitmProxy] *)
Definition createMitmProxy (options : MitmProxyOptions) : result MitmState :=
  _ ← check_providers (mo_providers options); Ok (mitm_init options).
