(* ===== verification/MitmProperties.v ===== *)
(** * Properties of the interception proxy

    Where the proxy sends traffic and keys, over every interleaving of connections,
    requests, tokens and answers; the soundness of the completion descriptors; what the
    rewriting of bodies leaves; and where a refreshed key ends up. *)

From Stdlib Require Import Ascii ZArith Lia.
From S2P Require Import Prelude JsValue Paths Urls Hashing Regex EgressAddress UriText Messages ProxyTools.
From S2P Require Import PackageNames ProviderConfig MitmProxy.

Local Open Scope curtain_scope.

(** ** Hosts *)

Lemma find_last_Some {A} (f : A → bool) l x : find_last f l = Some x → x ∈ l ∧ f x = true.
Proof.
  unfold find_last. intros [Hin Hf]%find_some. split; [|done].
  apply list_elem_of_In in Hin. by apply elem_of_reverse.
Qed.

Lemma provider_of_Some options host i :
  provider_of options host = Some i →
  ∃ m, mo_providers options !! i = Some m ∧ normalizeHost (pv_host (pm_config m)) = host.
Proof.
  unfold provider_of. intros ([j m] & Hf & ->)%fmap_Some. apply find_last_Some in Hf as [Hin Hh].
  apply elem_of_lookup_imap in Hin as (i & m' & [= -> ->] & Hi). exists m'. split; [done|]. by bool_hyps.
Qed.

Lemma registry_of_Some options host r :
  registry_of options host = Some r → r ∈ mo_registries options ∧ host ∈ registry_hosts r.
Proof. unfold registry_of. intros [Hin Hh]%find_last_Some. split; [done|]. by apply includes_spec. Qed.

(** ** Headers *)

Lemma set_header_elem headers name value e :
  e ∈ set_header headers name value → e = (name, Some (HOne value)) ∨ e ∈ headers.
Proof. apply obj_set_elem_inv. Qed.

Lemma obj_remove_elem {A} (o : object A) k e : e ∈ obj_remove o k → e ∈ o.
Proof. by intros [_ ?]%list_elem_of_filter. Qed.

(** The headers that the proxy writes itself. *)
Definition PROXY_HEADERS : list string := ["host"; "content-length"; "x-openrouter-metadata"].

Definition key_name (config : ProviderConfig) : string :=
  match pv_keyInjection config with HeaderKey name => toLowerCase name | BearerKey => "authorization" end.
Definition key_text (config : ProviderConfig) (key : string) : string :=
  match pv_keyInjection config with HeaderKey _ => key | BearerKey => bearer key end.
Definition key_header (config : ProviderConfig) (key : string) : string * option HeaderValue :=
  (key_name config, Some (HOne (key_text config key))).

Lemma injectRealKey_elem headers config key e :
  e ∈ injectRealKey headers config key → e = key_header config key ∨ e ∈ headers.
Proof. unfold injectRealKey, key_header, key_name, key_text. destruct (pv_keyInjection config); apply set_header_elem. Qed.

Lemma validateAndSwapApiKey_spec headers m key headers' kv :
  validateAndSwapApiKey headers m key = (headers', kv) →
  (∀ e, e ∈ headers' → e ∈ headers ∨ kv_swapped kv = true ∧ e = key_header (pm_config m) key)
  ∧ (kv_hadKey kv = true → is_Some (header_get headers (key_name (pm_config m))))
  ∧ (kv_swapped kv = true → header_get headers (key_name (pm_config m)) = Some (HOne (key_text (pm_config m) (pm_fakeKey m)))).
Proof.
  unfold validateAndSwapApiKey, key_header, key_name, key_text. intros Heq.
  destruct (pv_keyInjection (pm_config m)) as [name|].
  - destruct (header_get headers (toLowerCase name)) as [v|] eqn:Hg; [|simplify_eq; naive_solver].
    case_bool_decide; simplify_eq; [|naive_solver].
    split; [|naive_solver]. intros e He.
    assert (e ∈ set_header headers (toLowerCase name) key) as [->|?]%set_header_elem; [|by auto..].
    case_bool_decide; [by eapply obj_remove_elem|done].
  - destruct (header_get headers "authorization") as [v|] eqn:Hg; [|simplify_eq; naive_solver].
    case_bool_decide; simplify_eq; [|naive_solver].
    split; [|naive_solver]. intros e [->|?]%set_header_elem; auto.
Qed.

Lemma fold_headers_elem (skip : string * option HeaderValue → bool) (headers acc : HttpHeaders) e :
  e ∈ foldl (λ acc e, if skip e then acc else obj_set acc e.1 e.2) acc headers → e ∈ acc ∨ e ∈ headers.
Proof.
  revert acc. induction headers as [|h headers IH]; intros acc; cbn [foldl]; [by left|].
  intros [Hin|?]%IH; [|by right; right]. destruct (skip h); [by left|].
  apply obj_set_elem_inv in Hin as [->|?]; [|by left]. right. rewrite <-surjective_pairing. left.
Qed.

Lemma consumeProxyAuthorization_elem headers expected ok headers' e :
  consumeProxyAuthorization headers expected = (ok, headers') → e ∈ headers' → e ∈ headers.
Proof.
  unfold consumeProxyAuthorization. intros Heq He. repeat case_match; simplify_eq; try done.
  by eapply obj_remove_elem.
Qed.

(** ** Patterns with stars *)

(** What the expression of a pattern matches. *)
Definition gm (pattern s : string) : Prop := lang (glob pattern) s.

Lemma gm_nil s : gm "" s ↔ s = "".
Proof. apply lang_eps_inv. Qed.

Definition not_slash (a : ascii) : bool := negb (a =? UriText.slash).

Lemma gm_star pattern s :
  gm (String star pattern) s ↔ ∃ x y, s = x +:+ y ∧ x ≠ "" ∧ str_forallb not_slash x = true ∧ gm pattern y.
Proof.
  unfold gm. cbn [glob]. rewrite bool_decide_eq_true_2, lang_cat_inv by done.
  setoid_rewrite lang_plus_chr. naive_solver.
Qed.

Lemma gm_char c pattern s : c ≠ star → gm (String c pattern) s ↔ ∃ y, s = String c y ∧ gm pattern y.
Proof.
  intros Hc. unfold gm. cbn [glob]. rewrite bool_decide_eq_false_2, lang_cat_inv by done. unfold chr.
  setoid_rewrite lang_chr_inv. split.
  - intros (? & y & -> & (a & -> & Ha) & ?). bool_hyps. subst. by exists y.
  - intros (y & -> & ?). exists (String c ""), y. split_and!; [done| |done]. exists c. split; [done|]. by apply bool_decide_eq_true.
Qed.

Lemma gm_literal_app pre pattern s : star ∉ chars pre → gm (pre +:+ pattern) s ↔ ∃ y, s = pre +:+ y ∧ gm pattern y.
Proof.
  revert s. induction pre as [|c pre IH]; intros s Hs; [change ("" +:+ pattern) with pattern; naive_solver|].
  change (chars (String c pre)) with (c :: chars pre) in Hs. apply not_elem_of_cons in Hs as [Hc Hs].
  rewrite str_app_cons, gm_char by done. setoid_rewrite IH; [|done]. split.
  - intros (? & -> & y & -> & ?). by exists y.
  - intros (y & -> & ?). exists (pre +:+ y). split; [done|]. by exists y.
Qed.

Lemma gm_literal pattern s : star ∉ chars pattern → gm pattern s ↔ s = pattern.
Proof.
  intros Hs. rewrite <-(str_app_nil_r pattern) at 1. rewrite gm_literal_app by done. setoid_rewrite gm_nil. split.
  - intros (y & -> & ->). by rewrite str_app_nil_r.
  - intros ->. exists "". by rewrite str_app_nil_r.
Qed.

Lemma str_includes_star s : str_includes s "*" = true ↔ star ∈ chars s.
Proof.
  induction s as [|a s IH]; [split; [done|by intros ?%not_elem_of_nil]|].
  change (chars (String a s)) with (a :: chars s). rewrite elem_of_cons, <-IH. cbn [str_includes String.prefix].
  destruct (ascii_dec _ a) as [<-|Ha]; cbn [String.prefix orb].
  - split; [by left|]. intros _. by destruct s.
  - split; [by right|]. intros [E|?]; [by subst|done].
Qed.

Lemma patternMatchesPath_gm pattern s : patternMatchesPath pattern s = true ↔ gm pattern s.
Proof.
  unfold patternMatchesPath. destruct (str_includes pattern "*") eqn:E; [apply matches_spec|].
  rewrite gm_literal, bool_decide_eq_true; [done|]. rewrite <-str_includes_star. by rewrite E.
Qed.

(** *** Segment by segment *)

Lemma split_on_prepend c x y :
  c ∉ chars x → ∃ h t, split_on c y = h :: t ∧ split_on c (x +:+ y) = (x +:+ h) :: t.
Proof.
  intros Hx. destruct (split_on c y) as [|h t] eqn:Ey; [by apply split_on_not_nil in Ey|]. exists h, t. split; [done|].
  induction x as [|a x IH]; [done|]. change (chars (String a x)) with (a :: chars x) in Hx.
  apply not_elem_of_cons in Hx as [Ha Hx]. rewrite str_app_cons. cbn [split_on].
  by rewrite bool_decide_eq_false_2, IH by done.
Qed.

Lemma not_slash_chars x : str_forallb not_slash x = true ↔ UriText.slash ∉ chars x.
Proof.
  induction x as [|a x IH]; [split; [intros _; apply not_elem_of_nil|done]|].
  change (chars (String a x)) with (a :: chars x). cbn. rewrite not_elem_of_cons, andb_true_iff, IH. unfold not_slash.
  rewrite negb_true_iff, bool_decide_eq_false. naive_solver.
Qed.

Lemma gm_segments pattern s :
  gm pattern s → Forall2 gm (split_on UriText.slash pattern) (split_on UriText.slash s).
Proof.
  revert s. induction pattern as [|c pattern IH]; intros s.
  { intros ->%gm_nil. repeat constructor. }
  destruct (decide (c = star)) as [->|Hc].
  - intros (x & y & -> & Hx & Hns & Hy%IH)%gm_star. pose proof Hns as Hns'. apply not_slash_chars in Hns.
    destruct (split_on_prepend UriText.slash x y Hns) as (h & t & Ey & ->). rewrite Ey in Hy.
    cbn [split_on]. rewrite bool_decide_eq_false_2 by done.
    apply Forall2_cons_inv_r in Hy as (p & ps & Hp & Hps & ->). constructor; [|done]. apply gm_star. by exists x, h.
  - intros (y & -> & Hy%IH)%gm_char; [|done]. cbn [split_on]. case_bool_decide as Hsl.
    + constructor; [by apply gm_nil|done].
    + destruct (split_on UriText.slash y) as [|h t] eqn:Ey; [by apply split_on_not_nil in Ey|].
      apply Forall2_cons_inv_r in Hy as (p & ps & Hp & Hps & ->). constructor; [|done].
      apply gm_char; [done|]. by exists h.
Qed.

(** *** Overlaps *)

Lemma stars_counted l : star ∈ l → 1 ≤ length (filter (λ c, c = star) l).
Proof.
  intros Hl. assert (star ∈ filter (λ c, c = star) l) as Hf by (by apply list_elem_of_filter).
  destruct (filter _ l); [by apply not_elem_of_nil in Hf|cbn; lia].
Qed.

Lemma star_split s :
  str_includes s "*" = true → count_stars s ≤ 1 →
  ∃ pre suf, s = pre +:+ String star suf ∧ star ∉ chars pre ∧ star ∉ chars suf ∧ before_star s = pre ∧ after_star s = suf.
Proof.
  intros Hin%str_includes_star Hcount. apply list_elem_of_split in Hin as (l1 & l2 & Hs).
  rewrite <-(of_chars_chars s), Hs. unfold count_stars in Hcount.
  assert (Hnone : star ∉ l1 ∧ star ∉ l2).
  { rewrite Hs, filter_app, length_app, filter_cons_True in Hcount by done. cbn in Hcount.
    split; intros Hi%stars_counted; cbn in Hcount; lia. }
  destruct Hnone as [H1 H2].
  assert (E : of_chars (l1 ++ star :: l2) = of_chars l1 +:+ String star (of_chars l2)).
  { rewrite <-(of_chars_chars (_ +:+ _)), chars_app, chars_of_chars.
    change (chars (String star (of_chars l2))) with (star :: chars (of_chars l2)). by rewrite chars_of_chars. }
  rewrite E. exists (of_chars l1), (of_chars l2). unfold before_star, after_star.
  rewrite split_on_app, !split_on_no_sep by (by rewrite chars_of_chars).
  rewrite !chars_of_chars. done.
Qed.

Lemma prefixes_comparable p q x y : p +:+ x = q +:+ y → startsWith p q = true ∨ startsWith q p = true.
Proof.
  revert q. induction p as [|a p IH]; intros q Heq; [right; apply (startsWith_app "" q)|].
  destruct q as [|b q]; [left; apply (startsWith_app "" (String a p))|].
  rewrite !str_app_cons in Heq. injection Heq as -> Heq.
  apply IH in Heq as [[t ->]%startsWith_spec|[t ->]%startsWith_spec]; [left|right]; apply startsWith_spec; by exists t.
Qed.

Lemma suffixes_comparable p q x y : x +:+ p = y +:+ q → endsWith p q = true ∨ endsWith q p = true.
Proof.
  revert y. induction x as [|a x IH]; intros y Heq; [left; apply endsWith_spec; by exists y|].
  destruct y as [|b y]; [right; apply endsWith_spec; by exists (String a x)|].
  rewrite !str_app_cons in Heq. injection Heq as -> Heq. by eapply IH.
Qed.

Lemma segment_overlap l r s : gm l s → gm r s → segmentPatternsMayOverlap l r = true.
Proof.
  intros Hl Hr. unfold segmentPatternsMayOverlap.
  destruct (str_includes l "*") eqn:El; destruct (str_includes r "*") eqn:Er; cbn [negb andb].
  - destruct (1 <? count_stars l) eqn:Cl; [done|]. destruct (1 <? count_stars r) eqn:Cr; [done|]. cbn [orb].
    apply Nat.ltb_ge in Cl, Cr.
    destruct (star_split l El Cl) as (lp & ls & Hleq & ? & ? & -> & ->).
    destruct (star_split r Er Cr) as (rp & rs & Hreq & ? & ? & -> & ->). subst.
    apply gm_literal_app in Hl as (y & -> & (x & z & -> & _ & _ & ->%gm_literal)%gm_star); [|done..].
    apply gm_literal_app in Hr as (y' & Heq & (x' & z' & -> & _ & _ & ->%gm_literal)%gm_star); [|done..].
    assert (startsWith lp rp = true ∨ startsWith rp lp = true) as Hp by (by eapply prefixes_comparable).
    rewrite <-!str_app_assoc in Heq.
    assert (endsWith ls rs = true ∨ endsWith rs ls = true) as Hs by (by eapply suffixes_comparable).
    destruct Hp as [-> | ->]; destruct Hs as [-> | ->]; by rewrite ?andb_false_r.
  - apply gm_literal in Hr as ->; [by apply patternMatchesPath_gm|]. rewrite <-str_includes_star. by rewrite Er.
  - apply gm_literal in Hl as ->; [by apply patternMatchesPath_gm|]. rewrite <-str_includes_star. by rewrite El.
  - apply gm_literal in Hl as ->; [|by rewrite <-str_includes_star, El].
    apply gm_literal in Hr as ->; [|by rewrite <-str_includes_star, Er]. by apply bool_decide_eq_true.
Qed.

Lemma forallb_zip {A} (R : A → string → Prop) (f : A → A → bool) l r s :
  (∀ x y z, R x z → R y z → f x y = true) → Forall2 R l s → Forall2 R r s → forallb (λ p, f p.1 p.2) (zip l r) = true.
Proof.
  intros Hf Hl. revert r. induction Hl as [|x z l s Hx Hl IH]; intros r; [by inversion 1|].
  inversion 1; subst. cbn. rewrite (Hf _ _ z), IH by done. done.
Qed.

Lemma endpoint_method_name_inj m m' : endpoint_method_name m = endpoint_method_name m' → m = m'.
Proof. by destruct m, m'. Qed.

Lemma matchesEndpointPattern_spec ep method path :
  matchesEndpointPattern ep method path = true ↔
  ∃ m p, method = Some m ∧ path = Some p ∧ m ≠ "" ∧ p ≠ "" ∧ endpoint_method_name (ep_method ep) = toUpperCase m
    ∧ gm (ep_path ep) (cleanRequestPath p).
Proof.
  setoid_rewrite <-patternMatchesPath_gm. unfold matchesEndpointPattern.
  destruct method as [m|]; [|naive_solver]. destruct path as [p|]; [|naive_solver]. split.
  - destruct (_ || _ || _) eqn:E; [done|]. bool_hyps. intros ?. exists m, p. split_and!; done.
  - intros (? & ? & [= <-] & [= <-] & ? & ? & Hm & ?). 
    rewrite (bool_decide_eq_false_2 (m = "")), (bool_decide_eq_false_2 (p = "")) by done. by rewrite bool_decide_eq_true_2.
Qed.

Lemma endpoints_overlap l r method path :
  matchesEndpointPattern l method path = true → matchesEndpointPattern r method path = true →
  endpointPatternsMayOverlap l r = true.
Proof.
  intros (m & p & -> & -> & _ & _ & Hm & Hl)%matchesEndpointPattern_spec.
  intros (m' & p' & [= <-] & [= <-] & _ & _ & Hm' & Hr)%matchesEndpointPattern_spec.
  unfold endpointPatternsMayOverlap. rewrite bool_decide_eq_true_2 by (apply endpoint_method_name_inj; congruence).
  apply gm_segments in Hl, Hr. cbn [negb].
  assert (length (split_on UriText.slash (ep_path l)) = length (split_on UriText.slash (ep_path r))) as ->
    by (apply Forall2_length in Hl, Hr; congruence).
  rewrite Nat.eqb_refl. cbn [negb]. eapply forallb_zip; [|done..]. apply segment_overlap.
Qed.

Lemma covers_matches allowed ep method path :
  authorizationCoversEndpoint allowed ep = true → matchesEndpointPattern ep method path = true →
  matchesEndpointPattern allowed method path = true.
Proof.
  unfold authorizationCoversEndpoint. case_bool_decide as Hm; [|done]. cbn [negb].
  intros Hc (m & p & -> & -> & ? & ? & Hn & Hp)%matchesEndpointPattern_spec.
  apply matchesEndpointPattern_spec. exists m, p. split_and!; try done; [by rewrite Hm|].
  case_bool_decide as Hpath; [by rewrite Hpath|]. apply andb_true_iff in Hc as [Hs Hc].
  apply gm_literal in Hp; [|rewrite <-str_includes_star; by destruct (str_includes _ _)].
  rewrite Hp. by apply patternMatchesPath_gm.
Qed.

Lemma check_subset_covered endpoints allowed e :
  check_subset endpoints allowed = Ok () → e ∈ endpoints →
  ∃ a, a ∈ allowed ∧ authorizationCoversEndpoint a (ce_pattern e) = true.
Proof.
  induction endpoints as [|e' rest IH]; cbn [check_subset]; [by intros _ ?%not_elem_of_nil|].
  intros (? & _ & Hrest)%result_bind_ok.
  destruct (existsb _ allowed) eqn:Ex; [|done]. cbn [negb] in Hrest.
  intros [->|?]%elem_of_cons; [|by apply IH]. apply existsb_exists_elem in Ex as (a & ? & ?). by exists a.
Qed.

Lemma check_overlaps_unique endpoints method path :
  check_overlaps endpoints = Ok () →
  length (filter (λ e, matchesEndpointPattern (ce_pattern e) method path = true) endpoints) ≤ 1.
Proof.
  induction endpoints as [|e rest IH]; cbn [check_overlaps]; [cbn; lia|].
  destruct (List.find _ rest) as [|] eqn:Hf; [done|]. intros Hrest.
  destruct (matchesEndpointPattern (ce_pattern e) method path) eqn:E;
    [|rewrite filter_cons_False by (by rewrite E); by apply IH].
  rewrite filter_cons_True by done. rewrite find_none_elem in Hf.
  replace (filter _ rest) with (@nil CompletionEndpoint); [cbn; lia|]. symmetry. apply list_filter_none.
  apply Forall_forall; intros e' Hin Hm. specialize (Hf e' Hin). by rewrite (endpoints_overlap _ _ method path) in Hf.
Qed.

(** ** Rewritten bodies *)

Definition schedule_reference (entry : jsvalue) : Prop :=
  ∃ o name, entry = VObj o ∧ get_value o "type" = VStr "tool_reference" ∧ get_value o "tool_name" = VStr name
    ∧ name ∈ SCHEDULE_SKILL_TOOL_NAMES.

(** The entries of the results of tools that a message holds. *)
Definition block_entry (block entry : jsvalue) : Prop :=
  ∃ o inner, block = VObj o ∧ get_value o "type" = VStr "tool_result" ∧ get_value o "content" = VArr inner
    ∧ entry ∈ inner.
Definition message_entry (message entry : jsvalue) : Prop :=
  ∃ o content block, message = VObj o ∧ get_value o "content" = VArr content ∧ block ∈ content
    ∧ block_entry block entry.
Definition body_entry (body : object jsvalue) (entry : jsvalue) : Prop :=
  ∃ messages message, get_value body "messages" = VArr messages ∧ message ∈ messages ∧ message_entry message entry.

Lemma get_value_set o k v : get_value (obj_set o k v) k = v.
Proof. unfold get_value. by rewrite obj_get_set, bool_decide_eq_true_2. Qed.

Lemma get_value_set_ne o k k' v : k' ≠ k → get_value (obj_set o k v) k' = get_value o k'.
Proof. intros. unfold get_value. by rewrite obj_get_set, bool_decide_eq_false_2. Qed.

Definition stripped_by (strip : object jsvalue → option RewriteResult) (body : object jsvalue) : object jsvalue :=
  match strip body with Some r => rw_modified r | None => body end.

Lemma then_strip_body strip acc : (then_strip strip acc).1 = stripped_by strip acc.1.
Proof. unfold then_strip, stripped_by. by destruct (strip acc.1). Qed.

Lemma omap_nil_filter {A B} (f : A → option B) (l : list A) :
  omap f l = [] → (filter (λ x, ¬ is_Some (f x)) l) = l.
Proof.
  intros Hl. apply list_filter_all, Forall_forall. intros x Hx [y Hy].
  assert (y ∈ omap f l) as Hin by (by apply list_elem_of_omap; exists x). rewrite Hl in Hin. by apply not_elem_of_nil in Hin.
Qed.

(** Tools that are classified go, the others stay in their order. *)
Lemma stripToolsBy_spec classify body :
  let out := stripped_by (λ b, stripToolsBy b classify) body in
  (∀ k, k ≠ "tools" → obj_get out k = obj_get body k)
  ∧ ∀ l, get_value out "tools" = VArr l →
      ∃ l0, get_value body "tools" = VArr l0 ∧ l = filter (λ tool, classify tool = None) l0.
Proof.
  unfold stripped_by, stripToolsBy.
  destruct (get_value body "tools") as [| | | | |tools|] eqn:Ht; try (split; [done|intros l Hl; congruence]).
  destruct (omap classify tools) as [|s ss] eqn:Ho.
  - split; [done|]. intros l. rewrite Ht. intros [= <-]. exists tools. split; [done|].
    rewrite <-(omap_nil_filter _ _ Ho) at 1. apply list_filter_ext_elem.
    intros x _. rewrite eq_None_not_Some. done.
  - cbn [rw_modified]. split; [intros k Hk; by rewrite obj_get_set, bool_decide_eq_false_2|].
    intros l. rewrite get_value_set. intros [= <-]. by exists tools.
Qed.

(** *** The loops over contents *)

Lemma rewrite_list_elem (P : jsvalue → Prop) f l kept labels changed v :
  (∀ v, f v = None → P v) → (∀ v v' ls, f v = Some (Some v', ls) → P v') →
  rewrite_list f l = (kept, labels, changed) → v ∈ kept → P v.
Proof.
  intros Hnone Hsome [= <- _ _] (x & Hv & Hx)%list_elem_of_bind.
  destruct (f x) as [[[x'|] ls]|] eqn:E; [|by apply not_elem_of_nil in Hv|];
    apply list_elem_of_singleton in Hv as ->; eauto.
Qed.

Lemma rewrite_list_unchanged f l kept labels :
  rewrite_list f l = (kept, labels, false) → ∀ v, v ∈ l → f v = None.
Proof.
  intros [= _ _ Hc] v Hv. rewrite existsb_false_elem in Hc. specialize (Hc v Hv).
  by apply bool_decide_eq_false, eq_None_not_Some in Hc.
Qed.

Definition labelled (f : jsvalue → option (option jsvalue * list string)) : Prop :=
  ∀ v r labels, f v = Some (r, labels) → labels ≠ [].

Lemma rewrite_list_labels f l kept labels changed :
  labelled f → rewrite_list f l = (kept, labels, changed) → changed = true → labels ≠ [].
Proof.
  intros Hf [= _ <- <-] (v & Hv & Hs)%existsb_exists_elem. apply bool_decide_eq_true in Hs as [[r ls] Hr].
  destruct ls as [|lab ls]; [by apply Hf in Hr|]. intros Hnil.
  assert (lab ∈ (l ≫= λ v, match f v with None => [] | Some (_, labels) => labels end)) as Hin.
  { apply list_elem_of_bind. exists v. split; [|done]. rewrite Hr. left. }
  rewrite Hnil in Hin. by apply not_elem_of_nil in Hin.
Qed.

Lemma scrub_entry_labelled : labelled scrubToolResultEntry.
Proof.
  intros v r labels. unfold scrubToolResultEntry. repeat case_match; try done; intros; simplify_eq; done.
Qed.

Lemma scrub_entry_none v : scrubToolResultEntry v = None → ¬ schedule_reference v.
Proof.
  intros Hs (o & name & -> & Ht & Hn & Hin). unfold scrubToolResultEntry in Hs. rewrite Ht, Hn in Hs.
  rewrite bool_decide_eq_true_2 in Hs by done. cbn [andb] in Hs. by rewrite (proj2 (includes_spec _ _)) in Hs.
Qed.

Lemma scrub_entry_some v v' labels : scrubToolResultEntry v = Some (Some v', labels) → ¬ schedule_reference v'.
Proof.
  unfold scrubToolResultEntry. destruct v as [| | | | | |o]; try done.
  destruct (get_value o "type") as [| | | |t| |] eqn:Ht; try done.
  destruct ((t =? "tool_reference") && _); [by repeat case_match|].
  destruct (bool_decide (t = "text")) eqn:E; [|done]. bool_hyps. subst.
  repeat case_match; try done. intros [= <- <-] (o' & name & [= <-] & Ht' & _).
  rewrite get_value_set_ne, Ht in Ht' by done. done.
Qed.

Lemma block_labelled : labelled rewriteToolResultBlock.
Proof.
  intros v r labels. unfold rewriteToolResultBlock. destruct v as [| | | | | |o]; try done.
  destruct (is_str _ _); [|done]. destruct (get_value o "content") as [| | | | |inner|]; try done.
  destruct (rewrite_list _ inner) as [[kept labs] changed] eqn:E. destruct changed; [|done]. intros [= <- <-].
  by eapply rewrite_list_labels; [apply scrub_entry_labelled|..].
Qed.

Lemma block_none v : rewriteToolResultBlock v = None → ∀ entry, block_entry v entry → ¬ schedule_reference entry.
Proof.
  intros Hs entry (o & inner & -> & Ht & Hc & Hin). unfold rewriteToolResultBlock in Hs.
  rewrite (proj2 (is_str_spec _ _) Ht), Hc in Hs.
  destruct (rewrite_list _ inner) as [[kept labs] changed] eqn:E. destruct changed; [done|].
  by eapply scrub_entry_none, rewrite_list_unchanged.
Qed.

Lemma block_some v v' labels :
  rewriteToolResultBlock v = Some (Some v', labels) → ∀ entry, block_entry v' entry → ¬ schedule_reference entry.
Proof.
  unfold rewriteToolResultBlock. destruct v as [| | | | | |o]; try done.
  destruct (is_str _ _); [|done]. destruct (get_value o "content") as [| | | | |inner|]; try done.
  destruct (rewrite_list _ inner) as [[kept labs] changed] eqn:E. destruct changed; [|done]. cbn [negb].
  intros [= <- <-] entry (o' & inner' & [= <-] & _ & Hc & Hin). rewrite get_value_set in Hc. injection Hc as <-.
  destruct kept as [|k kept].
  - apply list_elem_of_singleton in Hin as ->. intros (o' & name & [= <-] & Ht & _). by vm_compute in Ht.
  - by eapply (rewrite_list_elem (λ e, ¬ schedule_reference e));
      [apply scrub_entry_none|apply scrub_entry_some|..].
Qed.

Lemma message_labelled : labelled rewriteMessageContent.
Proof.
  intros v r labels. unfold rewriteMessageContent. destruct v as [| | | | | |o]; try done.
  destruct (get_value o "content") as [| | | | |content|]; try done.
  destruct (rewrite_list _ content) as [[kept labs] changed] eqn:E. destruct changed; [|done]. intros [= <- <-].
  by eapply rewrite_list_labels; [apply block_labelled|..].
Qed.

Lemma message_none v : rewriteMessageContent v = None → ∀ entry, message_entry v entry → ¬ schedule_reference entry.
Proof.
  intros Hs entry (o & content & block & -> & Hc & Hin & He). unfold rewriteMessageContent in Hs. rewrite Hc in Hs.
  destruct (rewrite_list _ content) as [[kept labs] changed] eqn:E. destruct changed; [done|].
  by eapply block_none; [eapply rewrite_list_unchanged|].
Qed.

Lemma message_some v v' labels :
  rewriteMessageContent v = Some (Some v', labels) → ∀ entry, message_entry v' entry → ¬ schedule_reference entry.
Proof.
  unfold rewriteMessageContent. destruct v as [| | | | | |o]; try done.
  destruct (get_value o "content") as [| | | | |content|]; try done.
  destruct (rewrite_list _ content) as [[kept labs] changed] eqn:E. destruct changed; [|done]. cbn [negb].
  intros [= <- <-] entry (o' & content' & block & [= <-] & Hc & Hin & He).
  rewrite get_value_set in Hc. injection Hc as <-. revert entry He.
  by eapply (rewrite_list_elem (λ b, ∀ entry, block_entry b entry → ¬ schedule_reference entry));
    [apply block_none|apply block_some|..].
Qed.

Lemma references_spec body :
  let out := stripped_by stripScheduleSkillToolReferences body in
  (∀ k, k ≠ "messages" → obj_get out k = obj_get body k)
  ∧ ∀ entry, body_entry out entry → ¬ schedule_reference entry.
Proof.
  unfold stripped_by, stripScheduleSkillToolReferences.
  destruct (get_value body "messages") as [| | | | |messages|] eqn:Hm;
    try (split; [done|intros entry (? & ? & ? & _); congruence]).
  destruct (rewrite_list rewriteMessageContent messages) as [[kept labels] changed] eqn:E.
  destruct labels as [|lab labels].
  - destruct changed; [by eapply rewrite_list_labels in E; [|apply message_labelled|]|].
    split; [done|]. intros entry (ms & m & Hms & Hin & He). rewrite Hm in Hms. injection Hms as <-.
    by eapply message_none; [eapply rewrite_list_unchanged|].
  - cbn [rw_modified]. split; [intros k Hk; by rewrite obj_get_set, bool_decide_eq_false_2|].
    intros entry (ms & m & Hms & Hin & He). rewrite get_value_set in Hms. injection Hms as <-. revert entry He.
    by eapply (rewrite_list_elem (λ m, ∀ entry, message_entry m entry → ¬ schedule_reference entry));
      [apply message_none|apply message_some|..].
Qed.

(** The body that is forwarded. *)
Definition anthropic_body (agentKind : option AgentKind) (body : object jsvalue) : object jsvalue :=
  match anthropicRequestRewriter body agentKind with Some r => rw_modified r | None => body end.

Definition unattended (agentKind : option AgentKind) : Prop :=
  agentKind = Some Batch ∨ agentKind = Some WorkflowAgent.

Lemma then_strip_nil strip acc :
  (then_strip strip acc).2 = [] → acc.2 = [] ∧ (strip acc.1 = None ∨ ∃ r, strip acc.1 = Some r ∧ rw_stripped r = []).
Proof. unfold then_strip. destruct (strip acc.1) as [r|]; [|by auto]. cbn. intros [? ?]%app_eq_nil. eauto. Qed.

Lemma stripToolsBy_labels body classify r : stripToolsBy body classify = Some r → rw_stripped r ≠ [].
Proof. unfold stripToolsBy. repeat case_match; try done. by intros [= <-]. Qed.

Lemma references_labels body r : stripScheduleSkillToolReferences body = Some r → rw_stripped r ≠ [].
Proof. unfold stripScheduleSkillToolReferences. repeat case_match; try done. by intros [= <-]. Qed.

Lemma then_strip_id strip acc :
  (∀ body r, strip body = Some r → rw_stripped r ≠ []) → (then_strip strip acc).2 = [] → then_strip strip acc = acc.
Proof.
  intros Hs Hnil. pose proof (then_strip_nil _ _ Hnil) as [_ [Hn|(r & Hr & ?)]]; [|by apply Hs in Hr].
  unfold then_strip. by rewrite Hn.
Qed.

Lemma anthropic_body_eq agentKind body :
  anthropic_body agentKind body =
  let b := stripped_by stripServerSideTools body in
  if bool_decide (unattended agentKind)
  then stripped_by stripScheduleSkillToolReferences (stripped_by stripScheduleSkillTools b) else b.
Proof.
  unfold anthropic_body, anthropicRequestRewriter. fold (unattended agentKind).
  set (acc1 := then_strip stripServerSideTools (body, [])).
  assert (Hb : stripped_by stripServerSideTools body = acc1.1) by (symmetry; apply then_strip_body). rewrite Hb. cbv zeta.
  assert (H1 : acc1.2 = [] → acc1 = (body, [])) by (apply then_strip_id, (λ b r, stripToolsBy_labels b _ r)).
  destruct (bool_decide (unattended agentKind)).
  - set (acc2 := then_strip stripScheduleSkillTools acc1).
    assert (stripped_by stripScheduleSkillTools acc1.1 = acc2.1) as -> by (symmetry; apply then_strip_body).
    assert (H2 : acc2.2 = [] → acc2 = acc1) by (apply then_strip_id, (λ b r, stripToolsBy_labels b _ r)).
    set (acc3 := then_strip stripScheduleSkillToolReferences acc2).
    assert (stripped_by stripScheduleSkillToolReferences acc2.1 = acc3.1) as -> by (symmetry; apply then_strip_body).
    assert (H3 : acc3.2 = [] → acc3 = acc2) by (apply then_strip_id, references_labels).
    destruct acc3.2 as [|] eqn:E; [|done]. rewrite H3 by done. rewrite (H3 eq_refl) in E. rewrite H2 by done.
    rewrite (H2 E) in E. by rewrite H1.
  - destruct acc1.2 eqn:E; [|done]. by rewrite H1.
Qed.

(** ** The invariant of a run *)

Section invariant.
Context `{WebUrl} `{Runtime}.
Variable options : MitmProxyOptions.

Local Abbreviation run := (mitm_run options).
Local Abbreviation init := (mitm_init options).

(** A domain that somebody added. *)
Definition added (past : list MitmEvent) (host : string) : Prop :=
  ∃ domain, AddHost domain ∈ past ∧ validateDomain domain = Ok () ∧ normalizeHost domain = host.

(** A key that a provider has had. *)
Definition key_seen (past : list MitmEvent) (provider : nat) (key : string) : Prop :=
  ∃ before after, past = before ++ after ∧ key_of (run init before) provider = key.

Definition client_headers (e : MitmEvent) : HttpHeaders :=
  match e with
  | PlainRequest _ _ headers | UpgradeRequest _ headers | Connect _ headers | InnerRequest _ _ _ headers => headers
  | _ => []
  end.

Definition sent_by_client (past : list MitmEvent) (e : string * option HeaderValue) : Prop :=
  ∃ ev, ev ∈ past ∧ e ∈ client_headers ev.

(** Where the requests of a provider go. *)
Definition goes_to (m : ProviderKeyMapping) (path : string) (o : Outbound) : Prop :=
  match pv_upstreamTarget (pm_config m) with
  | Some t =>
      ob_protocol o = (if ut_useTls t then "https:" else "http:") ∧ ob_hostname o = ut_hostname t
      ∧ ob_port o = Some (ut_port t) ∧ ob_path o = (if ut_pathPrefix t =? "" then path else ut_pathPrefix t +:+ path)
  | None =>
      ob_protocol o = "https:" ∧ ob_hostname o = normalizeHost (pv_host (pm_config m)) ∧ ob_trusted o = false
      ∧ ob_path o = path
  end.

Definition passable (past : list MitmEvent) (host : string) : Prop := added past host ∨ wildcard options host = true.

Record connection_ok (past : list MitmEvent) (c : ConnectionMeta) : Prop := {
  co_provider : ∀ i, cm_provider c = Some i → provider_of options (cm_host c) = Some i;
  co_registry : ∀ r, cm_registry c = Some r → registry_of options (cm_host c) = Some r;
  co_passthrough : cm_passthrough c = true → passable past (cm_host c);
  co_origin : ∀ origins, mo_listenerMode options = RegistryEgressMode origins →
    ∃ port, cm_port c = Some port ∧ (cm_host c, port) ∈ origins
}.

(** Whether the key of the provider may replace the client's. *)
Definition keyed (r : ProviderRequest) : bool :=
  kv_swapped (pr_key r) || kv_hadKey (pr_key r) && pm_tokenManager (pr_mapping r).

(** What the client sent in the place of the key: the sentinel, unless tokens are refreshed. *)
Definition key_asked (past : list MitmEvent) (m : ProviderKeyMapping) : Prop :=
  ∃ v, sent_by_client past (key_name (pm_config m), Some v)
    ∧ (pm_tokenManager m = true ∨ v = HOne (key_text (pm_config m) (pm_fakeKey m))).

Definition header_ok (past : list MitmEvent) (r : ProviderRequest) (e : string * option HeaderValue) : Prop :=
  e.1 ∈ PROXY_HEADERS ∨ e ∈ pr_original r
  ∨ ∃ key, key_seen past (pr_provider r) key ∧ keyed r = true ∧ e = key_header (pr_config r) key.

Record request_ok (past : list MitmEvent) (r : ProviderRequest) : Prop := {
  ro_mapping : mo_providers options !! pr_provider r = Some (pr_mapping r);
  ro_host : pr_host r = normalizeHost (pv_host (pr_config r));
  ro_endpoint : isEndpointAllowed (pr_config r) (Some (pr_method r)) (Some (pr_path r)) = true;
  ro_headers : ∀ e, e ∈ pr_headers r → header_ok past r e;
  ro_original : ∀ e, e ∈ pr_original r → sent_by_client past e;
  ro_keyed : keyed r = true → key_asked past (pr_mapping r)
}.

Definition phase_ok (r : ProviderRequest) : Prop :=
  match pr_phase r with
  | AwaitToken => pm_tokenManager (pr_mapping r) = true
  | AwaitDrain _ | AwaitRefresh _ => keyed r = true
  | _ => True
  end.

(** What an outgoing request of a provider carries. *)
Definition provider_contact (past : list MitmEvent) (o : Outbound) : Prop :=
  ∃ i m path,
    mo_providers options !! i = Some m
    ∧ isEndpointAllowed (pm_config m) (Some (ob_method o)) (Some path) = true ∧ goes_to m path o
    ∧ ∀ e, e ∈ ob_headers o → e.1 ∈ PROXY_HEADERS ∨ sent_by_client past e
        ∨ (∃ key, key_seen past i key ∧ e = key_header (pm_config m) key)
          ∧ key_asked past m.

(** A request that is passed through carries what the client sent. *)
Definition passthrough_contact (past : list MitmEvent) (o : Outbound) : Prop :=
  ob_trusted o = false ∧ passable past (ob_hostname o)
  ∧ ∀ e, e ∈ ob_headers o → e.1 ∈ PROXY_HEADERS ∨ sent_by_client past e.

Definition effect_ok (past : list MitmEvent) (ef : Effect) : Prop :=
  match ef with
  | Request o => provider_contact past o ∨ passthrough_contact past o
  | RawTunnel host _ => mo_directTransport options = true ∧ isKnownStaticHost options host = false ∧ passable past host
  | ToRegistry r host _ _ => r ∈ mo_registries options ∧ host ∈ registry_hosts r
  | ToGuard host port _ =>
      ∃ origins p, mo_listenerMode options = RegistryEgressMode origins ∧ port = Some p ∧ (host, p) ∈ origins
  | Answer _ => True
  end.

Record state_ok (past : list MitmEvent) (s : MitmState) : Prop := {
  so_keys : length (mx_keys s) = length (mo_providers options);
  so_added : ∀ h, h ∈ mx_passthroughHosts s → added past h;
  so_connections : ∀ c, c ∈ mx_connections s → connection_ok past c;
  so_requests : ∀ r, r ∈ mx_requests s → request_ok past r ∧ phase_ok r;
  so_log : ∀ ef, ef ∈ mx_log s → effect_ok past ef
}.

(** *** What the past only adds to *)

Lemma added_app past past' h : added past h → added (past ++ past') h.
Proof. intros (d & ? & ?). exists d. split; [set_solver|done]. Qed.

Lemma key_seen_app past past' i k : key_seen past i k → key_seen (past ++ past') i k.
Proof. intros (b & a & -> & ?). exists b, (a ++ past'). by rewrite app_assoc. Qed.

Lemma sent_by_client_app past past' e : sent_by_client past e → sent_by_client (past ++ past') e.
Proof. intros (ev & ? & ?). exists ev. split; [set_solver|done]. Qed.

Lemma key_asked_app past past' m : key_asked past m → key_asked (past ++ past') m.
Proof. intros (v & ? & ?). exists v. split; [by apply sent_by_client_app|done]. Qed.

Lemma passable_app past past' h : passable past h → passable (past ++ past') h.
Proof. intros [?|?]; [left; by apply added_app|by right]. Qed.

Lemma connection_ok_app past past' c : connection_ok past c → connection_ok (past ++ past') c.
Proof. intros []. constructor; try done. intros ?. by apply passable_app; auto. Qed.

Lemma request_ok_app past past' r : request_ok past r → request_ok (past ++ past') r.
Proof.
  intros [? ? ? Hh Ho Hk]. constructor; try done.
  - intros e [?|[?|(k & ? & ?)]]%Hh; [by left|by right; left|].
    right; right. exists k. split; [by apply key_seen_app|done].
  - intros e ?%Ho. by apply sent_by_client_app.
  - intros ?. by apply key_asked_app, Hk.
Qed.

Lemma effect_ok_app past past' ef : effect_ok past ef → effect_ok (past ++ past') ef.
Proof.
  destruct ef as [o|h p|r h p t|h p t|st]; cbn; try done.
  - intros [(i & m & path & ? & ? & ? & He)|(? & ? & He)]; [left|right].
    + exists i, m, path. split_and!; try done. intros e [?|[?|[(k & ? & ?) ?]]]%He; [by left|..].
      * right; left. by apply sent_by_client_app.
      * right; right. split; [exists k|]; eauto using key_seen_app, key_asked_app.
    + split_and!; [done|by apply passable_app|].
      intros e [?|?]%He; [by left|right; by apply sent_by_client_app].
  - intros (? & ? & ?). split_and!; try done. by apply passable_app.
Qed.

(** *** One event *)

Lemma header_get_elem headers name v : header_get headers name = Some v → (name, Some v) ∈ headers.
Proof.
  unfold header_get. destruct (obj_get headers name) as [[w|]|] eqn:E; cbn; intros; simplify_eq.
  by apply obj_get_elem.
Qed.

Lemma forward_outbound_ok past r body : request_ok past r → provider_contact past (forward_outbound r body).
Proof.
  intros [Hm Hhost Hep Hh Ho Hk]. exists (pr_provider r), (pr_mapping r), (pr_path r).
  split_and!; [done|done|..].
  - unfold goes_to, forward_outbound, upstream_of, pr_config in *.
    destruct (pv_upstreamTarget (pm_config (pr_mapping r))); cbn; [done|]. by rewrite Hhost.
  - intros e He.
    assert (e.1 ∈ PROXY_HEADERS ∨ e ∈ pr_headers r) as [?|Hin]; [|by left|].
    { cbn [ob_headers forward_outbound] in He. destruct body; [|by right].
      apply obj_remove_elem, set_header_elem in He as [->|?]; [left; cbn; set_solver|by right]. }
    apply Hh in Hin as [?|[?|(k & ? & Hkey & ->)]]; [by left|right; left; by apply Ho|].
    right; right. split; [by exists k|by apply Hk].
Qed.

Lemma with_phase_ok past p r : request_ok past r → request_ok past (with_phase p r).
Proof. by intros []. Qed.

Lemma after_token_ok past r r' effects :
  request_ok past r → after_token r = (r', effects) →
  (request_ok past r' ∧ phase_ok r') ∧ ∀ ef, ef ∈ effects → effect_ok past ef.
Proof.
  intros Hr. unfold after_token, forwardRequest.
  repeat case_match; intros [= <- <-]; (split; [by split; [apply with_phase_ok|]|]); intros ef Hef;
    try (by apply not_elem_of_nil in Hef); apply list_elem_of_singleton in Hef as ->; [done|].
  left. by apply forward_outbound_ok.
Qed.

Lemma request_ok_rekey past r key :
  key_seen past (pr_provider r) key → keyed r = true → request_ok past r →
  request_ok past (with_headers (injectRealKey (pr_headers r) (pr_config r) key) r).
Proof.
  intros Hseen Hhad [Hm Hhost Hep Hh Ho Hk]. constructor; try done.
  intros e [->|?]%injectRealKey_elem; [|by apply Hh]. right; right. by exists key.
Qed.

Lemma state_ok_app past past' s : state_ok past s → state_ok (past ++ past') s.
Proof.
  intros []. constructor; try done; intros.
  - apply added_app; auto.
  - apply connection_ok_app; auto.
  - destruct (so_requests0 r) as [? ?]; [done|]. by split; [apply request_ok_app|].
  - apply effect_ok_app; auto.
Qed.

Lemma state_ok_log past effects s :
  state_ok past s → (∀ ef, ef ∈ effects → effect_ok past ef) → state_ok past (add_log effects s).
Proof. intros [] He. constructor; try done. cbn. intros ef [?|?]%elem_of_app; auto. Qed.

Lemma state_ok_request past i r s :
  state_ok past s → request_ok past r → phase_ok r → state_ok past (set_request i r s).
Proof.
  intros [] Hr Hp. constructor; try done. cbn. intros r' Hin. apply list_elem_of_lookup in Hin as [j Hj].
  apply list_lookup_insert_Some in Hj as [(_ & <- & _)|[_ Hj]]; [done|]. by eapply so_requests0, list_elem_of_lookup_2.
Qed.

Lemma state_ok_key past i key s : state_ok past s → state_ok past (set_key i key s).
Proof. intros []. constructor; try done. cbn. by rewrite length_insert. Qed.

Lemma request_lookup past s i r : state_ok past s → mx_requests s !! i = Some r → request_ok past r ∧ phase_ok r.
Proof. intros [] Hr. by eapply so_requests0, list_elem_of_lookup_2. Qed.

Lemma key_of_set_key past i key s r :
  state_ok past s → request_ok past r → i = pr_provider r → key_of (set_key i key s) i = key.
Proof.
  intros [Hk _ _ _ _] [Hm _ _ _ _ _] ->. unfold key_of. cbn. rewrite list_lookup_insert_eq; [done|].
  rewrite Hk. by eapply lookup_lt_Some.
Qed.

Lemma may_pass_ok past s hostname : state_ok past s → may_pass options s hostname = true → passable past hostname.
Proof.
  intros [] [_ [Hin|?]%orb_true_iff]%andb_true_iff; [left|by right]. by apply so_added0, includes_spec.
Qed.

Lemma plain_request_ok past method url headers s :
  PlainRequest method url headers ∈ past → state_ok past s →
  effect_ok past (onPlainRequest options method url headers s).
Proof.
  intros Hin Hs. unfold onPlainRequest.
  destruct (consumeProxyAuthorization headers _) as [[] headers'] eqn:Hc; [|done].
  destruct (_ && _); [done|]. destruct (if url =? "" then None else _) as [target|]; [|done]. cbv zeta.
  destruct (registry_of options (pt_hostname target)) as [reg|] eqn:Hreg; [destruct (rg_type reg =? Debian)|].
  { by apply registry_of_Some. }
  all: destruct (may_pass options s (pt_hostname target)) eqn:Hp; [|done].
  all: right; split_and!; [done|by eapply may_pass_ok|].
  all: cbn; intros e [He|He]%fold_headers_elem;
    [apply list_elem_of_singleton in He as ->; left; cbn; set_solver|].
  all: right; eexists; split; [exact Hin|]; by eapply consumeProxyAuthorization_elem.
Qed.

Lemma upgrade_ok past url headers s :
  UpgradeRequest url headers ∈ past → state_ok past s → effect_ok past (onUpgrade options url headers s).
Proof.
  intros Hin Hs. unfold onUpgrade.
  destruct (consumeProxyAuthorization headers _) as [[] headers'] eqn:Hc; [|done].
  destruct (if url =? "" then None else _) as [target|]; [|done].
  destruct (may_pass options s (pt_hostname target)) eqn:Hp; [|done].
  right; split_and!; [done|by eapply may_pass_ok|].
  cbn; intros e [He|He]%fold_headers_elem;
    [apply list_elem_of_singleton in He as ->; left; cbn; set_solver|].
  right; eexists; split; [exact Hin|]; by eapply consumeProxyAuthorization_elem.
Qed.

Lemma normalizeHost_idem h : normalizeHost (normalizeHost h) = normalizeHost h.
Proof. apply toLowerCase_idem. Qed.

Lemma connect_ok past url headers s c effects :
  state_ok past s → onConnect options url headers s = (c, effects) →
  (∀ c', c = Some c' → connection_ok past c') ∧ ∀ ef, ef ∈ effects → effect_ok past ef.
Proof.
  intros Hs. unfold onConnect. assert (Hanswer : ∀ st ef, ef ∈ [Answer st] → effect_ok past ef)
    by (intros st ef Hef; by apply list_elem_of_singleton in Hef as ->).
  destruct (consumeProxyAuthorization headers _) as [[] headers']; [|intros [= <- <-]; split; [done|apply Hanswer]].
  cbv zeta. destruct (match mo_listenerMode options with StandardMode => _ | RegistryEgressMode _ => _ end)
    as [[rawHost port]|]; [|intros [= <- <-]; split; [done|apply Hanswer]].
  set (host := normalizeHost rawHost).
  set (isPassthrough := bool_decide _ && bool_decide _ && (_ || wildcard options host)).
  assert (Hpass : isPassthrough = true → isKnownStaticHost options host = false ∧ passable past host).
  { unfold isPassthrough. intros [[Hp Hr]%andb_true_iff Hh]%andb_true_iff.
    apply bool_decide_eq_true in Hp, Hr. split.
    - unfold isKnownStaticHost, host. rewrite normalizeHost_idem. fold host. by rewrite Hp, Hr.
    - apply orb_true_iff in Hh as [[_ Hh]%andb_true_iff|?]; [left|by right].
      destruct Hs. by apply so_added0, includes_spec. }
  assert (Hmeta : ∀ h : ∀ origins, mo_listenerMode options = RegistryEgressMode origins →
      ∃ p, port = Some p ∧ (host, p) ∈ origins,
    connection_ok past {| cm_provider := provider_of options host; cm_registry := registry_of options host;
      cm_passthrough := isPassthrough; cm_host := host; cm_port := port |}).
  { intros Horigin. constructor; cbn; try done. by intros [_ ?]%Hpass. }
  clearbody isPassthrough. destruct (mo_listenerMode options) as [|origins] eqn:Hmode.
  - destruct (_ && negb isPassthrough); [intros [= <- <-]; split; [done|apply Hanswer]|].
    destruct (isPassthrough && mo_directTransport options) eqn:Ht; intros [= <- <-].
    + apply andb_true_iff in Ht as [Ht Hd]. apply Hpass in Ht as [? ?].
      split; [done|]. intros ef Hef. by apply list_elem_of_singleton in Hef as ->.
    + split; [|apply Hanswer]. intros c' [= <-]. by apply Hmeta.
  - destruct (existsb _ origins) eqn:Ho; intros [= <- <-]; (split; [|apply Hanswer]); [|done].
    intros c' [= <-]. apply Hmeta. intros origins' [= <-].
    apply existsb_exists in Ho as ([oh op] & Hin & [Hoh Hop]%andb_true_iff). cbn in Hoh, Hop. bool_hyps. subst.
    exists op. split; [done|]. by apply list_elem_of_In.
Qed.

Lemma provider_request_ok past c i m method path headers :
  (∃ n, InnerRequest n method path headers ∈ past) → connection_ok past c →
  cm_provider c = Some i → mo_providers options !! i = Some m →
  isEndpointAllowed (pm_config m) (Some method) (Some path) = true →
  ∀ key, key_seen past i key →
  request_ok past (provider_request i m c method path headers key).
Proof.
  intros [n Hin] [Hc _ _ _] Hi Hm Hep key Hkey. unfold provider_request.
  destruct (validateAndSwapApiKey headers m key) as [headers' kv] eqn:Hv.
  apply validateAndSwapApiKey_spec in Hv as (He & Hhad & Hsw).
  apply Hc, provider_of_Some in Hi as (m' & Hm' & Hhost). rewrite Hm in Hm'. injection Hm' as <-.
  assert (Hsent : ∀ e, e ∈ headers → sent_by_client past e) by (intros e ?; by exists (InnerRequest n method path headers)).
  constructor; unfold pr_config; cbn; try done.
  - intros e [->|Hin']%set_header_elem; [left; cbn; set_solver|].
    assert (e.1 ∈ PROXY_HEADERS ∨ e ∈ headers') as [?|Hin2]; [|by left|].
    { destruct (_ && _); [|by right]. apply set_header_elem in Hin' as [->|?]; [left; cbn; set_solver|by right]. }
    destruct (He e Hin2) as [?|[Hswap ->]]; [by right; left|]. right; right. exists key.
    unfold keyed. cbn. by rewrite Hswap.
  - unfold keyed. cbn. intros [Hk|[Hk Ht]%andb_true_iff]%orb_true_iff.
    + eexists; split; [|by right]. by apply Hsent, header_get_elem, Hsw.
    + destruct (Hhad Hk) as [v Hv]. exists v. split; [by apply Hsent, header_get_elem|by left].
Qed.

Lemma inner_ok past c n method path headers s r effects :
  InnerRequest n method path headers ∈ past → connection_ok past c →
  (∀ i, key_seen past i (key_of s i)) →
  onInnerRequest options c method path headers s = (r, effects) →
  (∀ r', r = Some r' → request_ok past r' ∧ phase_ok r') ∧ ∀ ef, ef ∈ effects → effect_ok past ef.
Proof.
  intros Hin Hc Hkey. unfold onInnerRequest.
  assert (Hone : ∀ ef ef', effect_ok past ef' → ef ∈ [ef'] → effect_ok past ef)
    by (intros ef ef' ? Hef; by apply list_elem_of_singleton in Hef as ->).
  destruct (mo_listenerMode options) as [|origins] eqn:Hmode.
  2: { intros [= <- <-]. split; [done|]. intros ef. apply Hone. destruct Hc as [_ _ _ Horig].
       destruct (Horig _ Hmode) as (p & ? & ?). by exists origins, p. }
  destruct (cm_registry c) as [reg|] eqn:Hreg.
  { intros [= <- <-]. split; [done|]. intros ef. apply Hone. by eapply registry_of_Some, co_registry. }
  destruct (cm_passthrough c) eqn:Hpass.
  { intros [= <- <-]. split; [done|]. intros ef. apply Hone. right. split_and!; [done|by eapply co_passthrough|].
    intros e [->|?]%set_header_elem; [left; cbn; set_solver|right; by exists (InnerRequest n method path headers)]. }
  destruct (cm_provider c) as [i|] eqn:Hi; [|intros [= <- <-]; split; [done|intros ef; by apply Hone]].
  destruct (mo_providers options !! i) as [m|] eqn:Hm; [|intros [= <- <-]; split; [done|intros ef; by apply Hone]].
  destruct (isEndpointAllowed _ _ _) eqn:Hep; cbn [negb]; [|intros [= <- <-]; split; [done|intros ef; by apply Hone]].
  assert (Hr : request_ok past (provider_request i m c method path headers (key_of s i)))
    by (eapply provider_request_ok; eauto).
  cbv zeta. destruct (pm_tokenManager m) eqn:Ht.
  { assert (phase_ok (provider_request i m c method path headers (key_of s i)))
      by (unfold provider_request; by destruct (validateAndSwapApiKey _ _ _)).
    intros [= <- <-]. split; [by intros r' [= <-]|]. by intros ef ?%not_elem_of_nil. }
  destruct (after_token _) as [r1 ef1] eqn:Ha. intros [= <- <-].
  apply after_token_ok with (past := past) in Ha as [[? ?] ?]; [|done]. split; [by intros r' [= <-]|done].
Qed.

(** The keys that a run has gone through. *)
Lemma key_seen_now past i : key_seen past i (key_of (run init past) i).
Proof. exists past, []. by rewrite app_nil_r. Qed.

Lemma token_ok past i r token s :
  state_ok past s → request_ok past r → pm_tokenManager (pr_mapping r) = true →
  (∀ fresh, token = Some fresh → fresh ≠ key_of s (pr_provider r) → key_seen past (pr_provider r) fresh) →
  state_ok past (onToken i r token s).
Proof.
  intros Hs Hr Hp Hseen. unfold onToken.
  destruct (match token with Some _ => _ | None => _ end) as [r1 s1] eqn:Heq.
  assert (request_ok past r1 ∧ state_ok past s1) as [Hr1 Hs1].
  { destruct token as [fresh|]; [|by simplify_eq]. destruct (bool_decide (fresh = _)) eqn:Hf; simplify_eq; [done|].
    bool_hyps. split; [|by apply state_ok_key].
    destruct (kv_hadKey (pr_key r)) eqn:Hhad; [|done]. apply request_ok_rekey; [by auto| |done].
    unfold keyed. by rewrite Hhad, Hp, orb_true_r. }
  destruct (after_token r1) as [r2 effects] eqn:Ha.
  apply after_token_ok with (past := past) in Ha as [[? ?] ?]; [|done].
  apply state_ok_log; [by apply state_ok_request|done].
Qed.

Lemma over_ok past i r st s :
  state_ok past s → request_ok past r → state_ok past (add_log [Answer st] (set_request i (with_phase RequestOver r) s)).
Proof.
  intros Hs Hr. apply state_ok_log; [apply state_ok_request; [done|by apply with_phase_ok|done]|].
  intros ef Hef. by apply list_elem_of_singleton in Hef as ->.
Qed.

Lemma forward_ok past i r body isRetry s :
  state_ok past s → request_ok past r →
  state_ok past (let '(r, effects) := forwardRequest r body isRetry in add_log effects (set_request i r s)).
Proof.
  intros Hs Hr. cbn. apply state_ok_log; [apply state_ok_request; [done|by apply with_phase_ok|done]|].
  intros ef Hef. apply list_elem_of_singleton in Hef as ->. left. by apply forward_outbound_ok.
Qed.

Lemma refreshed_ok past i r body token s :
  state_ok past s → request_ok past r → keyed r = true →
  (∀ fresh, token = Some fresh → fresh ≠ "" → key_seen past (pr_provider r) fresh) →
  state_ok past (onRefreshed i r body token s).
Proof.
  intros Hs Hr Hhad Hseen. unfold onRefreshed. destruct token as [fresh|]; [|by apply over_ok].
  destruct (bool_decide (fresh = "")) eqn:Hf; [by apply over_ok|]. bool_hyps.
  apply forward_ok; [by apply state_ok_key|]. apply request_ok_rekey; auto.
Qed.

Lemma status_ok past i r body isRetry status s :
  state_ok past s → request_ok past r → state_ok past (onStatus i r body isRetry status s).
Proof.
  intros Hs Hr. unfold onStatus. destruct body as [body|]; [|by apply state_ok_request; [|apply with_phase_ok|]].
  destruct (_ && _ && _) eqn:E; apply state_ok_request; try done; try by apply with_phase_ok.
  apply andb_true_iff in E as [[_ E]%andb_true_iff _]. apply andb_true_iff in E as [E _].
  unfold phase_ok, keyed. cbn. by rewrite E.
Qed.

Lemma body_ok past i r body s :
  state_ok past s → request_ok past r → state_ok past (onBody options i r body s).
Proof.
  intros Hs Hr. unfold onBody. destruct body as [raw|]; [|by apply over_ok].
  case_match; [by apply over_ok|by apply forward_ok].
Qed.

(** A key that an event stores is seen afterwards. *)
Lemma key_seen_stored past e i fresh :
  i < length (mx_keys (run init past)) →
  mx_keys (mitm_step options (run init past) e) = <[i := fresh]> (mx_keys (run init past)) → key_seen (past ++ [e]) i fresh.
Proof.
  intros Hi Hk. exists (past ++ [e]), []. split; [by rewrite app_nil_r|].
  unfold key_of, mitm_run. rewrite foldl_app. cbn. fold (mitm_run options). by rewrite Hk, list_lookup_insert_eq.
Qed.

Lemma request_in_keys past s r : state_ok past s → request_ok past r → pr_provider r < length (mx_keys s).
Proof. intros [-> _ _ _ _] Hr. eapply lookup_lt_Some, ro_mapping, Hr. Qed.

Lemma onToken_keys i r fresh s :
  fresh ≠ key_of s (pr_provider r) →
  mx_keys (onToken i r (Some fresh) s) = <[pr_provider r := fresh]> (mx_keys s).
Proof. intros Hf. unfold onToken. rewrite bool_decide_eq_false_2 by done. by destruct (after_token _). Qed.

Lemma mitm_step_ok past e :
  state_ok past (run init past) → state_ok (past ++ [e]) (mitm_step options (run init past) e).
Proof.
  intros Hs0. pose proof (state_ok_app past [e] _ Hs0) as Hs.
  assert (Hkeys : ∀ i, key_seen (past ++ [e]) i (key_of (run init past) i)) by (intros; apply key_seen_app, key_seen_now).
  assert (Hin : e ∈ past ++ [e]) by (apply elem_of_app; right; left).
  set (s := run init past) in *.
  destruct e as [d|d|method url headers|url headers|url headers|n method path headers|i token|i body|i st|i|i|i token]; cbn.
  - unfold addHost. destruct (validateDomain d) as [[]|] eqn:Hd; [|done]. repeat case_match; try done. cbn.
    destruct Hs. constructor; try done. cbn. intros h [?|?%list_elem_of_singleton]%elem_of_app; [auto|subst; by exists d].
  - destruct Hs. constructor; try done. cbn. intros h [_ ?]%list_elem_of_filter. auto.
  - apply state_ok_log; [done|]. intros ef Hef. apply list_elem_of_singleton in Hef as ->. by apply plain_request_ok.
  - apply state_ok_log; [done|]. intros ef Hef. apply list_elem_of_singleton in Hef as ->. by apply upgrade_ok.
  - destruct (onConnect options url headers s) as [c effects] eqn:Hc.
    apply connect_ok with (past := past ++ [Connect url headers]) in Hc as [Hc ?]; [|done]. apply state_ok_log; [|done].
    destruct Hs. constructor; try done. cbn. intros c' [?|Hc']%elem_of_app; [auto|].
    destruct c; cbn in Hc'; [apply list_elem_of_singleton in Hc' as ->; auto|by apply not_elem_of_nil in Hc'].
  - destruct (mx_connections s !! n) as [c|] eqn:Hlook; [|done].
    assert (connection_ok (past ++ [InnerRequest n method path headers]) c)
      by (eapply so_connections, list_elem_of_lookup_2; eauto).
    destruct (onInnerRequest options c method path headers s) as [r effects] eqn:Hr.
    eapply inner_ok in Hr as [Hr ?]; [|done..]. apply state_ok_log; [|done].
    destruct Hs. constructor; try done. cbn. intros r' [?|Hr']%elem_of_app; [auto|].
    destruct r; cbn in Hr'; [apply list_elem_of_singleton in Hr' as ->; auto|by apply not_elem_of_nil in Hr'].
  - destruct (mx_requests s !! i) as [r|] eqn:Hr; [|done]. pose proof (request_lookup _ _ _ _ Hs Hr) as [Hok Hph].
    destruct (pr_phase r) eqn:Hp; try done. unfold phase_ok in Hph. rewrite Hp in Hph. apply token_ok; [done..|].
    intros fresh -> Hf. apply key_seen_stored; [by eapply request_in_keys|]. cbn. fold s. rewrite Hr, Hp.
    by apply onToken_keys.
  - destruct (mx_requests s !! i) as [r|] eqn:Hr; [|done]. pose proof (request_lookup _ _ _ _ Hs Hr) as [Hok Hph].
    destruct (pr_phase r); try done. by apply body_ok.
  - destruct (mx_requests s !! i) as [r|] eqn:Hr; [|done]. pose proof (request_lookup _ _ _ _ Hs Hr) as [Hok Hph].
    destruct (pr_phase r); try done. by apply status_ok.
  - destruct (mx_requests s !! i) as [r|] eqn:Hr; [|done]. pose proof (request_lookup _ _ _ _ Hs Hr) as [Hok Hph].
    destruct (pr_phase r); try done; by apply over_ok.
  - destruct (mx_requests s !! i) as [r|] eqn:Hr; [|done]. pose proof (request_lookup _ _ _ _ Hs Hr) as [Hok Hph].
    destruct (pr_phase r) eqn:Hp; try done. unfold phase_ok in Hph. rewrite Hp in Hph.
    apply state_ok_request; [done|by apply with_phase_ok|done].
  - destruct (mx_requests s !! i) as [r|] eqn:Hr; [|done]. pose proof (request_lookup _ _ _ _ Hs Hr) as [Hok Hph].
    destruct (pr_phase r) as [| | | |body|] eqn:Hp; try done.
    unfold phase_ok in Hph. rewrite Hp in Hph. apply refreshed_ok; [done..|].
    intros fresh -> Hf. apply key_seen_stored; [by eapply request_in_keys|]. cbn. fold s. rewrite Hr, Hp.
    unfold onRefreshed. by rewrite bool_decide_eq_false_2.
Qed.

Lemma mitm_run_ok past : state_ok past (run init past).
Proof.
  induction past as [|e past IH] using rev_ind.
  - constructor; cbn; [by rewrite length_fmap|..]; by intros ? ?%not_elem_of_nil.
  - unfold mitm_run. rewrite foldl_app. by apply mitm_step_ok.
Qed.
End invariant.

(** ** What the proxy does *)

Record DemoUrl := { dm_host : string; dm_path : string }.

(** Addresses of the form [http://host/path]. *)
Definition demo_url_parse (s : string) : option DemoUrl :=
  rest ← strip_prefix "http://" s;
  let '(host, path) := str_span (λ a, negb (a =? UriText.slash)) rest in
  Some {| dm_host := toLowerCase host; dm_path := path |}.

#[local] Instance demo_web_url : WebUrl :=
  {| weburl := DemoUrl; parse_url := demo_url_parse; resolve_url := λ _ _, None; wu_protocol := λ _, "http:";
     wu_username := λ _, ""; wu_password := λ _, ""; wu_hostname := dm_host; wu_port := λ _, "";
     wu_pathname := dm_path; wu_search := λ _, ""; wu_hash := λ _, "" |}.

#[local] Instance demo_runtime : Runtime :=
  {| sha256_hex := λ s, s; number_to_string := λ _, "0"; json_parse := λ _, None; json_stringify := λ _, "";
     date_parse := λ _, None |}.

Definition demo_mapping (provider : ProviderConfig) (tokenManager : bool) : ProviderKeyMapping :=
  {| pm_config := provider; pm_fakeKey := "fake"; pm_realKey := "real"; pm_tokenManager := tokenManager |}.

Definition demo_options (m : ProviderKeyMapping) : MitmProxyOptions :=
  {| mo_providers := [m]; mo_registries := [npmRegistry]; mo_listenerMode := StandardMode; mo_allowAllHosts := false;
     mo_directTransport := true; mo_requiredProxyAuthorization := None; mo_agentKind := Some Batch |}.

Definition demo_hello (key : string) : HttpHeaders := [("host", Some (HOne "x")); ("x-api-key", Some (HOne key))].

Definition demo_traffic : list MitmEvent :=
  [AddHost "docs.rs"; Connect "API.anthropic.com:443" []; InnerRequest 0 "GET" "/api/hello" (demo_hello "fake");
   PlainRequest "GET" "http://docs.rs/a" [("host", Some (HOne "docs.rs"))]].

Definition demo_hello_out : Outbound :=
  {| ob_protocol := "https:"; ob_hostname := "api.anthropic.com"; ob_port := Some 443%Z; ob_trusted := false;
     ob_method := "GET"; ob_path := "/api/hello";
     ob_headers := [("host", Some (HOne "api.anthropic.com")); ("x-api-key", Some (HOne "real"))]; ob_body := None |}.

Definition demo_plain := demo_options (demo_mapping anthropicProvider false).

Example demo_traffic_log :
  mx_log (mitm_run demo_plain (mitm_init demo_plain) demo_traffic) !! 1 = Some (Request demo_hello_out).
Proof. vm_compute. reflexivity. Qed.

(** Where an effect of the proxy may go. *)
Definition listed (options : MitmProxyOptions) (past : list MitmEvent) (ef : Effect) : Prop :=
  match ef with
  | Request o =>
      (∃ m path, m ∈ mo_providers options
         ∧ isEndpointAllowed (pm_config m) (Some (ob_method o)) (Some path) = true ∧ goes_to m path o)
      ∨ ob_trusted o = false ∧ passable options past (ob_hostname o)
  | RawTunnel host _ =>
      mo_directTransport options = true ∧ isKnownStaticHost options host = false ∧ passable options past host
  | ToRegistry registry host _ _ => registry ∈ mo_registries options ∧ host ∈ registry_hosts registry
  | ToGuard host port _ =>
      ∃ origins p, mo_listenerMode options = RegistryEgressMode origins ∧ port = Some p ∧ (host, p) ∈ origins
  | Answer _ => True
  end.





(** The descriptors of a provider that are accepted name one completion at most: whatever
    the method and path, the descriptor of a request is found without an error, it is the
    only one that matches, and what it matches is allowed by the list of endpoints. *)
Theorem completion_endpoints_sound endpoints allowed method path :
  validateCompletionEndpoints endpoints allowed = Ok () →
  ∃ found,
    resolveCompletionEndpoint endpoints method path = Ok found
    ∧ (∀ e, found = Some e ↔ e ∈ endpoints ∧ matchesEndpointPattern (ce_pattern e) method path = true)
    ∧ (is_Some found → matchesEndpoint allowed method path = true).
Proof.
  unfold validateCompletionEndpoints. intros ([] & Hsub & Hover)%result_bind_ok.
  pose proof (check_overlaps_unique endpoints method path Hover) as Hlen. unfold resolveCompletionEndpoint. cbv zeta.
  set (matching := filter (λ e, matchesEndpointPattern (ce_pattern e) method path = true) endpoints) in *.
  assert (Hmem : ∀ e, e ∈ matching ↔ e ∈ endpoints ∧ matchesEndpointPattern (ce_pattern e) method path = true)
    by (intros e; unfold matching; rewrite list_elem_of_filter; tauto).
  clearbody matching. rewrite (proj2 (Nat.ltb_ge 1 (length matching)) Hlen).
  destruct matching as [|e0 [|]]; [| |cbn in Hlen; lia].
  - exists None. split_and!; [done| |by intros []]. intros e. rewrite <-Hmem. split; [done|by intros ?%not_elem_of_nil].
  - exists (Some e0). split_and!; [done| |].
    + intros e. rewrite <-Hmem, list_elem_of_singleton. naive_solver.
    + intros _. assert (e0 ∈ [e0]) as [Hin Hm]%Hmem by left.
      destruct (check_subset_covered _ _ _ Hsub Hin) as (a & Ha & Hcov).
      apply existsb_exists_elem. exists a. split; [done|]. by eapply covers_matches.
Qed.

Lemma completion_endpoints_sound_witness :
  ∃ found,
    resolveCompletionEndpoint (pv_completionEndpoints googleProvider) (Some "post")
      (Some "/v1beta/models/g:generateContent?alt=sse") = Ok found
    ∧ (∀ e, found = Some e ↔ e ∈ pv_completionEndpoints googleProvider
         ∧ matchesEndpointPattern (ce_pattern e) (Some "post") (Some "/v1beta/models/g:generateContent?alt=sse") = true)
    ∧ (is_Some found → matchesEndpoint (pv_allowedEndpoints googleProvider) (Some "post")
         (Some "/v1beta/models/g:generateContent?alt=sse") = true).
Proof. apply completion_endpoints_sound. vm_compute. reflexivity. Defined.

Definition tool_kept (agentKind : option AgentKind) (tool : jsvalue) : Prop :=
  server_side_label tool = None ∧ (unattended agentKind → schedule_label tool = None).
#[local] Instance tool_kept_dec agentKind tool : Decision (tool_kept agentKind tool).
Proof. unfold tool_kept, unattended. solve_decision. Defined.

(** What the rewriting of a completion leaves: the tools are the ones sent, in their
    order, less those that run on the server and, without a user at the terminal, less the
    ones that schedule; then no result of a tool in the messages refers to one of these
    either; and nothing else of the body changes. *)
Theorem rewriter_strips_tools agentKind body :
  let out := anthropic_body agentKind body in
  (∀ k, k ≠ "tools" → k ≠ "messages" ∨ ¬ unattended agentKind → obj_get out k = obj_get body k)
  ∧ (∀ tools, get_value out "tools" = VArr tools →
       ∃ sent, get_value body "tools" = VArr sent ∧ tools = filter (tool_kept agentKind) sent)
  ∧ (unattended agentKind → ∀ entry, body_entry out entry → ¬ schedule_reference entry).
Proof.
  cbv zeta. rewrite anthropic_body_eq. cbv zeta.
  destruct (stripToolsBy_spec server_side_label body) as [K1 T1]. fold stripServerSideTools in K1, T1.
  set (b1 := stripped_by stripServerSideTools body) in *. case_bool_decide as Hun.
  - destruct (stripToolsBy_spec schedule_label b1) as [K2 T2]. fold stripScheduleSkillTools in K2, T2.
    set (b2 := stripped_by stripScheduleSkillTools b1) in *. destruct (references_spec b2) as [K3 R3].
    split_and!; [| |by intros _].
    + intros k ? [?|?]; [|done]. by rewrite K3, K2, K1.
    + intros tools. unfold get_value at 1. rewrite K3 by done. intros (l1 & Hl1 & ->)%T2.
      apply T1 in Hl1 as (l0 & Hl0 & ->). exists l0. split; [done|]. rewrite list_filter_filter.
      apply list_filter_ext_elem. intros tool _. unfold tool_kept. naive_solver.
  - split_and!; [intros k ? _; by apply K1| |done].
    intros tools (l0 & Hl0 & ->)%T1. exists l0. split; [done|].
    apply list_filter_ext_elem. intros tool _. unfold tool_kept. naive_solver.
Qed.

(** C27. What a token does when it arrives.  It becomes the key of its provider.  If the
    stored key differs from it and the request carried any credential in the key header,
    the sentinel or not, the credential is replaced by the token; if another request has
    already stored the same token, the request keeps the header it has, with the key of
    before. *)
Theorem token_replaces_credential `{WebUrl} `{Runtime} options events i r fresh :
  let s := mitm_run options (mitm_init options) events in
  let s' := mitm_step options s (TokenReady i (Some fresh)) in
  mx_requests s !! i = Some r → pr_phase r = AwaitToken →
  ∃ r',
    mx_requests s' !! i = Some r' ∧ key_of s' (pr_provider r) = fresh
    ∧ pr_headers r' =
        (if bool_decide (fresh ≠ key_of s (pr_provider r)) && kv_hadKey (pr_key r)
         then obj_set (pr_headers r) (key_name (pr_config r)) (Some (HOne (key_text (pr_config r) fresh)))
         else pr_headers r).
Proof.
  cbv zeta. set (s := mitm_run options (mitm_init options) events). intros Hr Hp.
  pose proof (mitm_run_ok options events) as Hs. fold s in Hs.
  destruct (request_lookup _ _ _ _ _ Hs Hr) as [Hok _].
  assert (Hlt : i < length (mx_requests s)) by (by eapply lookup_lt_Some).
  assert (Hafter : ∀ q, pr_headers (after_token q).1 = pr_headers q)
    by (intros q; unfold after_token; by repeat case_match).
  cbn [mitm_step]. rewrite Hr, Hp. unfold onToken. case_bool_decide as Hf.
  - rewrite bool_decide_eq_false_2 by (by intros ?). specialize (Hafter r).
    destruct (after_token r) as [r1 ef]. exists r1. split_and!; [|done|done].
    by apply list_lookup_insert_eq.
  - rewrite bool_decide_eq_true_2 by done. cbn [andb].
    set (r0 := if kv_hadKey (pr_key r) then _ else r). specialize (Hafter r0).
    destruct (after_token r0) as [r1 ef]. exists r1. split_and!; [by apply list_lookup_insert_eq| |].
    + by apply (key_of_set_key options events _ _ s r).
    + cbn in Hafter. rewrite Hafter. unfold r0. destruct (kv_hadKey (pr_key r)); [|done].
      cbn. unfold injectRealKey, key_name, key_text, set_header. by destruct (pv_keyInjection _).
Qed.

(** The agent's own credential, at a provider whose tokens are refreshed. *)
Definition demo_oauth := demo_options (demo_mapping anthropicOAuthProvider true).
Definition demo_own : HttpHeaders := [("host", Some (HOne "x")); ("authorization", Some (HOne "Bearer mine"))].
Definition demo_own_events : list MitmEvent :=
  [Connect "api.anthropic.com:443" []; InnerRequest 0 "GET" "/api/oauth/usage" demo_own].
Definition demo_own_request : ProviderRequest :=
  provider_request 0 (demo_mapping anthropicOAuthProvider true)
    {| cm_provider := Some 0; cm_registry := None; cm_passthrough := false; cm_host := "api.anthropic.com";
       cm_port := Some 443%Z |} "GET" "/api/oauth/usage" demo_own "real".

Lemma token_replaces_credential_witness :
  let s := mitm_run demo_oauth (mitm_init demo_oauth) demo_own_events in
  let s' := mitm_step demo_oauth s (TokenReady 0 (Some "new")) in
  kv_swapped (pr_key demo_own_request) = false ∧
  ∃ r', mx_requests s' !! 0 = Some r' ∧ key_of s' 0 = "new"
    ∧ header_get (pr_headers r') "authorization" = Some (HOne "Bearer new").
Proof.
  cbv zeta. split; [reflexivity|].
  destruct (token_replaces_credential demo_oauth demo_own_events 0 demo_own_request "new") as (r' & Hr & Hk & Hh);
    [reflexivity..|].
  exists r'. split; [exact Hr|]. split; [exact Hk|]. rewrite Hh. reflexivity.
Defined.
