(* ===== verification/PackageEgress.v ===== *)
(** * The package-egress listener

    Models docker/package-egress-proxy.ts: the routes it recognises, the redirects it hands
    on, the decisions of the package policy and their audit, and the listener itself.  The
    listener is a state machine over the ledger of [EgressLedger] and the address policy of
    [EgressAddress]; between two events runs what the source runs between two awaits.  Not
    modelled: TLS records, the socket file of the listener and the idle timers, which close
    a client as [ClientCloses] does. *)

From Stdlib Require Import Ascii ZArith QArith Qcanon.
From stdpp Require Import gmap.
From S2P Require Import Prelude Numbers JsValue Paths Urls Hashing Regex EgressAddress EgressLedger UriText.
From S2P Require Import PackageNames PackageRegistry MitmProxy.

Local Open Scope Z_scope.
Local Open Scope curtain_scope.

(** ** Routes *)

Inductive PackageEgressRouteKind := Metadata | Artifact | Bootstrap.
#[export] Instance PackageEgressRouteKind_eq_dec : EqDecision PackageEgressRouteKind.
Proof. solve_decision. Defined.

Record PackageEgressRoute := {
  er_ecosystem : RegistryType;
  er_host : string;
  er_path : string;
  er_kind : PackageEgressRouteKind;
  er_package : option PackageIdentity
}.

Definition HOST_ECOSYSTEM : object RegistryType :=
  [("registry.npmjs.org", Npm); ("pypi.org", Pypi); ("files.pythonhosted.org", Pypi); ("deb.debian.org", Debian);
   ("security.debian.org", Debian); ("index.crates.io", Cargo); ("static.crates.io", Cargo); ("crates.io", Cargo)].

(** [[a-z0-9](?:[a-z0-9._~-]{0,212}[a-z0-9])?] *)
Definition NPM_NAME : regex :=
  Cat (Chr is_lower_digit) (Opt (Cat (up_to 212 (or_in is_lower_digit "._~-")) (Chr is_lower_digit))).

Definition one_of_lits (l : list string) : regex := foldr (λ s r, Alt (lit s) r) Void l.

Definition NPM_METADATA : regex :=
  Cat (lit "/") (Alt NPM_NAME (Cat (lit "@") (Cat NPM_NAME (Cat (one_of_lits ["/"; "%2f"; "%2F"]) NPM_NAME)))).

Definition NPM_TARBALL : regex :=
  Cat (lit "/") (Cat (Alt NPM_NAME (Cat (lit "@") (Cat NPM_NAME (Cat (lit "/") NPM_NAME))))
    (Cat (lit "/-/") (Cat NPM_NAME (Cat (lit "-") (Cat (Plus (or_in is_letter_digit ".+_~-")) (lit ".tgz")))))).

Definition is_hex_char (a : ascii) : bool := is_digit a || in_range 97 102 a.

Definition PYPI_ARTIFACT : regex :=
  let hex2 := Cat (Chr is_hex_char) (Chr is_hex_char) in
  Cat (lit "/packages/") (Cat hex2 (Cat (lit "/") (Cat hex2 (Cat (lit "/")
    (Cat (Cat (times 16 (Chr is_hex_char)) (up_to 112 (Chr is_hex_char)))
      (Cat (lit "/") (Cat (Chr is_letter_digit)
        (Cat (or_in is_letter_digit "._+~-") (up_to 510 (or_in is_letter_digit "._+~-")))))))))).

Definition DEBIAN_COMPONENT : regex := one_of_lits ["main"; "contrib"; "non-free"; "non-free-firmware"].
Definition DEBIAN_SAFE_SEGMENT : regex := Cat (Chr is_letter_digit) (Star (or_in is_letter_digit ".+~_:@%-")).
Definition debian_segment : regex := Cat (lit "/") DEBIAN_SAFE_SEGMENT.

Definition DEBIAN_ARTIFACT : regex :=
  Cat (lit "/") (Cat (Cat (one_of_lits ["debian/pool/"; "debian-security/pool/updates/"]) DEBIAN_COMPONENT)
    (Cat (Plus debian_segment) (lit ".deb"))).

Definition debian_dists : regex :=
  Cat (lit "/") (Cat (one_of_lits ["debian"; "debian-security"]) (Cat (lit "/dists") debian_segment)).

Definition DEBIAN_RELEASE : regex := Cat debian_dists (one_of_lits ["/InRelease"; "/Release"; "/Release.gpg"]).

Definition DEBIAN_INDEX : regex :=
  Cat debian_dists (Cat (Star debian_segment) (Cat (lit "/")
    (Cat (Alt (one_of_lits ["Packages"; "Sources"])
            (Cat (lit "Translation-") (Plus (or_in is_letter_digit "._-"))))
      (Opt (one_of_lits [".gz"; ".xz"; ".bz2"; ".lz4"; ".zst"]))))).

Definition DEBIAN_BY_HASH : regex :=
  Cat debian_dists (Cat (Star debian_segment) (Cat (lit "/by-hash/") (Cat (one_of_lits ["SHA256/"; "SHA512/"])
    (Cat (times 64 (Chr is_hex_char)) (up_to 64 (Chr is_hex_char)))))).

Definition percent : ascii := "%"%char.

Fixpoint hasMalformedPercentEncoding (value : string) : bool :=
  match value with
  | "" => false
  | String a rest =>
      if a =? percent then
        match rest with
        | String h (String l rest') =>
            if is_hex_char (ascii_lower h) && is_hex_char (ascii_lower l) then hasMalformedPercentEncoding rest' else true
        | _ => true
        end
      else hasMalformedPercentEncoding rest
  end.

Definition is_control_char (a : ascii) : bool := (nat_of_ascii a <=? 31)%nat || (nat_of_ascii a =? 127)%nat.
Definition containsControlCharacter (value : string) : bool := negb (str_forallb (λ a, negb (is_control_char a)) value).

Definition isStrictOriginPath (path : string) (maxTargetBytes : Z) : bool :=
  startsWith path "/" && (Z.of_nat (String.length path) <=? maxTargetBytes)
  && negb (str_includes path "?") && negb (str_includes path "#") && negb (str_includes path "\")
  && negb (str_includes path "//") && negb (hasMalformedPercentEncoding path) && negb (containsControlCharacter path).

(** The scan for percent signs, from [index] on. *)
Fixpoint encoding_outside_version (versionStart versionEnd index : nat) (s : string) : bool :=
  match s with
  | "" => false
  | String a rest =>
      if negb (a =? percent) then encoding_outside_version versionStart versionEnd (S index) rest
      else if (index <? versionStart)%nat || (versionEnd <? index + 3)%nat then true
      else if negb (includes ["%2b"; "%7e"; "%3a"] (str_take 3 s)) then true
      else match rest with
      | String _ (String _ rest') => encoding_outside_version versionStart versionEnd (index + 3) rest'
      | _ => false
      end
  end.

Definition hasNonCanonicalDebianArtifactEncoding (path : string) : bool :=
  let filename := last_segment path in
  let filenameStart := (String.length path - String.length filename)%nat in
  match str_indexOf filename "_", split_last "_"%char filename with
  | Some firstUnderscore, Some (before, _) =>
      let lastUnderscore := String.length before in
      if (firstUnderscore <? 1)%nat || (lastUnderscore <=? firstUnderscore)%nat then true
      else
        let version := str_drop (S firstUnderscore) before in
        if negb (str_forallb (λ a, negb (includes (chars "+~:") a)) version) then true
        else encoding_outside_version (filenameStart + firstUnderscore + 1) (filenameStart + lastUnderscore) 0 path
  | _, _ => true
  end.

Definition new_route (ecosystem : RegistryType) (host path : string) (kind : PackageEgressRouteKind)
    (package : option PackageIdentity) : PackageEgressRoute :=
  {| er_ecosystem := ecosystem; er_host := host; er_path := path; er_kind := kind; er_package := package |}.

Definition classifyPackageEgressRoute (host path : string) (maxTargetBytes : Z) : option PackageEgressRoute :=
  match obj_get HOST_ECOSYSTEM host with
  | None => None
  | Some ecosystem =>
      if negb (isStrictOriginPath path maxTargetBytes) then None
      else
        let route kind package := Some (new_route ecosystem host path kind package) in
        match ecosystem with
        | Npm =>
            if negb (host =? "registry.npmjs.org") then None
            else match parseNpmUrl path with
            | None => None
            | Some parsed =>
                match pk_version parsed with
                | None => if matches NPM_METADATA path then route Metadata (Some parsed) else None
                | Some _ => if matches NPM_TARBALL path then route Artifact (Some parsed) else None
                end
            end
        | Pypi =>
            if host =? "pypi.org" then
              match parsePypiSimpleUrl path with Some parsed => route Metadata (Some parsed) | None => None end
            else if (host =? "files.pythonhosted.org") && matches PYPI_ARTIFACT path then
              match parsePypiTarballUrl path with
              | Some parsed => match pk_version parsed with Some _ => route Artifact (Some parsed) | None => None end
              | None => None
              end
            else None
        | Debian =>
            let allowedPrefix :=
              startsWith path "/debian-security/" || (host =? "deb.debian.org") && startsWith path "/debian/" in
            if negb allowedPrefix then None
            else if matches DEBIAN_ARTIFACT path then
              if hasNonCanonicalDebianArtifactEncoding path then None
              else match parseDebianPackageUrl path with Some parsed => route Artifact (Some parsed) | None => None end
            else if str_includes path "%" then None
            else if matches DEBIAN_RELEASE path || matches DEBIAN_INDEX path || matches DEBIAN_BY_HASH path
            then route Metadata None else None
        | Cargo =>
            if host =? "index.crates.io" then
              if path =? "/config.json" then route Bootstrap None
              else match parseCargoSparseIndexUrl path with Some parsed => route Metadata (Some parsed) | None => None end
            else match parseCargoDownloadUrl path with
            | None => None
            | Some parsed =>
                match pk_version parsed with
                | None => None
                | Some _ =>
                    if (host =? "static.crates.io") && negb (startsWith path "/crates/") then None
                    else if (host =? "crates.io") && negb (startsWith path "/api/v1/crates/") then None
                    else route Artifact (Some parsed)
                end
            end
        end
  end.

(** ** Errors and texts *)

(** [PackageEgressError], or another error, which answers with 502. *)
Record EgressError := { ee_status : Z; ee_message : string }.
Definition egress_error (status : Z) (message : string) : EgressError := {| ee_status := status; ee_message := message |}.

Inductive egress (A : Type) := Good (a : A) | Bad (e : EgressError).
Arguments Good {A} a.
Arguments Bad {A} e.

Definition egress_bind {A B} (m : egress A) (f : A → egress B) : egress B :=
  match m with Good a => f a | Bad e => Bad e end.

(** An exception that is not a [PackageEgressError]. *)
Definition plain {A} (r : result A) : egress A := match r with Ok a => Good a | Throw m => Bad (egress_error 502 m) end.

Definition refuse_if (b : bool) (status : Z) (message : string) : egress () :=
  if b then Bad (egress_error status message) else Good ().

Definition MAX_AUDIT_REASON_CHARACTERS : nat := 256.

Definition boundedAuditReason (reason : string) : string :=
  of_chars ((λ a, if is_control_char a then " "%char else a) <$> take MAX_AUDIT_REASON_CHARACTERS (chars reason)).

(** ** Metadata of a version *)

Definition derivedMetadataRoute (pkg : PackageIdentity) : egress PackageEgressRoute :=
  match pk_registry pkg with
  | Npm =>
      Good (new_route Npm "registry.npmjs.org"
              (match pk_scope pkg with
               | None => "/" +:+ pk_name pkg
               | Some scope => "/@" +:+ scope +:+ "%2f" +:+ pk_name pkg
               end) Metadata (Some pkg))
  | Pypi => Good (new_route Pypi "pypi.org" ("/pypi/" +:+ pk_name pkg +:+ "/json") Metadata (Some pkg))
  | Cargo => Good (new_route Cargo "index.crates.io" ("/" +:+ cargoSparseIndexPath (pk_name pkg)) Metadata (Some pkg))
  | Debian => Bad (egress_error 500 "Debian package policy does not use derived metadata")
  end.

Section timestamps.
Context `{Runtime}.

Definition asRecord (value : jsvalue) : option (object jsvalue) := match value with VObj o => Some o | _ => None end.

Definition parseJsonRecord (text label : string) : egress (object jsvalue) :=
  match json_parse text with
  | None => Bad (egress_error 502 (label +:+ " is not valid JSON"))
  | Some value =>
      match asRecord value with
      | None => Bad (egress_error 502 (label +:+ " is not a JSON object"))
      | Some record => Good record
      end
  end.

Definition parseOptionalTimestamp (value : jsvalue) : option Z :=
  match value with VStr s => date_parse s | _ => None end.

(** The lines of a sparse index; the result is whether the version was found, and its time. *)
Fixpoint cargo_timestamp (version : string) (found : option (option Z)) (lines : list string) :
    egress (option (option Z)) :=
  match lines with
  | [] => Good found
  | rawLine :: lines =>
      let line := str_trim rawLine in
      if line =? "" then cargo_timestamp version found lines
      else egress_bind (parseJsonRecord line "Cargo sparse-index line") (λ entry,
        if negb (is_str (get_value entry "vers") version) then cargo_timestamp version found lines
        else match found with
        | Some _ => Bad (egress_error 502 "package metadata repeated the requested Cargo version")
        | None => cargo_timestamp version (Some (parseOptionalTimestamp (get_value entry "pubtime"))) lines
        end)
  end.

Definition file_timestamp (file : jsvalue) : option Z :=
  match asRecord file with
  | Some record => parseOptionalTimestamp (get_value record "upload_time_iso_8601")
  | None => None
  end.

Definition earliest_timestamp (files : list jsvalue) : option Z :=
  foldl (λ earliest file,
    match file_timestamp file, earliest with
    | Some t, None => Some t
    | Some t, Some u => if t <? u then Some t else earliest
    | None, _ => earliest
    end) None files.

Definition line_break : ascii := ascii_of_nat 10.

Definition parseRequestedVersionTimestamp (pkg : PackageIdentity) (body : string) : egress (option Z) :=
  match pk_version pkg with
  | None => Bad (egress_error 502 "package artifact omitted its exact version")
  | Some version =>
      match pk_registry pkg with
      | Cargo =>
          egress_bind (cargo_timestamp version None (split_on line_break body)) (λ found,
            match found with
            | None => Bad (egress_error 403 "requested package version is absent from Cargo metadata")
            | Some timestamp => Good timestamp
            end)
      | Npm =>
          egress_bind (parseJsonRecord body "package metadata") (λ document,
            match asRecord (get_value document "versions") with
            | Some versions =>
                if obj_has versions version then
                  Good (match asRecord (get_value document "time") with
                        | Some timestamps => parseOptionalTimestamp (get_value timestamps version)
                        | None => None
                        end)
                else Bad (egress_error 403 "requested package version is absent from npm metadata")
            | None => Bad (egress_error 403 "requested package version is absent from npm metadata")
            end)
      | Pypi =>
          egress_bind (parseJsonRecord body "package metadata") (λ document,
            match (λ releases, get_value releases version) <$> asRecord (get_value document "releases") with
            | Some (VArr files) => Good (earliest_timestamp files)
            | _ => Bad (egress_error 403 "requested package version is absent from PyPI metadata")
            end)
      | Debian =>
          egress_bind (parseJsonRecord body "package metadata") (λ _,
            Bad (egress_error 500 "unsupported package metadata ecosystem"))
      end
  end.

End timestamps.

(** ** Redirects *)

Inductive DebianFamily := OrdinaryRepository | SecurityRepository.
#[export] Instance DebianFamily_eq_dec : EqDecision DebianFamily.
Proof. solve_decision. Defined.

Definition debianRepositoryFamily (route : PackageEgressRoute) : option DebianFamily :=
  if negb (er_ecosystem route =? Debian) then None
  else if startsWith (er_path route) "/debian-security/" then Some SecurityRepository
  else if startsWith (er_path route) "/debian/" then Some OrdinaryRepository
  else None.

Definition samePackageIdentity (left right : option PackageIdentity) : bool :=
  match left, right with
  | None, None => true
  | Some l, Some r =>
      (pk_registry l =? pk_registry r) && (toLowerCase (pk_name l) =? toLowerCase (pk_name r))
      && (toLowerCase (default "" (pk_scope l)) =? toLowerCase (default "" (pk_scope r)))
      && (bool_decide (pk_version l = None) || bool_decide (pk_version r = None) || (pk_version l =? pk_version r))
  | _, _ => false
  end.

Record CanonicalPackageEgressRedirect := { cr_location : string; cr_route : PackageEgressRoute }.

(** The URL class has no port exactly when its [host] is its [hostname]. *)
Definition canonicalizePackageEgressRedirect `{WebUrl} (source : PackageEgressRoute) (location : string)
    (maxTargetBytes : Z) : egress CanonicalPackageEgressRedirect :=
  match resolve_url location ("https://" +:+ er_host source +:+ er_path source) with
  | None => Bad (egress_error 502 "package egress received a malformed redirect")
  | Some target =>
      if negb (wu_protocol target =? "https:") || negb (wu_username target =? "") || negb (wu_password target =? "")
         || negb (wu_hash target =? "") || negb (wu_port target =? "") || negb (wu_search target =? "")
      then Bad (egress_error 502 "package egress redirect authority is not canonical HTTPS")
      else match classifyPackageEgressRoute (wu_hostname target) (wu_pathname target) maxTargetBytes with
      | None => Bad (egress_error 502 "package egress redirect left its fixed package ecosystem")
      | Some route =>
          if negb (er_ecosystem route =? er_ecosystem source)
          then Bad (egress_error 502 "package egress redirect left its fixed package ecosystem")
          else
            let families :=
              if negb (er_ecosystem source =? Debian) then Good ()
              else if bool_decide (debianRepositoryFamily source = None)
                      || negb (debianRepositoryFamily route =? debianRepositoryFamily source)
              then Bad (egress_error 502 "package egress redirect changed Debian repository family")
              else refuse_if (negb (er_host source =? er_host route) && negb (er_path source =? er_path route)) 502
                     "cross-host Debian redirect changed its exact repository path" in
            egress_bind families (λ _,
              if negb (samePackageIdentity (er_package source) (er_package route))
              then Bad (egress_error 502 "package egress redirect changed package identity")
              else if (er_kind source =? Artifact) && negb (er_kind route =? Artifact)
                      || (er_kind source =? Bootstrap) && negb (er_kind route =? Bootstrap)
              then Bad (egress_error 502 "package egress redirect changed route kind")
              else Good {| cr_location := "https://" +:+ er_host route +:+ er_path route; cr_route := route |})
      end
  end.

(** ** Requests and responses *)

Definition PACKAGE_EGRESS_HEALTH_BODY : string := "IRONCURTAIN_PACKAGE_EGRESS_OK/1" +:+ newline.
Definition PACKAGE_HEALTH_URL : string := "http://ironcurtain.invalid/__ironcurtain/package-egress/health".
Definition HEALTH_HOST : string := "ironcurtain.invalid".
Definition FIXED_USER_AGENT : string := "IronCurtain-Package-Egress/1".
Definition CREDENTIAL_HEADERS : list string :=
  ["authorization"; "cookie"; "npm-authorization"; "npm-token"; "private-token"; "proxy-authorization"; "x-api-key";
   "x-auth-token"].
Definition RESPONSE_HEADERS : list string :=
  ["accept-ranges"; "cache-control"; "content-disposition"; "content-encoding"; "content-language"; "content-length";
   "content-type"; "etag"; "expires"; "last-modified"; "vary"].
Definition REDIRECT_STATUS : list Z := [301; 302; 303; 307; 308].
Definition MAX_DERIVED_METADATA_BYTES : Z := 16 * 1024 * 1024.

(** A request of a client: its headers as they are read, and the names as they were sent. *)
Record ClientRequest := {
  cq_method : option string;
  cq_url : string;
  cq_headers : HttpHeaders;
  cq_rawNames : list string
}.

Definition cq_header (request : ClientRequest) (name : string) : option HeaderValue := header_get (cq_headers request) name.

(** [consumeProxyAuthorization], which also removes the raw header it accepted. *)
Definition consume_authorization (request : ClientRequest) (expected : option string) : bool * ClientRequest :=
  let '(accepted, headers) := consumeProxyAuthorization (cq_headers request) expected in
  let rawNames :=
    if accepted && bool_decide (is_Some expected)
    then filter (λ n, toLowerCase n ≠ "proxy-authorization") (cq_rawNames request) else cq_rawNames request in
  (accepted, {| cq_method := cq_method request; cq_url := cq_url request; cq_headers := headers; cq_rawNames := rawNames |}).

Definition hasCredentialHeader (request : ClientRequest) : bool :=
  existsb (λ n, includes CREDENTIAL_HEADERS (toLowerCase n)) (cq_rawNames request).

Definition has_body (request : ClientRequest) : bool :=
  bool_decide (is_Some (cq_header request "content-length"))
  || bool_decide (is_Some (cq_header request "transfer-encoding")).

Definition isExactHealthRequest (request : ClientRequest) : bool :=
  (cq_method request =? Some "GET") && (cq_url request =? PACKAGE_HEALTH_URL)
  && (cq_header request "host" =? Some (HOne HEALTH_HOST)) && negb (has_body request)
  && negb (hasCredentialHeader request).

Definition assertBodylessCredentialFreeRequest (request : ClientRequest) : egress () :=
  if has_body request then Bad (egress_error 403 "package egress rejects request bodies")
  else refuse_if (hasCredentialHeader request) 403 "package egress rejects credential-bearing requests".

Inductive PackageMethod := MethodGet | MethodHead.
#[export] Instance PackageMethod_eq_dec : EqDecision PackageMethod.
Proof. solve_decision. Defined.
Definition package_method_name (m : PackageMethod) : string := match m with MethodGet => "GET" | MethodHead => "HEAD" end.

Definition assertPackageMethod (method : option string) : egress PackageMethod :=
  if method =? Some "GET" then Good MethodGet
  else if method =? Some "HEAD" then Good MethodHead
  else Bad (egress_error 403 "package egress allows only GET and HEAD").

(** [/^([a-z0-9.-]+):443$/] *)
Definition parseConnectAuthority (target : string) (hostHeader : option HeaderValue) : egress string :=
  if negb (hostHeader =? Some (HOne target))
  then Bad (egress_error 403 "package egress CONNECT Host must exactly equal its authority")
  else
    match strip_suffix ":443" target with
    | Some host =>
        if matches (Plus (or_in is_lower_digit ".-")) host && obj_has HOST_ECOSYSTEM host then Good host
        else Bad (egress_error 403 "package egress CONNECT authority is not a fixed package host on port 443")
    | None => Bad (egress_error 403 "package egress CONNECT authority is not a fixed package host on port 443")
    end.

Definition parsePlainHttpTarget `{WebUrl} (request : ClientRequest) : egress (string * string) :=
  match parse_url (cq_url request) with
  | None => Bad (egress_error 403 "package egress plain HTTP requires an absolute package URL")
  | Some parsed =>
      if negb (wu_protocol parsed =? "http:") || negb (wu_username parsed =? "") || negb (wu_password parsed =? "")
         || negb (wu_hash parsed =? "") || negb (wu_port parsed =? "") || negb (wu_search parsed =? "")
         || negb (cq_header request "host" =? Some (HOne (wu_hostname parsed)))
         || negb (cq_url request =? "http://" +:+ wu_hostname parsed +:+ wu_pathname parsed)
      then Bad (egress_error 403 "package egress plain HTTP authority is not canonical")
      else Good (wu_hostname parsed, wu_pathname parsed)
  end.

(** An answer from upstream; [headersDistinct] is read off the raw headers. *)
Record UpstreamResponse := {
  us_status : Z;
  us_version : string;
  us_headers : HttpHeaders;
  us_raw : list (string * string)
}.

Definition headersDistinct (response : UpstreamResponse) (name : string) : list string :=
  snd <$> filter (λ h, toLowerCase h.1 = name) (us_raw response).

Definition singleHeader (values : list string) (label : string) : egress (option string) :=
  match values with
  | [] => Good None
  | [value] => Good (Some value)
  | _ => Bad (egress_error 502 ("package egress " +:+ label +:+ " is ambiguous"))
  end.

Definition parseDeclaredLength (values : list string) : egress (option Z) :=
  egress_bind (singleHeader values "Content-Length") (λ raw,
    match raw with
    | None => Good None
    | Some raw =>
        if negb (matches (Plus (Chr is_digit)) raw)
        then Bad (egress_error 502 "package egress upstream Content-Length is invalid")
        else if MAX_SAFE_INTEGER <? parse_dec raw
        then Bad (egress_error 502 "package egress upstream Content-Length is invalid")
        else Good (Some (parse_dec raw))
    end).

Definition OutgoingHeaders : Type := list (string * list string).

Definition sanitizePackageHeaders (headers : HttpHeaders) (canonicalRedirect : option string) : OutgoingHeaders :=
  ("Connection", ["close"])
  :: omap (λ h, match h.2 with
                | Some value => if includes RESPONSE_HEADERS (toLowerCase h.1) then Some (h.1, header_values value) else None
                | None => None
                end) headers
  ++ match canonicalRedirect with Some location => [("Location", [location])] | None => [] end.

Definition CRLF : string := String (ascii_of_nat 13) newline.
Definition byte_length (s : string) : Z := Z.of_nat (String.length s).
Definition header_line (name value : string) : string := name +:+ ": " +:+ value +:+ CRLF.

Definition estimateIncomingResponseHeaderBytes (response : UpstreamResponse) : Z :=
  byte_length ("HTTP/" +:+ us_version response +:+ " " +:+ show_Z (us_status response) +:+ CRLF +:+ CRLF)
  + tally (λ h, byte_length (header_line h.1 h.2)) (us_raw response).

(** [String(value)] joins a list with commas. *)
Definition estimateOutgoingResponseHeaderBytes (status : Z) (headers : OutgoingHeaders) : Z :=
  byte_length ("HTTP/1.1 " +:+ show_Z status +:+ CRLF +:+ CRLF)
  + tally (λ h, byte_length (header_line h.1 (str_join "," h.2))) headers.

Definition estimateOutboundRequestBytes (method : PackageMethod) (route : PackageEgressRoute) : Z :=
  byte_length (package_method_name method +:+ " " +:+ er_path route +:+ " HTTP/1.1" +:+ CRLF +:+ header_line "Host" (er_host route)
    +:+ header_line "Accept" "*/*" +:+ header_line "Accept-Encoding" "identity"
    +:+ header_line "User-Agent" FIXED_USER_AGENT +:+ header_line "Connection" "close" +:+ CRLF).

Definition estimateResponseBytes (status : Z) (body : string) : Z :=
  byte_length ("HTTP/1.1 " +:+ show_Z status +:+ CRLF +:+ CRLF +:+ body)
  + byte_length (header_line "Content-Type" "text/plain").

(** ** The audit *)

Inductive PackageEgressAuditReasonCode :=
| PolicyDisabled | ClientMetadataUnfiltered | DerivedMetadataFetched | DerivedMetadataFailed | DebianCuratedEpoch
| PolicyAllow | PolicyDeny.

Inductive EgressAuditSource := ClientSource | DerivedSource.

Record PackageEgressAuditRecord := {
  ar_timestamp : Z;
  ar_allow : bool;
  ar_reasonCode : PackageEgressAuditReasonCode;
  ar_reason : string;
  ar_method : PackageMethod;
  ar_route : PackageEgressRoute;
  ar_source : EgressAuditSource
}.

Definition MAX_AUDIT_FILE_BYTES : Z := 16 * 1024 * 1024.
Definition limitsForAuditRecord : Z := maxTargetBytes DEFAULT_PACKAGE_EGRESS_LIMITS + 2 * 1024.

(** The file, and the requests that wait for their record in the order of the queue. *)
Record AuditWriter := {
  aw_open : bool;
  aw_queue : list nat;
  aw_written : list PackageEgressAuditRecord;
  aw_size : Z;
  aw_failed : bool
}.

Definition set_writer (open : bool) (queue : list nat) (written : list PackageEgressAuditRecord) (size : Z)
    (failed : bool) : AuditWriter :=
  {| aw_open := open; aw_queue := queue; aw_written := written; aw_size := size; aw_failed := failed |}.

Section writer.
Variable audit_line : PackageEgressAuditRecord → string.      (** [JSON.stringify], with the newline *)

(** The error, when the record is refused at once. *)
Definition audit_append (job : nat) (record : PackageEgressAuditRecord) (w : AuditWriter) : AuditWriter * option string :=
  if negb (aw_open w) then (w, Some "package egress audit is not started")
  else if aw_failed w then (w, Some "package egress audit is unavailable")
  else if limitsForAuditRecord <? byte_length (audit_line record)
  then (w, Some "package egress audit record exceeds its byte ceiling")
  else (set_writer (aw_open w) (aw_queue w ++ [job]) (aw_written w) (aw_size w) (aw_failed w), None).

(** The turn of a record that was queued; [written] is whether the system calls succeed. *)
Definition audit_write (record : PackageEgressAuditRecord) (written : bool) (w : AuditWriter) :
    AuditWriter * option string :=
  if negb (aw_open w) then
    (set_writer false (aw_queue w) (aw_written w) (aw_size w) true, Some "package egress audit stopped before append")
  else if MAX_AUDIT_FILE_BYTES <? aw_size w + byte_length (audit_line record) then
    (set_writer true (aw_queue w) (aw_written w) (aw_size w) true, Some "package egress audit file exceeds its byte ceiling")
  else if negb written then (set_writer true (aw_queue w) (aw_written w) (aw_size w) true, Some "write failed")
  else (set_writer true (aw_queue w) (aw_written w ++ [record]) (aw_size w + byte_length (audit_line record)) (aw_failed w),
        None).
End writer.

(** ** The listener *)

Record PackageEgressOptions := {
  po_policy : option PackageValidator;
  po_limits : PackageEgressLimits;
  po_nat64Prefixes : list PackageEgressNat64Prefix;
  po_requiredProxyAuthorization : option string;
  po_auditBytes : Z                                  (** of the file when the listener starts *)
}.

(** The stages of a connection: the TLS handshake follows a CONNECT. *)
Inductive ClientStage := PlainClient | Handshake (host : string) (bytes : Z) | TlsClient (host : string).

Record ClientContext := {
  ec_lease : nat;
  ec_deadline : Z;
  ec_stage : ClientStage;
  ec_closed : bool
}.

Record UpstreamOperation := { eo_client : nat; eo_lease : nat; eo_released : bool }.

(** The awaits of [openUpstream]. *)
Inductive OpenPhase :=
| Resolving
| Identifying (answers : list PackageEgressResolvedAddress) (prefixes : list PackageEgressNat64Prefix)
| Dialling (screened : ScreenedPackageEgressDestination) (prefixes : list PackageEgressNat64Prefix) (connectDeadline : Z)
| Reidentifying (screened : ScreenedPackageEgressDestination) (prefixes : list PackageEgressNat64Prefix)
    (connectDeadline : Z)
| Securing (screened : ScreenedPackageEgressDestination)
| Requesting (screened : ScreenedPackageEgressDestination).

Inductive JobPhase :=
| Auditing (record : PackageEgressAuditRecord) (refusal : option EgressError)     (** of the client's route *)
| Opening (operation : nat) (derived : bool) (phase : OpenPhase)
| ReadingMetadata (operation : nat) (body : string)
| AuditingMetadata (record : PackageEgressAuditRecord) (published : option Z)
| AuditingFailure (record : PackageEgressAuditRecord) (error : EgressError)
| Streaming (operation : nat)
| JobOver.

(** A request whose route was recognised. *)
Record EgressJob := {
  jb_client : nat;
  jb_method : PackageMethod;
  jb_route : PackageEgressRoute;
  jb_phase : JobPhase
}.

Inductive Contact :=
| Dialled (job : nat) (host : string) (address : PackageEgressResolvedAddress)
| Requested (job : nat) (derived : bool) (method : PackageMethod) (route : PackageEgressRoute)
    (screened : ScreenedPackageEgressDestination)
| MetadataRead (job : nat) (route : PackageEgressRoute) (body : string).

Inductive Reply :=
| Rejected (client : nat) (status : Z)
| Established (client : nat)
| Healthy (client : nat)
| Answered (job : nat) (status : Z) (headers : OutgoingHeaders)
| Delivered (job : nat) (bytes : Z)
| Ended (job : nat).

Record Listener := {
  ls_ledger : Ledger;
  ls_audit : AuditWriter;
  ls_clients : list ClientContext;
  ls_operations : list UpstreamOperation;
  ls_jobs : list EgressJob;
  ls_contacts : list Contact;
  ls_replies : list Reply;
  ls_stopped : bool
}.

Definition set_ledger (g : Ledger) (s : Listener) : Listener :=
  {| ls_ledger := g; ls_audit := ls_audit s; ls_clients := ls_clients s; ls_operations := ls_operations s;
     ls_jobs := ls_jobs s; ls_contacts := ls_contacts s; ls_replies := ls_replies s; ls_stopped := ls_stopped s |}.
Definition set_audit (w : AuditWriter) (s : Listener) : Listener :=
  {| ls_ledger := ls_ledger s; ls_audit := w; ls_clients := ls_clients s; ls_operations := ls_operations s;
     ls_jobs := ls_jobs s; ls_contacts := ls_contacts s; ls_replies := ls_replies s; ls_stopped := ls_stopped s |}.
Definition set_clients (l : list ClientContext) (s : Listener) : Listener :=
  {| ls_ledger := ls_ledger s; ls_audit := ls_audit s; ls_clients := l; ls_operations := ls_operations s;
     ls_jobs := ls_jobs s; ls_contacts := ls_contacts s; ls_replies := ls_replies s; ls_stopped := ls_stopped s |}.
Definition set_operations (l : list UpstreamOperation) (s : Listener) : Listener :=
  {| ls_ledger := ls_ledger s; ls_audit := ls_audit s; ls_clients := ls_clients s; ls_operations := l;
     ls_jobs := ls_jobs s; ls_contacts := ls_contacts s; ls_replies := ls_replies s; ls_stopped := ls_stopped s |}.
Definition set_jobs (l : list EgressJob) (s : Listener) : Listener :=
  {| ls_ledger := ls_ledger s; ls_audit := ls_audit s; ls_clients := ls_clients s; ls_operations := ls_operations s;
     ls_jobs := l; ls_contacts := ls_contacts s; ls_replies := ls_replies s; ls_stopped := ls_stopped s |}.
Definition add_contact (c : Contact) (s : Listener) : Listener :=
  {| ls_ledger := ls_ledger s; ls_audit := ls_audit s; ls_clients := ls_clients s; ls_operations := ls_operations s;
     ls_jobs := ls_jobs s; ls_contacts := ls_contacts s ++ [c]; ls_replies := ls_replies s; ls_stopped := ls_stopped s |}.
Definition add_reply (r : Reply) (s : Listener) : Listener :=
  {| ls_ledger := ls_ledger s; ls_audit := ls_audit s; ls_clients := ls_clients s; ls_operations := ls_operations s;
     ls_jobs := ls_jobs s; ls_contacts := ls_contacts s; ls_replies := ls_replies s ++ [r]; ls_stopped := ls_stopped s |}.
Definition set_stopped (s : Listener) : Listener :=
  {| ls_ledger := ls_ledger s; ls_audit := ls_audit s; ls_clients := ls_clients s; ls_operations := ls_operations s;
     ls_jobs := ls_jobs s; ls_contacts := ls_contacts s; ls_replies := ls_replies s; ls_stopped := true |}.

Definition with_stage (stage : ClientStage) (c : ClientContext) : ClientContext :=
  {| ec_lease := ec_lease c; ec_deadline := ec_deadline c; ec_stage := stage; ec_closed := ec_closed c |}.
Definition closed_context (c : ClientContext) : ClientContext :=
  {| ec_lease := ec_lease c; ec_deadline := ec_deadline c; ec_stage := ec_stage c; ec_closed := true |}.
Definition at_phase (p : JobPhase) (j : EgressJob) : EgressJob :=
  {| jb_client := jb_client j; jb_method := jb_method j; jb_route := jb_route j; jb_phase := p |}.

Definition set_job (i : nat) (p : JobPhase) (s : Listener) : Listener := set_jobs (alter (at_phase p) i (ls_jobs s)) s.
Definition set_stage (c : nat) (stage : ClientStage) (s : Listener) : Listener :=
  set_clients (alter (with_stage stage) c (ls_clients s)) s.

Section listener.
Context `{WebUrl} `{Runtime} `{Net}.
Variable options : PackageEgressOptions.
Variable audit_line : PackageEgressAuditRecord → string.

Local Abbreviation limits := (po_limits options).

(** The listener when it starts. *)
Definition createPackageEgressProxy (now : Z) : result Listener :=
  match createPackageEgressLedger limits (qc_of_Z now) with
  | Throw e => Throw e
  | Ok ledger =>
      Ok {| ls_ledger := ledger; ls_audit := set_writer true [] [] (po_auditBytes options) false; ls_clients := [];
            ls_operations := []; ls_jobs := []; ls_contacts := []; ls_replies := []; ls_stopped := false |}
  end.

(** *** Leases *)

(** Counts of bytes are lengths, which the ledger never refuses as numbers. *)
Definition charge_client (c : nat) (count : Z) (s : Listener) : Listener * bool :=
  match ls_clients s !! c with
  | None => (s, false)
  | Some ctx =>
      match charge limits (ec_lease ctx) count (ls_ledger s) with
      | (g, Ok within) => (set_ledger g s, within)
      | (g, Throw _) => (set_ledger g s, false)
      end
  end.

Definition charge_operation (o : nat) (count : Z) (s : Listener) : Listener * bool :=
  match ls_operations s !! o with
  | None => (s, false)
  | Some op =>
      match upstream_charge limits (eo_lease op) count (ls_ledger s) with
      | (g, Ok within) => (set_ledger g s, within)
      | (g, Throw _) => (set_ledger g s, false)
      end
  end.

(** [release], and [destroy], which also aborts what the operation awaits. *)
Definition release_operation (o : nat) (s : Listener) : Listener :=
  match ls_operations s !! o with
  | None => s
  | Some op =>
      if eo_released op then s
      else set_operations (<[o := {| eo_client := eo_client op; eo_lease := eo_lease op; eo_released := true |}]>
                             (ls_operations s))
             (set_ledger (release_upstream (eo_lease op) (ls_ledger s)) s)
  end.

Definition operation_released (o : nat) (s : Listener) : bool :=
  match ls_operations s !! o with Some op => eo_released op | None => true end.

Definition operations_of (c : nat) (s : Listener) : list nat :=
  fst <$> filter (λ e, eo_client e.2 = c) (imap pair (ls_operations s)).

Definition client_closed (c : nat) (s : Listener) : bool :=
  match ls_clients s !! c with Some ctx => ec_closed ctx | None => true end.

Definition closeClient (c : nat) (s : Listener) : Listener :=
  match ls_clients s !! c with
  | None => s
  | Some ctx =>
      if ec_closed ctx then s
      else
        let s := set_clients (<[c := closed_context ctx]> (ls_clients s)) s in
        let s := foldl (λ s o, release_operation o s) s (operations_of c s) in
        set_ledger (release_client (ec_lease ctx) (ls_ledger s)) s
  end.

Definition assertClientActive (c : nat) (s : Listener) : egress () :=
  refuse_if (ls_stopped s || client_closed c s) 408 "package egress client disconnected".

(** The timeout of a phase, when some of it is left. *)
Definition remainingTimeout (c : nat) (now : Z) (label : string) (phaseDeadline : option Z) (s : Listener) : egress () :=
  let deadline := match ls_clients s !! c with Some ctx => ec_deadline ctx | None => now end in
  let deadline := match phaseDeadline with Some d => Z.min deadline d | None => deadline end in
  refuse_if (deadline - now <=? 0) 504 ("package egress " +:+ label +:+ " timeout").

(** *** Refusals *)

Definition rejectResponse (c : nat) (status : Z) (message : string) (s : Listener) : Listener :=
  let '(s, within) := charge_client c (estimateResponseBytes status (message +:+ newline)) s in
  if within then add_reply (Rejected c status) s else s.

Definition rejectRaw (c : nat) (status : Z) (message : string) (s : Listener) : Listener :=
  let response := "HTTP/1.1 " +:+ show_Z status +:+ " " +:+ message +:+ CRLF +:+ header_line "Connection" "close"
                  +:+ header_line "Content-Length" "0" +:+ CRLF in
  let '(s, within) := charge_client c (byte_length response) s in
  if within then add_reply (Rejected c status) s else s.

Definition rejectPackageError (i : nat) (e : EgressError) (s : Listener) : Listener :=
  match ls_jobs s !! i with
  | None => s
  | Some j => set_job i JobOver (rejectResponse (jb_client j) (ee_status e) (ee_message e) s)
  end.

(** *** The audit of a decision *)

Definition audit_record (route : PackageEgressRoute) (method : PackageMethod) (source : EgressAuditSource) (allow : bool)
    (reasonCode : PackageEgressAuditReasonCode) (reason : string) (now : Z) : PackageEgressAuditRecord :=
  {| ar_timestamp := now; ar_allow := allow; ar_reasonCode := reasonCode; ar_reason := boundedAuditReason reason;
     ar_method := method; ar_route := route; ar_source := source |}.

(** [await audit.append(record)]: the request waits in [phase], or gets the error of [audit_append]. *)
Definition append_audit (i : nat) (record : PackageEgressAuditRecord) (phase : JobPhase)
    (refused : EgressError → Listener → Listener) (s : Listener) : Listener :=
  match audit_append audit_line i record (ls_audit s) with
  | (w, None) => set_job i phase (set_audit w s)
  | (w, Some e) => refused (egress_error 502 e) (set_audit w s)
  end.

(** The record of the decision on the client's own route; then [refusal] is thrown, if any. *)
Definition audit_client (i : nat) (j : EgressJob) (allow : bool) (reasonCode : PackageEgressAuditReasonCode) (reason : string)
    (refusal : option EgressError) (now : Z) (s : Listener) : Listener :=
  let record := audit_record (jb_route j) (jb_method j) ClientSource allow reasonCode reason now in
  append_audit i record (Auditing record refusal) (rejectPackageError i) s.

Definition refusal_of (decision : PackageDecision) : option EgressError :=
  match decision with Allow _ => None | Deny reason => Some (egress_error 403 reason) end.

(** What a decision of the validator leads to. *)
Definition decided (i : nat) (j : EgressJob) (decision : PackageDecision) (allowed : PackageEgressAuditReasonCode) (now : Z)
    (s : Listener) : Listener :=
  audit_client i j (is_allow decision) (if is_allow decision then allowed else PolicyDeny) (decision_reason decision)
    (refusal_of decision) now s.

(** *** Upstream requests *)

(** The route of the request that an operation serves. *)
Definition operation_route (j : EgressJob) (derived : bool) : egress PackageEgressRoute :=
  if derived then
    match er_package (jb_route j) with
    | Some pkg => derivedMetadataRoute pkg
    | None => Bad (egress_error 500 "unreachable")
    end
  else Good (jb_route j).

(** A failure of [fetchDerivedMetadata] is recorded before it is thrown on. *)
Definition metadata_failed (i : nat) (j : EgressJob) (e : EgressError) (now : Z) (s : Listener) : Listener :=
  match operation_route j true with
  | Bad e => rejectPackageError i e s
  | Good route =>
      let record := audit_record route MethodGet DerivedSource false DerivedMetadataFailed
                      (boundedAuditReason (ee_message e)) now in
      append_audit i record (AuditingFailure record e) (rejectPackageError i) s
  end.

(** A failure of an operation: it is destroyed, and the error goes to who awaits it. *)
Definition operation_failed (i : nat) (j : EgressJob) (o : nat) (derived : bool) (e : EgressError) (now : Z) (s : Listener) :
    Listener :=
  let s := release_operation o s in
  if derived then metadata_failed i j e now s else rejectPackageError i e s.

Definition open_phase (i : nat) (j : EgressJob) (o : nat) (derived : bool) (phase : egress OpenPhase) (now : Z) (s : Listener) :
    Listener :=
  match phase with
  | Good phase => set_job i (Opening o derived phase) s
  | Bad e => operation_failed i j o derived e now s
  end.

(** A lease, an operation and the bytes of the request; then the name is resolved. *)
Definition start_operation (i : nat) (j : EgressJob) (derived : bool) (now : Z) (s : Listener) : Listener :=
  match ls_clients s !! jb_client j with
  | None => s
  | Some ctx =>
      match operation_route j derived,
            admitUpstream limits (ec_lease ctx) (if derived then Derived else Direct) (qc_of_Z now) (ls_ledger s) with
      | Bad e, _ => rejectPackageError i e s
      | Good _, (g, Throw e) =>
          let s := set_ledger g s in
          if derived then metadata_failed i j (egress_error 429 e) now s
          else rejectPackageError i (egress_error 429 e) s
      | Good route, (g, Ok lease) =>
          let o := length (ls_operations s) in
          let s := set_operations (ls_operations s ++ [{| eo_client := jb_client j; eo_lease := lease; eo_released := false |}])
                     (set_ledger g s) in
          let method := if derived then MethodGet else jb_method j in
          let '(s, within) := charge_operation o (estimateOutboundRequestBytes method route) s in
          if negb within then
            operation_failed i j o derived
              (egress_error 413 (if derived then "package egress derived request exceeds its byte ceiling"
                                 else "package egress upstream request exceeds its byte ceiling")) now s
          else
            open_phase i j o derived
              (egress_bind (remainingTimeout (jb_client j) now "DNS" None s) (λ _, Good Resolving)) now s
      end
  end.

(** [requestAuthorizedRoute], after the decision. *)
Definition request_direct (i : nat) (j : EgressJob) (now : Z) (s : Listener) : Listener :=
  if client_closed (jb_client j) s
  then rejectPackageError i (egress_error 408 "package egress client disconnected") s
  else start_operation i j false now s.

(** [authorizeClientRoute]; the validator reads the clock. *)
Definition authorizeClientRoute (i : nat) (j : EgressJob) (now : Z) (s : Listener) : Listener :=
  match po_policy options with
  | None => audit_client i j true PolicyDisabled "Package policy is disabled" None now s
  | Some validate =>
      match er_kind (jb_route j), er_package (jb_route j) with
      | Artifact, Some pkg =>
          match pk_version pkg with
          | None =>
              audit_client i j true ClientMetadataUnfiltered
                "Recognized metadata route; artifact policy remains authoritative" None now s
          | Some _ =>
              if pk_registry pkg =? Debian
              then decided i j (validate now pkg (Some {| vm_publishedAt := Some (ValidDate 0) |})) DebianCuratedEpoch now s
              else start_operation i j true now s
          end
      | _, _ =>
          audit_client i j true ClientMetadataUnfiltered
            "Recognized metadata route; artifact policy remains authoritative" None now s
      end
  end.

(** [forwardAuthorizedRoute] from its start. *)
Definition forwardAuthorizedRoute (c : nat) (method : PackageMethod) (route : PackageEgressRoute) (now : Z) (s : Listener) :
    Listener :=
  let i := length (ls_jobs s) in
  let j := {| jb_client := c; jb_method := method; jb_route := route; jb_phase := JobOver |} in
  let s := set_jobs (ls_jobs s ++ [j]) s in
  if client_closed c s then rejectPackageError i (egress_error 408 "package egress client disconnected") s
  else authorizeClientRoute i j now s.

(** *** What a waiting request wakes up to *)

(** The record of job [i] is next; then its request goes on. *)
Definition onAudit (i : nat) (j : EgressJob) (written : bool) (now : Z) (s : Listener) : Listener :=
  let write record (s : Listener) :=
    let '(w, e) := audit_write audit_line record written (ls_audit s) in (set_audit w s, egress_error 502 <$> e) in
  match jb_phase j with
  | Auditing record refusal =>
      match write record s with
      | (s, Some e) => rejectPackageError i e s
      | (s, None) =>
          match refusal with
          | Some e => rejectPackageError i e s
          | None => request_direct i j now s
          end
      end
  | AuditingMetadata record published =>
      match write record s with
      | (s, Some e) => metadata_failed i j e now s
      | (s, None) =>
          match po_policy options, er_package (jb_route j) with
          | Some validate, Some pkg =>
              let metadata := (λ t, {| vm_publishedAt := Some (ValidDate t) |}) <$> published in
              decided i j (validate now pkg metadata) PolicyAllow now s
          | _, _ => s
          end
      end
  | AuditingFailure record error =>
      match write record s with
      | (s, Some e) => rejectPackageError i e s
      | (s, None) => rejectPackageError i error s
      end
  | _ => s
  end.

Definition onResolved (i : nat) (j : EgressJob) (o : nat) (derived : bool) (answers : list PackageEgressResolvedAddress)
    (discovered : list PackageEgressNat64Prefix) (now : Z) (s : Listener) : Listener :=
  open_phase i j o derived
    (egress_bind (remainingTimeout (jb_client j) now "host identity" None s) (λ _,
       Good (Identifying answers (po_nat64Prefixes options ++ discovered)))) now s.

(** The screening, and the dial of the address that it selects. *)
Definition onIdentified (i : nat) (j : EgressJob) (o : nat) (derived : bool) (answers : list PackageEgressResolvedAddress)
    (prefixes : list PackageEgressNat64Prefix) (identities : list string) (now : Z) (s : Listener) : Listener :=
  let checked :=
    egress_bind (operation_route j derived) (λ route,
    egress_bind (plain (screenPackageEgressDestination (er_host route) answers identities prefixes)) (λ screened,
    egress_bind (assertClientActive (jb_client j) s) (λ _,
    let connectDeadline :=
      Z.min (match ls_clients s !! jb_client j with Some ctx => ec_deadline ctx | None => now end)
        (now + connectTimeoutMs limits) in
    egress_bind (remainingTimeout (jb_client j) now "connect" (Some connectDeadline) s) (λ _,
      Good (screened, connectDeadline))))) in
  match checked with
  | Bad e => operation_failed i j o derived e now s
  | Good (screened, connectDeadline) =>
      add_contact (Dialled i (sd_hostname screened) (sd_selected screened))
        (set_job i (Opening o derived (Dialling screened prefixes connectDeadline)) s)
  end.

Definition onDialled (i : nat) (j : EgressJob) (o : nat) (derived : bool) (screened : ScreenedPackageEgressDestination)
    (prefixes : list PackageEgressNat64Prefix) (connectDeadline : Z) (now : Z) (s : Listener) : Listener :=
  open_phase i j o derived
    (egress_bind (assertClientActive (jb_client j) s) (λ _,
     egress_bind (remainingTimeout (jb_client j) now "host identity" (Some connectDeadline) s) (λ _,
       Good (Reidentifying screened prefixes connectDeadline)))) now s.

Definition onReidentified (i : nat) (j : EgressJob) (o : nat) (derived : bool) (screened : ScreenedPackageEgressDestination)
    (prefixes : list PackageEgressNat64Prefix) (connectDeadline : Z) (identities : list string) (now : Z) (s : Listener) :
    Listener :=
  open_phase i j o derived
    (egress_bind (plain (assertPackageEgressAddressStillAllowed (sd_selected screened) identities prefixes)) (λ _,
     egress_bind (assertClientActive (jb_client j) s) (λ _,
     egress_bind (remainingTimeout (jb_client j) now "connect" (Some connectDeadline) s) (λ _,
       Good (Securing screened))))) now s.

(** The connection is authenticated; the request is sent over it. *)
Definition onSecured (i : nat) (j : EgressJob) (o : nat) (derived : bool) (screened : ScreenedPackageEgressDestination) (now : Z)
    (s : Listener) : Listener :=
  match egress_bind (remainingTimeout (jb_client j) now "absolute request" None s) (λ _, operation_route j derived) with
  | Bad e => operation_failed i j o derived e now s
  | Good route =>
      add_contact (Requested i derived (if derived then MethodGet else jb_method j) route screened)
        (set_job i (Opening o derived (Requesting screened)) s)
  end.

(** The answer to the request for metadata. *)
Definition onMetadataResponse (i : nat) (j : EgressJob) (o : nat) (response : UpstreamResponse) (now : Z) (s : Listener) :
    Listener :=
  if negb (us_status response =? 200) then
    operation_failed i j o true
      (egress_error 502 ("package metadata upstream returned status " +:+ show_Z (us_status response))) now s
  else
    let '(s, within) := charge_operation o (estimateIncomingResponseHeaderBytes response) s in
    if negb within
    then operation_failed i j o true (egress_error 413 "package egress derived response headers exceed a byte ceiling") now s
    else
      let too_long := egress_error 413 "package egress derived metadata exceeds its byte ceiling" in
      match parseDeclaredLength (headersDistinct response "content-length") with
      | Bad e => operation_failed i j o true e now s
      | Good (Some declared) =>
          if Z.min MAX_DERIVED_METADATA_BYTES (maxBytesPerRequest limits) <? declared
          then operation_failed i j o true too_long now s
          else set_job i (ReadingMetadata o "") s
      | Good None => set_job i (ReadingMetadata o "") s
      end.

Definition onMetadataChunk (i : nat) (j : EgressJob) (o : nat) (body chunk : string) (now : Z) (s : Listener) : Listener :=
  match assertClientActive (jb_client j) s with
  | Bad e => operation_failed i j o true e now s
  | Good _ =>
      let too_long := egress_error 413 "package egress derived metadata exceeds its byte ceiling" in
      let bytes := byte_length (body +:+ chunk) in
      if MAX_DERIVED_METADATA_BYTES <? bytes then operation_failed i j o true too_long now s
      else
        let '(s, within) := charge_operation o (byte_length chunk) s in
        if negb within || (maxBytesPerRequest limits <? bytes) then operation_failed i j o true too_long now s
        else set_job i (ReadingMetadata o (body +:+ chunk)) s
  end.

Definition onMetadataEnd (i : nat) (j : EgressJob) (o : nat) (body : string) (now : Z) (s : Listener) : Listener :=
  match er_package (jb_route j), operation_route j true with
  | Some pkg, Good route =>
      let s := add_contact (MetadataRead i route body) (release_operation o s) in
      match parseRequestedVersionTimestamp pkg body with
      | Bad e => metadata_failed i j e now s
      | Good published =>
          let record := audit_record route MethodGet DerivedSource true DerivedMetadataFetched
                          "Source-owned metadata for the exact requested version was fetched" now in
          append_audit i record (AuditingMetadata record published) (λ e, metadata_failed i j e now) s
      end
  | _, _ => s
  end.

(** The answer to the client's own request. *)
Definition redirect_location (route : PackageEgressRoute) (response : UpstreamResponse) : egress (option string) :=
  if includes REDIRECT_STATUS (us_status response) then
    egress_bind (singleHeader (headersDistinct response "location") "redirect Location") (λ location,
      match location with
      | None => Bad (egress_error 502 "package egress redirect omitted Location")
      | Some location =>
          egress_bind (canonicalizePackageEgressRedirect route location (maxTargetBytes limits)) (λ r,
            Good (Some (cr_location r)))
      end)
  else Good None.

Definition checked_headers (route : PackageEgressRoute) (response : UpstreamResponse) : egress OutgoingHeaders :=
  egress_bind (redirect_location route response) (λ location,
  egress_bind (parseDeclaredLength (headersDistinct response "content-length")) (λ declared,
  egress_bind (refuse_if (match declared with Some n => maxBytesPerRequest limits <? n | None => false end) 413
                 "package egress upstream response exceeds its byte ceiling") (λ _,
    Good (sanitizePackageHeaders (us_headers response) location)))).

Definition onDirectResponse (i : nat) (j : EgressJob) (o : nat) (response : UpstreamResponse) (now : Z) (s : Listener) : Listener :=
  let '(s, within) := charge_operation o (estimateIncomingResponseHeaderBytes response) s in
  if negb within
  then operation_failed i j o false (egress_error 413 "package egress response headers exceed a byte ceiling") now s
  else
    match checked_headers (jb_route j) response with
    | Bad e => operation_failed i j o false e now s
    | Good headers =>
        let '(s, within) :=
          charge_client (jb_client j) (estimateOutgoingResponseHeaderBytes (us_status response) headers) s in
        if negb within
        then operation_failed i j o false (egress_error 413 "package egress client response exceeds its byte ceiling") now s
        else set_job i (Streaming o) (add_reply (Answered i (us_status response) headers) s)
    end.

Definition onStreamData (i : nat) (j : EgressJob) (o : nat) (chunk : string) (s : Listener) : Listener :=
  let '(s, upstream) := charge_operation o (byte_length chunk) s in
  let '(s, within) := if upstream then charge_client (jb_client j) (byte_length chunk) s else (s, false) in
  if within then
    if jb_method j =? MethodHead then s else add_reply (Delivered i (byte_length chunk)) s
  else set_job i JobOver (release_operation o s).

(** *** Events *)

Inductive ListenerEvent :=
| Connects (allowed : bool) (now : Z)                       (** [allowRemoteAddress] *)
| ClientData (client : nat) (bytes : nat)
| ClientCloses (client : nat)                               (** or one of its timers runs out *)
| ConnectRequest (client : nat) (request : ClientRequest) (head : string)
| TlsSecure (client : nat) (servername : string)
| OuterRequest (client : nat) (request : ClientRequest) (now : Z)
| TlsRequest (client : nat) (request : ClientRequest) (now : Z)
| AuditRuns (written : bool) (now : Z)
| ResolverAnswers (job : nat) (answers : list PackageEgressResolvedAddress)
    (discovered : list PackageEgressNat64Prefix) (now : Z)
| IdentityAnswers (job : nat) (identities : list string) (now : Z)
| DialSucceeds (job : nat) (now : Z)
| TlsEstablished (job : nat) (now : Z)
| UpstreamAnswers (job : nat) (response : UpstreamResponse) (now : Z)
| OpenFails (job : nat) (error : EgressError) (now : Z)     (** a timeout, an abort or an error of an await *)
| UpstreamData (job : nat) (chunk : string) (now : Z)
| UpstreamEnds (job : nat) (now : Z)
| UpstreamBreaks (job : nat) (error : EgressError) (now : Z)
| StopListener.

(** The admission of a connection. *)
Definition onConnection (allowed : bool) (now : Z) (s : Listener) : Listener :=
  if negb allowed then s
  else match admitClient limits (qc_of_Z now) (ls_ledger s) with
  | (g, Throw _) => set_ledger g s
  | (g, Ok lease) =>
      set_clients (ls_clients s ++ [{| ec_lease := lease; ec_deadline := now + absoluteTimeoutMs limits;
                                       ec_stage := PlainClient; ec_closed := false |}]) (set_ledger g s)
  end.

(** The bytes of a connection; beyond a ceiling its socket is destroyed. *)
Definition onClientData (c : nat) (bytes : nat) (s : Listener) : Listener :=
  match ls_clients s !! c with
  | None => s
  | Some ctx =>
      let '(s, within) := charge_client c (Z.of_nat bytes) s in
      if negb within then closeClient c s
      else match ec_stage ctx with
      | Handshake host n =>
          let n := n + Z.of_nat bytes in
          let s := set_stage c (Handshake host n) s in
          if tlsHandshakeMaxBytes limits <? n then closeClient c s else s
      | _ => s
      end
  end.

Definition handleConnect (c : nat) (request : ClientRequest) (head : string) (s : Listener) : Listener :=
  if client_closed c s then s
  else
    let '(authorized, request) := consume_authorization request (po_requiredProxyAuthorization options) in
    let acknowledgment := "HTTP/1.1 200 Connection Established" +:+ CRLF +:+ CRLF in
    let checked :=
      egress_bind (refuse_if (negb authorized) 407 "Proxy Authentication Required") (λ _,
      egress_bind (assertBodylessCredentialFreeRequest request) (λ _,
      egress_bind (refuse_if (negb (head =? "")) 400 "pipelined bytes after CONNECT are not accepted") (λ _,
        parseConnectAuthority (cq_url request) (cq_header request "host")))) in
    match checked with
    | Bad e => rejectRaw c (ee_status e) (ee_message e) s
    | Good host =>
        let '(s, within) := charge_client c (byte_length acknowledgment) s in
        if within then add_reply (Established c) (set_stage c (Handshake host 0) s)
        else rejectRaw c 413 "package egress client byte ceiling reached" s
    end.

(** The name in the handshake must be the host of the CONNECT. *)
Definition onTlsSecure (c : nat) (servername : string) (s : Listener) : Listener :=
  match ls_clients s !! c with
  | Some ctx =>
      match ec_stage ctx with
      | Handshake host bytes =>
          if negb (servername =? host) || (tlsHandshakeMaxBytes limits <? bytes) then closeClient c s
          else set_stage c (TlsClient host) s
      | _ => s
      end
  | None => s
  end.

Definition handleOuterRequest (c : nat) (request : ClientRequest) (now : Z) (s : Listener) : Listener :=
  if client_closed c s then s
  else
    let '(authorized, request) := consume_authorization request (po_requiredProxyAuthorization options) in
    if negb authorized then rejectResponse c 407 "Proxy Authentication Required" s
    else if isExactHealthRequest request then
      let '(s, within) := charge_client c (estimateResponseBytes 200 PACKAGE_EGRESS_HEALTH_BODY) s in
      if within then add_reply (Healthy c) s
      else rejectResponse c 413 "Package egress client byte ceiling reached" s
    else
      let checked :=
        egress_bind (assertBodylessCredentialFreeRequest request) (λ _,
        egress_bind (assertPackageMethod (cq_method request)) (λ method,
        egress_bind (parsePlainHttpTarget request) (λ target,
        match classifyPackageEgressRoute target.1 target.2 (maxTargetBytes limits) with
        | Some route =>
            if er_ecosystem route =? Debian then Good (method, route)
            else Bad (egress_error 403 "plain HTTP is restricted to exact Debian package routes")
        | None => Bad (egress_error 403 "plain HTTP is restricted to exact Debian package routes")
        end))) in
      match checked with
      | Bad e => rejectResponse c (ee_status e) (ee_message e) s
      | Good (method, route) => forwardAuthorizedRoute c method route now s
      end.

Definition handleInnerRequest (c : nat) (request : ClientRequest) (now : Z) (s : Listener) : Listener :=
  match ls_clients s !! c with
  | Some ctx =>
      match ec_stage ctx with
      | TlsClient host =>
          let checked :=
            egress_bind (assertBodylessCredentialFreeRequest request) (λ _,
            egress_bind (assertPackageMethod (cq_method request)) (λ method,
            egress_bind (refuse_if (negb (cq_header request "host" =? Some (HOne host))) 403
                           "package egress Host must exactly equal CONNECT and TLS SNI") (λ _,
            match classifyPackageEgressRoute host (cq_url request) (maxTargetBytes limits) with
            | Some route => Good (method, route)
            | None => Bad (egress_error 403 "package egress route is not an install endpoint")
            end))) in
          match checked with
          | Bad e => rejectResponse c (ee_status e) (ee_message e) s
          | Good (method, route) => forwardAuthorizedRoute c method route now s
          end
      | _ => s
      end
  | None => s
  end.

(** The part of [stop] that ends the traffic. *)
Definition stop_listener (s : Listener) : Listener :=
  let s := set_ledger (stop (ls_ledger s)) (set_stopped s) in
  let s := foldl (λ s c, closeClient c s) s (seq 0 (length (ls_clients s))) in
  foldl (λ s o, release_operation o s) s (seq 0 (length (ls_operations s))).

(** A job in a phase of [openUpstream] whose operation was not aborted. *)
Definition with_opening (i : nat) (s : Listener) (f : EgressJob → nat → bool → OpenPhase → Listener) : Listener :=
  match ls_jobs s !! i with
  | Some j =>
      match jb_phase j with
      | Opening o derived phase => if operation_released o s then s else f j o derived phase
      | _ => s
      end
  | None => s
  end.

Definition listener_step (s : Listener) (e : ListenerEvent) : Listener :=
  match e with
  | Connects allowed now => onConnection allowed now s
  | ClientData c bytes => onClientData c bytes s
  | ClientCloses c => closeClient c s
  | ConnectRequest c request head => handleConnect c request head s
  | TlsSecure c servername => onTlsSecure c servername s
  | OuterRequest c request now => handleOuterRequest c request now s
  | TlsRequest c request now => handleInnerRequest c request now s
  | AuditRuns written now =>
      match aw_queue (ls_audit s) with
      | [] => s
      | i :: queue =>
          let w := ls_audit s in
          let s := set_audit (set_writer (aw_open w) queue (aw_written w) (aw_size w) (aw_failed w)) s in
          match ls_jobs s !! i with Some j => onAudit i j written now s | None => s end
      end
  | ResolverAnswers i answers discovered now =>
      with_opening i s (λ j o derived phase,
        match phase with Resolving => onResolved i j o derived answers discovered now s | _ => s end)
  | IdentityAnswers i identities now =>
      with_opening i s (λ j o derived phase,
        match phase with
        | Identifying answers prefixes => onIdentified i j o derived answers prefixes identities now s
        | Reidentifying screened prefixes deadline =>
            onReidentified i j o derived screened prefixes deadline identities now s
        | _ => s
        end)
  | DialSucceeds i now =>
      with_opening i s (λ j o derived phase,
        match phase with
        | Dialling screened prefixes deadline => onDialled i j o derived screened prefixes deadline now s
        | _ => s
        end)
  | TlsEstablished i now =>
      with_opening i s (λ j o derived phase,
        match phase with Securing screened => onSecured i j o derived screened now s | _ => s end)
  | UpstreamAnswers i response now =>
      with_opening i s (λ j o derived phase,
        match phase with
        | Requesting _ => if derived then onMetadataResponse i j o response now s else onDirectResponse i j o response now s
        | _ => s
        end)
  | OpenFails i e now =>
      match ls_jobs s !! i with
      | Some j => match jb_phase j with Opening o derived _ => operation_failed i j o derived e now s | _ => s end
      | None => s
      end
  | UpstreamData i chunk now =>
      match ls_jobs s !! i with
      | Some j =>
          match jb_phase j with
          | ReadingMetadata o body => if operation_released o s then s else onMetadataChunk i j o body chunk now s
          | Streaming o => if operation_released o s then s else onStreamData i j o chunk s
          | _ => s
          end
      | None => s
      end
  | UpstreamEnds i now =>
      match ls_jobs s !! i with
      | Some j =>
          match jb_phase j with
          | ReadingMetadata o body => if operation_released o s then s else onMetadataEnd i j o body now s
          | Streaming o => add_reply (Ended i) (set_job i JobOver (release_operation o s))
          | _ => s
          end
      | None => s
      end
  | UpstreamBreaks i e now =>
      match ls_jobs s !! i with
      | Some j =>
          match jb_phase j with
          | ReadingMetadata o _ => operation_failed i j o true e now s
          | Streaming o => set_job i JobOver (release_operation o s)
          | _ => s
          end
      | None => s
      end
  | StopListener => stop_listener s
  end.

Definition listener_run : Listener → list ListenerEvent → Listener := foldl listener_step.

End listener.
