(* ===== verification/PackageEgressProperties.v ===== *)
(** * Properties of the package-egress listener

    Over every interleaving of clients, resolver answers, dials, audit writes and
    responses: what a request that leaves was decided on, and that no lease outlives its
    client; and where a redirect may point. *)

From Stdlib Require Import Ascii ZArith QArith Qcanon Lia.
From stdpp Require Import gmap.
From S2P Require Import Prelude Numbers JsValue Paths Urls Hashing Regex EgressAddress EgressLedger.
From S2P Require Import UriText PackageNames PackageRegistry MitmProxy PackageEgress.

Local Open Scope Z_scope.
Local Open Scope curtain_scope.

(** ** Routes *)

(** A route that the listener recognises by its own host and path. *)
Definition recognised (limit : Z) (r : PackageEgressRoute) : Prop :=
  classifyPackageEgressRoute (er_host r) (er_path r) limit = Some r.

Lemma classify_fields host path limit r :
  classifyPackageEgressRoute host path limit = Some r → er_host r = host ∧ er_path r = path.
Proof. unfold classifyPackageEgressRoute, new_route. repeat case_match; intros; by simplify_eq. Qed.

Lemma classify_recognised host path limit r :
  classifyPackageEgressRoute host path limit = Some r → recognised limit r.
Proof. intros Hr. unfold recognised. by destruct (classify_fields _ _ _ _ Hr) as [-> ->]. Qed.

(** The host is one of the fixed ones, and decides the ecosystem. *)
Lemma recognised_host limit r :
  recognised limit r → obj_get HOST_ECOSYSTEM (er_host r) = Some (er_ecosystem r) ∧ isStrictOriginPath (er_path r) limit = true.
Proof.
  unfold recognised, classifyPackageEgressRoute. destruct (obj_get HOST_ECOSYSTEM (er_host r)) as [e|]; [|done].
  destruct (isStrictOriginPath _ _); [|done]. cbn [negb]. unfold new_route. intros Hr. split; [|done].
  repeat case_match; simplify_eq; by rewrite <-Hr.
Qed.

Lemma debian_version path pkg : parseDebianPackageUrl path = Some pkg → is_Some (pk_version pkg).
Proof. unfold parseDebianPackageUrl, extractDebianPackageFromFilename. intros Hp. repeat case_match; simplify_eq; by eexists. Qed.

(** An artifact names an exact version of a package. *)
Lemma recognised_artifact limit r :
  recognised limit r → er_kind r = Artifact → ∃ pkg v, er_package r = Some pkg ∧ pk_version pkg = Some v.
Proof.
  unfold recognised, classifyPackageEgressRoute, new_route. intros Hr Hk.
  repeat case_match; simplify_eq; rewrite <-Hr in Hk; try discriminate Hk; rewrite <-Hr; try (by eauto).
  match goal with H : parseDebianPackageUrl _ = Some _ |- _ => destruct (debian_version _ _ H) as [v ?] end.
  by eauto.
Qed.

(** ** Redirects *)

(** The bytes a client may be sent to: a recognised route of the same package. *)
Record redirect_ok (limit : Z) (source target : PackageEgressRoute) : Prop := {
  rk_recognised : recognised limit target;
  rk_ecosystem : er_ecosystem target = er_ecosystem source;
  rk_package : samePackageIdentity (er_package source) (er_package target) = true;
  rk_artifact : er_kind source = Artifact → er_kind target = Artifact;
  rk_bootstrap : er_kind source = Bootstrap → er_kind target = Bootstrap;
  rk_family : er_ecosystem source = Debian →
    debianRepositoryFamily target = debianRepositoryFamily source ∧ is_Some (debianRepositoryFamily source)
    ∧ (er_host source ≠ er_host target → er_path source = er_path target)
}.

Lemma redirect_spec `{WebUrl} source location limit r :
  canonicalizePackageEgressRedirect source location limit = Good r →
  redirect_ok limit source (cr_route r)
  ∧ cr_location r = "https://" +:+ er_host (cr_route r) +:+ er_path (cr_route r).
Proof.
  unfold canonicalizePackageEgressRedirect, refuse_if, egress_bind.
  destruct (resolve_url _ _) as [target|]; [|done]. destruct (_ || _); [done|].
  destruct (classifyPackageEgressRoute _ _ _) as [route|] eqn:Hroute; [|done]. apply classify_recognised in Hroute.
  destruct (bool_decide (er_ecosystem route = _)) eqn:Hec; [|done]. cbn [negb]. apply bool_decide_eq_true in Hec.
  destruct (if negb (er_ecosystem source =? Debian) then _ else _) as [[]|] eqn:Hfam; [|done].
  destruct (samePackageIdentity _ _) eqn:Hsame; [|done]. cbn [negb].
  destruct ((er_kind source =? Artifact) && _ || _) eqn:Hkind; [done|]. intros [= <-]. cbn [cr_route cr_location].
  apply orb_false_iff in Hkind as [Ha Hb]. split; [|done].
  constructor; try done.
  - intros Hk. rewrite Hk in Ha. by apply negb_false_iff, bool_decide_eq_true in Ha.
  - intros Hk. rewrite Hk in Hb. by apply negb_false_iff, bool_decide_eq_true in Hb.
  - intros Hd. revert Hfam. rewrite (bool_decide_eq_true_2 (er_ecosystem source = Debian)) by done. cbn [negb].
    destruct (_ || _) eqn:Hf; [done|]. apply orb_false_iff in Hf as [Hf1 Hf2].
    apply bool_decide_eq_false in Hf1. apply negb_false_iff, bool_decide_eq_true in Hf2.
    intros Hfam. split_and!; [done|by apply not_eq_None_Some|]. intros Hne.
    destruct (decide (er_path source = er_path route)); [done|].
    rewrite !bool_decide_eq_false_2 in Hfam by done. done.
Qed.

(** ** What is decided before a request leaves *)

Section authorisation.
Context `{WebUrl} `{Runtime} `{Net}.
Variable options : PackageEgressOptions.
Variable audit_line : PackageEgressAuditRecord → string.

Local Abbreviation limit := (maxTargetBytes (po_limits options)).
Local Abbreviation step := (listener_step options audit_line).

(** Metadata that the registry gave for the very version, or the epoch for Debian. *)
Definition sourced (contacts : list Contact) (pkg : PackageIdentity) (metadata : option VersionMetadata) : Prop :=
  if pk_registry pkg =? Debian then metadata = Some {| vm_publishedAt := Some (ValidDate 0) |}
  else ∃ i route body published,
    derivedMetadataRoute pkg = Good route ∧ MetadataRead i route body ∈ contacts
    ∧ parseRequestedVersionTimestamp pkg body = Good published
    ∧ metadata = (λ t, {| vm_publishedAt := Some (ValidDate t) |}) <$> published.

(** The policy allows an artifact on such metadata. *)
Definition permitted (contacts : list Contact) (r : PackageEgressRoute) : Prop :=
  ∀ validate, po_policy options = Some validate → er_kind r = Artifact →
  ∃ pkg version now metadata reason,
    er_package r = Some pkg ∧ pk_version pkg = Some version ∧ validate now pkg metadata = Allow reason
    ∧ sourced contacts pkg metadata.

(** The decision is in the audit file. *)
Definition recorded (written : list PackageEgressAuditRecord) (r : PackageEgressRoute) (m : PackageMethod) : Prop :=
  ∃ record, record ∈ written ∧ ar_allow record = true ∧ ar_route record = r ∧ ar_method record = m
    ∧ ar_source record = ClientSource.

(** The route of the metadata of an artifact that the policy must judge. *)
Definition derives (j : EgressJob) : Prop :=
  is_Some (po_policy options) ∧ er_kind (jb_route j) = Artifact ∧
  ∃ pkg, er_package (jb_route j) = Some pkg ∧ is_Some (pk_version pkg) ∧ pk_registry pkg ≠ Debian.

Section history.
(** The events so far. *)
Variable past : list ListenerEvent.

(** What the resolver and the NAT64 discovery answered for a job. *)
Definition resolved (i : nat) (answers : list PackageEgressResolvedAddress) (prefixes : list PackageEgressNat64Prefix)
    (later : list ListenerEvent) : Prop :=
  ∃ discovered t, prefixes = po_nat64Prefixes options ++ discovered
    ∧ (ResolverAnswers i answers discovered t :: later) `sublist_of` past.

(** The address was screened for this host on the answers of the resolver and the identities
    of this machine that came next; [later] events of the job followed. *)
Definition screened_once (i : nat) (host : string) (s : ScreenedPackageEgressDestination)
    (prefixes : list PackageEgressNat64Prefix) (later : list ListenerEvent) : Prop :=
  ∃ answers identities t, screenPackageEgressDestination host answers identities prefixes = Ok s
    ∧ resolved i answers prefixes (IdentityAnswers i identities t :: later).

(** The address was screened for this host; then it was dialled; then the identities of this
    machine were read again, and the address is none of them either. *)
Definition screened_for (i : nat) (host : string) (s : ScreenedPackageEgressDestination) : Prop :=
  ∃ prefixes identities t t',
    screened_once i host s prefixes [DialSucceeds i t; IdentityAnswers i identities t']
    ∧ assertPackageEgressAddressStillAllowed (sd_selected s) identities prefixes = Ok ().

Definition open_ok (i : nat) (host : string) (phase : OpenPhase) : Prop :=
  match phase with
  | Resolving => True
  | Identifying answers prefixes => resolved i answers prefixes []
  | Dialling s prefixes _ => screened_once i host s prefixes []
  | Reidentifying s prefixes _ => ∃ t, screened_once i host s prefixes [DialSucceeds i t]
  | Securing s | Requesting s => screened_for i host s
  end.

Definition metadata_requested (contacts : list Contact) (i : nat) (j : EgressJob) : Prop :=
  ∃ route s, operation_route j true = Good route ∧ Requested i true MethodGet route s ∈ contacts.

Definition phase_allowed (contacts : list Contact) (written : list PackageEgressAuditRecord) (i : nat) (j : EgressJob) : Prop :=
  match jb_phase j with
  | Auditing record refusal =>
      ar_route record = jb_route j ∧ ar_method record = jb_method j ∧ ar_source record = ClientSource
      ∧ (refusal = None → ar_allow record = true ∧ permitted contacts (jb_route j))
  | Opening o derived phase =>
      (if derived then derives j else recorded written (jb_route j) (jb_method j) ∧ permitted contacts (jb_route j))
      ∧ (∀ route, operation_route j derived = Good route → open_ok i (er_host route) phase)
      ∧ (derived = true → ∀ s, phase = Requesting s → metadata_requested contacts i j)
  | ReadingMetadata o body => derives j ∧ metadata_requested contacts i j
  | AuditingMetadata record published =>
      derives j ∧ ∃ pkg route body,
        er_package (jb_route j) = Some pkg ∧ derivedMetadataRoute pkg = Good route
        ∧ MetadataRead i route body ∈ contacts ∧ parseRequestedVersionTimestamp pkg body = Good published
  | _ => True
  end.

Definition job_ok (contacts : list Contact) (written : list PackageEgressAuditRecord) (i : nat) (j : EgressJob) : Prop :=
  recognised limit (jb_route j) ∧ phase_allowed contacts written i j.

Definition contact_ok (contacts : list Contact) (written : list PackageEgressAuditRecord) (c : Contact) : Prop :=
  match c with
  | Dialled i host address =>
      ∃ asked prefixes s, screened_once i asked s prefixes [] ∧ sd_hostname s = host ∧ sd_selected s = address
  | Requested i false method route s =>
      recognised limit route ∧ recorded written route method ∧ permitted contacts route ∧ screened_for i (er_host route) s
  | Requested i true method route s =>
      method = MethodGet ∧ screened_for i (er_host route) s
      ∧ ∃ artifact pkg, recognised limit artifact ∧ er_kind artifact = Artifact ∧ er_package artifact = Some pkg
          ∧ derivedMetadataRoute pkg = Good route ∧ is_Some (po_policy options)
  | MetadataRead i route _ => ∃ s, Requested i true MethodGet route s ∈ contacts
  end.

Record authorised (s : Listener) : Prop := {
  au_jobs : ∀ i j, ls_jobs s !! i = Some j → job_ok (ls_contacts s) (aw_written (ls_audit s)) i j;
  au_contacts : ∀ c, c ∈ ls_contacts s → contact_ok (ls_contacts s) (aw_written (ls_audit s)) c
}.

(** *** Contacts and records are only added *)

Lemma sourced_app contacts more pkg metadata : sourced contacts pkg metadata → sourced (contacts ++ more) pkg metadata.
Proof.
  unfold sourced. destruct (_ =? Debian); [done|]. intros (i & route & body & p & ? & ? & ?).
  exists i, route, body, p. split; [done|]. split; [by apply elem_of_app; left|done].
Qed.

Lemma permitted_app contacts more r : permitted contacts r → permitted (contacts ++ more) r.
Proof.
  intros Hp validate Hv Hk. destruct (Hp validate Hv Hk) as (pkg & v & now & md & reason & ? & ? & ? & ?).
  exists pkg, v, now, md, reason. eauto using sourced_app.
Qed.

Lemma recorded_app written more r m : recorded written r m → recorded (written ++ more) r m.
Proof. intros (rec & ? & ?). exists rec. split; [by apply elem_of_app; left|done]. Qed.

Lemma requested_app contacts more i j : metadata_requested contacts i j → metadata_requested (contacts ++ more) i j.
Proof. intros (route & s & ? & ?). exists route, s. split; [done|by apply elem_of_app; left]. Qed.

Lemma job_ok_app contacts more written more' i j :
  job_ok contacts written i j → job_ok (contacts ++ more) (written ++ more') i j.
Proof.
  intros [? Hp]. split; [done|]. unfold phase_allowed in *.
  destruct (jb_phase j) as [rec rf|o [] ph|o body|rec p|rec e|o|]; try done.
  - destruct Hp as (? & ? & ? & Hr). split_and!; try done. intros Hn. destruct (Hr Hn). split; [done|by apply permitted_app].
  - destruct Hp as (? & ? & Hr). split_and!; try done. intros _ s Hs. by eapply requested_app, Hr.
  - destruct Hp as ([? ?] & ? & ?). split_and!; try done; [by apply recorded_app|by apply permitted_app].
  - destruct Hp. split; [done|by apply requested_app].
  - destruct Hp as (? & pkg & route & body & ? & ? & ? & ?). split; [done|]. exists pkg, route, body.
    split_and!; try done. by apply elem_of_app; left.
Qed.

Lemma contact_ok_app contacts more written more' c :
  contact_ok contacts written c → contact_ok (contacts ++ more) (written ++ more') c.
Proof.
  destruct c as [i host a|i [] m route s|i route body]; cbn; try done.
  - intros (? & ? & ? & ?). split_and!; try done; [by apply recorded_app|by apply permitted_app].
  - intros (s & ?). exists s. by apply elem_of_app; left.
Qed.

(** *** What does not touch jobs, contacts and the audit *)

Definition core (s : Listener) : list EgressJob * list Contact * AuditWriter := (ls_jobs s, ls_contacts s, ls_audit s).

Lemma charge_client_core c n s : core (charge_client options c n s).1 = core s.
Proof. unfold charge_client. repeat case_match; done. Qed.

Lemma charge_operation_core o n s : core (charge_operation options o n s).1 = core s.
Proof. unfold charge_operation. repeat case_match; done. Qed.

Lemma release_operation_core o s : core (release_operation o s) = core s.
Proof. unfold release_operation. repeat case_match; done. Qed.

Lemma release_all_core l s : core (foldl (λ s o, release_operation o s) s l) = core s.
Proof. revert s. induction l as [|o l IH]; intros s; [done|]. cbn. by rewrite IH, release_operation_core. Qed.

Lemma closeClient_core c s : core (closeClient c s) = core s.
Proof.
  unfold closeClient. repeat case_match; try done. cbv zeta.
  match goal with |- core (set_ledger ?g ?s1) = _ => change (core s1 = core s) end. by rewrite release_all_core.
Qed.

Lemma close_all_core l s : core (foldl (λ s c, closeClient c s) s l) = core s.
Proof. revert s. induction l as [|c l IH]; intros s; [done|]. cbn. by rewrite IH, closeClient_core. Qed.

Lemma stop_listener_core s : core (stop_listener s) = core s.
Proof. unfold stop_listener. cbv zeta. by rewrite release_all_core, close_all_core. Qed.

Lemma rejectResponse_core c status message s : core (rejectResponse options c status message s) = core s.
Proof.
  unfold rejectResponse. pose proof (charge_client_core c (estimateResponseBytes status (message +:+ newline)) s) as Hc.
  by destruct (charge_client _ _ _ _) as [? []].
Qed.

Lemma rejectRaw_core c status message s : core (rejectRaw options c status message s) = core s.
Proof.
  unfold rejectRaw. cbv zeta. match goal with |- context [charge_client options c ?n s] => pose proof (charge_client_core c n s) as Hc end.
  by destruct (charge_client _ _ _ _) as [? []].
Qed.

Lemma core_eq s s' :
  core s' = core s → ls_jobs s' = ls_jobs s ∧ ls_contacts s' = ls_contacts s ∧ ls_audit s' = ls_audit s.
Proof. unfold core. by intros [= -> -> ->]. Qed.

Lemma authorised_core s s' : core s' = core s → authorised s → authorised s'.
Proof. intros (Hj & Hc & Ha)%core_eq []. constructor; by rewrite ?Hj, ?Hc, ?Ha. Qed.

(** *** How a state that is authorised stays so *)

Lemma authorised_set_job i p s :
  authorised s →
  (∀ j, ls_jobs s !! i = Some j → phase_allowed (ls_contacts s) (aw_written (ls_audit s)) i (at_phase p j)) →
  authorised (set_job i p s).
Proof.
  intros [Hjobs ?] Hp. constructor; [|done]. intros k j. cbn. destruct (decide (k = i)) as [->|Hne].
  - rewrite list_lookup_alter_eq. intros (j0 & Hj0 & ->)%fmap_Some. split; [|by apply Hp].
    by destruct (Hjobs i j0 Hj0).
  - rewrite list_lookup_alter_ne by done. apply Hjobs.
Qed.

Lemma authorised_over i s : authorised s → authorised (set_job i JobOver s).
Proof. intros Hs. by apply authorised_set_job. Qed.

Lemma authorised_contact c s :
  authorised s → contact_ok (ls_contacts s ++ [c]) (aw_written (ls_audit s)) c → authorised (add_contact c s).
Proof.
  intros [Hj Hc] Hnew. rewrite <-(app_nil_r (aw_written _)) in Hnew. constructor; cbn.
  - intros i j ?%Hj. rewrite <-(app_nil_r (aw_written _)). by apply job_ok_app.
  - rewrite <-(app_nil_r (aw_written _)).
    intros c' [?%Hc| ->%list_elem_of_singleton]%elem_of_app; [by apply contact_ok_app|done].
Qed.

Lemma authorised_audit w more s :
  aw_written w = aw_written (ls_audit s) ++ more → authorised s → authorised (set_audit w s).
Proof.
  intros Hw [Hj Hc]. constructor; cbn; rewrite Hw.
  - intros i j ?%Hj. rewrite <-(app_nil_r (ls_contacts _)). by apply job_ok_app.
  - intros c ?%Hc. rewrite <-(app_nil_r (ls_contacts _)). by apply contact_ok_app.
Qed.

Lemma authorised_reject i e s : authorised s → authorised (rejectPackageError options i e s).
Proof.
  intros Hs. unfold rejectPackageError. destruct (ls_jobs s !! i) as [j|]; [|done].
  apply authorised_over. by eapply authorised_core; [apply rejectResponse_core|].
Qed.

Lemma audit_append_written i record w : aw_written (audit_append audit_line i record w).1 = aw_written w.
Proof. unfold audit_append. by repeat case_match. Qed.

Lemma authorised_append i record phase refused s :
  authorised s →
  (∀ j, ls_jobs s !! i = Some j → phase_allowed (ls_contacts s) (aw_written (ls_audit s)) i (at_phase phase j)) →
  (∀ e s', authorised s' → authorised (refused e s')) →
  authorised (append_audit audit_line i record phase refused s).
Proof.
  intros Hs Hp Hr. unfold append_audit. pose proof (audit_append_written i record (ls_audit s)) as Hw.
  destruct (audit_append _ _ _ _) as [w [e|]]; cbn in Hw.
  - apply Hr, (authorised_audit w []); [by rewrite app_nil_r|done].
  - apply authorised_set_job; [apply (authorised_audit w []); [by rewrite app_nil_r|done]|].
    cbn. by rewrite Hw.
Qed.

Lemma authorised_metadata_failed i j e now s : authorised s → authorised (metadata_failed options audit_line i j e now s).
Proof.
  intros Hs. unfold metadata_failed. destruct (operation_route j true) as [route|]; [|by apply authorised_reject].
  apply authorised_append; [done|done|]. intros. by apply authorised_reject.
Qed.

Lemma authorised_failed i j o derived e now s :
  authorised s → authorised (operation_failed options audit_line i j o derived e now s).
Proof.
  intros Hs. unfold operation_failed.
  assert (authorised (release_operation o s)) by (by eapply authorised_core; [apply release_operation_core|]).
  destruct derived; [by apply authorised_metadata_failed|by apply authorised_reject].
Qed.

Lemma authorised_open_phase i j o derived phase now s :
  authorised s →
  (∀ p j', phase = Good p → ls_jobs s !! i = Some j' →
     phase_allowed (ls_contacts s) (aw_written (ls_audit s)) i (at_phase (Opening o derived p) j')) →
  authorised (open_phase options audit_line i j o derived phase now s).
Proof.
  intros Hs Hp. unfold open_phase. destruct phase as [p|e]; [|by apply authorised_failed].
  apply authorised_set_job; [done|]. intros j' ?. by apply Hp.
Qed.

(** *** The handlers *)

Lemma authorised_audit_client i j allow code reason refusal now s :
  authorised s → ls_jobs s !! i = Some j →
  (refusal = None → allow = true ∧ permitted (ls_contacts s) (jb_route j)) →
  authorised (audit_client options audit_line i j allow code reason refusal now s).
Proof.
  intros Hs Hj Hr. unfold audit_client. apply authorised_append; [done| |intros; by apply authorised_reject].
  intros j' Hj'. rewrite Hj in Hj'. injection Hj' as <-. by split_and!.
Qed.

Lemma authorised_decided i j decision allowed now s :
  authorised s → ls_jobs s !! i = Some j →
  (∀ reason, decision = Allow reason → permitted (ls_contacts s) (jb_route j)) →
  authorised (decided options audit_line i j decision allowed now s).
Proof.
  intros Hs Hj Hp. unfold decided. apply authorised_audit_client; [done..|].
  destruct decision as [reason|]; [|done]. intros _. split; [done|by apply (Hp reason)].
Qed.

Definition may_open (s : Listener) (j : EgressJob) (derived : bool) : Prop :=
  if derived then derives j
  else recorded (aw_written (ls_audit s)) (jb_route j) (jb_method j) ∧ permitted (ls_contacts s) (jb_route j).

Lemma authorised_start i j derived now s :
  authorised s → ls_jobs s !! i = Some j → may_open s j derived →
  authorised (start_operation options audit_line i j derived now s).
Proof.
  intros Hs Hj Hm. unfold start_operation. destruct (ls_clients s !! jb_client j) as [ctx|]; [|done].
  destruct (operation_route j derived) as [route|]; [|by apply authorised_reject].
  destruct (admitUpstream _ _ _ _ _) as [g [lease|e]]; cbv zeta.
  2: { assert (authorised (set_ledger g s)) by (by apply (authorised_core s)).
       destruct derived; [by apply authorised_metadata_failed|by apply authorised_reject]. }
  match goal with |- context [charge_operation options ?o ?n ?s1] =>
    pose proof (charge_operation_core o n s1) as Hc; destruct (charge_operation options o n s1) as [s2 within] end.
  change (core s2 = core s) in Hc. assert (authorised s2) by (by apply (authorised_core s)).
  destruct within; [|by apply authorised_failed]. apply core_eq in Hc as (Hc1 & Hc2 & Hc3).
  apply authorised_open_phase; [done|]. intros p j' Hp Hj'. rewrite Hc1, Hj in Hj'. injection Hj' as <-. rewrite Hc2, Hc3.
  destruct (remainingTimeout _ _ _ _ _); cbn in Hp; simplify_eq. by split_and!.
Qed.

Lemma authorised_request_direct i j now s :
  authorised s → ls_jobs s !! i = Some j → may_open s j false → authorised (request_direct options audit_line i j now s).
Proof. intros. unfold request_direct. destruct (client_closed _ _); [by apply authorised_reject|by apply authorised_start]. Qed.

Lemma permitted_other contacts r : (is_Some (po_policy options) → er_kind r ≠ Artifact) → permitted contacts r.
Proof. intros Hr validate Hv Hk. by destruct Hr. Qed.

Lemma authorised_authorize i j now s :
  authorised s → ls_jobs s !! i = Some j → authorised (authorizeClientRoute options audit_line i j now s).
Proof.
  intros Hs Hj. unfold authorizeClientRoute. destruct (au_jobs _ Hs i j Hj) as [Hrec _].
  destruct (po_policy options) as [validate|] eqn:Hpol.
  2: { apply authorised_audit_client; [done..|]. intros _. split; [done|]. apply permitted_other. rewrite Hpol. by intros []. }
  destruct (er_kind (jb_route j)) eqn:Hk.
  1,3: apply authorised_audit_client; [done..|]; intros _; split; [done|]; apply permitted_other; by rewrite Hk.
  destruct (recognised_artifact _ _ Hrec Hk) as (pkg & v & Hpkg & Hv). rewrite Hpkg, Hv.
  case_bool_decide as Hdeb.
  - apply authorised_decided; [done..|]. intros reason Hd validate' Hval _. rewrite Hpol in Hval. injection Hval as <-.
    eexists pkg, v, now, _, reason. split_and!; [done..|]. unfold sourced. by rewrite bool_decide_eq_true_2.
  - apply authorised_start; [done..|]. split; [by rewrite Hpol|]. split; [done|]. exists pkg. by rewrite Hv.
Qed.

Lemma authorised_forward c method route now s :
  authorised s → recognised limit route → authorised (forwardAuthorizedRoute options audit_line c method route now s).
Proof.
  intros [Hj Hc] Hr. unfold forwardAuthorizedRoute. cbv zeta.
  match goal with |- context [set_jobs ?l s] => assert (Hs : authorised (set_jobs l s)) end.
  { constructor; cbn; [|done]. intros i j [?|[_ Heq]]%lookup_app_Some; [by apply Hj|].
    apply list_lookup_singleton_Some in Heq as [_ <-]. by split. }
  destruct (client_closed _ _); [by apply authorised_reject|]. apply authorised_authorize; [done|].
  cbn. by rewrite lookup_app_r, Nat.sub_diag by done.
Qed.

Lemma authorised_write record written s :
  authorised s →
  let '(w, e) := audit_write audit_line record written (ls_audit s) in
  authorised (set_audit w s) ∧ (e = None → record ∈ aw_written w).
Proof.
  intros Hs. destruct (audit_write _ _ _ _) as [w e] eqn:Ew. unfold audit_write in Ew.
  repeat case_match; simplify_eq; (split; [|try done]);
    try (by apply (authorised_audit _ []); [rewrite app_nil_r|]); try by apply (authorised_audit _ [record]).
  intros _. cbn. apply elem_of_app. right. left.
Qed.

Lemma authorised_onAudit i j written now s :
  authorised s → ls_jobs s !! i = Some j → authorised (onAudit options audit_line i j written now s).
Proof.
  intros Hs Hj. unfold onAudit. destruct (au_jobs _ Hs i j Hj) as [Hrec Hp]. unfold phase_allowed in Hp.
  pose proof (λ record, authorised_write record written s Hs) as Hw.
  destruct (jb_phase j) as [record refusal|o d ph|o body|record published|record e|o|] eqn:Hph; try done;
    specialize (Hw record); destruct (audit_write _ _ _ _) as [w [e'|]]; destruct Hw as [Hs' Hin]; cbn.
  1,5: by apply authorised_reject.
  - destruct Hp as (Hr & Hm & Hsrc & Hok). destruct refusal as [e|]; [by apply authorised_reject|].
    apply authorised_request_direct; [done..|]. destruct (Hok eq_refl) as [Ha Hperm]. split; [|done].
    exists record. split_and!; try done. by apply Hin.
  - by apply authorised_metadata_failed.
  - destruct Hp as ((_ & Hk & pkg0 & Hpkg0 & [v Hv] & Hdeb) & pkg & route & body & Hpkg & Hroute & Hbody & Hparse).
    rewrite Hpkg in Hpkg0. injection Hpkg0 as <-.
    destruct (po_policy options) as [validate|] eqn:Hpol; [|done]. rewrite Hpkg.
    apply authorised_decided; [done..|]. intros reason Hd validate' Hval _. rewrite Hpol in Hval. injection Hval as <-.
    eexists pkg, v, now, _, reason. split_and!; [done..|]. unfold sourced. rewrite bool_decide_eq_false_2 by done.
    by exists i, route, body, published.
  - by apply authorised_reject.
Qed.

Lemma egress_bind_good {A B} (m : egress A) (f : A → egress B) b :
  egress_bind m f = Good b → ∃ a, m = Good a ∧ f a = Good b.
Proof. destruct m as [a|]; [by exists a|done]. Qed.

Lemma plain_good {A} (r : result A) a : plain r = Good a → r = Ok a.
Proof. destruct r; cbn; congruence. Qed.

(** One await of [openUpstream] after another. *)
Lemma opening_next s i j o derived phase phase' :
  authorised s → ls_jobs s !! i = Some j → jb_phase j = Opening o derived phase →
  (∀ route, operation_route j derived = Good route → open_ok i (er_host route) phase → open_ok i (er_host route) phase') →
  (derived = true → ∀ sc, phase' = Requesting sc → metadata_requested (ls_contacts s) i j) →
  phase_allowed (ls_contacts s) (aw_written (ls_audit s)) i (at_phase (Opening o derived phase') j).
Proof.
  intros Hs Hj Hph Hopen Hreq. destruct (au_jobs _ Hs i j Hj) as [_ Hp]. unfold phase_allowed in Hp. rewrite Hph in Hp.
  destruct Hp as (Hm & Ho & _). split; [exact Hm|]. split; [|exact Hreq]. intros route Hroute. apply Hopen; auto.
Qed.

Lemma opening_base s i j o derived phase :
  authorised s → ls_jobs s !! i = Some j → jb_phase j = Opening o derived phase →
  recognised limit (jb_route j) ∧ may_open s j derived
  ∧ (∀ route, operation_route j derived = Good route → open_ok i (er_host route) phase)
  ∧ (derived = true → ∀ sc, phase = Requesting sc → metadata_requested (ls_contacts s) i j).
Proof.
  intros Hs Hj Hph. destruct (au_jobs _ Hs i j Hj) as [Hrec Hp]. unfold phase_allowed in Hp. rewrite Hph in Hp. by split.
Qed.

Lemma authorised_opening s i j o derived phase result now :
  authorised s → ls_jobs s !! i = Some j → jb_phase j = Opening o derived phase →
  (∀ p, result = Good p → (∀ sc, p ≠ Requesting sc)
     ∧ ∀ route, operation_route j derived = Good route → open_ok i (er_host route) phase → open_ok i (er_host route) p) →
  authorised (open_phase options audit_line i j o derived result now s).
Proof.
  intros Hs Hj Hph Hr. apply authorised_open_phase; [done|]. intros p j' Hp Hj'. rewrite Hj in Hj'. injection Hj' as <-.
  destruct (Hr p Hp) as [Hnr Ho]. eapply opening_next; [done..|]. intros _ sc Hsc. by destruct (Hnr sc).
Qed.

Lemma authorised_resolved i j o derived answers discovered now s :
  authorised s → ls_jobs s !! i = Some j → jb_phase j = Opening o derived Resolving →
  [ResolverAnswers i answers discovered now] `sublist_of` past →
  authorised (onResolved options audit_line i j o derived answers discovered now s).
Proof.
  intros Hs Hj Hph Hpast. eapply authorised_opening; [done..|]. intros p (? & _ & [= <-])%egress_bind_good.
  split; [done|]. intros route _ _. by exists discovered, now.
Qed.

Lemma authorised_identified i j o derived answers prefixes identities now s :
  authorised s → ls_jobs s !! i = Some j → jb_phase j = Opening o derived (Identifying answers prefixes) →
  (∀ route, operation_route j derived = Good route → resolved i answers prefixes [IdentityAnswers i identities now]) →
  authorised (onIdentified options audit_line i j o derived answers prefixes identities now s).
Proof.
  intros Hs Hj Hph Hpast. unfold onIdentified. cbv zeta.
  destruct (egress_bind (operation_route j derived) _) as [[screened deadline]|e] eqn:Hc; [|by apply authorised_failed].
  apply egress_bind_good in Hc as (route & Hroute & (sc & Hsc%plain_good & Hc)%egress_bind_good).
  apply egress_bind_good in Hc as (? & _ & (? & _ & [= -> <-])%egress_bind_good).
  assert (screened_once i (er_host route) screened prefixes []) as Honce by (exists answers, identities, now; eauto).
  apply authorised_contact; [|by exists (er_host route), prefixes, screened].
  apply authorised_set_job; [done|]. intros j' Hj'. rewrite Hj in Hj'. injection Hj' as <-.
  eapply opening_next; [done..| |done]. intros route' Hroute' _. rewrite Hroute in Hroute'. by injection Hroute' as <-.
Qed.

Lemma authorised_dialled i j o derived screened prefixes deadline now s :
  authorised s → ls_jobs s !! i = Some j → jb_phase j = Opening o derived (Dialling screened prefixes deadline) →
  (∀ route, operation_route j derived = Good route → screened_once i (er_host route) screened prefixes [DialSucceeds i now]) →
  authorised (onDialled options audit_line i j o derived screened prefixes deadline now s).
Proof.
  intros Hs Hj Hph Hpast. eapply authorised_opening; [done..|].
  intros p (? & _ & (? & _ & [= <-])%egress_bind_good)%egress_bind_good. split; [done|].
  intros route Hroute _. exists now. by apply Hpast.
Qed.

Lemma authorised_reidentified i j o derived screened prefixes deadline identities now s :
  authorised s → ls_jobs s !! i = Some j → jb_phase j = Opening o derived (Reidentifying screened prefixes deadline) →
  (∀ route, operation_route j derived = Good route → ∃ t,
     screened_once i (er_host route) screened prefixes [DialSucceeds i t; IdentityAnswers i identities now]) →
  authorised (onReidentified options audit_line i j o derived screened prefixes deadline identities now s).
Proof.
  intros Hs Hj Hph Hpast. eapply authorised_opening; [done..|].
  intros p ([] & Ha%plain_good & (? & _ & (? & _ & [= <-])%egress_bind_good)%egress_bind_good)%egress_bind_good.
  split; [done|]. intros route Hroute _. destruct (Hpast route Hroute) as [t ?]. by exists prefixes, identities, t, now.
Qed.

Lemma derived_artifact s i j route :
  authorised s → ls_jobs s !! i = Some j → derives j → operation_route j true = Good route →
  ∃ pkg, recognised limit (jb_route j) ∧ er_kind (jb_route j) = Artifact ∧ er_package (jb_route j) = Some pkg
    ∧ derivedMetadataRoute pkg = Good route ∧ is_Some (po_policy options).
Proof.
  intros Hs Hj (Hpol & Hk & pkg & Hpkg & _ & _) Hroute. destruct (au_jobs _ Hs i j Hj) as [Hrec _].
  exists pkg. unfold operation_route in Hroute. by rewrite Hpkg in Hroute.
Qed.

Lemma authorised_secured i j o derived screened now s :
  authorised s → ls_jobs s !! i = Some j → jb_phase j = Opening o derived (Securing screened) →
  authorised (onSecured options audit_line i j o derived screened now s).
Proof.
  intros Hs Hj Hph. unfold onSecured.
  destruct (egress_bind _ _) as [route|e] eqn:Hc; [|by apply authorised_failed].
  apply egress_bind_good in Hc as (? & _ & Hroute).
  destruct (opening_base _ _ _ _ _ _ Hs Hj Hph) as (Hrec & Hm & Ho & _). specialize (Ho route Hroute). cbn in Ho.
  set (c := Requested i derived (if derived then MethodGet else jb_method j) route screened).
  assert (Hc : authorised (add_contact c s)).
  { apply authorised_contact; [done|]. destruct derived; cbn.
    - split; [done|]. split; [done|]. destruct (derived_artifact _ _ _ _ Hs Hj Hm Hroute) as (pkg & ?).
      exists (jb_route j), pkg. naive_solver.
    - injection Hroute as <-. destruct Hm. split_and!; try done. by apply permitted_app. }
  change (authorised (set_job i (Opening o derived (Requesting screened)) (add_contact c s))).
  apply authorised_set_job; [done|]. intros j' Hj'. change (ls_jobs s !! i = Some j') in Hj'.
  rewrite Hj in Hj'. injection Hj' as <-.
  eapply opening_next; [exact Hc|exact Hj|exact Hph|by intros|]. intros -> sc _.
  exists route, screened. split; [done|]. cbn. apply elem_of_app. right. left.
Qed.

Lemma authorised_charge_operation o n s : authorised s → authorised (charge_operation options o n s).1.
Proof. apply authorised_core, charge_operation_core. Qed.

Lemma authorised_charge_client c n s : authorised s → authorised (charge_client options c n s).1.
Proof. apply authorised_core, charge_client_core. Qed.

(** A phase of the metadata request, in a state with the same jobs and contacts. *)
Lemma authorised_reading s s' i j o body :
  authorised s → core s' = core s → ls_jobs s !! i = Some j → derives j → metadata_requested (ls_contacts s) i j →
  authorised (set_job i (ReadingMetadata o body) s').
Proof.
  intros Hs Hc Hj Hd Hm. apply authorised_set_job; [by apply (authorised_core s)|].
  apply core_eq in Hc as (-> & -> & ->). intros j' Hj'. rewrite Hj in Hj'. injection Hj' as <-. by split.
Qed.

Lemma authorised_metadata_response i j o sc response now s :
  authorised s → ls_jobs s !! i = Some j → jb_phase j = Opening o true (Requesting sc) →
  authorised (onMetadataResponse options audit_line i j o response now s).
Proof.
  intros Hs Hj Hph. destruct (opening_base _ _ _ _ _ _ Hs Hj Hph) as (_ & Hd & _ & Hm). cbn in Hd.
  specialize (Hm eq_refl sc eq_refl). unfold onMetadataResponse. case_match; [by apply authorised_failed|].
  pose proof (authorised_charge_operation o (estimateIncomingResponseHeaderBytes response) s Hs) as Hs1.
  pose proof (charge_operation_core o (estimateIncomingResponseHeaderBytes response) s) as Hc.
  destruct (charge_operation _ _ _ _) as [s1 within]. cbn in Hs1, Hc. destruct within; [|by apply authorised_failed].
  cbn [negb]. cbv zeta. destruct (parseDeclaredLength _) as [[n|]|e]; [|by eapply (authorised_reading s _ _ j)|by apply authorised_failed].
  case_match; [by apply authorised_failed|by eapply (authorised_reading s _ _ j)].
Qed.

Lemma authorised_chunk i j o body chunk now s :
  authorised s → ls_jobs s !! i = Some j → jb_phase j = ReadingMetadata o body →
  authorised (onMetadataChunk options audit_line i j o body chunk now s).
Proof.
  intros Hs Hj Hph. destruct (au_jobs _ Hs i j Hj) as [_ Hp]. unfold phase_allowed in Hp. rewrite Hph in Hp.
  destruct Hp as [Hd Hm]. unfold onMetadataChunk. destruct (assertClientActive _ _); [|by apply authorised_failed].
  cbv zeta. case_match; [by apply authorised_failed|].
  pose proof (authorised_charge_operation o (byte_length chunk) s Hs) as Hs1.
  pose proof (charge_operation_core o (byte_length chunk) s) as Hc.
  destruct (charge_operation _ _ _ _) as [s1 within]. cbn in Hs1, Hc.
  case_match; [by apply authorised_failed|by eapply (authorised_reading s _ _ j)].
Qed.

Lemma authorised_metadata_end i j o body now s :
  authorised s → ls_jobs s !! i = Some j → jb_phase j = ReadingMetadata o body →
  authorised (onMetadataEnd options audit_line i j o body now s).
Proof.
  intros Hs Hj Hph. destruct (au_jobs _ Hs i j Hj) as [_ Hp]. unfold phase_allowed in Hp. rewrite Hph in Hp.
  destruct Hp as [Hd (route & sc & Hroute & Hreq)]. unfold onMetadataEnd.
  destruct (er_package (jb_route j)) as [pkg|] eqn:Hpkg; [|done]. rewrite Hroute.
  assert (Hder : derivedMetadataRoute pkg = Good route) by (by unfold operation_route in Hroute; rewrite Hpkg in Hroute).
  pose proof (release_operation_core o s) as (Hc1 & Hc2 & Hc3)%core_eq.
  assert (Hs1 : authorised (add_contact (MetadataRead i route body) (release_operation o s))).
  { apply authorised_contact; [by eapply authorised_core; [apply release_operation_core|]|].
    exists sc. rewrite Hc2. by apply elem_of_app; left. }
  cbv zeta. destruct (parseRequestedVersionTimestamp pkg body) as [published|e] eqn:Hparse;
    [|by apply authorised_metadata_failed].
  apply authorised_append; [done| |intros; by apply authorised_metadata_failed].
  intros j' Hj'. cbn in Hj'. rewrite Hc1, Hj in Hj'. injection Hj' as <-.
  split; [done|]. exists pkg, route, body. split_and!; try done. cbn. apply elem_of_app. right. left.
Qed.

Lemma authorised_direct_response i j o response now s :
  authorised s → authorised (onDirectResponse options audit_line i j o response now s).
Proof.
  intros Hs. unfold onDirectResponse.
  pose proof (authorised_charge_operation o (estimateIncomingResponseHeaderBytes response) s Hs) as Hs1.
  destruct (charge_operation _ _ _ _) as [s1 within]. cbn in Hs1. destruct within; [|by apply authorised_failed].
  cbn [negb]. destruct (checked_headers _ _ _) as [headers|e]; [|by apply authorised_failed].
  pose proof (authorised_charge_client (jb_client j) (estimateOutgoingResponseHeaderBytes (us_status response) headers) s1 Hs1) as Hs2.
  destruct (charge_client _ _ _ _) as [s2 within]. cbn in Hs2. destruct within; [|by apply authorised_failed].
  apply authorised_set_job; [by apply (authorised_core s2)|done].
Qed.

Lemma authorised_stream i j o chunk s : authorised s → authorised (onStreamData options i j o chunk s).
Proof.
  intros Hs. unfold onStreamData. pose proof (authorised_charge_operation o (byte_length chunk) s Hs) as Hs1.
  destruct (charge_operation _ _ _ _) as [s1 up]. cbn in Hs1.
  assert (authorised (if up then charge_client options (jb_client j) (byte_length chunk) s1 else (s1, false)).1) as Hs2
    by (destruct up; [by apply authorised_charge_client|done]).
  destruct (if up then _ else _) as [s2 within]. cbn in Hs2. destruct within.
  - case_match; [done|by apply (authorised_core s2)].
  - apply authorised_over. by eapply authorised_core; [apply release_operation_core|].
Qed.

Lemma authorised_close c s : authorised s → authorised (closeClient c s).
Proof. apply authorised_core, closeClient_core. Qed.

Lemma authorised_client_data c n s : authorised s → authorised (onClientData options c n s).
Proof.
  intros Hs. unfold onClientData. destruct (ls_clients s !! c) as [ctx|]; [|done].
  pose proof (authorised_charge_client c (Z.of_nat n) s Hs) as Hs1. destruct (charge_client _ _ _ _) as [s1 within].
  cbn in Hs1. destruct within; [|by apply authorised_close]. cbn [negb]. cbv zeta. destruct (ec_stage ctx); try done.
  assert (authorised (set_stage c (Handshake host (bytes + Z.of_nat n)) s1)) by (by apply (authorised_core s1)).
  case_match; [by apply authorised_close|done].
Qed.

Lemma authorised_connect c request head s : authorised s → authorised (handleConnect options c request head s).
Proof.
  intros Hs. unfold handleConnect. destruct (client_closed c s); [done|]. destruct (consume_authorization _ _) as [ok rq].
  assert (Hraw : ∀ st m s, authorised s → authorised (rejectRaw options c st m s))
    by (intros; by eapply authorised_core; [apply rejectRaw_core|]).
  cbv zeta. destruct (egress_bind _ _) as [host|e]; [|by apply Hraw].
  match goal with |- context [charge_client options c ?n s] => pose proof (authorised_charge_client c n s Hs) as Hs1 end.
  destruct (charge_client _ _ _ _) as [s1 within]. cbn in Hs1. destruct within; [by apply (authorised_core s1)|by apply Hraw].
Qed.

Lemma authorised_outer c request now s : authorised s → authorised (handleOuterRequest options audit_line c request now s).
Proof.
  intros Hs. unfold handleOuterRequest. destruct (client_closed c s); [done|]. destruct (consume_authorization _ _) as [ok rq].
  assert (Hrej : ∀ st m s, authorised s → authorised (rejectResponse options c st m s))
    by (intros; by eapply authorised_core; [apply rejectResponse_core|]).
  destruct ok; [|by apply Hrej]. cbn [negb]. destruct (isExactHealthRequest rq).
  - match goal with |- context [charge_client options c ?n s] => pose proof (authorised_charge_client c n s Hs) as Hs1 end.
    destruct (charge_client _ _ _ _) as [s1 within]. cbn in Hs1. destruct within; [by apply (authorised_core s1)|by apply Hrej].
  - destruct (egress_bind _ _) as [[method route]|e] eqn:Hc; [|by apply Hrej]. apply authorised_forward; [done|].
    apply egress_bind_good in Hc as (? & _ & (m & _ & (target & _ & Hc)%egress_bind_good)%egress_bind_good).
    destruct (classifyPackageEgressRoute _ _ _) eqn:Hr; [|done]. destruct (_ =? Debian); simplify_eq.
    by eapply classify_recognised.
Qed.

Lemma authorised_inner c request now s : authorised s → authorised (handleInnerRequest options audit_line c request now s).
Proof.
  intros Hs. unfold handleInnerRequest. destruct (ls_clients s !! c) as [ctx|]; [|done]. destruct (ec_stage ctx); try done.
  cbv zeta. destruct (egress_bind _ _) as [[method route]|e] eqn:Hc.
  - apply authorised_forward; [done|].
    apply egress_bind_good in Hc as (? & _ & (m & _ & (? & _ & Hc)%egress_bind_good)%egress_bind_good).
    destruct (classifyPackageEgressRoute _ _ _) eqn:Hr; [|done]. simplify_eq. by eapply classify_recognised.
  - by eapply authorised_core; [apply rejectResponse_core|].
Qed.

Lemma authorised_with_opening i s f :
  authorised s →
  (∀ j o derived phase, ls_jobs s !! i = Some j → jb_phase j = Opening o derived phase → authorised (f j o derived phase)) →
  authorised (with_opening i s f).
Proof.
  intros Hs Hf. unfold with_opening. destruct (ls_jobs s !! i) as [j|] eqn:Hj; [|done].
  destruct (jb_phase j) eqn:Hph; try done. destruct (operation_released _ _); [done|]. by apply Hf.
Qed.

End history.

(** *** The events grow *)

Lemma resolved_app past i answers prefixes later e :
  resolved past i answers prefixes later → resolved (past ++ [e]) i answers prefixes (later ++ [e]).
Proof. intros (d & t & ? & ?). exists d, t. split; [done|]. change (?x :: later ++ [e]) with ((x :: later) ++ [e]). by apply sublist_app. Qed.

Lemma resolved_more past more i answers prefixes later :
  resolved past i answers prefixes later → resolved (past ++ more) i answers prefixes later.
Proof. intros (d & t & ? & ?). exists d, t. split; [done|]. by apply sublist_inserts_r. Qed.

Lemma screened_once_app past i host s prefixes later e :
  screened_once past i host s prefixes later → screened_once (past ++ [e]) i host s prefixes (later ++ [e]).
Proof.
  intros (a & ids & t & ? & Hr). exists a, ids, t. split; [done|].
  change (?x :: later ++ [e]) with ((x :: later) ++ [e]). by apply resolved_app.
Qed.

Lemma screened_once_more past more i host s prefixes later :
  screened_once past i host s prefixes later → screened_once (past ++ more) i host s prefixes later.
Proof. intros (a & ids & t & ? & Hr). exists a, ids, t. split; [done|]. by apply resolved_more. Qed.

Lemma screened_for_more past more i host s : screened_for past i host s → screened_for (past ++ more) i host s.
Proof. intros (p & ids & t & t' & ? & ?). exists p, ids, t, t'. split; [by apply screened_once_more|done]. Qed.

Lemma open_ok_more past more i host phase : open_ok past i host phase → open_ok (past ++ more) i host phase.
Proof.
  destruct phase; cbn; auto using resolved_more, screened_once_more, screened_for_more.
  intros [t ?]. exists t. by apply screened_once_more.
Qed.

Lemma contact_ok_more past more contacts written c :
  contact_ok past contacts written c → contact_ok (past ++ more) contacts written c.
Proof.
  destruct c as [i host a|i [] m route s|i route body]; cbn; try done.
  - intros (asked & p & s & ? & ?). exists asked, p, s. split; [by apply screened_once_more|done].
  - intros (? & ? & ?). split_and!; try done. by apply screened_for_more.
  - intros (? & ? & ? & ?). split_and!; try done. by apply screened_for_more.
Qed.

Lemma authorised_more past more s : authorised past s → authorised (past ++ more) s.
Proof.
  intros [Hj Hc]. constructor; [|intros; by apply contact_ok_more, Hc]. intros i j [? Hp]%Hj. split; [done|].
  unfold phase_allowed in *. destruct (jb_phase j); try done. destruct Hp as (? & Ho & ?). split_and!; try done.
  intros route Hroute. by apply open_ok_more, Ho.
Qed.

Lemma authorised_step past s e : authorised past s → authorised (past ++ [e]) (step s e).
Proof.
  intros Hpast. pose proof (authorised_more _ [e] _ Hpast) as Hs.
  assert (Hopen : ∀ i j o derived phase, ls_jobs s !! i = Some j → jb_phase j = Opening o derived phase →
    ∀ route, operation_route j derived = Good route → open_ok past i (er_host route) phase).
  { intros i j o derived phase Hj Hph route Hroute.
    destruct (opening_base past _ _ _ _ _ _ Hpast Hj Hph) as (_ & _ & Ho & _). by apply Ho. }
  destruct e as [ok now|c n|c|c rq hd|c sn|c rq now|c rq now|w now|i a d now|i ids now|i now|i now|i r now|i e now
    |i chunk now|i now|i e now|]; cbn [listener_step].
  - unfold onConnection. repeat case_match; try done; by apply (authorised_core _ s).
  - by apply authorised_client_data.
  - by apply authorised_close.
  - by apply authorised_connect.
  - unfold onTlsSecure. destruct (ls_clients s !! c) as [ctx|]; [|done]. destruct (ec_stage ctx); try done.
    case_match; [by apply authorised_close|by apply (authorised_core _ s)].
  - by apply authorised_outer.
  - by apply authorised_inner.
  - destruct (aw_queue (ls_audit s)) as [|i queue]; [done|]. cbv zeta.
    match goal with |- context [set_audit ?w' s] => assert (Hs1 : authorised (past ++ [AuditRuns w now]) (set_audit w' s)) end.
    { apply (authorised_audit _ _ []); [by rewrite app_nil_r|done]. }
    destruct (ls_jobs _ !! i) eqn:Hj; [by apply authorised_onAudit|done].
  - apply authorised_with_opening; [done|]. intros j o dv [] Hj Hph; try done. apply authorised_resolved; [done..|].
    apply sublist_inserts_l. by apply sublist_skip.
  - apply authorised_with_opening; [done|]. intros j o dv [] Hj Hph; try done.
    + apply authorised_identified; [done..|]. intros route Hroute. apply (resolved_app _ _ _ _ []). exact (Hopen i j _ _ _ Hj Hph route Hroute).
    + apply authorised_reidentified; [done..|]. intros route Hroute.
      destruct (Hopen i j _ _ _ Hj Hph route Hroute) as [t ?]. exists t. by apply (screened_once_app _ _ _ _ _ [_]).
  - apply authorised_with_opening; [done|]. intros j o dv [] Hj Hph; try done. apply authorised_dialled; [done..|].
    intros route Hroute. apply (screened_once_app _ _ _ _ _ []). exact (Hopen i j _ _ _ Hj Hph route Hroute).
  - apply authorised_with_opening; [done|]. intros j o dv [] Hj Hph; try done. by apply authorised_secured.
  - apply authorised_with_opening; [done|]. intros j o dv [] Hj Hph; try done. destruct dv;
      [by eapply authorised_metadata_response|by apply authorised_direct_response].
  - destruct (ls_jobs s !! i) as [j|]; [|done]. destruct (jb_phase j); try done. by apply authorised_failed.
  - destruct (ls_jobs s !! i) as [j|] eqn:Hj; [|done]. destruct (jb_phase j) eqn:Hph; try done;
      (destruct (operation_released _ _); [done|]); [by apply authorised_chunk|by apply authorised_stream].
  - assert (Hrel : ∀ o, authorised (past ++ [_]) (release_operation o s)) by (intros; by eapply authorised_core; [apply release_operation_core|]).
    destruct (ls_jobs s !! i) as [j|] eqn:Hj; [|done]. destruct (jb_phase j) eqn:Hph; try done.
    + destruct (operation_released _ _); [done|]. by apply authorised_metadata_end.
    + by eapply authorised_core, authorised_over.
  - assert (Hrel : ∀ o, authorised (past ++ [_]) (release_operation o s)) by (intros; by eapply authorised_core; [apply release_operation_core|]).
    destruct (ls_jobs s !! i) as [j|] eqn:Hj; [|done]. destruct (jb_phase j) eqn:Hph; try done;
      [by apply authorised_failed|by apply authorised_over].
  - by eapply authorised_core; [apply stop_listener_core|].
Qed.

Lemma authorised_run now s0 events :
  createPackageEgressProxy options now = Ok s0 → authorised events (listener_run options audit_line s0 events).
Proof.
  intros Hc. assert (Hs : authorised [] s0).
  { unfold createPackageEgressProxy in Hc. destruct (createPackageEgressLedger _ _); [|done]. injection Hc as <-.
    constructor; cbn; [done|]. by intros c ?%not_elem_of_nil. }
  clear Hc. unfold listener_run. induction events as [|e events IH] using rev_ind; [done|].
  rewrite foldl_app. by apply authorised_step.
Qed.
End authorisation.

(** ** The flags of a ledger *)

Definition active_flags (g : Ledger) : list bool := cl_active <$> lg_clients g.
Definition lease_flags (g : Ledger) : list (nat * bool) := (λ u, (up_client u, up_released u)) <$> lg_upstreams g.

Lemma fmap_insert_same {A B} (f : A → B) (l : list A) i x y : l !! i = Some x → f y = f x → f <$> <[i := y]> l = f <$> l.
Proof. intros Hi Hf. rewrite list_fmap_insert, Hf. apply list_insert_id. by rewrite list_lookup_fmap, Hi. Qed.

Section flags.
Variable limits : PackageEgressLimits.

Lemma charge_flags i n g g' r :
  charge limits i n g = (g', r) →
  active_flags g' = active_flags g ∧ lease_flags g' = lease_flags g ∧ lg_stopped g' = lg_stopped g.
Proof.
  unfold charge. intros Hc. repeat case_match; simplify_eq; [done| |done].
  split; [|done]. unfold active_flags. cbn. by eapply fmap_insert_same.
Qed.

Lemma upstream_charge_flags o n g g' r :
  upstream_charge limits o n g = (g', r) →
  active_flags g' = active_flags g ∧ lease_flags g' = lease_flags g ∧ lg_stopped g' = lg_stopped g.
Proof. unfold upstream_charge. intros Hc. repeat case_match; simplify_eq; try done. by eapply charge_flags. Qed.

Lemma consume_flags kind now g g' r :
  consumeAttempt limits kind now g = (g', r) →
  active_flags g' = active_flags g ∧ lease_flags g' = lease_flags g ∧ lg_stopped g' = lg_stopped g
  ∧ length (lg_clients g') = length (lg_clients g) ∧ (r = Ok () → lg_stopped g = false).
Proof.
  intros Hc. destruct (consume_accounts _ _ _ _ _ _ Hc) as (_ & _ & _ & _ & Hcl & Hu).
  unfold active_flags, lease_flags. rewrite Hcl, Hu. split_and!; try done.
  all: revert Hc; unfold consumeAttempt; destruct kind; cbv zeta; cbn; repeat case_match; intros; by simplify_eq.
Qed.

Lemma admitClient_flags now g g' r :
  admitClient limits now g = (g', r) →
  lease_flags g' = lease_flags g ∧ lg_stopped g' = lg_stopped g
  ∧ match r with
    | Ok lease => lg_stopped g = false ∧ lease = length (lg_clients g) ∧ active_flags g' = active_flags g ++ [true]
    | Throw _ => active_flags g' = active_flags g
    end.
Proof.
  unfold admitClient. destruct (consumeAttempt limits Direct now g) as [g1 r1] eqn:Hc.
  destruct (consume_flags _ _ _ _ _ Hc) as (Ha & Hl & Hs & Hlen & Hok). intros Hr. destruct r1 as [[]|]; [|by simplify_eq].
  case_match; simplify_eq; [done|]. split_and!; [done|done|by apply Hok|done|].
  unfold active_flags in *. cbn. by rewrite fmap_app, Ha.
Qed.

Lemma take_slot_flags i kind g g' r :
  take_slot limits i kind g = (g', r) →
  active_flags g' = active_flags g ∧ lg_stopped g' = lg_stopped g
  ∧ match r with
    | Ok lease => lease = length (lg_upstreams g) ∧ lease_flags g' = lease_flags g ++ [(i, false)]
    | Throw _ => lease_flags g' = lease_flags g
    end.
Proof.
  unfold take_slot. destruct (lg_clients g !! i) as [c|] eqn:Hi; [|intros; by simplify_eq].
  intros Hr. repeat case_match; simplify_eq; try done.
  all: split; [unfold active_flags; cbn; by eapply fmap_insert_same|]; split; [done|]; split; [done|];
    unfold lease_flags; cbn; by rewrite fmap_app.
Qed.

Lemma admitUpstream_flags i kind now g g' r :
  admitUpstream limits i kind now g = (g', r) →
  active_flags g' = active_flags g ∧ lg_stopped g' = lg_stopped g
  ∧ match r with
    | Ok lease =>
        active_flags g !! i = Some true ∧ lease = length (lg_upstreams g) ∧ lease_flags g' = lease_flags g ++ [(i, false)]
    | Throw _ => lease_flags g' = lease_flags g
    end.
Proof.
  unfold admitUpstream. destruct (client_active i g) eqn:Hact; [|intros; by simplify_eq/=]. cbn [negb].
  assert (Hi : active_flags g !! i = Some true).
  { unfold client_active, active_flags in *. rewrite list_lookup_fmap. destruct (lg_clients g !! i); [|done]. cbn. by rewrite Hact. }
  destruct (lg_stopped g) eqn:Hstop; [intros; by simplify_eq|]. destruct kind.
  - intros Hr. destruct (take_slot_flags _ _ _ _ _ Hr) as (? & ? & ?). rewrite Hstop in *. destruct r; naive_solver.
  - destruct (consumeAttempt limits Derived now g) as [g1 [u|e]] eqn:Hc.
    + intros Hr. destruct (consume_flags _ _ _ _ _ Hc) as (Ha & Hl & Hs & _).
      destruct (take_slot_flags _ _ _ _ _ Hr) as (Ha' & Hs' & Hr'). rewrite Ha', Hs', Hs, Ha, <-Hl.
      split; [done|]. split; [done|]. destruct r; [|done]. destruct Hr' as [-> ?].
      destruct (consume_accounts _ _ _ _ _ _ Hc) as (_ & _ & _ & _ & _ & ->). done.
    + intros [= <- <-]. destruct (consume_flags _ _ _ _ _ Hc) as (Ha & Hl & Hs & _). by rewrite Hs.
Qed.

Lemma settle_flags i c g :
  active_flags (settle_client i c g) = <[i := cl_active c]> (active_flags g)
  ∧ lease_flags (settle_client i c g) = lease_flags g ∧ lg_stopped (settle_client i c g) = lg_stopped g.
Proof. unfold settle_client, active_flags. case_match; cbn; by rewrite list_fmap_insert. Qed.

Lemma release_client_flags i g b :
  active_flags g !! i = Some b →
  active_flags (release_client i g) = <[i := false]> (active_flags g)
  ∧ lease_flags (release_client i g) = lease_flags g ∧ lg_stopped (release_client i g) = lg_stopped g.
Proof.
  intros Hi. unfold release_client. pose proof Hi as Hi'. unfold active_flags in Hi'. rewrite list_lookup_fmap in Hi'.
  destruct (lg_clients g !! i) as [c|]; [|done]. injection Hi' as <-.
  destruct (cl_active c) eqn:Hc; cbn [negb]; [apply settle_flags|]. by rewrite list_insert_id.
Qed.

Lemma release_upstream_flags o g c b :
  ledger_ok limits g → lease_flags g !! o = Some (c, b) →
  active_flags (release_upstream o g) = active_flags g
  ∧ lease_flags (release_upstream o g) = <[o := (c, true)]> (lease_flags g)
  ∧ lg_stopped (release_upstream o g) = lg_stopped g.
Proof.
  intros Hg Ho. unfold release_upstream. pose proof Ho as Ho'. unfold lease_flags in Ho'. rewrite list_lookup_fmap in Ho'.
  destruct (lg_upstreams g !! o) as [u|] eqn:Hu; [|done]. injection Ho' as <- <-.
  destruct (up_released u) eqn:Hrel; [by rewrite list_insert_id|].
  pose proof (lo_leases _ _ Hg u (list_elem_of_lookup_2 _ _ _ Hu)) as Hlt.
  apply lookup_lt_is_Some in Hlt as [cl Hcl]. rewrite Hcl. cbv zeta.
  match goal with |- context [settle_client ?i ?c ?g1] => destruct (settle_flags i c g1) as (Ha & Hl & Hs) end.
  rewrite Ha, Hl, Hs. split_and!; [|unfold lease_flags; cbn; by rewrite list_fmap_insert|done].
  cbn. rewrite list_insert_id; [done|]. unfold active_flags. cbn. by rewrite list_lookup_fmap, Hcl.
Qed.
End flags.

(** ** The accounts of the listener *)

Section accounts.
Context `{WebUrl} `{Runtime} `{Net}.
Variable options : PackageEgressOptions.
Variable audit_line : PackageEgressAuditRecord → string.
Hypothesis Hlimits : limits_ok (po_limits options).

Local Abbreviation limits := (po_limits options).

(** A client is open exactly when its lease is active, an operation is not released exactly
    when its lease is not, and an operation that is not released has an open client. *)
Record accounts (s : Listener) : Prop := {
  ac_ledger : ledger_ok limits (ls_ledger s);
  ac_clients : active_flags (ls_ledger s) = (negb ∘ ec_closed) <$> ls_clients s;
  ac_operations : lease_flags (ls_ledger s) = (λ o, (eo_client o, eo_released o)) <$> ls_operations s;
  ac_client_lease : ∀ c ctx, ls_clients s !! c = Some ctx → ec_lease ctx = c;
  ac_operation_lease : ∀ o op, ls_operations s !! o = Some op → eo_lease op = o;
  ac_open : ∀ o op, ls_operations s !! o = Some op → eo_released op = false → client_closed (eo_client op) s = false;
  ac_stopped : lg_stopped (ls_ledger s) = ls_stopped s
}.

Definition all_closed (s : Listener) : Prop := ∀ c, client_closed c s = true.
Definition quiet (s : Listener) : Prop := ls_stopped s = true → all_closed s.

Definition keeps (s s' : Listener) : Prop :=
  accounts s → accounts s' ∧ ls_stopped s' = ls_stopped s ∧ (quiet s → quiet s').

Lemma keeps_refl s : keeps s s.
Proof. by intros ?. Qed.

Lemma keeps_trans s1 s2 s3 : keeps s1 s2 → keeps s2 s3 → keeps s1 s3.
Proof. intros Hk1 Hk2 Ha. destruct (Hk1 Ha) as (Ha2 & <- & Hq). destruct (Hk2 Ha2) as (? & <- & ?). auto. Qed.

Definition accounts_frame (s : Listener) := (ls_ledger s, ls_clients s, ls_operations s, ls_stopped s).

Lemma keeps_frame s0 s s' : keeps s0 s → accounts_frame s' = accounts_frame s → keeps s0 s'.
Proof.
  intros Hk [= Hg Hc Ho Hst]. eapply keeps_trans; [exact Hk|]. intros [].
  assert (Hcl : ∀ c, client_closed c s' = client_closed c s) by (intros; unfold client_closed; by rewrite Hc).
  split; [|split; [done|]].
  - constructor; rewrite ?Hg, ?Hc, ?Ho, ?Hst; try done. intros o op Hop ?. rewrite Hcl. by eapply ac_open0.
  - unfold quiet, all_closed. rewrite Hst. intros Hq ? c. rewrite Hcl. by apply Hq.
Qed.

Lemma client_flag s c : accounts s → active_flags (ls_ledger s) !! c = Some true ↔ client_closed c s = false.
Proof.
  intros []. rewrite ac_clients0, list_lookup_fmap. unfold client_closed.
  destruct (ls_clients s !! c) as [ctx|]; cbn; [|by split]. by destruct (ec_closed ctx).
Qed.

(** The ledger changes, and its flags do not. *)
Lemma keeps_ledger s g :
  (accounts s → ledger_ok limits g ∧ active_flags g = active_flags (ls_ledger s)
     ∧ lease_flags g = lease_flags (ls_ledger s) ∧ lg_stopped g = lg_stopped (ls_ledger s)) →
  keeps s (set_ledger g s).
Proof.
  intros Hg Ha. destruct (Hg Ha) as (Hok & Hact & Hl & Hst). destruct Ha. split; [|done].
  constructor; cbn; rewrite ?Hact, ?Hl, ?Hst; done.
Qed.

Lemma keeps_charge_client s0 c n s s' b : charge_client options c n s = (s', b) → keeps s0 s → keeps s0 s'.
Proof.
  intros Hc Hk. eapply keeps_trans; [exact Hk|]. revert Hc. unfold charge_client.
  destruct (ls_clients s !! c) as [ctx|]; [|intros; simplify_eq; apply keeps_refl].
  destruct (charge _ _ _ _) as [g r] eqn:Hch. intros Heq.
  assert (s' = set_ledger g s) as -> by (destruct r; by simplify_eq).
  apply keeps_ledger. intros []. destruct (charge_flags _ _ _ _ _ _ Hch) as (-> & -> & ->).
  split_and!; try done. by eapply charge_ok.
Qed.

Lemma keeps_charge_operation s0 o n s s' b : charge_operation options o n s = (s', b) → keeps s0 s → keeps s0 s'.
Proof.
  intros Hc Hk. eapply keeps_trans; [exact Hk|]. revert Hc. unfold charge_operation.
  destruct (ls_operations s !! o) as [op|]; [|intros; simplify_eq; apply keeps_refl].
  destruct (upstream_charge _ _ _ _) as [g r] eqn:Hch. intros Heq.
  assert (s' = set_ledger g s) as -> by (destruct r; by simplify_eq).
  apply keeps_ledger. intros []. destruct (upstream_charge_flags _ _ _ _ _ _ Hch) as (-> & -> & ->).
  split_and!; try done. clear Heq. revert Hch. unfold upstream_charge. repeat case_match; intros Hch; simplify_eq; try done.
  all: by eapply charge_ok.
Qed.

(** *** Releases *)

Lemma keeps_release s0 o s : keeps s0 s → keeps s0 (release_operation o s).
Proof.
  intros Hk. eapply keeps_trans; [exact Hk|]. unfold release_operation.
  destruct (ls_operations s !! o) as [op|] eqn:Ho; [|apply keeps_refl].
  destruct (eo_released op) eqn:Hr; [apply keeps_refl|]. intros [].
  rewrite (ac_operation_lease0 _ _ Ho).
  assert (Hf : lease_flags (ls_ledger s) !! o = Some (eo_client op, false)).
  { by rewrite ac_operations0, list_lookup_fmap, Ho; cbn; rewrite Hr. }
  destruct (release_upstream_flags limits _ _ _ _ ac_ledger0 Hf) as (Ha & Hl & Hst).
  split; [|done]. constructor; cbn; rewrite ?Ha, ?Hl, ?Hst, ?ac_operations0, ?list_fmap_insert; try done.
  - by apply release_upstream_ok.
  - intros k op' [(-> & <- & _)|[_ ?]]%list_lookup_insert_Some; [done|by apply ac_operation_lease0].
  - intros k op' [(-> & <- & _)|[_ ?]]%list_lookup_insert_Some; [done|by eapply ac_open0].
Qed.

Lemma keeps_release_all s0 l s : keeps s0 s → keeps s0 (foldl (λ s o, release_operation o s) s l).
Proof. revert s. induction l as [|o l IH]; intros s Hs; [done|]. by apply IH, keeps_release. Qed.

Lemma release_clients o s : ls_clients (release_operation o s) = ls_clients s.
Proof. unfold release_operation. by repeat case_match. Qed.

Lemma release_all_clients l s : ls_clients (foldl (λ s o, release_operation o s) s l) = ls_clients s.
Proof. revert s. induction l as [|o l IH]; intros s; [done|]. cbn. by rewrite IH, release_clients. Qed.

Lemma release_set_clients o l s : release_operation o (set_clients l s) = set_clients l (release_operation o s).
Proof. unfold release_operation. cbn. by repeat case_match. Qed.

Lemma release_all_set_clients os l s :
  foldl (λ s o, release_operation o s) (set_clients l s) os = set_clients l (foldl (λ s o, release_operation o s) s os).
Proof. revert s. induction os as [|o os IH]; intros s; [done|]. cbn. by rewrite release_set_clients, IH. Qed.

(** What is released stays so, with its client. *)
Lemma release_op o s k op :
  ls_operations (release_operation o s) !! k = Some op →
  ∃ op0, ls_operations s !! k = Some op0 ∧ eo_client op0 = eo_client op
    ∧ (eo_released op0 = true ∨ k = o → eo_released op = true).
Proof.
  unfold release_operation. destruct (ls_operations s !! o) as [op1|] eqn:Ho.
  - destruct (eo_released op1) eqn:Hr.
    + intros Hk. exists op. split_and!; [done|done|]. intros [?|?]; simplify_eq; done.
    + cbn. intros [(-> & <- & _)|[Hne ?]]%list_lookup_insert_Some; [by exists op1|].
      exists op. split_and!; [done|done|]. intros [?|?]; [done|]. by subst.
  - intros Hk. exists op. split_and!; [done|done|]. intros [?|?]; simplify_eq; done.
Qed.

Lemma release_all_op l s k op :
  ls_operations (foldl (λ s o, release_operation o s) s l) !! k = Some op →
  ∃ op0, ls_operations s !! k = Some op0 ∧ eo_client op0 = eo_client op
    ∧ (eo_released op0 = true ∨ k ∈ l → eo_released op = true).
Proof.
  revert s. induction l as [|o l IH]; intros s; cbn.
  - intros Hk. exists op. split_and!; [done|done|]. intros [?|?%elem_of_nil]; done.
  - intros (op1 & Hop1 & Hc1 & Hr1)%IH. destruct (release_op _ _ _ _ Hop1) as (op0 & Hop0 & Hc0 & Hr0).
    exists op0. split; [done|]. split; [congruence|].
    intros [?|[->|?]%elem_of_cons]; [apply Hr1; left|apply Hr1; left|apply Hr1; by right]; apply Hr0; auto.
Qed.

Lemma operations_of_elem c s k op : ls_operations s !! k = Some op → eo_client op = c → k ∈ operations_of c s.
Proof.
  intros Hk Hc. unfold operations_of. apply list_elem_of_fmap. exists (k, op). split; [done|].
  apply list_elem_of_filter. split; [done|]. apply list_elem_of_lookup. exists k. by rewrite list_lookup_imap, Hk.
Qed.

(** The operations are released first: it makes no difference. *)
Lemma closeClient_eq c ctx s :
  ls_clients s !! c = Some ctx → ec_closed ctx = false →
  closeClient c s =
    let s1 := foldl (λ s o, release_operation o s) s (operations_of c s) in
    set_ledger (release_client (ec_lease ctx) (ls_ledger s1)) (set_clients (<[c := closed_context ctx]> (ls_clients s1)) s1).
Proof.
  intros Hc Hcl. unfold closeClient. rewrite Hc, Hcl. cbv zeta. rewrite release_all_set_clients, release_all_clients. done.
Qed.

Lemma close_context s c ctx :
  ls_clients s !! c = Some ctx → ec_closed ctx = false →
  (∀ o op, ls_operations s !! o = Some op → eo_client op = c → eo_released op = true) →
  keeps s (set_ledger (release_client (ec_lease ctx) (ls_ledger s)) (set_clients (<[c := closed_context ctx]> (ls_clients s)) s)).
Proof.
  intros Hc Hcl Hops []. rewrite (ac_client_lease0 _ _ Hc).
  assert (Hf : active_flags (ls_ledger s) !! c = Some true).
  { by rewrite ac_clients0, list_lookup_fmap, Hc; cbn; rewrite Hcl. }
  destruct (release_client_flags _ _ _ Hf) as (Ha & Hl & Hst).
  assert (Hclosed : ∀ d, client_closed d (set_ledger (release_client c (ls_ledger s))
     (set_clients (<[c := closed_context ctx]> (ls_clients s)) s)) = (d =? c)%nat || client_closed d s).
  { intros d. unfold client_closed. cbn. destruct (Nat.eqb_spec d c) as [->|Hne].
    - by rewrite list_lookup_insert_eq by by eapply lookup_lt_Some.
    - by rewrite list_lookup_insert_ne by done. }
  split; [|split; [done|]].
  - constructor; cbn [ls_ledger ls_clients ls_operations ls_stopped set_ledger set_clients];
      rewrite ?Ha, ?Hl, ?Hst, ?ac_clients0, ?list_fmap_insert; try done.
    + by apply release_client_ok.
    + intros d ctx' [(-> & <- & _)|[_ ?]]%list_lookup_insert_Some; [exact (ac_client_lease0 _ _ Hc)|by apply ac_client_lease0].
    + intros o op Hop Hrel. rewrite Hclosed. apply orb_false_iff. split; [|by eapply ac_open0].
      apply Nat.eqb_neq. intros Heq. by rewrite (Hops _ _ Hop Heq) in Hrel.
  - intros Hq Hs d. rewrite Hclosed, (Hq Hs d). apply orb_true_r.
Qed.

Lemma keeps_close s0 c s : keeps s0 s → keeps s0 (closeClient c s).
Proof.
  intros Hk. destruct (ls_clients s !! c) as [ctx|] eqn:Hc; [|unfold closeClient; by rewrite Hc].
  destruct (ec_closed ctx) eqn:Hcl; [unfold closeClient; by rewrite Hc, Hcl|].
  rewrite (closeClient_eq c ctx) by done. cbv zeta.
  eapply keeps_trans; [by apply keeps_release_all|]. apply close_context; [by rewrite release_all_clients|done|].
  intros o op Hop Hcli. destruct (release_all_op _ _ _ _ Hop) as (op0 & Hop0 & Hc0 & Hr). apply Hr. right.
  eapply operations_of_elem; [done|congruence].
Qed.

Lemma keeps_stage s0 c stage s : keeps s0 s → keeps s0 (set_stage c stage s).
Proof.
  intros Hk. eapply keeps_trans; [exact Hk|]. intros [].
  assert (Hcl : ∀ d, client_closed d (set_stage c stage s) = client_closed d s).
  { intros d. unfold client_closed, set_stage. cbn. destruct (decide (d = c)) as [->|Hne].
    - rewrite list_lookup_alter_eq. by destruct (ls_clients s !! c).
    - by rewrite list_lookup_alter_ne. }
  split; [|split; [done|]].
  - constructor; try done.
    + cbn. rewrite ac_clients0. apply list_eq. intros d. rewrite !list_lookup_fmap. destruct (decide (d = c)) as [->|Hne].
      * rewrite list_lookup_alter_eq. by destruct (ls_clients s !! c).
      * by rewrite list_lookup_alter_ne.
    + cbn. intros d ctx. destruct (decide (d = c)) as [->|Hne].
      * rewrite list_lookup_alter_eq. intros (ctx0 & Hctx & ->)%fmap_Some. exact (ac_client_lease0 _ _ Hctx).
      * rewrite list_lookup_alter_ne by done. apply ac_client_lease0.
    + intros o op Hop ?. rewrite Hcl. by eapply ac_open0.
  - intros Hq Hs d. rewrite Hcl. by apply Hq.
Qed.

(** *** Admissions *)

Lemma keeps_connection allowed now s : keeps s (onConnection options allowed now s).
Proof.
  unfold onConnection. destruct allowed; [cbn [negb]|apply keeps_refl].
  destruct (admitClient limits (qc_of_Z now) (ls_ledger s)) as [g r] eqn:Hg.
  destruct (admitClient_flags _ _ _ _ _ Hg) as (Hl & Hst & Hr). destruct r as [lease|e].
  - intros Hacc. pose proof Hacc as []. destruct Hr as (Hrun & -> & Ha).
    assert (Hlen : length (lg_clients (ls_ledger s)) = length (ls_clients s)).
    { pose proof (f_equal length ac_clients0) as Hlen. unfold active_flags in Hlen. by rewrite !length_fmap in Hlen. }
    split; [|split; [done|]].
    + constructor; cbn; rewrite ?Ha, ?Hl, ?Hst, ?fmap_app; try done.
      * by eapply admitClient_ok.
      * by rewrite ac_clients0.
      * intros c ctx [?|(? & Hc)]%lookup_app_Some; [by apply ac_client_lease0|]. cbn.
        apply list_lookup_singleton_Some in Hc as [? <-]. cbn. lia.
      * intros o op Hop Hrel. pose proof (ac_open0 _ _ Hop Hrel) as Hc. unfold client_closed in *. cbn.
        destruct (ls_clients s !! eo_client op) as [ctx|] eqn:Hctx; [|done]. by rewrite (lookup_app_l_Some _ _ _ _ Hctx).
    + intros _. unfold quiet. cbn. rewrite <-ac_stopped0, Hrun. done.
  - apply keeps_ledger. intros []. rewrite Hr, Hl, Hst. split; [|done]. by eapply admitClient_ok.
Qed.

Lemma keeps_admit s0 s i kind now g r :
  admitUpstream limits i kind now (ls_ledger s) = (g, r) → keeps s0 s →
  match r with
  | Ok lease =>
      keeps s0 (set_operations (ls_operations s ++ [{| eo_client := i; eo_lease := lease; eo_released := false |}])
                  (set_ledger g s))
  | Throw _ => keeps s0 (set_ledger g s)
  end.
Proof.
  intros Hg Hk. destruct (admitUpstream_flags _ _ _ _ _ _ _ Hg) as (Ha & Hst & Hr). destruct r as [lease|e].
  - eapply keeps_trans; [exact Hk|]. intros Hacc. pose proof Hacc as []. destruct Hr as (Hact & -> & Hl).
    assert (Hlen : length (lg_upstreams (ls_ledger s)) = length (ls_operations s)).
    { pose proof (f_equal length ac_operations0) as Hlen. unfold lease_flags in Hlen. by rewrite !length_fmap in Hlen. }
    split; [|done]. constructor; cbn; rewrite ?Ha, ?Hl, ?Hst, ?fmap_app; try done.
    + by eapply admitUpstream_ok.
    + by rewrite ac_operations0.
    + intros o op [?|(? & Hc)]%lookup_app_Some; [by apply ac_operation_lease0|].
      apply list_lookup_singleton_Some in Hc as [? <-]. cbn. lia.
    + intros o op [?|(? & Hc)]%lookup_app_Some; [by eapply ac_open0|].
      apply list_lookup_singleton_Some in Hc as [? <-]. cbn. intros _. by apply (proj1 (client_flag s i Hacc)).
  - eapply keeps_trans; [exact Hk|]. apply keeps_ledger. intros []. rewrite Hr, Ha, Hst. split; [|done].
    by eapply admitUpstream_ok.
Qed.

(** *** The handlers *)

Create HintDb keeps discriminated.
#[local] Hint Resolve keeps_refl keeps_charge_client keeps_charge_operation keeps_release keeps_close keeps_stage : keeps.

Lemma keeps_job s0 i p s : keeps s0 s → keeps s0 (set_job i p s).
Proof. intros. by eapply keeps_frame. Qed.
Lemma keeps_contact s0 c s : keeps s0 s → keeps s0 (add_contact c s).
Proof. intros. by eapply keeps_frame. Qed.
Lemma keeps_reply s0 r s : keeps s0 s → keeps s0 (add_reply r s).
Proof. intros. by eapply keeps_frame. Qed.
Lemma keeps_audit s0 w s : keeps s0 s → keeps s0 (set_audit w s).
Proof. intros. by eapply keeps_frame. Qed.
Lemma keeps_jobs s0 l s : keeps s0 s → keeps s0 (set_jobs l s).
Proof. intros. by eapply keeps_frame. Qed.
#[local] Hint Resolve keeps_job keeps_contact keeps_reply keeps_audit keeps_jobs : keeps.

(** Follows the branches of a handler. *)
Ltac keeps_cases :=
  cbv zeta;
  repeat match goal with
    | |- keeps _ (match ?x with _ => _ end) => let E := fresh "E" in destruct x eqn:E; cbv zeta
    end;
  eauto 8 with keeps.

Lemma keeps_reject_response s0 c st m s : keeps s0 s → keeps s0 (rejectResponse options c st m s).
Proof. intros. unfold rejectResponse. keeps_cases. Qed.
Lemma keeps_reject_raw s0 c st m s : keeps s0 s → keeps s0 (rejectRaw options c st m s).
Proof. intros. unfold rejectRaw. keeps_cases. Qed.
#[local] Hint Resolve keeps_reject_response keeps_reject_raw : keeps.
Lemma keeps_reject_error s0 i e s : keeps s0 s → keeps s0 (rejectPackageError options i e s).
Proof. intros. unfold rejectPackageError. keeps_cases. Qed.
#[local] Hint Resolve keeps_reject_error : keeps.

Lemma keeps_append s0 i record phase refused s :
  keeps s0 s → (∀ e s', keeps s0 s' → keeps s0 (refused e s')) →
  keeps s0 (append_audit audit_line i record phase refused s).
Proof. intros. unfold append_audit. keeps_cases. Qed.
#[local] Hint Resolve keeps_append : keeps.
Lemma keeps_metadata_failed s0 i j e now s : keeps s0 s → keeps s0 (metadata_failed options audit_line i j e now s).
Proof. intros. unfold metadata_failed. keeps_cases. Qed.
#[local] Hint Resolve keeps_metadata_failed : keeps.
Lemma keeps_failed s0 i j o d e now s : keeps s0 s → keeps s0 (operation_failed options audit_line i j o d e now s).
Proof. intros. unfold operation_failed. keeps_cases. Qed.
#[local] Hint Resolve keeps_failed : keeps.
Lemma keeps_open_phase s0 i j o d p now s : keeps s0 s → keeps s0 (open_phase options audit_line i j o d p now s).
Proof. intros. unfold open_phase. keeps_cases. Qed.
#[local] Hint Resolve keeps_open_phase : keeps.
Lemma keeps_start s0 i j d now s : keeps s0 s → keeps s0 (start_operation options audit_line i j d now s).
Proof.
  intros Hk. unfold start_operation. destruct (ls_clients s !! jb_client j) as [ctx|] eqn:Hctx; [|done].
  destruct (operation_route j d) as [route|e]; [|by apply keeps_reject_error].
  destruct (admitUpstream _ _ _ _ _) as [g r] eqn:Hg.
  intros Hacc.
  assert (Hcl : accounts s0 → ec_lease ctx = jb_client j).
  { intros Ha. destruct (Hk Ha) as [[] _]. by apply ac_client_lease0. }
  rewrite (Hcl Hacc) in Hg. pose proof (keeps_admit s0 s _ _ _ _ _ Hg Hk) as Hr. revert Hacc.
  match goal with |- accounts s0 → accounts ?s1 ∧ _ => change (keeps s0 s1) end.
  destruct r as [lease|e]; keeps_cases.
Qed.
#[local] Hint Resolve keeps_start : keeps.

Lemma keeps_audit_client s0 i j al rc re rf now s :
  keeps s0 s → keeps s0 (audit_client options audit_line i j al rc re rf now s).
Proof. intros. unfold audit_client. keeps_cases. Qed.
#[local] Hint Resolve keeps_audit_client : keeps.
Lemma keeps_decided s0 i j d al now s : keeps s0 s → keeps s0 (decided options audit_line i j d al now s).
Proof. intros. unfold decided. keeps_cases. Qed.
#[local] Hint Resolve keeps_decided : keeps.
Lemma keeps_direct s0 i j now s : keeps s0 s → keeps s0 (request_direct options audit_line i j now s).
Proof. intros. unfold request_direct. keeps_cases. Qed.
Lemma keeps_authorize s0 i j now s : keeps s0 s → keeps s0 (authorizeClientRoute options audit_line i j now s).
Proof. intros. unfold authorizeClientRoute. keeps_cases. Qed.
#[local] Hint Resolve keeps_direct keeps_authorize : keeps.
Lemma keeps_forward s0 c m r now s : keeps s0 s → keeps s0 (forwardAuthorizedRoute options audit_line c m r now s).
Proof. intros. unfold forwardAuthorizedRoute. keeps_cases. Qed.
#[local] Hint Resolve keeps_forward : keeps.
Lemma keeps_on_audit s0 i j w now s : keeps s0 s → keeps s0 (onAudit options audit_line i j w now s).
Proof.
  intros. unfold onAudit. cbv zeta. destruct (jb_phase j); try done; destruct (audit_write _ _ _ _) as [? [e|]]; cbn; keeps_cases.
Qed.
#[local] Hint Resolve keeps_on_audit : keeps.

Lemma keeps_resolver s0 i j o d answers discovered now s :
  keeps s0 s → keeps s0 (onResolved options audit_line i j o d answers discovered now s).
Proof. intros. unfold onResolved. keeps_cases. Qed.
Lemma keeps_identified s0 i j o d answers prefixes ids now s :
  keeps s0 s → keeps s0 (onIdentified options audit_line i j o d answers prefixes ids now s).
Proof. intros. unfold onIdentified. keeps_cases. Qed.
Lemma keeps_dialled s0 i j o d sc prefixes dl now s :
  keeps s0 s → keeps s0 (onDialled options audit_line i j o d sc prefixes dl now s).
Proof. intros. unfold onDialled. keeps_cases. Qed.
Lemma keeps_reidentified s0 i j o d sc prefixes dl ids now s :
  keeps s0 s → keeps s0 (onReidentified options audit_line i j o d sc prefixes dl ids now s).
Proof. intros. unfold onReidentified. keeps_cases. Qed.
Lemma keeps_secured s0 i j o d sc now s : keeps s0 s → keeps s0 (onSecured options audit_line i j o d sc now s).
Proof. intros. unfold onSecured. keeps_cases. Qed.
Lemma keeps_metadata_response s0 i j o r now s : keeps s0 s → keeps s0 (onMetadataResponse options audit_line i j o r now s).
Proof. intros. unfold onMetadataResponse. keeps_cases. Qed.
Lemma keeps_metadata_chunk s0 i j o b ch now s : keeps s0 s → keeps s0 (onMetadataChunk options audit_line i j o b ch now s).
Proof. intros. unfold onMetadataChunk. keeps_cases. Qed.
Lemma keeps_metadata_end s0 i j o b now s : keeps s0 s → keeps s0 (onMetadataEnd options audit_line i j o b now s).
Proof. intros. unfold onMetadataEnd. keeps_cases. Qed.
Lemma keeps_direct_response s0 i j o r now s : keeps s0 s → keeps s0 (onDirectResponse options audit_line i j o r now s).
Proof. intros. unfold onDirectResponse. keeps_cases. Qed.
Lemma keeps_stream s0 i j o ch s : keeps s0 s → keeps s0 (onStreamData options i j o ch s).
Proof.
  intros. unfold onStreamData. destruct (charge_operation _ _ _ _) as [s1 []] eqn:E1; keeps_cases.
Qed.
#[local] Hint Resolve keeps_resolver keeps_identified keeps_dialled keeps_reidentified keeps_secured keeps_metadata_response
  keeps_metadata_chunk keeps_metadata_end keeps_direct_response keeps_stream : keeps.

Lemma keeps_data s0 c n s : keeps s0 s → keeps s0 (onClientData options c n s).
Proof. intros. unfold onClientData. keeps_cases. Qed.
Lemma keeps_connect s0 c r h s : keeps s0 s → keeps s0 (handleConnect options c r h s).
Proof. intros. unfold handleConnect. keeps_cases. Qed.
Lemma keeps_secure s0 c n s : keeps s0 s → keeps s0 (onTlsSecure options c n s).
Proof. intros. unfold onTlsSecure. keeps_cases. Qed.
Lemma keeps_outer s0 c r now s : keeps s0 s → keeps s0 (handleOuterRequest options audit_line c r now s).
Proof. intros. unfold handleOuterRequest. keeps_cases. Qed.
Lemma keeps_inner s0 c r now s : keeps s0 s → keeps s0 (handleInnerRequest options audit_line c r now s).
Proof. intros. unfold handleInnerRequest. keeps_cases. Qed.
#[local] Hint Resolve keeps_data keeps_connect keeps_secure keeps_outer keeps_inner : keeps.

Lemma keeps_opening s i (f : EgressJob → nat → bool → OpenPhase → Listener) :
  (∀ j o d ph, keeps s (f j o d ph)) → keeps s (with_opening i s f).
Proof. intros Hf. unfold with_opening. keeps_cases. Qed.

(** Every event but the stop. *)
Lemma keeps_step s e : e ≠ StopListener → keeps s (listener_step options audit_line s e).
Proof.
  intros He. destruct e; cbn [listener_step]; try done; try (by apply keeps_connection); try apply keeps_opening; intros;
    keeps_cases.
Qed.

(** *** The stop *)

Lemma release_client_closed c o s : client_closed c (release_operation o s) = client_closed c s.
Proof. unfold client_closed. by rewrite release_clients. Qed.

Lemma close_closed c d s : client_closed d (closeClient c s) = (d =? c)%nat || client_closed d s.
Proof.
  destruct (ls_clients s !! c) as [ctx|] eqn:Hc; last first.
  { unfold closeClient, client_closed. rewrite Hc. destruct (Nat.eqb_spec d c) as [->|]; [by rewrite Hc|done]. }
  destruct (ec_closed ctx) eqn:Hcl.
  { unfold closeClient, client_closed. rewrite Hc, Hcl. destruct (Nat.eqb_spec d c) as [->|]; [by rewrite Hc|done]. }
  rewrite (closeClient_eq c ctx) by done. cbv zeta. unfold client_closed. cbn. rewrite release_all_clients.
  destruct (Nat.eqb_spec d c) as [->|Hne].
  - by rewrite list_lookup_insert_eq by by eapply lookup_lt_Some.
  - by rewrite list_lookup_insert_ne.
Qed.

Lemma close_all_closed l s d :
  client_closed d (foldl (λ s c, closeClient c s) s l) = existsb (λ c, (d =? c)%nat) l || client_closed d s.
Proof. revert s. induction l as [|c l IH]; intros s; [done|]. cbn. rewrite IH, close_closed. by destruct (_ =? _)%nat, (existsb _ _). Qed.

Lemma keeps_close_all s0 l s : keeps s0 s → keeps s0 (foldl (λ s c, closeClient c s) s l).
Proof. revert s. induction l as [|c l IH]; intros s Hs; [done|]. by apply IH, keeps_close. Qed.

Lemma accounts_stop s :
  accounts s → accounts (stop_listener s) ∧ ls_stopped (stop_listener s) = true ∧ all_closed (stop_listener s).
Proof.
  intros []. unfold stop_listener. cbv zeta. set (s1 := set_ledger _ _).
  assert (Ha1 : accounts s1) by (constructor; try done; by apply stop_ok).
  set (s2 := foldl (λ s c, closeClient c s) s1 _).
  assert (Hk2 : keeps s1 s2) by apply keeps_close_all, keeps_refl.
  destruct (keeps_release_all s1 (seq 0 (length (ls_operations s2))) s2 Hk2 Ha1) as (Ha3 & Hst3 & _).
  split; [exact Ha3|]. split; [exact Hst3|]. intros d. unfold client_closed. rewrite release_all_clients.
  change (client_closed d s2 = true). unfold s2. rewrite close_all_closed. apply orb_true_iff.
  unfold client_closed. destruct (ls_clients s1 !! d) eqn:Hd; [left|by right].
  apply existsb_exists. exists d. split; [|apply Nat.eqb_refl]. apply in_seq. apply lookup_lt_Some in Hd. cbn in Hd |- *. lia.
Qed.

Definition sound (s : Listener) : Prop := accounts s ∧ quiet s.

Lemma sound_step s e : sound s → sound (listener_step options audit_line s e).
Proof.
  intros [Ha Hq]. assert (e = StopListener ∨ e ≠ StopListener) as [->|He] by (destruct e; auto).
  - destruct (accounts_stop s Ha) as (? & ? & ?). split; [done|]. by intros _.
  - destruct (keeps_step s e He Ha) as (? & ? & ?). split; auto.
Qed.

Lemma sound_run s events : sound s → sound (listener_run options audit_line s events).
Proof. revert s. induction events as [|e events IH]; intros s Hs; [done|]. by apply IH, sound_step. Qed.

Lemma stopped_step s e : sound s → ls_stopped s = true → ls_stopped (listener_step options audit_line s e) = true.
Proof.
  intros [Ha Hq] Hs. assert (e = StopListener ∨ e ≠ StopListener) as [->|He] by (destruct e; auto).
  - by destruct (accounts_stop s Ha) as (? & ? & ?).
  - destruct (keeps_step s e He Ha) as (? & -> & ?). done.
Qed.

Lemma stopped_run s events : sound s → ls_stopped s = true → ls_stopped (listener_run options audit_line s events) = true.
Proof.
  revert s. induction events as [|e events IH]; intros s Hs Hst; [done|]. apply IH; [by apply sound_step|by apply stopped_step].
Qed.
End accounts.

(** *** Counting *)

Definition one_if (b : bool) : Z := if b then 1 else 0.
Definition open_clients (s : Listener) : Z := tally (λ c, one_if (negb (ec_closed c))) (ls_clients s).
Definition live_operations (s : Listener) : Z := tally (λ o, one_if (negb (eo_released o))) (ls_operations s).

Section counts.
Variable options : PackageEgressOptions.
Local Abbreviation limits := (po_limits options).

Lemma open_clients_le s : accounts options s → open_clients s ≤ lg_activeClients (ls_ledger s).
Proof.
  intros []. rewrite (lo_clients _ _ ac_ledger0). unfold open_clients.
  rewrite <-(tally_fmap one_if (negb ∘ ec_closed)), <-ac_clients0. unfold active_flags. rewrite tally_fmap.
  apply tally_le. intros c [i Hi]%list_elem_of_lookup. pose proof (lo_client _ _ ac_ledger0 i c Hi) as [].
  unfold counted, one_if.
  rewrite co_counted. destruct (cl_active c), (0 <? cl_activeUpstreams c); done.
Qed.

Lemma live_operations_eq s :
  accounts options s → live_operations s = lg_activeDirect (ls_ledger s) + lg_activeDerived (ls_ledger s).
Proof.
  intros []. rewrite (lo_direct _ _ ac_ledger0), (lo_derived _ _ ac_ledger0). unfold live_operations.
  transitivity (tally (λ f : nat * bool, one_if (negb f.2)) (lease_flags (ls_ledger s))).
  { by rewrite ac_operations0, tally_fmap. }
  unfold lease_flags. rewrite tally_fmap.
  induction (lg_upstreams (ls_ledger s)) as [|u l IH]; [done|]. rewrite !tally_cons, IH.
  unfold one_if, open_lease. destruct u as [c [] []]; csimpl; repeat case_bool_decide; congruence || lia.
Qed.

(** Without open clients nothing is counted. *)
Lemma closed_counts s :
  accounts options s → all_closed s →
  live_operations s = 0 ∧ lg_activeClients (ls_ledger s) = 0
  ∧ lg_activeDirect (ls_ledger s) = 0 ∧ lg_activeDerived (ls_ledger s) = 0.
Proof.
  intros Ha Hcl. pose proof (live_operations_eq s Ha) as Hlive. pose proof Ha as [].
  assert (Hzero : live_operations s = 0).
  { unfold live_operations. rewrite <-(tally_zero (ls_operations s)). apply tally_ext.
    intros o [k Hk]%list_elem_of_lookup. destruct (eo_released o) eqn:Hr; [done|].
    pose proof (ac_open0 _ _ Hk Hr) as Hop. by rewrite Hcl in Hop. }
  assert (0 ≤ tally (open_lease Direct) (lg_upstreams (ls_ledger s)) ∧ 0 ≤ tally (open_lease Derived) (lg_upstreams (ls_ledger s))).
  { split; apply tally_nonneg; intros u; unfold open_lease; by destruct (_ && _). }
  pose proof (lo_direct _ _ ac_ledger0). pose proof (lo_derived _ _ ac_ledger0).
  split_and!; [done| |lia|lia].
  rewrite (lo_clients _ _ ac_ledger0), <-(tally_zero (lg_clients (ls_ledger s))). apply tally_ext.
  intros c [i Hi]%list_elem_of_lookup. pose proof (lo_client _ _ ac_ledger0 i c Hi) as []. unfold counted. rewrite co_counted.
  assert (Hact : cl_active c = false).
  { assert (Hf : active_flags (ls_ledger s) !! i = Some (cl_active c)).
    { unfold active_flags. by rewrite list_lookup_fmap, Hi. }
    rewrite ac_clients0, list_lookup_fmap in Hf. specialize (Hcl i). unfold client_closed in Hcl.
    destruct (ls_clients s !! i); [|done]. cbn in Hf. by rewrite Hcl in Hf; injection Hf. }
  assert (Hup : cl_activeUpstreams c = 0).
  { rewrite co_upstreams, <-(tally_zero (lg_upstreams (ls_ledger s))). apply tally_ext.
    intros u [k Hk]%list_elem_of_lookup. unfold open_for.
    assert (Hf : lease_flags (ls_ledger s) !! k = Some (up_client u, up_released u)).
    { unfold lease_flags. by rewrite list_lookup_fmap, Hk. }
    rewrite ac_operations0, list_lookup_fmap in Hf. destruct (ls_operations s !! k) as [op|] eqn:Hop; [|done].
    injection Hf as Hc Hr. rewrite <-Hr. destruct (eo_released op) eqn:Hrel; [done|].
    pose proof (ac_open0 _ _ Hop Hrel) as Hopen. by rewrite Hcl in Hopen. }
  by rewrite Hact, Hup.
Qed.
End counts.

Lemma created_sound options now s0 :
  createPackageEgressProxy options now = Ok s0 → limits_ok (po_limits options) ∧ sound options s0.
Proof.
  unfold createPackageEgressProxy. destruct (createPackageEgressLedger _ _) as [g|] eqn:Hg; [|done]. intros [= <-].
  destruct (create_ok _ _ _ Hg) as [Hl Hok]. split; [done|]. split; [|done].
  revert Hg. unfold createPackageEgressLedger. destruct (validateLimits _); [|done]. intros [= <-]. by constructor.
Qed.

(** ** The headers of an answer *)

Lemma checked_headers_spec `{WebUrl} options route response headers :
  checked_headers options route response = Good headers →
  ∃ location, redirect_location options route response = Good location
    ∧ headers = sanitizePackageHeaders (us_headers response) location.
Proof.
  unfold checked_headers, egress_bind. destruct (redirect_location _ _ _) as [location|]; [|done].
  destruct (parseDeclaredLength _) as [declared|]; [|done]. destruct (refuse_if _ _ _); [|done]. intros [= <-]. by exists location.
Qed.

Lemma sanitized_header headers location name values :
  (name, values) ∈ sanitizePackageHeaders headers location →
  (name = "Connection" ∧ values = ["close"]) ∨ includes RESPONSE_HEADERS (toLowerCase name) = true
  ∨ name = "Location" ∧ ∃ l, location = Some l ∧ values = [l].
Proof.
  unfold sanitizePackageHeaders. intros [[= -> ->]|[Hin|Hin]%elem_of_app]%elem_of_cons; [by left|right; left|right; right].
  - apply list_elem_of_omap in Hin as ([n [v|]] & _ & Hv); cbn in Hv; [|done]. by destruct (includes _ _) eqn:E in Hv; simplify_eq.
  - destruct location as [l|]; [|by apply elem_of_nil in Hin]. apply list_elem_of_singleton in Hin as [= -> ->]. eauto.
Qed.

Lemma redirect_location_spec `{WebUrl} options route response location values :
  redirect_location options route response = Good location → (∃ l, location = Some l ∧ values = [l]) →
  ∃ target, values = ["https://" +:+ er_host target +:+ er_path target]
    ∧ redirect_ok (maxTargetBytes (po_limits options)) route target.
Proof.
  unfold redirect_location, egress_bind. intros Hr (l & -> & ->). destruct (includes _ _); [|done].
  destruct (singleHeader _ _) as [[raw|]|]; [|done|done].
  destruct (canonicalizePackageEgressRedirect _ _ _) as [r|] eqn:Hc; [|done]. injection Hr as <-.
  destruct (redirect_spec _ _ _ _ Hc) as [? ->]. by exists (cr_route r).
Qed.

(** An artifact is redirected to the same version. *)
Lemma redirect_version limit source target :
  recognised limit source → redirect_ok limit source target → er_kind source = Artifact →
  ∃ p q v, er_package source = Some p ∧ er_package target = Some q ∧ pk_registry p = pk_registry q
    ∧ toLowerCase (pk_name p) = toLowerCase (pk_name q) ∧ pk_version p = Some v ∧ pk_version q = Some v.
Proof.
  intros Hs [] Hk. destruct (recognised_artifact _ _ Hs Hk) as (p & v & Hp & Hv).
  destruct (recognised_artifact _ _ rk_recognised0 (rk_artifact0 Hk)) as (q & w & Hq & Hw).
  exists p, q, v. unfold samePackageIdentity in rk_package0. rewrite Hp, Hq in rk_package0.
  apply andb_true_iff in rk_package0 as [Hids Hver]. rewrite Hv, Hw in Hver.
  rewrite !(bool_decide_eq_false_2 (Some _ = None)) in Hver by done. cbn [orb] in Hver.
  apply bool_decide_eq_true in Hver as [= <-]. bool_hyps. done.
Qed.

(** ** A session *)

Record DemoUrl := { du_host : string; du_path : string }.

(** Addresses of the form [https://host/path]. *)
Definition demo_url_parse (s : string) : option DemoUrl :=
  rest ← strip_prefix "https://" s;
  let '(host, path) := str_span (λ a, negb (a =? UriText.slash)) rest in
  Some {| du_host := toLowerCase host; du_path := path |}.

#[local] Instance demo_web_url : WebUrl :=
  {| weburl := DemoUrl; parse_url := demo_url_parse; resolve_url := λ s _, demo_url_parse s; wu_protocol := λ _, "https:";
     wu_username := λ _, ""; wu_password := λ _, ""; wu_hostname := du_host; wu_port := λ _, ""; wu_pathname := du_path;
     wu_search := λ _, ""; wu_hash := λ _, "" |}.

(** A document with one version, that was published at 1000. *)
Definition demo_document : jsvalue :=
  VObj [("versions", VObj [("4.17.21", VObj [])]); ("time", VObj [("4.17.21", VStr "1000")])].

#[local] Instance demo_runtime : Runtime :=
  {| sha256_hex := λ s, s; number_to_string := λ _, "0";
     json_parse := λ s, if s =? "document" then Some demo_document else None; json_stringify := λ _, "";
     date_parse := λ s, Some (parse_dec s) |}.

#[local] Instance demo_net : Net := {| isIPv6 := λ _, false; domainToASCII := id |}.

(** Versions that are older than a second. *)
Definition demo_policy : PackageValidator := λ now _ metadata,
  match metadata with
  | Some {| vm_publishedAt := Some (ValidDate t) |} => if 1000 <=? now - t then Allow "old enough" else Deny "too new"
  | _ => Deny "unknown age"
  end.

Definition demo_options : PackageEgressOptions :=
  {| po_policy := Some demo_policy; po_limits := DEFAULT_PACKAGE_EGRESS_LIMITS; po_nat64Prefixes := [];
     po_requiredProxyAuthorization := None; po_auditBytes := 0 |}.

Definition demo_line (_ : PackageEgressAuditRecord) : string := "record".

Definition demo_request (method url host : string) : ClientRequest :=
  {| cq_method := Some method; cq_url := url; cq_headers := [("host", Some (HOne host))]; cq_rawNames := ["Host"] |}.

Definition demo_answer : UpstreamResponse := {| us_status := 200; us_version := "1.1"; us_headers := []; us_raw := [] |}.

(** A name is resolved and its address screened, dialled, screened again and authenticated. *)
Definition demo_open (job : nat) : list ListenerEvent :=
  [ResolverAnswers job [{| ra_address := "93.184.216.34"; ra_family := 4 |}] [] 5000; IdentityAnswers job [] 5000;
   DialSucceeds job 5000; IdentityAnswers job [] 5000; TlsEstablished job 5000].

Definition demo_tarball : string := "/lodash/-/lodash-4.17.21.tgz".

(** A tarball is asked for: its metadata is read, the policy allows it, and it is requested. *)
Definition demo_events : list ListenerEvent :=
  [Connects true 4000; ConnectRequest 0 (demo_request "CONNECT" "registry.npmjs.org:443" "registry.npmjs.org:443") "";
   TlsSecure 0 "registry.npmjs.org"; TlsRequest 0 (demo_request "GET" demo_tarball "registry.npmjs.org") 5000]
  ++ demo_open 0 ++
  [UpstreamAnswers 0 demo_answer 5000; UpstreamData 0 "document" 5000; UpstreamEnds 0 5000; AuditRuns true 5000;
   AuditRuns true 5000]
  ++ demo_open 0.

Definition demo_start : Listener :=
  {| ls_ledger :=
       {| lg_attempts := 0; lg_clientAttempts := 0; lg_derivedAttempts := 0; lg_activeClients := 0; lg_activeDirect := 0;
          lg_activeDerived := 0; lg_transferredBytes := 0; lg_tokens := qc_of_Z 120; lg_lastRefill := qc_of_Z 4000;
          lg_stopped := false; lg_clients := []; lg_upstreams := [] |};
     ls_audit := set_writer true [] [] 0 false; ls_clients := []; ls_operations := []; ls_jobs := []; ls_contacts := [];
     ls_replies := []; ls_stopped := false |}.

Definition demo_pkg : PackageIdentity :=
  {| pk_registry := Npm; pk_name := "lodash"; pk_scope := None; pk_version := Some "4.17.21" |}.
Definition demo_route : PackageEgressRoute := new_route Npm "registry.npmjs.org" demo_tarball Artifact (Some demo_pkg).
Definition demo_address : PackageEgressResolvedAddress := {| ra_address := "93.184.216.34"; ra_family := 4 |}.
Definition demo_screened : ScreenedPackageEgressDestination :=
  {| sd_hostname := "registry.npmjs.org"; sd_answers := [demo_address]; sd_selected := demo_address |}.

(** ** What the listener does *)

(** C30. Nothing leaves the container network unjudged.  Whatever order clients, resolver
    answers, dials, audit writes and responses come in: an address is dialled for a request
    only after the resolver answered for it, this machine's own addresses were read, and the
    address was screened against both; a request of a client is sent on only for a route that
    the listener recognises, after an audit record that allows this route and method was
    written, over an address that was so screened for its host and that, when this machine's
    addresses were read once more after the dial, was still none of those refused, and, when
    a policy is set and the route is an artifact, only if the policy allowed its exact
    version on a time of publication that the registry gave for that version (Debian: on
    the epoch); a request of the listener's own is a GET for the metadata of such an
    artifact, over an address screened both times. *)
Theorem package_requests_authorised `{WebUrl} `{Runtime} `{Net} options audit_line now s0 events contact :
  createPackageEgressProxy options now = Ok s0 →
  let s := listener_run options audit_line s0 events in
  contact ∈ ls_contacts s → contact_ok options events (ls_contacts s) (aw_written (ls_audit s)) contact.
Proof. intros Hs0 s Hc. by eapply au_contacts, Hc; eapply authorised_run. Qed.

Lemma package_requests_authorised_witness :
  let s := listener_run demo_options demo_line demo_start demo_events in
  contact_ok demo_options demo_events (ls_contacts s) (aw_written (ls_audit s)) (Requested 0 false MethodGet demo_route demo_screened).
Proof.
  apply (package_requests_authorised demo_options demo_line 4000 demo_start demo_events); [vm_compute; reflexivity|].
  apply (list_elem_of_lookup_2 _ 4). vm_compute. reflexivity.
Defined.

(** Leases are returned.  Whatever the clients and upstreams do: no more clients are
    open than the ceiling, no more upstream operations live than the combined ceiling, every
    live operation belongs to a client that is open, and the ledger counts exactly the live
    operations; once the listener was stopped, in every continuation, all clients are
    closed, no operation is live and the ledger counts no client and no upstream. *)
Theorem package_listener_accounts `{WebUrl} `{Runtime} `{Net} options audit_line now s0 events :
  createPackageEgressProxy options now = Ok s0 →
  let s := listener_run options audit_line s0 events in
  open_clients s ≤ maxConcurrentClients (po_limits options)
  ∧ live_operations s ≤ maxConcurrentUpstreams (po_limits options)
  ∧ live_operations s = lg_activeDirect (ls_ledger s) + lg_activeDerived (ls_ledger s)
  ∧ (∀ o op, ls_operations s !! o = Some op → eo_released op = false → client_closed (eo_client op) s = false)
  ∧ ∀ more, let s' := listener_run options audit_line (stop_listener s) more in
      all_closed s' ∧ live_operations s' = 0 ∧ lg_activeClients (ls_ledger s') = 0
      ∧ lg_activeDirect (ls_ledger s') = 0 ∧ lg_activeDerived (ls_ledger s') = 0.
Proof.
  intros (Hl & Hs0)%created_sound s. destruct (sound_run options audit_line Hl s0 events Hs0) as [Ha Hq]. fold s in Ha, Hq.
  pose proof (open_clients_le options s Ha). pose proof (live_operations_eq options s Ha).
  pose proof Ha as []. pose proof ac_ledger0 as []. pose proof Hl as []. split_and!; [lia|lia|done|done|].
  intros more s'. destruct (accounts_stop options s Ha) as (Ha1 & Hst & Hcl).
  assert (Hsound : sound options (stop_listener s)) by (split; [exact Ha1|by intros _]).
  destruct (sound_run options audit_line Hl _ more Hsound) as [Ha' Hq'].
  assert (Hst' : ls_stopped s' = true) by by apply stopped_run.
  split; [by apply Hq'|]. apply (closed_counts options); [done|by apply Hq'].
Qed.

Lemma package_listener_accounts_witness :
  let s := listener_run demo_options demo_line demo_start demo_events in
  live_operations s = 1 ∧ live_operations s ≤ 24
  ∧ live_operations (listener_run demo_options demo_line (stop_listener s) demo_events) = 0.
Proof.
  destruct (package_listener_accounts demo_options demo_line 4000 demo_start demo_events)
    as (_ & Hlive & _ & _ & Hstop); [vm_compute; reflexivity|].
  split; [vm_compute; reflexivity|]. split; [exact Hlive|]. exact (proj1 (proj2 (Hstop demo_events))).
Defined.

(** A client is sent nowhere else.  Of the headers of an answer the client sees that the
    connection closes, the response headers that are listed, and at most a Location that is
    the canonical address of a route that the listener recognises, of the same ecosystem and
    package, for Debian of the same repository, and for an artifact an artifact of the very
    version. *)
Theorem package_redirects_contained `{WebUrl} options route response headers name values :
  recognised (maxTargetBytes (po_limits options)) route →
  checked_headers options route response = Good headers → (name, values) ∈ headers →
  (name = "Connection" ∧ values = ["close"]) ∨ includes RESPONSE_HEADERS (toLowerCase name) = true
  ∨ name = "Location" ∧ ∃ target,
      values = ["https://" +:+ er_host target +:+ er_path target]
      ∧ redirect_ok (maxTargetBytes (po_limits options)) route target
      ∧ (er_kind route = Artifact → ∃ p q v,
           er_package route = Some p ∧ er_package target = Some q ∧ pk_registry p = pk_registry q
           ∧ toLowerCase (pk_name p) = toLowerCase (pk_name q) ∧ pk_version p = Some v ∧ pk_version q = Some v).
Proof.
  intros Hroute Hc Hin. destruct (checked_headers_spec _ _ _ _ Hc) as (location & Hloc & ->).
  destruct (sanitized_header _ _ _ _ Hin) as [?|[?|[-> Hl]]]; [by left|by right; left|]. right; right. split; [done|].
  destruct (redirect_location_spec _ _ _ _ _ Hloc Hl) as (target & -> & Hok). exists target.
  split; [done|]. split; [done|]. intros Hk. by eapply redirect_version.
Qed.

Definition demo_redirect : UpstreamResponse :=
  {| us_status := 302; us_version := "1.1";
     us_headers := [("location", Some (HOne "https://registry.npmjs.org/Lodash/-/Lodash-4.17.21.tgz")); ("set-cookie", Some (HMany ["a"]))];
     us_raw := [("Location", "https://registry.npmjs.org/lodash/-/lodash-4.17.21.tgz"); ("Set-Cookie", "a")] |}.

Lemma package_redirects_contained_witness :
  ∃ target, ["https://registry.npmjs.org/lodash/-/lodash-4.17.21.tgz"] = ["https://" +:+ er_host target +:+ er_path target]
    ∧ redirect_ok 8192 demo_route target.
Proof.
  destruct (package_redirects_contained demo_options demo_route demo_redirect
    [("Connection", ["close"]); ("Location", ["https://registry.npmjs.org/lodash/-/lodash-4.17.21.tgz"])]
    "Location" ["https://registry.npmjs.org/lodash/-/lodash-4.17.21.tgz"]) as [[? _]|[Hr|(_ & target & Hv & Hok & _)]].
  - vm_compute. reflexivity.
  - vm_compute. reflexivity.
  - apply (list_elem_of_lookup_2 _ 1). reflexivity.
  - discriminate.
  - vm_compute in Hr. discriminate.
  - exists target. split; [exact Hv|exact Hok].
Defined.
