(* ===== verification/Sse.v ===== *)
(** * Server-sent events

    Models docker/llm-observation/sse-event-framer.ts: the bytes of a response, in chunks,
    become text, lines and events under ceilings.  Bytes that are not UTF-8 stay as they
    are, where the source has replacement characters; the length of a text is that of its
    UTF-8 form. *)

From Stdlib Require Import Ascii ZArith QArith Qcanon Lia.
From S2P Require Import Prelude JsValue Numbers.

Local Open Scope Z_scope.
Local Open Scope curtain_scope.

(** ** [StringDecoder] *)

(** The bytes of an unfinished character, and how many it lacks. *)
Record Utf8Decoder := { ud_pending : string; ud_need : nat }.

Definition utf8_start : Utf8Decoder := {| ud_pending := ""; ud_need := 0 |}.

Definition byte_in (lo hi : nat) (a : ascii) : bool := (lo <=? nat_of_ascii a)%nat && (nat_of_ascii a <=? hi)%nat.
Definition is_continuation : ascii → bool := byte_in 128 191.

(** How many bytes follow a first byte. *)
Definition utf8_follow (a : ascii) : nat :=
  if byte_in 192 223 a then 1 else if byte_in 224 239 a then 2 else if byte_in 240 247 a then 3 else 0.

Definition char_string (a : ascii) : string := String a "".

(** One byte: the text that is complete, and what is held back. *)
Definition utf8_byte (d : Utf8Decoder) (a : ascii) : Utf8Decoder * string :=
  match ud_need d with
  | S n =>
      if is_continuation a then
        match n with
        | O => (utf8_start, ud_pending d +:+ char_string a)
        | S _ => ({| ud_pending := ud_pending d +:+ char_string a; ud_need := n |}, "")
        end
      else
        match utf8_follow a with
        | O => (utf8_start, ud_pending d +:+ char_string a)
        | S k => ({| ud_pending := char_string a; ud_need := S k |}, ud_pending d)
        end
  | O =>
      match utf8_follow a with
      | O => (utf8_start, char_string a)
      | S k => ({| ud_pending := char_string a; ud_need := S k |}, "")
      end
  end.

(** [decoder.write(chunk)]; [decoder.end()] is [ud_pending]. *)
Fixpoint utf8_write (d : Utf8Decoder) (chunk : string) : Utf8Decoder * string :=
  match chunk with
  | "" => (d, "")
  | String a chunk =>
      let '(d, text) := utf8_byte d a in
      let '(d, more) := utf8_write d chunk in
      (d, text +:+ more)
  end.

(** ** The framer *)

Record SseEventFrame := { sf_eventType : string; sf_dataUtf8 : string }.

Record SseEventFramerLimits := {
  maxStreamBytes : Z;
  maxLineBytes : Z;
  maxEventBytes : Z;
  maxEvents : Z
}.

Definition DEFAULT_SSE_EVENT_FRAMER_LIMITS : SseEventFramerLimits :=
  {| maxStreamBytes := 32 * 1024 * 1024; maxLineBytes := 2 * 1024 * 1024; maxEventBytes := 4 * 1024 * 1024;
     maxEvents := 100000 |}.

Inductive SseFramingFailureReason := StreamLimit | LineLimit | EventLimit | EventCountLimit | AlreadyEnded.
#[export] Instance SseFramingFailureReason_eq_dec : EqDecision SseFramingFailureReason.
Proof. solve_decision. Defined.

Record SseEventFramer := {
  fr_decoder : Utf8Decoder;
  fr_lineFragments : list string;
  fr_lineBytes : Z;
  fr_currentEventType : string;
  fr_currentDataLines : list string;
  fr_currentDataSeen : bool;
  fr_currentDataBytes : Z;
  fr_eventCount : Z;
  fr_streamBytes : Z;
  fr_skipLeadingLf : bool;
  fr_ended : bool
}.

Definition new_framer : SseEventFramer :=
  {| fr_decoder := utf8_start; fr_lineFragments := []; fr_lineBytes := 0; fr_currentEventType := "";
     fr_currentDataLines := []; fr_currentDataSeen := false; fr_currentDataBytes := 0; fr_eventCount := 0;
     fr_streamBytes := 0; fr_skipLeadingLf := false; fr_ended := false |}.

Definition set_line (fragments : list string) (bytes : Z) (f : SseEventFramer) : SseEventFramer :=
  {| fr_decoder := fr_decoder f; fr_lineFragments := fragments; fr_lineBytes := bytes;
     fr_currentEventType := fr_currentEventType f; fr_currentDataLines := fr_currentDataLines f;
     fr_currentDataSeen := fr_currentDataSeen f; fr_currentDataBytes := fr_currentDataBytes f;
     fr_eventCount := fr_eventCount f; fr_streamBytes := fr_streamBytes f; fr_skipLeadingLf := fr_skipLeadingLf f;
     fr_ended := fr_ended f |}.
Definition set_event (type : string) (lines : list string) (seen : bool) (bytes : Z) (f : SseEventFramer) : SseEventFramer :=
  {| fr_decoder := fr_decoder f; fr_lineFragments := fr_lineFragments f; fr_lineBytes := fr_lineBytes f;
     fr_currentEventType := type; fr_currentDataLines := lines; fr_currentDataSeen := seen; fr_currentDataBytes := bytes;
     fr_eventCount := fr_eventCount f; fr_streamBytes := fr_streamBytes f; fr_skipLeadingLf := fr_skipLeadingLf f;
     fr_ended := fr_ended f |}.
Definition set_count (n : Z) (f : SseEventFramer) : SseEventFramer :=
  {| fr_decoder := fr_decoder f; fr_lineFragments := fr_lineFragments f; fr_lineBytes := fr_lineBytes f;
     fr_currentEventType := fr_currentEventType f; fr_currentDataLines := fr_currentDataLines f;
     fr_currentDataSeen := fr_currentDataSeen f; fr_currentDataBytes := fr_currentDataBytes f; fr_eventCount := n;
     fr_streamBytes := fr_streamBytes f; fr_skipLeadingLf := fr_skipLeadingLf f; fr_ended := fr_ended f |}.
Definition set_stream (d : Utf8Decoder) (bytes : Z) (ended : bool) (f : SseEventFramer) : SseEventFramer :=
  {| fr_decoder := d; fr_lineFragments := fr_lineFragments f; fr_lineBytes := fr_lineBytes f;
     fr_currentEventType := fr_currentEventType f; fr_currentDataLines := fr_currentDataLines f;
     fr_currentDataSeen := fr_currentDataSeen f; fr_currentDataBytes := fr_currentDataBytes f;
     fr_eventCount := fr_eventCount f; fr_streamBytes := bytes; fr_skipLeadingLf := fr_skipLeadingLf f; fr_ended := ended |}.
Definition set_skip (skip : bool) (f : SseEventFramer) : SseEventFramer :=
  {| fr_decoder := fr_decoder f; fr_lineFragments := fr_lineFragments f; fr_lineBytes := fr_lineBytes f;
     fr_currentEventType := fr_currentEventType f; fr_currentDataLines := fr_currentDataLines f;
     fr_currentDataSeen := fr_currentDataSeen f; fr_currentDataBytes := fr_currentDataBytes f;
     fr_eventCount := fr_eventCount f; fr_streamBytes := fr_streamBytes f; fr_skipLeadingLf := skip; fr_ended := fr_ended f |}.

(** A step of a framer of any kind: its new state, the frames the sink got, and the
    error it threw after them. *)
Definition framing (S : Type) : Type := S * list SseEventFrame * option SseFramingFailureReason.

Definition framed {S} (s : S) : framing S := (s, [], None).
Definition framing_fails {S} (s : S) (reason : SseFramingFailureReason) : framing S := (s, [], Some reason).

Definition framing_then {S} (m : framing S) (f : S → framing S) : framing S :=
  match m with
  | (s, frames, Some e) => (s, frames, Some e)
  | (s, frames, None) => let '(s', more, e) := f s in (s', frames ++ more, e)
  end.

Notation "m ;;; f" := (framing_then m f) (at level 62, left associativity) : curtain_scope.

Definition LF : ascii := ascii_of_nat 10.
Definition CR : ascii := ascii_of_nat 13.
Definition colon : ascii := ":"%char.
Definition bytes_of (s : string) : Z := Z.of_nat (String.length s).

(** [event: x] as its field and value. *)
Definition sse_field (line : string) : string * string :=
  match str_indexOf line ":" with
  | None => (line, "")
  | Some i =>
      let value := str_drop (S i) line in
      (str_take i line, if startsWith value " " then str_drop 1 value else value)
  end.

Section framer.
Variable limits : SseEventFramerLimits.

Definition emitEvent (f : SseEventFramer) : framing SseEventFramer :=
  if negb (fr_currentDataSeen f) then framed f
  else if maxEvents limits <=? fr_eventCount f then framing_fails f EventCountLimit
  else (set_count (fr_eventCount f + 1) f,
        [{| sf_eventType := fr_currentEventType f; sf_dataUtf8 := str_join newline (fr_currentDataLines f) |}], None).

Definition reset_event (f : SseEventFramer) : SseEventFramer := set_event "" [] false 0 f.

Definition processLine (line : string) (f : SseEventFramer) : framing SseEventFramer :=
  if line =? "" then
    (if fr_currentDataSeen f then emitEvent f else framed f) ;;; λ f, framed (reset_event f)
  else if startsWith line ":" then framed f
  else
    let '(field, value) := sse_field line in
    if field =? "event" then
      framed (set_event value (fr_currentDataLines f) (fr_currentDataSeen f) (fr_currentDataBytes f) f)
    else if negb (field =? "data") then framed f
    else
      let separatorBytes := if fr_currentDataSeen f then 1 else 0 in
      if maxEventBytes limits <? fr_currentDataBytes f + separatorBytes + bytes_of value then framing_fails f EventLimit
      else framed (set_event (fr_currentEventType f) (fr_currentDataLines f ++ [value]) true
                     (fr_currentDataBytes f + separatorBytes + bytes_of value) f).

Definition finishLine (f : SseEventFramer) : framing SseEventFramer :=
  processLine (str_join "" (fr_lineFragments f)) (set_line [] 0 f).

Definition appendLine (value : string) (f : SseEventFramer) : framing SseEventFramer :=
  if value =? "" then framed f
  else if maxLineBytes limits <? fr_lineBytes f + bytes_of value then framing_fails f LineLimit
  else framed (set_line (fr_lineFragments f ++ [value]) (fr_lineBytes f + bytes_of value) f).

(** The loop of [processText]; [segment] is the text since the last terminator. *)
Fixpoint process_loop (segment text : string) (f : SseEventFramer) : framing SseEventFramer :=
  match text with
  | "" => appendLine segment f
  | String a rest =>
      if a =? LF then appendLine segment f ;;; finishLine ;;; process_loop "" rest
      else if a =? CR then
        appendLine segment f ;;; finishLine ;;; λ f,
          match rest with
          | "" => framed (set_skip true f)
          | String b rest' => if b =? LF then process_loop "" rest' f else process_loop "" rest f
          end
      else process_loop (segment +:+ char_string a) rest f
  end.

Definition processText (text : string) (f : SseEventFramer) : framing SseEventFramer :=
  if fr_skipLeadingLf f then
    let f := set_skip false f in
    match text with
    | String a rest => if a =? LF then process_loop "" rest f else process_loop "" text f
    | "" => framed f
    end
  else process_loop "" text f.

Definition feed (chunk : string) (f : SseEventFramer) : framing SseEventFramer :=
  if fr_ended f then framing_fails f AlreadyEnded
  else if maxStreamBytes limits <? fr_streamBytes f + bytes_of chunk then framing_fails f StreamLimit
  else
    let '(d, text) := utf8_write (fr_decoder f) chunk in
    processText text (set_stream d (fr_streamBytes f + bytes_of chunk) false f).

Definition finish (f : SseEventFramer) : framing SseEventFramer :=
  if fr_ended f then framed f
  else
    processText (ud_pending (fr_decoder f)) (set_stream utf8_start (fr_streamBytes f) false f) ;;; (λ f,
    if bool_decide (fr_lineFragments f = []) then framed f else finishLine f) ;;; (λ f,
    if fr_currentDataSeen f then emitEvent f else framed f) ;;; (λ f,
    framed (set_stream (fr_decoder f) (fr_streamBytes f) true f)).

Definition feed_all (chunks : list string) (f : SseEventFramer) : framing SseEventFramer :=
  foldl (λ m chunk, m ;;; feed chunk) (framed f) chunks.

(** What a response in these chunks gives: its frames, and the error that ended them. *)
Definition frame_stream (chunks : list string) : list SseEventFrame * option SseFramingFailureReason :=
  let '(_, frames, e) := feed_all chunks new_framer ;;; finish in (frames, e).

(** [SseLineSplitter]: the same, its sink taking the two fields. *)
Definition splitter_outcome (m : framing SseEventFramer) :
    SseEventFramer * list (string * string) * option SseFramingFailureReason :=
  let '(f, frames, failure) := m in (f, (λ frame, (sf_eventType frame, sf_dataUtf8 frame)) <$> frames, failure).

Definition splitter_feed (chunk : string) (f : SseEventFramer) := splitter_outcome (feed chunk f).
Definition splitter_flush (f : SseEventFramer) := splitter_outcome (finish f).

End framer.

(** * Framing does not depend on the chunks

    The framer against a machine that takes one character at a time, and both against a
    reference that sees the whole text. *)

(** ** Outcomes *)

Lemma framed_then {S} (s : S) f : framed s ;;; f = f s.
Proof. unfold framed, framing_then. by destruct (f s) as [[??]?]. Qed.

Lemma then_framed {S} (m : framing S) : m ;;; framed = m.
Proof. destruct m as [[s fs] [e|]]; [done|]. cbn. by rewrite app_nil_r. Qed.

Lemma then_assoc {S} (m : framing S) f g : m ;;; f ;;; g = m ;;; (λ s, f s ;;; g).
Proof.
  destruct m as [[s fs] [e|]]; [done|]. cbn. destruct (f s) as [[s1 fs1] [e1|]]; [done|]. cbn.
  destruct (g s1) as [[s2 fs2] e2]. by rewrite app_assoc.
Qed.

Lemma then_ext {S} (m : framing S) f g : (∀ s, f s = g s) → m ;;; f = m ;;; g.
Proof. intros Hfg. destruct m as [[s fs] [e|]]; [done|]. cbn. by rewrite Hfg. Qed.

(** ** What a whole stream means *)

(** Its lines, ended by a line feed, a carriage return, or both; an unfinished last line counts. *)
Fixpoint sse_lines (line text : string) : list string :=
  match text with
  | "" => if line =? "" then [] else [line]
  | String a rest =>
      if a =? LF then line :: sse_lines "" rest
      else if a =? CR then
        line :: match rest with String b rest' => if b =? LF then sse_lines "" rest' else sse_lines "" rest | "" => [] end
      else sse_lines (line +:+ char_string a) rest
  end.

(** What is emitted for an event of this type with these data lines. *)
Definition sse_event (type : string) (data : list string) : list SseEventFrame :=
  if bool_decide (data = []) then [] else [{| sf_eventType := type; sf_dataUtf8 := str_join newline data |}].

(** The events of the lines: an empty line ends one, and so does the end of the stream. *)
Fixpoint sse_events (type : string) (data : list string) (lines : list string) : list SseEventFrame :=
  match lines with
  | [] => sse_event type data
  | line :: lines =>
      if line =? "" then sse_event type data ++ sse_events "" [] lines
      else if startsWith line ":" then sse_events type data lines
      else if (sse_field line).1 =? "event" then sse_events (sse_field line).2 data lines
      else if (sse_field line).1 =? "data" then sse_events type (data ++ [(sse_field line).2]) lines
      else sse_events type data lines
  end.

Definition sse_reference (text : string) : list SseEventFrame := sse_events "" [] (sse_lines "" text).

Section framer.
Variable limits : SseEventFramerLimits.

Local Abbreviation appendLine := (appendLine limits).
Local Abbreviation finishLine := (finishLine limits).
Local Abbreviation processLine := (processLine limits).
Local Abbreviation process_loop := (process_loop limits).

(** ** States with the same line, whatever its fragments *)

Definition line_of (f : SseEventFramer) : string := str_join "" (fr_lineFragments f).

(** The framer with its line in one piece. *)
Definition whole (f : SseEventFramer) : SseEventFramer :=
  set_line (if line_of f =? "" then [] else [line_of f]) (fr_lineBytes f) f.

Definition same (f g : SseEventFramer) : Prop := whole f = whole g.

#[local] Instance same_equiv : Equivalence same.
Proof. split; [done|by intros ???|]. intros f g h ??. unfold same in *. congruence. Qed.

(** The same frames and error, and the same state unless it failed. *)
Definition alike (m n : framing SseEventFramer) : Prop :=
  m.1.2 = n.1.2 ∧ m.2 = n.2 ∧ (m.2 = None → same m.1.1 n.1.1).

#[local] Instance alike_equiv : Equivalence alike.
Proof.
  split; [done|intros m n (?&?&Hs)|intros m n o (?&?&Hs) (?&?&Ht)]; split_and!; try congruence.
  - intros ?. symmetry. apply Hs. congruence.
  - intros ?. etransitivity; [by apply Hs|apply Ht; congruence].
Qed.

Lemma alike_then m n f g :
  alike m n → (∀ s t fs, m = (s, fs, None) → same s t → alike (f s) (g t)) → alike (m ;;; f) (n ;;; g).
Proof.
  destruct m as [[s fs] e], n as [[t gs] e']. intros (Hf&He&Hs) Hfg. cbn in *. subst. destruct e' as [e|]; [done|].
  specialize (Hfg s t _ eq_refl (Hs eq_refl)). cbn. destruct (f s) as [[s1 fs1] e1], (g t) as [[t1 gs1] e2].
  destruct Hfg as (Hf1&He1&Hs1). cbn in *. subst. done.
Qed.

Lemma alike_then_eq m f g :
  (∀ s fs, m = (s, fs, None) → alike (f s) (g s)) → alike (m ;;; f) (m ;;; g).
Proof.
  intros Hfg. destruct m as [[s fs] [e|]]; [done|]. specialize (Hfg s fs eq_refl). cbn.
  destruct (f s) as [[s1 fs1] e1], (g s) as [[t1 gs1] e2]. destruct Hfg as (Hf1&He1&Hs1). cbn in *. by subst.
Qed.

Lemma alike_fails s t e : alike (framing_fails s e) (framing_fails t e).
Proof. intros. by split; [|split]. Qed.

Lemma alike_framed s t : same s t → alike (framed s) (framed t).
Proof. intros. by split; [|split]. Qed.

Lemma alike_refl m n : m = n → alike m n.
Proof. by intros ->. Qed.

Lemma str_join_snoc l x : str_join "" (l ++ [x]) = str_join "" l +:+ x.
Proof.
  unfold str_join. induction l as [|y l IH]; [done|]. destruct l as [|z l].
  - cbn. done.
  - change (String.concat "" ((y :: z :: l) ++ [x])) with (y +:+ "" +:+ String.concat "" ((z :: l) ++ [x])).
    rewrite IH. change (String.concat "" (y :: z :: l)) with (y +:+ "" +:+ String.concat "" (z :: l)).
    by rewrite !str_app_assoc.
Qed.

Lemma whole_fields f g :
  same f g →
  line_of f = line_of g ∧ fr_lineBytes f = fr_lineBytes g ∧ set_line [] 0 f = set_line [] 0 g.
Proof.
  unfold same, whole. destruct f, g. unfold line_of, set_line. cbn. intros [= -> Hl -> -> -> -> -> -> -> -> ->].
  split; [|done]. repeat case_bool_decide; congruence.
Qed.

Lemma same_fields f g :
  fr_lineBytes f = fr_lineBytes g → line_of f = line_of g → set_line [] 0 f = set_line [] 0 g → same f g.
Proof.
  destruct f, g. unfold same, whole, line_of, set_line. cbn. intros -> -> [= -> -> -> -> -> -> -> -> ->]. done.
Qed.

Lemma same_skip f g b : same f g → same (set_skip b f) (set_skip b g).
Proof.
  intros (Hl&Hb&Hr)%whole_fields. apply same_fields; [done|done|].
  exact (f_equal (set_skip b) Hr).
Qed.

Lemma same_get_skip f g : same f g → fr_skipLeadingLf f = fr_skipLeadingLf g.
Proof. intros (_&_&Hr)%whole_fields. by apply (f_equal fr_skipLeadingLf) in Hr. Qed.

(** *** Operations *)

Lemma finish_same f g : same f g → finishLine f = finishLine g.
Proof. intros (Hl&_&Hr)%whole_fields. unfold Sse.finishLine, line_of in *. by rewrite Hl, Hr. Qed.

Lemma append_same v f g : same f g → alike (appendLine v f) (appendLine v g).
Proof.
  intros Hfg. pose proof Hfg as (Hl&Hb&Hr)%whole_fields. unfold Sse.appendLine. case_bool_decide; [by apply alike_framed|].
  rewrite Hb. destruct (_ <? _)%Z; [apply alike_fails|]. apply alike_framed, same_fields; [done| |].
  - unfold line_of in *. cbn. rewrite !str_join_snoc. congruence.
  - exact Hr.
Qed.

Lemma append_app u v f :
  alike (appendLine (u +:+ v) f) (appendLine u f ;;; appendLine v).
Proof.
  unfold Sse.appendLine. destruct (decide (u = "")) as [->|Hu].
  { apply alike_refl. by rewrite (bool_decide_eq_true_2 ("" = "")), framed_then. }
  destruct (decide (v = "")) as [->|Hv].
  { apply alike_refl. rewrite str_app_nil_r. symmetry. etransitivity; [|apply then_framed]. done. }
  assert (Huv : u +:+ v ≠ "") by (destruct u; [done|by rewrite str_app_cons]).
  rewrite !(bool_decide_eq_false_2 (_ = "")) by done. unfold bytes_of. rewrite str_length_app.
  destruct (maxLineBytes limits <? fr_lineBytes f + Z.of_nat (String.length u)) eqn:E1; cbn [framing_then framing_fails].
  { apply Z.ltb_lt in E1. rewrite (proj2 (Z.ltb_lt _ _)) by lia. done. }
  rewrite framed_then. cbn [set_line fr_lineBytes].
  replace (fr_lineBytes f + Z.of_nat (String.length u + String.length v))
    with (fr_lineBytes f + Z.of_nat (String.length u) + Z.of_nat (String.length v)) by lia.
  destruct (maxLineBytes limits <? _ + _ + _); [apply alike_fails|]. apply alike_framed, same_fields; [done| |done].
  unfold line_of. cbn. by rewrite !str_join_snoc, str_app_assoc.
Qed.

Lemma append_empty f : appendLine "" f = framed f.
Proof. done. Qed.

(** ** One character at a time *)

Definition plain_char (a : ascii) (f : SseEventFramer) : framing SseEventFramer :=
  if a =? LF then finishLine f
  else if a =? CR then finishLine f ;;; λ f, framed (set_skip true f)
  else appendLine (char_string a) f.

Definition char_step (a : ascii) (f : SseEventFramer) : framing SseEventFramer :=
  if fr_skipLeadingLf f then
    if a =? LF then framed (set_skip false f) else plain_char a (set_skip false f)
  else plain_char a f.

Fixpoint run_chars (text : string) (f : SseEventFramer) : framing SseEventFramer :=
  match text with "" => framed f | String a text => char_step a f ;;; run_chars text end.

Lemma run_chars_app s t f : run_chars (s +:+ t) f = run_chars s f ;;; run_chars t.
Proof.
  revert f. induction s as [|a s IH]; intros f; [symmetry; apply framed_then|]. rewrite str_app_cons. cbn [run_chars].
  rewrite then_assoc. destruct (char_step a f) as [[g fs] [e|]]; [done|]. cbn. by rewrite IH.
Qed.

Lemma plain_char_same a f g : same f g → alike (plain_char a f) (plain_char a g).
Proof.
  intros Hfg. unfold plain_char. case_bool_decide; [by rewrite (finish_same f g)|].
  case_bool_decide; [by rewrite (finish_same f g)|]. by apply append_same.
Qed.

Lemma char_step_same a f g : same f g → alike (char_step a f) (char_step a g).
Proof.
  intros Hfg. unfold char_step. rewrite (same_get_skip f g) by done. destruct (fr_skipLeadingLf g); [|by apply plain_char_same].
  case_bool_decide; [|by apply plain_char_same, same_skip]. by apply alike_framed, same_skip.
Qed.

Lemma run_chars_same t f g : same f g → alike (run_chars t f) (run_chars t g).
Proof.
  revert f g. induction t as [|a t IH]; intros f g Hfg; [by apply alike_framed|]. cbn [run_chars].
  apply alike_then; [by apply char_step_same|]. intros s' t' _ _. apply IH.
Qed.

(** *** The flag is only set by a carriage return *)

Lemma process_line_skip l f g fs e : processLine l f = (g, fs, e) → fr_skipLeadingLf g = fr_skipLeadingLf f.
Proof.
  unfold Sse.processLine, emitEvent, framing_then, framed, framing_fails. destruct (sse_field l). intros Hp.
  repeat case_match; simplify_eq/=; done.
Qed.

Lemma finish_skip f g fs e : finishLine f = (g, fs, e) → fr_skipLeadingLf g = fr_skipLeadingLf f.
Proof. intros Hp%process_line_skip. done. Qed.

Lemma append_skip v f g fs e : appendLine v f = (g, fs, e) → fr_skipLeadingLf g = fr_skipLeadingLf f.
Proof. unfold Sse.appendLine, framed, framing_fails. intros Hp. by repeat case_match; simplify_eq/=. Qed.

Lemma skip_down f : fr_skipLeadingLf f = false → set_skip false (set_skip true f) = f.
Proof. destruct f. cbn. by intros ->. Qed.

Lemma char_step_down a f : fr_skipLeadingLf f = false → char_step a f = plain_char a f.
Proof. unfold char_step. by intros ->. Qed.

(** After a carriage return only a line feed makes a difference. *)
Lemma run_chars_after_cr text f :
  fr_skipLeadingLf f = false →
  run_chars text (set_skip true f) =
    match text with
    | "" => framed (set_skip true f)
    | String a rest => if a =? LF then run_chars rest f else run_chars text f
    end.
Proof.
  intros Hf. destruct text as [|a rest]; [done|]. cbn [run_chars]. unfold char_step at 1. cbn [set_skip fr_skipLeadingLf].
  case_bool_decide; [by rewrite framed_then, skip_down|]. by rewrite skip_down, char_step_down.
Qed.

Section loop.
Variables (rest : string) (IH : ∀ text segment f, (String.length text ≤ String.length rest)%nat →
  fr_skipLeadingLf f = false → alike (process_loop segment text f) (appendLine segment f ;;; run_chars text)).

Lemma loop_empty text f :
  (String.length text ≤ String.length rest)%nat → fr_skipLeadingLf f = false →
  alike (process_loop "" text f) (run_chars text f).
Proof. intros ??. etransitivity; [by apply IH|]. by rewrite append_empty, framed_then. Qed.

Lemma loop_char a segment f :
  fr_skipLeadingLf f = false →
  alike (process_loop segment (String a rest) f) (appendLine segment f ;;; run_chars (String a rest)).
Proof.
  intros Hf. cbn [Sse.process_loop]. change (run_chars (String a rest)) with (λ g, char_step a g ;;; run_chars rest).
  destruct (decide (a = LF)) as [->|Hlf]; [rewrite (bool_decide_eq_true_2 (LF = LF)) by done|
    rewrite (bool_decide_eq_false_2 (a = LF)) by done; destruct (decide (a = CR)) as [->|Hcr];
      [rewrite (bool_decide_eq_true_2 (CR = CR)) by done|rewrite (bool_decide_eq_false_2 (a = CR)) by done]].
  - rewrite then_assoc. apply alike_then_eq. intros s fs E%append_skip.
    rewrite char_step_down by congruence. apply alike_then_eq. intros s' fs' E'%finish_skip. apply loop_empty; [done|congruence].
  - rewrite then_assoc. apply alike_then_eq. intros s fs E%append_skip.
    rewrite char_step_down by congruence. change (plain_char CR s) with (finishLine s ;;; λ f, framed (set_skip true f)). rewrite then_assoc.
    apply alike_then_eq. intros s' fs' E'%finish_skip. rewrite framed_then, run_chars_after_cr by congruence.
    assert (Hcase : rest = "" ∨ ∃ b rest', rest = String b rest') by (destruct rest; eauto).
    destruct Hcase as [->|(b & rest' & Hr)]; [done|]. rewrite Hr.
    case_bool_decide; (apply loop_empty; [rewrite Hr; cbn; lia|congruence]).
  - etransitivity; [by apply IH|]. etransitivity; [apply alike_then; [apply append_app|intros s t ? _; apply run_chars_same]|].
    rewrite then_assoc. apply alike_then_eq. intros s fs E%append_skip. rewrite char_step_down by congruence.
    unfold plain_char. by rewrite !bool_decide_eq_false_2 by done.
Qed.
End loop.

(** The loop is the machine, from a state whose flag is down. *)
Lemma loop_chars text segment f :
  fr_skipLeadingLf f = false →
  alike (process_loop segment text f) (appendLine segment f ;;; run_chars text).
Proof.
  remember (String.length text) as n eqn:Hn. revert text segment f Hn.
  induction n as [n IH] using lt_wf_ind. intros [|a rest] segment f Hn Hf; [by cbn; rewrite then_framed|].
  apply loop_char; [|done]. intros text segment' f' Hlen Hf'. eapply IH; [|done|done]. subst. cbn. lia.
Qed.

(** [processText] is the machine; an empty text forgets a carriage return. *)
Lemma process_text_chars text f :
  text ≠ "" ∨ fr_skipLeadingLf f = false → alike (processText limits text f) (run_chars text f).
Proof.
  intros Ht. unfold processText. destruct (fr_skipLeadingLf f) eqn:Hf.
  - destruct Ht as [Ht|]; [|done].
    assert (Heq : f = set_skip true (set_skip false f)) by (destruct f; cbn in *; by subst).
    assert (Hrun : run_chars text f = run_chars text (set_skip true (set_skip false f))) by by rewrite <-Heq.
    rewrite Hrun, run_chars_after_cr by done. destruct text as [|a rest]; [done|].
    case_bool_decide; (etransitivity; [by apply loop_chars|]; by rewrite append_empty, framed_then).
  - etransitivity; [by apply loop_chars|]. by rewrite append_empty, framed_then.
Qed.

(** ** The decoder *)

Definition decoder_ok (d : Utf8Decoder) : Prop :=
  (ud_need d = 0%nat ∧ ud_pending d = "")
  ∨ (ud_need d ≠ 0%nat ∧ ∃ a p, ud_pending d = String a p ∧ utf8_follow a ≠ 0%nat).

Lemma follow_not_lf a : utf8_follow a ≠ 0%nat → a ≠ LF.
Proof. by intros Ha ->. Qed.

Lemma utf8_byte_ok d a d' text :
  decoder_ok d → utf8_byte d a = (d', text) →
  decoder_ok d' ∧ text +:+ ud_pending d' = ud_pending d +:+ char_string a ∧ (text = "" → ud_need d' ≠ 0%nat).
Proof.
  unfold utf8_byte, decoder_ok, char_string. intros [[Hn Hp]|(Hn & b & p & Hp & Hb)].
  - rewrite Hn, Hp. destruct (utf8_follow a) as [|k] eqn:Hk; intros [= <- <-]; cbn; [by auto|].
    split; [right; split; [done|]; exists a, ""; by rewrite Hk|]. done.
  - destruct (ud_need d) as [|n]; [done|]. rewrite Hp.
    destruct (is_continuation a); [destruct n as [|n]|destruct (utf8_follow a) as [|k] eqn:Hk]; intros [= <- <-]; cbn.
    + split; [by left|]. split; [by rewrite ?str_app_nil_r|done].
    + split; [right; split; [done|]; by eexists _, _|]. done.
    + split; [by left|]. split; [by rewrite ?str_app_nil_r|done].
    + split; [right; split; [done|]; exists a, ""; by rewrite Hk|]. done.
Qed.

Lemma utf8_write_ok chunk d d' text :
  decoder_ok d → utf8_write d chunk = (d', text) →
  decoder_ok d' ∧ text +:+ ud_pending d' = ud_pending d +:+ chunk ∧ (text = "" → chunk ≠ "" → ud_need d' ≠ 0%nat).
Proof.
  revert d d' text. induction chunk as [|a chunk IH]; intros d d' text Hd; cbn.
  - intros [= <- <-]. by rewrite str_app_nil_r.
  - destruct (utf8_byte d a) as [d1 t1] eqn:E1. destruct (utf8_write d1 chunk) as [d2 t2] eqn:E2. intros [= <- <-].
    destruct (utf8_byte_ok _ _ _ _ Hd E1) as (Hd1 & Ht1 & Hn1). destruct (IH _ _ _ Hd1 E2) as (Hd2 & Ht2 & Hn2).
    split; [done|]. split.
    + rewrite str_app_assoc, Ht2, <-str_app_assoc, Ht1. by rewrite str_app_assoc.
    + intros Htext _. assert (t1 = "" ∧ t2 = "") as [-> ->] by (destruct t1; [by cbn in Htext|done]).
      destruct chunk as [|b chunk]; [|by apply Hn2]. cbn in E2. injection E2 as <-. by apply Hn1.
Qed.

(** ** Chunks *)

(** The framer without what belongs to its chunks. *)
Definition strip (f : SseEventFramer) : SseEventFramer := set_stream utf8_start 0 false f.

Definition strip_outcome (m : framing SseEventFramer) : framing SseEventFramer := (strip m.1.1, m.1.2, m.2).

Lemma strip_then m f g :
  (∀ s, f (strip s) = strip_outcome (g s)) → strip_outcome m ;;; f = strip_outcome (m ;;; g).
Proof.
  intros Hfg. destruct m as [[s fs] [e|]]; [done|]. cbn. rewrite Hfg. by destruct (g s) as [[??]?].
Qed.

Lemma strip_process l f : processLine l (strip f) = strip_outcome (processLine l f).
Proof.
  unfold Sse.processLine, emitEvent, framing_then, framed, framing_fails, strip_outcome.
  destruct f as [? ? ? ? ? [] ? ? ? ? ?], (sse_field l); cbn; by repeat case_match; simplify_eq/=.
Qed.

Lemma strip_finish f : finishLine (strip f) = strip_outcome (finishLine f).
Proof. exact (strip_process _ (set_line [] 0 f)). Qed.

Lemma strip_append v f : appendLine v (strip f) = strip_outcome (appendLine v f).
Proof. unfold Sse.appendLine. cbn. by repeat case_match. Qed.

Lemma strip_plain a f : plain_char a (strip f) = strip_outcome (plain_char a f).
Proof.
  unfold plain_char. rewrite strip_finish, strip_append. case_bool_decide; [done|]. case_bool_decide; [|done].
  by apply strip_then.
Qed.

Lemma strip_chars text f : run_chars text (strip f) = strip_outcome (run_chars text f).
Proof.
  revert f. induction text as [|a text IH]; intros f; [done|]. cbn [run_chars].
  assert (char_step a (strip f) = strip_outcome (char_step a f)) as ->; [|by apply strip_then].
  unfold char_step. change (fr_skipLeadingLf (strip f)) with (fr_skipLeadingLf f).
  change (set_skip false (strip f)) with (strip (set_skip false f)).
  destruct (fr_skipLeadingLf f); [case_bool_decide; [done|]|]; apply strip_plain.
Qed.

(** What belongs to the chunks, and the characters leave alone. *)
Definition of_chunks (f : SseEventFramer) : Utf8Decoder * Z * bool := (fr_decoder f, fr_streamBytes f, fr_ended f).

Lemma process_chunks l f : of_chunks (processLine l f).1.1 = of_chunks f.
Proof.
  unfold Sse.processLine, emitEvent, framing_then, framed, framing_fails.
  destruct f as [? ? ? ? ? [] ? ? ? ? ?], (sse_field l); cbn; by repeat case_match; simplify_eq/=.
Qed.

Lemma then_chunks m f x :
  of_chunks m.1.1 = x → (∀ s, of_chunks s = x → of_chunks (f s).1.1 = x) → of_chunks (m ;;; f).1.1 = x.
Proof. destruct m as [[s fs] [e|]]; [done|]. cbn. intros Hs Hf. specialize (Hf s Hs). by destruct (f s) as [[??]?]. Qed.

Lemma plain_chunks a f : of_chunks (plain_char a f).1.1 = of_chunks f.
Proof.
  assert (Hfinish : of_chunks (finishLine f).1.1 = of_chunks f) by exact (process_chunks _ (set_line [] 0 f)).
  unfold plain_char. case_bool_decide; [done|]. case_bool_decide; [|by unfold Sse.appendLine; repeat case_match].
  by apply then_chunks.
Qed.

Lemma chars_chunks text f : of_chunks (run_chars text f).1.1 = of_chunks f.
Proof.
  revert f. induction text as [|a text IH]; intros f; [done|]. cbn [run_chars]. apply then_chunks; [|intros s <-; apply IH].
  unfold char_step. repeat case_match; [done|exact (plain_chunks a (set_skip false f))|apply plain_chunks].
Qed.

(** The end of a stream. *)
Definition tail_of (f : SseEventFramer) : framing SseEventFramer :=
  (if line_of f =? "" then framed f else finishLine f) ;;; λ f,
  if fr_currentDataSeen f then emitEvent limits f else framed f.

(** ** A framer between two chunks, and the machine that has its characters *)

(** Nothing of the chunks, nor the flag. *)
Definition bare (f : SseEventFramer) : SseEventFramer := strip (set_skip false f).

Record follows (f g : SseEventFramer) : Prop := {
  fo_open : fr_ended f = false;
  fo_decoder : decoder_ok (fr_decoder f);
  fo_bare : same (bare f) (bare g);
  (** A framer that holds back part of a character may have forgotten a carriage return. *)
  fo_skip : fr_skipLeadingLf f = fr_skipLeadingLf g
            ∨ fr_skipLeadingLf f = false ∧ ud_need (fr_decoder f) ≠ 0%nat
}.

(** The same frames and error. *)
Definition agree (m n : framing SseEventFramer) : Prop := m.1.2 = n.1.2 ∧ m.2 = n.2.

Lemma set_skip_get f : set_skip (fr_skipLeadingLf f) f = f.
Proof. by destruct f. Qed.

Lemma same_strip f g : same f g → same (strip f) (strip g).
Proof.
  intros (Hl&Hb&Hr)%whole_fields. apply same_fields; [done|done|]. exact (f_equal strip Hr).
Qed.

(** A character that is not a line feed is read alike with the flag up or down. *)
Lemma char_step_skip a f : a ≠ LF → char_step a f = plain_char a (set_skip false f).
Proof.
  intros Ha. unfold char_step. rewrite (bool_decide_eq_false_2 (a = LF)) by done.
  destruct (fr_skipLeadingLf f) eqn:E; [done|]. by rewrite <-E, set_skip_get.
Qed.

Lemma run_chars_skip_irrelevant a text f b :
  a ≠ LF → run_chars (String a text) f = run_chars (String a text) (set_skip b f).
Proof. intros Ha. cbn [run_chars]. by rewrite !char_step_skip. Qed.

(** Text from states that differ in their chunks only. *)
Lemma run_chars_bare text f g :
  same (bare f) (bare g) → fr_skipLeadingLf f = fr_skipLeadingLf g →
  alike (strip_outcome (run_chars text f)) (strip_outcome (run_chars text g)).
Proof.
  intros Hb Hs. rewrite <-!strip_chars. apply run_chars_same.
  apply (same_skip _ _ (fr_skipLeadingLf g)) in Hb. unfold bare in Hb. rewrite <-Hs in Hb at 1.
  change (set_skip ?b (strip (set_skip false ?x))) with (strip (set_skip b x)) in Hb. by rewrite !set_skip_get in Hb.
Qed.

Lemma follows_text f g text d more :
  follows f g → text ≠ "" → text +:+ more = ud_pending (fr_decoder f) +:+ d →
  alike (strip_outcome (run_chars text f)) (strip_outcome (run_chars text g)).
Proof.
  intros [_ Hd Hb [Hs|[Hs Hn]]] Htext Heq; [by apply run_chars_bare|].
  destruct Hd as [[]|(_&a&p&Hp&Ha)]; [done|]. destruct text as [|b text]; [done|]. rewrite Hp in Heq.
  rewrite !str_app_cons in Heq. injection Heq as -> _.
  rewrite (run_chars_skip_irrelevant a text g false) by (by apply follow_not_lf). by apply run_chars_bare.
Qed.

Lemma same_chunks f g : same f g → of_chunks f = of_chunks g.
Proof. intros (_&_&Hr)%whole_fields. exact (f_equal of_chunks Hr). Qed.

Lemma process_empty f : processText limits "" f = framed (set_skip false f).
Proof. unfold processText. destruct (fr_skipLeadingLf f) eqn:E; [done|]. by rewrite <-E, set_skip_get. Qed.

(** The text of a chunk, on both sides. *)
Lemma process_follows f g text d n more c :
  follows f g → text ≠ "" → text +:+ more = ud_pending (fr_decoder f) +:+ c →
  alike (strip_outcome (processText limits text (set_stream d n false f))) (strip_outcome (run_chars text g)) ∧
  ((processText limits text (set_stream d n false f)).2 = None →
   of_chunks (processText limits text (set_stream d n false f)).1.1 = (d, n, false)).
Proof.
  intros Hfg Htext Heq. pose proof (process_text_chars text (set_stream d n false f) (or_introl Htext)) as (Hf&He&Hs).
  split.
  - transitivity (strip_outcome (run_chars text f)); [|by eapply follows_text].
    rewrite <-(strip_chars text f). change (strip f) with (strip (set_stream d n false f)). rewrite strip_chars.
    split_and!; [done..|]. intros Hn. by apply same_strip, Hs.
  - intros Hn. rewrite (same_chunks _ _ (Hs Hn)), chars_chunks. done.
Qed.

Lemma feed_follows c f g d text :
  follows f g → c ≠ "" → fr_streamBytes f + bytes_of c ≤ maxStreamBytes limits →
  utf8_write (fr_decoder f) c = (d, text) →
  agree (feed limits c f) (run_chars text g) ∧
  ((feed limits c f).2 = None →
   follows (feed limits c f).1.1 (run_chars text g).1.1 ∧ fr_decoder (feed limits c f).1.1 = d
   ∧ fr_streamBytes (feed limits c f).1.1 = fr_streamBytes f + bytes_of c).
Proof.
  intros Hfg Hc Hmax Hw. destruct (utf8_write_ok _ _ _ _ (fo_decoder _ _ Hfg) Hw) as (Hd & Heq & Hneed).
  unfold feed. rewrite (fo_open _ _ Hfg), (proj2 (Z.ltb_ge _ _)), Hw by lia.
  destruct (decide (text = "")) as [->|Htext].
  - rewrite process_empty. split; [done|]. intros _. split; [|done]. destruct Hfg as [_ _ Hb _].
    split; [done..|right; split; [done|by apply Hneed]].
  - destruct (process_follows f g text d (fr_streamBytes f + bytes_of c) _ _ Hfg Htext Heq) as [(Hf&He&Hs) Hch].
    split; [by split|]. intros Hn. specialize (Hs Hn). specialize (Hch Hn). unfold of_chunks in Hch. injection Hch as Hdec Hbytes Hend.
    split; [|done]. split; [done|by rewrite Hdec| |left].
    + exact (same_skip _ _ false Hs).
    + exact (same_get_skip _ _ Hs).
Qed.

(** *** The end *)

Lemma emit_whole f : agree (emitEvent limits f) (emitEvent limits (whole f)).
Proof. unfold emitEvent, agree. destruct f as [? ? ? ? ? [] ? ? ? ? ?]; cbn; by repeat case_match. Qed.

Lemma line_whole f : line_of (whole f) = line_of f.
Proof. unfold whole. unfold line_of at 1. cbn. case_bool_decide as E; [by rewrite E|done]. Qed.

Lemma tail_whole f : agree (tail_of f) (tail_of (whole f)).
Proof.
  assert (Hs : same f (whole f)) by (apply same_fields; [done|by rewrite line_whole|done]).
  unfold tail_of. rewrite line_whole, (finish_same _ _ Hs). case_bool_decide; [|done]. rewrite !framed_then.
  change (fr_currentDataSeen (whole f)) with (fr_currentDataSeen f). destruct (fr_currentDataSeen f); [apply emit_whole|done].
Qed.

Lemma tail_bare f : agree (tail_of f) (tail_of (bare f)).
Proof.
  unfold tail_of, agree. change (line_of (bare f)) with (line_of f). case_bool_decide.
  - unfold emitEvent, framing_then, framed, framing_fails.
    destruct f as [? ? ? ? ? [] ? ? ? ? ?]; cbn; [by destruct (maxEvents limits <=? _)%Z|done].
  - unfold Sse.finishLine. change (fr_lineFragments (bare f)) with (fr_lineFragments f).
    generalize (str_join "" (fr_lineFragments f)). intros l. unfold Sse.processLine, emitEvent, framing_then, framed, framing_fails.
    destruct f as [? ? ? ? ? [] ? ? ? ? ?], (sse_field l); cbn; by repeat (case_match; simplify_eq/=).
Qed.

Lemma tail_same f g : same (bare f) (bare g) → agree (tail_of f) (tail_of g).
Proof.
  intros Hs. unfold agree in *. destruct (tail_bare f) as [-> ->], (tail_bare g) as [-> ->],
    (tail_whole (bare f)) as [-> ->], (tail_whole (bare g)) as [-> ->]. unfold same in Hs. by rewrite Hs.
Qed.

Lemma agree_then m n f g :
  agree m n → (m.2 = None → agree (f m.1.1) (g n.1.1)) → agree (m ;;; f) (n ;;; g).
Proof.
  destruct m as [[s fs] e], n as [[t gs] e']. unfold agree. cbn. intros [-> ->] Hfg. destruct e' as [e|]; [done|].
  specialize (Hfg eq_refl). destruct (f s) as [[??]?], (g t) as [[??]?]. cbn in *. by destruct Hfg as [-> ->].
Qed.

(** What [finish] does after the last text; an empty last line ends the event as the end of the stream does. *)
Lemma finish_tail s :
  agree
    ((if bool_decide (fr_lineFragments s = []) then framed s else finishLine s) ;;; (λ s,
     (if fr_currentDataSeen s then emitEvent limits s else framed s) ;;; (λ s, framed (set_stream (fr_decoder s) (fr_streamBytes s) true s))))
    (tail_of s).
Proof.
  assert (Hend : ∀ s, agree
    ((if fr_currentDataSeen s then emitEvent limits s else framed s) ;;; (λ s, framed (set_stream (fr_decoder s) (fr_streamBytes s) true s)))
    (if fr_currentDataSeen s then emitEvent limits s else framed s)).
  { intros t. destruct (if fr_currentDataSeen t then _ else _) as [[u fs] [e|]]; cbn; [done|]. by rewrite app_nil_r. }
  unfold tail_of. case_bool_decide as Hl; [|case_bool_decide as Hs].
  - assert (line_of s = "") as -> by (unfold line_of; by rewrite Hl).
    rewrite (bool_decide_eq_true_2 ("" = "")), !framed_then by done. apply Hend.
  - unfold Sse.finishLine. fold (line_of s). rewrite Hs, framed_then. unfold Sse.processLine, emitEvent, framing_then, framed, framing_fails.
    destruct s as [? ? ? ? ? [] ? ? ? ? ?]; cbn; [|done]. by destruct (maxEvents limits <=? _)%Z.
  - apply agree_then; [done|]. intros _. apply Hend.
Qed.

Lemma agree_trans m n o : agree m n → agree n o → agree m o.
Proof. unfold agree. by intros [-> ->] [-> ->]. Qed.

Lemma finish_follows f g :
  follows f g → agree (finish limits f) (run_chars (ud_pending (fr_decoder f)) g ;;; tail_of).
Proof.
  intros Hfg. unfold finish. rewrite (fo_open _ _ Hfg), !then_assoc.
  destruct (decide (ud_pending (fr_decoder f) = "")) as [Hp|Hp].
  - rewrite Hp, process_empty. cbn [run_chars]. rewrite !framed_then.
    eapply agree_trans; [apply finish_tail|]. apply tail_same. exact (fo_bare _ _ Hfg).
  - destruct (process_follows f g (ud_pending (fr_decoder f)) utf8_start (fr_streamBytes f) "" "" Hfg Hp eq_refl) as [(Hf&He&Hs) _].
    apply agree_then; [by split|]. intros Hn. eapply agree_trans; [apply finish_tail|].
    apply tail_same. exact (same_skip _ _ false (Hs Hn)).
Qed.

(** ** All chunks *)

Lemma feed_all_from m chunks : foldl (λ m chunk, m ;;; feed limits chunk) m chunks = m ;;; feed_all limits chunks.
Proof.
  unfold feed_all. revert m. induction chunks as [|c chunks IH]; intros m; [symmetry; apply then_framed|].
  cbn [foldl]. rewrite IH, then_assoc. apply then_ext. intros s. by rewrite IH, framed_then.
Qed.

Lemma feed_all_cons c chunks f : feed_all limits (c :: chunks) f = feed limits c f ;;; feed_all limits chunks.
Proof. unfold feed_all at 1. cbn [foldl]. by rewrite feed_all_from, framed_then. Qed.

Definition total_bytes (chunks : list string) : Z := bytes_of (str_join "" chunks).

Lemma str_concat_cons c chunks : str_join "" (c :: chunks) = c +:+ str_join "" chunks.
Proof. unfold str_join. destruct chunks; cbn; [by rewrite str_app_nil_r|done]. Qed.

(** Whatever the chunks, the frames and the error are those of their characters. *)
Lemma stream_follows chunks f g :
  follows f g → Forall (λ c, c ≠ "") chunks →
  fr_streamBytes f + total_bytes chunks ≤ maxStreamBytes limits →
  agree (feed_all limits chunks f ;;; finish limits)
    (run_chars (ud_pending (fr_decoder f) +:+ str_join "" chunks) g ;;; tail_of).
Proof.
  intros Hfg Hne. revert f g Hfg. induction Hne as [|c chunks Hc _ IH]; intros f g Hfg Hmax.
  - change (str_join "" []) with "". change (feed_all limits [] f) with (framed f).
    rewrite str_app_nil_r, framed_then. by apply finish_follows.
  - unfold total_bytes in *. rewrite str_concat_cons in *. unfold bytes_of in *. rewrite str_length_app in Hmax.
    destruct (utf8_write (fr_decoder f) c) as [d text] eqn:Hw.
    destruct (feed_follows c f g d text Hfg Hc ltac:(unfold bytes_of; lia) Hw) as [Hag Hnext].
    destruct (utf8_write_ok _ _ _ _ (fo_decoder _ _ Hfg) Hw) as (_ & Heq & _).
    rewrite <-str_app_assoc, <-Heq, str_app_assoc, run_chars_app, feed_all_cons, !then_assoc.
    apply agree_then; [done|]. intros Hn. destruct (Hnext Hn) as (Hf & Hd & Hb). rewrite <-Hd. apply IH; [done|].
    rewrite Hb. unfold bytes_of. lia.
Qed.

Lemma follows_new : follows new_framer new_framer.
Proof. split; [done|by left|done|by left]. Qed.

Lemma stream_chars chunks :
  Forall (λ c, c ≠ "") chunks → total_bytes chunks ≤ maxStreamBytes limits →
  let m := run_chars (str_join "" chunks) new_framer ;;; tail_of in frame_stream limits chunks = (m.1.2, m.2).
Proof.
  intros Hne Hmax m. pose proof (stream_follows chunks _ _ follows_new Hne Hmax) as [Hf He].
  change (ud_pending (fr_decoder new_framer) +:+ str_join "" chunks) with (str_join "" chunks) in Hf, He. fold m in Hf, He.
  unfold frame_stream. destruct (feed_all limits chunks new_framer ;;; finish limits) as [[s fs] e]. cbn in *. by subst.
Qed.

(** ** The machine against the reference *)

(** A machine that has read whole characters and waits for no line feed. *)
Record ready (g : SseEventFramer) : Prop := {
  re_skip : fr_skipLeadingLf g = false;
  re_bytes : fr_lineBytes g = bytes_of (line_of g);
  re_seen : fr_currentDataSeen g = negb (bool_decide (fr_currentDataLines g = []));
  re_data : 0 ≤ fr_currentDataBytes g
}.

Definition pending_events (g : SseEventFramer) (lines : list string) : list SseEventFrame :=
  sse_events (fr_currentEventType g) (fr_currentDataLines g) lines.

(** What can still come stays under the ceilings. *)
Definition roomy (g : SseEventFramer) (bytes : Z) (frames : list SseEventFrame) : Prop :=
  fr_lineBytes g + bytes ≤ maxLineBytes limits
  ∧ fr_currentDataBytes g + fr_lineBytes g + bytes ≤ maxEventBytes limits
  ∧ fr_eventCount g + Z.of_nat (length frames) ≤ maxEvents limits.

(** The frames of an outcome begin a reference, and are all of it unless it failed; it
    only fails when there was no room. *)
Definition meets (m : framing SseEventFramer) (reference : list SseEventFrame) (room : Prop) : Prop :=
  m.1.2 `prefix_of` reference ∧ (m.2 = None → m.1.2 = reference) ∧ (room → m.2 = None).

Lemma meets_then m f frames rest (room : Prop) :
  m.1.2 = frames → m.2 = None → meets (f m.1.1) rest room → meets (m ;;; f) (frames ++ rest) room.
Proof.
  destruct m as [[s fs] e]. cbn. intros -> -> (Hp & Hn & Hr). unfold meets. cbn. destruct (f s) as [[t gs] e]. cbn in *.
  split_and!; [by apply prefix_app|intros ->; by rewrite Hn|done].
Qed.

Lemma meets_fails m f reference (room : Prop) :
  m.1.2 = [] → m.2 ≠ None → ¬ room → meets (m ;;; f) reference room.
Proof. destruct m as [[s fs] [e|]]; [|done]. cbn. intros -> _ Hr. split_and!; cbn; [apply prefix_nil|done|done]. Qed.

Lemma value_shorter line : (sse_field line).1 = "data" → bytes_of (sse_field line).2 + 4 ≤ bytes_of line.
Proof.
  unfold sse_field, bytes_of. destruct (str_indexOf line ":") as [i|]; cbn [fst snd].
  - intros Hf%(f_equal String.length). rewrite str_length_take in Hf. cbn in Hf.
    case_match; rewrite ?str_length_drop; lia.
  - intros ->. cbn. lia.
Qed.

(** A line read from a state without one: what it says of the events, or why it failed. *)
Definition line_read (line : string) (lines : list string) (g : SseEventFramer) (m : framing SseEventFramer) : Prop :=
  m.2 = None ∧ ready m.1.1 ∧ fr_lineFragments m.1.1 = []
  ∧ pending_events g (line :: lines) = m.1.2 ++ pending_events m.1.1 lines
  ∧ (∀ b, 0 ≤ b → roomy g (bytes_of line + b) (pending_events g (line :: lines)) → roomy m.1.1 b (pending_events m.1.1 lines)).

Definition line_refused (line : string) (lines : list string) (g : SseEventFramer) (m : framing SseEventFramer) : Prop :=
  m.1.2 = [] ∧ m.2 ≠ None ∧ ∀ b, 0 ≤ b → ¬ roomy g (bytes_of line + b) (pending_events g (line :: lines)).

Lemma process_empty_line lines g :
  ready g → fr_lineFragments g = [] → line_read "" lines g (processLine "" g) ∨ line_refused "" lines g (processLine "" g).
Proof.
  destruct g as [dec frags lb type data seen db n sb skip en]. intros [Hs Hb Hd Hn] Hf. cbn in *. subst.
  unfold line_read, line_refused, pending_events, roomy, Sse.processLine, emitEvent, sse_event. cbn [sse_events].
  rewrite (bool_decide_eq_true_2 ("" = "")) by done. unfold sse_event. cbn.
  case_bool_decide as Hdata; cbn.
  - left. change (bytes_of "") with 0. repeat split; cbn in *; lia.
  - destruct (maxEvents limits <=? n) eqn:E; cbn.
    + right. split_and!; [done|done|]. intros b Hb0 (_&_&Hroom). cbn in Hroom. apply Z.leb_le in E. lia.
    + left. change (bytes_of "") with 0. repeat split; cbn in *; lia.
Qed.

Lemma ready_event type data seen bytes g :
  ready g → seen = negb (bool_decide (data = [])) → 0 ≤ bytes → ready (set_event type data seen bytes g).
Proof. by intros [Hs Hb Hd Hn] Hseen Hbytes. Qed.

Lemma process_line_meets line lines g :
  ready g → fr_lineFragments g = [] → line_read line lines g (processLine line g) ∨ line_refused line lines g (processLine line g).
Proof.
  intros Hg Hf. destruct (decide (line = "")) as [->|Hne]; [by apply process_empty_line|].
  pose proof (value_shorter line) as Hshort. pose proof (Zle_0_nat (String.length line)) as Hlen. change (0 ≤ bytes_of line) in Hlen.
  unfold line_read, line_refused, pending_events, Sse.processLine. cbn [sse_events].
  rewrite (bool_decide_eq_false_2 (line = "")) by done.
  assert (Hsame : ∀ frames, (∀ b, 0 ≤ b → roomy g (bytes_of line + b) frames → roomy g b frames)) by (unfold roomy; lia).
  destruct (startsWith line ":"); [by left; split_and!; cbn; auto|].
  destruct (sse_field line) as [field value]. cbn [fst snd] in *.
  case_bool_decide as He; [left; split_and!; cbn; [done|by apply ready_event; [|apply Hg..]|done..|by apply Hsame]|].
  case_bool_decide as Hdt; cbn [negb]; [|by left; split_and!; cbn; auto].
  specialize (Hshort Hdt). assert (0 ≤ bytes_of value) by apply Zle_0_nat.
  assert (0 ≤ fr_lineBytes g) by (rewrite (re_bytes _ Hg); apply Zle_0_nat). set (sep := if fr_currentDataSeen g then 1 else 0).
  assert (0 ≤ sep ≤ 1) by (unfold sep; case_match; lia).
  destruct (maxEventBytes limits <? _) eqn:E; [apply Z.ltb_lt in E; right|left]; split_and!; cbn; try done.
  - unfold roomy. intros b. lia.
  - apply ready_event; [done| |pose proof (re_data _ Hg); lia]. by destruct (fr_currentDataLines g).
  - unfold roomy. cbn. lia.
Qed.

Lemma meets_mono m reference (room room' : Prop) : (room' → room) → meets m reference room → meets m reference room'.
Proof. intros Hroom (?&?&?). split_and!; auto. Qed.

Lemma meets_agree m n reference room : agree m n → meets n reference room → meets m reference room.
Proof. unfold agree, meets. by intros [-> ->]. Qed.

Lemma line_nil g : fr_lineFragments g = [] → line_of g = "".
Proof. unfold line_of. by intros ->. Qed.

Lemma finish_then f lines b g :
  ready g → 0 ≤ b →
  (∀ s, ready s → line_of s = "" → meets (f s) (pending_events s lines) (roomy s b (pending_events s lines))) →
  meets (finishLine g ;;; f) (pending_events g (line_of g :: lines)) (roomy g b (pending_events g (line_of g :: lines))).
Proof.
  intros Hg Hb Hf. set (g0 := set_line [] 0 g). assert (Hg0 : ready g0) by by destruct Hg.
  assert (Hroom : ∀ frames, roomy g b frames → roomy g0 (bytes_of (line_of g) + b) frames).
  { unfold roomy. intros frames. rewrite (re_bytes _ Hg). cbn. lia. }
  change (pending_events g) with (pending_events g0). change (finishLine g) with (processLine (line_of g) g0).
  destruct (process_line_meets (line_of g) lines g0 Hg0 eq_refl) as [(Hn & Hr & Hl & Hp & Hmore)|(Hfs & He & Hmore)].
  - rewrite Hp. apply meets_then; [done..|]. eapply meets_mono; [|apply Hf; [done|by apply line_nil]].
    intros Hb'. apply Hmore; [done|]. rewrite Hp. by apply Hroom.
  - apply meets_fails; [done..|]. intros Hb'. eapply Hmore; [done|]. by apply Hroom.
Qed.

Lemma emit_meets g b :
  ready g →
  meets (if fr_currentDataSeen g then emitEvent limits g else framed g) (pending_events g []) (roomy g b (pending_events g [])).
Proof.
  intros Hg. pose proof (re_seen _ Hg) as Hseen. unfold pending_events, sse_events, sse_event, emitEvent.
  case_bool_decide; rewrite Hseen; cbn; [done|].
  destruct (maxEvents limits <=? fr_eventCount g) eqn:E; [|done]. apply Z.leb_le in E.
  split_and!; [apply prefix_nil|done|]. unfold roomy. cbn. lia.
Qed.

Lemma tail_meets g :
  ready g →
  meets (tail_of g) (pending_events g (sse_lines (line_of g) "")) (roomy g 0 (pending_events g (sse_lines (line_of g) ""))).
Proof.
  intros Hg. unfold tail_of. cbn [sse_lines]. case_bool_decide as Hl; [rewrite framed_then; by apply emit_meets|].
  apply finish_then; [done|done|]. intros s Hs _. by apply emit_meets.
Qed.

Lemma append_meets a rest g f :
  ready g →
  (∀ s, ready s → line_of s = line_of g +:+ char_string a →
     meets (f s) (pending_events s (sse_lines (line_of s) rest)) (roomy s (bytes_of rest) (pending_events s (sse_lines (line_of s) rest)))) →
  let reference := pending_events g (sse_lines (line_of g +:+ char_string a) rest) in
  meets (appendLine (char_string a) g ;;; f) reference (roomy g (bytes_of (String a rest)) reference).
Proof.
  intros Hg Hf reference. assert (Hbytes : bytes_of (String a rest) = 1 + bytes_of rest) by (unfold bytes_of; cbn; lia).
  assert (0 ≤ bytes_of rest) by apply Zle_0_nat. unfold Sse.appendLine.
  rewrite (bool_decide_eq_false_2 (char_string a = "")) by done. change (bytes_of (char_string a)) with 1.
  destruct (maxLineBytes limits <? fr_lineBytes g + 1) eqn:E.
  - apply Z.ltb_lt in E. apply meets_fails; [done..|]. rewrite Hbytes. unfold roomy. lia.
  - set (s := set_line _ _ g). rewrite framed_then.
    assert (Hline : line_of s = line_of g +:+ char_string a) by (unfold line_of; cbn; by rewrite str_join_snoc).
    assert (Hs : ready s).
    { destruct Hg. split; [done| |done|done]. rewrite Hline. unfold bytes_of in *. rewrite str_length_app. cbn. lia. }
    specialize (Hf s Hs Hline). rewrite Hline in Hf. change (pending_events s) with (pending_events g) in Hf. fold reference in Hf.
    eapply meets_mono; [|exact Hf]. rewrite Hbytes. unfold roomy. cbn. lia.
Qed.

Lemma roomy_less b b' g frames : b ≤ b' → roomy g b' frames → roomy g b frames.
Proof. unfold roomy. lia. Qed.

(** What the machine still does with a text, against the reference. *)
Definition text_meets (text : string) (g : SseEventFramer) : Prop :=
  meets (run_chars text g ;;; tail_of) (pending_events g (sse_lines (line_of g) text))
    (roomy g (bytes_of text) (pending_events g (sse_lines (line_of g) text))).

Lemma after_cr_meets rest s :
  ready s → line_of s = "" → (∀ text, (String.length text ≤ String.length rest)%nat → text_meets text s) →
  let lines := match rest with String b rest' => if b =? LF then sse_lines "" rest' else sse_lines "" rest | "" => [] end in
  meets (run_chars rest (set_skip true s) ;;; tail_of) (pending_events s lines) (roomy s (bytes_of rest) (pending_events s lines)).
Proof.
  intros Hs Hl Htext. unfold text_meets in Htext. rewrite Hl in Htext. rewrite run_chars_after_cr by apply Hs. destruct rest as [|b rest].
  - rewrite framed_then. eapply meets_agree; [by apply (tail_same _ s)|]. pose proof (tail_meets s Hs) as Ht. by rewrite Hl in Ht.
  - cbn zeta. case_bool_decide; [|by apply Htext].
    eapply meets_mono; [apply (roomy_less (bytes_of rest)); unfold bytes_of; cbn; lia|]. apply Htext. cbn. lia.
Qed.

(** The frames of a text are those of its reference. *)
Lemma chars_meet text g : ready g → text_meets text g.
Proof.
  remember (String.length text) as n eqn:Hn. revert text g Hn.
  induction n as [n IH] using lt_wf_ind. intros [|a rest] g Hn Hg.
  { unfold text_meets. change (run_chars "" g) with (framed g). rewrite framed_then. by apply tail_meets. }
  assert (Hshort : ∀ text s, ready s → (String.length text ≤ String.length rest)%nat → text_meets text s).
  { intros text s Hs Hlen. eapply IH; [|done|done]. subst. cbn. lia. }
  assert (0 ≤ bytes_of rest) by apply Zle_0_nat.
  assert (Hless : ∀ frames, roomy g (bytes_of (String a rest)) frames → roomy g (bytes_of rest) frames).
  { intros frames. apply roomy_less. unfold bytes_of. cbn. lia. }
  unfold text_meets. cbn [run_chars sse_lines]. rewrite char_step_down, then_assoc by apply Hg. unfold plain_char.
  case_bool_decide; [|case_bool_decide].
  - eapply meets_mono; [apply Hless|]. apply finish_then; [done..|]. intros s Hs Hl. rewrite <-Hl. by apply Hshort.
  - rewrite then_assoc. eapply meets_mono; [apply Hless|]. apply finish_then; [done..|]. intros s Hs Hl.
    rewrite framed_then. apply after_cr_meets; auto.
  - apply append_meets; [done|]. intros s Hs Hl. by apply Hshort.
Qed.

Lemma ready_new : ready new_framer.
Proof. by split. Qed.

(** C31. The framing of a response.  A stream is what its bytes say, not how the network cut
    it: two ways to split the same bytes into (non-empty) chunks below the stream ceiling
    give the same frames and the same failure, even when a cut falls inside a CRLF or inside
    a UTF-8 character.  The frames are the first events of the text as the SSE format reads
    it (lines end at LF, CR or CRLF; an empty line or the end of the stream ends an event;
    comments and other fields are skipped), all of them when framing does not fail; and it
    only fails when the text or the number of its events passes a ceiling. *)
Theorem sse_framing_exact chunks :
  Forall (λ c, c ≠ "") chunks → total_bytes chunks ≤ maxStreamBytes limits →
  let text := str_join "" chunks in
  let '(frames, failure) := frame_stream limits chunks in
  (∀ chunks', Forall (λ c, c ≠ "") chunks' → str_join "" chunks' = text → frame_stream limits chunks' = (frames, failure))
  ∧ frames `prefix_of` sse_reference text
  ∧ (failure = None → frames = sse_reference text)
  ∧ (bytes_of text ≤ maxLineBytes limits → bytes_of text ≤ maxEventBytes limits →
     Z.of_nat (length (sse_reference text)) ≤ maxEvents limits → failure = None).
Proof.
  intros Hne Hmax text. rewrite (stream_chars chunks) by done. fold text. split.
  - intros chunks' Hne' Heq. rewrite (stream_chars chunks'); [by rewrite Heq|done|]. unfold total_bytes. rewrite Heq. exact Hmax.
  - destruct (chars_meet text _ ready_new) as (Hp & Hn & Hroom). split_and!; [exact Hp|exact Hn|].
    intros ???. by apply Hroom.
Qed.

End framer.

(** A CRLF and a two-byte character cut in the middle. *)
Definition demo_chunks : list string :=
  [String "d" (String "a" (String "t" (String "a" (String ":" (String " " (char_string (ascii_of_nat 195)))))));
   String (ascii_of_nat 169) (char_string CR); String LF ("data:y" +:+ newline);
   "event: stop" +:+ newline +:+ newline +:+ ": nothing" +:+ newline +:+ "data"].

Lemma sse_framing_exact_witness :
  let '(frames, failure) := frame_stream DEFAULT_SSE_EVENT_FRAMER_LIMITS demo_chunks in
  length frames = 2%nat ∧ frames = sse_reference (str_join "" demo_chunks).
Proof.
  pose proof (sse_framing_exact DEFAULT_SSE_EVENT_FRAMER_LIMITS demo_chunks
    (bool_decide_unpack (Forall (λ c, c ≠ "") demo_chunks) I) ltac:(vm_compute; discriminate)) as Hexact.
  cbn zeta in Hexact. destruct (frame_stream _ _) as [frames failure] eqn:E. destruct Hexact as (_ & _ & Hall & _).
  split; [by vm_compute in E; injection E as <- _|]. apply Hall. by vm_compute in E; injection E as _ <-.
Defined.
