(* ===== verification/ObservationHub.v ===== *)
(** * The observers of a response

    Models docker/llm-observation/content-decoder.ts and response-observation-hub.ts: a
    copy of a response waits in a queue, is decoded under ceilings, framed once and
    handed to consumers.  The hub and its decoder call each other, so they are one
    state; an event is what runs between two turns of the event loop.  What zlib does
    with its input are events too, and what a callback of a consumer does is the
    parameter [callback].  Ceilings are integers. *)

From Stdlib Require Import Ascii ZArith.
From S2P Require Import Prelude JsValue Sse.

Local Open Scope Z_scope.
Local Open Scope curtain_scope.

(** ** The decoder *)

Inductive ContentDecodingFailureReason :=
  UnsupportedEncoding | CompressedByteLimit | DecodedByteLimit | ExpansionRatioLimit | DecoderBacklogLimit | DecoderError
| ConsumerError.
#[export] Instance ContentDecodingFailureReason_eq_dec : EqDecision ContentDecodingFailureReason.
Proof. solve_decision. Defined.

Record ContentDecoderLimits := {
  maxCompressedBytes : Z;
  maxDecodedBytes : Z;
  maxExpansionRatio : Z;
  expansionRatioSlackBytes : Z;
  maxPendingInputBytes : Z
}.

Definition DEFAULT_CONTENT_DECODER_LIMITS : ContentDecoderLimits :=
  {| maxCompressedBytes := 16 * 1024 * 1024; maxDecodedBytes := 32 * 1024 * 1024; maxExpansionRatio := 64;
     expansionRatioSlackBytes := 64 * 1024; maxPendingInputBytes := 16 * 1024 * 1024 |}.

Record ContentDecoderFailure := {
  df_reason : ContentDecodingFailureReason;
  df_message : string;
  df_compressedBytes : Z;
  df_decodedBytes : Z
}.

Inductive DecoderState := DecoderActive | DecoderEnded | DecoderDetached.
#[export] Instance DecoderState_eq_dec : EqDecision DecoderState.
Proof. solve_decision. Defined.

Record BoundedContentDecoder := {
  bd_encoding : string;
  bd_state : DecoderState;
  bd_endRequested : bool;
  bd_compressedBytes : Z;
  bd_decodedBytes : Z;
  bd_failure : option ContentDecoderFailure
}.

Definition normalizeEncoding (value : option string) : string := toLowerCase (str_trim (default "identity" value)).

Definition isIdentityEncoding (encoding : string) : bool := (encoding =? "") || (encoding =? "identity").

(** The encodings that [createDecoder] has a decompressor for. *)
Definition createDecoder (encoding : string) : bool :=
  bool_decide (encoding ∈ ["gzip"; "x-gzip"; "deflate"; "br"]).

Definition new_decoder (encoding : string) : BoundedContentDecoder :=
  {| bd_encoding := encoding; bd_state := DecoderActive; bd_endRequested := false; bd_compressedBytes := 0;
     bd_decodedBytes := 0; bd_failure := None |}.

(** ** Consumers *)

Inductive ObservationConsumerDetachReason :=
  ConsumerDecodedByteLimit | ConsumerEventCountLimit | ConsumerCallbackError | ConsumerReturnedPromise
| ConsumerCallbackTimeLimit | SseFramingFailure | ContentDecodingFailure | HubInputQueueLimit | HubAborted.
#[export] Instance ObservationConsumerDetachReason_eq_dec : EqDecision ObservationConsumerDetachReason.
Proof. solve_decision. Defined.

Record ObservationConsumerDetached := {
  cd_consumerId : string;
  cd_reason : ObservationConsumerDetachReason;
  cd_message : string
}.

Record ResponseObservationConsumer := {
  co_id : string;
  co_maxDecodedBytes : option Z;
  co_maxSseEvents : option Z;
  co_onDecodedChunk : bool;       (** which callbacks it has *)
  co_onSseEvent : bool;
  co_onEnd : bool;
  co_onDetach : bool
}.

(** The calls a consumer got, and what it does with one. *)
Inductive ConsumerCall :=
| CalledChunk (chunk : string)
| CalledEvent (frame : SseEventFrame)
| CalledEnd
| CalledDetach (detached : ObservationConsumerDetached).

Inductive CallbackOutcome := Returned (elapsed : Z) | Threw (message : string) | ReturnedPromise.

Record ConsumerState := {
  cs_consumer : ResponseObservationConsumer;
  cs_active : bool;
  cs_decodedBytes : Z;
  cs_sseEvents : Z;
  cs_detached : option ObservationConsumerDetached;
  cs_calls : list ConsumerCall
}.

Definition DEFAULT_CONSUMER_MAX_DECODED_BYTES : Z := 32 * 1024 * 1024.
Definition DEFAULT_CONSUMER_MAX_SSE_EVENTS : Z := 100000.
Definition DEFAULT_MAX_CALLBACK_DURATION_MS : Z := 25.
Definition DEFAULT_MAX_QUEUED_COMPRESSED_BYTES : Z := 4 * 1024 * 1024.
Definition DEFAULT_MAX_QUEUED_CHUNKS : Z := 65536.
Definition MAX_CHUNKS_PER_PUMP : nat := 64.

Definition new_consumer (consumer : ResponseObservationConsumer) : ConsumerState :=
  {| cs_consumer := consumer; cs_active := true; cs_decodedBytes := 0; cs_sseEvents := 0; cs_detached := None; cs_calls := [] |}.

Definition called (call : ConsumerCall) (s : ConsumerState) : ConsumerState :=
  {| cs_consumer := cs_consumer s; cs_active := cs_active s; cs_decodedBytes := cs_decodedBytes s;
     cs_sseEvents := cs_sseEvents s; cs_detached := cs_detached s; cs_calls := cs_calls s ++ [call] |}.
Definition count_bytes (n : Z) (s : ConsumerState) : ConsumerState :=
  {| cs_consumer := cs_consumer s; cs_active := cs_active s; cs_decodedBytes := cs_decodedBytes s + n;
     cs_sseEvents := cs_sseEvents s; cs_detached := cs_detached s; cs_calls := cs_calls s |}.
Definition count_event (s : ConsumerState) : ConsumerState :=
  {| cs_consumer := cs_consumer s; cs_active := cs_active s; cs_decodedBytes := cs_decodedBytes s;
     cs_sseEvents := cs_sseEvents s + 1; cs_detached := cs_detached s; cs_calls := cs_calls s |}.

(** A consumer that is detached hears of it; what its callback does is ignored. *)
Definition mark_detached (reason : ObservationConsumerDetachReason) (message : string) (s : ConsumerState) : ConsumerState :=
  let detached := {| cd_consumerId := co_id (cs_consumer s); cd_reason := reason; cd_message := message |} in
  {| cs_consumer := cs_consumer s; cs_active := false; cs_decodedBytes := cs_decodedBytes s;
     cs_sseEvents := cs_sseEvents s; cs_detached := Some detached;
     cs_calls := cs_calls s ++ (if co_onDetach (cs_consumer s) then [CalledDetach detached] else []) |}.

(** ** The hub *)

(** Everything but the consumers. *)
Record HubCore := {
  hc_framer : option SseEventFramer;
  hc_framingFailure : option SseFramingFailureReason;
  hc_decoder : BoundedContentDecoder;
  hc_rawQueue : list string;          (** from [rawQueueHead] on *)
  hc_queuedCompressedBytes : Z;
  hc_pumpScheduled : bool;
  hc_endRequested : bool;
  hc_ended : bool
}.

Record ResponseObservationHub := { hub_core : HubCore; hub_consumers : list ConsumerState }.

Definition set_decoder (d : BoundedContentDecoder) (c : HubCore) : HubCore :=
  {| hc_framer := hc_framer c; hc_framingFailure := hc_framingFailure c; hc_decoder := d; hc_rawQueue := hc_rawQueue c;
     hc_queuedCompressedBytes := hc_queuedCompressedBytes c; hc_pumpScheduled := hc_pumpScheduled c;
     hc_endRequested := hc_endRequested c; hc_ended := hc_ended c |}.
Definition set_framing (f : option SseEventFramer) (failure : option SseFramingFailureReason) (c : HubCore) : HubCore :=
  {| hc_framer := f; hc_framingFailure := failure; hc_decoder := hc_decoder c; hc_rawQueue := hc_rawQueue c;
     hc_queuedCompressedBytes := hc_queuedCompressedBytes c; hc_pumpScheduled := hc_pumpScheduled c;
     hc_endRequested := hc_endRequested c; hc_ended := hc_ended c |}.
Definition set_queue (q : list string) (bytes : Z) (c : HubCore) : HubCore :=
  {| hc_framer := hc_framer c; hc_framingFailure := hc_framingFailure c; hc_decoder := hc_decoder c; hc_rawQueue := q;
     hc_queuedCompressedBytes := bytes; hc_pumpScheduled := hc_pumpScheduled c;
     hc_endRequested := hc_endRequested c; hc_ended := hc_ended c |}.
Definition set_flags (scheduled requested ended : bool) (c : HubCore) : HubCore :=
  {| hc_framer := hc_framer c; hc_framingFailure := hc_framingFailure c; hc_decoder := hc_decoder c; hc_rawQueue := hc_rawQueue c;
     hc_queuedCompressedBytes := hc_queuedCompressedBytes c; hc_pumpScheduled := scheduled;
     hc_endRequested := requested; hc_ended := ended |}.

Definition on_core (f : HubCore → HubCore) (h : ResponseObservationHub) : ResponseObservationHub :=
  {| hub_core := f (hub_core h); hub_consumers := hub_consumers h |}.
Definition on_consumer (i : nat) (f : ConsumerState → ConsumerState) (h : ResponseObservationHub) : ResponseObservationHub :=
  {| hub_core := hub_core h; hub_consumers := alter f i (hub_consumers h) |}.

Definition clearRawQueue (c : HubCore) : HubCore := set_queue [] 0 c.
Definition set_ended (c : HubCore) : HubCore := set_flags (hc_pumpScheduled c) (hc_endRequested c) true c.

Definition update_decoder (f : BoundedContentDecoder → BoundedContentDecoder) (c : HubCore) : HubCore :=
  set_decoder (f (hc_decoder c)) c.
Definition dec_bytes (compressed decoded : Z) (d : BoundedContentDecoder) : BoundedContentDecoder :=
  {| bd_encoding := bd_encoding d; bd_state := bd_state d; bd_endRequested := bd_endRequested d;
     bd_compressedBytes := compressed; bd_decodedBytes := decoded; bd_failure := bd_failure d |}.
Definition dec_state (state : DecoderState) (requested : bool) (failure : option ContentDecoderFailure)
    (d : BoundedContentDecoder) : BoundedContentDecoder :=
  {| bd_encoding := bd_encoding d; bd_state := state; bd_endRequested := requested;
     bd_compressedBytes := bd_compressedBytes d; bd_decodedBytes := bd_decodedBytes d; bd_failure := failure |}.

(** A loop over the consumers, which finds them as they are when it reaches them. *)
Definition for_consumers (body : nat → ResponseObservationHub → ResponseObservationHub) (h : ResponseObservationHub) : ResponseObservationHub :=
  foldl (λ h i, body i h) h (seq 0 (length (hub_consumers h))).

Definition with_active (i : nat) (body : ConsumerState → ResponseObservationHub → ResponseObservationHub)
    (h : ResponseObservationHub) : ResponseObservationHub :=
  match hub_consumers h !! i with
  | Some s => if cs_active s then body s h else h
  | None => h
  end.

Section hub.
Variables (decoderLimits : ContentDecoderLimits) (sseLimits : SseEventFramerLimits)
  (maxQueuedCompressedBytes maxQueuedChunks maxCallbackDurationMs : Z).
(** What a consumer does in the last of these calls. *)
Variable callback : string → list ConsumerCall → CallbackOutcome.

(** [onFailure] of the hub.  It has ended, so detaching a consumer goes no further. *)
Definition onFailure (message : string) (h : ResponseObservationHub) : ResponseObservationHub :=
  for_consumers (λ i, with_active i (λ _, on_consumer i (mark_detached ContentDecodingFailure message)))
    (on_core (λ c, clearRawQueue (set_ended c)) h).

(** [BoundedContentDecoder.detach] *)
Definition decoder_detach (reason : ContentDecodingFailureReason) (message : string) (h : ResponseObservationHub) : ResponseObservationHub :=
  let d := hc_decoder (hub_core h) in
  if negb (bool_decide (bd_state d = DecoderActive)) then h
  else
    let failure := {| df_reason := reason; df_message := message; df_compressedBytes := bd_compressedBytes d;
                      df_decodedBytes := bd_decodedBytes d |} in
    onFailure message (on_core (update_decoder (dec_state DecoderDetached (bd_endRequested d) (Some failure))) h).

Definition detachConsumer (i : nat) (reason : ObservationConsumerDetachReason) (message : string)
    (h : ResponseObservationHub) : ResponseObservationHub :=
  with_active i (λ _ h,
    let h := on_consumer i (mark_detached reason message) h in
    if negb (hc_ended (hub_core h)) && forallb (λ s, negb (cs_active s)) (hub_consumers h) then
      decoder_detach ConsumerError "all response observation consumers detached" (on_core (λ c, clearRawQueue (set_ended c)) h)
    else h) h.

(** [invokeConsumer]; a callback that is missing returns at once. *)
Definition invokeConsumer (i : nat) (present : bool) (call : ConsumerCall) (h : ResponseObservationHub) : ResponseObservationHub :=
  with_active i (λ s h,
    if negb present then h
    else
      let h := on_consumer i (called call) h in
      match callback (co_id (cs_consumer s)) (cs_calls s ++ [call]) with
      | Threw message => detachConsumer i ConsumerCallbackError message h
      | ReturnedPromise => detachConsumer i ConsumerReturnedPromise "observation callbacks must be synchronous" h
      | Returned elapsed =>
          if maxCallbackDurationMs <? elapsed then
            detachConsumer i ConsumerCallbackTimeLimit "observation callback exceeded time limit" h
          else h
      end) h.

Definition deliverSseFrame (frame : SseEventFrame) (h : ResponseObservationHub) : ResponseObservationHub :=
  for_consumers (λ i, with_active i (λ s h,
    if negb (co_onSseEvent (cs_consumer s)) then h
    else if default DEFAULT_CONSUMER_MAX_SSE_EVENTS (co_maxSseEvents (cs_consumer s)) <=? cs_sseEvents s then
      detachConsumer i ConsumerEventCountLimit "consumer SSE event limit exceeded" h
    else invokeConsumer i true (CalledEvent frame) (on_consumer i count_event h))) h.

Definition framing_message (reason : SseFramingFailureReason) : string :=
  match reason with
  | StreamLimit => "SSE stream exceeds configured byte limit"
  | LineLimit => "SSE line exceeds configured byte limit"
  | EventLimit => "SSE event exceeds configured byte limit"
  | EventCountLimit => "SSE event count exceeds configured limit"
  | AlreadyEnded => "cannot feed an ended SSE framer"
  end.

Definition failFraming (reason : SseFramingFailureReason) (h : ResponseObservationHub) : ResponseObservationHub :=
  for_consumers (λ i, with_active i (λ s h,
    if co_onSseEvent (cs_consumer s) then detachConsumer i SseFramingFailure (framing_message reason) h else h))
    (on_core (λ c, set_framing (hc_framer c) (Some reason) c) h).

(** The framer runs, its frames are delivered, and its error stops it for good. *)
Definition run_framer (step : SseEventFramer → framing SseEventFramer) (h : ResponseObservationHub) : ResponseObservationHub :=
  match hc_framer (hub_core h), hc_framingFailure (hub_core h) with
  | Some f, None =>
      let '(f, frames, failure) := step f in
      let h := foldl (λ h frame, deliverSseFrame frame h) (on_core (set_framing (Some f) None) h) frames in
      match failure with Some reason => failFraming reason h | None => h end
  | _, _ => h
  end.

(** [onDecodedChunk] of the hub. *)
Definition onDecodedChunk (chunk : string) (h : ResponseObservationHub) : ResponseObservationHub :=
  if negb (existsb cs_active (hub_consumers h)) then h
  else
    let h := for_consumers (λ i, with_active i (λ s h,
      if default DEFAULT_CONSUMER_MAX_DECODED_BYTES (co_maxDecodedBytes (cs_consumer s)) <? cs_decodedBytes s + bytes_of chunk then
        detachConsumer i ConsumerDecodedByteLimit "consumer decoded-byte limit exceeded" h
      else
        invokeConsumer i (co_onDecodedChunk (cs_consumer s)) (CalledChunk chunk) (on_consumer i (count_bytes (bytes_of chunk)) h))) h in
    if hc_ended (hub_core h) then h else run_framer (feed sseLimits chunk) h.

Definition onDecodedEnd (h : ResponseObservationHub) : ResponseObservationHub :=
  if hc_ended (hub_core h) then h
  else
    let h := run_framer (finish sseLimits) h in
    let h := on_core set_ended h in
    for_consumers (λ i, with_active i (λ s, invokeConsumer i (co_onEnd (cs_consumer s)) CalledEnd)) h.

(** [deliverDecoded] of the decoder; the hub's callback does not throw. *)
Definition deliverDecoded (chunk : string) (h : ResponseObservationHub) : ResponseObservationHub :=
  let d := hc_decoder (hub_core h) in
  let next := bd_decodedBytes d + bytes_of chunk in
  if negb (bool_decide (bd_state d = DecoderActive)) || (chunk =? "") then h
  else if maxDecodedBytes decoderLimits <? next then
    decoder_detach DecodedByteLimit "decoded response observation limit exceeded" h
  else if bd_compressedBytes d * maxExpansionRatio decoderLimits + expansionRatioSlackBytes decoderLimits <? next then
    decoder_detach ExpansionRatioLimit "response decompression expansion ratio exceeded" h
  else onDecodedChunk chunk (on_core (update_decoder (dec_bytes (bd_compressedBytes d) next)) h).

Definition finishSuccessfully (h : ResponseObservationHub) : ResponseObservationHub :=
  let d := hc_decoder (hub_core h) in
  if negb (bool_decide (bd_state d = DecoderActive)) then h
  else onDecodedEnd (on_core (update_decoder (dec_state DecoderEnded (bd_endRequested d) (bd_failure d))) h).

(** [BoundedContentDecoder.write]; [pending] is the input zlib has not consumed, [throws]
    what its [write] throws. *)
Definition decoder_write (pending : Z) (throws : option string) (chunk : string) (h : ResponseObservationHub) : ResponseObservationHub :=
  let d := hc_decoder (hub_core h) in
  if negb (bool_decide (bd_state d = DecoderActive)) || bd_endRequested d || (chunk =? "") then h
  else
    let h := on_core (update_decoder (dec_bytes (bd_compressedBytes d + bytes_of chunk) (bd_decodedBytes d))) h in
    if maxCompressedBytes decoderLimits <? bd_compressedBytes d + bytes_of chunk then
      decoder_detach CompressedByteLimit "compressed response observation limit exceeded" h
    else if negb (createDecoder (bd_encoding d)) then deliverDecoded chunk h
    else if maxPendingInputBytes decoderLimits <? pending + bytes_of chunk then
      decoder_detach DecoderBacklogLimit "content decoder pending-input limit exceeded" h
    else match throws with Some message => decoder_detach DecoderError message h | None => h end.

Definition decoder_end (throws : option string) (h : ResponseObservationHub) : ResponseObservationHub :=
  let d := hc_decoder (hub_core h) in
  if negb (bool_decide (bd_state d = DecoderActive)) || bd_endRequested d then h
  else
    let h := on_core (update_decoder (dec_state (bd_state d) true (bd_failure d))) h in
    if negb (createDecoder (bd_encoding d)) then finishSuccessfully h
    else match throws with Some message => decoder_detach DecoderError message h | None => h end.

(** ** The operations *)

Definition schedulePump (c : HubCore) : HubCore :=
  if hc_pumpScheduled c || hc_ended c then c else set_flags true (hc_endRequested c) (hc_ended c) c.

(** [abort] and [failInputQueue] differ in what they tell. *)
Definition stop_all (reason : ObservationConsumerDetachReason) (message : string) (h : ResponseObservationHub) : ResponseObservationHub :=
  if hc_ended (hub_core h) then h
  else
    decoder_detach ConsumerError message
      (for_consumers (λ i, detachConsumer i reason message) (on_core (λ c, clearRawQueue (set_ended c)) h)).

Definition abort : string → ResponseObservationHub → ResponseObservationHub := stop_all HubAborted.
Definition failInputQueue : string → ResponseObservationHub → ResponseObservationHub := stop_all HubInputQueueLimit.

(** [write]; [copy] is the error of a copy that fails. *)
Definition hub_write (chunk : string) (copy : option string) (h : ResponseObservationHub) : ResponseObservationHub :=
  let c := hub_core h in
  if hc_ended c || hc_endRequested c || (chunk =? "") then h
  else if (maxQueuedCompressedBytes <? hc_queuedCompressedBytes c + bytes_of chunk)
          || (maxQueuedChunks <=? Z.of_nat (length (hc_rawQueue c))) then
    failInputQueue "response observation input queue limit exceeded" h
  else match copy with
  | Some message => failInputQueue message h
  | None =>
      on_core (λ c, schedulePump (set_queue (hc_rawQueue c ++ [chunk]) (hc_queuedCompressedBytes c + bytes_of chunk) c)) h
  end.

Definition hub_end (h : ResponseObservationHub) : ResponseObservationHub :=
  let c := hub_core h in
  if hc_ended c || hc_endRequested c then h
  else on_core (λ c, schedulePump (set_flags (hc_pumpScheduled c) true (hc_ended c) c)) h.

(** The loop of [pumpOne], for [n] more chunks; [zlib] says what zlib does with them. *)
Fixpoint pump_loop (n : nat) (zlib : nat → Z * option string) (h : ResponseObservationHub) : ResponseObservationHub :=
  match n, hc_rawQueue (hub_core h) with
  | S n, chunk :: queue =>
      let h := on_core (λ c, set_queue queue (hc_queuedCompressedBytes c - bytes_of chunk) c) h in
      pump_loop n zlib (decoder_write (zlib n).1 (zlib n).2 chunk h)
  | _, _ => h
  end.

Definition pumpOne (zlib : nat → Z * option string) (ending : option string) (h : ResponseObservationHub) : ResponseObservationHub :=
  if hc_ended (hub_core h) then h
  else
    let h := pump_loop MAX_CHUNKS_PER_PUMP zlib h in
    if negb (bool_decide (hc_rawQueue (hub_core h) = [])) then on_core schedulePump h
    else if hc_endRequested (hub_core h) then decoder_end ending h else h.

(** ** Events *)

Inductive HubEvent :=
| Written (chunk : string) (copy : option string)
| EndRequested
| Aborted (message : string)
| PumpFired (zlib : nat → Z * option string) (ending : option string)
| ZlibData (chunk : string)
| ZlibEnd
| ZlibError (message : string).

Definition hub_step (e : HubEvent) (h : ResponseObservationHub) : ResponseObservationHub :=
  match e with
  | Written chunk copy => hub_write chunk copy h
  | EndRequested => hub_end h
  | Aborted message => abort message h
  | PumpFired zlib ending =>
      if hc_pumpScheduled (hub_core h) then
        pumpOne zlib ending (on_core (λ c, set_flags false (hc_endRequested c) (hc_ended c) c) h)
      else h
  | ZlibData chunk => if createDecoder (bd_encoding (hc_decoder (hub_core h))) then deliverDecoded chunk h else h
  | ZlibEnd => if createDecoder (bd_encoding (hc_decoder (hub_core h))) then finishSuccessfully h else h
  | ZlibError message =>
      if createDecoder (bd_encoding (hc_decoder (hub_core h))) then decoder_detach DecoderError message h else h
  end.

Definition hub_run (events : list HubEvent) (h : ResponseObservationHub) : ResponseObservationHub :=
  foldl (λ h e, hub_step e h) h events.

(** ** Construction *)

(** [positiveLimit], and [positiveFinite] of the decoder. *)
Definition positiveLimit (name : string) (value : Z) : result unit :=
  if 0 <? value then Ok () else Throw (name +:+ " must be a positive finite number").

(** [limit] of the framer; its ceilings are safe integers. *)
Definition framer_limit (name : string) (value : Z) : result unit :=
  if (value <=? 9007199254740991) && (0 <? value) then Ok () else Throw (name +:+ " must be a positive safe integer").

Fixpoint all_limits (check : string → Z → result unit) (limits : list (string * Z)) : result unit :=
  match limits with
  | [] => Ok ()
  | (name, value) :: limits => check name value ≫= λ _, all_limits check limits
  end.

Fixpoint check_consumers (seenIds : list string) (consumers : list ResponseObservationConsumer) : result unit :=
  match consumers with
  | [] => Ok ()
  | consumer :: consumers =>
      let id := co_id consumer in
      if id =? "" then Throw "observation consumer id must not be empty"
      else if bool_decide (id ∈ seenIds) then Throw ("duplicate observation consumer id: " +:+ id)
      else
        all_limits positiveLimit (from_option (λ n, [("maxDecodedBytes", n)]) [] (co_maxDecodedBytes consumer)
                                  ++ from_option (λ n, [("maxSseEvents", n)]) [] (co_maxSseEvents consumer)) ≫= λ _,
        check_consumers (id :: seenIds) consumers
  end.

Definition check_options (frameSse : bool) (consumers : list ResponseObservationConsumer) : result unit :=
  all_limits positiveLimit [("maxCallbackDurationMs", maxCallbackDurationMs); ("maxQueuedCompressedBytes", maxQueuedCompressedBytes);
                            ("maxQueuedChunks", maxQueuedChunks)] ≫= λ _,
  check_consumers [] consumers ≫= λ _,
  (if frameSse then
     all_limits framer_limit [("maxStreamBytes", maxStreamBytes sseLimits); ("maxLineBytes", maxLineBytes sseLimits);
                              ("maxEventBytes", maxEventBytes sseLimits); ("maxEvents", maxEvents sseLimits)]
   else Ok ()) ≫= λ _,
  all_limits positiveLimit [("maxCompressedBytes", maxCompressedBytes decoderLimits); ("maxDecodedBytes", maxDecodedBytes decoderLimits);
                            ("maxExpansionRatio", maxExpansionRatio decoderLimits);
                            ("expansionRatioSlackBytes", expansionRatioSlackBytes decoderLimits);
                            ("maxPendingInputBytes", maxPendingInputBytes decoderLimits)].

(** The hub once its decoder is there; an unknown encoding detaches at once. *)
Definition start_hub (encoding : string) (frameSse : bool) (consumers : list ResponseObservationConsumer) : ResponseObservationHub :=
  let h := {| hub_core := {| hc_framer := if frameSse then Some new_framer else None; hc_framingFailure := None;
                             hc_decoder := new_decoder encoding; hc_rawQueue := []; hc_queuedCompressedBytes := 0;
                             hc_pumpScheduled := false; hc_endRequested := false; hc_ended := false |};
              hub_consumers := new_consumer <$> consumers |} in
  if isIdentityEncoding encoding || createDecoder encoding then h
  else decoder_detach UnsupportedEncoding ("unsupported content-encoding: " +:+ encoding) h.

Definition new_hub (contentEncoding : option string) (frameSse : bool) (consumers : list ResponseObservationConsumer) : result ResponseObservationHub :=
  check_options frameSse consumers ≫= λ _, Ok (start_hub (normalizeEncoding contentEncoding) frameSse consumers).

End hub.
