(* ===== verification/ObservationTheory.v ===== *)
(** * Observers do not disturb each other

    A hub with many consumers against the hub that has one of them alone. *)

From Stdlib Require Import Ascii ZArith Lia.
From S2P Require Import Prelude JsValue Sse ObservationHub.

Local Open Scope Z_scope.
Local Open Scope curtain_scope.

(** ** Detached consumers stay as they are *)

Record later (h h' : ResponseObservationHub) : Prop := {
  la_length : length (hub_consumers h') = length (hub_consumers h);
  la_frozen i s : hub_consumers h !! i = Some s → cs_active s = false → hub_consumers h' !! i = Some s
}.

#[local] Instance later_preorder : PreOrder later.
Proof.
  split; [done|]. intros h1 h2 h3 [Hl Hf] [Hl' Hf']. split; [congruence|]. intros i s Hi Hs. eauto.
Qed.

Lemma later_core f h : later h (on_core f h).
Proof. by split. Qed.

Lemma later_consumer i f h s : hub_consumers h !! i = Some s → cs_active s = true → later h (on_consumer i f h).
Proof.
  intros Hi Hs. split; [apply length_alter|]. intros j t Hj Ht. cbn. rewrite list_lookup_alter_ne; [done|]. congruence.
Qed.

Lemma later_active i body h :
  (∀ s, hub_consumers h !! i = Some s → cs_active s = true → later h (body s h)) → later h (with_active i body h).
Proof. intros Hbody. unfold with_active. destruct (_ !! i) as [s|] eqn:Hi; [|done]. destruct (cs_active s) eqn:Hs; auto. done. Qed.

Lemma later_loop body h : (∀ i h, later h (body i h)) → later h (for_consumers body h).
Proof.
  intros Hbody. unfold for_consumers. generalize (seq 0 (length (hub_consumers h))). intros l. revert h.
  induction l as [|i l IH]; intros h; [done|]. cbn. etransitivity; [apply Hbody|apply IH].
Qed.

Lemma later_foldl {A} (body : A → ResponseObservationHub → ResponseObservationHub) l h :
  (∀ a h, later h (body a h)) → later h (foldl (λ h a, body a h) h l).
Proof. intros Hbody. revert h. induction l as [|a l IH]; intros h; [done|]. cbn. etransitivity; [apply Hbody|apply IH]. Qed.

Lemma later_mark i reason message h : later h (with_active i (λ _, on_consumer i (mark_detached reason message)) h).
Proof. apply later_active. intros. by eapply later_consumer. Qed.

Lemma later_decoder_detach reason message h : later h (decoder_detach reason message h).
Proof.
  unfold decoder_detach, onFailure. case_match; [done|]. etransitivity; [apply later_core|]. etransitivity; [apply later_core|].
  apply later_loop. intros. apply later_mark.
Qed.

Lemma later_detach i reason message h : later h (detachConsumer i reason message h).
Proof.
  apply later_active. intros s Hi Hs. cbv beta zeta. etransitivity; [by eapply later_consumer|]. case_match; [|done].
  etransitivity; [apply later_core|]. apply later_decoder_detach.
Qed.
#[local] Hint Resolve later_core later_mark later_decoder_detach later_detach : later.

Section operations.
Variables (decoderLimits : ContentDecoderLimits) (sseLimits : SseEventFramerLimits)
  (maxQueuedCompressedBytes maxQueuedChunks maxCallbackDurationMs : Z).
Variable callback : string → list ConsumerCall → CallbackOutcome.

Local Abbreviation invokeConsumer := (invokeConsumer maxCallbackDurationMs callback).
Local Abbreviation deliverSseFrame := (deliverSseFrame maxCallbackDurationMs callback).
Local Abbreviation run_framer := (run_framer maxCallbackDurationMs callback).
Local Abbreviation onDecodedChunk := (onDecodedChunk sseLimits maxCallbackDurationMs callback).
Local Abbreviation onDecodedEnd := (onDecodedEnd sseLimits maxCallbackDurationMs callback).
Local Abbreviation deliverDecoded := (deliverDecoded decoderLimits sseLimits maxCallbackDurationMs callback).
Local Abbreviation finishSuccessfully := (finishSuccessfully sseLimits maxCallbackDurationMs callback).
Local Abbreviation decoder_write := (decoder_write decoderLimits sseLimits maxCallbackDurationMs callback).
Local Abbreviation decoder_end := (decoder_end sseLimits maxCallbackDurationMs callback).
Local Abbreviation pump_loop := (pump_loop decoderLimits sseLimits maxCallbackDurationMs callback).
Local Abbreviation pumpOne := (pumpOne decoderLimits sseLimits maxCallbackDurationMs callback).
Local Abbreviation hub_step :=
  (hub_step decoderLimits sseLimits maxQueuedCompressedBytes maxQueuedChunks maxCallbackDurationMs callback).

Lemma later_invoke i present call h : later h (invokeConsumer i present call h).
Proof.
  apply later_active. intros s Hi Hs. cbv beta zeta. destruct present; [|done]. cbn [negb]. etransitivity; [by eapply later_consumer|].
  repeat case_match; auto with later; done.
Qed.
#[local] Hint Resolve later_invoke : later.

Lemma later_frame frame h : later h (deliverSseFrame frame h).
Proof.
  apply later_loop. intros i h'. apply later_active. intros s Hi Hs. cbv beta zeta. repeat case_match; [done|auto with later|].
  etransitivity; [by eapply later_consumer|auto with later].
Qed.

Lemma later_fail_framing reason h : later h (failFraming reason h).
Proof.
  etransitivity; [apply later_core|]. apply later_loop. intros i h'. apply later_active. intros s Hi Hs.
  case_match; [auto with later|done].
Qed.

Lemma later_run_framer step h : later h (run_framer step h).
Proof.
  unfold ObservationHub.run_framer. destruct (hc_framer (hub_core h)) as [f|], (hc_framingFailure (hub_core h)); [done| |done..].
  destruct (step f) as [[f' frames] failure]. etransitivity; [apply later_core|].
  etransitivity; [apply (later_foldl deliverSseFrame frames), later_frame|]. destruct failure; [apply later_fail_framing|done].
Qed.
#[local] Hint Resolve later_run_framer : later.

Lemma later_chunk chunk h : later h (onDecodedChunk chunk h).
Proof.
  unfold ObservationHub.onDecodedChunk. case_match; [done|]. set (h' := for_consumers _ h).
  assert (later h h').
  { apply later_loop. intros i h''. apply later_active. intros s Hi Hs. cbv beta zeta. case_match; [auto with later|].
    etransitivity; [by eapply later_consumer|auto with later]. }
  case_match; [done|]. etransitivity; [done|auto with later].
Qed.

Lemma later_end h : later h (onDecodedEnd h).
Proof.
  unfold ObservationHub.onDecodedEnd. case_match; [done|]. etransitivity; [apply later_run_framer|].
  etransitivity; [apply later_core|]. apply later_loop. intros. apply later_active. intros. auto with later.
Qed.
#[local] Hint Resolve later_chunk later_end : later.

Lemma later_deliver chunk h : later h (deliverDecoded chunk h).
Proof.
  unfold ObservationHub.deliverDecoded. repeat case_match; auto with later; [done|]. etransitivity; [apply later_core|auto with later].
Qed.

Lemma later_finish h : later h (finishSuccessfully h).
Proof. unfold ObservationHub.finishSuccessfully. case_match; [done|]. etransitivity; [apply later_core|auto with later]. Qed.
#[local] Hint Resolve later_deliver later_finish : later.

Lemma later_write pending throws chunk h : later h (decoder_write pending throws chunk h).
Proof.
  unfold ObservationHub.decoder_write. case_match; [done|]. etransitivity; [apply later_core|].
  repeat case_match; auto with later; done.
Qed.

Lemma later_decoder_end throws h : later h (decoder_end throws h).
Proof.
  unfold ObservationHub.decoder_end. case_match; [done|]. etransitivity; [apply later_core|].
  repeat case_match; auto with later; done.
Qed.
#[local] Hint Resolve later_decoder_end : later.

Lemma later_pump n zlib h : later h (pump_loop n zlib h).
Proof.
  revert h. induction n as [|n IH]; intros h; cbn; [done|]. destruct (hc_rawQueue (hub_core h)); [done|].
  etransitivity; [apply later_core|]. etransitivity; [apply later_write|apply IH].
Qed.

Lemma later_stop reason message h : later h (stop_all reason message h).
Proof.
  unfold stop_all. case_match; [done|]. etransitivity; [apply later_core|]. etransitivity; [|apply later_decoder_detach].
  apply later_loop. auto with later.
Qed.
#[local] Hint Resolve later_stop : later.

Lemma later_step e h : later h (hub_step e h).
Proof.
  destruct e; cbn.
  - unfold hub_write, failInputQueue. repeat case_match; auto with later; done.
  - unfold hub_end. case_match; [done|auto with later].
  - apply later_stop.
  - case_match; [|done]. etransitivity; [apply later_core|]. unfold ObservationHub.pumpOne. case_match; [done|].
    etransitivity; [apply later_pump|]. repeat case_match; auto with later; done.
  - case_match; [auto with later|done].
  - case_match; [auto with later|done].
  - case_match; [auto with later|done].
Qed.

End operations.

(** ** One consumer, in company and alone *)

Section isolation.
Variables (decoderLimits : ContentDecoderLimits) (sseLimits : SseEventFramerLimits)
  (maxQueuedCompressedBytes maxQueuedChunks maxCallbackDurationMs : Z).
(** The other consumers may behave in any two ways. *)
Variables (callback callback' : string → list ConsumerCall → CallbackOutcome) (k : nat) (id : string)
  (same_callback : ∀ calls, callback id calls = callback' id calls).

(** The consumer at [k] of one hub is the only one of the other, and while it is active
    the hubs do the same. *)
Definition alone (s : ConsumerState) (h g : ResponseObservationHub) : Prop :=
  hub_consumers h !! k = Some s ∧ hub_consumers g = [s] ∧ co_id (cs_consumer s) = id
  ∧ (cs_active s = true → hub_core h = hub_core g).

Definition apart (h g : ResponseObservationHub) : Prop := ∃ s, alone s h g.

Lemma apart_inactive s h g h' g' : alone s h g → cs_active s = false → later h h' → later g g' → apart h' g'.
Proof.
  intros (Hk & Hg & Hid & _) Hs [_ Hf] [Hl Hf']. exists s. split_and!; [by apply Hf| |done|congruence].
  rewrite Hg in *. specialize (Hf' 0%nat s eq_refl Hs). destruct (hub_consumers g') as [|t [|]]; try done. by injection Hf' as ->.
Qed.

(** Operations that do the same to both. *)
Definition isolated (f g : ResponseObservationHub → ResponseObservationHub) : Prop := ∀ h h', apart h h' → apart (f h) (g h').

Lemma isolated_intro f g :
  (∀ h, later h (f h)) → (∀ h, later h (g h)) →
  (∀ s h h', alone s h h' → cs_active s = true → apart (f h) (g h')) → isolated f g.
Proof. intros Hf Hg Hfg h h' [s Hs]. destruct (cs_active s) eqn:Ha; [by eapply Hfg|by eapply apart_inactive]. Qed.

Lemma isolated_core f : isolated (on_core f) (on_core f).
Proof. intros h h' (s & Hk & Hg & Hid & Hcore). exists s. split_and!; [done..|]. intros Hs. cbn. by rewrite Hcore. Qed.

Lemma isolated_comp f f' g g' : isolated f f' → isolated g g' → isolated (λ h, g (f h)) (λ h, g' (f' h)).
Proof. unfold isolated. auto. Qed.

Lemma apart_consumer s f h h' :
  alone s h h' → cs_active s = true → co_id (cs_consumer (f s)) = id → alone (f s) (on_consumer k f h) (on_consumer 0 f h').
Proof.
  intros (Hk & Hg & Hid & Hcore) Hs Hf. split_and!; [|cbn; by rewrite Hg|done|cbn; auto].
  cbn. by rewrite list_lookup_alter_eq, Hk.
Qed.

Lemma isolated_active (body body' : ConsumerState → ResponseObservationHub → ResponseObservationHub) :
  (∀ s h h', alone s h h' → cs_active s = true → apart (body s h) (body' s h')) →
  isolated (with_active k body) (with_active 0 body').
Proof.
  intros Hbody h h' [s Hs]. pose proof Hs as (Hk & Hg & _). unfold with_active. rewrite Hk, Hg. cbn.
  destruct (cs_active s) eqn:Ha; [by eapply Hbody|by exists s].
Qed.

(** *** What is done for another consumer *)

Record aside (h h' : ResponseObservationHub) : Prop := {
  as_same : hub_consumers h' !! k = hub_consumers h !! k;
  as_core s : hub_consumers h !! k = Some s → cs_active s = true → hub_core h' = hub_core h
}.

#[local] Instance aside_preorder : PreOrder aside.
Proof.
  split; [done|]. intros h1 h2 h3 [Hs Hc] [Hs' Hc']. split; [congruence|]. intros s Hk Ha.
  transitivity (hub_core h2); [apply (Hc' s); congruence|by apply (Hc s)].
Qed.

Lemma aside_apart h h1 g : apart h g → aside h h1 → apart h1 g.
Proof.
  intros (s & Hk & Hg & Hid & Hcore) [Hs Hc]. exists s. split_and!; [congruence|done..|]. intros Ha. rewrite (Hc s); auto.
Qed.

Lemma aside_consumer j f h : j ≠ k → aside h (on_consumer j f h).
Proof. intros Hj. split; [cbn; by rewrite list_lookup_alter_ne|done]. Qed.

Lemma aside_active j body h : (∀ s h, aside h (body s h)) → aside h (with_active j body h).
Proof. intros Hbody. unfold with_active. repeat case_match; [apply Hbody|done..]. Qed.

Lemma aside_detach j reason message h : j ≠ k → aside h (detachConsumer j reason message h).
Proof.
  intros Hj. apply aside_active. intros s h'. cbv beta zeta. etransitivity; [by apply (aside_consumer j (mark_detached reason message))|].
  set (g := on_consumer _ _ _). destruct (negb _ && forallb _ _) eqn:E; [|done]. apply andb_true_iff in E as [_ Hall].
  rewrite forallb_forall in Hall. set (g' := decoder_detach _ _ _).
  assert (later g g') as [Hlen Hf] by (etransitivity; [apply later_core|apply later_decoder_detach]).
  split; [|intros t Ht Ha; exfalso].
  - destruct (hub_consumers g !! k) as [t|] eqn:Ht.
    + apply Hf; [done|]. apply list_elem_of_lookup_2, list_elem_of_In, Hall in Ht. by destruct (cs_active t).
    + apply lookup_ge_None in Ht. apply lookup_ge_None. lia.
  - apply list_elem_of_lookup_2, list_elem_of_In, Hall in Ht. by rewrite Ha in Ht.
Qed.

Lemma aside_invoke cb j present call h : j ≠ k → aside h (invokeConsumer maxCallbackDurationMs cb j present call h).
Proof.
  intros Hj. apply aside_active. intros s h'. cbv beta zeta. case_match; [done|]. etransitivity; [by apply (aside_consumer j (called call))|].
  repeat case_match; [by apply aside_detach|done|by apply aside_detach..].
Qed.

(** A loop over all consumers, against the one consumer. *)
Lemma isolated_loop body body' :
  (∀ j h, j ≠ k → aside h (body j h)) → isolated (body k) (body' 0%nat) → isolated (for_consumers body) (for_consumers body').
Proof.
  intros Haside Hbody h h' Hap. pose proof Hap as (s & Hk & Hg & _). unfold for_consumers. rewrite Hg. cbn [length seq foldl].
  assert (Hothers : ∀ l g g', k ∉ l → apart g g' → apart (foldl (λ h i, body i h) g l) g').
  { induction l as [|j l IH]; intros g g' Hl Hg'; [done|]. cbn. apply not_elem_of_cons in Hl as [Hj Hl].
    apply IH; [done|]. eapply aside_apart; [done|]. by apply Haside. }
  apply lookup_lt_Some in Hk. replace (length (hub_consumers h)) with (k + S (length (hub_consumers h) - S k))%nat by lia.
  rewrite seq_app, foldl_app. cbn [seq foldl]. apply Hothers; [rewrite elem_of_seq; lia|]. apply Hbody, Hothers; [|done].
  rewrite elem_of_seq. lia.
Qed.

(** *** The operations *)

Lemma isolated_mark reason message : isolated (with_active k (λ _, on_consumer k (mark_detached reason message)))
  (with_active 0 (λ _, on_consumer 0 (mark_detached reason message))).
Proof.
  apply isolated_active. intros s h h' Hs Ha. eexists. apply apart_consumer; [done|done|]. by destruct Hs as (_&_&?&_).
Qed.

Lemma isolated_decoder_detach reason message : isolated (decoder_detach reason message) (decoder_detach reason message).
Proof.
  apply isolated_intro; [intros; apply later_decoder_detach..|]. intros s h h' Hs Ha. pose proof Hs as (_&_&_&Hcore).
  unfold decoder_detach. rewrite (Hcore Ha). case_match; [by exists s|]. unfold onFailure.
  apply isolated_loop; [| |by apply isolated_core, isolated_core; exists s].
  - intros j g Hj. apply aside_active. intros. by apply aside_consumer.
  - apply isolated_mark.
Qed.

Lemma isolated_detach reason message : isolated (detachConsumer k reason message) (detachConsumer 0 reason message).
Proof.
  apply isolated_active. intros s h h' Hs Ha. cbv beta zeta.
  pose proof (apart_consumer s (mark_detached reason message) h h' Hs Ha (proj1 (proj2 (proj2 Hs)))) as Hmark.
  eapply apart_inactive; [exact Hmark|done|..]; (case_match; [|done]); (etransitivity; [apply later_core|apply later_decoder_detach]).
Qed.

Lemma isolated_invoke present call :
  isolated (invokeConsumer maxCallbackDurationMs callback k present call) (invokeConsumer maxCallbackDurationMs callback' 0 present call).
Proof.
  apply isolated_active. intros s h h' Hs Ha. cbv beta zeta. pose proof Hs as (_&_&Hid&_). case_match; [by exists s|].
  rewrite Hid, same_callback. assert (apart (on_consumer k (called call) h) (on_consumer 0 (called call) h'))
    by (eexists; by apply apart_consumer).
  repeat case_match; try apply isolated_detach; done.
Qed.

Lemma isolated_count f :
  (∀ s, co_id (cs_consumer (f s)) = co_id (cs_consumer s)) →
  ∀ s h h', alone s h h' → cs_active s = true → apart (on_consumer k f h) (on_consumer 0 f h').
Proof.
  intros Hf s h h' Hs Ha. eexists. apply apart_consumer; [done|done|]. rewrite Hf. by destruct Hs as (_&_&?&_).
Qed.

Lemma aside_count cb j f present call h :
  j ≠ k → aside h (invokeConsumer maxCallbackDurationMs cb j present call (on_consumer j f h)).
Proof. intros Hj. etransitivity; [by apply (aside_consumer j f)|by apply aside_invoke]. Qed.

Lemma isolated_frame frame : isolated (deliverSseFrame maxCallbackDurationMs callback frame) (deliverSseFrame maxCallbackDurationMs callback' frame).
Proof.
  apply (isolated_loop (λ i, with_active i _) (λ i, with_active i _)).
  - intros j h Hj. apply aside_active. intros s h'. cbv beta zeta. repeat case_match; [done|by apply aside_detach|by apply aside_count].
  - apply isolated_active. intros s h h' Hs Ha. cbv beta zeta. repeat case_match; [by exists s|apply isolated_detach; by exists s|].
    apply isolated_invoke. by eapply isolated_count.
Qed.

Lemma isolated_fail_framing reason : isolated (failFraming reason) (failFraming reason).
Proof.
  intros h h' Hap. apply (isolated_loop (λ i, with_active i _) (λ i, with_active i _)); [| |by apply isolated_core].
  - intros j g Hj. apply aside_active. intros s g'. cbv beta zeta. case_match; [by apply aside_detach|done].
  - apply isolated_active. intros s g g' Hs Ha. cbv beta zeta. case_match; [apply isolated_detach|]; by exists s.
Qed.

Lemma isolated_foldl {A} (f g : A → ResponseObservationHub → ResponseObservationHub) l :
  (∀ a, isolated (f a) (g a)) → isolated (λ h, foldl (λ h a, f a h) h l) (λ h, foldl (λ h a, g a h) h l).
Proof. intros Hfg. induction l as [|a l IH]; intros h h' Hap; [done|]. cbn. by apply IH, Hfg. Qed.

Lemma isolated_run_framer step :
  isolated (run_framer maxCallbackDurationMs callback step) (run_framer maxCallbackDurationMs callback' step).
Proof.
  apply isolated_intro; [intros; apply later_run_framer..|]. intros s h h' Hs Ha. pose proof Hs as (_&_&_&Hcore).
  unfold run_framer. rewrite (Hcore Ha). destruct (hc_framer (hub_core h')) as [f|], (hc_framingFailure (hub_core h')); try by exists s.
  destruct (step f) as [[f' frames] failure].
  assert (Hframes : apart (foldl (λ h frame, deliverSseFrame maxCallbackDurationMs callback frame h) (on_core (set_framing (Some f') None) h) frames)
            (foldl (λ h frame, deliverSseFrame maxCallbackDurationMs callback' frame h) (on_core (set_framing (Some f') None) h') frames)).
  { apply isolated_foldl; [apply isolated_frame|]. apply isolated_core. by exists s. }
  destruct failure; [by apply isolated_fail_framing|done].
Qed.

(** A decision that looks at the hub without the consumers. *)
Lemma isolated_if (test : HubCore → bool) f f' g g' :
  (∀ h, later h (f h)) → (∀ h, later h (f' h)) → (∀ h, later h (g h)) → (∀ h, later h (g' h)) →
  isolated f f' → isolated g g' →
  isolated (λ h, if test (hub_core h) then f h else g h) (λ h, if test (hub_core h) then f' h else g' h).
Proof.
  intros Hf Hf' Hg Hg' Hff Hgg. apply isolated_intro; [by intros h; case_match..|].
  intros s h h' Hs Ha. pose proof Hs as (_&_&_&Hcore). rewrite (Hcore Ha). case_match; [apply Hff|apply Hgg]; by exists s.
Qed.

Lemma isolated_id : isolated (λ h, h) (λ h, h).
Proof. by intros h h'. Qed.

Lemma some_active s h h' : alone s h h' → cs_active s = true → existsb cs_active (hub_consumers h) = true ∧ existsb cs_active (hub_consumers h') = true.
Proof.
  intros (Hk & Hg & _) Ha. split; [|rewrite Hg; cbn; by rewrite Ha]. apply existsb_exists. exists s. split; [|done].
  by eapply list_elem_of_In, list_elem_of_lookup_2.
Qed.

Lemma isolated_chunk chunk :
  isolated (onDecodedChunk sseLimits maxCallbackDurationMs callback chunk) (onDecodedChunk sseLimits maxCallbackDurationMs callback' chunk).
Proof.
  apply isolated_intro; [intros; apply later_chunk..|]. intros s h h' Hs Ha. unfold onDecodedChunk.
  destruct (some_active _ _ _ Hs Ha) as [-> ->]. cbn [negb].
  apply (isolated_if hc_ended (λ h, h) (λ h, h) (run_framer maxCallbackDurationMs callback (feed sseLimits chunk))
    (run_framer maxCallbackDurationMs callback' (feed sseLimits chunk)));
    [done|done|intros; apply later_run_framer..|apply isolated_id|apply isolated_run_framer|].
  apply (isolated_loop (λ i, with_active i _) (λ i, with_active i _)); [| |by exists s].
  - intros j g Hj. apply aside_active. intros t g'. cbv beta zeta. case_match; [by apply aside_detach|by apply aside_count].
  - apply isolated_active. intros t g g' Ht Hta. cbv beta zeta. case_match; [apply isolated_detach; by exists t|].
    apply isolated_invoke. by eapply isolated_count.
Qed.

Lemma isolated_end :
  isolated (onDecodedEnd sseLimits maxCallbackDurationMs callback) (onDecodedEnd sseLimits maxCallbackDurationMs callback').
Proof.
  apply isolated_intro; [intros; apply later_end..|]. intros s h h' Hs Ha. pose proof Hs as (_&_&_&Hcore). unfold onDecodedEnd.
  rewrite (Hcore Ha). case_match; [by exists s|].
  apply (isolated_loop (λ i, with_active i _) (λ i, with_active i _)).
  - intros j g Hj. apply aside_active. intros t g'. by apply aside_invoke.
  - apply isolated_active. intros t g g' Ht _. pose proof Ht as (_&_&_&_). apply isolated_invoke. by exists t.
  - apply isolated_core, isolated_run_framer. by exists s.
Qed.

Lemma isolated_deliver chunk :
  isolated (deliverDecoded decoderLimits sseLimits maxCallbackDurationMs callback chunk)
    (deliverDecoded decoderLimits sseLimits maxCallbackDurationMs callback' chunk).
Proof.
  apply isolated_intro; [intros; apply later_deliver..|]. intros s h h' Hs Ha. pose proof Hs as (_&_&_&Hcore). unfold deliverDecoded.
  rewrite (Hcore Ha). repeat case_match; [by exists s|apply isolated_decoder_detach; by exists s..|].
  apply isolated_chunk, isolated_core. by exists s.
Qed.

Lemma isolated_finish :
  isolated (finishSuccessfully sseLimits maxCallbackDurationMs callback) (finishSuccessfully sseLimits maxCallbackDurationMs callback').
Proof.
  apply isolated_intro; [intros; apply later_finish..|]. intros s h h' Hs Ha. pose proof Hs as (_&_&_&Hcore). unfold finishSuccessfully.
  rewrite (Hcore Ha). case_match; [by exists s|]. apply isolated_end, isolated_core. by exists s.
Qed.

Lemma isolated_write pending throws chunk :
  isolated (decoder_write decoderLimits sseLimits maxCallbackDurationMs callback pending throws chunk)
    (decoder_write decoderLimits sseLimits maxCallbackDurationMs callback' pending throws chunk).
Proof.
  apply isolated_intro; [intros; apply later_write..|]. intros s h h' Hs Ha. pose proof Hs as (_&_&_&Hcore). unfold decoder_write.
  rewrite (Hcore Ha). case_match; [by exists s|].
  assert (Hap : ∀ f, apart (on_core f h) (on_core f h')) by (intros; apply isolated_core; by exists s).
  repeat case_match; try apply isolated_decoder_detach; try apply isolated_deliver; apply Hap.
Qed.

Lemma isolated_decoder_end throws :
  isolated (decoder_end sseLimits maxCallbackDurationMs callback throws) (decoder_end sseLimits maxCallbackDurationMs callback' throws).
Proof.
  apply isolated_intro; [intros; apply later_decoder_end..|]. intros s h h' Hs Ha. pose proof Hs as (_&_&_&Hcore). unfold decoder_end.
  rewrite (Hcore Ha). case_match; [by exists s|].
  assert (Hap : ∀ f, apart (on_core f h) (on_core f h')) by (intros; apply isolated_core; by exists s).
  repeat case_match; try apply isolated_decoder_detach; try apply isolated_finish; apply Hap.
Qed.

Lemma isolated_pump n zlib :
  isolated (pump_loop decoderLimits sseLimits maxCallbackDurationMs callback n zlib)
    (pump_loop decoderLimits sseLimits maxCallbackDurationMs callback' n zlib).
Proof.
  induction n as [|n IH]; [apply isolated_id|]. apply isolated_intro; [intros; apply later_pump..|].
  intros s h h' Hs Ha. pose proof Hs as (_&_&_&Hcore). cbn [pump_loop]. rewrite (Hcore Ha).
  destruct (hc_rawQueue (hub_core h')) as [|chunk queue]; [by exists s|].
  apply IH, isolated_write, isolated_core. by exists s.
Qed.

Lemma isolated_stop reason message : isolated (stop_all reason message) (stop_all reason message).
Proof.
  apply isolated_intro; [intros; apply later_stop..|]. intros s h h' Hs Ha. pose proof Hs as (_&_&_&Hcore). unfold stop_all.
  rewrite (Hcore Ha). case_match; [by exists s|]. apply isolated_decoder_detach.
  apply (isolated_loop (λ i, detachConsumer i reason message) (λ i, detachConsumer i reason message)).
  - intros. by apply aside_detach.
  - apply isolated_detach.
  - apply isolated_core. by exists s.
Qed.

Lemma later_pump_one cb zlib ending h : later h (pumpOne decoderLimits sseLimits maxCallbackDurationMs cb zlib ending h).
Proof.
  unfold pumpOne. case_match; [done|]. etransitivity; [apply later_pump|].
  repeat case_match; [apply later_core|apply later_decoder_end|done].
Qed.

Lemma isolated_pump_one zlib ending :
  isolated (pumpOne decoderLimits sseLimits maxCallbackDurationMs callback zlib ending)
    (pumpOne decoderLimits sseLimits maxCallbackDurationMs callback' zlib ending).
Proof.
  apply isolated_intro; [intros; apply later_pump_one..|]. intros s h h' Hs Ha. pose proof Hs as (_&_&_&Hcore). unfold pumpOne.
  rewrite (Hcore Ha). case_match; [by exists s|]. cbv zeta.
  assert (Hend : isolated
    (λ h, if hc_endRequested (hub_core h) then decoder_end sseLimits maxCallbackDurationMs callback ending h else h)
    (λ h, if hc_endRequested (hub_core h) then decoder_end sseLimits maxCallbackDurationMs callback' ending h else h)).
  { apply (isolated_if hc_endRequested); [intros; apply later_decoder_end..|done|done|apply isolated_decoder_end|apply isolated_id]. }
  assert (Hlater : ∀ cb h, later h (if hc_endRequested (hub_core h) then decoder_end sseLimits maxCallbackDurationMs cb ending h else h))
    by (intros; case_match; [apply later_decoder_end|done]).
  pose proof (isolated_if (λ c, negb (bool_decide (hc_rawQueue c = []))) _ _ _ _ (later_core _) (later_core _)
    (Hlater callback) (Hlater callback') (isolated_core schedulePump) Hend) as Hpump.
  apply Hpump, isolated_pump. by exists s.
Qed.

Local Abbreviation step_of := (hub_step decoderLimits sseLimits maxQueuedCompressedBytes maxQueuedChunks maxCallbackDurationMs).

Lemma isolated_step e : isolated (step_of callback e) (step_of callback' e).
Proof.
  apply isolated_intro; [intros; apply later_step..|]. intros s h h' Hs Ha. pose proof Hs as (_&_&_&Hcore).
  assert (Hap : ∀ f, apart (on_core f h) (on_core f h')) by (intros; apply isolated_core; by exists s).
  assert (Hhere : apart h h') by by exists s.
  destruct e; cbn; unfold hub_write, hub_end, failInputQueue, abort; rewrite ?(Hcore Ha); repeat case_match; try done;
    try (by apply isolated_stop); try (by apply isolated_decoder_detach); try (by apply isolated_deliver); try (by apply isolated_finish);
    try by apply Hap.
  by apply isolated_pump_one.
Qed.

Lemma isolated_run events : isolated
  (hub_run decoderLimits sseLimits maxQueuedCompressedBytes maxQueuedChunks maxCallbackDurationMs callback events)
  (hub_run decoderLimits sseLimits maxQueuedCompressedBytes maxQueuedChunks maxCallbackDurationMs callback' events).
Proof. apply isolated_foldl, isolated_step. Qed.

Lemma apart_start encoding frameSse consumers c :
  consumers !! k = Some c → co_id c = id → apart (start_hub encoding frameSse consumers) (start_hub encoding frameSse [c]).
Proof.
  intros Hk Hid. unfold start_hub. set (core := {| hc_ended := _ |}).
  assert (Hap : apart {| hub_core := core; hub_consumers := new_consumer <$> consumers |}
                  {| hub_core := core; hub_consumers := new_consumer <$> [c] |}).
  { exists (new_consumer c). split_and!; [cbn; by rewrite list_lookup_fmap, Hk|done..]. }
  case_match; [done|]. by apply isolated_decoder_detach.
Qed.

End isolation.

Lemma check_consumers_in seen consumers c :
  c ∈ consumers → check_consumers seen consumers = Ok () → check_consumers [] [c] = Ok ().
Proof.
  revert seen. induction consumers as [|d consumers IH]; intros seen; [by intros ?%elem_of_nil|]. cbn.
  case_bool_decide as Hid; [done|]. case_bool_decide; [done|]. destruct (all_limits _ _) as [[]|] eqn:Hl; [|done]. cbn.
  intros [->|Hc]%elem_of_cons; [|by apply IH]. intros _. rewrite (bool_decide_eq_false_2 (co_id d = "")) by done.
  rewrite bool_decide_eq_false_2 by (by intros ?%elem_of_nil). by rewrite Hl.
Qed.

(** Observers are isolated.  Take any hub and any run of it: responses of any
    encoding arriving in any chunks, pumps, zlib's output and errors, aborts.  What one
    consumer is called with, in which order, and when it is detached are the same as in
    the same run of a hub that has this consumer alone, however the other consumers
    behave: whether they throw, return promises, take too long, or reach their ceilings. *)
Theorem observers_isolated decoderLimits sseLimits maxBytes maxChunks maxMs callback callback' encoding frameSse consumers k c h :
  new_hub decoderLimits sseLimits maxBytes maxChunks maxMs encoding frameSse consumers = Ok h →
  consumers !! k = Some c →
  (∀ calls, callback (co_id c) calls = callback' (co_id c) calls) →
  ∃ solo, new_hub decoderLimits sseLimits maxBytes maxChunks maxMs encoding frameSse [c] = Ok solo ∧
    ∀ events, ∃ s,
      hub_consumers (hub_run decoderLimits sseLimits maxBytes maxChunks maxMs callback events h) !! k = Some s
      ∧ hub_consumers (hub_run decoderLimits sseLimits maxBytes maxChunks maxMs callback' events solo) = [s].
Proof.
  unfold new_hub. intros Hnew Hk Hcb. exists (start_hub (normalizeEncoding encoding) frameSse [c]).
  destruct (check_options _ _ _ _ _ _ consumers) as [[]|] eqn:Hcheck; [|done]. cbn in Hnew. injection Hnew as <-. split.
  - unfold check_options in *. destruct (all_limits positiveLimit [_; _; _]) as [[]|]; [|done]. cbn [mbind result_bind] in *.
    destruct (check_consumers [] consumers) as [[]|] eqn:Hcons; [|done].
    apply (check_consumers_in [] consumers c) in Hcons; [|by eapply list_elem_of_lookup_2]. rewrite Hcons. cbn [mbind result_bind] in *.
    by rewrite Hcheck.
  - intros events. pose proof (apart_start k (co_id c) (normalizeEncoding encoding) frameSse consumers c Hk eq_refl) as Hap.
    destruct (isolated_run decoderLimits sseLimits maxBytes maxChunks maxMs callback callback' k (co_id c) Hcb events _ _ Hap)
      as (s & Hs & Hsolo & _). by exists s.
Qed.

(** ** What a consumer hears *)

Definition is_detach (call : ConsumerCall) : bool := match call with CalledDetach _ => true | _ => false end.
Definition heard (s : ConsumerState) : list ConsumerCall := filter (λ call, is_detach call = false) (cs_calls s).

Definition call_chunk (call : ConsumerCall) : option string := match call with CalledChunk chunk => Some chunk | _ => None end.
Definition call_event (call : ConsumerCall) : option SseEventFrame := match call with CalledEvent frame => Some frame | _ => None end.

Section solo.
Variables (sseLimits : SseEventFramerLimits) (maxCallbackDurationMs : Z) (callback : string → list ConsumerCall → CallbackOutcome).

(** From [s] on, the only consumer of [h] hears [l], and leaves the hub as [core], unless it is detached on the way. *)
Definition hears (s : ConsumerState) (l : list ConsumerCall) (core : HubCore) (h : ResponseObservationHub) : Prop :=
  ∃ s' l', hub_consumers h = [s'] ∧ cs_consumer s' = cs_consumer s ∧ heard s' = heard s ++ l' ∧ l' `prefix_of` l
    ∧ (cs_active s' = true → l' = l ∧ hub_core h = core).

Lemma hears_nothing s h : hub_consumers h = [s] → hears s [] (hub_core h) h.
Proof. intros Hs. exists s, []. by rewrite app_nil_r. Qed.

Lemma hears_then s l1 core1 h1 l2 core2 h2 :
  hears s l1 core1 h1 → later h1 h2 →
  (∀ s1, hub_consumers h1 = [s1] → cs_active s1 = true → hub_core h1 = core1 → cs_consumer s1 = cs_consumer s → hears s1 l2 core2 h2) →
  hears s (l1 ++ l2) core2 h2.
Proof.
  intros (s1 & l & Hs1 & Hc & Hh & Hp & Ha) [Hlen Hf] Hnext. destruct (cs_active s1) eqn:Hact.
  - destruct (Ha eq_refl) as [-> Hcore]. destruct (Hnext s1 Hs1 Hact Hcore Hc) as (s2 & l' & Hs2 & Hc2 & Hh2 & Hp2 & Ha2).
    exists s2, (l1 ++ l'). split_and!; [done|congruence|by rewrite Hh2, Hh, app_assoc|by apply prefix_app|].
    intros Hact2. by destruct (Ha2 Hact2) as [-> ?].
  - rewrite Hs1 in *. specialize (Hf 0%nat s1 eq_refl Hact). destruct (hub_consumers h2) as [|t [|]] eqn:Ht; try done. injection Hf as ->.
    exists s1, l. split_and!; [done..|by apply prefix_app_r|congruence].
Qed.

Lemma loop_solo body h s : hub_consumers h = [s] → for_consumers body h = body 0%nat h.
Proof. intros Hs. unfold for_consumers. by rewrite Hs. Qed.

Lemma active_solo body h s : hub_consumers h = [s] → cs_active s = true → with_active 0 body h = body s h.
Proof. intros Hs Ha. unfold with_active. rewrite Hs. cbn. by rewrite Ha. Qed.

Lemma heard_mark reason message s : heard (mark_detached reason message s) = heard s.
Proof. unfold heard. cbn. rewrite filter_app. by case_match; cbn; rewrite app_nil_r. Qed.

Lemma hears_detach reason message s h : hub_consumers h = [s] → cs_active s = true → ∀ l core, hears s l core (detachConsumer 0 reason message h).
Proof.
  intros Hs Ha l core. unfold detachConsumer. erewrite active_solo by done. cbv zeta.
  set (h1 := on_consumer 0 (mark_detached reason message) h).
  assert (H1 : hub_consumers h1 = [mark_detached reason message s]) by (cbn; by rewrite Hs).
  assert (Hlast : ∀ h2, later h1 h2 → hears s l core h2).
  { intros h2 [Hlen Hf]. rewrite H1 in *. specialize (Hf 0%nat _ eq_refl eq_refl).
    destruct (hub_consumers h2) as [|t [|]] eqn:Ht; try done. injection Hf as ->. exists (mark_detached reason message s), [].
    split_and!; [done..|by rewrite heard_mark, app_nil_r|apply prefix_nil|done]. }
  case_match; apply Hlast; [|done]. etransitivity; [apply later_core|apply later_decoder_detach].
Qed.

Lemma heard_called call s : is_detach call = false → heard (called call s) = heard s ++ [call].
Proof. intros Hc. unfold heard. cbn. by rewrite filter_app, filter_cons_True. Qed.

Lemma hears_invoke (present : bool) call s h :
  hub_consumers h = [s] → cs_active s = true → is_detach call = false →
  hears s (if present then [call] else []) (hub_core h) (invokeConsumer maxCallbackDurationMs callback 0 present call h).
Proof.
  intros Hs Ha Hcall. unfold invokeConsumer. erewrite active_solo by done. cbv beta zeta. destruct present; cbn [negb]; [|by apply hears_nothing].
  set (h1 := on_consumer 0 (called call) h). assert (H1 : hub_consumers h1 = [called call s]) by (cbn; by rewrite Hs).
  assert (Hheard : hears s [call] (hub_core h) h1) by (exists (called call s), [call]; split_and!; [done..|by apply heard_called|done|done]).
  assert (Hdetach : ∀ reason message, hears s [call] (hub_core h) (detachConsumer 0 reason message h1)).
  { intros reason message. rewrite <-(app_nil_r [call]). eapply hears_then; [exact Hheard|apply later_detach|].
    intros s1 Hs1 Ha1 _ _. by apply hears_detach. }
  repeat case_match; auto.
Qed.

Lemma hears_count f s l core h :
  cs_consumer (f s) = cs_consumer s → heard (f s) = heard s → hears (f s) l core h → hears s l core h.
Proof. intros Hc Hh (s' & l' & ? & ? & ? & ? & ?). exists s', l'. split_and!; [done|congruence|congruence|done..]. Qed.

Lemma hears_frame frame s h :
  hub_consumers h = [s] → cs_active s = true →
  hears s (if co_onSseEvent (cs_consumer s) then [CalledEvent frame] else []) (hub_core h) (deliverSseFrame maxCallbackDurationMs callback frame h).
Proof.
  intros Hs Ha. unfold deliverSseFrame. erewrite loop_solo, active_solo by done. cbv beta.
  destruct (co_onSseEvent (cs_consumer s)); cbn [negb]; [|by apply hears_nothing]. case_match; [by apply hears_detach|].
  apply (hears_count count_event); [done|done|].
  refine (hears_invoke true (CalledEvent frame) (count_event s) (on_consumer 0 count_event h) _ _ _); [cbn; by rewrite Hs|done|done].
Qed.

Lemma hears_frames frames s h :
  hub_consumers h = [s] → cs_active s = true →
  hears s (if co_onSseEvent (cs_consumer s) then CalledEvent <$> frames else []) (hub_core h)
    (foldl (λ h frame, deliverSseFrame maxCallbackDurationMs callback frame h) h frames).
Proof.
  revert s h. induction frames as [|frame frames IH]; intros s h Hs Ha; [case_match; by apply hears_nothing|].
  cbn [foldl]. replace (if co_onSseEvent (cs_consumer s) then _ else _) with
    ((if co_onSseEvent (cs_consumer s) then [CalledEvent frame] else []) ++ (if co_onSseEvent (cs_consumer s) then CalledEvent <$> frames else []))
    by by case_match.
  eapply hears_then; [by apply hears_frame|apply later_foldl, later_frame|].
  intros s1 Hs1 Ha1 <- Hc. rewrite <-Hc. by apply IH.
Qed.

Lemma gone_inactive s h : (∀ l core, hears s l core h) → ∃ s', hub_consumers h = [s'] ∧ cs_consumer s' = cs_consumer s ∧ heard s' = heard s ∧ cs_active s' = false.
Proof.
  intros Hgone. destruct (Hgone [] (hub_core h)) as (s' & l' & Hs' & Hc & Hh & Hp & Ha).
  apply prefix_nil_inv in Hp as ->. rewrite app_nil_r in Hh. exists s'. split_and!; [done..|].
  destruct (cs_active s') eqn:Hact; [|done]. exfalso. destruct (Hgone [CalledEnd] (hub_core h)) as (s2 & l2 & Hs2 & _ & Hh2 & _ & H2).
  assert (s2 = s') as -> by congruence. destruct (H2 Hact) as [-> _]. rewrite Hh in Hh2.
  rewrite <-(app_nil_r (heard s)) in Hh2 at 1. by apply app_inv_head in Hh2.
Qed.

Lemma inactive_later s h h' : hub_consumers h = [s] → cs_active s = false → later h h' → hub_consumers h' = [s].
Proof.
  intros Hs Ha [Hlen Hf]. rewrite Hs in *. specialize (Hf 0%nat s eq_refl Ha).
  destruct (hub_consumers h') as [|t [|]]; try done. by injection Hf as ->.
Qed.

(** A consumer of events, while framing has not failed: a failure detaches it. *)
Lemma hears_framer step f s h f' frames failure :
  hub_consumers h = [s] → cs_active s = true → co_onSseEvent (cs_consumer s) = true →
  hc_framer (hub_core h) = Some f → hc_framingFailure (hub_core h) = None → step f = (f', frames, failure) →
  let h' := run_framer maxCallbackDurationMs callback step h in
  ∃ s' l', hub_consumers h' = [s'] ∧ cs_consumer s' = cs_consumer s ∧ heard s' = heard s ++ l' ∧ l' `prefix_of` CalledEvent <$> frames
    ∧ (cs_active s' = true → failure = None ∧ l' = CalledEvent <$> frames ∧ hub_core h' = set_framing (Some f') None (hub_core h)).
Proof.
  intros Hs Ha Hon Hf Hfail Hstep h'. subst h'. unfold run_framer. rewrite Hf, Hfail, Hstep.
  pose proof (hears_frames frames s (on_core (set_framing (Some f') None) h) Hs Ha) as Hframes. rewrite Hon in Hframes.
  set (h1 := foldl _ _ _) in *. destruct Hframes as (s1 & l1 & Hs1 & Hc & Hh & Hp & Ha1).
  destruct failure as [reason|]; [|exists s1, l1; split_and!; [done..|intros Hact; by destruct (Ha1 Hact)]].
  destruct (cs_active s1) eqn:Hact.
  - destruct (gone_inactive s1 (failFraming reason h1)) as (s2 & Hs2 & Hc2 & Hh2 & Hact2).
    + intros l core. unfold failFraming. erewrite loop_solo, active_solo by done. cbv beta. rewrite Hc, Hon. by apply hears_detach.
    + exists s2, l1. split_and!; [done|congruence|congruence|done|congruence].
  - exists s1, l1. split_and!; [by eapply inactive_later, later_fail_framing|done..|congruence].
Qed.

(** Without events nothing is heard of the framer. *)
Lemma hears_no_framer step s h :
  hub_consumers h = [s] → cs_active s = true → co_onSseEvent (cs_consumer s) = false ∨ hc_framer (hub_core h) = None →
  ∃ framer failure, hears s [] (set_framing framer failure (hub_core h)) (run_framer maxCallbackDurationMs callback step h)
    ∧ (hc_framer (hub_core h) = None → framer = None).
Proof.
  intros Hs Ha Hoff. unfold run_framer. assert (Hsame : ∀ c, set_framing (hc_framer c) (hc_framingFailure c) c = c) by by intros [].
  pose proof (hears_nothing s h Hs) as Hnothing.
  destruct (hc_framer (hub_core h)) as [f|] eqn:Hf; [destruct Hoff as [Hoff|]; [|done]|].
  2: { exists None, (hc_framingFailure (hub_core h)). by rewrite <-Hf, Hsame. }
  destruct (hc_framingFailure (hub_core h)) as [r|] eqn:Hr; [exists (Some f), (Some r); by rewrite <-Hf, <-Hr, Hsame|].
  destruct (step f) as [[f' frames] failure].
  pose proof (hears_frames frames s (on_core (set_framing (Some f') None) h) Hs Ha) as Hframes. rewrite Hoff in Hframes.
  exists (Some f'), failure. split; [|done]. destruct failure as [reason|]; [|exact Hframes].
  change (@nil ConsumerCall) with (@nil ConsumerCall ++ []). eapply hears_then; [exact Hframes|apply later_fail_framing|].
  intros s1 Hs1 Ha1 Hcore Hc. unfold failFraming. erewrite loop_solo, active_solo by done. cbv beta. rewrite Hc, Hoff.
  replace (set_framing (Some f') (Some reason) (hub_core h)) with (hub_core (on_core (λ c, set_framing (hc_framer c) (Some reason) c)
    (foldl (λ h frame, deliverSseFrame maxCallbackDurationMs callback frame h) (on_core (set_framing (Some f') None) h) frames)))
    by (cbn; by rewrite Hcore).
  by apply hears_nothing.
Qed.

Lemma hears_gone s h h1 : hub_consumers h = [s] → (∀ l core, hears s l core h1) → ∀ h2, later h1 h2 → ∀ l core, hears s l core h2.
Proof.
  intros Hs Hgone h2 Hlater l core. rewrite <-(app_nil_r l). eapply (hears_then s l (set_ended core)); [apply Hgone|done|].
  intros s1 Hs1 Ha1 Hcore _. exfalso. destruct (Hgone [] (set_framing None None core)) as (s2 & l2 & Hs2 & _ & _ & _ & H2).
  destruct (Hgone [CalledEnd] core) as (s3 & l3 & Hs3 & _ & Hh3 & _ & H3). assert (s2 = s1 ∧ s3 = s1) as [-> ->] by (split; congruence).
  destruct (Hgone [] core) as (s4 & l4 & Hs4 & _ & Hh4 & _ & H4). assert (s4 = s1) as -> by congruence.
  destruct (H3 Ha1) as [-> _], (H4 Ha1) as [-> _]. rewrite Hh3 in Hh4. by apply app_inv_head in Hh4.
Qed.

Lemma hears_decoder_detach reason message s h :
  hub_consumers h = [s] → cs_active s = true → bd_state (hc_decoder (hub_core h)) = DecoderActive →
  ∀ l core, hears s l core (decoder_detach reason message h).
Proof.
  intros Hs Ha Hd l core. unfold decoder_detach, onFailure. rewrite (bool_decide_eq_true_2 _ Hd). cbn [negb]. cbv zeta.
  erewrite loop_solo, active_solo by done. exists (mark_detached ContentDecodingFailure message s), [].
  split_and!; [cbn; by rewrite Hs|done|by rewrite heard_mark, app_nil_r|apply prefix_nil|done].
Qed.

Lemma hears_stop reason message s h :
  hub_consumers h = [s] → cs_active s = true → hc_ended (hub_core h) = false → ∀ l core, hears s l core (stop_all reason message h).
Proof.
  intros Hs Ha He l core. unfold stop_all. rewrite He. eapply hears_gone; [exact Hs| |apply later_decoder_detach].
  intros l' core'. erewrite loop_solo by done. by apply hears_detach.
Qed.

(** *** A run of a hub with one consumer and no compression *)

Definition chunks_heard (s : ConsumerState) : list string := omap call_chunk (heard s).
Definition events_heard (s : ConsumerState) : list SseEventFrame := omap call_event (heard s).

Variables (decoderLimits : ContentDecoderLimits) (maxQueuedCompressedBytes maxQueuedChunks : Z)
  (consumer : ResponseObservationConsumer) (frameSse : bool).

Definition wants_events : bool := frameSse && co_onSseEvent consumer.

(** The consumer is active, and has heard what was taken from the queue. *)
Record live (sent : list string) (requested : bool) (core : HubCore) (s : ConsumerState) (fed : list string) : Prop := {
  li_consumer : cs_consumer s = consumer;
  li_active : cs_active s = true;
  li_open : hc_ended core = false;
  li_sent : sent = fed ++ hc_rawQueue core;
  li_requested : hc_endRequested core = requested;
  li_decoder : bd_state (hc_decoder core) = DecoderActive;
  li_not_ended : bd_endRequested (hc_decoder core) = false;
  li_identity : createDecoder (bd_encoding (hc_decoder core)) = false;
  li_chunks : chunks_heard s = if co_onDecodedChunk consumer then fed else [];
  li_end : CalledEnd ∉ heard s;
  li_events :
    if wants_events then
      ∃ f, hc_framer core = Some f ∧ hc_framingFailure core = None ∧ feed_all sseLimits fed new_framer = (f, events_heard s, None)
    else events_heard s = [] ∧ (frameSse = false → hc_framer core = None)
}.

(** It will hear nothing more; what it heard is true. *)
Record over (sent : list string) (requested : bool) (s : ConsumerState) : Prop := {
  ov_consumer : cs_consumer s = consumer;
  ov_heard : ∃ fed rest, sent = fed ++ rest ∧ chunks_heard s `prefix_of` fed ∧
    ((CalledEnd ∉ heard s ∧ (wants_events = false → events_heard s = []) ∧
      events_heard s `prefix_of` (feed_all sseLimits fed new_framer).1.2)
     ∨ (requested = true ∧ rest = [] ∧ events_heard s `prefix_of` (frame_stream sseLimits fed).1 ∧
        (CalledEnd ∈ heard s →
           (co_onDecodedChunk consumer = true → chunks_heard s = fed)
           ∧ (if wants_events then frame_stream sseLimits fed = (events_heard s, None) else events_heard s = []))))
}.

Definition tells (sent : list string) (requested : bool) (h : ResponseObservationHub) : Prop :=
  ∃ s, hub_consumers h = [s] ∧
    ((∃ fed, live sent requested (hub_core h) s fed) ∨ over sent requested s ∧ cs_active s = false).

(** What a consumer that still listens has heard of its events. *)
Lemma live_events sent requested core s fed :
  live sent requested core s fed → (wants_events = false → events_heard s = []) ∧ events_heard s `prefix_of` (feed_all sseLimits fed new_framer).1.2.
Proof.
  intros Hl. pose proof (li_events _ _ _ _ _ Hl) as He. destruct wants_events.
  - destruct He as (f & _ & _ & ->). done.
  - destruct He as [-> _]. split; [done|apply prefix_nil].
Qed.

Lemma live_chunks sent requested core s fed :
  live sent requested core s fed → chunks_heard s `prefix_of` fed.
Proof. intros Hl. rewrite (li_chunks _ _ _ _ _ Hl). case_match; [done|apply prefix_nil]. Qed.

(** A consumer that hears nothing more for good. *)
Lemma gone_tells sent requested core s fed sent' rest requested' h :
  live sent requested core s fed → (∀ l core, hears s l core h) → sent' = fed ++ rest → tells sent' requested' h.
Proof.
  intros Hl (s' & Hs' & Hc & Hh & Hact)%gone_inactive ->. exists s'. split; [done|]. right. split; [|done].
  destruct (live_events _ _ _ _ _ Hl) as [Hno Hev]. pose proof (live_chunks _ _ _ _ _ Hl) as Hch. pose proof (li_end _ _ _ _ _ Hl) as Hend.
  split; [rewrite Hc; apply Hl|]. exists fed, rest. unfold chunks_heard, events_heard in *. rewrite Hh. auto 6.
Qed.

(** *** One chunk *)

Definition core_view (core : HubCore) :=
  (hc_framer core, hc_framingFailure core, hc_rawQueue core, hc_endRequested core, hc_ended core,
   bd_state (hc_decoder core), bd_endRequested (hc_decoder core), bd_encoding (hc_decoder core)).

Lemma live_core sent requested core core' s fed : live sent requested core s fed → core_view core = core_view core' → live sent requested core' s fed.
Proof.
  intros [] Heq. destruct core, core'. cbn in *. injection Heq as -> -> -> -> -> Hb1 Hb2 Hb3.
  split; cbn; try congruence; done.
Qed.

Lemma feed_all_snoc limits fed chunk f : feed_all limits (fed ++ [chunk]) f = feed_all limits fed f ;;; feed limits chunk.
Proof. unfold feed_all. by rewrite foldl_app. Qed.

Lemma heard_app s s' l : heard s' = heard s ++ l →
  chunks_heard s' = chunks_heard s ++ omap call_chunk l ∧ events_heard s' = events_heard s ++ omap call_event l.
Proof. unfold chunks_heard, events_heard. intros ->. by rewrite !omap_app. Qed.

Lemma chunks_of_events frames : omap call_chunk (CalledEvent <$> frames) = [] ∧ omap call_event (CalledEvent <$> frames) = frames ∧ CalledEnd ∉ CalledEvent <$> frames.
Proof.
  split_and!; [by induction frames|induction frames; cbn; congruence|]. intros (? & ? & _)%list_elem_of_fmap. done.
Qed.

(** What the consumer hears with a chunk. *)
Definition chunk_calls (chunk : string) (frames : list SseEventFrame) : list ConsumerCall :=
  (if co_onDecodedChunk consumer then [CalledChunk chunk] else []) ++ (if wants_events then CalledEvent <$> frames else []).

Lemma chunk_calls_heard chunk frames :
  omap call_chunk (chunk_calls chunk frames) = (if co_onDecodedChunk consumer then [chunk] else [])
  ∧ omap call_event (chunk_calls chunk frames) = (if wants_events then frames else [])
  ∧ CalledEnd ∉ chunk_calls chunk frames.
Proof.
  destruct (chunks_of_events frames) as (Hc & He & Hn). unfold chunk_calls. rewrite !omap_app, not_elem_of_app.
  destruct (co_onDecodedChunk consumer), wants_events; cbn [omap list_omap call_chunk call_event app]; rewrite ?Hc, ?He, ?elem_of_nil;
    rewrite ?elem_of_cons, ?elem_of_nil; naive_solver.
Qed.

Lemma prefix_omap {A B} (f : A → option B) l l' : l' `prefix_of` l → omap f l' `prefix_of` omap f l.
Proof. intros [k ->]. exists (omap f k). by rewrite omap_app. Qed.

Lemma chunk_over core s fed queue requested chunk frames s' l' :
  live (fed ++ queue) requested core s fed →
  (wants_events = true → ∀ f, feed_all sseLimits fed new_framer = (f, events_heard s, None) → frames = (feed sseLimits chunk f).1.2) →
  heard s' = heard s ++ l' → cs_consumer s' = cs_consumer s → l' `prefix_of` chunk_calls chunk frames →
  over (fed ++ chunk :: queue) requested s'.
Proof.
  intros Hl Hframes Hh Hc Hp. destruct (heard_app _ _ _ Hh) as [Hch Hev], (chunk_calls_heard chunk frames) as (Hcc & Hce & Hcn).
  pose proof (prefix_omap call_chunk _ _ Hp) as Hpc. pose proof (prefix_omap call_event _ _ Hp) as Hpe. rewrite Hcc in Hpc. rewrite Hce in Hpe.
  pose proof (li_events _ _ _ _ _ Hl) as Hle. split; [rewrite Hc; apply Hl|]. exists (fed ++ [chunk]), queue.
  split; [by rewrite <-app_assoc|]. split; [|left; split_and!].
  - rewrite Hch, (li_chunks _ _ _ _ _ Hl). destruct (co_onDecodedChunk consumer); [by apply prefix_app|].
    apply prefix_nil_inv in Hpc as ->. apply prefix_nil.
  - rewrite Hh, not_elem_of_app. split; [apply Hl|]. intros Hin. destruct Hp as [k Hk]. apply Hcn. rewrite Hk. apply elem_of_app. by left.
  - intros Hw. rewrite Hw in *. apply prefix_nil_inv in Hpe. rewrite Hev, Hpe. by destruct Hle as [-> _].
  - rewrite Hev, feed_all_snoc. destruct wants_events.
    + destruct Hle as (f & _ & _ & Hfeed). rewrite (Hframes eq_refl f Hfeed) in Hpe. rewrite Hfeed. cbn.
      destruct (feed sseLimits chunk f) as [[f' fs] e]. cbn in *. by apply prefix_app.
    + apply prefix_nil_inv in Hpe. rewrite Hpe. destruct Hle as [-> _]. apply prefix_nil.
Qed.

Lemma chunk_live core s fed queue requested chunk f' frames s' core' :
  live (fed ++ queue) requested core s fed →
  (if wants_events then ∀ f, feed_all sseLimits fed new_framer = (f, events_heard s, None) → feed sseLimits chunk f = (f', frames, None)
   else frameSse = false → hc_framer core' = None) →
  heard s' = heard s ++ chunk_calls chunk frames → cs_consumer s' = cs_consumer s → cs_active s' = true →
  (if wants_events then core' = set_framing (Some f') None core else ∃ framer failure, core' = set_framing framer failure core) →
  live (fed ++ chunk :: queue) requested core' s' (fed ++ [chunk]).
Proof.
  intros Hl Hframes Hh Hc Ha Hcore. destruct (heard_app _ _ _ Hh) as [Hch Hev], (chunk_calls_heard chunk frames) as (Hcc & Hce & Hcn).
  pose proof (li_sent _ _ _ _ _ Hl) as Hq. apply app_inv_head in Hq.
  assert (Hview : ∃ framer failure, core' = set_framing framer failure core) by (destruct wants_events; [by eauto|done]).
  destruct Hl as [H1 H2 H3 H4 H5 H6 H7 H8 H9 H10 H11]. destruct Hview as (framer & failure & Hview).
  split; try (rewrite Hview; done); try done.
  - by rewrite Hc.
  - rewrite Hview. cbn. by rewrite <-Hq, <-app_assoc.
  - rewrite Hch, H9, Hcc. by destruct (co_onDecodedChunk consumer).
  - rewrite Hh, not_elem_of_app. done.
  - destruct wants_events.
    + destruct H11 as (f & _ & _ & Hfeed). exists f'. rewrite Hcore. split_and!; [done..|].
      rewrite feed_all_snoc, Hfeed. cbn. by rewrite (Hframes f Hfeed), Hev, Hce.
    + split; [|done]. rewrite Hev, Hce. by destruct H11 as [-> _].
Qed.

Lemma later_unless_ended step h :
  later h (if hc_ended (hub_core h) then h else run_framer maxCallbackDurationMs callback step h).
Proof. destruct (hc_ended _); [done|apply later_run_framer]. Qed.

(** The framer's part of a chunk, from a hub whose consumer has just heard the chunk itself. *)
Lemma framer_tells core s s1 fed queue requested chunk h :
  live (fed ++ queue) requested core s fed → hub_consumers h = [s1] → cs_active s1 = true → hub_core h = core →
  cs_consumer s1 = cs_consumer s → heard s1 = heard s ++ (if co_onDecodedChunk consumer then [CalledChunk chunk] else []) →
  tells (fed ++ chunk :: queue) requested (run_framer maxCallbackDurationMs callback (feed sseLimits chunk) h).
Proof.
  intros Hl Hs1 Ha1 Hcore Hc Hh. pose proof (li_events _ _ _ _ _ Hl) as Hev. pose proof (li_consumer _ _ _ _ _ Hl) as Hcons.
  destruct wants_events eqn:Hw.
  - destruct Hev as (f & Hf & Hfail & Hfeed). destruct (feed sseLimits chunk f) as [[f' frames] failure] eqn:Hchunk.
    assert (Hon : co_onSseEvent (cs_consumer s1) = true) by (unfold wants_events in Hw; rewrite Hc, Hcons; by apply andb_true_iff in Hw as [_ ?]).
    rewrite <-Hcore in Hf, Hfail.
    destruct (hears_framer (feed sseLimits chunk) f s1 h f' frames failure Hs1 Ha1 Hon Hf Hfail Hchunk) as (s2 & l2 & Hs2 & Hc2 & Hh2 & Hp2 & Ha2).
    assert (Hall : heard s2 = heard s ++ ((if co_onDecodedChunk consumer then [CalledChunk chunk] else []) ++ l2)) by (by rewrite Hh2, Hh, app_assoc).
    exists s2. split; [done|]. destruct (cs_active s2) eqn:Hact; [left|right; split; [|done]].
    + destruct (Ha2 eq_refl) as (-> & -> & Hcore2). exists (fed ++ [chunk]). rewrite Hcore2, Hcore.
      eapply (chunk_live core s fed queue requested chunk f' frames); [done| |by unfold chunk_calls; rewrite Hw|congruence|done|by rewrite Hw].
      rewrite Hw. intros g Hg. rewrite Hfeed in Hg. by injection Hg as <-.
    + eapply (chunk_over core s fed queue requested chunk frames); [done| |exact Hall|congruence|].
      * intros _ g Hg. rewrite Hfeed in Hg. injection Hg as <-. by rewrite Hchunk.
      * unfold chunk_calls. rewrite Hw. by apply prefix_app.
  - destruct Hev as [Hev Hno].
    assert (Hoff : co_onSseEvent (cs_consumer s1) = false ∨ hc_framer (hub_core h) = None).
    { unfold wants_events in Hw. apply andb_false_iff in Hw as [Hw|Hw]; [right; rewrite Hcore; auto|left; by rewrite Hc, Hcons]. }
    destruct (hears_no_framer (feed sseLimits chunk) s1 h Hs1 Ha1 Hoff) as (framer & failure & (s2 & l2 & Hs2 & Hc2 & Hh2 & Hp2 & Ha2) & Hkeep).
    apply prefix_nil_inv in Hp2 as ->. rewrite app_nil_r in Hh2. exists s2. split; [done|].
    assert (Hall : heard s2 = heard s ++ chunk_calls chunk []) by (unfold chunk_calls; rewrite Hw, app_nil_r; congruence).
    destruct (cs_active s2) eqn:Ha; [left|right; split; [|done]].
    + destruct (Ha2 eq_refl) as [_ Hcore2]. exists (fed ++ [chunk]). rewrite Hcore2, Hcore.
      eapply (chunk_live core s fed queue requested chunk new_framer []); [done| |done|congruence|done|rewrite Hw; by eauto].
      rewrite Hw. cbn. rewrite Hcore in Hkeep. auto.
    + eapply (chunk_over core s fed queue requested chunk []); [done|by rewrite Hw|exact Hall|congruence|done].
Qed.

Lemma chunk_tells core s fed queue requested chunk h :
  live (fed ++ queue) requested core s fed → hub_consumers h = [s] → hub_core h = core →
  tells (fed ++ chunk :: queue) requested (onDecodedChunk sseLimits maxCallbackDurationMs callback chunk h).
Proof.
  intros Hl Hs Hcore. pose proof (li_active _ _ _ _ _ Hl) as Ha. unfold onDecodedChunk.
  rewrite Hs at 1. cbn [existsb]. rewrite Ha. cbn [orb negb]. erewrite loop_solo, active_solo by done. cbv beta zeta.
  destruct (_ <? cs_decodedBytes s + _) eqn:E.
  - eapply gone_tells; [exact Hl| |done]. eapply hears_gone; [exact Hs|by apply hears_detach|apply later_unless_ended].
  - pose proof (hears_invoke (co_onDecodedChunk (cs_consumer s)) (CalledChunk chunk) (count_bytes (bytes_of chunk) s)
      (on_consumer 0 (count_bytes (bytes_of chunk)) h) ltac:(cbn; by rewrite Hs) Ha eq_refl) as (s1 & l1 & Hs1 & Hc1 & Hh1 & Hp1 & Ha1).
    set (h1 := invokeConsumer _ _ _ _ _ _) in *. rewrite (li_consumer _ _ _ _ _ Hl) in *.
    destruct (cs_active s1) eqn:Hact.
    + destruct (Ha1 eq_refl) as [-> Hcore1]. change (hub_core (on_consumer 0 (count_bytes (bytes_of chunk)) h)) with (hub_core h) in Hcore1.
      rewrite Hcore1, Hcore, (li_open _ _ _ _ _ Hl). eapply framer_tells; [exact Hl|done|done|congruence|exact Hc1|exact Hh1].
    + assert (Hend : ∀ h2, later h1 h2 → tells (fed ++ chunk :: queue) requested h2).
      { intros h2 Hlater. exists s1. split; [by eapply inactive_later|]. right. split; [|done].
        eapply (chunk_over core s fed queue requested chunk
          (if wants_events then match feed_all sseLimits fed new_framer with (f, _, _) => (feed sseLimits chunk f).1.2 end else [])).
        - done.
        - intros -> f Hfeed. by rewrite Hfeed.
        - exact Hh1.
        - exact Hc1.
        - unfold chunk_calls. by apply prefix_app_r. }
      apply Hend, later_unless_ended.
Qed.

Lemma write_tells pending throws chunk h s fed queue requested :
  hub_consumers h = [s] → live (fed ++ queue) requested (hub_core h) s fed → chunk ≠ "" →
  tells (fed ++ chunk :: queue) requested
    (decoder_write decoderLimits sseLimits maxCallbackDurationMs callback pending throws chunk h).
Proof.
  intros Hs Hl Hne. pose proof (li_active _ _ _ _ _ Hl) as Ha. unfold decoder_write.
  rewrite (bool_decide_eq_true_2 _ (li_decoder _ _ _ _ _ Hl)), (li_not_ended _ _ _ _ _ Hl), (bool_decide_eq_false_2 (chunk = "")) by done.
  cbn [negb orb]. rewrite (li_identity _ _ _ _ _ Hl). cbn [negb]. set (h1 := on_core _ h).
  assert (Hl1 : live (fed ++ queue) requested (hub_core h1) s fed) by by eapply live_core.
  assert (Hgone : ∀ reason message, tells (fed ++ chunk :: queue) requested (decoder_detach reason message h1)).
  { intros. eapply gone_tells; [exact Hl1| |done]. apply hears_decoder_detach; [done..|]. exact (li_decoder _ _ _ _ _ Hl1). }
  destruct (maxCompressedBytes decoderLimits <? _); [apply Hgone|].
  unfold deliverDecoded. rewrite (bool_decide_eq_true_2 _ (li_decoder _ _ _ _ _ Hl1)), (bool_decide_eq_false_2 (chunk = "")) by done.
  cbn [negb orb]. destruct (maxDecodedBytes decoderLimits <? _); [apply Hgone|]. destruct (_ + expansionRatioSlackBytes decoderLimits <? _); [apply Hgone|].
  eapply chunk_tells; [|done|done]. by eapply live_core.
Qed.

Lemma inactive_tells sent requested s h h' :
  hub_consumers h = [s] → over sent requested s → cs_active s = false → later h h' → tells sent requested h'.
Proof.
  intros Hs Ho Ha Hlater. exists s. split; [by eapply inactive_later|auto].
Qed.

Lemma pump_tells n zlib h sent requested :
  Forall (λ c, c ≠ "") sent → tells sent requested h →
  tells sent requested (pump_loop decoderLimits sseLimits maxCallbackDurationMs callback n zlib h).
Proof.
  intros Hne. revert h. induction n as [|n IH]; intros h Hh; [done|]. destruct Hh as (s & Hs & [[fed Hl]|[Ho Ha]]).
  - cbn [pump_loop]. pose proof (li_sent _ _ _ _ _ Hl) as Hsent. destruct (hc_rawQueue (hub_core h)) as [|chunk queue] eqn:Hq; [by exists s; eauto|].
    apply IH. rewrite Hsent. apply (write_tells _ _ _ _ s); [done| |].
    + destruct Hl as [H1 H2 H3 H4 H5 H6 H7 H8 H9 H10 H11]. by split.
    + rewrite Hsent in Hne. apply Forall_app in Hne as [_ Hne]. by apply Forall_cons in Hne as [].
  - eapply inactive_tells; [exact Hs|done|done|apply later_pump].
Qed.

(** *** The end *)

Definition finished (sent : list string) (requested : bool) (h : ResponseObservationHub) : Prop :=
  ∃ s, hub_consumers h = [s] ∧ over sent requested s ∧ hc_ended (hub_core h) = true
    ∧ createDecoder (bd_encoding (hc_decoder (hub_core h))) = false.

(** What the consumer hears at the end. *)
Definition end_calls (frames : list SseEventFrame) (ends : bool) : list ConsumerCall :=
  (if wants_events then CalledEvent <$> frames else []) ++ (if ends && co_onEnd consumer then [CalledEnd] else []).

Lemma prefix_snoc_in {A} (x : A) l l' : l' `prefix_of` l ++ [x] → x ∉ l → x ∈ l' → l' = l ++ [x].
Proof.
  intros [k Hk] Hl Hx. destruct k as [|y k] using rev_ind; [by rewrite app_nil_r in Hk|]. clear IHk.
  rewrite app_assoc in Hk. apply app_inj_tail in Hk as [Hk _]. exfalso. apply Hl. rewrite Hk. apply elem_of_app. by left.
Qed.

Lemma frame_stream_from limits fed f frames f' more failure :
  feed_all limits fed new_framer = (f, frames, None) → finish limits f = (f', more, failure) →
  frame_stream limits fed = (frames ++ more, failure).
Proof. intros Hfeed Hfin. unfold frame_stream. rewrite Hfeed. cbn. by rewrite Hfin. Qed.

Lemma end_over sent core s fed frames (ends : bool) failure s' l' :
  live sent true core s fed → hc_rawQueue core = [] →
  (wants_events = true → ∀ f, feed_all sseLimits fed new_framer = (f, events_heard s, None) → (finish sseLimits f).1.2 = frames ∧ (finish sseLimits f).2 = failure) →
  (wants_events = true → ends = true → failure = None) →
  heard s' = heard s ++ l' → cs_consumer s' = cs_consumer s → l' `prefix_of` end_calls frames ends →
  over sent true s'.
Proof.
  intros Hl Hq Hfin Hends Hh Hc Hp. split; [rewrite Hc; apply Hl|]. pose proof (li_sent _ _ _ _ _ Hl) as Hsent. rewrite Hq, app_nil_r in Hsent.
  subst sent. destruct (heard_app _ _ _ Hh) as [Hch Hev], (chunks_of_events frames) as (Hfc & Hfe & Hfn).
  assert (Hcalls : omap call_chunk (end_calls frames ends) = [] ∧ omap call_event (end_calls frames ends) = if wants_events then frames else []).
  { unfold end_calls. rewrite !omap_app. destruct wants_events, (ends && co_onEnd consumer); cbn [omap list_omap call_chunk call_event];
      by rewrite ?Hfc, ?Hfe, ?app_nil_r. }
  destruct Hcalls as [Hcc Hce]. pose proof (prefix_omap call_chunk _ _ Hp) as Hpc. pose proof (prefix_omap call_event _ _ Hp) as Hpe.
  rewrite Hcc in Hpc. apply prefix_nil_inv in Hpc. rewrite Hpc, app_nil_r in Hch. rewrite Hce in Hpe.
  pose proof (li_events _ _ _ _ _ Hl) as Hle. exists fed, []. split; [by rewrite app_nil_r|].
  split; [rewrite Hch; by eapply live_chunks|]. right. split_and!; [done|done| |].
  - rewrite Hev. destruct wants_events.
    + destruct Hle as (f & _ & _ & Hfeed). destruct (Hfin eq_refl f Hfeed) as [Hmore Hfailure].
      destruct (finish sseLimits f) as [[f' more] fail] eqn:E. rewrite (frame_stream_from _ _ _ _ _ _ _ Hfeed E). cbn in *. subst.
      by apply prefix_app.
    + apply prefix_nil_inv in Hpe. rewrite Hpe. destruct Hle as [-> _]. apply prefix_nil.
  - rewrite Hh, elem_of_app. intros [Hin|Hin]; [by destruct (li_end _ _ _ _ _ Hl)|].
    assert (Hlast : ends && co_onEnd consumer = true ∧ l' = end_calls frames ends).
    { unfold end_calls in *. assert (Hno : CalledEnd ∉ (if wants_events then CalledEvent <$> frames else [])) by (destruct wants_events; [done|by intros ?%elem_of_nil]).
      destruct (ends && co_onEnd consumer); [split; [done|]; by apply prefix_snoc_in|]. rewrite app_nil_r in Hp. destruct Hp as [k Hk].
      exfalso. apply Hno. rewrite Hk. apply elem_of_app. by left. }
    destruct Hlast as [Hand ->]. apply andb_true_iff in Hand as [-> _]. split.
    + intros Hcb. rewrite Hch, (li_chunks _ _ _ _ _ Hl), Hcb. done.
    + rewrite Hev, Hce. destruct wants_events.
      * destruct Hle as (f & _ & _ & Hfeed). destruct (Hfin eq_refl f Hfeed) as [Hmore Hfailure].
        destruct (finish sseLimits f) as [[f' more] fail] eqn:E. rewrite (frame_stream_from _ _ _ _ _ _ _ Hfeed E). cbn in *. subst.
        by rewrite (Hends eq_refl eq_refl).
      * rewrite app_nil_r. by destruct Hle as [-> _].
Qed.

(** The end of the framer, on a consumer that still listens. *)
Lemma finish_hears core s fed sent h :
  live sent true core s fed → hub_consumers h = [s] → hc_framer (hub_core h) = hc_framer core → hc_framingFailure (hub_core h) = hc_framingFailure core →
  ∃ frames failure s' l', hub_consumers (run_framer maxCallbackDurationMs callback (finish sseLimits) h) = [s'] ∧ cs_consumer s' = cs_consumer s
    ∧ heard s' = heard s ++ l' ∧ l' `prefix_of` (if wants_events then CalledEvent <$> frames else [])
    ∧ (wants_events = true → ∀ f, feed_all sseLimits fed new_framer = (f, events_heard s, None) → (finish sseLimits f).1.2 = frames ∧ (finish sseLimits f).2 = failure)
    ∧ (cs_active s' = true → (wants_events = true → failure = None) ∧ l' = (if wants_events then CalledEvent <$> frames else [])
        ∧ ∃ framer fail, hub_core (run_framer maxCallbackDurationMs callback (finish sseLimits) h) = set_framing framer fail (hub_core h)).
Proof.
  intros Hl Hs Hf Hfail. pose proof (li_events _ _ _ _ _ Hl) as Hev. pose proof (li_active _ _ _ _ _ Hl) as Ha.
  pose proof (li_consumer _ _ _ _ _ Hl) as Hcons. destruct wants_events eqn:Hw.
  - destruct Hev as (f & Hf' & Hfail' & Hfeed). destruct (finish sseLimits f) as [[f' frames] failure] eqn:E. exists frames, failure.
    assert (Hon : co_onSseEvent (cs_consumer s) = true) by (unfold wants_events in Hw; rewrite Hcons; by apply andb_true_iff in Hw as [_ ?]).
    rewrite Hf' in Hf. rewrite Hfail' in Hfail.
    destruct (hears_framer (finish sseLimits) f s h f' frames failure Hs Ha Hon Hf Hfail E) as (s2 & l2 & Hs2 & Hc2 & Hh2 & Hp2 & Ha2).
    exists s2, l2. split_and!; [done..| |].
    + intros _ g Hg. rewrite Hfeed in Hg. injection Hg as <-. by rewrite E.
    + intros Hact. destruct (Ha2 Hact) as (-> & -> & ->). eauto.
  - destruct Hev as [_ Hno]. exists [], None.
    assert (Hoff : co_onSseEvent (cs_consumer s) = false ∨ hc_framer (hub_core h) = None).
    { unfold wants_events in Hw. apply andb_false_iff in Hw as [Hw|Hw]; [right; rewrite Hf; auto|left; by rewrite Hcons]. }
    destruct (hears_no_framer (finish sseLimits) s h Hs Ha Hoff) as (framer & failure & (s2 & l2 & Hs2 & Hc2 & Hh2 & Hp2 & Ha2) & _).
    exists s2, l2. split_and!; [done..|]. intros Hact. destruct (Ha2 Hact) as [-> ->]. eauto.
Qed.

Lemma end_tells throws h s fed sent :
  hub_consumers h = [s] → live sent true (hub_core h) s fed → hc_rawQueue (hub_core h) = [] →
  let h' := decoder_end sseLimits maxCallbackDurationMs callback throws h in tells sent true h' ∨ finished sent true h'.
Proof.
  intros Hs Hl Hq h'. subst h'. unfold decoder_end.
  rewrite (bool_decide_eq_true_2 _ (li_decoder _ _ _ _ _ Hl)), (li_not_ended _ _ _ _ _ Hl), (li_identity _ _ _ _ _ Hl). cbn [negb orb].
  unfold finishSuccessfully. cbn [on_core hub_core update_decoder set_decoder dec_state hc_decoder bd_state].
  rewrite (bool_decide_eq_true_2 _ (li_decoder _ _ _ _ _ Hl)). cbn [negb]. unfold onDecodedEnd. set (h1 := on_core _ (on_core _ h)).
  change (hc_ended (hub_core h1)) with (hc_ended (hub_core h)). rewrite (li_open _ _ _ _ _ Hl).
  destruct (finish_hears (hub_core h) s fed sent h1 Hl Hs eq_refl eq_refl) as (frames & failure & s2 & l2 & Hs2 & Hc2 & Hh2 & Hp2 & Hfin & Ha2).
  set (h2 := run_framer _ _ _ h1) in *. cbv zeta. erewrite loop_solo by done. destruct (cs_active s2) eqn:Hact.
  - destruct (Ha2 eq_refl) as (Hnone & -> & framer & fail & Hcore2). erewrite active_solo by done. cbv beta.
    destruct (hears_invoke (co_onEnd (cs_consumer s2)) CalledEnd s2 (on_core set_ended h2) Hs2 Hact eq_refl) as (s3 & l3 & Hs3 & Hc3 & Hh3 & Hp3 & Ha3).
    assert (Hover : over sent true s3).
    { eapply (end_over sent (hub_core h) s fed frames true failure s3 _ Hl Hq Hfin); [auto|by rewrite Hh3, Hh2, <-app_assoc|congruence|].
      unfold end_calls. cbn [andb]. rewrite <-(li_consumer _ _ _ _ _ Hl), <-Hc2. by apply prefix_app. }
    destruct (cs_active s3) eqn:Hact3; [right|left]; exists s3; [|auto].
    destruct (Ha3 eq_refl) as [_ ->]. split_and!; [done..|]. cbn. rewrite Hcore2. apply Hl.
  - left. exists s2. split; [eapply inactive_later; [exact Hs2|done|]|right; split; [|done]].
    + etransitivity; [apply later_core|]. apply later_active. intros. apply later_invoke.
    + eapply (end_over sent (hub_core h) s fed frames false failure s2 _ Hl Hq Hfin); [done|exact Hh2|exact Hc2|].
      unfold end_calls. cbn [andb]. by rewrite app_nil_r.
Qed.

(** *** Runs *)

(** The chunks that an event adds, and whether the end has been requested after it. *)
Definition adds (requested : bool) (e : HubEvent) : list string :=
  match e with Written chunk _ => if requested || (chunk =? "") then [] else [chunk] | _ => [] end.
Definition requests (requested : bool) (e : HubEvent) : bool := match e with EndRequested => true | _ => requested end.

(** The chunks written until the end was requested. *)
Fixpoint sent_chunks (requested : bool) (events : list HubEvent) : list string :=
  match events with
  | [] => []
  | e :: events => adds requested e ++ sent_chunks (requests requested e) events
  end.

Lemma over_mono sent requested s e : over sent requested s → over (sent ++ adds requested e) (requests requested e) s.
Proof.
  intros [Hc (fed & rest & Hsent & Hch & Hcase)]. split; [done|]. destruct Hcase as [Hcase|(-> & -> & Hev & Hend)].
  - exists fed, (rest ++ adds requested e). split; [by rewrite Hsent, app_assoc|]. auto.
  - exists fed, []. assert (adds true e = []) as -> by by destruct e. split; [by rewrite !app_nil_r in *|]. split; [done|]. right.
    split_and!; [by destruct e|done..].
Qed.

Local Abbreviation step := (hub_step decoderLimits sseLimits maxQueuedCompressedBytes maxQueuedChunks maxCallbackDurationMs callback).

Lemma pump_ended zlib ending h :
  hc_ended (hub_core h) = true → pumpOne decoderLimits sseLimits maxCallbackDurationMs callback zlib ending h = h.
Proof. unfold pumpOne. by intros ->. Qed.

Lemma finished_step sent requested e h : finished sent requested h → finished (sent ++ adds requested e) (requests requested e) (step e h).
Proof.
  intros (s & Hs & Ho & He & Hd). exists s. pose proof (over_mono _ _ _ e Ho).
  destruct e; cbn; unfold hub_write, hub_end, abort, stop_all; rewrite ?He, ?Hd; cbn; try by split_and!.
  case_match; [|by split_and!]. by rewrite pump_ended.
Qed.

Lemma live_flags scheduled sent requested core s fed : live sent requested core s fed → live sent requested (set_flags scheduled (hc_endRequested core) (hc_ended core) core) s fed.
Proof. by intros []. Qed.

Lemma live_schedule sent requested core s fed : live sent requested core s fed → live sent requested (schedulePump core) s fed.
Proof. intros Hl. unfold schedulePump. case_match; [done|by apply live_flags]. Qed.

Lemma live_written sent requested s fed chunk copy h :
  hub_consumers h = [s] → live sent requested (hub_core h) s fed →
  tells (sent ++ adds requested (Written chunk copy)) requested (hub_write maxQueuedCompressedBytes maxQueuedChunks chunk copy h).
Proof.
  intros Hs Hl. unfold hub_write. cbn [adds]. rewrite (li_open _ _ _ _ _ Hl), (li_requested _ _ _ _ _ Hl). cbn [orb].
  case_match; [rewrite app_nil_r; by exists s; eauto|].
  assert (Hgone : ∀ message, tells (sent ++ [chunk]) requested (failInputQueue message h)).
  { intros. eapply gone_tells; [exact Hl| |rewrite (li_sent _ _ _ _ _ Hl); by rewrite <-app_assoc].
    apply hears_stop; [done|by apply Hl..]. }
  case_match; [apply Hgone|]. destruct copy as [message|]; [apply Hgone|]. exists s. split; [done|]. left. exists fed.
  apply live_schedule. destruct Hl. split; try done. cbn. by rewrite app_assoc, <-li_sent0.
Qed.

Lemma live_pump sent requested s fed zlib ending h :
  Forall (λ c, c ≠ "") sent → hub_consumers h = [s] → live sent requested (hub_core h) s fed →
  let h' := pumpOne decoderLimits sseLimits maxCallbackDurationMs callback zlib ending h in tells sent requested h' ∨ finished sent requested h'.
Proof.
  intros Hne Hs Hl h'. subst h'. unfold pumpOne. rewrite (li_open _ _ _ _ _ Hl). cbv zeta.
  assert (Hpump : tells sent requested (pump_loop decoderLimits sseLimits maxCallbackDurationMs callback MAX_CHUNKS_PER_PUMP zlib h))
    by (apply pump_tells; [done|exists s; eauto]).
  set (h1 := pump_loop _ _ _ _ _ _ _) in *. destruct Hpump as (s1 & Hs1 & [[fed1 Hl1]|[Ho Ha]]).
  - case_bool_decide as Hq; cbn [negb]; [|left; exists s1; split; [done|]; left; exists fed1; by apply live_schedule].
    rewrite (li_requested _ _ _ _ _ Hl1). destruct requested; [by eapply end_tells|left; exists s1; eauto].
  - left. eapply inactive_tells; [exact Hs1|done|done|]. repeat case_match; [apply later_core|apply later_decoder_end|done].
Qed.

Lemma tells_step sent requested e h :
  Forall (λ c, c ≠ "") sent → tells sent requested h →
  tells (sent ++ adds requested e) (requests requested e) (step e h) ∨ finished (sent ++ adds requested e) (requests requested e) (step e h).
Proof.
  intros Hne (s & Hs & [[fed Hl]|[Ho Ha]]).
  2: { left. eapply inactive_tells; [exact Hs|by apply over_mono|done|apply later_step]. }
  assert (Hhere : tells sent requested h) by (exists s; eauto).
  pose proof (li_identity _ _ _ _ _ Hl) as Hid. destruct e; cbn [hub_step adds requests]; rewrite ?app_nil_r, ?Hid; auto.
  - left. by eapply live_written.
  - left. unfold hub_end. rewrite (li_open _ _ _ _ _ Hl), (li_requested _ _ _ _ _ Hl). cbn [orb].
    exists s. split; [by case_match|]. left. exists fed. destruct requested; [done|]. apply live_schedule. by destruct Hl.
  - left. eapply gone_tells; [exact Hl| |apply (li_sent _ _ _ _ _ Hl)]. apply hears_stop; [done|by apply Hl..].
  - case_match; [|auto]. eapply live_pump; [done|exact Hs|]. by apply live_flags.
Qed.

Lemma run_tells events sent requested h :
  Forall (λ c, c ≠ "") sent → tells sent requested h ∨ finished sent requested h →
  ∃ requested', let h' := foldl (λ h e, step e h) h events in
  tells (sent ++ sent_chunks requested events) requested' h' ∨ finished (sent ++ sent_chunks requested events) requested' h'.
Proof.
  revert sent requested h. induction events as [|e events IH]; intros sent requested h Hne Hh; cbn.
  - exists requested. by rewrite app_nil_r.
  - rewrite app_assoc. apply IH.
    + apply Forall_app. split; [done|]. unfold adds. destruct e; try done. case_match eqn:E; [done|].
      apply orb_false_iff in E as [_ E%bool_decide_eq_false]. by constructor.
    + destruct Hh as [Hh|Hh]; [by apply tells_step|right; by apply finished_step].
Qed.

End solo.

Lemma then_frames_prefix {S} (m : framing S) f : m.1.2 `prefix_of` (m ;;; f).1.2.
Proof. destruct m as [[s fs] [e|]]; [done|]. cbn. destruct (f s) as [[??]?]. by apply prefix_app_r. Qed.

(** The same ceilings but the one on the bytes of the stream. *)
Definition with_stream_limit (n : Z) (limits : SseEventFramerLimits) : SseEventFramerLimits :=
  {| maxStreamBytes := n; maxLineBytes := maxLineBytes limits; maxEventBytes := maxEventBytes limits; maxEvents := maxEvents limits |}.

(** An outcome against the one under a higher ceiling: its frames come first, and it is the
    same when it did not fail. *)
Definition falls_short {S} (m m' : framing S) : Prop := m.1.2 `prefix_of` m'.1.2 ∧ (m.2 = None → m = m').

Lemma falls_short_then {S} (m m' : framing S) f f' :
  falls_short m m' → (∀ s, falls_short (f s) (f' s)) → falls_short (m ;;; f) (m' ;;; f').
Proof.
  destruct m as [[s fs] [e|]]; intros [Hp Hn] Hf.
  - split; [|done]. etransitivity; [exact Hp|apply then_frames_prefix].
  - rewrite <-(Hn eq_refl). destruct (Hf s) as [Hp' Hn']. cbn. destruct (f s) as [[t gs] e], (f' s) as [[t' gs'] e']. cbn in *.
    split; cbn; [by apply prefix_app|]. intros He. injection (Hn' He) as <- <- <-. done.
Qed.

Lemma feed_short limits n c f : maxStreamBytes limits ≤ n → falls_short (feed limits c f) (feed (with_stream_limit n limits) c f).
Proof.
  intros Hle. unfold feed. destruct (fr_ended f); [by split|]. cbn [maxStreamBytes with_stream_limit].
  destruct (_ <? _) eqn:E; [split; [apply prefix_nil|done]|]. apply Z.ltb_ge in E.
  rewrite (proj2 (Z.ltb_ge n _)) by lia. by split.
Qed.

Lemma feed_all_short limits n chunks f :
  maxStreamBytes limits ≤ n → falls_short (feed_all limits chunks f) (feed_all (with_stream_limit n limits) chunks f).
Proof.
  intros Hle. revert f. induction chunks as [|c chunks IH]; intros f; [by split|]. rewrite !feed_all_cons.
  by apply falls_short_then; [apply feed_short|].
Qed.

(** Whatever their length, chunks are framed as the reference reads their text, as far as
    framing goes. *)
Lemma framed_meets limits chunks :
  Forall (λ c, c ≠ "") chunks →
  let '(frames, failure) := frame_stream limits chunks in
  frames `prefix_of` sse_reference (str_join "" chunks) ∧ (failure = None → frames = sse_reference (str_join "" chunks)).
Proof.
  intros Hne. set (n := Z.max (maxStreamBytes limits) (total_bytes chunks)). set (wide := with_stream_limit n limits).
  assert (Hshort : falls_short (feed_all limits chunks new_framer ;;; finish limits) (feed_all wide chunks new_framer ;;; finish wide)).
  { apply falls_short_then; [apply feed_all_short; lia|]. intros f. by split. }
  pose proof (stream_chars wide chunks Hne ltac:(cbn; lia)) as Hwide. unfold frame_stream in *.
  destruct (chars_meet wide (str_join "" chunks) _ (ready_new)) as (Hp & Hn & _).
  destruct (feed_all limits chunks new_framer ;;; finish limits) as [[f frames] failure].
  destruct (feed_all wide chunks new_framer ;;; finish wide) as [[f' frames'] failure']. destruct Hshort as [Hs1 Hs2]. cbn in *.
  injection Hwide as -> ->. split; [by etransitivity|]. intros Hnone. injection (Hs2 Hnone) as _ -> Hf.
  apply Hn. congruence.
Qed.

Lemma fed_prefix limits fed rest :
  Forall (λ c, c ≠ "") (fed ++ rest) →
  (feed_all limits fed new_framer).1.2 `prefix_of` sse_reference (str_join "" (fed ++ rest)).
Proof.
  intros Hne. pose proof (framed_meets limits (fed ++ rest) Hne) as Hmeets. unfold frame_stream in Hmeets.
  assert (Hp : (feed_all limits fed new_framer).1.2 `prefix_of` (feed_all limits (fed ++ rest) new_framer ;;; finish limits).1.2).
  { unfold feed_all at 2. rewrite foldl_app, feed_all_from. fold (feed_all limits fed new_framer). rewrite then_assoc. apply then_frames_prefix. }
  destruct (feed_all limits (fed ++ rest) new_framer ;;; finish limits) as [[f frames] failure]. cbn in Hp.
  etransitivity; [exact Hp|]. by destruct Hmeets.
Qed.

Lemma sent_nonempty requested events : Forall (λ c, c ≠ "") (sent_chunks requested events).
Proof.
  revert requested. induction events as [|e events IH]; intros requested; cbn; [constructor|]. apply Forall_app. split; [|apply IH].
  destruct e; try constructor. cbn. case_match eqn:E; [constructor|]. apply orb_false_iff in E as [_ E%bool_decide_eq_false]. by constructor.
Qed.

(** C32. What an observer of an uncompressed response hears is true.  In every run, with any
    other consumers and whatever the callbacks do, the chunks a consumer is given are the
    first of those that were written, in their order, and the events it is given are the
    first events of the written text as the SSE format reads it, also when the response
    passes a ceiling of the framer or of the consumer (the text is that of the bytes; those
    that are not UTF-8, which the decoder of the framer replaces, stay as they are here).  A
    consumer that is told of the end has been given every chunk and every event, each if it
    asked for them. *)
Theorem observers_hear_the_stream decoderLimits sseLimits maxBytes maxChunks maxMs callback encoding frameSse consumers k c h events :
  new_hub decoderLimits sseLimits maxBytes maxChunks maxMs encoding frameSse consumers = Ok h →
  isIdentityEncoding (normalizeEncoding encoding) = true → consumers !! k = Some c →
  let sent := sent_chunks false events in
  ∃ s, hub_consumers (hub_run decoderLimits sseLimits maxBytes maxChunks maxMs callback events h) !! k = Some s ∧
    chunks_heard s `prefix_of` sent ∧ events_heard s `prefix_of` sse_reference (str_join "" sent)
    ∧ (CalledEnd ∈ heard s →
         (co_onDecodedChunk c = true → chunks_heard s = sent)
         ∧ (frameSse = true → co_onSseEvent c = true → events_heard s = sse_reference (str_join "" sent))).
Proof.
  intros Hnew Hid Hk sent. unfold new_hub in Hnew.
  destruct (check_options _ _ _ _ _ _ consumers) as [[]|] eqn:Hcheck; [|done]. cbn in Hnew. injection Hnew as <-.
  set (enc := normalizeEncoding encoding) in *.
  assert (Hdec : createDecoder enc = false).
  { unfold isIdentityEncoding in Hid. by apply orb_true_iff in Hid as [Hid%bool_decide_eq_true|Hid%bool_decide_eq_true]; rewrite Hid. }
  destruct (isolated_run decoderLimits sseLimits maxBytes maxChunks maxMs callback callback k (co_id c) (λ _, eq_refl) events _ _
    (apart_start k (co_id c) enc frameSse consumers c Hk eq_refl)) as (s & Hs & Hsolo & _). exists s. split; [done|].
  assert (Hstart : tells sseLimits c frameSse [] false (start_hub enc frameSse [c])).
  { unfold start_hub. rewrite Hid. cbn [orb]. exists (new_consumer c). split; [done|]. left. exists [].
    split; try done; cbn; [by case_match|by intros ?%elem_of_nil|]. unfold wants_events. destruct frameSse; cbn; [|done].
    case_match; [by eexists|done]. }
  destruct (run_tells sseLimits maxMs callback decoderLimits maxBytes maxChunks c frameSse events [] false _ ltac:(constructor) (or_introl Hstart))
    as (requested & Hend). cbn zeta in Hend. unfold hub_run in Hsolo.
  pose proof (sent_nonempty false events) as Hne. fold sent in Hne.
  change ([] ++ sent_chunks false events) with sent in Hend.
  assert (Hcase : (∃ core fed, live sseLimits c frameSse sent requested core s fed) ∨ over sseLimits c frameSse sent requested s).
  { destruct Hend as [(t & Ht & [[fed Hl]|[Ho _]])|(t & Ht & Ho & _)]; (assert (t = s) as -> by (rewrite Hsolo in Ht; congruence)); eauto. }
  clear Hend. destruct Hcase as [(core & fed & Hl)|[Hc (fed & rest & Hsent & Hch & Hcase)]].
  - pose proof (li_sent _ _ _ _ _ _ _ _ Hl) as Hsent. rewrite Hsent in *. split_and!.
    + etransitivity; [by eapply live_chunks|by apply prefix_app_r].
    + etransitivity; [by eapply live_events|]. by apply fed_prefix.
    + intros Hin. by destruct (li_end _ _ _ _ _ _ _ _ Hl).
  - rewrite Hsent in *. split_and!; [etransitivity; [exact Hch|by apply prefix_app_r]| |].
    + destruct Hcase as [(_ & _ & Hev)|(_ & -> & Hev & _)]; (etransitivity; [exact Hev|]); [by apply fed_prefix|].
      rewrite app_nil_r in *. pose proof (framed_meets sseLimits fed Hne) as Hmeets. destruct (frame_stream _ _). by destruct Hmeets.
    + intros Hin. destruct Hcase as [(Hno & _)|(_ & -> & _ & Hall)]; [done|]. rewrite app_nil_r in *. destruct (Hall Hin) as [Hcb Hwants].
      split; [done|]. intros -> Hon. unfold wants_events in Hwants. rewrite Hon in Hwants. cbn in Hwants.
      pose proof (framed_meets sseLimits fed Hne) as Hmeets. rewrite Hwants in Hmeets. by apply Hmeets.
Qed.

(** ** A stream with a consumer of metrics and one that throws *)

Definition demo_consumer (id : string) : ResponseObservationConsumer :=
  {| co_id := id; co_maxDecodedBytes := None; co_maxSseEvents := None; co_onDecodedChunk := bool_decide (id = "tap");
     co_onSseEvent := true; co_onEnd := true; co_onDetach := true |}.
Definition demo_consumers : list ResponseObservationConsumer := [demo_consumer "tap"; demo_consumer "metrics"].
Definition demo_callback (id : string) (calls : list ConsumerCall) : CallbackOutcome :=
  if id =? "tap" then Threw "disk full" else Returned 0.
Definition demo_events : list HubEvent :=
  (λ chunk, Written chunk None) <$> demo_chunks ++ [""].
Definition demo_zlib (n : nat) : Z * option string := (0, None).
Definition demo_run : list HubEvent := demo_events ++ [PumpFired demo_zlib None; EndRequested; PumpFired demo_zlib None; Aborted "late"].

Definition demo_new_hub : result ResponseObservationHub :=
  new_hub DEFAULT_CONTENT_DECODER_LIMITS DEFAULT_SSE_EVENT_FRAMER_LIMITS DEFAULT_MAX_QUEUED_COMPRESSED_BYTES DEFAULT_MAX_QUEUED_CHUNKS
    DEFAULT_MAX_CALLBACK_DURATION_MS (Some " Identity") true demo_consumers.
Definition demo_hub_run : ResponseObservationHub → ResponseObservationHub :=
  hub_run DEFAULT_CONTENT_DECODER_LIMITS DEFAULT_SSE_EVENT_FRAMER_LIMITS DEFAULT_MAX_QUEUED_COMPRESSED_BYTES DEFAULT_MAX_QUEUED_CHUNKS
    DEFAULT_MAX_CALLBACK_DURATION_MS demo_callback demo_run.

Definition demo_hub : ResponseObservationHub := match demo_new_hub with Ok h => h | Throw _ => start_hub "" false [] end.

Lemma demo_hub_made : demo_new_hub = Ok demo_hub.
Proof. reflexivity. Qed.

(** The consumer of metrics hears what it hears alone, where it is told of the end. *)
Lemma observers_isolated_witness :
  ∃ s solo, hub_consumers (demo_hub_run demo_hub) !! 1%nat = Some s
    ∧ hub_consumers (demo_hub_run solo) = [s] ∧ length (hub_consumers solo) = 1%nat.
Proof.
  destruct (observers_isolated _ _ _ _ _ demo_callback demo_callback _ _ _ 1 (demo_consumer "metrics") demo_hub demo_hub_made eq_refl (λ _, eq_refl))
    as (solo & Hsolo & Hrun).
  destruct (Hrun demo_run) as (s & Hs & Halone). exists s, solo. split; [exact Hs|]. split; [exact Halone|].
  vm_compute in Hsolo. by injection Hsolo as <-.
Defined.

Lemma observers_hear_the_stream_witness :
  ∃ s, hub_consumers (demo_hub_run demo_hub) !! 1%nat = Some s
    ∧ events_heard s = sse_reference (str_join "" demo_chunks) ∧ length (events_heard s) = 2%nat.
Proof.
  destruct (observers_hear_the_stream _ _ _ _ _ demo_callback _ _ _ 1 (demo_consumer "metrics") demo_hub demo_run demo_hub_made eq_refl eq_refl)
    as (s & Hs & _ & _ & Hend).
  exists s. assert (Hlog : Some s = hub_consumers (demo_hub_run demo_hub) !! 1%nat) by by symmetry.
  split; [exact Hs|]. vm_compute in Hlog. injection Hlog as Hlog.
  assert (Hin : CalledEnd ∈ heard s) by (rewrite Hlog; apply list_elem_of_In; vm_compute; auto).
  destruct (Hend Hin) as [_ Hev]. rewrite (Hev eq_refl eq_refl). split; reflexivity.
Defined.
