(* ===== verification/LlmMetrics.v ===== *)
(** * Facts about language-model exchanges

    Models llm-metrics/normalization.ts, types.ts, protocols/*.ts, protocol-registry.ts and
    gateways/*.ts: what the metrics read out of requests, response headers, whole
    responses and stream events, for the four wire protocols and the four gateways.
    Bodies are parsed JSON, in which the keys of an object are unique. *)

From Stdlib Require Import Ascii ZArith QArith Qcanon.
From stdpp Require Import sorting.
From S2P Require Import Prelude Numbers JsValue Hashing Regex UriText.

Local Open Scope Z_scope.
Local Open Scope curtain_scope.

(** ** Normalisation *)

#[export] Instance Qc_eq_decision : EqDecision Qc := Qc_eq_dec.

Definition asRecord (value : jsvalue) : option (object jsvalue) := match value with VObj o => Some o | _ => None end.
Definition asArray (value : jsvalue) : option (list jsvalue) := match value with VArr l => Some l | _ => None end.

(** [record?.[key]] *)
Definition field_of (record : option (object jsvalue)) (key : string) : jsvalue :=
  from_option (λ o, get_value o key) VUndefined record.

Definition items_of (value : jsvalue) : list jsvalue := default [] (asArray value).

Definition MAX_SAFE_INTEGER : Z := 9007199254740991.
Definition is_safe_integer (z : Z) : bool := (- MAX_SAFE_INTEGER <=? z) && (z <=? MAX_SAFE_INTEGER).

Definition asSafeCount (value : jsvalue) : option Z :=
  match value with
  | VNum (JFin q) =>
      let z := Qnum (this q) in
      if num_is_integer (JFin q) && is_safe_integer z && (0 <=? z) then Some z else None
  | _ => None
  end.

Definition asFiniteCost (value : jsvalue) : option Qc :=
  match value with VNum (JFin q) => if qc_le (qc_of_Z 0) q then Some q else None | _ => None end.

Definition asBoolean (value : jsvalue) : option bool := match value with VBool b => Some b | _ => None end.

(** [SAFE_IDENTIFIER] and [SAFE_PROVIDER_IDENTIFIER]: a letter or digit, then these. *)
Definition shaped (rest : string) (s : string) : bool :=
  match s with "" => false | String a s => is_letter_digit a && str_forallb (λ a, is_letter_digit a || str_includes rest (String a "")) s end.
Definition SAFE_IDENTIFIER : string → bool := shaped "._:/@+-".
Definition SAFE_PROVIDER_IDENTIFIER : string → bool := shaped " ._:/@()+&-".

Definition bounded_string (shape : string → bool) (maximumLength : nat) (value : jsvalue) : option string :=
  match value with
  | VStr s => if (String.length s <=? maximumLength)%nat && shape s then Some s else None
  | _ => None
  end.
Definition asIdentifier : jsvalue → option string := bounded_string SAFE_IDENTIFIER 256.
Definition asProviderIdentifier : jsvalue → option string := bounded_string SAFE_PROVIDER_IDENTIFIER 128.

Definition asKnownString (value : jsvalue) (allowed : list string) : option string :=
  match value with VStr s => if includes allowed s then Some s else None | _ => None end.

Fixpoint add_loop (total : Z) (values : list (option Z)) : option Z :=
  match values with
  | [] => Some total
  | value :: values =>
      let total := total + default 0 value in if is_safe_integer total then add_loop total values else None
  end.
Definition addCounts (values : list (option Z)) : option Z :=
  if existsb (λ value, bool_decide (value = None)) values then None else add_loop 0 values.

Definition subtractCount (total subset : option Z) : option Z :=
  match total, subset with
  | Some total, Some subset => if total <? subset then None else Some (total - subset)
  | _, _ => None
  end.

Definition set_of (values : list string) : list string := foldl (λ s v, js_set_add v s) [] values.
Definition mergeQualityFlags (groups : list (list string)) : list string := merge_sort str_le (set_of (mjoin groups)).

Inductive UsageCompleteness := UsageComplete | UsagePartial | UsageMissing | UsageInvalid.
Inductive OutputTokenSemantics := IncludesThinking | ExcludesThinking | NoThinkingBreakdown | SemanticsUnknown.
Inductive TokenMeasurementAccuracy := ReportedExact | ProviderEstimate | DerivedExact | DerivedFromEstimate | AccuracyUnknown.
#[export] Instance UsageCompleteness_eq_dec : EqDecision UsageCompleteness.
Proof. solve_decision. Defined.

Record NormalizedUsage := {
  inputTokensReported : option Z;
  inputTokensTotal : option Z;
  inputTokensAccuracy : TokenMeasurementAccuracy;
  inputTokensUncached : option Z;
  cacheReadInputTokens : option Z;
  cacheWriteInputTokens : option Z;
  toolUseInputTokens : option Z;
  outputTokensReported : option Z;
  outputTokenSemantics : OutputTokenSemantics;
  outputTokensTotal : option Z;
  outputTokensAccuracy : TokenMeasurementAccuracy;
  thinkingTokens : option Z;
  thinkingTokensAccuracy : TokenMeasurementAccuracy;
  nonThinkingOutputTokens : option Z;
  nonThinkingOutputTokensAccuracy : TokenMeasurementAccuracy;
  providerTotalTokens : option Z;
  canonicalTotalTokens : option Z;
  usage_costUsd : option Qc;
  usageSource : option string;
  nu_usageCompleteness : UsageCompleteness;
  usage_qualityFlags : list string
}.

Definition usageCompleteness (inputTotal outputTotal : option Z) (sawUsage invalid : bool) : UsageCompleteness :=
  if negb sawUsage then UsageMissing
  else if invalid && bool_decide (inputTotal = None) && bool_decide (outputTotal = None) then UsageInvalid
  else if negb (bool_decide (inputTotal = None)) && negb (bool_decide (outputTotal = None)) then UsageComplete
  else UsagePartial.

(** ** Quality flags *)

(** What an operation returns, and the set of flags it adds to. *)
Definition Flagged (A : Type) : Type := list string → A * list string.
#[export] Instance flagged_ret : MRet Flagged := λ A a flags, (a, flags).
#[export] Instance flagged_bind : MBind Flagged := λ A B f m flags, let '(a, flags) := m flags in f a flags.

Definition add_flag (flag : string) : Flagged unit := λ flags, ((), js_set_add flag flags).
Definition flag_when (test : bool) (flag : string) : Flagged unit := if test then add_flag flag else mret ().

(** ** protocols/common.ts *)

Definition SERVICE_TIERS : list string := ["auto"; "default"; "standard"; "priority"; "flex"; "scale"; "batch"].
Definition REASONING_EFFORTS : list string := ["none"; "minimal"; "low"; "medium"; "high"; "xhigh"; "max"].
Definition SPEED_MODES : list string := ["standard"; "fast"].

(** A field that is there and not [null] is read; what cannot be read leaves a flag. *)
Definition read_field {A} (read : jsvalue → option A) (prefix : string) (record : option (object jsvalue)) (key : string) : Flagged (option A) :=
  match record with
  | None => mret None
  | Some o =>
      match obj_get o key with
      | None | Some VNull => mret None
      | Some value =>
          let result := read value in
          flag_when (match result with None => true | Some _ => false end) (prefix +:+ key) ≫= λ _, mret result
      end
  end.
Definition readCount : option (object jsvalue) → string → Flagged (option Z) := read_field asSafeCount "invalid_count:".
Definition readIdentifier : option (object jsvalue) → string → Flagged (option string) := read_field asIdentifier "invalid_identifier:".

Inductive ResponseHeader := HeaderText (s : string) | HeaderList (l : list string) | HeaderUndefined.
Definition GatewayResponseHeaders : Type := list (string * ResponseHeader).

(** The first header of that name which has a value. *)
Fixpoint find_header (headers : GatewayResponseHeaders) (wanted : string) : option ResponseHeader :=
  match headers with
  | [] => None
  | (name, value) :: headers =>
      match value with
      | HeaderUndefined => find_header headers wanted
      | _ => if toLowerCase name =? toLowerCase wanted then Some value else find_header headers wanted
      end
  end.

Definition single_header (value : ResponseHeader) : option string :=
  match value with HeaderText s => Some s | HeaderList [s] => Some s | _ => None end.

Definition readResponseHeaderIdentifier (headers : GatewayResponseHeaders) (wanted : string) : Flagged (option string) :=
  match find_header headers wanted with
  | None => mret None
  | Some value =>
      let identifier := single_header value ≫= λ s, asIdentifier (VStr s) in
      flag_when (bool_decide (identifier = None)) "invalid_provider_request_id" ≫= λ _, mret identifier
  end.

Inductive ReasoningMode := ModeDisabled | ModeEnabled | ModeAdaptive | ModeEffort | ModeUnknown.

Record LlmRequestFacts := {
  rf_requestedModel : option string;
  rf_streaming : option bool;
  rf_requestedServiceTier : option string;
  rf_reasoningMode : ReasoningMode;
  rf_reasoningEffort : option string;
  rf_thinkingBudgetTokens : option Z;
  rf_speedMode : option string;
  rf_qualityFlags : list string
}.

(** [a ?? b] *)
Definition coalesce (a b : jsvalue) : jsvalue := if is_nullish a then b else a.

Definition sorted_flags (flags : list string) : list string := merge_sort str_le flags.

(** Everything but the flags, which the caller still adds to. *)
Definition inspect_common (value : jsvalue) (serviceTiers : list string) : Flagged LlmRequestFacts :=
  let body := asRecord value in
  flag_when (bool_decide (body = None)) "invalid_request_envelope" ≫= λ _,
  model ← readIdentifier body "model";
  let has_stream := from_option (λ o, obj_has o "stream") false body in
  let stream := if has_stream then asBoolean (field_of body "stream") else None in
  flag_when (has_stream && bool_decide (stream = None)) "invalid_boolean:stream" ≫= λ _,
  let tier := field_of body "service_tier" in
  let serviceTier := asKnownString tier serviceTiers in
  flag_when (negb (is_nullish tier) && bool_decide (serviceTier = None)) "unknown_service_tier" ≫= λ _,
  let reasoning := asRecord (field_of body "reasoning") in
  let thinking := asRecord (field_of body "thinking") in
  let outputConfig := asRecord (field_of body "output_config") in
  let effort := asKnownString (coalesce (coalesce (field_of reasoning "effort") (field_of body "reasoning_effort"))
                                 (field_of outputConfig "effort")) REASONING_EFFORTS in
  let thinkingType := asKnownString (field_of thinking "type") ["enabled"; "adaptive"; "disabled"] in
  let reasoningMode :=
    if bool_decide (thinkingType = Some "adaptive") then ModeAdaptive
    else if bool_decide (thinkingType = Some "enabled") then ModeEnabled
    else if bool_decide (thinkingType = Some "disabled") || bool_decide (effort = Some "none") then ModeDisabled
    else if negb (bool_decide (effort = None)) then ModeEffort else ModeUnknown in
  budget ← readCount thinking "budget_tokens";
  let rawSpeed := coalesce (field_of body "speed") (field_of body "speed_mode") in
  let speedMode := asKnownString rawSpeed SPEED_MODES in
  flag_when (negb (is_nullish rawSpeed) && bool_decide (speedMode = None)) "unknown_speed_mode" ≫= λ _,
  mret {| rf_requestedModel := model; rf_streaming := stream; rf_requestedServiceTier := serviceTier; rf_reasoningMode := reasoningMode;
          rf_reasoningEffort := effort; rf_thinkingBudgetTokens := budget; rf_speedMode := speedMode; rf_qualityFlags := [] |}.

Definition with_request_flags (facts : LlmRequestFacts) (flags : list string) : LlmRequestFacts :=
  {| rf_requestedModel := rf_requestedModel facts; rf_streaming := rf_streaming facts;
     rf_requestedServiceTier := rf_requestedServiceTier facts; rf_reasoningMode := rf_reasoningMode facts;
     rf_reasoningEffort := rf_reasoningEffort facts; rf_thinkingBudgetTokens := rf_thinkingBudgetTokens facts;
     rf_speedMode := rf_speedMode facts; rf_qualityFlags := flags |}.

Definition inspectCommonRequest (value : jsvalue) (serviceTiers : list string) : LlmRequestFacts :=
  let '(facts, flags) := inspect_common value serviceTiers [] in with_request_flags facts (sorted_flags flags).

Inductive NormalizedTermination :=
  TermStop | TermLength | TermTool | TermRefusal | TermContentFilter | TermError | TermAborted | TermUnknown.
Inductive NormalizedStopReason :=
  EndTurn | StopSequence | MaxTokens | ContextWindow | ToolUse | PauseTurn | Refusal | ContentFilter | Completed | Incomplete
| Failed | Cancelled | OtherStop | NotReported.
Inductive RefusalSource := FromStopReason | FromStopDetails | FromContentItem | FromContentFilter | FromPromptFeedback | RefusalNotReported.
#[export] Instance NormalizedTermination_eq_dec : EqDecision NormalizedTermination.
Proof. solve_decision. Defined.
#[export] Instance NormalizedStopReason_eq_dec : EqDecision NormalizedStopReason.
Proof. solve_decision. Defined.

Record LlmOutcome := {
  lo_termination : NormalizedTermination;
  lo_providerStopReason : NormalizedStopReason;
  lo_responseStatus : option Z;
  lo_refusal : option bool;
  lo_refusalCategory : option string;
  lo_refusalSource : RefusalSource
}.

Definition emptyOutcome : LlmOutcome :=
  {| lo_termination := TermUnknown; lo_providerStopReason := NotReported; lo_responseStatus := None; lo_refusal := None;
     lo_refusalCategory := None; lo_refusalSource := RefusalNotReported |}.

(** A property of an object, as the keys are unique. *)
Fixpoint hasTypedItem (value : jsvalue) (wantedTypes : list string) {struct value} : bool :=
  match value with
  | VObj o =>
      (match get_value o "type" with VStr s => includes wantedTypes s | _ => false end)
      || (fix collections (o : object jsvalue) : bool :=
            match o with
            | [] => false
            | (key, collection) :: o =>
                (includes ["content"; "output"; "choices"] key &&
                 match collection with
                 | VArr items =>
                     (fix in_items (items : list jsvalue) : bool :=
                        match items with
                        | [] => false
                        | item :: items =>
                            hasTypedItem item wantedTypes
                            || match item with
                               | VObj io =>
                                   (fix in_message (io : object jsvalue) : bool :=
                                      match io with
                                      | [] => false
                                      | (k, message) :: io => (k =? "message") && hasTypedItem message wantedTypes || in_message io
                                      end) io
                               | _ => false
                               end
                            || in_items items
                        end) items
                 | _ => false
                 end) || collections o
            end) o
  | _ => false
  end.

(** ** Observations *)

Record LlmProtocolObservation := {
  po_protocol : string;
  po_responseModel : option string;
  po_providerRequestId : option string;
  po_providerResponseId : option string;
  po_actualServiceTier : option string;
  po_usage : NormalizedUsage;
  po_outcome : LlmOutcome;
  po_protocolTerminal : bool;
  po_qualityFlags : list string
}.

(** An event of a stream: its type, if it has one, and its parsed data, [[DONE]] being a string. *)
Record ProtocolStreamEvent := { se_eventType : option string; se_data : jsvalue }.

Inductive ProtocolEventPhase := PhaseControl | PhaseReasoning | PhaseOutput.

(** [LlmProtocolAdapter] with its accumulator; a snapshot may add flags. *)
Class LlmProtocolAdapter (S : Type) := {
  adapter_id : string;
  inspectRequest : jsvalue → string → LlmRequestFacts;
  createAccumulator : S;
  observeResponseHeaders : GatewayResponseHeaders → S → S;
  observeJsonResponse : jsvalue → S → S;
  observeStreamEvent : ProtocolStreamEvent → S → S * ProtocolEventPhase;
  isProtocolTerminal : S → bool;
  protocol_snapshot : S → S * LlmProtocolObservation
}.

Definition is_done (value : jsvalue) : bool := is_str value "[DONE]".

(** The [type] of a payload, or that of its event. *)
Definition event_type (payload : object jsvalue) (event : ProtocolStreamEvent) : option string :=
  match get_value payload "type" with VStr s => Some s | _ => se_eventType event end.

Definition known (s : option string) (t : string) : bool := bool_decide (s = Some t).

Definition some_or {A} (value previous : option A) : option A := match value with Some _ => value | None => previous end.

Definition invalid_counts (flags : list string) : bool := existsb (λ flag, startsWith flag "invalid_count:") flags.

(** What every accumulator keeps. *)
Record AccumulatorFacts := {
  af_responseModel : option string;
  af_providerRequestId : option string;
  af_providerResponseId : option string;
  af_actualServiceTier : option string;
  af_terminal : bool;
  af_termination : NormalizedTermination;
  af_stopReason : NormalizedStopReason;
  af_refusal : option bool;
  af_refusalCategory : option string;
  af_refusalSource : RefusalSource;
  af_flags : list string
}.

Definition no_facts : AccumulatorFacts :=
  {| af_responseModel := None; af_providerRequestId := None; af_providerResponseId := None; af_actualServiceTier := None;
     af_terminal := false; af_termination := TermUnknown; af_stopReason := NotReported; af_refusal := None;
     af_refusalCategory := None; af_refusalSource := RefusalNotReported; af_flags := [] |}.

Definition set_identity (model id tier : option string) (f : AccumulatorFacts) : AccumulatorFacts :=
  {| af_responseModel := some_or model (af_responseModel f); af_providerRequestId := af_providerRequestId f;
     af_providerResponseId := some_or id (af_providerResponseId f); af_actualServiceTier := some_or tier (af_actualServiceTier f);
     af_terminal := af_terminal f; af_termination := af_termination f; af_stopReason := af_stopReason f; af_refusal := af_refusal f;
     af_refusalCategory := af_refusalCategory f; af_refusalSource := af_refusalSource f; af_flags := af_flags f |}.
Definition set_request_id (id : option string) (f : AccumulatorFacts) : AccumulatorFacts :=
  {| af_responseModel := af_responseModel f; af_providerRequestId := id; af_providerResponseId := af_providerResponseId f;
     af_actualServiceTier := af_actualServiceTier f; af_terminal := af_terminal f; af_termination := af_termination f;
     af_stopReason := af_stopReason f; af_refusal := af_refusal f; af_refusalCategory := af_refusalCategory f;
     af_refusalSource := af_refusalSource f; af_flags := af_flags f |}.
Definition set_terminal (f : AccumulatorFacts) : AccumulatorFacts :=
  {| af_responseModel := af_responseModel f; af_providerRequestId := af_providerRequestId f;
     af_providerResponseId := af_providerResponseId f; af_actualServiceTier := af_actualServiceTier f; af_terminal := true;
     af_termination := af_termination f; af_stopReason := af_stopReason f; af_refusal := af_refusal f;
     af_refusalCategory := af_refusalCategory f; af_refusalSource := af_refusalSource f; af_flags := af_flags f |}.
Definition set_outcome (termination : NormalizedTermination) (stop : NormalizedStopReason) (refusal : option bool) (category : option string)
    (source : RefusalSource) (f : AccumulatorFacts) : AccumulatorFacts :=
  {| af_responseModel := af_responseModel f; af_providerRequestId := af_providerRequestId f;
     af_providerResponseId := af_providerResponseId f; af_actualServiceTier := af_actualServiceTier f; af_terminal := af_terminal f;
     af_termination := termination; af_stopReason := stop; af_refusal := refusal; af_refusalCategory := category;
     af_refusalSource := source; af_flags := af_flags f |}.
Definition set_acc_flags (flags : list string) (f : AccumulatorFacts) : AccumulatorFacts :=
  {| af_responseModel := af_responseModel f; af_providerRequestId := af_providerRequestId f;
     af_providerResponseId := af_providerResponseId f; af_actualServiceTier := af_actualServiceTier f; af_terminal := af_terminal f;
     af_termination := af_termination f; af_stopReason := af_stopReason f; af_refusal := af_refusal f;
     af_refusalCategory := af_refusalCategory f; af_refusalSource := af_refusalSource f; af_flags := flags |}.

(** An operation on flags, on the flags of an accumulator. *)
Definition on_flags {A} (m : Flagged A) (f : AccumulatorFacts) : A * AccumulatorFacts :=
  let '(a, flags) := m (af_flags f) in (a, set_acc_flags flags f).
Definition flag (test : bool) (name : string) (f : AccumulatorFacts) : AccumulatorFacts := (on_flags (flag_when test name) f).2.

Definition read_header (headers : GatewayResponseHeaders) (wanted : string) (f : AccumulatorFacts) : AccumulatorFacts :=
  let '(id, f) := on_flags (readResponseHeaderIdentifier headers wanted) f in set_request_id id f.

(** The model, the id and the service tier of a message. *)
Definition observe_identity (model_key id_key : string) (tier : option string) (record : object jsvalue) (f : AccumulatorFacts) : AccumulatorFacts :=
  let '(model, f) := on_flags (readIdentifier (Some record) model_key) f in
  let '(id, f) := on_flags (readIdentifier (Some record) id_key) f in
  set_identity model id tier f.

(** The content of a response was refused. *)
Definition mark_refusal (source : RefusalSource) (f : AccumulatorFacts) : AccumulatorFacts :=
  set_outcome TermRefusal Refusal (Some true) (af_refusalCategory f) source f.

(** [markTerminal] *)
Definition mark_terminal (f : AccumulatorFacts) : AccumulatorFacts :=
  set_terminal (flag (af_terminal f) "duplicate_protocol_terminal" f).

Definition outcome_of (reported : bool) (f : AccumulatorFacts) : LlmOutcome :=
  if negb reported then emptyOutcome
  else {| lo_termination := af_termination f; lo_providerStopReason := af_stopReason f; lo_responseStatus := None;
          lo_refusal := af_refusal f; lo_refusalCategory := af_refusalCategory f; lo_refusalSource := af_refusalSource f |}.

Definition observation_of (protocol : string) (usage : NormalizedUsage) (reported terminal : bool) (f : AccumulatorFacts) : LlmProtocolObservation :=
  {| po_protocol := protocol; po_responseModel := af_responseModel f; po_providerRequestId := af_providerRequestId f;
     po_providerResponseId := af_providerResponseId f; po_actualServiceTier := af_actualServiceTier f; po_usage := usage;
     po_outcome := outcome_of reported f; po_protocolTerminal := terminal;
     po_qualityFlags := mergeQualityFlags [af_flags f; usage_qualityFlags usage] |}.

Definition accuracy (value : option Z) (present : TokenMeasurementAccuracy) : TokenMeasurementAccuracy :=
  match value with None => AccuracyUnknown | Some _ => present end.

Definition exceeds (part whole : option Z) : bool :=
  match part, whole with Some part, Some whole => whole <? part | _, _ => false end.

(** A usage field; [None] keeps what is there. *)
Definition conflicts (previous value : option Z) : bool :=
  match previous, value with Some previous, Some value => negb (previous =? value) | _, _ => false end.

(** ** protocols/anthropic-messages.ts *)
Module Anthropic.

Record AnthropicUsageState := {
  us_input : option Z;
  us_cacheRead : option Z;
  us_cacheWrite : option Z;
  us_output : option Z;
  us_thinking : option Z;
  us_sawUsage : bool
}.

Definition EMPTY_USAGE : AnthropicUsageState :=
  {| us_input := None; us_cacheRead := None; us_cacheWrite := None; us_output := None; us_thinking := None; us_sawUsage := false |}.

Record AnthropicMessagesAccumulator := { am_facts : AccumulatorFacts; am_usage : AnthropicUsageState }.

Definition ANTHROPIC_REQUEST_SERVICE_TIERS : list string := SERVICE_TIERS ++ ["standard_only"].

Definition stopReason (reason : jsvalue) : NormalizedStopReason * NormalizedTermination :=
  match reason with
  | VUndefined | VNull => (NotReported, TermUnknown)
  | VStr s =>
      if s =? "end_turn" then (EndTurn, TermStop)
      else if s =? "stop_sequence" then (StopSequence, TermStop)
      else if s =? "max_tokens" then (MaxTokens, TermLength)
      else if s =? "model_context_window_exceeded" then (ContextWindow, TermLength)
      else if s =? "tool_use" then (ToolUse, TermTool)
      else if s =? "pause_turn" then (PauseTurn, TermStop)
      else if s =? "refusal" then (Refusal, TermRefusal)
      else (OtherStop, TermUnknown)
  | _ => (OtherStop, TermUnknown)
  end.

Definition on_anthropic_facts (f : AccumulatorFacts → AccumulatorFacts) (s : AnthropicMessagesAccumulator) : AnthropicMessagesAccumulator :=
  {| am_facts := f (am_facts s); am_usage := am_usage s |}.

Definition observeMessageIdentity (message : object jsvalue) : AnthropicMessagesAccumulator → AnthropicMessagesAccumulator :=
  on_anthropic_facts (observe_identity "model" "id" (asKnownString (get_value message "service_tier") SERVICE_TIERS) message).

(** [setUsageField]: a conflict leaves a flag, the last value wins. *)
Definition setUsageField (previous value : option Z) (phase field : string) : Flagged (option Z) :=
  flag_when (conflicts previous value) ("conflicting_usage:" +:+ phase +:+ ":" +:+ field) ≫= λ _, mret (some_or value previous).

Definition read_usage (previous : option Z) (record : option (object jsvalue)) (key phase field : string) : Flagged (option Z) :=
  value ← readCount record key; setUsageField previous value phase field.

Definition initial_usage (usage : object jsvalue) (u : AnthropicUsageState) : Flagged AnthropicUsageState :=
  input ← read_usage (us_input u) (Some usage) "input_tokens" "initial" "input";
  cacheRead ← read_usage (us_cacheRead u) (Some usage) "cache_read_input_tokens" "initial" "cacheRead";
  cacheWrite ← read_usage (us_cacheWrite u) (Some usage) "cache_creation_input_tokens" "initial" "cacheWrite";
  mret {| us_input := input; us_cacheRead := cacheRead; us_cacheWrite := cacheWrite; us_output := us_output u;
          us_thinking := us_thinking u; us_sawUsage := true |}.

Definition terminal_usage (usage : object jsvalue) (u : AnthropicUsageState) : Flagged AnthropicUsageState :=
  output ← read_usage (us_output u) (Some usage) "output_tokens" "terminal" "output";
  thinking ← read_usage (us_thinking u) (asRecord (get_value usage "output_tokens_details")) "thinking_tokens" "terminal" "thinking";
  mret {| us_input := us_input u; us_cacheRead := us_cacheRead u; us_cacheWrite := us_cacheWrite u; us_output := output;
          us_thinking := thinking; us_sawUsage := true |}.

Definition observe_anthropic_usage (read : object jsvalue → AnthropicUsageState → Flagged AnthropicUsageState) (usage : jsvalue)
    (s : AnthropicMessagesAccumulator) : AnthropicMessagesAccumulator :=
  match asRecord usage with
  | None => s
  | Some usage => let '(u, f) := on_flags (read usage (am_usage s)) (am_facts s) in {| am_facts := f; am_usage := u |}
  end.
Definition observeInitialUsage := observe_anthropic_usage initial_usage.
Definition observeTerminalUsage := observe_anthropic_usage terminal_usage.

Definition REFUSAL_CATEGORIES : list string := ["cyber"; "bio"; "frontier_llm"; "reasoning_extraction"; "general_harms"].

Definition observeStop (reason : jsvalue) (details : option (object jsvalue)) (f : AccumulatorFacts) : AccumulatorFacts :=
  let '(normalized, termination) := stopReason reason in
  let f :=
    if bool_decide (normalized = NotReported) then f
    else
      let f := flag (negb (bool_decide (af_stopReason f = NotReported)) && negb (bool_decide (af_stopReason f = normalized)))
                 "conflicting_stop_reason" f in
      set_outcome termination normalized
        (if bool_decide (termination = TermUnknown) then af_refusal f else Some (bool_decide (termination = TermRefusal)))
        (af_refusalCategory f) (af_refusalSource f) f in
  if is_str (field_of details "type") "refusal" then
    let f := mark_refusal FromStopDetails f in
    let category := asKnownString (field_of details "category") REFUSAL_CATEGORIES in
    let f := flag (negb (is_nullish (field_of details "category")) && bool_decide (category = None)) "unknown_refusal_category" f in
    set_outcome (af_termination f) (af_stopReason f) (af_refusal f) (some_or category (af_refusalCategory f)) (af_refusalSource f) f
  else if bool_decide (normalized = Refusal) then mark_refusal FromStopReason f
  else f.

Definition anthropic_json (value : jsvalue) (s : AnthropicMessagesAccumulator) : AnthropicMessagesAccumulator :=
  match asRecord value with
  | None => on_anthropic_facts (flag true "invalid_response_envelope") s
  | Some message =>
      let s := observeMessageIdentity message s in
      let s := observeInitialUsage (get_value message "usage") s in
      let s := observeTerminalUsage (get_value message "usage") s in
      let s := on_anthropic_facts (observeStop (get_value message "stop_reason") (asRecord (get_value message "stop_details"))) s in
      let s := if hasTypedItem value ["refusal"] then on_anthropic_facts (mark_refusal FromContentItem) s else s in
      on_anthropic_facts set_terminal s
  end.

Definition anthropic_event (event : ProtocolStreamEvent) (s : AnthropicMessagesAccumulator) : AnthropicMessagesAccumulator * ProtocolEventPhase :=
  match asRecord (se_data event) with
  | None => (on_anthropic_facts (flag true "invalid_stream_event") s, PhaseControl)
  | Some payload =>
      let type := event_type payload event in
      if known type "message_start" then
        match asRecord (get_value payload "message") with
        | None => (on_anthropic_facts (flag true "invalid_message_start") s, PhaseControl)
        | Some message => (observeInitialUsage (get_value message "usage") (observeMessageIdentity message s), PhaseControl)
        end
      else if known type "message_delta" then
        let delta := asRecord (get_value payload "delta") in
        let s := observeTerminalUsage (get_value payload "usage") s in
        (on_anthropic_facts (observeStop (field_of delta "stop_reason") (asRecord (field_of delta "stop_details"))) s, PhaseControl)
      else if known type "message_stop" then
        let s := on_anthropic_facts mark_terminal s in
        (match asRecord (get_value payload "message") with Some metadata => observeMessageIdentity metadata s | None => s end, PhaseControl)
      else
        let s := if known type "content_block_start" && hasTypedItem (get_value payload "content_block") ["refusal"] then
                   on_anthropic_facts (mark_refusal FromContentItem) s else s in
        let deltaType := field_of (asRecord (get_value payload "delta")) "type" in
        (s, if known type "content_block_delta" then
              if is_str deltaType "thinking_delta" then PhaseReasoning
              else if is_str deltaType "text_delta" || is_str deltaType "input_json_delta" then PhaseOutput else PhaseControl
            else PhaseControl)
  end.

Definition anthropic_usage (u : AnthropicUsageState) (invalid : bool) : NormalizedUsage :=
  let inputTotal := addCounts [us_input u; us_cacheRead u; us_cacheWrite u] in
  let outputTotal := us_output u in
  let thinking := us_thinking u in
  let contradictory := exceeds thinking outputTotal in
  let nonThinking := if contradictory then None else subtractCount outputTotal thinking in
  {| inputTokensReported := us_input u; inputTokensTotal := inputTotal; inputTokensAccuracy := accuracy inputTotal DerivedExact;
     inputTokensUncached := us_input u; cacheReadInputTokens := us_cacheRead u; cacheWriteInputTokens := us_cacheWrite u;
     toolUseInputTokens := None; outputTokensReported := outputTotal; outputTokenSemantics := IncludesThinking;
     outputTokensTotal := outputTotal; outputTokensAccuracy := accuracy outputTotal ReportedExact; thinkingTokens := thinking;
     thinkingTokensAccuracy := accuracy thinking ProviderEstimate; nonThinkingOutputTokens := nonThinking;
     nonThinkingOutputTokensAccuracy := accuracy nonThinking DerivedFromEstimate; providerTotalTokens := None;
     canonicalTotalTokens := addCounts [inputTotal; outputTotal]; usage_costUsd := None;
     usageSource := if us_sawUsage u then Some "anthropic_message_usage" else None;
     nu_usageCompleteness := usageCompleteness inputTotal outputTotal (us_sawUsage u) invalid;
     usage_qualityFlags := mergeQualityFlags [if contradictory then ["contradictory_usage:thinking_exceeds_output"] else []] |}.

#[export] Instance AnthropicMessagesAdapter : LlmProtocolAdapter AnthropicMessagesAccumulator := {|
  adapter_id := "anthropic-messages";
  inspectRequest := λ value _, inspectCommonRequest value ANTHROPIC_REQUEST_SERVICE_TIERS;
  createAccumulator := {| am_facts := no_facts; am_usage := EMPTY_USAGE |};
  observeResponseHeaders := λ headers, on_anthropic_facts (read_header headers "request-id");
  observeJsonResponse := anthropic_json;
  observeStreamEvent := anthropic_event;
  isProtocolTerminal := λ s, af_terminal (am_facts s);
  protocol_snapshot := λ s,
    let f := am_facts s in
    (s, observation_of "anthropic-messages" (anthropic_usage (am_usage s) (invalid_counts (af_flags f)))
          (negb (bool_decide (af_stopReason f = NotReported))) (af_terminal f) f)
|}.
End Anthropic.

(** ** protocols/openai-usage.ts *)
Module OpenAi.

Inductive Dialect := Responses | Chat.

Record OpenAiUsageValues := {
  ov_input : option Z;
  ov_cached : option Z;
  ov_output : option Z;
  ov_reasoning : option Z;
  ov_total : option Z
}.

Definition EMPTY_VALUES : OpenAiUsageValues :=
  {| ov_input := None; ov_cached := None; ov_output := None; ov_reasoning := None; ov_total := None |}.

(** [OpenAiUsageAccumulator], whose flags are those of its protocol. *)
Record OpenAiUsage := { ou_values : OpenAiUsageValues; ou_sawUsage : bool; ou_sawAuthoritative : bool }.

Definition empty_openai_usage : OpenAiUsage := {| ou_values := EMPTY_VALUES; ou_sawUsage := false; ou_sawAuthoritative := false |}.

(** One round of the loop over the fields. *)
Definition merge_openai_field (authoritative : bool) (previous candidate : option Z) (field : string) : Flagged (option Z) :=
  flag_when (conflicts previous candidate) ("conflicting_usage:" +:+ field) ≫= λ _,
  mret (match candidate with
        | None => previous
        | Some _ => if authoritative || bool_decide (previous = None) then candidate else previous
        end).

Definition observe_openai_values (dialect : Dialect) (usage : object jsvalue) (authoritative : bool) (u : OpenAiUsage) : Flagged OpenAiUsage :=
  let pick (responses chat : string) := match dialect with Responses => responses | Chat => chat end in
  input ← readCount (Some usage) (pick "input_tokens" "prompt_tokens");
  cached ← readCount (asRecord (get_value usage (pick "input_tokens_details" "prompt_tokens_details"))) "cached_tokens";
  output ← readCount (Some usage) (pick "output_tokens" "completion_tokens");
  reasoning ← readCount (asRecord (get_value usage (pick "output_tokens_details" "completion_tokens_details"))) "reasoning_tokens";
  total ← readCount (Some usage) "total_tokens";
  flag_when (authoritative && ou_sawAuthoritative u) "duplicate_terminal_usage" ≫= λ _,
  let v := ou_values u in
  input ← merge_openai_field authoritative (ov_input v) input "input";
  cached ← merge_openai_field authoritative (ov_cached v) cached "cached";
  output ← merge_openai_field authoritative (ov_output v) output "output";
  reasoning ← merge_openai_field authoritative (ov_reasoning v) reasoning "reasoning";
  total ← merge_openai_field authoritative (ov_total v) total "total";
  mret {| ou_values := {| ov_input := input; ov_cached := cached; ov_output := output; ov_reasoning := reasoning; ov_total := total |};
          ou_sawUsage := true; ou_sawAuthoritative := authoritative || ou_sawAuthoritative u |}.

Definition observe_usage_value (dialect : Dialect) (value : jsvalue) (authoritative : bool) (u : OpenAiUsage) : Flagged OpenAiUsage :=
  match asRecord value with Some usage => observe_openai_values dialect usage authoritative u | None => mret u end.

(** The flags that a snapshot adds. *)
Definition openai_usage_checks (v : OpenAiUsageValues) : Flagged unit :=
  flag_when (exceeds (ov_cached v) (ov_input v)) "contradictory_usage:cache_exceeds_input" ≫= λ _,
  flag_when (exceeds (ov_reasoning v) (ov_output v)) "contradictory_usage:reasoning_exceeds_output" ≫= λ _,
  flag_when (conflicts (ov_total v) (addCounts [ov_input v; ov_output v])) "contradictory_usage:provider_total".

Definition usage_flags (flags : list string) : list string :=
  mergeQualityFlags [base.filter (λ flag, str_includes flag "usage" || startsWith flag "invalid_count:" = true) flags].

Definition openai_usage (u : OpenAiUsage) (source : string) (flags : list string) : NormalizedUsage :=
  let v := ou_values u in
  let uncached := subtractCount (ov_input v) (ov_cached v) in
  let nonReasoning := subtractCount (ov_output v) (ov_reasoning v) in
  {| inputTokensReported := ov_input v; inputTokensTotal := ov_input v; inputTokensAccuracy := accuracy (ov_input v) ReportedExact;
     inputTokensUncached := uncached; cacheReadInputTokens := ov_cached v; cacheWriteInputTokens := None; toolUseInputTokens := None;
     outputTokensReported := ov_output v; outputTokenSemantics := IncludesThinking; outputTokensTotal := ov_output v;
     outputTokensAccuracy := accuracy (ov_output v) ReportedExact; thinkingTokens := ov_reasoning v;
     thinkingTokensAccuracy := accuracy (ov_reasoning v) ReportedExact; nonThinkingOutputTokens := nonReasoning;
     nonThinkingOutputTokensAccuracy := accuracy nonReasoning DerivedExact; providerTotalTokens := ov_total v;
     canonicalTotalTokens := addCounts [ov_input v; ov_output v]; usage_costUsd := None;
     usageSource := if ou_sawUsage u then Some source else None;
     nu_usageCompleteness := usageCompleteness (ov_input v) (ov_output v) (ou_sawUsage u) (invalid_counts flags);
     usage_qualityFlags := usage_flags flags |}.

Record OpenAiAccumulator := { oa_facts : AccumulatorFacts; oa_usage : OpenAiUsage; oa_sawFinishReason : bool }.

Definition new_openai : OpenAiAccumulator := {| oa_facts := no_facts; oa_usage := empty_openai_usage; oa_sawFinishReason := false |}.

Definition on_openai_facts (f : AccumulatorFacts → AccumulatorFacts) (s : OpenAiAccumulator) : OpenAiAccumulator :=
  {| oa_facts := f (oa_facts s); oa_usage := oa_usage s; oa_sawFinishReason := oa_sawFinishReason s |}.
Definition observe_openai_usage (dialect : Dialect) (value : jsvalue) (authoritative : bool) (s : OpenAiAccumulator) : OpenAiAccumulator :=
  let '(u, f) := on_flags (observe_usage_value dialect value authoritative (oa_usage s)) (oa_facts s) in
  {| oa_facts := f; oa_usage := u; oa_sawFinishReason := oa_sawFinishReason s |}.
Definition saw_finish (s : OpenAiAccumulator) : OpenAiAccumulator :=
  {| oa_facts := oa_facts s; oa_usage := oa_usage s; oa_sawFinishReason := true |}.

(** A snapshot of either dialect. *)
Definition openai_snapshot (protocol source : string) (terminal : bool) (s : OpenAiAccumulator) : OpenAiAccumulator * LlmProtocolObservation :=
  let '(_, f) := on_flags (openai_usage_checks (ou_values (oa_usage s))) (oa_facts s) in
  let usage := openai_usage (oa_usage s) source (af_flags f) in
  (on_openai_facts (λ _, f) s,
   observation_of protocol usage (negb (bool_decide (af_stopReason f = NotReported) && bool_decide (af_refusal f = None))) terminal f).

(** ** protocols/openai-chat-completions.ts *)

Definition finishReason (reason : jsvalue) : NormalizedStopReason * NormalizedTermination * option bool * RefusalSource :=
  let other := (if is_nullish reason then NotReported else OtherStop, TermUnknown, None, RefusalNotReported) in
  match reason with
  | VStr s =>
      if s =? "stop" then (Completed, TermStop, Some false, RefusalNotReported)
      else if s =? "length" then (MaxTokens, TermLength, Some false, RefusalNotReported)
      else if (s =? "tool_calls") || (s =? "function_call") then (ToolUse, TermTool, Some false, RefusalNotReported)
      else if s =? "content_filter" then (ContentFilter, TermContentFilter, Some true, FromContentFilter)
      else other
  | _ => other
  end.

Definition observe_choice (choice : jsvalue) (s : OpenAiAccumulator) : OpenAiAccumulator :=
  match asRecord choice with
  | None => s
  | Some choiceRecord =>
      let '(stop, termination, refusal, source) := finishReason (get_value choiceRecord "finish_reason") in
      let s :=
        if bool_decide (stop = NotReported) then s
        else
          saw_finish (on_openai_facts (λ f,
            let f := flag (oa_sawFinishReason s && negb (bool_decide (af_stopReason f = stop))) "conflicting_stop_reason" f in
            set_outcome termination stop refusal (af_refusalCategory f) source f) s) in
      match some_or (asRecord (get_value choiceRecord "message")) (asRecord (get_value choiceRecord "delta")) with
      | Some message =>
          if negb (is_nullish (get_value message "refusal")) || hasTypedItem (VObj message) ["refusal"] then
            on_openai_facts (mark_refusal FromContentItem) s
          else s
      | None => s
      end
  end.

Definition observeChunk (chunk : object jsvalue) (authoritativeUsage : bool) (s : OpenAiAccumulator) : OpenAiAccumulator :=
  let s := on_openai_facts (observe_identity "model" "id" (asKnownString (get_value chunk "service_tier") SERVICE_TIERS) chunk) s in
  let s := observe_openai_usage Chat (get_value chunk "usage") (authoritativeUsage || oa_sawFinishReason s) s in
  foldl (λ s choice, observe_choice choice s) s (items_of (get_value chunk "choices")).

Definition is_text (value : jsvalue) : bool := match value with VStr _ => true | _ => false end.
Definition is_defined (value : jsvalue) : bool := match value with VUndefined => false | _ => true end.

(** The phase of the choices of a chunk. *)
Fixpoint choices_phase (reasoning : bool) (choices : list jsvalue) : ProtocolEventPhase :=
  match choices with
  | [] => if reasoning then PhaseReasoning else PhaseControl
  | choice :: choices =>
      match asRecord (field_of (asRecord choice) "delta") with
      | None => choices_phase reasoning choices
      | Some delta =>
          if is_text (get_value delta "content") || is_text (get_value delta "refusal") || is_defined (get_value delta "tool_calls")
             || is_defined (get_value delta "function_call") then PhaseOutput
          else choices_phase (reasoning || is_text (get_value delta "reasoning") || is_text (get_value delta "reasoning_content")) choices
      end
  end.

Definition chat_json (value : jsvalue) (s : OpenAiAccumulator) : OpenAiAccumulator :=
  match asRecord value with
  | None => on_openai_facts (flag true "invalid_response_envelope") s
  | Some response => on_openai_facts mark_terminal (observeChunk response true s)
  end.

Definition chat_event (event : ProtocolStreamEvent) (s : OpenAiAccumulator) : OpenAiAccumulator * ProtocolEventPhase :=
  if is_done (se_data event) then (on_openai_facts mark_terminal s, PhaseControl)
  else
    match asRecord (se_data event) with
    | None => (on_openai_facts (flag true "invalid_stream_event") s, PhaseControl)
    | Some chunk => (observeChunk chunk false s, choices_phase false (items_of (get_value chunk "choices")))
    end.

Definition chat_terminal (s : OpenAiAccumulator) : bool := af_terminal (oa_facts s) || oa_sawFinishReason s.

(** The two protocols have accumulators of their own. *)
Record OpenAiChatCompletionsAccumulator := ChatAccumulator { chat_state : OpenAiAccumulator }.
Record OpenAiResponsesAccumulator := ResponsesAccumulator { responses_state : OpenAiAccumulator }.

#[export] Instance OpenAiChatCompletionsAdapter : LlmProtocolAdapter OpenAiChatCompletionsAccumulator := {|
  adapter_id := "openai-chat-completions";
  inspectRequest := λ value _, inspectCommonRequest value SERVICE_TIERS;
  createAccumulator := ChatAccumulator new_openai;
  observeResponseHeaders := λ headers s, ChatAccumulator (on_openai_facts (read_header headers "x-request-id") (chat_state s));
  observeJsonResponse := λ value s, ChatAccumulator (chat_json value (chat_state s));
  observeStreamEvent := λ event s, let '(s, phase) := chat_event event (chat_state s) in (ChatAccumulator s, phase);
  isProtocolTerminal := λ s, chat_terminal (chat_state s);
  protocol_snapshot := λ s,
    let '(s', observation) := openai_snapshot "openai-chat-completions" "openai_chat_usage" (chat_terminal (chat_state s)) (chat_state s) in
    (ChatAccumulator s', observation)
|}.

(** ** protocols/openai-responses.ts *)

Definition responseStatus (status : jsvalue) : NormalizedStopReason * NormalizedTermination :=
  match status with
  | VUndefined | VNull => (NotReported, TermUnknown)
  | VStr s =>
      if s =? "completed" then (Completed, TermStop)
      else if s =? "incomplete" then (Incomplete, TermLength)
      else if s =? "failed" then (Failed, TermError)
      else if s =? "cancelled" then (Cancelled, TermAborted)
      else if (s =? "queued") || (s =? "in_progress") then (NotReported, TermUnknown)
      else (OtherStop, TermUnknown)
  | _ => (OtherStop, TermUnknown)
  end.

Definition response_outcome (response : object jsvalue) (f : AccumulatorFacts) : AccumulatorFacts :=
  let '(stop, termination) := responseStatus (get_value response "status") in
  let f :=
    if bool_decide (stop = NotReported) then f
    else
      let refusal := if bool_decide (termination = TermStop) || bool_decide (termination = TermLength) || bool_decide (termination = TermTool)
                     then Some false else af_refusal f in
      set_outcome termination stop refusal (af_refusalCategory f) (af_refusalSource f) f in
  let f :=
    if is_str (field_of (asRecord (get_value response "incomplete_details")) "reason") "content_filter" then
      set_outcome TermContentFilter ContentFilter (Some true) (af_refusalCategory f) FromContentFilter f
    else f in
  if hasTypedItem (VObj response) ["refusal"] then mark_refusal FromContentItem f else f.

Definition observeResponsesResponse (response : object jsvalue) (terminal : bool) (s : OpenAiAccumulator) : OpenAiAccumulator :=
  let s := on_openai_facts (observe_identity "model" "id" (asKnownString (get_value response "service_tier") SERVICE_TIERS) response) s in
  on_openai_facts (response_outcome response) (observe_openai_usage Responses (get_value response "usage") terminal s).

Definition responses_json (value : jsvalue) (s : OpenAiAccumulator) : OpenAiAccumulator :=
  match asRecord value with
  | None => on_openai_facts (flag true "invalid_response_envelope") s
  | Some response => on_openai_facts mark_terminal (observeResponsesResponse response true s)
  end.

Definition TERMINAL_EVENTS : list string := ["response.completed"; "response.incomplete"; "response.failed"; "response.cancelled"].
Definition OUTPUT_DELTAS : list string :=
  ["response.output_text.delta"; "response.refusal.delta"; "response.function_call_arguments.delta"; "response.mcp_call_arguments.delta";
   "response.custom_tool_call_input.delta"].

Definition type_phase (type : option string) : ProtocolEventPhase :=
  match type with
  | Some type =>
      if endsWith type ".delta" then
        if str_includes type "reasoning" then PhaseReasoning
        else if includes OUTPUT_DELTAS type then PhaseOutput else PhaseControl
      else PhaseControl
  | None => PhaseControl
  end.

Definition responses_event (event : ProtocolStreamEvent) (s : OpenAiAccumulator) : OpenAiAccumulator * ProtocolEventPhase :=
  if is_done (se_data event) then (s, PhaseControl)
  else
    match asRecord (se_data event) with
    | None => (on_openai_facts (flag true "invalid_stream_event") s, PhaseControl)
    | Some payload =>
        let type := event_type payload event in
        let isTerminal := from_option (includes TERMINAL_EVENTS) false type in
        let s := match asRecord (get_value payload "response") with Some response => observeResponsesResponse response isTerminal s | None => s end in
        let s := if known type "response.refusal.done" || hasTypedItem (get_value payload "item") ["refusal"] then
                   on_openai_facts (mark_refusal FromContentItem) s else s in
        let s := if isTerminal then on_openai_facts mark_terminal s else s in
        (s, type_phase type)
    end.

#[export] Instance OpenAiResponsesAdapter : LlmProtocolAdapter OpenAiResponsesAccumulator := {|
  adapter_id := "openai-responses";
  inspectRequest := λ value _, inspectCommonRequest value SERVICE_TIERS;
  createAccumulator := ResponsesAccumulator new_openai;
  observeResponseHeaders := λ headers s, ResponsesAccumulator (on_openai_facts (read_header headers "x-request-id") (responses_state s));
  observeJsonResponse := λ value s, ResponsesAccumulator (responses_json value (responses_state s));
  observeStreamEvent := λ event s, let '(s, phase) := responses_event event (responses_state s) in (ResponsesAccumulator s, phase);
  isProtocolTerminal := λ s, af_terminal (oa_facts (responses_state s));
  protocol_snapshot := λ s,
    let '(s', observation) := openai_snapshot "openai-responses" "openai_responses_usage" (af_terminal (oa_facts (responses_state s))) (responses_state s) in
    (ResponsesAccumulator s', observation)
|}.
End OpenAi.

(** ** protocols/google-generate-content.ts *)
Module Google.

Record GoogleUsageValues := {
  gv_prompt : option Z;
  gv_cached : option Z;
  gv_candidates : option Z;
  gv_thoughts : option Z;
  gv_toolUsePrompt : option Z;
  gv_total : option Z
}.

Definition no_values : GoogleUsageValues :=
  {| gv_prompt := None; gv_cached := None; gv_candidates := None; gv_thoughts := None; gv_toolUsePrompt := None; gv_total := None |}.

(** [GOOGLE_ADDITIVE_USAGE_FIELDS]: each field with its value and its key. *)
Definition additive_fields (v : GoogleUsageValues) : list (string * option Z * string) :=
  [("prompt", gv_prompt v, "promptTokenCount"); ("candidates", gv_candidates v, "candidatesTokenCount");
   ("thoughts", gv_thoughts v, "thoughtsTokenCount"); ("toolUsePrompt", gv_toolUsePrompt v, "toolUsePromptTokenCount")].

Definition set_field (field : string) (value : Z) (v : GoogleUsageValues) : GoogleUsageValues :=
  let put name previous := if field =? name then Some value else previous in
  {| gv_prompt := put "prompt" (gv_prompt v); gv_cached := gv_cached v; gv_candidates := put "candidates" (gv_candidates v);
     gv_thoughts := put "thoughts" (gv_thoughts v); gv_toolUsePrompt := put "toolUsePrompt" (gv_toolUsePrompt v); gv_total := gv_total v |}.

(** The loop over the additive fields: the missing ones and the sum of the others. *)
Inductive FieldScan := Scanned (missing : list string) (knownTotal : Z) | GivenUp (contradictory : bool).

Fixpoint scan_fields (usage : object jsvalue) (fields : list (string * option Z * string)) (missing : list string) (knownTotal : Z) : FieldScan :=
  match fields with
  | [] => Scanned missing knownTotal
  | (field, value, wireField) :: fields =>
      match value with
      | None =>
          if obj_has usage wireField && negb (match get_value usage wireField with VNull => true | _ => false end) then GivenUp false
          else scan_fields usage fields (missing ++ [field]) knownTotal
      | Some value =>
          if is_safe_integer (knownTotal + value) then scan_fields usage fields missing (knownTotal + value) else GivenUp true
      end
  end.

(** Missing fields are exact when the rest of the total forces them. *)
Definition reconcileGoogleUsage (usage : object jsvalue) (values : GoogleUsageValues) : Flagged (GoogleUsageValues * list string) :=
  match gv_total values with
  | None => mret (values, [])
  | Some total =>
      match scan_fields usage (additive_fields values) [] 0 with
      | GivenUp contradictory => flag_when contradictory "contradictory_usage:provider_total" ≫= λ _, mret (values, [])
      | Scanned missing knownTotal =>
          let remainder := total - knownTotal in
          if (remainder <? 0) || bool_decide (missing = []) && negb (remainder =? 0) then
            add_flag "contradictory_usage:provider_total" ≫= λ _, mret (values, [])
          else if bool_decide (missing = []) || negb (remainder =? 0) && (2 <=? length missing)%nat then mret (values, [])
          else if remainder =? 0 then mret (foldl (λ v field, set_field field 0 v) values missing, missing)
          else mret (foldl (λ v field, set_field field remainder v) values (take 1 missing), take 1 missing)
      end
  end.

Definition googleFinishReason (reason : jsvalue) : NormalizedStopReason * NormalizedTermination * option bool * RefusalSource :=
  let other := (if is_nullish reason then NotReported else OtherStop, TermUnknown, None, RefusalNotReported) in
  match reason with
  | VStr s =>
      if s =? "STOP" then (Completed, TermStop, Some false, RefusalNotReported)
      else if s =? "MAX_TOKENS" then (MaxTokens, TermLength, Some false, RefusalNotReported)
      else if includes ["SAFETY"; "RECITATION"; "PROHIBITED_CONTENT"; "SPII"; "IMAGE_SAFETY"] s then
        (ContentFilter, TermContentFilter, Some true, FromContentFilter)
      else if includes ["MALFORMED_FUNCTION_CALL"; "UNEXPECTED_TOOL_CALL"] s then (ToolUse, TermTool, Some false, RefusalNotReported)
      else other
  | _ => other
  end.

(** A model segment and the method after it, to the end of the path. *)
Fixpoint model_segment (segment rest : string) : option (string * bool) :=
  match rest with
  | "" => None
  | String a rest =>
      if a =? ":"%char then
        if segment =? "" then None
        else if rest =? "generateContent" then Some (segment, false)
        else if rest =? "streamGenerateContent" then Some (segment, true)
        else None
      else if a =? "/"%char then None
      else model_segment (segment +:+ String a "") rest
  end.

(** The first match of the expression in the path. *)
Fixpoint match_models (path : string) : option (string * bool) :=
  match (if startsWith path "/models/" then model_segment "" (str_drop 8 path) else None) with
  | Some found => Some found
  | None => match path with "" => None | String _ path => match_models path end
  end.

Definition extractModelFromPath (path : string) : Flagged (option string * option bool) :=
  if path =? "" then mret (None, None)
  else
    match match_models path with
    | None => add_flag "invalid_google_completion_path" ≫= λ _, mret (None, None)
    | Some (segment, streaming) =>
        match decodeURIComponent segment with
        | None => add_flag "invalid_google_model_encoding" ≫= λ _, mret (None, Some streaming)
        | Some decoded =>
            let model := asIdentifier (VStr decoded) in
            flag_when (bool_decide (model = None)) "invalid_identifier:model" ≫= λ _, mret (model, Some streaming)
        end
    end.

Record GoogleGenerateContentAccumulator := {
  ga_facts : AccumulatorFacts;
  ga_sawUsage : bool;
  ga_sawAuthoritativeUsage : bool;
  ga_usage : GoogleUsageValues;
  ga_derived : list string
}.

Definition new_google : GoogleGenerateContentAccumulator :=
  {| ga_facts := no_facts; ga_sawUsage := false; ga_sawAuthoritativeUsage := false; ga_usage := no_values; ga_derived := [] |}.

Definition on_google_facts (f : AccumulatorFacts → AccumulatorFacts) (s : GoogleGenerateContentAccumulator) : GoogleGenerateContentAccumulator :=
  {| ga_facts := f (ga_facts s); ga_sawUsage := ga_sawUsage s; ga_sawAuthoritativeUsage := ga_sawAuthoritativeUsage s;
     ga_usage := ga_usage s; ga_derived := ga_derived s |}.

Definition regresses (previous candidate : option Z) : bool :=
  match previous, candidate with Some previous, Some candidate => candidate <? previous | _, _ => false end.

(** One round of the loop over the fields; [takes] says whether the value is taken. *)
Definition merge_google_field (takes : bool) (previous candidate : option Z) (field : string) : Flagged (option Z) :=
  flag_when (regresses previous candidate) ("regressing_cumulative_usage:" +:+ field) ≫= λ _,
  mret (if takes then candidate else previous).

(** What is derived of an additive field, once its value is taken. *)
Definition mark_derived (takes : bool) (candidate : option Z) (derived_now : list string) (field : string) (derived : list string) : list string :=
  if negb takes then derived
  else if negb (bool_decide (candidate = None)) && includes derived_now field then js_set_add field derived
  else js_set_delete field derived.

Definition observe_google_values (usage : object jsvalue) (authoritative : bool) (s : GoogleGenerateContentAccumulator) : Flagged GoogleGenerateContentAccumulator :=
  prompt ← readCount (Some usage) "promptTokenCount";
  cached ← readCount (Some usage) "cachedContentTokenCount";
  candidates ← readCount (Some usage) "candidatesTokenCount";
  thoughts ← readCount (Some usage) "thoughtsTokenCount";
  toolUsePrompt ← readCount (Some usage) "toolUsePromptTokenCount";
  total ← readCount (Some usage) "totalTokenCount";
  next ← reconcileGoogleUsage usage {| gv_prompt := prompt; gv_cached := cached; gv_candidates := candidates; gv_thoughts := thoughts;
                                       gv_toolUsePrompt := toolUsePrompt; gv_total := total |};
  let '(v, derived_now) := next in
  flag_when (authoritative && ga_sawAuthoritativeUsage s) "duplicate_terminal_usage" ≫= λ _,
  let takes := authoritative || negb (ga_sawAuthoritativeUsage s) in
  let u := ga_usage s in
  prompt ← merge_google_field takes (gv_prompt u) (gv_prompt v) "prompt";
  cached ← merge_google_field takes (gv_cached u) (gv_cached v) "cached";
  candidates ← merge_google_field takes (gv_candidates u) (gv_candidates v) "candidates";
  thoughts ← merge_google_field takes (gv_thoughts u) (gv_thoughts v) "thoughts";
  toolUsePrompt ← merge_google_field takes (gv_toolUsePrompt u) (gv_toolUsePrompt v) "toolUsePrompt";
  total ← merge_google_field takes (gv_total u) (gv_total v) "total";
  let derived := mark_derived takes (gv_prompt v) derived_now "prompt" (ga_derived s) in
  let derived := mark_derived takes (gv_candidates v) derived_now "candidates" derived in
  let derived := mark_derived takes (gv_thoughts v) derived_now "thoughts" derived in
  let derived := mark_derived takes (gv_toolUsePrompt v) derived_now "toolUsePrompt" derived in
  mret {| ga_facts := ga_facts s; ga_sawUsage := true; ga_sawAuthoritativeUsage := authoritative || ga_sawAuthoritativeUsage s;
          ga_usage := {| gv_prompt := prompt; gv_cached := cached; gv_candidates := candidates; gv_thoughts := thoughts;
                         gv_toolUsePrompt := toolUsePrompt; gv_total := total |};
          ga_derived := derived |}.

Definition observeUsage (usage : jsvalue) (authoritative : bool) (s : GoogleGenerateContentAccumulator) : GoogleGenerateContentAccumulator :=
  match asRecord usage with
  | None => s
  | Some usage => let '(s', f) := on_flags (observe_google_values usage authoritative s) (ga_facts s) in on_google_facts (λ _, f) s'
  end.

(** A candidate that finished; whether the usage is terminal is kept beside the facts. *)
Definition observe_candidate (candidate : jsvalue) (state : AccumulatorFacts * bool) : AccumulatorFacts * bool :=
  match asRecord candidate with
  | None => state
  | Some candidateRecord =>
      let '(f, terminalUsage) := state in
      let '(stop, termination, refusal, source) := googleFinishReason (get_value candidateRecord "finishReason") in
      if bool_decide (stop = NotReported) then state
      else
        let f := flag (negb (bool_decide (af_stopReason f = NotReported)) && negb (bool_decide (af_stopReason f = stop))) "conflicting_stop_reason" f in
        (set_terminal (set_outcome termination stop refusal (af_refusalCategory f) source f), true)
  end.

Definition observeGoogleResponse (response : object jsvalue) (wholeJsonResponse : bool) (s : GoogleGenerateContentAccumulator) : GoogleGenerateContentAccumulator :=
  let s := on_google_facts (observe_identity "modelVersion" "responseId" None response) s in
  let f := ga_facts s in
  let '(f, terminalUsage) :=
    if OpenAi.is_defined (field_of (asRecord (get_value response "promptFeedback")) "blockReason") then
      (set_terminal (set_outcome TermContentFilter ContentFilter (Some true) (af_refusalCategory f) FromPromptFeedback f), true)
    else (f, wholeJsonResponse) in
  let '(f, terminalUsage) := foldl (λ state candidate, observe_candidate candidate state) (f, terminalUsage) (items_of (get_value response "candidates")) in
  observeUsage (get_value response "usageMetadata") terminalUsage (on_google_facts (λ _, f) s).

Definition google_json (value : jsvalue) (s : GoogleGenerateContentAccumulator) : GoogleGenerateContentAccumulator :=
  match asRecord value with
  | None => on_google_facts (flag true "invalid_response_envelope") s
  | Some response =>
      let alreadyTerminal := af_terminal (ga_facts s) in
      on_google_facts (λ f, set_terminal (flag alreadyTerminal "duplicate_protocol_terminal" f)) (observeGoogleResponse response true s)
  end.

(** The parts of a candidate: [None] once one is output, else whether there was reasoning. *)
Fixpoint parts_phase (reasoning : bool) (parts : list jsvalue) : option bool :=
  match parts with
  | [] => Some reasoning
  | part :: parts =>
      match asRecord part with
      | None => parts_phase reasoning parts
      | Some record =>
          let generated := OpenAi.is_text (get_value record "text") || OpenAi.is_defined (get_value record "functionCall") in
          let thought := match get_value record "thought" with VBool true => true | _ => false end in
          if generated && negb thought then None else parts_phase (reasoning || generated && thought) parts
      end
  end.

Definition candidates_phase (candidates : list jsvalue) : ProtocolEventPhase :=
  match parts_phase false (mjoin ((λ candidate, items_of (field_of (asRecord (field_of (asRecord candidate) "content")) "parts")) <$> candidates)) with
  | None => PhaseOutput
  | Some reasoning => if reasoning then PhaseReasoning else PhaseControl
  end.

Definition google_event (event : ProtocolStreamEvent) (s : GoogleGenerateContentAccumulator) : GoogleGenerateContentAccumulator * ProtocolEventPhase :=
  match asRecord (se_data event) with
  | None => (on_google_facts (flag true "invalid_stream_event") s, PhaseControl)
  | Some response => (observeGoogleResponse response false s, candidates_phase (items_of (get_value response "candidates")))
  end.

Definition google_totals (v : GoogleUsageValues) : option Z * option Z :=
  (addCounts [gv_prompt v; gv_toolUsePrompt v], addCounts [gv_candidates v; gv_thoughts v]).

Definition google_usage_checks (v : GoogleUsageValues) : Flagged unit :=
  let '(input, output) := google_totals v in
  flag_when (exceeds (gv_cached v) (gv_prompt v)) "contradictory_usage:cache_exceeds_input" ≫= λ _,
  flag_when (conflicts (gv_total v) (addCounts [input; output])) "contradictory_usage:provider_total".

(** [None] for what was derived. *)
Definition reported (derived : list string) (field : string) (value : option Z) : option Z := if includes derived field then None else value.
Definition reported_accuracy (derived : list string) (field : string) (value : option Z) : TokenMeasurementAccuracy :=
  accuracy value (if includes derived field then DerivedExact else ReportedExact).

Definition google_usage (s : GoogleGenerateContentAccumulator) (flags : list string) : NormalizedUsage :=
  let v := ga_usage s in
  let '(input, output) := google_totals v in
  {| inputTokensReported := reported (ga_derived s) "prompt" (gv_prompt v); inputTokensTotal := input;
     inputTokensAccuracy := accuracy input DerivedExact;
     inputTokensUncached :=
       match gv_cached v with
       | Some cached => if cached <=? default (-1) (gv_prompt v) then subtractCount input (Some cached) else None
       | None => None
       end;
     cacheReadInputTokens := gv_cached v; cacheWriteInputTokens := None; toolUseInputTokens := gv_toolUsePrompt v;
     outputTokensReported := reported (ga_derived s) "candidates" (gv_candidates v); outputTokenSemantics := ExcludesThinking;
     outputTokensTotal := output; outputTokensAccuracy := accuracy output DerivedExact; thinkingTokens := gv_thoughts v;
     thinkingTokensAccuracy := reported_accuracy (ga_derived s) "thoughts" (gv_thoughts v);
     nonThinkingOutputTokens := gv_candidates v;
     nonThinkingOutputTokensAccuracy := reported_accuracy (ga_derived s) "candidates" (gv_candidates v);
     providerTotalTokens := gv_total v; canonicalTotalTokens := addCounts [input; output]; usage_costUsd := None;
     usageSource := if ga_sawUsage s then Some "google_usage_metadata" else None;
     nu_usageCompleteness := usageCompleteness input output (ga_sawUsage s) (invalid_counts flags);
     usage_qualityFlags := OpenAi.usage_flags flags |}.

Definition google_request (value : jsvalue) (path : string) : LlmRequestFacts :=
  let common := inspectCommonRequest value SERVICE_TIERS in
  let body := asRecord value in
  let thinkingConfig := asRecord (field_of (asRecord (field_of body "generationConfig")) "thinkingConfig") in
  let includeThoughts := asBoolean (field_of thinkingConfig "includeThoughts") in
  let thinkingLevel := asKnownString (field_of thinkingConfig "thinkingLevel") ["MINIMAL"; "LOW"; "MEDIUM"; "HIGH"] in
  let '((model, streaming, budget), flags) :=
    (pathFacts ← extractModelFromPath path;
     budget ← readCount thinkingConfig "thinkingBudget";
     flag_when (negb (is_nullish (field_of thinkingConfig "thinkingLevel")) && bool_decide (thinkingLevel = None)) "unknown_reasoning_effort" ≫= λ _,
     mret (pathFacts.1, pathFacts.2, budget)) (rf_qualityFlags common) in
  {| rf_requestedModel := model; rf_streaming := streaming; rf_requestedServiceTier := rf_requestedServiceTier common;
     rf_reasoningMode := if bool_decide (includeThoughts = Some true) || negb (bool_decide (budget = None)) then ModeEnabled
                         else rf_reasoningMode common;
     rf_reasoningEffort := thinkingLevel; rf_thinkingBudgetTokens := budget; rf_speedMode := rf_speedMode common;
     rf_qualityFlags := sorted_flags flags |}.

#[export] Instance GoogleGenerateContentAdapter : LlmProtocolAdapter GoogleGenerateContentAccumulator := {|
  adapter_id := "google-generate-content";
  inspectRequest := google_request;
  createAccumulator := new_google;
  observeResponseHeaders := λ headers, on_google_facts (read_header headers "x-goog-request-id");
  observeJsonResponse := google_json;
  observeStreamEvent := google_event;
  isProtocolTerminal := λ s, af_terminal (ga_facts s);
  protocol_snapshot := λ s,
    let '(_, f) := on_flags (google_usage_checks (ga_usage s)) (ga_facts s) in
    (on_google_facts (λ _, f) s,
     observation_of "google-generate-content" (google_usage s (af_flags f)) (negb (bool_decide (af_stopReason f = NotReported))) (af_terminal f) f)
|}.
End Google.

(** ** protocol-registry.ts *)

Definition BUILT_IN_PROTOCOLS : list string :=
  ["anthropic-messages"; "openai-responses"; "openai-chat-completions"; "google-generate-content"].

(** [register] over the adapters' ids; an id that is taken throws. *)
Fixpoint register_adapters (ids registered : list string) : result (list string) :=
  match ids with
  | [] => Ok registered
  | id :: ids =>
      if includes registered id then Throw ("LLM protocol adapter already registered: " +:+ id)
      else register_adapters ids (registered ++ [id])
  end.
