(* ===== verification/LlmExchange.v ===== *)
(** * One exchange with a language model, from its request to its record

    Models llm-metrics/gateways/*.ts, exchange-observer.ts and observed-usage-accumulator.ts.
    The observer of an exchange is a state machine over the calls it gets: from the proxy,
    which knows the request, the transport and the delivery, and from the response
    observation hub.  Its protocol and its gateway are any instances of the two
    interfaces.  Offsets are read from a clock that the calls carry. *)

From Stdlib Require Import Ascii ZArith QArith Qcanon.
From stdpp Require Import sorting.
From S2P Require Import Prelude Numbers JsValue Hashing Sse ObservationHub LlmMetrics.

Local Open Scope Z_scope.
Local Open Scope curtain_scope.

(** ** gateways/common.ts *)

Inductive IdentitySource :=
  FromRequest | FromForwardedRequest | FromProtocolResponse | FromProtocolResponseDirect | FromRouterMetadata
| FromTrustedGatewayHeader | FromConfiguredRoute | NotExposed.

Record SourcedIdentity := { si_value : option string; si_source : IdentitySource }.

(** An identity with its source when there is one. *)
Definition sourced (value : option string) (present : IdentitySource) : SourcedIdentity :=
  {| si_value := value; si_source := match value with None => NotExposed | Some _ => present end |}.

Record GatewayRouteAttempt := {
  ra_ordinal : Z;
  ra_provider : option string;
  ra_model : option string;
  ra_status : option Z;
  ra_selected : option bool;
  ra_source : IdentitySource
}.

Record GatewayObservation := {
  go_servedModel : SourcedIdentity;
  go_servedProvider : SourcedIdentity;
  go_generationId : option string;
  go_costUsd : option Qc;
  go_routeAttempts : list GatewayRouteAttempt;
  go_qualityFlags : list string
}.

Definition notExposedIdentity : SourcedIdentity := sourced None NotExposed.
Definition emptyGatewayObservation : GatewayObservation :=
  {| go_servedModel := notExposedIdentity; go_servedProvider := notExposedIdentity; go_generationId := None; go_costUsd := None;
     go_routeAttempts := []; go_qualityFlags := [] |}.

Definition MAX_GATEWAY_ROUTE_ATTEMPTS : nat := 64.

Definition readHeader (headers : GatewayResponseHeaders) (wanted : string) : option string :=
  find_header headers wanted ≫= single_header.

Definition route_attempt (source : IdentitySource) (includeSelected : bool) (index : nat) (attempt : jsvalue) : Flagged GatewayRouteAttempt :=
  let record := asRecord attempt in
  let provider := asProviderIdentifier (field_of record "provider") in
  let model := asIdentifier (field_of record "model") in
  let status := asSafeCount (field_of record "status") ≫= λ n, if (100 <=? n) && (n <=? 599) then Some n else None in
  let missing {A} (value : jsvalue) (read : option A) := negb (is_nullish value) && match read with None => true | Some _ => false end in
  flag_when (missing (field_of record "provider") provider) "invalid_route_provider" ≫= λ _,
  flag_when (missing (field_of record "model") model) "invalid_route_model" ≫= λ _,
  flag_when (missing (field_of record "status") status) "invalid_route_status" ≫= λ _,
  mret {| ra_ordinal := Z.of_nat index + 1; ra_provider := provider; ra_model := model; ra_status := status;
          ra_selected := if includeSelected then asBoolean (field_of record "selected") else None; ra_source := source |}.

Fixpoint route_attempts (source : IdentitySource) (includeSelected : bool) (index : nat) (attempts : list jsvalue) : Flagged (list GatewayRouteAttempt) :=
  match attempts with
  | [] => mret []
  | attempt :: attempts =>
      first ← route_attempt source includeSelected index attempt;
      rest ← route_attempts source includeSelected (S index) attempts;
      mret (first :: rest)
  end.

Definition parseGatewayRouteAttempts (value : jsvalue) (source : IdentitySource) (truncatedFlag : string) (includeSelected : bool) :
    Flagged (list GatewayRouteAttempt) :=
  match asArray value with
  | None => mret []
  | Some attempts =>
      flag_when (MAX_GATEWAY_ROUTE_ATTEMPTS <? length attempts)%nat truncatedFlag ≫= λ _,
      route_attempts source includeSelected 0 (take MAX_GATEWAY_ROUTE_ATTEMPTS attempts)
  end.

(** [LlmGatewayAdapter] with its accumulator. *)
Class LlmGatewayAdapter (G : Type) := {
  createGateway : G;
  observeHeaders : GatewayResponseHeaders → G → G;
  observePayload : jsvalue → G → G;
  gateway_snapshot : LlmProtocolObservation → G → GatewayObservation
}.

(** ** gateways/opaque.ts and direct.ts *)

Record OpaqueGatewayAccumulator := NewOpaque {}.

#[export] Instance OpaqueGatewayAdapter : LlmGatewayAdapter OpaqueGatewayAccumulator := {|
  createGateway := NewOpaque;
  observeHeaders := λ _ g, g;
  observePayload := λ _ g, g;
  gateway_snapshot := λ _ _, emptyGatewayObservation
|}.

Record DirectGatewayAccumulator := NewDirect {}.

Definition direct_snapshot (providerId : string) (officialOrigin : bool) (protocol : LlmProtocolObservation) : GatewayObservation :=
  let provider := asProviderIdentifier (VStr providerId) in
  if negb officialOrigin then
    {| go_servedModel := notExposedIdentity; go_servedProvider := notExposedIdentity; go_generationId := None; go_costUsd := None;
       go_routeAttempts := []; go_qualityFlags := ["unverified_direct_origin"] |}
  else
    {| go_servedModel := sourced (po_responseModel protocol) FromProtocolResponseDirect; go_servedProvider := sourced provider FromConfiguredRoute;
       go_generationId := None; go_costUsd := None; go_routeAttempts := [];
       go_qualityFlags := if bool_decide (provider = None) then ["invalid_configured_provider_id"] else [] |}.

Definition DirectGatewayAdapter (providerId : string) (officialOrigin : bool) : LlmGatewayAdapter DirectGatewayAccumulator := {|
  createGateway := NewDirect;
  observeHeaders := λ _ g, g;
  observePayload := λ _ g, g;
  gateway_snapshot := λ protocol _, direct_snapshot providerId officialOrigin protocol
|}.

(** ** gateways/ironcurtain.ts *)
Module IronCurtain.

Record IronCurtainGatewayAccumulator := {
  ic_model : option string;
  ic_provider : option string;
  ic_generationId : option string;
  ic_attempts : list GatewayRouteAttempt;
  ic_contractSeen : bool;
  ic_flags : list string
}.

Definition new_ironcurtain : IronCurtainGatewayAccumulator :=
  {| ic_model := None; ic_provider := None; ic_generationId := None; ic_attempts := []; ic_contractSeen := false; ic_flags := [] |}.

Definition put_flags (flags : list string) (g : IronCurtainGatewayAccumulator) : IronCurtainGatewayAccumulator :=
  {| ic_model := ic_model g; ic_provider := ic_provider g; ic_generationId := ic_generationId g; ic_attempts := ic_attempts g;
     ic_contractSeen := ic_contractSeen g; ic_flags := flags |}.

(** [observeIdentity], in a contract that was seen; [None] leaves the id and the attempts. *)
Definition observe_contract (provider model : jsvalue) (id : option string) (attempts : Flagged (list GatewayRouteAttempt)) (id_flag : bool)
    (g : IronCurtainGatewayAccumulator) : IronCurtainGatewayAccumulator :=
  let provider_id := asProviderIdentifier provider in
  let model_id := asIdentifier model in
  let '(attempts, flags) :=
    (flag_when (negb (is_nullish provider) && bool_decide (provider_id = None)) "invalid_served_provider" ≫= λ _,
     flag_when (negb (is_nullish model) && bool_decide (model_id = None)) "invalid_served_model" ≫= λ _,
     flag_when id_flag "invalid_ironcurtain_request_id" ≫= λ _, attempts) (ic_flags g) in
  {| ic_model := some_or model_id (ic_model g); ic_provider := some_or provider_id (ic_provider g);
     ic_generationId := some_or id (ic_generationId g); ic_attempts := attempts; ic_contractSeen := true; ic_flags := flags |}.

Definition text_value (s : option string) : jsvalue := match s with Some s => VStr s | None => VNull end.

Definition ironcurtain_headers (headers : GatewayResponseHeaders) (g : IronCurtainGatewayAccumulator) : IronCurtainGatewayAccumulator :=
  match readHeader headers "x-ironcurtain-route-version" with
  | None => g
  | Some version =>
      if negb (version =? "1") then put_flags (js_set_add "unsupported_ironcurtain_route_version" (ic_flags g)) g
      else
        observe_contract (text_value (readHeader headers "x-ironcurtain-served-provider"))
          (text_value (readHeader headers "x-ironcurtain-served-model"))
          (asIdentifier (text_value (readHeader headers "x-ironcurtain-request-id"))) (mret (ic_attempts g)) false g
  end.

Definition is_one (value : jsvalue) : bool := match value with VNum n => bool_decide (n = num_of_Z 1) | _ => false end.

Definition ironcurtain_payload (value : jsvalue) (g : IronCurtainGatewayAccumulator) : IronCurtainGatewayAccumulator :=
  match asRecord (field_of (asRecord value) "ironcurtain_route") with
  | None => g
  | Some contract =>
      if negb (is_one (get_value contract "version")) then put_flags (js_set_add "unsupported_ironcurtain_route_version" (ic_flags g)) g
      else
        let id := asIdentifier (get_value contract "request_id") in
        observe_contract (get_value contract "served_provider") (get_value contract "served_model") id
          (parseGatewayRouteAttempts (get_value contract "attempts") FromTrustedGatewayHeader "ironcurtain_attempts_truncated" true)
          (OpenAi.is_defined (get_value contract "request_id") && bool_decide (id = None)) g
  end.

#[export] Instance IronCurtainGatewayAdapter : LlmGatewayAdapter IronCurtainGatewayAccumulator := {|
  createGateway := new_ironcurtain;
  observeHeaders := ironcurtain_headers;
  observePayload := ironcurtain_payload;
  gateway_snapshot := λ _ g,
    {| go_servedModel := sourced (ic_model g) FromTrustedGatewayHeader; go_servedProvider := sourced (ic_provider g) FromTrustedGatewayHeader;
       go_generationId := ic_generationId g; go_costUsd := None; go_routeAttempts := ic_attempts g;
       go_qualityFlags := sorted_flags (ic_flags g ++ (if ic_contractSeen g then [] else ["trusted_route_metadata_missing"])) |}
|}.
End IronCurtain.

(** ** gateways/openrouter.ts *)
Module OpenRouter.

Record OpenRouterGatewayAccumulator := {
  or_servedModel : option string;
  or_servedProvider : option string;
  or_generationId : option string;
  or_costUsd : option Qc;
  or_routeAttempts : list GatewayRouteAttempt;
  or_flags : list string
}.

Definition new_openrouter : OpenRouterGatewayAccumulator :=
  {| or_servedModel := None; or_servedProvider := None; or_generationId := None; or_costUsd := None; or_routeAttempts := []; or_flags := [] |}.

Definition openrouter_headers (headers : GatewayResponseHeaders) (g : OpenRouterGatewayAccumulator) : OpenRouterGatewayAccumulator :=
  match readHeader headers "x-generation-id" with
  | None => g
  | Some raw =>
      let id := asIdentifier (VStr raw) in
      {| or_servedModel := or_servedModel g; or_servedProvider := or_servedProvider g; or_generationId := some_or id (or_generationId g);
         or_costUsd := or_costUsd g; or_routeAttempts := or_routeAttempts g;
         or_flags := (flag_when (bool_decide (id = None)) "invalid_generation_id" (or_flags g)).2 |}
  end.

(** [asRecord(payload[key]) ?? asRecord(response?.[key]) ?? asRecord(message?.[key])] *)
Definition nested_record (payload : object jsvalue) (key : string) : option (object jsvalue) :=
  some_or (asRecord (get_value payload key))
    (some_or (asRecord (field_of (asRecord (get_value payload "response")) key))
       (asRecord (field_of (asRecord (get_value payload "message")) key))).

Definition observe_cost (usage : option (object jsvalue)) (g : OpenRouterGatewayAccumulator) : OpenRouterGatewayAccumulator :=
  match usage ≫= λ usage, obj_get usage "cost" with
  | None => g
  | Some value =>
      let cost := asFiniteCost value in
      let conflict := match cost, or_costUsd g with Some cost, Some previous => negb (bool_decide (previous = cost)) | _, _ => false end in
      let '(_, flags) := (flag_when (bool_decide (cost = None)) "invalid_cost" ≫= λ _, flag_when conflict "conflicting_cost") (or_flags g) in
      {| or_servedModel := or_servedModel g; or_servedProvider := or_servedProvider g; or_generationId := or_generationId g;
         or_costUsd := some_or cost (or_costUsd g); or_routeAttempts := or_routeAttempts g; or_flags := flags |}
  end.

Definition is_selected (entry : jsvalue) : bool := match field_of (asRecord entry) "selected" with VBool true => true | _ => false end.

Definition observeMetadata (metadata : object jsvalue) (g : OpenRouterGatewayAccumulator) : OpenRouterGatewayAccumulator :=
  let available := items_of (field_of (asRecord (get_value metadata "endpoints")) "available") in
  let selected := list_find (λ entry, is_selected entry = true) (take MAX_GATEWAY_ROUTE_ATTEMPTS available) ≫= λ found, asRecord found.2 in
  let provider := asProviderIdentifier (field_of selected "provider") in
  let model := asIdentifier (field_of selected "model") in
  let '(attempts, flags) :=
    (flag_when (MAX_GATEWAY_ROUTE_ATTEMPTS <? length available)%nat "router_endpoints_truncated" ≫= λ _,
     flag_when (OpenAi.is_defined (field_of selected "provider") && bool_decide (provider = None)) "invalid_served_provider" ≫= λ _,
     flag_when (OpenAi.is_defined (field_of selected "model") && bool_decide (model = None)) "invalid_served_model" ≫= λ _,
     parseGatewayRouteAttempts (get_value metadata "attempts") FromRouterMetadata "router_attempts_truncated" false) (or_flags g) in
  {| or_servedModel := some_or model (or_servedModel g); or_servedProvider := some_or provider (or_servedProvider g);
     or_generationId := or_generationId g; or_costUsd := or_costUsd g; or_routeAttempts := attempts; or_flags := flags |}.

Definition openrouter_payload (value : jsvalue) (g : OpenRouterGatewayAccumulator) : OpenRouterGatewayAccumulator :=
  match asRecord value with
  | None => g
  | Some payload =>
      let g := observe_cost (nested_record payload "usage") g in
      match nested_record payload "openrouter_metadata" with Some metadata => observeMetadata metadata g | None => g end
  end.

#[export] Instance OpenRouterGatewayAdapter : LlmGatewayAdapter OpenRouterGatewayAccumulator := {|
  createGateway := new_openrouter;
  observeHeaders := openrouter_headers;
  observePayload := openrouter_payload;
  gateway_snapshot := λ _ g,
    {| go_servedModel := sourced (or_servedModel g) FromRouterMetadata; go_servedProvider := sourced (or_servedProvider g) FromRouterMetadata;
       go_generationId := or_generationId g; go_costUsd := or_costUsd g; go_routeAttempts := or_routeAttempts g;
       go_qualityFlags := sorted_flags (or_flags g) |}
|}.
End OpenRouter.

(** ** types.ts: the record of an exchange *)

Inductive AttributionQuality := Exact | BundleOnly | Unattributed.
#[export] Instance AttributionQuality_eq_dec : EqDecision AttributionQuality.
Proof. solve_decision. Defined.

Record LlmExchangeAttribution := {
  at_sessionId : option string;
  at_agentConversationId : option string;
  at_turnId : option string;
  at_bundleId : option string;
  at_workflowRunId : option string;
  at_stateId : option string;
  at_personaId : option string;
  at_agentId : option string;
  at_quality : AttributionQuality
}.

Inductive AttemptOutcome := AttemptResponse | AttemptAuthRetry | AttemptError | AttemptAborted.

Record TransportAttempt := {
  ta_ordinal : Z;
  ta_startedOffsetMs : Z;
  ta_endedOffsetMs : Z;
  ta_responseStatus : option Z;
  ta_outcome : AttemptOutcome
}.

(** The offsets of [LlmExchangeTiming]. *)
Inductive TimingField :=
  RequestBodyComplete | ResponseHeadersAt | FirstUpstreamBodyByte | FirstProtocolEvent | FirstReasoningEvent | LastReasoningEvent
| FirstOutputEvent | LastOutputEvent | ProtocolTerminal | UpstreamResponseEnd | ClientDeliveryEnd.
#[export] Instance TimingField_eq_dec : EqDecision TimingField.
Proof. solve_decision. Defined.

Definition Offsets : Type := TimingField → option Z.

Record LlmExchangeCompleted := {
  xc_exchangeId : string;
  xc_attribution : LlmExchangeAttribution;
  xc_requestedModel : SourcedIdentity;
  xc_forwardedModel : SourcedIdentity;
  xc_responseModel : SourcedIdentity;
  xc_servedModel : SourcedIdentity;
  xc_servedProvider : SourcedIdentity;
  xc_providerRequestId : option string;
  xc_providerResponseId : option string;
  xc_gatewayGenerationId : option string;
  xc_actualServiceTier : option string;
  xc_request : LlmRequestFacts;
  xc_outcome : LlmOutcome;
  xc_usage : NormalizedUsage;
  xc_offsets : Offsets;
  xc_clientAborted : bool;
  xc_transportAttempts : list TransportAttempt;
  xc_gatewayRouteAttempts : list GatewayRouteAttempt;
  xc_qualityFlags : list string
}.

(** ** exchange-observer.ts *)

Definition MAX_JSON_RESPONSE_BYTES : Z := 8 * 1024 * 1024.

Definition emptyRequestFacts : LlmRequestFacts :=
  {| rf_requestedModel := None; rf_streaming := None; rf_requestedServiceTier := None; rf_reasoningMode := ModeUnknown;
     rf_reasoningEffort := None; rf_thinkingBudgetTokens := None; rf_speedMode := None; rf_qualityFlags := ["request_facts_missing"] |}.

Definition attempt_le (a b : TransportAttempt) : Prop := ta_ordinal a ≤ ta_ordinal b.
#[export] Instance attempt_le_dec a b : Decision (attempt_le a b) := Z_le_dec _ _.

Section observer.
Context `{Runtime} {S G : Type} `{LlmProtocolAdapter S} `{LlmGatewayAdapter G}.
Variables (exchangeId requestPath : string) (attribution : LlmExchangeAttribution) (startedAtMono : Z).

Record LlmMetricsExchangeObserver := {
  ob_protocol : S;
  ob_gateway : G;
  ob_flags : list string;
  ob_transportAttempts : list TransportAttempt;
  ob_pendingTransportAttempts : list (Z * Z);      (** ordinals and starts, in insertion order *)
  ob_nextTransportAttemptOrdinal : Z;
  ob_originalRequest : LlmRequestFacts;
  ob_forwardedRequest : LlmRequestFacts;
  ob_responseStatus : option Z;
  ob_offsets : Offsets;
  ob_clientAborted : bool;
  ob_observationEnded : bool;
  ob_finalized : bool;
  ob_jsonChunks : list string;
  ob_jsonBytes : Z;
  ob_completed : list LlmExchangeCompleted         (** what [onCompleted] was given *)
}.

Definition new_observer : LlmMetricsExchangeObserver :=
  {| ob_protocol := createAccumulator; ob_gateway := createGateway; ob_flags := []; ob_transportAttempts := [];
     ob_pendingTransportAttempts := []; ob_nextTransportAttemptOrdinal := 1; ob_originalRequest := emptyRequestFacts;
     ob_forwardedRequest := emptyRequestFacts; ob_responseStatus := None; ob_offsets := λ _, None; ob_clientAborted := false;
     ob_observationEnded := false; ob_finalized := false; ob_jsonChunks := []; ob_jsonBytes := 0; ob_completed := [] |}.

Definition with_parsers (p : S) (g : G) (o : LlmMetricsExchangeObserver) : LlmMetricsExchangeObserver :=
  {| ob_protocol := p; ob_gateway := g; ob_flags := ob_flags o; ob_transportAttempts := ob_transportAttempts o;
     ob_pendingTransportAttempts := ob_pendingTransportAttempts o; ob_nextTransportAttemptOrdinal := ob_nextTransportAttemptOrdinal o;
     ob_originalRequest := ob_originalRequest o; ob_forwardedRequest := ob_forwardedRequest o; ob_responseStatus := ob_responseStatus o;
     ob_offsets := ob_offsets o; ob_clientAborted := ob_clientAborted o; ob_observationEnded := ob_observationEnded o;
     ob_finalized := ob_finalized o; ob_jsonChunks := ob_jsonChunks o; ob_jsonBytes := ob_jsonBytes o; ob_completed := ob_completed o |}.
Definition put_flag (flag : string) (o : LlmMetricsExchangeObserver) : LlmMetricsExchangeObserver :=
  {| ob_protocol := ob_protocol o; ob_gateway := ob_gateway o; ob_flags := js_set_add flag (ob_flags o); ob_transportAttempts := ob_transportAttempts o;
     ob_pendingTransportAttempts := ob_pendingTransportAttempts o; ob_nextTransportAttemptOrdinal := ob_nextTransportAttemptOrdinal o;
     ob_originalRequest := ob_originalRequest o; ob_forwardedRequest := ob_forwardedRequest o; ob_responseStatus := ob_responseStatus o;
     ob_offsets := ob_offsets o; ob_clientAborted := ob_clientAborted o; ob_observationEnded := ob_observationEnded o;
     ob_finalized := ob_finalized o; ob_jsonChunks := ob_jsonChunks o; ob_jsonBytes := ob_jsonBytes o; ob_completed := ob_completed o |}.
Definition with_attempts (attempts : list TransportAttempt) (pending : list (Z * Z)) (next : Z) (o : LlmMetricsExchangeObserver) : LlmMetricsExchangeObserver :=
  {| ob_protocol := ob_protocol o; ob_gateway := ob_gateway o; ob_flags := ob_flags o; ob_transportAttempts := attempts;
     ob_pendingTransportAttempts := pending; ob_nextTransportAttemptOrdinal := next;
     ob_originalRequest := ob_originalRequest o; ob_forwardedRequest := ob_forwardedRequest o; ob_responseStatus := ob_responseStatus o;
     ob_offsets := ob_offsets o; ob_clientAborted := ob_clientAborted o; ob_observationEnded := ob_observationEnded o;
     ob_finalized := ob_finalized o; ob_jsonChunks := ob_jsonChunks o; ob_jsonBytes := ob_jsonBytes o; ob_completed := ob_completed o |}.
Definition with_requests (original forwarded : LlmRequestFacts) (o : LlmMetricsExchangeObserver) : LlmMetricsExchangeObserver :=
  {| ob_protocol := ob_protocol o; ob_gateway := ob_gateway o; ob_flags := ob_flags o; ob_transportAttempts := ob_transportAttempts o;
     ob_pendingTransportAttempts := ob_pendingTransportAttempts o; ob_nextTransportAttemptOrdinal := ob_nextTransportAttemptOrdinal o;
     ob_originalRequest := original; ob_forwardedRequest := forwarded; ob_responseStatus := ob_responseStatus o;
     ob_offsets := ob_offsets o; ob_clientAborted := ob_clientAborted o; ob_observationEnded := ob_observationEnded o;
     ob_finalized := ob_finalized o; ob_jsonChunks := ob_jsonChunks o; ob_jsonBytes := ob_jsonBytes o; ob_completed := ob_completed o |}.
Definition put_status (status : option Z) (o : LlmMetricsExchangeObserver) : LlmMetricsExchangeObserver :=
  {| ob_protocol := ob_protocol o; ob_gateway := ob_gateway o; ob_flags := ob_flags o; ob_transportAttempts := ob_transportAttempts o;
     ob_pendingTransportAttempts := ob_pendingTransportAttempts o; ob_nextTransportAttemptOrdinal := ob_nextTransportAttemptOrdinal o;
     ob_originalRequest := ob_originalRequest o; ob_forwardedRequest := ob_forwardedRequest o; ob_responseStatus := status;
     ob_offsets := ob_offsets o; ob_clientAborted := ob_clientAborted o; ob_observationEnded := ob_observationEnded o;
     ob_finalized := ob_finalized o; ob_jsonChunks := ob_jsonChunks o; ob_jsonBytes := ob_jsonBytes o; ob_completed := ob_completed o |}.
Definition with_offsets (offsets : Offsets) (o : LlmMetricsExchangeObserver) : LlmMetricsExchangeObserver :=
  {| ob_protocol := ob_protocol o; ob_gateway := ob_gateway o; ob_flags := ob_flags o; ob_transportAttempts := ob_transportAttempts o;
     ob_pendingTransportAttempts := ob_pendingTransportAttempts o; ob_nextTransportAttemptOrdinal := ob_nextTransportAttemptOrdinal o;
     ob_originalRequest := ob_originalRequest o; ob_forwardedRequest := ob_forwardedRequest o; ob_responseStatus := ob_responseStatus o;
     ob_offsets := offsets; ob_clientAborted := ob_clientAborted o; ob_observationEnded := ob_observationEnded o;
     ob_finalized := ob_finalized o; ob_jsonChunks := ob_jsonChunks o; ob_jsonBytes := ob_jsonBytes o; ob_completed := ob_completed o |}.
Definition with_ends (aborted ended : bool) (o : LlmMetricsExchangeObserver) : LlmMetricsExchangeObserver :=
  {| ob_protocol := ob_protocol o; ob_gateway := ob_gateway o; ob_flags := ob_flags o; ob_transportAttempts := ob_transportAttempts o;
     ob_pendingTransportAttempts := ob_pendingTransportAttempts o; ob_nextTransportAttemptOrdinal := ob_nextTransportAttemptOrdinal o;
     ob_originalRequest := ob_originalRequest o; ob_forwardedRequest := ob_forwardedRequest o; ob_responseStatus := ob_responseStatus o;
     ob_offsets := ob_offsets o; ob_clientAborted := aborted; ob_observationEnded := ended;
     ob_finalized := ob_finalized o; ob_jsonChunks := ob_jsonChunks o; ob_jsonBytes := ob_jsonBytes o; ob_completed := ob_completed o |}.
Definition with_json (chunks : list string) (bytes : Z) (o : LlmMetricsExchangeObserver) : LlmMetricsExchangeObserver :=
  {| ob_protocol := ob_protocol o; ob_gateway := ob_gateway o; ob_flags := ob_flags o; ob_transportAttempts := ob_transportAttempts o;
     ob_pendingTransportAttempts := ob_pendingTransportAttempts o; ob_nextTransportAttemptOrdinal := ob_nextTransportAttemptOrdinal o;
     ob_originalRequest := ob_originalRequest o; ob_forwardedRequest := ob_forwardedRequest o; ob_responseStatus := ob_responseStatus o;
     ob_offsets := ob_offsets o; ob_clientAborted := ob_clientAborted o; ob_observationEnded := ob_observationEnded o;
     ob_finalized := ob_finalized o; ob_jsonChunks := chunks; ob_jsonBytes := bytes; ob_completed := ob_completed o |}.
Definition with_completed (exchange : LlmExchangeCompleted) (flags : list string) (p : S) (o : LlmMetricsExchangeObserver) : LlmMetricsExchangeObserver :=
  {| ob_protocol := p; ob_gateway := ob_gateway o; ob_flags := flags; ob_transportAttempts := ob_transportAttempts o;
     ob_pendingTransportAttempts := ob_pendingTransportAttempts o; ob_nextTransportAttemptOrdinal := ob_nextTransportAttemptOrdinal o;
     ob_originalRequest := ob_originalRequest o; ob_forwardedRequest := ob_forwardedRequest o; ob_responseStatus := ob_responseStatus o;
     ob_offsets := ob_offsets o; ob_clientAborted := ob_clientAborted o; ob_observationEnded := ob_observationEnded o;
     ob_finalized := true; ob_jsonChunks := ob_jsonChunks o; ob_jsonBytes := ob_jsonBytes o; ob_completed := ob_completed o ++ [exchange] |}.

Definition offset (now : Z) : Z := Z.max 0 (now - startedAtMono).

(** [this[field] ??= offset] and [this[field] = offset] *)
Definition set_offset (field : TimingField) (value : Z) (o : LlmMetricsExchangeObserver) : LlmMetricsExchangeObserver :=
  with_offsets (λ f, if bool_decide (f = field) then Some value else ob_offsets o f) o.
Definition mark_offset (field : TimingField) (value : Z) (o : LlmMetricsExchangeObserver) : LlmMetricsExchangeObserver :=
  set_offset field (default value (ob_offsets o field)) o.

Definition end_observation (o : LlmMetricsExchangeObserver) : LlmMetricsExchangeObserver := with_ends (ob_clientAborted o) true o.
Definition client_aborted (o : LlmMetricsExchangeObserver) : LlmMetricsExchangeObserver := with_ends true (ob_observationEnded o) o.

Definition inspect_bytes (bytes failureFlag : string) (o : LlmMetricsExchangeObserver) : LlmRequestFacts * LlmMetricsExchangeObserver :=
  match json_parse bytes with
  | Some value => (inspectRequest value requestPath, o)
  | None => (emptyRequestFacts, put_flag failureFlag o)
  end.

Definition settlePendingTransportAttempts (outcome : AttemptOutcome) (now : Z) (o : LlmMetricsExchangeObserver) : LlmMetricsExchangeObserver :=
  with_attempts
    (ob_transportAttempts o ++ ((λ p, {| ta_ordinal := p.1; ta_startedOffsetMs := p.2; ta_endedOffsetMs := offset now;
                                         ta_responseStatus := None; ta_outcome := outcome |}) <$> ob_pendingTransportAttempts o))
    [] (ob_nextTransportAttemptOrdinal o) o.

(** The record, and the flags of the observer with it. *)
Definition exchange_outcome (protocol : LlmOutcome) (o : LlmMetricsExchangeObserver) : LlmOutcome :=
  let errorStatus := match ob_responseStatus o with Some status => 400 <=? status | None => false end in
  {| lo_termination :=
       if ob_clientAborted o then TermAborted
       else if errorStatus && bool_decide (lo_termination protocol = TermUnknown) then TermError
       else lo_termination protocol;
     lo_providerStopReason := lo_providerStopReason protocol; lo_responseStatus := ob_responseStatus o;
     lo_refusal := lo_refusal protocol; lo_refusalCategory := lo_refusalCategory protocol; lo_refusalSource := lo_refusalSource protocol |}.

Definition with_cost (cost : option Qc) (u : NormalizedUsage) : NormalizedUsage :=
  match cost with
  | None => u
  | Some _ =>
      {| inputTokensReported := inputTokensReported u; inputTokensTotal := inputTokensTotal u; inputTokensAccuracy := inputTokensAccuracy u;
         inputTokensUncached := inputTokensUncached u; cacheReadInputTokens := cacheReadInputTokens u;
         cacheWriteInputTokens := cacheWriteInputTokens u; toolUseInputTokens := toolUseInputTokens u;
         outputTokensReported := outputTokensReported u; outputTokenSemantics := outputTokenSemantics u;
         outputTokensTotal := outputTokensTotal u; outputTokensAccuracy := outputTokensAccuracy u; thinkingTokens := thinkingTokens u;
         thinkingTokensAccuracy := thinkingTokensAccuracy u; nonThinkingOutputTokens := nonThinkingOutputTokens u;
         nonThinkingOutputTokensAccuracy := nonThinkingOutputTokensAccuracy u; providerTotalTokens := providerTotalTokens u;
         canonicalTotalTokens := canonicalTotalTokens u; usage_costUsd := cost; usageSource := usageSource u;
         nu_usageCompleteness := nu_usageCompleteness u; usage_qualityFlags := usage_qualityFlags u |}
  end.

Definition tryFinalize (o : LlmMetricsExchangeObserver) : LlmMetricsExchangeObserver :=
  if ob_finalized o || negb (ob_observationEnded o) || bool_decide (ob_offsets o UpstreamResponseEnd = None)
     || bool_decide (ob_offsets o ClientDeliveryEnd = None) then o
  else
    let '(p, protocol) := protocol_snapshot (ob_protocol o) in
    let gateway := gateway_snapshot protocol (ob_gateway o) in
    let flags := foldl (λ s flag, js_set_add flag s) (ob_flags o)
      (rf_qualityFlags (ob_originalRequest o) ++ rf_qualityFlags (ob_forwardedRequest o) ++ po_qualityFlags protocol
       ++ usage_qualityFlags (po_usage protocol) ++ go_qualityFlags gateway) in
    with_completed
      {| xc_exchangeId := exchangeId; xc_attribution := attribution;
         xc_requestedModel := sourced (rf_requestedModel (ob_originalRequest o)) FromRequest;
         xc_forwardedModel := sourced (rf_requestedModel (ob_forwardedRequest o)) FromForwardedRequest;
         xc_responseModel := sourced (po_responseModel protocol) FromProtocolResponse;
         xc_servedModel := go_servedModel gateway; xc_servedProvider := go_servedProvider gateway;
         xc_providerRequestId := po_providerRequestId protocol; xc_providerResponseId := po_providerResponseId protocol;
         xc_gatewayGenerationId := go_generationId gateway; xc_actualServiceTier := po_actualServiceTier protocol;
         xc_request := ob_originalRequest o; xc_outcome := exchange_outcome (po_outcome protocol) o;
         xc_usage := with_cost (go_costUsd gateway) (po_usage protocol); xc_offsets := ob_offsets o;
         xc_clientAborted := ob_clientAborted o; xc_transportAttempts := merge_sort attempt_le (ob_transportAttempts o);
         xc_gatewayRouteAttempts := go_routeAttempts gateway; xc_qualityFlags := sorted_flags flags |}
      flags p o.

Definition observeSseEvent (frame : SseEventFrame) (now : Z) (o : LlmMetricsExchangeObserver) : LlmMetricsExchangeObserver :=
  let now := offset now in
  let o := mark_offset FirstProtocolEvent now o in
  match (if sf_dataUtf8 frame =? "[DONE]" then Some (VStr "[DONE]") else json_parse (sf_dataUtf8 frame)) with
  | None => put_flag "malformed_sse_json" o
  | Some data =>
      let '(p, phase) := observeStreamEvent {| se_eventType := if sf_eventType frame =? "" then None else Some (sf_eventType frame);
                                               se_data := data |} (ob_protocol o) in
      let o := with_parsers p (observePayload data (ob_gateway o)) o in
      let o := match phase with
               | PhaseReasoning => set_offset LastReasoningEvent now (mark_offset FirstReasoningEvent now o)
               | PhaseOutput => set_offset LastOutputEvent now (mark_offset FirstOutputEvent now o)
               | PhaseControl => o
               end in
      if isProtocolTerminal p then mark_offset ProtocolTerminal now o else o
  end.

Definition observeJsonChunk (chunk : string) (o : LlmMetricsExchangeObserver) : LlmMetricsExchangeObserver :=
  if MAX_JSON_RESPONSE_BYTES <? ob_jsonBytes o + bytes_of chunk then
    with_json [] (MAX_JSON_RESPONSE_BYTES + 1) (put_flag "json_response_limit" o)
  else if MAX_JSON_RESPONSE_BYTES <? ob_jsonBytes o then o
  else with_json (ob_jsonChunks o ++ [chunk]) (ob_jsonBytes o + bytes_of chunk) o.

Definition endObservation (streaming : bool) (now : Z) (o : LlmMetricsExchangeObserver) : LlmMetricsExchangeObserver :=
  let o :=
    if negb streaming && (ob_jsonBytes o <=? MAX_JSON_RESPONSE_BYTES) then
      match json_parse (str_join "" (ob_jsonChunks o)) with
      | Some payload =>
          mark_offset FirstProtocolEvent (offset now)
            (with_parsers (observeJsonResponse payload (ob_protocol o)) (observePayload payload (ob_gateway o)) o)
      | None => put_flag "malformed_json_response" o
      end
    else o in
  let o := with_json [] (ob_jsonBytes o) o in
  let '(p, protocol) := protocol_snapshot (ob_protocol o) in
  let o := with_parsers p (ob_gateway o) o in
  let o := if po_protocolTerminal protocol then mark_offset ProtocolTerminal (offset now) o else o in
  tryFinalize (end_observation o).

Inductive ExchangeCall :=
| OriginalRequest (bytes : string)
| UnchangedRequest (bytes : string)
| ForwardedRequest (bytes : string)
| BodyComplete
| BeginAttempt
| CompleteAttempt (ordinal : Z) (status : option Z) (outcome : AttemptOutcome)
| QualityFlag (name : string)
| ResponseHeaders (status : Z) (headers : GatewayResponseHeaders)
| FirstBodyByte
| SseEvent (frame : SseEventFrame)
| JsonChunk (chunk : string)
| ObservationEnd (streaming : bool)
| ObservationDetached (reason : string)
| UpstreamEnd
| ObservationUnavailable (status : option Z) (reason : string)
| ResponseObservationUnavailable (status : option Z) (reason : string)
| DeliveryEnd (aborted : bool)
| AbortExchange (reason : string).

(** Each public method, and the callbacks of [responseConsumer]. *)
Definition observer_step (call : ExchangeCall) (now : Z) (o : LlmMetricsExchangeObserver) : LlmMetricsExchangeObserver :=
  match call with
  | OriginalRequest bytes =>
      let '(facts, o) := inspect_bytes bytes "original_request_parse_failed" o in with_requests facts (ob_forwardedRequest o) o
  | UnchangedRequest bytes => let '(facts, o) := inspect_bytes bytes "request_parse_failed" o in with_requests facts facts o
  | ForwardedRequest bytes =>
      let '(facts, o) := inspect_bytes bytes "forwarded_request_parse_failed" o in with_requests (ob_originalRequest o) facts o
  | BodyComplete => mark_offset RequestBodyComplete (offset now) o
  | BeginAttempt =>
      with_attempts (ob_transportAttempts o) (ob_pendingTransportAttempts o ++ [(ob_nextTransportAttemptOrdinal o, offset now)])
        (ob_nextTransportAttemptOrdinal o + 1) o
  | CompleteAttempt ordinal status outcome =>
      match list_find (λ p, p.1 = ordinal) (ob_pendingTransportAttempts o) with
      | None => o
      | Some (_, (_, started)) =>
          with_attempts (ob_transportAttempts o ++ [{| ta_ordinal := ordinal; ta_startedOffsetMs := started; ta_endedOffsetMs := offset now;
                                                       ta_responseStatus := status; ta_outcome := outcome |}])
            (base.filter (λ p, p.1 ≠ ordinal) (ob_pendingTransportAttempts o)) (ob_nextTransportAttemptOrdinal o) o
      end
  | QualityFlag name => if ob_finalized o then o else put_flag name o
  | ResponseHeaders status headers =>
      let o := mark_offset ResponseHeadersAt (offset now) (put_status (Some status) o) in
      with_parsers (observeResponseHeaders headers (ob_protocol o)) (observeHeaders headers (ob_gateway o)) o
  | FirstBodyByte => mark_offset FirstUpstreamBodyByte (offset now) o
  | SseEvent frame => observeSseEvent frame now o
  | JsonChunk chunk => observeJsonChunk chunk o
  | ObservationEnd streaming => endObservation streaming now o
  | ObservationDetached reason => tryFinalize (end_observation (put_flag reason o))
  | UpstreamEnd => tryFinalize (mark_offset UpstreamResponseEnd (offset now) o)
  | ObservationUnavailable status reason =>
      if ob_finalized o then o
      else tryFinalize (mark_offset UpstreamResponseEnd (offset now) (end_observation (put_flag reason (put_status status o))))
  | ResponseObservationUnavailable status reason =>
      if ob_finalized o then o else tryFinalize (end_observation (put_flag reason (put_status status o)))
  | DeliveryEnd aborted =>
      let o := mark_offset ClientDeliveryEnd (offset now) o in
      tryFinalize (if aborted then settlePendingTransportAttempts AttemptAborted now (client_aborted o) else o)
  | AbortExchange reason =>
      let o := end_observation (client_aborted (put_flag reason o)) in
      let o := mark_offset ClientDeliveryEnd (offset now) (mark_offset UpstreamResponseEnd (offset now) o) in
      tryFinalize (settlePendingTransportAttempts AttemptAborted now o)
  end.

Definition observer_run (calls : list (ExchangeCall * Z)) (o : LlmMetricsExchangeObserver) : LlmMetricsExchangeObserver :=
  foldl (λ o c, observer_step c.1 c.2 o) o calls.

End observer.

(** ** observed-usage-accumulator.ts *)

Record MutableUsage := {
  mu_inputTokens : Z;
  mu_outputTokens : Z;
  mu_thinkingTokens : Z;
  mu_missingThinkingTokenExchanges : Z;
  mu_totalTokens : Z;
  mu_cacheReadTokens : Z;
  mu_cacheWriteTokens : Z;
  mu_costUsd : Qc;
  mu_observedExchanges : Z;
  mu_incompleteExchanges : Z
}.

Definition emptyUsage : MutableUsage :=
  {| mu_inputTokens := 0; mu_outputTokens := 0; mu_thinkingTokens := 0; mu_missingThinkingTokenExchanges := 0; mu_totalTokens := 0;
     mu_cacheReadTokens := 0; mu_cacheWriteTokens := 0; mu_costUsd := qc_of_Z 0; mu_observedExchanges := 0; mu_incompleteExchanges := 0 |}.

Definition isIncomplete (value : UsageCompleteness) : bool := negb (bool_decide (value = UsageComplete)).

Definition add_exchange (exchange : LlmExchangeCompleted) (target : MutableUsage) : MutableUsage :=
  let usage := xc_usage exchange in
  {| mu_inputTokens := mu_inputTokens target + default 0 (inputTokensTotal usage);
     mu_outputTokens := mu_outputTokens target + default 0 (outputTokensTotal usage);
     mu_thinkingTokens := mu_thinkingTokens target + default 0 (thinkingTokens usage);
     mu_missingThinkingTokenExchanges := mu_missingThinkingTokenExchanges target + (match thinkingTokens usage with None => 1 | Some _ => 0 end);
     mu_totalTokens := mu_totalTokens target + default 0 (canonicalTotalTokens usage);
     mu_cacheReadTokens := mu_cacheReadTokens target + default 0 (cacheReadInputTokens usage);
     mu_cacheWriteTokens := mu_cacheWriteTokens target + default 0 (cacheWriteInputTokens usage);
     mu_costUsd := (mu_costUsd target + default (qc_of_Z 0) (usage_costUsd usage))%Qc;
     mu_observedExchanges := mu_observedExchanges target + 1;
     mu_incompleteExchanges := mu_incompleteExchanges target + (if isIncomplete (nu_usageCompleteness usage) then 1 else 0) |}.

Inductive TokenTrackingStatus := TrackingComplete | TrackingPartial | TrackingUnavailable.

(** [ObservedUsageSnapshot]: the totals, the thinking tokens when every exchange had them, the status. *)
Record ObservedUsageSnapshot := {
  os_totals : MutableUsage;
  os_thinkingTokens : option Z;
  os_status : TokenTrackingStatus
}.

Definition usage_snapshot (usage : MutableUsage) (trackingPathActive : bool) : ObservedUsageSnapshot :=
  {| os_totals := usage;
     os_thinkingTokens :=
       if (0 <? mu_observedExchanges usage) && (mu_missingThinkingTokenExchanges usage =? 0) then Some (mu_thinkingTokens usage) else None;
     os_status :=
       if negb trackingPathActive then TrackingUnavailable
       else if (mu_observedExchanges usage =? 0) || (0 <? mu_incompleteExchanges usage) then TrackingPartial
       else TrackingComplete |}.

Record ObservedUsageAccumulator := {
  ua_seen : list string;
  ua_turns : list (string * MutableUsage);
  ua_cumulative : MutableUsage
}.

Definition new_usage_accumulator : ObservedUsageAccumulator := {| ua_seen := []; ua_turns := []; ua_cumulative := emptyUsage |}.

Definition observe_exchange (sessionId : string) (exchange : LlmExchangeCompleted) (a : ObservedUsageAccumulator) : ObservedUsageAccumulator :=
  let attribution := xc_attribution exchange in
  if negb (bool_decide (at_quality attribution = Exact)) || negb (bool_decide (at_sessionId attribution = Some sessionId))
     || includes (ua_seen a) (xc_exchangeId exchange) then a
  else
    {| ua_seen := js_set_add (xc_exchangeId exchange) (ua_seen a);
       ua_turns :=
         match at_turnId attribution with
         | Some turnId =>
             if turnId =? "" then ua_turns a
             else obj_set (ua_turns a) turnId (add_exchange exchange (default emptyUsage (obj_get (ua_turns a) turnId)))
         | None => ua_turns a
         end;
       ua_cumulative := add_exchange exchange (ua_cumulative a) |}.

Definition takeTurnSnapshot (trackingPathActive : bool) (turnId : string) (a : ObservedUsageAccumulator) : ObservedUsageAccumulator * ObservedUsageSnapshot :=
  ({| ua_seen := ua_seen a; ua_turns := base.filter (λ t, t.1 ≠ turnId) (ua_turns a); ua_cumulative := ua_cumulative a |},
   usage_snapshot (default emptyUsage (obj_get (ua_turns a) turnId)) trackingPathActive).

Definition cumulativeSnapshot (trackingPathActive : bool) (a : ObservedUsageAccumulator) : ObservedUsageSnapshot :=
  usage_snapshot (ua_cumulative a) trackingPathActive.
