(* ===== verification/LlmMetricsTheory.v ===== *)
(** * What the protocol adapters keep

    The interface [CleanProtocol] says that an adapter, whatever it is shown, keeps nothing
    but bounded identifiers, words and flags of a vocabulary, and counts that add up; the
    four adapters implement it.  Operations on flags are proved with a small program
    logic, [yields]. *)

From Stdlib Require Import Ascii ZArith QArith Qcanon Lia.
From stdpp Require Import sorting.
From S2P Require Import Prelude Numbers JsValue Hashing Regex UriText LlmMetrics LlmExchange.

Local Open Scope Z_scope.
Local Open Scope curtain_scope.

#[export] Existing Instances Anthropic.AnthropicMessagesAdapter OpenAi.OpenAiChatCompletionsAdapter OpenAi.OpenAiResponsesAdapter
  Google.GoogleGenerateContentAdapter IronCurtain.IronCurtainGatewayAdapter OpenRouter.OpenRouterGatewayAdapter.

(** ** What may be recorded *)

(** Every quality flag that the adapters, the gateways and the observer can set. *)
Definition FLAGS : list string :=
  ["invalid_request_envelope"; "invalid_boolean:stream"; "unknown_service_tier"; "unknown_speed_mode"; "unknown_reasoning_effort";
   "invalid_google_completion_path"; "invalid_google_model_encoding"; "request_facts_missing"; "invalid_provider_request_id";
   "invalid_response_envelope"; "invalid_stream_event"; "invalid_message_start"; "duplicate_protocol_terminal"; "conflicting_stop_reason";
   "unknown_refusal_category"; "duplicate_terminal_usage"; "contradictory_usage:thinking_exceeds_output";
   "contradictory_usage:cache_exceeds_input"; "contradictory_usage:reasoning_exceeds_output"; "contradictory_usage:provider_total";
   "malformed_sse_json"; "malformed_json_response"; "json_response_limit"; "original_request_parse_failed"; "request_parse_failed";
   "forwarded_request_parse_failed"; "unverified_direct_origin"; "invalid_configured_provider_id"; "invalid_route_provider";
   "invalid_route_model"; "invalid_route_status"; "unsupported_ironcurtain_route_version"; "invalid_served_provider"; "invalid_served_model";
   "invalid_ironcurtain_request_id"; "ironcurtain_attempts_truncated"; "trusted_route_metadata_missing"; "invalid_generation_id";
   "invalid_cost"; "conflicting_cost"; "router_endpoints_truncated"; "router_attempts_truncated"]
  ++ ((λ key, "invalid_identifier:" +:+ key) <$> ["model"; "id"; "modelVersion"; "responseId"])
  ++ ((λ key, "invalid_count:" +:+ key) <$>
        ["budget_tokens"; "thinkingBudget"; "input_tokens"; "cache_read_input_tokens"; "cache_creation_input_tokens"; "output_tokens";
         "thinking_tokens"; "prompt_tokens"; "completion_tokens"; "cached_tokens"; "reasoning_tokens"; "total_tokens"; "promptTokenCount";
         "cachedContentTokenCount"; "candidatesTokenCount"; "thoughtsTokenCount"; "toolUsePromptTokenCount"; "totalTokenCount"])
  ++ ((λ field, "conflicting_usage:" +:+ field) <$>
        ["initial:input"; "initial:cacheRead"; "initial:cacheWrite"; "terminal:output"; "terminal:thinking"; "input"; "cached"; "output";
         "reasoning"; "total"])
  ++ ((λ field, "regressing_cumulative_usage:" +:+ field) <$> ["prompt"; "cached"; "candidates"; "thoughts"; "toolUsePrompt"; "total"]).

Definition WORDS : list string :=
  SERVICE_TIERS ++ ["standard_only"] ++ REASONING_EFFORTS ++ ["MINIMAL"; "LOW"; "MEDIUM"; "HIGH"] ++ SPEED_MODES ++ Anthropic.REFUSAL_CATEGORIES.

(** A bounded identifier, without anything that a text has. *)
Definition identifier (s : string) : Prop := SAFE_IDENTIFIER s = true ∧ (String.length s ≤ 256)%nat.
Definition provider_label (s : string) : Prop := SAFE_PROVIDER_IDENTIFIER s = true ∧ (String.length s ≤ 128)%nat.

Definition opt {A} (P : A → Prop) (a : option A) : Prop := ∀ x, a = Some x → P x.
Definition count (z : Z) : Prop := 0 ≤ z ≤ MAX_SAFE_INTEGER.

Lemma opt_some_or {A} (P : A → Prop) a b : opt P a → opt P b → opt P (some_or a b).
Proof. unfold opt. destruct a; naive_solver. Qed.

Lemma opt_none {A} (P : A → Prop) : opt P None.
Proof. done. Qed.
#[local] Hint Resolve opt_some_or opt_none : metrics.

Lemma bounded_shape shape n v : opt (λ s, shape s = true ∧ (String.length s ≤ n)%nat) (bounded_string shape n v).
Proof. intros s. unfold bounded_string. destruct v; try done. case_match eqn:E; [|done]. intros [= ->]. apply andb_true_iff in E as [?%Nat.leb_le ?]. done. Qed.

Lemma identifier_ok v : opt identifier (asIdentifier v).
Proof. apply bounded_shape. Qed.

Lemma provider_ok v : opt provider_label (asProviderIdentifier v).
Proof. apply bounded_shape. Qed.

Lemma known_string_ok v allowed : (∀ s, s ∈ allowed → s ∈ WORDS) → opt (.∈ WORDS) (asKnownString v allowed).
Proof. intros Hall s. unfold asKnownString. destruct v; try done. case_match eqn:E; [|done]. intros [= ->]. apply includes_spec in E. auto. Qed.

Lemma safe_count_ok v : opt count (asSafeCount v).
Proof.
  intros z. unfold asSafeCount. destruct v as [| | |[|?|q]| | |]; try done. cbn zeta. case_match eqn:E; [|done]. intros [= <-].
  unfold is_safe_integer in E. rewrite !andb_true_iff in E. unfold count. lia.
Qed.
#[local] Hint Resolve identifier_ok provider_ok safe_count_ok : metrics.

(** ** A logic for flags *)

Definition flags_ok (flags : list string) : Prop := ∀ flag, flag ∈ flags → flag ∈ FLAGS.

Definition yields {A} (P : A → Prop) (m : Flagged A) : Prop := ∀ flags, flags_ok flags → P (m flags).1 ∧ flags_ok (m flags).2.

Lemma yields_ret {A} (P : A → Prop) a : P a → yields P (mret a).
Proof. by intros ? flags. Qed.

Lemma yields_bind {A B} (P : A → Prop) (Q : B → Prop) m (f : A → Flagged B) :
  yields P m → (∀ a, P a → yields Q (f a)) → yields Q (m ≫= f).
Proof.
  intros Hm Hf flags Hok. destruct (Hm flags Hok) as [Ha Hflags]. unfold mbind, flagged_bind. destruct (m flags) as [a flags']. by apply Hf.
Qed.

Lemma flags_add flag flags : flag ∈ FLAGS → flags_ok flags → flags_ok (js_set_add flag flags).
Proof. intros Hf Hok x. unfold js_set_add. case_match; [by apply Hok|]. intros [?| ->%list_elem_of_singleton]%elem_of_app; [by apply Hok|done]. Qed.

Lemma yields_add flag (P : unit → Prop) : flag ∈ FLAGS → P () → yields P (add_flag flag).
Proof. intros ?? flags ?. split; [done|by apply flags_add]. Qed.

Lemma yields_when test flag (P : unit → Prop) : flag ∈ FLAGS → P () → yields P (flag_when test flag).
Proof. intros ??. destruct test; [by apply yields_add|by apply yields_ret]. Qed.

Lemma yields_weaken {A} (P Q : A → Prop) m : yields P m → (∀ a, P a → Q a) → yields Q m.
Proof. intros Hm Hpq flags Hok. destruct (Hm flags Hok). auto. Qed.

Lemma yields_field {A} (P : A → Prop) read prefix record key :
  (∀ v, opt P (read v)) → prefix +:+ key ∈ FLAGS → yields (opt P) (read_field read prefix record key).
Proof.
  intros Hread Hflag. unfold read_field. destruct record as [o|]; [|by apply yields_ret].
  assert (∀ v, yields (opt P) (flag_when (match read v with None => true | Some _ => false end) (prefix +:+ key) ≫= λ _, mret (read v))).
  { intros v. eapply (yields_bind (λ _, True)); [by apply yields_when|]. intros. by apply yields_ret. }
  destruct (obj_get o key) as [[]|]; try done; by apply yields_ret.
Qed.

(** A flag of the vocabulary is found by computation. *)
Ltac flag_known := apply (bool_decide_unpack _); vm_compute; exact I.

Lemma yields_count record key : "invalid_count:" +:+ key ∈ FLAGS → yields (opt count) (readCount record key).
Proof. apply yields_field, safe_count_ok. Qed.
Lemma yields_identifier record key : "invalid_identifier:" +:+ key ∈ FLAGS → yields (opt identifier) (readIdentifier record key).
Proof. apply yields_field, identifier_ok. Qed.

Lemma yields_header headers wanted : yields (opt identifier) (readResponseHeaderIdentifier headers wanted).
Proof.
  unfold readResponseHeaderIdentifier. destruct (find_header headers wanted); [|by apply yields_ret].
  eapply (yields_bind (λ _, True)); [apply yields_when; [flag_known|done]|]. intros _ _. apply yields_ret.
  intros s. destruct (single_header _); [apply identifier_ok|done].
Qed.

(** One step of an operation on flags. *)
Ltac flagged_step :=
  match goal with
  | |- yields _ (mret _) => apply yields_ret
  | |- yields _ (readCount _ _ ≫= _) => eapply yields_bind; [apply yields_count; flag_known|intros ? ?]
  | |- yields _ (readIdentifier _ _ ≫= _) => eapply yields_bind; [apply yields_identifier; flag_known|intros ? ?]
  | |- yields _ (flag_when _ _ ≫= _) => eapply (yields_bind (λ _, True)); [apply yields_when; [flag_known|done]|intros _ _]
  | |- yields _ (add_flag _ ≫= _) => eapply (yields_bind (λ _, True)); [apply yields_add; [flag_known|done]|intros _ _]
  | |- yields _ (let _ := _ in _) => cbv zeta
  end.

(** ** Requests *)

Record request_clean (facts : LlmRequestFacts) : Prop := {
  rc_model : opt identifier (rf_requestedModel facts);
  rc_tier : opt (.∈ WORDS) (rf_requestedServiceTier facts);
  rc_effort : opt (.∈ WORDS) (rf_reasoningEffort facts);
  rc_budget : opt count (rf_thinkingBudgetTokens facts);
  rc_speed : opt (.∈ WORDS) (rf_speedMode facts);
  rc_flags : flags_ok (rf_qualityFlags facts)
}.

Lemma words_of allowed : forallb (λ s, includes WORDS s) allowed = true → ∀ s, s ∈ allowed → s ∈ WORDS.
Proof. rewrite forallb_forall. intros Hall s Hs%list_elem_of_In. apply includes_spec, Hall, Hs. Qed.

Lemma sorted_ok flags : flags_ok flags → flags_ok (sorted_flags flags).
Proof. unfold sorted_flags. intros Hok x Hx. apply Hok. by rewrite merge_sort_Permutation in Hx. Qed.

Lemma yields_common value tiers :
  (∀ s, s ∈ tiers → s ∈ WORDS) → yields (λ facts, ∀ flags, flags_ok flags → request_clean (with_request_flags facts flags)) (inspect_common value tiers).
Proof.
  intros Htiers. unfold inspect_common. repeat flagged_step. intros flags Hflags.
  split; cbn; [done|by apply known_string_ok|by apply known_string_ok, words_of|done|by apply known_string_ok, words_of|done].
Qed.

Lemma common_clean value tiers : (∀ s, s ∈ tiers → s ∈ WORDS) → request_clean (inspectCommonRequest value tiers).
Proof.
  intros Htiers. unfold inspectCommonRequest. destruct (yields_common value tiers Htiers []) as [Hf Hflags]; [by intros ? ?%elem_of_nil|].
  destruct (inspect_common value tiers []) as [facts flags]. by apply Hf, sorted_ok.
Qed.

(** ** Facts of a response *)

Record facts_clean (f : AccumulatorFacts) : Prop := {
  fc_model : opt identifier (af_responseModel f);
  fc_request : opt identifier (af_providerRequestId f);
  fc_response : opt identifier (af_providerResponseId f);
  fc_tier : opt (.∈ WORDS) (af_actualServiceTier f);
  fc_category : opt (.∈ WORDS) (af_refusalCategory f);
  fc_flags : flags_ok (af_flags f)
}.
#[local] Hint Resolve fc_model fc_request fc_response fc_tier fc_category fc_flags : metrics.

Lemma no_facts_clean : facts_clean no_facts.
Proof. split; try done. by intros ? ?%elem_of_nil. Qed.

Lemma on_flags_clean {A} (P : A → Prop) (m : Flagged A) f :
  yields P m → facts_clean f → P (on_flags m f).1 ∧ facts_clean (on_flags m f).2.
Proof.
  intros Hm Hf. unfold on_flags. destruct (Hm (af_flags f)) as [Ha Hflags]; [apply Hf|]. destruct (m (af_flags f)).
  split; [done|]. destruct Hf. by split.
Qed.

Lemma flag_clean test name f : name ∈ FLAGS → facts_clean f → facts_clean (flag test name f).
Proof. intros ??. by apply (on_flags_clean (λ _, True) (flag_when test name)); [apply yields_when|]. Qed.

Lemma set_outcome_clean termination stop refusal category source f :
  opt (.∈ WORDS) category → facts_clean f → facts_clean (set_outcome termination stop refusal category source f).
Proof. intros ? []. by split. Qed.

Lemma set_terminal_clean f : facts_clean f → facts_clean (set_terminal f).
Proof. intros []. by split. Qed.

Lemma mark_refusal_clean source f : facts_clean f → facts_clean (mark_refusal source f).
Proof. intros Hf. by apply set_outcome_clean; [apply Hf|]. Qed.

Lemma mark_terminal_clean f : facts_clean f → facts_clean (mark_terminal f).
Proof. intros Hf. apply set_terminal_clean, flag_clean; [flag_known|done]. Qed.

Lemma read_header_clean headers wanted f : facts_clean f → facts_clean (read_header headers wanted f).
Proof.
  intros Hf. unfold read_header. destruct (on_flags_clean _ _ f (yields_header headers wanted) Hf) as [Hid Hf'].
  destruct (on_flags _ f) as [id f']. destruct Hf'. by split.
Qed.

Lemma observe_identity_clean model_key id_key tier record f :
  "invalid_identifier:" +:+ model_key ∈ FLAGS → "invalid_identifier:" +:+ id_key ∈ FLAGS → opt (.∈ WORDS) tier →
  facts_clean f → facts_clean (observe_identity model_key id_key tier record f).
Proof.
  intros Hm Hi Ht Hf. unfold observe_identity.
  destruct (on_flags_clean _ _ f (yields_identifier (Some record) model_key Hm) Hf) as [Hmodel Hf']. destruct (on_flags _ f) as [model f'].
  destruct (on_flags_clean _ _ f' (yields_identifier (Some record) id_key Hi) Hf') as [Hid Hf'']. destruct (on_flags _ f') as [id f''].
  destruct Hf''. split; cbn in *; auto with metrics.
Qed.

Lemma some_service_tier v : opt (.∈ WORDS) (asKnownString v SERVICE_TIERS).
Proof. by apply known_string_ok, words_of. Qed.

Create HintDb facts.
#[local] Hint Resolve no_facts_clean flag_clean set_outcome_clean set_terminal_clean mark_refusal_clean mark_terminal_clean read_header_clean
  observe_identity_clean some_service_tier opt_some_or opt_none fc_category : facts.
#[local] Hint Extern 1 (_ ∈ FLAGS) => flag_known : facts.

(** ** Token usage *)

Record usage_sound (u : NormalizedUsage) : Prop := {
  us_counts : Forall (opt count)
    [inputTokensReported u; inputTokensTotal u; inputTokensUncached u; cacheReadInputTokens u; cacheWriteInputTokens u;
     toolUseInputTokens u; outputTokensReported u; outputTokensTotal u; thinkingTokens u; nonThinkingOutputTokens u;
     providerTotalTokens u; canonicalTotalTokens u];
  us_total : ∀ total, canonicalTotalTokens u = Some total ↔
    ∃ input output, inputTokensTotal u = Some input ∧ outputTokensTotal u = Some output ∧ total = input + output ∧ count total;
  us_thinking : ∀ total thinking rest, outputTokensTotal u = Some total → thinkingTokens u = Some thinking →
    nonThinkingOutputTokens u = Some rest → total = thinking + rest;
  us_cached : ∀ total uncached, inputTokensTotal u = Some total → inputTokensUncached u = Some uncached →
    total = uncached + default 0 (cacheReadInputTokens u) + default 0 (cacheWriteInputTokens u);
  us_complete : nu_usageCompleteness u = UsageComplete ↔
    is_Some (usageSource u) ∧ is_Some (inputTokensTotal u) ∧ is_Some (outputTokensTotal u);
  us_missing : nu_usageCompleteness u = UsageMissing ↔ usageSource u = None;
  us_flags : flags_ok (usage_qualityFlags u)
}.

Lemma add_loop_spec total values z :
  count total → Forall (opt count) values → add_loop total values = Some z →
  count z ∧ z = total + foldr (λ value sum, default 0 value + sum) 0 values.
Proof.
  revert total. induction values as [|value values IH]; intros total Ht Hv; cbn; [intros [= ->]; split; [done|lia]|].
  apply Forall_cons in Hv as [Hvalue Hv]. case_match eqn:E; [|done]. intros Hz.
  assert (0 ≤ default 0 value) by (destruct value as [v|]; cbn; [apply (Hvalue v eq_refl)|lia]).
  destruct (IH (total + default 0 value)) as [? ->]; [|done..|split; [done|lia]].
  unfold is_safe_integer, count in *. apply andb_true_iff in E. lia.
Qed.

Lemma addCounts_spec values z :
  Forall (opt count) values → addCounts values = Some z →
  count z ∧ z = foldr (λ value sum, default 0 value + sum) 0 values ∧ Forall is_Some values.
Proof.
  intros Hv. unfold addCounts. case_match eqn:E; [done|]. intros Hz. apply add_loop_spec in Hz as [? ->]; [|done|done].
  split_and!; [done|lia|]. apply Forall_forall. intros [v|] Hin; [done|]. exfalso.
  eapply eq_true_false_abs; [|exact E]. apply existsb_exists. exists None. split; [by apply list_elem_of_In|done].
Qed.

Lemma addCounts_count values : Forall (opt count) values → opt count (addCounts values).
Proof. intros Hv z Hz. by apply addCounts_spec in Hz as (? & _). Qed.

Lemma addCounts_pair a b z :
  opt count a → opt count b → (addCounts [a; b] = Some z ↔ ∃ x y, a = Some x ∧ b = Some y ∧ z = x + y ∧ count z).
Proof.
  intros Ha Hb. split.
  - intros (? & Hz & Hsome)%addCounts_spec; [cbn in Hz|by repeat apply Forall_cons_2].
    rewrite !Forall_cons in Hsome. destruct Hsome as ([x ->] & [y ->] & _).
    exists x, y. cbn in Hz. split_and!; [done|done|lia|done].
  - intros (x & y & -> & -> & -> & Hc). specialize (Ha x eq_refl). specialize (Hb y eq_refl). unfold count, addCounts in *. cbn -[Z.add is_safe_integer].
    assert (is_safe_integer (0 + x) = true) as -> by (unfold is_safe_integer; lia).
    assert (is_safe_integer (0 + x + y) = true) as -> by (unfold is_safe_integer; lia). done.
Qed.

Lemma subtract_spec total subset z : subtractCount total subset = Some z → ∃ t s, total = Some t ∧ subset = Some s ∧ s ≤ t ∧ z = t - s.
Proof. unfold subtractCount. destruct total as [t|], subset as [s|]; try done. case_match eqn:E; [done|]. intros [= <-]. exists t, s. split_and!; try done. lia. Qed.

Lemma subtract_count total subset : opt count total → opt count subset → opt count (subtractCount total subset).
Proof. intros Ht Hs z (t & s & -> & -> & Hle & ->)%subtract_spec. specialize (Ht t eq_refl). specialize (Hs s eq_refl). unfold count in *. lia. Qed.

Lemma completeness_spec input output saw invalid :
  (usageCompleteness input output saw invalid = UsageComplete ↔ saw = true ∧ is_Some input ∧ is_Some output)
  ∧ (usageCompleteness input output saw invalid = UsageMissing ↔ saw = false).
Proof. unfold usageCompleteness. destruct saw, invalid, input, output; cbn; split; rewrite ?is_Some_alt; naive_solver. Qed.

Lemma filter_ok (P : string → Prop) `{!∀ x, Decision (P x)} flags : flags_ok flags → flags_ok (base.filter P flags).
Proof. intros Hok x [_ ?]%list_elem_of_filter. by apply Hok. Qed.

Lemma set_of_ok flags : ∀ s, flags_ok s → flags_ok flags → flags_ok (foldl (λ s v, js_set_add v s) s flags).
Proof.
  induction flags as [|flag flags IH]; intros s Hs Hok; [done|]. cbn. apply IH; [apply flags_add; [|done]|]; [apply Hok; left|].
  intros ? ?. apply Hok. by right.
Qed.

Lemma merge_flags_ok groups : Forall flags_ok groups → flags_ok (mergeQualityFlags groups).
Proof.
  intros Hg. apply sorted_ok, set_of_ok; [by intros ? ?%elem_of_nil|]. intros x (l & ? & Hl)%list_elem_of_join. rewrite Forall_forall in Hg. by apply (Hg l).
Qed.

(** ** Interfaces: what a protocol and a gateway promise *)

Record outcome_clean (outcome : LlmOutcome) : Prop := { oc_category : opt (.∈ WORDS) (lo_refusalCategory outcome) }.

Record observation_clean (o : LlmProtocolObservation) : Prop := {
  oc_model : opt identifier (po_responseModel o);
  oc_request : opt identifier (po_providerRequestId o);
  oc_response : opt identifier (po_providerResponseId o);
  oc_tier : opt (.∈ WORDS) (po_actualServiceTier o);
  oc_usage : usage_sound (po_usage o);
  oc_outcome : outcome_clean (po_outcome o);
  oc_flags : flags_ok (po_qualityFlags o)
}.

(** A protocol adapter keeps nothing but facts, and they add up. *)
Class CleanProtocol (S : Type) `{LlmProtocolAdapter S} := {
  protocol_clean : S → Prop;
  clean_request : ∀ value path, request_clean (inspectRequest value path);
  clean_new : protocol_clean createAccumulator;
  clean_headers : ∀ headers s, protocol_clean s → protocol_clean (observeResponseHeaders headers s);
  clean_json : ∀ value s, protocol_clean s → protocol_clean (observeJsonResponse value s);
  clean_event : ∀ event s, protocol_clean s → protocol_clean (observeStreamEvent event s).1;
  clean_snapshot : ∀ s, protocol_clean s → protocol_clean (protocol_snapshot s).1 ∧ observation_clean (protocol_snapshot s).2
}.

Lemma observation_ok protocol usage reported terminal f :
  facts_clean f → usage_sound usage → observation_clean (observation_of protocol usage reported terminal f).
Proof.
  intros [] Hu. split; try done.
  - unfold observation_of, outcome_of. destruct reported; by split.
  - apply (merge_flags_ok [_; _]), Forall_cons_2; [done|]. by apply Forall_cons_2; [apply Hu|].
Qed.

(** ** The protocols keep their promise *)

(** *** Anthropic *)

Record anthropic_clean (s : Anthropic.AnthropicMessagesAccumulator) : Prop := {
  ac_facts : facts_clean (Anthropic.am_facts s);
  ac_input : opt count (Anthropic.us_input (Anthropic.am_usage s));
  ac_cacheRead : opt count (Anthropic.us_cacheRead (Anthropic.am_usage s));
  ac_cacheWrite : opt count (Anthropic.us_cacheWrite (Anthropic.am_usage s));
  ac_output : opt count (Anthropic.us_output (Anthropic.am_usage s));
  ac_thinking : opt count (Anthropic.us_thinking (Anthropic.am_usage s))
}.

Lemma anthropic_on_facts f s :
  (∀ facts, facts_clean facts → facts_clean (f facts)) → anthropic_clean s → anthropic_clean (Anthropic.on_anthropic_facts f s).
Proof. intros Hf []. split; [by apply Hf|done..]. Qed.
#[local] Hint Resolve anthropic_on_facts ac_facts : facts.

Lemma anthropic_identity message s : anthropic_clean s → anthropic_clean (Anthropic.observeMessageIdentity message s).
Proof. intros Hs. apply anthropic_on_facts; [|done]. intros f Hf. apply observe_identity_clean; auto with facts. Qed.

Lemma anthropic_read_usage previous record key phase field :
  "invalid_count:" +:+ key ∈ FLAGS → "conflicting_usage:" +:+ phase +:+ ":" +:+ field ∈ FLAGS → opt count previous →
  yields (opt count) (Anthropic.read_usage previous record key phase field).
Proof.
  intros ???. eapply yields_bind; [by apply yields_count|]. intros value ?. unfold Anthropic.setUsageField.
  eapply (yields_bind (λ _, True)); [by apply yields_when|]. intros _ _. apply yields_ret. auto with metrics.
Qed.

Lemma anthropic_observe read usage s :
  (∀ o, yields (λ u, anthropic_clean {| Anthropic.am_facts := no_facts; Anthropic.am_usage := u |}) (read o (Anthropic.am_usage s))) →
  anthropic_clean s → anthropic_clean (Anthropic.observe_anthropic_usage read usage s).
Proof.
  intros Hread Hs. unfold Anthropic.observe_anthropic_usage. destruct (asRecord usage) as [o|]; [|done].
  destruct (on_flags_clean _ _ _ (Hread o) (ac_facts _ Hs)) as [Hu Hf]. destruct (on_flags _ _). destruct Hu. by split.
Qed.

Ltac anthropic_field := eapply yields_bind; [apply anthropic_read_usage; [flag_known|flag_known|done]|intros ? ?].

Lemma anthropic_initial usage s : anthropic_clean s → anthropic_clean (Anthropic.observeInitialUsage usage s).
Proof.
  intros Hs. apply anthropic_observe; [|done]. intros o. destruct Hs. unfold Anthropic.initial_usage. do 3 anthropic_field.
  apply yields_ret. split; auto with facts.
Qed.

Lemma anthropic_terminal usage s : anthropic_clean s → anthropic_clean (Anthropic.observeTerminalUsage usage s).
Proof.
  intros Hs. apply anthropic_observe; [|done]. intros o. destruct Hs. unfold Anthropic.terminal_usage. do 2 anthropic_field.
  apply yields_ret. split; auto with facts.
Qed.

Lemma anthropic_stop reason details f : facts_clean f → facts_clean (Anthropic.observeStop reason details f).
Proof.
  intros Hf. unfold Anthropic.observeStop. destruct (Anthropic.stopReason reason) as [normalized termination]. cbv zeta.
  set (f1 := if bool_decide (normalized = NotReported) then f else _).
  assert (facts_clean f1) as Hf1 by (unfold f1; case_match; auto 8 with facts).
  assert (opt (.∈ WORDS) (asKnownString (field_of details "category") Anthropic.REFUSAL_CATEGORIES)) by (by apply known_string_ok, words_of).
  repeat case_match; auto 10 with facts.
Qed.

Lemma anthropic_usage_sound s invalid : anthropic_clean s → usage_sound (Anthropic.anthropic_usage (Anthropic.am_usage s) invalid).
Proof.
  intros []. unfold Anthropic.anthropic_usage. set (u := Anthropic.am_usage s) in *.
  destruct (completeness_spec (addCounts [Anthropic.us_input u; Anthropic.us_cacheRead u; Anthropic.us_cacheWrite u]) (Anthropic.us_output u)
              (Anthropic.us_sawUsage u) invalid) as [Hcomplete Hmissing].
  assert (opt count (addCounts [Anthropic.us_input u; Anthropic.us_cacheRead u; Anthropic.us_cacheWrite u])) by (apply addCounts_count; auto).
  split; cbn -[addCounts subtractCount usageCompleteness].
  - repeat apply Forall_cons_2; try done.
    + case_match; [done|by apply subtract_count].
    + apply addCounts_count; auto.
  - intros total. by apply addCounts_pair.
  - intros total thinking rest Ht Hth. case_match; [done|]. intros (t & s' & E1 & E2 & _ & ->)%subtract_spec. simplify_eq/=. lia.
  - intros total uncached Htotal Hu. apply addCounts_spec in Htotal as (_ & -> & _); [|auto]. rewrite Hu. cbn. lia.
  - rewrite Hcomplete. destruct (Anthropic.us_sawUsage u); split; intros (H1 & ? & ?); split_and!; try done.
  - rewrite Hmissing. by destruct (Anthropic.us_sawUsage u).
  - apply (merge_flags_ok [_]), Forall_cons_2; [|done]. case_match; intros x; [|by intros ?%elem_of_nil]. intros ->%list_elem_of_singleton. flag_known.
Qed.

Lemma anthropic_json_clean value s : anthropic_clean s → anthropic_clean (Anthropic.anthropic_json value s).
Proof.
  intros Hs. unfold Anthropic.anthropic_json. destruct (asRecord value) as [message|]; [|apply anthropic_on_facts; auto with facts].
  cbv zeta. apply anthropic_on_facts; [auto with facts|].
  assert (∀ s1, anthropic_clean s1 → anthropic_clean (if hasTypedItem value ["refusal"] then Anthropic.on_anthropic_facts (mark_refusal FromContentItem) s1 else s1)) as Hr.
  { intros s1 ?. case_match; [|done]. apply anthropic_on_facts; auto with facts. }
  apply Hr, anthropic_on_facts; [intros; by apply anthropic_stop|]. by apply anthropic_terminal, anthropic_initial, anthropic_identity.
Qed.

Lemma anthropic_event_clean event s : anthropic_clean s → anthropic_clean (Anthropic.anthropic_event event s).1.
Proof.
  intros Hs. unfold Anthropic.anthropic_event. destruct (asRecord (se_data event)) as [payload|]; [|apply anthropic_on_facts; auto with facts].
  cbv zeta. destruct (known _ "message_start").
  { destruct (asRecord (get_value payload "message")); [by apply anthropic_initial, anthropic_identity|apply anthropic_on_facts; auto with facts]. }
  destruct (known _ "message_delta"); [apply anthropic_on_facts; [intros; by apply anthropic_stop|by apply anthropic_terminal]|].
  destruct (known _ "message_stop").
  - assert (anthropic_clean (Anthropic.on_anthropic_facts mark_terminal s)) by (apply anthropic_on_facts; auto with facts).
    destruct (asRecord (get_value payload "message")); [by apply anthropic_identity|done].
  - destruct (_ && hasTypedItem _ _); [|done]. apply anthropic_on_facts; auto with facts.
Qed.

#[export, program] Instance anthropic_is_clean : CleanProtocol Anthropic.AnthropicMessagesAccumulator := {|
  protocol_clean := anthropic_clean;
  clean_json := anthropic_json_clean;
  clean_event := anthropic_event_clean
|}.
Next Obligation. intros. apply common_clean, words_of. by vm_compute. Qed.
Next Obligation. split; [apply no_facts_clean|done..]. Qed.
Next Obligation. intros headers s Hs. apply anthropic_on_facts; auto with facts. Qed.
Next Obligation. intros s Hs. split; [done|]. apply observation_ok; [apply Hs|by apply anthropic_usage_sound]. Qed.

(** *** OpenAI *)

Record openai_values (v : OpenAi.OpenAiUsageValues) : Prop := {
  ok_input : opt count (OpenAi.ov_input v);
  ok_cached : opt count (OpenAi.ov_cached v);
  ok_output : opt count (OpenAi.ov_output v);
  ok_reasoning : opt count (OpenAi.ov_reasoning v);
  ok_total : opt count (OpenAi.ov_total v)
}.

Record openai_clean (s : OpenAi.OpenAiAccumulator) : Prop := {
  oa_clean : facts_clean (OpenAi.oa_facts s);
  oa_values : openai_values (OpenAi.ou_values (OpenAi.oa_usage s))
}.

Lemma openai_on_facts f s : (∀ facts, facts_clean facts → facts_clean (f facts)) → openai_clean s → openai_clean (OpenAi.on_openai_facts f s).
Proof. intros Hf []. split; [by apply Hf|done]. Qed.

Lemma openai_merge authoritative previous candidate field :
  "conflicting_usage:" +:+ field ∈ FLAGS → opt count previous → opt count candidate →
  yields (opt count) (OpenAi.merge_openai_field authoritative previous candidate field).
Proof.
  intros ???. eapply (yields_bind (λ _, True)); [by apply yields_when|]. intros _ _. apply yields_ret. destruct candidate; [by case_match|done].
Qed.

Lemma openai_observe_values dialect usage authoritative u :
  openai_values (OpenAi.ou_values u) →
  yields (λ u, openai_values (OpenAi.ou_values u)) (OpenAi.observe_openai_values dialect usage authoritative u).
Proof.
  intros []. unfold OpenAi.observe_openai_values. destruct dialect; cbv beta zeta; repeat flagged_step;
    do 5 (eapply yields_bind; [apply openai_merge; [flag_known|done|done]|intros ? ?]); apply yields_ret; by split.
Qed.

Lemma openai_observe_usage dialect value authoritative s : openai_clean s → openai_clean (OpenAi.observe_openai_usage dialect value authoritative s).
Proof.
  intros [Hf Hv]. unfold OpenAi.observe_openai_usage.
  assert (yields (λ u, openai_values (OpenAi.ou_values u)) (OpenAi.observe_usage_value dialect value authoritative (OpenAi.oa_usage s))) as Hy.
  { unfold OpenAi.observe_usage_value. destruct (asRecord value); [by apply openai_observe_values|by apply yields_ret]. }
  destruct (on_flags_clean _ _ _ Hy Hf). destruct (on_flags _ _). by split.
Qed.

Lemma openai_choice choice s : openai_clean s → openai_clean (OpenAi.observe_choice choice s).
Proof.
  intros Hs. unfold OpenAi.observe_choice. destruct (asRecord choice) as [record|]; [|done].
  destruct (OpenAi.finishReason _) as [[[stop termination] refusal] source]. cbv zeta. set (s1 := if bool_decide (stop = NotReported) then s else _).
  assert (openai_clean s1) as Hs1.
  { unfold s1. case_match; [done|]. destruct Hs. split; cbn; auto with facts. }
  destruct (some_or _ _); [|done]. case_match; [|done]. apply openai_on_facts; auto with facts.
Qed.

Lemma openai_chunk chunk authoritative s : openai_clean s → openai_clean (OpenAi.observeChunk chunk authoritative s).
Proof.
  intros Hs. unfold OpenAi.observeChunk. cbv zeta. set (s1 := OpenAi.observe_openai_usage _ _ _ _).
  assert (openai_clean s1) as Hs1.
  { apply openai_observe_usage, openai_on_facts; [|done]. auto with facts. }
  clearbody s1. revert s1 Hs1. induction (items_of _) as [|choice choices IH]; intros s1 Hs1; [done|]. by apply IH, openai_choice.
Qed.

Lemma openai_response response terminal s : openai_clean s → openai_clean (OpenAi.observeResponsesResponse response terminal s).
Proof.
  intros Hs. apply openai_on_facts; [|apply openai_observe_usage, openai_on_facts; auto with facts].
  intros f Hf. unfold OpenAi.response_outcome. destruct (OpenAi.responseStatus _) as [stop termination]. cbv zeta.
  repeat case_match; auto 10 with facts.
Qed.

Lemma usage_flags_ok flags : flags_ok flags → flags_ok (OpenAi.usage_flags flags).
Proof. intros Hok. apply (merge_flags_ok [_]), Forall_cons_2; [by apply filter_ok|done]. Qed.

Lemma openai_usage_sound u source flags : openai_values (OpenAi.ou_values u) → flags_ok flags → usage_sound (OpenAi.openai_usage u source flags).
Proof.
  intros [] Hflags. unfold OpenAi.openai_usage. set (v := OpenAi.ou_values u) in *. cbv zeta.
  destruct (completeness_spec (OpenAi.ov_input v) (OpenAi.ov_output v) (OpenAi.ou_sawUsage u) (invalid_counts flags)) as [Hcomplete Hmissing].
  split; cbn -[addCounts subtractCount usageCompleteness].
  - repeat apply Forall_cons_2; try done; [by apply subtract_count..|by apply addCounts_count; auto].
  - intros total. by apply addCounts_pair.
  - intros total thinking rest ?? (t & s' & ?& ?& _ & ->)%subtract_spec. simplify_eq/=. lia.
  - intros total uncached ? (t & s' & ?& -> & _ & ->)%subtract_spec. simplify_eq/=. lia.
  - rewrite Hcomplete. destruct (OpenAi.ou_sawUsage u); split; intros (H1 & ? & ?); split_and!; try done.
  - rewrite Hmissing. by destruct (OpenAi.ou_sawUsage u).
  - by apply usage_flags_ok.
Qed.

Lemma openai_snapshot_ok protocol source terminal s :
  openai_clean s → openai_clean (OpenAi.openai_snapshot protocol source terminal s).1 ∧ observation_clean (OpenAi.openai_snapshot protocol source terminal s).2.
Proof.
  intros [Hf Hv]. unfold OpenAi.openai_snapshot.
  assert (yields (λ _, True) (OpenAi.openai_usage_checks (OpenAi.ou_values (OpenAi.oa_usage s)))) as Hy.
  { unfold OpenAi.openai_usage_checks. repeat flagged_step. apply yields_when; [flag_known|done]. }
  destruct (on_flags_clean _ _ _ Hy Hf) as [_ Hf']. destruct (on_flags _ _) as [[] f]. split; [by split|].
  apply observation_ok; [done|]. apply openai_usage_sound; [done|apply Hf'].
Qed.

Lemma chat_event_clean event s : openai_clean s → openai_clean (OpenAi.chat_event event s).1.
Proof.
  intros Hs. unfold OpenAi.chat_event. destruct (is_done _); [apply openai_on_facts; auto with facts|].
  destruct (asRecord _); [by apply openai_chunk|apply openai_on_facts; auto with facts].
Qed.

Lemma responses_event_clean event s : openai_clean s → openai_clean (OpenAi.responses_event event s).1.
Proof.
  intros Hs. unfold OpenAi.responses_event. destruct (is_done _); [done|].
  destruct (asRecord (se_data event)) as [payload|]; [|apply openai_on_facts; auto with facts]. cbv zeta. cbn [fst].
  assert (∀ (test : bool) f s1, (∀ facts, facts_clean facts → facts_clean (f facts)) → openai_clean s1 →
            openai_clean (if test then OpenAi.on_openai_facts f s1 else s1)) as Hif.
  { intros [] f s1 ??; [by apply openai_on_facts|done]. }
  apply Hif; [auto with facts|]. apply Hif; [auto with facts|]. case_match; [by apply openai_response|done].
Qed.

#[export, program] Instance chat_is_clean : CleanProtocol OpenAi.OpenAiChatCompletionsAccumulator := {|
  protocol_clean := λ s, openai_clean (OpenAi.chat_state s)
|}.
Next Obligation. intros. by apply common_clean, words_of. Qed.
Next Obligation. split; [apply no_facts_clean|done]. Qed.
Next Obligation. intros headers s Hs. apply openai_on_facts; auto with facts. Qed.
Next Obligation.
  intros value s Hs. cbn. unfold OpenAi.chat_json. destruct (asRecord value); apply openai_on_facts; auto using openai_chunk with facts.
Qed.
Next Obligation.
  intros event s Hs. cbn. pose proof (chat_event_clean event _ Hs). by destruct (OpenAi.chat_event _ _).
Qed.
Next Obligation. intros s Hs. cbn. unfold OpenAi.chat_terminal. pose proof (openai_snapshot_ok "openai-chat-completions" "openai_chat_usage"
  (OpenAi.chat_terminal (OpenAi.chat_state s)) _ Hs). by destruct (OpenAi.openai_snapshot _ _ _ _). Qed.

#[export, program] Instance responses_is_clean : CleanProtocol OpenAi.OpenAiResponsesAccumulator := {|
  protocol_clean := λ s, openai_clean (OpenAi.responses_state s)
|}.
Next Obligation. intros. by apply common_clean, words_of. Qed.
Next Obligation. split; [apply no_facts_clean|done]. Qed.
Next Obligation. intros headers s Hs. apply openai_on_facts; auto with facts. Qed.
Next Obligation.
  intros value s Hs. cbn. unfold OpenAi.responses_json. destruct (asRecord value); apply openai_on_facts; auto using openai_response with facts.
Qed.
Next Obligation.
  intros event s Hs. cbn. pose proof (responses_event_clean event _ Hs). by destruct (OpenAi.responses_event _ _).
Qed.
Next Obligation. intros s Hs. cbn. pose proof (openai_snapshot_ok "openai-responses" "openai_responses_usage"
  (af_terminal (OpenAi.oa_facts (OpenAi.responses_state s))) _ Hs). by destruct (OpenAi.openai_snapshot _ _ _ _). Qed.

(** *** Google *)

Record google_values (v : Google.GoogleUsageValues) : Prop := {
  gok_prompt : opt count (Google.gv_prompt v);
  gok_cached : opt count (Google.gv_cached v);
  gok_candidates : opt count (Google.gv_candidates v);
  gok_thoughts : opt count (Google.gv_thoughts v);
  gok_toolUse : opt count (Google.gv_toolUsePrompt v);
  gok_total : opt count (Google.gv_total v)
}.

Record google_clean (s : Google.GoogleGenerateContentAccumulator) : Prop := {
  ga_clean : facts_clean (Google.ga_facts s);
  ga_values : google_values (Google.ga_usage s)
}.

Lemma google_on_facts f s : (∀ facts, facts_clean facts → facts_clean (f facts)) → google_clean s → google_clean (Google.on_google_facts f s).
Proof. intros Hf []. split; [by apply Hf|done]. Qed.

Lemma set_field_ok field value v : count value → google_values v → google_values (Google.set_field field value v).
Proof. intros ? []. split; cbn; try done; intros z; case_match; naive_solver. Qed.

Lemma set_fields_ok value fields v : count value → google_values v → google_values (foldl (λ v field, Google.set_field field value v) v fields).
Proof. intros ?. revert v. induction fields as [|field fields IH]; intros v Hv; [done|]. by apply IH, set_field_ok. Qed.

Lemma scan_nonneg usage fields missing known missing' known' :
  Forall (λ field, opt count field.1.2) fields → 0 ≤ known → Google.scan_fields usage fields missing known = Google.Scanned missing' known' → 0 ≤ known'.
Proof.
  revert missing known. induction fields as [|[[field value] wire] fields IH]; intros missing known Hfields Hk; cbn; [by intros [= _ ->]|].
  apply Forall_cons in Hfields as [Hv Hfields]. destruct value as [value|].
  - destruct (is_safe_integer _); [|done]. apply IH; [done|]. specialize (Hv value eq_refl). unfold count in Hv. lia.
  - destruct (_ && _); [done|]. by apply IH.
Qed.

Lemma reconcile_ok usage v : google_values v → yields (λ r, google_values r.1) (Google.reconcileGoogleUsage usage v).
Proof.
  intros Hv. unfold Google.reconcileGoogleUsage. destruct (Google.gv_total v) as [total|] eqn:Ht; [|by apply yields_ret].
  destruct (Google.scan_fields _ _ _ _) as [missing known|contradictory] eqn:E.
  - assert (0 ≤ known).
    { eapply scan_nonneg; [|done|exact E]. destruct Hv. by repeat apply Forall_cons_2. }
    assert (count total) by (by apply (gok_total _ Hv)). cbv zeta. case_match eqn:E1; [flagged_step; by apply yields_ret|].
    apply orb_false_iff in E1 as [E1 _]. assert (count (total - known)) by (unfold count in *; lia).
    repeat case_match; apply yields_ret; try done; cbn; by apply set_fields_ok.
  - flagged_step. by apply yields_ret.
Qed.

Lemma google_merge takes previous candidate field :
  "regressing_cumulative_usage:" +:+ field ∈ FLAGS → opt count previous → opt count candidate →
  yields (opt count) (Google.merge_google_field takes previous candidate field).
Proof.
  intros ???. eapply (yields_bind (λ _, True)); [by apply yields_when|]. intros _ _. apply yields_ret. by case_match.
Qed.

Lemma google_observe_values usage authoritative s :
  google_values (Google.ga_usage s) → yields (λ s', google_values (Google.ga_usage s')) (Google.observe_google_values usage authoritative s).
Proof.
  intros []. unfold Google.observe_google_values. repeat flagged_step. eapply yields_bind; [by apply reconcile_ok|]. intros [v derived] []. cbv zeta.
  flagged_step. cbv zeta. do 6 (eapply yields_bind; [apply google_merge; [flag_known|done|done]|intros ? ?]). apply yields_ret. by split.
Qed.

Lemma google_observe_usage usage authoritative s : google_clean s → google_clean (Google.observeUsage usage authoritative s).
Proof.
  intros [Hf Hv]. unfold Google.observeUsage. destruct (asRecord usage) as [o|]; [|done].
  destruct (on_flags_clean _ _ _ (google_observe_values o authoritative s Hv) Hf) as [Hv' Hf']. destruct (on_flags _ _) as [s' f]. by split.
Qed.

Lemma google_candidate candidate state : facts_clean state.1 → facts_clean (Google.observe_candidate candidate state).1.
Proof.
  intros Hf. unfold Google.observe_candidate. destruct (asRecord candidate) as [record|]; [|done]. destruct state as [f terminal].
  destruct (Google.googleFinishReason _) as [[[stop termination] refusal] source]. case_match; [done|]. cbn in *. auto 8 with facts.
Qed.

Lemma google_response response whole s : google_clean s → google_clean (Google.observeGoogleResponse response whole s).
Proof.
  intros Hs. unfold Google.observeGoogleResponse.
  assert (google_clean (Google.on_google_facts (observe_identity "modelVersion" "responseId" None response) s)) as [Hf Hv].
  { apply google_on_facts; auto with facts. }
  set (s1 := Google.on_google_facts _ s) in *. cbv zeta.
  set (state := if OpenAi.is_defined _ then _ else _).
  assert (facts_clean state.1) as Hstate by (unfold state; case_match; cbn; auto with facts). clearbody state.
  destruct state as [f terminal]. cbn in Hstate.
  assert (∀ candidates state, facts_clean state.1 →
            facts_clean (foldl (λ state candidate, Google.observe_candidate candidate state) state candidates).1) as Hfold.
  { induction candidates as [|candidate candidates IH]; intros state' ?; [done|]. by apply IH, google_candidate. }
  specialize (Hfold (items_of (get_value response "candidates")) (f, terminal) Hstate). destruct (foldl _ _ _) as [f' terminal'].
  apply google_observe_usage. by split.
Qed.

Lemma google_json_clean value s : google_clean s → google_clean (Google.google_json value s).
Proof.
  intros Hs. unfold Google.google_json. destruct (asRecord value); apply google_on_facts; auto using google_response with facts.
Qed.

Lemma google_event_clean event s : google_clean s → google_clean (Google.google_event event s).1.
Proof.
  intros Hs. unfold Google.google_event. destruct (asRecord _); [by apply google_response|apply google_on_facts; auto with facts].
Qed.

Lemma google_request_clean value path : request_clean (Google.google_request value path).
Proof.
  unfold Google.google_request. destruct (common_clean value SERVICE_TIERS) as [Hmodel Htier Heffort Hbudget Hspeed Hflags]; [by apply words_of|].
  set (common := inspectCommonRequest value SERVICE_TIERS) in *. cbv zeta.
  set (thinkingConfig := asRecord (field_of _ "thinkingConfig")). set (level := asKnownString _ _).
  set (body := _ ≫= _).
  assert (yields (λ r : option string * option bool * option Z, opt identifier r.1.1 ∧ opt count r.2) body) as Hy.
  { unfold body. eapply (yields_bind (λ r : option string * option bool, opt identifier r.1)).
    - unfold Google.extractModelFromPath. case_match; [by apply yields_ret|]. destruct (Google.match_models path) as [[segment streaming]|].
      + destruct (UriText.decodeURIComponent segment); cbv zeta; flagged_step; apply yields_ret; [apply identifier_ok|done].
      + flagged_step. by apply yields_ret.
    - intros r Hr. do 2 flagged_step. by apply yields_ret. }
  destruct (Hy (rf_qualityFlags common) Hflags) as [[Hm Hb] Hflags']. destruct (body _) as [[[model streaming] budget] flags].
  split; cbn in *; try done; [by apply known_string_ok, words_of|by apply sorted_ok].
Qed.

Lemma google_usage_sound s flags : google_clean s → flags_ok flags → usage_sound (Google.google_usage s flags).
Proof.
  intros [_ []] Hflags. unfold Google.google_usage, Google.google_totals. set (v := Google.ga_usage s) in *. cbv zeta.
  destruct (completeness_spec (addCounts [Google.gv_prompt v; Google.gv_toolUsePrompt v]) (addCounts [Google.gv_candidates v; Google.gv_thoughts v])
              (Google.ga_sawUsage s) (invalid_counts flags)) as [Hcomplete Hmissing].
  assert (opt count (addCounts [Google.gv_prompt v; Google.gv_toolUsePrompt v])) by (apply addCounts_count; auto).
  assert (opt count (addCounts [Google.gv_candidates v; Google.gv_thoughts v])) by (apply addCounts_count; auto).
  assert (∀ field value, opt count value → opt count (Google.reported (Google.ga_derived s) field value)).
  { intros field value ?. unfold Google.reported. by case_match. }
  split; cbn -[addCounts subtractCount usageCompleteness].
  - repeat apply Forall_cons_2; try done; [auto..| |auto|].
    + repeat case_match; try done. by apply subtract_count.
    + by apply addCounts_count; auto.
  - intros total. by apply addCounts_pair.
  - intros total thinking rest Htotal Hth Hrest. apply addCounts_spec in Htotal as (_ & -> & _); [|auto]. rewrite Hth, Hrest. cbn. lia.
  - intros total uncached Htotal Hu. repeat case_match; try done. apply subtract_spec in Hu as (t & c & ? & [= <-] & _ & ->). simplify_eq/=. lia.
  - rewrite Hcomplete. destruct (Google.ga_sawUsage s); split; intros (Hsource & ? & ?); split_and!; try done.
  - rewrite Hmissing. by destruct (Google.ga_sawUsage s).
  - by apply usage_flags_ok.
Qed.

#[export, program] Instance google_is_clean : CleanProtocol Google.GoogleGenerateContentAccumulator := {|
  protocol_clean := google_clean;
  clean_request := google_request_clean;
  clean_json := google_json_clean;
  clean_event := google_event_clean
|}.
Next Obligation. split; [apply no_facts_clean|done]. Qed.
Next Obligation. intros headers s Hs. apply google_on_facts; auto with facts. Qed.
Next Obligation.
  intros s [Hf Hv]. cbn.
  assert (yields (λ _, True) (Google.google_usage_checks (Google.ga_usage s))) as Hy.
  { unfold Google.google_usage_checks. destruct (Google.google_totals _). repeat flagged_step. apply yields_when; [flag_known|done]. }
  destruct (on_flags_clean _ _ _ Hy Hf) as [_ Hf']. destruct (on_flags _ _) as [[] f]. split; [by split|].
  apply observation_ok; [done|]. apply google_usage_sound; [by split|apply Hf'].
Qed.
