(* ===== verification/LlmExchangeTheory.v ===== *)
(** * What the metrics of language models record

    Whatever a provider or a gateway sends, the records hold no content and their counts
    add up; an exchange is recorded once, when it has settled; totals count every
    exchange once.  The observer is proved against the interfaces [CleanProtocol] and
    [CleanGateway]. *)

From Stdlib Require Import Ascii ZArith QArith Qcanon Lia.
From stdpp Require Import sorting.
From S2P Require Import Prelude Numbers JsValue Hashing Sse ObservationHub LlmMetrics LlmExchange LlmMetricsTheory.

Local Open Scope Z_scope.
Local Open Scope curtain_scope.

(** ** The gateways *)

Record attempt_clean (a : GatewayRouteAttempt) : Prop := {
  rac_ordinal : 1 ≤ ra_ordinal a ≤ Z.of_nat MAX_GATEWAY_ROUTE_ATTEMPTS;
  rac_provider : opt provider_label (ra_provider a);
  rac_model : opt identifier (ra_model a);
  rac_status : opt (λ status, 100 ≤ status ≤ 599) (ra_status a)
}.

Definition attempts_clean (attempts : list GatewayRouteAttempt) : Prop :=
  (length attempts ≤ MAX_GATEWAY_ROUTE_ATTEMPTS)%nat ∧ Forall attempt_clean attempts.

Record gateway_clean (g : GatewayObservation) : Prop := {
  gc_model : opt identifier (si_value (go_servedModel g));
  gc_provider : opt provider_label (si_value (go_servedProvider g));
  gc_generation : opt identifier (go_generationId g);
  gc_cost : opt (λ cost, (0 <= cost)%Qc) (go_costUsd g);
  gc_attempts : attempts_clean (go_routeAttempts g);
  gc_flags : flags_ok (go_qualityFlags g)
}.

(** A gateway adapter keeps nothing but facts. *)
Class CleanGateway (G : Type) `{LlmGatewayAdapter G} := {
  gateway_state : G → Prop;
  gateway_new : gateway_state createGateway;
  gateway_headers : ∀ headers g, gateway_state g → gateway_state (observeHeaders headers g);
  gateway_payload : ∀ value g, gateway_state g → gateway_state (observePayload value g);
  gateway_observed : ∀ protocol g, observation_clean protocol → gateway_state g → gateway_clean (gateway_snapshot protocol g)
}.

Lemma no_flags : flags_ok [].
Proof. by intros ? ?%elem_of_nil. Qed.

Lemma no_attempts : attempts_clean [].
Proof. split; [cbn; lia|done]. Qed.
#[local] Hint Resolve no_flags no_attempts : core.

Lemma one_flag (test : bool) flag : flag ∈ FLAGS → flags_ok (if test then [flag] else []).
Proof. intros ?. destruct test; [|done]. by intros x ->%list_elem_of_singleton. Qed.

Lemma route_attempt_clean source selected index attempt :
  (index < MAX_GATEWAY_ROUTE_ATTEMPTS)%nat → yields attempt_clean (route_attempt source selected index attempt).
Proof.
  intros Hi. unfold route_attempt. cbv zeta. do 3 flagged_step. apply yields_ret.
  split; cbn -[MAX_GATEWAY_ROUTE_ATTEMPTS]; [lia|apply provider_ok|apply identifier_ok|].
  intros status Hstatus. apply bind_Some in Hstatus as (n & _ & Hn). case_match eqn:E; [|done]. simplify_eq. lia.
Qed.

Lemma route_attempts_clean source selected index attempts :
  (index + length attempts ≤ MAX_GATEWAY_ROUTE_ATTEMPTS)%nat →
  yields (λ l, length l = length attempts ∧ Forall attempt_clean l) (route_attempts source selected index attempts).
Proof.
  revert index. induction attempts as [|attempt attempts IH]; intros index Hl; [by apply yields_ret|]. cbn [length route_attempts] in *.
  eapply yields_bind; [apply route_attempt_clean; lia|]. intros first ?. eapply yields_bind; [apply IH; lia|]. intros rest [? ?].
  apply yields_ret. cbn. split; [lia|by constructor].
Qed.

Lemma parse_attempts_clean value source truncated selected :
  truncated ∈ FLAGS → yields attempts_clean (parseGatewayRouteAttempts value source truncated selected).
Proof.
  intros Hf. unfold parseGatewayRouteAttempts. destruct (asArray value) as [attempts|]; [|by apply yields_ret].
  eapply (yields_bind (λ _, True)); [by apply yields_when|]. intros _ _.
  eapply yields_weaken; [apply route_attempts_clean; rewrite length_take; lia|]. intros l [Hl ?]. split; [|done]. rewrite Hl, length_take. lia.
Qed.

Lemma sourced_value value source : si_value (sourced value source) = value.
Proof. done. Qed.

#[export, program] Instance opaque_clean : CleanGateway OpaqueGatewayAccumulator := {| gateway_state := λ _, True |}.
Solve Obligations with try done.

#[program] Definition direct_clean (providerId : string) (officialOrigin : bool) : @CleanGateway _ (DirectGatewayAdapter providerId officialOrigin) :=
  {| gateway_state := λ _, True |}.
Solve Obligations with try done.
Next Obligation.
  intros providerId officialOrigin protocol g [] _. cbn. unfold direct_snapshot. destruct officialOrigin; split; try done.
  - apply (provider_ok (VStr providerId)).
  - apply one_flag. flag_known.
  - apply (one_flag true). flag_known.
Qed.

Record ironcurtain_clean (g : IronCurtain.IronCurtainGatewayAccumulator) : Prop := {
  icc_model : opt identifier (IronCurtain.ic_model g);
  icc_provider : opt provider_label (IronCurtain.ic_provider g);
  icc_generation : opt identifier (IronCurtain.ic_generationId g);
  icc_attempts : attempts_clean (IronCurtain.ic_attempts g);
  icc_flags : flags_ok (IronCurtain.ic_flags g)
}.

Lemma contract_clean provider model id attempts id_flag g :
  opt identifier id → yields attempts_clean attempts → ironcurtain_clean g →
  ironcurtain_clean (IronCurtain.observe_contract provider model id attempts id_flag g).
Proof.
  intros Hid Hattempts Hg. unfold IronCurtain.observe_contract. cbv zeta. set (body := _ ≫= _).
  assert (yields attempts_clean body) as Hy by (unfold body; by do 3 flagged_step).
  destruct (Hy _ (icc_flags _ Hg)) as [Ha Hf]. destruct (body _) as [l flags]. destruct Hg.
  split; cbn in *; try done; apply opt_some_or; auto using identifier_ok, provider_ok.
Qed.

Lemma ironcurtain_put flags g : flags_ok flags → ironcurtain_clean g → ironcurtain_clean (IronCurtain.put_flags flags g).
Proof. intros ? []. by split. Qed.

#[export, program] Instance ironcurtain_gateway_clean : CleanGateway IronCurtain.IronCurtainGatewayAccumulator := {|
  gateway_state := ironcurtain_clean
|}.
Next Obligation. by split. Qed.
Next Obligation.
  intros headers g Hg. cbn. unfold IronCurtain.ironcurtain_headers. destruct (readHeader _ _); [|done]. case_match.
  - apply ironcurtain_put; [|done]. apply flags_add; [flag_known|apply Hg].
  - apply contract_clean; [apply identifier_ok|apply yields_ret, Hg|done].
Qed.
Next Obligation.
  intros value g Hg. cbn. unfold IronCurtain.ironcurtain_payload. destruct (asRecord _) as [contract|]; [|done]. cbv zeta. case_match.
  - apply ironcurtain_put; [|done]. apply flags_add; [flag_known|apply Hg].
  - apply contract_clean; [apply identifier_ok|apply parse_attempts_clean; flag_known|done].
Qed.
Next Obligation.
  intros protocol g _ Hg. pose proof (icc_flags _ Hg) as Hflags. destruct Hg. split; try done. apply sorted_ok.
  intros x [?|Hx]%elem_of_app; [by apply Hflags|]. revert x Hx.
  destruct (IronCurtain.ic_contractSeen g); [apply no_flags|]. apply (one_flag true). flag_known.
Qed.

Record openrouter_clean (g : OpenRouter.OpenRouterGatewayAccumulator) : Prop := {
  orc_model : opt identifier (OpenRouter.or_servedModel g);
  orc_provider : opt provider_label (OpenRouter.or_servedProvider g);
  orc_generation : opt identifier (OpenRouter.or_generationId g);
  orc_cost : opt (λ cost, (0 <= cost)%Qc) (OpenRouter.or_costUsd g);
  orc_attempts : attempts_clean (OpenRouter.or_routeAttempts g);
  orc_flags : flags_ok (OpenRouter.or_flags g)
}.

Lemma finite_cost_ok v : opt (λ cost, (0 <= cost)%Qc) (asFiniteCost v).
Proof. intros cost. unfold asFiniteCost. destruct v as [| | |[|?|q]| | |]; try done. case_match eqn:E; [|done]. intros [= <-]. by apply qc_le_spec in E. Qed.

Lemma observe_cost_clean usage g : openrouter_clean g → openrouter_clean (OpenRouter.observe_cost usage g).
Proof.
  intros Hg. unfold OpenRouter.observe_cost. destruct (usage ≫= _) as [value|]; [|done]. cbv zeta. set (body := _ ≫= _).
  assert (yields (λ _, True) body) as Hy by (unfold body; flagged_step; apply yields_when; [flag_known|done]).
  destruct (Hy _ (orc_flags _ Hg)) as [_ Hf]. destruct (body _) as [? flags]. destruct Hg.
  split; cbn in *; try done. apply opt_some_or; [apply finite_cost_ok|done].
Qed.

Lemma observe_metadata_clean metadata g : openrouter_clean g → openrouter_clean (OpenRouter.observeMetadata metadata g).
Proof.
  intros Hg. unfold OpenRouter.observeMetadata. cbv zeta. set (body := _ ≫= _).
  assert (yields attempts_clean body) as Hy by (unfold body; do 3 flagged_step; apply parse_attempts_clean; flag_known).
  destruct (Hy _ (orc_flags _ Hg)) as [Ha Hf]. destruct (body _) as [l flags]. destruct Hg.
  split; cbn in *; try done; apply opt_some_or; auto using identifier_ok, provider_ok.
Qed.

#[export, program] Instance openrouter_gateway_clean : CleanGateway OpenRouter.OpenRouterGatewayAccumulator := {|
  gateway_state := openrouter_clean
|}.
Next Obligation. by split. Qed.
Next Obligation.
  intros headers g Hg. cbn. unfold OpenRouter.openrouter_headers. destruct (readHeader _ _) as [raw|]; [|done].
  assert (yields (λ _, True) (flag_when (bool_decide (asIdentifier (VStr raw) = None)) "invalid_generation_id")) as Hy
    by (apply yields_when; [flag_known|done]).
  destruct (Hy _ (orc_flags _ Hg)) as [_ Hf]. destruct Hg. split; try done. apply opt_some_or; [apply identifier_ok|done].
Qed.
Next Obligation.
  intros value g Hg. cbn. unfold OpenRouter.openrouter_payload. destruct (asRecord value) as [payload|]; [|done]. cbv zeta.
  destruct (OpenRouter.nested_record payload "openrouter_metadata"); [apply observe_metadata_clean|]; by apply observe_cost_clean.
Qed.
Next Obligation. intros protocol g _ Hg. pose proof (sorted_ok _ (orc_flags _ Hg)). destruct Hg. by split. Qed.

(** ** What a record may hold *)

(** A flag of the vocabulary, or one of those the caller passed. *)
Definition permitted (passed : list string) (flags : list string) : Prop := ∀ flag, flag ∈ flags → flag ∈ FLAGS ∨ flag ∈ passed.

Record exchange_clean (passed : list string) (x : LlmExchangeCompleted) : Prop := {
  xcc_requested : opt identifier (si_value (xc_requestedModel x));
  xcc_forwarded : opt identifier (si_value (xc_forwardedModel x));
  xcc_response : opt identifier (si_value (xc_responseModel x));
  xcc_served : opt identifier (si_value (xc_servedModel x));
  xcc_provider : opt provider_label (si_value (xc_servedProvider x));
  xcc_requestId : opt identifier (xc_providerRequestId x);
  xcc_responseId : opt identifier (xc_providerResponseId x);
  xcc_generation : opt identifier (xc_gatewayGenerationId x);
  xcc_tier : opt (.∈ WORDS) (xc_actualServiceTier x);
  xcc_request : request_clean (xc_request x);
  xcc_outcome : outcome_clean (xc_outcome x);
  xcc_attempts : attempts_clean (xc_gatewayRouteAttempts x);
  xcc_flags : permitted passed (xc_qualityFlags x)
}.

Lemma flags_permitted passed flags : flags_ok flags → permitted passed flags.
Proof. intros Hok flag ?. left. by apply Hok. Qed.

Lemma flags_permitted_app passed a b : permitted passed a → permitted passed b → permitted passed (a ++ b).
Proof. intros Ha Hb flag [?|?]%elem_of_app; auto. Qed.

Lemma permitted_add passed flag flags : flag ∈ FLAGS ∨ flag ∈ passed → permitted passed flags → permitted passed (js_set_add flag flags).
Proof. intros Hf Hok x. unfold js_set_add. case_match; [by apply Hok|]. intros [?| ->%list_elem_of_singleton]%elem_of_app; [by apply Hok|done]. Qed.

Lemma permitted_fold passed flags : ∀ s, permitted passed s → permitted passed flags → permitted passed (foldl (λ s v, js_set_add v s) s flags).
Proof.
  induction flags as [|flag flags IH]; intros s Hs Hok; [done|]. cbn. apply IH; [apply permitted_add; [|done]|]; [apply Hok; left|].
  intros ? ?. apply Hok. by right.
Qed.

Lemma permitted_sorted passed flags : permitted passed flags → permitted passed (sorted_flags flags).
Proof. unfold sorted_flags. intros Hok x Hx. apply Hok. by rewrite merge_sort_Permutation in Hx. Qed.

Lemma with_cost_sound cost u : usage_sound u → usage_sound (with_cost cost u).
Proof. intros []. destruct cost; by split. Qed.

Lemma with_cost_flags cost u : usage_qualityFlags (with_cost cost u) = usage_qualityFlags u.
Proof. by destruct cost. Qed.

Lemma empty_request_clean : request_clean emptyRequestFacts.
Proof. split; try done. apply (one_flag true). flag_known. Qed.

(** The flags that a call brings. *)
Definition passed_flags (call : ExchangeCall) : list string :=
  match call with
  | QualityFlag name => [name]
  | ObservationDetached reason | ObservationUnavailable _ reason | ResponseObservationUnavailable _ reason | AbortExchange reason => [reason]
  | _ => []
  end.

(** ** The observer *)

Section observer.
Context `{Runtime} {S G : Type} `{CleanProtocol S} `{CleanGateway G}.
Context (exchangeId requestPath : string) (attribution : LlmExchangeAttribution) (startedAtMono : Z) (passed : list string).

Local Abbreviation Observer := (LlmMetricsExchangeObserver (S := S) (G := G)).
Local Abbreviation finalize := (tryFinalize exchangeId attribution).
Implicit Types o : Observer.

Record observer_clean (o : Observer) : Prop := {
  obc_protocol : protocol_clean (ob_protocol o);
  obc_gateway : gateway_state (ob_gateway o);
  obc_flags : permitted passed (ob_flags o);
  obc_original : request_clean (ob_originalRequest o);
  obc_forwarded : request_clean (ob_forwardedRequest o);
  obc_completed : Forall (λ x, exchange_clean passed x ∧ usage_sound (xc_usage x)) (ob_completed o)
}.

(** What changes only attempts, times, the status, the ends and the body. *)
Definition same_facts (o o' : Observer) : Prop :=
  ob_protocol o' = ob_protocol o ∧ ob_gateway o' = ob_gateway o ∧ ob_flags o' = ob_flags o ∧ ob_originalRequest o' = ob_originalRequest o
  ∧ ob_forwardedRequest o' = ob_forwardedRequest o ∧ ob_completed o' = ob_completed o.

Lemma same_clean o o' : same_facts o o' → observer_clean o → observer_clean o'.
Proof. intros (E1 & E2 & E3 & E4 & E5 & E6) []. split; by rewrite ?E1, ?E2, ?E3, ?E4, ?E5, ?E6. Qed.

Lemma parsers_clean p g o : protocol_clean p → gateway_state g → observer_clean o → observer_clean (with_parsers p g o).
Proof. intros ?? []. by split. Qed.

Lemma requests_clean a b o : request_clean a → request_clean b → observer_clean o → observer_clean (with_requests a b o).
Proof. intros ?? []. by split. Qed.

Lemma put_flag_clean flag o : flag ∈ FLAGS ∨ flag ∈ passed → observer_clean o → observer_clean (put_flag flag o).
Proof. intros ? []. split; try done. by apply permitted_add. Qed.

Lemma inspect_clean bytes failureFlag o :
  failureFlag ∈ FLAGS → observer_clean o →
  request_clean (inspect_bytes requestPath bytes failureFlag o).1 ∧ observer_clean (inspect_bytes requestPath bytes failureFlag o).2.
Proof.
  intros ? Ho. unfold inspect_bytes. destruct (json_parse bytes); [by split; [apply clean_request|]|].
  split; [apply empty_request_clean|]. apply put_flag_clean; [by left|done].
Qed.

Lemma finalize_clean o : observer_clean o → observer_clean (finalize o).
Proof.
  intros Ho. unfold tryFinalize. case_match; [done|]. destruct Ho as [Hp Hg Hf Ho Hw Hc].
  destruct (clean_snapshot _ Hp) as [Hp' Hobs]. destruct (protocol_snapshot (ob_protocol o)) as [p protocol]. cbn in Hp', Hobs.
  pose proof (gateway_observed protocol _ Hobs Hg) as Hgw. destruct Hobs as [Hm Hreq Hresp Htier Husage Hout Hflags]. cbv zeta.
  set (flags := foldl _ _ _).
  assert (permitted passed flags) as Hall.
  { apply permitted_fold; [done|]. repeat apply flags_permitted_app; apply flags_permitted; [apply Ho|apply Hw|done|apply Husage|apply Hgw]. }
  split; cbn; try done. apply Forall_app. split; [done|]. apply Forall_singleton. split; [|by apply with_cost_sound].
  destruct Hgw. split; cbn; try done; [apply Ho|apply Hw| |by apply permitted_sorted]. split. apply Hout.
Qed.

Lemma sse_clean frame now o : observer_clean o → observer_clean (observeSseEvent startedAtMono frame now o).
Proof.
  intros Ho. unfold observeSseEvent. cbv zeta. set (o1 := mark_offset FirstProtocolEvent _ o).
  assert (observer_clean o1) as Ho1 by (by apply (same_clean o)).
  destruct (if sf_dataUtf8 frame =? "[DONE]" then _ else _) as [data|]; [|apply put_flag_clean; [left; flag_known|done]].
  pose proof (clean_event {| se_eventType := if sf_eventType frame =? "" then None else Some (sf_eventType frame); se_data := data |} _
                (obc_protocol _ Ho1)) as Hp.
  destruct (observeStreamEvent _ (ob_protocol o1)) as [p phase].
  assert (observer_clean (with_parsers p (observePayload data (ob_gateway o1)) o1)) as Ho2.
  { apply parsers_clean; [done|apply gateway_payload, Ho1|done]. }
  revert Ho2. generalize (with_parsers p (observePayload data (ob_gateway o1)) o1). intros o2 Ho2.
  destruct phase; case_match; by apply (same_clean o2).
Qed.

Lemma json_chunk_clean chunk o : observer_clean o → observer_clean (observeJsonChunk chunk o).
Proof.
  intros Ho. unfold observeJsonChunk. repeat case_match; [|done|by apply (same_clean o)].
  apply (same_clean (put_flag "json_response_limit" o)); [done|]. apply put_flag_clean; [left; flag_known|done].
Qed.

Lemma end_clean streaming now o : observer_clean o → observer_clean (endObservation exchangeId attribution startedAtMono streaming now o).
Proof.
  intros Ho. unfold endObservation. cbv zeta. set (o1 := if _ && _ then _ else o).
  assert (observer_clean o1) as Ho1.
  { unfold o1. case_match; [|done]. destruct (json_parse _) as [payload|]; [|apply put_flag_clean; [left; flag_known|done]].
    apply (same_clean (with_parsers (observeJsonResponse payload (ob_protocol o)) (observePayload payload (ob_gateway o)) o)); [done|].
    apply parsers_clean; [apply clean_json, Ho|apply gateway_payload, Ho|done]. }
  clearbody o1. assert (observer_clean (with_json [] (ob_jsonBytes o1) o1)) as Ho2 by (by apply (same_clean o1)).
  destruct (clean_snapshot _ (obc_protocol _ Ho2)) as [Hp _]. destruct (protocol_snapshot _) as [p protocol].
  assert (observer_clean (with_parsers p (ob_gateway (with_json [] (ob_jsonBytes o1) o1)) (with_json [] (ob_jsonBytes o1) o1))) as Ho3.
  { apply parsers_clean; [done|apply Ho2|done]. }
  apply finalize_clean. eapply same_clean; [|exact Ho3]. by case_match.
Qed.

Lemma step_clean call now o :
  (∀ flag, flag ∈ passed_flags call → flag ∈ passed) → observer_clean o →
  observer_clean (observer_step exchangeId requestPath attribution startedAtMono call now o).
Proof.
  intros Hpassed Ho.
  assert (∀ flag, passed_flags call = [flag] → flag ∈ FLAGS ∨ flag ∈ passed) as Hflag by (intros flag E; right; apply Hpassed; rewrite E; left).
  destruct call; cbn [passed_flags] in Hflag; cbn [observer_step].
  1-3: match goal with |- context [inspect_bytes _ ?b ?f _] => destruct (inspect_clean b f o) as [Hr Ho']; [flag_known|done|] end;
       destruct (inspect_bytes _ _ _ o) as [facts o']; cbn in *; apply requests_clean; try done; apply Ho'.
  all: try by apply (same_clean o).
  - destruct (list_find _ _) as [[? [? ?]]|]; [by apply (same_clean o)|done].
  - case_match; [done|]. apply put_flag_clean; auto.
  - assert (observer_clean (mark_offset ResponseHeadersAt (offset startedAtMono now) (put_status (Some status) o))) as Ho1 by (by apply (same_clean o)).
    apply parsers_clean; [apply clean_headers, Ho1|apply gateway_headers, Ho1|done].
  - by apply sse_clean.
  - by apply json_chunk_clean.
  - by apply end_clean.
  - apply finalize_clean. apply (same_clean (put_flag reason o)); [done|]. apply put_flag_clean; [by apply Hflag|done].
  - apply finalize_clean. by apply (same_clean o).
  - case_match; [done|]. apply finalize_clean. apply (same_clean (put_flag reason o)); [done|]. apply put_flag_clean; [by apply Hflag|done].
  - case_match; [done|]. apply finalize_clean. apply (same_clean (put_flag reason o)); [done|]. apply put_flag_clean; [by apply Hflag|done].
  - apply finalize_clean. destruct aborted; by apply (same_clean o).
  - apply finalize_clean. apply (same_clean (put_flag reason o)); [done|]. apply put_flag_clean; [by apply Hflag|done].
Qed.

Lemma new_clean : observer_clean new_observer.
Proof. split; [apply clean_new|apply gateway_new|by intros ? ?%elem_of_nil|apply empty_request_clean..|done]. Qed.

Lemma run_clean calls :
  (∀ c flag, c ∈ calls → flag ∈ passed_flags c.1 → flag ∈ passed) →
  observer_clean (observer_run exchangeId requestPath attribution startedAtMono calls new_observer).
Proof.
  intros Hcalls. unfold observer_run. assert (∀ o, observer_clean o →
    observer_clean (foldl (λ o c, observer_step exchangeId requestPath attribution startedAtMono c.1 c.2 o) o calls)) as Hfold; [|apply Hfold, new_clean].
  induction calls as [|c calls IH]; intros o Ho; [done|]. cbn. apply IH; [intros c' flag ?; apply Hcalls; by right|].
  apply step_clean; [|done]. intros flag. apply Hcalls. left.
Qed.

End observer.

(** ** When an exchange has settled *)

(** What the calls have reported: the end of the observation, of the response, of the delivery. *)
Definition ends_observation (call : ExchangeCall) : bool :=
  match call with
  | ObservationEnd _ | ObservationDetached _ | ObservationUnavailable _ _ | ResponseObservationUnavailable _ _ | AbortExchange _ => true
  | _ => false
  end.
Definition ends_upstream (call : ExchangeCall) : bool :=
  match call with UpstreamEnd | ObservationUnavailable _ _ | AbortExchange _ => true | _ => false end.
Definition ends_delivery (call : ExchangeCall) : bool := match call with DeliveryEnd _ | AbortExchange _ => true | _ => false end.

Definition was_reported (ends : ExchangeCall → bool) (calls : list (ExchangeCall * Z)) : bool := existsb (λ c, ends c.1) calls.
Definition settled (calls : list (ExchangeCall * Z)) : bool :=
  was_reported ends_observation calls && was_reported ends_upstream calls && was_reported ends_delivery calls.

Section settling.
Context `{Runtime} {S G : Type} `{LlmProtocolAdapter S} `{LlmGatewayAdapter G}.
Context (exchangeId requestPath : string) (attribution : LlmExchangeAttribution) (startedAtMono : Z).

Local Abbreviation Observer := (LlmMetricsExchangeObserver (S := S) (G := G)).
Local Abbreviation finalize := (tryFinalize exchangeId attribution).
Local Abbreviation step := (observer_step exchangeId requestPath attribution startedAtMono).
Implicit Types o : Observer.

Definition some {A} (a : option A) : bool := match a with Some _ => true | None => false end.

(** The three ends of an observer, whether it is done, and its record count. *)
Definition ends (o : Observer) : bool * bool * bool :=
  (ob_observationEnded o, some (ob_offsets o UpstreamResponseEnd), some (ob_offsets o ClientDeliveryEnd)).
Definition progress (o : Observer) : bool * bool * bool * bool * nat := (ends o, ob_finalized o, length (ob_completed o)).

Definition all3 (e : bool * bool * bool) : bool := e.1.1 && e.1.2 && e.2.
Definition or3 (a b : bool * bool * bool) : bool * bool * bool := (a.1.1 || b.1.1, a.1.2 || b.1.2, a.2 || b.2).
Definition call_ends (call : ExchangeCall) : bool * bool * bool := (ends_observation call, ends_upstream call, ends_delivery call).

Definition in_order (o : Observer) : Prop :=
  ob_finalized o = all3 (ends o) ∧ length (ob_completed o) = Nat.b2n (ob_finalized o).

Lemma finalize_progress o :
  length (ob_completed o) = Nat.b2n (ob_finalized o) → (ob_finalized o = true → all3 (ends o) = true) →
  ends (finalize o) = ends o ∧ in_order (finalize o).
Proof.
  intros Hl Hf. unfold tryFinalize, in_order.
  destruct (ob_finalized o) eqn:E1; cbn [orb]; [by rewrite Hl, E1, Hf|]. unfold all3, ends, some.
  destruct (ob_observationEnded o) eqn:E2; cbn; [|by rewrite Hl, E1, E2].
  destruct (ob_offsets o UpstreamResponseEnd) eqn:E3; cbn; [|by rewrite Hl, E1, E2, E3].
  destruct (ob_offsets o ClientDeliveryEnd) eqn:E4; cbn; [|by rewrite Hl, E1, E2, E3, E4].
  destruct (protocol_snapshot _) as [p protocol]. cbn. by rewrite length_app, Hl, E2, E3, E4.
Qed.

(** A call before its [tryFinalize] reports ends; one without it reports none. *)
Lemma finalized_step o o' e :
  in_order o → progress o' = (or3 (ends o) e, ob_finalized o, length (ob_completed o)) →
  ends (finalize o') = or3 (ends o) e ∧ in_order (finalize o').
Proof.
  unfold progress. intros [Hf Hl] [[E1 E2]%pair_equal_spec E3]%pair_equal_spec. destruct (finalize_progress o') as [E4 ?].
  - by rewrite E2, E3.
  - rewrite E2, Hf, E1. unfold all3, or3. cbn. rewrite !andb_true_iff. intros [[-> ->] ->]. done.
  - by rewrite E4, E1.
Qed.

Lemma silent_step o o' : in_order o → progress o' = progress o → ends o' = or3 (ends o) (false, false, false) ∧ in_order o'.
Proof.
  unfold progress. intros [Hf Hl] [[E1 E2]%pair_equal_spec E3]%pair_equal_spec. unfold in_order. rewrite E1, E2, E3. split; [|done]. unfold or3, ends. cbn. by rewrite !orb_false_r.
Qed.

Lemma done_step o e : in_order o → ob_finalized o = true → ends o = or3 (ends o) e ∧ in_order o.
Proof. intros [Hf Hl] E. split; [|done]. rewrite E in Hf. revert Hf. unfold all3, or3, ends. cbn. by intros [[-> ->]%andb_true_iff ->]%eq_sym%andb_true_iff. Qed.

Lemma inspect_progress bytes failureFlag o : progress (inspect_bytes requestPath bytes failureFlag o).2 = progress o.
Proof. unfold inspect_bytes. by destruct (json_parse bytes). Qed.

Lemma sse_progress frame now o : progress (observeSseEvent startedAtMono frame now o) = progress o.
Proof.
  unfold observeSseEvent. cbv zeta. destruct (if sf_dataUtf8 frame =? "[DONE]" then _ else _) as [data|]; [|done].
  destruct (observeStreamEvent _ _) as [p phase]. by destruct phase, (isProtocolTerminal p).
Qed.

Lemma json_progress chunk o : progress (observeJsonChunk chunk o) = progress o.
Proof. unfold observeJsonChunk. by repeat case_match. Qed.

(** The body is read, then the observation has ended. *)
Lemma end_progress streaming now o :
  ∃ o', endObservation exchangeId attribution startedAtMono streaming now o = finalize (end_observation o') ∧ progress o' = progress o.
Proof.
  unfold endObservation. cbv zeta. set (o1 := if _ && _ then _ else o).
  assert (progress o1 = progress o) as <- by (unfold o1; by repeat case_match). clearbody o1.
  destruct (protocol_snapshot _) as [p protocol]. eexists. split; [done|]. by case_match.
Qed.

Ltac ends_now := apply finalized_step; [done|]; unfold progress, ends, or3; cbn; by rewrite ?orb_false_r, ?orb_true_r.

Lemma step_progress call now o : in_order o → ends (step call now o) = or3 (ends o) (call_ends call) ∧ in_order (step call now o).
Proof.
  intros Ho. destruct call; cbn [observer_step]; unfold call_ends; cbn [ends_observation ends_upstream ends_delivery].
  all: try by apply silent_step.
  1-3: match goal with |- context [inspect_bytes _ ?b ?f _] => pose proof (inspect_progress b f o) end;
       destruct (inspect_bytes _ _ _ o) as [facts o']; by apply silent_step.
  - destruct (list_find _ _) as [[? [? ?]]|]; by apply silent_step.
  - case_match; by apply silent_step.
  - apply silent_step; [done|apply sse_progress].
  - apply silent_step; [done|apply json_progress].
  - destruct (end_progress streaming now o) as (o' & -> & Hp). apply finalized_step; [done|].
    revert Hp. unfold progress, ends, or3. cbn. intros [= E1 E2 E3 E4 E5]. by rewrite ?E2, ?E3, ?E4, ?E5, !orb_false_r, ?orb_true_r.
  - ends_now.
  - ends_now.
  - destruct (ob_finalized o) eqn:E; [by apply done_step|ends_now].
  - destruct (ob_finalized o) eqn:E; [by apply done_step|ends_now].
  - destruct aborted; ends_now.
  - ends_now.
Qed.

Lemma run_progress calls o :
  in_order o →
  ends (observer_run exchangeId requestPath attribution startedAtMono calls o)
    = or3 (ends o) (was_reported ends_observation calls, was_reported ends_upstream calls, was_reported ends_delivery calls)
  ∧ in_order (observer_run exchangeId requestPath attribution startedAtMono calls o).
Proof.
  unfold observer_run, was_reported. revert o. induction calls as [|[call now] calls IH]; intros o Ho; cbn.
  - split; [|done]. unfold or3, ends. cbn. by rewrite !orb_false_r.
  - destruct (step_progress call now o Ho) as [Hends Ho']. destruct (IH _ Ho') as [-> ?]. split; [|done]. rewrite Hends.
    unfold or3. cbn. by rewrite !orb_assoc.
Qed.

(** *** Attempts *)

Definition ordinals (attempts : list TransportAttempt) (pending : list (Z * Z)) : list Z := (ta_ordinal <$> attempts) ++ pending.*1.

Definition ordinals_ok (next : Z) (l : list Z) : Prop := NoDup l ∧ Forall (λ ordinal, 1 ≤ ordinal < next) l.

Record attempts_ok (o : Observer) : Prop := {
  ao_ordinals : ordinals_ok (ob_nextTransportAttemptOrdinal o) (ordinals (ob_transportAttempts o) (ob_pendingTransportAttempts o));
  ao_next : 1 ≤ ob_nextTransportAttemptOrdinal o;
  ao_completed : Forall (λ x, StronglySorted Z.lt (ta_ordinal <$> xc_transportAttempts x)
                              ∧ Forall (λ ordinal, 1 ≤ ordinal < ob_nextTransportAttemptOrdinal o) (ta_ordinal <$> xc_transportAttempts x))
                   (ob_completed o)
}.

Lemma ordinals_sub next l l' : l' ⊆+ l → ordinals_ok next l → ordinals_ok next l'.
Proof. intros [k Hk]%submseteq_Permutation [Hd Hf]. rewrite Hk in Hd, Hf. apply NoDup_app in Hd as [? _]. apply Forall_app in Hf as [? _]. by split. Qed.

Lemma same_attempts o o' :
  ordinals (ob_transportAttempts o') (ob_pendingTransportAttempts o') ⊆+ ordinals (ob_transportAttempts o) (ob_pendingTransportAttempts o) →
  ob_nextTransportAttemptOrdinal o' = ob_nextTransportAttemptOrdinal o → ob_completed o' = ob_completed o →
  attempts_ok o → attempts_ok o'.
Proof. intros Hsub Hn Hc [Hord Hnext Hcompleted]. split; rewrite ?Hn, ?Hc; try done. by eapply ordinals_sub. Qed.

Lemma strictly_sorted l : StronglySorted Z.le l → NoDup l → StronglySorted Z.lt l.
Proof.
  induction 1 as [|x l Hs IH Hx]; intros Hd; [constructor|]. apply NoDup_cons in Hd as [Hn Hd]. constructor; [auto|].
  rewrite Forall_forall in Hx |- *. intros y Hy. specialize (Hx y Hy). assert (x ≠ y) by (by intros ->). lia.
Qed.

Lemma sorted_ordinals l : StronglySorted Z.le (ta_ordinal <$> merge_sort attempt_le l).
Proof.
  assert (StronglySorted attempt_le (merge_sort attempt_le l)) as Hs.
  { apply StronglySorted_merge_sort; unfold attempt_le; [intros ???; lia|intros ??; lia]. }
  revert Hs. generalize (merge_sort attempt_le l). induction 1 as [|x k Hs IH Hx]; constructor; [done|]. by apply Forall_fmap.
Qed.

Lemma finalize_attempts o : attempts_ok o → attempts_ok (finalize o).
Proof.
  intros Ho. unfold tryFinalize. case_match; [done|]. destruct (protocol_snapshot _) as [p protocol]. cbv zeta.
  destruct Ho as [Hord Hnext Hc]. split; cbn; try done. apply Forall_app. split; [done|]. apply Forall_singleton. cbn.
  assert (ta_ordinal <$> merge_sort attempt_le (ob_transportAttempts o) ≡ₚ ta_ordinal <$> ob_transportAttempts o) as Hperm
    by (by rewrite merge_sort_Permutation).
  destruct Hord as [[Hd _]%NoDup_app [Hf _]%Forall_app]. split; [|by rewrite Hperm].
  apply strictly_sorted; [apply sorted_ordinals|by rewrite Hperm].
Qed.

Lemma settle_attempts outcome now o : attempts_ok o → attempts_ok (settlePendingTransportAttempts startedAtMono outcome now o).
Proof.
  apply same_attempts; [|done..]. cbn. unfold ordinals. rewrite fmap_app, <- list_fmap_compose, app_nil_r. apply reflexive_eq. f_equal.
Qed.

Lemma complete_pending pending ordinal :
  NoDup pending.*1 → ordinal ∈ pending.*1 → ordinal :: (base.filter (λ p : Z * Z, p.1 ≠ ordinal) pending).*1 ⊆+ pending.*1.
Proof.
  intros Hd Hin.
  assert ((base.filter (λ p : Z * Z, p.1 ≠ ordinal) pending).*1 ⊆+ pending.*1) as Hsub by apply sublist_submseteq, fmap_sublist, sublist_filter.
  apply NoDup_submseteq.
  - apply NoDup_cons. split; [by intros (p & -> & [? _]%list_elem_of_filter)%list_elem_of_fmap|].
    apply submseteq_Permutation in Hsub as [k Hk]. rewrite Hk in Hd. by apply NoDup_app in Hd as [? _].
  - intros x [->|Hx]%elem_of_cons; [done|]. by eapply elem_of_submseteq.
Qed.

(** What keeps the attempts and the records. *)
Definition kept_attempts (o o' : Observer) : Prop :=
  ob_transportAttempts o' = ob_transportAttempts o ∧ ob_pendingTransportAttempts o' = ob_pendingTransportAttempts o
  ∧ ob_nextTransportAttemptOrdinal o' = ob_nextTransportAttemptOrdinal o ∧ ob_completed o' = ob_completed o.

Lemma kept_ok o o' : kept_attempts o o' → attempts_ok o → attempts_ok o'.
Proof. intros (E1 & E2 & E3 & E4). by apply same_attempts; rewrite ?E1, ?E2, ?E3, ?E4. Qed.

Lemma complete_attempts_ok ordinal status outcome now o : attempts_ok o → attempts_ok (step (CompleteAttempt ordinal status outcome) now o).
Proof.
  intros Ho. cbn. destruct (list_find _ _) as [[i [? started]]|] eqn:E; [|done]. revert Ho. intros Ho.
  apply list_find_Some in E as (Hi & Heq & _). cbn in Heq. subst. apply (same_attempts o); [|done..|done].
  destruct Ho as [[[_ [_ Hd]]%NoDup_app _] _ _]. unfold ordinals. cbn. rewrite fmap_app, <- app_assoc. apply submseteq_skips_l. cbn.
  apply complete_pending; [done|]. apply list_elem_of_fmap. exists (ordinal, started). split; [done|]. by eapply list_elem_of_lookup_2.
Qed.

Lemma begin_attempts_ok now o : attempts_ok o → attempts_ok (step BeginAttempt now o).
Proof.
  intros [[Hd Hf] Hn Hc]. set (next := ob_nextTransportAttemptOrdinal o) in *.
  assert (∀ l, Forall (λ ordinal, 1 ≤ ordinal < next) l → Forall (λ ordinal, 1 ≤ ordinal < next + 1) l) as Hup.
  { intros l Hl. eapply Forall_impl; [exact Hl|]. cbn. intros; lia. }
  assert (ordinals (ob_transportAttempts o) (ob_pendingTransportAttempts o ++ [(next, offset startedAtMono now)])
            = ordinals (ob_transportAttempts o) (ob_pendingTransportAttempts o) ++ [next]) as Hl.
  { unfold ordinals. by rewrite fmap_app, app_assoc. }
  split; cbn -[ordinals ordinals_ok]; fold next; [|lia|].
  - rewrite Hl. split.
    + apply NoDup_app. split_and!; [done| |apply NoDup_singleton]. intros x Hx ->%list_elem_of_singleton.
      rewrite Forall_forall in Hf. specialize (Hf _ Hx). lia.
    + apply Forall_app. split; [by apply Hup|]. apply Forall_singleton. lia.
  - eapply Forall_impl; [exact Hc|]. intros x [? ?]. split; [done|by apply Hup].
Qed.

Lemma step_attempts call now o : attempts_ok o → attempts_ok (step call now o).
Proof.
  intros Ho. destruct call; try by apply (kept_ok o).
  1-3: cbn [observer_step]; unfold inspect_bytes; destruct (json_parse bytes); by apply (kept_ok o).
  - by apply begin_attempts_ok.
  - by apply complete_attempts_ok.
  - cbn. case_match; by apply (kept_ok o).
  - apply (kept_ok o); [|done]. cbn. unfold observeSseEvent. cbv zeta. destruct (if sf_dataUtf8 frame =? "[DONE]" then _ else _) as [data|]; [|done].
    destruct (observeStreamEvent _ _) as [p phase]. by destruct phase, (isProtocolTerminal p).
  - apply (kept_ok o); [|done]. cbn. unfold observeJsonChunk. by repeat case_match.
  - cbn. unfold endObservation. cbv zeta. set (o1 := if _ && _ then _ else o).
    assert (kept_attempts o o1) as Hk by (unfold o1; by repeat case_match). clearbody o1. destruct (protocol_snapshot _) as [p protocol].
    apply finalize_attempts, (kept_ok o1); [by case_match|by apply (kept_ok o)].
  - by apply finalize_attempts, (kept_ok o).
  - by apply finalize_attempts, (kept_ok o).
  - cbn. case_match; [done|]. by apply finalize_attempts, (kept_ok o).
  - cbn. case_match; [done|]. by apply finalize_attempts, (kept_ok o).
  - apply finalize_attempts. case_match; [apply settle_attempts|]; by apply (kept_ok o).
  - by apply finalize_attempts, settle_attempts, (kept_ok o).
Qed.

Lemma finalize_next o : ob_nextTransportAttemptOrdinal (finalize o) = ob_nextTransportAttemptOrdinal o.
Proof. unfold tryFinalize. case_match; [done|]. by destruct (protocol_snapshot _). Qed.

Definition begins (call : ExchangeCall) : Z := match call with BeginAttempt => 1 | _ => 0 end.

Lemma step_next call now o : ob_nextTransportAttemptOrdinal (step call now o) = ob_nextTransportAttemptOrdinal o + begins call.
Proof.
  destruct call; cbn -[Z.add]; rewrite ?finalize_next, ?Z.add_0_r; try done.
  1-3: unfold inspect_bytes; by destruct (json_parse bytes).
  - by destruct (list_find _ _) as [[? [? ?]]|].
  - by case_match.
  - unfold observeSseEvent. cbv zeta. destruct (if sf_dataUtf8 frame =? "[DONE]" then _ else _) as [data|]; [|done].
    destruct (observeStreamEvent _ _) as [p phase]. by destruct phase, (isProtocolTerminal p).
  - unfold observeJsonChunk. by repeat case_match.
  - unfold endObservation. cbv zeta. destruct (protocol_snapshot _) as [p protocol]. rewrite finalize_next. by repeat case_match.
  - case_match; [done|]. by rewrite finalize_next.
  - case_match; [done|]. by rewrite finalize_next.
  - by case_match.
Qed.

Lemma run_attempts calls o :
  attempts_ok o →
  attempts_ok (observer_run exchangeId requestPath attribution startedAtMono calls o)
  ∧ ob_nextTransportAttemptOrdinal (observer_run exchangeId requestPath attribution startedAtMono calls o)
    = ob_nextTransportAttemptOrdinal o + foldr (λ c sum, begins c.1 + sum) 0 calls.
Proof.
  unfold observer_run. revert o. induction calls as [|[call now] calls IH]; intros o Ho; cbn -[Z.add]; [split; [done|lia]|].
  destruct (IH (step call now o)) as [? ->]; [by apply step_attempts|]. split; [done|]. rewrite step_next. lia.
Qed.

Lemma new_attempts : attempts_ok new_observer.
Proof. split; cbn; [split; [constructor|done]|lia|done]. Qed.

End settling.

(** ** The totals of a session *)

Definition usage_plus (a b : MutableUsage) : MutableUsage :=
  {| mu_inputTokens := mu_inputTokens a + mu_inputTokens b;
     mu_outputTokens := mu_outputTokens a + mu_outputTokens b;
     mu_thinkingTokens := mu_thinkingTokens a + mu_thinkingTokens b;
     mu_missingThinkingTokenExchanges := mu_missingThinkingTokenExchanges a + mu_missingThinkingTokenExchanges b;
     mu_totalTokens := mu_totalTokens a + mu_totalTokens b;
     mu_cacheReadTokens := mu_cacheReadTokens a + mu_cacheReadTokens b;
     mu_cacheWriteTokens := mu_cacheWriteTokens a + mu_cacheWriteTokens b;
     mu_costUsd := (mu_costUsd a + mu_costUsd b)%Qc;
     mu_observedExchanges := mu_observedExchanges a + mu_observedExchanges b;
     mu_incompleteExchanges := mu_incompleteExchanges a + mu_incompleteExchanges b |}.

(** What one exchange counts, and the sum of a list. *)
Definition usage_of (x : LlmExchangeCompleted) : MutableUsage := add_exchange x emptyUsage.
Definition total (l : list MutableUsage) : MutableUsage := foldr usage_plus emptyUsage l.

Lemma usage_ext a b :
  mu_inputTokens a = mu_inputTokens b → mu_outputTokens a = mu_outputTokens b → mu_thinkingTokens a = mu_thinkingTokens b →
  mu_missingThinkingTokenExchanges a = mu_missingThinkingTokenExchanges b → mu_totalTokens a = mu_totalTokens b →
  mu_cacheReadTokens a = mu_cacheReadTokens b → mu_cacheWriteTokens a = mu_cacheWriteTokens b → mu_costUsd a = mu_costUsd b →
  mu_observedExchanges a = mu_observedExchanges b → mu_incompleteExchanges a = mu_incompleteExchanges b → a = b.
Proof. destruct a, b. cbn. by intros -> -> -> -> -> -> -> -> -> ->. Qed.

(** Equality of totals, field by field. *)
Ltac add_up := apply usage_ext; cbn -[Z.add]; first [lia | change (qc_of_Z 0) with 0%Qc; ring].

Lemma usage_assoc a b c : usage_plus a (usage_plus b c) = usage_plus (usage_plus a b) c.
Proof. add_up. Qed.
Lemma usage_comm a b : usage_plus a b = usage_plus b a.
Proof. add_up. Qed.
Lemma usage_zero a : usage_plus emptyUsage a = a.
Proof. add_up. Qed.
Lemma usage_zero_r a : usage_plus a emptyUsage = a.
Proof. add_up. Qed.
Lemma add_exchange_plus x u : add_exchange x u = usage_plus u (usage_of x).
Proof. add_up. Qed.

Inductive UsageCall := Observed (exchange : LlmExchangeCompleted) | TurnTaken (turnId : string).

(** The accumulator of a session, and the snapshots taken of turns. *)
Definition usage_step (sessionId : string) (trackingPathActive : bool) (state : ObservedUsageAccumulator * list ObservedUsageSnapshot)
    (call : UsageCall) : ObservedUsageAccumulator * list ObservedUsageSnapshot :=
  match call with
  | Observed exchange => (observe_exchange sessionId exchange state.1, state.2)
  | TurnTaken turnId => let '(a, snapshot) := takeTurnSnapshot trackingPathActive turnId state.1 in (a, state.2 ++ [snapshot])
  end.
Definition usage_run (sessionId : string) (trackingPathActive : bool) : list UsageCall → ObservedUsageAccumulator * list ObservedUsageSnapshot :=
  foldl (usage_step sessionId trackingPathActive) (new_usage_accumulator, []).

Definition attributed (sessionId : string) (x : LlmExchangeCompleted) : bool :=
  bool_decide (at_quality (xc_attribution x) = Exact) && bool_decide (at_sessionId (xc_attribution x) = Some sessionId).

Definition in_turn (x : LlmExchangeCompleted) : bool :=
  match at_turnId (xc_attribution x) with Some turnId => negb (turnId =? "") | None => false end.

(** The exchanges of the session, each by its first record. *)
Fixpoint first_records (sessionId : string) (seen : list string) (calls : list UsageCall) : list LlmExchangeCompleted :=
  match calls with
  | [] => []
  | Observed x :: calls =>
      if attributed sessionId x && negb (includes seen (xc_exchangeId x)) then
        x :: first_records sessionId (js_set_add (xc_exchangeId x) seen) calls
      else first_records sessionId seen calls
  | TurnTaken _ :: calls => first_records sessionId seen calls
  end.

Lemma total_app a b : total (a ++ b) = usage_plus (total a) (total b).
Proof. induction a as [|u a IH]; cbn [app total foldr]; [by rewrite usage_zero|]. unfold total in *. by rewrite IH, usage_assoc. Qed.

Lemma total_set (o : object MutableUsage) k u :
  total (obj_set o k (usage_plus (default emptyUsage (obj_get o k)) u)).*2 = usage_plus (total o.*2) u.
Proof.
  induction o as [|[k' v] o IH]; cbn [obj_set obj_get]; [cbn; by rewrite usage_zero, usage_zero_r|].
  case_bool_decide; cbn -[usage_plus total] in *; unfold total in *; cbn [foldr]; [add_up|]. rewrite IH. add_up.
Qed.

Lemma total_take (o : object MutableUsage) k :
  obj_wf o → usage_plus (default emptyUsage (obj_get o k)) (total (base.filter (λ t, t.1 ≠ k) o).*2) = total o.*2.
Proof.
  unfold obj_wf, obj_keys. induction o as [|[k' v] o IH]; intros Hd; cbn [obj_get]; [by rewrite usage_zero|].
  apply NoDup_cons in Hd as [Hn Hd]. rewrite filter_cons. cbn [fst]. case_bool_decide as Hk.
  - subst. rewrite decide_False by naive_solver. cbn -[usage_plus total]. unfold total. cbn [foldr]. f_equal.
    assert (base.filter (λ t : string * MutableUsage, t.1 ≠ k) o = o) as ->; [|done].
    clear IH Hd. induction o as [|[k' v'] o IH]; [done|]. apply not_elem_of_cons in Hn as [Hkk ?]. cbn in Hkk. rewrite filter_cons, decide_True by (cbn; congruence).
    f_equal. auto.
  - rewrite decide_True by done. rewrite fmap_cons. cbn [snd]. specialize (IH Hd). unfold total in *. cbn [foldr]. rewrite (fmap_cons snd). cbn [foldr snd]. rewrite <- IH.
    rewrite !usage_assoc. f_equal. apply usage_comm.
Qed.

Lemma filter_keys_wf {A} (P : string * A → Prop) `{!∀ x, Decision (P x)} (o : object A) : obj_wf o → obj_wf (base.filter P o).
Proof.
  unfold obj_wf, obj_keys. intros Hd. assert ((base.filter P o).*1 ⊆+ o.*1) as [k Hk]%submseteq_Permutation
    by apply sublist_submseteq, fmap_sublist, sublist_filter. rewrite Hk in Hd. by apply NoDup_app in Hd as [? _].
Qed.

Lemma usage_run_conserved sessionId active calls a taken :
  obj_wf (ua_turns a) →
  let '(a', taken') := foldl (usage_step sessionId active) (a, taken) calls in
  let records := first_records sessionId (ua_seen a) calls in
  ua_cumulative a' = usage_plus (ua_cumulative a) (total (usage_of <$> records))
  ∧ usage_plus (total (os_totals <$> taken')) (total (ua_turns a').*2)
    = usage_plus (usage_plus (total (os_totals <$> taken)) (total (ua_turns a).*2)) (total (usage_of <$> List.filter in_turn records)).
Proof.
  revert a taken. induction calls as [|[x|turnId] calls IH]; intros a taken Hwf.
  - cbn. by rewrite !usage_zero_r.
  - cbn [foldl first_records usage_step fst snd].
    destruct (attributed sessionId x && negb (includes (ua_seen a) (xc_exchangeId x))) eqn:E.
    + assert (observe_exchange sessionId x a = {| ua_seen := js_set_add (xc_exchangeId x) (ua_seen a);
        ua_turns := if in_turn x then obj_set (ua_turns a) (default "" (at_turnId (xc_attribution x)))
                      (add_exchange x (default emptyUsage (obj_get (ua_turns a) (default "" (at_turnId (xc_attribution x))))))
                    else ua_turns a;
        ua_cumulative := add_exchange x (ua_cumulative a) |}) as ->.
      { unfold observe_exchange, attributed, in_turn in *. apply andb_true_iff in E as [[-> ->]%andb_true_iff ->%negb_true_iff]. cbn.
        destruct (at_turnId _) as [turn|]; [|done]. cbn. by case_bool_decide. }
      set (a1 := Build_ObservedUsageAccumulator _ _ _). specialize (IH a1 taken). destruct (foldl _ (a1, taken) calls) as [a' taken'].
      destruct IH as [Hc Ht]; [by unfold a1; cbn; destruct (in_turn x); [apply obj_set_wf|]|]. rewrite Hc, Ht. cbn [ua_cumulative ua_seen ua_turns a1].
      cbn [List.filter]. split.
      * rewrite add_exchange_plus, fmap_cons. unfold total. cbn [foldr]. by rewrite usage_assoc.
      * destruct (in_turn x); [|done]. rewrite add_exchange_plus, total_set, fmap_cons. unfold total at 6. cbn [foldr].
        fold (total (usage_of <$> List.filter in_turn (first_records sessionId (js_set_add (xc_exchangeId x) (ua_seen a)) calls))).
        by rewrite !usage_assoc.
    + assert (observe_exchange sessionId x a = a) as ->.
      { unfold observe_exchange, attributed in *. revert E. rewrite !andb_false_iff, negb_false_iff.
        intros [[-> | ->]| ->]; cbn; by rewrite ?orb_true_r. }
      by apply IH.
  - cbn [foldl first_records usage_step fst snd takeTurnSnapshot]. set (a1 := Build_ObservedUsageAccumulator _ _ _).
    specialize (IH a1 (taken ++ [usage_snapshot (default emptyUsage (obj_get (ua_turns a) turnId)) active])).
    destruct (foldl _ (a1, _) calls) as [a' taken']. destruct IH as [Hc Ht].
    { by apply filter_keys_wf. }
    split; [done|]. rewrite Ht, fmap_app, total_app. cbn -[usage_plus total]. rewrite <- (total_take (ua_turns a) turnId) by done. add_up.
Qed.

Lemma first_records_spec sessionId calls seen :
  NoDup (xc_exchangeId <$> first_records sessionId seen calls)
  ∧ (∀ id, id ∈ xc_exchangeId <$> first_records sessionId seen calls ↔
       id ∉ seen ∧ ∃ x, Observed x ∈ calls ∧ attributed sessionId x = true ∧ xc_exchangeId x = id).
Proof.
  revert seen. induction calls as [|[x|turnId] calls IH]; intros seen; cbn [first_records].
  - split; [constructor|]. intros id. split; [by intros ?%elem_of_nil|by intros (_ & x & ?%elem_of_nil & _)].
  - destruct (attributed sessionId x) eqn:Ea; cbn [andb].
    + destruct (includes seen (xc_exchangeId x)) eqn:Es; cbn [negb].
      * apply includes_spec in Es. destruct (IH seen) as [Hd Hin]. split; [done|]. intros id. rewrite Hin. split.
        -- intros (? & y & ? & ?). split; [done|]. exists y. split; [by right|done].
        -- intros (? & y & [[= ->]|?]%elem_of_cons & ? & <-); [done|]. split; [done|]. by exists y.
      * assert (xc_exchangeId x ∉ seen) as Hn by (intros Hs; apply includes_spec in Hs; congruence).
        destruct (IH (js_set_add (xc_exchangeId x) seen)) as [Hd Hin]. rewrite fmap_cons. split.
        -- apply NoDup_cons. split; [|done]. rewrite Hin, elem_of_js_set_add. naive_solver.
        -- intros id. rewrite elem_of_cons, Hin, elem_of_js_set_add. split.
           ++ intros [->|(? & y & ? & ? & ?)]; [split; [done|]; exists x; split; [by left|done]|].
              split; [naive_solver|]. exists y. split; [by right|done].
           ++ intros (? & y & [[= ->]|?]%elem_of_cons & ? & <-); [by left|]. destruct (decide (xc_exchangeId y = xc_exchangeId x)); [by left|].
              right. split; [naive_solver|]. by exists y.
    + destruct (IH seen) as [Hd Hin]. split; [done|]. intros id. rewrite Hin. split.
      * intros (? & y & ? & ?). split; [done|]. exists y. split; [by right|done].
      * intros (? & y & [[= ->]|?]%elem_of_cons & ? & <-); [congruence|]. split; [done|]. by exists y.
  - destruct (IH seen) as [Hd Hin]. split; [done|]. intros id. rewrite Hin. split.
    + intros (? & y & ? & ?). split; [done|]. exists y. split; [by right|done].
    + intros (? & y & [?|?]%elem_of_cons & ?); [done|]. split; [done|]. by exists y.
Qed.

Lemma recorded_clean `{Runtime} {S G : Type} `{CleanProtocol S} `{CleanGateway G} exchangeId requestPath attribution startedAtMono calls x :
  x ∈ ob_completed (observer_run (S := S) (G := G) exchangeId requestPath attribution startedAtMono calls new_observer) →
  exchange_clean (mjoin ((λ c, passed_flags c.1) <$> calls)) x ∧ usage_sound (xc_usage x).
Proof.
  intros Hx. set (passed := mjoin ((λ c : ExchangeCall * Z, passed_flags c.1) <$> calls)).
  assert (∀ (c : ExchangeCall * Z) flag, c ∈ calls → flag ∈ passed_flags c.1 → flag ∈ passed) as Hpassed.
  { intros c flag Hc Hflag. apply list_elem_of_join. exists (passed_flags c.1). split; [done|].
    by apply (list_elem_of_fmap_2 (λ c : ExchangeCall * Z, passed_flags c.1)). }
  eapply Forall_forall in Hx; [|by eapply (obc_completed passed), run_clean]. done.
Qed.

(** ** Claims *)

(** C33. Whatever the agent, the provider and the gateway send (headers, whole bodies,
    stream frames, in any order and any number), for every protocol adapter and every gateway
    adapter, the record of an exchange holds no content: each model, request, response and
    generation name is an identifier of at most 256 letters, digits and signs of a fixed
    list, without a blank or a control character; each provider name is a label of at most
    128 such characters, among which blanks, brackets and ampersands count too, so that a
    name of several words is kept; each tier, effort, speed and refusal category is a word
    of a fixed vocabulary, there are at most 64 route attempts with such names and real
    statuses, and each quality flag is one of a fixed vocabulary or one that the proxy passed
    itself. *)
Theorem metrics_content_free `{Runtime} {S G : Type} `{CleanProtocol S} `{CleanGateway G} exchangeId requestPath attribution startedAtMono calls x :
  x ∈ ob_completed (observer_run (S := S) (G := G) exchangeId requestPath attribution startedAtMono calls new_observer) →
  exchange_clean (mjoin ((λ c, passed_flags c.1) <$> calls)) x.
Proof. apply recorded_clean. Qed.

(** The usage in every record adds up, whatever the counts that the provider reported,
    repeated, contradicted or left out: every count is a natural number below 2^53; the
    canonical total is there exactly when both totals are and their sum is in that range,
    and it is that sum; thinking and other output tokens sum to the output tokens, uncached
    and cached tokens to the input tokens; and the usage is called complete exactly when
    some was seen and both totals are known, missing exactly when none was seen. *)
Theorem usage_adds_up `{Runtime} {S G : Type} `{CleanProtocol S} `{CleanGateway G} exchangeId requestPath attribution startedAtMono calls x :
  x ∈ ob_completed (observer_run (S := S) (G := G) exchangeId requestPath attribution startedAtMono calls new_observer) →
  usage_sound (xc_usage x).
Proof. apply recorded_clean. Qed.

(** C34. An exchange is recorded exactly once, at the call with which the last of its three
    ends has been reported (the observation of the response, the response of the provider, the
    delivery to the client), whatever the order of the calls and however often they repeat;
    until then it is not recorded.  The attempts in the record come in the order in which
    they began, each once, and each is an attempt that began. *)
Theorem exchange_settles_once `{Runtime} {S G : Type} `{LlmProtocolAdapter S} `{LlmGatewayAdapter G} exchangeId requestPath attribution startedAtMono calls :
  let o := observer_run (S := S) (G := G) exchangeId requestPath attribution startedAtMono calls new_observer in
  length (ob_completed o) = (if settled calls then 1 else 0)%nat
  ∧ ∀ x, x ∈ ob_completed o →
      StronglySorted Z.lt (ta_ordinal <$> xc_transportAttempts x)
      ∧ ∀ attempt, attempt ∈ xc_transportAttempts x → 1 ≤ ta_ordinal attempt ≤ foldr (λ c sum, begins c.1 + sum) 0 calls.
Proof.
  cbv zeta. split.
  - destruct (run_progress exchangeId requestPath attribution startedAtMono calls (new_observer (S := S) (G := G))) as [Hends [Hf ->]]; [done|].
    rewrite Hf, Hends. unfold settled, all3, or3. cbn. by case_match.
  - intros x Hx. destruct (run_attempts exchangeId requestPath attribution startedAtMono calls (new_observer (S := S) (G := G)) new_attempts) as [Ho Hn].
    eapply Forall_forall in Hx; [|apply (ao_completed _ Ho)]. destruct Hx as [? Hb]. split; [done|]. intros attempt Hattempt.
    rewrite Hn in Hb. eapply Forall_forall in Hb; [|by apply list_elem_of_fmap_2]. cbn -[Z.add] in Hb. lia.
Qed.

(** The totals of a session count every exchange attributed to it exactly once, by its
    first record, however often exchanges are reported, whatever other sessions report,
    and whenever snapshots of turns are taken: the cumulative totals are the sum over these
    exchanges, and the snapshots of turns with the turns still open are together the
    sum over those that belong to a turn, so that nothing is lost or counted in two
    turns. *)
Theorem usage_conserved sessionId trackingPathActive calls :
  let '(a, taken) := usage_run sessionId trackingPathActive calls in
  let records := first_records sessionId [] calls in
  ua_cumulative a = total (usage_of <$> records)
  ∧ usage_plus (total (os_totals <$> taken)) (total (ua_turns a).*2) = total (usage_of <$> List.filter in_turn records)
  ∧ NoDup (xc_exchangeId <$> records)
  ∧ (∀ id, id ∈ xc_exchangeId <$> records ↔ ∃ x, Observed x ∈ calls ∧ attributed sessionId x = true ∧ xc_exchangeId x = id).
Proof.
  unfold usage_run. pose proof (usage_run_conserved sessionId trackingPathActive calls new_usage_accumulator []) as Hrun.
  destruct (foldl _ _ calls) as [a taken]. destruct Hrun as [-> ->]; [constructor|]. cbv zeta. cbn [ua_seen ua_turns ua_cumulative new_usage_accumulator].
  cbn [fmap list_fmap total foldr]. rewrite !usage_zero. split_and!; [done|done|apply first_records_spec|].
  intros id. rewrite (proj2 (first_records_spec _ _ _)). split; [by intros (_ & ?)|]. intros ?. split; [by intros ?%elem_of_nil|done].
Qed.

(** ** Witnesses *)

Definition sample_payload (text : string) : option jsvalue :=
  if text =? "request" then Some (VObj [("model", VStr "claude-sonnet"); ("stream", VBool true); ("prompt", VStr "a secret, with blanks")])
  else if text =? "start" then
    Some (VObj [("type", VStr "message_start");
                ("message", VObj [("model", VStr "claude-sonnet"); ("id", VStr "msg_1");
                                  ("usage", VObj [("input_tokens", VNum (num_of_Z 7)); ("cache_read_input_tokens", VNum (num_of_Z 2));
                                                  ("cache_creation_input_tokens", VNum (num_of_Z 0))])])])
  else if text =? "delta" then
    Some (VObj [("type", VStr "message_delta"); ("delta", VObj [("stop_reason", VStr "a secret reason")]);
                ("usage", VObj [("output_tokens", VNum (num_of_Z 5))])])
  else None.

Definition sample_runtime : Runtime :=
  {| sha256_hex := λ s, s; number_to_string := λ _, ""; json_parse := sample_payload; json_stringify := λ _, ""; date_parse := λ _, None |}.

Definition sample_attribution : LlmExchangeAttribution :=
  {| at_sessionId := Some "session"; at_agentConversationId := None; at_turnId := Some "turn"; at_bundleId := None; at_workflowRunId := None;
     at_stateId := None; at_personaId := None; at_agentId := None; at_quality := Exact |}.

Definition sample_calls : list (ExchangeCall * Z) :=
  [(OriginalRequest "request", 1); (ForwardedRequest "request", 2); (BeginAttempt, 3); (CompleteAttempt 1 (Some 200) AttemptResponse, 4);
   (ResponseHeaders 200 [("Request-Id", HeaderText "req_1")], 5); (SseEvent {| sf_eventType := ""; sf_dataUtf8 := "start" |}, 6);
   (SseEvent {| sf_eventType := ""; sf_dataUtf8 := "delta" |}, 7); (SseEvent {| sf_eventType := ""; sf_dataUtf8 := "not parsed" |}, 8);
   (QualityFlag "reused_connection", 8); (ObservationEnd true, 9); (UpstreamEnd, 10); (DeliveryEnd false, 11)].

Local Abbreviation sample_run :=
  (observer_run (H := sample_runtime) (S := Anthropic.AnthropicMessagesAccumulator) (G := OpenRouter.OpenRouterGatewayAccumulator)
     "exchange" "/v1/messages" sample_attribution 0 sample_calls new_observer).

Lemma sample_recorded :
  (λ x, (si_value (xc_requestedModel x), canonicalTotalTokens (xc_usage x), xc_qualityFlags x)) <$> ob_completed sample_run
    = [(Some "claude-sonnet", Some 14, ["malformed_sse_json"; "reused_connection"])].
Proof. vm_compute. reflexivity. Qed.

Lemma sample_exists : ∃ x, x ∈ ob_completed sample_run.
Proof. pose proof sample_recorded as E. destruct (ob_completed sample_run) as [|x l]; [done|]. exists x. left. Qed.

Lemma metrics_content_free_witness : ∃ x, x ∈ ob_completed sample_run ∧ exchange_clean (mjoin ((λ c, passed_flags c.1) <$> sample_calls)) x.
Proof.
  destruct sample_exists as [x Hx]. exists x. split; [exact Hx|].
  exact (metrics_content_free (H := sample_runtime) "exchange" "/v1/messages" sample_attribution 0 sample_calls x Hx).
Defined.

Lemma usage_adds_up_witness : ∃ x, x ∈ ob_completed sample_run ∧ usage_sound (xc_usage x).
Proof.
  destruct sample_exists as [x Hx]. exists x. split; [exact Hx|].
  exact (usage_adds_up (H := sample_runtime) "exchange" "/v1/messages" sample_attribution 0 sample_calls x Hx).
Defined.
